(* ===== verification/_CoqProject ===== *)
-Q . S2P
Prelude.v
Atomic.v
Ord.v
Tag.v
RefCounted.v
AtomicShared.v
LinkedList.v
Collector.v
CollectorInv.v
CollectorOwn.v
CollectorShift.v
CollectorDrop.v
CollectorList.v
CollectorScan.v
CollectorOps.v
CollectorProps.v
Bag.v
Lru.v
WaitQueue.v
BucketLock.v
LockConc.v
Bucket.v
BucketInv.v
BucketQuery.v
BucketOps.v
BucketSpec.v
BucketLinks.v
BucketDrop.v
BucketIter.v
BucketProps.v
BucketLru.v
BucketArray.v
Rehash.v
HashTable.v
TableInv.v
TableRelocate.v
TableRehash.v
TableResize.v
TableOps.v
TableKey.v
TableScan.v
TableDrop.v
TableEntry.v
TableIter.v
TableProps.v
TableReserve.v
HashMap.v
MapSpec.v
MapProps.v
HashSet.v
SetProps.v
HashCache.v
CacheProps.v
HashIndex.v
IndexIter.v
IndexSpec.v
IndexProps.v
Dimension.v
Leaf.v
LeafInv.v
LeafState.v
LeafSeq.v
LeafScan.v
LeafProps.v
LeafConc.v
TreeStore.v
TreeLeafNode.v
TreeNode.v
TreeIndex.v
TreeRep.v
TreeSearch.v
TreeCtx.v
TreeCommit.v
TreeInsertLeaf.v
TreeSplitNode.v
TreeInsert.v
TreeRoot.v
TreeIter.v
TreeProps.v
