(* ===== verification/Prelude.v ===== *)
(** * Scalable concurrent containers

    A development about the crate [scc] (the sources are under [src/src/]): hash
    containers, a tree index and lock-free containers on top of an epoch-based garbage
    collector.  File names without a directory are those of this library.

    ** The parts of the program and where they are modelled

    The containers are layers of small lock-free components.

    - [src/ebr/]: tagged pointers, reference counts, the collector.  [Tag] models [tag.rs]
      and [ptr.rs] (a pointer is a word with two tag bits); [RefCounted] models
      [ref_counted.rs] and [shared.rs], with an interface to the collector; [AtomicShared]
      models [atomic_shared.rs]; [Collector] models [collector.rs], [guard.rs] and
      [collectible.rs] on a store of collectors, for any number of threads.
    - [src/linked_list.rs]: [LinkedList], a type class on a store whose entries have links,
      with the functions of the trait and what they do.
    - [src/bag.rs]: [Bag] models [Storage], an array of slots with a bitmap word.
    - [src/wait_queue.rs]: [WaitQueue] models the queue of threads and tasks.
    - [src/hash_table/bucket.rs]: a bucket is a lock, a small hash table and, in a cache, an
      LRU list.  [BucketLock] models [Locker] and [Reader], [Lru] the list, and [Bucket] the
      contents with [EntryPtr]; the type of a bucket ([SEQUENTIAL], [OPTIMISTIC], [CACHE])
      is a parameter, as in the code.
    - [src/hash_table/bucket_array.rs]: [BucketArray] models sizes, indices and placement,
      with the arithmetic of [usize] and the answers of the allocator ([Memory]); its drop
      is in [HashTable].
    - [src/hash_table.rs]: [Rehash] models the word by which threads share the relocation of
      an array, and [HashTable] every synchronous operation of the trait on a memory of
      arrays: what the hash containers are made of, [LockedEntry] included.
    - [src/hash_map.rs], [hash_set.rs], [hash_cache.rs], [hash_index.rs]: [HashMap],
      [HashSet], [HashCache] and [HashIndex], with the handles ([OccupiedEntry],
      [VacantEntry], [Entry]), [Reserve] and the iterator of the index.
    - [src/tree_index/leaf.rs]: [Dimension] models the metadata word of a leaf and [Leaf]
      all of its operations.
    - [src/tree_index/leaf_node.rs], [internal_node.rs], [node.rs] and [src/tree_index.rs]:
      [TreeStore] is the memory of a tree, with the structures of the nodes; [TreeLeafNode],
      [TreeNode] and [TreeIndex] model the functions, file by file.

    The operations call each other the way the code does: a container runs the operations of
    [HashTable], [HashTable] those of [Bucket] on a bucket of an array of its memory
    ([at_bucket]), [Bucket] those of [Lru] on its list ([zoom_lru]), [BucketLock] those of
    [WaitQueue]; a tree runs the operations of [Leaf] on a leaf or on the children of a node,
    those of [AtomicShared] on its cells, and those of [LinkedList] on the links of its
    leaves.

    ** The language of the models

    [Atomic] has a monad, [prog St A], of programs over a shared state [St]: an atomic
    instruction ([Act], and [load], [store], [fetch_update], [compare_exchange] and its weak
    form), [Ret], [Panic] for a failed [debug_assert!] or [unwrap], undefined behaviour or an
    index out of bounds, [NoMemory] for an array that cannot be allocated, and [OutOfFuel].  A loop of the code is [loop n body], in which the
    body says whether it breaks or continues.  The words of the code are integers kept in
    their range: an overflow that a debug build would detect is written out where the code
    can reach it.

    The same definitions have two semantics.  [run] is one thread alone.  [pool_step]
    interleaves any number of threads, one atomic instruction at a time, sequentially
    consistent, with spurious failures of the weak exchanges.  Weak memory orderings are not
    modelled.  The theorems called [.._concurrent] and those on the collector are on all the
    interleavings; their proofs give each thread a ghost value, an invariant on all of them
    and the shared state, and one rule ([wp]) per instruction.  The others are on [run], and
    say [runs p s post]: the program returns, without a panic, and without running out of
    fuel; where the state may refuse memory ([Refuses]), it may instead end as [Refused],
    which is how a run ends that comes to [NoMemory].

    A hash table carries a [Memory]: the sizes of its types and what the allocator answers
    to each request.  An array whose size overflows, has no layout or is not granted ends
    the run as [Refused] (the code panics there).  The theorems on tables and containers
    hold for every [Memory] and ask that the run is [served], that is, that no array is
    refused to it; their examples compute it for a memory that is plentiful.

    ** The theorems

    The primitives.
    - [Atomic], [Prelude], [Ord]: the soundness of the rules, machine words, sorting.
    - [Tag.tag_roundtrip]: a tag does not disturb the pointer or whether it is null, nor the
      pointer the tag.
    - [RefCounted.refcount_concurrent]: however threads clone, release and drop the handles
      of an instance, it is passed to the collector once, when no handle is left.
    - [CollectorInv] is the invariant of the collector, [CollectorOwn], [CollectorShift],
      [CollectorDrop], [CollectorList], [CollectorScan] and [CollectorOps] its preservation.
      [CollectorProps.ebr_grace_period]: if every announced epoch was the global one, no
      instance is dropped under a guard older than its retirement, and no collector is used
      after it was freed.  [ebr_stale_epoch] and [ebr_exit_guard] are executions in which
      that fails: with an announcement that is late, and in the destructors that run while
      the last thread exits.  The state has history fields that the code does not read ([now],
      [stale], and [violated]: which instances were dropped under the guard of which
      collector).
    - [Bag.storage_concurrent]: no value is lost, duplicated or read half-written.
    - [WaitQueue.signal_fifo]: a signal wakes up every entry, the oldest one first.

    Hash containers.
    - [LockConc.bucket_lock_concurrent]: mutual exclusion, no wait entry is used after it was
      freed, no lost wake-up, nobody is left waiting when all have finished.
    - [Lru.lru_refines]: the list in an array is the list in the order of use.
    - [BucketInv] describes a bucket by maps from slots to entries; [BucketQuery],
      [BucketOps], [BucketSpec], [BucketLinks], [BucketDrop] and [BucketIter] have the
      specification of each operation; [BucketProps] the theorems on sequences of them (a
      bucket is a map; every entry is dropped or handed back once; a loop visits every entry
      once), and [BucketLru] that on the buckets of a cache.
    - [BucketArray]: the spread of a bucket over its successors, bounds, alignment
      ([place_buckets_cases]); when there is an array ([array_new_capacity]); and what
      unchecked arithmetic makes of the sizes beyond [2 ^ 62] entries ([array_layout_wraps]).
    - [TableInv] describes a table with an old array and garbage; [TableRelocate],
      [TableRehash], [TableResize], [TableOps], [TableKey], [TableScan] and [TableDrop] have
      the specifications; [TableProps] the theorems on sequences of operations (a table is a
      map through every resize; nothing leaks and nothing is dropped twice; scans are
      complete; the capacity is bounded).  They ask that reservations are bounded ([setting]):
      the minimum capacity, which a reservation raises, stays within 32 times the greater of
      64 and the first minimum capacity.  [reserve_panics] is an execution beyond that bound,
      in which the next insertion panics.
    - [TableEntry] (with what a cache and an index do through a handle), [TableIter] and
      [TableReserve] have the specifications of handles, of iteration through them, of
      creation and of reservations.
    - [MapSpec] and [MapProps], [SetProps], [CacheProps], [IndexIter], [IndexSpec] and
      [IndexProps]: a program that creates a container and uses its functions and its
      handles answers what it does on a finite map or set ([.._refines_map], [.._refines_set];
      in a cache, up to the entries that it evicts), with the same bound on reservations
      ([map_setting], [set_setting], [index_setting]; [reservable]); clones, comparisons, iterations; and two
      defects: [cache_evicts_used_entry] and [index_iter_not_fused].

    The tree index.
    - [LeafInv], [LeafState], [LeafSeq], [LeafScan], [LeafProps]: the functional behaviour
      of each operation of a leaf on a leaf at rest; [LeafConc.leaf_concurrent]: the same
      operations by any number of threads keep the leaf sorted and lose nothing, and
      [rollback_spurious_duplicate] is an execution in which an insertion reports a key
      that is not there.
    - [TreeRep]: a subtree as a dependently typed [shape], what the memory holds of it
      ([rep]), its addresses ([foot]), and the interval of its keys ([bounded]).
    - [TreeSearch]: search, minimum, scanners that jump from leaf to leaf, depth.
    - [TreeCtx], [TreeCommit], [TreeInsertLeaf], [TreeSplitNode], [TreeInsert]: insertion at
      any height.  A full node hands its split up as [pending] and stays locked, its parent
      splits it ([split_node_spec]), and the commit unlocks the path.
    - [TreeRoot]: the root, the sorted list that is the specification ([put], [get]), and
      insertion into a tree that [holds] such a list; [TreeIter]: iterators.
    - [TreeProps]: a program that creates an index, inserts, searches, iterates and clears
      answers what it does on a sorted list ([tree_index_refines_sorted_map]); iteration is
      in order and complete; and a defect, [tree_iter_not_fused].

    ** Bounds and fuel

    The structural loops have exact bounds: 33 steps over a 32-bit bitmap, one more than the
    slots of a leaf, the number of old buckets for [clear_old_array].  The parameter [n]
    bounds the loops that only retry, of which a thread alone needs one round or a few, and
    walks over linked buckets or leaves, which number at most a multiple of the insertions:
    the theorems ask for [n] above that number and no more.  The parameter [d] bounds the
    depth of the recursion of a tree: one level per insertion is enough.  The [fuel] of an
    iterator of an index exceeds the number of buckets.  In the concurrent theorems a loop
    that runs out of fuel is a thread that has not finished, and the statements hold for any
    [n].  The counters of a bucket have 32 bits: sequences have at most 2^32 - 1 operations.

    ** What is not modelled

    - Weak memory: all instructions are sequentially consistent.
    - The links of the garbage lists of a collector, which are lists here, and destructors
      that panic.  The reference counts of the nodes of a tree: nothing of its memory is
      deallocated.
    - The asynchronous variants, which repeat the synchronous code around an [await]; the
      waiting of a task is modelled in [WaitQueue] and [BucketLock].
    - The allocation of linked buckets, nodes and handles, by [Box], does not fail; the memory
      that is refused to an array is the only one.
    - Panics in user code while an operation runs: hash functions, comparisons and the
      predicates are total functions here.
    - Concurrent threads on a whole table or a whole tree: the theorems on these are about
      one thread, those on all interleavings about the components they are made of.
    - [TreeIndex::remove_range], [Clone] and [PartialEq] of [TreeIndex] and [HashIndex] and
      [PartialEq] of [HashCache]; [Debug] of every type; the removals and ranges of a tree
      are modelled, without theorems.
    - The stack, the queue, [AtomicOwned] and [Owned], [serde.rs], [exit_guard.rs], tests. *)
From stdpp Require Export base tactics numbers list gmap relations.
From Stdlib Require Export ZArith Lia.
From Stdlib Require Import Permutation.

Create HintDb word.
Create Rewrite HintDb word.
Create HintDb scc.

Declare Scope scc_scope.
Delimit Scope scc_scope with scc.

(** ** Machine words

    An unsigned integer of [w] bits is a [Z] in [0, 2^w).  The operations below
    are the ones of Rust's [core::num] that the sources call. *)

Local Open Scope Z_scope.

(** The values of an unsigned integer type of [w] bits. *)
Definition in_word (w : nat) (x : Z) : Prop := 0 ≤ x < 2 ^ Z.of_nat w.

(** [x as uW]: truncation to [w] bits. *)
Definition wrap (w : nat) (x : Z) : Z := x mod 2 ^ Z.of_nat w.

(** [uW::MAX] *)
Definition umax (w : nat) : Z := 2 ^ Z.of_nat w - 1.

(** [!x] on [w] bits. *)
Definition unot (w : nat) (x : Z) : Z := Z.ldiff (Z.ones (Z.of_nat w)) x.

(** [1_uW << i], for [i] below the width. *)
Definition one_shl (i : nat) : Z := Z.shiftl 1 (Z.of_nat i).

(** [x >> i] *)
Definition ushr (x : Z) (i : nat) : Z := Z.shiftr x (Z.of_nat i).

(** [x << i] for a result that fits its type. *)
Definition ushl (x : Z) (i : nat) : Z := Z.shiftl x (Z.of_nat i).

(** Bit [i] of [x]. *)
Definition bit (x : Z) (i : nat) : bool := Z.testbit x (Z.of_nat i).

(** [x.trailing_zeros()] on [w] bits. *)
Fixpoint trailing_zeros (w : nat) (x : Z) : nat :=
  match w with
  | O => O
  | S w' => if Z.odd x then O else S (trailing_zeros w' (Z.div2 x))
  end.

(** [x.trailing_ones()] on [w] bits. *)
Definition trailing_ones (w : nat) (x : Z) : nat := trailing_zeros w (unot w x).

(** [x.count_ones()] on [w] bits. *)
Fixpoint count_ones (w : nat) (x : Z) : nat :=
  match w with
  | O => O
  | S w' => ((if Z.odd x then 1 else 0) + count_ones w' (Z.div2 x))%nat
  end.

(** [x.leading_zeros()] on [w] bits. *)
Definition leading_zeros (w : nat) (x : Z) : Z :=
  if x =? 0 then Z.of_nat w else Z.of_nat w - 1 - Z.log2 x.

(** [x.next_power_of_two()], when the result fits the type. *)
Definition next_power_of_two (x : Z) : Z := 2 ^ Z.log2_up x.

(** [x.saturating_sub(y)] *)
Definition saturating_sub (x y : Z) : Z := Z.max 0 (x - y).

(** ** Bits *)

Lemma bit_spec_ones w i : bit (Z.ones (Z.of_nat w)) i = bool_decide (i < w)%nat.
Proof.
  unfold bit. case_bool_decide.
  - apply Z.ones_spec_low; lia.
  - apply Z.ones_spec_high; lia.
Qed.

Lemma bit_unot w x i : bit (unot w x) i = bool_decide (i < w)%nat && negb (bit x i).
Proof. unfold bit, unot. rewrite Z.ldiff_spec. f_equal. apply bit_spec_ones. Qed.

Lemma bit_unot_low w x i : (i < w)%nat → bit (unot w x) i = negb (bit x i).
Proof. intros ?. rewrite bit_unot, bool_decide_true; auto. Qed.

Lemma bit_lor x y i : bit (Z.lor x y) i = bit x i || bit y i.
Proof. apply Z.lor_spec. Qed.

Lemma bit_land x y i : bit (Z.land x y) i = bit x i && bit y i.
Proof. apply Z.land_spec. Qed.

Lemma bit_one_shl i j : bit (one_shl i) j = bool_decide (i = j).
Proof.
  unfold bit, one_shl. rewrite Z.shiftl_1_l.
  case_bool_decide; subst.
  - apply Z.pow2_bits_true; lia.
  - apply Z.pow2_bits_false; lia.
Qed.

Lemma bit_ushr x i j : bit (ushr x i) j = bit x (j + i).
Proof. unfold bit, ushr. rewrite Z.shiftr_spec by lia. f_equal; lia. Qed.

Lemma bit_ushl x i j : bit (ushl x i) j = bool_decide (i ≤ j)%nat && bit x (j - i).
Proof.
  unfold bit, ushl. case_bool_decide.
  - rewrite Z.shiftl_spec by lia. simpl. f_equal; lia.
  - simpl. apply Z.shiftl_spec_low; lia.
Qed.

Lemma bit_0 i : bit 0 i = false.
Proof. apply Z.bits_0. Qed.

#[export] Hint Rewrite bit_lor bit_land bit_one_shl bit_ushr bit_ushl bit_0 : word.
#[export] Hint Rewrite bit_unot_low using lia : word.

Lemma bit_wrap w x i : bit (wrap w x) i = bool_decide (i < w)%nat && bit x i.
Proof.
  unfold bit, wrap. case_bool_decide; simpl.
  - apply Z.mod_pow2_bits_low; lia.
  - apply Z.mod_pow2_bits_high; lia.
Qed.

#[export] Hint Rewrite bit_wrap : word.

Lemma bit_high w x i : in_word w x → (w ≤ i)%nat → bit x i = false.
Proof.
  intros [? ?] ?. rewrite <-(Z.mod_small x (2 ^ Z.of_nat w)) by lia.
  unfold bit. apply Z.mod_pow2_bits_high; lia.
Qed.

Lemma bit_true_lt w x i : in_word w x → bit x i = true → (i < w)%nat.
Proof.
  intros Hx Hb. destruct (decide (i < w)%nat); [done |].
  rewrite (bit_high w) in Hb by (auto with lia). done.
Qed.

(** Two words are equal when their bits are. *)
Lemma word_ext w x y :
  in_word w x → in_word w y → (∀ i, (i < w)%nat → bit x i = bit y i) → x = y.
Proof.
  intros Hx Hy Heq. apply Z.bits_inj'. intros n Hn.
  rewrite <-(Z2Nat.id n) by lia. fold (bit x (Z.to_nat n)) (bit y (Z.to_nat n)).
  destruct (decide (Z.to_nat n < w)%nat); [auto |].
  rewrite !(bit_high w) by (auto with lia). done.
Qed.

Lemma in_word_bits w x :
  0 ≤ x → (∀ i, (w ≤ i)%nat → bit x i = false) → in_word w x.
Proof.
  intros Hx Hb. split; [done |].
  destruct (decide (x = 0)) as [-> |]; [lia |].
  apply Z.log2_lt_pow2; [lia |].
  destruct (decide (Z.log2 x < Z.of_nat w)); [done |].
  specialize (Hb (Z.to_nat (Z.log2 x)) ltac:(lia)).
  unfold bit in Hb. rewrite Z2Nat.id in Hb by apply Z.log2_nonneg.
  rewrite Z.bit_log2 in Hb by lia. done.
Qed.

Lemma in_word_lor w x y : in_word w x → in_word w y → in_word w (Z.lor x y).
Proof.
  intros Hx Hy. apply in_word_bits.
  - apply Z.lor_nonneg. unfold in_word in *; lia.
  - intros i Hi. rewrite bit_lor, !(bit_high w); auto.
Qed.

Lemma in_word_land_l w x y : in_word w x → in_word w (Z.land x y).
Proof.
  intros Hx. apply in_word_bits.
  - apply Z.land_nonneg. unfold in_word in *; lia.
  - intros i Hi. rewrite bit_land, (bit_high w x); auto.
Qed.

Lemma in_word_one_shl w i : (i < w)%nat → in_word w (one_shl i).
Proof.
  intros Hi. apply in_word_bits.
  - unfold one_shl. apply Z.shiftl_nonneg. lia.
  - intros j Hj. rewrite bit_one_shl, bool_decide_false; [done | lia].
Qed.

Lemma in_word_unot w x : in_word w (unot w x).
Proof.
  apply in_word_bits.
  - unfold unot. apply Z.ldiff_nonneg. left.
    rewrite Z.ones_equiv. pose proof (Z.pow_pos_nonneg 2 (Z.of_nat w)). lia.
  - intros i Hi. rewrite bit_unot, bool_decide_false; [done | lia].
Qed.

Lemma in_word_wrap w x : in_word w (wrap w x).
Proof. apply Z.mod_pos_bound. lia. Qed.

Lemma in_word_0 w : in_word w 0.
Proof. unfold in_word. lia. Qed.

Lemma in_word_ushr w x i : in_word w x → in_word w (ushr x i).
Proof.
  intros Hx. apply in_word_bits.
  - unfold ushr. apply Z.shiftr_nonneg. unfold in_word in Hx; lia.
  - intros j Hj. rewrite bit_ushr. apply (bit_high w); [done | lia].
Qed.

Lemma in_word_le w w' x : (w ≤ w')%nat → in_word w x → in_word w' x.
Proof.
  unfold in_word. intros. pose proof (Z.pow_le_mono_r 2 (Z.of_nat w) (Z.of_nat w')). lia.
Qed.

#[export] Hint Resolve in_word_lor in_word_land_l in_word_one_shl in_word_unot
  in_word_wrap in_word_0 in_word_ushr : word.

Lemma wrap_id w x : in_word w x → wrap w x = x.
Proof. intros. apply Z.mod_small. done. Qed.

Lemma word_zero_iff w x : in_word w x → x = 0 ↔ ∀ i, (i < w)%nat → bit x i = false.
Proof.
  intros Hx. split.
  - intros -> i _. apply bit_0.
  - intros Hb. apply (word_ext w); auto with word.
    intros i Hi. rewrite bit_0. auto.
Qed.

Lemma word_nonzero_bit w x : in_word w x → x ≠ 0 → ∃ i, (i < w)%nat ∧ bit x i = true.
Proof.
  intros [Hx Hlt] Hne. exists (Z.to_nat (Z.log2 x)).
  assert (0 < x) by lia.
  split.
  - apply Z.log2_lt_pow2 in Hlt; [| lia]. pose proof (Z.log2_nonneg x). lia.
  - unfold bit. rewrite Z2Nat.id by apply Z.log2_nonneg. apply Z.bit_log2. lia.
Qed.

(** Subtracting a set bit clears it: [bitmap -= 1 << i]. *)
Lemma sub_one_shl x i : bit x i = true → x - one_shl i = Z.ldiff x (one_shl i).
Proof.
  intros Hb. apply Z.sub_nocarry_ldiff. apply Z.bits_inj'. intros n Hn.
  rewrite Z.ldiff_spec, Z.bits_0.
  rewrite <-(Z2Nat.id n) by lia. fold (bit (one_shl i) (Z.to_nat n)) (bit x (Z.to_nat n)).
  rewrite bit_one_shl. case_bool_decide; subst; simpl; [by rewrite Hb | done].
Qed.

Lemma bit_ldiff x y i : bit (Z.ldiff x y) i = bit x i && negb (bit y i).
Proof. apply Z.ldiff_spec. Qed.

#[export] Hint Rewrite bit_ldiff : word.

(** ** Counting zeros *)

Lemma bit_div2 x i : bit (Z.div2 x) i = bit x (S i).
Proof. unfold bit. rewrite Z.div2_spec, Z.shiftr_spec by lia. f_equal; lia. Qed.

Lemma bit_odd x : bit x 0 = Z.odd x.
Proof. unfold bit. simpl. apply Z.bit0_odd. Qed.

Lemma trailing_zeros_le w x : (trailing_zeros w x ≤ w)%nat.
Proof.
  revert x. induction w as [| w IH]; intros x; simpl; [lia |].
  destruct (Z.odd x); [lia |]. specialize (IH (Z.div2 x)). lia.
Qed.

Lemma trailing_zeros_below w x i : (i < trailing_zeros w x)%nat → bit x i = false.
Proof.
  revert x i. induction w as [| w IH]; intros x i; simpl; [lia |].
  destruct (Z.odd x) eqn:Ho; [lia |]. intros Hi. destruct i as [| i].
  - by rewrite bit_odd.
  - rewrite <-bit_div2. apply IH. lia.
Qed.

Lemma trailing_zeros_bit w x :
  (trailing_zeros w x < w)%nat → bit x (trailing_zeros w x) = true.
Proof.
  revert x. induction w as [| w IH]; intros x; simpl; [lia |].
  destruct (Z.odd x) eqn:Ho; intros Hlt.
  - by rewrite bit_odd.
  - rewrite <-bit_div2. apply IH. lia.
Qed.

Lemma trailing_zeros_unique w x i :
  (i < w)%nat → bit x i = true → (∀ j, (j < i)%nat → bit x j = false) →
  trailing_zeros w x = i.
Proof.
  intros Hi Hb Hlow.
  destruct (lt_eq_lt_dec (trailing_zeros w x) i) as [[Hlt | Heq] | Hgt]; [| done |].
  - pose proof (trailing_zeros_bit w x ltac:(lia)) as Ht. rewrite Hlow in Ht by done. done.
  - by rewrite (trailing_zeros_below w x i) in Hb.
Qed.

Lemma trailing_zeros_full w x :
  trailing_zeros w x = w ↔ ∀ i, (i < w)%nat → bit x i = false.
Proof.
  split.
  - intros Heq i Hi. apply (trailing_zeros_below w). lia.
  - intros Hb. pose proof (trailing_zeros_le w x).
    destruct (decide (trailing_zeros w x < w)%nat) as [Hlt |]; [| lia].
    pose proof (trailing_zeros_bit w x Hlt) as Ht. by rewrite Hb in Ht.
Qed.

Lemma trailing_ones_le w x : (trailing_ones w x ≤ w)%nat.
Proof. apply trailing_zeros_le. Qed.

Lemma trailing_ones_below w x i : (i < trailing_ones w x)%nat → bit x i = true.
Proof.
  intros Hi. pose proof (trailing_ones_le w x).
  pose proof (trailing_zeros_below w (unot w x) i Hi) as Hb.
  rewrite bit_unot_low in Hb by lia. by destruct (bit x i).
Qed.

Lemma trailing_ones_bit w x :
  (trailing_ones w x < w)%nat → bit x (trailing_ones w x) = false.
Proof.
  intros Hlt. pose proof (trailing_zeros_bit w (unot w x) Hlt) as Hb.
  fold (trailing_ones w x) in Hb. rewrite bit_unot_low in Hb by lia.
  by destruct (bit x (trailing_ones w x)).
Qed.

Lemma count_ones_0 w : count_ones w 0 = O.
Proof. induction w; simpl; auto. Qed.

(** The set bits of a word, in increasing order. *)
Definition bits_of (w : nat) (x : Z) : list nat := filter (λ i, bit x i = true) (seq 0 w).

Lemma elem_of_bits_of w x i : i ∈ bits_of w x ↔ (i < w)%nat ∧ bit x i = true.
Proof. unfold bits_of. rewrite list_elem_of_filter, elem_of_seq. intuition lia. Qed.

Lemma NoDup_bits_of w x : NoDup (bits_of w x).
Proof. apply NoDup_filter, NoDup_seq. Qed.

Lemma filter_ext_in {A} (P Q : A → Prop) `{!∀ x, Decision (P x), !∀ x, Decision (Q x)} (l : list A) :
  (∀ x, x ∈ l → P x ↔ Q x) → filter P l = filter Q l.
Proof.
  induction l as [| a l IH]; intros Heq; [done |]. rewrite !filter_cons.
  rewrite IH by (intros x Hx; apply Heq; by right). specialize (Heq a ltac:(left)).
  destruct (decide (P a)), (decide (Q a)); tauto || done.
Qed.

Lemma filter_none {A} (P : A → Prop) `{!∀ x, Decision (P x)} (l : list A) :
  (∀ x, x ∈ l → ¬ P x) → filter P l = [].
Proof.
  induction l as [| a l IH]; intros Hn; [done |]. rewrite filter_cons_False by (apply Hn; left).
  apply IH. intros x Hx. apply Hn. by right.
Qed.

Lemma bits_of_nil w x : bits_of w x = [] → trailing_zeros w x = w.
Proof.
  intros Hl. apply trailing_zeros_full. intros i Hi. destruct (bit x i) eqn:Hb; [| done].
  assert (Hin : i ∈ bits_of w x) by by apply elem_of_bits_of. rewrite Hl in Hin.
  by apply not_elem_of_nil in Hin.
Qed.

(** The lowest bit of a word, and the bits left when it is cleared. *)
Lemma bits_of_cons w x i l :
  bits_of w x = i :: l → trailing_zeros w x = i ∧ (i < w)%nat ∧ bits_of w (x - one_shl i) = l.
Proof.
  intros Hl. pose proof (trailing_zeros_below w x) as Hlow. pose proof (trailing_zeros_le w x) as Hle.
  assert (Hi : i ∈ bits_of w x) by (rewrite Hl; left). apply elem_of_bits_of in Hi as [Hiw Hib].
  destruct (decide (trailing_zeros w x < w)%nat) as [Hlt | Hge].
  2:{ exfalso. rewrite (proj1 (trailing_zeros_full w x) ltac:(lia) i Hiw) in Hib. done. }
  pose proof (trailing_zeros_bit w x Hlt) as Hb. set (t := trailing_zeros w x) in *.
  assert (Hs : seq 0 w = seq 0 t ++ t :: seq (S t) (w - S t)).
  { replace w with (t + S (w - S t))%nat at 1 by lia. by rewrite seq_app. }
  assert (Hf : ∀ y, (∀ j, (j < t)%nat → bit y j = false) → filter (λ i, bit y i = true) (seq 0 t) = []).
  { intros y Hy. apply filter_none. intros j Hj%elem_of_seq. by rewrite Hy by lia. }
  unfold bits_of in Hl. rewrite Hs, filter_app, Hf, filter_cons_True in Hl by done.
  injection Hl as <- <-. split; [done |]. split; [done |].
  assert (Hbit : ∀ j, bit (x - one_shl t) j = bit x j && negb (bool_decide (t = j))).
  { intros j. by rewrite sub_one_shl, bit_ldiff, bit_one_shl by done. }
  unfold bits_of. rewrite Hs, filter_app, Hf, filter_cons_False.
  - apply filter_ext_in. intros j Hj%elem_of_seq.
    rewrite Hbit, bool_decide_false by lia. by rewrite andb_true_r.
  - rewrite Hbit, bool_decide_true by done. by rewrite andb_false_r.
  - intros j Hj. rewrite Hbit, Hlow by done. done.
Qed.

Lemma length_bits_of w x : (length (bits_of w x) ≤ w)%nat.
Proof.
  unfold bits_of. etransitivity; [apply length_filter |]. by rewrite length_seq.
Qed.

Lemma count_ones_bits_of w x : count_ones w x = length (bits_of w x).
Proof.
  unfold bits_of. revert x. induction w as [| w IH]; intros x; [done |].
  simpl. rewrite IH, filter_cons, bit_odd.
  assert (Hs : ∀ l, length (filter (λ i, bit (Z.div2 x) i = true) l)
                = length (filter (λ i, bit x i = true) (S <$> l))).
  { induction l as [| a l IHl]; [done |].
    rewrite fmap_cons, !filter_cons, bit_div2. case_decide; simpl; rewrite IHl; done. }
  rewrite Hs, fmap_S_seq. destruct (Z.odd x); simpl; done.
Qed.

(** ** Tactics *)

(** Equality of two words, bit by bit. *)
Ltac word_cases :=
  repeat match goal with
    | |- context [bool_decide ?P] => case_bool_decide; subst
    end.

Ltac word_eq w :=
  apply (word_ext w); [auto with word | auto with word |];
  let i := fresh "i" in let Hi := fresh "Hi" in
  intros i Hi; autorewrite with word; word_cases;
  repeat match goal with |- context [bit ?x ?j] => destruct (bit x j) end;
  simpl; try done; try lia.

(** The low [k] bits of a word. *)
Lemma bit_mod_pow2 x k i : bit (x mod 2 ^ Z.of_nat k) i = bool_decide (i < k)%nat && bit x i.
Proof. apply bit_wrap. Qed.

Lemma bit_umax k i : bit (umax k) i = bool_decide (i < k)%nat.
Proof. unfold umax. rewrite Z.sub_1_r, <-Z.ones_equiv. apply bit_spec_ones. Qed.

Lemma in_word_umax w k : (k ≤ w)%nat → in_word w (umax k).
Proof.
  intros ?. unfold in_word, umax.
  pose proof (Z.pow_le_mono_r 2 (Z.of_nat k) (Z.of_nat w)).
  pose proof (Z.pow_pos_nonneg 2 (Z.of_nat k)). lia.
Qed.

#[export] Hint Rewrite bit_umax bit_mod_pow2 : word.
#[export] Hint Resolve in_word_umax : word.

(** ** Lists *)

Lemma sum_list_with_insert {A} (f : A → nat) (l : list A) i x y :
  l !! i = Some x →
  (sum_list_with f (<[i := y]> l) + f x = sum_list_with f l + f y)%nat.
Proof.
  revert i. induction l as [| a l IH]; intros [| i] Hl; simpl in *; simplify_eq; [lia |].
  specialize (IH i Hl). lia.
Qed.

Lemma sum_list_with_zero {A} (f : A → nat) (l : list A) :
  (∀ x, x ∈ l → f x = 0%nat) → sum_list_with f l = 0%nat.
Proof.
  induction l as [| a l IH]; intros Hf; [done |]. cbn. rewrite Hf by left.
  apply IH. intros x Hx. apply Hf. by right.
Qed.

Lemma sum_list_with_lookup {A} (f : A → nat) (l : list A) i x :
  l !! i = Some x → (f x ≤ sum_list_with f l)%nat.
Proof.
  revert i. induction l as [| a l IH]; intros [| i] Hl; simpl in *; simplify_eq; [lia |].
  specialize (IH i Hl). lia.
Qed.

(** The threads after one of them has changed. *)
Lemma insert_cases {A} (ls : list A) t l l' u x :
  ls !! t = Some l → <[t := l']> ls !! u = Some x →
  (u = t ∧ x = l') ∨ (u ≠ t ∧ ls !! u = Some x).
Proof.
  intros Hl Hu. destruct (decide (u = t)) as [-> |].
  - rewrite list_lookup_insert_eq in Hu by (by eapply lookup_lt_Some). left. split; congruence.
  - rewrite list_lookup_insert_ne in Hu by done. by right.
Qed.

Lemma insert_self {A} (ls : list A) t l l' : ls !! t = Some l → <[t := l']> ls !! t = Some l'.
Proof. intros Hl. apply list_lookup_insert_eq. by eapply lookup_lt_Some. Qed.

Lemma insert_other {A} (ls : list A) t u l' x :
  u ≠ t → ls !! u = Some x → <[t := l']> ls !! u = Some x.
Proof. intros. by rewrite list_lookup_insert_ne. Qed.

Lemma concat_insert_perm {A B} (f : A → list B) (l : list A) i x y :
  l !! i = Some x →
  concat (f <$> <[i := y]> l) ++ f x ≡ₚ concat (f <$> l) ++ f y.
Proof.
  revert i. induction l as [| a l IH]; intros [| i] Hl; simplify_eq/=.
  - set (c := concat (f <$> l)). rewrite (Permutation_app_comm (f y) c).
    rewrite (Permutation_app_comm (f x) c), <-!app_assoc.
    apply Permutation_app_head, Permutation_app_comm.
  - rewrite <-!app_assoc. apply Permutation_app_head. by apply IH.
Qed.

(** The values of a partial function over an index range. *)
Definition gather {A} (f : nat → option A) (n : nat) : list A := omap f (seq 0 n).

Definition option_list {A} (o : option A) : list A :=
  match o with Some x => [x] | None => [] end.

Lemma omap_update_perm {A} (f g : nat → option A) (l : list nat) i :
  NoDup l → i ∈ l → (∀ j, j ≠ i → f j = g j) →
  omap g l ++ option_list (f i) ≡ₚ omap f l ++ option_list (g i).
Proof.
  intros Hnd Hi Hfg. induction l as [| a l IH]; [by apply not_elem_of_nil in Hi |].
  apply NoDup_cons in Hnd as [Ha Hnd].
  assert (Hout : ∀ l : list nat, i ∉ l → omap g l = omap f l).
  { clear -Hfg. intros l. induction l as [| b l IHl]; [done |]. intros [Hne Hn]%not_elem_of_cons. csimpl.
    rewrite IHl by done. by rewrite Hfg by congruence. }
  destruct (decide (a = i)) as [-> | Hne].
  - csimpl. rewrite Hout by done. destruct (f i), (g i); simpl; [| | |done].
    + rewrite (Permutation_app_comm _ [a]), (Permutation_app_comm _ [a0]). simpl. constructor.
    + by rewrite (Permutation_app_comm _ [a]), app_nil_r.
    + by rewrite (Permutation_app_comm _ [a]), app_nil_r.
  - apply elem_of_cons in Hi as [-> |Hi]; [done |]. csimpl. rewrite (Hfg a) by done.
    destruct (g a); simpl; [by rewrite IH |]. by apply IH.
Qed.

Lemma gather_update_perm {A} (f g : nat → option A) n i :
  (i < n)%nat → (∀ j, j ≠ i → f j = g j) →
  gather g n ++ option_list (f i) ≡ₚ gather f n ++ option_list (g i).
Proof.
  intros Hi. apply omap_update_perm; [apply NoDup_seq | apply elem_of_seq; lia].
Qed.

Lemma length_omap_le {A B} (f : A → option B) (l : list A) : (length (omap f l) ≤ length l)%nat.
Proof. induction l as [| a l IH]; [done |]. csimpl. destruct (f a); simpl; lia. Qed.

Lemma gather_ext {A} (f g : nat → option A) n :
  (∀ i, (i < n)%nat → f i = g i) → gather f n = gather g n.
Proof.
  intros Hfg. unfold gather. assert (Hl : ∀ i, i ∈ seq 0 n → f i = g i).
  { intros i Hi%elem_of_seq. apply Hfg. lia. }
  revert Hl. generalize (seq 0 n) as l. induction l as [| a l IH]; intros Hl; [done |].
  csimpl. rewrite (Hl a) by (left; done). rewrite IH; [done |]. intros; apply Hl. by right.
Qed.

Lemma gather_update_perm_lt {A} (f g : nat → option A) n i :
  (i < n)%nat → (∀ j, (j < n)%nat → j ≠ i → f j = g j) →
  gather g n ++ option_list (f i) ≡ₚ gather f n ++ option_list (g i).
Proof.
  intros Hi Hfg. set (h := λ j, if decide (i = j) then g j else f j).
  assert (gather g n = gather h n) as ->.
  { apply gather_ext. intros j Hj. unfold h. destruct (decide (i = j)); [done |].
    symmetry. apply Hfg; [done | congruence]. }
  replace (g i) with (h i) by (unfold h; by rewrite decide_True by done).
  apply gather_update_perm; [done |]. intros j Hj. unfold h. by rewrite decide_False by congruence.
Qed.

(** Conservation: what one thread adds and removes, and what is stored. *)
Lemma vals_step {T} (P P' Q Q' pl pl' ql ql' V V' : list T) :
  P' ++ pl ≡ₚ P ++ pl' → Q' ++ ql ≡ₚ Q ++ ql' → P ≡ₚ Q ++ V →
  pl' ++ ql ++ V ≡ₚ pl ++ ql' ++ V' → P' ≡ₚ Q' ++ V'.
Proof.
  intros HP HQ HPQ HV. apply (Permutation_app_inv_r (pl ++ ql)).
  rewrite (app_assoc P'), HP, HPQ.
  transitivity (Q ++ (pl' ++ ql ++ V)).
  { rewrite <-!app_assoc. apply Permutation_app_head.
    rewrite (Permutation_app_comm V), <-app_assoc. done. }
  rewrite HV. transitivity ((Q ++ ql') ++ V' ++ pl).
  { rewrite <-!app_assoc. apply Permutation_app_head.
    rewrite (Permutation_app_comm pl), <-!app_assoc. done. }
  rewrite <-HQ, <-!app_assoc. apply Permutation_app_head.
  rewrite (Permutation_app_comm ql), <-!app_assoc. done.
Qed.

Lemma concat_disjoint {A B} (f : A → list B) (l : list A) i j x y b :
  NoDup (concat (f <$> l)) → l !! i = Some x → l !! j = Some y → i ≠ j →
  b ∈ f x → b ∉ f y.
Proof.
  revert i j. induction l as [| a l IH]; intros [| i] [| j] Hnd Hi Hj Hne Hx Hy; simplify_eq/=;
    apply NoDup_app in Hnd as (_ & Hdis & Hnd).
  - apply (Hdis b Hx). apply list_elem_of_In, in_concat. exists (f y).
    split; apply list_elem_of_In; [| done]. apply list_elem_of_fmap. exists y.
    split; [done | by eapply list_elem_of_lookup_2].
  - apply (Hdis b Hy). apply list_elem_of_In, in_concat. exists (f x).
    split; apply list_elem_of_In; [| done]. apply list_elem_of_fmap. exists x.
    split; [done | by eapply list_elem_of_lookup_2].
  - by apply (IH i j Hnd Hi Hj ltac:(congruence) Hx).
Qed.

Lemma elem_of_concat_lookup {A B} (f : A → list B) (l : list A) b :
  b ∈ concat (f <$> l) ↔ ∃ i x, l !! i = Some x ∧ b ∈ f x.
Proof.
  rewrite list_elem_of_In, in_concat. split.
  - intros (y & Hy%list_elem_of_In & Hb%list_elem_of_In).
    apply list_elem_of_fmap in Hy as (x & -> & [i Hx]%list_elem_of_lookup). eauto.
  - intros (i & x & Hi & Hb). exists (f x). split; apply list_elem_of_In; [| done].
    apply list_elem_of_fmap. exists x. split; [done | by eapply list_elem_of_lookup_2].
Qed.

(** Testing one bit: [x & (1 << i) == 0]. *)
Lemma land_bit_test x i : (Z.land x (one_shl i) =? 0) = negb (bit x i).
Proof.
  destruct (bit x i) eqn:Hb; simpl.
  - apply Z.eqb_neq. intros Heq. assert (bit (Z.land x (one_shl i)) i = bit 0 i) as Hc by by rewrite Heq.
    autorewrite with word in Hc. by rewrite Hb, bool_decide_true in Hc.
  - apply Z.eqb_eq. apply Z.bits_inj'. intros n Hn. rewrite <-(Z2Nat.id n) by lia.
    fold (bit (Z.land x (one_shl i)) (Z.to_nat n)) (bit 0 (Z.to_nat n)).
    autorewrite with word. case_bool_decide; subst; [by rewrite Hb | by rewrite andb_false_r].
Qed.

(** [x & (1 << i) == 1 << i] *)
Lemma land_bit_eq x i : (Z.land x (one_shl i) =? one_shl i) = bit x i.
Proof.
  assert (Hpos : 0 < one_shl i) by (unfold one_shl; rewrite Z.shiftl_1_l; apply Z.pow_pos_nonneg; lia).
  destruct (bit x i) eqn:Hb.
  - apply Z.eqb_eq. apply Z.bits_inj'. intros n Hn. rewrite <-(Z2Nat.id n) by lia.
    fold (bit (Z.land x (one_shl i)) (Z.to_nat n)) (bit (one_shl i) (Z.to_nat n)).
    autorewrite with word. case_bool_decide; subst; [by rewrite Hb | by rewrite andb_false_r].
  - apply Z.eqb_neq. pose proof (land_bit_test x i) as Ht. rewrite Hb in Ht.
    apply Z.eqb_eq in Ht. lia.
Qed.

(** [x & y == 0] for two [w]-bit words: no common bit. *)
Lemma land_zero_test w x y :
  in_word w x → (Z.land x y =? 0) = true ↔ ∀ i, (i < w)%nat → bit x i = true → bit y i = false.
Proof.
  intros Hx. rewrite Z.eqb_eq, (word_zero_iff w) by (by apply in_word_land_l).
  split; intros Hb i Hi; specialize (Hb i Hi); rewrite bit_land in *;
    destruct (bit x i), (bit y i); auto.
Qed.

Lemma in_word_mod_pow2 w k x : (k ≤ w)%nat → in_word w (x mod 2 ^ Z.of_nat k).
Proof. intros ?. apply (in_word_le k); [done | apply in_word_wrap]. Qed.

#[export] Hint Resolve in_word_mod_pow2 : word.

(** The finite map of a function on the indices below [n]. *)
Fixpoint map_of {A} (f : nat → option A) (n : nat) : gmap nat A :=
  match n with
  | O => ∅
  | S n => partial_alter (λ _, f n) n (map_of f n)
  end.

Lemma lookup_map_of {A} (f : nat → option A) n i :
  map_of f n !! i = if decide (i < n)%nat then f i else None.
Proof.
  induction n as [| n IH]; cbn [map_of].
  - rewrite lookup_empty. by rewrite decide_False by lia.
  - destruct (decide (i = n)) as [-> | Hne].
    + rewrite lookup_partial_alter_eq. by rewrite decide_True by lia.
    + rewrite lookup_partial_alter_ne, IH by done.
      destruct (decide (i < n)%nat), (decide (i < S n)%nat); done || lia.
Qed.

Lemma lookup_map_of_lt {A} (f : nat → option A) n i : (i < n)%nat → map_of f n !! i = f i.
Proof. intros ?. rewrite lookup_map_of. by rewrite decide_True. Qed.

Lemma lookup_map_of_ge {A} (f : nat → option A) n i : (n ≤ i)%nat → map_of f n !! i = None.
Proof. intros ?. rewrite lookup_map_of. by rewrite decide_False by lia. Qed.

(** ** Lists *)

Lemma Forall2_in {T U} (P Q : T → U → Prop) (l : list T) (l' : list U) :
  (∀ x y, x ∈ l → P x y → Q x y) → Forall2 P l l' → Forall2 Q l l'.
Proof.
  intros HPQ Hl. induction Hl as [| x y l l' Hxy _ IH]; constructor.
  - apply HPQ; [left | done].
  - apply IH. intros; apply HPQ; [by right | done].
Qed.

(** ** Permutations, by counting *)

Section Copies.
Context {A : Type} `{EqDecision A}.

Definition copies (l : list A) (x : A) : nat := count_occ (λ x y, decide (x = y)) l x.

Lemma copies_app l1 l2 x : copies (l1 ++ l2) x = (copies l1 x + copies l2 x)%nat.
Proof. apply count_occ_app. Qed.

Lemma copies_cons y l x : copies (y :: l) x = (copies [y] x + copies l x)%nat.
Proof. apply (copies_app [y] l). Qed.

Lemma copies_nil x : copies [] x = 0%nat.
Proof. done. Qed.

Lemma perm_copies (l1 l2 : list A) : l1 ≡ₚ l2 ↔ ∀ x, copies l1 x = copies l2 x.
Proof. apply Permutation_count_occ. Qed.
End Copies.

(** The permutations of the context, and concatenations up to their order. *)
Ltac solve_perm :=
  repeat match goal with H : _ ≡ₚ _ |- _ => rewrite perm_copies in H end;
  apply perm_copies; let x := fresh in intros x;
  repeat match goal with H : ∀ y, copies _ y = copies _ y |- _ => specialize (H x) end;
  rewrite ?fmap_app in *; cbn [fmap list_fmap fst] in *;
  repeat rewrite copies_app in *;
  repeat match goal with
    | H : context [copies (?y :: ?l) x] |- _ =>
        lazymatch l with [] => fail | _ => rewrite (copies_cons y l x) in H end
    | |- context [copies (?y :: ?l) x] =>
        lazymatch l with [] => fail | _ => rewrite (copies_cons y l x) end
    end;
  rewrite ?copies_app, ?copies_nil in *; lia.

Arguments wrap : simpl never.
Arguments umax : simpl never.
Arguments unot : simpl never.
Arguments one_shl : simpl never.
Arguments ushr : simpl never.
Arguments ushl : simpl never.
Arguments bit : simpl never.
Arguments trailing_zeros : simpl never.
Arguments trailing_ones : simpl never.
Arguments count_ones : simpl never.
