(* ===== verification/Atomic.v ===== *)
(** * Programs over atomic instructions

    The crate is lock-free code: every operation is a sequence of atomic
    instructions on a shared state, with loops around compare-and-exchange.  This
    file gives the language the components are written in and its two semantics:

    - [run]: one thread, alone, with no spurious failure of a weak
      compare-and-exchange: the functional behaviour of an operation;
    - [pool_step]: any number of threads, one atomic instruction at a time, in any
      order: the interleavings.  The order is sequentially consistent; the
      [Ordering] arguments of the sources are not modelled.

    [wp] is the proof rule for the second: each thread owns a ghost value, a
    global invariant relates the shared state and all the ghost values, and every
    atomic instruction has to re-establish it.  [pool_safe] is its soundness. *)
From S2P Require Import Prelude.

(** A program that ends with an [R].
    - [Act f k]: one atomic instruction on the shared state;
    - [Flip k]: a choice the code does not control (a spurious failure);
    - [Park g k]: the thread is blocked until [g] holds of the state;
    - [Panic]: a failed assertion or undefined behaviour;
    - [NoMemory]: the allocator refused memory that the code cannot go on without;
    - [OutOfFuel]: the bound on the iterations of a retry loop was reached. *)
Inductive prog (St : Type) (R : Type) : Type :=
  | Ret (r : R)
  | Act {A : Type} (f : St → A * St) (k : A → prog St R)
  | Flip (k : bool → prog St R)
  | Park (g : St → bool) (k : prog St R)
  | Panic
  | NoMemory
  | OutOfFuel.

Arguments Ret {_ _} _.
Arguments Act {_ _ _} _ _.
Arguments Flip {_ _} _.
Arguments Park {_ _} _ _.
Arguments Panic {_ _}.
Arguments NoMemory {_ _}.
Arguments OutOfFuel {_ _}.

Fixpoint bind {St R1 R2} (p : prog St R1) (k : R1 → prog St R2) : prog St R2 :=
  match p with
  | Ret r => k r
  | Act f k' => Act f (λ a, bind (k' a) k)
  | Flip k' => Flip (λ b, bind (k' b) k)
  | Park g k' => Park g (bind k' k)
  | Panic => Panic
  | NoMemory => NoMemory
  | OutOfFuel => OutOfFuel
  end.

(** What an iteration of a [loop] decides. *)
Inductive flow (B R : Type) : Type :=
  | Continue (b : B)
  | Break (r : R).

Arguments Continue {_ _} _.
Arguments Break {_ _} _.

(** [loop n body b]: Rust's [loop], at most [n] iterations, [b] being the
    variables that the body updates. *)
Fixpoint loop {St B R} (n : nat) (body : B → prog St (flow B R)) (b : B) : prog St R :=
  match n with
  | O => OutOfFuel
  | S n =>
      bind (body b) (λ x,
        match x with
        | Continue b' => loop n body b'
        | Break r => Ret r
        end)
  end.

(** Rust's [for] loop over the elements of a list: [Continue] when it came to the end. *)
Fixpoint for_each {St X B R} (l : list X) (body : X → B → prog St (flow B R)) (b : B) : prog St (flow B R) :=
  match l with
  | [] => Ret (Continue b)
  | x :: l =>
      bind (body x b) (λ r,
        match r with
        | Continue b' => for_each l body b'
        | Break r => Ret (Break r)
        end)
  end.

(** [debug_assert!(b)] *)
Definition dassert {St} (b : bool) : prog St unit := if b then Ret () else Panic.

Declare Scope prog_scope.
Delimit Scope prog_scope with prog.
Notation "'let!' x := p 'in' k" := (bind p (λ x, k))
  (at level 10, x binder, p at level 100, k at level 200)
  : prog_scope.
Notation "p ;; k" := (bind p (λ _, k)) (at level 100, k at level 200, right associativity)
  : prog_scope.
Open Scope prog_scope.

(** ** The memory operations of [core::sync::atomic]

    They are stated on one field of the shared state, given by its getter and
    setter. *)
Section Cell.
Context {St X : Type} `{EqDecision X}.
Context (get : St → X) (put : X → St → St).

Definition load : prog St X := Act (λ s, (get s, s)) Ret.
Definition store (x : X) : prog St unit := Act (λ s, ((), put x s)) Ret.

(** [compare_exchange]: [inl] is [Ok(previous)], [inr] is [Err(actual)]. *)
Definition compare_exchange (current new : X) : prog St (X + X) :=
  Act (λ s, if decide (get s = current) then (inl current, put new s)
            else (inr (get s), s)) Ret.

(** [compare_exchange_weak] may fail although the value is the expected one. *)
Definition compare_exchange_weak (current new : X) : prog St (X + X) :=
  Flip (λ spurious,
    if spurious then Act (λ s, (inr (get s), s)) Ret
    else compare_exchange current new).

(** [fetch_update], whose effect is one atomic read-modify-write. *)
Definition fetch_update (f : X → option X) : prog St (X + X) :=
  Act (λ s, match f (get s) with
            | Some x => (inl (get s), put x s)
            | None => (inr (get s), s)
            end) Ret.

(** [fetch_and], [fetch_or], [fetch_sub], [swap]: the previous value. *)
Definition fetch_modify (f : X → X) : prog St X :=
  Act (λ s, (get s, put (f (get s)) s)) Ret.
End Cell.

(** ** One thread alone *)

Inductive outcome (St R : Type) : Type :=
  | Done (r : R) (s : St)
  | Panicked
  | Refused
  | Starved.

Arguments Done {_ _} _ _.
Arguments Panicked {_ _}.
Arguments Refused {_ _}.
Arguments Starved {_ _}.

Fixpoint run {St R} (p : prog St R) (s : St) : outcome St R :=
  match p with
  | Ret r => Done r s
  | Act f k => let '(a, s') := f s in run (k a) s'
  | Flip k => run (k false) s
  | Park g k => if g s then run k s else Starved
  | Panic => Panicked
  | NoMemory => Refused
  | OutOfFuel => Starved
  end.

Lemma run_bind {St R1 R2} (p : prog St R1) (k : R1 → prog St R2) s :
  run (bind p k) s =
    match run p s with
    | Done r s' => run (k r) s'
    | Panicked => Panicked
    | Refused => Refused
    | Starved => Starved
    end.
Proof.
  revert s. induction p as [r | A f k' IH | k' IH | g k' IH | | |]; intros s; simpl; auto.
  - destruct (f s) as [a s']. apply IH.
  - destruct (g s); auto.
Qed.

(** ** Threads *)

(** The threads that others may wait for, by their ghost values. *)
Class Busy (L St : Type) := busy : St → L → Prop.

#[export] Instance busy_any L St : Busy L St | 100 := λ _ _, True.

Section Pool.
Context {St R : Type}.

(** The threads and the shared state. *)
Record pool := Pool { threads : list (prog St R); shared : St }.

(** One atomic instruction of one thread. *)
Inductive pool_step : pool → pool → Prop :=
  | step_act A t (f : St → A * St) k ps s :
      ps !! t = Some (Act f k) →
      pool_step (Pool ps s) (Pool (<[t := k (f s).1]> ps) (f s).2)
  | step_flip t k b ps s :
      ps !! t = Some (Flip k) →
      pool_step (Pool ps s) (Pool (<[t := k b]> ps) s)
  | step_park t g k ps s :
      ps !! t = Some (Park g k) → g s = true →
      pool_step (Pool ps s) (Pool (<[t := k]> ps) s).

Definition reachable (p p' : pool) : Prop := rtc pool_step p p'.

Definition panicking (p : prog St R) : Prop :=
  match p with Panic => True | _ => False end.

(** A thread alone: what [run] computes is an execution of the pool. *)
Lemma run_reachable (p : prog St R) s r s' :
  run p s = Done r s' → reachable (Pool [p] s) (Pool [Ret r] s').
Proof.
  revert s. induction p as [r0 | A f k IH | k IH | g k IH | | |]; intros s Hrun; simpl in *;
    try done.
  - injection Hrun as -> ->. apply rtc_refl.
  - destruct (f s) as [a s1] eqn:Hf. eapply rtc_l; [| by eapply IH].
    pose proof (step_act A 0 f k [Act f k] s eq_refl) as Hs.
    rewrite Hf in Hs. exact Hs.
  - eapply rtc_l; [| by eapply IH].
    exact (step_flip 0 k false [Flip k] s eq_refl).
  - destruct (g s) eqn:Hg; [| done]. eapply rtc_l; [| by eapply IH].
    exact (step_park 0 g k [Park g k] s eq_refl Hg).
Qed.

(** One instruction of thread [t], if it has one, and a schedule of instructions. *)
Definition exec (t : nat) (p : pool) : pool :=
  match threads p !! t with
  | Some (Act f k) => Pool (<[t := k (f (shared p)).1]> (threads p)) (f (shared p)).2
  | Some (Flip k) => Pool (<[t := k false]> (threads p)) (shared p)
  | Some (Park g k) => if g (shared p) then Pool (<[t := k]> (threads p)) (shared p) else p
  | _ => p
  end.

Definition execs (ts : list nat) (p : pool) : pool := foldl (λ p t, exec t p) p ts.

Lemma execs_reachable ts p : reachable p (execs ts p).
Proof.
  revert p. induction ts as [| t ts IH]; intros [ps s]; [apply rtc_refl |].
  cbn [execs foldl]. unfold exec at 2. cbn [threads shared].
  destruct (ps !! t) as [[| A f k | k | g k | | |] |] eqn:Ht; try apply IH;
    [| | destruct (g s) eqn:Hg; [| apply IH]]; (eapply rtc_l; [| apply IH]).
  - by apply step_act.
  - by apply step_flip.
  - by eapply step_park.
Qed.

Lemma exec_other t u p : t ≠ u → threads (exec u p) !! t = threads p !! t.
Proof.
  intros Hne. unfold exec. destruct (threads p !! u) as [[| A f k | k | g k | | |] |]; try done;
    [| | destruct (g (shared p)); [| done]]; cbn; by rewrite list_lookup_insert_ne.
Qed.

Lemma execs_other t u n p : t ≠ u → threads (execs (repeat u n) p) !! t = threads p !! t.
Proof.
  intros Hne. revert p. induction n as [| n IH]; intros p; [done |].
  cbn. unfold execs in IH. rewrite IH. by apply exec_other.
Qed.

(** ** The proof rule *)
Context {L : Type} `{!Busy L St} (Inv : St → list L → Prop).

Fixpoint wp (t : nat) (p : prog St R) (l : L) (Q : R → L → Prop) : Prop :=
  match p with
  | Ret r => Q r l
  | Act f k => ∀ s ls, ls !! t = Some l → Inv s ls →
      ∃ l', Inv (f s).2 (<[t := l']> ls) ∧ wp t (k (f s).1) l' Q
  | Flip k => ∀ b, wp t (k b) l Q
  | Park g k =>
      ∀ s ls, ls !! t = Some l → Inv s ls →
        if g s then ∃ l', Inv s (<[t := l']> ls) ∧ wp t k l' Q
        else ¬ busy s l ∧ ∃ t' l', ls !! t' = Some l' ∧ busy s l'
  | Panic | NoMemory => False
  | OutOfFuel => True
  end.

Definition pool_ok (Q : nat → R → L → Prop) (p : pool) (ls : list L) : Prop :=
  Inv (shared p) ls ∧
  length ls = length (threads p) ∧
  ∀ t pr l, threads p !! t = Some pr → ls !! t = Some l → wp t pr l (Q t).

Lemma pool_ok_step Q p p' ls :
  pool_ok Q p ls → pool_step p p' → ∃ ls', pool_ok Q p' ls'.
Proof.
  intros (HI & Hlen & Hwp) Hstep.
  destruct Hstep as [A t f k ps s Ht | t k b ps s Ht | t g k ps s Ht Hg]; simpl in *.
  - destruct (lookup_lt_is_Some_2 ls t) as [l Hl].
    { rewrite Hlen. by eapply lookup_lt_Some. }
    destruct (Hwp t _ l Ht Hl s ls Hl HI) as (l' & HI' & Hw').
    exists (<[t := l']> ls). split_and!; simpl; [done | by rewrite !length_insert |].
    intros t0 pr l0 Hp Hl0. destruct (decide (t0 = t)) as [-> | Hne].
    + rewrite list_lookup_insert_eq in Hp by (by eapply lookup_lt_Some).
      rewrite list_lookup_insert_eq in Hl0 by (by eapply lookup_lt_Some).
      by simplify_eq.
    + rewrite list_lookup_insert_ne in Hp by done.
      rewrite list_lookup_insert_ne in Hl0 by done. eauto.
  - exists ls. split_and!; simpl; [done | by rewrite length_insert |].
    intros t0 pr l0 Hp Hl0. destruct (decide (t0 = t)) as [-> | Hne].
    + rewrite list_lookup_insert_eq in Hp by (by eapply lookup_lt_Some).
      simplify_eq. exact (Hwp t _ l0 Ht Hl0 b).
    + rewrite list_lookup_insert_ne in Hp by done. eauto.
  - destruct (lookup_lt_is_Some_2 ls t) as [l Hl].
    { rewrite Hlen. by eapply lookup_lt_Some. }
    specialize (Hwp t _ l Ht Hl) as Hw. specialize (Hw s ls Hl HI). rewrite Hg in Hw.
    destruct Hw as (l' & HI' & Hw').
    exists (<[t := l']> ls). split_and!; simpl; [done | by rewrite !length_insert |].
    intros t0 pr l0 Hp Hl0. destruct (decide (t0 = t)) as [-> | Hne].
    + rewrite list_lookup_insert_eq in Hp by (by eapply lookup_lt_Some).
      rewrite list_lookup_insert_eq in Hl0 by (by eapply lookup_lt_Some).
      by simplify_eq.
    + rewrite list_lookup_insert_ne in Hp by done.
      rewrite list_lookup_insert_ne in Hl0 by done. eauto.
Qed.

(** Soundness: along every interleaving the invariant holds, no thread panics,
    and what a finished thread returned satisfies its postcondition. *)
Lemma pool_ok_reachable Q p ls p' :
  pool_ok Q p ls → reachable p p' → ∃ ls', pool_ok Q p' ls'.
Proof.
  intros Hok Hreach. revert ls Hok.
  induction Hreach as [| p1 p2 p3 Hstep _ IH]; intros ls Hok; [by exists ls |].
  destruct (pool_ok_step _ _ _ _ Hok Hstep) as (ls' & Hok'). by eapply IH.
Qed.

Lemma pool_safe Q p ls p' :
  pool_ok Q p ls → reachable p p' →
  ∃ ls', Inv (shared p') ls' ∧ length ls' = length (threads p') ∧
    (∀ t pr, threads p' !! t = Some pr → ¬ panicking pr) ∧
    (∀ t r l, threads p' !! t = Some (Ret r) → ls' !! t = Some l → Q t r l).
Proof.
  intros Hok Hreach. destruct (pool_ok_reachable _ _ _ _ Hok Hreach) as (ls' & HI & Hlen & Hwp).
  exists ls'. split_and!; auto.
  - intros t pr Hpr Hpan. destruct (lookup_lt_is_Some_2 ls' t) as [l Hl].
    { rewrite Hlen. by eapply lookup_lt_Some. }
    specialize (Hwp t pr l Hpr Hl). by destruct pr.
  - intros t r l Hr Hl. exact (Hwp t _ l Hr Hl).
Qed.

(** Absence of deadlocks: when no thread can go on and none has run out of fuel,
    all have finished. *)
Lemma pool_live Q p ls p' :
  pool_ok Q p ls → (∀ t r l s, Q t r l → ¬ busy s l) → reachable p p' →
  (∀ p'', ¬ pool_step p' p'') → (∀ t, threads p' !! t ≠ Some OutOfFuel) →
  ∀ t pr, threads p' !! t = Some pr → ∃ r, pr = Ret r.
Proof.
  intros Hok HQ Hreach Hstuck Hfuel.
  destruct (pool_ok_reachable _ _ _ _ Hok Hreach) as (ls' & HI & Hlen & Hwp).
  destruct p' as [ps s]; cbn [threads shared] in *.
  assert (Hcase : ∀ t pr l, ps !! t = Some pr → ls' !! t = Some l →
    ¬ busy s l ∧ ((∃ r, pr = Ret r) ∨ ∃ t' l', ls' !! t' = Some l' ∧ busy s l')).
  { intros t pr l Hp Hl. specialize (Hwp t pr l Hp Hl).
    destruct pr as [r | A f k | k | g k | | |]; cbn [wp] in Hwp.
    - split; [by eapply HQ | left; eauto].
    - exfalso. eapply Hstuck. by apply step_act.
    - exfalso. eapply Hstuck. by apply (step_flip t k false).
    - specialize (Hwp s ls' Hl HI). destruct (g s) eqn:Hg; [| tauto].
      exfalso. eapply Hstuck. by eapply step_park.
    - done.
    - done.
    - exfalso. by eapply Hfuel. }
  assert (Hbusy : ¬ ∃ t' l', ls' !! t' = Some l' ∧ busy s l').
  { intros (t' & l' & Hl' & Hb). destruct (lookup_lt_is_Some_2 ps t') as [pr' Hp'].
    { rewrite <-Hlen. by eapply lookup_lt_Some. }
    by destruct (Hcase t' pr' l' Hp' Hl') as [? _]. }
  intros t pr Hp. destruct (lookup_lt_is_Some_2 ls' t) as [l Hl].
  { rewrite Hlen. by eapply lookup_lt_Some. }
  destruct (Hcase t pr l Hp Hl) as [_ [Hr | Hr]]; [done | by destruct Hbusy].
Qed.

Lemma wp_mono t p l (Q Q' : R → L → Prop) :
  (∀ r l', Q r l' → Q' r l') → wp t p l Q → wp t p l Q'.
Proof.
  intros HQ. revert l. induction p as [r | A f k IH | k IH | g k IH | | |]; intros l; simpl; auto.
  - intros Hw s ls Hl HI. destruct (Hw s ls Hl HI) as (l' & HI' & Hw'). eauto.
  - intros Hw s ls Hl HI. specialize (Hw s ls Hl HI).
    destruct (g s); [| done]. destruct Hw as (l' & HI' & Hw'). eauto.
Qed.
End Pool.

Arguments pool : clear implicits.

Section Rules.
Context {St L : Type} `{!Busy L St} (Inv : St → list L → Prop).

Lemma wp_bind {R1 R2} t (p : prog St R1) (k : R1 → prog St R2) l Q :
  wp Inv t p l (λ r l', wp Inv t (k r) l' Q) → wp Inv t (bind p k) l Q.
Proof.
  revert l. induction p as [r | A f k' IH | k' IH | g k' IH | | |]; intros l; simpl; auto.
  - intros Hw s ls Hl HI. destruct (Hw s ls Hl HI) as (l' & HI' & Hw'). eauto.
  - intros Hw s ls Hl HI. specialize (Hw s ls Hl HI).
    destruct (g s); [| done]. destruct Hw as (l' & HI' & Hw'). eauto.
Qed.

(** The rule of calls: the specification of [p], then the continuation. *)
Lemma wp_call {R1 R2} t (p : prog St R1) (k : R1 → prog St R2) l Q' Q :
  wp Inv t p l Q' → (∀ r l', Q' r l' → wp Inv t (k r) l' Q) →
  wp Inv t (bind p k) l Q.
Proof. intros Hp Hk. apply wp_bind. by eapply wp_mono. Qed.

(** The rule of loops: [J] is the loop's invariant. *)
Lemma wp_loop {B R} t n (body : B → prog St (flow B R)) (J : B → L → Prop) b l Q :
  J b l →
  (∀ b l, J b l →
    wp Inv t (body b) l (λ x l', match x with Continue b' => J b' l' | Break r => Q r l' end)) →
  wp Inv t (loop n body b) l Q.
Proof.
  intros HJ Hbody. revert b l HJ. induction n as [| n IH]; intros b l HJ; simpl; [done |].
  apply wp_bind. eapply wp_mono; [| by apply Hbody].
  intros [b' | r] l' Hx; simpl; auto.
Qed.

(** An atomic instruction, with the ghost update chosen by the proof. *)
Lemma wp_act {A R} t (f : St → A * St) (k : A → prog St R) l Q :
  (∀ s ls, ls !! t = Some l → Inv s ls →
    ∃ l', Inv (f s).2 (<[t := l']> ls) ∧ wp Inv t (k (f s).1) l' Q) →
  wp Inv t (Act f k) l Q.
Proof. done. Qed.

(** A thread that blocks: others are busy as long as it does. *)
Lemma wp_park {R} t (g : St → bool) (k : prog St R) l Q :
  (∀ s ls, ls !! t = Some l → Inv s ls → g s = true →
    ∃ l', Inv s (<[t := l']> ls) ∧ wp Inv t k l' Q) →
  (∀ s ls, ls !! t = Some l → Inv s ls → g s = false →
    ¬ busy s l ∧ ∃ t' l', ls !! t' = Some l' ∧ busy s l') →
  wp Inv t (Park g k) l Q.
Proof. intros Ht Hf s ls Hl HI. destruct (g s) eqn:Hg; eauto. Qed.

Lemma wp_dassert {R} t b (k : unit → prog St R) l Q :
  b = true → wp Inv t (k ()) l Q → wp Inv t (bind (dassert b) k) l Q.
Proof. by intros ->. Qed.

(** A read keeps the invariant and the ghost value. *)
Lemma wp_load {X R} (get : St → X) t (k : X → prog St R) l Q :
  (∀ s ls, ls !! t = Some l → Inv s ls → wp Inv t (k (get s)) l Q) →
  wp Inv t (bind (load get) k) l Q.
Proof.
  intros Hk s ls Hl HI. exists l. simpl. rewrite list_insert_id by done. eauto.
Qed.

Lemma wp_cas {X R} `{EqDecision X} (get : St → X) put cur new t
    (k : X + X → prog St R) l Q :
  (∀ s ls, ls !! t = Some l → Inv s ls → get s = cur →
    ∃ l', Inv (put new s) (<[t := l']> ls) ∧ wp Inv t (k (inl cur)) l' Q) →
  (∀ s ls, ls !! t = Some l → Inv s ls → wp Inv t (k (inr (get s))) l Q) →
  wp Inv t (bind (compare_exchange get put cur new) k) l Q.
Proof.
  intros Hok Hko s ls Hl HI. simpl.
  case_decide as Heq; simpl.
  - eauto.
  - exists l. rewrite list_insert_id by done. eauto.
Qed.

Lemma wp_cas_weak {X R} `{EqDecision X} (get : St → X) put cur new t
    (k : X + X → prog St R) l Q :
  (∀ s ls, ls !! t = Some l → Inv s ls → get s = cur →
    ∃ l', Inv (put new s) (<[t := l']> ls) ∧ wp Inv t (k (inl cur)) l' Q) →
  (∀ s ls, ls !! t = Some l → Inv s ls → wp Inv t (k (inr (get s))) l Q) →
  wp Inv t (bind (compare_exchange_weak get put cur new) k) l Q.
Proof.
  intros Hok Hko [|]; simpl.
  - intros s ls Hl HI. exists l. simpl. rewrite list_insert_id by done. eauto.
  - by apply wp_cas.
Qed.
End Rules.

(** ** Programs that only read

    [reads P p Q]: as long as [P] holds of the state, whatever else happens to it
    between two instructions, [p] changes nothing, does not fail, and returns a
    value that satisfies [Q].  It gives both the behaviour of [p] alone and its
    behaviour among other threads. *)
Section Reads.
Context {St : Type} (P : St → Prop).

Fixpoint reads {R} (p : prog St R) (Q : R → Prop) : Prop :=
  match p with
  | Ret r => Q r
  | Act f k => ∀ s, P s → (f s).2 = s ∧ reads (k (f s).1) Q
  | Flip _ | Park _ _ | Panic | NoMemory | OutOfFuel => False
  end.

Lemma reads_mono {R} (p : prog St R) (Q Q' : R → Prop) :
  (∀ r, Q r → Q' r) → reads p Q → reads p Q'.
Proof.
  intros HQ. induction p as [r | A f k IH | k IH | g k IH | | |]; simpl; auto.
  intros Hr s Hs. destruct (Hr s Hs) as [? ?]. split; auto.
Qed.

Lemma reads_bind {R1 R2} (p : prog St R1) (k : R1 → prog St R2) Q :
  reads p (λ r, reads (k r) Q) → reads (bind p k) Q.
Proof.
  induction p as [r | A f k' IH | k' IH | g k' IH | | |]; simpl; auto.
  intros Hr s Hs. destruct (Hr s Hs) as [? ?]. split; auto.
Qed.

Lemma reads_call {R1 R2} (p : prog St R1) (k : R1 → prog St R2) Q' Q :
  reads p Q' → (∀ r, Q' r → reads (k r) Q) → reads (bind p k) Q.
Proof. intros Hp Hk. apply reads_bind. by eapply reads_mono. Qed.

(** A thread alone returns, with the state unchanged. *)
Lemma reads_run {R} (p : prog St R) Q s :
  P s → reads p Q → ∃ r, run p s = Done r s ∧ Q r.
Proof.
  intros Hs. induction p as [r | A f k IH | k IH | g k IH | | |]; simpl; try done; [by eauto |].
  intros Hr. destruct (Hr s Hs) as [Heq Hk]. destruct (f s) as [a s']. simpl in *. subst. eauto.
Qed.

Lemma reads_run_bind {R1 R2} (p : prog St R1) (k : R1 → prog St R2) Q s :
  P s → reads p Q → ∃ r, Q r ∧ run (bind p k) s = run (k r) s.
Proof.
  intros Hs Hr. destruct (reads_run p Q s Hs Hr) as (r & Hrun & HQ).
  exists r. split; [done |]. by rewrite run_bind, Hrun.
Qed.

(** Among other threads, when the invariant guarantees [P]. *)
Lemma reads_wp {L R} `{!Busy L St} (Inv : St → list L → Prop) t (p : prog St R) l (Q : R → L → Prop) :
  (∀ s ls, ls !! t = Some l → Inv s ls → P s) →
  reads p (λ r, Q r l) → wp Inv t p l Q.
Proof.
  intros HP. induction p as [r | A f k IH | k IH | g k IH | | |]; simpl; try done.
  intros Hr s ls Hl HI. destruct (Hr s) as [Heq Hk]; [by eapply HP |].
  exists l. rewrite Heq, list_insert_id by done. auto.
Qed.
End Reads.

Lemma reads_weaken {St R} (P P' : St → Prop) (p : prog St R) Q :
  (∀ s, P' s → P s) → reads P p Q → reads P' p Q.
Proof.
  intros HP. induction p as [r | A f k IH | k IH | g k IH | | |]; simpl; auto.
  intros Hr s Hs. destruct (Hr s (HP s Hs)). split; auto.
Qed.

(** ** Specifications of one thread alone

    [runs p s Q]: [p], started in [s] with no other thread, returns, and its result
    and final state satisfy [Q].  Only on a state whose memory the allocator may refuse to
    extend, the run may end with [NoMemory] instead. *)
Class Refuses (St : Type) := may_refuse : bool.

#[export] Hint Mode Refuses ! : typeclass_instances.

#[export] Instance never_refuses St : Refuses St | 100 := false.

(** Memory may really be refused. *)
Class CanRefuse (St : Type) {allow : Refuses St} := can_refuse : may_refuse (St := St) = true.

#[export] Instance pair_refuses A B `{!Refuses A, !Refuses B} : Refuses (A * B) := may_refuse (St := A) || may_refuse (St := B).

Lemma refuses_fst A B `{!Refuses A, !Refuses B} : may_refuse (St := A) = true → may_refuse (St := A * B) = true.
Proof. intros Ha. apply orb_true_intro. by left. Qed.

Lemma refuses_snd A B `{!Refuses A, !Refuses B} : may_refuse (St := B) = true → may_refuse (St := A * B) = true.
Proof. intros Hb. apply orb_true_intro. by right. Qed.

(** No memory is refused to the run. *)
Definition served {St R} (p : prog St R) (s : St) : bool :=
  match run p s with Refused => false | _ => true end.

Section Runs.
Context {St : Type} {allow : Refuses St}.

Definition runs {R} (p : prog St R) (s : St) (Q : R → St → Prop) : Prop :=
  match run p s with Done r s' => Q r s' | Refused => may_refuse (St := St) = true | _ => False end.

Lemma runs_mono {R} (p : prog St R) s (Q Q' : R → St → Prop) :
  (∀ r s', Q r s' → Q' r s') → runs p s Q → runs p s Q'.
Proof. unfold runs. destruct (run p s); auto. Qed.

Lemma runs_bind {R1 R2} (p : prog St R1) (k : R1 → prog St R2) s Q :
  runs p s (λ r s', runs (k r) s' Q) → runs (bind p k) s Q.
Proof. unfold runs. rewrite run_bind. by destruct (run p s). Qed.

Lemma runs_call {R1 R2} (p : prog St R1) (k : R1 → prog St R2) s Q' Q :
  runs p s Q' → (∀ r s', Q' r s' → runs (k r) s' Q) → runs (bind p k) s Q.
Proof. intros Hp Hk. apply runs_bind. by eapply runs_mono. Qed.

Lemma runs_ret {R} (r : R) s (Q : R → St → Prop) : Q r s → runs (Ret r) s Q.
Proof. done. Qed.

Lemma runs_act {A R} (f : St → A * St) (k : A → prog St R) s Q :
  runs (k (f s).1) (f s).2 Q → runs (Act f k) s Q.
Proof. unfold runs. simpl. by destruct (f s). Qed.

Lemma runs_reads (P : St → Prop) {R} (p : prog St R) s Q :
  P s → reads P p Q → runs p s (λ r s', Q r ∧ s' = s).
Proof.
  intros Hs Hr. destruct (reads_run P p Q s Hs Hr) as (r & Hrun & HQ).
  unfold runs. by rewrite Hrun.
Qed.

Lemma runs_returns {R} (p : prog St R) s Q :
  runs p s Q → served p s = true → ∃ r s', run p s = Done r s' ∧ Q r s'.
Proof. unfold runs, served. destruct (run p s) as [r s' | | |]; try done. eauto. Qed.

Lemma runs_load {X R} (get : St → X) (k : X → prog St R) s Q :
  runs (k (get s)) s Q → runs (bind (load get) k) s Q.
Proof. done. Qed.

(** One thread alone: the exchange succeeds when the value is the expected one. *)
Lemma runs_cas {X R} `{EqDecision X} (get : St → X) put cur new (k : X + X → prog St R) s Q :
  get s = cur → runs (k (inl cur)) (put new s) Q →
  runs (bind (compare_exchange get put cur new) k) s Q.
Proof. intros Heq Hr. apply runs_act. by rewrite decide_True by done. Qed.

Lemma runs_cas_weak {X R} `{EqDecision X} (get : St → X) put cur new (k : X + X → prog St R) s Q :
  get s = cur → runs (k (inl cur)) (put new s) Q →
  runs (bind (compare_exchange_weak get put cur new) k) s Q.
Proof. apply runs_cas. Qed.

(** The first iteration of a loop. *)
Lemma runs_loop {B R} n (body : B → prog St (flow B R)) b s Q :
  runs (body b) s (λ x s', match x with Continue b' => runs (loop n body b') s' Q | Break r => Q r s' end) →
  runs (loop (S n) body b) s Q.
Proof.
  intros Hr. cbn [loop]. apply runs_bind. eapply runs_mono; [| exact Hr].
  by intros [b' | r] s'.
Qed.

(** A loop that the first iteration leaves. *)
Lemma runs_loop_once {B R} n (body : B → prog St (flow B R)) b s Q :
  (0 < n)%nat → runs (body b) s (λ x s', ∃ r, x = Break r ∧ Q r s') → runs (loop n body b) s Q.
Proof.
  intros Hn Hr. destruct n as [| n]; [lia |]. apply runs_loop. eapply runs_mono; [| exact Hr].
  by intros x s' (r & -> & HQ).
Qed.

Lemma runs_dassert {R} b (k : unit → prog St R) s Q : b = true → runs (k ()) s Q → runs (bind (dassert b) k) s Q.
Proof. by intros ->. Qed.

(** The rule of [for] loops: [I done b s] holds after the elements [done]. *)
Lemma runs_for_each {X B R} (I : list X → B → St → Prop) (l : list X)
    (body : X → B → prog St (flow B R)) b s (Q : flow B R → St → Prop) :
  (∀ l1 x l2 b s, l = l1 ++ x :: l2 → I l1 b s →
     runs (body x b) s (λ r s', match r with Continue b' => I (l1 ++ [x]) b' s' | Break r => Q (Break r) s' end)) →
  (∀ b s, I l b s → Q (Continue b) s) →
  I [] b s → runs (for_each l body b) s Q.
Proof.
  intros Hbody Hend HI.
  assert (Hgen : ∀ l2 l1 b s, l = l1 ++ l2 → I l1 b s → runs (for_each l2 body b) s Q); [| by apply (Hgen l [])].
  induction l2 as [| x l2 IH]; intros l1 b1 s1 Heq HI1; cbn [for_each].
  - rewrite app_nil_r in Heq. subst l1. by apply Hend.
  - eapply runs_call; [by eapply Hbody |]. intros [b' | r] s' Hx; [| done].
    apply (IH (l1 ++ [x])); [by rewrite <-app_assoc | done].
Qed.
End Runs.

Lemma runs_Done {St R} (p : prog St R) s Q :
  runs (allow := never_refuses St) p s Q ↔ ∃ r s', run p s = Done r s' ∧ Q r s'.
Proof.
  unfold runs. split.
  - destruct (run p s) as [r s' | | |]; try done. eauto.
  - intros (r & s' & -> & ?). done.
Qed.

(** ** Programs on a part of the state

    [zoom get put p] runs [p] on the part of the state that [get] finds and [put]
    replaces; that there is no such part is undefined behaviour. *)
Fixpoint zoom {S T R} (get : T → option S) (put : S → T → T) (p : prog S R) : prog T R :=
  match p with
  | Ret r => Ret r
  | Act f k =>
      Act (λ t, match get t with
                | Some s => let '(a, s') := f s in (Some a, put s' t)
                | None => (None, t)
                end)
          (λ o, match o with Some a => zoom get put (k a) | None => Panic end)
  | Flip k => Flip (λ b, zoom get put (k b))
  | Park g k => Park (λ t, match get t with Some s => g s | None => true end) (zoom get put k)
  | Panic => Panic
  | NoMemory => NoMemory
  | OutOfFuel => OutOfFuel
  end.

Class Part {S T} (get : T → option S) (put : S → T → T) := {
  part_get_put t s s' : get t = Some s → get (put s' t) = Some s';
  part_put_put t s s' s'' : get t = Some s → put s'' (put s' t) = put s'' t;
  part_put_get t s : get t = Some s → put s t = t
}.

(** A part to which memory may be refused is a part of a state with the same memory. *)
Lemma runs_zoom_in {S T R} `{!Refuses S, !Refuses T} (get : T → option S) put `{!Part get put} (p : prog S R) t s Q :
  (may_refuse (St := S) = true → may_refuse (St := T) = true) →
  get t = Some s → runs p s (λ r s', Q r (put s' t)) → runs (zoom get put p) t Q.
Proof.
  intros Hallow. unfold runs. revert t s. induction p as [r | A f k IH | k IH | g k IH | | |]; intros t s Hg; cbn [run zoom]; auto.
  - by rewrite (part_put_get _ _ Hg).
  - rewrite Hg. destruct (f s) as [a s1] eqn:Hf. intros Hr.
    apply (IH a (put s1 t) s1); [by eapply part_get_put |].
    destruct (run (k a) s1); try done. by erewrite part_put_put.
  - intros Hr. by apply (IH false t s).
  - rewrite Hg. destruct (g s); [| done]. intros Hr. by apply (IH t s).
Qed.

Lemma runs_zoom {S T R} {allow : Refuses T} (get : T → option S) put `{!Part get put} (p : prog S R) t s Q :
  get t = Some s → runs (allow := never_refuses S) p s (λ r s', Q r (put s' t)) → runs (zoom get put p) t Q.
Proof. by apply runs_zoom_in. Qed.
