(* ===== verification/Ord.v ===== *)
(** * Ordered keys

    What the containers ask of their keys: the contract of [core::cmp::Ord].
    [K: Borrow<Q>] asks that [Q] be ordered as [K]; keys and queries are one type
    here. *)
From S2P Require Import Prelude.

Class KeyOrd (K : Type) := {
  cmp : K → K → comparison;
  cmp_eq : ∀ a b, cmp a b = Eq ↔ a = b;
  cmp_opp : ∀ a b, cmp b a = CompOpp (cmp a b);
  cmp_trans : ∀ a b c, cmp a b = Lt → cmp b c = Lt → cmp a c = Lt
}.

Create HintDb ord.

Section Laws.
Context {K : Type} `{KeyOrd K}.

Lemma cmp_refl a : cmp a a = Eq.
Proof. by apply cmp_eq. Qed.

Lemma cmp_gt_lt a b : cmp a b = Gt ↔ cmp b a = Lt.
Proof. rewrite (cmp_opp a b). by destruct (cmp a b). Qed.

Lemma cmp_lt_gt a b : cmp a b = Lt ↔ cmp b a = Gt.
Proof. rewrite (cmp_opp a b). by destruct (cmp a b). Qed.

Lemma cmp_lt_irrefl a : cmp a a ≠ Lt.
Proof. by rewrite cmp_refl. Qed.

Lemma cmp_lt_ne a b : cmp a b = Lt → a ≠ b.
Proof. intros Hl ->. by apply (cmp_lt_irrefl b). Qed.

Lemma cmp_lt_asym a b : cmp a b = Lt → cmp b a ≠ Lt.
Proof. intros Hl. rewrite (cmp_opp a b), Hl. done. Qed.

End Laws.

#[export] Hint Resolve cmp_refl cmp_lt_irrefl cmp_lt_ne : ord.

(** Integers are keys: the instance that the examples use. *)
#[export] Instance Z_ord : KeyOrd Z.
Proof.
  refine {| cmp := Z.compare |}.
  - apply Z.compare_eq_iff.
  - intros a b. apply Z.compare_antisym.
  - intros a b c. rewrite !Z.compare_lt_iff. lia.
Defined.
