(* ===== verification/Tag.v ===== *)
(** * Tagged pointers: [src/ebr/tag.rs] and [src/ebr/ptr.rs]

    A pointer to a [RefCounted] instance is a machine word; the two low bits, free
    because of the alignment of the instance, carry a [Tag]. *)
From S2P Require Import Prelude.

Local Open Scope Z_scope.

(** The width of [usize]. *)
Definition usize_bits : nat := 64.

(** A word that is an address: its two low bits are zero. *)
Definition aligned (p : Z) : Prop := in_word usize_bits p ∧ bit p 0 = false ∧ bit p 1 = false.

Module Tag.
Inductive t := None | First | Second | Both.

#[export] Instance eq_dec : EqDecision t.
Proof. solve_decision. Defined.

Definition value (self : t) : Z :=
  match self with
  | None => 0
  | First => 1
  | Second => 2
  | Both => 3
  end.

Definition into_tag (ptr : Z) : t :=
  match Z.land ptr 1 =? 1, Z.land ptr 2 =? 2 with
  | false, false => None
  | true, false => First
  | false, true => Second
  | _, _ => Both
  end.

Definition update_tag (ptr : Z) (tag : t) : Z :=
  Z.lor (Z.land ptr (unot usize_bits 3)) (value tag).

Definition unset_tag (ptr : Z) : Z := Z.land ptr (unot usize_bits 3).

(** [impl TryFrom<u8> for Tag]: the error is the value. *)
Definition try_from (val : Z) : t + Z :=
  if val =? 0 then inl None
  else if val =? 1 then inl First
  else if val =? 2 then inl Second
  else if val =? 3 then inl Both
  else inr val.

(** [impl From<Tag> for u8] *)
Definition from (tag : t) : Z :=
  match tag with
  | None => 0
  | First => 1
  | Second => 2
  | Both => 3
  end.

(** ** Lemmas *)

Lemma value_bits tag i :
  bit (value tag) i =
    match i with
    | 0%nat => bool_decide (tag = First ∨ tag = Both)
    | 1%nat => bool_decide (tag = Second ∨ tag = Both)
    | _ => false
    end.
Proof.
  destruct i as [| [| i]]; [by destruct tag | by destruct tag |].
  apply (bit_high 2); [destruct tag; unfold in_word, usize_bits; simpl; lia | lia].
Qed.

Lemma in_word_value tag : in_word usize_bits (value tag).
Proof. destruct tag; unfold in_word, usize_bits; simpl; lia. Qed.

Lemma land_low ptr i : (Z.land ptr (one_shl i) =? one_shl i) = bit ptr i.
Proof.
  destruct (bit ptr i) eqn:Hb.
  - apply Z.eqb_eq. apply Z.bits_inj'. intros n Hn. rewrite <-(Z2Nat.id n) by lia.
    fold (bit (Z.land ptr (one_shl i)) (Z.to_nat n)) (bit (one_shl i) (Z.to_nat n)).
    autorewrite with word. case_bool_decide; subst; [by rewrite Hb | by rewrite andb_false_r].
  - apply Z.eqb_neq. intros Heq.
    assert (bit (Z.land ptr (one_shl i)) i = bit (one_shl i) i) as Hc by (by rewrite Heq).
    autorewrite with word in Hc. rewrite Hb, bool_decide_true in Hc; done.
Qed.

Lemma into_tag_bits ptr :
  into_tag ptr = match bit ptr 0, bit ptr 1 with
                 | false, false => None
                 | true, false => First
                 | false, true => Second
                 | true, true => Both
                 end.
Proof.
  unfold into_tag. change 1 with (one_shl 0) at 1 2. change 2 with (one_shl 1).
  rewrite !land_low. by destruct (bit ptr 0), (bit ptr 1).
Qed.

Lemma bit_unset_tag ptr i :
  (i < usize_bits)%nat → bit (unset_tag ptr) i = bool_decide (2 ≤ i)%nat && bit ptr i.
Proof.
  intros Hi. unfold unset_tag. change 3 with (umax 2). autorewrite with word.
  rewrite andb_comm. f_equal. repeat case_bool_decide; simpl; done || lia.
Qed.

Lemma bit_update_tag ptr tag i :
  (i < usize_bits)%nat →
  bit (update_tag ptr tag) i =
    match i with
    | 0%nat => bool_decide (tag = First ∨ tag = Both)
    | 1%nat => bool_decide (tag = Second ∨ tag = Both)
    | _ => bit ptr i
    end.
Proof.
  intros Hi. unfold update_tag. rewrite bit_lor, value_bits.
  fold (unset_tag ptr). rewrite bit_unset_tag by done.
  destruct i as [| [| i]]; simpl; try done. by rewrite orb_false_r.
Qed.

Lemma in_word_unset_tag ptr : in_word usize_bits ptr → in_word usize_bits (unset_tag ptr).
Proof. apply in_word_land_l. Qed.

Lemma in_word_update_tag ptr tag :
  in_word usize_bits ptr → in_word usize_bits (update_tag ptr tag).
Proof. intros ?. apply in_word_lor; [by apply in_word_land_l | apply in_word_value]. Qed.

Lemma tag_of_bits tag :
  match bool_decide (tag = First ∨ tag = Both), bool_decide (tag = Second ∨ tag = Both) with
  | false, false => None
  | true, false => First
  | false, true => Second
  | true, true => Both
  end = tag.
Proof. by destruct tag. Qed.

Lemma into_update ptr tag : into_tag (update_tag ptr tag) = tag.
Proof.
  rewrite into_tag_bits, !bit_update_tag by (unfold usize_bits; lia). apply tag_of_bits.
Qed.

Lemma unset_update ptr tag :
  in_word usize_bits ptr → unset_tag (update_tag ptr tag) = unset_tag ptr.
Proof.
  intros Hp. apply (word_ext usize_bits);
    [by apply in_word_unset_tag, in_word_update_tag | by apply in_word_unset_tag |].
  intros i Hi. rewrite !bit_unset_tag, bit_update_tag by done.
  by destruct i as [| [| i]].
Qed.

Lemma update_update ptr tag tag' :
  in_word usize_bits ptr → update_tag (update_tag ptr tag) tag' = update_tag ptr tag'.
Proof.
  intros Hp. apply (word_ext usize_bits);
    [by apply in_word_update_tag, in_word_update_tag | by apply in_word_update_tag |].
  intros i Hi. rewrite !bit_update_tag by done. by destruct i as [| [| i]].
Qed.

Lemma unset_aligned ptr : aligned ptr → unset_tag ptr = ptr.
Proof.
  intros (Hp & H0 & H1). apply (word_ext usize_bits); [by apply in_word_unset_tag | done |].
  intros i Hi. rewrite bit_unset_tag by done. by destruct i as [| [| i]].
Qed.

Lemma aligned_unset ptr : in_word usize_bits ptr → aligned (unset_tag ptr).
Proof.
  intros Hp. split_and!; [by apply in_word_unset_tag | |];
    rewrite bit_unset_tag by (unfold usize_bits; lia); done.
Qed.

Lemma update_into ptr :
  in_word usize_bits ptr → update_tag (unset_tag ptr) (into_tag ptr) = ptr.
Proof.
  intros Hp. apply (word_ext usize_bits);
    [by apply in_word_update_tag, in_word_unset_tag | done |].
  intros i Hi. rewrite bit_update_tag, into_tag_bits by done.
  destruct i as [| [| i]]; simpl; [by destruct (bit ptr 0), (bit ptr 1) .. |].
  rewrite bit_unset_tag by done. done.
Qed.
End Tag.

(** ** [Ptr]: a pointer that is valid for the lifetime of a [Guard] *)
Module Ptr.
Record t := Ptr { instance_ptr : Z }.

#[export] Instance eq_dec : EqDecision t.
Proof. solve_decision. Defined.

Definition null : t := {| instance_ptr := 0 |}.

Definition from (ptr : Z) : t := {| instance_ptr := ptr |}.

Definition as_underlying_ptr (self : t) : Z := instance_ptr self.

Definition is_null (self : t) : bool := Tag.unset_tag (instance_ptr self) =? 0.

Definition tag (self : t) : Tag.t := Tag.into_tag (instance_ptr self).

(** [set_tag] and [unset_tag] return the old tag and update [self]. *)
Definition set_tag (self : t) (tag : Tag.t) : Tag.t * t :=
  let old_tag := Tag.into_tag (instance_ptr self) in
  (old_tag, {| instance_ptr := Tag.update_tag (instance_ptr self) tag |}).

Definition unset_tag (self : t) : Tag.t * t :=
  let old_tag := Tag.into_tag (instance_ptr self) in
  (old_tag, {| instance_ptr := Tag.unset_tag (instance_ptr self) |}).

Definition with_tag (self : t) (tag : Tag.t) : t :=
  from (Tag.update_tag (instance_ptr self) tag).

Definition without_tag (self : t) : t := from (Tag.unset_tag (instance_ptr self)).

(** [impl PartialEq for Ptr] *)
Definition eq (self other : t) : bool := instance_ptr self =? instance_ptr other.
End Ptr.

(** ** Properties *)

(** C40. Tagging a pointer is lossless and never makes it null or not null.  For every
    pointer [p] and tag [t]: the tag of [p.with_tag(t)] is [t]; [without_tag] gives
    the untagged [p] (which is [p] itself when its address is aligned); the untagged
    pointer and the tag of any pointer together are that pointer; [set_tag] and
    [unset_tag] answer the old tag and leave what [with_tag] and [without_tag] give;
    [is_null] is the same with every tag, and for an aligned address it is equality
    with the null pointer, whatever the tag; and a tag read from the byte it was
    converted to is that tag. *)
Theorem tag_roundtrip (p : Ptr.t) (t : Tag.t) :
  in_word usize_bits (Ptr.as_underlying_ptr p) →
  Ptr.tag (Ptr.with_tag p t) = t ∧
  Ptr.without_tag (Ptr.with_tag p t) = Ptr.without_tag p ∧
  (aligned (Ptr.as_underlying_ptr p) → Ptr.without_tag (Ptr.with_tag p t) = p) ∧
  Ptr.with_tag (Ptr.without_tag p) (Ptr.tag p) = p ∧
  Ptr.set_tag p t = (Ptr.tag p, Ptr.with_tag p t) ∧
  Ptr.unset_tag p = (Ptr.tag p, Ptr.without_tag p) ∧
  Ptr.is_null (Ptr.with_tag p t) = Ptr.is_null p ∧
  (aligned (Ptr.as_underlying_ptr p) → Ptr.is_null (Ptr.with_tag p t) = Ptr.eq p Ptr.null) ∧
  Tag.try_from (Tag.from t) = inl t.
Proof.
  destruct p as [w]. unfold Ptr.as_underlying_ptr, Ptr.tag, Ptr.with_tag, Ptr.without_tag, Ptr.is_null, Ptr.from.
  cbn. intros Hp. rewrite Tag.into_update, Tag.unset_update, Tag.update_into by done. split_and!; try done.
  - intros Ha. by rewrite Tag.unset_aligned.
  - intros Ha. by rewrite Tag.unset_aligned.
  - by destruct t.
Qed.

(** A tagged null pointer is not the word 0, and still null. *)
Lemma tag_roundtrip_witness :
  (in_word usize_bits 4096 ∧ Ptr.tag (Ptr.with_tag (Ptr.from 4096) Tag.Second) = Tag.Second) ∧
  (in_word usize_bits 0 ∧ Ptr.as_underlying_ptr (Ptr.with_tag Ptr.null Tag.First) = 1 ∧
   Ptr.is_null (Ptr.with_tag Ptr.null Tag.First) = Ptr.is_null Ptr.null).
Proof.
  assert (in_word usize_bits 4096) as Hp by (unfold in_word, usize_bits; simpl; lia).
  assert (in_word usize_bits 0) as H0 by (unfold in_word, usize_bits; simpl; lia).
  split; [exact (conj Hp (proj1 (tag_roundtrip (Ptr.from 4096) Tag.Second Hp))) |].
  split; [exact H0 |]. split; [vm_compute; reflexivity |].
  destruct (tag_roundtrip Ptr.null Tag.First H0) as (_ & _ & _ & _ & _ & _ & Hnull & _). exact Hnull.
Defined.
