(* ===== verification/RefCounted.v ===== *)
(** * Reference counting: [src/ebr/ref_counted.rs] and [src/ebr/shared.rs]

    An instance that can be reached through [Shared] handles carries a word that
    is the reference count while it is alive, and the link of the garbage list
    once it was passed to the collector.  A count of [n] handles is stored as
    [2 n - 1]: odd words are counts, even words are links. *)
From S2P Require Import Prelude Atomic Tag.

Local Open Scope Z_scope.

(** [RefCounted]: the first word of the union [LinkOrRefCnt], and how often the
    instance was handed to [Guard::collect] or to [drop_and_dealloc]. *)
Record cell := Cell { refcnt : Z; collected : nat; deallocated : nat }.

Definition set_refcnt (r : Z) (c : cell) : cell := Cell r (collected c) (deallocated c).

(** [LinkOrRefCnt::new_shared], [LinkOrRefCnt::new_unique] *)
Definition link_new_shared : Z := 1.
Definition link_new_unique : Z := 0.

Definition new_shared : cell := Cell link_new_shared 0 0.
Definition new_unique : cell := Cell link_new_unique 0 0.

Definition try_add_ref : prog cell bool :=
  let! r := fetch_update refcnt set_refcnt
              (λ r, if r mod 2 =? 1 then Some (wrap usize_bits (r + 2)) else None) in
  Ret (match r with inl _ => true | inr _ => false end).

(** [get_mut_shared]: whether the mutable reference is given out. *)
Definition get_mut_shared : prog cell bool :=
  let! r := load refcnt in Ret (r =? 1).

(** [get_mut_unique] *)
Definition get_mut_unique : prog cell unit :=
  let! r := load refcnt in dassert (r =? 0).

Definition add_ref (n : nat) : prog cell unit :=
  let! current := load refcnt in
  loop n (λ current,
    dassert (current mod 2 =? 1) ;;
    dassert (current <=? umax usize_bits - 2) ;;
    let! r := compare_exchange_weak refcnt set_refcnt current (current + 2) in
    match r with
    | inl _ => Ret (Break ())
    | inr actual => Ret (Continue actual)
    end) current.

Definition drop_ref (n : nat) : prog cell bool :=
  let! current := load refcnt in
  loop n (λ current,
    dassert (negb (current =? 0)) ;;
    let new := if current <=? 1 then 0 else current - 2 in
    let! r := compare_exchange_weak refcnt set_refcnt current new in
    match r with
    | inl _ => Ret (Break (current =? 1))
    | inr actual => Ret (Continue actual)
    end) current.

Module Shared.
(** [pass_underlying_to_collector]: the collector overwrites the word with the
    link [link] to the next garbage instance. *)
Definition pass_underlying_to_collector (link : Z) : prog cell unit :=
  Act (λ c, ((), Cell link (S (collected c)) (deallocated c))) Ret.

Definition drop_and_dealloc : prog cell unit :=
  Act (λ c, ((), Cell (refcnt c) (collected c) (S (deallocated c)))) Ret.

(** [impl Clone for Shared] *)
Definition clone (n : nat) : prog cell unit :=
  let! r := load refcnt in
  dassert (negb (r =? 0)) ;;
  add_ref n.

(** [release], which is also what [impl Drop for Shared] does. *)
Definition release (n : nat) (link : Z) : prog cell bool :=
  let! last := drop_ref n in
  if last then pass_underlying_to_collector link ;; Ret true else Ret false.

Definition drop_in_place (n : nat) : prog cell bool :=
  let! last := drop_ref n in
  if last then drop_and_dealloc ;; Ret true else Ret false.
End Shared.

(** ** Clients

    A thread that owns [h] handles and runs a list of operations; the ownership
    rules of the language forbid an operation on a handle it does not have.
    [TryClone] is [Ptr::get_shared], which needs no handle. *)
Inductive op :=
  | Clone
  | TryClone
  | Release (link : Z)
  | DropInPlace.

Fixpoint client (n : nat) (ops : list op) (h : nat) : prog cell nat :=
  match ops with
  | [] => Ret h
  | Clone :: ops =>
      match h with
      | O => client n ops h
      | S _ => Shared.clone n ;; client n ops (S h)
      end
  | TryClone :: ops =>
      let! ok := try_add_ref in client n ops (if ok : bool then S h else h)
  | Release link :: ops =>
      match h with
      | O => client n ops h
      | S h' => let! _ := Shared.release n link in client n ops h'
      end
  | DropInPlace :: ops =>
      match h with
      | O => client n ops h
      | S h' => let! _ := Shared.drop_in_place n in client n ops h'
      end
  end.

(** The links are addresses of instances, or null: they are even. *)
Definition op_ok (o : op) : Prop :=
  match o with Release link => link mod 2 = 0 | _ => True end.

(** ** The invariant *)

(** What a thread owns: [held] handles, [budget] more clones at most, and
    [pending] last references that it still has to dispose of. *)
Record ghost := Ghost { held : nat; budget : nat; pending : nat }.

Abbreviation total f ls := (sum_list_with f ls).

Definition count_word (n : nat) : Z := 2 * Z.of_nat n - 1.

Record inv (c : cell) (ls : list ghost) : Prop := {
  inv_bound : Z.of_nat (total held ls + total budget ls) < 2 ^ 63;
  inv_alive : (0 < total held ls)%nat → refcnt c = count_word (total held ls);
  inv_dead : total held ls = O → refcnt c mod 2 = 0;
  inv_once : (total pending ls + collected c + deallocated c)%nat
             = if decide (total held ls = O) then 1%nat else 0%nat
}.

Lemma count_word_odd n : (0 < n)%nat → count_word n mod 2 = 1.
Proof.
  intros ?. unfold count_word. replace (2 * Z.of_nat n - 1) with (1 + (Z.of_nat n - 1) * 2) by lia.
  by rewrite Z_mod_plus_full.
Qed.

Lemma inv_alive' c ls t l :
  inv c ls → ls !! t = Some l → (0 < held l)%nat →
  (0 < total held ls)%nat ∧ refcnt c = count_word (total held ls).
Proof.
  intros HI Hl Hh. pose proof (sum_list_with_lookup held ls t l Hl).
  split; [lia |]. apply (inv_alive _ _ HI). lia.
Qed.

(** Replace the ghost value of a thread: the sums change accordingly. *)
Ltac sums Hl l' :=
  match type of Hl with
  | ?ls !! ?t = Some ?l =>
      pose proof (sum_list_with_insert held ls t l l' Hl);
      pose proof (sum_list_with_insert budget ls t l l' Hl);
      pose proof (sum_list_with_insert pending ls t l l' Hl);
      pose proof (sum_list_with_lookup held ls t l Hl);
      pose proof (sum_list_with_lookup budget ls t l Hl);
      pose proof (sum_list_with_lookup pending ls t l Hl);
      simpl in *
  end.

Lemma inv_add c ls t h b p :
  ls !! t = Some (Ghost h (S b) p) → inv c ls → (0 < total held ls)%nat →
  inv (set_refcnt (refcnt c + 2) c) (<[t := Ghost (S h) b p]> ls).
Proof.
  intros Hl [HB HA HD HO] Hpos. sums Hl (Ghost (S h) b p). constructor; simpl.
  - lia.
  - intros _. rewrite HA by lia. unfold count_word. lia.
  - lia.
  - rewrite decide_False in HO by lia. rewrite decide_False by lia. lia.
Qed.

Lemma inv_drop c ls t h b p :
  ls !! t = Some (Ghost (S h) b p) → inv c ls →
  let last := refcnt c =? 1 in
  inv (set_refcnt (if refcnt c <=? 1 then 0 else refcnt c - 2) c)
      (<[t := Ghost h b (if last then S p else p)]> ls).
Proof.
  intros Hl HI. destruct (inv_alive' c ls t _ HI Hl) as [Hpos Hc]; [simpl; lia |].
  destruct HI as [HB HA HD HO]. intros last.
  sums Hl (Ghost h b (if last then S p else p)).
  rewrite decide_False in HO by lia. unfold count_word in *.
  assert (last = bool_decide (total held ls = 1%nat)) as Hlast.
  { unfold last. case_bool_decide; [apply Z.eqb_eq | apply Z.eqb_neq]; lia. }
  rewrite Hlast in *. clear last Hlast.
  constructor; simpl; case_bool_decide.
  - lia.
  - lia.
  - lia.
  - unfold count_word. destruct (Z.leb_spec (refcnt c) 1); lia.
  - rewrite (proj2 (Z.leb_le _ _)) by lia. done.
  - lia.
  - rewrite decide_True by lia. lia.
  - rewrite decide_False by lia. lia.
Qed.

Lemma inv_dispose c ls t h b p r col deal :
  ls !! t = Some (Ghost h b (S p)) → inv c ls → r mod 2 = 0 →
  (col + deal = S (collected c + deallocated c))%nat →
  inv (Cell r col deal) (<[t := Ghost h b p]> ls).
Proof.
  intros Hl [HB HA HD HO] Hr Hcd. sums Hl (Ghost h b p).
  destruct (decide (total held ls = 0%nat)); [| lia].
  constructor; simpl; try lia. rewrite decide_True by lia. lia.
Qed.

(** ** Each operation keeps the invariant *)

Lemma try_add_ref_spec t h b p :
  wp inv t try_add_ref (Ghost h (S b) p)
    (λ ok l, l = Ghost (if ok then S h else h) b p).
Proof.
  intros c ls Hl HI. simpl.
  pose proof (inv_bound _ _ HI) as HB. sums Hl (Ghost h (S b) p).
  destruct (decide (total held ls = 0%nat)) as [Hz | Hnz].
  - rewrite (inv_dead _ _ HI Hz). simpl. exists (Ghost h b p). split; [| done].
    destruct HI as [? ? ? HO]. sums Hl (Ghost h b p). rewrite decide_True in HO by lia.
    constructor; simpl; try lia. rewrite decide_True by lia. lia.
  - rewrite (inv_alive _ _ HI), count_word_odd by lia. simpl.
    exists (Ghost (S h) b p). split; [| done].
    rewrite wrap_id.
    + rewrite <-(inv_alive _ _ HI) by lia. apply inv_add; auto. lia.
    + unfold in_word, usize_bits, count_word. change (2 ^ Z.of_nat 64) with (2 ^ 63 * 2). lia.
Qed.

(** What [add_ref] asserts of the word it has read. *)
Lemma alive_word c ls t h b p :
  inv c ls → ls !! t = Some (Ghost h (S b) p) → (0 < h)%nat →
  refcnt c mod 2 = 1 ∧ refcnt c ≤ umax usize_bits - 2 ∧ refcnt c ≠ 0.
Proof.
  intros HI Hl Hh. destruct (inv_alive' c ls t _ HI Hl Hh) as [Hpos Hc].
  pose proof (inv_bound _ _ HI). sums Hl (Ghost h (S b) p).
  pose proof (count_word_odd _ Hpos). rewrite Hc. unfold count_word in *. split_and!; [done | | lia].
  unfold umax, usize_bits. change (2 ^ Z.of_nat 64) with (2 ^ 63 * 2). lia.
Qed.

Lemma add_ref_spec t n h b p :
  (0 < h)%nat → wp inv t (add_ref n) (Ghost h (S b) p) (λ _ l, l = Ghost (S h) b p).
Proof.
  intros Hh. unfold add_ref. apply wp_load. intros c ls Hl HI.
  eapply wp_loop with
    (J := λ current l, l = Ghost h (S b) p ∧ current mod 2 = 1 ∧ current <= umax usize_bits - 2).
  - by destruct (alive_word _ _ _ _ _ _ HI Hl Hh) as (? & ? & ?).
  - intros current l (-> & Hodd & Hmax). clear c ls Hl HI.
    apply wp_dassert; [by apply Z.eqb_eq |]. apply wp_dassert; [by apply Z.leb_le |].
    apply wp_cas_weak.
    + intros c ls Hl HI <-. eexists. split; [| done].
      apply inv_add; auto. by destruct (inv_alive' c ls t _ HI Hl Hh).
    + intros c ls Hl HI. simpl. by destruct (alive_word _ _ _ _ _ _ HI Hl Hh) as (? & ? & ?).
Qed.

Lemma drop_ref_spec t n h b p :
  wp inv t (drop_ref n) (Ghost (S h) b p)
    (λ last l, l = Ghost h b (if last then S p else p)).
Proof.
  unfold drop_ref. apply wp_load. intros c ls Hl HI.
  assert (Hne : ∀ c ls, ls !! t = Some (Ghost (S h) b p) → inv c ls → refcnt c ≠ 0).
  { intros c' ls' Hl' HI'. destruct (inv_alive' c' ls' t _ HI' Hl') as [Hpos Hc]; [simpl; lia |].
    unfold count_word in Hc. lia. }
  eapply wp_loop with (J := λ current l, l = Ghost (S h) b p ∧ current ≠ 0); [eauto |].
  intros current l (-> & Hcur). clear c ls Hl HI.
  apply wp_dassert; [by apply negb_true_iff, Z.eqb_neq |]. cbv zeta. apply wp_cas_weak.
  - intros c ls Hl HI <-. eexists. split; [by apply inv_drop | done].
  - intros c ls Hl HI. simpl. eauto.
Qed.

Lemma clone_spec t n h b p :
  (0 < h)%nat → wp inv t (Shared.clone n) (Ghost h (S b) p) (λ _ l, l = Ghost (S h) b p).
Proof.
  intros Hh. unfold Shared.clone. apply wp_load. intros c ls Hl HI. apply wp_dassert.
  - apply negb_true_iff, Z.eqb_neq. by destruct (alive_word _ _ _ _ _ _ HI Hl Hh) as (? & ? & ?).
  - by apply add_ref_spec.
Qed.

Lemma rc_release_spec t n link h b p :
  link mod 2 = 0 → wp inv t (Shared.release n link) (Ghost (S h) b p) (λ _ l, l = Ghost h b p).
Proof.
  intros Hlink. unfold Shared.release. eapply wp_call; [apply drop_ref_spec |].
  intros [|] l ->; [| done]. intros c ls Hl HI. exists (Ghost h b p). split; [| done].
  eapply inv_dispose; eauto; simpl; lia.
Qed.

Lemma drop_in_place_spec t n h b p :
  wp inv t (Shared.drop_in_place n) (Ghost (S h) b p) (λ _ l, l = Ghost h b p).
Proof.
  unfold Shared.drop_in_place. eapply wp_call; [apply drop_ref_spec |].
  intros [|] l ->; [| done]. intros c ls Hl HI. exists (Ghost h b p). split; [| done].
  assert (refcnt c mod 2 = 0) as Hev.
  { apply (inv_dead _ _ HI). pose proof (inv_once _ _ HI) as HO.
    sums Hl (Ghost h b p). case_decide; lia. }
  eapply inv_dispose; eauto; simpl; lia.
Qed.

Lemma rc_client_spec t n ops h b :
  Forall op_ok ops → (length ops ≤ b)%nat →
  wp inv t (client n ops h) (Ghost h b 0) (λ h' l, held l = h' ∧ pending l = 0%nat).
Proof.
  revert h b. induction ops as [| o ops IH]; intros h b Hok Hb; cbn [client]; [done |].
  apply Forall_cons in Hok as [Ho Hok]. simpl in Hb.
  destruct o as [| | link |]; [destruct h as [| h] | | destruct h as [| h] | destruct h as [| h]];
    try (apply IH; [done | lia]).
  - destruct b as [| b]; [lia |]. eapply wp_call; [apply clone_spec; lia |].
    intros [] l ->. apply IH; [done | lia].
  - destruct b as [| b]; [lia |]. eapply wp_call; [apply try_add_ref_spec |].
    intros ok l ->. destruct ok; (apply IH; [done | lia]).
  - eapply wp_call; [by apply rc_release_spec |]. intros ? l ->. apply IH; [done | lia].
  - eapply wp_call; [apply drop_in_place_spec |]. intros ? l ->. apply IH; [done | lia].
Qed.

(** ** Properties *)

(** Threads [i] that start with [h_i] handles and run the operations [ops_i]. *)
Definition clients (n : nat) (ts : list (nat * list op)) : list (prog cell nat) :=
  (λ '(h, ops), client n ops h) <$> ts.

Definition handles (ts : list (nat * list op)) : nat := sum_list_with fst ts.
Definition clones (ts : list (nat * list op)) : nat := sum_list_with (λ x, length x.2) ts.

Definition start_ghost (x : nat * list op) : ghost := Ghost x.1 (length x.2) 0.

Lemma start_totals ts :
  total held (start_ghost <$> ts) = handles ts ∧
  total budget (start_ghost <$> ts) = clones ts ∧
  total pending (start_ghost <$> ts) = 0%nat.
Proof.
  unfold handles, clones. induction ts as [| [h ops] ts (IH1 & IH2 & IH3)]; [done |].
  rewrite fmap_cons. cbn [sum_list_with]. by rewrite IH1, IH2, IH3.
Qed.

Lemma clients_ok n ts :
  (0 < handles ts)%nat → Z.of_nat (handles ts + clones ts) < 2 ^ 63 →
  Forall (λ x, Forall op_ok x.2) ts →
  pool_ok inv (λ _ h' l, held l = h' ∧ pending l = 0%nat)
    (Pool (clients n ts) (Cell (count_word (handles ts)) 0 0)) (start_ghost <$> ts).
Proof.
  intros Hpos Hb Hok. destruct (start_totals ts) as (Hh & Hc & Hp). split_and!; simpl.
  - constructor; simpl; rewrite ?Hh, ?Hc, ?Hp; try done; [lia |]. by rewrite decide_False by lia.
  - unfold clients. by rewrite !length_fmap.
  - intros t pr l Hpr Hl. unfold clients in Hpr.
    rewrite list_lookup_fmap in Hpr. rewrite list_lookup_fmap in Hl.
    destruct (ts !! t) as [[h ops] |] eqn:Ht; simplify_eq/=.
    apply rc_client_spec; [| done]. by eapply (Forall_lookup_1 _ _ _ _ Hok) in Ht.
Qed.

Lemma finished_held (ps : list (prog cell nat)) hs (ls : list ghost) :
  ps = Ret <$> hs → length ls = length ps →
  (∀ t r l, ps !! t = Some (Ret r) → ls !! t = Some l → held l = r ∧ pending l = 0%nat) →
  total held ls = sum_list hs ∧ total pending ls = 0%nat.
Proof.
  intros -> . revert hs. induction ls as [| l ls IH]; intros [| h hs] Hlen Hf; simpl in *; try done.
  destruct (IH hs) as [Hh Hp]; [by injection Hlen | intros t; apply (Hf (S t)) |].
  destruct (Hf 0%nat h l) as [-> ->]; [done | done |]. by rewrite Hh, Hp.
Qed.

(** C16. Reference counting is correct under every interleaving of every number of
    threads that clone, try to clone, release and drop handles: no assertion of
    [ref_counted.rs] or [shared.rs] fails (the count never underflows, overflows or
    gets out of parity), the instance is disposed of at most once, and when the
    threads are done, the word encodes the number of handles that are left, the
    instance having been disposed of exactly when there is none. *)
Theorem refcount_concurrent n ts p :
  (0 < handles ts)%nat → Z.of_nat (handles ts + clones ts) < 2 ^ 63 →
  Forall (λ x, Forall op_ok x.2) ts →
  reachable (Pool (clients n ts) (Cell (count_word (handles ts)) 0 0)) p →
  (∀ t pr, threads p !! t = Some pr → ¬ panicking pr) ∧
  (collected (shared p) + deallocated (shared p) ≤ 1)%nat ∧
  (∀ hs, threads p = Ret <$> hs →
    if decide (sum_list hs = O)
    then (collected (shared p) + deallocated (shared p) = 1)%nat
    else refcnt (shared p) = count_word (sum_list hs) ∧
         (collected (shared p) + deallocated (shared p) = 0)%nat).
Proof.
  intros Hpos Hb Hok Hr.
  destruct (pool_safe _ _ _ _ _ (clients_ok n ts Hpos Hb Hok) Hr) as (ls & HI & Hlen & Hnp & Hfin).
  split_and!; [done | |].
  - pose proof (inv_once _ _ HI). case_decide; lia.
  - intros hs Hhs. destruct (finished_held _ _ _ Hhs Hlen Hfin) as [Hh Hp].
    pose proof (inv_once _ _ HI) as HO. rewrite Hh, Hp in HO.
    case_decide; [lia |]. split; [| lia].
    rewrite <-Hh. apply (inv_alive _ _ HI). lia.
Qed.

Lemma refcount_concurrent_witness :
  ∃ p, reachable (Pool (clients 3 [(1%nat, [Clone; Release 0; Release 16])])
                       (Cell (count_word 1) 0 0)) p ∧
       (collected (shared p) + deallocated (shared p) ≤ 1)%nat ∧
       shared p = Cell 16 1 0.
Proof.
  assert (reachable (Pool (clients 3 [(1%nat, [Clone; Release 0; Release 16])])
                          (Cell (count_word 1) 0 0)) (Pool [Ret 0%nat] (Cell 16 1 0))) as Hr.
  { apply run_reachable. vm_compute. reflexivity. }
  eexists. split; [exact Hr |]. split; [| reflexivity].
  refine (proj1 (proj2 (refcount_concurrent 3 [(1%nat, [Clone; Release 0; Release 16])] _ _ _ _ Hr))).
  - vm_compute. lia.
  - reflexivity.
  - repeat constructor.
Defined.
