(* ===== verification/AtomicShared.v ===== *)
(** * Atomic pointers: [src/ebr/atomic_shared.rs]

    The functions of [AtomicShared], as programs on the word that it holds; a structure with
    such a field runs them there through [zoom].  The word is an instance and a tag ([Tag]
    shows that a machine word can hold both).  A [Shared] is the identity of its instance:
    [RefCounted] shows that the count of an instance is positive as long as a [Shared] or an
    [AtomicShared] refers to it, so [try_add_ref] succeeds on the instance that the word
    refers to when the thread is alone. *)
From S2P Require Import Prelude Atomic Tag.

#[local] Existing Instance Tag.eq_dec.

(** A tagged pointer to an instance: [Ptr], and what an [AtomicShared] holds. *)
Definition Ptr : Type := option nat * Tag.t.

Definition ptr_null : Ptr := (None, Tag.None).

(** [Ptr::without_tag] *)
Definition without_tag (self : Ptr) : Ptr := (self.1, Tag.None).

(** [Ptr::get_shared] *)
Definition ptr_get_shared (self : Ptr) : option nat := self.1.

Definition shared_is_null : prog Ptr bool :=
  let! p := load id in Ret (bool_decide (p.1 = None)).

Definition shared_load : prog Ptr Ptr := load id.

(** The result is the [Shared] that was held, and its tag. *)
Definition shared_swap (new : option nat * Tag.t) : prog Ptr (option nat * Tag.t) :=
  fetch_modify id (λ p _, p) (λ _, new).

Definition shared_tag : prog Ptr Tag.t :=
  let! p := load id in Ret p.2.

Definition shared_update_tag_if (tag : Tag.t) (condition : Ptr → bool) : prog Ptr bool :=
  let! r := fetch_update id (λ p _, p) (λ p, if condition p then Some (p.1, tag) else None) in
  Ret (match r with inl _ => true | inr _ => false end).

(** [inl] is [Ok]: the [Shared] that was held, and the new pointer; [inr] is [Err]: the
    [Shared] that was not stored, and the pointer that is there. *)
Definition shared_compare_exchange (current : Ptr) (new : option nat * Tag.t) :
    prog Ptr (option nat * Ptr + option nat * Ptr) :=
  let! r := compare_exchange id (λ p _, p) current new in
  Ret (match r with inl prev => inl (prev.1, new) | inr actual => inr (new.1, actual) end).

Definition shared_compare_exchange_weak (current : Ptr) (new : option nat * Tag.t) :
    prog Ptr (option nat * Ptr + option nat * Ptr) :=
  let! r := compare_exchange_weak id (λ p _, p) current new in
  Ret (match r with inl prev => inl (prev.1, new) | inr actual => inr (new.1, actual) end).

(** What the new [AtomicShared] holds. *)
Definition shared_clone : prog Ptr Ptr :=
  let! p := load id in Ret (match p.1 with Some _ => p | None => ptr_null end).

Definition shared_get_shared : prog Ptr (option nat) :=
  let! p := load id in Ret p.1.

(** ** What one thread alone gets *)

Section Runs.
Context {St R : Type} (get : St → option Ptr) (put : Ptr → St → St) `{!Part get put}.

Implicit Types (p q : Ptr) (s : St) (Q : R → St → Prop).

Lemma runs_shared_load p (k : Ptr → prog St R) s Q :
  get s = Some p → runs (k p) s Q → runs (let! r := zoom get put shared_load in k r) s Q.
Proof.
  intros Hs Hk. apply runs_bind. eapply runs_zoom; [done | exact Hs |]. apply runs_act. cbn. by rewrite part_put_get.
Qed.

Lemma runs_shared_swap p new (k : Ptr → prog St R) s Q :
  get s = Some p → runs (k p) (put new s) Q → runs (let! r := zoom get put (shared_swap new) in k r) s Q.
Proof. intros Hs Hk. apply runs_bind. eapply runs_zoom; [done | exact Hs |]. by apply runs_act. Qed.

Lemma runs_shared_tag p (k : Tag.t → prog St R) s Q :
  get s = Some p → runs (k p.2) s Q → runs (let! r := zoom get put shared_tag in k r) s Q.
Proof.
  intros Hs Hk. apply runs_bind. eapply runs_zoom; [done | exact Hs |]. apply runs_act. cbn. by rewrite part_put_get.
Qed.

Lemma runs_shared_is_null p (k : bool → prog St R) s Q :
  get s = Some p → runs (k (bool_decide (p.1 = None))) s Q → runs (let! r := zoom get put shared_is_null in k r) s Q.
Proof.
  intros Hs Hk. apply runs_bind. eapply runs_zoom; [done | exact Hs |]. apply runs_act. cbn. by rewrite part_put_get.
Qed.

Lemma runs_shared_get_shared p (k : option nat → prog St R) s Q :
  get s = Some p → runs (k p.1) s Q → runs (let! r := zoom get put shared_get_shared in k r) s Q.
Proof.
  intros Hs Hk. apply runs_bind. eapply runs_zoom; [done | exact Hs |]. apply runs_act. cbn. by rewrite part_put_get.
Qed.

Lemma runs_shared_clone p (k : Ptr → prog St R) s Q :
  get s = Some p → runs (k (match p.1 with Some _ => p | None => ptr_null end)) s Q →
  runs (let! r := zoom get put shared_clone in k r) s Q.
Proof.
  intros Hs Hk. apply runs_bind. eapply runs_zoom; [done | exact Hs |]. apply runs_act. cbn. by rewrite part_put_get.
Qed.

Lemma runs_shared_update_tag_if p tag (condition : Ptr → bool) (k : bool → prog St R) s Q :
  get s = Some p → condition p = true → runs (k true) (put (p.1, tag) s) Q →
  runs (let! r := zoom get put (shared_update_tag_if tag condition) in k r) s Q.
Proof.
  intros Hs Hc Hk. apply runs_bind. eapply runs_zoom; [done | exact Hs |]. apply runs_bind, runs_act.
  cbn. by rewrite Hc.
Qed.

Lemma runs_shared_cas p new (k : option nat * Ptr + option nat * Ptr → prog St R) s Q :
  get s = Some p → runs (k (inl (p.1, new))) (put new s) Q →
  runs (let! r := zoom get put (shared_compare_exchange p new) in k r) s Q.
Proof.
  intros Hs Hk. apply runs_bind. eapply runs_zoom; [done | exact Hs |]. apply runs_bind, runs_act.
  cbn. by rewrite decide_True by done.
Qed.

Lemma runs_shared_cas_weak p new (k : option nat * Ptr + option nat * Ptr → prog St R) s Q :
  get s = Some p → runs (k (inl (p.1, new))) (put new s) Q →
  runs (let! r := zoom get put (shared_compare_exchange_weak p new) in k r) s Q.
Proof. apply runs_shared_cas. Qed.

Lemma runs_shared_cas_fails p current new (k : option nat * Ptr + option nat * Ptr → prog St R) s Q :
  get s = Some p → p ≠ current → runs (k (inr (new.1, p))) s Q →
  runs (let! r := zoom get put (shared_compare_exchange current new) in k r) s Q.
Proof.
  intros Hs Hne Hk. apply runs_bind. eapply runs_zoom; [done | exact Hs |]. apply runs_bind, runs_act.
  cbn. rewrite decide_False by done. cbn. by rewrite (part_put_get _ _ Hs).
Qed.
End Runs.
