(* ===== verification/LinkedList.v ===== *)
(** * Lock-free linked lists, and what their functions do *)
From S2P Require Import Prelude Atomic Tag AtomicShared.

#[local] Existing Instance Tag.eq_dec.

(** ** Lock-free linked lists: [src/linked_list.rs]

    The trait [LinkedList]: entries with a link, an [AtomicShared] whose tag is the state of
    the entry.  A deleted entry stays in the list until [next_ptr] of an entry before it
    links around it. *)

(** The entries of a store and their [link_ref]. *)
Class LinkedList (St : Type) := {
  link_ref : nat → St → option Ptr;
  set_link : nat → Ptr → St → St
}.

(** The links are cells of their own. *)
Class LinkLaws (St : Type) `{!LinkedList St} := {
  #[export] link_part e :: Part (link_ref e) (set_link e);
  link_ref_ne e e' p s : e ≠ e' → link_ref e (set_link e' p s) = link_ref e s
}.

Section Operations.
Context {St : Type} `{!LinkedList St} (n : nat).

Definition at_link {R} (self : nat) (p : prog Ptr R) : prog St R := zoom (link_ref self) (set_link self) p.

Definition is_clear (self : nat) : prog St bool :=
  let! tag := at_link self shared_tag in Ret (bool_decide (tag = Tag.None)).

Definition mark (self : nat) : prog St bool :=
  at_link self (shared_update_tag_if Tag.First (λ ptr, bool_decide (ptr.2 = Tag.None))).

Definition unmark (self : nat) : prog St bool :=
  at_link self (shared_update_tag_if Tag.None (λ ptr, bool_decide (ptr.2 = Tag.First))).

Definition is_marked (self : nat) : prog St bool :=
  let! tag := at_link self shared_tag in Ret (bool_decide (tag = Tag.First)).

Definition delete_self (self : nat) : prog St bool :=
  at_link self (shared_update_tag_if Tag.Second (λ ptr, bool_decide (ptr.2 = Tag.None) || bool_decide (ptr.2 = Tag.First))).

Definition is_deleted (self : nat) : prog St bool :=
  let! tag := at_link self shared_tag in Ret (bool_decide (tag = Tag.Second) || bool_decide (tag = Tag.Both)).

(** [push_back]: the updated link, or the entry back. *)
Definition push_back (self : nat) (entry : nat) (mark : bool) : prog St (Ptr + nat) :=
  let new_tag := if mark then Tag.First else Tag.None in
  let! next_ptr := at_link self shared_load in
  loop n (λ next_ptr : Ptr,
    if bool_decide (next_ptr.2 = Tag.Second) || bool_decide (next_ptr.2 = Tag.Both) then Ret (Break (inr entry))
    else
      let! _ := at_link entry (shared_swap (ptr_get_shared next_ptr, Tag.None)) in
      let! r := at_link self (shared_compare_exchange_weak next_ptr (Some entry, new_tag)) in
      match r with
      | inl (_, updated) => Ret (Break (inl updated))
      | inr (_, actual) => Ret (Continue actual)
      end) next_ptr.

(** The first loop of [next_ptr]: the next entry that is not deleted, and the range of the
    deleted ones whose links this call may change. *)
Definition find_valid (current_state : Ptr) : prog St (Ptr * (Ptr * Ptr)) :=
  loop n (λ s : Ptr * (Ptr * Ptr) * bool,
    let '(entry_ptr, (range_0, range_1), cleanup_range_ended) := s in
    match entry_ptr.1 with
    | Some entry =>
        let! entry_state := at_link entry shared_load in
        let tag := entry_state.2 in
        if bool_decide (tag = Tag.None) || bool_decide (tag = Tag.First) then Ret (Break (entry_ptr, (range_0, range_1)))
        else
          let! updated :=
            if bool_decide (tag = Tag.Second) && negb cleanup_range_ended
            then at_link entry (shared_update_tag_if Tag.Both (λ ptr, bool_decide (ptr = entry_state)))
            else Ret false in
          if updated : bool then
            let range_0 := if bool_decide (range_0.1 = None) then without_tag entry_ptr else range_0 in
            Ret (Continue (entry_state, (range_0, without_tag entry_ptr), cleanup_range_ended))
          else Ret (Continue (entry_state, (range_0, range_1), true))
    | None => Ret (Break (entry_ptr, (range_0, range_1)))
    end) (current_state, (ptr_null, ptr_null), bool_decide (current_state.2 = Tag.Both)).

(** The second loop: the range is not reachable any more. *)
Definition unlink_range (next_valid_entry : option nat) (range : Ptr * Ptr) : prog St unit :=
  loop n (λ entry_ptr : Ptr,
    match entry_ptr.1 with
    | Some entry =>
        let! tag := at_link entry shared_tag in
        dassert (bool_decide (tag = Tag.Both)) ;;
        let! r := at_link entry (shared_swap (next_valid_entry, Tag.Second)) in
        if bool_decide (without_tag entry_ptr = range.2) then Ret (Break ())
        else Ret (Continue (match r.1 with Some next => (Some next, Tag.None) | None => ptr_null end))
    | None => Ret (Break ())
    end) range.1.

(** The third loop: the link was changed by another thread. *)
Definition restore_range (range : Ptr * Ptr) : prog St unit :=
  loop n (λ entry_ptr : Ptr,
    match entry_ptr.1 with
    | Some entry =>
        let! next_ptr := at_link entry shared_load in
        dassert (bool_decide (next_ptr.2 = Tag.Both)) ;;
        let! _ := at_link entry (shared_update_tag_if Tag.Second (λ _, true)) in
        if bool_decide (without_tag entry_ptr = range.2) then Ret (Break ()) else Ret (Continue next_ptr)
    | None => Ret (Break ())
    end) range.1.

Definition next_ptr (self : nat) : prog St Ptr :=
  let! current_state := at_link self shared_load in
  let! r := find_valid current_state in
  let next_valid_ptr := r.1 in
  let cleanup_target_range := r.2 in
  if negb (bool_decide (current_state.2 = Tag.Both)) && negb (bool_decide (current_state = next_valid_ptr)) then
    let next_valid_entry := ptr_get_shared next_valid_ptr in
    let! cleaned :=
      if Bool.eqb (bool_decide (next_valid_entry = None)) (bool_decide (next_valid_ptr.1 = None)) then
        let! r := at_link self (shared_compare_exchange current_state (next_valid_entry, current_state.2)) in
        match r with
        | inl (Some next, _) =>
            unlink_range next_valid_entry cleanup_target_range ;; Ret true
        | _ => Ret false
        end
      else Ret false in
    (if cleaned : bool then Ret () else restore_range cleanup_target_range) ;;
    Ret next_valid_ptr
  else Ret next_valid_ptr.
End Operations.

(** ** What the functions of a linked list do, when the thread is alone

    [leads] follows the links over deleted entries, [chained] says that a list of entries is
    what a reader meets.  The functions of the list insert into and delete from it;
    [next_ptr] only takes shortcuts. *)

(** The tags of an entry that is not deleted. *)
Definition valid_tag (tag : Tag.t) : Prop := tag = Tag.None ∨ tag = Tag.First.

Section Theory.
Context {St : Type} `{!LinkedList St} `{!LinkLaws St}.

Implicit Types (s : St) (e : nat) (p : Ptr) (q x y : option nat) (ds L : list nat) (n : nat).

(** From the pointer [q] over the deleted entries [ds] to [x]: the end of the list, or an
    entry that is not deleted. *)
Inductive leads s : option nat → option nat → list nat → Prop :=
  | leads_end : leads s None None []
  | leads_valid e p : link_ref e s = Some p → valid_tag p.2 → leads s (Some e) (Some e) []
  | leads_deleted e p x ds :
      link_ref e s = Some p → p.2 = Tag.Second → leads s p.1 x ds → leads s (Some e) x (e :: ds).

Definition first L y : option nat := match L with [] => y | e :: _ => Some e end.

(** A reader that starts at the first entry of [L] meets them all, in this order, and then
    comes to [y]. *)
Fixpoint segment s L y : Prop :=
  match L with
  | [] => True
  | e :: L => (∃ p ds, link_ref e s = Some p ∧ valid_tag p.2 ∧ leads s p.1 (first L y) ds) ∧ segment s L y
  end.

(** The whole list. *)
Definition chained s L : Prop := segment s L None.

(** Only links have changed. *)
Definition relinked : St → St → Prop :=
  rtc (λ s s', ∃ e p (p' : Ptr), link_ref e s = Some p' ∧ s' = set_link e p s).

(** Links were set further ahead. *)
Definition shortcut s s' : Prop :=
  ∀ e p, link_ref e s = Some p →
    ∃ p', link_ref e s' = Some p' ∧ p'.2 = p.2 ∧ (p'.1 = p.1 ∨ ∃ ds, leads s p.1 p'.1 ds).

(** ** Links *)

Lemma link_ref_eq e p (p' : Ptr) s : link_ref e s = Some p' → link_ref e (set_link e p s) = Some p.
Proof. intros He. by apply (part_get_put s p'). Qed.

Lemma link_ref_set e e' p s : is_Some (link_ref e' s) →
  link_ref e (set_link e' p s) = if decide (e = e') then Some p else link_ref e s.
Proof.
  intros [q Hq]. case_decide as He; [subst e'; by apply (link_ref_eq _ _ q) | by apply link_ref_ne].
Qed.

Lemma valid_not_second (tag : Tag.t) : valid_tag tag → tag ≠ Tag.Second.
Proof. by intros [-> | ->]. Qed.

Lemma leads_fun s q x ds y ds' : leads s q x ds → leads s q y ds' → x = y ∧ ds = ds'.
Proof.
  intros Hx. revert y ds'. induction Hx as [| e p Hp Hv | e p x ds Hp Hd Hx IH]; intros y ds' Hy;
    inversion Hy as [| e' p' Hp' Hv' | e' p' x' ds2 Hp' Hd' Hy']; subst; [done | done | | |].
  - simplify_eq. by destruct (valid_not_second _ Hv).
  - simplify_eq. by destruct (valid_not_second _ Hv').
  - simplify_eq. by destruct (IH _ _ Hy') as [-> ->].
Qed.

Lemma leads_target s q x ds : leads s q x ds → x = None ∨ ∃ e p, x = Some e ∧ link_ref e s = Some p ∧ valid_tag p.2.
Proof. induction 1; eauto 10. Qed.

Lemma leads_self s q x ds : leads s q x ds → leads s x x [].
Proof.
  intros Hl. destruct (leads_target _ _ _ _ Hl) as [-> | (e & p & -> & Hp & Hv)]; [constructor | by eapply leads_valid].
Qed.

(** The rest of the way from an entry of it. *)
Lemma leads_suffix s q x ds e : leads s q x ds → e ∈ ds → ∃ ds1 ds2, ds = ds1 ++ ds2 ∧ leads s (Some e) x ds2.
Proof.
  induction 1 as [| e' p Hp Hv | e' p x ds Hp Hd Hl IH]; intros He; [by apply not_elem_of_nil in He.. |].
  apply elem_of_cons in He as [-> | He].
  - exists [], (e' :: ds). split; [done |]. by eapply leads_deleted.
  - destruct (IH He) as (ds1 & ds2 & -> & Hl2). by exists (e' :: ds1), ds2.
Qed.

Lemma leads_in s q x ds e : leads s q x ds → e ∈ ds → ∃ p ds2, link_ref e s = Some p ∧ p.2 = Tag.Second ∧ leads s p.1 x ds2.
Proof.
  induction 1 as [| e' p Hp Hv | e' p x ds Hp Hd Hl IH]; intros He; [by apply not_elem_of_nil in He.. |].
  apply elem_of_cons in He as [-> | He]; [by exists p, ds | by apply IH].
Qed.

Lemma leads_NoDup s q x ds : leads s q x ds → NoDup ds.
Proof.
  induction 1 as [| e p Hp Hv | e p x ds Hp Hd Hl IH]; [constructor.. |]. constructor; [| exact IH]. intros He.
  destruct (leads_suffix _ _ _ _ _ Hl He) as (ds1 & ds2 & Heq & Hl2).
  destruct (leads_fun _ _ _ _ _ _ Hl2 (leads_deleted _ _ _ _ _ Hp Hd Hl)) as [_ ->].
  apply (f_equal length) in Heq. rewrite length_app in Heq. cbn in Heq. lia.
Qed.

(** An entry is not on the way from itself. *)
Lemma leads_not_self s e p x ds : link_ref e s = Some p → leads s p.1 x ds → e ∉ ds.
Proof.
  intros Hp Hl He. destruct (leads_in _ _ _ _ _ Hl He) as (p' & ds2 & Hp' & Hd & _). simplify_eq.
  pose proof (leads_NoDup _ _ _ _ (leads_deleted _ _ _ _ _ Hp Hd Hl)) as Hnd. by apply NoDup_cons in Hnd as [? _].
Qed.

Lemma leads_app s s' q e (p1 : option nat) x ds ds2 :
  leads s q (Some e) ds → (∀ e', e' ∈ ds → link_ref e' s' = link_ref e' s) →
  link_ref e s' = Some (p1, Tag.Second) → leads s' p1 x ds2 → leads s' q x (ds ++ e :: ds2).
Proof.
  intros Hq Hsame He Hx. remember (Some e) as y eqn:Hy. revert Hy.
  induction Hq as [| e1 p Hp Hv | e1 p y ds Hp Hd Hl IH]; intros Hy; [done | |].
  - injection Hy as ->. by eapply (leads_deleted _ _ _ _ _ He).
  - subst y. cbn. eapply leads_deleted; [by rewrite Hsame by left | done |]. apply IH; [| done].
    intros e' He'. apply Hsame. by right.
Qed.

(** Changes off the way, and to its end. *)
Lemma leads_frame s s' q x ds :
  leads s q x ds → (∀ e, e ∈ ds → link_ref e s' = link_ref e s) →
  (∀ e, x = Some e → ∃ p, link_ref e s' = Some p ∧ valid_tag p.2) → leads s' q x ds.
Proof.
  induction 1 as [| e p Hp Hv | e p x ds Hp Hd Hl IH]; intros Hds Hx; [constructor | |].
  - destruct (Hx e eq_refl) as (p' & Hp' & Hv'). by eapply leads_valid.
  - eapply leads_deleted; [by rewrite Hds by left | done |]. apply IH; [| done]. intros e' He'. apply Hds. by right.
Qed.

(** ** Shortcuts *)

Lemma leads_shortcut s s' q x ds : shortcut s s' → leads s q x ds → ∃ ds', leads s' q x ds' ∧ (length ds' ≤ length ds)%nat.
Proof.
  intros Hs. induction 1 as [| e p Hp Hv | e p x ds Hp Hd Hl (ds' & Hl' & Hlen)].
  - exists []. split; [constructor | done].
  - destruct (Hs e p Hp) as (p' & Hp' & Ht & _). exists []. split; [| done]. eapply leads_valid; [done | by rewrite Ht].
  - destruct (Hs e p Hp) as (p' & Hp' & Ht & [Heq | (ds2 & Hl2)]).
    + exists (e :: ds'). split; [| cbn; lia]. eapply leads_deleted; [done | by rewrite Ht | by rewrite Heq].
    + destruct (leads_fun _ _ _ _ _ _ Hl2 Hl) as [Hx _]. exists [e]. split; [| cbn; lia].
      eapply leads_deleted; [done | by rewrite Ht |]. rewrite Hx.
      apply leads_target in Hl as [-> | (e2 & p2 & -> & Hp2 & Hv2)]; [constructor |].
      destruct (Hs e2 p2 Hp2) as (p3 & Hp3 & Ht3 & _). eapply leads_valid; [exact Hp3 | by rewrite Ht3].
Qed.

Lemma shortcut_refl s : shortcut s s.
Proof. intros e p Hp. exists p. auto. Qed.

Lemma leads_end_shortcut s s' x : shortcut s s' → leads s x x [] → leads s' x x [].
Proof.
  intros Hs Hx. destruct (leads_target _ _ _ _ Hx) as [-> | (e & p & -> & Hp & Hv)]; [constructor |].
  destruct (Hs e p Hp) as (p' & Hp' & Ht & _). eapply leads_valid; [exact Hp' | by rewrite Ht].
Qed.

Lemma segment_shortcut s s' L y : shortcut s s' → segment s L y → segment s' L y.
Proof.
  intros Hs. induction L as [| e L IH]; [done |]. intros [(p & ds & Hp & Hv & Hl) HL]. split; [| by apply IH].
  destruct (Hs e p Hp) as (p' & Hp' & Ht & Hto). exists p'. rewrite Ht. destruct Hto as [Heq | (ds2 & Hl2)].
  - destruct (leads_shortcut _ _ _ _ _ Hs Hl) as (ds' & Hl' & _). exists ds'. by rewrite Heq.
  - destruct (leads_fun _ _ _ _ _ _ Hl2 Hl) as [Hx _]. exists []. rewrite Hx. split; [done |]. split; [done |].
    eapply leads_end_shortcut; [exact Hs | by eapply leads_self].
Qed.

(** ** Segments *)

Lemma first_app L1 L2 y : first (L1 ++ L2) y = first L1 (first L2 y).
Proof. by destruct L1. Qed.

Lemma segment_app s L1 L2 y : segment s (L1 ++ L2) y ↔ segment s L1 (first L2 y) ∧ segment s L2 y.
Proof.
  induction L1 as [| e L1 IH]; cbn [app segment]; [tauto |]. rewrite IH, first_app. tauto.
Qed.

Lemma segment_valid s L y e : segment s L y → e ∈ L → ∃ p, link_ref e s = Some p ∧ valid_tag p.2.
Proof.
  induction L as [| e' L IH]; [by intros _ ?%not_elem_of_nil |]. intros [(p & ds & Hp & Hv & _) HL] [-> | He]%elem_of_cons; eauto.
Qed.

Lemma segment_target s L y : segment s L y → L ≠ [] → y = None ∨ ∃ e p, y = Some e ∧ link_ref e s = Some p ∧ valid_tag p.2.
Proof.
  induction L as [| e [| e2 L] IH]; [done | |].
  - intros [(p & ds & _ & _ & Hl) _] _. by eapply leads_target.
  - intros [_ HL] _. by apply IH.
Qed.

(** A change of entries that are not deleted, and stay so, off the segment. *)
Lemma segment_frame s s' L y :
  segment s L y →
  (∀ e p, link_ref e s = Some p → link_ref e s' = Some p ∨
    (valid_tag p.2 ∧ e ∉ L ∧ ∃ p', link_ref e s' = Some p' ∧ valid_tag p'.2)) →
  segment s' L y.
Proof.
  intros Hseg Hch.
  assert (Hlead : ∀ q x ds, leads s q x ds → leads s' q x ds).
  { induction 1 as [| e p Hp Hv | e p x ds Hp Hd Hl IH]; [constructor | |].
    - destruct (Hch e p Hp) as [Hp' | (_ & _ & p' & Hp' & Hv')]; by eapply leads_valid.
    - destruct (Hch e p Hp) as [Hp' | (Hv & _)]; [by eapply leads_deleted | by destruct (valid_not_second _ Hv)]. }
  induction L as [| e L IH]; [done |]. destruct Hseg as [(p & ds & Hp & Hv & Hl) HL]. split.
  - destruct (Hch e p Hp) as [Hp' | (_ & [] & _)]; [| by left]. exists p, ds. auto.
  - apply IH; [exact HL |]. intros e' p' Hp'. destruct (Hch e' p' Hp') as [? | (Hv' & Hin & Hex)]; [by left | right].
    split; [done |]. split; [| done]. intros He'. apply Hin. by right.
Qed.

(** ** Insertion and deletion *)

Section Delete.
Context (s : St) (t : nat) (pt : Ptr) (Ht : link_ref t s = Some pt) (Hv : valid_tag pt.2).

Local Notation s' := (set_link t (pt.1, Tag.Second) s).

Lemma delete_other e : e ≠ t → link_ref e s' = link_ref e s.
Proof. apply link_ref_ne. Qed.

Lemma leads_delete_off q x ds : leads s q x ds → x ≠ Some t → leads s' q x ds.
Proof.
  induction 1 as [| e p Hp Hve | e p x ds Hp Hd Hl IH]; intros Hx; [constructor | |].
  - eapply leads_valid; [| done]. rewrite delete_other; [done | congruence].
  - eapply leads_deleted; [| done | by apply IH]. rewrite delete_other; [done |]. intros ->. simplify_eq.
    by destruct (valid_not_second _ Hv).
Qed.

Lemma leads_delete q x ds z dz : leads s q x ds → leads s pt.1 z dz → z ≠ Some t → x = Some t → ∃ ds', leads s' q z ds'.
Proof.
  intros Hl Hz Hzt Hx. subst x. exists (ds ++ t :: dz). apply (leads_app s s' q t pt.1).
  - exact Hl.
  - intros e He. apply delete_other. intros ->. destruct (leads_in _ _ _ _ _ Hl He) as (p & _ & Hp & Hd & _). simplify_eq.
    by destruct (valid_not_second _ Hv).
  - by eapply link_ref_eq.
  - by apply leads_delete_off.
Qed.

Lemma segment_off L y : segment s L y → t ∉ L → y ≠ Some t → segment s' L y.
Proof.
  induction L as [| e L IH]; [done |]. intros [(p & ds & Hp & Hve & Hl) HL] Hin Hy.
  apply not_elem_of_cons in Hin as [Hne Hin]. split; [| by apply IH]. exists p, ds. split; [by rewrite delete_other |].
  split; [done |]. apply leads_delete_off; [exact Hl |]. destruct L as [| e' L]; [done |]. cbn. intros [= ->]. destruct Hin. left.
Qed.

Lemma segment_delete A B y : segment s (A ++ t :: B) y → t ∉ A → t ∉ B → y ≠ Some t → segment s' (A ++ B) y.
Proof.
  intros Hseg HA HB Hy. apply segment_app in Hseg as [Hsa [(p & ds & Hp & _ & Hl) HsB]]. simplify_eq.
  assert (Hz : first B y ≠ Some t). { destruct B as [| e B]; [done |]. cbn. intros [= ->]. destruct HB. left. }
  apply segment_app. split; [| by apply segment_off]. clear HsB HB Hy. cbn [first] in Hsa.
  induction A as [| e A IH]; [done |]. destruct Hsa as [(p & ds' & Hp & Hve & Hle) HsA].
  apply not_elem_of_cons in HA as [Hne HA]. split; [| by apply IH]. exists p. destruct A as [| e' A]; cbn [first] in *.
  - destruct (leads_delete _ _ _ _ _ Hle Hl Hz eq_refl) as (ds2 & Hl2). exists ds2.
    split; [by rewrite delete_other |]. by split.
  - exists ds'. split; [by rewrite delete_other |]. split; [done |]. apply leads_delete_off; [exact Hle |].
    intros [= ->]. destruct HA. left.
Qed.
End Delete.

(** The entry [e], not deleted and not of the list, is put after [t]. *)
Lemma segment_push s t e pt pe (tag : Tag.t) A B y :
  segment s (A ++ t :: B) y → link_ref t s = Some pt → link_ref e s = Some pe → valid_tag pe.2 → valid_tag tag →
  t ∉ A → t ∉ B → e ∉ A → e ∉ B → e ≠ t →
  segment (set_link t (Some e, tag) (set_link e (pt.1, Tag.None) s)) (A ++ t :: e :: B) y.
Proof.
  intros Hseg Ht He Hve Htag HtA HtB HeA HeB Hne. set (s' := set_link t _ _).
  assert (Hlt : link_ref t s' = Some (Some e, tag)).
  { unfold s'. rewrite link_ref_set; [by rewrite decide_True |]. rewrite link_ref_ne by done. by exists pt. }
  assert (Hle : link_ref e s' = Some (pt.1, Tag.None)).
  { unfold s'. rewrite link_ref_ne by done. by eapply link_ref_eq. }
  assert (Hother : ∀ e', e' ≠ t → e' ≠ e → link_ref e' s' = link_ref e' s) by (intros; unfold s'; by rewrite !link_ref_ne).
  apply segment_app in Hseg as [HsA [(p & ds & Hp & Hv & Hl) HsB]]. rewrite Ht in Hp. injection Hp as <-.
  assert (Hframe : ∀ L z, segment s L z → t ∉ L → e ∉ L → segment s' L z).
  { intros L z HL HtL HeL. eapply segment_frame; [exact HL |]. intros e' p' Hp'.
    destruct (decide (e' = t)) as [-> |]; [right; simplify_eq; split; [done |]; split; [done |]; by eexists |].
    destruct (decide (e' = e)) as [-> |]; [right; simplify_eq; split; [done |]; split; [done |]; eexists; split; [done | by left] |].
    left. by rewrite Hother. }
  apply segment_app. split; [cbn [first] in *; by apply Hframe |]. split; [| split; [| by apply Hframe]].
  - exists (Some e, tag), []. split; [done |]. split; [done |]. eapply leads_valid; [exact Hle | by left].
  - exists (pt.1, Tag.None), ds. split; [done |]. split; [by left |]. cbn [fst].
    eapply leads_frame; [exact Hl | |].
    + intros e' He'. destruct (leads_in _ _ _ _ _ Hl He') as (p' & _ & Hp' & Hd & _).
      apply Hother; intros ->; simplify_eq; [by destruct (valid_not_second _ Hv) | by destruct (valid_not_second _ Hve)].
    + intros e' He'. destruct (leads_target _ _ _ _ Hl) as [Hn | (e2 & p2 & Heq & Hp2 & Hv2)]; [congruence |]. simplify_eq.
      destruct (decide (e' = t)) as [-> |]; [by eexists |]. destruct (decide (e' = e)) as [-> |]; [eexists; split; [done | by left] |].
      exists p2. by rewrite Hother.
Qed.

(** ** The operations *)

Lemma runs_push_back {R} n t e pt pe (mark : bool) (k : Ptr + nat → prog St R) s Q :
  link_ref t s = Some pt → valid_tag pt.2 → link_ref e s = Some pe → e ≠ t → (0 < n)%nat →
  let tag := if mark then Tag.First else Tag.None in
  runs (k (inl (Some e, tag))) (set_link t (Some e, tag) (set_link e (pt.1, Tag.None) s)) Q →
  runs (let! r := push_back n t e mark in k r) s Q.
Proof.
  intros Ht Hv He Hne Hn tag Hk. unfold push_back. apply runs_bind. eapply runs_shared_load; [apply _ | exact Ht |].
  apply runs_loop_once; [done |].
  rewrite bool_decide_false by (by apply valid_not_second). rewrite bool_decide_false by (by destruct Hv as [-> | ->]). cbn [orb].
  eapply runs_shared_swap; [apply _ | exact He |].
  eapply runs_shared_cas_weak; [apply _ | by rewrite link_ref_ne |]. apply runs_ret. eexists. split; [done |]. exact Hk.
Qed.

Lemma runs_delete_self {R} t pt (k : bool → prog St R) s Q :
  link_ref t s = Some pt → valid_tag pt.2 → runs (k true) (set_link t (pt.1, Tag.Second) s) Q →
  runs (let! r := delete_self t in k r) s Q.
Proof.
  intros Ht Hv Hk. unfold delete_self. eapply runs_shared_update_tag_if; [apply _ | exact Ht | | exact Hk].
  by destruct Hv as [-> | ->].
Qed.

Lemma runs_is_clear {R} t pt (k : bool → prog St R) s Q :
  link_ref t s = Some pt → runs (k (bool_decide (pt.2 = Tag.None))) s Q → runs (let! r := is_clear t in k r) s Q.
Proof. intros Ht Hk. unfold is_clear. apply runs_bind. by eapply runs_shared_tag; [apply _ | exact Ht | apply runs_ret]. Qed.

Lemma runs_is_deleted {R} t pt (k : bool → prog St R) s Q :
  link_ref t s = Some pt → runs (k (bool_decide (pt.2 = Tag.Second) || bool_decide (pt.2 = Tag.Both))) s Q →
  runs (let! r := is_deleted t in k r) s Q.
Proof. intros Ht Hk. unfold is_deleted. apply runs_bind. by eapply runs_shared_tag; [apply _ | exact Ht | apply runs_ret]. Qed.

(** ** [next_ptr] *)

Lemma relinked_set s e p : is_Some (link_ref e s) → relinked s (set_link e p s).
Proof. intros [p' Hp']. apply rtc_once. by exists e, p, p'. Qed.

Lemma relinked_trans s1 s2 s3 : relinked s1 s2 → relinked s2 s3 → relinked s1 s3.
Proof. intros H1 H2. by etrans. Qed.

Definition ptr_of (o : option nat) : Ptr := (o, Tag.None).

(** The range of deleted entries, as [find_valid] returns it. *)
Definition range_of ds : Ptr * Ptr := (ptr_of (head ds), ptr_of (last ds)).

(** The links of [ds] are changed by [f]. *)
Definition changes (f : Ptr → Ptr) ds s s' : Prop :=
  relinked s s' ∧ ∀ e, link_ref e s' = if decide (e ∈ ds) then f <$> link_ref e s else link_ref e s.

Lemma changes_nil f s : changes f [] s s.
Proof. split; [apply rtc_refl |]. intros e. by rewrite decide_False by apply not_elem_of_nil. Qed.

Lemma changes_snoc f ds s s' e p :
  changes f ds s s' → link_ref e s = Some p → e ∉ ds → changes f (ds ++ [e]) s (set_link e (f p) s').
Proof.
  intros [Hr Hl] Hp He. assert (Hp' : link_ref e s' = Some p) by (by rewrite Hl, decide_False). split.
  - eapply relinked_trans; [exact Hr |]. apply relinked_set. by exists p.
  - intros e'. rewrite link_ref_set by (by exists p). destruct (decide (e' = e)) as [-> | Hne].
    + rewrite decide_True by (apply elem_of_app; right; by left). by rewrite Hp.
    + rewrite Hl. destruct (decide (e' ∈ ds)).
      * by rewrite decide_True by (apply elem_of_app; by left).
      * rewrite decide_False; [done |]. rewrite elem_of_app, list_elem_of_singleton. tauto.
Qed.

Definition both (p : Ptr) : Ptr := (p.1, Tag.Both).

Lemma runs_find_valid n s p x ds :
  leads s p.1 x ds → p.2 ≠ Tag.Both → (length ds < n)%nat →
  runs (find_valid n p) s (λ r s', r.1.1 = x ∧ (ds = [] → r.1 = p) ∧ r.2 = range_of ds ∧ changes both ds s s').
Proof.
  intros Hl Ht Hn. unfold find_valid. rewrite bool_decide_false by done.
  pose proof (leads_NoDup _ _ _ _ Hl) as Hnd.
  cut (∀ n ds2 ds1 s1 (q : Ptr), leads s q.1 x ds2 → ds = ds1 ++ ds2 → changes both ds1 s s1 → (length ds2 < n)%nat →
    runs (loop n (λ s : Ptr * (Ptr * Ptr) * bool,
      let '(entry_ptr, (range_0, range_1), cleanup_range_ended) := s in
      match entry_ptr.1 with
      | Some entry =>
          let! entry_state := at_link entry shared_load in
          let tag := entry_state.2 in
          if bool_decide (tag = Tag.None) || bool_decide (tag = Tag.First) then Ret (Break (entry_ptr, (range_0, range_1)))
          else
            let! updated :=
              if bool_decide (tag = Tag.Second) && negb cleanup_range_ended
              then at_link entry (shared_update_tag_if Tag.Both (λ ptr, bool_decide (ptr = entry_state)))
              else Ret false in
            if updated : bool then
              let range_0 := if bool_decide (range_0.1 = None) then without_tag entry_ptr else range_0 in
              Ret (Continue (entry_state, (range_0, without_tag entry_ptr), cleanup_range_ended))
            else Ret (Continue (entry_state, (range_0, range_1), true))
      | None => Ret (Break (entry_ptr, (range_0, range_1)))
      end) (q, range_of ds1, false)) s1
      (λ r s', r.1.1 = x ∧ (ds2 = [] → r.1 = q) ∧ r.2 = range_of ds ∧ changes both ds s s')).
  { intros Hgen. apply (Hgen n ds [] s p); [exact Hl | done | apply changes_nil | exact Hn]. }
  assert (Hds : ∀ e, e ∈ ds → ∃ p', link_ref e s = Some p' ∧ p'.2 = Tag.Second).
  { intros e He. destruct (leads_in _ _ _ _ _ Hl He) as (p' & _ & Hp' & Hd & _). eauto. }
  clear n Hn Hl Ht p. intros n. induction n as [| n IH]; intros ds2 ds1 s1 q Hl Heq Hc Hn; [lia |].
  apply runs_loop. unfold range_of at 1. cbv beta iota. destruct q as [q tq]. cbn [fst] in *.
  inversion Hl as [| e p Hp Hv | e p x' ds3 Hp Hd Hl']; subst.
  - apply runs_ret. cbn [fst snd]. rewrite app_nil_r. split; [done |]. split; [done |]. by split.
  - rewrite app_nil_r in *. assert (Hin : e ∉ ds1).
    { intros Hin. destruct (Hds e Hin) as (p' & Hp' & Hd). simplify_eq. by destruct (valid_not_second _ Hv). }
    eapply runs_shared_load; [apply _ | by rewrite (proj2 Hc), decide_False |].
    destruct Hv as [Hv | Hv]; rewrite Hv; apply runs_ret; by split_and!.
  - assert (Hin : e ∉ ds1). { apply NoDup_app in Hnd as (_ & Hnd & _). intros Hin. apply (Hnd e Hin). left. }
    assert (He : link_ref e s1 = Some p) by (by rewrite (proj2 Hc), decide_False).
    eapply runs_shared_load; [apply _ | exact He |]. rewrite Hd. cbn [bool_decide orb andb negb decide decide_rel].
    eapply runs_shared_update_tag_if; [apply _ | exact He | by apply bool_decide_eq_true |]. apply runs_ret.
    replace (if bool_decide ((ptr_of (head ds1)).1 = None) then without_tag (Some e, tq) else ptr_of (head ds1),
      without_tag (Some e, tq)) with (range_of (ds1 ++ [e])).
    + eapply runs_mono; [| apply (IH ds3 (ds1 ++ [e]) _ p); [exact Hl' | by rewrite <-app_assoc | exact (changes_snoc both ds1 s s1 e p Hc Hp Hin) | cbn in Hn; lia]].
      intros r s' (Hx & _ & Hr & Hc'). split; [done |]. by split.
    + unfold range_of. rewrite last_snoc. by destruct ds1.
Qed.

Lemma last_not_head (l : list nat) e : l ≠ [] → NoDup (e :: l) → last (e :: l) ≠ Some e.
Proof.
  intros Hne Hnd Hl. apply NoDup_cons in Hnd as [He _]. destruct l as [| e' l]; [done |]. rewrite last_cons_cons in Hl.
  apply He. by apply last_Some_elem_of.
Qed.

Lemma leads_head s q x ds : leads s q x ds → ds ≠ [] → q = head ds.
Proof. by destruct 1. Qed.

Lemma leads_cons s q x ds e : leads s q x (e :: ds) →
  q = Some e ∧ ∃ p, link_ref e s = Some p ∧ p.2 = Tag.Second ∧ leads s p.1 x ds.
Proof. inversion 1; subst. eauto. Qed.

Lemma changes_both_link ds s s1 e p :
  (∀ e, e ∈ ds → link_ref e s1 = both <$> link_ref e s) → e ∈ ds → link_ref e s = Some p → link_ref e s1 = Some (both p).
Proof. intros Hb He Hp. by rewrite Hb, Hp. Qed.

Lemma runs_unlink_range {R} n s s1 q x ds (k : unit → prog St R) Q :
  leads s q x ds → (∀ e, e ∈ ds → link_ref e s1 = both <$> link_ref e s) → (length ds < n)%nat →
  (∀ s', changes (λ _, (x, Tag.Second)) ds s1 s' → runs (k ()) s' Q) →
  runs (let! r := unlink_range n x (range_of ds) in k r) s1 Q.
Proof.
  intros Hl Hb Hn Hk. pose proof (leads_NoDup _ _ _ _ Hl) as Hnd.
  apply (runs_call _ _ _ (λ _ s', changes (λ _, (x, Tag.Second)) ds s1 s')); [| intros [] s' Hc; by apply Hk].
  clear Hk. unfold unlink_range. change (range_of ds).1 with (ptr_of (head ds)).
  destruct ds as [| e0 ds0] eqn:Heq0.
  { destruct n as [| n]; [cbn in Hn; lia |]. apply runs_loop, runs_ret. apply changes_nil. }
  rewrite <-Heq0 in *. assert (Hne : ds ≠ []) by (by subst ds). clear Heq0 e0 ds0.
  cut (∀ n ds2 ds1 s2 (tq : Tag.t), leads s (head ds2) x ds2 → ds2 ≠ [] → ds = ds1 ++ ds2 →
    changes (λ _, (x, Tag.Second)) ds1 s1 s2 → (length ds2 < n)%nat →
    runs (loop n (λ entry_ptr : Ptr,
      match entry_ptr.1 with
      | Some entry =>
          let! tag := at_link entry shared_tag in
          dassert (bool_decide (tag = Tag.Both)) ;;
          let! r := at_link entry (shared_swap (x, Tag.Second)) in
          if bool_decide (without_tag entry_ptr = (range_of ds).2) then Ret (Break ())
          else Ret (Continue (match r.1 with Some next => (Some next, Tag.None) | None => ptr_null end))
      | None => Ret (Break ())
      end) (head ds2, tq)) s2 (λ _ s', changes (λ _, (x, Tag.Second)) ds s1 s')).
  { intros Hgen. apply (Hgen n ds [] s1 Tag.None); [| done | done | apply changes_nil | exact Hn].
    by rewrite <-(leads_head _ _ _ _ Hl Hne). }
  clear n Hn Hl. intros n. induction n as [| n IH]; intros ds2 ds1 s2 tq Hl Hne2 Heq Hc Hn; [lia |].
  destruct ds2 as [| e ds3]; [done |]. destruct (leads_cons _ _ _ _ _ Hl) as (_ & p & Hp & Hd & Hl'). cbn [head] in *. apply runs_loop. cbn [fst].
  assert (He : e ∈ ds) by (rewrite Heq; apply elem_of_app; right; left).
  assert (Hin : e ∉ ds1). { rewrite Heq in Hnd. apply NoDup_app in Hnd as (_ & Hnd & _). intros Hin. apply (Hnd e Hin). left. }
  pose proof (changes_both_link ds s s1 e p Hb He Hp) as Hp1.
  assert (Hp2 : link_ref e s2 = Some (both p)) by (by rewrite (proj2 Hc), decide_False).
  eapply runs_shared_tag; [apply _ | exact Hp2 |]. apply runs_dassert; [done |].
  eapply runs_shared_swap; [apply _ | exact Hp2 |].
  pose proof (changes_snoc (λ _, (x, Tag.Second)) ds1 s1 s2 e _ Hc Hp1 Hin) as Hc'.
  destruct ds3 as [| e2 ds3].
  - rewrite bool_decide_true by (unfold range_of, without_tag; cbn; by rewrite Heq, last_snoc). apply runs_ret.
    by rewrite Heq.
  - rewrite bool_decide_false.
    2:{ unfold range_of, without_tag. cbn. intros [= Hlast]. apply (last_not_head (e2 :: ds3) e); [done | |].
        - rewrite Heq in Hnd. by apply NoDup_app in Hnd as (_ & _ & Hnd).
        - by rewrite Hlast, Heq, last_app_cons. }
    apply runs_ret. cbn [both fst]. pose proof (leads_head _ _ _ _ Hl' ltac:(done)) as Hh. rewrite Hh. cbn [head].
    apply (IH (e2 :: ds3) (ds1 ++ [e]) _ Tag.None); [rewrite Hh in Hl'; exact Hl' | done | by rewrite <-app_assoc | exact Hc' | cbn in *; lia].
Qed.

(** The next entry that is not deleted; the links around it take shortcuts. *)
Lemma runs_next_ptr {R} n self p x ds (k : Ptr → prog St R) s Q :
  link_ref self s = Some p → p.2 ≠ Tag.Both → leads s p.1 x ds → (length ds < n)%nat →
  (∀ r s', r.1 = x → shortcut s s' → relinked s s' → runs (k r) s' Q) →
  runs (let! r := next_ptr n self in k r) s Q.
Proof.
  intros Hp Ht Hl Hn Hk. unfold next_ptr. apply runs_bind. eapply runs_shared_load; [apply _ | exact Hp |].
  eapply runs_call; [by apply (runs_find_valid n s p x ds) |]. intros [r range] s1 (Hx & Hnil & Hrange & Hrel & Hc). cbn [fst snd] in *.
  rewrite (bool_decide_false (p.2 = Tag.Both)) by done. cbn [negb andb].
  destruct (decide (ds = [])) as [-> | Hne].
  - rewrite (Hnil eq_refl), bool_decide_true by done. apply runs_ret. apply Hk; [by rewrite <-(Hnil eq_refl) | | done].
    intros e pe He. exists pe. rewrite Hc, decide_False by apply not_elem_of_nil. split; [done |]. split; [done | by left].
  - rewrite bool_decide_false.
    2:{ intros ->. rewrite Hx in Hl. destruct ds as [| e ds]; [done |]. destruct (leads_cons _ _ _ _ _ Hl) as (-> & pe & He & Hd & _).
        destruct (leads_target _ _ _ _ Hl) as [? | (e' & p' & [= <-] & Hp' & Hv)]; [done |]. simplify_eq.
        by destruct (valid_not_second _ Hv). }
    cbn [negb]. unfold ptr_get_shared. rewrite Bool.eqb_reflx.
    pose proof (leads_not_self _ _ _ _ _ Hp Hl) as Hself. rewrite Hx, Hrange.
    apply runs_bind. eapply runs_shared_cas; [apply _ | by rewrite Hc, decide_False |].
    destruct p.1 as [e |] eqn:Hp1; [| by inversion Hl; subst]. cbn [fst snd].
    eapply (runs_unlink_range n s _ (Some e) x ds); [exact Hl | | done |].
    { intros e' He'. rewrite link_ref_ne by (by intros ->). by rewrite Hc, decide_True. }
    intros s3 [Hrel3 Hc3]. do 2 apply runs_ret. apply runs_ret. apply Hk; [done | |].
    + intros e' pe' He'. rewrite Hc3. destruct (decide (e' = self)) as [-> | Hns].
      * rewrite decide_False by done. rewrite Hp in He'. injection He' as <-. exists (x, p.2). rewrite (link_ref_eq _ _ p) by (by rewrite Hc, decide_False).
        split; [done |]. split; [done |]. right. exists ds. by rewrite Hp1.
      * rewrite link_ref_ne by done. rewrite Hc. destruct (decide (e' ∈ ds)) as [Hin | Hin].
        -- destruct (leads_in _ _ _ _ _ Hl Hin) as (p2 & ds2 & Hp2 & Hd2 & Hl2). rewrite Hp2 in He'. injection He' as <-. rewrite Hp2. eexists.
           split; [done |]. split; [done |]. right. by exists ds2.
        -- exists pe'. split; [done |]. split; [done | by left].
    + eapply relinked_trans; [exact Hrel |]. eapply relinked_trans; [| exact Hrel3]. apply relinked_set. exists p.
      by rewrite Hc, decide_False.
Qed.

(** What only links do not change. *)
Lemma relinked_ind (P : St → Prop) s s' :
  relinked s s' → (∀ e p s, is_Some (link_ref e s) → P s → P (set_link e p s)) → P s → P s'.
Proof.
  intros Hr Hset. induction Hr as [| s s1 s2 (e & p & p' & Hp' & ->) _ IH]; [done |]. intros HP. apply IH, Hset; [by exists p' | done].
Qed.

(** A function of the store that links are no part of. *)
Lemma relinked_same {X} (f : St → X) s s' :
  relinked s s' → (∀ e p s, is_Some (link_ref e s) → f (set_link e p s) = f s) → f s' = f s.
Proof. intros Hr Hset. apply (relinked_ind (λ s0, f s0 = f s) s s' Hr); [| done]. intros e p s0 Hs <-. by apply Hset. Qed.
End Theory.
