(* ===== verification/Collector.v ===== *)
(** * The garbage collector: [src/ebr/collector.rs], [src/ebr/guard.rs] and [src/ebr/collectible.rs]

    Every thread has a [Collector]; all of them are linked from [GLOBAL_ANCHOR],
    whose tag is a lock ([First]) and a mark that a collector was abandoned
    ([Second]).  A thread with a guard announces the global epoch in [state]; an
    instance it retires goes through three lists, one step each time the thread
    announces another epoch, and is dropped when it leaves the third.

    The model is a store of collectors and the operations as programs over atomic
    instructions, for any number of threads.  Three parts of the state are history
    only, no operation reads them: [now], [stale] and [violated], with the time
    [pinned] of a collector's guard and the time at which an instance was retired.
    [violated] lists what was dropped too early: the instance, and the collector of
    a guard that was older than its retirement.
    What the destructor of an instance retires is the parameter [retires]; a
    destructor that panics is not modelled. *)
From S2P Require Import Prelude Atomic Tag.

Local Open Scope Z_scope.

#[local] Existing Instance Tag.eq_dec.

(** [dyn Collectible]: an instance of the user, by its identity, or a collector. *)
Inductive instance := Obj (o : nat) | Coll (c : nat).

(** A garbage list, linked by [next_ptr_mut]; an instance goes with the time at
    which it was retired. *)
Notation garbage := (list (instance * nat)).

(** The fields of a [Collector] that only its owner uses. *)
Record fields := Fields {
  announcement : Z;
  next_epoch_update : Z;
  has_garbage : bool;
  num_readers : Z;
  previous_instance_link : garbage;
  current_instance_link : garbage;
  next_instance_link : garbage
}.

(** [Collector]: [state] is written by the owner and read by others, [next_link]
    belongs to the thread that locked the anchor.  [pinned] is the time at which
    the outermost guard was announced. *)
Record collector := Collector {
  state : Z;
  own : fields;
  next_link : option nat;
  pinned : option nat
}.

(** The statics [EPOCH] and [GLOBAL_ANCHOR], the allocated collectors by their
    addresses, and the thread-local [LOCAL_COLLECTOR] of each thread. *)
Record ebr := Ebr {
  EPOCH : Z;
  GLOBAL_ANCHOR : option nat * Tag.t;
  collectors : gmap nat collector;
  LOCAL_COLLECTOR : gmap nat nat;
  now : nat;
  stale : bool;
  violated : list (nat * nat)
}.

Definition init_ebr : ebr := Ebr 0 (None, Tag.None) ∅ ∅ 0 false [].

Definition CADENCE : Z := 255.
Definition INACTIVE : Z := 4.
Definition INVALID : Z := 8.
Definition u32_max : Z := 2 ^ 32 - 1.

(** ** Fields *)

Definition set_num_readers (x : Z) (f : fields) : fields :=
  Fields (announcement f) (next_epoch_update f) (has_garbage f) x
    (previous_instance_link f) (current_instance_link f) (next_instance_link f).
Definition set_next_epoch_update (x : Z) (f : fields) : fields :=
  Fields (announcement f) x (has_garbage f) (num_readers f)
    (previous_instance_link f) (current_instance_link f) (next_instance_link f).
Definition set_announcement (x : Z) (f : fields) : fields :=
  Fields x (next_epoch_update f) (has_garbage f) (num_readers f)
    (previous_instance_link f) (current_instance_link f) (next_instance_link f).

Definition set_state (x : Z) (k : collector) : collector := Collector x (own k) (next_link k) (pinned k).
Definition set_own (f : fields) (k : collector) : collector := Collector (state k) f (next_link k) (pinned k).
Definition set_next_link (p : option nat) (k : collector) : collector := Collector (state k) (own k) p (pinned k).
Definition set_pinned (u : option nat) (k : collector) : collector := Collector (state k) (own k) (next_link k) u.

Definition set_EPOCH (e : Z) (s : ebr) : ebr :=
  Ebr e (GLOBAL_ANCHOR s) (collectors s) (LOCAL_COLLECTOR s) (now s) (stale s) (violated s).
Definition set_GLOBAL_ANCHOR (a : option nat * Tag.t) (s : ebr) : ebr :=
  Ebr (EPOCH s) a (collectors s) (LOCAL_COLLECTOR s) (now s) (stale s) (violated s).
Definition set_collectors (m : gmap nat collector) (s : ebr) : ebr :=
  Ebr (EPOCH s) (GLOBAL_ANCHOR s) m (LOCAL_COLLECTOR s) (now s) (stale s) (violated s).
Definition set_LOCAL_COLLECTOR (m : gmap nat nat) (s : ebr) : ebr :=
  Ebr (EPOCH s) (GLOBAL_ANCHOR s) (collectors s) m (now s) (stale s) (violated s).
Definition tick (s : ebr) : ebr :=
  Ebr (EPOCH s) (GLOBAL_ANCHOR s) (collectors s) (LOCAL_COLLECTOR s) (S (now s)) (stale s) (violated s).
Definition set_stale (b : bool) (s : ebr) : ebr :=
  Ebr (EPOCH s) (GLOBAL_ANCHOR s) (collectors s) (LOCAL_COLLECTOR s) (now s) b (violated s).
Definition set_violated (b : list (nat * nat)) (s : ebr) : ebr :=
  Ebr (EPOCH s) (GLOBAL_ANCHOR s) (collectors s) (LOCAL_COLLECTOR s) (now s) (stale s) b.

(** An instruction on the collector at address [c]; that there is none is undefined
    behaviour. *)
Definition on {A} (c : nat) (f : ebr → collector → A * collector) (g : ebr → ebr) : prog ebr A :=
  let! r := Act (λ s,
    match collectors s !! c with
    | Some k => let '(a, k') := f s k in (Some a, g (set_collectors (<[c := k']> (collectors s)) s))
    | None => (None, s)
    end) Ret in
  match r with Some a => Ret a | None => Panic end.

Definition read {A} (c : nat) (f : collector → A) : prog ebr A := on c (λ _ k, (f k, k)) id.
Definition write (c : nat) (f : collector → collector) : prog ebr unit := on c (λ _ k, ((), f k)) id.
Definition modify (c : nat) (f : fields → fields) : prog ebr unit := write c (λ k, set_own (f (own k)) k).

(** [self.state.swap(new_epoch, SeqCst)] of [new_guard].  History: a guard exists
    from now on; the announcement is stale when the epoch has changed meanwhile. *)
Definition announce (c : nat) (new_epoch : Z) : prog ebr unit :=
  on c (λ s k, ((), set_pinned (Some (now s)) (set_state new_epoch k)))
       (λ s, set_stale (stale s || negb (EPOCH s =? new_epoch)) s).

(** [self.state.store(self.announcement | Self::INACTIVE, Release)] of [end_guard]. *)
Definition retract (c : nat) : prog ebr unit :=
  write c (λ k, set_pinned None (set_state (Z.lor (announcement (own k)) INACTIVE) k)).

(** [debug_assert_eq!(self.state.load(Relaxed) & Self::INACTIVE, 0);
     debug_assert_eq!(self.state.load(Relaxed), self.announcement)] *)
Definition assert_announced (c : nat) : prog ebr unit :=
  let! st := read c state in
  dassert (Z.land st INACTIVE =? 0) ;;
  let! k := read c (λ k, (state k, announcement (own k))) in
  dassert (k.1 =? k.2).

(** ** Guards and garbage *)

(** [new_guard]: whether a new epoch was announced. *)
Definition new_guard (c : nat) : prog ebr bool :=
  let! readers := read c (λ k, num_readers (own k)) in
  if readers =? 0 then
    let! st := read c state in
    dassert (Z.land st INACTIVE =? INACTIVE) ;;
    modify c (set_num_readers 1) ;;
    let! new_epoch := load EPOCH in
    announce c new_epoch ;;
    let! old := read c (λ k, announcement (own k)) in
    if old =? new_epoch then Ret false
    else modify c (set_announcement new_epoch) ;; Ret true
  else if readers =? u32_max then Panic
  else
    let! st := read c state in
    dassert (Z.land st INACTIVE =? 0) ;;
    modify c (set_num_readers (readers + 1)) ;;
    Ret false.

Definition reclaim_fields (i : instance * nat) (f : fields) : fields :=
  Fields (announcement f) (Z.min (Z.max 0 (next_epoch_update f - 1)) (CADENCE / 4)) true (num_readers f)
    (previous_instance_link f) (i :: current_instance_link f) (next_instance_link f).

(** [reclaim]; history: the instance is retired now. *)
Definition reclaim (c : nat) (i : instance) : prog ebr unit :=
  on c (λ s k, ((), set_own (reclaim_fields (i, now s) (own k)) k)) tick.

Definition non_empty {A} (l : list A) : bool := match l with [] => false | _ => true end.

(** The three [take]s and [has_garbage] of [epoch_updated]. *)
Definition rotate_fields (f : fields) : fields :=
  Fields (announcement f) (next_epoch_update f)
    (non_empty (previous_instance_link f) || non_empty (current_instance_link f)) (num_readers f)
    (current_instance_link f) [] (previous_instance_link f).

Definition take_garbage (c : nat) : prog ebr garbage :=
  on c (λ _ k, (next_instance_link (own k), set_own (rotate_fields (own k)) k)) id.

(** [epoch_updated]; [drop_and_dealloc] is the method of the instances. *)
Definition epoch_updated (drop_and_dealloc : instance * nat → prog ebr unit) (c : nat) : prog ebr unit :=
  assert_announced c ;;
  let! garbage_link := take_garbage c in
  let! _ := for_each (R := unit) garbage_link (λ instance_ptr _, drop_and_dealloc instance_ptr ;; Ret (Continue ())) () in
  Ret ().

(** ** The list of all collectors *)

(** [alloc]; the address is any free one. *)
Definition new_collector : collector := Collector INACTIVE (Fields 0 CADENCE false 0 [] [] []) None None.

Definition box_new : prog ebr nat :=
  Act (λ s, let c := fresh (dom (collectors s)) in
            (c, set_collectors (<[c := new_collector]> (collectors s)) s)) Ret.

Definition alloc (n : nat) : prog ebr nat :=
  let! ptr := box_new in
  let! current := load GLOBAL_ANCHOR in
  loop n (λ current : option nat * Tag.t,
    write ptr (set_next_link current.1) ;;
    let! r := compare_exchange_weak GLOBAL_ANCHOR set_GLOBAL_ANCHOR current (Some ptr, current.2) in
    match r with
    | inr actual => Ret (Continue actual)
    | inl _ => Ret (Break ptr)
    end) current.

(** [current]: the collector of the thread [t]. *)
Definition current (n : nat) (t : nat) : prog ebr nat :=
  let! collector_ptr := load (λ s, LOCAL_COLLECTOR s !! t) in
  match collector_ptr with
  | Some c => Ret c
  | None =>
      let! c := alloc n in
      Act (λ s, ((), set_LOCAL_COLLECTOR (<[t := c]> (LOCAL_COLLECTOR s)) s)) Ret ;;
      Ret c
  end.

(** The anchor is locked with [Tag::First], and the mark [Tag::Second] is taken off. *)
Definition lock_anchor (p : option nat * Tag.t) : option (option nat * Tag.t) :=
  match p.2 with
  | Tag.First | Tag.Both => None
  | _ => Some (p.1, Tag.First)
  end.

Definition unlock_tag (tag : Tag.t) : Tag.t :=
  match tag with Tag.Both => Tag.Second | _ => Tag.None end.

Definition locked_tag (tag : Tag.t) : bool :=
  match tag with Tag.First | Tag.Both => true | _ => false end.

Definition unlock (n : nat) : prog ebr unit :=
  loop n (λ _ : unit,
    let! r := fetch_update GLOBAL_ANCHOR set_GLOBAL_ANCHOR (λ p, Some (p.1, unlock_tag p.2)) in
    match r with
    | inl p => dassert (locked_tag p.2) ;; Ret (Break ())
    | inr _ => Ret (Continue ())
    end) ().

(** Takes the obsolete collector [other] off the list: its predecessor is [prev],
    or it was the first one when the anchor was locked. *)
Definition unlink (prev : option nat) (other : nat) : prog ebr bool :=
  let! next := read other next_link in
  match prev with
  | None =>
      let! r := fetch_update GLOBAL_ANCHOR set_GLOBAL_ANCHOR
                  (λ p, if decide (p.1 = Some other) then Some (next, p.2) else None) in
      match r with
      | inl p => dassert (locked_tag p.2) ;; Ret true
      | inr p => dassert (locked_tag p.2) ;; Ret false
      end
  | Some prev => write prev (set_next_link next) ;; Ret true
  end.

(** The loop over the collectors: [true] when the epoch can be updated. *)
Definition scan_body (c : nat) (known_epoch : Z) (p : option nat * option nat) :
    prog ebr (flow (option nat * option nat) bool) :=
  let '(prev_collector_ptr, collector_ptr) := p in
  match collector_ptr with
  | None => Ret (Break true)
  | Some other =>
      let next :=
        let! next := read other next_link in
        Ret (Continue (Some other, next)) in
      if decide (other = c) then next
      else
        let! other_state := read other state in
        if negb (Z.land other_state INVALID =? 0) then
          let! reclaimable := unlink prev_collector_ptr other in
          if reclaimable : bool then
            let! next_ptr := read other next_link in
            reclaim c (Coll other) ;;
            Ret (Continue (prev_collector_ptr, next_ptr))
          else next
        else if (Z.land other_state INACTIVE =? 0) && negb (other_state =? known_epoch) then Ret (Break false)
        else next
  end.

Definition next_epoch (known_epoch : Z) : Z :=
  if known_epoch =? 0 then 1 else if known_epoch =? 1 then 2 else 0.

Definition try_scan (n : nat) (c : nat) : prog ebr unit :=
  assert_announced c ;;
  let! lock_result := fetch_update GLOBAL_ANCHOR set_GLOBAL_ANCHOR lock_anchor in
  match lock_result with
  | inr _ => Ret ()
  | inl p =>
      let! known_epoch := read c state in
      let! update_global_epoch := loop n (scan_body c known_epoch) (None, p.1) in
      (if update_global_epoch : bool then store set_EPOCH (next_epoch known_epoch) else Ret ()) ;;
      unlock n
  end.

Definition end_guard (n : nat) (c : nat) : prog ebr unit :=
  assert_announced c ;;
  let! f := read c own in
  if num_readers f =? 1 then
    (if next_epoch_update f =? 0 then
       let! anchor := if has_garbage f then Ret None else let! a := load GLOBAL_ANCHOR in Ret (Some a) in
       (if match anchor with Some a => bool_decide (a.2 ≠ Tag.First) | None => true end
        then try_scan n c else Ret ()) ;;
       modify c (λ f, set_next_epoch_update (if has_garbage f then CADENCE / 4 else CADENCE) f)
     else modify c (set_next_epoch_update (Z.max 0 (next_epoch_update f - 1)))) ;;
    retract c ;;
    modify c (set_num_readers 0)
  else if num_readers f =? 0 then Panic
  else modify c (set_num_readers (num_readers f - 1)).

(** [mark_scan_enforced] *)
Definition mark_scan_enforced : prog ebr unit :=
  let! _ := fetch_update GLOBAL_ANCHOR set_GLOBAL_ANCHOR (λ p,
    match p.2 with
    | Tag.None => Some (p.1, Tag.Second)
    | Tag.First => Some (p.1, Tag.Both)
    | Tag.Second | Tag.Both => None
    end) in
  Ret ().

(** [pass_garbage] of the thread [t]. *)
Definition pass_garbage (t : nat) : prog ebr bool :=
  let! collector_ptr := load (λ s, LOCAL_COLLECTOR s !! t) in
  match collector_ptr with
  | None => Ret true
  | Some c =>
      let! f := read c own in
      if negb (num_readers f =? 0) then Ret false
      else if has_garbage f then
        write c (λ k, set_state (Z.lor (state k) INVALID) k) ;;
        Act (λ s, ((), set_LOCAL_COLLECTOR (delete t (LOCAL_COLLECTOR s)) s)) Ret ;;
        mark_scan_enforced ;;
        Ret true
      else Ret true
  end.

(** ** Dropping *)
Section Drop.
(** What the destructor of an instance retires. *)
Context (retires : nat → list nat).

(** [new_for_drop] of [Guard], which is the address of the collector. *)
Definition new_for_drop (n t : nat) : prog ebr nat :=
  let! collector_ptr := current n t in
  let! _ := new_guard collector_ptr in
  Ret collector_ptr.

(** History: the instance [o] that was retired at the time [since] is dropped; every
    collector with a guard that was announced before is a violation. *)
Definition may_reach (since : nat) (k : collector) : bool :=
  match pinned k with Some u => (u <=? since)%nat | None => false end.

Definition overtaken (since : nat) (m : gmap nat collector) : list nat :=
  (filter (λ ck, may_reach since ck.2 = true) (map_to_list m)).*1.

Definition drop_object (o since : nat) : prog ebr unit :=
  Act (λ s, ((), set_violated (violated s ++ (pair o <$> overtaken since (collectors s))) s)) Ret.

Definition free (c : nat) : prog ebr unit :=
  Act (λ s, (bool_decide (is_Some (collectors s !! c)), set_collectors (delete c (collectors s)) s)) dassert.

(** [impl Drop for Collector] *)
Definition drop_collector (drop_and_dealloc : instance * nat → prog ebr unit) (n c : nat) : prog ebr unit :=
  write c (set_state 0) ;;
  modify c (set_announcement 0) ;;
  loop n (λ _ : unit,
    let! garbage := read c (λ k, has_garbage (own k)) in
    if garbage : bool then epoch_updated drop_and_dealloc c ;; Ret (Continue ())
    else Ret (Break ())) ().

(** [drop_and_dealloc] in the thread [t]; the fuel [m] bounds the nesting of collectors.
    A destructor retires an instance under a guard of its own. *)
Fixpoint drop_and_dealloc (m n t : nat) (i : instance * nat) : prog ebr unit :=
  match m with
  | O => OutOfFuel
  | S m =>
      match i with
      | (Obj o, since) =>
          drop_object o since ;;
          let! _ := for_each (R := unit) (retires o) (λ o' _,
            let! guard := new_for_drop n t in
            reclaim guard (Obj o') ;;
            end_guard n guard ;;
            Ret (Continue ())) () in
          Ret ()
      | (Coll c, _) => drop_collector (drop_and_dealloc m n t) n c ;; free c
      end
  end.

(** [Guard::new] in the thread [t] *)
Definition guard_new (m n t : nat) : prog ebr nat :=
  let! collector_ptr := current n t in
  let! epoch_updated' := new_guard collector_ptr in
  (if epoch_updated' : bool then epoch_updated (drop_and_dealloc m n t) collector_ptr else Ret ()) ;;
  Ret collector_ptr.

(** [try_drop_local_collector], at the end of the thread [t] *)
Definition try_drop_local_collector (m n t : nat) : prog ebr unit :=
  let! collector_ptr := load (λ s, LOCAL_COLLECTOR s !! t) in
  match collector_ptr with
  | None => Ret ()
  | Some c =>
      let! next := read c next_link in
      let! dropped :=
        match next with
        | None =>
            let! anchor_ptr := load GLOBAL_ANCHOR in
            if decide (anchor_ptr = (Some c, Tag.None)) then
              let! r := compare_exchange GLOBAL_ANCHOR set_GLOBAL_ANCHOR anchor_ptr (None, Tag.None) in
              match r with
              | inr _ => Ret false
              | inl _ =>
                  let! guard := new_for_drop n t in
                  loop n (λ _ : unit,
                    let! garbage := read c (λ k, has_garbage (own k)) in
                    if garbage : bool then epoch_updated (drop_and_dealloc m n t) c ;; Ret (Continue ())
                    else Ret (Break ())) () ;;
                  end_guard n guard ;;
                  drop_collector (drop_and_dealloc m n t) n c ;;
                  free c ;;
                  Ret true
              end
            else Ret false
        | Some _ => Ret false
        end in
      if dropped : bool then Ret ()
      else
        write c (λ k, set_state (Z.lor (state k) INVALID) k) ;;
        mark_scan_enforced
  end.

(** ** Clients

    [guards] are the guards that the thread [t] has, the last one first; without a
    guard there is nothing to drop and no way to retire an instance. *)
Inductive op :=
  | Pin
  | Unpin
  | Retire (o : nat)
  | Suspend.

Fixpoint client (m n t : nat) (ops : list op) (guards : list nat) : prog ebr (list nat) :=
  match ops with
  | [] => Ret guards
  | Pin :: ops =>
      let! guard := guard_new m n t in
      client m n t ops (guard :: guards)
  | Unpin :: ops =>
      match guards with
      | [] => client m n t ops []
      | guard :: guards => end_guard n guard ;; client m n t ops guards
      end
  | Retire o :: ops =>
      match guards with
      | [] => client m n t ops []
      | guard :: _ => reclaim guard (Obj o) ;; client m n t ops guards
      end
  | Suspend :: ops => let! _ := pass_garbage t in client m n t ops guards
  end.
End Drop.
