(* ===== verification/CollectorInv.v ===== *)
(** * Who owns a collector, and what protects an instance

    The invariant of the garbage collector under every interleaving.  It has two
    parts.  [sound] is about memory: every collector has one [place] (it belongs to a
    thread, was abandoned, waits in a garbage list, or is in the hands of one thread
    before it is published or while it is dropped), and the list from the anchor
    holds exactly the owned and the abandoned ones.  [grace] is about time, and holds
    as long as no thread has announced an epoch that was not the global one any
    more: an epoch that counts without wrapping around, of which [EPOCH] is the
    remainder, and how far a guard may lag behind the lists. *)
From S2P Require Import Prelude Atomic Tag Collector.

Local Open Scope Z_scope.

(** ** Places *)
Inductive place :=
  | Owned (t : nat)
  | Abandoned
  | Listed (d : nat)
  | Fresh (t : nat)
  | Dying (t : nat).

Definition holder (p : place) : option nat :=
  match p with Owned t | Fresh t | Dying t => Some t | _ => None end.

(** In the list of all collectors. *)
Definition registered (p : place) : Prop :=
  match p with Owned _ | Abandoned => True | _ => False end.

(** A scan: the predecessor, the collectors that are left, and whether the first of
    them was seen to be abandoned. *)
Record walking := Walking { w_prev : option nat; w_rest : list nat; w_dead : bool }.

(** What a thread knows: its collector with the fields, [LOCAL_COLLECTOR], a
    collector that nobody else has, those it is dropping, the garbage it took off
    a list and has not dropped yet, and its scan.  [rotating]: it announced an epoch
    and has not moved its lists yet. *)
Record ghost := Ghost {
  mine : option (nat * Z * fields);
  tls : option nat;
  spare : option (nat * collector);
  dying : gmap nat collector;
  doomed : garbage;
  walk : option walking;
  rotating : bool
}.

(** The places, the time at which a collector was retired, the list of all
    collectors and the thread that locked the anchor. *)
Record world := World {
  places : gmap nat place;
  retired : nat → nat;
  chain : list nat;
  locker : option nat
}.

Definition lists (f : fields) : garbage :=
  current_instance_link f ++ previous_instance_link f ++ next_instance_link f.

Definition coll (i : instance * nat) : option nat :=
  match i.1 with Coll c => Some c | Obj _ => None end.
Definition colls (l : garbage) : list nat := omap coll l.
#[global] Arguments colls : simpl never.

Definition claims (l : ghost) (c : nat) (k : collector) (p : place) : Prop :=
  match p with
  | Owned _ => mine l = Some (c, state k, own k)
  | Fresh _ => spare l = Some (c, k)
  | Dying _ => dying l !! c = Some k
  | _ => True
  end.

Definition status (rt : nat → nat) (c : nat) (k : collector) (p : place) : Prop :=
  match p with
  | Owned _ =>
      0 ≤ announcement (own k) ≤ 2 ∧
      match pinned k with Some _ => 0 ≤ state k ≤ 2 | None => state k = Z.lor (announcement (own k)) INACTIVE end
  | Abandoned => pinned k = None ∧ Z.land (state k) INVALID ≠ 0
  | Listed _ => pinned k = None ∧ ∀ i τ, (i, τ) ∈ lists (own k) → (τ ≤ rt c)%nat
  | _ => pinned k = None
  end.

(** An entry of a garbage list of the collector [c]. *)
Definition entry_ok (w : world) (n : nat) (c : nat) (i : instance * nat) : Prop :=
  (i.2 < n)%nat ∧ ∀ x, coll i = Some x → places w !! x = Some (Listed c) ∧ retired w x = i.2.

Record collector_ok (w : world) (n : nat) (ls : list ghost) (c : nat) (k : collector) (p : place) : Prop := {
  col_nodup : NoDup (colls (lists (own k)));
  col_entries : ∀ i, i ∈ lists (own k) → entry_ok w n c i;
  col_empty : has_garbage (own k) = false → lists (own k) = [];
  col_status : status (retired w) c k p;
  col_claim t : holder p = Some t → ∃ l, ls !! t = Some l ∧ claims l c k p
}.

Record thread_ok (w : world) (s : ebr) (t : nat) (l : ghost) : Prop := {
  thr_mine c st f : mine l = Some (c, st, f) → places w !! c = Some (Owned t);
  thr_spare c k : spare l = Some (c, k) → places w !! c = Some (Fresh t);
  thr_dying c k : dying l !! c = Some k → places w !! c = Some (Dying t);
  thr_doomed i : i ∈ doomed l → (i.2 < now s)%nat ∧ ∀ x, coll i = Some x → is_Some (dying l !! x);
  thr_nodup : NoDup (colls (doomed l));
  thr_tls : LOCAL_COLLECTOR s !! t = tls l
}.

(** The links from [p] are [cs]. *)
Fixpoint path (m : gmap nat collector) (p : option nat) (cs : list nat) : Prop :=
  match cs with
  | [] => p = None
  | c :: cs => p = Some c ∧ ∃ k, m !! c = Some k ∧ path m (next_link k) cs
  end.

Record walk_ok (w : world) (x : walking) : Prop := {
  walk_split : ∃ pre, chain w = pre ++ w_rest x ∧ ∀ p, w_prev x = Some p → ∃ pre', pre = pre' ++ [p];
  walk_dead : w_dead x = true → ∃ c cs, w_rest x = c :: cs ∧ places w !! c = Some Abandoned
}.

Record sound (w : world) (s : ebr) (ls : list ghost) : Prop := {
  so_dom c : is_Some (places w !! c) ↔ is_Some (collectors s !! c);
  so_path : path (collectors s) (GLOBAL_ANCHOR s).1 (chain w);
  so_nodup : NoDup (chain w);
  so_chain c : c ∈ chain w ↔ ∃ p, places w !! c = Some p ∧ registered p;
  so_lock : locked_tag (GLOBAL_ANCHOR s).2 = bool_decide (is_Some (locker w));
  so_walks t l : ls !! t = Some l → is_Some (walk l) ↔ locker w = Some t;
  so_walk t l x : ls !! t = Some l → walk l = Some x → walk_ok w x;
  so_col c k p : collectors s !! c = Some k → places w !! c = Some p → collector_ok w (now s) ls c k p;
  so_thr t l : ls !! t = Some l → thread_ok w s t l;
  so_epoch : 0 ≤ EPOCH s ≤ 2
}.

(** ** Time *)

(** The announcement times of the guards. *)
Definition pins (s : ebr) (c : nat) : option nat := collectors s !! c ≫= pinned.

(** A guard that is older than an entry of [l] was announced in the epoch [b] at the
    latest; there is no such guard. *)
Definition bounded (pn : nat → option nat) (ga : nat → Z) (b : Z) (l : garbage) : Prop :=
  ∀ i c u, i ∈ l → pn c = Some u → (u ≤ i.2)%nat → ga c ≤ b.
Definition safe (pn : nat → option nat) (l : garbage) : Prop :=
  ∀ i c u, i ∈ l → pn c = Some u → (i.2 < u)%nat.

(** [ga]: the epoch that was announced last, [gl]: the epoch in which the lists were
    moved, [e]: the current one. *)
Record own_grace (pn : nat → option nat) (e : Z) (ga gl : nat → Z) (c : nat) (k : collector) : Prop := {
  og_order : 0 ≤ gl c ≤ ga c ∧ ga c ≤ e;
  og_state : match pinned k with
             | Some _ => state k = ga c mod 3 ∧ e - 1 ≤ ga c
             | None => announcement (own k) = ga c mod 3
             end;
  og_current : bounded pn ga (gl c + 1) (current_instance_link (own k));
  og_previous : bounded pn ga (gl c) (previous_instance_link (own k));
  og_next : bounded pn ga (gl c - 1) (next_instance_link (own k))
}.

Record thread_grace (w : world) (s : ebr) (e : Z) (ga gl : nat → Z) (l : ghost) : Prop := {
  tg_rotating c st f : mine l = Some (c, st, f) → if rotating l then gl c < ga c else gl c = ga c;
  tg_doomed : safe (pins s) (doomed l);
  tg_dying c k : dying l !! c = Some k → safe (pins s) (lists (own k));
  tg_walk x c f : walk l = Some x → mine l = Some (c, EPOCH s, f) →
    ∀ y u, y ∈ chain w → pins s y = Some u → y ∈ w_rest x ∨ ga y = e
}.

Record grace (w : world) (s : ebr) (ls : list ghost) (e : Z) (ga gl : nat → Z) : Prop := {
  gr_epoch : EPOCH s = e mod 3;
  gr_own c k t : collectors s !! c = Some k → places w !! c = Some (Owned t) → own_grace (pins s) e ga gl c k;
  gr_thread t l : ls !! t = Some l → thread_grace w s e ga gl l
}.

Definition ebr_inv (s : ebr) (ls : list ghost) : Prop :=
  ∃ w, sound w s ls ∧
    (stale s = false → violated s = [] ∧ ∃ e ga gl, 0 ≤ e ∧ grace w s ls e ga gl).

(** ** Reading the invariant *)

Lemma sound_held w s ls t l c p :
  sound w s ls → ls !! t = Some l → places w !! c = Some p → holder p = Some t →
  ∃ k, collectors s !! c = Some k ∧ claims l c k p ∧ collector_ok w (now s) ls c k p.
Proof.
  intros Hs Hl Hp Hh. destruct (proj1 (so_dom _ _ _ Hs c)) as [k Hk]; [by eauto |].
  pose proof (so_col _ _ _ Hs _ _ _ Hk Hp) as Hok. exists k.
  destruct (col_claim _ _ _ _ _ _ Hok t Hh) as (l0 & Hl0 & Hc). by simplify_eq.
Qed.

Lemma sound_mine w s ls t l c st f :
  sound w s ls → ls !! t = Some l → mine l = Some (c, st, f) →
  ∃ k, collectors s !! c = Some k ∧ state k = st ∧ own k = f ∧ places w !! c = Some (Owned t) ∧
    collector_ok w (now s) ls c k (Owned t).
Proof.
  intros Hs Hl Hm. pose proof (thr_mine _ _ _ _ (so_thr _ _ _ Hs _ _ Hl) _ _ _ Hm) as Hp.
  destruct (sound_held _ _ _ _ _ _ _ Hs Hl Hp eq_refl) as (k & Hk & Hc & Hok).
  cbn [claims] in Hc. exists k. split_and!; try done; congruence.
Qed.

Lemma sound_dying w s ls t l c k :
  sound w s ls → ls !! t = Some l → dying l !! c = Some k →
  collectors s !! c = Some k ∧ places w !! c = Some (Dying t) ∧ collector_ok w (now s) ls c k (Dying t).
Proof.
  intros Hs Hl Hd. pose proof (thr_dying _ _ _ _ (so_thr _ _ _ Hs _ _ Hl) _ _ Hd) as Hp.
  destruct (sound_held _ _ _ _ _ _ _ Hs Hl Hp eq_refl) as (k0 & Hk & Hc & Hok).
  cbn [claims] in Hc. by simplify_eq.
Qed.

Lemma sound_spare w s ls t l c k :
  sound w s ls → ls !! t = Some l → spare l = Some (c, k) →
  collectors s !! c = Some k ∧ places w !! c = Some (Fresh t) ∧ collector_ok w (now s) ls c k (Fresh t).
Proof.
  intros Hs Hl Hd. pose proof (thr_spare _ _ _ _ (so_thr _ _ _ Hs _ _ Hl) _ _ Hd) as Hp.
  destruct (sound_held _ _ _ _ _ _ _ Hs Hl Hp eq_refl) as (k0 & Hk & Hc & Hok).
  cbn [claims] in Hc. by simplify_eq.
Qed.

(** ** Ghost updates *)

Definition with_mine m (l : ghost) : ghost := Ghost m (tls l) (spare l) (dying l) (doomed l) (walk l) (rotating l).
Definition with_tls c (l : ghost) : ghost := Ghost (mine l) c (spare l) (dying l) (doomed l) (walk l) (rotating l).
Definition with_spare c (l : ghost) : ghost := Ghost (mine l) (tls l) c (dying l) (doomed l) (walk l) (rotating l).
Definition with_dying d (l : ghost) : ghost := Ghost (mine l) (tls l) (spare l) d (doomed l) (walk l) (rotating l).
Definition with_doomed g (l : ghost) : ghost := Ghost (mine l) (tls l) (spare l) (dying l) g (walk l) (rotating l).
Definition with_walk x (l : ghost) : ghost := Ghost (mine l) (tls l) (spare l) (dying l) (doomed l) x (rotating l).
Definition with_rotating b (l : ghost) : ghost := Ghost (mine l) (tls l) (spare l) (dying l) (doomed l) (walk l) b.

Lemma path_insert m p cs c k k' :
  m !! c = Some k → next_link k' = next_link k → path m p cs → path (<[c := k']> m) p cs.
Proof.
  intros Hk Hn. revert p. induction cs as [| d cs IH]; intros p; [done |].
  intros [-> (kd & Hd & Hpath)]. split; [done |]. destruct (decide (d = c)) as [-> | Hne].
  - simplify_eq. exists k'. rewrite lookup_insert_eq, Hn. auto.
  - exists kd. rewrite lookup_insert_ne by done. auto.
Qed.

Lemma path_frame m m' p cs :
  (∀ c, c ∈ cs → m' !! c = m !! c) → path m p cs → path m' p cs.
Proof.
  revert p. induction cs as [| d cs IH]; intros p Hm; [done |].
  intros [-> (kd & Hd & Hpath)]. split; [done |]. exists kd.
  rewrite Hm by apply list_elem_of_here. split; [done |].
  apply IH; [| done]. intros c Hc. apply Hm. by apply list_elem_of_further.
Qed.

Lemma entry_ok_mono w n n' c i : (n ≤ n')%nat → entry_ok w n c i → entry_ok w n' c i.
Proof. intros ? [? ?]. split; [lia | done]. Qed.

(** A collector that a thread has to itself is replaced. *)
Record replaced (s s' : ebr) (c : nat) (k' : collector) : Prop := {
  rep_collectors : collectors s' = <[c := k']> (collectors s);
  rep_anchor : GLOBAL_ANCHOR s' = GLOBAL_ANCHOR s;
  rep_local : LOCAL_COLLECTOR s' = LOCAL_COLLECTOR s;
  rep_now : (now s ≤ now s')%nat;
  rep_epoch : EPOCH s' = EPOCH s
}.

Lemma thread_ok_frame w s s' t l :
  LOCAL_COLLECTOR s' !! t = LOCAL_COLLECTOR s !! t → (now s ≤ now s')%nat →
  thread_ok w s t l → thread_ok w s' t l.
Proof.
  intros Hloc Hnow [H1 H2 H3 H4 H5 H6]. split; auto; [| by rewrite Hloc].
  intros i Hi. destruct (H4 i Hi). split; [lia | done].
Qed.

Lemma sound_replace w s s' ls t l l' c k k' p :
  sound w s ls → ls !! t = Some l → collectors s !! c = Some k → places w !! c = Some p → holder p = Some t →
  replaced s s' c k' → (next_link k' = next_link k ∨ ¬ registered p) →
  NoDup (colls (lists (own k'))) → (∀ i, i ∈ lists (own k') → entry_ok w (now s') c i) →
  (has_garbage (own k') = false → lists (own k') = []) → status (retired w) c k' p →
  claims l' c k' p → (∀ d kd pd, d ≠ c → holder pd = Some t → claims l d kd pd → claims l' d kd pd) →
  walk l' = walk l → thread_ok w s' t l' →
  sound w s' (<[t := l']> ls).
Proof.
  intros Hs Hl Hk Hp Hh [Hcol Hanc Hloc Hnow Hepo] Hnext Hnd Hent Hemp Hst Hcl Hframe Hw Hthr.
  pose proof (lookup_lt_Some _ _ _ Hl) as Hlt. destruct Hs as [S1 S2 S3 S4 S5 S6 S7 S8 S9 S10]. split.
  - intros d. rewrite S1, Hcol. destruct (decide (d = c)) as [-> | Hne].
    + rewrite lookup_insert_eq, Hk. split; eauto.
    + by rewrite lookup_insert_ne.
  - rewrite Hanc, Hcol. destruct Hnext as [Hnext | Hreg]; [by eapply path_insert |].
    eapply path_frame; [| done]. intros d Hd. apply lookup_insert_ne. intros ->.
    apply S4 in Hd as (p' & Hp' & ?). by simplify_eq.
  - done.
  - done.
  - by rewrite Hanc.
  - intros u lu Hu. destruct (decide (u = t)) as [-> | Hne].
    + rewrite list_lookup_insert_eq in Hu by done. simplify_eq. rewrite Hw. by apply S6.
    + rewrite list_lookup_insert_ne in Hu by done. by apply S6.
  - intros u lu x Hu. destruct (decide (u = t)) as [-> | Hne].
    + rewrite list_lookup_insert_eq in Hu by done. simplify_eq. rewrite Hw. by apply (S7 t l).
    + rewrite list_lookup_insert_ne in Hu by done. by apply (S7 u lu).
  - intros d kd pd. rewrite Hcol. destruct (decide (d = c)) as [-> | Hne].
    + rewrite lookup_insert_eq. intros ? ?. simplify_eq. split; try done.
      intros u Hu. simplify_eq. exists l'. by rewrite list_lookup_insert_eq.
    + rewrite lookup_insert_ne by done. intros Hkd Hpd. destruct (S8 _ _ _ Hkd Hpd) as [C1 C2 C3 C4 C5].
      split; try done; [intros i Hi; eapply entry_ok_mono; eauto |].
      intros u Hu. destruct (C5 u Hu) as (lu & Hlu & Hclu). destruct (decide (u = t)) as [-> | Hnu].
      * simplify_eq. exists l'. rewrite list_lookup_insert_eq by done. eauto.
      * exists lu. by rewrite list_lookup_insert_ne.
  - intros u lu Hu. destruct (decide (u = t)) as [-> | Hne].
    + rewrite list_lookup_insert_eq in Hu by done. by simplify_eq.
    + rewrite list_lookup_insert_ne in Hu by done. eapply thread_ok_frame; [by rewrite Hloc | done | by apply S9].
  - by rewrite Hepo.
Qed.

(** The guards of [s'] that are older than the present are guards of [s]. *)
Record pins_shrink (s s' : ebr) (ga ga' : nat → Z) (e : Z) : Prop := {
  ps_old n c u : (n < now s)%nat → pins s' c = Some u → (u ≤ n)%nat → pins s c = Some u ∧ ga' c = ga c;
  ps_new c u : pins s' c = Some u → (is_Some (pins s c) ∧ ga' c = ga c) ∨ ga' c = e
}.

Lemma bounded_shrink s s' ga ga' e b g :
  pins_shrink s s' ga ga' e → (∀ i, i ∈ g → (i.2 < now s)%nat) → bounded (pins s) ga b g → bounded (pins s') ga' b g.
Proof.
  intros [Hold _] Hlt Hb i c u Hi Hu Hle. destruct (Hold i.2 c u (Hlt i Hi) Hu Hle) as [Hu' ->]. by eapply Hb.
Qed.

Lemma safe_shrink s s' ga ga' e g :
  pins_shrink s s' ga ga' e → (∀ i, i ∈ g → (i.2 < now s)%nat) → safe (pins s) g → safe (pins s') g.
Proof.
  intros [Hold _] Hlt Hb i c u Hi Hu. destruct (Nat.lt_ge_cases i.2 u) as [? | Hle]; [done |].
  destruct (Hold i.2 c u (Hlt i Hi) Hu Hle) as [Hu' _]. by eapply Hb.
Qed.

Lemma bounded_mono pn ga b b' g : b ≤ b' → bounded pn ga b g → bounded pn ga b' g.
Proof. intros ? Hb i c u Hi Hu Hle. specialize (Hb i c u Hi Hu Hle). lia. Qed.

Lemma elem_lists i f :
  i ∈ lists f ↔ i ∈ current_instance_link f ∨ i ∈ previous_instance_link f ∨ i ∈ next_instance_link f.
Proof. unfold lists. rewrite !elem_of_app. tauto. Qed.

Lemma own_grace_shrink s s' e ga ga' gl gl' c k :
  pins_shrink s s' ga ga' e → (∀ i, i ∈ lists (own k) → (i.2 < now s)%nat) → ga' c = ga c → gl' c = gl c →
  own_grace (pins s) e ga gl c k → own_grace (pins s') e ga' gl' c k.
Proof.
  intros Hps Hlt Hga Hgl [H1 H2 H3 H4 H5]. split; rewrite ?Hga, ?Hgl; [done | done | | |];
    (eapply bounded_shrink; [exact Hps | | eassumption]); intros i Hi; apply Hlt, elem_lists; auto.
Qed.

Lemma own_claim w s ls c k t :
  sound w s ls → collectors s !! c = Some k → places w !! c = Some (Owned t) →
  ∃ l, ls !! t = Some l ∧ mine l = Some (c, state k, own k).
Proof.
  intros Hs Hk Hp. pose proof (so_col _ _ _ Hs _ _ _ Hk Hp) as Hok.
  exact (col_claim _ _ _ _ _ _ Hok t eq_refl).
Qed.

(** The ghost values of the other threads, when [c] is none of theirs. *)
Lemma thread_grace_frame w s s' ls e ga ga' gl gl' c u l :
  sound w s ls → ls !! u = Some l → pins_shrink s s' ga ga' e → EPOCH s' = EPOCH s →
  (∀ st f, mine l ≠ Some (c, st, f)) → (∀ d, d ≠ c → ga' d = ga d ∧ gl' d = gl d) →
  thread_grace w s e ga gl l → thread_grace w s' e ga' gl' l.
Proof.
  intros Hs Hl Hps He Hne Hfr [T1 T2 T3 T4]. split.
  - intros d st f Hd. destruct (Hfr d) as [-> ->]; [intros ->; by eapply Hne |]. by eapply T1.
  - eapply safe_shrink; [exact Hps | | eassumption]. intros i Hi.
    by apply (thr_doomed _ _ _ _ (so_thr _ _ _ Hs _ _ Hl)).
  - intros d k Hd. eapply safe_shrink; [exact Hps | | by eapply T3]. intros i Hi.
    destruct (sound_dying _ _ _ _ _ _ _ Hs Hl Hd) as (_ & _ & Hok). by apply (col_entries _ _ _ _ _ _ Hok).
  - intros x d f Hx Hd y v Hy Hv. rewrite He in Hd.
    destruct (ps_new _ _ _ _ _ Hps y v Hv) as [[[v' Hv'] ->] | ?]; [by eapply T4 | by right].
Qed.

Lemma grace_replace w s s' ls t l l' c k k' p e ga ga' gl gl' :
  sound w s ls → grace w s ls e ga gl → ls !! t = Some l → collectors s !! c = Some k →
  places w !! c = Some p → holder p = Some t →
  replaced s s' c k' → EPOCH s' = EPOCH s → pins_shrink s s' ga ga' e →
  (∀ d, d ≠ c → ga' d = ga d ∧ gl' d = gl d) →
  (∀ t', p = Owned t' → own_grace (pins s') e ga' gl' c k') →
  thread_grace w s' e ga' gl' l' →
  grace w s' (<[t := l']> ls) e ga' gl'.
Proof.
  intros Hs [G1 G2 G3] Hl Hk Hp Hh [Hcol Hanc Hloc Hnow Hepo] He Hps Hfr Hog Htg.
  pose proof (lookup_lt_Some _ _ _ Hl) as Hlt. split; [by rewrite He | |].
  - intros d kd u. rewrite Hcol. destruct (decide (d = c)) as [-> | Hne].
    + rewrite lookup_insert_eq. intros ? ?. simplify_eq. by eapply Hog.
    + rewrite lookup_insert_ne by done. intros Hkd Hpd. destruct (Hfr d Hne).
      apply (own_grace_shrink s s' e ga ga' gl gl'); [done | | done | done | by eapply G2].
      intros i Hi. by apply (col_entries _ _ _ _ _ _ (so_col _ _ _ Hs _ _ _ Hkd Hpd)).
  - intros u lu Hu. destruct (decide (u = t)) as [-> | Hne].
    + rewrite list_lookup_insert_eq in Hu by done. by simplify_eq.
    + rewrite list_lookup_insert_ne in Hu by done.
      eapply (thread_grace_frame w s s' ls e ga ga' gl gl' c u lu); eauto.
      intros st f Hm. pose proof (thr_mine _ _ _ _ (so_thr _ _ _ Hs _ _ Hu) _ _ _ Hm).
      simplify_eq. cbn [holder] in Hh. by simplify_eq.
Qed.

(** [c] keeps its guard, or has none. *)
Lemma pins_shrink_same s s' c k k' ga ga' e :
  collectors s !! c = Some k → collectors s' = <[c := k']> (collectors s) → pinned k' = pinned k →
  (∀ d, d ≠ c ∨ is_Some (pinned k) → ga' d = ga d) → pins_shrink s s' ga ga' e.
Proof.
  intros Hk Hcol Hpk Hga.
  assert (Heq : ∀ d, pins s' d = pins s d).
  { intros d. unfold pins. rewrite Hcol. destruct (decide (d = c)) as [-> | Hne].
    - by rewrite lookup_insert_eq, Hk.
    - by rewrite lookup_insert_ne. }
  assert (Hgd : ∀ d u, pins s d = Some u → ga' d = ga d).
  { intros d u Hu. apply Hga. destruct (decide (d = c)) as [-> | Hne]; [right | by left].
    unfold pins in Hu. rewrite Hk in Hu. by exists u. }
  split.
  - intros n d u Hn Hu Hle. rewrite Heq in Hu. split; [done | by eapply Hgd].
  - intros d u Hu. rewrite Heq in Hu. left. split; [by exists u | by eapply Hgd].
Qed.
