(* ===== verification/CollectorOwn.v ===== *)
(** * The instructions of a thread on its own collector

    Each instruction of [new_guard], [reclaim], [epoch_updated] and [end_guard]
    keeps the invariant of [CollectorInv]. *)
From stdpp Require Import functions.
From S2P Require Import Prelude Atomic Tag Collector CollectorInv.

Local Open Scope Z_scope.

#[local] Existing Instance Tag.eq_dec.

(** ** Instructions on a collector that exists *)
Lemma wp_on {A R} (c : nat) (f : ebr → collector → A * collector) g t (k : A → prog ebr R) l Q :
  (∀ s ls, ls !! t = Some l → ebr_inv s ls →
     ∃ kc, collectors s !! c = Some kc ∧
       ∃ l', ebr_inv (g (set_collectors (<[c := (f s kc).2]> (collectors s)) s)) (<[t := l']> ls) ∧
             wp ebr_inv t (k (f s kc).1) l' Q) →
  wp ebr_inv t (bind (on c f g) k) l Q.
Proof.
  intros H s ls Hl HI. destruct (H s ls Hl HI) as (kc & Hk & l' & HI' & Hw). exists l'.
  rewrite Hk. destruct (f s kc) as [a k']. done.
Qed.

Lemma set_collectors_id s c k : collectors s !! c = Some k → set_collectors (<[c := k]> (collectors s)) s = s.
Proof. intros Hk. destruct s. unfold set_collectors. cbn in *. by rewrite insert_id. Qed.

Lemma wp_collector {A R} (c : nat) (f : collector → A) t (k : A → prog ebr R) l Q :
  (∀ s ls, ls !! t = Some l → ebr_inv s ls →
     ∃ kc, collectors s !! c = Some kc ∧ wp ebr_inv t (k (f kc)) l Q) →
  wp ebr_inv t (bind (read c f) k) l Q.
Proof.
  intros H. apply wp_on. intros s ls Hl HI. destruct (H s ls Hl HI) as (kc & Hk & Hw).
  exists kc. split; [done |]. exists l. cbn [fst snd]. by rewrite set_collectors_id, list_insert_id.
Qed.

Lemma wp_read_mine {A R} c st fl (f : collector → A) t (k : A → prog ebr R) l Q :
  mine l = Some (c, st, fl) →
  (∀ kc, state kc = st → own kc = fl → wp ebr_inv t (k (f kc)) l Q) →
  wp ebr_inv t (bind (read c f) k) l Q.
Proof.
  intros Hm H. apply wp_collector. intros s ls Hl (w & Hs & _).
  destruct (sound_mine _ _ _ _ _ _ _ _ Hs Hl Hm) as (kc & Hk & Hst & Hf & _). eauto.
Qed.

Lemma wp_read_dying {A R} c kc (f : collector → A) t (k : A → prog ebr R) l Q :
  dying l !! c = Some kc → wp ebr_inv t (k (f kc)) l Q → wp ebr_inv t (bind (read c f) k) l Q.
Proof.
  intros Hd H. apply wp_collector. intros s ls Hl (w & Hs & _). exists kc.
  by destruct (sound_dying _ _ _ _ _ _ _ Hs Hl Hd) as (? & _).
Qed.

(** ** The fields of the own collector *)

(** The facts of a thread about its own collector that an update goes from and to. *)
Lemma thread_ok_mine w s t l c st f st' f' b :
  mine l = Some (c, st, f) → thread_ok w s t l →
  thread_ok w s t (with_rotating b (with_mine (Some (c, st', f')) l)).
Proof.
  intros Hm [H1 H2 H3 H4 H5 H6]. split; cbn; try done. intros ? ? ? [= <- <- <-]. by eapply H1.
Qed.

Lemma claims_mine l c st' f' b d kd pd t :
  d ≠ c → holder pd = Some t → (∀ st f, mine l = Some (d, st, f) → d = c) → claims l d kd pd →
  claims (with_rotating b (with_mine (Some (c, st', f')) l)) d kd pd.
Proof. intros Hne Hh Hm. destruct pd; cbn; try done. intros Hd. by destruct Hne; eapply Hm. Qed.

(** The update of the collector [c] of the thread [t]: what is left to show. *)
Lemma sound_mine_update w s s' ls t l c st f k' b :
  sound w s ls → ls !! t = Some l → mine l = Some (c, st, f) →
  replaced s s' c k' → (∀ k, collectors s !! c = Some k → next_link k' = next_link k) →
  NoDup (colls (lists (own k'))) → (∀ i, i ∈ lists (own k') → entry_ok w (now s') c i) →
  (has_garbage (own k') = false → lists (own k') = []) → status (retired w) c k' (Owned t) →
  sound w s' (<[t := with_rotating b (with_mine (Some (c, state k', own k')) l)]> ls).
Proof.
  intros Hs Hl Hm Hrep Hnext Hnd Hent Hemp Hst.
  destruct (sound_mine _ _ _ _ _ _ _ _ Hs Hl Hm) as (k & Hk & _ & _ & Hp & _).
  eapply sound_replace; try done; eauto.
  - intros d kd pd Hne Hh. eapply claims_mine; try done. intros ? ? Hd. rewrite Hm in Hd. by injection Hd.
  - eapply thread_ok_frame; [by rewrite (rep_local _ _ _ _ Hrep) | by eapply rep_now |].
    eapply thread_ok_mine; [done |]. by apply (so_thr _ _ _ Hs).
Qed.

(** The ghost values of the thread, when its collector changes. *)
Lemma thread_grace_mine w s s' e ga ga' gl gl' c st f st' f' b t l ls :
  sound w s ls → ls !! t = Some l → mine l = Some (c, st, f) →
  pins_shrink s s' ga ga' e → EPOCH s' = EPOCH s → (walk l = None ∨ st' = st) →
  (if b : bool then gl' c < ga' c else gl' c = ga' c) →
  thread_grace w s e ga gl l →
  thread_grace w s' e ga' gl' (with_rotating b (with_mine (Some (c, st', f')) l)).
Proof.
  intros Hs Hl Hm Hps He Hst Hrot [T1 T2 T3 T4]. split; cbn.
  - intros ? ? ? [= <- <- <-]. done.
  - eapply safe_shrink; [exact Hps | | eassumption]. intros i Hi.
    by apply (thr_doomed _ _ _ _ (so_thr _ _ _ Hs _ _ Hl)).
  - intros d k Hd. eapply safe_shrink; [exact Hps | | by eapply T3]. intros i Hi.
    destruct (sound_dying _ _ _ _ _ _ _ Hs Hl Hd) as (_ & _ & Hok). by apply (col_entries _ _ _ _ _ _ Hok).
  - intros x ? ? Hx [= <- Hst' <-] y u Hy Hu. destruct Hst as [Hst | Hst]; [congruence |].
    assert (Hm' : mine l = Some (c, EPOCH s, f)) by congruence. destruct (ps_new _ _ _ _ _ Hps y u Hu) as [[[v Hv] ->] | ?]; [by eapply T4 | by right].
Qed.

(** [num_readers], [next_epoch_update] and, while the lists are about to be moved,
    [announcement]. *)
Lemma inv_modify s ls t l c st f f' k :
  ebr_inv s ls → ls !! t = Some l → mine l = Some (c, st, f) → collectors s !! c = Some k →
  lists f' = lists f → current_instance_link f' = current_instance_link f →
  previous_instance_link f' = previous_instance_link f → next_instance_link f' = next_instance_link f →
  has_garbage f' = has_garbage f →
  (announcement f' = announcement f ∨ 0 ≤ announcement f' ≤ 2 ∧ 0 ≤ st ≤ 2) →
  ebr_inv (set_collectors (<[c := set_own f' k]> (collectors s)) s)
    (<[t := with_mine (Some (c, st, f')) l]> ls).
Proof.
  intros (w & Hs & Hg) Hl Hm Hk Hlists Hcur Hprev Hnext Hgar Hann.
  destruct (sound_mine _ _ _ _ _ _ _ _ Hs Hl Hm) as (k0 & Hk0 & Hst & Hf & Hp & Hok). simplify_eq.
  assert (Hinact : announcement f' ≠ announcement (own k) → is_Some (pinned k)).
  { intros Hne. destruct Hann as [? | [_ Hrange]]; [done |].
    destruct (col_status _ _ _ _ _ _ Hok) as [Hr Hst]. destruct (pinned k); [by eexists |].
    exfalso. rewrite Hst in Hrange. assert (announcement (own k) = 0 ∨ announcement (own k) = 1 ∨ announcement (own k) = 2)
      as [Ha | [Ha | Ha]] by lia; rewrite Ha in Hrange; vm_compute in Hrange; intuition congruence. }
  change (with_mine ?m l) with (with_rotating (rotating l) (with_mine m l)).
  set (k' := set_own f' k). exists w. split.
  - apply (sound_mine_update w s _ ls t l c (state k) (own k) k' (rotating l)); try done; cbn.
    + intros k1 Hk1. by simplify_eq.
    + rewrite Hlists. apply Hok.
    + rewrite Hlists. apply Hok.
    + rewrite Hlists, Hgar. apply Hok.
    + destruct (col_status _ _ _ _ _ _ Hok) as [Hr Hst]. split; [destruct Hann; lia |].
      destruct (pinned k) eqn:Hpin; [done |]. destruct (decide (announcement f' = announcement (own k))) as [-> | Hne]; [done |].
      by destruct (Hinact Hne).
  - intros Hfresh. destruct (Hg Hfresh) as (Hv & e & ga & gl & He & HG). split; [done |]. exists e, ga, gl. split; [done |].
    assert (Hps : pins_shrink s (set_collectors (<[c := k']> (collectors s)) s) ga ga e) by (by eapply pins_shrink_same).
    eapply grace_replace; try done.
    + intros t' _. pose proof (gr_own _ _ _ _ _ _ HG _ _ _ Hk Hp) as [O1 O2 O3 O4 O5].
      split; cbn; rewrite ?Hcur, ?Hprev, ?Hnext; [done | |
        (eapply bounded_shrink; [exact Hps | | eassumption]); intros i Hi; by apply (col_entries _ _ _ _ _ _ Hok), elem_lists; auto ..].
      destruct (pinned k) eqn:Hpin; [done |]. destruct (decide (announcement f' = announcement (own k))) as [-> | Hne]; [done |].
      by destruct (Hinact Hne).
    + pose proof (gr_thread _ _ _ _ _ _ HG t l Hl) as HT.
      apply (thread_grace_mine w s _ e ga ga gl gl c (state k) (own k) _ _ _ t l ls); auto.
      by apply (tg_rotating _ _ _ _ _ _ HT c (state k) (own k)).
Qed.

Lemma wp_modify_mine {R} c st f φ t (k : unit → prog ebr R) l Q :
  mine l = Some (c, st, f) →
  lists (φ f) = lists f → current_instance_link (φ f) = current_instance_link f →
  previous_instance_link (φ f) = previous_instance_link f → next_instance_link (φ f) = next_instance_link f →
  has_garbage (φ f) = has_garbage f →
  (announcement (φ f) = announcement f ∨ 0 ≤ announcement (φ f) ≤ 2 ∧ 0 ≤ st ≤ 2) →
  wp ebr_inv t (k ()) (with_mine (Some (c, st, φ f)) l) Q →
  wp ebr_inv t (bind (modify c φ) k) l Q.
Proof.
  intros Hm H1 H2 H3 H4 H5 H6 Hk. apply wp_on. intros s ls Hl HI. pose proof HI as (w & Hs & _).
  destruct (sound_mine _ _ _ _ _ _ _ _ Hs Hl Hm) as (kc & Hkc & Hst & Hf & _).
  exists kc. split; [done |]. exists (with_mine (Some (c, st, φ f)) l). split; [| done].
  cbn. rewrite Hf. by eapply inv_modify.
Qed.

(** ** [state.swap] and [state.store] *)

Lemma mod_lt_3 a b : a ≤ b → a mod 3 ≠ b mod 3 → a < b.
Proof. intros ? Hne. destruct (decide (a = b)) as [-> |]; [done | lia]. Qed.

Lemma inv_swap_state s ls t l c f st e0 k :
  ebr_inv s ls → ls !! t = Some l → mine l = Some (c, st, f) → collectors s !! c = Some k →
  st = Z.lor (announcement f) INACTIVE → 0 ≤ announcement f ≤ 2 → 0 ≤ e0 ≤ 2 →
  walk l = None → rotating l = false →
  ebr_inv
    (set_stale (stale s || negb (EPOCH s =? e0))
       (set_collectors (<[c := set_pinned (Some (now s)) (set_state e0 k)]> (collectors s)) s))
    (<[t := with_rotating (negb (announcement f =? e0)) (with_mine (Some (c, e0, f)) l)]> ls).
Proof.
  intros (w & Hs & Hg) Hl Hm Hk Hst0 Hann He0 Hw Hr.
  destruct (sound_mine _ _ _ _ _ _ _ _ Hs Hl Hm) as (k0 & Hk0 & Hst & Hf & Hp & Hok). simplify_eq.
  assert (Hnp : pinned k = None).
  { destruct (col_status _ _ _ _ _ _ Hok) as [_ Hx]. destruct (pinned k); [| done].
    exfalso. rewrite Hst in Hx. assert (announcement (own k) = 0 ∨ announcement (own k) = 1 ∨ announcement (own k) = 2)
      as [Ha | [Ha | Ha]] by lia; rewrite Ha in Hx; vm_compute in Hx; intuition congruence. }
  set (k' := set_pinned (Some (now s)) (set_state e0 k)). set (s1 := set_stale _ _).
  exists w. split.
  - eapply (sound_mine_update w s s1 ls t l c _ (own k) k'); try done; cbn.
    + intros k1 Hk1. by simplify_eq.
    + apply Hok.
    + apply Hok.
    + apply Hok.
  - intros Hfresh. cbn in Hfresh. apply orb_false_iff in Hfresh as [Hfresh Heq].
    apply negb_false_iff, Z.eqb_eq in Heq. destruct (Hg Hfresh) as (Hv & e & ga & gl & He & HG).
    pose proof (gr_own _ _ _ _ _ _ HG _ _ _ Hk Hp) as [O1 O2 O3 O4 O5]. rewrite Hnp in O2.
    pose proof (gr_thread _ _ _ _ _ _ HG t l Hl) as HT.
    pose proof (tg_rotating _ _ _ _ _ _ HT c _ _ Hm) as Hrot. rewrite Hr in Hrot.
    pose proof (gr_epoch _ _ _ _ _ _ HG) as Hep.
    split; [done |]. set (b := announcement (own k) =? e0).
    exists e, (<[c := e]> ga), (if b then <[c := e]> gl else gl). split; [done |].
    assert (Hps : pins_shrink s s1 ga (<[c := e]> ga) e).
    { assert (Hpin : ∀ d, pins s1 d = if decide (d = c) then Some (now s) else pins s d).
      { intros d. unfold pins, s1. cbn. case_decide as Hd; [subst d | by rewrite lookup_insert_ne].
        by rewrite lookup_insert_eq. }
      split; [intros n d u Hn | intros d u]; rewrite Hpin; case_decide as Hd; try subst d.
      - intros [= <-]. lia.
      - intros Hu _. by rewrite fn_lookup_insert_ne.
      - right. by rewrite fn_lookup_insert.
      - intros Hu. left. split; [by exists u |]. by rewrite fn_lookup_insert_ne. }
    assert (Hglc : gl c ≤ (if b then <[c := e]> gl else gl) c ≤ e).
    { destruct b; [rewrite fn_lookup_insert |]; lia. }
    eapply grace_replace; try done.
    + intros d Hd. split; [| destruct b; [| done]]; by rewrite fn_lookup_insert_ne.
    + intros t' _. split; cbn; rewrite ?fn_lookup_insert; [lia | split; [congruence | lia] | | |];
        (eapply bounded_shrink; [exact Hps | | eapply bounded_mono; [| eassumption]; lia]);
        intros i Hi; by apply (col_entries _ _ _ _ _ _ Hok), elem_lists; auto.
    + apply (thread_grace_mine w s s1 e ga _ gl _ c _ (own k) _ _ _ t l ls Hs Hl Hm); auto.
      rewrite fn_lookup_insert. subst b. destruct (Z.eqb_spec (announcement (own k)) e0); cbn; [by rewrite fn_lookup_insert |].
      rewrite Hrot. apply mod_lt_3; [lia | congruence].
Qed.

Lemma inv_retract s ls t l c f k :
  ebr_inv s ls → ls !! t = Some l → mine l = Some (c, announcement f, f) → collectors s !! c = Some k →
  walk l = None → rotating l = false → 0 ≤ announcement f ≤ 2 →
  ebr_inv
    (set_collectors (<[c := set_pinned None (set_state (Z.lor (announcement f) INACTIVE) k)]> (collectors s)) s)
    (<[t := with_mine (Some (c, Z.lor (announcement f) INACTIVE, f)) l]> ls).
Proof.
  intros (w & Hs & Hg) Hl Hm Hk Hw Hr Hann.
  destruct (sound_mine _ _ _ _ _ _ _ _ Hs Hl Hm) as (k0 & Hk0 & Hst & Hf & Hp & Hok). simplify_eq.
  assert (is_Some (pinned k)) as [u0 Hu0].
  { destruct (col_status _ _ _ _ _ _ Hok) as [_ Hx]. destruct (pinned k); [by eexists |].
    exfalso. rewrite Hst in Hx. assert (announcement (own k) = 0 ∨ announcement (own k) = 1 ∨ announcement (own k) = 2)
      as [Ha | [Ha | Ha]] by lia; rewrite Ha in Hx; vm_compute in Hx; congruence. }
  change (with_mine ?m l) with (with_rotating (rotating l) (with_mine m l)).
  set (k' := set_pinned None (set_state (Z.lor (announcement (own k)) INACTIVE) k)). set (s1 := set_collectors _ _).
  exists w. split.
  - apply (sound_mine_update w s s1 ls t l c (announcement (own k)) (own k) k'); try done; cbn.
    + intros k1 Hk1. by simplify_eq.
    + apply Hok.
    + apply Hok.
    + apply Hok.
  - intros Hfresh. destruct (Hg Hfresh) as (Hv & e & ga & gl & He & HG).
    pose proof (gr_own _ _ _ _ _ _ HG _ _ _ Hk Hp) as [O1 O2 O3 O4 O5]. rewrite Hu0 in O2.
    pose proof (gr_thread _ _ _ _ _ _ HG t l Hl) as HT.
    split; [done |]. exists e, ga, gl. split; [done |].
    assert (Hps : pins_shrink s s1 ga ga e).
    { assert (Hpin : ∀ d u, pins s1 d = Some u → pins s d = Some u).
      { intros d u. unfold pins, s1. cbn. destruct (decide (d = c)) as [-> | Hd]; [by rewrite lookup_insert_eq |].
        by rewrite lookup_insert_ne. }
      split; [intros n d u Hn Hu | intros d u Hu]; apply Hpin in Hu; [done | left; split; [by exists u | done]]. }
    eapply grace_replace; try done.
    + intros t' _. split; cbn; [done | rewrite <-Hst; tauto | | |];
        (eapply bounded_shrink; [exact Hps | | eassumption]);
        intros i Hi; by apply (col_entries _ _ _ _ _ _ Hok), elem_lists; auto.
    + apply (thread_grace_mine w s s1 e ga _ gl _ c (announcement (own k)) (own k) _ _ _ t l ls); auto.
      by apply (tg_rotating _ _ _ _ _ _ HT _ _ _ Hm).
Qed.
