(* ===== verification/CollectorShift.v ===== *)
(** * Collectors and instances that change hands

    An instance enters a garbage list ([reclaim]), the last list is taken by the
    thread that drops it ([epoch_updated]), and a collector that is dropped is
    emptied and freed ([impl Drop for Collector]). *)
From stdpp Require Import functions.
From S2P Require Import Prelude Atomic Tag Collector CollectorInv CollectorOwn.

Local Open Scope Z_scope.

#[local] Existing Instance Tag.eq_dec.

(** ** The place of one collector *)

Definition move (w : world) (x : nat) (p : place) (n : nat) : world :=
  World (<[x := p]> (places w)) (<[x := n]> (retired w)) (chain w) (locker w).

(** Thread [t] moves [x]; of the other collectors only the links may change. *)
Record moved (w w' : world) (s s' : ebr) (x : nat) (p : place) (n : nat) : Prop := {
  mv_places : places w' = <[x := p]> (places w);
  mv_retired : retired w' = <[x := n]> (retired w);
  mv_col d k' : collectors s' !! d = Some k' →
    ∃ k, collectors s !! d = Some k ∧ own k' = own k ∧ pinned k' = pinned k ∧
      (d ≠ x → state k' = state k ∧ (k' = k ∨ d ∈ chain w));
  mv_dom d : is_Some (collectors s !! d) → is_Some (collectors s' !! d);
  mv_local : LOCAL_COLLECTOR s' = LOCAL_COLLECTOR s;
  mv_now : now s' = now s;
  mv_epoch : EPOCH s' = EPOCH s
}.

Lemma sound_place w w' s s' ls t l l' x p0 p1 n :
  sound w s ls → ls !! t = Some l → places w !! x = Some p0 → moved w w' s s' x p1 n →
  path (collectors s') (GLOBAL_ANCHOR s').1 (chain w') → NoDup (chain w') →
  (∀ c, c ∈ chain w' ↔ ∃ p, places w' !! c = Some p ∧ registered p) →
  locked_tag (GLOBAL_ANCHOR s').2 = bool_decide (is_Some (locker w')) →
  (∀ u lu, <[t := l']> ls !! u = Some lu → is_Some (walk lu) ↔ locker w' = Some u) →
  (∀ u lu y, <[t := l']> ls !! u = Some lu → walk lu = Some y → walk_ok w' y) →
  (∀ u, holder p0 = Some u → u = t) → (∀ u, holder p1 = Some u → u = t) →
  (∀ d k, collectors s !! d = Some k → x ∉ colls (lists (own k))) →
  (∀ k', collectors s' !! x = Some k' → status (<[x := n]> (retired w)) x k' p1 ∧ claims l' x k' p1) →
  (∀ d kd pd, d ≠ x → claims l d kd pd → claims l' d kd pd) →
  thread_ok w' s' t l' →
  sound w' s' (<[t := l']> ls).
Proof.
  intros Hs Hl Hp [M1 M2 M3 M4 M5 M6 M7] Hpath Hnd Hchain Hlock Hwalks Hwalk Hh0 Hh1 Hout Hst Hframe Hthr.
  pose proof (lookup_lt_Some _ _ _ Hl) as Hlt. destruct Hs as [S1 S2 S3 S4 S5 S6 S7 S8 S9 S10].
  split; try done.
  - intros d. rewrite M1. destruct (decide (d = x)) as [-> | Hne].
    + rewrite lookup_insert_eq. split; [intros _; apply M4, S1; by eexists | by eexists].
    + rewrite lookup_insert_ne, S1 by done. split; [apply M4 |]. intros [k' Hk']. destruct (M3 _ _ Hk') as (k & ? & _). by eexists.
  - intros d kd' pd Hkd'. destruct (M3 _ _ Hkd') as (kd & Hkd & Hown & Hpin & Hsame). rewrite M1. intros Hpd.
    assert (∃ pd', places w !! d = Some pd' ∧ (d ≠ x → pd' = pd)) as (pd' & Hpd' & Hpp).
    { destruct (decide (d = x)) as [-> | Hne]; [by exists p0 |]. rewrite lookup_insert_ne in Hpd by done. by exists pd. }
    destruct (S8 _ _ _ Hkd Hpd') as [C1 C2 C3 C4 C5]. split; rewrite ?Hown; try done.
    + intros i Hi. destruct (C2 i Hi) as [Hn Hx]. split; [by rewrite M6 |]. intros y Hy. destruct (Hx y Hy) as [Hy1 Hy2].
      assert (y ≠ x) as Hne.
      { intros ->. apply (Hout _ _ Hkd). apply list_elem_of_omap. by exists i. }
      by rewrite M1, M2, lookup_insert_ne, fn_lookup_insert_ne.
    + rewrite M2. destruct (decide (d = x)) as [-> | Hne].
      * rewrite lookup_insert_eq in Hpd. simplify_eq. by apply Hst.
      * rewrite Hpp in C4 by done. destruct (Hsame Hne) as [Hstate _].
        destruct pd; cbn in *; rewrite ?Hown, ?Hpin, ?Hstate; try done. by rewrite fn_lookup_insert_ne.
    + intros u Hu. destruct (decide (d = x)) as [-> | Hne].
      * rewrite lookup_insert_eq in Hpd. simplify_eq. rewrite (Hh1 u Hu). exists l'.
        rewrite list_lookup_insert_eq by done. split; [done | by apply Hst].
      * rewrite Hpp in * by done. destruct (C5 u Hu) as (lu & Hlu & Hclu). destruct (Hsame Hne) as [Hstate Heq].
        assert (claims lu d kd' pd).
        { destruct Heq as [-> | Hd]; [done |]. apply S4 in Hd as (p & Hp' & Hr). simplify_eq.
          destruct pd; cbn in *; [by rewrite Hstate, Hown | done ..]. }
        destruct (decide (u = t)) as [-> | Hnu].
        -- simplify_eq. exists l'. rewrite list_lookup_insert_eq by done. eauto.
        -- exists lu. by rewrite list_lookup_insert_ne.
  - intros u lu Hu. destruct (decide (u = t)) as [-> | Hne].
    + rewrite list_lookup_insert_eq in Hu by done. by simplify_eq.
    + rewrite list_lookup_insert_ne in Hu by done. destruct (S9 u lu Hu) as [H1 H2 H3 H4 H5 H6].
      assert (Hout' : ∀ d p, places w !! d = Some p → holder p = Some u → places w' !! d = Some p).
      { intros d p Hd Hu'. rewrite M1, lookup_insert_ne; [done |]. intros <-. simplify_eq. by apply Hne, Hh0. }
      split; rewrite ?M5, ?M6; try done; eauto.
  - by rewrite M7.
Qed.

Lemma sound_shift w s ls t l l' x kx p0 p1 n :
  sound w s ls → ls !! t = Some l → collectors s !! x = Some kx → places w !! x = Some p0 →
  ¬ registered p0 → ¬ registered p1 →
  (∀ u, holder p0 = Some u → u = t) → (∀ u, holder p1 = Some u → u = t) →
  (∀ d k, collectors s !! d = Some k → x ∉ colls (lists (own k))) →
  status (<[x := n]> (retired w)) x kx p1 → claims l' x kx p1 →
  (∀ d kd pd, d ≠ x → claims l d kd pd → claims l' d kd pd) →
  walk l' = walk l → thread_ok (move w x p1 n) s t l' →
  sound (move w x p1 n) s (<[t := l']> ls).
Proof.
  intros Hs Hl Hk Hp Hr0 Hr1 Hh0 Hh1 Hout Hst Hcl Hframe Hw Hthr.
  pose proof (lookup_lt_Some _ _ _ Hl) as Hlt.
  assert (Hwalk : ∀ y, walk_ok w y → walk_ok (move w x p1 n) y).
  { intros y [Hy1 Hy2]. split; [done |]. intros Hd. destruct (Hy2 Hd) as (c & cs & -> & Hc).
    exists c, cs. split; [done |]. cbn. rewrite lookup_insert_ne; [done |]. intros ->. simplify_eq. by apply Hr0. }
  apply (sound_place w _ s s ls t l l' x p0 p1 n); try done; try apply Hs.
  - split; try done. intros d k' Hk'. exists k'. split_and!; auto.
  - intros d. cbn. rewrite (so_chain _ _ _ Hs). destruct (decide (d = x)) as [-> | Hne].
    + rewrite lookup_insert_eq. split; intros (p & ? & ?); simplify_eq; contradiction.
    + by rewrite lookup_insert_ne.
  - intros u lu Hu. destruct (decide (u = t)) as [-> | Hne].
    + rewrite list_lookup_insert_eq in Hu by done. simplify_eq. rewrite Hw. exact (so_walks _ _ _ Hs t l Hl).
    + rewrite list_lookup_insert_ne in Hu by done. exact (so_walks _ _ _ Hs u lu Hu).
  - intros u lu y Hu Hy. apply Hwalk. destruct (decide (u = t)) as [-> | Hne].
    + rewrite list_lookup_insert_eq in Hu by done. simplify_eq. rewrite Hw in Hy. exact (so_walk _ _ _ Hs t l y Hl Hy).
    + rewrite list_lookup_insert_ne in Hu by done. exact (so_walk _ _ _ Hs u lu y Hu Hy).
  - intros k' Hk'. by simplify_eq.
Qed.

Lemma grace_shift w s ls t l l' x p1 n e ga gl :
  grace w s ls e ga gl → ls !! t = Some l → ¬ registered p1 →
  (thread_grace w s e ga gl l → thread_grace (move w x p1 n) s e ga gl l') →
  grace (move w x p1 n) s (<[t := l']> ls) e ga gl.
Proof.
  intros [G1 G2 G3] Hl Hr1 Ht. pose proof (lookup_lt_Some _ _ _ Hl) as Hlt. split; [done | |].
  - intros c k u Hk. cbn. destruct (decide (c = x)) as [-> | Hne].
    + rewrite lookup_insert_eq. intros [= ->]. by destruct Hr1.
    + rewrite lookup_insert_ne by done. eauto.
  - intros u lu Hu. destruct (decide (u = t)) as [-> | Hne].
    + rewrite list_lookup_insert_eq in Hu by done. simplify_eq. eauto.
    + rewrite list_lookup_insert_ne in Hu by done. destruct (G3 u lu Hu) as [T1 T2 T3 T4]. by split.
Qed.

(** ** [reclaim] *)

Lemma pins_owned w s ls d u :
  sound w s ls → pins s d = Some u →
  ∃ k t, collectors s !! d = Some k ∧ pinned k = Some u ∧ places w !! d = Some (Owned t).
Proof.
  intros Hs Hu. unfold pins in Hu. destruct (collectors s !! d) as [k |] eqn:Hk; [| done]. cbn in Hu.
  destruct (proj2 (so_dom _ _ _ Hs d)) as [p Hp]; [by eauto |].
  pose proof (col_status _ _ _ _ _ _ (so_col _ _ _ Hs _ _ _ Hk Hp)) as Hst.
  destruct p as [t | | | |]; cbn in Hst; try (by destruct Hst; congruence); [by eauto | congruence ..].
Qed.

Lemma pins_epoch w s ls e ga gl d u :
  sound w s ls → grace w s ls e ga gl → pins s d = Some u → e - 1 ≤ ga d ≤ e.
Proof.
  intros Hs HG Hu. destruct (pins_owned _ _ _ _ _ Hs Hu) as (k & t & Hk & Hpk & Hp).
  destruct (gr_own _ _ _ _ _ _ HG _ _ _ Hk Hp) as [O1 O2 _ _ _]. rewrite Hpk in O2. lia.
Qed.

(** What a thread with a guard knows of its collector. *)
Lemma sound_active w s ls t l c f :
  sound w s ls → ls !! t = Some l → mine l = Some (c, announcement f, f) → 0 ≤ announcement f ≤ 2 →
  ∃ k u, collectors s !! c = Some k ∧ pinned k = Some u ∧ state k = announcement f ∧ own k = f ∧
    places w !! c = Some (Owned t) ∧ collector_ok w (now s) ls c k (Owned t).
Proof.
  intros Hs Hl Hm Hann. destruct (sound_mine _ _ _ _ _ _ _ _ Hs Hl Hm) as (k & Hk & Hst & Hf & Hp & Hok).
  exists k. destruct (pinned k) as [u |] eqn:Hu; [by exists u |]. exfalso.
  destruct (col_status _ _ _ _ _ _ Hok) as [_ Hx]. rewrite Hu, Hst, Hf in Hx.
  assert (announcement f = 0 ∨ announcement f = 1 ∨ announcement f = 2) as [Ha | [Ha | Ha]] by lia;
    rewrite Ha in Hx; vm_compute in Hx; congruence.
Qed.

Lemma colls_cons i g : colls (i :: g) = match coll i with Some x => x :: colls g | None => colls g end.
Proof. done. Qed.

Lemma elem_of_colls x g : x ∈ colls g ↔ ∃ i, i ∈ g ∧ coll i = Some x.
Proof. apply list_elem_of_omap. Qed.

Definition reclaimed (s : ebr) (c : nat) (i : instance * nat) (k : collector) : ebr :=
  tick (set_collectors (<[c := set_own (reclaim_fields i (own k)) k]> (collectors s)) s).

Lemma lists_reclaim i f : lists (reclaim_fields i f) = i :: lists f.
Proof. done. Qed.

Section Reclaim.
Context (w : world) (s : ebr) (ls : list ghost) (t : nat) (l : ghost) (c : nat) (f : fields).
Context (k : collector) (i : instance * nat).
Context (Hs : sound w s ls) (Hl : ls !! t = Some l).
Context (Hm : mine l = Some (c, announcement f, f)) (Hann : 0 ≤ announcement f ≤ 2).
Context (Hk : collectors s !! c = Some k) (Hi : i.2 = now s).
Context (Hx : ∀ x, coll i = Some x → places w !! x = Some (Listed c) ∧ retired w x = now s ∧ x ∉ colls (lists f)).

Let l' := with_mine (Some (c, announcement f, reclaim_fields i f)) l.

Lemma sound_reclaim : sound w (reclaimed s c i k) (<[t := l']> ls).
Proof.
  destruct (sound_active _ _ _ _ _ _ _ Hs Hl Hm Hann) as (k0 & u & Hk0 & Hu & Hst & Hf & Hp & Hok).
  rewrite Hk in Hk0. injection Hk0 as <-.
  replace l' with (with_rotating (rotating l) (with_mine (Some (c, state k, reclaim_fields i f)) l)) by (by rewrite Hst).
  rewrite <-Hf. apply (sound_mine_update w s _ ls t l c (announcement f) f (set_own (reclaim_fields i (own k)) k)); try done;
    cbn [own set_own]; rewrite ?lists_reclaim.
  - by split; cbn; auto.
  - intros k1 Hk1. rewrite Hk in Hk1. by injection Hk1 as <-.
  - rewrite colls_cons. destruct (coll i) as [x |] eqn:Hxi; [| apply Hok].
    apply NoDup_cons. split; [| apply Hok]. rewrite Hf. by apply Hx.
  - intros j Hj. apply elem_of_cons in Hj as [-> | Hj].
    + split; [cbn; lia |]. intros x Hxi. rewrite Hi. by destruct (Hx x Hxi) as (? & ? & _).
    + eapply entry_ok_mono; [| by apply (col_entries _ _ _ _ _ _ Hok)]. cbn. lia.
  - by apply (col_status _ _ _ _ _ _ Hok).
Qed.

Lemma grace_reclaim e ga gl :
  rotating l = false → grace w s ls e ga gl → grace w (reclaimed s c i k) (<[t := l']> ls) e ga gl.
Proof.
  intros Hr HG. destruct (sound_active _ _ _ _ _ _ _ Hs Hl Hm Hann) as (k0 & u & Hk0 & Hu & Hst & Hf & Hp & Hok).
  rewrite Hk in Hk0. injection Hk0 as <-.
  set (k' := set_own (reclaim_fields i (own k)) k).
  assert (Hps : pins_shrink s (reclaimed s c i k) ga ga e) by (by apply (pins_shrink_same s _ c k k')).
  pose proof (gr_thread _ _ _ _ _ _ HG t l Hl) as HT.
  pose proof (tg_rotating _ _ _ _ _ _ HT _ _ _ Hm) as Hrot. rewrite Hr in Hrot.
  apply (grace_replace w s _ ls t l l' c k k' (Owned t) e ga ga gl gl); try done.
  - by split; cbn; auto.
  - intros t' _. pose proof (gr_own _ _ _ _ _ _ HG _ _ _ Hk Hp) as [O1 O2 O3 O4 O5].
    assert (Hlt : ∀ j, j ∈ lists (own k) → (j.2 < now s)%nat) by (intros j Hj; by apply (col_entries _ _ _ _ _ _ Hok)).
    split; try done; cbn.
    + intros j d v Hj Hv Hle. apply elem_of_cons in Hj as [-> | Hj].
      * assert (ga d ≤ e); [| rewrite Hu in O2; lia].
        destruct (ps_new _ _ _ _ _ Hps d v Hv) as [[[v' Hv'] _] | ->]; [| done].
        by apply (pins_epoch _ _ _ _ _ _ _ _ Hs HG Hv').
      * refine (bounded_shrink _ _ _ _ _ _ _ Hps _ O3 j d v Hj Hv Hle).
        intros i' Hi'. apply Hlt, elem_lists; auto.
    + eapply bounded_shrink; [exact Hps | | eassumption]. intros i' Hi'. apply Hlt, elem_lists; auto.
    + eapply bounded_shrink; [exact Hps | | eassumption]. intros i' Hi'. apply Hlt, elem_lists; auto.
  - apply (thread_grace_mine w s _ e ga ga gl gl c (announcement f) f _ _ (rotating l) t l ls); auto.
    by rewrite Hr.
Qed.
End Reclaim.

Lemma wp_reclaim_obj {R} c f o t (k : unit → prog ebr R) l Q :
  mine l = Some (c, announcement f, f) → 0 ≤ announcement f ≤ 2 → rotating l = false →
  (∀ τ, wp ebr_inv t (k ()) (with_mine (Some (c, announcement f, reclaim_fields (Obj o, τ) f)) l) Q) →
  wp ebr_inv t (bind (reclaim c (Obj o)) k) l Q.
Proof.
  intros Hm Hann Hr Hk. apply wp_on. intros s ls Hl (w & Hs & Hg).
  destruct (sound_active _ _ _ _ _ _ _ Hs Hl Hm Hann) as (kc & u & Hkc & Hu & Hst & Hf & Hp & Hok).
  exists kc. split; [done |]. eexists. split; [| by apply (Hk (now s))]. exists w. cbn [fst snd].
  change (tick _) with (reclaimed s c (Obj o, now s) kc). split.
  - by apply sound_reclaim.
  - intros Hfresh. destruct (Hg Hfresh) as (Hv & e & ga & gl & He & HG). split; [done |].
    exists e, ga, gl. split; [done |]. by apply grace_reclaim.
Qed.

(** ** [epoch_updated]: the lists are moved *)

Lemma lists_rotate f : lists (rotate_fields f) ++ next_instance_link f ≡ₚ lists f.
Proof. unfold lists. cbn. by rewrite <-app_assoc. Qed.

Lemma colls_app g1 g2 : colls (g1 ++ g2) = colls g1 ++ colls g2.
Proof. apply omap_app. Qed.

Lemma colls_lists_rotate f : colls (lists (rotate_fields f)) ++ colls (next_instance_link f) ≡ₚ colls (lists f).
Proof. rewrite <-colls_app. unfold colls. by rewrite lists_rotate. Qed.

Lemma rotate_empty f : has_garbage (rotate_fields f) = false → lists (rotate_fields f) = [].
Proof. unfold lists. cbn. by destruct (previous_instance_link f), (current_instance_link f). Qed.

Lemma elem_rotate i f : i ∈ lists (rotate_fields f) → i ∈ lists f.
Proof. rewrite <-(lists_rotate f). set_solver. Qed.

Lemma elem_next i f : i ∈ next_instance_link f → i ∈ lists f.
Proof. rewrite elem_lists. auto. Qed.

(** What is known of the list that was taken off the collector [c]. *)
Record taken (w : world) (s : ebr) (c : nat) (g : garbage) : Prop := {
  tk_nodup : NoDup (colls g);
  tk_entries i : i ∈ g → entry_ok w (now s) c i;
  tk_out x d k : x ∈ colls g → collectors s !! d = Some k → x ∉ colls (lists (own k))
}.

Lemma taken_next w s s' ls c k k' p :
  sound w s ls → collectors s !! c = Some k → places w !! c = Some p →
  collectors s' = <[c := k']> (collectors s) → now s' = now s → own k' = rotate_fields (own k) →
  taken w s' c (next_instance_link (own k)).
Proof.
  intros Hs Hk Hp Hcol Hnow Hrot. pose proof (so_col _ _ _ Hs _ _ _ Hk Hp) as Hok.
  pose proof (col_nodup _ _ _ _ _ _ Hok) as Hnd.
  rewrite <-colls_lists_rotate in Hnd. apply NoDup_app in Hnd as (_ & Hdisj & Hnd).
  assert (Hent : ∀ i, i ∈ next_instance_link (own k) → entry_ok w (now s') c i).
  { intros i Hi. rewrite Hnow. by apply (col_entries _ _ _ _ _ _ Hok), elem_next. }
  split; [done | done |]. intros x d kd Hx Hd Hin. rewrite Hcol in Hd. destruct (decide (d = c)) as [-> | Hne].
  - rewrite lookup_insert_eq in Hd. simplify_eq. rewrite Hrot in Hin. by apply (Hdisj x).
  - rewrite lookup_insert_ne in Hd by done. apply elem_of_colls in Hx as (i & Hi & Hix), Hin as (j & Hj & Hjx).
    destruct (proj2 (so_dom _ _ _ Hs d)) as [pd Hpd]; [by eauto |].
    destruct (Hent i Hi) as [_ Hplace]. destruct (Hplace x Hix) as [Hxc _].
    destruct (col_entries _ _ _ _ _ _ (so_col _ _ _ Hs _ _ _ Hd Hpd) j Hj) as [_ Hplace'].
    destruct (Hplace' x Hjx) as [Hxd _]. congruence.
Qed.

Definition rotated (s : ebr) (c : nat) (k : collector) : ebr :=
  set_collectors (<[c := set_own (rotate_fields (own k)) k]> (collectors s)) s.

Lemma sound_rotate w s ls t l c f k :
  sound w s ls → ls !! t = Some l → mine l = Some (c, announcement f, f) → 0 ≤ announcement f ≤ 2 →
  collectors s !! c = Some k →
  sound w (rotated s c k) (<[t := with_rotating false (with_mine (Some (c, announcement f, rotate_fields f)) l)]> ls) ∧
  taken w (rotated s c k) c (next_instance_link f).
Proof.
  intros Hs Hl Hm Hann Hk.
  destruct (sound_active _ _ _ _ _ _ _ Hs Hl Hm Hann) as (k0 & u & Hk0 & Hu & Hst & Hf & Hp & Hok). simplify_eq.
  split.
  - rewrite <-Hst at 1. apply (sound_mine_update w s _ ls t l c (announcement (own k)) (own k) (set_own (rotate_fields (own k)) k)); try done;
      cbn [own set_own].
    + intros k1 Hk1. by simplify_eq.
    + pose proof (col_nodup _ _ _ _ _ _ Hok) as Hnd. rewrite <-colls_lists_rotate in Hnd. by apply NoDup_app in Hnd as (? & _).
    + intros i Hi. by apply (col_entries _ _ _ _ _ _ Hok), elem_rotate.
    + apply rotate_empty.
    + by apply (col_status _ _ _ _ _ _ Hok).
  - by eapply taken_next.
Qed.

Lemma grace_rotate w s ls t l c f k e ga gl :
  sound w s ls → ls !! t = Some l → mine l = Some (c, announcement f, f) → 0 ≤ announcement f ≤ 2 →
  collectors s !! c = Some k → rotating l = true → grace w s ls e ga gl →
  grace w (rotated s c k) (<[t := with_rotating false (with_mine (Some (c, announcement f, rotate_fields f)) l)]> ls)
    e ga (<[c := ga c]> gl) ∧
  safe (pins (rotated s c k)) (next_instance_link f).
Proof.
  intros Hs Hl Hm Hann Hk Hr HG.
  destruct (sound_active _ _ _ _ _ _ _ Hs Hl Hm Hann) as (k0 & u & Hk0 & Hu & Hst & Hf & Hp & Hok). simplify_eq.
  set (k' := set_own (rotate_fields (own k)) k).
  assert (Hps : pins_shrink s (rotated s c k) ga ga e) by (by apply (pins_shrink_same s _ c k k')).
  pose proof (gr_thread _ _ _ _ _ _ HG t l Hl) as HT.
  pose proof (tg_rotating _ _ _ _ _ _ HT _ _ _ Hm) as Hrot. rewrite Hr in Hrot.
  pose proof (gr_own _ _ _ _ _ _ HG _ _ _ Hk Hp) as [O1 O2 O3 O4 O5].
  assert (Hlt : ∀ j, j ∈ lists (own k) → (j.2 < now s)%nat) by (intros j Hj; by apply (col_entries _ _ _ _ _ _ Hok)).
  split.
  - apply (grace_replace w s _ ls t l _ c k k' (Owned t) e ga ga gl _); try done.
    + intros d Hd. by rewrite fn_lookup_insert_ne.
    + intros t' _. split; cbn; rewrite ?fn_lookup_insert; [lia | done | | |].
      * intros i Hi. set_solver.
      * eapply bounded_shrink; [exact Hps | | eapply bounded_mono; [| exact O3]; lia].
        intros i Hi. apply Hlt, elem_lists; auto.
      * eapply bounded_shrink; [exact Hps | | eapply bounded_mono; [| exact O4]; lia].
        intros i Hi. apply Hlt, elem_lists; auto.
    + apply (thread_grace_mine w s _ e ga ga gl _ c (announcement (own k)) (own k) _ _ false t l ls); auto.
      by rewrite fn_lookup_insert.
  - eapply safe_shrink; [exact Hps | intros i Hi; by apply Hlt, elem_next |].
    intros i d v Hi Hv. destruct (Nat.lt_ge_cases i.2 v) as [? | Hle]; [done |].
    specialize (O5 i d v Hi Hv Hle). pose proof (pins_epoch _ _ _ _ _ _ _ _ Hs HG Hv).
    rewrite Hu in O2. lia.
Qed.
