(* ===== verification/CollectorDrop.v ===== *)
(** * Dropping what was taken off the lists

    [epoch_updated] after the lists were moved, [drop_and_dealloc] and
    [impl Drop for Collector]. *)
From stdpp Require Import functions.
From S2P Require Import Prelude Atomic Tag Collector CollectorInv CollectorOwn CollectorShift.

Local Open Scope Z_scope.

#[local] Existing Instance Tag.eq_dec.

(** ** The garbage is in the hands of the thread *)

Definition doom (i : instance * nat) (l : ghost) : ghost := with_doomed (i :: doomed l) l.

Lemma sound_doom_obj w s ls t l i :
  sound w s ls → ls !! t = Some l → coll i = None → (i.2 < now s)%nat → sound w s (<[t := doom i l]> ls).
Proof.
  intros [S1 S2 S3 S4 S5 S6 S7 S8 S9 S10] Hl Hi Hlt. pose proof (lookup_lt_Some _ _ _ Hl) as Hlen.
  assert (Hcase : ∀ u lu, <[t := doom i l]> ls !! u = Some lu → ∃ l0, ls !! u = Some l0 ∧ walk lu = walk l0 ∧
    (∀ c k p, claims l0 c k p ↔ claims lu c k p) ∧ (lu = l0 ∨ u = t ∧ l0 = l ∧ lu = doom i l)).
  { intros u lu Hu. destruct (decide (u = t)) as [-> | Hne].
    - rewrite list_lookup_insert_eq in Hu by done. injection Hu as <-. exists l. split_and!; [done | done | by intros c k [] | by right].
    - rewrite list_lookup_insert_ne in Hu by done. exists lu. split_and!; [done | done | done | by left]. }
  split; try done.
  - intros u lu Hu. destruct (Hcase _ _ Hu) as (l0 & Hl0 & -> & _). by apply S6.
  - intros u lu x Hu Hx. destruct (Hcase _ _ Hu) as (l0 & Hl0 & Hw & _). apply (S7 u l0); congruence.
  - intros c k p Hk Hp. destruct (S8 _ _ _ Hk Hp) as [C1 C2 C3 C4 C5]. split; try done.
    intros u Hu. destruct (C5 u Hu) as (lu & Hlu & Hcl). destruct (decide (u = t)) as [-> | Hne].
    + exists (doom i l). rewrite list_lookup_insert_eq by done. simplify_eq. split; [done |]. by destruct p.
    + exists lu. by rewrite list_lookup_insert_ne.
  - intros u lu Hu. destruct (Hcase _ _ Hu) as (l0 & Hl0 & _ & _ & [-> | (-> & -> & ->)]); [by apply S9 |].
    destruct (S9 t l Hl) as [H1 H2 H3 H4 H5 H6]. split; try done.
    + intros j Hj. apply elem_of_cons in Hj as [-> | Hj]; [| by apply H4]. split; [done |]. intros x Hx. congruence.
    + cbn. rewrite colls_cons, Hi. done.
Qed.

Lemma grace_doom_obj w s ls t l i e ga gl :
  grace w s ls e ga gl → ls !! t = Some l → safe (pins s) [i] → grace w s (<[t := doom i l]> ls) e ga gl.
Proof.
  intros [G1 G2 G3] Hl Hsafe. pose proof (lookup_lt_Some _ _ _ Hl) as Hlen. split; try done.
  intros u lu Hu. destruct (decide (u = t)) as [-> | Hne].
  - rewrite list_lookup_insert_eq in Hu by done. injection Hu as <-. destruct (G3 t l Hl) as [T1 T2 T3 T4].
    split; try done. intros j c v Hj Hv. apply elem_of_cons in Hj as [-> | Hj]; [| by apply (T2 j c v)].
    apply (Hsafe i c v); [set_solver | done].
  - rewrite list_lookup_insert_ne in Hu by done. by apply (G3 u).
Qed.

(** A collector in the garbage: it belongs to the thread from now on. *)
Definition doom_coll (i : instance * nat) (x : nat) (kx : collector) (l : ghost) : ghost :=
  doom i (with_dying (<[x := kx]> (dying l)) l).

Lemma sound_doom_coll w s ls t l i x kx c :
  sound w s ls → ls !! t = Some l → coll i = Some x → entry_ok w (now s) c i → collectors s !! x = Some kx →
  (∀ d k, collectors s !! d = Some k → x ∉ colls (lists (own k))) →
  sound (move w x (Dying t) i.2) s (<[t := doom_coll i x kx l]> ls) ∧
  (∀ e ga gl, grace w s ls e ga gl → safe (pins s) [i] →
     grace (move w x (Dying t) i.2) s (<[t := doom_coll i x kx l]> ls) e ga gl).
Proof.
  intros Hs Hl Hi [Hlt Hent] Hk Hout. destruct (Hent x Hi) as [Hp Hret].
  pose proof (so_col _ _ _ Hs _ _ _ Hk Hp) as Hok.
  destruct (col_status _ _ _ _ _ _ Hok) as [Hpin Hold].
  pose proof (so_thr _ _ _ Hs t l Hl) as HT.
  assert (Hnew : dying l !! x = None).
  { destruct (dying l !! x) eqn:Hd; [| done]. by pose proof (thr_dying _ _ _ _ HT _ _ Hd); simplify_eq. }
  split.
  - eapply (sound_shift w s ls t l _ x kx (Listed c) (Dying t)); try done; try tauto.
    + by intros u [= <-].
    + cbn. by rewrite lookup_insert_eq.
    + intros d kd pd Hne Hd. destruct pd; cbn in *; try done. by rewrite lookup_insert_ne.
    + destruct HT as [H1 H2 H3 H4 H5 H6]. split; cbn; try done.
      * intros d st f Hm. pose proof (H1 _ _ _ Hm). rewrite lookup_insert_ne; [done | intros <-; simplify_eq].
      * intros d kd Hm. pose proof (H2 _ _ Hm). rewrite lookup_insert_ne; [done | intros <-; simplify_eq].
      * intros d kd Hd. destruct (decide (d = x)) as [-> | Hne]; [by rewrite lookup_insert_eq |].
        rewrite lookup_insert_ne in Hd by done. rewrite lookup_insert_ne by done. by eapply H3.
      * intros j Hj. apply elem_of_cons in Hj as [-> | Hj].
        -- split; [done |]. intros y Hy. assert (y = x) as -> by congruence. rewrite lookup_insert_eq. eauto.
        -- destruct (H4 j Hj) as [? Hd]. split; [done |]. intros y Hy. destruct (decide (y = x)) as [-> | Hne].
           ++ rewrite lookup_insert_eq. eauto.
           ++ rewrite lookup_insert_ne by done. auto.
      * rewrite colls_cons, Hi. apply NoDup_cons. split; [| done]. intros Hx.
        apply elem_of_colls in Hx as (j & Hj & Hjx). destruct (H4 j Hj) as [_ Hd].
        destruct (Hd x Hjx) as [? ?]. congruence.
  - intros e ga gl HG Hsafe. eapply grace_shift; try done; [tauto |].
    intros [T1 T2 T3 T4]. split; try done.
    + intros j d v Hj Hv. apply elem_of_cons in Hj as [-> | Hj]; [| by apply (T2 j d v)].
      apply (Hsafe i d v); [set_solver | done].
    + intros d kd. cbn. destruct (decide (d = x)) as [-> | Hne]; [rewrite lookup_insert_eq | rewrite lookup_insert_ne by done; apply T3].
      intros [= <-] j d v Hj Hv. destruct j as [j τ]. specialize (Hold j τ Hj).
      pose proof (Hsafe i d v ltac:(set_solver) Hv). cbn. lia.
Qed.

(** ** All of it *)
Record doomed_by (s : ebr) (g : garbage) (l l' : ghost) : Prop := {
  db_mine : mine l' = mine l;
  db_tls : tls l' = tls l;
  db_spare : spare l' = spare l;
  db_walk : walk l' = walk l;
  db_rotating : rotating l' = rotating l;
  db_doomed : doomed l' = g ++ doomed l;
  db_in x : x ∈ colls g → dying l' !! x = collectors s !! x;
  db_out x : x ∉ colls g → dying l' !! x = dying l !! x;
  db_new x : x ∈ colls g → dying l !! x = None
}.

Lemma inv_doom w s ls t l c g :
  sound w s ls → ls !! t = Some l → taken w s c g →
  ∃ w' l', sound w' s (<[t := l']> ls) ∧ doomed_by s g l l' ∧
    (∀ x, x ∉ colls g → places w' !! x = places w !! x ∧ retired w' x = retired w x) ∧
    (∀ e ga gl, grace w s ls e ga gl → safe (pins s) g → grace w' s (<[t := l']> ls) e ga gl).
Proof.
  intros Hs Hl [Hnd Hent Hout]. pose proof (lookup_lt_Some _ _ _ Hl) as Hlen.
  induction g as [| i g IH].
  - exists w, l. rewrite list_insert_id by done. split_and!; try done. split; try done; intros x Hx; by apply not_elem_of_nil in Hx.
  - destruct IH as (w1 & l1 & Hs1 & Hdb & Hpl & HG1).
    { rewrite colls_cons in Hnd. destruct (coll i); [by apply NoDup_cons in Hnd as [_ ?] | done]. }
    { intros j Hj. apply Hent. by apply list_elem_of_further. }
    { intros x d k Hx. apply Hout. rewrite colls_cons. destruct (coll i); set_solver. }
    destruct (Hent i (list_elem_of_here _ _)) as [Hlt Hi].
    assert (Hl1 : <[t := l1]> ls !! t = Some l1) by (by rewrite list_lookup_insert_eq).
    rewrite colls_cons in *. destruct (coll i) as [x |] eqn:Hix.
    + apply NoDup_cons in Hnd as [Hx Hnd]. destruct (Hi x eq_refl) as [Hpx Hrx].
      destruct (Hpl x Hx) as [Hpx1 Hrx1].
      destruct (proj1 (so_dom _ _ _ Hs x)) as [kx Hkx]; [by eauto |].
      destruct (sound_doom_coll w1 s _ t l1 i x kx c Hs1 Hl1 Hix) as [Hs2 HG2]; [| done | |].
      { split; [done |]. intros y Hy. assert (y = x) as -> by congruence. by rewrite Hpx1, Hrx1. }
      { intros d k Hd. apply (Hout x d k); [apply list_elem_of_here | done]. }
      rewrite list_insert_insert_eq in Hs2. exists (move w1 x (Dying t) i.2), (doom_coll i x kx l1).
      pose proof (db_out _ _ _ _ Hdb x Hx) as Hd1.
      assert (Hd0 : dying l !! x = None).
      { destruct (dying l !! x) eqn:Hd; [| done].
        by pose proof (thr_dying _ _ _ _ (so_thr _ _ _ Hs t l Hl) _ _ Hd); simplify_eq. }
      split_and!; [done | | |].
      * destruct Hdb as [B1 B2 B3 B4 B5 B6 B7 B8 B9]. split; try done; cbn.
        -- by rewrite B6.
        -- intros y Hy. rewrite colls_cons, Hix in Hy. destruct (decide (y = x)) as [-> | Hne]; [by rewrite lookup_insert_eq |].
           rewrite lookup_insert_ne by done. apply B7. by apply elem_of_cons in Hy as [? | ?].
        -- intros y Hy. rewrite colls_cons, Hix in Hy. apply not_elem_of_cons in Hy as [Hyx Hyg]. rewrite lookup_insert_ne by done. by apply B8.
        -- intros y Hy. rewrite colls_cons, Hix in Hy. apply elem_of_cons in Hy as [-> | Hy]; [done | by apply B9].
      * intros y Hy. apply not_elem_of_cons in Hy as [Hyx Hyg]. cbn.
        rewrite lookup_insert_ne, fn_lookup_insert_ne by done. by apply Hpl.
      * intros e ga gl HG Hsafe. rewrite list_insert_insert_eq in HG2. apply HG2.
        -- apply HG1; [done |]. intros j d v Hj. apply Hsafe. by apply list_elem_of_further.
        -- intros j d v Hj. apply list_elem_of_singleton in Hj as ->. apply Hsafe, list_elem_of_here.
    + exists w1, (doom i l1). split_and!.
      * pose proof (sound_doom_obj w1 s _ t l1 i Hs1 Hl1 Hix Hlt) as Hs2. by rewrite list_insert_insert_eq in Hs2.
      * destruct Hdb as [B1 B2 B3 B4 B5 B6 B7 B8 B9]. split; try done; cbn; [by rewrite B6 | ..];
          intros y; rewrite colls_cons, Hix; auto.
      * done.
      * intros e ga gl HG Hsafe. rewrite <-(list_insert_insert_eq ls t (doom i l1) l1). apply grace_doom_obj; [| done |].
        -- apply HG1; [done |]. intros j d v Hj. apply Hsafe. by apply list_elem_of_further.
        -- intros j d v Hj. apply list_elem_of_singleton in Hj as ->. apply Hsafe, list_elem_of_here.
Qed.

(** ** Rules for the garbage in hand *)

Lemma wp_shift {A R} t (f : ebr → A * ebr) (k : A → prog ebr R) l Q :
  (∀ s ls, ls !! t = Some l → ebr_inv s ls →
     ∃ l', ebr_inv s (<[t := l']> ls) ∧ wp ebr_inv t (Act f k) l' Q) →
  wp ebr_inv t (Act f k) l Q.
Proof.
  intros H s ls Hl HI. destruct (H s ls Hl HI) as (l' & HI' & Hw).
  destruct (Hw s (<[t := l']> ls)) as (l2 & HI2 & Hk); [| done |].
  - rewrite list_lookup_insert_eq; [done | exact (lookup_lt_Some _ _ _ Hl)].
  - exists l2. by rewrite list_insert_insert_eq in HI2.
Qed.

(** The first instance in hand is let go. *)
Lemma inv_pop s ls t l i g :
  ebr_inv s ls → ls !! t = Some l → doomed l = i :: g → ebr_inv s (<[t := with_doomed g l]> ls).
Proof.
  intros (w & Hs & Hg) Hl Hd. pose proof (lookup_lt_Some _ _ _ Hl) as Hlen. exists w. split.
  - destruct Hs as [S1 S2 S3 S4 S5 S6 S7 S8 S9 S10]. split; try done.
    + intros u lu Hu. destruct (decide (u = t)) as [-> | Hne].
      * rewrite list_lookup_insert_eq in Hu by done. injection Hu as <-. exact (S6 t l Hl).
      * rewrite list_lookup_insert_ne in Hu by done. exact (S6 u lu Hu).
    + intros u lu x Hu Hx. destruct (decide (u = t)) as [-> | Hne].
      * rewrite list_lookup_insert_eq in Hu by done. injection Hu as <-. by apply (S7 t l).
      * rewrite list_lookup_insert_ne in Hu by done. by apply (S7 u lu).
    + intros c k p Hk Hp. destruct (S8 _ _ _ Hk Hp) as [C1 C2 C3 C4 C5]. split; try done.
      intros u Hu. destruct (C5 u Hu) as (lu & Hlu & Hcl). destruct (decide (u = t)) as [-> | Hne].
      * exists (with_doomed g l). rewrite list_lookup_insert_eq by done. simplify_eq. split; [done |]. by destruct p.
      * exists lu. by rewrite list_lookup_insert_ne.
    + intros u lu Hu. destruct (decide (u = t)) as [-> | Hne].
      * rewrite list_lookup_insert_eq in Hu by done. injection Hu as <-.
        destruct (S9 t l Hl) as [H1 H2 H3 H4 H5 H6]. rewrite Hd in H4, H5. split; try done; cbn.
        -- intros j Hj. apply H4. by apply list_elem_of_further.
        -- rewrite colls_cons in H5. destruct (coll i); [by apply NoDup_cons in H5 as [_ ?] | done].
      * rewrite list_lookup_insert_ne in Hu by done. by apply S9.
  - intros Hfresh. destruct (Hg Hfresh) as (Hv & e & ga & gl & He & [G1 G2 G3]). split; [done |].
    exists e, ga, gl. split; [done |]. split; try done. intros u lu Hu. destruct (decide (u = t)) as [-> | Hne].
    + rewrite list_lookup_insert_eq in Hu by done. injection Hu as <-. destruct (G3 t l Hl) as [T1 T2 T3 T4].
      split; try done. intros j c v Hj. apply T2. rewrite Hd. by apply list_elem_of_further.
    + rewrite list_lookup_insert_ne in Hu by done. by apply (G3 u).
Qed.

(** A collector that is being dropped. *)
Section Dying.
Context (w : world) (s : ebr) (ls : list ghost) (t : nat) (l : ghost) (c : nat) (k k' : collector).
Context (Hs : sound w s ls) (Hl : ls !! t = Some l) (Hd : dying l !! c = Some k).
Context (Hpin : pinned k' = None) (Hnd : NoDup (colls (lists (own k')))).
Context (Hin : ∀ i, i ∈ lists (own k') → i ∈ lists (own k)).
Context (Hempty : has_garbage (own k') = false → lists (own k') = []).

Let s' := set_collectors (<[c := k']> (collectors s)) s.
Let l' := with_dying (<[c := k']> (dying l)) l.

Lemma sound_dying_update : sound w s' (<[t := l']> ls).
Proof.
  destruct (sound_dying _ _ _ _ _ _ _ Hs Hl Hd) as (Hk & Hp & Hok).
  pose proof (so_thr _ _ _ Hs t l Hl) as [H1 H2 H3 H4 H5 H6].
  apply (sound_replace w s s' ls t l l' c k k' (Dying t)); try done.
  - right. by intros [].
  - intros i Hi. by apply (col_entries _ _ _ _ _ _ Hok), Hin.
  - cbn. by rewrite lookup_insert_eq.
  - intros d kd pd Hne _. destruct pd; cbn; try done. by rewrite lookup_insert_ne.
  - split; try done; cbn.
    + intros d kd. destruct (decide (d = c)) as [-> | Hne]; [done |]. rewrite lookup_insert_ne by done. apply H3.
    + intros i Hi. destruct (H4 i Hi) as [? Hx]. split; [done |]. intros x Hxi. destruct (decide (x = c)) as [-> | Hne].
      * rewrite lookup_insert_eq. eauto.
      * rewrite lookup_insert_ne by done. auto.
Qed.

Lemma grace_dying_update e ga gl : grace w s ls e ga gl → grace w s' (<[t := l']> ls) e ga gl.
Proof.
  intros HG. destruct (sound_dying _ _ _ _ _ _ _ Hs Hl Hd) as (Hk & Hp & Hok).
  pose proof (col_status _ _ _ _ _ _ Hok) as Hk0. cbn in Hk0.
  assert (Hps : pins_shrink s s' ga ga e) by (apply (pins_shrink_same s _ c k k'); [done | done | congruence | done]).
  destruct (gr_thread _ _ _ _ _ _ HG t l Hl) as [T1 T2 T3 T4].
  assert (Hlt : ∀ i, i ∈ lists (own k') → (i.2 < now s)%nat) by (intros i Hi; by apply (col_entries _ _ _ _ _ _ Hok), Hin).
  assert (Hsafe : ∀ g, safe (pins s) g → safe (pins s') g).
  { intros g Hg i d v Hi Hv. apply (Hg i d v Hi). unfold pins, s' in *. cbn in Hv.
    destruct (decide (d = c)) as [-> | Hne]; [rewrite lookup_insert_eq in Hv; cbn in Hv; congruence |].
    by rewrite lookup_insert_ne in Hv. }
  apply (grace_replace w s s' ls t l l' c k k' (Dying t) e ga ga gl gl); try done.
  split; try done.
  - by apply Hsafe.
  - intros d kd. cbn. destruct (decide (d = c)) as [-> | Hne].
    + rewrite lookup_insert_eq. intros [= <-]. apply Hsafe. intros i d v Hi. by apply (T3 c k Hd), Hin.
    + rewrite lookup_insert_ne by done. intros Hdd. apply Hsafe. by eapply T3.
  - intros x d f Hx Hm y u Hy Hu. apply (T4 x d f Hx Hm y u Hy). unfold pins, s' in *. cbn in Hu.
    destruct (decide (y = c)) as [-> | Hne]; [rewrite lookup_insert_eq in Hu; cbn in Hu; congruence |].
    by rewrite lookup_insert_ne in Hu.
Qed.
End Dying.

Lemma inv_dying s ls t l c k k' :
  ebr_inv s ls → ls !! t = Some l → dying l !! c = Some k → pinned k' = None → lists (own k') = lists (own k) →
  has_garbage (own k') = has_garbage (own k) →
  ebr_inv (set_collectors (<[c := k']> (collectors s)) s) (<[t := with_dying (<[c := k']> (dying l)) l]> ls).
Proof.
  intros (w & Hs & Hg) Hl Hd Hpin Hlists Hgar. destruct (sound_dying _ _ _ _ _ _ _ Hs Hl Hd) as (Hk & Hp & Hok).
  assert (Hnd : NoDup (colls (lists (own k')))) by (rewrite Hlists; apply Hok).
  assert (Hin : ∀ i, i ∈ lists (own k') → i ∈ lists (own k)) by (by rewrite Hlists).
  assert (Hempty : has_garbage (own k') = false → lists (own k') = []) by (rewrite Hlists, Hgar; apply Hok).
  exists w. split; [by eapply sound_dying_update |]. intros Hfresh.
  destruct (Hg Hfresh) as (Hv & e & ga & gl & He & HG). split; [done |]. exists e, ga, gl.
  split; [done |]. by eapply grace_dying_update.
Qed.

Lemma wp_write_dying {R} c kc φ t (k : unit → prog ebr R) l Q :
  dying l !! c = Some kc → pinned (φ kc) = pinned kc → lists (own (φ kc)) = lists (own kc) →
  has_garbage (own (φ kc)) = has_garbage (own kc) →
  wp ebr_inv t (k ()) (with_dying (<[c := φ kc]> (dying l)) l) Q →
  wp ebr_inv t (bind (write c φ) k) l Q.
Proof.
  intros Hd Hpin Hlists Hgar Hk. apply wp_on. intros s ls Hl HI. pose proof HI as (w & Hs & _).
  destruct (sound_dying _ _ _ _ _ _ _ Hs Hl Hd) as (Hkc & Hp & Hok). exists kc. split; [done |].
  eexists. split; [| exact Hk]. cbn. eapply inv_dying; try done. rewrite Hpin. apply Hok.
Qed.

(** The garbage [g] came into hand. *)
Record took (g : garbage) (l l' : ghost) : Prop := {
  to_mine : mine l' = mine l;
  to_tls : tls l' = tls l;
  to_spare : spare l' = spare l;
  to_walk : walk l' = walk l;
  to_rotating : rotating l' = rotating l;
  to_doomed : doomed l' = g ++ doomed l;
  to_nodup : NoDup (colls g);
  to_in x : x ∈ colls g → is_Some (dying l' !! x) ∧ dying l !! x = None;
  to_out x : x ∉ colls g → dying l' !! x = dying l !! x
}.

Lemma doomed_took w s ls t l l' c g w' :
  doomed_by s g l l' → taken w s c g → sound w s ls → sound w' s (<[t := l']> ls) → took g l l'.
Proof.
  intros [B1 B2 B3 B4 B5 B6 B7 B8 B9] [Hnd Hent _] Hs Hs'. split; try done.
  intros x Hx. split; [| by apply B9]. rewrite B7 by done. apply (so_dom _ _ _ Hs).
  apply elem_of_colls in Hx as (i & Hi & Hix). destruct (Hent i Hi) as [_ Hp]. destruct (Hp x Hix) as [-> _]. by eexists.
Qed.

Lemma wp_take_mine {R} c f t (k : garbage → prog ebr R) l Q :
  mine l = Some (c, announcement f, f) → 0 ≤ announcement f ≤ 2 → rotating l = true →
  (∀ l', took (next_instance_link f) (with_rotating false (with_mine (Some (c, announcement f, rotate_fields f)) l)) l' →
     wp ebr_inv t (k (next_instance_link f)) l' Q) →
  wp ebr_inv t (bind (take_garbage c) k) l Q.
Proof.
  intros Hm Hann Hr Hk. apply wp_on. intros s ls Hl (w & Hs & Hg).
  destruct (sound_active _ _ _ _ _ _ _ Hs Hl Hm Hann) as (kc & u & Hkc & Hu & Hst & Hf & Hp & Hok).
  exists kc. split; [done |]. rewrite Hf. cbn [fst snd].
  replace (id _) with (rotated s c kc) by (unfold rotated; by rewrite Hf).
  destruct (sound_rotate _ _ _ _ _ _ _ _ Hs Hl Hm Hann Hkc) as [Hs1 Htk].
  set (l1 := with_rotating false _) in *.
  assert (Hl1 : <[t := l1]> ls !! t = Some l1).
  { apply list_lookup_insert_eq, (lookup_lt_Some _ _ _ Hl). }
  destruct (inv_doom _ _ _ _ _ _ _ Hs1 Hl1 Htk) as (w' & l' & Hs2 & Hdb & _ & HG2).
  rewrite list_insert_insert_eq in Hs2, HG2. exists l'. split.
  - exists w'. split; [done |]. intros Hfresh. destruct (Hg Hfresh) as (Hv & e & ga & gl & He & HG).
    destruct (grace_rotate _ _ _ _ _ _ _ _ _ _ _ Hs Hl Hm Hann Hkc Hr HG) as [HG1 Hsafe].
    split; [done |]. exists e, ga, (<[c := ga c]> gl). split; [done |]. by apply HG2.
  - apply Hk. eapply doomed_took; [done | done | exact Hs1 |]. rewrite list_insert_insert_eq. exact Hs2.
Qed.

Lemma wp_take_dying {R} c kc t (k : garbage → prog ebr R) l Q :
  dying l !! c = Some kc →
  (∀ l', took (next_instance_link (own kc))
           (with_dying (<[c := set_own (rotate_fields (own kc)) kc]> (dying l)) l) l' →
     wp ebr_inv t (k (next_instance_link (own kc))) l' Q) →
  wp ebr_inv t (bind (take_garbage c) k) l Q.
Proof.
  intros Hd Hk. apply wp_on. intros s ls Hl (w & Hs & Hg).
  destruct (sound_dying _ _ _ _ _ _ _ Hs Hl Hd) as (Hkc & Hp & Hok).
  exists kc. split; [done |]. cbn [fst snd]. change (id _) with (rotated s c kc).
  set (k' := set_own (rotate_fields (own kc)) kc) in *. set (l1 := with_dying _ l) in *.
  assert (Hnd : NoDup (colls (lists (own k')))).
  { pose proof (col_nodup _ _ _ _ _ _ Hok) as Hnd. rewrite <-colls_lists_rotate in Hnd. by apply NoDup_app in Hnd as (? & _). }
  assert (Hin : ∀ i, i ∈ lists (own k') → i ∈ lists (own kc)) by (intros i; apply elem_rotate).
  assert (Hpin : pinned k' = None) by apply Hok.
  assert (Hemp : has_garbage (own k') = false → lists (own k') = []) by apply rotate_empty.
  pose proof (sound_dying_update _ _ _ _ _ _ _ k' Hs Hl Hd Hpin Hnd Hin Hemp) as Hs1.
  assert (Htk : taken w (rotated s c kc) c (next_instance_link (own kc))) by exact (taken_next w s (rotated s c kc) ls c kc k' (Dying t) Hs Hkc Hp eq_refl eq_refl eq_refl).
  assert (Hl1 : <[t := l1]> ls !! t = Some l1).
  { apply list_lookup_insert_eq, (lookup_lt_Some _ _ _ Hl). }
  destruct (inv_doom _ _ _ _ _ _ _ Hs1 Hl1 Htk) as (w' & l' & Hs2 & Hdb & _ & HG2).
  rewrite list_insert_insert_eq in Hs2, HG2. exists l'. split.
  - exists w'. split; [done |]. intros Hfresh. destruct (Hg Hfresh) as (Hv & e & ga & gl & He & HG).
    pose proof (grace_dying_update _ _ _ _ _ _ _ k' Hs Hl Hd Hpin Hin e ga gl HG) as HG1.
    split; [done |]. exists e, ga, gl. split; [done |]. apply HG2; [exact HG1 |].
    pose proof (tg_dying _ _ _ _ _ _ (gr_thread _ _ _ _ _ _ HG1 _ _ Hl1)) as Hsafe.
    intros i d v Hi Hv'. pose proof (tg_dying _ _ _ _ _ _ (gr_thread _ _ _ _ _ _ HG t l Hl) _ _ Hd) as Hold.
    apply (Hold i d v); [by apply elem_next |]. unfold pins in *. cbn in Hv'.
    destruct (decide (d = c)) as [-> | Hne]; [rewrite lookup_insert_eq in Hv'; cbn in Hv'; unfold k' in Hpin; cbn in Hpin; congruence |].
    by rewrite lookup_insert_ne in Hv'.
  - apply Hk. eapply doomed_took; [done | done | exact Hs1 |]. rewrite list_insert_insert_eq. exact Hs2.
Qed.

(** ** [drop_object] and [free] *)
Lemma wp_drop_object {R} o since g t (k : unit → prog ebr R) l Q :
  doomed l = (Obj o, since) :: g → wp ebr_inv t (k ()) (with_doomed g l) Q →
  wp ebr_inv t (bind (drop_object o since) k) l Q.
Proof.
  intros Hd Hk s ls Hl HI. exists (with_doomed g l). split; [| exact Hk].
  pose proof (inv_pop _ _ _ _ _ _ HI Hl Hd) as (w & Hs & Hg). destruct HI as (w0 & _ & Hg0). exists w.
  split.
  - destruct Hs as [S1 S2 S3 S4 S5 S6 S7 S8 S9 S10]. split; try done. intros u lu Hu. by destruct (S9 u lu Hu).
  - intros Hfresh. destruct (Hg Hfresh) as (Hv & e & ga & gl & He & HG). split.
    + cbn. rewrite Hv. destruct (Hg0 Hfresh) as (_ & e0 & ga0 & gl0 & _ & HG0).
      pose proof (tg_doomed _ _ _ _ _ _ (gr_thread _ _ _ _ _ _ HG0 t l Hl)) as Hsafe. rewrite Hd in Hsafe.
      unfold overtaken. rewrite (elem_of_nil_inv (filter _ _)); [done |]. intros [d kd] Hin.
      apply list_elem_of_filter in Hin as [Hmay Hin%elem_of_map_to_list].
      unfold may_reach in Hmay. cbn in Hmay. destruct (pinned kd) as [u |] eqn:Hu; [| done].
      apply Nat.leb_le in Hmay. specialize (Hsafe (Obj o, since) d u (list_elem_of_here _ _)).
      unfold pins in Hsafe. rewrite Hin in Hsafe. specialize (Hsafe Hu). cbn in Hsafe. lia.
    + exists e, ga, gl. split; [done |]. destruct HG as [G1 G2 G3]. split; [done | done |].
      intros u lu Hu. by destruct (G3 u lu Hu).
Qed.

Lemma path_delete m p cs c : c ∉ cs → path m p cs → path (delete c m) p cs.
Proof. intros Hc. apply path_frame. intros d Hd. apply lookup_delete_ne. by intros ->. Qed.

Lemma inv_free s ls t l c k :
  ebr_inv s ls → ls !! t = Some l → dying l !! c = Some k → c ∉ colls (doomed l) →
  ebr_inv (set_collectors (delete c (collectors s)) s) (<[t := with_dying (delete c (dying l)) l]> ls).
Proof.
  intros (w & Hs & Hg) Hl Hd Hdoom. pose proof (lookup_lt_Some _ _ _ Hl) as Hlen.
  destruct (sound_dying _ _ _ _ _ _ _ Hs Hl Hd) as (Hk & Hp & Hok).
  pose proof (col_status _ _ _ _ _ _ Hok) as Hpin. cbn in Hpin.
  set (w' := World (delete c (places w)) (retired w) (chain w) (locker w)). set (s' := set_collectors _ s).
  set (l' := with_dying _ l).
  assert (Hchain : c ∉ chain w).
  { intros Hc. apply (so_chain _ _ _ Hs) in Hc as (p & Hp' & Hr). by simplify_eq. }
  assert (Hpins : ∀ d u, pins s' d = Some u → pins s d = Some u).
  { intros d u. unfold pins, s'. cbn. destruct (decide (d = c)) as [-> | Hne]; [by rewrite lookup_delete_eq |].
    by rewrite lookup_delete_ne. }
  exists w'. split.
  - destruct Hs as [S1 S2 S3 S4 S5 S6 S7 S8 S9 S10]. split; try done.
    + intros d. cbn. destruct (decide (d = c)) as [-> | Hne]; [by rewrite !lookup_delete_eq |].
      by rewrite !lookup_delete_ne.
    + by apply path_delete.
    + intros d. cbn. rewrite S4. destruct (decide (d = c)) as [-> | Hne].
      * rewrite lookup_delete_eq, Hp. split; [intros (p & [= <-] & []) | by intros (p & ? & _)].
      * by rewrite lookup_delete_ne.
    + intros u lu Hu. destruct (decide (u = t)) as [-> | Hne].
      * rewrite list_lookup_insert_eq in Hu by done. injection Hu as <-. exact (S6 t l Hl).
      * rewrite list_lookup_insert_ne in Hu by done. exact (S6 u lu Hu).
    + assert (Hwalk : ∀ y, walk_ok w y → walk_ok w' y).
      { intros y [Hy1 Hy2]. split; [done |]. intros Hdd. destruct (Hy2 Hdd) as (d & cs & -> & Hc).
        exists d, cs. split; [done |]. cbn. rewrite lookup_delete_ne; [done |]. intros ->. by simplify_eq. }
      intros u lu x Hu Hx. apply Hwalk. destruct (decide (u = t)) as [-> | Hne].
      * rewrite list_lookup_insert_eq in Hu by done. injection Hu as <-. exact (S7 t l x Hl Hx).
      * rewrite list_lookup_insert_ne in Hu by done. exact (S7 u lu x Hu Hx).
    + intros d kd pd. cbn. destruct (decide (d = c)) as [-> | Hne]; [by rewrite lookup_delete_eq |].
      rewrite !lookup_delete_ne by done. intros Hkd Hpd. destruct (S8 _ _ _ Hkd Hpd) as [C1 C2 C3 C4 C5]. split; try done.
      * intros i Hi. destruct (C2 i Hi) as [Hn Hx]. split; [done |]. intros x Hxi. destruct (Hx x Hxi) as [Hx1 Hx2].
        split; [| done]. cbn. rewrite lookup_delete_ne; [done |]. intros ->. by simplify_eq.
      * intros u Hu. destruct (C5 u Hu) as (lu & Hlu & Hcl). destruct (decide (u = t)) as [-> | Hnu].
        -- exists l'. rewrite list_lookup_insert_eq by done. simplify_eq. split; [done |].
           destruct pd; cbn in *; try done. by rewrite lookup_delete_ne.
        -- exists lu. by rewrite list_lookup_insert_ne.
    + intros u lu Hu. destruct (decide (u = t)) as [-> | Hne].
      * rewrite list_lookup_insert_eq in Hu by done. injection Hu as <-. destruct (S9 t l Hl) as [H1 H2 H3 H4 H5 H6].
        split; try done; cbn.
        -- intros d st f Hm. pose proof (H1 _ _ _ Hm). rewrite lookup_delete_ne; [done |]. intros <-. by simplify_eq.
        -- intros d kd Hm. pose proof (H2 _ _ Hm). rewrite lookup_delete_ne; [done |]. intros <-. by simplify_eq.
        -- intros d kd Hm. destruct (decide (d = c)) as [-> | Hne]; [by rewrite lookup_delete_eq in Hm |].
           rewrite lookup_delete_ne in Hm by done. rewrite lookup_delete_ne by done. by eapply H3.
        -- intros i Hi. destruct (H4 i Hi) as [? Hx]. split; [done |]. intros x Hxi.
           rewrite lookup_delete_ne; [auto |]. intros <-. apply Hdoom, elem_of_colls. eauto.
      * rewrite list_lookup_insert_ne in Hu by done. destruct (S9 u lu Hu) as [H1 H2 H3 H4 H5 H6].
        split; try done; cbn.
        -- intros d st f Hm. pose proof (H1 _ _ _ Hm). rewrite lookup_delete_ne; [done |]. intros <-. by simplify_eq.
        -- intros d kd Hm. pose proof (H2 _ _ Hm). rewrite lookup_delete_ne; [done |]. intros <-. by simplify_eq.
        -- intros d kd Hm. pose proof (H3 _ _ Hm). rewrite lookup_delete_ne; [done |]. intros <-. by simplify_eq.
  - intros Hfresh. destruct (Hg Hfresh) as (Hv & e & ga & gl & He & [G1 G2 G3]). split; [done |]. exists e, ga, gl.
    split; [done |].
    assert (Hsafe : ∀ g, safe (pins s) g → safe (pins s') g) by (intros g Hg' i d u Hi Hu; by apply (Hg' i d u Hi), Hpins).
    assert (Hbnd : ∀ b g, bounded (pins s) ga b g → bounded (pins s') ga b g).
    { intros b g Hg' i d u Hi Hu. by apply (Hg' i d u Hi), Hpins. }
    split; [done | |].
    + intros d kd u Hkd Hpd. cbn in Hkd, Hpd. destruct (decide (d = c)) as [-> | Hne]; [by rewrite lookup_delete_eq in Hkd |].
      rewrite lookup_delete_ne in Hkd by done. rewrite lookup_delete_ne in Hpd by done. destruct (G2 d kd u Hkd Hpd) as [O1 O2 O3 O4 O5]. split; auto.
    + intros u lu Hu. destruct (decide (u = t)) as [-> | Hne].
      * rewrite list_lookup_insert_eq in Hu by done. injection Hu as <-. destruct (G3 t l Hl) as [T1 T2 T3 T4].
        split; try done; cbn.
        -- by apply Hsafe.
        -- intros d kd Hm. destruct (decide (d = c)) as [-> | Hne]; [by rewrite lookup_delete_eq in Hm |].
           rewrite lookup_delete_ne in Hm by done. apply Hsafe. by eapply T3.
        -- intros x d f Hx Hm y v Hy Hv'. by apply (T4 x d f Hx Hm y v Hy), Hpins.
      * rewrite list_lookup_insert_ne in Hu by done. destruct (G3 u lu Hu) as [T1 T2 T3 T4].
        split; try done; cbn.
        -- by apply Hsafe.
        -- intros d kd Hm. apply Hsafe. by eapply T3.
        -- intros x d f Hx Hm y v Hy Hv'. by apply (T4 x d f Hx Hm y v Hy), Hpins.
Qed.
