(* ===== verification/CollectorList.v ===== *)
(** * The list of all collectors

    A collector is allocated and published ([alloc]), abandoned ([pass_garbage]),
    and taken off the list by the thread that holds the lock ([try_scan]). *)
From stdpp Require Import functions.
From S2P Require Import Prelude Atomic Tag Collector CollectorInv CollectorOwn CollectorShift CollectorDrop.

Local Open Scope Z_scope.

#[local] Existing Instance Tag.eq_dec.

Lemma grace_place w w' s s' ls t l l' x p0 p1 n e ga ga' gl gl' :
  sound w s ls → grace w s ls e ga gl → ls !! t = Some l → places w !! x = Some p0 → moved w w' s s' x p1 n →
  (∀ u, holder p0 = Some u → u = t) → (∀ d, pins s' d = pins s d) → pins s x = None →
  EPOCH s' = EPOCH s → (∀ d, d ≠ x → ga' d = ga d ∧ gl' d = gl d) →
  (∀ y, y ∈ chain w' → y ∈ chain w ∨ y = x) →
  (∀ k' u, collectors s' !! x = Some k' → p1 = Owned u → own_grace (pins s) e ga' gl' x k') →
  (thread_grace w s e ga gl l → thread_grace w' s' e ga' gl' l') →
  grace w' s' (<[t := l']> ls) e ga' gl'.
Proof.
  intros Hs [G1 G2 G3] Hl Hp [M1 M2 M3 M4 M5 M6 M7] Hh0 Hpins Hpx Hep Hfr Hchain Hog Ht.
  pose proof (lookup_lt_Some _ _ _ Hl) as Hlt.
  assert (Hga : ∀ d v, pins s d = Some v → ga' d = ga d) by (intros d v Hv; apply Hfr; intros ->; congruence).
  assert (Hbnd : ∀ b g, bounded (pins s) ga b g → bounded (pins s') ga' b g).
  { intros b g Hg i d v Hi Hv. rewrite Hpins in Hv. rewrite (Hga _ _ Hv). by apply (Hg i d v). }
  assert (Hbnd' : ∀ b g, bounded (pins s) ga' b g → bounded (pins s') ga' b g).
  { intros b g Hg i d v Hi Hv. rewrite Hpins in Hv. by apply (Hg i d v). }
  assert (Hsafe : ∀ g, safe (pins s) g → safe (pins s') g).
  { intros g Hg i d v Hi Hv. rewrite Hpins in Hv. by apply (Hg i d v). }
  split; [by rewrite Hep | |].
  - intros d k' u Hk' Hd. rewrite M1 in Hd. destruct (decide (d = x)) as [-> | Hne].
    + rewrite lookup_insert_eq in Hd. injection Hd as ->.
      destruct (Hog _ _ Hk' eq_refl) as [O1 O2 O3 O4 O5]. split; auto.
    + rewrite lookup_insert_ne in Hd by done. destruct (M3 _ _ Hk') as (k & Hk & Hown & Hpin & Hsame).
      destruct (Hsame Hne) as [Hst _]. destruct (Hfr d Hne) as [Hgd Hld].
      destruct (G2 _ _ _ Hk Hd) as [O1 O2 O3 O4 O5]. split; rewrite ?Hown, ?Hpin, ?Hst, ?Hgd, ?Hld; auto.
  - intros u lu Hu. destruct (decide (u = t)) as [-> | Hne].
    + rewrite list_lookup_insert_eq in Hu by done. injection Hu as <-. eauto.
    + rewrite list_lookup_insert_ne in Hu by done. destruct (G3 u lu Hu) as [T1 T2 T3 T4]. split; auto.
      * intros d st f Hm. pose proof (thr_mine _ _ _ _ (so_thr _ _ _ Hs u lu Hu) _ _ _ Hm) as Hd.
        destruct (Hfr d) as [-> ->]; [| by eapply T1]. intros ->. rewrite Hp in Hd. injection Hd as ->. by apply Hne, Hh0.
      * intros d kd Hd. apply Hsafe. by eapply T3.
      * intros y d f Hy Hm z v Hz Hv. rewrite Hpins in Hv. rewrite Hep in Hm. rewrite (Hga _ _ Hv).
        apply (T4 y d f Hy Hm z v); [| done]. destruct (Hchain z Hz) as [? | ->]; [done | congruence].
Qed.

(** ** [alloc] *)

Definition with_new (c : nat) (s : ebr) : ebr := set_collectors (<[c := new_collector]> (collectors s)) s.

Lemma inv_box s ls t l c :
  ebr_inv s ls → ls !! t = Some l → collectors s !! c = None → spare l = None →
  ebr_inv (with_new c s) (<[t := with_spare (Some (c, new_collector)) l]> ls).
Proof.
  intros (w & Hs & Hg) Hl Hc Hsp. pose proof (lookup_lt_Some _ _ _ Hl) as Hlen.
  assert (Hpc : places w !! c = None).
  { destruct (places w !! c) eqn:Hp; [| done]. destruct (proj1 (so_dom _ _ _ Hs c)) as [? ?]; [by eexists | congruence]. }
  set (w' := World (<[c := Fresh t]> (places w)) (retired w) (chain w) (locker w)).
  set (l' := with_spare _ l).
  assert (Hold : ∀ d p, places w !! d = Some p → places w' !! d = Some p).
  { intros d p Hd. cbn. rewrite lookup_insert_ne; [done | by intros ->; congruence]. }
  assert (Hchain : c ∉ chain w).
  { intros Hin. apply (so_chain _ _ _ Hs) in Hin as (p & Hp & _). congruence. }
  assert (Hpins : ∀ d, pins (with_new c s) d = pins s d).
  { intros d. unfold pins. cbn. destruct (decide (d = c)) as [-> | Hne]; [by rewrite lookup_insert_eq, Hc |].
    by rewrite lookup_insert_ne. }
  exists w'. split.
  - destruct Hs as [S1 S2 S3 S4 S5 S6 S7 S8 S9 S10]. split; try done.
    + intros d. cbn. destruct (decide (d = c)) as [-> | Hne]; [rewrite !lookup_insert_eq; split; eauto |].
      by rewrite !lookup_insert_ne.
    + eapply path_frame; [| done]. intros d Hd. apply lookup_insert_ne. by intros ->.
    + intros d. cbn. rewrite S4. destruct (decide (d = c)) as [-> | Hne].
      * rewrite lookup_insert_eq, Hpc. split; [by intros (p & ? & _) | by intros (p & [= <-] & [])].
      * by rewrite lookup_insert_ne.
    + intros u lu Hu. destruct (decide (u = t)) as [-> | Hne].
      * rewrite list_lookup_insert_eq in Hu by done. injection Hu as <-. exact (S6 t l Hl).
      * rewrite list_lookup_insert_ne in Hu by done. exact (S6 u lu Hu).
    + assert (Hwalk : ∀ y, walk_ok w y → walk_ok w' y).
      { intros y [Hy1 Hy2]. split; [done |]. intros Hd. destruct (Hy2 Hd) as (d & cs & -> & Hdp).
        exists d, cs. split; [done |]. by apply Hold. }
      intros u lu y Hu Hy. apply Hwalk. destruct (decide (u = t)) as [-> | Hne].
      * rewrite list_lookup_insert_eq in Hu by done. injection Hu as <-. exact (S7 t l y Hl Hy).
      * rewrite list_lookup_insert_ne in Hu by done. exact (S7 u lu y Hu Hy).
    + intros d kd pd. cbn. destruct (decide (d = c)) as [-> | Hne].
      * rewrite !lookup_insert_eq. intros [= <-] [= <-]. split; try done; [exact (NoDup_nil_2 (A:=nat)) | |].
        -- intros i Hi. by apply not_elem_of_nil in Hi.
        -- intros u [= <-]. exists l'. by rewrite list_lookup_insert_eq.
      * rewrite !lookup_insert_ne by done. intros Hkd Hpd. destruct (S8 _ _ _ Hkd Hpd) as [C1 C2 C3 C4 C5]. split; try done.
        -- intros i Hi. destruct (C2 i Hi) as [Hn Hx]. split; [done |]. intros x Hxi. destruct (Hx x Hxi) as [Hx1 Hx2].
           split; [by apply Hold | done].
        -- intros u Hu. destruct (C5 u Hu) as (lu & Hlu & Hcl). destruct (decide (u = t)) as [-> | Hnu].
           ++ exists l'. rewrite list_lookup_insert_eq by done. simplify_eq. split; [done |].
              destruct pd; cbn in *; try done. congruence.
           ++ exists lu. by rewrite list_lookup_insert_ne.
    + intros u lu Hu. destruct (decide (u = t)) as [-> | Hne].
      * rewrite list_lookup_insert_eq in Hu by done. injection Hu as <-. destruct (S9 t l Hl) as [H1 H2 H3 H4 H5 H6].
        split; try done; eauto.
        intros d kd [= <- <-]. cbn. by rewrite lookup_insert_eq.
      * rewrite list_lookup_insert_ne in Hu by done. destruct (S9 u lu Hu) as [H1 H2 H3 H4 H5 H6]. split; try done; eauto.
  - intros Hfresh. destruct (Hg Hfresh) as (Hv & e & ga & gl & He & [G1 G2 G3]). split; [done |]. exists e, ga, gl.
    split; [done |]. split; [done | |].
    + intros d kd u Hkd Hpd. cbn in Hkd, Hpd. destruct (decide (d = c)) as [-> | Hne].
      * rewrite lookup_insert_eq in Hpd. congruence.
      * rewrite lookup_insert_ne in Hkd by done. rewrite lookup_insert_ne in Hpd by done.
        destruct (G2 d kd u Hkd Hpd) as [O1 O2 O3 O4 O5].
        split; auto; intros i y v Hi; rewrite Hpins; revert i y v Hi; [exact O3 | exact O4 | exact O5].
    + intros u lu Hu.
      assert (∃ l0, ls !! u = Some l0 ∧ mine lu = mine l0 ∧ doomed lu = doomed l0 ∧ dying lu = dying l0 ∧
        walk lu = walk l0 ∧ rotating lu = rotating l0) as (l0 & Hl0 & E1 & E2 & E3 & E4 & E5).
      { destruct (decide (u = t)) as [-> | Hne].
        - rewrite list_lookup_insert_eq in Hu by done. injection Hu as <-. by exists l.
        - rewrite list_lookup_insert_ne in Hu by done. by exists lu. }
      destruct (G3 u l0 Hl0) as [T1 T2 T3 T4]. split; rewrite ?E1, ?E2, ?E3, ?E4, ?E5; try done.
      * intros i y v Hi. rewrite Hpins. by apply T2.
      * intros d kd Hd i y v Hi. rewrite Hpins. by apply (T3 d kd Hd).
      * intros y d f Hy Hm z v Hz. rewrite Hpins. by apply (T4 y d f Hy Hm).
Qed.

(** A collector that is nowhere else is in no garbage list. *)
Lemma not_listed w s ls x p :
  sound w s ls → places w !! x = Some p → (∀ d, p ≠ Listed d) →
  ∀ d k, collectors s !! d = Some k → x ∉ colls (lists (own k)).
Proof.
  intros Hs Hp Hne d k Hk Hin. destruct (proj2 (so_dom _ _ _ Hs d)) as [pd Hpd]; [by eexists |].
  apply elem_of_colls in Hin as (i & Hi & Hix).
  destruct (col_entries _ _ _ _ _ _ (so_col _ _ _ Hs _ _ _ Hk Hpd) i Hi) as [_ Hx].
  destruct (Hx x Hix) as [Hxp _]. simplify_eq. by apply (Hne d).
Qed.

(** The threads but one are as before. *)
Lemma walks_update w w' s ls t l l' :
  sound w s ls → ls !! t = Some l → walk l' = walk l → locker w' = locker w →
  (∀ y, walk_ok w y → walk_ok w' y) →
  (∀ u lu, <[t := l']> ls !! u = Some lu → is_Some (walk lu) ↔ locker w' = Some u) ∧
  (∀ u lu y, <[t := l']> ls !! u = Some lu → walk lu = Some y → walk_ok w' y).
Proof.
  intros Hs Hl Hw Hlk Hok. pose proof (lookup_lt_Some _ _ _ Hl) as Hlen.
  assert (Hcase : ∀ u lu, <[t := l']> ls !! u = Some lu → ∃ l0, ls !! u = Some l0 ∧ walk lu = walk l0).
  { intros u lu Hu. destruct (decide (u = t)) as [-> | Hne].
    - rewrite list_lookup_insert_eq in Hu by done. injection Hu as <-. by exists l.
    - rewrite list_lookup_insert_ne in Hu by done. by exists lu. }
  split.
  - intros u lu Hu. destruct (Hcase u lu Hu) as (l0 & Hl0 & ->). rewrite Hlk. exact (so_walks _ _ _ Hs u l0 Hl0).
  - intros u lu y Hu Hy. destruct (Hcase u lu Hu) as (l0 & Hl0 & Hw0). rewrite Hw0 in Hy.
    apply Hok. exact (so_walk _ _ _ Hs u l0 y Hl0 Hy).
Qed.

Section Publish.
Context (w : world) (s : ebr) (ls : list ghost) (t : nat) (l : ghost) (c : nat).
Context (Hs : sound w s ls) (Hl : ls !! t = Some l).
Context (Hsp : spare l = Some (c, set_next_link (GLOBAL_ANCHOR s).1 new_collector)).
Context (Hm : mine l = None) (Hw : walk l = None) (Hr : rotating l = false).

Let w' := World (<[c := Owned t]> (places w)) (<[c := O]> (retired w)) (c :: chain w) (locker w).
Let s' := set_GLOBAL_ANCHOR (Some c, (GLOBAL_ANCHOR s).2) s.
Let l' := with_spare None (with_mine (Some (c, INACTIVE, own new_collector)) l).

Lemma publish_moved : moved w w' s s' c (Owned t) 0.
Proof. split; try done. intros d k Hk. exists k. split_and!; auto. Qed.

Lemma sound_publish : sound w' s' (<[t := l']> ls).
Proof.
  destruct (sound_spare _ _ _ _ _ _ _ Hs Hl Hsp) as (Hk & Hp & Hok).
  assert (Hc : c ∉ chain w).
  { intros Hc. apply (so_chain _ _ _ Hs) in Hc as (p & Hp' & Hreg). by simplify_eq. }
  assert (Hwalk : ∀ y, walk_ok w y → walk_ok w' y).
  { intros y [(pre & Hpre & Hprev) Hdead]. split.
    - exists (c :: pre). cbn. rewrite Hpre. split; [done |]. intros p Hpp. destruct (Hprev p Hpp) as [pre' ->].
      by exists (c :: pre').
    - intros Hd. destruct (Hdead Hd) as (d & cs & -> & Hdp). exists d, cs. split; [done |]. cbn.
      rewrite lookup_insert_ne; [done |]. intros ->. congruence. }
  destruct (walks_update w w' s ls t l l' Hs Hl eq_refl eq_refl Hwalk) as [Hw1 Hw2].
  pose proof (so_thr _ _ _ Hs t l Hl) as [H1 H2 H3 H4 H5 H6].
  apply (sound_place w w' s s' ls t l l' c (Fresh t) (Owned t) 0); try done.
  - apply publish_moved.
  - split; [done |]. eexists. split; [exact Hk | exact (so_path _ _ _ Hs)].
  - apply NoDup_cons. split; [done | apply Hs].
  - intros d. cbn. rewrite elem_of_cons, (so_chain _ _ _ Hs). destruct (decide (d = c)) as [-> | Hne].
    + rewrite lookup_insert_eq. split; [by exists (Owned t) | by left].
    + rewrite lookup_insert_ne by done. split; [by intros [? | ?] | by right].
  - apply (so_lock _ _ _ Hs).
  - by intros u [= <-].
  - by intros u [= <-].
  - by eapply not_listed.
  - intros k' Hk'. cbn in Hk'. rewrite Hk in Hk'. by injection Hk' as <-.
  - intros d kd pd Hne. destruct pd; cbn; try done; congruence.
  - split; try done; cbn.
    + intros d st f [= <- <- <-]. by rewrite lookup_insert_eq.
    + intros d kd Hd. pose proof (H3 _ _ Hd). rewrite lookup_insert_ne; [done | by intros <-; congruence].
Qed.

Lemma grace_publish e ga gl :
  0 ≤ e → grace w s ls e ga gl → grace w' s' (<[t := l']> ls) e (<[c := 0]> ga) (<[c := 0]> gl).
Proof.
  intros He HG. destruct (sound_spare _ _ _ _ _ _ _ Hs Hl Hsp) as (Hk & Hp & Hok).
  eapply (grace_place w w' s s' ls t l l' c (Fresh t) (Owned t) 0); try done.
  - apply publish_moved.
  - by intros u [= <-].
  - unfold pins. by rewrite Hk.
  - intros d Hd. by rewrite !fn_lookup_insert_ne.
  - intros y Hy. apply elem_of_cons in Hy as [-> | ?]; auto.
  - intros k' u Hk' _. cbn in Hk'. rewrite Hk in Hk'. injection Hk' as <-.
    split; rewrite ?fn_lookup_insert; cbn; [lia | done | ..]; intros i d v Hi; by apply not_elem_of_nil in Hi.
  - intros [T1 T2 T3 T4]. split; try done.
    + intros d st f [= <- <- <-]. cbn. rewrite Hr. by rewrite !fn_lookup_insert.
    + intros y d f Hy. cbn in Hy. congruence.
Qed.
End Publish.

Lemma inv_publish s ls t l c :
  ebr_inv s ls → ls !! t = Some l → spare l = Some (c, set_next_link (GLOBAL_ANCHOR s).1 new_collector) →
  mine l = None → walk l = None → rotating l = false →
  ebr_inv (set_GLOBAL_ANCHOR (Some c, (GLOBAL_ANCHOR s).2) s)
    (<[t := with_spare None (with_mine (Some (c, INACTIVE, own new_collector)) l)]> ls).
Proof.
  intros (w & Hs & Hg) Hl Hsp Hm Hw Hr. eexists. split; [by eapply sound_publish |].
  intros Hfresh. destruct (Hg Hfresh) as (Hv & e & ga & gl & He & HG). split; [done |].
  exists e, (<[c := 0]> ga), (<[c := 0]> gl). split; [done |]. by eapply grace_publish.
Qed.

(** ** [LOCAL_COLLECTOR] *)
Lemma inv_local s ls t l o :
  ebr_inv s ls → ls !! t = Some l →
  ebr_inv (set_LOCAL_COLLECTOR (partial_alter (λ _, o) t (LOCAL_COLLECTOR s)) s) (<[t := with_tls o l]> ls).
Proof.
  intros (w & Hs & Hg) Hl. pose proof (lookup_lt_Some _ _ _ Hl) as Hlen.
  assert (Hcase : ∀ u lu, <[t := with_tls o l]> ls !! u = Some lu → ∃ l0, ls !! u = Some l0 ∧
    lu = if decide (u = t) then with_tls o l0 else l0).
  { intros u lu Hu. destruct (decide (u = t)) as [-> | Hne].
    - rewrite list_lookup_insert_eq in Hu by done. injection Hu as <-. by exists l.
    - rewrite list_lookup_insert_ne in Hu by done. by exists lu. }
  exists w. split.
  - destruct Hs as [S1 S2 S3 S4 S5 S6 S7 S8 S9 S10]. split; try done.
    + intros u lu Hu. destruct (Hcase u lu Hu) as (l0 & Hl0 & ->).
      case_decide; exact (S6 u l0 Hl0).
    + intros u lu y Hu Hy. destruct (Hcase u lu Hu) as (l0 & Hl0 & ->).
      case_decide; exact (S7 u l0 y Hl0 Hy).
    + intros d k p Hk Hp. destruct (S8 _ _ _ Hk Hp) as [C1 C2 C3 C4 C5]. split; try done.
      intros u Hu. destruct (C5 u Hu) as (lu & Hlu & Hcl). destruct (decide (u = t)) as [-> | Hne].
      * exists (with_tls o l). rewrite list_lookup_insert_eq by done. simplify_eq. split; [done |]. by destruct p.
      * exists lu. by rewrite list_lookup_insert_ne.
    + intros u lu Hu. destruct (Hcase u lu Hu) as (l0 & Hl0 & ->). destruct (S9 u l0 Hl0) as [H1 H2 H3 H4 H5 H6].
      case_decide as Hd; [subst u | ]; split; try done; cbn.
      * by rewrite lookup_partial_alter_eq.
      * by rewrite lookup_partial_alter_ne.
  - intros Hfresh. destruct (Hg Hfresh) as (Hv & e & ga & gl & He & [G1 G2 G3]). split; [done |].
    exists e, ga, gl. split; [done |]. split; [done | done |]. intros u lu Hu.
    destruct (Hcase u lu Hu) as (l0 & Hl0 & ->). destruct (G3 u l0 Hl0) as [T1 T2 T3 T4]. by case_decide.
Qed.

(** ** [pass_garbage] *)
Section Abandon.
Context (w : world) (s : ebr) (ls : list ghost) (t : nat) (l : ghost) (c : nat) (f : fields) (k : collector).
Context (Hs : sound w s ls) (Hl : ls !! t = Some l).
Context (Hm : mine l = Some (c, Z.lor (announcement f) INACTIVE, f)) (Hann : 0 ≤ announcement f ≤ 2).
Context (Hw : walk l = None) (Hk : collectors s !! c = Some k).

Let k' := set_state (Z.lor (state k) INVALID) k.
Let w' := World (<[c := Abandoned]> (places w)) (<[c := O]> (retired w)) (chain w) (locker w).
Let s' := set_collectors (<[c := k']> (collectors s)) s.
Let l' := with_mine None l.

Lemma sound_inactive :
  pinned k = None ∧ state k = Z.lor (announcement f) INACTIVE ∧ own k = f ∧ places w !! c = Some (Owned t).
Proof.
  destruct (sound_mine _ _ _ _ _ _ _ _ Hs Hl Hm) as (k0 & Hk0 & Hst & Hf & Hp & Hok).
  rewrite Hk in Hk0. injection Hk0 as <-. split_and!; try done.
  destruct (col_status _ _ _ _ _ _ Hok) as [_ Hx]. destruct (pinned k); [| done]. exfalso.
  rewrite Hst in Hx. assert (announcement f = 0 ∨ announcement f = 1 ∨ announcement f = 2) as [Ha | [Ha | Ha]] by lia;
    rewrite Ha in Hx; vm_compute in Hx; intuition congruence.
Qed.

Lemma abandon_moved : moved w w' s s' c Abandoned 0.
Proof.
  split; try done.
  - intros d kd. cbn. destruct (decide (d = c)) as [-> | Hne].
    + rewrite lookup_insert_eq. intros [= <-]. exists k. split_and!; done.
    + rewrite lookup_insert_ne by done. intros Hd. exists kd. split_and!; auto.
  - intros d. cbn. destruct (decide (d = c)) as [-> | Hne]; [rewrite lookup_insert_eq; by eexists |].
    by rewrite lookup_insert_ne.
Qed.

Lemma sound_abandon : sound w' s' (<[t := l']> ls).
Proof.
  destruct sound_inactive as (Hpin & Hst & Hf & Hp).
  assert (Hwalk : ∀ y, walk_ok w y → walk_ok w' y).
  { intros y [Hy Hdead]. split; [done |].
    intros Hd. destruct (Hdead Hd) as (d & cs & -> & Hdp). exists d, cs. split; [done |]. cbn.
    destruct (decide (d = c)) as [-> | Hne]; [by rewrite lookup_insert_eq | by rewrite lookup_insert_ne]. }
  destruct (walks_update w w' s ls t l l' Hs Hl eq_refl eq_refl Hwalk) as [Hw1 Hw2].
  pose proof (so_thr _ _ _ Hs t l Hl) as [H1 H2 H3 H4 H5 H6].
  apply (sound_place w w' s s' ls t l l' c (Owned t) Abandoned 0); try done.
  - apply abandon_moved.
  - cbn. eapply path_insert; [exact Hk | done | apply Hs].
  - apply Hs.
  - intros d. cbn. rewrite (so_chain _ _ _ Hs). destruct (decide (d = c)) as [-> | Hne].
    + rewrite lookup_insert_eq, Hp. split; intros _; by eexists.
    + by rewrite lookup_insert_ne.
  - apply (so_lock _ _ _ Hs).
  - by intros u [= <-].
  - by eapply not_listed.
  - intros k1. cbn. rewrite lookup_insert_eq. intros [= <-]. split; [| done]. split; [done |]. cbn. rewrite Hst.
    assert (announcement f = 0 ∨ announcement f = 1 ∨ announcement f = 2) as [Ha | [Ha | Ha]] by lia; by rewrite Ha.
  - intros d kd pd Hne. destruct pd; cbn; try done. congruence.
  - split; try done; cbn.
    + intros d kd Hd. pose proof (H2 _ _ Hd). rewrite lookup_insert_ne; [done | by intros <-; congruence].
    + intros d kd Hd. pose proof (H3 _ _ Hd). rewrite lookup_insert_ne; [done | by intros <-; congruence].
Qed.

Lemma grace_abandon e ga gl : grace w s ls e ga gl → grace w' s' (<[t := l']> ls) e ga gl.
Proof.
  intros HG. destruct sound_inactive as (Hpin & Hst & Hf & Hp).
  assert (Hpins : ∀ d, pins s' d = pins s d).
  { intros d. unfold pins, s'. cbn. destruct (decide (d = c)) as [-> | Hne]; [by rewrite lookup_insert_eq, Hk |].
    by rewrite lookup_insert_ne. }
  apply (grace_place w w' s s' ls t l l' c (Owned t) Abandoned 0 e ga ga gl gl); try done.
  - apply abandon_moved.
  - by intros u [= <-].
  - unfold pins. by rewrite Hk.
  - auto.
  - intros [T1 T2 T3 T4]. split; try done.
    + intros i y v Hi. rewrite Hpins. by apply T2.
    + intros d kd Hd i y v Hi. rewrite Hpins. by apply (T3 d kd Hd).
Qed.
End Abandon.
