(* ===== verification/CollectorScan.v ===== *)
(** * The scan of the collectors

    The thread that locked the anchor walks over the list, takes abandoned
    collectors off it, and moves the epoch on ([try_scan]). *)
From stdpp Require Import functions.
From S2P Require Import Prelude Atomic Tag Collector CollectorInv CollectorOwn CollectorShift CollectorDrop CollectorList.

Local Open Scope Z_scope.

#[local] Existing Instance Tag.eq_dec.

(** ** The lock *)

Lemma thread_grace_walk w w' s s' e ga gl l y :
  thread_grace w s e ga gl l → collectors s' = collectors s → EPOCH s' = EPOCH s → chain w' = chain w →
  (∀ x c f, y = Some x → mine l = Some (c, EPOCH s, f) →
     ∀ z u, z ∈ chain w → pins s z = Some u → z ∈ w_rest x ∨ ga z = e) →
  thread_grace w' s' e ga gl (with_walk y l).
Proof.
  intros [T1 T2 T3 T4] Hcol Hep Hch Hy.
  assert (Hpins : ∀ d, pins s' d = pins s d) by (intros d; unfold pins; by rewrite Hcol).
  split; cbn; try done.
  - intros i d v Hi. rewrite Hpins. by apply T2.
  - intros d k Hd i z v Hi. rewrite Hpins. by apply (T3 d k Hd).
  - intros x c f Hx Hm z u. rewrite Hpins, Hch. rewrite Hep in Hm. by apply (Hy x c f).
Qed.

(** Only the tag of the anchor and the scan of the thread [t] change. *)
Lemma inv_anchor w s ls t l y tag lk :
  let w' := World (places w) (retired w) (chain w) lk in
  let s' := set_GLOBAL_ANCHOR ((GLOBAL_ANCHOR s).1, tag) s in
  sound w s ls → ls !! t = Some l → locked_tag tag = bool_decide (is_Some lk) →
  (is_Some y ↔ lk = Some t) → (∀ u, u ≠ t → locker w = Some u ↔ lk = Some u) →
  (∀ x, y = Some x → walk_ok w x) →
  sound w' s' (<[t := with_walk y l]> ls) ∧
  (∀ e ga gl, grace w s ls e ga gl →
     (∀ x c f, y = Some x → mine l = Some (c, EPOCH s, f) →
        ∀ z u, z ∈ chain w → pins s z = Some u → z ∈ w_rest x ∨ ga z = e) →
     grace w' s' (<[t := with_walk y l]> ls) e ga gl).
Proof.
  intros w' s' Hs Hl Htag Hy Hlk Hok. pose proof (lookup_lt_Some _ _ _ Hl) as Hlen. split.
  - destruct Hs as [S1 S2 S3 S4 S5 S6 S7 S8 S9 S10]. split; try done.
    + intros u lu Hu. destruct (decide (u = t)) as [-> | Hne].
      * rewrite list_lookup_insert_eq in Hu by done. by injection Hu as <-.
      * rewrite list_lookup_insert_ne in Hu by done. rewrite (S6 u lu Hu). by apply Hlk.
    + intros u lu x Hu Hx. assert (walk_ok w x) as [? ?]; [| by split].
      destruct (decide (u = t)) as [-> | Hne].
      * rewrite list_lookup_insert_eq in Hu by done. injection Hu as <-. by apply Hok.
      * rewrite list_lookup_insert_ne in Hu by done. exact (S7 u lu x Hu Hx).
    + intros d k p Hk Hp. destruct (S8 _ _ _ Hk Hp) as [C1 C2 C3 C4 C5]. split; try done.
      intros u Hu. destruct (C5 u Hu) as (lu & Hlu & Hcl). destruct (decide (u = t)) as [-> | Hne].
      * exists (with_walk y l). rewrite list_lookup_insert_eq by done. simplify_eq. split; [done |]. by destruct p.
      * exists lu. by rewrite list_lookup_insert_ne.
    + intros u lu Hu.
      assert (∃ l0, ls !! u = Some l0 ∧ (lu = l0 ∨ lu = with_walk y l0)) as (l0 & Hl0 & Hlu).
      { destruct (decide (u = t)) as [-> | Hne].
        - rewrite list_lookup_insert_eq in Hu by done. injection Hu as <-. exists l. auto.
        - rewrite list_lookup_insert_ne in Hu by done. exists lu. auto. }
      destruct (S9 u l0 Hl0) as [H1 H2 H3 H4 H5 H6]. by destruct Hlu as [-> | ->].
  - intros e ga gl [G1 G2 G3] Hwalk. split; [done | done |]. intros u lu Hu. destruct (decide (u = t)) as [-> | Hne].
    + rewrite list_lookup_insert_eq in Hu by done. injection Hu as <-. apply (thread_grace_walk w w' s s'); [exact (G3 t l Hl) | done | done | done | exact Hwalk].
    + rewrite list_lookup_insert_ne in Hu by done. by destruct (G3 u lu Hu).
Qed.

Lemma list_head_lookup {A} (p : list A) : head p = p !! 0%nat.
Proof. by destruct p. Qed.

Lemma path_head m p cs : path m p cs → p = head cs.
Proof. destruct cs; [done | by intros [? _]]. Qed.

Lemma path_app m p pre x cs :
  path m p (pre ++ x :: cs) → ∃ k, m !! x = Some k ∧ path m (next_link k) cs.
Proof.
  revert p. induction pre as [| y pre IH]; intros p; cbn.
  - by intros [_ ?].
  - intros (_ & k & _ & Hp). by eapply IH.
Qed.

Lemma wp_lock {R} t (k : (option nat * Tag.t) + (option nat * Tag.t) → prog ebr R) l Q :
  walk l = None →
  (∀ p, wp ebr_inv t (k (inr p)) l Q) →
  (∀ tag cs, wp ebr_inv t (k (inl (head cs, tag))) (with_walk (Some (Walking None cs false)) l) Q) →
  wp ebr_inv t (bind (fetch_update GLOBAL_ANCHOR set_GLOBAL_ANCHOR lock_anchor) k) l Q.
Proof.
  intros Hw Hko Hok s ls Hl HI. cbn. destruct (lock_anchor (GLOBAL_ANCHOR s)) as [a |] eqn:Ha.
  - destruct HI as (w & Hs & Hg). unfold lock_anchor in Ha.
    assert (locked_tag (GLOBAL_ANCHOR s).2 = false ∧ a = ((GLOBAL_ANCHOR s).1, Tag.First)) as [Hun ->].
    { by destruct ((GLOBAL_ANCHOR s).2); simplify_eq. }
    assert (Hnone : locker w = None).
    { pose proof (so_lock _ _ _ Hs) as Hlk. rewrite Hun in Hlk. symmetry in Hlk.
      apply bool_decide_eq_false in Hlk. destruct (locker w); [| done]. by destruct Hlk; eexists. }
    pose proof (path_head _ _ _ (so_path _ _ _ Hs)) as Hhead.
    destruct (inv_anchor w s ls t l (Some (Walking None (chain w) false)) Tag.First (Some t) Hs Hl) as [Hs' HG'].
    { done. }
    { split; [done | by eexists]. }
    { intros u Hne. rewrite Hnone. split; [done | congruence]. }
    { intros x [= <-]. split; [by exists [] | done]. }
    exists (with_walk (Some (Walking None (chain w) false)) l). cbn [fst snd]. split.
    + eexists. split; [exact Hs' |]. intros Hfresh. destruct (Hg Hfresh) as (Hv & e & ga & gl & He & HG).
      split; [done |]. exists e, ga, gl. split; [done |]. apply HG'; [done |]. intros x c f [= <-] _ z u Hz _. by left.
    + rewrite (surjective_pairing (GLOBAL_ANCHOR s)), Hhead. apply Hok.
  - exists l. cbn [fst snd]. rewrite list_insert_id by done. auto.
Qed.

(** [unlock] and [mark_scan_enforced] *)
Lemma locked_walk w s ls t l x :
  sound w s ls → ls !! t = Some l → walk l = Some x → locker w = Some t ∧ locked_tag (GLOBAL_ANCHOR s).2 = true.
Proof.
  intros Hs Hl Hx. assert (locker w = Some t) as Hlk by (apply (so_walks _ _ _ Hs t l Hl); by eexists).
  split; [done |]. rewrite (so_lock _ _ _ Hs), Hlk. by apply bool_decide_eq_true_2; eexists.
Qed.

Lemma wp_unlock n t l (Q : unit → ghost → Prop) :
  is_Some (walk l) → Q () (with_walk None l) → wp ebr_inv t (unlock n) l Q.
Proof.
  intros [x Hx] HQ. unfold unlock. eapply (wp_loop _ _ _ _ (λ _ l', l' = l)); [done |]. intros _ l0 ->.
  intros s ls Hl (w & Hs & Hg). cbn.
  destruct (locked_walk _ _ _ _ _ _ Hs Hl Hx) as [Hlk Htag].
  destruct (inv_anchor w s ls t l None (unlock_tag (GLOBAL_ANCHOR s).2) None Hs Hl) as [Hs' HG'].
  { by destruct ((GLOBAL_ANCHOR s).2). }
  { split; [by intros [? ?] | done]. }
  { intros u Hne. rewrite Hlk. split; [congruence | done]. }
  { done. }
  exists (with_walk None l). split.
  - eexists. split; [exact Hs' |]. intros Hfresh. destruct (Hg Hfresh) as (Hv & e & ga & gl & He & HG).
    split; [done |]. exists e, ga, gl. split; [done |]. by apply HG'.
  - rewrite Htag. exact HQ.
Qed.

Lemma with_walk_id l : with_walk (walk l) l = l.
Proof. by destruct l. Qed.

Lemma wp_mark_scan_enforced t l (Q : unit → ghost → Prop) : Q () l → wp ebr_inv t mark_scan_enforced l Q.
Proof.
  intros HQ s ls Hl HI. cbn. set (o := match (GLOBAL_ANCHOR s).2 with Tag.None => _ | _ => _ end).
  assert (Hcase : o = None ∨ ∃ tag, o = Some ((GLOBAL_ANCHOR s).1, tag) ∧ locked_tag tag = locked_tag (GLOBAL_ANCHOR s).2).
  { subst o. destruct ((GLOBAL_ANCHOR s).2); [right | right | left | left]; try done; by eexists. }
  exists l. destruct Hcase as [-> | (tag & -> & Htag)]; [by rewrite list_insert_id |].
  split; [| done]. destruct HI as (w & Hs & Hg).
  destruct (inv_anchor w s ls t l (walk l) tag (locker w) Hs Hl) as [Hs' HG'].
  { by rewrite Htag, (so_lock _ _ _ Hs). }
  { exact (so_walks _ _ _ Hs t l Hl). }
  { done. }
  { intros x Hx. exact (so_walk _ _ _ Hs t l x Hl Hx). }
  rewrite with_walk_id in Hs', HG'. cbn [fst snd]. eexists. split; [exact Hs' |].
  intros Hfresh. destruct (Hg Hfresh) as (Hv & e & ga & gl & He & HG).
  split; [done |]. exists e, ga, gl. split; [done |]. apply HG'; [done |].
  intros x c f Hx Hm. exact (tg_walk _ _ _ _ _ _ (gr_thread _ _ _ _ _ _ HG t l Hl) x c f Hx Hm).
Qed.

(** ** Steps of the walk *)

Lemma set_GLOBAL_ANCHOR_id s : set_GLOBAL_ANCHOR ((GLOBAL_ANCHOR s).1, (GLOBAL_ANCHOR s).2) s = s.
Proof. destruct s as [e [p tag] m lc n st v]. done. Qed.

(** The collectors that the walk leaves behind do not hold the epoch back. *)
Lemma inv_walk s ls t l x y :
  ebr_inv s ls → ls !! t = Some l → walk l = Some x →
  (∀ w, sound w s ls → walk_ok w x → walk_ok w y) →
  (∀ w e ga gl c f z u, sound w s ls → grace w s ls e ga gl → mine l = Some (c, EPOCH s, f) →
     z ∈ w_rest x → pins s z = Some u → z ∈ w_rest y ∨ ga z = e) →
  ebr_inv s (<[t := with_walk (Some y) l]> ls).
Proof.
  intros (w & Hs & Hg) Hl Hx Hok Hleft. destruct (locked_walk _ _ _ _ _ _ Hs Hl Hx) as [Hlk Htag].
  destruct (inv_anchor w s ls t l (Some y) (GLOBAL_ANCHOR s).2 (locker w) Hs Hl) as [Hs' HG'].
  { by rewrite (so_lock _ _ _ Hs). }
  { split; [done | by eexists]. }
  { done. }
  { intros x' [= <-]. apply (Hok w Hs). exact (so_walk _ _ _ Hs t l x Hl Hx). }
  rewrite set_GLOBAL_ANCHOR_id in Hs', HG'. eexists. split; [exact Hs' |].
  intros Hfresh. destruct (Hg Hfresh) as (Hv & e & ga & gl & He & HG).
  split; [done |]. exists e, ga, gl. split; [done |]. apply HG'; [done |].
  intros x' c f [= <-] Hm z u Hz Hu.
  destruct (tg_walk _ _ _ _ _ _ (gr_thread _ _ _ _ _ _ HG t l Hl) x c f Hx Hm z u Hz Hu) as [Hin | ?]; [| by right].
  by eapply Hleft.
Qed.

(** The collector in front of the walk. *)
Lemma walk_front w s ls t l prev x cs dead :
  sound w s ls → ls !! t = Some l → walk l = Some (Walking prev (x :: cs) dead) →
  ∃ k p, collectors s !! x = Some k ∧ next_link k = head cs ∧ places w !! x = Some p ∧ registered p ∧
    (dead = true → p = Abandoned).
Proof.
  intros Hs Hl Hx. destruct (so_walk _ _ _ Hs t l _ Hl Hx) as [(pre & Hpre & _) Hdead]. cbn in Hpre, Hdead.
  pose proof (so_path _ _ _ Hs) as Hpath. rewrite Hpre in Hpath. destruct (path_app _ _ _ _ _ Hpath) as (k & Hk & Hp).
  destruct (proj1 (so_chain _ _ _ Hs x)) as (p & Hpx & Hr); [rewrite Hpre; apply elem_of_app; right; apply list_elem_of_here |].
  exists k, p. split_and!; try done; [by apply path_head in Hp |].
  intros Hd. destruct (Hdead Hd) as (c & cs' & [= <- <-] & Hc). congruence.
Qed.

(** The collector behind the walk. *)
Lemma walk_behind w s ls t l x cs dead :
  sound w s ls → ls !! t = Some l → walk l = Some (Walking (Some x) cs dead) →
  ∃ k p, collectors s !! x = Some k ∧ next_link k = head cs ∧ places w !! x = Some p ∧ registered p ∧
    path (collectors s) (head cs) cs.
Proof.
  intros Hs Hl Hx. destruct (so_walk _ _ _ Hs t l _ Hl Hx) as [(pre & Hpre & Hprev) _]. cbn in Hpre, Hprev.
  destruct (Hprev x eq_refl) as [pre' ->]. rewrite <-app_assoc in Hpre.
  pose proof (so_path _ _ _ Hs) as Hpath. rewrite Hpre in Hpath. destruct (path_app _ _ _ _ _ Hpath) as (k & Hk & Hp).
  destruct (proj1 (so_chain _ _ _ Hs x)) as (p & Hpx & Hr); [rewrite Hpre, !elem_of_app, elem_of_cons; auto |].
  pose proof (path_head _ _ _ Hp) as Hh. rewrite Hh in Hp. by exists k, p.
Qed.

Lemma walk_advance w x cs prev dead : walk_ok w (Walking prev (x :: cs) dead) → walk_ok w (Walking (Some x) cs false).
Proof.
  intros [(pre & Hpre & _) _]. split; [| done]. cbn in *. exists (pre ++ [x]). rewrite <-app_assoc. split; [done |].
  intros p [= <-]. by exists pre.
Qed.

Lemma mod_3_pred e : e mod 3 ≠ (e - 1) mod 3.
Proof.
  intros Heq. pose proof (Z.div_mod e 3 ltac:(done)). pose proof (Z.div_mod (e - 1) 3 ltac:(done)). lia.
Qed.

(** [x] is passed: it has no guard, or announced the epoch. *)
Lemma inv_advance s ls t l prev x cs dead k c st f :
  ebr_inv s ls → ls !! t = Some l → walk l = Some (Walking prev (x :: cs) dead) →
  mine l = Some (c, st, f) → collectors s !! x = Some k → (pinned k = None ∨ state k = st) →
  ebr_inv s (<[t := with_walk (Some (Walking (Some x) cs false)) l]> ls).
Proof.
  intros HI Hl Hx Hm Hk Hpass. eapply inv_walk; try done.
  - intros w _. apply walk_advance.
  - intros w e ga gl c' f' z u Hs HG Hm' Hz Hu. assert (st = EPOCH s) as -> by congruence.
    cbn in Hz |- *. apply elem_of_cons in Hz as [-> | ?]; [right | by left].
    destruct (pins_owned _ _ _ _ _ Hs Hu) as (k0 & t0 & Hk0 & Hpk & Hp). simplify_eq.
    destruct (gr_own _ _ _ _ _ _ HG _ _ _ Hk Hp) as [O1 O2 _ _ _]. rewrite Hpk in O2.
    destruct Hpass as [? | Hst]; [congruence |]. rewrite Hst, (gr_epoch _ _ _ _ _ _ HG) in O2.
    destruct O2 as [O2 O2']. destruct (decide (ga x = e - 1)) as [Heq | ?]; [| lia].
    exfalso. rewrite Heq in O2. by apply (mod_3_pred e).
Qed.

(** ** An abandoned collector is taken off the list *)

Lemma path_remove m p0 pre p x cs kp kx :
  NoDup (pre ++ p :: x :: cs) → m !! p = Some kp → m !! x = Some kx →
  path m p0 (pre ++ p :: x :: cs) →
  path (<[p := set_next_link (next_link kx) kp]> m) p0 (pre ++ p :: cs).
Proof.
  intros Hnd Hp Hx. revert p0 Hnd. induction pre as [| y pre IH]; intros p0 Hnd; cbn.
  - intros (-> & k & Hk & _ & k' & Hk' & Hpath). simplify_eq. split; [done |].
    eexists. rewrite lookup_insert_eq. split; [done |]. cbn. eapply path_frame; [| exact Hpath].
    intros z Hz. apply lookup_insert_ne. intros ->. cbn in Hnd. apply NoDup_cons in Hnd as [Hin _]. apply Hin.
    by apply list_elem_of_further.
  - intros (-> & k & Hk & Hpath). split; [done |]. cbn in Hnd. apply NoDup_cons in Hnd as [Hy Hnd].
    exists k. rewrite lookup_insert_ne; [split; [done | by apply IH] |].
    intros ->. apply Hy, elem_of_app. right. apply list_elem_of_here.
Qed.

Section Unlink.
Context (w : world) (s s' : ebr) (ls : list ghost) (t : nat) (l : ghost) (x : nat) (cs pre : list nat) (kx : collector).
Context (prev : option nat).
Context (Hs : sound w s ls) (Hl : ls !! t = Some l).
Context (Hx : walk l = Some (Walking prev (x :: cs) true)) (Hsp : spare l = None).
Context (Hchain : chain w = pre ++ x :: cs) (Hkx : collectors s' !! x = Some kx).

Let w' := World (<[x := Fresh t]> (places w)) (<[x := O]> (retired w)) (pre ++ cs) (locker w).
Let l' := with_spare (Some (x, kx)) (with_walk (Some (Walking prev cs false)) l).

Context (Hmoved : moved w w' s s' x (Fresh t) 0).
Context (Hpath : path (collectors s') (GLOBAL_ANCHOR s').1 (pre ++ cs)).
Context (Htag : (GLOBAL_ANCHOR s').2 = (GLOBAL_ANCHOR s).2) (Hep : EPOCH s' = EPOCH s).
Context (Hprev : ∀ p, prev = Some p → ∃ pre', pre = pre' ++ [p]).

Lemma unlink_place : places w !! x = Some Abandoned ∧ pins s x = None ∧ pinned kx = None.
Proof.
  destruct (walk_front _ _ _ _ _ _ _ _ _ Hs Hl Hx) as (k & p & Hk & _ & Hp & _ & Hab).
  rewrite (Hab eq_refl) in Hp. clear Hab.
  pose proof (col_status _ _ _ _ _ _ (so_col _ _ _ Hs _ _ _ Hk Hp)) as [Hpin _].
  destruct (mv_col _ _ _ _ _ _ _ Hmoved _ _ Hkx) as (k0 & Hk0 & _ & Hpin0 & _). rewrite Hk in Hk0. injection Hk0 as <-.
  split_and!; [done | | congruence]. unfold pins. by rewrite Hk.
Qed.

Lemma sound_unlink : sound w' s' (<[t := l']> ls).
Proof.
  destruct unlink_place as (Hp & Hpin & Hkpin). destruct (locked_walk _ _ _ _ _ _ Hs Hl Hx) as [Hlk _].
  pose proof (lookup_lt_Some _ _ _ Hl) as Hlen. pose proof (so_thr _ _ _ Hs t l Hl) as [H1 H2 H3 H4 H5 H6].
  pose proof (so_nodup _ _ _ Hs) as Hnd. rewrite Hchain in Hnd.
  assert (Hnd' : NoDup (pre ++ cs) ∧ x ∉ pre ++ cs).
  { rewrite <-Permutation_middle in Hnd. apply NoDup_cons in Hnd as [? ?]. done. }
  destruct Hnd' as [Hnd' Hxn].
  apply (sound_place w w' s s' ls t l l' x Abandoned (Fresh t) 0); try done.
  - intros d. cbn. destruct (decide (d = x)) as [-> | Hne].
    + rewrite lookup_insert_eq. split; [done | by intros (p & [= <-] & [])].
    + rewrite lookup_insert_ne by done. rewrite <-(so_chain _ _ _ Hs), Hchain, !elem_of_app, elem_of_cons. tauto.
  - rewrite Htag. exact (so_lock _ _ _ Hs).
  - intros u lu Hu. destruct (decide (u = t)) as [-> | Hne].
    + rewrite list_lookup_insert_eq in Hu by done. injection Hu as <-. cbn. split; [done | by eexists].
    + rewrite list_lookup_insert_ne in Hu by done. exact (so_walks _ _ _ Hs u lu Hu).
  - intros u lu y Hu Hy. destruct (decide (u = t)) as [-> | Hne].
    + rewrite list_lookup_insert_eq in Hu by done. injection Hu as <-. injection Hy as <-.
      split; [| done]. exists pre. split; [done | exact Hprev].
    + rewrite list_lookup_insert_ne in Hu by done. exfalso. apply Hne.
      assert (locker w = Some u) as Hlu by (apply (so_walks _ _ _ Hs u lu Hu); by eexists). congruence.
  - by intros u [= <-].
  - by eapply not_listed.
  - intros k' Hk'. rewrite Hkx in Hk'. injection Hk' as <-. done.
  - intros d kd pd Hne. destruct pd; cbn; try done. by rewrite Hsp.
  - split; cbn; rewrite ?(mv_local _ _ _ _ _ _ _ Hmoved), ?(mv_now _ _ _ _ _ _ _ Hmoved); try done.
    + intros d st f Hd. pose proof (H1 _ _ _ Hd). rewrite lookup_insert_ne; [done | by intros <-; congruence].
    + intros d kd [= <- <-]. by rewrite lookup_insert_eq.
    + intros d kd Hd. pose proof (H3 _ _ Hd). rewrite lookup_insert_ne; [done | by intros <-; congruence].
Qed.

Lemma unlink_pins d : pins s' d = pins s d.
Proof.
  unfold pins. destruct (collectors s' !! d) as [k' |] eqn:Hk'.
  - destruct (mv_col _ _ _ _ _ _ _ Hmoved _ _ Hk') as (k & -> & _ & Hpin & _). cbn. done.
  - destruct (collectors s !! d) as [k |] eqn:Hk; [| done].
    destruct (mv_dom _ _ _ _ _ _ _ Hmoved d) as [? ?]; [by eexists | congruence].
Qed.

Lemma grace_unlink e ga gl : grace w s ls e ga gl → grace w' s' (<[t := l']> ls) e ga gl.
Proof.
  intros HG. destruct unlink_place as (Hp & Hpin & Hkpin).
  apply (grace_place w w' s s' ls t l l' x Abandoned (Fresh t) 0 e ga ga gl gl); try done.
  - exact unlink_pins.
  - intros y Hy. left. rewrite Hchain. cbn in Hy. rewrite elem_of_app in Hy. rewrite elem_of_app, elem_of_cons. tauto.
  - intros [T1 T2 T3 T4]. split; try done.
    + intros i y v Hi. rewrite unlink_pins. by apply T2.
    + intros d kd Hd i y v Hi. rewrite unlink_pins. by apply (T3 d kd Hd).
    + intros y d f [= <-] Hm z v Hz Hv. rewrite unlink_pins in Hv. rewrite Hep in Hm. cbn in Hz |- *.
      destruct (T4 _ d f Hx Hm z v) as [Hin | ?]; [| done | | by right].
      * rewrite Hchain, elem_of_app, elem_of_cons. rewrite elem_of_app in Hz. tauto.
      * left. cbn in Hin. apply elem_of_cons in Hin as [-> | ?]; [congruence | done].
Qed.
End Unlink.

Lemma inv_unlink_prev s ls t l p x cs kx :
  ebr_inv s ls → ls !! t = Some l → walk l = Some (Walking (Some p) (x :: cs) true) → spare l = None →
  collectors s !! x = Some kx →
  ∃ kp, collectors s !! p = Some kp ∧
    ebr_inv (set_collectors (<[p := set_next_link (next_link kx) kp]> (collectors s)) s)
      (<[t := with_spare (Some (x, kx)) (with_walk (Some (Walking (Some p) cs false)) l)]> ls).
Proof.
  intros (w & Hs & Hg) Hl Hx Hsp Hkx.
  destruct (walk_behind _ _ _ _ _ _ _ _ Hs Hl Hx) as (kp & pp & Hkp & _ & Hpp & Hpr & _).
  exists kp. split; [done |].
  destruct (so_walk _ _ _ Hs t l _ Hl Hx) as [(pre & Hpre & Hprev) _]. cbn in Hpre, Hprev.
  destruct (Hprev p eq_refl) as [pre' Hpp']. pose proof (so_nodup _ _ _ Hs) as Hnd.
  assert (Hchain : chain w = pre' ++ p :: x :: cs) by (by rewrite Hpre, Hpp', <-app_assoc).
  assert (Hxp : x ≠ p).
  { intros ->. rewrite Hchain in Hnd. apply NoDup_app in Hnd as (_ & _ & Hnd). apply NoDup_cons in Hnd as [Hn _].
    apply Hn, list_elem_of_here. }
  set (s' := set_collectors _ s).
  set (w' := World (<[x := Fresh t]> (places w)) (<[x := O]> (retired w)) (pre ++ cs) (locker w)).
  assert (Hmoved : moved w w' s s' x (Fresh t) 0).
  { split; try done.
    - intros d kd. cbn. destruct (decide (d = p)) as [-> | Hne].
      + rewrite lookup_insert_eq. intros [= <-]. exists kp. split_and!; try done. intros _. split; [done |]. right.
        rewrite Hchain, elem_of_app, elem_of_cons. auto.
      + rewrite lookup_insert_ne by done. intros Hd. exists kd. split_and!; auto.
    - intros d. cbn. destruct (decide (d = p)) as [-> | Hne]; [rewrite lookup_insert_eq; by eexists |].
      by rewrite lookup_insert_ne. }
  assert (Hpath : path (collectors s') (GLOBAL_ANCHOR s').1 (pre ++ cs)).
  { rewrite Hpp', <-app_assoc. cbn. pose proof (so_path _ _ _ Hs) as Hpath. rewrite Hchain in Hpath, Hnd.
    by apply (path_remove _ _ pre' p x cs kp kx). }
  assert (Hkx' : collectors s' !! x = Some kx) by (cbn; by rewrite lookup_insert_ne).
  assert (Hprev' : ∀ p0, Some p = Some p0 → ∃ pre', pre = pre' ++ [p0]) by (intros p0 [= <-]; by exists pre').
  exists w'. split; [by apply (sound_unlink w s s' ls t l x cs pre kx (Some p)) |].
  intros Hfresh. destruct (Hg Hfresh) as (Hv & e & ga & gl & He & HG). split; [done |]. exists e, ga, gl. split; [done |].
  by apply (grace_unlink w s s' ls t l x cs pre kx (Some p)).
Qed.

Lemma inv_unlink_head s ls t l x cs kx :
  ebr_inv s ls → ls !! t = Some l → walk l = Some (Walking None (x :: cs) true) → spare l = None →
  collectors s !! x = Some kx → (GLOBAL_ANCHOR s).1 = Some x → next_link kx = head cs →
  ebr_inv (set_GLOBAL_ANCHOR (head cs, (GLOBAL_ANCHOR s).2) s)
      (<[t := with_spare (Some (x, kx)) (with_walk (Some (Walking None cs false)) l)]> ls).
Proof.
  intros (w & Hs & Hg) Hl Hx Hsp Hkx Hanc Hnext.
  destruct (so_walk _ _ _ Hs t l _ Hl Hx) as [(pre & Hpre & _) _]. cbn in Hpre.
  pose proof (so_nodup _ _ _ Hs) as Hnd. pose proof (so_path _ _ _ Hs) as Hpath.
  assert (pre = []) as ->.
  { pose proof (path_head _ _ _ Hpath) as Hh. rewrite Hanc, Hpre in Hh. destruct pre as [| y pre]; [done |].
    cbn in Hh. injection Hh as <-. rewrite Hpre in Hnd. cbn in Hnd. apply NoDup_cons in Hnd as [Hn _].
    destruct Hn. apply elem_of_app. right. apply list_elem_of_here. }
  cbn in Hpre. set (s' := set_GLOBAL_ANCHOR _ s).
  set (w' := World (<[x := Fresh t]> (places w)) (<[x := O]> (retired w)) ([] ++ cs) (locker w)).
  assert (Hmoved : moved w w' s s' x (Fresh t) 0).
  { split; try done. intros d kd Hd. exists kd. split_and!; auto. }
  assert (Hpath' : path (collectors s') (GLOBAL_ANCHOR s').1 ([] ++ cs)).
  { rewrite Hpre in Hpath. destruct Hpath as (_ & k & Hk & Hp). cbn. rewrite Hkx in Hk. injection Hk as <-. by rewrite <-Hnext. }
  assert (Hprev' : ∀ p0 : nat, None = Some p0 → ∃ pre', [] = pre' ++ [p0]) by done.
  exists w'. split; [by apply (sound_unlink w s s' ls t l x cs [] kx None) |].
  intros Hfresh. destruct (Hg Hfresh) as (Hv & e & ga & gl & He & HG). split; [done |]. exists e, ga, gl. split; [done |].
  by apply (grace_unlink w s s' ls t l x cs [] kx None).
Qed.

Lemma wp_unlink {R} t prev x cs (k : bool → prog ebr R) l c st f Q :
  walk l = Some (Walking prev (x :: cs) true) → spare l = None → mine l = Some (c, st, f) →
  (∀ kx, next_link kx = head cs →
     wp ebr_inv t (k true) (with_spare (Some (x, kx)) (with_walk (Some (Walking prev cs false)) l)) Q) →
  wp ebr_inv t (k false) (with_walk (Some (Walking (Some x) cs false)) l) Q →
  wp ebr_inv t (bind (unlink prev x) k) l Q.
Proof.
  intros Hx Hsp Hm Hok Hko. unfold unlink. apply wp_bind. apply wp_collector. intros s ls Hl (w & Hs & _).
  destruct (walk_front _ _ _ _ _ _ _ _ _ Hs Hl Hx) as (kx & px & Hkx & Hnext & _). exists kx. split; [done |].
  rewrite Hnext. clear s ls Hl w Hs kx px Hkx Hnext. destruct prev as [p |].
  - apply wp_on. intros s ls Hl HI. pose proof HI as (w & Hs & _).
    destruct (walk_front _ _ _ _ _ _ _ _ _ Hs Hl Hx) as (kx & px & Hkx & Hnext & _).
    destruct (inv_unlink_prev _ _ _ _ _ _ _ _ HI Hl Hx Hsp Hkx) as (kp & Hkp & HI'). exists kp. split; [done |].
    rewrite Hnext in HI'. eexists. split; [exact HI' |]. by apply Hok.
  - intros s ls Hl HI. pose proof HI as (w & Hs & _).
    destruct (walk_front _ _ _ _ _ _ _ _ _ Hs Hl Hx) as (kx & px & Hkx & Hnext & Hpx & _ & Hab).
    destruct (locked_walk _ _ _ _ _ _ Hs Hl Hx) as [_ Htag]. cbn.
    destruct (decide ((GLOBAL_ANCHOR s).1 = Some x)) as [Heq | Hne]; cbn [fst snd]; rewrite Htag.
    + eexists. split; [by apply (inv_unlink_head s ls t l x cs kx) |]. by apply Hok.
    + eexists. split; [| exact Hko]. eapply inv_advance; try done. left.
      rewrite (Hab eq_refl) in Hpx. apply (so_col _ _ _ Hs _ _ _ Hkx Hpx).
Qed.

(** It becomes garbage of the thread. *)
Lemma wp_reclaim_coll {R} c f x kx t (k : unit → prog ebr R) l Q :
  mine l = Some (c, announcement f, f) → 0 ≤ announcement f ≤ 2 → rotating l = false → spare l = Some (x, kx) →
  (∀ τ, wp ebr_inv t (k ()) (with_mine (Some (c, announcement f, reclaim_fields (Coll x, τ) f)) (with_spare None l)) Q) →
  wp ebr_inv t (bind (reclaim c (Coll x)) k) l Q.
Proof.
  intros Hm Hann Hr Hsp Hk. apply wp_on. intros s ls Hl (w & Hs & Hg). pose proof (lookup_lt_Some _ _ _ Hl) as Hlen.
  destruct (sound_active _ _ _ _ _ _ _ Hs Hl Hm Hann) as (kc & u & Hkc & Hu & Hst & Hf & Hp & Hok).
  destruct (sound_spare _ _ _ _ _ _ _ Hs Hl Hsp) as (Hkx & Hpx & Hokx).
  exists kc. split; [done |]. set (l1 := with_spare None l). set (w1 := move w x (Listed c) (now s)).
  assert (Hout : ∀ d k, collectors s !! d = Some k → x ∉ colls (lists (own k))) by (by eapply not_listed).
  pose proof (so_thr _ _ _ Hs t l Hl) as [H1 H2 H3 H4 H5 H6].
  assert (Hs1 : sound w1 s (<[t := l1]> ls)).
  { eapply (sound_shift w s ls t l l1 x kx (Fresh t) (Listed c)); try done; [tauto | tauto | by intros u0 [= <-] | | |].
    - split; [exact (col_status _ _ _ _ _ _ Hokx) |]. intros i τ Hi. rewrite fn_lookup_insert.
      destruct (col_entries _ _ _ _ _ _ Hokx _ Hi) as [Hlt _]. cbn in Hlt. lia.
    - intros d kd pd Hne. destruct pd; cbn; try done. congruence.
    - split; try done; cbn.
      + intros d st f0 Hd. pose proof (H1 _ _ _ Hd). rewrite lookup_insert_ne; [done | by intros <-; congruence].
      + intros d kd Hd. pose proof (H3 _ _ Hd). rewrite lookup_insert_ne; [done | by intros <-; congruence]. }
  assert (Hl1 : <[t := l1]> ls !! t = Some l1) by (by apply list_lookup_insert_eq).
  assert (Hx : ∀ y, coll (Coll x, now s) = Some y →
    places w1 !! y = Some (Listed c) ∧ retired w1 y = now s ∧ y ∉ colls (lists f)).
  { intros y [= <-]. cbn. rewrite lookup_insert_eq, fn_lookup_insert. split_and!; try done.
    rewrite <-Hf. by apply (Hout c kc). }
  pose proof (sound_reclaim w1 s _ t l1 c f kc (Coll x, now s) Hs1 Hl1 Hm Hann Hkc eq_refl Hx) as Hs2.
  rewrite list_insert_insert_eq in Hs2. eexists. split; [| by apply (Hk (now s))]. exists w1. split; [exact Hs2 |].
  intros Hfresh. destruct (Hg Hfresh) as (Hv & e & ga & gl & He & HG). split; [done |].
  exists e, ga, gl. split; [done |].
  assert (HG1 : grace w1 s (<[t := l1]> ls) e ga gl).
  { apply (grace_shift w s ls t l); try done; [tauto |]. intros [T1 T2 T3 T4]. by split. }
  pose proof (grace_reclaim w1 s _ t l1 c f kc (Coll x, now s) Hs1 Hl1 Hm Hann Hkc eq_refl e ga gl Hr HG1) as HG2.
  by rewrite list_insert_insert_eq in HG2.
Qed.

(** ** The epoch moves on *)

Lemma next_epoch_mod e : next_epoch (e mod 3) = (e + 1) mod 3.
Proof.
  pose proof (Z.mod_pos_bound e 3 ltac:(done)). rewrite <-Zplus_mod_idemp_l. unfold next_epoch.
  destruct (Z.eqb_spec (e mod 3) 0) as [-> | ?]; [done |]. destruct (Z.eqb_spec (e mod 3) 1) as [-> | ?]; [done |].
  assert (e mod 3 = 2) as -> by lia. done.
Qed.

Lemma next_epoch_range e : 0 ≤ next_epoch e ≤ 2.
Proof. unfold next_epoch. destruct (e =? 0), (e =? 1); lia. Qed.

Lemma next_epoch_ne e : 0 ≤ e ≤ 2 → next_epoch e ≠ e.
Proof. intros ?. unfold next_epoch. destruct (Z.eqb_spec e 0), (Z.eqb_spec e 1); lia. Qed.

Lemma inv_epoch s ls t l prev dead c f :
  ebr_inv s ls → ls !! t = Some l → walk l = Some (Walking prev [] dead) →
  mine l = Some (c, announcement f, f) → 0 ≤ announcement f ≤ 2 →
  ebr_inv (set_EPOCH (next_epoch (announcement f)) s) ls.
Proof.
  intros (w & Hs & Hg) Hl Hx Hm Hann. exists w. split.
  - destruct Hs as [S1 S2 S3 S4 S5 S6 S7 S8 S9 S10]. split; try done; [| apply next_epoch_range].
    intros u lu Hu. by destruct (S9 u lu Hu).
  - intros Hfresh. destruct (Hg Hfresh) as (Hv & e & ga & gl & He & HG). split; [done |].
    destruct (sound_active _ _ _ _ _ _ _ Hs Hl Hm Hann) as (kc & u0 & Hkc & Hu0 & Hst & Hf & Hp & Hok).
    pose proof (gr_own _ _ _ _ _ _ HG _ _ _ Hkc Hp) as [O1 O2 _ _ _]. rewrite Hu0, Hst in O2. destruct O2 as [O2 O2'].
    pose proof (gr_epoch _ _ _ _ _ _ HG) as Hep. destruct (locked_walk _ _ _ _ _ _ Hs Hl Hx) as [Hlk _].
    assert (Hwalk : ∀ e', ∀ u lu, ls !! u = Some lu → thread_grace w s e ga gl lu →
      thread_grace w (set_EPOCH (next_epoch (announcement f)) s) e' ga gl lu).
    { intros e' u lu Hu [T1 T2 T3 T4]. split; try done. intros x c' f' Hxu Hmu. exfalso.
      assert (locker w = Some u) as Hlu by (apply (so_walks _ _ _ Hs u lu Hu); by eexists).
      assert (u = t) as -> by congruence. assert (lu = l) as -> by congruence. cbn in Hmu.
      apply (next_epoch_ne (announcement f)); congruence. }
    destruct (decide (announcement f = EPOCH s)) as [Heq | Hne].
    + exists (e + 1), ga, gl. split; [lia |]. destruct HG as [G1 G2 G3]. split.
      * cbn. rewrite Heq, Hep. apply next_epoch_mod.
      * intros d kd u Hkd Hpd. destruct (G2 d kd u Hkd Hpd) as [P1 P2 P3 P4 P5]. split; try done; [lia |].
        destruct (pinned kd) as [v |] eqn:Hv'; [| done]. split; [apply P2 |].
        assert (d ∈ chain w) as Hd by (apply (so_chain _ _ _ Hs); by eexists).
        rewrite Heq in Hm.
        destruct (tg_walk _ _ _ _ _ _ (G3 t l Hl) _ c f Hx Hm d v Hd) as [Hin | ->]; [| by apply not_elem_of_nil in Hin | lia].
        unfold pins. cbn in Hkd. by rewrite Hkd.
      * intros u lu Hu. by apply (Hwalk (e + 1) u), (G3 u).
    + assert (ga c = e - 1) as Hgc.
      { destruct (decide (ga c = e)) as [Hge | ?]; [| lia]. rewrite Hge, <-Hep in O2. done. }
      exists e, ga, gl. split; [done |]. destruct HG as [G1 G2 G3]. split; [| done |].
      * cbn. rewrite O2, Hgc, next_epoch_mod. by rewrite Z.sub_add.
      * intros u lu Hu. by apply (Hwalk e u), (G3 u).
Qed.
