(* ===== verification/CollectorOps.v ===== *)
(** * The operations of a collector keep the invariant

    [try_scan], [new_guard], [end_guard], [epoch_updated], [drop_and_dealloc],
    [alloc], [pass_garbage] and the clients, among any number of threads. *)
From stdpp Require Import functions.
From S2P Require Import Prelude Atomic Tag Collector CollectorInv CollectorOwn CollectorShift CollectorDrop CollectorList CollectorScan.

Local Open Scope Z_scope.

#[local] Existing Instance Tag.eq_dec.

(** The last instruction of a program. *)
Lemma wp_tail {R} t (p : prog ebr R) l Q : wp ebr_inv t (bind p Ret) l Q → wp ebr_inv t p l Q.
Proof.
  revert l. induction p as [r | A f k IH | k IH | g k IH | | |]; intros l; cbn; auto.
  - intros Hw s ls Hl HI. destruct (Hw s ls Hl HI) as (l' & HI' & Hk). eauto.
  - intros Hw s ls Hl HI. specialize (Hw s ls Hl HI). destruct (g s); [| done].
    destruct Hw as (l' & HI' & Hk). eauto.
Qed.

(** ** A thread with a guard *)

(** The thread is between two instructions on its own collector [c]. *)
Record guarded (c : nat) (f : fields) (l : ghost) : Prop := {
  gd_mine : mine l = Some (c, announcement f, f);
  gd_range : 0 ≤ announcement f ≤ 2;
  gd_spare : spare l = None;
  gd_walk : walk l = None;
  gd_rotating : rotating l = false
}.

(** Only the garbage lists have changed. *)
Definition stable (f f' : fields) : Prop := announcement f' = announcement f ∧ num_readers f' = num_readers f.

#[export] Instance stable_preorder : PreOrder stable.
Proof. split; [done |]. intros f g h [H1 H2] [H3 H4]. split; congruence. Qed.

Definition now_mine (c : nat) (f : fields) (l : ghost) : ghost := with_mine (Some (c, announcement f, f)) l.

Lemma guarded_now c f l f' : guarded c f l → announcement f' = announcement f → guarded c f' (now_mine c f' l).
Proof. intros [H1 H2 H3 H4 H5] Ha. split; cbn; rewrite ?Ha; done. Qed.

Lemma now_mine_id c f l : mine l = Some (c, announcement f, f) → now_mine c f l = l.
Proof. intros Hm. destruct l. cbn in *. by subst. Qed.

Lemma now_mine_twice c f f' l : now_mine c f' (now_mine c f l) = now_mine c f' l.
Proof. done. Qed.

Lemma with_walk_none l : walk l = None → with_walk None l = l.
Proof. intros Hw. destruct l. cbn in *. by subst. Qed.

Lemma range_cases a : 0 ≤ a ≤ 2 → a = 0 ∨ a = 1 ∨ a = 2.
Proof. lia. Qed.

Lemma active_inactive a : 0 ≤ a ≤ 2 → Z.land a INACTIVE = 0.
Proof. intros [-> | [-> | ->]]%range_cases; done. Qed.

Lemma wp_assert_announced {R} c f t (k : unit → prog ebr R) l Q :
  mine l = Some (c, announcement f, f) → 0 ≤ announcement f ≤ 2 → wp ebr_inv t (k ()) l Q →
  wp ebr_inv t (bind (assert_announced c) k) l Q.
Proof.
  intros Hm Hr Hk. unfold assert_announced. apply wp_bind. eapply wp_read_mine; [done |]. intros kc Hst Hf.
  rewrite Hst, active_inactive by done. cbn. eapply wp_read_mine; [done |]. intros kc' Hst' Hf'.
  rewrite Hst', Hf'. cbn. rewrite Z.eqb_refl. exact Hk.
Qed.

(** ** [try_scan] *)

(** The scan of the thread: the position and the lists of its collector. *)
Definition scanning (c : nat) (f : fields) (l : ghost) (p : option nat * option nat) (l' : ghost) : Prop :=
  ∃ f' cs, stable f f' ∧ p.2 = head cs ∧ l' = with_walk (Some (Walking p.1 cs false)) (now_mine c f' l).

Lemma wp_collector_shift {A R} (c : nat) (f : collector → A) t (k : A → prog ebr R) l Q :
  (∀ s ls, ls !! t = Some l → ebr_inv s ls →
     ∃ kc, collectors s !! c = Some kc ∧
       ∃ l', ebr_inv s (<[t := l']> ls) ∧ wp ebr_inv t (k (f kc)) l' Q) →
  wp ebr_inv t (bind (read c f) k) l Q.
Proof.
  intros H. apply wp_on. intros s ls Hl HI. destruct (H s ls Hl HI) as (kc & Hk & l' & HI' & Hw).
  exists kc. split; [done |]. exists l'. cbn [fst snd]. by rewrite set_collectors_id.
Qed.

(** The collector [x] was passed: the link to the next one. *)
Lemma wp_next {R} x cs t (k : option nat → prog ebr R) l Q :
  walk l = Some (Walking (Some x) cs false) → wp ebr_inv t (k (head cs)) l Q →
  wp ebr_inv t (bind (read x next_link) k) l Q.
Proof.
  intros Hx Hk. apply wp_collector. intros s ls Hl (w & Hs & _).
  destruct (walk_behind _ _ _ _ _ _ _ _ Hs Hl Hx) as (kx & px & Hkx & Hnext & _). exists kx. by rewrite Hnext.
Qed.

Lemma scan_own c f cs prev t l (Q : flow (option nat * option nat) bool → ghost → Prop) :
  mine l = Some (c, announcement f, f) → 0 ≤ announcement f ≤ 2 → walk l = Some (Walking prev (c :: cs) false) →
  Q (Continue (Some c, head cs)) (with_walk (Some (Walking (Some c) cs false)) l) →
  wp ebr_inv t (let! next := read c next_link in Ret (Continue (Some c, next))) l Q.
Proof.
  intros Hm Hr Hx HQ. apply wp_collector_shift. intros s ls Hl HI. pose proof HI as (w & Hs & _).
  destruct (walk_front _ _ _ _ _ _ _ _ _ Hs Hl Hx) as (kx & px & Hkx & Hnext & _). exists kx. split; [done |].
  destruct (sound_mine _ _ _ _ _ _ _ _ Hs Hl Hm) as (k & Hk & Hst & _). eexists. split.
  - eapply inv_advance; try done. right. congruence.
  - rewrite Hnext. exact HQ.
Qed.

(** The state of another collector. *)
Lemma wp_other_state {R} prev x cs c f t (k : Z → prog ebr R) l Q :
  mine l = Some (c, announcement f, f) → 0 ≤ announcement f ≤ 2 → walk l = Some (Walking prev (x :: cs) false) →
  (∀ st,
     wp ebr_inv t (k st)
       (with_walk (Some
          (if negb (Z.land st INVALID =? 0) then Walking prev (x :: cs) true
           else if (Z.land st INACTIVE =? 0) && negb (st =? announcement f) then Walking prev (x :: cs) false
           else Walking (Some x) cs false)) l) Q) →
  wp ebr_inv t (bind (read x state) k) l Q.
Proof.
  intros Hm Hr Hx Hk. apply wp_collector_shift. intros s ls Hl HI. pose proof HI as (w & Hs & _).
  destruct (walk_front _ _ _ _ _ _ _ _ _ Hs Hl Hx) as (kx & px & Hkx & Hnext & Hpx & Hreg & _). exists kx. split; [done |].
  eexists. split; [| apply Hk].
  pose proof (col_status _ _ _ _ _ _ (so_col _ _ _ Hs _ _ _ Hkx Hpx)) as Hst.
  destruct (Z.eqb_spec (Z.land (state kx) INVALID) 0) as [Hz | Hz]; cbn [negb].
  - destruct ((Z.land (state kx) INACTIVE =? 0) && negb (state kx =? announcement f)) eqn:Hb.
    + rewrite <-Hx, with_walk_id, list_insert_id; done.
    + eapply inv_advance; try done. destruct px as [u | | | |]; try done; [| left; by destruct Hst].
      destruct Hst as [Ha Hst]. destruct (pinned kx); [right | by left].
      rewrite (active_inactive (state kx)) in Hb by done. cbn in Hb. by apply negb_false_iff, Z.eqb_eq in Hb.
  - destruct px as [u | | | |]; try done.
    + exfalso. destruct Hst as [Ha Hst]. apply Hz. destruct (pinned kx).
      * destruct (range_cases _ Hst) as [-> | [-> | ->]]; done.
      * rewrite Hst. destruct (range_cases _ Ha) as [-> | [-> | ->]]; done.
    + eapply inv_walk; try done; [| by intros; left].
      intros w' Hs' [(pre & Hpre & Hprev) _]. split; [by exists pre |]. intros _. exists x, cs. split; [done |].
      destruct (proj2 (so_dom _ _ _ Hs' x)) as [px' Hpx']; [by eexists |].
      assert (x ∈ chain w') as Hin by (rewrite Hpre; cbn; rewrite elem_of_app, elem_of_cons; auto).
      apply (so_chain _ _ _ Hs') in Hin as (p' & Hp' & Hr'). rewrite Hp'. destruct p' as [u | | | |]; try done. exfalso.
      destruct (col_status _ _ _ _ _ _ (so_col _ _ _ Hs' _ _ _ Hkx Hp')) as [Ha Hst']. apply Hz. destruct (pinned kx).
      * destruct (range_cases _ Hst') as [-> | [-> | ->]]; done.
      * rewrite Hst'. destruct (range_cases _ Ha) as [-> | [-> | ->]]; done.
Qed.

Lemma scan_body_spec c f t l p l' :
  guarded c f l → scanning c f l p l' →
  wp ebr_inv t (scan_body c (announcement f) p) l'
    (λ r l2, match r with
             | Continue p' => scanning c f l p' l2
             | Break b => ∃ q, scanning c f l q l2 ∧ (b = true → q.2 = None)
             end).
Proof.
  intros HG (f1 & cs & Hst & Hcur & ->). destruct p as [prev cur]. cbn [fst snd] in *. subst cur.
  pose proof (guarded_now c f l f1 HG (proj1 Hst)) as [Gm Gr Gs Gw Go].
  destruct cs as [| x cs]; cbn [head scan_body].
  - exists (prev, None). split; [| done]. by exists f1, [].
  - rewrite <-(proj1 Hst). case_decide as Hxc.
    + subst x. apply (scan_own c f1 cs prev); [done | done | done |]. exists f1, cs. done.
    + apply (wp_other_state prev x cs c f1); [done | done | done |]. intros st.
      destruct (negb (Z.land st INVALID =? 0)).
      * eapply (wp_unlink t prev x cs _ _ c (announcement f1) f1); [done | done | done | |].
        -- intros kx Hnext. apply wp_collector. intros s ls Hl (w & Hs & _). exists kx. split.
           { by eapply (sound_spare w s ls t _ x kx Hs Hl). }
           rewrite Hnext. eapply (wp_reclaim_coll c f1 x kx); [done | done | done | done |]. intros τ.
           exists (reclaim_fields (Coll x, τ) f1), cs. split; [destruct Hst; split; done |]. split; [done |].
           cbn. unfold now_mine, with_mine, with_spare, with_walk. cbn. by rewrite (gd_spare _ _ _ HG).
        -- eapply (wp_next x cs); [done |]. exists f1, cs. done.
      * destruct ((Z.land st INACTIVE =? 0) && negb (st =? announcement f1)).
        -- exists (prev, Some x). split; [by exists f1, (x :: cs) | done].
        -- eapply (wp_next x cs); [done |]. exists f1, cs. done.
Qed.

Lemma try_scan_spec n c f t l :
  guarded c f l →
  wp ebr_inv t (try_scan n c) l (λ _ l', ∃ f', stable f f' ∧ l' = now_mine c f' l).
Proof.
  intros HG. pose proof HG as [Gm Gr Gs Gw Go]. unfold try_scan. apply (wp_assert_announced c f); [done | done |].
  apply wp_lock; [done | intros _; exists f; by rewrite now_mine_id |]. intros tag cs.
  eapply (wp_read_mine c); [done |]. intros kc Hst Hf. rewrite Hst. cbn [fst].
  eapply wp_call; [eapply (wp_loop _ _ _ _ (scanning c f l)) with
    (Q := λ b l2, ∃ q, scanning c f l q l2 ∧ (b = true → q.2 = None))|].
  - exists f, cs. split; [done |]. split; [done |]. by rewrite now_mine_id.
  - intros p l' Hp. eapply wp_mono; [| by apply scan_body_spec].
    intros [p' | b] l2 H2; done.
  - intros b l2 (q & (f1 & cs1 & Hst1 & Hcur & ->) & Hb).
    pose proof (guarded_now c f l f1 HG (proj1 Hst1)) as [Gm1 Gr1 Gs1 Gw1 Go1].
    assert (Hunlock : wp ebr_inv t (unlock n) (with_walk (Some (Walking q.1 cs1 false)) (now_mine c f1 l))
      (λ _ l', ∃ f', stable f f' ∧ l' = now_mine c f' l)).
    { apply wp_unlock; [by eexists |]. exists f1. split; [done |]. unfold now_mine, with_mine, with_walk. cbn. by rewrite Gw. }
    destruct b; [| done]. specialize (Hb eq_refl). destruct cs1 as [| ? ?]; [| cbn in Hcur; congruence].
    rewrite <-(proj1 Hst1). intros s ls Hl HI. eexists. split; [| exact Hunlock].
    rewrite list_insert_id by done. eapply (inv_epoch s ls t _ q.1 false c f1); done.
Qed.

(** ** [end_guard] *)

Lemma end_guard_nested_spec n c f t l :
  guarded c f l → 1 < num_readers f →
  wp ebr_inv t (end_guard n c) l (λ _ l', l' = now_mine c (set_num_readers (num_readers f - 1) f) l).
Proof.
  intros HG Hn. pose proof HG as [Gm Gr Gs Gw Go]. unfold end_guard. apply (wp_assert_announced c f); [done | done |].
  eapply (wp_read_mine c); [done |]. intros kc _ ->.
  destruct (Z.eqb_spec (num_readers f) 1); [lia |]. destruct (Z.eqb_spec (num_readers f) 0); [lia |].
  apply wp_tail.
  apply (wp_modify_mine c (announcement f) f); try done. by left.
Qed.

(** The thread has no guard, and a collector or none. *)
Record resting (c : nat) (f : fields) (l : ghost) : Prop := {
  re_mine : mine l = Some (c, Z.lor (announcement f) INACTIVE, f);
  re_range : 0 ≤ announcement f ≤ 2;
  re_readers : num_readers f = 0;
  re_spare : spare l = None;
  re_walk : walk l = None;
  re_rotating : rotating l = false
}.

Definition now_resting (c : nat) (f : fields) (l : ghost) : ghost :=
  with_mine (Some (c, Z.lor (announcement f) INACTIVE, f)) l.

Lemma wp_retract {R} c f t (k : unit → prog ebr R) l Q :
  guarded c f l → wp ebr_inv t (k ()) (now_resting c f l) Q →
  wp ebr_inv t (bind (retract c) k) l Q.
Proof.
  intros [Gm Gr Gs Gw Go] Hk. apply wp_on. intros s ls Hl HI. pose proof HI as (w & Hs & _).
  destruct (sound_active _ _ _ _ _ _ _ Hs Hl Gm Gr) as (kc & u & Hkc & Hu & Hst & Hf & Hp & Hok).
  exists kc. split; [done |]. eexists. split; [| exact Hk]. cbn [fst snd]. rewrite Hf. by apply inv_retract.
Qed.

Lemma end_guard_last_spec n c f t l :
  guarded c f l → num_readers f = 1 →
  wp ebr_inv t (end_guard n c) l
    (λ _ l', ∃ f', resting c f' l' ∧ l' = now_resting c f' l).
Proof.
  intros HG Hn. pose proof HG as [Gm Gr Gs Gw Go]. unfold end_guard. apply (wp_assert_announced c f); [done | done |].
  eapply (wp_read_mine c); [done |]. intros kc _ ->. rewrite Hn. cbn [Z.eqb Pos.eqb].
  assert (Htail : ∀ f1, stable f f1 → wp ebr_inv t (retract c ;; modify c (set_num_readers 0)) (now_mine c f1 l)
    (λ _ l', ∃ f', resting c f' l' ∧ l' = now_resting c f' l)).
  { intros f1 Hf1. pose proof (guarded_now c f l f1 HG (proj1 Hf1)) as HG1. pose proof HG1 as [Gm1 Gr1 Gs1 Gw1 Go1].
    eapply wp_retract; [done |].
    apply wp_tail.
    eapply (wp_modify_mine c); try done; [by left |]. exists (set_num_readers 0 f1). split; [by split | done]. }
  assert (Hset : ∀ f1 φ, stable f f1 → stable f1 (φ f1) → lists (φ f1) = lists f1 →
    current_instance_link (φ f1) = current_instance_link f1 → previous_instance_link (φ f1) = previous_instance_link f1 →
    next_instance_link (φ f1) = next_instance_link f1 → has_garbage (φ f1) = has_garbage f1 →
    wp ebr_inv t (modify c φ) (now_mine c f1 l) (λ _ l', ∃ f', stable f f' ∧ l' = now_mine c f' l)).
  { intros f1 φ Hf1 Hφ H1 H2 H3 H4 H5. pose proof (guarded_now c f l f1 HG (proj1 Hf1)) as [Gm1 Gr1 Gs1 Gw1 Go1].
    apply wp_tail.
    eapply (wp_modify_mine c); try done; [left; apply Hφ |]. exists (φ f1). split; [by etrans |].
    unfold now_mine, with_mine. cbn. by rewrite (proj1 Hφ). }
  eapply wp_call with (Q' := λ _ l', ∃ f', stable f f' ∧ l' = now_mine c f' l);
    [| intros _ l' (f1 & Hf1 & ->); by apply Htail].
  destruct (next_epoch_update f =? 0).
  - assert (Hscan : ∀ a : option (option nat * Tag.t),
      wp ebr_inv t (if match a with Some a => bool_decide (a.2 ≠ Tag.First) | None => true end then try_scan n c else Ret ())
        l (λ _ l', ∃ f', stable f f' ∧ l' = now_mine c f' l)).
    { intros a. destruct (match a with Some a => _ | None => _ end); [by apply try_scan_spec |].
      exists f. by rewrite now_mine_id. }
    assert (Hrest : ∀ a : option (option nat * Tag.t),
      wp ebr_inv t ((if match a with Some a => bool_decide (a.2 ≠ Tag.First) | None => true end then try_scan n c else Ret ()) ;;
        modify c (λ f, set_next_epoch_update (if has_garbage f then CADENCE / 4 else CADENCE) f)) l
        (λ _ l', ∃ f', stable f f' ∧ l' = now_mine c f' l)).
    { intros a. eapply wp_call; [apply Hscan |]. intros _ l' (f1 & Hf1 & ->). by apply Hset. }
    destruct (has_garbage f); [exact (Hrest None) |]. apply wp_load. intros s ls _ _. exact (Hrest (Some _)).
  - rewrite <-(now_mine_id c f l Gm) at 1. by apply Hset.
Qed.

(** ** [new_guard] *)

Lemma inactive_bit a : 0 ≤ a ≤ 2 → Z.land (Z.lor a INACTIVE) INACTIVE = INACTIVE.
Proof. intros [-> | [-> | ->]]%range_cases; done. Qed.

Lemma wp_swap_state {R} c f e t (k : unit → prog ebr R) l Q :
  mine l = Some (c, Z.lor (announcement f) INACTIVE, f) → 0 ≤ announcement f ≤ 2 → 0 ≤ e ≤ 2 →
  walk l = None → rotating l = false →
  wp ebr_inv t (k ()) (with_rotating (negb (announcement f =? e)) (with_mine (Some (c, e, f)) l)) Q →
  wp ebr_inv t (bind (announce c e) k) l Q.
Proof.
  intros Hm Hr He Hw Hro Hk. apply wp_on. intros s ls Hl HI. pose proof HI as (w & Hs & _).
  destruct (sound_mine _ _ _ _ _ _ _ _ Hs Hl Hm) as (kc & Hkc & _). exists kc. split; [done |].
  eexists. split; [| exact Hk]. exact (inv_swap_state s ls t l c f _ e kc HI Hl Hm Hkc eq_refl Hr He Hw Hro).
Qed.

Lemma wp_epoch {R} t (k : Z → prog ebr R) l Q :
  (∀ e, 0 ≤ e ≤ 2 → wp ebr_inv t (k e) l Q) → wp ebr_inv t (bind (load EPOCH) k) l Q.
Proof. intros Hk. apply wp_load. intros s ls Hl (w & Hs & _). apply Hk, (so_epoch _ _ _ Hs). Qed.

Lemma new_guard_first_spec c f t l :
  resting c f l →
  wp ebr_inv t (new_guard c) l
    (λ b l', ∃ f', 0 ≤ announcement f' ≤ 2 ∧ num_readers f' = 1 ∧ l' = with_rotating b (now_mine c f' l)).
Proof.
  intros [Rm Rr Rn Rs Rw Ro]. unfold new_guard. eapply (wp_read_mine c); [done |]. intros kc Hst ->. rewrite Rn. cbn [Z.eqb].
  eapply (wp_read_mine c); [done |]. intros kc' -> Hf'. rewrite inactive_bit by done. cbn.
  eapply (wp_modify_mine c); try done; [by left |]. apply wp_epoch. intros e He.
  apply (wp_swap_state c (set_num_readers 1 f)); try done. eapply (wp_read_mine c); [done |]. intros kc1 _ ->. cbn [announcement set_num_readers].
  destruct (Z.eqb_spec (announcement f) e) as [Heq | Hne]; cbn [negb].
  - exists (set_num_readers 1 f). subst e. done.
  - eapply (wp_modify_mine c); try done; [by right |]. exists (set_announcement e (set_num_readers 1 f)). done.
Qed.

Lemma new_guard_nested_spec c f t l :
  guarded c f l → 0 < num_readers f < u32_max →
  wp ebr_inv t (new_guard c) l (λ b l', b = false ∧ l' = now_mine c (set_num_readers (num_readers f + 1) f) l).
Proof.
  intros [Gm Gr Gs Gw Go] Hn. unfold new_guard. eapply (wp_read_mine c); [done |]. intros kc _ ->.
  destruct (Z.eqb_spec (num_readers f) 0); [lia |]. destruct (Z.eqb_spec (num_readers f) u32_max); [lia |].
  eapply (wp_read_mine c); [done |]. intros kc' -> _. rewrite active_inactive by done. cbn.
  eapply (wp_modify_mine c); try done. by left.
Qed.

(** ** Destructors *)

Lemma wp_current {R} n c t (k : nat → prog ebr R) l Q :
  tls l = Some c → wp ebr_inv t (k c) l Q → wp ebr_inv t (bind (current n t) k) l Q.
Proof.
  intros Htls Hk. unfold current. apply wp_bind. apply wp_load. intros s ls Hl (w & Hs & _).
  rewrite (thr_tls _ _ _ _ (so_thr _ _ _ Hs t l Hl)), Htls. exact Hk.
Qed.

Lemma wp_for_each {X B R} t (xs : list X) (body : X → B → prog ebr (flow B R)) (J : list X → B → ghost → Prop) b l Q :
  J xs b l →
  (∀ x xs' b l, J (x :: xs') b l →
    wp ebr_inv t (body x b) l (λ r l', match r with Continue b' => J xs' b' l' | Break r => Q (Break r) l' end)) →
  (∀ b l, J [] b l → Q (Continue b) l) →
  wp ebr_inv t (for_each xs body b) l Q.
Proof.
  intros HJ Hbody Hend. revert b l HJ. induction xs as [| x xs IH]; intros b l HJ; cbn [for_each]; [by apply Hend |].
  eapply wp_call; [by eapply Hbody |]. intros [b' | r] l' Hr; [by apply IH | done].
Qed.

Section Destructors.
Context (retires : nat → list nat) (n t : nat).

(** A destructor retires an instance under a guard of its own. *)
Lemma retire_nested_spec c f o l :
  guarded c f l → tls l = Some c → 0 < num_readers f < u32_max →
  wp ebr_inv t
    (let! guard := new_for_drop n t in reclaim guard (Obj o) ;; end_guard n guard ;; Ret (Continue (R := unit) ()))
    l (λ r l', r = Continue () ∧ ∃ f', stable f f' ∧ l' = now_mine c f' l).
Proof.
  intros HG Htls Hn. unfold new_for_drop. apply wp_bind. apply (wp_current n c); [done |].
  eapply wp_call; [by apply new_guard_nested_spec |]. intros b l1 (-> & ->). cbn [wp].
  pose proof (guarded_now c f l (set_num_readers (num_readers f + 1) f) HG eq_refl) as HG1.
  pose proof HG1 as [Gm Gr Gs Gw Go]. eapply (wp_reclaim_obj c); [exact Gm | done | done |]. intros τ.
  set (f2 := reclaim_fields _ _). pose proof (guarded_now c _ _ f2 HG1 eq_refl) as HG2.
  eapply wp_call; [apply (end_guard_nested_spec n c f2); [exact HG2 | cbn; lia] |].
  intros _ l2 ->. split; [done |]. exists (set_num_readers (num_readers f2 - 1) f2).
  split; [| done]. split; [done |]. cbn. lia.
Qed.

(** ** The garbage in hand is dropped *)

Definition undying (i : instance * nat) (d : gmap nat collector) : gmap nat collector :=
  match coll i with Some x => delete x d | None => d end.
Definition undying_all (g : garbage) (d : gmap nat collector) : gmap nat collector := foldl (λ d i, undying i d) d g.

Lemma lookup_undying_all g d x : undying_all g d !! x = if decide (x ∈ colls g) then None else d !! x.
Proof.
  revert d. induction g as [| i g IH]; intros d; [done |]. cbn [undying_all foldl].
  change (foldl _ (undying i d) g) with (undying_all g (undying i d)). rewrite IH, colls_cons. unfold undying.
  destruct (coll i) as [y |]; [| done]. destruct (decide (x ∈ colls g)) as [Hx | Hx].
  - rewrite decide_True; [done | by apply list_elem_of_further].
  - destruct (decide (x = y)) as [-> | Hne].
    + by rewrite lookup_delete_eq, decide_True by apply list_elem_of_here.
    + rewrite lookup_delete_ne by done. rewrite decide_False; [done |]. by intros [? | ?]%elem_of_cons.
Qed.

(** The thread after it dropped [g]. *)
Definition after_drop (c : nat) (f : fields) (d : gmap nat collector) (g : garbage) (l : ghost) : ghost :=
  with_doomed g (with_dying d (now_mine c f l)).

(** What the methods of the instances have to guarantee. *)
Definition drops (dd : instance * nat → prog ebr unit) : Prop :=
  ∀ i g c f l, guarded c f l → tls l = Some c → 0 < num_readers f < u32_max → doomed l = i :: g →
    wp ebr_inv t (dd i) l (λ _ l', ∃ f', stable f f' ∧ l' = after_drop c f' (undying i (dying l)) g l).

Lemma after_drop_self c f l : mine l = Some (c, announcement f, f) → after_drop c f (dying l) (doomed l) l = l.
Proof. intros Hm. destruct l. cbn in *. by subst. Qed.

Lemma drop_all_spec dd g rest c f l :
  drops dd → guarded c f l → tls l = Some c → 0 < num_readers f < u32_max → doomed l = g ++ rest →
  wp ebr_inv t
    (let! _ := for_each (R := unit) g (λ instance_ptr _, dd instance_ptr ;; Ret (Continue ())) () in Ret ())
    l (λ _ l', ∃ f', stable f f' ∧ l' = after_drop c f' (undying_all g (dying l)) rest l).
Proof.
  intros Hdd HG Htls Hn Hd. eapply wp_call with
    (Q' := λ _ l', ∃ f', stable f f' ∧ l' = after_drop c f' (undying_all g (dying l)) rest l); [| done].
  apply (wp_for_each t g _ (λ g2 _ l', ∃ f' d, stable f f' ∧ undying_all g2 d = undying_all g (dying l) ∧
    l' = after_drop c f' d (g2 ++ rest) l)).
  - exists f, (dying l). split_and!; [done | done |]. rewrite <-Hd. symmetry. by apply after_drop_self, HG.
  - intros i g2 _ l1 (f1 & d1 & Hf1 & Hd1 & ->).
    assert (HG1 : guarded c f1 (after_drop c f1 d1 ((i :: g2) ++ rest) l)).
    { destruct HG as [Gm Gr Gs Gw Go]. split; cbn; try done. by rewrite (proj1 Hf1). }
    eapply wp_call; [apply (Hdd i (g2 ++ rest) c f1); [exact HG1 | done | by rewrite (proj2 Hf1) | done] |].
    intros _ l2 (f2 & Hf2 & ->). exists f2, (undying i d1). split_and!; [by etrans | done | done].
  - intros _ l1 (f1 & d1 & Hf1 & Hd1 & ->). cbn in Hd1. subst d1. by exists f1.
Qed.

(** Every collector that came into hand is gone again. *)
Lemma took_undying g l l' : took g l l' → undying_all g (dying l') = dying l.
Proof.
  intros Ht. apply map_eq. intros x. rewrite lookup_undying_all. case_decide as Hx.
  - by destruct (to_in _ _ _ Ht x Hx) as [_ ->].
  - by apply (to_out _ _ _ Ht).
Qed.

(** [epoch_updated] of the own collector. *)
Lemma epoch_updated_spec dd c f l :
  drops dd → mine l = Some (c, announcement f, f) → 0 ≤ announcement f ≤ 2 → spare l = None → walk l = None →
  rotating l = true → tls l = Some c → 0 < num_readers f < u32_max →
  wp ebr_inv t (epoch_updated dd c) l
    (λ _ l', ∃ f', stable f f' ∧ l' = with_rotating false (now_mine c f' l)).
Proof.
  intros Hdd Hm Hr Hs Hw Hro Htls Hn. unfold epoch_updated. apply (wp_assert_announced c f); [done | done |].
  apply (wp_take_mine c f); [done | done | done |]. intros l1 Htook. pose proof Htook as [T1 T2 T3 T4 T5 T6 T7 T8 T9].
  cbn in T1, T2, T3, T4, T5, T6.
  assert (HG : guarded c (rotate_fields f) l1) by (split; congruence || done).
  eapply wp_mono; [| apply (drop_all_spec dd (next_instance_link f) (doomed l) c (rotate_fields f) l1); try done; congruence].
  intros [] l2 (f' & Hf' & ->). exists f'. split; [exact Hf' |].
  rewrite (took_undying _ _ _ Htook). destruct l, l1. unfold after_drop, now_mine, with_doomed, with_dying, with_mine, with_rotating.
  cbn in *. congruence.
Qed.

(** [epoch_updated] of a collector that is dropped. *)
Lemma epoch_updated_dying_spec dd x kx c f l :
  drops dd → guarded c f l → tls l = Some c → 0 < num_readers f < u32_max →
  dying l !! x = Some kx → state kx = 0 → announcement (own kx) = 0 →
  wp ebr_inv t (epoch_updated dd x) l
    (λ _ l', ∃ f', stable f f' ∧
       l' = with_dying (<[x := set_own (rotate_fields (own kx)) kx]> (dying l)) (now_mine c f' l)).
Proof.
  intros Hdd HG Htls Hn Hx Hst Hann. unfold epoch_updated, assert_announced. apply wp_bind.
  eapply wp_read_dying; [exact Hx |]. rewrite Hst. cbn. eapply wp_read_dying; [exact Hx |]. rewrite Hst, Hann. cbn.
  eapply (wp_take_dying x kx); [exact Hx |]. intros l1 Htook. pose proof Htook as [T1 T2 T3 T4 T5 T6 T7 T8 T9].
  cbn in T1, T2, T3, T4, T5, T6.
  assert (HG1 : guarded c f l1) by (destruct HG as [Gm Gr Gs Gw Go]; split; congruence || done).
  eapply wp_mono; [| apply (drop_all_spec dd (next_instance_link (own kx)) (doomed l) c f l1); try done; congruence].
  intros [] l2 (f' & Hf' & ->). exists f'. split; [exact Hf' |].
  rewrite (took_undying _ _ _ Htook). destruct l, l1. unfold after_drop, now_mine, with_doomed, with_dying, with_mine.
  cbn in *. congruence.
Qed.
End Destructors.
