(* ===== verification/CollectorProps.v ===== *)
(** * What epoch-based reclamation guarantees

    [ebr_grace_period]: no instance is dropped while a guard exists that is older
    than the retirement of the instance, provided that every announcement is of the
    current epoch.  [ebr_stale_epoch]: without the proviso it does not hold. *)
From stdpp Require Import functions.
From S2P Require Import Prelude Atomic Tag Collector CollectorInv CollectorOwn CollectorShift CollectorDrop CollectorList CollectorScan CollectorOps.

Local Open Scope Z_scope.

#[local] Existing Instance Tag.eq_dec.

Section Threads.
Context (retires : nat → list nat) (n t : nat).

(** ** [drop_and_dealloc] *)

Lemma drop_object_spec o since g c f l m :
  guarded c f l → tls l = Some c → 0 < num_readers f < u32_max → doomed l = (Obj o, since) :: g →
  wp ebr_inv t (drop_and_dealloc retires (S m) n t (Obj o, since)) l
    (λ _ l', ∃ f', stable f f' ∧ l' = after_drop c f' (dying l) g l).
Proof.
  intros HG Htls Hn Hd. cbn [drop_and_dealloc]. eapply (wp_drop_object o since g); [done |].
  eapply wp_call with (Q' := λ _ l', ∃ f', stable f f' ∧ l' = now_mine c f' (with_doomed g l)); [| done].
  apply (wp_for_each t _ _ (λ _ _ l', ∃ f', stable f f' ∧ l' = now_mine c f' (with_doomed g l))).
  - exists f. split; [done |]. destruct l. unfold now_mine, with_mine, with_doomed. cbn in *.
    pose proof (gd_mine _ _ _ HG) as Gm. cbn in Gm. by subst.
  - intros o' os _ l1 (f1 & Hf1 & ->).
    assert (HG1 : guarded c f1 (now_mine c f1 (with_doomed g l))).
    { destruct HG as [Gm Gr Gs Gw Go]. split; cbn; try done. by rewrite (proj1 Hf1). }
    eapply wp_mono; [| apply (retire_nested_spec n t c f1 o'); [exact HG1 | done | by rewrite (proj2 Hf1)]].
    intros r l2 (-> & f2 & Hf2 & ->). exists f2. split; [by etrans | done].
  - done.
Qed.

Lemma wp_free_collector x kx g l (Q : unit → ghost → Prop) :
  dying l !! x = Some kx → doomed l = g → x ∉ colls g →
  Q () (with_dying (delete x (dying l)) l) → wp ebr_inv t (free x) l Q.
Proof.
  intros Hd <- Hx HQ s ls Hl HI. pose proof HI as (w & Hs & _). exists (with_dying (delete x (dying l)) l). split.
  - by eapply inv_free.
  - destruct (sound_dying _ _ _ _ _ _ _ Hs Hl Hd) as (Hk & _). cbn.
    rewrite bool_decide_eq_true_2; [exact HQ | by rewrite Hk].
Qed.

Lemma drop_collector_spec dd x τ g c f l :
  drops t dd → guarded c f l → tls l = Some c → 0 < num_readers f < u32_max → doomed l = (Coll x, τ) :: g →
  wp ebr_inv t (drop_collector dd n x ;; free x) l
    (λ _ l', ∃ f', stable f f' ∧ l' = after_drop c f' (delete x (dying l)) g l).
Proof.
  intros Hdd HG Htls Hn Hd.
  assert (Hstart : ∀ kx, dying l !! x = Some kx → x ∉ colls g →
    wp ebr_inv t (drop_collector dd n x ;; free x) (with_doomed g l)
      (λ _ l', ∃ f', stable f f' ∧ l' = after_drop c f' (delete x (dying l)) g l)).
  { intros kx Hx Hxg. unfold drop_collector. apply wp_bind.
    apply (wp_write_dying x kx); [exact Hx | done | done | done |].
    eapply (wp_write_dying x); [apply lookup_insert_eq | done | done | done |].
    cbn [dying with_dying with_doomed]. rewrite insert_insert_eq.
    set (k0 := set_own _ _).
    eapply wp_mono with (Q := λ _ l', ∃ f' k', stable f f' ∧
      l' = with_doomed g (with_dying (<[x := k']> (dying l)) (now_mine c f' l))).
    { intros [] l' (f' & k' & Hf' & ->). eapply (wp_free_collector x k' g); [apply lookup_insert_eq | done | exact Hxg |].
      exists f'. split; [done |]. cbn. unfold after_drop, with_doomed, with_dying, now_mine, with_mine. cbn.
      by rewrite delete_insert_eq. }
    apply (wp_loop _ _ _ _ (λ _ l', ∃ f' k', stable f f' ∧ state k' = 0 ∧ announcement (own k') = 0 ∧
      l' = with_doomed g (with_dying (<[x := k']> (dying l)) (now_mine c f' l)))).
    - exists f, k0. split_and!; try done. unfold with_doomed, with_dying, now_mine, with_mine. cbn.
      by rewrite <-(gd_mine _ _ _ HG).
    - intros _ l1 (f1 & k1 & Hf1 & Hst1 & Ha1 & ->).
      assert (HG1 : guarded c f1 (with_doomed g (with_dying (<[x := k1]> (dying l)) (now_mine c f1 l)))).
      { destruct HG as [Gm Gr Gs Gw Go]. split; cbn; try done. by rewrite (proj1 Hf1). }
      eapply (wp_read_dying x k1); [apply lookup_insert_eq |]. destruct (has_garbage (own k1)).
      + eapply wp_call; [apply (epoch_updated_dying_spec t dd x k1 c f1); try done; [by rewrite (proj2 Hf1) | apply lookup_insert_eq] |].
        intros [] l2 (f2 & Hf2 & ->). exists f2, (set_own (rotate_fields (own k1)) k1).
        split_and!; [by etrans | done | done |]. unfold with_doomed, with_dying, now_mine, with_mine. cbn.
        by rewrite insert_insert_eq.
      + exists f1, k1. done. }
  unfold drop_collector at 1. apply wp_shift. intros s ls Hl HI. exists (with_doomed g l).
  split; [by eapply inv_pop |]. destruct HI as (w & Hs & _). pose proof (so_thr _ _ _ Hs t l Hl) as HT.
  pose proof (thr_nodup _ _ _ _ HT) as Hnd. rewrite Hd, colls_cons in Hnd. cbn in Hnd. apply NoDup_cons in Hnd as [Hxg _].
  destruct (thr_doomed _ _ _ _ HT (Coll x, τ)) as [_ Hx]; [rewrite Hd; apply list_elem_of_here |].
  destruct (Hx x eq_refl) as [kx Hkx]. exact (Hstart kx Hkx Hxg).
Qed.

Lemma drop_and_dealloc_drops m : drops t (drop_and_dealloc retires m n t).
Proof.
  induction m as [| m IH]; intros [[o | x] τ] g c f l HG Htls Hn Hd; [done | done | |].
  - exact (drop_object_spec o τ g c f l m HG Htls Hn Hd).
  - exact (drop_collector_spec _ x τ g c f l IH HG Htls Hn Hd).
Qed.

(** ** [alloc] and [current] *)

Lemma inv_spare_link s ls l c k p :
  ebr_inv s ls → ls !! t = Some l → spare l = Some (c, k) →
  ebr_inv (set_collectors (<[c := set_next_link p k]> (collectors s)) s)
    (<[t := with_spare (Some (c, set_next_link p k)) l]> ls).
Proof.
  intros (w & Hs & Hg) Hl Hsp. destruct (sound_spare _ _ _ _ _ _ _ Hs Hl Hsp) as (Hk & Hp & Hok).
  pose proof (so_thr _ _ _ Hs t l Hl) as [H1 H2 H3 H4 H5 H6].
  set (k' := set_next_link p k). set (s' := set_collectors _ s). set (l' := with_spare _ l).
  assert (Hrep : replaced s s' c k') by done.
  exists w. split.
  - apply (sound_replace w s s' ls t l l' c k k' (Fresh t)); try done; try apply Hok.
    + right. by intros [].
    + intros d kd pd Hne _. destruct pd; cbn; try done. congruence.
    + split; try done. intros d kd [= <- <-]. by eapply H2.
  - intros Hfresh. destruct (Hg Hfresh) as (Hv & e & ga & gl & He & HG). split; [done |]. exists e, ga, gl. split; [done |].
    assert (Hps : pins_shrink s s' ga ga e) by (by apply (pins_shrink_same s s' c k k')).
    apply (grace_replace w s s' ls t l l' c k k' (Fresh t) e ga ga gl gl); try done.
    assert (HT : thread_grace w s' e ga gl l).
    { apply (thread_grace_frame w s s' ls e ga ga gl gl c t l); try done; [| exact (gr_thread _ _ _ _ _ _ HG t l Hl)].
      intros st f Hm. pose proof (H1 _ _ _ Hm). congruence. }
    destruct HT as [T1 T2 T3 T4]. by split.
Qed.

Lemma alloc_spec l :
  mine l = None → spare l = None → walk l = None → rotating l = false →
  wp ebr_inv t (alloc n) l (λ c l', l' = with_mine (Some (c, INACTIVE, own new_collector)) l).
Proof.
  intros Hm Hs Hw Hr. unfold alloc. intros s ls Hl HI. cbn [fst snd].
  set (c := fresh (dom (collectors s))).
  assert (Hc : collectors s !! c = None) by apply not_elem_of_dom, is_fresh.
  eexists. split; [by apply inv_box |]. clearbody c. clear s ls Hl HI Hc. apply wp_load. intros s ls _ _.
  apply (wp_loop _ _ _ _ (λ _ l', ∃ p, l' = with_spare (Some (c, set_next_link p new_collector)) l)); [by exists None |].
  clear s ls. intros cur l1 (p & ->). apply wp_on. intros s ls Hl HI. pose proof HI as (w & Hs' & _).
  destruct (sound_spare w s ls t _ c _ Hs' Hl eq_refl) as (Hk & _). exists (set_next_link p new_collector).
  split; [done |]. eexists. split; [by apply (inv_spare_link s ls _ c _ cur.1 HI Hl) |].
  clear s ls w Hl HI Hs' Hk. apply wp_cas_weak.
  - intros s ls Hl HI Hcur. subst cur. eexists. split; [by apply inv_publish |].
    unfold with_spare, with_mine. cbn. by rewrite Hs.
  - intros s ls Hl HI. by exists cur.1.
Qed.

(** A thread without a guard: it may not have a collector yet. *)
Definition at_rest (l : ghost) : Prop :=
  (mine l = None ∧ tls l = None ∧ spare l = None ∧ walk l = None ∧ rotating l = false) ∨
  ∃ c f, resting c f l ∧ tls l = Some c.

Lemma current_spec l :
  at_rest l → wp ebr_inv t (current n t) l (λ c l', ∃ f, resting c f l' ∧ tls l' = Some c).
Proof.
  intros [(Hm & Htls & Hs & Hw & Hr) | (c & f & HR & Htls)].
  - unfold current. apply wp_load. intros s ls Hl (w & Hso & _).
    rewrite (thr_tls _ _ _ _ (so_thr _ _ _ Hso t l Hl)), Htls. clear s ls Hl w Hso.
    eapply wp_call; [by apply alloc_spec |]. intros c l1 ->. intros s ls Hl HI. cbn [fst snd].
    eexists. split; [exact (inv_local s ls t _ (Some c) HI Hl) |]. exists (own new_collector). by repeat split.
  - apply wp_tail. apply (wp_current n c); [done |]. by exists f.
Qed.

(** ** [Guard::new] *)

(** The thread has [k] guards. *)
Definition has_guards (k : Z) (guards : list nat) (l : ghost) : Prop :=
  ∃ c f, guarded c f l ∧ tls l = Some c ∧ num_readers f = k ∧ Forall (eq c) guards.

Lemma guard_new_first_spec m l :
  at_rest l → wp ebr_inv t (guard_new retires m n t) l (λ g l', has_guards 1 [g] l').
Proof.
  intros Hl. unfold guard_new. eapply wp_call; [by apply current_spec |]. intros c l1 (f & HR & Htls).
  pose proof HR as [Rm Rr Rn Rs Rw Ro].
  eapply wp_call; [by apply (new_guard_first_spec c f) |]. intros b l2 (f1 & Ha & Hn1 & ->). destruct b.
  - eapply wp_call; [apply (epoch_updated_spec t _ c f1); try done; [apply drop_and_dealloc_drops | by rewrite Hn1] |].
    intros _ l3 (f2 & Hf2 & ->). exists c, f2. split_and!; try done; [| rewrite (proj2 Hf2); exact Hn1 | by constructor].
    split; cbn; try done. by rewrite (proj1 Hf2).
  - exists c, f1. split_and!; try done; by repeat constructor.
Qed.

Lemma guard_new_nested_spec m k guards l :
  has_guards k guards l → 0 < k < u32_max →
  wp ebr_inv t (guard_new retires m n t) l (λ g l', has_guards (k + 1) (g :: guards) l').
Proof.
  intros (c & f & HG & Htls & Hk & Hgs) Hlt. unfold guard_new. apply (wp_current n c); [done |].
  eapply wp_call; [apply (new_guard_nested_spec c f); [done | by rewrite Hk] |]. intros b l1 (-> & ->).
  exists c, (set_num_readers (num_readers f + 1) f). split_and!; try done; [by apply (guarded_now c f) | cbn; lia | by constructor].
Qed.

(** ** [Guard::drop] *)
Lemma guard_drop_spec k g guards l :
  has_guards k (g :: guards) l → 0 < k →
  wp ebr_inv t (end_guard n g) l
    (λ _ l', if decide (k = 1) then at_rest l' else has_guards (k - 1) guards l').
Proof.
  intros (c & f & HG & Htls & Hk & Hgs) Hpos. apply Forall_cons in Hgs as [<- Hgs]. case_decide as H1.
  - subst k. eapply wp_mono; [| apply (end_guard_last_spec n c f); done]. intros _ l' (f' & HR & ->). right. exists c, f'. done.
  - eapply wp_mono; [| apply (end_guard_nested_spec n c f); [done | lia]]. intros _ l' ->.
    exists c, (set_num_readers (num_readers f - 1) f). split_and!; try done; [by apply (guarded_now c f) | cbn; lia].
Qed.

(** ** [Guard::defer] *)
Lemma retire_spec k g guards o l :
  has_guards k (g :: guards) l →
  wp ebr_inv t (reclaim g (Obj o)) l (λ _ l', has_guards k (g :: guards) l').
Proof.
  intros (c & f & HG & Htls & Hk & Hgs). pose proof Hgs as [<- _]%Forall_cons. pose proof HG as [Gm Gr Gs Gw Go].
  apply wp_tail. apply (wp_reclaim_obj c f); [done | done | done |]. intros τ.
  exists c, (reclaim_fields (Obj o, τ) f). split_and!; [exact (guarded_now c f l (reclaim_fields (Obj o, τ) f) HG eq_refl) | done | done | done].
Qed.

(** ** [suspend] *)
Lemma pass_garbage_guarded_spec k guards l :
  has_guards k guards l → 0 < k → wp ebr_inv t (pass_garbage t) l (λ r l', r = false ∧ has_guards k guards l').
Proof.
  intros HG0 Hpos. pose proof HG0 as (c & f & HG & Htls & Hk & Hgs). unfold pass_garbage.
  apply wp_load. intros s ls Hl (w & Hso & _).
  rewrite (thr_tls _ _ _ _ (so_thr _ _ _ Hso t l Hl)), Htls. clear s ls Hl w Hso.
  eapply (wp_read_mine c); [apply HG |]. intros kc _ ->. destruct (Z.eqb_spec (num_readers f) 0); [lia |]. done.
Qed.

Lemma pass_garbage_spec l :
  at_rest l → wp ebr_inv t (pass_garbage t) l (λ r l', r = true ∧ at_rest l').
Proof.
  intros Hrest. unfold pass_garbage. apply wp_load. intros s ls Hl (w & Hso & _).
  rewrite (thr_tls _ _ _ _ (so_thr _ _ _ Hso t l Hl)). clear s ls Hl w Hso.
  pose proof Hrest as [(Hm & Htls & Hs & Hw & Hr) | (c & f & HR & Htls)]; rewrite Htls; [done |].
  destruct HR as [Rm Rr Rn Rs Rw Ro]. eapply (wp_read_mine c); [done |]. intros kc _ ->. rewrite Rn. cbn [Z.eqb negb].
  destruct (has_garbage f); [| done]. apply wp_on. intros s ls Hl (w & Hso & Hg).
  destruct (sound_mine _ _ _ _ _ _ _ _ Hso Hl Rm) as (k & Hk & _). exists k. split; [done |].
  exists (with_mine None l). split.
  - eexists. split; [exact (sound_abandon w s ls t l c f k Hso Hl Rm Rr Hk) |]. intros Hfresh.
    destruct (Hg Hfresh) as (Hv & e & ga & gl & He & HG). split; [done |]. exists e, ga, gl. split; [done |].
    exact (grace_abandon w s ls t l c f k Hso Hl Rm Rr Hk e ga gl HG).
  - clear s ls Hl w Hso Hg Hk. cbn [fst snd]. intros s ls Hl HI. cbn [fst snd].
    eexists. split; [exact (inv_local s ls t _ None HI Hl) |].
    change (wp ebr_inv t (bind mark_scan_enforced (λ _, Ret true)) (with_tls None (with_mine None l)) (λ r l', r = true ∧ at_rest l')).
    eapply wp_call with (Q' := λ _ l', l' = with_tls None (with_mine None l)); [by apply wp_mark_scan_enforced |].
    intros _ l' ->. split; [done |]. by left.
Qed.
End Threads.

(** ** Clients *)

(** [guards] are the guards of the thread. *)
Definition holds (guards : list nat) (l : ghost) : Prop :=
  match guards with
  | [] => at_rest l
  | _ => has_guards (Z.of_nat (length guards)) guards l
  end.

Lemma ebr_client_spec retires m n t ops guards l :
  holds guards l → Z.of_nat (length guards + length ops) < u32_max →
  wp ebr_inv t (client retires m n t ops guards) l holds.
Proof.
  revert guards l. induction ops as [| o ops IH]; intros guards l Hh Hlen; cbn [client]; [done |].
  rewrite length_cons in Hlen. destruct o as [| | o |].
  - eapply wp_call with (Q' := λ g l', holds (g :: guards) l').
    + destruct guards as [| g guards].
      * eapply wp_mono; [| by apply guard_new_first_spec]. done.
      * eapply wp_mono; [| eapply guard_new_nested_spec; [exact Hh | cbn in *; lia]].
        intros g' l' Hg. cbn [holds]. rewrite length_cons, Nat2Z.inj_succ. exact Hg.
    + intros g l' Hg. apply IH; [exact Hg | cbn [length]; lia].
  - destruct guards as [| g guards]; [apply IH; [done | cbn in *; lia] |].
    eapply wp_call with (Q' := λ _ l', holds guards l').
    + eapply wp_mono; [| eapply guard_drop_spec; [exact Hh | cbn; lia]].
      intros [] l' Hl'. destruct guards as [| g' guards]; [by rewrite decide_True in Hl' |].
      rewrite decide_False in Hl' by (cbn; lia). cbn [holds].
      replace (Z.of_nat (length (g' :: guards))) with (Z.of_nat (length (g :: g' :: guards)) - 1) by (cbn [length]; lia).
      exact Hl'.
    + intros _ l' Hl'. apply IH; [exact Hl' | cbn in *; lia].
  - destruct guards as [| g guards]; [apply IH; [done | cbn in *; lia] |].
    eapply wp_call with (Q' := λ _ l', holds (g :: guards) l'); [eapply retire_spec; exact Hh |].
    intros _ l' Hl'. apply IH; [exact Hl' | cbn in *; lia].
  - eapply wp_call with (Q' := λ _ l', holds guards l').
    + destruct guards as [| g guards].
      * eapply wp_mono; [| by apply pass_garbage_spec]. by intros r l' [_ ?].
      * eapply wp_mono; [| eapply pass_garbage_guarded_spec; [exact Hh | cbn; lia]].
        by intros r l' [_ ?].
    + intros _ l' Hl'. apply IH; [exact Hl' | cbn in *; lia].
Qed.

Definition start : ghost := Ghost None None None ∅ [] None false.

(** The threads, the [t]-th of which runs the operations [ops_t]. *)
Definition clients (retires : nat → list nat) (m n : nat) (opss : list (list op)) : list (prog ebr (list nat)) :=
  imap (λ t ops, client retires m n t ops []) opss.

Lemma ebr_inv_init k : ebr_inv init_ebr (replicate k start).
Proof.
  exists (World ∅ (λ _, O) [] None). split.
  - split; try done.
    + intros c. cbn. by rewrite !lookup_empty.
    + constructor.
    + intros c. cbn. rewrite lookup_empty. split; [by intros ?%not_elem_of_nil | by intros (? & ? & _)].
    + intros t l [-> _]%lookup_replicate. cbn. split; [by intros [? ?] | done].
    + by intros t l x [-> _]%lookup_replicate.
    + intros t l [-> _]%lookup_replicate. split; try done; [by intros i ?%not_elem_of_nil | constructor].
  - intros _. split; [done |]. exists 0, (λ _, 0), (λ _, 0). split; [done |]. split; [done | done |].
    intros t l [-> _]%lookup_replicate. by split.
Qed.

Lemma ebr_clients_ok retires m n opss :
  Forall (λ ops : list op, Z.of_nat (length ops) < u32_max) opss →
  pool_ok ebr_inv (λ _, holds) (Pool (clients retires m n opss) init_ebr) (replicate (length opss) start).
Proof.
  intros Hops. split_and!; [apply ebr_inv_init | by rewrite length_replicate; unfold clients; cbn; rewrite length_imap |].
  intros t pr l Hpr Hl. cbn [threads] in Hpr. unfold clients in Hpr. rewrite list_lookup_imap in Hpr.
  apply lookup_replicate in Hl as [-> _]. destruct (opss !! t) as [ops |] eqn:Ht; [| done].
  cbn in Hpr. injection Hpr as <-. apply ebr_client_spec; [by left | exact (Forall_lookup_1 _ _ _ _ Hops Ht)].
Qed.

(** ** Properties *)

(** C9. Epoch-based reclamation is correct as long as every announced epoch is the
    global one: for every number of threads, whatever guards they create and drop,
    whatever they retire (nested retirements by destructors included) and however
    often they hand their garbage over to others, and under every interleaving, no
    assertion of [collector.rs] fails and no collector is used after it was freed;
    and unless a thread has announced an epoch that had changed since it was read,
    no instance has been dropped while there was a guard that is older than the
    retirement of the instance. *)
Theorem ebr_grace_period retires m n opss p :
  Forall (λ ops : list op, Z.of_nat (length ops) < u32_max) opss →
  reachable (Pool (clients retires m n opss) init_ebr) p →
  (∀ t pr, threads p !! t = Some pr → ¬ panicking pr) ∧
  (stale (shared p) = false → violated (shared p) = []).
Proof.
  intros Hops Hr. destruct (pool_safe _ _ _ _ _ (ebr_clients_ok retires m n opss Hops) Hr) as (ls & HI & _ & Hnp & _).
  split; [exact Hnp |]. destruct HI as (w & _ & Hg). intros Hfresh. by destruct (Hg Hfresh).
Qed.

(** A thread that retires an instance, makes as many guards as an epoch takes, and
    is seen to have dropped the instance. *)
Definition no_destructor (_ : nat) : list nat := [].
Definition pins_unpins (k : nat) : list op := concat (repeat [Pin; Unpin] k).

Lemma ebr_grace_period_witness :
  ∃ p, reachable (Pool (clients no_destructor 2 4 [[Pin; Retire 7; Unpin] ++ pins_unpins 400]) init_ebr) p ∧
       threads p = [Ret []] ∧ EPOCH (shared p) ≠ 0 ∧ stale (shared p) = false ∧ violated (shared p) = [] ∧
       bool_decide (map_Forall (λ _ k, lists (own k) = []) (collectors (shared p))) = true.
Proof.
  destruct (run (client no_destructor 2 4 0 ([Pin; Retire 7; Unpin] ++ pins_unpins 400) []) init_ebr) as [r s | | |] eqn:Hrun;
    [| exfalso; revert Hrun; vm_compute; discriminate ..].
  assert (Hr : reachable (Pool (clients no_destructor 2 4 [[Pin; Retire 7; Unpin] ++ pins_unpins 400]) init_ebr) (Pool [Ret r] s))
    by exact (run_reachable _ _ _ _ Hrun).
  assert (Hops : Forall (λ ops : list op, Z.of_nat (length ops) < u32_max) [[Pin; Retire 7; Unpin] ++ pins_unpins 400]).
  { constructor; [vm_compute; reflexivity | constructor]. }
  destruct (ebr_grace_period no_destructor 2 4 _ _ Hops Hr) as [_ Hgrace].
  exists (Pool [Ret r] s). split; [exact Hr |]. cbn [threads shared].
  assert (Hs : stale s = false) by (revert Hrun; vm_compute; intros [= <- <-]; reflexivity).
  split; [revert Hrun; vm_compute; intros [= <- <-]; reflexivity |].
  split; [revert Hrun; vm_compute; intros [= <- <-]; discriminate |].
  split; [exact Hs |]. split; [exact (Hgrace Hs) |].
  revert Hrun; vm_compute; intros [= <- <-]; reflexivity.
Defined.

(** C17. The epoch consensus admits a use after free.  [new_guard] announces an epoch
    it has read before, and [try_scan] takes the announcement of the scanning thread
    for the global epoch.  Four threads: the first one retires the instance 7, the
    second one makes a guard before that and keeps it.  The guards of the first, the
    second and the third thread are announced two epochs late, so that the scan of
    the third one moves [EPOCH] from 2 back to 1, past the guard of the second thread;
    the first thread, which has seen three epochs, drops the instance while the guard
    of the second one is alive (the collector 3; a guard of the third thread, the
    collector 0, is overtaken as well). *)
Theorem ebr_stale_epoch :
  ∃ p, reachable (Pool (clients no_destructor 5 20
                    [[Pin; Retire 7; Unpin; Pin; Unpin; Pin; Unpin; Pin];
                     [Pin];
                     pins_unpins 256;
                     pins_unpins 512]) init_ebr) p ∧
       threads p !! 1%nat = Some (Ret [3%nat]) ∧
       pinned <$> collectors (shared p) !! 3%nat = Some (Some 0%nat) ∧
       now (shared p) = 1%nat ∧ violated (shared p) = [(7, 3); (7, 0)]%nat.
Proof.
  set (opss := [_; _; _; _]).
  exists (execs
    (repeat 2%nat 3321 ++ repeat 3%nat 3321 ++ repeat 0%nat 11 ++ repeat 1%nat 11 ++ repeat 2%nat 5 ++
     repeat 3%nat (23 + 3323 + 22) ++ repeat 0%nat 1 ++ repeat 1%nat 2 ++ repeat 2%nat 1 ++
     repeat 0%nat 19 ++ repeat 3%nat 30 ++ repeat 0%nat (17 + 6) ++ repeat 2%nat 17 ++ repeat 0%nat 12)
    (Pool (clients no_destructor 5 20 opss) init_ebr)).
  split; [apply execs_reachable |]. split_and!; vm_compute; reflexivity.
Qed.

(** The destructor of the instance 7 retires the instance 9. *)
Definition one_destructor (o : nat) : list nat := if (o =? 7)%nat then [9%nat] else [].

Definition exiting_thread : prog ebr unit :=
  let! _ := client one_destructor 5 20 0 [Pin; Retire 7; Unpin] [] in
  try_drop_local_collector one_destructor 5 20 0.

Definition late_thread : prog ebr unit :=
  let! _ := client one_destructor 5 20 1 ([Pin; Retire 8; Unpin] ++ pins_unpins 250) [] in
  Ret ().

(** The number of guards of the collector [c], and the time of the outermost one. *)
Definition guards_of (c : nat) (s : ebr) : option (Z * option nat) :=
  (λ k, (num_readers (own k), pinned k)) <$> collectors s !! c.

(** C18. A guard of a destructor that runs while the last thread exits protects
    nothing, with every announcement up to date.  [try_drop_local_collector] takes the
    collector of the thread off the list before it drops the garbage; the guards that
    the destructors make belong to that collector, and no other thread looks at it.
    In the state [p] the first thread exits and is in the destructor of the instance 7:
    the collector 0 has two guards, that of the exit and that of the destructor, and the
    second thread has not run yet.  From there on only the second thread runs: it
    retires the instance 8, after both guards were made, and drops it, alone in the
    list, while both guards are alive; the only violation recorded is that of the
    collector 0 by the drop of 8. *)
Theorem ebr_exit_guard :
  ∃ p p', reachable (Pool [exiting_thread; late_thread] init_ebr) p ∧
    guards_of 0 (shared p) = Some (2, Some 1%nat) ∧ now (shared p) = 1%nat ∧
    threads p !! 1%nat = Some late_thread ∧ LOCAL_COLLECTOR (shared p) !! 1%nat = None ∧
    violated (shared p) = [] ∧
    reachable p p' ∧ threads p' !! 0%nat = threads p !! 0%nat ∧
    guards_of 0 (shared p') = Some (2, Some 1%nat) ∧ now (shared p') = 2%nat ∧
    stale (shared p') = false ∧ violated (shared p') = [(8, 0)]%nat.
Proof.
  set (p := execs (repeat 0%nat 48) (Pool [exiting_thread; late_thread] init_ebr)).
  exists p, (execs (repeat 1%nat 2544) p).
  split; [apply execs_reachable |]. do 2 (split; [vm_compute; reflexivity |]).
  split; [unfold p; by rewrite execs_other |]. do 2 (split; [vm_compute; reflexivity |]).
  split; [apply execs_reachable |]. split; [apply execs_other; lia |].
  split_and!; vm_compute; reflexivity.
Qed.
