(* ===== verification/Bag.v ===== *)
(** * The bag's storage: [src/bag.rs]

    A [Storage] is an array of [ARRAY_LEN] slots and a word with two bitmaps: the
    upper one says which slots hold an instance, the lower one which slots are
    owned by a thread that is writing or reading them.  All the operations are
    lock-free. *)
From S2P Require Import Prelude Atomic Tag.

Local Open Scope Z_scope.

Section Storage.
(** [ARRAY_LEN] is at most [DEFAULT_ARRAY_LEN], half of the bits of a [usize]. *)
Context {T : Type} (ARRAY_LEN : nat).

Definition DEFAULT_ARRAY_LEN : nat := usize_bits / 2.

(** [Storage]; an uninitialised slot, or one whose instance was moved out, is
    [None]. *)
Record storage := Storage { slots : list (option T); metadata : Z }.

Definition content (s : storage) (index : nat) : option T :=
  match slots s !! index with Some o => o | None => None end.

Definition set_metadata (m : Z) (s : storage) : storage := Storage (slots s) m.

Definition storage_new : storage := Storage (replicate ARRAY_LEN None) 0.

Definition with_val (val : T) : storage :=
  Storage (<[0%nat := Some val]> (replicate ARRAY_LEN None)) (one_shl ARRAY_LEN).

(** [metadata.wrapping_shr(ARRAY_LEN) as u32] *)
Definition instance_bitmap (metadata : Z) : Z := wrap 32 (ushr metadata ARRAY_LEN).

(** [(metadata % (1 << ARRAY_LEN)) as u32] *)
Definition owned_bitmap (metadata : Z) : Z := wrap 32 (metadata mod 2 ^ Z.of_nat ARRAY_LEN).

(** [storage[index].as_ptr().write(val)] *)
Definition write_slot (index : nat) (val : T) : prog storage unit :=
  Act (λ s, ((), Storage (<[index := Some val]> (slots s)) (metadata s))) Ret.

(** [storage[index].as_ptr().read()] moves the instance out; reading a slot that
    holds none is undefined. *)
Definition read_slot (index : nat) : prog storage T :=
  Act (λ s, (content s index, Storage (<[index := None]> (slots s)) (metadata s)))
      (λ o, match o with Some v => Ret v | None => Panic end).

(** [fetch_update] whose closure asserts [chk] first. *)
Definition fetch_update_assert (chk : Z → bool) (f : Z → option Z) : prog storage (Z + Z) :=
  Act (λ s, if chk (metadata s)
            then match f (metadata s) with
                 | Some m => (Some (inl (metadata s)), set_metadata m s)
                 | None => (Some (inr (metadata s)), s)
                 end
            else (None, s))
      (λ o, match o with Some r => Ret r | None => Panic end).

Definition storage_len : prog storage nat :=
  let! m := load metadata in
  Ret (count_ones 32 (Z.land (instance_bitmap m) (unot 32 (owned_bitmap m)))).

(** The inner loop of [push]: the next slot that is neither used nor owned. *)
Fixpoint free_slot (fuel : nat) (instance owned : Z) : option nat :=
  match fuel with
  | O => None
  | S fuel =>
      let index := trailing_ones 32 instance in
      if (index <? ARRAY_LEN)%nat then
        if Z.land owned (one_shl index) =? 0 then Some index
        else free_slot fuel (Z.lor instance (one_shl index)) owned
      else None
  end.

(** The inner loop of [pop]: the next slot from [index] on that is used and not
    owned. *)
Fixpoint used_slot (fuel : nat) (instance owned : Z) (index : nat) : option nat :=
  match fuel with
  | O => None
  | S fuel =>
      if (index <? ARRAY_LEN)%nat then
        if Z.land owned (one_shl index) =? 0 then Some index
        else used_slot fuel instance owned
               (trailing_zeros 32
                  (Z.land instance (wrap 32 (ushl (wrap 32 (ushl (umax 32) index)) 1))))
      else None
  end.

(** The fuel of the inner loops: every iteration visits another slot. *)
Definition slot_fuel : nat := 33.

(** [push]: [None] when the value was stored, the value otherwise. *)
Definition storage_push (n : nat) (val : T) (allow_empty : bool) : prog storage (option T) :=
  let! m := load metadata in
  loop n (λ m,
    let instance := instance_bitmap m in
    let owned := owned_bitmap m in
    if negb allow_empty && (Z.land instance (unot 32 owned) =? 0) then Ret (Break (Some val))
    else
      match free_slot slot_fuel instance owned with
      | None => Ret (Break (Some val))
      | Some index =>
          let! r := compare_exchange_weak metadata set_metadata m (Z.lor m (one_shl index)) in
          match r with
          | inr prev => Ret (Continue prev)
          | inl _ =>
              write_slot index val ;;
              let! result := fetch_update_assert
                (λ m, negb (Z.land m (one_shl index) =? 0) &&
                      (Z.land m (one_shl (index + ARRAY_LEN)) =? 0))
                (λ m,
                  if negb allow_empty &&
                     (Z.land (instance_bitmap m) (unot 32 (owned_bitmap m)) =? 0)
                  then None
                  else Some (Z.lor (Z.land m (unot usize_bits (one_shl index)))
                                   (one_shl (index + ARRAY_LEN)))) in
              match result with
              | inl _ => Ret (Break None)
              | inr _ =>
                  let! val := read_slot index in
                  let! _ := fetch_modify metadata set_metadata
                              (λ m, Z.land m (unot usize_bits (one_shl index))) in
                  Ret (Break (Some val))
              end
          end
      end) m.

(** [pop]: the instance, and whether the storage is left empty. *)
Definition storage_pop (n : nat) : prog storage (option T * bool) :=
  let! m := load metadata in
  loop n (λ m,
    let instance := instance_bitmap m in
    let owned := owned_bitmap m in
    match used_slot slot_fuel instance owned (trailing_zeros 32 instance) with
    | None => Ret (Break (None, instance =? 0))
    | Some index =>
        let! r := compare_exchange_weak metadata set_metadata m (Z.lor m (one_shl index)) in
        match r with
        | inr prev => Ret (Continue prev)
        | inl _ =>
            let! inst := read_slot index in
            let new m := Z.land m (unot usize_bits
                                     (Z.lor (one_shl index) (one_shl (index + ARRAY_LEN)))) in
            let! result := fetch_update_assert
              (λ m, negb (Z.land m (one_shl index) =? 0) &&
                    negb (Z.land m (one_shl (index + ARRAY_LEN)) =? 0))
              (λ m, Some (new m)) in
            match result with
            | inl m => Ret (Break (Some inst, instance_bitmap (new m) =? 0))
            | inr m => Panic
            end
        end
    end) m.

(** [pop_all]: the loop over the slots marked for removal. *)
Fixpoint drain_slots {B} (fuel : nat) (fold : B → T → B) (instances : Z) (index : nat) (acc : B)
    : prog storage B :=
  match fuel with
  | O => OutOfFuel
  | S fuel =>
      if (index <? ARRAY_LEN)%nat then
        let! v := read_slot index in
        drain_slots fuel fold instances
          (trailing_zeros usize_bits
             (Z.land instances (unot usize_bits (one_shl (index + 1) - 1))))
          (fold acc v)
      else Ret acc
  end.

(** The loop that clears the bits of the removed slots. *)
Definition clear_slots (n : nat) (instances marked : Z) : prog storage Z :=
  loop n (λ m,
    let new := Z.land m (unot usize_bits (Z.lor (ushl instances ARRAY_LEN) instances)) in
    let! r := compare_exchange_weak metadata set_metadata m new in
    match r with
    | inl _ => Ret (Break new)
    | inr actual => Ret (Continue actual)
    end) marked.

Definition storage_pop_all {B} (n : nat) (init : B) (fold : B → T → B) (allow_nonempty : bool)
    : prog storage B :=
  let! m := load metadata in
  loop n (λ '(acc, m),
    let instances := Z.land (instance_bitmap m) (unot usize_bits (owned_bitmap m)) in
    dassert (Z.land instances (owned_bitmap m) =? 0) ;;
    if instances =? 0 then Ret (Break acc)
    else
      let marked := Z.lor m instances in
      let! r := compare_exchange_weak metadata set_metadata m marked in
      match r with
      | inr actual => Ret (Continue (acc, actual))
      | inl _ =>
          let! acc := drain_slots slot_fuel fold instances
                        (trailing_zeros usize_bits instances) acc in
          let! m := clear_slots n instances marked in
          Ret (if allow_nonempty then Break acc else Continue (acc, m))
      end) (init, m).
End Storage.

Arguments storage : clear implicits.
Arguments Storage {_} _ _.

(** ** The bitmaps *)

Section Invariant.
Context {T : Type} (ARRAY_LEN : nat) (Hlen : (ARRAY_LEN ≤ 32)%nat).

Local Notation storage := (storage T).
Local Notation N := ARRAY_LEN.
Local Notation instance_bitmap := (instance_bitmap N).
Local Notation owned_bitmap := (owned_bitmap N).

(** The two bits of slot [i]. *)
Definition inst (m : Z) (i : nat) : bool := bit m (i + N).
Definition owned (m : Z) (i : nat) : bool := bit m i.

Lemma in_word_instance m : in_word 32 (instance_bitmap m).
Proof. apply in_word_wrap. Qed.

Lemma in_word_owned m : in_word 32 (owned_bitmap m).
Proof. apply in_word_wrap. Qed.

Lemma bit_instance m i : (i < N)%nat → bit (instance_bitmap m) i = inst m i.
Proof.
  intros Hi. unfold Bag.instance_bitmap, inst. autorewrite with word.
  by rewrite bool_decide_true by lia.
Qed.

Lemma bit_owned m i : (i < N)%nat → bit (owned_bitmap m) i = owned m i.
Proof.
  intros Hi. unfold Bag.owned_bitmap, owned. autorewrite with word.
  rewrite !bool_decide_true by lia. done.
Qed.

Lemma bit_owned_high m i : (N ≤ i)%nat → bit (owned_bitmap m) i = false.
Proof.
  intros Hi. unfold Bag.owned_bitmap. autorewrite with word.
  rewrite (bool_decide_false (i < N)%nat) by lia. simpl. by rewrite andb_false_r.
Qed.

Lemma bit_instance_high m i : in_word (N + N) m → (N ≤ i)%nat → bit (instance_bitmap m) i = false.
Proof.
  intros Hm Hi. unfold Bag.instance_bitmap. autorewrite with word.
  rewrite (bit_high (N + N)) by (auto with lia). by rewrite andb_false_r.
Qed.

(** ** The searches *)

Lemma free_slot_some fuel instance own i :
  free_slot N fuel instance own = Some i →
  (i < N)%nat ∧ bit instance i = false ∧ bit own i = false.
Proof.
  revert instance. induction fuel as [| fuel IH]; intros instance; simpl; [done |].
  destruct (Nat.ltb_spec (trailing_ones 32 instance) N) as [Hlt |]; [| done].
  rewrite land_bit_test. destruct (bit own (trailing_ones 32 instance)) eqn:Ho; simpl.
  - intros (Hi & Hb & Hob)%IH. autorewrite with word in Hb.
    apply orb_false_iff in Hb as [Hb _]. done.
  - intros [= <-]. split_and!; [done | | done]. apply trailing_ones_bit. lia.
Qed.

Lemma used_slot_some fuel instance own index i :
  used_slot N fuel instance own index = Some i →
  ((index < 32)%nat → bit instance index = true) →
  (i < N)%nat ∧ bit instance i = true ∧ bit own i = false.
Proof.
  revert index. induction fuel as [| fuel IH]; intros index; simpl; [done |].
  destruct (Nat.ltb_spec index N) as [Hlt |]; [| done].
  rewrite land_bit_test. destruct (bit own index) eqn:Ho; simpl.
  - intros Hs _. apply IH in Hs; [done |]. intros Hx.
    pose proof (trailing_zeros_bit _ _ Hx) as Hb. rewrite bit_land in Hb.
    by apply andb_true_iff in Hb as [? _].
  - intros [= <-] Hb. split_and!; [done | apply Hb; lia | done].
Qed.

(** ** Ghost state and invariant *)

(** What a thread does with a slot that it owns. *)
Inductive mode :=
  | Reserved            (* to be written *)
  | Written (v : T)     (* written, not published *)
  | Marked (v : T)      (* to be moved out *)
  | Taken.              (* moved out, not released *)

(** The slots a thread owns, the values it stored and the values it took out. *)
Record ghost := Ghost { mine : gmap nat mode; pushed : list T; popped : list T }.

Definition mode_ok (s : storage) (i : nat) (md : mode) : Prop :=
  match md with
  | Reserved => inst (metadata s) i = false ∧ content s i = None
  | Written v => inst (metadata s) i = false ∧ content s i = Some v
  | Marked v => inst (metadata s) i = true ∧ content s i = Some v
  | Taken => inst (metadata s) i = true ∧ content s i = None
  end.

(** The values that the storage holds. *)
Definition live (s : storage) : list T :=
  gather (λ i, if inst (metadata s) i then content s i else None) N.

Definition total (f : ghost → list T) (ls : list ghost) : list T := concat (f <$> ls).

Record inv (s : storage) (ls : list ghost) : Prop := {
  inv_word : in_word (N + N) (metadata s);
  inv_length : length (slots s) = N;
  inv_mine : ∀ t l i md, ls !! t = Some l → mine l !! i = Some md →
    (i < N)%nat ∧ owned (metadata s) i = true ∧ mode_ok s i md;
  inv_disj : ∀ t t' l l' i, t ≠ t' → ls !! t = Some l → ls !! t' = Some l' →
    is_Some (mine l !! i) → mine l' !! i = None;
  inv_owned : ∀ i, (i < N)%nat → owned (metadata s) i = true →
    ∃ t l, ls !! t = Some l ∧ is_Some (mine l !! i);
  inv_free : ∀ i, (i < N)%nat → owned (metadata s) i = false →
    inst (metadata s) i = bool_decide (is_Some (content s i));
  inv_vals : total pushed ls ≡ₚ total popped ls ++ live s
}.

(** Slot [i] looks the same in two states. *)
Definition same_slot (s s' : storage) (i : nat) : Prop :=
  inst (metadata s') i = inst (metadata s) i ∧
  owned (metadata s') i = owned (metadata s) i ∧
  content s' i = content s i.

(** Slot [i] after a step of a thread with the ghost value [l']. *)
Definition touched_ok (s' : storage) (l' : ghost) (i : nat) : Prop :=
  match mine l' !! i with
  | Some md => owned (metadata s') i = true ∧ mode_ok s' i md
  | None => owned (metadata s') i = false ∧
            inst (metadata s') i = bool_decide (is_Some (content s' i))
  end.

Lemma mode_ok_same s s' i md : same_slot s s' i → mode_ok s i md → mode_ok s' i md.
Proof. intros (Hi & _ & Hc). unfold mode_ok. by rewrite Hi, Hc. Qed.

(** A step of thread [t] touches the slots of [tch], which no other thread owns. *)
Lemma inv_step s s' ls t l l' (tch : nat → bool) :
  inv s ls → ls !! t = Some l →
  in_word (N + N) (metadata s') → length (slots s') = N →
  (∀ i, (i < N)%nat → tch i = false → same_slot s s' i ∧ mine l' !! i = mine l !! i) →
  (∀ i, (N ≤ i)%nat → mine l' !! i = None) →
  (∀ i, (i < N)%nat → tch i = true →
    (owned (metadata s) i = false ∨ is_Some (mine l !! i)) ∧ touched_ok s' l' i) →
  pushed l' ++ popped l ++ live s ≡ₚ pushed l ++ popped l' ++ live s' →
  inv s' (<[t := l']> ls).
Proof.
  intros HI Hl Hw Hlen' Hsame Hhigh Htouch Hvals.
  assert (Ht : (t < length ls)%nat) by (by eapply lookup_lt_Some).
  assert (Hother : ∀ t' l0 i md, t' ≠ t → ls !! t' = Some l0 → mine l0 !! i = Some md →
            (i < N)%nat ∧ tch i = false).
  { intros t' l0 i md Hne Hl0 Hmd. destruct (inv_mine _ _ HI _ _ _ _ Hl0 Hmd) as (Hi & Ho & _).
    split; [done |]. destruct (tch i) eqn:His; [| done].
    destruct (Htouch i Hi His) as [[Hf | Hm] _]; [congruence |].
    by rewrite (inv_disj _ _ HI t t' l l0 i) in Hmd. }
  constructor; auto.
  - intros t' l0 i md Hl0 Hmd. destruct (decide (t' = t)) as [-> | Hne].
    + rewrite list_lookup_insert_eq in Hl0 by done. simplify_eq.
      destruct (decide (i < N)%nat) as [Hi |]; [| rewrite Hhigh in Hmd; [done | lia]].
      destruct (tch i) eqn:His.
      * destruct (Htouch i Hi His) as [_ Hok]. unfold touched_ok in Hok.
        rewrite Hmd in Hok. destruct Hok. done.
      * destruct (Hsame i Hi His) as [Hsm Heq]. rewrite Heq in Hmd.
        destruct (inv_mine _ _ HI _ _ _ _ Hl Hmd) as (_ & Ho & Hok).
        split_and!; [done | | by eapply mode_ok_same].
        destruct Hsm as (_ & -> & _). done.
    + rewrite list_lookup_insert_ne in Hl0 by done.
      destruct (Hother _ _ _ _ Hne Hl0 Hmd) as [Hi His].
      destruct (Hsame i Hi His) as [Hsm _].
      destruct (inv_mine _ _ HI _ _ _ _ Hl0 Hmd) as (_ & Ho & Hok).
      split_and!; [done | | by eapply mode_ok_same].
      destruct Hsm as (_ & -> & _). done.
  - assert (Hmix : ∀ t' l0 i, t' ≠ t → ls !! t' = Some l0 → is_Some (mine l0 !! i) →
              mine l' !! i = None).
    { intros t' l0 i Hne Hl0 [md Hmd]. destruct (Hother _ _ _ _ Hne Hl0 Hmd) as [Hi His].
      destruct (Hsame i Hi His) as [_ ->]. eapply (inv_disj _ _ HI t' t); eauto. }
    intros t1 t2 l1 l2 i Hne Hl1 Hl2 Hm.
    destruct (decide (t1 = t)) as [-> |], (decide (t2 = t)) as [-> |]; [done | | |].
    + rewrite list_lookup_insert_eq in Hl1 by done.
      rewrite list_lookup_insert_ne in Hl2 by done. simplify_eq.
      destruct (mine l2 !! i) as [md |] eqn:Hmd; [| done].
      destruct Hm as [md' Hm]. by rewrite (Hmix t2 l2 i) in Hm by eauto.
    + rewrite list_lookup_insert_ne in Hl1 by done.
      rewrite list_lookup_insert_eq in Hl2 by done. simplify_eq. by eapply Hmix.
    + rewrite list_lookup_insert_ne in Hl1 by done.
      rewrite list_lookup_insert_ne in Hl2 by done. by eapply (inv_disj _ _ HI t1 t2).
  - intros i Hi Ho. destruct (tch i) eqn:His.
    + destruct (Htouch i Hi His) as [_ Hok]. unfold touched_ok in Hok.
      destruct (mine l' !! i) as [md |] eqn:Hmd; [| destruct Hok; congruence].
      exists t, l'. rewrite list_lookup_insert_eq by done. eauto.
    + destruct (Hsame i Hi His) as [(_ & Hsm & _) Heq]. rewrite Hsm in Ho.
      destruct (inv_owned _ _ HI i Hi Ho) as (t0 & l0 & Hl0 & Hm).
      destruct (decide (t0 = t)) as [-> |].
      * exists t, l'. rewrite list_lookup_insert_eq by done. simplify_eq. by rewrite Heq.
      * exists t0, l0. by rewrite list_lookup_insert_ne by done.
  - intros i Hi Ho. destruct (tch i) eqn:His.
    + destruct (Htouch i Hi His) as [_ Hok]. unfold touched_ok in Hok.
      destruct (mine l' !! i); destruct Hok; [congruence | done].
    + destruct (Hsame i Hi His) as [(-> & Hsm & ->) _]. rewrite Hsm in Ho.
      by apply (inv_free _ _ HI).
  - unfold total. eapply vals_step; [by apply concat_insert_perm .. | | exact Hvals].
    apply (inv_vals _ _ HI).
Qed.

(** A step that touches one slot. *)
Lemma inv_step_one s s' ls t l l' i :
  inv s ls → ls !! t = Some l → (i < N)%nat →
  in_word (N + N) (metadata s') → length (slots s') = N →
  (∀ j, (j < N)%nat → j ≠ i → same_slot s s' j) →
  (∀ j, j ≠ i → mine l' !! j = mine l !! j) →
  (owned (metadata s) i = false ∨ is_Some (mine l !! i)) → touched_ok s' l' i →
  pushed l' ++ popped l ++ live s ≡ₚ pushed l ++ popped l' ++ live s' →
  inv s' (<[t := l']> ls).
Proof.
  intros HI Hl Hi Hw Hlen' Hsame Hmine Hown Hok Hvals.
  apply (inv_step s s' ls t l l' (λ j, bool_decide (j = i))); auto.
  - intros j Hj Hne%bool_decide_eq_false. auto.
  - intros j Hj. rewrite Hmine by lia. destruct (mine l !! j) as [md |] eqn:Hmd; [| done].
    destruct (inv_mine _ _ HI _ _ _ _ Hl Hmd). lia.
  - intros j Hj ->%bool_decide_eq_true. auto.
Qed.

Lemma live_update s s' i :
  (i < N)%nat → (∀ j, (j < N)%nat → j ≠ i → same_slot s s' j) →
  live s' ++ option_list (if inst (metadata s) i then content s i else None) ≡ₚ
  live s ++ option_list (if inst (metadata s') i then content s' i else None).
Proof.
  intros Hi Hsame. unfold live.
  set (g := λ j, if decide (j < N)%nat then
                   if inst (metadata s') j then content s' j else None
                 else if inst (metadata s) j then content s j else None).
  rewrite (gather_ext (λ j, if inst (metadata s') j then content s' j else None) g).
  2: { intros j Hj. unfold g. by rewrite decide_True. }
  rewrite (gather_update_perm (λ j, if inst (metadata s) j then content s j else None) g N i Hi).
  { unfold g. by rewrite decide_True. }
  intros j Hj. unfold g. case_decide; [| done]. by destruct (Hsame j) as (-> & _ & ->).
Qed.

Lemma live_same s s' i :
  (i < N)%nat → (∀ j, (j < N)%nat → j ≠ i → same_slot s s' j) →
  (if inst (metadata s') i then content s' i else None) =
    (if inst (metadata s) i then content s i else None) →
  live s' = live s.
Proof.
  intros Hi Hsame Heq. apply gather_ext. intros j Hj.
  destruct (decide (j = i)) as [-> |]; [done |]. by destruct (Hsame j) as (-> & _ & ->).
Qed.

(** ** The metadata that the operations write *)

Lemma content_insert (sl : list (option T)) m i j v :
  (i < length sl)%nat →
  content (Storage (<[i := v]> sl) m) j =
    if decide (i = j) then v else content (Storage sl m) j.
Proof.
  intros Hi. unfold content. simpl. case_decide; subst.
  - by rewrite list_lookup_insert_eq.
  - by rewrite list_lookup_insert_ne.
Qed.

Local Ltac bits :=
  intros; unfold inst, owned; autorewrite with word; word_cases;
  repeat match goal with |- context [bit ?x ?j] => destruct (bit x j) end; simpl;
  try done; try lia.

Lemma inst_reserve m i j : (i < N)%nat → inst (Z.lor m (one_shl i)) j = inst m j.
Proof. bits. Qed.
Lemma owned_reserve m i j : owned (Z.lor m (one_shl i)) j = owned m j || bool_decide (i = j).
Proof. bits. Qed.

Definition released (m : Z) (i : nat) : Z := Z.land m (unot usize_bits (one_shl i)).
Definition published (m : Z) (i : nat) : Z := Z.lor (released m i) (one_shl (i + N)).
Definition vacated (m : Z) (i : nat) : Z :=
  Z.land m (unot usize_bits (Z.lor (one_shl i) (one_shl (i + N)))).

Lemma bit_released m i j :
  (j < 64)%nat → bit (released m i) j = bit m j && negb (bool_decide (i = j)).
Proof. intros. unfold released, usize_bits. bits. Qed.

Lemma inst_released m i j : (i < N)%nat → (j < N)%nat → inst (released m i) j = inst m j.
Proof. intros. unfold inst. rewrite bit_released by lia. bits. Qed.
Lemma owned_released m i j :
  (j < N)%nat → owned (released m i) j = owned m j && negb (bool_decide (i = j)).
Proof. intros. unfold owned. by rewrite bit_released by lia. Qed.

Lemma inst_published m i j :
  (i < N)%nat → (j < N)%nat → inst (published m i) j = inst m j || bool_decide (i = j).
Proof.
  intros. unfold published, inst. rewrite bit_lor. fold (inst (released m i) j).
  rewrite inst_released by done. bits.
Qed.
Lemma owned_published m i j :
  (i < N)%nat → (j < N)%nat → owned (published m i) j = owned m j && negb (bool_decide (i = j)).
Proof.
  intros. unfold published, owned. rewrite bit_lor. fold (owned (released m i) j).
  rewrite owned_released by done. bits.
Qed.

Lemma inst_vacated m i j :
  (i < N)%nat → (j < N)%nat → inst (vacated m i) j = inst m j && negb (bool_decide (i = j)).
Proof. intros. unfold vacated, usize_bits, inst. bits. Qed.
Lemma owned_vacated m i j :
  (i < N)%nat → (j < N)%nat → owned (vacated m i) j = owned m j && negb (bool_decide (i = j)).
Proof. intros. unfold vacated, usize_bits, owned. bits. Qed.

Lemma in_word_reserve m i : (i < N)%nat → in_word (N + N) m → in_word (N + N) (Z.lor m (one_shl i)).
Proof. intros. apply in_word_lor; [done | apply in_word_one_shl; lia]. Qed.
Lemma in_word_released m i : in_word (N + N) m → in_word (N + N) (released m i).
Proof. apply in_word_land_l. Qed.
Lemma in_word_published m i :
  (i < N)%nat → in_word (N + N) m → in_word (N + N) (published m i).
Proof. intros. apply in_word_lor; [by apply in_word_released | apply in_word_one_shl; lia]. Qed.
Lemma in_word_vacated m i : in_word (N + N) m → in_word (N + N) (vacated m i).
Proof. apply in_word_land_l. Qed.

(** ** The steps of the operations *)

Section Steps.
Context (s : storage) (ls : list ghost) (t : nat) (M : gmap nat mode) (P Q : list T) (i : nat).
Context (HI : inv s ls).

Lemma mine_slot md :
  ls !! t = Some (Ghost M P Q) → M !! i = Some md →
  (i < N)%nat ∧ (i < length (slots s))%nat ∧ owned (metadata s) i = true ∧ mode_ok s i md.
Proof.
  intros Hl Hmd. destruct (inv_mine _ _ HI t _ i md Hl Hmd) as (? & ? & ?).
  rewrite (inv_length _ _ HI). done.
Qed.

Local Ltac touched :=
  unfold touched_ok, mode_ok; simpl; rewrite ?lookup_insert_eq, ?lookup_delete_eq.

Local Ltac frame :=
  intros; first [by rewrite lookup_insert_ne | by rewrite lookup_delete_ne].

Lemma step_reserve :
  ls !! t = Some (Ghost M P Q) → (i < N)%nat →
  owned (metadata s) i = false → inst (metadata s) i = false →
  inv (set_metadata (Z.lor (metadata s) (one_shl i)) s)
      (<[t := Ghost (<[i := Reserved]> M) P Q]> ls).
Proof.
  intros Hl Hi Ho Hn.
  assert (Hsame : ∀ j, (j < N)%nat → j ≠ i →
    same_slot s (set_metadata (Z.lor (metadata s) (one_shl i)) s) j).
  { intros j Hj Hne. unfold same_slot. simpl. rewrite inst_reserve, owned_reserve by done.
    by rewrite bool_decide_false, orb_false_r by done. }
  eapply (inv_step_one s _ ls t _ _ i HI Hl Hi); simpl;
    [apply in_word_reserve; [done | apply (inv_word _ _ HI)] | apply (inv_length _ _ HI)
    | done | frame | by left | |].
  - touched. rewrite inst_reserve, owned_reserve, bool_decide_true, orb_true_r by done.
    split_and!; auto. pose proof (inv_free _ _ HI i Hi Ho) as Hf. rewrite Hn in Hf.
    change (content (set_metadata _ s) i) with (content s i).
    destruct (content s i) eqn:Hc; [| done]. by rewrite bool_decide_true in Hf by eauto.
  - rewrite (live_same _ _ i Hi Hsame); [done |]. simpl. by rewrite inst_reserve, Hn.
Qed.

Lemma step_write v :
  ls !! t = Some (Ghost M P Q) → M !! i = Some Reserved →
  inv (Storage (<[i := Some v]> (slots s)) (metadata s))
      (<[t := Ghost (<[i := Written v]> M) P Q]> ls).
Proof.
  intros Hl Hm. destruct (mine_slot _ Hl Hm) as (Hi & Hs & Ho & Hin & Hc).
  assert (Hsame : ∀ j, (j < N)%nat → j ≠ i →
    same_slot s (Storage (<[i := Some v]> (slots s)) (metadata s)) j).
  { intros j Hj Hne. unfold same_slot. rewrite content_insert by done.
    rewrite decide_False by done. by destruct s. }
  eapply (inv_step_one s _ ls t _ _ i HI Hl Hi); simpl;
    [apply (inv_word _ _ HI) | rewrite length_insert; apply (inv_length _ _ HI)
    | done | frame | by right; eauto | |].
  - touched. rewrite content_insert by done. by rewrite decide_True.
  - rewrite (live_same _ _ i Hi Hsame); [done |]. simpl. by rewrite Hin.
Qed.

Lemma step_unwrite v :
  ls !! t = Some (Ghost M P Q) → M !! i = Some (Written v) →
  inv (Storage (<[i := None]> (slots s)) (metadata s))
      (<[t := Ghost (<[i := Reserved]> M) P Q]> ls).
Proof.
  intros Hl Hm. destruct (mine_slot _ Hl Hm) as (Hi & Hs & Ho & Hin & Hc).
  assert (Hsame : ∀ j, (j < N)%nat → j ≠ i →
    same_slot s (Storage (<[i := None]> (slots s)) (metadata s)) j).
  { intros j Hj Hne. unfold same_slot. rewrite content_insert by done.
    rewrite decide_False by done. by destruct s. }
  eapply (inv_step_one s _ ls t _ _ i HI Hl Hi); simpl;
    [apply (inv_word _ _ HI) | rewrite length_insert; apply (inv_length _ _ HI)
    | done | frame | by right; eauto | |].
  - touched. rewrite content_insert by done. by rewrite decide_True.
  - rewrite (live_same _ _ i Hi Hsame); [done |]. simpl. by rewrite Hin.
Qed.

Lemma step_publish v :
  ls !! t = Some (Ghost M P Q) → M !! i = Some (Written v) →
  inv (set_metadata (published (metadata s) i) s)
      (<[t := Ghost (delete i M) (P ++ [v]) Q]> ls).
Proof.
  intros Hl Hm. destruct (mine_slot _ Hl Hm) as (Hi & Hs & Ho & Hin & Hc).
  assert (Hsame : ∀ j, (j < N)%nat → j ≠ i →
    same_slot s (set_metadata (published (metadata s) i) s) j).
  { intros j Hj Hne. unfold same_slot. simpl. rewrite inst_published, owned_published by done.
    by rewrite bool_decide_false, orb_false_r, andb_true_r by done. }
  eapply (inv_step_one s _ ls t _ _ i HI Hl Hi); simpl;
    [apply in_word_published; [done | apply (inv_word _ _ HI)] | apply (inv_length _ _ HI)
    | done | frame | by right; eauto | |].
  - touched. rewrite inst_published, owned_published, bool_decide_true by done.
    rewrite orb_true_r, andb_false_r. split; [done |].
    change (content (set_metadata _ s) i) with (content s i). by rewrite Hc.
  - pose proof (live_update _ _ i Hi Hsame) as HL. simpl in HL.
    rewrite inst_published, bool_decide_true, orb_true_r, Hin in HL by done.
    change (content (set_metadata _ s) i) with (content s i) in HL. rewrite Hc in HL. simpl in HL.
    rewrite app_nil_r in HL. rewrite HL, <-!app_assoc. apply Permutation_app_head.
    rewrite (Permutation_app_comm [v]), <-app_assoc. done.
Qed.

Lemma step_release :
  ls !! t = Some (Ghost M P Q) → M !! i = Some Reserved →
  inv (set_metadata (released (metadata s) i) s)
      (<[t := Ghost (delete i M) P Q]> ls).
Proof.
  intros Hl Hm. destruct (mine_slot _ Hl Hm) as (Hi & Hs & Ho & Hin & Hc).
  assert (Hsame : ∀ j, (j < N)%nat → j ≠ i →
    same_slot s (set_metadata (released (metadata s) i) s) j).
  { intros j Hj Hne. unfold same_slot. simpl. rewrite inst_released, owned_released by done.
    by rewrite bool_decide_false, andb_true_r by done. }
  eapply (inv_step_one s _ ls t _ _ i HI Hl Hi); simpl;
    [apply in_word_released, (inv_word _ _ HI) | apply (inv_length _ _ HI)
    | done | frame | by right; eauto | |].
  - touched. rewrite inst_released, owned_released, bool_decide_true, andb_false_r by done.
    split; [done |]. change (content (set_metadata _ s) i) with (content s i). by rewrite Hc.
  - rewrite (live_same _ _ i Hi Hsame); [done |]. simpl. by rewrite inst_released, Hin.
Qed.

Lemma step_take v :
  ls !! t = Some (Ghost M P Q) → M !! i = Some (Marked v) →
  inv (Storage (<[i := None]> (slots s)) (metadata s))
      (<[t := Ghost (<[i := Taken]> M) P (Q ++ [v])]> ls).
Proof.
  intros Hl Hm. destruct (mine_slot _ Hl Hm) as (Hi & Hs & Ho & Hin & Hc).
  assert (Hsame : ∀ j, (j < N)%nat → j ≠ i →
    same_slot s (Storage (<[i := None]> (slots s)) (metadata s)) j).
  { intros j Hj Hne. unfold same_slot. rewrite content_insert by done.
    rewrite decide_False by done. by destruct s. }
  eapply (inv_step_one s _ ls t _ _ i HI Hl Hi); simpl;
    [apply (inv_word _ _ HI) | rewrite length_insert; apply (inv_length _ _ HI)
    | done | frame | by right; eauto | |].
  - touched. rewrite content_insert by done. by rewrite decide_True.
  - pose proof (live_update _ _ i Hi Hsame) as HL. simpl in HL.
    rewrite content_insert, decide_True, Hin, Hc in HL by done. simpl in HL.
    rewrite app_nil_r in HL. rewrite <-HL. apply Permutation_app_head.
    rewrite <-!app_assoc. apply Permutation_app_head, Permutation_app_comm.
Qed.

Lemma step_mark v :
  ls !! t = Some (Ghost M P Q) → (i < N)%nat →
  owned (metadata s) i = false → inst (metadata s) i = true → content s i = Some v →
  inv (set_metadata (Z.lor (metadata s) (one_shl i)) s)
      (<[t := Ghost (<[i := Marked v]> M) P Q]> ls).
Proof.
  intros Hl Hi Ho Hn Hc.
  assert (Hsame : ∀ j, (j < N)%nat → j ≠ i →
    same_slot s (set_metadata (Z.lor (metadata s) (one_shl i)) s) j).
  { intros j Hj Hne. unfold same_slot. simpl. rewrite inst_reserve, owned_reserve by done.
    by rewrite bool_decide_false, orb_false_r by done. }
  eapply (inv_step_one s _ ls t _ _ i HI Hl Hi); simpl;
    [apply in_word_reserve; [done | apply (inv_word _ _ HI)] | apply (inv_length _ _ HI)
    | done | frame | by left | |].
  - touched. rewrite inst_reserve, owned_reserve, bool_decide_true, orb_true_r by done. done.
  - rewrite (live_same _ _ i Hi Hsame); [done |]. simpl. by rewrite inst_reserve.
Qed.

Lemma step_vacate :
  ls !! t = Some (Ghost M P Q) → M !! i = Some Taken →
  inv (set_metadata (vacated (metadata s) i) s)
      (<[t := Ghost (delete i M) P Q]> ls).
Proof.
  intros Hl Hm. destruct (mine_slot _ Hl Hm) as (Hi & Hs & Ho & Hin & Hc).
  assert (Hsame : ∀ j, (j < N)%nat → j ≠ i →
    same_slot s (set_metadata (vacated (metadata s) i) s) j).
  { intros j Hj Hne. unfold same_slot. simpl. rewrite inst_vacated, owned_vacated by done.
    by rewrite bool_decide_false, !andb_true_r by done. }
  eapply (inv_step_one s _ ls t _ _ i HI Hl Hi); simpl;
    [apply in_word_vacated, (inv_word _ _ HI) | apply (inv_length _ _ HI)
    | done | frame | by right; eauto | |].
  - touched. rewrite inst_vacated, owned_vacated, bool_decide_true, !andb_false_r by done.
    split; [done |]. change (content (set_metadata _ s) i) with (content s i). by rewrite Hc.
  - rewrite (live_same _ _ i Hi Hsame); [done |]. simpl.
    change (content (set_metadata _ s) i) with (content s i). rewrite Hc. by repeat case_match.
Qed.
End Steps.

(** Marking the slots of a bitmap [B] for removal, and releasing them. *)
Section Many.
Context (B : Z) (HB : in_word 32 B).

Definition marked_map (s : storage) : gmap nat mode :=
  map_of (λ i, if bit B i then Marked <$> content s i else None) N.

Definition cleared (m : Z) : Z :=
  Z.land m (unot usize_bits (Z.lor (ushl B N) B)).

Lemma inst_mark m j : (∀ i, (N ≤ i)%nat → bit B i = false) → inst (Z.lor m B) j = inst m j.
Proof. intros HBh. unfold inst. rewrite bit_lor, HBh, orb_false_r by lia. done. Qed.

Lemma owned_mark m j : owned (Z.lor m B) j = owned m j || bit B j.
Proof. apply bit_lor. Qed.

Lemma inst_cleared m j :
  (∀ i, (N ≤ i)%nat → bit B i = false) → (j < N)%nat →
  inst (cleared m) j = inst m j && negb (bit B j).
Proof.
  intros HBh Hj. unfold cleared, inst, usize_bits. rewrite bit_land, bit_unot_low by lia.
  rewrite bit_lor, bit_ushl, (bool_decide_true (N ≤ j + N)%nat), (HBh (j + N)%nat), orb_false_r by lia.
  simpl.
  by replace (j + N - N)%nat with j by lia.
Qed.

Lemma owned_cleared m j :
  (j < N)%nat → owned (cleared m) j = owned m j && negb (bit B j).
Proof.
  intros Hj. unfold cleared, owned, usize_bits. rewrite bit_land, bit_unot_low by lia.
  rewrite bit_lor, bit_ushl, (bool_decide_false (N ≤ j)%nat) by lia. done.
Qed.

Context (s : storage) (ls : list ghost) (t : nat) (P Q : list T) (HI : inv s ls).
Context (Hsub : ∀ i, bit B i = true →
  (i < N)%nat ∧ inst (metadata s) i = true ∧ owned (metadata s) i = false).

Lemma step_mark_many :
  ls !! t = Some (Ghost ∅ P Q) →
  inv (set_metadata (Z.lor (metadata s) B) s) (<[t := Ghost (marked_map s) P Q]> ls).
Proof.
  intros Hl.
  assert (HBh : ∀ i, (N ≤ i)%nat → bit B i = false).
  { intros i Hi. destruct (bit B i) eqn:Hb; [destruct (Hsub i Hb); lia | done]. }
  eapply (inv_step s _ ls t _ _ (bit B) HI Hl); simpl.
  - apply in_word_lor; [apply (inv_word _ _ HI) |].
    apply in_word_bits; [unfold in_word in HB; lia | intros; apply HBh; lia].
  - apply (inv_length _ _ HI).
  - intros i Hi Hb. unfold same_slot. simpl. rewrite inst_mark, owned_mark, Hb, orb_false_r by done.
    split; [done |]. unfold marked_map. rewrite lookup_map_of_lt, Hb by done. done.
  - intros i Hi. unfold marked_map. by rewrite lookup_map_of_ge.
  - intros i Hi Hb. destruct (Hsub i Hb) as (_ & Hin & Ho). split; [by left |].
    pose proof (inv_free _ _ HI i Hi Ho) as Hf. rewrite Hin in Hf. symmetry in Hf.
    apply bool_decide_eq_true in Hf as [v Hv].
    unfold touched_ok, marked_map. simpl. rewrite lookup_map_of_lt, Hb, Hv by done. simpl.
    rewrite inst_mark, owned_mark, Hb, orb_true_r by done. done.
  - replace (live (set_metadata (Z.lor (metadata s) B) s)) with (live s); [done |].
    apply gather_ext. intros i Hi. simpl. by rewrite inst_mark by done.
Qed.
End Many.

Section Clear.
Context (B : Z) (s : storage) (ls : list ghost) (t : nat) (P Q : list T) (HI : inv s ls).
Context (HBh : ∀ i, bit B i = true → (i < N)%nat).
Context (M : gmap nat mode)
  (HM : ∀ i, (i < N)%nat → M !! i = if bit B i then Some Taken else None).

Lemma step_clear_many :
  ls !! t = Some (Ghost M P Q) →
  inv (set_metadata (cleared B (metadata s)) s) (<[t := Ghost ∅ P Q]> ls).
Proof.
  intros Hl.
  assert (HBh' : ∀ i, (N ≤ i)%nat → bit B i = false).
  { intros i Hi. destruct (bit B i) eqn:Hb; [apply HBh in Hb; lia | done]. }
  assert (Hc : ∀ i, (i < N)%nat → bit B i = true → content s i = None ∧ M !! i = Some Taken).
  { intros i Hi Hb. pose proof (HM i Hi) as Hm. rewrite Hb in Hm.
    by destruct (mine_slot s ls t M P Q i HI _ Hl Hm) as (_ & _ & _ & _ & ?). }
  eapply (inv_step s _ ls t _ _ (bit B) HI Hl); simpl.
  - apply in_word_land_l, (inv_word _ _ HI).
  - apply (inv_length _ _ HI).
  - intros i Hi Hb. unfold same_slot. simpl.
    rewrite inst_cleared, owned_cleared, Hb, !andb_true_r, lookup_empty by done.
    split; [done |]. rewrite HM by done. by rewrite Hb.
  - intros i Hi. apply lookup_empty.
  - intros i Hi Hb. destruct (Hc i Hi Hb) as [Hci Hm]. split; [right; eauto |].
    unfold touched_ok. simpl. rewrite lookup_empty.
    rewrite inst_cleared, owned_cleared, Hb, !andb_false_r by done.
    change (content (set_metadata _ s) i) with (content s i). by rewrite Hci.
  - replace (live (set_metadata (cleared B (metadata s)) s)) with (live s); [done |].
    apply gather_ext. intros i Hi. simpl. rewrite inst_cleared by done.
    change (content (set_metadata _ s) i) with (content s i).
    destruct (bit B i) eqn:Hb; simpl; [| by rewrite andb_true_r].
    rewrite andb_false_r. destruct (Hc i Hi Hb) as [-> _]. by destruct (inst _ _).
Qed.
End Clear.

(** ** Specifications of the operations *)

Lemma lookup_single (i : nat) (md : mode) (M : gmap nat mode) : <[i := md]> M !! i = Some md.
Proof. apply lookup_insert_eq. Qed.

Lemma write_slot_spec t i val M P Q :
  M !! i = Some Reserved →
  wp inv t (write_slot i val) (Ghost M P Q) (λ _ l, l = Ghost (<[i := Written val]> M) P Q).
Proof. intros Hm s ls Hl HI. eexists. split; [by apply step_write | done]. Qed.

Lemma unwrite_slot_spec t i val M P Q :
  M !! i = Some (Written val) →
  wp inv t (read_slot i) (Ghost M P Q) (λ v l, v = val ∧ l = Ghost (<[i := Reserved]> M) P Q).
Proof.
  intros Hm s ls Hl HI. eexists. split; [by eapply step_unwrite |].
  destruct (mine_slot s ls t M P Q i HI _ Hl Hm) as (_ & _ & _ & _ & Hc). simpl. by rewrite Hc.
Qed.

Lemma take_slot_spec t i val M P Q :
  M !! i = Some (Marked val) →
  wp inv t (read_slot i) (Ghost M P Q)
    (λ v l, v = val ∧ l = Ghost (<[i := Taken]> M) P (Q ++ [val])).
Proof.
  intros Hm s ls Hl HI. eexists. split; [by eapply step_take |].
  destruct (mine_slot s ls t M P Q i HI _ Hl Hm) as (_ & _ & _ & _ & Hc). simpl. by rewrite Hc.
Qed.

Lemma bag_release_spec t i M P Q :
  M !! i = Some Reserved →
  wp inv t (fetch_modify metadata set_metadata
              (λ m, Z.land m (unot usize_bits (one_shl i)))) (Ghost M P Q)
    (λ _ l, l = Ghost (delete i M) P Q).
Proof. intros Hm s ls Hl HI. eexists. split; [by apply step_release | done]. Qed.

(** The assertions on the two bits of an owned slot. *)
Lemma owned_test m i : owned m i = true → negb (Z.land m (one_shl i) =? 0) = true.
Proof. intros Ho. rewrite land_bit_test. fold (owned m i). by rewrite Ho. Qed.

Lemma inst_test m i : (Z.land m (one_shl (i + N)) =? 0) = negb (inst m i).
Proof. apply land_bit_test. Qed.

Lemma wp_fetch_update_assert {R} t chk f (k : Z + Z → prog storage R) l Φ :
  (∀ s ls, ls !! t = Some l → inv s ls →
    chk (metadata s) = true ∧
    match f (metadata s) with
    | Some m => ∃ l', inv (set_metadata m s) (<[t := l']> ls) ∧
                      wp inv t (k (inl (metadata s))) l' Φ
    | None => wp inv t (k (inr (metadata s))) l Φ
    end) →
  wp inv t (bind (fetch_update_assert chk f) k) l Φ.
Proof.
  intros Hk s ls Hl HI. destruct (Hk s ls Hl HI) as [Hc Hf]. simpl. rewrite Hc.
  destruct (f (metadata s)) as [m |]; [done |]. exists l. simpl.
  by rewrite list_insert_id.
Qed.

Lemma push_spec t n val allow_empty P Q :
  wp inv t (storage_push N n val allow_empty) (Ghost ∅ P Q)
    (λ r l, match r with
            | None => l = Ghost ∅ (P ++ [val]) Q
            | Some v => v = val ∧ l = Ghost ∅ P Q
            end).
Proof.
  unfold storage_push. apply wp_load. intros s ls Hl HI.
  eapply wp_loop with (J := λ m l, l = Ghost ∅ P Q); [done |]. clear -Hlen.
  intros m l ->. cbv zeta. destruct (negb allow_empty && _) eqn:He; [done |].
  destruct (free_slot _ _ _ _) as [i |] eqn:Hf; [| done].
  apply free_slot_some in Hf as (Hi & Hin & Ho).
  rewrite bit_instance in Hin by done. rewrite bit_owned in Ho by done.
  apply wp_cas_weak; [| done]. intros s ls Hl HI <-.
  eexists. split; [by apply step_reserve |]. clear s ls Hl HI He Hin Ho.
  eapply wp_call; [by apply write_slot_spec, lookup_single |]. intros [] l ->.
  rewrite insert_insert_eq. apply wp_fetch_update_assert. intros s ls Hl HI.
  destruct (mine_slot s ls t _ P Q i HI _ Hl (lookup_single _ _ _)) as (_ & _ & Ho & Hin & Hc).
  rewrite owned_test, inst_test, Hin by done. split; [done |].
  destruct (negb allow_empty && _) eqn:He.
  - eapply wp_call; [by apply unwrite_slot_spec, lookup_single |]. intros v l (-> & ->).
    rewrite insert_insert_eq.
    eapply wp_call; [by apply bag_release_spec, lookup_single |]. intros _ l ->.
    simpl. by rewrite delete_insert_id by apply lookup_empty.
  - eexists. split; [by eapply step_publish, lookup_single |].
    simpl. by rewrite delete_insert_id by apply lookup_empty.
Qed.

Lemma pop_spec t n P Q :
  wp inv t (storage_pop N n) (Ghost ∅ P Q)
    (λ r l, l = Ghost ∅ P (Q ++ option_list r.1)).
Proof.
  unfold storage_pop. apply wp_load. intros s ls Hl HI.
  eapply wp_loop with (J := λ m l, l = Ghost ∅ P Q); [done |]. clear -Hlen.
  intros m l ->. cbv zeta.
  destruct (used_slot _ _ _ _ _) as [i |] eqn:Hf; [| simpl; by rewrite app_nil_r].
  apply used_slot_some in Hf as (Hi & Hin & Ho); [| apply trailing_zeros_bit].
  rewrite bit_instance in Hin by done. rewrite bit_owned in Ho by done.
  apply wp_cas_weak; [| done]. intros s ls Hl HI <-.
  pose proof (inv_free _ _ HI i Hi Ho) as Hc. rewrite Hin in Hc. symmetry in Hc.
  apply bool_decide_eq_true in Hc as [v Hv].
  eexists. split; [by apply (step_mark s ls t ∅ P Q i HI v) |]. clear s ls Hl HI Hin Ho Hv.
  eapply wp_call; [by apply take_slot_spec, lookup_single |]. intros v' l (-> & ->).
  rewrite insert_insert_eq. apply wp_fetch_update_assert. intros s ls Hl HI.
  destruct (mine_slot s ls t _ _ _ i HI _ Hl (lookup_single _ _ _)) as (_ & _ & Ho & Hin & Hc).
  rewrite owned_test, inst_test, Hin by done. split; [done |].
  eexists. split; [by eapply step_vacate, lookup_single |].
  simpl. by rewrite delete_insert_id by apply lookup_empty.
Qed.

(** The slots of [B] below [index] were moved out, the others are marked. *)
Definition drained (B : Z) (index : nat) (M : gmap nat mode) : Prop :=
  ∀ j, (j < N)%nat →
    if bit B j
    then if decide (j < index)%nat then M !! j = Some Taken else ∃ v, M !! j = Some (Marked v)
    else M !! j = None.

Lemma next_index_spec B index j :
  let next := trailing_zeros usize_bits
                (Z.land B (unot usize_bits (one_shl (index + 1) - 1))) in
  (index < 32)%nat →
  ((next < usize_bits)%nat → bit B next = true) ∧
  (bit B j = true → (index < j < usize_bits)%nat → (next ≤ j)%nat) ∧
  (index < next)%nat.
Proof.
  intros next Hi.
  assert (Hm : ∀ k, (k < 64)%nat →
    bit (Z.land B (unot usize_bits (one_shl (index + 1) - 1))) k = bit B k && bool_decide (index < k)%nat).
  { intros k Hk. unfold usize_bits. rewrite bit_land, bit_unot_low by done. f_equal.
    replace (one_shl (index + 1) - 1) with (umax (index + 1)).
    2: { unfold umax, one_shl. by rewrite Z.shiftl_1_l. }
    rewrite bit_umax. repeat case_bool_decide; simpl; done || lia. }
  assert (Hle : (next ≤ 64)%nat) by apply trailing_zeros_le. split_and!.
  - intros Hn. pose proof (trailing_zeros_bit _ _ Hn) as Hb. fold next in Hb.
    rewrite Hm in Hb by done. by apply andb_true_iff in Hb as [? _].
  - intros Hb Hj. destruct (le_lt_dec next j) as [| Hlt]; [done |].
    pose proof (trailing_zeros_below _ _ _ Hlt) as Hz. unfold usize_bits in *.
    rewrite Hm, Hb, bool_decide_true in Hz by lia. done.
  - destruct (decide (next < 64)%nat) as [Hn |]; [| lia].
    pose proof (trailing_zeros_bit _ _ Hn) as Hb. fold next in Hb.
    rewrite Hm in Hb by done. apply andb_true_iff in Hb as [_ Hb].
    by apply bool_decide_eq_true in Hb.
Qed.

Lemma drain_spec {B} t fuel (fold : B → T → B) bm index acc M P Q :
  ((index < usize_bits)%nat → bit bm index = true) → drained bm index M →
  wp inv t (drain_slots N fuel fold bm index acc) (Ghost M P Q)
    (λ acc' l, ∃ vs M', acc' = foldl fold acc vs ∧ l = Ghost M' P (Q ++ vs) ∧
                        drained bm usize_bits M').
Proof.
  revert index acc M Q. induction fuel as [| fuel IH]; intros index acc M Q Hb HM;
    cbn [drain_slots]; [done |].
  destruct (Nat.ltb_spec index N) as [Hlt | Hge].
  - pose proof (HM index Hlt) as Hm. rewrite Hb, decide_False in Hm by (unfold usize_bits; lia).
    destruct Hm as [v Hv]. eapply wp_call; [by apply take_slot_spec |]. intros v' l (-> & ->).
    destruct (next_index_spec bm index 0 ltac:(lia)) as (Hn1 & _ & Hn3).
    eapply wp_mono; [| apply IH; [exact Hn1 |]].
    + intros acc' l (vs & M' & -> & -> & HM'). exists (v :: vs), M'.
      by rewrite <-app_assoc.
    + intros j Hj. specialize (HM j Hj). destruct (bit bm j) eqn:Hbj.
      * destruct (decide (j = index)) as [-> | Hne].
        { rewrite decide_True by done. apply lookup_insert_eq. }
        rewrite lookup_insert_ne by done.
        destruct (decide (j < index)%nat) as [Hlt' |].
        { by rewrite decide_True by lia. }
        destruct (next_index_spec bm index j ltac:(lia)) as (_ & Hn2 & _).
        rewrite decide_False; [done |].
        specialize (Hn2 Hbj ltac:(unfold usize_bits; lia)). lia.
      * rewrite lookup_insert_ne; [done |]. intros <-.
        rewrite Hb in Hbj; [done |]. unfold usize_bits; lia.
  - simpl. exists [], M. rewrite app_nil_r. split_and!; [done | done |].
    intros j Hj. specialize (HM j Hj). destruct (bit bm j); [| done].
    rewrite decide_True by (unfold usize_bits; lia). by rewrite decide_True in HM by lia.
Qed.

Lemma clear_slots_spec t n bm m M P Q :
  (∀ i, bit bm i = true → (i < N)%nat) → drained bm usize_bits M →
  wp inv t (clear_slots N n bm m) (Ghost M P Q)
    (λ m' l, in_word (N + N) m' ∧ l = Ghost ∅ P Q).
Proof.
  intros Hbm HM. unfold clear_slots.
  eapply wp_loop with (J := λ _ l, l = Ghost M P Q); [done |].
  intros m' l ->. apply wp_cas_weak; [| done]. intros s ls Hl HI <-.
  eexists. split.
  - eapply step_clear_many; eauto. intros i Hi. specialize (HM i Hi).
    destruct (bit bm i); [| done]. by rewrite decide_True in HM by (unfold usize_bits; lia).
  - simpl. split; [apply in_word_land_l, (inv_word _ _ HI) | done].
Qed.

Lemma pop_all_spec {B} t n (init : B) fold allow_nonempty P Q :
  wp inv t (storage_pop_all N n init fold allow_nonempty) (Ghost ∅ P Q)
    (λ r l, ∃ vs, r = foldl fold init vs ∧ l = Ghost ∅ P (Q ++ vs)).
Proof.
  unfold storage_pop_all. apply wp_load. intros s ls Hl HI.
  eapply wp_loop with (J := λ '(acc, m) l, in_word (N + N) m ∧
    ∃ vs, acc = foldl fold init vs ∧ l = Ghost ∅ P (Q ++ vs)).
  { split; [apply (inv_word _ _ HI) |]. exists []. by rewrite app_nil_r. }
  clear -Hlen. intros [acc m] l (Hw & vs & -> & ->). cbv zeta.
  set (bm := Z.land (instance_bitmap m) (unot usize_bits (owned_bitmap m))).
  assert (Hbm : ∀ i, bit bm i = true →
    (i < N)%nat ∧ inst m i = true ∧ owned m i = false).
  { intros i Hb. unfold bm in Hb. rewrite bit_land in Hb. apply andb_true_iff in Hb as [Hb1 Hb2].
    assert ((i < N)%nat) as Hi.
    { destruct (decide (i < N)%nat); [done |]. rewrite bit_instance_high in Hb1; [done | done | lia]. }
    rewrite bit_instance in Hb1 by done. split_and!; [done | done |].
    unfold usize_bits in Hb2. rewrite bit_unot_low, bit_owned in Hb2 by lia.
    by apply negb_true_iff. }
  apply wp_dassert.
  { apply (land_zero_test 32); [apply in_word_land_l, in_word_instance |].
    intros i _ Hb. destruct (Hbm i Hb) as (Hi & _ & Ho). by rewrite bit_owned. }
  destruct (bm =? 0) eqn:Hz; [simpl; eauto |].
  apply wp_cas_weak; [| intros s ls Hl HI; simpl; split; [apply (inv_word _ _ HI) | eauto]].
  intros s ls Hl HI <-. eexists. split.
  { apply (step_mark_many bm); eauto. apply in_word_land_l, in_word_instance. }
  assert (HM : drained bm (trailing_zeros usize_bits bm) (marked_map bm s)).
  { intros j Hj. unfold marked_map. rewrite lookup_map_of_lt by done.
    destruct (bit bm j) eqn:Hb; [| done]. destruct (Hbm j Hb) as (_ & Hin & Ho).
    rewrite decide_False.
    2: { intros Hlt%trailing_zeros_below. congruence. }
    pose proof (inv_free _ _ HI j Hj Ho) as Hc. rewrite Hin in Hc. symmetry in Hc.
    apply bool_decide_eq_true in Hc as [v Hv]. rewrite Hv. simpl. eauto. }
  eapply wp_call; [apply drain_spec; [apply trailing_zeros_bit | exact HM] |].
  intros acc' l (vs' & M' & -> & -> & HM').
  eapply wp_call; [apply clear_slots_spec; [apply Hbm | exact HM'] |].
  intros m' l (Hw' & ->).
  assert (foldl fold (foldl fold init vs) vs' = foldl fold init (vs ++ vs')) as Hfold
    by (by rewrite foldl_app).
  destruct allow_nonempty; simpl; [| split; [done |]]; exists (vs ++ vs');
    rewrite app_assoc; by rewrite Hfold.
Qed.

(** ** Clients *)

Inductive op :=
  | Push (val : T) (allow_empty : bool)
  | Pop
  | PopAll (allow_nonempty : bool)
  | Len.

(** A thread that runs operations; it returns the values that it stored and the
    values that it took out. *)
Fixpoint client (n : nat) (ops : list op) (acc : list T * list T)
    : prog storage (list T * list T) :=
  match ops with
  | [] => Ret acc
  | Push val allow_empty :: ops =>
      let! r := storage_push N n val allow_empty in
      client n ops (match r with None => (acc.1 ++ [val], acc.2) | Some _ => acc end)
  | Pop :: ops =>
      let! r := storage_pop N n in
      client n ops (acc.1, acc.2 ++ option_list r.1)
  | PopAll allow_nonempty :: ops =>
      let! vs := storage_pop_all N n [] (λ l v, l ++ [v]) allow_nonempty in
      client n ops (acc.1, acc.2 ++ vs)
  | Len :: ops =>
      let! _ := storage_len N in client n ops acc
  end.

Lemma foldl_snoc (l0 l : list T) : foldl (λ l v, l ++ [v]) l0 l = l0 ++ l.
Proof.
  revert l0. induction l as [| v l IH]; intros l0; simpl; [by rewrite app_nil_r |].
  by rewrite IH, <-app_assoc.
Qed.

Lemma bag_client_spec t n ops acc :
  wp inv t (client n ops acc) (Ghost ∅ acc.1 acc.2) (λ r l, l = Ghost ∅ r.1 r.2).
Proof.
  revert acc. induction ops as [| o ops IH]; intros [P Q]; cbn [client]; [done |].
  destruct o as [v ae | | an |].
  - eapply wp_call; [apply push_spec |]. intros [v' |] l Hl.
    + destruct Hl as (-> & ->). apply (IH (P, Q)).
    + subst l. apply (IH (P ++ [v], Q)).
  - eapply wp_call; [apply pop_spec |]. intros r l ->. apply (IH (P, Q ++ option_list r.1)).
  - eapply wp_call; [apply pop_all_spec |]. intros r l (vs & -> & ->).
    rewrite foldl_snoc. apply (IH (P, Q ++ vs)).
  - unfold storage_len. apply wp_bind, wp_load. intros s ls Hl HI. apply (IH (P, Q)).
Qed.

Lemma inv_new k : inv (storage_new N) (replicate k (Ghost ∅ [] [])).
Proof.
  assert (Hrep : ∀ t l, replicate k (Ghost ∅ [] []) !! t = Some l → l = Ghost ∅ [] []).
  { intros t l [-> _]%lookup_replicate. done. }
  constructor; simpl.
  - apply in_word_0.
  - apply length_replicate.
  - intros t l i md ->%Hrep. simpl. by rewrite lookup_empty.
  - intros t t' l l' i _ ->%Hrep ->%Hrep. intros _. apply lookup_empty.
  - intros i _. unfold owned. by rewrite bit_0.
  - intros i Hi _. unfold inst, content. simpl. rewrite bit_0, lookup_replicate_2 by done. done.
  - replace (live (storage_new N)) with (@nil T).
    + rewrite app_nil_r. unfold total. clear. by induction k.
    + unfold live. rewrite (gather_ext _ (λ _, None)).
      * unfold gather. by induction (seq 0 N).
      * intros i _. unfold inst. simpl. by rewrite bit_0.
Qed.

Lemma finished_totals (rs : list (list T * list T)) (ls : list ghost) :
  length ls = length rs →
  (∀ t r l, rs !! t = Some r → ls !! t = Some l → l = Ghost ∅ r.1 r.2) →
  total pushed ls = concat (fst <$> rs) ∧ total popped ls = concat (snd <$> rs) ∧
  ∀ t l, ls !! t = Some l → mine l = ∅.
Proof.
  revert rs. induction ls as [| l ls IH]; intros [| r rs] Hlen' Hf; simplify_eq/=; [done |].
  destruct (IH rs) as (H1 & H2 & H3); [done | intros t; apply (Hf (S t)) |].
  rewrite (Hf 0%nat r l) by done.
  unfold total in H1, H2 |- *. rewrite !fmap_cons. cbn [concat pushed popped]. rewrite H1, H2.
  split_and!; [done | done |]. intros [| t] l' Hl'; simplify_eq/=; [done | by eapply H3].
Qed.
End Invariant.

(** ** Properties *)

(** C15. The bag's storage under every interleaving of every number of threads that
    push, pop, drain and count: no assertion fails and no thread reads a slot that
    holds no instance; when the threads are done, no slot is left owned, and the
    values stored are, as a multiset, the values taken out and the values still
    in the storage: none is lost, none is duplicated. *)
Theorem storage_concurrent {T} (ARRAY_LEN n : nat) (threads_ops : list (list (op (T := T)))) p :
  (ARRAY_LEN ≤ 32)%nat →
  reachable (Pool ((λ ops, client ARRAY_LEN n ops ([], [])) <$> threads_ops)
                  (storage_new ARRAY_LEN)) p →
  (∀ t pr, threads p !! t = Some pr → ¬ panicking pr) ∧
  (∀ rs, threads p = Ret <$> rs →
    concat (fst <$> rs) ≡ₚ concat (snd <$> rs) ++ live ARRAY_LEN (shared p) ∧
    ∀ i, (i < ARRAY_LEN)%nat → owned (metadata (shared p)) i = false).
Proof.
  intros Hlen Hr.
  assert (Hok : pool_ok (inv ARRAY_LEN) (λ _ r l, l = Ghost ∅ r.1 r.2)
    (Pool ((λ ops, client ARRAY_LEN n ops ([], [])) <$> threads_ops) (storage_new ARRAY_LEN))
    (replicate (length threads_ops) (Ghost ∅ [] []))).
  { split_and!; simpl.
    - by apply inv_new.
    - by rewrite length_fmap, length_replicate.
    - intros t pr l Hpr [-> _]%lookup_replicate.
      apply list_lookup_fmap_Some in Hpr as (ops & -> & _).
      by apply (bag_client_spec ARRAY_LEN Hlen t n ops ([], [])). }
  destruct (pool_safe _ _ _ _ _ Hok Hr) as (ls & HI & Hll & Hnp & Hfin).
  split; [done |]. intros rs Hrs.
  destruct (finished_totals rs ls) as (H1 & H2 & H3).
  { by rewrite Hll, Hrs, length_fmap. }
  { intros t r l Ht Hl. apply (Hfin t); [| done]. rewrite Hrs. by rewrite list_lookup_fmap, Ht. }
  split.
  - rewrite <-H1, <-H2. apply (inv_vals _ _ _ HI).
  - intros i Hi. destruct (owned (metadata (shared p)) i) eqn:Ho; [| done].
    destruct (inv_owned _ _ _ HI i Hi Ho) as (t & l & Hl & Hm).
    rewrite (H3 t l Hl), lookup_empty in Hm. by destruct Hm.
Qed.

Lemma storage_concurrent_witness :
  let ops := [Push 1%Z true; Push 2%Z false; Pop; Push 3%Z true; PopAll false; Push 4%Z true] in
  ∃ p r, reachable (Pool ((λ ops, client 4 3 ops ([], [])) <$> [ops]) (storage_new 4)) p ∧
    threads p = [Ret r] ∧ r = ([1; 2; 3; 4], [1; 3; 2])%Z ∧
    concat [r.1] ≡ₚ concat [r.2] ++ live 4 (shared p).
Proof.
  intros ops.
  pose (s := Storage [Some 4%Z; None; None; None] 16).
  assert (reachable (Pool ((λ ops, client 4 3 ops ([], [])) <$> [ops]) (storage_new 4))
            (Pool [Ret ([1; 2; 3; 4], [1; 3; 2])%Z] s)) as Hr.
  { apply run_reachable. vm_compute. reflexivity. }
  exists (Pool [Ret ([1; 2; 3; 4], [1; 3; 2])%Z] s), ([1; 2; 3; 4], [1; 3; 2])%Z.
  split; [exact Hr |]. split; [reflexivity |]. split; [reflexivity |].
  assert (4 ≤ 32)%nat as H4 by lia.
  exact (proj1 (proj2 (storage_concurrent 4 3 [ops] _ H4 Hr) [([1; 2; 3; 4], [1; 3; 2])%Z] eq_refl)).
Defined.
