(* ===== verification/Lru.v ===== *)
(** * The LRU list of a cache bucket: [DoublyLinkedList] in [src/hash_table/bucket.rs]

    The list is circular and lives in an array of pairs of 8-bit indices, one pair
    per entry of the bucket: the first component links an entry to the one used
    just after it, the second to the one used just before it.  The pair (0, 0) is an
    entry that is not in the list, or an entry whose both neighbours are entry 0.
    The list's tail, one more than the index of the most recently used entry, is kept
    by the bucket; it is 0 when the list is empty. *)
From S2P Require Import Prelude Atomic.

Definition BUCKET_LEN : nat := 32.

(** [DoublyLinkedList]; the indices are below [BUCKET_LEN], and fit their 8 bits. *)
Definition DoublyLinkedList : Type := list (nat * nat).

(** [DoublyLinkedList::default()] *)
Definition lru_default : DoublyLinkedList := replicate BUCKET_LEN (0, 0).

(** [self[i]], and the assignments to its components; an index that is out of range
    panics. *)
Definition lru_get (i : nat) : prog DoublyLinkedList (nat * nat) :=
  Act (λ s : list (nat * nat), (s !! i, s)) (λ o, match o with Some p => Ret p | None => Panic end).

Definition lru_put (i : nat) (p : nat * nat) : prog DoublyLinkedList unit :=
  Act (λ s : list (nat * nat), (bool_decide (i < length s), <[i := p]> s)) (λ b, if b then Ret () else Panic).

Definition lru_put0 (i x : nat) : prog DoublyLinkedList unit :=
  let! p := lru_get i in lru_put i (x, p.2).

Definition lru_put1 (i x : nat) : prog DoublyLinkedList unit :=
  let! p := lru_get i in lru_put i (p.1, x).

(** [evict]: the entry and the new tail. *)
Definition lru_evict (tail : nat) : prog DoublyLinkedList (option (nat * nat)) :=
  if tail =? 0 then Ret None
  else
    let! t := lru_get (tail - 1) in
    let lru := t.1 in
    let! new_tail :=
      if tail - 1 =? lru then Ret 0
      else
        let! l := lru_get lru in
        let new_lru := l.1 in
        lru_put1 new_lru (tail - 1) ;;
        lru_put0 (tail - 1) new_lru ;;
        Ret tail in
    lru_put lru (0, 0) ;;
    Ret (Some (lru, new_tail)).

(** [remove]: the new tail, if it changes. *)
Definition lru_remove (tail entry : nat) : prog DoublyLinkedList (option nat) :=
  let! outside :=
    if tail =? 0 then Ret true
    else
      let! e := lru_get entry in
      if decide (e = (0, 0)) then
        let! z := lru_get 0 in
        Ret (negb (bool_decide (z = (entry, entry))) ||
             (negb (tail =? 1) && negb (tail =? entry + 1)))
      else Ret false in
  if outside : bool then Ret None
  else
    let! e := lru_get entry in
    if e.1 =? entry then
      dassert (tail =? entry + 1) ;;
      lru_put entry (0, 0) ;;
      Ret (Some 0)
    else
      let prev := e.1 in
      let! p := lru_get prev in
      dassert (p.2 =? entry) ;;
      lru_put1 prev e.2 ;;
      let! e := lru_get entry in
      let next := e.2 in
      let! n := lru_get next in
      dassert (n.1 =? entry) ;;
      lru_put0 next e.1 ;;
      let! e := lru_get entry in
      let new_tail := if tail =? entry + 1 then Some (e.2 + 1) else None in
      lru_put entry (0, 0) ;;
      Ret new_tail.

(** [promote]: the new tail, if it changes. *)
Definition lru_promote (tail entry : nat) : prog DoublyLinkedList (option nat) :=
  if tail =? entry + 1 then Ret None
  else if tail =? 0 then
    lru_put0 entry entry ;;
    lru_put1 entry entry ;;
    Ret (Some (entry + 1))
  else
    let! e := lru_get entry in
    let! inside :=
      if decide (e = (0, 0)) then
        let! z := lru_get 0 in Ret (bool_decide (z = (entry, entry)) && (tail =? 1))
      else Ret true in
    (if inside : bool then
       let prev := e.1 in
       let! p := lru_get prev in
       dassert (p.2 =? entry) ;;
       lru_put1 prev e.2 ;;
       let! e := lru_get entry in
       let next := e.2 in
       let! n := lru_get next in
       dassert (n.1 =? entry) ;;
       lru_put0 next e.1
     else Ret ()) ;;
    let! t := lru_get (tail - 1) in
    let oldest := t.1 in
    let! o := lru_get oldest in
    dassert (o.2 + 1 =? tail) ;;
    lru_put1 oldest entry ;;
    lru_put0 entry oldest ;;
    lru_put0 (tail - 1) entry ;;
    lru_put1 entry (tail - 1) ;;
    Ret (Some (entry + 1)).

(** ** Circular lists *)

(** [chain nx pv l]: consecutive elements of [l] are linked both ways. *)
Fixpoint chain (nx pv : nat → nat) (l : list nat) : Prop :=
  match l with
  | a :: r => match r with b :: _ => nx a = b ∧ pv b = a | [] => True end ∧ chain nx pv r
  | [] => True
  end.

Definition cycle (nx pv : nat → nat) (l : list nat) : Prop :=
  match l with h :: _ => chain nx pv (l ++ [h]) | [] => True end.

Lemma chain_app nx pv l1 x l2 :
  chain nx pv (l1 ++ x :: l2) ↔ chain nx pv (l1 ++ [x]) ∧ chain nx pv (x :: l2).
Proof.
  induction l1 as [| a l1 IH]; [simpl; tauto |].
  cbn [app chain]. rewrite IH. destruct l1 as [| b l1]; simpl; tauto.
Qed.

Lemma chain_snoc nx pv l x y :
  chain nx pv (l ++ [x; y]) ↔ chain nx pv (l ++ [x]) ∧ nx x = y ∧ pv y = x.
Proof. rewrite chain_app. simpl. tauto. Qed.

(** The links that a chain uses: forward ones of all but the last element, backward
    ones of all but the first. *)
Lemma chain_ext nx pv nx' pv' l :
  chain nx pv l →
  (∀ q y, l = q ++ [y] → ∀ a, a ∈ q → nx' a = nx a) →
  (∀ a r, l = a :: r → ∀ b, b ∈ r → pv' b = pv b) →
  chain nx' pv' l.
Proof.
  induction l as [| a l IH]; intros Hc Hnx Hpv; [done |].
  destruct l as [| b l]; [done |].
  destruct Hc as [[Hn Hp] Hc]. split; [split |].
  - destruct (exists_last (l := b :: l)) as (q & y & Heq); [done |].
    rewrite (Hnx (a :: q) y); [done | by rewrite Heq | left].
  - rewrite (Hpv a (b :: l)); [done | done | left].
  - apply IH; [done | |].
    + intros q y Heq c Hcq. apply (Hnx (a :: q) y); [by rewrite Heq | by right].
    + intros c r Heq d Hd. apply (Hpv a (b :: l) eq_refl). injection Heq as <- <-. by right.
Qed.

Lemma cycle_rotate nx pv l1 l2 : cycle nx pv (l1 ++ l2) → cycle nx pv (l2 ++ l1).
Proof.
  destruct l1 as [| a l1], l2 as [| b l2]; rewrite ?app_nil_r; [done.. |].
  unfold cycle. cbn [app]. rewrite <-!app_assoc. cbn [app].
  intros Hc. apply (chain_app nx pv (a :: l1) b (l2 ++ [a])) in Hc as [H1 H2].
  apply (chain_app nx pv (b :: l2) a (l1 ++ [b])). split; [exact H2 | exact H1].
Qed.

Definition upd (f : nat → nat) (i x : nat) : nat → nat := λ j, if decide (j = i) then x else f j.

Lemma upd_eq f i x : upd f i x i = x.
Proof. unfold upd. by rewrite decide_True. Qed.

Lemma upd_ne f i j x : j ≠ i → upd f i x j = f j.
Proof. intros. unfold upd. by rewrite decide_False. Qed.

(** The neighbours of the first element of a cycle. *)
Lemma cycle_head nx pv e q y :
  cycle nx pv (e :: q ++ [y]) → nx y = e ∧ pv e = y.
Proof.
  unfold cycle. cbn [app]. rewrite <-app_assoc. cbn [app].
  rewrite (app_comm_cons q), chain_snoc. tauto.
Qed.

Lemma cycle_next nx pv e x r : cycle nx pv (e :: x :: r) → nx e = x ∧ pv x = e.
Proof. unfold cycle. simpl. tauto. Qed.

(** Unlinking the first element. *)
Lemma cycle_unlink nx pv e r :
  NoDup (e :: r) → r ≠ [] → cycle nx pv (e :: r) →
  cycle (upd nx (pv e) (nx e)) (upd pv (nx e) (pv e)) r.
Proof.
  intros Hnd Hr Hc. destruct (exists_last Hr) as (q & y & ->).
  destruct (cycle_head _ _ _ _ _ Hc) as [Hy He]. rewrite He.
  destruct (q ++ [y]) as [| x r'] eqn:Hq; [by destruct q |].
  destruct (cycle_next _ _ _ _ _ Hc) as [Hx Hpx]. rewrite Hx.
  unfold cycle in Hc. cbn [app] in Hc. destruct Hc as [_ Hc].
  rewrite app_comm_cons, <-Hq, <-app_assoc in Hc. apply chain_snoc in Hc as [Hc _].
  unfold cycle. rewrite <-Hq, <-app_assoc. apply chain_snoc. rewrite !upd_eq. split; [| done].
  apply NoDup_cons in Hnd as [_ Hnd]. eapply chain_ext; [exact Hc | |].
  - intros q' y' Heq a Ha. apply app_inj_tail in Heq as [-> ->]. apply upd_ne. intros ->.
    rewrite <-Hq in Hnd. apply NoDup_app in Hnd as (_ & Hd & _). apply (Hd y'); [done | left].
  - intros a r Heq b Hb. rewrite Hq in Heq. injection Heq as -> ->. apply upd_ne. intros ->.
    by apply NoDup_cons in Hnd as [? _].
Qed.

(** Linking a new element before the first one. *)
Lemma cycle_link nx pv e h t :
  NoDup (h :: t) → e ∉ h :: t → cycle nx pv (h :: t) →
  cycle (upd (upd nx (pv h) e) e h) (upd (upd pv e (pv h)) h e) (e :: h :: t).
Proof.
  intros Hnd He Hc. destruct (exists_last (l := h :: t)) as (q & o & Hq); [done |].
  assert (pv h = o ∧ nx o = h) as [-> Ho].
  { unfold cycle in Hc. rewrite Hq, <-app_assoc in Hc. apply chain_snoc in Hc. tauto. }
  assert (h ≠ e) by (intros ->; apply He; left).
  assert (o ≠ e) by (intros ->; apply He; rewrite Hq; apply elem_of_app; right; left).
  unfold cycle. cbn [app chain]. split; [by rewrite !upd_eq |].
  change (chain (upd (upd nx o e) e h) (upd (upd pv e o) h e) ((h :: t) ++ [e])).
  rewrite Hq, <-app_assoc. apply chain_snoc.
  split; [| split; [by rewrite upd_ne, upd_eq by done | by rewrite upd_ne, upd_eq by done]].
  unfold cycle in Hc. rewrite Hq, <-app_assoc in Hc. apply chain_snoc in Hc as [Hc _].
  eapply chain_ext; [exact Hc | |].
  - intros q' y Heq a Ha. apply app_inj_tail in Heq as [-> ->].
    rewrite Hq in Hnd. apply NoDup_app in Hnd as (_ & Hd & _).
    rewrite !upd_ne; [done | intros ->; apply (Hd y); [done | left] |].
    intros ->. apply He. rewrite Hq. apply elem_of_app. by left.
  - intros a r Heq b Hb. rewrite <-Hq in Heq. injection Heq as -> ->.
    apply NoDup_cons in Hnd as [Hn _]. rewrite !upd_ne; [done | |]; intros ->; [| done].
    apply He. by right.
Qed.

Lemma cycle_ext nx pv nx' pv' l :
  cycle nx pv l → (∀ a, a ∈ l → nx' a = nx a ∧ pv' a = pv a) → cycle nx' pv' l.
Proof.
  destruct l as [| h t]; [done |]. unfold cycle. cbn [app]. intros Hc Heq.
  assert (Hin : ∀ a, a ∈ t ++ [h] → a ∈ h :: t).
  { intros a [Ha | ->%list_elem_of_singleton]%elem_of_app; [by right | left]. }
  eapply chain_ext; [exact Hc | |].
  - intros q y Hq a Ha. apply Heq. rewrite app_comm_cons in Hq. apply app_inj_tail in Hq as [-> _]. done.
  - intros a r Hq b Hb. injection Hq as <- <-. apply Heq. by apply Hin.
Qed.

(** A cycle seen from one of its elements. *)
Lemma cycle_at nx pv l e :
  e ∈ l → cycle nx pv l → ∃ l1 l2, l = l1 ++ e :: l2 ∧ cycle nx pv (e :: l2 ++ l1).
Proof.
  intros [l1 [l2 ->]]%list_elem_of_split Hc. exists l1, l2. split; [done |].
  by apply (cycle_rotate nx pv l1 (e :: l2)).
Qed.

Lemma cycle_closed nx pv l e :
  e ∈ l → cycle nx pv l → nx e ∈ l ∧ pv e ∈ l ∧ pv (nx e) = e ∧ nx (pv e) = e.
Proof.
  intros He Hc. destruct (cycle_at _ _ _ _ He Hc) as (l1 & l2 & -> & Hc').
  assert (Hin : ∀ a, a ∈ e :: l2 ++ l1 → a ∈ l1 ++ e :: l2).
  { intros a. rewrite elem_of_cons, !elem_of_app, elem_of_cons. tauto. }
  destruct (l2 ++ l1) as [| x r] eqn:Hr.
  - destruct Hc' as [[Hn Hp] _]. rewrite Hn, Hp. split_and!; [apply Hin; left | apply Hin; left | done | done].
  - destruct (cycle_next _ _ _ _ _ Hc') as [Hn Hp]. rewrite Hn.
    destruct (exists_last (l := x :: r)) as (q & y & Hq); [done |]. rewrite Hq in Hc'.
    destruct (cycle_head _ _ _ _ _ Hc') as [Hy He']. rewrite He'.
    split_and!; [apply Hin; right; left | | done | done].
    apply Hin. right. rewrite Hq. apply elem_of_app. right. left.
Qed.

Lemma cycle_sole nx pv l e :
  NoDup l → e ∈ l → cycle nx pv l → pv e = e → l = [e].
Proof.
  intros Hnd He Hc Hpv. destruct (cycle_at _ _ _ _ He Hc) as (l1 & l2 & -> & Hc').
  destruct (l2 ++ l1) as [| x r] eqn:Hr; [by apply app_eq_nil in Hr as [-> ->] |].
  destruct (exists_last (l := x :: r)) as (q & y & Hq); [done |]. rewrite Hq in Hc'.
  destruct (cycle_head _ _ _ _ _ Hc') as [Hy He']. exfalso.
  assert (e ∈ l2 ++ l1) as Hin.
  { rewrite Hr, Hq. apply elem_of_app. right. rewrite <-Hpv, He'. left. }
  apply NoDup_app in Hnd as (_ & Hd & Hnd). apply NoDup_cons in Hnd as [Hn _].
  apply elem_of_app in Hin as [Hin | Hin]; [done |]. apply (Hd e Hin). left.
Qed.

(** ** Representation *)

Definition ln (s : list (nat * nat)) (i : nat) : nat * nat := default (0, 0) (s !! i).
Definition nx (s : list (nat * nat)) (i : nat) : nat := (ln s i).2.
Definition pv (s : list (nat * nat)) (i : nat) : nat := (ln s i).1.

(** [s] and [tail] represent the list [l], the most recently used entry first. *)
Record rep (s : list (nat * nat)) (tail : nat) (l : list nat) : Prop := {
  rep_length : length s = BUCKET_LEN;
  rep_nodup : NoDup l;
  rep_range : ∀ e, e ∈ l → e < BUCKET_LEN;
  rep_tail : tail = match l with [] => 0 | h :: _ => h + 1 end;
  rep_cycle : cycle (nx s) (pv s) l;
  rep_out : ∀ e, e ∉ l → ln s e = (0, 0)
}.

Lemma ln_insert s i p j : i < length s → ln (<[i := p]> s) j = if decide (j = i) then p else ln s j.
Proof.
  intros Hi. unfold ln. destruct (decide (j = i)) as [Hd | Hd].
  - rewrite Hd. by rewrite list_lookup_insert_eq.
  - rewrite list_lookup_insert_ne by done. done.
Qed.

Lemma runs_get {R} i (k : nat * nat → prog DoublyLinkedList R) (s : list (nat * nat)) Q :
  i < length s → runs (k (ln s i)) s Q → runs (bind (lru_get i) k) s Q.
Proof.
  intros Hi Hr. apply runs_act. cbn [fst snd]. unfold ln in Hr.
  destruct (lookup_lt_is_Some_2 s i Hi) as [p Hp]. rewrite Hp in *. exact Hr.
Qed.

Lemma runs_put {R} i p (k : unit → prog DoublyLinkedList R) (s : list (nat * nat)) Q :
  i < length s → runs (k ()) (<[i := p]> s) Q → runs (bind (lru_put i p) k) s Q.
Proof. intros Hi Hr. apply runs_act. cbn [fst snd]. by rewrite bool_decide_true. Qed.

Lemma runs_put0 {R} i x (k : unit → prog DoublyLinkedList R) (s : list (nat * nat)) Q :
  i < length s → runs (k ()) (<[i := (x, nx s i)]> s) Q → runs (bind (lru_put0 i x) k) s Q.
Proof.
  intros Hi Hr. unfold lru_put0. apply runs_bind, runs_get; [done |].
  unfold lru_put. apply runs_act. cbn [fst snd]. by rewrite bool_decide_true.
Qed.

Lemma runs_put1 {R} i x (k : unit → prog DoublyLinkedList R) (s : list (nat * nat)) Q :
  i < length s → runs (k ()) (<[i := (pv s i, x)]> s) Q → runs (bind (lru_put1 i x) k) s Q.
Proof.
  intros Hi Hr. unfold lru_put1. apply runs_bind, runs_get; [done |].
  unfold lru_put. apply runs_act. cbn [fst snd]. by rewrite bool_decide_true.
Qed.

Lemma runs_put0_last i x (s : list (nat * nat)) Q :
  i < length s → Q () (<[i := (x, nx s i)]> s) → runs (lru_put0 i x) s Q.
Proof.
  intros Hi HQ. apply runs_get; [done |]. apply runs_act. cbn [fst snd]. by rewrite bool_decide_true.
Qed.

Lemma rep_default : rep lru_default 0 [].
Proof.
  constructor; try done; [constructor | by intros e ?%not_elem_of_nil |].
  intros e _. unfold ln, lru_default. destruct (replicate _ _ !! e) as [p |] eqn:Hp; [| done].
  by apply lookup_replicate in Hp as [-> _].
Qed.

Lemma links_put0 s i x j :
  i < length s →
  nx (<[i := (x, nx s i)]> s) j = nx s j ∧ pv (<[i := (x, nx s i)]> s) j = upd (pv s) i x j.
Proof.
  intros Hi. unfold nx, pv, upd. rewrite !ln_insert by done.
  destruct (decide (j = i)) as [-> |]; done.
Qed.

Lemma links_put1 s i x j :
  i < length s →
  nx (<[i := (pv s i, x)]> s) j = upd (nx s) i x j ∧ pv (<[i := (pv s i, x)]> s) j = pv s j.
Proof.
  intros Hi. unfold nx, pv, upd. rewrite !ln_insert by done.
  destruct (decide (j = i)) as [-> |]; done.
Qed.

Lemma filter_absent (e : nat) (l : list nat) : e ∉ l → filter (λ a, a ≠ e) l = l.
Proof.
  induction l as [| a l IH]; [done |]. intros [Hne Hl]%not_elem_of_cons.
  rewrite filter_cons, decide_True by congruence. by rewrite IH.
Qed.

(** Taking an entry out of the list. *)
Lemma filter_split (e : nat) (l1 l2 : list nat) :
  NoDup (l1 ++ e :: l2) → filter (λ a, a ≠ e) (l1 ++ e :: l2) = l1 ++ l2.
Proof.
  intros Hnd. apply NoDup_app in Hnd as (_ & Hd & Hnd). apply NoDup_cons in Hnd as [Hn _].
  rewrite filter_app, filter_cons, decide_False by tauto. rewrite !filter_absent; [done | done |].
  intros Hin. apply (Hd e Hin). left.
Qed.

Lemma filter_head (e : nat) (t : list nat) : NoDup (e :: t) → filter (λ a, a ≠ e) (e :: t) = t.
Proof. exact (filter_split e [] t). Qed.

(** ** One entry *)
Section Entry.
Context (s : list (nat * nat)) (tail : nat) (l : list nat) (Hrep : rep s tail l).

Lemma rep_in_bound e : e ∈ l → e < length s.
Proof. rewrite (rep_length _ _ _ Hrep). apply (rep_range _ _ _ Hrep). Qed.

Lemma rep_closed e : e ∈ l → nx s e ∈ l ∧ pv s e ∈ l ∧ pv s (nx s e) = e ∧ nx s (pv s e) = e.
Proof. intros He. by apply cycle_closed; [| apply (rep_cycle _ _ _ Hrep)]. Qed.

(** How the code recognises an entry of the list. *)
Lemma rep_member e :
  e < BUCKET_LEN →
  e ∈ l ↔ tail ≠ 0 ∧ (ln s e ≠ (0, 0) ∨ (ln s 0 = (e, e) ∧ (tail = 1 ∨ tail = e + 1))).
Proof.
  intros Hb. pose proof (rep_tail _ _ _ Hrep) as Ht. split.
  - intros He. split; [destruct l; [by apply elem_of_nil in He | lia] |].
    destruct (decide (ln s e = (0, 0))) as [Hz |]; [right | by left].
    destruct (rep_closed e He) as (Hn & _ & Hpn & Hnp). unfold nx in Hpn, Hn. unfold pv in Hnp.
    rewrite Hz in *. cbn [fst snd] in *. unfold pv in Hpn. unfold nx in Hnp.
    split; [by rewrite (surjective_pairing (ln s 0)), Hpn, Hnp |].
    assert (Hl : ∀ a, a ∈ l → a = e ∨ a = 0).
    { destruct (cycle_at _ _ _ _ He (rep_cycle _ _ _ Hrep)) as (l1 & l2 & Hl & Hc).
      pose proof (rep_nodup _ _ _ Hrep) as Hnd. rewrite Hl in Hnd.
      intros a Ha. rewrite Hl in Ha.
      assert (Ha' : a ∈ e :: l2 ++ l1).
      { revert Ha. rewrite elem_of_cons, !elem_of_app, elem_of_cons. tauto. }
      destruct (l2 ++ l1) as [| x r] eqn:Hr; [apply list_elem_of_singleton in Ha'; by left |].
      destruct (cycle_next _ _ _ _ _ Hc) as [Hx _]. unfold nx in Hx. rewrite Hz in Hx.
      cbn in Hx. subst x. destruct r as [| y r].
      { apply elem_of_cons in Ha' as [|Ha']; [by left | right]. by apply list_elem_of_singleton in Ha'. }
      assert (Hy : nx s 0 = y) by (destruct Hc as [_ [[Hy _] _]]; exact Hy).
      unfold nx in Hy. rewrite Hnp in Hy. subst y. exfalso.
      assert (Hin : e ∈ l2 ++ l1) by (rewrite Hr; right; left).
      apply NoDup_app in Hnd as (_ & Hd & Hnd). apply NoDup_cons in Hnd as [Hne _].
      apply elem_of_app in Hin as [Hin | Hin]; [done |]. apply (Hd e Hin). left. }
    destruct l as [| h t]; [by apply elem_of_nil in He |].
    destruct (Hl h) as [-> | ->]; [left | right; exact Ht | left; exact Ht].
  - intros [Ht0 Hor]. destruct (decide (e ∈ l)) as [| Hout]; [done | exfalso].
    destruct Hor as [Hor | [H0 Hor]]; [by apply Hor, (rep_out _ _ _ Hrep) |].
    assert (Hh : tail - 1 ∈ l) by (destruct l as [| h t]; [done | rewrite Ht, Nat.add_sub; left]).
    assert (tail - 1 = 0 ∨ tail - 1 = e) as [Hor' | Hor'] by lia; rewrite Hor' in Hh; [| done].
    destruct (rep_closed 0 Hh) as (Hn & _). apply Hout. unfold nx in Hn. by rewrite H0 in Hn.
Qed.

Lemma rep_empty : l = [] ↔ tail = 0.
Proof. rewrite (rep_tail _ _ _ Hrep). destruct l as [| h t]; [done |]. split; [done | lia]. Qed.

Lemma rep_sole e : e ∈ l → pv s e = e → l = [e] ∧ tail = e + 1.
Proof.
  intros He Hp.
  assert (Hl : l = [e]) by (by eapply cycle_sole, Hp; [apply Hrep | | apply Hrep]).
  split; [done |]. by rewrite (rep_tail _ _ _ Hrep), Hl.
Qed.

(** Without the entry: its neighbours are linked to each other. *)
Lemma rep_unlink s2 e tail2 :
  e ∈ l → pv s e ≠ e → length s2 = length s →
  (∀ j, j ≠ e → nx s2 j = upd (nx s) (pv s e) (nx s e) j ∧ pv s2 j = upd (pv s) (nx s e) (pv s e) j) →
  ln s2 e = (0, 0) →
  tail2 = (if tail =? e + 1 then nx s e + 1 else tail) →
  rep s2 tail2 (filter (λ a, a ≠ e) l).
Proof.
  intros He Hne Hlen Hln Hz ->. pose proof (rep_closed e He) as (Hn & Hp & Hpn & Hnp).
  destruct (cycle_at _ _ _ _ He (rep_cycle _ _ _ Hrep)) as (l1 & l2 & Hl & Hc).
  pose proof (rep_nodup _ _ _ Hrep) as Hnd. pose proof (rep_tail _ _ _ Hrep) as Ht.
  assert (Hf : filter (λ a, a ≠ e) l = l1 ++ l2).
  { rewrite Hl in Hnd |- *. by apply filter_split. }
  assert (Hnd' : NoDup (e :: l2 ++ l1)).
  { rewrite Hl, <-Permutation_middle, Permutation_app_comm in Hnd. exact Hnd. }
  assert (Hr : l2 ++ l1 ≠ []).
  { intros Hr. rewrite Hr in Hc. destruct Hc as [[_ Hpe] _]. done. }
  assert (Hin : ∀ a, a ∈ l2 ++ l1 → a ≠ e).
  { intros a Ha ->. by apply NoDup_cons in Hnd' as [? _]. }
  pose proof (cycle_unlink _ _ _ _ Hnd' Hr Hc) as Hc'.
  eapply cycle_ext in Hc'; [| intros a Ha; exact (Hln a (Hin a Ha))].
  constructor.
  - by rewrite Hlen, (rep_length _ _ _ Hrep).
  - rewrite Hf, Permutation_app_comm. by apply NoDup_cons in Hnd' as [_ ?].
  - intros a [_ Ha]%list_elem_of_filter. by apply (rep_range _ _ _ Hrep).
  - rewrite Hf. destruct l1 as [| h l1]; cbn [app] in *.
    + rewrite Hl in Ht. rewrite Ht, Nat.eqb_refl.
      destruct l2 as [| x l2]; [done |]. by destruct (cycle_next _ _ _ _ _ Hc) as [-> _].
    + rewrite Hl in Ht. rewrite Ht. destruct (Nat.eqb_spec (h + 1) (e + 1)) as [Heq |]; [| done].
      exfalso. apply (Hin h); [apply elem_of_app; right; left | lia].
  - rewrite Hf. by apply cycle_rotate.
  - intros a Ha. destruct (decide (a = e)) as [-> | Hae]; [done |].
    assert (Hal : a ∉ l) by (intros ?; apply Ha, list_elem_of_filter; done).
    destruct (Hln a Hae) as [Hna Hpa]. unfold nx, pv, upd in Hna, Hpa.
    rewrite decide_False in Hna by (intros ->; done). rewrite decide_False in Hpa by (intros ->; done).
    rewrite (rep_out _ _ _ Hrep a Hal) in Hna, Hpa.
    by rewrite (surjective_pairing (ln s2 a)), Hna, Hpa.
Qed.

(** With a new entry at the head. *)
Lemma rep_link s2 e :
  e ∉ l → e < BUCKET_LEN → l ≠ [] → length s2 = length s →
  (∀ j, nx s2 j = upd (upd (nx s) (pv s (tail - 1)) e) e (tail - 1) j ∧
        pv s2 j = upd (upd (pv s) e (pv s (tail - 1))) (tail - 1) e j) →
  rep s2 (e + 1) (e :: l).
Proof.
  intros He Hb Hl Hlen Hln. pose proof (rep_tail _ _ _ Hrep) as Ht.
  pose proof (rep_nodup _ _ _ Hrep) as Hnd. pose proof (rep_cycle _ _ _ Hrep) as Hc.
  pose proof (λ a, rep_closed a) as Hcl. pose proof (rep_out _ _ _ Hrep) as Hout.
  pose proof (rep_range _ _ _ Hrep) as Hrange. pose proof (rep_length _ _ _ Hrep) as Hlen0.
  destruct l as [| h t]; [done |]. clear Hl. rewrite Ht, Nat.add_sub in Hln.
  constructor.
  - by rewrite Hlen.
  - by constructor.
  - intros a [-> | Ha]%elem_of_cons; [done | by apply Hrange].
  - done.
  - eapply cycle_ext; [by eapply cycle_link; [| exact He | exact Hc] | intros a _; exact (Hln a)].
  - intros a [Hae Ha]%not_elem_of_cons. destruct (Hln a) as [Hna Hpa].
    destruct (Hcl h) as (_ & Hp & _); [left |].
    assert (a ≠ h) by (intros ->; apply Ha; left). assert (a ≠ pv s h) by (intros ->; done).
    rewrite !upd_ne in Hna by done. rewrite !upd_ne in Hpa by done.
    unfold nx in Hna. unfold pv in Hpa. rewrite (Hout a Ha) in Hna, Hpa.
    by rewrite (surjective_pairing (ln s2 a)), Hna, Hpa.
Qed.
End Entry.

(** ** The operations *)

(** What the assignments to the neighbours of an entry, and then to the entry
    itself, leave. *)
Section Unlink.
Context (s : list (nat * nat)) (tail : nat) (l : list nat) (Hrep : rep s tail l).
Context (e : nat) (He : e ∈ l) (Hne : pv s e ≠ e).

Definition unlinked1 : list (nat * nat) := <[pv s e := (pv s (pv s e), nx s e)]> s.
Definition unlinked2 : list (nat * nat) := <[nx s e := (pv s e, nx unlinked1 (nx s e))]> unlinked1.

Lemma unlink_bounds : pv s e < length s ∧ nx s e < length unlinked1 ∧ e < length unlinked2 ∧ nx s e ≠ e.
Proof.
  destruct (rep_closed _ _ _ Hrep e He) as (Hn & Hp & Hpn & _).
  unfold unlinked2, unlinked1. rewrite !length_insert.
  split_and!; [by eapply rep_in_bound.. |]. intros Hs. rewrite Hs in Hpn. done.
Qed.

Lemma unlinked2_same : ln unlinked2 e = ln s e ∧ ln unlinked1 e = ln s e.
Proof.
  destruct unlink_bounds as (Hp & Hn & _ & Hnn).
  unfold unlinked2. rewrite ln_insert, decide_False by done.
  unfold unlinked1. rewrite ln_insert, decide_False by done. done.
Qed.

Lemma unlinked1_next : (ln unlinked1 (nx s e)).1 = e.
Proof.
  destruct unlink_bounds as (Hp & _). destruct (rep_closed _ _ _ Hrep e He) as (_ & _ & Hpn & _).
  destruct (links_put1 s (pv s e) (nx s e) (nx s e) Hp) as [_ Hu]. by rewrite Hpn in Hu.
Qed.

Lemma unlinked2_links j :
  nx unlinked2 j = upd (nx s) (pv s e) (nx s e) j ∧ pv unlinked2 j = upd (pv s) (nx s e) (pv s e) j.
Proof.
  destruct unlink_bounds as (Hp & Hn & _). unfold unlinked2.
  destruct (links_put0 unlinked1 (nx s e) (pv s e) j Hn) as [-> ->].
  unfold upd at 2. unfold unlinked1.
  destruct (links_put1 s (pv s e) (nx s e) j Hp) as [-> ->]. done.
Qed.

Lemma length_unlinked2 : length unlinked2 = length s.
Proof. unfold unlinked2, unlinked1. by rewrite !length_insert. Qed.

Lemma rep_unlinked :
  rep (<[e := (0, 0)]> unlinked2) (if tail =? e + 1 then nx s e + 1 else tail) (filter (λ a, a ≠ e) l).
Proof.
  destruct unlink_bounds as (_ & _ & Hb & _).
  apply (rep_unlink _ _ _ Hrep _ e); [done | done | | | | done].
  - by rewrite length_insert, length_unlinked2.
  - intros j Hj. destruct (unlinked2_links j) as [<- <-].
    unfold nx, pv. by rewrite ln_insert, decide_False.
  - by rewrite ln_insert, decide_True.
Qed.
End Unlink.

(** The last element of the list precedes its head. *)
Lemma rep_last s tail h t :
  rep s tail (h :: t) → ∃ q, h :: t = q ++ [pv s h].
Proof.
  intros Hrep. destruct (exists_last (l := h :: t)) as (q & y & Hq); [done |].
  pose proof (rep_cycle _ _ _ Hrep) as Hc. exists q. rewrite Hq. f_equal.
  destruct q as [| z q]; cbn [app] in Hq; injection Hq as -> ->.
  - destruct Hc as [[_ Hp] _]. by rewrite Hp.
  - destruct (cycle_head _ _ _ _ _ Hc) as [_ Hp]. by rewrite Hp.
Qed.

(** The assignments that put an entry at the head. *)
Lemma links_linked s' e o h j :
  e < length s' → o < length s' → h < length s' → e ≠ h → e ≠ o →
  let s1 := <[o := (pv s' o, e)]> s' in
  let s2 := <[e := (o, nx s1 e)]> s1 in
  let s3 := <[h := (e, nx s2 h)]> s2 in
  let s4 := <[e := (pv s3 e, h)]> s3 in
  nx s4 j = upd (upd (nx s') o e) e h j ∧ pv s4 j = upd (upd (pv s') e o) h e j.
Proof.
  intros He Ho Hh Hne Hoe s1 s2 s3 s4.
  assert (H1 : length s1 = length s') by apply length_insert.
  assert (H2 : length s2 = length s') by (rewrite <-H1; apply length_insert).
  assert (H3 : length s3 = length s') by (rewrite <-H2; apply length_insert).
  assert (Hn1 := λ i, proj1 (links_put1 s' o e i Ho)). assert (Hp1 := λ i, proj2 (links_put1 s' o e i Ho)).
  fold s1 in Hn1, Hp1. rewrite <-H1 in He.
  assert (Hn2 := λ i, proj1 (links_put0 s1 e o i He)). assert (Hp2 := λ i, proj2 (links_put0 s1 e o i He)).
  fold s2 in Hn2, Hp2. rewrite <-H2 in Hh.
  assert (Hn3 := λ i, proj1 (links_put0 s2 h e i Hh)). assert (Hp3 := λ i, proj2 (links_put0 s2 h e i Hh)).
  fold s3 in Hn3, Hp3. rewrite H1, <-H3 in He.
  destruct (links_put1 s3 e h j He) as [Hn4 Hp4]. fold s4 in Hn4, Hp4. rewrite Hn4, Hp4.
  unfold upd in *. rewrite Hp3, Hn3, Hn2, Hn1, !Hp2, Hp1. done.
Qed.

Lemma runs_evict s tail l :
  rep s tail l →
  runs (lru_evict tail) s (λ r s',
    match r with
    | None => l = [] ∧ s' = s
    | Some (e, tail') => ∃ l', l = l' ++ [e] ∧ rep s' tail' l'
    end).
Proof.
  intros Hrep. unfold lru_evict. pose proof (rep_empty _ _ _ Hrep) as He.
  destruct (Nat.eqb_spec tail 0) as [Ht | Ht]; [apply runs_ret; tauto |].
  destruct l as [| h t]; [tauto |]. pose proof (rep_tail _ _ _ Hrep) as Htail. cbn in Htail.
  assert (Hh : tail - 1 = h) by lia. rewrite Hh.
  destruct (rep_last _ _ _ _ Hrep) as [q Hq].
  assert (Hhin : h ∈ h :: t) by left.
  destruct (rep_closed _ _ _ Hrep h Hhin) as (_ & Hoin & _ & Hno).
  apply runs_get; [by eapply rep_in_bound |]. fold (pv s h).
  destruct (Nat.eqb_spec h (pv s h)) as [Heq | Hne].
  - destruct (rep_sole _ _ _ Hrep h Hhin) as [Hs _]; [done |]. injection Hs as ->.
    apply runs_put; [rewrite <-Heq; by eapply rep_in_bound |]. apply runs_ret.
    rewrite <-Heq. exists []. split; [done |].
    constructor; [| constructor | by intros a ?%not_elem_of_nil | done | done |].
    + rewrite length_insert. apply Hrep.
    + intros a _. rewrite ln_insert by (by eapply rep_in_bound). destruct (decide (a = h)); [done |].
      apply (rep_out _ _ _ Hrep). by intros ?%list_elem_of_singleton.
  - assert (Hpo : pv s (pv s h) ≠ pv s h).
    { intros Hp. destruct (rep_sole _ _ _ Hrep _ Hoin Hp) as [Hs _]. injection Hs as Hs _. done. }
    pose proof (rep_unlinked _ _ _ Hrep (pv s h) Hoin Hpo) as Hr.
    destruct (unlink_bounds _ _ _ Hrep (pv s h) Hoin Hpo) as (Hb1 & Hb2 & Hb3 & _).
    unfold unlinked2, unlinked1 in *. rewrite Hno in *.
    apply runs_bind, runs_get; [by eapply rep_in_bound |]. fold (pv s (pv s h)).
    apply runs_put1; [done |]. apply runs_put0; [done |]. apply runs_ret.
    apply runs_put; [done |]. apply runs_ret.
    exists q. split; [done |].
    assert (Hf : filter (λ a, a ≠ pv s h) (h :: t) = q).
    { rewrite Hq, filter_split, app_nil_r; [done |]. rewrite <-Hq. apply Hrep. }
    rewrite Hf in Hr. destruct (Nat.eqb_spec tail (pv s h + 1)); [lia | exact Hr].
Qed.

Lemma runs_remove s tail l e :
  rep s tail l → e < BUCKET_LEN →
  runs (lru_remove tail e) s (λ r s', rep s' (default tail r) (filter (λ a, a ≠ e) l)).
Proof.
  intros Hrep Hb. unfold lru_remove. pose proof (rep_member _ _ _ Hrep e Hb) as Hm.
  assert (Hb' : e < length s) by (rewrite (rep_length _ _ _ Hrep); exact Hb).
  apply (runs_call _ _ _ (λ out s', out = negb (bool_decide (e ∈ l)) ∧ s' = s)).
  { destruct (Nat.eqb_spec tail 0); [apply runs_ret; split; [by rewrite bool_decide_false by tauto | done] |].
    apply runs_get; [done |]. destruct (decide (ln s e = (0, 0))).
    - apply runs_get; [lia |]. apply runs_ret. split; [| done].
      destruct (bool_decide_reflect (e ∈ l)), (bool_decide_reflect (ln s 0 = (e, e))),
        (Nat.eqb_spec tail 1), (Nat.eqb_spec tail (e + 1)); cbn; tauto.
    - apply runs_ret. split; [by rewrite bool_decide_true by tauto | done]. }
  intros out s' [-> ->]. destruct (bool_decide_reflect (e ∈ l)) as [He | He]; cbn [negb].
  2:{ apply runs_ret. cbn. by rewrite filter_absent. }
  apply runs_get; [done |]. fold (pv s e) (nx s e).
  destruct (Nat.eqb_spec (pv s e) e) as [Heq | Hne].
  - destruct (rep_sole _ _ _ Hrep e He Heq) as [-> ->]. apply runs_dassert; [apply Nat.eqb_refl |].
    apply runs_put; [done |]. apply runs_ret. cbn [default].
    rewrite filter_head by apply Hrep.
    constructor; [| constructor | by intros a ?%not_elem_of_nil | done | done |].
    + rewrite length_insert. apply Hrep.
    + intros a _. rewrite ln_insert by done. destruct (decide (a = e)); [done |].
      apply (rep_out _ _ _ Hrep). by intros ?%list_elem_of_singleton.
  - destruct (unlink_bounds _ _ _ Hrep e He Hne) as (Hb1 & Hb2 & Hb3 & Hnn).
    destruct (unlinked2_same _ _ _ Hrep e He Hne) as [Hs2 Hs1].
    destruct (rep_closed _ _ _ Hrep e He) as (_ & _ & Hpn & Hnp).
    apply runs_get; [done |]. apply runs_dassert; [by apply Nat.eqb_eq |].
    apply runs_put1; [done |]. fold (unlinked1 s e).
    apply runs_get; [unfold unlinked1; by rewrite length_insert |]. rewrite Hs1. fold (nx s e).
    apply runs_get; [done |].
    apply runs_dassert.
    { by apply Nat.eqb_eq, (unlinked1_next _ _ _ Hrep). }
    fold (pv s e). apply runs_put0; [done |]. fold (unlinked2 s e).
    apply runs_get; [done |]. rewrite Hs2. fold (nx s e).
    apply runs_put; [done |]. apply runs_ret.
    pose proof (rep_unlinked _ _ _ Hrep e He Hne) as Hr.
    destruct (tail =? e + 1); exact Hr.
Qed.

Lemma runs_promote s tail l e :
  rep s tail l → e < BUCKET_LEN →
  runs (lru_promote tail e) s (λ r s', rep s' (default tail r) (e :: filter (λ a, a ≠ e) l)).
Proof.
  intros Hrep Hb. unfold lru_promote. pose proof (rep_member _ _ _ Hrep e Hb) as Hm.
  assert (Hb' : e < length s) by (rewrite (rep_length _ _ _ Hrep); exact Hb).
  pose proof (rep_tail _ _ _ Hrep) as Htail.
  destruct (Nat.eqb_spec tail (e + 1)) as [Ht | Ht].
  { destruct l as [| h t]; [lia |]. cbn in Htail. assert (h = e) as -> by lia.
    rewrite filter_head by apply Hrep. by apply runs_ret. }
  destruct (Nat.eqb_spec tail 0) as [Ht0 | Ht0].
  { apply (rep_empty _ _ _ Hrep) in Ht0 as ->. apply runs_put0; [done |].
    apply runs_put1; [by rewrite length_insert |]. apply runs_ret. cbn [default].
    set (s1 := <[e := (e, nx s e)]> s). assert (Hb1 : e < length s1) by (unfold s1; by rewrite length_insert).
    assert (Hp : pv s1 e = e) by (unfold s1, pv; by rewrite ln_insert, decide_True).
    constructor; [| apply NoDup_singleton | by intros a ->%list_elem_of_singleton | done | |].
    - unfold s1. rewrite !length_insert. apply Hrep.
    - destruct (links_put1 s1 e e e Hb1) as [Hn1 Hp1]. rewrite upd_eq in Hn1.
      split; [exact (conj Hn1 (eq_trans Hp1 Hp)) | done].
    - intros a Ha. assert (a ≠ e) by (intros ->; apply Ha; left). unfold s1.
      rewrite !ln_insert, !decide_False by (done || by rewrite length_insert).
      apply (rep_out _ _ _ Hrep). apply not_elem_of_nil. }
  apply runs_get; [done |].
  apply (runs_call _ _ _ (λ inside s', inside = bool_decide (e ∈ l) ∧ s' = s)).
  { destruct (decide (ln s e = (0, 0))).
    - apply runs_get; [lia |]. apply runs_ret. split; [| done].
      destruct (bool_decide_reflect (e ∈ l)), (bool_decide_reflect (ln s 0 = (e, e))),
        (Nat.eqb_spec tail 1); cbn; tauto.
    - apply runs_ret. split; [by rewrite bool_decide_true by tauto | done]. }
  intros inside s' [-> ->].
  set (l1 := filter (λ a, a ≠ e) l).
  apply (runs_call _ _ _ (λ _ s', ∃ s3, rep s3 tail l1 ∧ length s' = length s3 ∧
    ∀ j, j ≠ e → ln s' j = ln s3 j)).
  { destruct (bool_decide_reflect (e ∈ l)) as [He | He]; [| exists s; unfold l1; by rewrite filter_absent].
    destruct (decide (pv s e = e)) as [Hsole | Hne].
    { exfalso. by destruct (rep_sole _ _ _ Hrep e He Hsole) as [_ ?]. }
    destruct (unlink_bounds _ _ _ Hrep e He Hne) as (Hb1 & Hb2 & Hb3 & Hnn).
    destruct (unlinked2_same _ _ _ Hrep e He Hne) as [Hs2 Hs1].
    destruct (rep_closed _ _ _ Hrep e He) as (_ & _ & Hpn & Hnp).
    fold (pv s e) (nx s e).
    apply runs_get; [done |]. apply runs_dassert; [by apply Nat.eqb_eq |].
    apply runs_put1; [done |]. fold (unlinked1 s e).
    apply runs_get; [unfold unlinked1; by rewrite length_insert |]. rewrite Hs1. fold (nx s e) (pv s e).
    apply runs_get; [done |].
    apply runs_dassert; [by apply Nat.eqb_eq, (unlinked1_next _ _ _ Hrep) |].
    apply runs_put0_last; [done |]. fold (unlinked2 s e).
    exists (<[e := (0, 0)]> (unlinked2 s e)). split_and!.
    - pose proof (rep_unlinked _ _ _ Hrep e He Hne) as Hr.
      destruct (Nat.eqb_spec tail (e + 1)); [lia | exact Hr].
    - by rewrite length_insert.
    - intros j Hj. by rewrite ln_insert, decide_False. }
  intros _ s' (s3 & Hrep3 & Hlen3 & Hln3).
  assert (He1 : e ∉ l1) by (unfold l1; intros [? ?]%list_elem_of_filter; done).
  pose proof (rep_tail _ _ _ Hrep3) as Htail3. pose proof (rep_empty _ _ _ Hrep3) as Hemp.
  assert (Hh : tail - 1 ∈ l1).
  { destruct l1 as [| h t]; [tauto |]. rewrite Htail3, Nat.add_sub. left. }
  set (h := tail - 1) in *. destruct (rep_closed _ _ _ Hrep3 h Hh) as (_ & Ho & _ & Hno).
  set (o := pv s3 h) in *.
  assert (Hne : ∀ a, a ∈ l1 → a ≠ e ∧ a < length s').
  { intros a Ha. split; [by intros -> |]. rewrite Hlen3. by eapply rep_in_bound. }
  destruct (Hne h Hh) as [Hhe Hhb]. destruct (Hne o Ho) as [Hoe Hob].
  assert (Heb : e < length s') by (rewrite Hlen3, (rep_length _ _ _ Hrep3); exact Hb).
  apply runs_get; [done |]. rewrite (Hln3 h Hhe). fold (pv s3 h) o.
  apply runs_get; [done |]. rewrite (Hln3 o Hoe). fold (nx s3 o). rewrite Hno.
  apply runs_dassert; [apply Nat.eqb_eq; unfold h; lia |].
  apply runs_put1; [done |]. apply runs_put0; [by rewrite length_insert |].
  apply runs_put0; [by rewrite !length_insert |]. apply runs_put1; [by rewrite !length_insert |].
  apply runs_ret. cbn [default].
  apply (rep_link _ _ _ Hrep3); [done | done | intros Hl; rewrite Hl in Hh; by apply elem_of_nil in Hh | |].
  - by rewrite !length_insert.
  - intros j. fold h o. destruct (links_linked s' e o h j) as [-> ->]; [done.. |].
    unfold upd, nx, pv. split; repeat case_decide; subst; try done; by rewrite Hln3.
Qed.

(** ** Sequences of operations

    The bucket keeps the tail, and updates it with what an operation answers
    ([evict_lru_head], [update_lru_tail] and [remove_from_lru_list]). *)
Inductive lru_op : Type :=
  | Evict
  | Remove (entry : nat)
  | Promote (entry : nat).

Definition op_entry (op : lru_op) : nat :=
  match op with Evict => 0 | Remove e | Promote e => e end.

Definition lru_apply (op : lru_op) (tail : nat) : prog DoublyLinkedList (option nat * nat) :=
  match op with
  | Evict =>
      let! r := lru_evict tail in
      match r with
      | Some (evicted, new_tail) => Ret (Some evicted, new_tail)
      | None => Ret (None, tail)
      end
  | Remove entry => let! r := lru_remove tail entry in Ret (None, default tail r)
  | Promote entry => let! r := lru_promote tail entry in Ret (None, default tail r)
  end.

Fixpoint lru_trace (ops : list lru_op) (tail : nat) :
    prog DoublyLinkedList (list (option nat) * nat) :=
  match ops with
  | [] => Ret ([], tail)
  | op :: ops =>
      let! r := lru_apply op tail in
      let! rs := lru_trace ops r.2 in
      Ret (r.1 :: rs.1, rs.2)
  end.

(** The specification: the entries in the order of their last use, the most recent
    first. *)
Definition recency_apply (op : lru_op) (l : list nat) : option nat * list nat :=
  match op with
  | Evict => (last l, removelast l)
  | Remove e => (None, filter (λ a, a ≠ e) l)
  | Promote e => (None, e :: filter (λ a, a ≠ e) l)
  end.

Fixpoint recency_trace (ops : list lru_op) (l : list nat) : list (option nat) * list nat :=
  match ops with
  | [] => ([], l)
  | op :: ops =>
      let r := recency_apply op l in
      let rs := recency_trace ops r.2 in
      (r.1 :: rs.1, rs.2)
  end.

Lemma runs_lru_apply op s tail l :
  rep s tail l → op_entry op < BUCKET_LEN →
  runs (lru_apply op tail) s (λ r s',
    r.1 = (recency_apply op l).1 ∧ rep s' r.2 (recency_apply op l).2).
Proof.
  intros Hrep Hb. destruct op as [| e | e]; cbn [lru_apply recency_apply op_entry] in *.
  - eapply runs_call; [by apply runs_evict |]. intros [[x tail'] |] s' Hr; apply runs_ret.
    + destruct Hr as (l' & -> & Hr). cbn [fst snd]. by rewrite last_snoc, removelast_last.
    + by destruct Hr as [-> ->].
  - eapply runs_call; [by apply runs_remove |]. intros r s' Hr. by apply runs_ret.
  - eapply runs_call; [by apply runs_promote |]. intros r s' Hr. by apply runs_ret.
Qed.

(** The LRU list of a bucket orders entries by their last use.  Whatever
    sequence of evictions, removals and promotions of entries of the bucket is run on
    a new list, no index is out of range and no [debug_assert] fails; every eviction
    answers what the recency list does, which is the entry whose last promotion is the
    oldest among those still in the list; and the final array represents the final
    recency list. *)
Theorem lru_refines (ops : list lru_op) (Hops : ∀ op, op ∈ ops → op_entry op < BUCKET_LEN) :
  ∃ s tail,
    run (lru_trace ops 0) lru_default = Done ((recency_trace ops []).1, tail) s ∧
    rep s tail (recency_trace ops []).2.
Proof.
  assert (H : ∀ s tail l, rep s tail l →
    runs (lru_trace ops tail) s (λ r s', r.1 = (recency_trace ops l).1 ∧ rep s' r.2 (recency_trace ops l).2)).
  { induction ops as [| op ops IH]; intros s tail l Hrep; [by apply runs_ret |].
    cbn [lru_trace recency_trace]. eapply runs_call; [apply runs_lru_apply; [exact Hrep |] |].
    - apply Hops. left.
    - intros r s' [Hr Hrep']. eapply runs_call; [apply IH; [| exact Hrep'] |].
      + intros op' Hin. apply Hops. by right.
      + intros rs s'' [Hrs Hrep'']. apply runs_ret. cbn [fst snd]. by rewrite Hr, Hrs. }
  specialize (H lru_default 0 [] rep_default).
  apply runs_Done in H as ([rs tail] & s & Hrun & Hrs & Hrep).
  cbn [fst snd] in *. subst rs. eauto.
Qed.

Lemma lru_refines_witness :
  let ops := [Promote 0; Promote 3; Promote 5; Promote 0; Remove 5; Evict; Promote 7; Evict; Evict; Evict] in
  (∀ op, op ∈ ops → op_entry op < BUCKET_LEN) ∧
  (recency_trace ops []).1 = [None; None; None; None; None; Some 3; None; Some 0; Some 7; None] ∧
  ∃ s tail, run (lru_trace ops 0) lru_default = Done ((recency_trace ops []).1, tail) s ∧
    rep s tail [].
Proof.
  intros ops.
  assert (Hops : ∀ op, op ∈ ops → op_entry op < BUCKET_LEN).
  { apply Forall_forall. repeat (apply Forall_cons; split; [apply Nat.ltb_lt; reflexivity |]). apply Forall_nil_2. }
  split; [exact Hops |]. split; [reflexivity |]. exact (lru_refines ops Hops).
Defined.
