(* ===== verification/WaitQueue.v ===== *)
(** * The wait queue of a bucket: [src/wait_queue.rs]

    A waiting thread or task pushes an entry, which it owns, onto a stack whose head
    is one tagged word; [signal] detaches the whole stack, turns it around so that
    the oldest entry comes first, and wakes the entries up.  An entry is
    deallocated by its owner as soon as it was signalled. *)
From S2P Require Import Prelude Atomic.

(** A pointer to an entry and its [ASYNC] flag, as one word of the queue; [None] is
    the word 0. *)
Definition link : Type := option (nat * bool).

(** [SyncWait] and [AsyncWait].  [mutex] tells whether [AsyncWait::mutex] is [Some];
    [done] is [completed] of a [SyncWait], and for an [AsyncWait] that the entry is
    disassociated from its queue ([locked.0] is [None]); [waker] tells whether a waker
    is registered, [woken] whether the runtime was told to poll the task again.
    [live] tells whether the memory of the entry is still allocated. *)
Record wait_entry := Entry {
  next : link;
  is_async : bool;
  mutex : bool;
  done : bool;
  waker : bool;
  woken : bool;
  live : bool
}.

Definition set_next (x : link) (e : wait_entry) : wait_entry :=
  Entry x (is_async e) (mutex e) (done e) (waker e) (woken e) (live e).
Definition set_mutex (x d : bool) (e : wait_entry) : wait_entry :=
  Entry (next e) (is_async e) x d (waker e) (woken e) (live e).
Definition set_waker (x y : bool) (e : wait_entry) : wait_entry :=
  Entry (next e) (is_async e) (mutex e) (done e) x y (live e).
Definition set_dead (e : wait_entry) : wait_entry :=
  Entry (next e) (is_async e) (mutex e) (done e) (waker e) (woken e) false.

(** What a signal does to an entry: [SyncWait::signal], [AsyncWait::signal]. *)
Definition wake (e : wait_entry) : wait_entry :=
  Entry (next e) (is_async e) (mutex e) true false (woken e || waker e) (live e).

(** The head of the queue, the entries, and the history of the wake-ups. *)
Record WaitQueue := { wait_queue : link; entries : list wait_entry; wake_ups : list nat }.

Definition wait_queue_default : WaitQueue := {| wait_queue := None; entries := []; wake_ups := [] |}.

Definition set_head (w : link) (q : WaitQueue) : WaitQueue :=
  {| wait_queue := w; entries := entries q; wake_ups := wake_ups q |}.
Definition set_entries (es : list wait_entry) (q : WaitQueue) : WaitQueue :=
  {| wait_queue := wait_queue q; entries := es; wake_ups := wake_ups q |}.
Definition log_wake (i : nat) (q : WaitQueue) : WaitQueue :=
  {| wait_queue := wait_queue q; entries := entries q; wake_ups := wake_ups q ++ [i] |}.

(** The states that hold a wait queue. *)
Class HasQueue (St : Type) := {
  queue : St → WaitQueue;
  set_queue : WaitQueue → St → St;
  queue_set q s : queue (set_queue q s) = q;
  set_queue_set q q' s : set_queue q (set_queue q' s) = set_queue q s;
  set_queue_same s : set_queue (queue s) s = s
}.

#[export] Instance queue_itself : HasQueue WaitQueue.
Proof. by refine {| queue := λ q, q; set_queue := λ q _, q |}. Defined.

(** [Result<T, ()>] *)
Definition result (T : Type) : Type := T + unit.
Definition is_ok {T} (r : result T) : bool := match r with inl _ => true | inr _ => false end.

Section Ops.
Context {St : Type} `{HQ : HasQueue St}.

Definition get_head (s : St) : link := wait_queue (queue s).
Definition put_head (w : link) (s : St) : St := set_queue (set_head w (queue s)) s.

(** Access to the memory of an entry through a pointer of the given type: undefined
    behaviour if it was deallocated or has the other type. *)
Definition lookup_entry (i : nat) (a : bool) (s : St) : option wait_entry :=
  e ← entries (queue s) !! i; if live e && eqb (is_async e) a then Some e else None.

Definition update_entry (i : nat) (e : wait_entry) (s : St) : St :=
  set_queue (set_entries (<[i := e]> (entries (queue s))) (queue s)) s.

Definition read_entry (i : nat) (a : bool) : prog St wait_entry :=
  Act (λ s, (lookup_entry i a s, s)) (λ o, match o with Some e => Ret e | None => Panic end).

(** One access that modifies an entry, and the entry before. *)
Definition modify_entry (i : nat) (a : bool) (f : wait_entry → wait_entry) : prog St wait_entry :=
  Act (λ s, match lookup_entry i a s with
            | Some e => (Some e, update_entry i (f e) s)
            | None => (None, s)
            end) (λ o, match o with Some e => Ret e | None => Panic end).

(** A new entry, in memory that no other thread knows of. *)
Definition new_entry (a : bool) (w : link) : prog St nat :=
  Act (λ s, (length (entries (queue s)),
             set_queue (set_entries (entries (queue s) ++ [Entry w a false false false false true])
                                    (queue s)) s)) Ret.

(** [SyncWait::signal], [AsyncWait::signal]: one critical section of the entry's mutex.
    An [AsyncWait] without a mutex is [unreachable!()]. *)
Definition sync_signal (i : nat) : prog St unit :=
  Act (λ s, match lookup_entry i false s with
            | Some e => (true, let s' := update_entry i (wake e) s in set_queue (log_wake i (queue s')) s')
            | None => (false, s)
            end) (λ b, if b : bool then Ret () else Panic).

Definition async_signal (i : nat) : prog St unit :=
  Act (λ s, match lookup_entry i true s with
            | Some e => if mutex e then
                (true, let s' := update_entry i (wake e) s in set_queue (log_wake i (queue s')) s')
                else (false, s)
            | None => (false, s)
            end) (λ b, if b : bool then Ret () else Panic).

Definition signal (n : nat) : prog St unit :=
  let! current := fetch_modify get_head put_head (λ _, None) in
  let! prev := loop n (λ '(current, prev),
    match current with
    | None => Ret (Break prev)
    | Some (i, a) =>
        let! e := modify_entry i a (set_next prev) in
        Ret (Continue (next e, current))
    end) (current, None) in
  loop n (λ current,
    match current with
    | None => Ret (Break ())
    | Some (i, a) =>
        let! e := read_entry i a in
        (if a : bool then async_signal i else sync_signal i) ;;
        Ret (Continue (next e))
    end) prev.

(** The loop that pushes entry [i]. *)
Definition push (n : nat) (i : nat) (a : bool) (current : link) : prog St unit :=
  loop n (λ current,
    let! r := compare_exchange_weak get_head put_head current (Some (i, a)) in
    match r with
    | inl _ => Ret (Break ())
    | inr actual => modify_entry i a (set_next actual) ;; Ret (Continue actual)
    end) current.

Definition completed (i : nat) (s : St) : bool :=
  match entries (queue s) !! i with Some e => done e | None => false end.

(** [SyncWait::wait] *)
Definition sync_wait (i : nat) : prog St unit := Park (completed i) (Ret ()).

Definition wait_sync {T} (n : nat) (f : prog St (result T)) : prog St (result T) :=
  let! current := load get_head in
  let! i := new_entry false current in
  push n i false current ;;
  let! r := f in
  (if is_ok r then signal n else Ret ()) ;;
  sync_wait i ;;
  modify_entry i false set_dead ;;
  Ret r.

(** [AsyncWait::try_wait] *)
Definition try_wait (i : nat) : prog St bool :=
  let! e := read_entry i true in Ret (mutex e && done e).

(** [push_async_entry]; [dispose] is the destructor of the result. *)
Definition push_async_entry {T} (n : nat) (i : nat) (f : prog St (result T))
    (dispose : T → prog St unit) : prog St (result T) :=
  let! e := read_entry i true in
  dassert (negb (mutex e)) ;;
  let! current := load get_head in
  modify_entry i true (set_next current) ;;
  modify_entry i true (set_mutex true false) ;;
  push n i true current ;;
  let! r := f in
  match r with
  | inl v =>
      signal n ;;
      let! woken_up := try_wait i in
      if woken_up : bool then
        modify_entry i true (λ e, set_mutex false (done e) e) ;;
        Ret (inl v)
      else dispose v ;; Ret (inr ())
  | inr _ => Ret (inr ())
  end.

(** [AsyncWait::pull] *)
Definition pull (n : nat) (i : nat) : prog St unit :=
  let! e := read_entry i true in
  if mutex e && negb (done e) then
    signal n ;;
    loop n (λ _,
      let! woken_up := try_wait i in
      Ret (if woken_up : bool then Break () else Continue ())) ()
  else Ret ().

(** [impl Drop for AsyncWait], and the deallocation. *)
Definition async_drop (n : nat) (i : nat) : prog St unit :=
  let! e := read_entry i true in
  (if mutex e then pull n i else Ret ()) ;;
  modify_entry i true set_dead ;;
  Ret ().

(** [poll]: whether the task is ready. *)
Definition poll (i : nat) : prog St bool :=
  Act (λ s, match lookup_entry i true s with
            | Some e =>
                if mutex e then
                  if done e then (Some true, s)
                  else (Some false, update_entry i (set_waker true (woken e) e) s)
                else (Some true, s)
            | None => (None, s)
            end) (λ o, match o with Some b => Ret b | None => Panic end).

(** [.await]: the task is polled again after it was woken. *)
Definition await (n : nat) (i : nat) : prog St unit :=
  loop n (λ _,
    let! ready := poll i in
    if ready : bool then Ret (Break ())
    else
      Park (λ s, match entries (queue s) !! i with Some e => woken e | None => false end)
        (modify_entry i true (λ e, set_waker (waker e) false e) ;; Ret (Continue ()))) ().
End Ops.

(** ** Linked entries *)

(** An entry that waits for a signal. *)
Definition pending (e : wait_entry) (a : bool) : Prop :=
  live e = true ∧ is_async e = a ∧ done e = false ∧ (a = true → mutex e = true).

(** [l] are the entries reached from the word [head l] through [next]. *)
Fixpoint linked (es : list wait_entry) (l : list (nat * bool)) : Prop :=
  match l with
  | [] => True
  | (i, a) :: r => (∃ e, es !! i = Some e ∧ pending e a ∧ next e = head r) ∧ linked es r
  end.

Lemma linked_insert es i e l : i ∉ l.*1 → linked es l → linked (<[i := e]> es) l.
Proof.
  induction l as [| [j a] l IH]; [done |]. rewrite fmap_cons. cbn [fst].
  intros [Hne Hi]%not_elem_of_cons [(e' & He & Hp) Hl]. split; [| by apply IH].
  exists e'. by rewrite list_lookup_insert_ne by done.
Qed.

Lemma linked_insert_same es i e e' l :
  es !! i = Some e → next e' = next e → (∀ a, pending e a → pending e' a) →
  linked es l → linked (<[i := e']> es) l.
Proof.
  intros Hi Hn Hp. induction l as [| [j a] l IH]; [done |].
  intros [(ej & Hj & Hpj & Hnj) Hl]. split; [| by apply IH].
  destruct (decide (j = i)) as [-> |].
  - simplify_eq. exists e'. rewrite list_lookup_insert_eq by (by eapply lookup_lt_Some).
    split; [done |]. split; [by apply Hp | congruence].
  - exists ej. by rewrite list_lookup_insert_ne by done.
Qed.

Lemma linked_snoc es e l : linked es l → linked (es ++ [e]) l.
Proof.
  induction l as [| [j a] l IH]; [done |]. intros [(e' & He & Hp) Hl]. split; [| by apply IH].
  exists e'. split; [| done]. rewrite lookup_app_l; [done |]. by eapply lookup_lt_Some.
Qed.

Lemma linked_lookup es l i : i ∈ l.*1 → linked es l → ∃ e a, es !! i = Some e ∧ pending e a ∧ (i, a) ∈ l.
Proof.
  induction l as [| [j a] l IH]; [by intros ?%elem_of_nil |]. rewrite fmap_cons. cbn [fst].
  intros [-> | Hi]%elem_of_cons [(e & He & Hp & _) Hl].
  - exists e, a. split; [done |]. split; [done | left].
  - destruct (IH Hi Hl) as (e' & a' & ? & ? & ?). exists e', a'. split; [done |]. split; [done | by right].
Qed.

Lemma pending_inj e a a' : pending e a → pending e a' → a = a'.
Proof. unfold pending. intuition congruence. Qed.

(** Turning one entry around. *)
Lemma linked_flip es i a r p e :
  NoDup (((i, a) :: r) ++ p).*1 → es !! i = Some e → linked es ((i, a) :: r) → linked es p →
  linked (<[i := set_next (head p) e]> es) r ∧
  linked (<[i := set_next (head p) e]> es) ((i, a) :: p).
Proof.
  rewrite fmap_app, fmap_cons. cbn [fst app]. rewrite NoDup_cons, not_elem_of_app.
  intros [[Hr Hp] _] Hi [(e' & He & Hpend & _) Hlr] Hlp. simplify_eq.
  split; [by apply linked_insert |]. split; [| by apply linked_insert].
  eexists. rewrite list_lookup_insert_eq by (by eapply lookup_lt_Some). split; [done |]. split; [exact Hpend | done].
Qed.

(** ** One thread alone *)

Lemma lookup_entry_pending (q : WaitQueue) i a e :
  entries q !! i = Some e → pending e a → lookup_entry i a q = Some e.
Proof.
  intros Hi (Hl & Ha & _). unfold lookup_entry. cbn [queue queue_itself]. rewrite Hi. cbn.
  by rewrite Hl, Ha, eqb_reflx.
Qed.

(** The entries of [q'] are those of [q], but for the links of [l]. *)
Definition relinked (l : list nat) (q q' : WaitQueue) : Prop :=
  wait_queue q' = wait_queue q ∧ wake_ups q' = wake_ups q ∧
  length (entries q') = length (entries q) ∧
  ∀ i, i ∉ l → entries q' !! i = entries q !! i.

Lemma runs_read {R} i a e (k : wait_entry → prog WaitQueue R) (q : WaitQueue) Q :
  entries q !! i = Some e → pending e a → runs (k e) q Q → runs (bind (read_entry i a) k) q Q.
Proof. intros Hi Hp Hr. apply runs_act. cbn [fst snd]. by rewrite (lookup_entry_pending _ _ _ _ Hi Hp). Qed.

Lemma runs_modify {R} i a e f (k : wait_entry → prog WaitQueue R) (q : WaitQueue) Q :
  entries q !! i = Some e → pending e a → runs (k e) (update_entry i (f e) q) Q →
  runs (bind (modify_entry i a f) k) q Q.
Proof. intros Hi Hp Hr. apply runs_act. by rewrite !(lookup_entry_pending _ _ _ _ Hi Hp). Qed.

Lemma runs_wake {R} i a e (k : unit → prog WaitQueue R) (q : WaitQueue) Q :
  entries q !! i = Some e → pending e a →
  runs (k ()) (log_wake i (update_entry i (wake e) q)) Q →
  runs (bind (if a then async_signal i else sync_signal i) k) q Q.
Proof.
  intros Hi Hp Hr. destruct a; apply runs_act; rewrite !(lookup_entry_pending _ _ _ _ Hi Hp); [| exact Hr].
  destruct Hp as (_ & _ & _ & Hm). rewrite Hm by done. exact Hr.
Qed.

(** The first loop of [signal]. *)
Lemma runs_flip n (q : WaitQueue) l p Q :
  NoDup (l ++ p).*1 → length l < n → linked (entries q) l → linked (entries q) p →
  (∀ q', linked (entries q') (reverse l ++ p) → relinked l.*1 q q' → Q (head (reverse l ++ p)) q') →
  runs (loop n (λ '(current, prev),
    match current with
    | None => Ret (Break prev)
    | Some (i, a) =>
        let! e := modify_entry i a (set_next prev) in
        Ret (Continue (next e, current))
    end) (head l, head p)) q Q.
Proof.
  revert q l p. induction n as [| n IH]; [lia |]. intros q [| [i a] l] p Hnd Hn Hl Hp HQ.
  - apply runs_loop, runs_ret. apply HQ; [done |]. unfold relinked. done.
  - apply runs_loop. cbn [head]. destruct Hl as [(e & He & Hpe & Hne) Hl].
    apply (runs_modify _ _ _ _ _ _ _ He Hpe). apply runs_ret. rewrite Hne.
    destruct (linked_flip (entries q) i a l p e Hnd He) as [Hl' Hp']; [| done |].
    { split; [eauto | done]. }
    change (Some (i, a)) with (head ((i, a) :: p)).
    apply IH; [| cbn in Hn; lia | done | done |].
    + eapply NoDup_Permutation_proper; [| exact Hnd]. rewrite !fmap_app, !fmap_cons.
      symmetry. apply Permutation_middle.
    + intros q' Hlk (Hw & Hu & Hlen & Hsame).
      rewrite reverse_cons, <-app_assoc in HQ. apply HQ; [exact Hlk |].
      split; [exact Hw |]. split; [exact Hu |]. split; [by rewrite Hlen; cbn; rewrite length_insert |].
      intros j. rewrite fmap_cons. intros [Hji Hj]%not_elem_of_cons. rewrite Hsame by done. cbn.
      by rewrite list_lookup_insert_ne.
Qed.

(** The second loop. *)
Lemma runs_wake_all n (q : WaitQueue) l Q :
  NoDup l.*1 → length l < n → linked (entries q) l →
  (∀ q', wait_queue q' = wait_queue q → wake_ups q' = wake_ups q ++ l.*1 →
    (∀ i, i ∉ l.*1 → entries q' !! i = entries q !! i) →
    (∀ i, i ∈ l.*1 → entries q' !! i = wake <$> entries q !! i) → Q () q') →
  runs (loop n (λ current,
    match current with
    | None => Ret (Break ())
    | Some (i, a) =>
        let! e := read_entry i a in
        (if a : bool then async_signal i else sync_signal i) ;;
        Ret (Continue (next e))
    end) (head l)) q Q.
Proof.
  revert q l. induction n as [| n IH]; [lia |]. intros q [| [i a] l] Hnd Hn Hl HQ.
  - apply runs_loop, runs_ret. apply HQ; [done | by rewrite app_nil_r | done |].
    intros i Hi. by apply elem_of_nil in Hi.
  - apply runs_loop. cbn [head]. destruct Hl as [(e & He & Hpe & Hne) Hl].
    rewrite fmap_cons in Hnd. apply NoDup_cons in Hnd as [Hil Hnd].
    apply (runs_read _ _ _ _ _ _ He Hpe), (runs_wake _ _ _ _ _ _ He Hpe), runs_ret.
    rewrite Hne. apply IH; [done | cbn in Hn; lia | by apply linked_insert |].
    intros q' Hw Hu Hout Hin. cbn in Hw, Hu, Hout, Hin. apply HQ; [done | | |].
    + by rewrite Hu, <-app_assoc.
    + intros j. rewrite fmap_cons. intros [Hji Hj]%not_elem_of_cons.
      rewrite Hout by done. by rewrite list_lookup_insert_ne.
    + intros j. rewrite fmap_cons. intros Hj. destruct (decide (j = i)) as [-> | Hji].
      * rewrite Hout by done. rewrite list_lookup_insert_eq by (by eapply lookup_lt_Some). by rewrite He.
      * apply elem_of_cons in Hj as [|Hj]; [done |]. rewrite Hin by done. by rewrite list_lookup_insert_ne.
Qed.

(** C37. [signal] serves the waiters in the order of their arrival.  The queue holds
    the entries [l], the youngest first; run alone, [signal] terminates (its loops
    take one iteration more than there are entries), leaves the queue empty, delivers
    exactly one wake-up to every entry of the queue, the oldest first, and touches no
    other entry. *)
Theorem signal_fifo n (q : WaitQueue) l :
  NoDup l.*1 → linked (entries q) l → wait_queue q = head l → length l < n →
  ∃ q', run (signal n) q = Done () q' ∧
    wait_queue q' = None ∧
    wake_ups q' = wake_ups q ++ reverse l.*1 ∧
    (∀ i, i ∉ l.*1 → entries q' !! i = entries q !! i) ∧
    (∀ i, i ∈ l.*1 → ∃ e, entries q' !! i = Some e ∧ done e = true).
Proof.
  intros Hnd Hl Hw Hn.
  assert (Hr : runs (signal n) q (λ _ q',
    wait_queue q' = None ∧ wake_ups q' = wake_ups q ++ reverse l.*1 ∧
    (∀ i, i ∉ l.*1 → entries q' !! i = entries q !! i) ∧
    (∀ i, i ∈ l.*1 → ∃ e, entries q' !! i = Some e ∧ done e = true))).
  { apply runs_act. cbn [fst snd]. unfold get_head at 1. cbn. rewrite Hw.
    apply runs_bind. apply (runs_flip n _ l []); [by rewrite app_nil_r | done | done | done |].
    intros q1 Hl1 (Hw1 & Hu1 & Hlen1 & Hs1). rewrite app_nil_r in Hl1 |- *.
    assert (Hrev : (reverse l).*1 = reverse l.*1) by apply fmap_reverse.
    apply runs_wake_all; [by rewrite Hrev, reverse_Permutation | by rewrite length_reverse | done |].
    intros q2 Hw2 Hu2 Hout Hin. rewrite Hrev in *.
    split; [by rewrite Hw2, Hw1 |]. split; [by rewrite Hu2, Hu1 |]. split.
    - intros i Hi. rewrite Hout by (by rewrite elem_of_reverse). by rewrite Hs1.
    - intros i Hi. assert (Hi' : i ∈ (reverse l).*1) by (rewrite Hrev; by apply elem_of_reverse).
      destruct (linked_lookup _ _ i Hi' Hl1) as (e & a & He & _).
      exists (wake e). rewrite Hin by (by apply elem_of_reverse). by rewrite He. }
  apply runs_Done in Hr as ([] & q' & Hrun & Hq). exists q'. exact (conj Hrun Hq).
Qed.

(** Three waiters, the second of which is a task. *)
Definition example_queue : WaitQueue :=
  {| wait_queue := Some (2, false);
     entries := [Entry None false false false false false true;
                 Entry (Some (0, false)) true true false true false true;
                 Entry (Some (1, true)) false false false false false true];
     wake_ups := [] |}.

Lemma signal_fifo_witness :
  ∃ q', run (signal 4) example_queue = Done () q' ∧ wait_queue q' = None ∧ wake_ups q' = [0; 1; 2].
Proof.
  destruct (signal_fifo 4 example_queue [(2, false); (1, true); (0, false)])
    as (q' & Hrun & Hw & Hu & _).
  - apply (bool_decide_unpack _). vm_compute. exact I.
  - cbn. split_and!; try done; eexists; (split; [reflexivity |]); by split_and!.
  - reflexivity.
  - cbn. lia.
  - exists q'. split; [exact Hrun |]. split; [exact Hw |]. rewrite Hu. reflexivity.
Defined.
