(* ===== verification/BucketLock.v ===== *)
(** * The lock of a bucket: [Locker] and [Reader] in [src/hash_table/bucket.rs]

    The state word of a bucket holds the flags killed and waiting, the exclusive
    lock and the number of shared locks.  A thread that cannot lock the bucket
    pushes itself onto the wait queue, sets the waiting flag and tries once more;
    whoever unlocks the bucket clears the flag, and, if it was set, signals the
    queue. *)
From S2P Require Import Prelude Atomic WaitQueue.

Local Open Scope Z_scope.

Definition KILLED : Z := one_shl 31.
Definition WAITING : Z := one_shl 30.
Definition LOCK : Z := one_shl 29.
Definition SLOCK_MAX : Z := LOCK - 1.
Definition LOCK_MASK : Z := Z.lor LOCK SLOCK_MAX.

(** The part of [Bucket] that the lock is made of, and a number that stands for what
    the lock protects. *)
Record bucket := Bucket { state : Z; wait : WaitQueue; contents : nat }.

Definition bucket_new : bucket := Bucket 0 wait_queue_default 0.

Definition set_state (x : Z) (b : bucket) : bucket := Bucket x (wait b) (contents b).
Definition set_wait (q : WaitQueue) (b : bucket) : bucket := Bucket (state b) q (contents b).
Definition set_contents (x : nat) (b : bucket) : bucket := Bucket (state b) (wait b) x.

#[export] Instance bucket_queue : HasQueue bucket.
Proof. refine {| queue := wait; set_queue := set_wait |}; [done | done | by intros []]. Defined.

(** [killed] *)
Definition killed : prog bucket bool :=
  let! s := load state in Ret (Z.land s KILLED =? KILLED).

(** The part of [kill] that marks the bucket. *)
Definition mark_killed : prog bucket unit :=
  fetch_modify state set_state (λ s, Z.lor s KILLED) ;; Ret ().

Module Locker.
(** A locker is the right to access the bucket: [Some ()]. *)
Definition try_lock : prog bucket (result (option unit)) :=
  let! current := load state in
  let current := Z.land current (unot 32 LOCK_MASK) in
  if Z.land current KILLED =? KILLED then Ret (inl None)
  else
    let! r := compare_exchange state set_state current (Z.lor current LOCK) in
    match r with
    | inl _ => Ret (inl (Some ()))
    | inr _ => Ret (inr ())
    end.

(** The closure that is run when the waiting entry was pushed. *)
Definition retry : prog bucket (result (option unit)) :=
  fetch_modify state set_state (λ s, Z.lor s WAITING) ;; try_lock.

Definition lock (n : nat) : prog bucket (option unit) :=
  loop n (λ _,
    let! r := try_lock in
    match r with
    | inl locker => Ret (Break locker)
    | inr _ =>
        let! r := wait_sync n retry in
        match r with
        | inl locker => Ret (Break locker)
        | inr _ => Ret (Continue ())
        end
    end) ().

(** [impl Drop for Locker] *)
Definition drop (n : nat) : prog bucket unit :=
  let! current := load state in
  let! current := loop n (λ current,
    let! r := compare_exchange_weak state set_state current
                (Z.land current (unot 32 (Z.lor WAITING LOCK))) in
    match r with
    | inl _ => Ret (Break current)
    | inr result => Ret (Continue result)
    end) current in
  if Z.land current WAITING =? WAITING then signal n else Ret ().

Definition dispose (n : nat) (r : option unit) : prog bucket unit :=
  match r with Some _ => drop n | None => Ret () end.

Definition try_lock_or_wait (n : nat) (async_wait : nat) : prog bucket (result (option unit)) :=
  let! r := try_lock in
  match r with
  | inl locker => Ret (inl locker)
  | inr _ => push_async_entry n async_wait retry (dispose n)
  end.
End Locker.

Module Reader.
Definition try_lock : prog bucket (result (option unit)) :=
  let! current := load state in
  if SLOCK_MAX <=? Z.land current LOCK_MASK then Ret (inr ())
  else if Z.land current KILLED =? KILLED then Ret (inl None)
  else
    let! r := compare_exchange state set_state current (current + 1) in
    match r with
    | inl _ => Ret (inl (Some ()))
    | inr _ => Ret (inr ())
    end.

Definition retry : prog bucket (result (option unit)) :=
  fetch_modify state set_state (λ s, Z.lor s WAITING) ;; try_lock.

Definition lock (n : nat) : prog bucket (option unit) :=
  loop n (λ _,
    let! r := try_lock in
    match r with
    | inl reader => Ret (Break reader)
    | inr _ =>
        let! r := wait_sync n retry in
        match r with
        | inl reader => Ret (Break reader)
        | inr _ => Ret (Continue ())
        end
    end) ().

(** [release], which is also what [impl Drop for Reader] does. *)
Definition release (n : nat) : prog bucket unit :=
  let! current := load state in
  loop n (λ current,
    let wakeup := Z.land current WAITING =? WAITING in
    let next := Z.land (current - 1) (unot 32 WAITING) in
    let! r := compare_exchange_weak state set_state current next in
    match r with
    | inl _ => (if wakeup : bool then signal n else Ret ()) ;; Ret (Break ())
    | inr result => Ret (Continue result)
    end) current.

Definition dispose (n : nat) (r : option unit) : prog bucket unit :=
  match r with Some _ => release n | None => Ret () end.

Definition try_lock_or_wait (n : nat) (async_wait : nat) : prog bucket (result (option unit)) :=
  let! r := try_lock in
  match r with
  | inl reader => Ret (inl reader)
  | inr _ => push_async_entry n async_wait retry (dispose n)
  end.
End Reader.

(** ** Clients *)

(** How the asynchronous methods of the containers lock a bucket: a new [AsyncWait]
    for each attempt, which is awaited when the bucket could not be locked and
    dropped in any case; the task itself may be dropped while it waits
    ([cancel]), which ends the attempts.  The first component of the answer tells
    whether it was. *)
Definition lock_async (n : nat) (cancel : bool)
    (try_lock_or_wait : nat → prog bucket (result (option unit))) : prog bucket (bool * option unit) :=
  loop n (λ _,
    let! async_wait := new_entry true None in
    let! r := try_lock_or_wait async_wait in
    match r with
    | inl locker => async_drop n async_wait ;; Ret (Break (false, locker))
    | inr _ =>
        if cancel then async_drop n async_wait ;; Ret (Break (true, None))
        else await n async_wait ;; async_drop n async_wait ;; Ret (Continue ())
    end) ().

Inductive mode := Sync | Async (cancel : bool).

(** What a thread does: an exclusive access that increments the contents of the
    bucket, after which it may kill the bucket, or a shared access that reads the
    contents twice. *)
Inductive op :=
  | Write (m : mode) (kill : bool)
  | Read (m : mode).

Definition write_lock (n : nat) (m : mode) : prog bucket (option unit) :=
  match m with
  | Sync => Locker.lock n
  | Async cancel => let! r := lock_async n cancel (Locker.try_lock_or_wait n) in Ret r.2
  end.

Definition read_lock (n : nat) (m : mode) : prog bucket (option unit) :=
  match m with
  | Sync => Reader.lock n
  | Async cancel => let! r := lock_async n cancel (Reader.try_lock_or_wait n) in Ret r.2
  end.

(** The number of increments that the thread has made. *)
Fixpoint client (n : nat) (ops : list op) (writes : nat) : prog bucket nat :=
  match ops with
  | [] => Ret writes
  | Write m kill :: ops =>
      let! r := write_lock n m in
      match r with
      | Some _ =>
          let! x := load contents in
          store set_contents (S x) ;;
          (if kill : bool then mark_killed else Ret ()) ;;
          Locker.drop n ;;
          client n ops (S writes)
      | None => client n ops writes
      end
  | Read m :: ops =>
      let! r := read_lock n m in
      match r with
      | Some _ =>
          let! x := load contents in
          let! y := load contents in
          dassert (x =? y)%nat ;;
          Reader.release n ;;
          client n ops writes
      | None => client n ops writes
      end
  end.

(** ** The state word *)

(** The word with the flags [k] (killed) and [w] (waiting), and the lock part [m]. *)
Definition lock_word (k w : bool) (m : Z) : Z :=
  Z.lor (Z.lor (if k then one_shl 31 else 0) (if w then one_shl 30 else 0)) m.

Lemma bit_if (c : bool) x i : bit (if c then x else 0) i = c && bit x i.
Proof. destruct c; [done | apply bit_0]. Qed.

Lemma bit_lock_word k w m i :
  in_word 30 m →
  bit (lock_word k w m) i =
    if decide (i < 30)%nat then bit m i
    else if decide (i = 30)%nat then w else if decide (i = 31)%nat then k else false.
Proof.
  intros Hm. unfold lock_word. rewrite !bit_lor, !bit_if, !bit_one_shl.
  destruct (decide (i < 30)%nat).
  { rewrite !bool_decide_false by lia. by rewrite !andb_false_r. }
  rewrite (bit_high 30 m) by (auto; lia).
  destruct (decide (i = 30)%nat) as [-> |]; [| destruct (decide (i = 31)%nat) as [-> |]].
  - by rewrite bool_decide_false, bool_decide_true, andb_false_r, andb_true_r, orb_false_r by lia.
  - by rewrite bool_decide_true, bool_decide_false, andb_false_r, andb_true_r, !orb_false_r by lia.
  - by rewrite !bool_decide_false, !andb_false_r by lia.
Qed.

Lemma in_word_lock_word k w m : in_word 30 m → in_word 32 (lock_word k w m).
Proof.
  intros Hm. unfold lock_word.
  assert (in_word 32 m) by (by apply (in_word_le 30); [lia |]).
  destruct k, w; auto 10 with word; repeat apply in_word_lor; auto with word; by apply in_word_one_shl; lia.
Qed.

Lemma in_word_LOCK : in_word 30 LOCK.
Proof. vm_compute. split; congruence. Qed.

Lemma LOCK_MASK_ones : LOCK_MASK = umax 30.
Proof. reflexivity. Qed.

#[export] Hint Resolve in_word_lock_word in_word_LOCK : word.

Section Words.
Context (k w : bool) (m : Z) (Hm : in_word 30 m).

Lemma lock_word_killed : (Z.land (lock_word k w m) KILLED =? KILLED) = k.
Proof. unfold KILLED. by rewrite land_bit_eq, bit_lock_word. Qed.

Lemma lock_word_waiting : (Z.land (lock_word k w m) WAITING =? WAITING) = w.
Proof. unfold WAITING. by rewrite land_bit_eq, bit_lock_word. Qed.

Lemma lock_word_mask : Z.land (lock_word k w m) LOCK_MASK = m.
Proof.
  apply (word_ext 32); [auto with word | by apply (in_word_le 30); [lia |] |].
  intros i Hi. rewrite LOCK_MASK_ones, bit_land, bit_umax, bit_lock_word by done.
  destruct (decide (i < 30)%nat).
  - by rewrite bool_decide_true, andb_true_r.
  - rewrite bool_decide_false, andb_false_r by done. by rewrite (bit_high 30) by (done || lia).
Qed.

Lemma lock_word_unmask : Z.land (lock_word k w m) (unot 32 LOCK_MASK) = lock_word k w 0.
Proof.
  apply (word_ext 32); [auto with word.. |].
  intros i Hi. rewrite bit_land, bit_unot_low, LOCK_MASK_ones, bit_umax, !bit_lock_word by auto with word.
  rewrite bit_0. destruct (decide (i < 30)%nat).
  - by rewrite bool_decide_true, andb_false_r.
  - by rewrite bool_decide_false, andb_true_r.
Qed.

Lemma lock_word_lock : Z.lor (lock_word k w 0) LOCK = lock_word k w LOCK.
Proof. unfold lock_word. by rewrite Z.lor_0_r. Qed.

Lemma lock_word_wait : Z.lor (lock_word k w m) WAITING = lock_word k true m.
Proof.
  apply (word_ext 32); [apply in_word_lor; [auto with word | unfold WAITING; apply in_word_one_shl; lia] |
    auto with word |].
  intros i Hi. unfold WAITING. rewrite bit_lor, bit_one_shl, !bit_lock_word by done.
  destruct (decide (i < 30)%nat); [by rewrite bool_decide_false, orb_false_r by lia |].
  destruct (decide (i = 30)%nat) as [-> |]; [by rewrite bool_decide_true, orb_true_r |].
  by rewrite bool_decide_false, orb_false_r by lia.
Qed.

Lemma lock_word_kill : Z.lor (lock_word k w m) KILLED = lock_word true w m.
Proof.
  apply (word_ext 32); [apply in_word_lor; [auto with word | unfold KILLED; apply in_word_one_shl; lia] |
    auto with word |].
  intros i Hi. unfold KILLED. rewrite bit_lor, bit_one_shl, !bit_lock_word by done.
  destruct (decide (i < 30)%nat); [by rewrite bool_decide_false, orb_false_r by lia |].
  destruct (decide (i = 30)%nat) as [-> |]; [by rewrite bool_decide_false, orb_false_r by lia |].
  destruct (decide (i = 31)%nat) as [-> |]; [by rewrite bool_decide_true, orb_true_r |].
  by rewrite bool_decide_false, orb_false_r by lia.
Qed.

Lemma lock_word_unwait : Z.land (lock_word k w m) (unot 32 WAITING) = lock_word k false m.
Proof.
  apply (word_ext 32); [auto with word.. |].
  intros i Hi. unfold WAITING. rewrite bit_land, bit_unot_low, bit_one_shl, !bit_lock_word by done.
  destruct (decide (i < 30)%nat); [by rewrite bool_decide_false, andb_true_r by lia |].
  destruct (decide (i = 30)%nat) as [-> |]; [by rewrite bool_decide_true, andb_false_r |].
  by rewrite bool_decide_false, andb_true_r by lia.
Qed.

Lemma lock_word_unlock :
  Z.land (lock_word k w LOCK) (unot 32 (Z.lor WAITING LOCK)) = lock_word k false 0.
Proof.
  apply (word_ext 32); [auto with word.. |].
  intros i Hi. unfold WAITING, LOCK.
  rewrite bit_land, bit_unot_low, bit_lor, !bit_one_shl, !bit_lock_word, bit_one_shl, bit_0 by auto with word.
  destruct (decide (i < 30)%nat).
  { destruct (bool_decide (29 = i)%nat); cbn; [by rewrite orb_true_r | done]. }
  destruct (decide (i = 30)%nat) as [-> |]; [by rewrite (bool_decide_true (30 = 30)%nat), andb_false_r |].
  by rewrite !bool_decide_false, andb_true_r by lia.
Qed.

(** The flags are above the lock part. *)
Lemma lock_word_add : lock_word k w m = lock_word k w 0 + m.
Proof.
  unfold lock_word. rewrite Z.lor_0_r. set (h := Z.lor (if k then one_shl 31 else 0) _).
  assert (Hz : Z.land h m = 0).
  { apply (word_zero_iff 32).
    - apply in_word_land_l. unfold h. destruct k, w; auto with word; try apply in_word_lor; auto with word;
        apply in_word_one_shl; lia.
    - intros i Hi. unfold h. rewrite bit_land, bit_lor, !bit_if, !bit_one_shl.
      destruct (decide (i < 30)%nat); [by rewrite !bool_decide_false, !andb_false_r by lia |].
      rewrite (bit_high 30 m) by (done || lia). by rewrite andb_false_r. }
  by rewrite Z.add_nocarry_lxor, <-Z.lxor_lor by done.
Qed.
End Words.

Lemma lock_word_inj k w m k' w' m' :
  in_word 30 m → in_word 30 m' → lock_word k w m = lock_word k' w' m' → k = k' ∧ w = w' ∧ m = m'.
Proof.
  intros Hm Hm' Heq. split_and!.
  - by rewrite <-(lock_word_killed k w m), Heq, lock_word_killed.
  - by rewrite <-(lock_word_waiting k w m), Heq, lock_word_waiting.
  - by rewrite <-(lock_word_mask k w m), Heq, lock_word_mask.
Qed.

Lemma lock_word_shift k w m n :
  in_word 30 m → in_word 30 (m + n) → lock_word k w m + n = lock_word k w (m + n).
Proof. intros Hm Hn. rewrite (lock_word_add k w m), (lock_word_add k w (m + n)) by done. lia. Qed.
