(* ===== verification/LockConc.v ===== *)
(** * The lock of a bucket under concurrency

    Mutual exclusion, and no lost wake-up: the invariant of the states that threads
    which lock, unlock, wait for and kill a bucket can reach, each operation's
    specification, and the theorem on all interleavings. *)
From S2P Require Import Prelude Atomic WaitQueue BucketLock.

Local Open Scope Z_scope.

(** ** Ghost state *)

(** The life of the entry that a thread waits with.  [Private w]: not pushed yet, its
    link being [w].  [Announced]: the waiting flag was set after the entry was pushed.
    [Retrying]: and the word read afterwards was neither locked nor killed.
    [Waits]: and the bucket could not be locked.  [Polled]: and a
    waker was registered.  [Out]: the queue was detached after
    the entry was pushed.  [Woken]: the entry was signalled.  [Fresh] and [Taken]: an [AsyncWait] that has no mutex, before
    and after. *)
Inductive phase :=
  | Fresh (w : link)
  | Private (w : link)
  | Pushed
  | Announced
  | Retrying
  | Waits
  | Polled
  | Out
  | Woken
  | Taken.

Definition queued (ph : phase) : bool :=
  match ph with Fresh _ | Private _ | Woken | Taken => false | _ => true end.

(** What a thread owns: the lock ([Some true]: the exclusive one); the duty to signal
    the queue; the entries it has detached and still has to turn around or to wake
    up; the entry it waits with; what it has read of the contents while it holds the
    lock; the number of its increments. *)
Record ghost := Ghost {
  hold : option bool;
  sig : bool;
  fwd : list (nat * bool);
  bwd : list (nat * bool);
  mine : option (nat * bool * phase);
  seen : option nat;
  writes : nat
}.

Definition items (l : ghost) : list nat := (fwd l ++ bwd l).*1.

Definition excl1 (l : ghost) : nat := match hold l with Some true => 1 | _ => 0 end.
Definition shared1 (l : ghost) : nat := match hold l with Some false => 1 | _ => 0 end.

Arguments excl1 !l /.
Arguments shared1 !l /.
Arguments writes !g /.

Abbreviation total f ls := (sum_list_with f ls).

(** The lock part [m] of the state word and the contents [d]. *)
Record lock_inv (m : Z) (d : nat) (ls : list ghost) : Prop := {
  li_mask : (m = LOCK ∧ total excl1 ls = 1%nat ∧ total shared1 ls = 0%nat) ∨
            (m = Z.of_nat (total shared1 ls) ∧ total excl1 ls = 0%nat ∧ m ≤ SLOCK_MAX);
  li_seen : ∀ t l x, ls !! t = Some l → seen l = Some x → hold l ≠ None ∧ d = x;
  li_data : d = total writes ls
}.

(** An entry that is in the queue or was detached from it. *)
Definition listed (Q : list (nat * bool)) (ls : list ghost) (i : nat) : Prop :=
  i ∈ Q.*1 ∨ ∃ t l, ls !! t = Some l ∧ i ∈ items l.

Definition mine_ok (lst : Prop) (e : wait_entry) (a : bool) (ph : phase) : Prop :=
  live e = true ∧ is_async e = a ∧
  match ph with
  | Fresh w => ¬ lst ∧ done e = false ∧ next e = w ∧ mutex e = false ∧ waker e = false
  | Private w => ¬ lst ∧ done e = false ∧ next e = w ∧ mutex e = a ∧ waker e = false
  | Woken => ¬ lst ∧ done e = true ∧ waker e = false ∧ mutex e = a
  | Taken => ¬ lst ∧ mutex e = false
  | Polled => (lst ↔ done e = false) ∧ (done e = true → waker e = false) ∧ mutex e = a ∧
      (waker e || woken e = true)
  | _ => (lst ↔ done e = false) ∧ (done e = true → waker e = false) ∧ mutex e = a
  end.

(** The queue [Q], the youngest entry first. *)
Record queue_inv (Q : list (nat * bool)) (q : WaitQueue) (ls : list ghost) : Prop := {
  qi_head : wait_queue q = head Q;
  qi_linked : linked (entries q) Q;
  qi_nodup : NoDup Q.*1;
  qi_own : ∀ t l, ls !! t = Some l →
    linked (entries q) (fwd l) ∧ linked (entries q) (bwd l) ∧ NoDup (items l) ∧
    ∀ i, i ∈ items l → i ∉ Q.*1;
  qi_disj : ∀ t t' l l' i, ls !! t = Some l → ls !! t' = Some l' → t ≠ t' →
    i ∈ items l → i ∉ items l';
  qi_mine : ∀ t l i a ph, ls !! t = Some l → mine l = Some (i, a, ph) →
    ∃ e, entries q !! i = Some e ∧ mine_ok (listed Q ls i) e a ph;
  qi_inj : ∀ t t' l l' i a a' ph ph', ls !! t = Some l → ls !! t' = Some l' → t ≠ t' →
    mine l = Some (i, a, ph) → mine l' ≠ Some (i, a', ph')
}.

Definition no_sig (ls : list ghost) : Prop := ∀ t l, ls !! t = Some l → sig l = false.

(** Whether a wake-up of an entry is on its way: the entry is in the queue, and nobody
    is about to signal the queue. *)
Definition phase_ok (k w : bool) (m : Z) (inq nosig : Prop) (ph : phase) : Prop :=
  match ph with
  | Announced => inq → nosig → w = true
  | Retrying => inq → nosig → w = true ∧ (m ≠ 0 ∨ k = false)
  | Waits | Polled => inq → nosig → w = true ∧ m ≠ 0
  | Out => ¬ inq
  | _ => True
  end.

Definition phase_inv (k w : bool) (m : Z) (Q : list (nat * bool)) (ls : list ghost) : Prop :=
  ∀ t l i a ph, ls !! t = Some l → mine l = Some (i, a, ph) →
    phase_ok k w m (i ∈ Q.*1) (no_sig ls) ph.

Definition inv (b : bucket) (ls : list ghost) : Prop :=
  ∃ k w m Q, state b = lock_word k w m ∧ lock_inv m (contents b) ls ∧
    queue_inv Q (wait b) ls ∧ phase_inv k w m Q ls.

(** A thread that others may wait for. *)
#[export] Instance busy_ghost : Busy ghost bucket :=
  λ b l, sig l = true ∨ items l ≠ [] ∨
    (hold l ≠ None ∧ match mine l with Some (i, _, Out) => completed i b = true | _ => True end).

(** ** Frames *)

Lemma lock_frame m d ls t l l' :
  ls !! t = Some l → hold l' = hold l → seen l' = seen l → writes l' = writes l →
  lock_inv m d ls → lock_inv m d (<[t := l']> ls).
Proof.
  intros Hl Hh Hs Hw [HM HS HD].
  pose proof (sum_list_with_insert excl1 ls t l l' Hl) as He.
  pose proof (sum_list_with_insert shared1 ls t l l' Hl) as Hsh.
  pose proof (sum_list_with_insert writes ls t l l' Hl) as Hwr.
  assert (excl1 l' = excl1 l ∧ shared1 l' = shared1 l) as [Heq Hseq] by (unfold excl1, shared1; by rewrite Hh).
  constructor.
  - destruct HM; [left | right]; split_and!; try tauto; lia.
  - intros u x y Hx Hy. destruct (insert_cases _ _ _ _ _ _ Hl Hx) as [[-> ->] | [_ Hx']].
    + rewrite Hh. rewrite Hs in Hy. by eapply HS.
    + by eapply HS.
  - lia.
Qed.

Lemma listed_insert Q ls t l l' i :
  ls !! t = Some l →
  listed Q (<[t := l']> ls) i ↔
    i ∈ Q.*1 ∨ i ∈ items l' ∨ ∃ u x, u ≠ t ∧ ls !! u = Some x ∧ i ∈ items x.
Proof.
  intros Hl. split.
  - intros [Hi | (u & x & Hx & Hi)]; [by left |].
    destruct (insert_cases _ _ _ _ _ _ Hl Hx) as [[-> ->] | [Hu Hx']]; [by right; left |].
    right; right; eauto.
  - intros [Hi | [Hi | (u & x & Hu & Hx & Hi)]]; [by left | |]; right.
    + exists t, l'. split; [by eapply insert_self | done].
    + exists u, x. split; [by apply insert_other | done].
Qed.

Lemma listed_cases Q ls t l i :
  ls !! t = Some l →
  listed Q ls i ↔ i ∈ Q.*1 ∨ i ∈ items l ∨ ∃ u x, u ≠ t ∧ ls !! u = Some x ∧ i ∈ items x.
Proof. intros Hl. rewrite <-(listed_insert Q ls t l l) by done. by rewrite list_insert_id. Qed.

(** The entries are the same, in phases that say the same of the queue. *)
Definition mine_sim (l l' : ghost) : Prop :=
  match mine l, mine l' with
  | None, None => True
  | Some (i, a, ph), Some (i', a', ph') =>
      i = i' ∧ a = a' ∧ (ph = ph' ∨ (queued ph = true ∧ queued ph' = true ∧ ph' ≠ Polled))
  | _, _ => False
  end.

Lemma mine_ok_sim lst e a ph ph' :
  ph = ph' ∨ (queued ph = true ∧ queued ph' = true ∧ ph' ≠ Polled) → mine_ok lst e a ph → mine_ok lst e a ph'.
Proof. intros [-> | (Hq & Hq' & Hp)]; [done |]. unfold mine_ok. destruct ph, ph'; try done; tauto. Qed.

Lemma mine_ok_iff lst lst' e a ph : (lst ↔ lst') → mine_ok lst e a ph → mine_ok lst' e a ph.
Proof. intros Hiff. unfold mine_ok. destruct ph; tauto. Qed.

Lemma queue_frame Q q ls t l l' :
  ls !! t = Some l → fwd l' = fwd l → bwd l' = bwd l → mine_sim l l' →
  queue_inv Q q ls → queue_inv Q q (<[t := l']> ls).
Proof.
  intros Hl Hf Hb Hm [H1 H2 H3 Hown Hdisj Hmine Hinj].
  assert (Hit : items l' = items l) by (unfold items; by rewrite Hf, Hb).
  assert (Hli : ∀ i, listed Q ls i ↔ listed Q (<[t := l']> ls) i).
  { intros i. rewrite (listed_insert Q ls t l l' i Hl), (listed_cases Q ls t l i Hl), Hit. done. }
  assert (Hms : ∀ i a ph, mine l' = Some (i, a, ph) → ∃ ph0, mine l = Some (i, a, ph0) ∧
            (ph0 = ph ∨ (queued ph0 = true ∧ queued ph = true ∧ ph ≠ Polled))).
  { intros i a ph Hi. unfold mine_sim in Hm. rewrite Hi in Hm.
    destruct (mine l) as [[[i0 a0] ph0] |]; [| done]. destruct Hm as (-> & -> & ?). eauto. }
  constructor; try done.
  - intros u x Hx. destruct (insert_cases _ _ _ _ _ _ Hl Hx) as [[-> ->] | [_ Hx']]; [| by apply (Hown u)].
    rewrite Hf, Hb, Hit. by apply (Hown t).
  - intros u u' x x' i Hx Hx' Hne.
    destruct (insert_cases _ _ _ _ _ _ Hl Hx) as [[-> ->] | [? Hx1]],
      (insert_cases _ _ _ _ _ _ Hl Hx') as [[-> ->] | [? Hx1']]; rewrite ?Hit; try done;
      by eapply Hdisj.
  - intros u x i a ph Hx Hi. destruct (insert_cases _ _ _ _ _ _ Hl Hx) as [[-> ->] | [_ Hx']].
    + destruct (Hms i a ph Hi) as (ph0 & Hi0 & Hsim). destruct (Hmine t l i a ph0 Hl Hi0) as (e & He & Hok).
      exists e. split; [done |]. eapply mine_ok_iff; [apply Hli |]. by eapply mine_ok_sim.
    + destruct (Hmine u x i a ph Hx' Hi) as (e & He & Hok). exists e. split; [done |].
      by eapply mine_ok_iff; [apply Hli |].
  - intros u u' x x' i a a' ph ph' Hx Hx' Hne Hi Hi'.
    destruct (insert_cases _ _ _ _ _ _ Hl Hx) as [[-> ->] | [? Hx1]],
      (insert_cases _ _ _ _ _ _ Hl Hx') as [[-> ->] | [? Hx1']]; [done | | |].
    + destruct (Hms _ _ _ Hi) as (ph0 & Hi0 & _). by eapply (Hinj t u').
    + destruct (Hms _ _ _ Hi') as (ph0 & Hi0 & _). by eapply (Hinj u t).
    + by eapply (Hinj u u').
Qed.

Lemma phase_ok_stable k w m (inq ns : Prop) k' w' m' (inq' ns' : Prop) ph :
  (inq' → inq) →
  (inq' → ns' → ns ∧ (w = true → w' = true ∧ (m ≠ 0 → m' ≠ 0) ∧ (k = false → k' = false ∨ m' ≠ 0))) →
  phase_ok k w m inq ns ph → phase_ok k' w' m' inq' ns' ph.
Proof. intros Hi Hs. destruct ph; cbn; tauto. Qed.

(** One thread changes, and possibly the word and the queue. *)
Lemma phase_insert k w m Q ls t l l' k' w' m' Q' :
  ls !! t = Some l → phase_inv k w m Q ls →
  (∀ u x i a ph, u ≠ t → ls !! u = Some x → mine x = Some (i, a, ph) → i ∈ Q'.*1 → i ∈ Q.*1) →
  (Q' ≠ [] → no_sig (<[t := l']> ls) →
    no_sig ls ∧ (w = true → w' = true ∧ (m ≠ 0 → m' ≠ 0) ∧ (k = false → k' = false ∨ m' ≠ 0))) →
  (∀ i a ph, mine l' = Some (i, a, ph) →
    phase_ok k' w' m' (i ∈ Q'.*1) (no_sig (<[t := l']> ls)) ph) →
  phase_inv k' w' m' Q' (<[t := l']> ls).
Proof.
  intros Hl HP HQ Hs Hown u x i a ph Hx Hi.
  destruct (insert_cases _ _ _ _ _ _ Hl Hx) as [[-> ->] | [Hu Hx']]; [by eapply Hown |].
  eapply phase_ok_stable; [| | by apply (HP u x i a ph)].
  - by eapply HQ.
  - intros Hin. apply Hs. intros ->. by apply elem_of_nil in Hin.
Qed.

Lemma no_sig_insert ls t l l' :
  ls !! t = Some l → sig l = false → no_sig (<[t := l']> ls) → no_sig ls.
Proof.
  intros Hl Hs Hn u x Hx. destruct (decide (u = t)) as [-> | Hu]; [congruence |].
  apply (Hn u). by apply insert_other.
Qed.

Lemma no_sig_self ls t l l' : ls !! t = Some l → no_sig (<[t := l']> ls) → sig l' = false.
Proof. intros Hl Hn. apply (Hn t). by eapply insert_self. Qed.

(** ** The steps on the state word *)

(** Forget what is known of the wake-up of the own entry. *)
Definition calm (mi : option (nat * bool * phase)) : option (nat * bool * phase) :=
  match mi with
  | Some (i, a, ph) =>
      Some (i, a, match ph with Out => Out | _ => if queued ph then Pushed else ph end)
  | None => None
  end.

Lemma calm_sim h g f b mi x v h' g' mi' x' v' :
  mi' = calm mi → mine_sim (Ghost h g f b mi x v) (Ghost h' g' f b mi' x' v').
Proof.
  intros ->. unfold mine_sim. cbn. destruct mi as [[[i a] ph] |]; [cbn | done].
  split_and!; [done | done |]. destruct ph; cbn; auto.
Qed.

Lemma calm_ok k w m (Q : list (nat * bool)) ns k' w' m' ns' mi i a ph :
  (∀ i a ph, mi = Some (i, a, ph) → phase_ok k w m (i ∈ Q.*1) ns ph) →
  calm mi = Some (i, a, ph) → phase_ok k' w' m' (i ∈ Q.*1) ns' ph.
Proof.
  intros HP. destruct mi as [[[i0 a0] ph0] |]; [| done]. specialize (HP _ _ _ eq_refl). cbn.
  destruct ph0; cbn in *; intros [= <- _ <-]; done.
Qed.

Lemma in_word_count m ls d : lock_inv m d ls → in_word 30 m.
Proof.
  intros [[(-> & _) | (Hm & _ & Hle)] _ _]; [apply in_word_LOCK |].
  unfold in_word. split; [lia |]. eapply Z.le_lt_trans; [exact Hle | reflexivity].
Qed.

Lemma SLOCK_MAX_lt : 0 <= SLOCK_MAX < LOCK.
Proof. done. Qed.

Lemma LOCK_pos : 0 < LOCK.
Proof. reflexivity. Qed.

Opaque LOCK SLOCK_MAX.

Ltac counts Hl l' :=
  match type of Hl with
  | ?ls !! ?t = Some ?l =>
      pose proof (sum_list_with_insert excl1 ls t l l' Hl);
      pose proof (sum_list_with_insert shared1 ls t l l' Hl);
      pose proof (sum_list_with_insert writes ls t l l' Hl);
      pose proof (sum_list_with_lookup excl1 ls t l Hl);
      pose proof (sum_list_with_lookup shared1 ls t l Hl);
      pose proof SLOCK_MAX_lt; pose proof LOCK_pos;
      cbn [excl1 shared1 hold writes] in *
  end.

(** The seen values, when one thread's goes or the contents stay. *)
Lemma seen_insert (d : nat) (ls : list ghost) (t : nat) l l' :
  ls !! t = Some l →
  (∀ x, seen l' = Some x → hold l' ≠ None ∧ d = x) →
  (∀ (u : nat) y x, ls !! u = Some y → seen y = Some x → hold y ≠ None ∧ d = x) →
  ∀ (u : nat) y x, <[t := l']> ls !! u = Some y → seen y = Some x → hold y ≠ None ∧ d = x.
Proof.
  intros Hl Hown Hs u y x Hy Hx. destruct (insert_cases _ _ _ _ _ _ Hl Hy) as [[-> ->] | [_ Hy']]; eauto.
Qed.

Lemma lock_acquire d ls t mi v mi' :
  ls !! t = Some (Ghost None false [] [] mi None v) → lock_inv 0 d ls →
  lock_inv LOCK d (<[t := Ghost (Some true) false [] [] mi' None v]> ls).
Proof.
  intros Hl [HM HS HD]. counts Hl (Ghost (Some true) false [] [] mi' None v).
  constructor.
  - left. destruct HM as [(? & _) | (? & ? & _)]; [lia |]. split_and!; [done | lia | lia].
  - eapply seen_insert; [done | by intros x [=] | done].
  - lia.
Qed.

Lemma lock_share m d ls t mi v mi' :
  ls !! t = Some (Ghost None false [] [] mi None v) → lock_inv m d ls → m < SLOCK_MAX →
  lock_inv (m + 1) d (<[t := Ghost (Some false) false [] [] mi' None v]> ls).
Proof.
  intros Hl [HM HS HD] Hm. counts Hl (Ghost (Some false) false [] [] mi' None v).
  constructor.
  - right. destruct HM as [(? & _) | (? & ? & _)]; [lia |]. split_and!; lia.
  - eapply seen_insert; [done | by intros x [=] | done].
  - lia.
Qed.

(** The holder of the lock knows the lock part. *)
Lemma lock_excl m d ls t l :
  ls !! t = Some l → hold l = Some true → lock_inv m d ls → m = LOCK.
Proof.
  intros Hl Hh [HM _ _]. pose proof (sum_list_with_lookup excl1 ls t l Hl) as He.
  unfold excl1 at 1 in He. rewrite Hh in He. destruct HM as [(? & _) | (_ & ? & _)]; [done | lia].
Qed.

Lemma lock_shared m d ls t l :
  ls !! t = Some l → hold l = Some false → lock_inv m d ls → 0 < m ≤ SLOCK_MAX.
Proof.
  intros Hl Hh [HM _ _]. pose proof (sum_list_with_lookup shared1 ls t l Hl) as He.
  unfold shared1 at 1 in He. rewrite Hh in He.
  destruct HM as [(_ & _ & ?) | (? & _ & ?)]; [lia | lia].
Qed.

Lemma lock_unlock d ls t g mi v x g' mi' :
  ls !! t = Some (Ghost (Some true) g [] [] mi x v) → lock_inv LOCK d ls →
  lock_inv 0 d (<[t := Ghost None g' [] [] mi' None v]> ls).
Proof.
  intros Hl [HM HS HD]. counts Hl (Ghost None g' [] [] mi' None v).
  constructor.
  - right. destruct HM as [(_ & ? & ?) | (? & ? & ?)]; [| lia]. split_and!; lia.
  - eapply seen_insert; [done | by intros y [=] | done].
  - lia.
Qed.

Lemma lock_unshare m d ls t g mi v x g' mi' :
  ls !! t = Some (Ghost (Some false) g [] [] mi x v) → lock_inv m d ls →
  lock_inv (m - 1) d (<[t := Ghost None g' [] [] mi' None v]> ls).
Proof.
  intros Hl [HM HS HD]. counts Hl (Ghost None g' [] [] mi' None v).
  constructor.
  - right. destruct HM as [(? & ? & ?) | (? & ? & ?)]; [lia |]. split_and!; lia.
  - eapply seen_insert; [done | by intros y [=] | done].
  - lia.
Qed.

(** Mutual exclusion: who writes is alone. *)
Lemma lock_alone m d ls t l u x :
  ls !! t = Some l → hold l = Some true → lock_inv m d ls → ls !! u = Some x → u ≠ t → hold x = None.
Proof.
  intros Hl Hh [HM _ _] Hx Hu.
  pose proof (sum_list_with_insert excl1 ls t l (Ghost None false [] [] None None 0) Hl) as He.
  pose proof (sum_list_with_lookup excl1 (<[t := Ghost None false [] [] None None 0%nat]> ls) u x) as Hex.
  pose proof (sum_list_with_lookup excl1 ls t l Hl) as Hel.
  pose proof (sum_list_with_lookup shared1 ls u x Hx) as Hs.
  rewrite list_lookup_insert_ne in Hex by done. specialize (Hex Hx).
  unfold excl1 at 2 4 in He. unfold excl1 at 1 in Hex. unfold shared1 at 1 in Hs.
  unfold excl1 at 1 in Hel. cbn [hold] in He. rewrite Hh in *.
  destruct (hold x) as [[|] |]; [exfalso | exfalso | done]; cbn in *; destruct HM as [(_ & ? & ?) | (_ & ? & _)]; lia.
Qed.

Lemma lock_write m ls t mi v x d :
  ls !! t = Some (Ghost (Some true) false [] [] mi (Some x) v) → lock_inv m d ls →
  d = x ∧ lock_inv m (S x) (<[t := Ghost (Some true) false [] [] mi None (S v)]> ls).
Proof.
  intros Hl HI. pose proof (λ u y, lock_alone m d ls t _ u y Hl eq_refl HI) as Hal.
  destruct HI as [HM HS HD]. destruct (HS _ _ x Hl eq_refl) as [_ ->]. split; [done |].
  counts Hl (Ghost (Some true) false [] [] mi None (S v)). constructor.
  - destruct HM; [left | right]; split_and!; try tauto; lia.
  - intros u y z Hy Hz. destruct (insert_cases _ _ _ _ _ _ Hl Hy) as [[-> ->] | [Hu Hy']]; [done |].
    destruct (HS u y z Hy' Hz) as [Hh _]. by rewrite (Hal u y Hy' Hu) in Hh.
  - lia.
Qed.

(** The same for the invariant.  [m] is known from the word that was read. *)
Lemma inv_acquire k w b ls t mi v :
  ls !! t = Some (Ghost None false [] [] mi None v) → inv b ls → state b = lock_word k w 0 →
  inv (set_state (lock_word k w LOCK) b)
      (<[t := Ghost (Some true) false [] [] (calm mi) None v]> ls).
Proof.
  intros Hl (k' & w' & m & Q & Hst & HL & HQ & HP) Hb. rewrite Hst in Hb.
  apply lock_word_inj in Hb as (-> & -> & ->); [| by eapply in_word_count | apply in_word_0].
  exists k, w, LOCK, Q. split_and!; [done | by eapply lock_acquire | | ].
  - eapply queue_frame; [done | done | done | by apply calm_sim | done].
  - eapply phase_insert; [done | done | done | |].
    + intros _ Hns. split; [by eapply no_sig_insert |]. pose proof LOCK_pos. intros ->. split; [done |]. split; [lia |]. right. lia.
    + intros i a ph. eapply calm_ok. intros i' a' ph' Hi. by eapply (HP t _ i' a' ph' Hl).
Qed.

Lemma inv_share k w m b ls t mi v :
  ls !! t = Some (Ghost None false [] [] mi None v) → inv b ls → in_word 30 m → m < SLOCK_MAX →
  state b = lock_word k w m →
  inv (set_state (lock_word k w (m + 1)) b)
      (<[t := Ghost (Some false) false [] [] (calm mi) None v]> ls).
Proof.
  intros Hl (k' & w' & m' & Q & Hst & HL & HQ & HP) Hm Hlt Hb. rewrite Hst in Hb.
  apply lock_word_inj in Hb as (-> & -> & ->); [| by eapply in_word_count | done].
  assert (0 <= m) by apply Hm.
  exists k, w, (m + 1), Q. split_and!; [done | by eapply lock_share | | ].
  - eapply queue_frame; [done | done | done | by apply calm_sim | done].
  - eapply phase_insert; [done | done | done | |].
    + intros _ Hns. split; [by eapply no_sig_insert |]. intros ->. split; [done |]. split; [lia |]. right. lia.
    + intros i a ph. eapply calm_ok. intros i' a' ph' Hi. by eapply (HP t _ i' a' ph' Hl).
Qed.

(** Unlocking clears the waiting flag, and whoever clears it has to signal. *)
Lemma phase_unlock k w m m' Q ls t l l' :
  ls !! t = Some l → sig l = false → sig l' = w → mine l' = calm (mine l) →
  phase_inv k w m Q ls → phase_inv k false m' Q (<[t := l']> ls).
Proof.
  intros Hl Hs Hs' Hm HP. eapply phase_insert; [done | done | done | |].
  - intros _ Hns. split; [by eapply no_sig_insert |].
    pose proof (no_sig_self _ _ _ _ Hl Hns) as Hw. congruence.
  - intros i a ph Hi. rewrite Hm in Hi. eapply calm_ok; [| exact Hi].
    intros i' a' ph' Hi'. by eapply (HP t l i' a' ph').
Qed.

Lemma inv_unlock b ls t mi x v k w m :
  ls !! t = Some (Ghost (Some true) false [] [] mi x v) → inv b ls →
  state b = lock_word k w m → in_word 30 m →
  m = LOCK ∧ inv (set_state (lock_word k false 0) b) (<[t := Ghost None w [] [] (calm mi) None v]> ls).
Proof.
  intros Hl (k' & w' & m' & Q & Hst & HL & HQ & HP) Hb Hm. rewrite Hst in Hb.
  apply lock_word_inj in Hb as (-> & -> & ->); [| by eapply in_word_count | done].
  pose proof (lock_excl _ _ _ _ _ Hl eq_refl HL) as ->. split; [done |].
  exists k, false, 0, Q. split_and!; [done | by eapply lock_unlock | | ].
  - eapply queue_frame; [done | done | done | by apply calm_sim | done].
  - by eapply phase_unlock.
Qed.

Lemma inv_unshare b ls t mi x v k w m :
  ls !! t = Some (Ghost (Some false) false [] [] mi x v) → inv b ls →
  state b = lock_word k w m → in_word 30 m →
  0 < m ∧ inv (set_state (lock_word k false (m - 1)) b) (<[t := Ghost None w [] [] (calm mi) None v]> ls).
Proof.
  intros Hl (k' & w' & m' & Q & Hst & HL & HQ & HP) Hb Hm. rewrite Hst in Hb.
  apply lock_word_inj in Hb as (-> & -> & ->); [| by eapply in_word_count | done].
  destruct (lock_shared _ _ _ _ _ Hl eq_refl HL) as [Hpos _]. split; [done |].
  exists k, false, (m - 1), Q. split_and!; [done | by eapply lock_unshare | | ].
  - eapply queue_frame; [done | done | done | by apply calm_sim | done].
  - by eapply phase_unlock.
Qed.

Lemma inv_announce b ls t i a v :
  ls !! t = Some (Ghost None false [] [] (Some (i, a, Pushed)) None v) → inv b ls →
  inv (set_state (Z.lor (state b) WAITING) b)
      (<[t := Ghost None false [] [] (Some (i, a, Announced)) None v]> ls).
Proof.
  intros Hl (k & w & m & Q & Hst & HL & HQ & HP).
  assert (Hm : in_word 30 m) by (by eapply in_word_count).
  exists k, true, m, Q. split_and!.
  - cbn. by rewrite Hst, lock_word_wait.
  - by eapply lock_frame.
  - eapply queue_frame; [done | done | done | | done]. unfold mine_sim. cbn. naive_solver.
  - eapply phase_insert; [done | done | done | |].
    + intros _ Hns. split; [by eapply no_sig_insert | auto].
    + intros i' a' ph [= <- <- <-]. by intros _ _.
Qed.

(** What a load of the word tells a thread that has announced itself. *)
Lemma inv_observe b ls t i a v ph :
  ls !! t = Some (Ghost None false [] [] (Some (i, a, Announced)) None v) → inv b ls →
  (∀ k w m inq, state b = lock_word k w m → in_word 30 m →
    phase_ok k w m inq (no_sig ls) Announced → phase_ok k w m inq (no_sig ls) ph) →
  queued ph = true → ph ≠ Polled →
  inv b (<[t := Ghost None false [] [] (Some (i, a, ph)) None v]> ls).
Proof.
  intros Hl (k & w & m & Q & Hst & HL & HQ & HP) Hph Hq Hnp.
  exists k, w, m, Q. split_and!; [done | by eapply lock_frame | |].
  - eapply queue_frame; [done | done | done | | done]. unfold mine_sim. cbn. naive_solver.
  - eapply phase_insert; [done | done | done | |].
    + intros _ Hns. split; [by eapply no_sig_insert |]. intros ->. auto.
    + intros i' a' ph' [= <- <- <-]. pose proof (HP t _ i a Announced Hl eq_refl) as Ho.
      eapply (phase_ok_stable k w m (i ∈ Q.*1) (no_sig ls));
        [done | | apply Hph; [done | by eapply in_word_count | exact Ho]].
      intros _ Hns. split; [by eapply no_sig_insert | auto].
Qed.

(** The second attempt has failed as well. *)
Lemma inv_failed b ls t i a v :
  ls !! t = Some (Ghost None false [] [] (Some (i, a, Retrying)) None v) → inv b ls →
  state b ≠ lock_word false true 0 →
  inv b (<[t := Ghost None false [] [] (Some (i, a, Waits)) None v]> ls).
Proof.
  intros Hl (k & w & m & Q & Hst & HL & HQ & HP) Hne.
  exists k, w, m, Q. split_and!; [done | by eapply lock_frame | |].
  - eapply queue_frame; [done | done | done | | done]. unfold mine_sim. cbn. naive_solver.
  - eapply phase_insert; [done | done | done | |].
    + intros _ Hns. split; [by eapply no_sig_insert |]. intros ->. auto.
    + intros i' a' ph' [= <- <- <-]. pose proof (HP t _ i a Retrying Hl eq_refl) as Ho. cbn in Ho |- *.
      intros Hin Hns. destruct (Ho Hin) as [-> Hor]; [by eapply no_sig_insert |]. split; [done |].
      destruct Hor as [? | ->]; [done |]. intros ->. done.
Qed.

Lemma inv_kill b ls t l :
  ls !! t = Some l → inv b ls → hold l = Some true →
  inv (set_state (Z.lor (state b) KILLED) b) (<[t := l]> ls).
Proof.
  intros Hl (k & w & m & Q & Hst & HL & HQ & HP) Hh. rewrite list_insert_id by done.
  assert (Hm : in_word 30 m) by (by eapply in_word_count).
  pose proof (lock_excl _ _ _ _ _ Hl Hh HL) as ->. pose proof LOCK_pos.
  exists true, w, LOCK, Q. split_and!; [| done | done |].
  - cbn. by rewrite Hst, lock_word_kill.
  - intros u x i a ph Hx Hi. eapply phase_ok_stable; [exact id | | by eapply (HP u x)].
    intros _ Hns. split; [done |]. intros ->. split; [done |]. split; [done |]. right. lia.
Qed.

Lemma inv_seen b ls t h mi v x :
  ls !! t = Some (Ghost (Some h) false [] [] mi x v) → inv b ls →
  inv b (<[t := Ghost (Some h) false [] [] mi (Some (contents b)) v]> ls).
Proof.
  intros Hl (k & w & m & Q & Hst & HL & HQ & HP).
  exists k, w, m, Q. split_and!; [done | | |].
  - destruct HL as [HM HS HD].
    counts Hl (Ghost (Some h) false [] [] mi (Some (contents b)) v). constructor; [| | lia].
    + destruct h; (destruct HM; [left | right]; split_and!; try tauto; lia).
    + eapply seen_insert; [done | | done]. by intros y [= <-].
  - eapply queue_frame; [done | done | done | | done]. unfold mine_sim. cbn. destruct mi as [[[i a] ph] |]; auto.
  - eapply phase_insert; [done | done | done | |].
    + intros _ Hns. split; [by eapply no_sig_insert |]. intros ->. auto.
    + intros i a ph Hi. eapply phase_ok_stable; [exact id | | by eapply (HP t _ i a ph Hl)].
      intros _ Hns. split; [by eapply no_sig_insert |]. intros ->. auto.
Qed.

(** A shared holder reads the same contents again. *)
Lemma inv_reread b ls t h mi v x :
  ls !! t = Some (Ghost (Some h) false [] [] mi (Some x) v) → inv b ls → contents b = x.
Proof. intros Hl (k & w & m & Q & _ & [_ HS _] & _). by destruct (HS t _ x Hl). Qed.

Lemma inv_write b ls t v x :
  ls !! t = Some (Ghost (Some true) false [] [] None (Some x) v) → inv b ls →
  inv (set_contents (S x) b) (<[t := Ghost (Some true) false [] [] None None (S v)]> ls).
Proof.
  intros Hl (k & w & m & Q & Hst & HL & HQ & HP).
  destruct (lock_write _ _ _ _ _ _ _ Hl HL) as [_ HL'].
  exists k, w, m, Q. split_and!; [done | done | |].
  - eapply queue_frame; [done | done | done | | done]. done.
  - eapply phase_insert; [done | done | done | |].
    + intros _ Hns. split; [by eapply no_sig_insert |]. intros ->. auto.
    + by intros i a ph [=].
Qed.

(** ** Attempts to lock *)

Definition idle (h : option bool) (mi : option (nat * bool * phase)) (v : nat) : ghost :=
  Ghost h false [] [] mi None v.

(** The result of an attempt that is made with no entry in the queue. *)
Definition attempt_post (x : bool) (mi : option (nat * bool * phase)) (v : nat)
    (r : result (option unit)) (l : ghost) : Prop :=
  match r with
  | inl (Some _) => l = idle (Some x) mi v
  | _ => l = idle None mi v
  end.

Lemma inv_state b ls : inv b ls → ∃ k w m, state b = lock_word k w m ∧ in_word 30 m.
Proof.
  intros (k & w & m & Q & Hst & HL & _). exists k, w, m. split; [done |]. by eapply in_word_count.
Qed.

Lemma locker_try_lock_spec t mi v :
  calm mi = mi → wp inv t Locker.try_lock (idle None mi v) (attempt_post true mi v).
Proof.
  intros Hmi.
  unfold Locker.try_lock. apply wp_load. intros b ls Hl HI.
  destruct (inv_state _ _ HI) as (k & w & m & Hst & Hm). rewrite Hst, lock_word_unmask by done.
  rewrite lock_word_killed by apply in_word_0. destruct k; [done |].
  clear b ls Hl HI Hst. apply wp_cas.
  - intros b ls Hl HI Hst. rewrite lock_word_lock. eexists. split; [by eapply (inv_acquire _ _ b ls t mi) | by rewrite Hmi].
  - intros b ls Hl HI. done.
Qed.

Lemma reader_try_lock_spec t mi v :
  calm mi = mi → wp inv t Reader.try_lock (idle None mi v) (attempt_post false mi v).
Proof.
  intros Hmi.
  unfold Reader.try_lock. apply wp_load. intros b ls Hl HI.
  destruct (inv_state _ _ HI) as (k & w & m & Hst & Hm). rewrite Hst, lock_word_mask, lock_word_killed by done.
  destruct (Z.leb_spec SLOCK_MAX m) as [|Hlt]; [done |]. destruct k; [done |].
  clear b ls Hl HI Hst. apply wp_cas.
  - intros b ls Hl HI Hst. rewrite lock_word_shift.
    + eexists. split; [by eapply (inv_share _ _ _ b ls t mi) | by rewrite Hmi].
    + done.
    + pose proof SLOCK_MAX_lt. pose proof in_word_LOCK. unfold in_word in *. lia.
  - intros b ls Hl HI. done.
Qed.

(** The result of the attempt that follows the announcement. *)
Definition retry_post (x : bool) (i : nat) (a : bool) (v : nat) (r : result (option unit)) (l : ghost) : Prop :=
  match r with
  | inl (Some _) => ∃ ph, queued ph = true ∧ l = idle (Some x) (Some (i, a, ph)) v
  | inl None => ∃ ph, queued ph = true ∧ l = idle None (Some (i, a, ph)) v
  | inr _ => l = idle None (Some (i, a, Waits)) v
  end.

(** What the word that was loaded decides. *)
Definition observed (k w : bool) (m : Z) : phase :=
  if m =? 0 then if k then Announced else if w then Retrying else Waits else Waits.

Lemma observed_queued k w m : queued (observed k w m) = true.
Proof. unfold observed. by destruct (m =? 0), k, w. Qed.

Lemma observed_retrying w m : observed false w m = Retrying → lock_word false w m = lock_word false true 0.
Proof. unfold observed. destruct (Z.eqb_spec m 0) as [-> |]; [| done]. by destruct w. Qed.

Lemma observed_calm k w m i a : calm (Some (i, a, observed k w m)) = Some (i, a, Pushed).
Proof. unfold observed. by destruct (m =? 0), k, w. Qed.

Lemma observed_ok k0 w0 m0 (b : bucket) k w m inq ns :
  state b = lock_word k0 w0 m0 → in_word 30 m0 → state b = lock_word k w m → in_word 30 m →
  phase_ok k w m inq ns Announced → phase_ok k w m inq ns (observed k0 w0 m0).
Proof.
  intros Hb Hm0 Hb' Hm Ho. rewrite Hb in Hb'. apply lock_word_inj in Hb' as (-> & -> & ->); [| done..].
  unfold observed. cbn in Ho. destruct (Z.eqb_spec m 0), k; [done | destruct w | |]; cbn; auto.
  intros Hi Hn. by specialize (Ho Hi Hn).
Qed.

Lemma wp_announce {R} t (k : Z → prog bucket R) i a v Q :
  (∀ s, wp inv t (k s) (idle None (Some (i, a, Announced)) v) Q) →
  wp inv t (bind (fetch_modify state set_state (λ s, Z.lor s WAITING)) k)
    (idle None (Some (i, a, Pushed)) v) Q.
Proof.
  intros Hk. apply wp_act. intros b ls Hl HI. cbn [fst snd].
  exists (idle None (Some (i, a, Announced)) v). split; [by apply inv_announce | apply Hk].
Qed.

Lemma wp_observe {R} t (k : Z → prog bucket R) i a v Q :
  (∀ kf w m, in_word 30 m →
    wp inv t (k (lock_word kf w m)) (idle None (Some (i, a, observed kf w m)) v) Q) →
  wp inv t (bind (load state) k) (idle None (Some (i, a, Announced)) v) Q.
Proof.
  intros Hk. apply wp_act. intros b ls Hl HI. cbn [fst snd].
  destruct (inv_state _ _ HI) as (kf & w & m & Hst & Hm). rewrite Hst.
  exists (idle None (Some (i, a, observed kf w m)) v). split; [| by apply Hk].
  apply inv_observe; [done | done | | apply observed_queued |
    unfold observed; by destruct (m =? 0), kf, w].
  intros k1 w1 m1 inq Hst1 Hm1. by apply (observed_ok kf w m b).
Qed.

(** The failed exchange leaves a thread that has to wait. *)
Lemma wp_fail {R} t (k : Z + Z → prog bucket R) i a v w m cur new Q :
  (∀ b ls, ls !! t = Some (idle None (Some (i, a, observed false w m)) v) → inv b ls → state b = cur →
    ∃ l', inv (set_state new b) (<[t := l']> ls) ∧ wp inv t (k (inl cur)) l' Q) →
  (observed false w m = Retrying → cur = lock_word false true 0) →
  (∀ s, wp inv t (k (inr s)) (idle None (Some (i, a, Waits)) v) Q) →
  wp inv t (bind (compare_exchange state set_state cur new) k)
    (idle None (Some (i, a, observed false w m)) v) Q.
Proof.
  intros Hok Hcur Hko. apply wp_act. intros b ls Hl HI. case_decide as Hb; cbn [fst snd].
  - by apply Hok.
  - exists (idle None (Some (i, a, Waits)) v). split; [| apply Hko].
    unfold observed in *. destruct (m =? 0); [destruct w |].
    + apply inv_failed; [done | done |]. by rewrite <-Hcur.
    + by rewrite list_insert_id.
    + by rewrite list_insert_id.
Qed.

Lemma locker_retry_spec t i a v :
  wp inv t Locker.retry (idle None (Some (i, a, Pushed)) v) (retry_post true i a v).
Proof.
  unfold Locker.retry. apply wp_announce. intros _. unfold Locker.try_lock.
  apply wp_observe. intros kf w m Hm. rewrite lock_word_unmask, lock_word_killed by (done || apply in_word_0).
  destruct kf; [exists (observed true w m); by rewrite observed_queued |]. rewrite lock_word_lock. apply wp_fail.
  - intros b ls Hl HI Hst. eexists. split; [by eapply inv_acquire |].
    exists Pushed. split; [done |]. by rewrite observed_calm.
  - unfold observed. destruct (Z.eqb_spec m 0) as [-> |]; [| done]. by destruct w.
  - done.
Qed.

Lemma reader_retry_spec t i a v :
  wp inv t Reader.retry (idle None (Some (i, a, Pushed)) v) (retry_post false i a v).
Proof.
  unfold Reader.retry. apply wp_announce. intros _. unfold Reader.try_lock.
  apply wp_observe. intros kf w m Hm. rewrite lock_word_mask, lock_word_killed by done.
  destruct (Z.leb_spec SLOCK_MAX m) as [Hge |Hlt].
  { cbn. unfold observed. destruct (Z.eqb_spec m 0) as [-> |]; [by vm_compute in Hge | done]. }
  destruct kf; [exists (observed true w m); by rewrite observed_queued |].
  assert (Hm1 : in_word 30 (m + 1)).
  { pose proof SLOCK_MAX_lt. pose proof in_word_LOCK. unfold in_word in *. lia. }
  rewrite lock_word_shift by done. apply wp_fail.
  - intros b ls Hl HI Hst. eexists. split; [by eapply inv_share |].
    exists Pushed. split; [done |]. by rewrite observed_calm.
  - apply observed_retrying.
  - done.
Qed.

(** ** The steps on the queue *)

Lemma linked_update es i e e' l :
  es !! i = Some e →
  (i ∈ l.*1 → next e' = next e ∧ ∀ a, pending e a → pending e' a) →
  linked es l → linked (<[i := e']> es) l.
Proof.
  intros He Hi. destruct (decide (i ∈ l.*1)) as [Hin | Hout]; [| by apply linked_insert].
  destruct (Hi Hin). by eapply linked_insert_same.
Qed.

(** A thread changes the entry that it waits with. *)
Lemma queue_update Q q ls t l l' i a ph e e' :
  ls !! t = Some l → fwd l' = fwd l → bwd l' = bwd l →
  mine l = Some (i, a, ph) → entries q !! i = Some e →
  (listed Q ls i → next e' = next e ∧ ∀ a, pending e a → pending e' a) →
  match mine l' with
  | Some (i', a', ph') => i' = i ∧ mine_ok (listed Q ls i) e' a' ph'
  | None => True
  end →
  queue_inv Q q ls → queue_inv Q (set_entries (<[i := e']> (entries q)) q) (<[t := l']> ls).
Proof.
  intros Hl Hf Hb Hm He Hsame Hm' [H1 H2 H3 Hown Hdisj Hmine Hinj].
  assert (Hit : items l' = items l) by (unfold items; by rewrite Hf, Hb).
  assert (Hli : ∀ j, listed Q ls j ↔ listed Q (<[t := l']> ls) j).
  { intros j. rewrite (listed_insert Q ls t l l' j Hl), (listed_cases Q ls t l j Hl), Hit. done. }
  assert (Hown' : ∀ u x, ls !! u = Some x → linked (<[i := e']> (entries q)) (fwd x) ∧
      linked (<[i := e']> (entries q)) (bwd x) ∧ NoDup (items x) ∧ ∀ j, j ∈ items x → j ∉ Q.*1).
  { intros u x Hx. destruct (Hown u x Hx) as (? & ? & ? & ?).
    split_and!; try done; (eapply linked_update; [done | | done]); intros Hin; apply Hsame; right;
      exists u, x; (split; [done |]); unfold items; rewrite fmap_app; apply elem_of_app; auto. }
  constructor; cbn [wait_queue entries set_entries]; try done.
  - eapply linked_update; [done | | done]. intros Hin. apply Hsame. by left.
  - intros u x Hx. destruct (insert_cases _ _ _ _ _ _ Hl Hx) as [[-> ->] | [_ Hx']]; [| by apply (Hown' u)].
    rewrite Hf, Hb, Hit. by apply (Hown' t).
  - intros u u' x x' j Hx Hx' Hne.
    destruct (insert_cases _ _ _ _ _ _ Hl Hx) as [[-> ->] | [? Hx1]],
      (insert_cases _ _ _ _ _ _ Hl Hx') as [[-> ->] | [? Hx1']]; rewrite ?Hit; try done;
      by eapply Hdisj.
  - intros u x j a' ph' Hx Hj. destruct (insert_cases _ _ _ _ _ _ Hl Hx) as [[-> ->] | [Hu Hx']].
    + rewrite Hj in Hm'. destruct Hm' as [-> Hok]. exists e'.
      rewrite list_lookup_insert_eq by (by eapply lookup_lt_Some). split; [done |].
      by eapply mine_ok_iff; [apply Hli |].
    + destruct (Hmine u x j a' ph' Hx' Hj) as (e0 & He0 & Hok). exists e0.
      assert (j ≠ i) by (intros ->; by eapply (Hinj u t)).
      rewrite list_lookup_insert_ne by done. split; [done |]. by eapply mine_ok_iff; [apply Hli |].
  - intros u u' x x' j a1 a2 ph1 ph2 Hx Hx' Hne Hi Hi'.
    destruct (insert_cases _ _ _ _ _ _ Hl Hx) as [[-> ->] | [? Hx1]],
      (insert_cases _ _ _ _ _ _ Hl Hx') as [[-> ->] | [? Hx1']]; [done | | |].
    + rewrite Hi in Hm'. destruct Hm' as [-> _]. by eapply (Hinj t u').
    + rewrite Hi' in Hm'. destruct Hm' as [-> _]. by eapply (Hinj u t).
    + by eapply (Hinj u u').
Qed.

(** The own entry, and what is known of it. *)
Lemma inv_own b ls t l i a ph :
  ls !! t = Some l → mine l = Some (i, a, ph) → inv b ls →
  ∃ e lst, entries (queue b) !! i = Some e ∧ lookup_entry i a b = Some e ∧ mine_ok lst e a ph.
Proof.
  intros Hl Hm (k & w & m & Q & _ & _ & HQ & _). destruct (qi_mine _ _ _ HQ t l i a ph Hl Hm) as (e & He & Hok).
  exists e, (listed Q ls i). split; [done |]. split; [| done].
  destruct Hok as (Hlive & Ha & _). unfold lookup_entry. cbn. rewrite He. cbn.
  by rewrite Hlive, Ha, eqb_reflx.
Qed.

Lemma inv_update b ls t h mi mi' x v i a ph e e' :
  ls !! t = Some (Ghost h false [] [] mi x v) → mi = Some (i, a, ph) → inv b ls →
  entries (queue b) !! i = Some e →
  (∀ lst, mine_ok lst e a ph →
    (lst → next e' = next e ∧ ∀ a, pending e a → pending e' a) ∧
    match mi' with
    | Some (i', a', ph') => i' = i ∧ mine_ok lst e' a' ph' ∧
        (∀ k w m inq ns, phase_ok k w m inq ns ph → phase_ok k w m inq ns ph')
    | None => True
    end) →
  inv (update_entry i e' b) (<[t := Ghost h false [] [] mi' x v]> ls).
Proof.
  intros Hl -> (k & w & m & Q & Hst & HL & HQ & HP) He Hok.
  destruct (qi_mine _ _ _ HQ t _ i a ph Hl eq_refl) as (e0 & He0 & Hok0).
  assert (e0 = e) as -> by (cbn in He; congruence). destruct (Hok _ Hok0) as [Hsame Hm'].
  exists k, w, m, Q. split_and!; [done | by eapply lock_frame | |].
  - eapply queue_update; [done | done | done | done | done | done | | done].
    cbn. destruct mi' as [[[i' a'] ph'] |]; tauto.
  - eapply phase_insert; [done | done | done | |].
    + intros _ Hns. split; [by eapply no_sig_insert |]. intros ->. auto.
    + intros i' a' ph' Hi. cbn in Hi. subst mi'. destruct Hm' as (-> & _ & Hq).
      apply Hq. eapply phase_ok_stable; [exact id | | by eapply (HP t _ i a ph Hl)].
      intros _ Hns. split; [by eapply no_sig_insert |]. intros ->. auto.
Qed.

Lemma wp_read {R} t i a (k : wait_entry → prog bucket R) l Q :
  (∀ b ls, ls !! t = Some l → inv b ls → ∃ e, lookup_entry i a b = Some e ∧ wp inv t (k e) l Q) →
  wp inv t (bind (read_entry i a) k) l Q.
Proof.
  intros Hk. apply wp_act. intros b ls Hl HI. destruct (Hk b ls Hl HI) as (e & He & Hw).
  exists l. rewrite list_insert_id by done. cbn [fst snd]. by rewrite He.
Qed.

Lemma wp_modify {R} t i a f (k : wait_entry → prog bucket R) l Q :
  (∀ b ls, ls !! t = Some l → inv b ls →
    ∃ e l', lookup_entry i a b = Some e ∧ inv (update_entry i (f e) b) (<[t := l']> ls) ∧
      wp inv t (k e) l' Q) →
  wp inv t (bind (modify_entry i a f) k) l Q.
Proof.
  intros Hk. apply wp_act. intros b ls Hl HI. destruct (Hk b ls Hl HI) as (e & l' & He & HI' & Hw).
  exists l'. rewrite He. cbn [fst snd]. done.
Qed.

Lemma listed_exists Q q ls i : queue_inv Q q ls → listed Q ls i → ∃ e a, entries q !! i = Some e ∧ pending e a.
Proof.
  intros HQ [Hi | (u & x & Hx & Hi)].
  - destruct (linked_lookup _ _ _ Hi (qi_linked _ _ _ HQ)) as (e & a & ? & ? & _). eauto.
  - destruct (qi_own _ _ _ HQ u x Hx) as (Hf & Hb & _).
    unfold items in Hi. rewrite fmap_app in Hi. apply elem_of_app in Hi as [Hi | Hi].
    + destruct (linked_lookup _ _ _ Hi Hf) as (e & a & ? & ? & _). eauto.
    + destruct (linked_lookup _ _ _ Hi Hb) as (e & a & ? & ? & _). eauto.
Qed.

Lemma queue_new Q q ls t l l' a w ph :
  ls !! t = Some l → fwd l' = fwd l → bwd l' = bwd l → mine l = None →
  mine l' = Some (length (entries q), a, ph) → ph = (if a then Fresh w else Private w) →
  queue_inv Q q ls →
  queue_inv Q (set_entries (entries q ++ [Entry w a false false false false true]) q) (<[t := l']> ls).
Proof.
  intros Hl Hf Hb Hm Hm' Hph HQ. pose proof HQ as [H1 H2 H3 Hown Hdisj Hmine Hinj].
  assert (Hit : items l' = items l) by (unfold items; by rewrite Hf, Hb).
  assert (Hli : ∀ j, listed Q ls j ↔ listed Q (<[t := l']> ls) j).
  { intros j. rewrite (listed_insert Q ls t l l' j Hl), (listed_cases Q ls t l j Hl), Hit. done. }
  assert (Hfresh : ¬ listed Q ls (length (entries q))).
  { intros Hin. destruct (listed_exists _ _ _ _ HQ Hin) as (e & a' & He & _).
    apply lookup_lt_Some in He. lia. }
  assert (Hnew : ∀ u x a' ph', ls !! u = Some x → mine x = Some (length (entries q), a', ph') → False).
  { intros u x a' ph' Hx Hi. destruct (Hmine _ _ _ _ _ Hx Hi) as (e & He & _). apply lookup_lt_Some in He. lia. }
  constructor; cbn [wait_queue entries set_entries]; try done.
  - by apply linked_snoc.
  - intros u x Hx. destruct (insert_cases _ _ _ _ _ _ Hl Hx) as [[-> ->] | [_ Hx']].
    + rewrite Hf, Hb, Hit. destruct (Hown t l Hl) as (? & ? & ? & ?). split_and!; try done; by apply linked_snoc.
    + destruct (Hown u x Hx') as (? & ? & ? & ?). split_and!; try done; by apply linked_snoc.
  - intros u u' x x' j Hx Hx' Hne.
    destruct (insert_cases _ _ _ _ _ _ Hl Hx) as [[-> ->] | [? Hx1]],
      (insert_cases _ _ _ _ _ _ Hl Hx') as [[-> ->] | [? Hx1']]; rewrite ?Hit; try done;
      by eapply Hdisj.
  - intros u x j a' ph' Hx Hj. destruct (insert_cases _ _ _ _ _ _ Hl Hx) as [[-> ->] | [Hu Hx']].
    + rewrite Hm' in Hj. injection Hj as <- <- <-. eexists. rewrite list_lookup_middle by done. split; [done |].
      eapply mine_ok_iff; [apply Hli |]. rewrite Hph. destruct a; by split_and!.
    + destruct (Hmine u x j a' ph' Hx' Hj) as (e & He & Hok). exists e.
      rewrite lookup_app_l by (by eapply lookup_lt_Some). split; [done |].
      by eapply mine_ok_iff; [apply Hli |].
  - intros u u' x x' j a1 a2 ph1 ph2 Hx Hx' Hne Hi Hi'.
    destruct (insert_cases _ _ _ _ _ _ Hl Hx) as [[-> ->] | [? Hx1]],
      (insert_cases _ _ _ _ _ _ Hl Hx') as [[-> ->] | [? Hx1']]; [done | | |].
    + rewrite Hm' in Hi. injection Hi as <- <- <-. by eapply Hnew.
    + rewrite Hm' in Hi'. injection Hi' as <- <- <-. by eapply Hnew.
    + by eapply (Hinj u u').
Qed.

(** The detached entries belong to the thread that has detached them. *)
Definition leave (mi : option (nat * bool * phase)) : option (nat * bool * phase) :=
  match mi with Some (i, a, ph) => Some (i, a, if queued ph then Out else ph) | None => None end.

Lemma leave_sim h g f b mi x v h' g' f' b' x' v' :
  mine_sim (Ghost h g f b mi x v) (Ghost h' g' f' b' (leave mi) x' v').
Proof.
  unfold mine_sim. cbn. destruct mi as [[[i a] ph] |]; [cbn | done].
  split_and!; [done | done |]. destruct ph; cbn; auto.
Qed.

Lemma queue_swap Q q ls t h g mi mi' x v g' :
  ls !! t = Some (Ghost h g [] [] mi x v) → 
  (∀ f b, mine_sim (Ghost h g f b mi x v) (Ghost h g' f b mi' x v)) →
  queue_inv Q q ls →
  queue_inv [] (set_head None q) (<[t := Ghost h g' Q [] mi' x v]> ls).
Proof.
  intros Hl Hsim HQ.
  apply (queue_frame _ _ _ _ _ (Ghost h g' [] [] mi' x v) Hl) in HQ as [H1 H2 H3 Hown Hdisj Hmine Hinj];
    [| done | done | apply Hsim].
  rewrite <-(list_insert_insert_eq ls t (Ghost h g' Q [] mi' x v) (Ghost h g' [] [] mi' x v)).
  apply (insert_self _ _ _ (Ghost h g' [] [] mi' x v)) in Hl.
  set (ls1 := <[t := Ghost h g' [] [] mi' x v]> ls) in *. clearbody ls1. clear ls Hsim. rename ls1 into ls.
  assert (Hit : items (Ghost h g' Q [] mi' x v) = Q.*1) by (unfold items; cbn; by rewrite app_nil_r).
  assert (Hli : ∀ j, listed Q ls j ↔ listed [] (<[t := Ghost h g' Q [] mi' x v]> ls) j).
  { intros j. rewrite (listed_insert _ _ _ _ _ j Hl), (listed_cases Q ls t _ j Hl), Hit.
    unfold items at 1. cbn. rewrite elem_of_nil. tauto. }
  constructor; cbn [wait_queue entries set_head]; try done.
  - constructor.
  - intros u y Hy. destruct (insert_cases _ _ _ _ _ _ Hl Hy) as [[-> ->] | [_ Hy']].
    + rewrite Hit. split_and!; try done. intros j _. apply not_elem_of_nil.
    + destruct (Hown u y Hy') as (? & ? & ? & _). split_and!; try done. intros j _. apply not_elem_of_nil.
  - intros u u' y y' j Hy Hy' Hne.
    destruct (insert_cases _ _ _ _ _ _ Hl Hy) as [[-> ->] | [? Hy1]],
      (insert_cases _ _ _ _ _ _ Hl Hy') as [[-> ->] | [? Hy1']]; rewrite ?Hit; [done | | |].
    + intros Hj Hj'. by apply (proj2 (proj2 (proj2 (Hown u' y' Hy1'))) j).
    + by apply (Hown u y Hy1).
    + by eapply Hdisj.
  - intros u y j a ph Hy Hj.
    assert (∃ y0, ls !! u = Some y0 ∧ mine y0 = Some (j, a, ph)) as (y0 & Hy0 & Hj0).
    { destruct (insert_cases _ _ _ _ _ _ Hl Hy) as [[-> ->] | [_ Hy']]; eauto. }
    destruct (Hmine u y0 j a ph Hy0 Hj0) as (e & He & Hok). exists e. split; [done |].
    by eapply mine_ok_iff; [apply Hli |].
  - intros u u' y y' j a1 a2 ph1 ph2 Hy Hy' Hne Hi Hi'.
    destruct (insert_cases _ _ _ _ _ _ Hl Hy) as [[-> ->] | [? Hy1]],
      (insert_cases _ _ _ _ _ _ Hl Hy') as [[-> ->] | [? Hy1']]; [done | | |].
    + by eapply (Hinj t u').
    + by eapply (Hinj u t).
    + by eapply (Hinj u u').
Qed.

Lemma inv_swap b ls t h g mi x v :
  ls !! t = Some (Ghost h g [] [] mi x v) → inv b ls →
  ∃ Q, get_head b = head Q ∧
    inv (put_head None b) (<[t := Ghost h false Q [] (leave mi) x v]> ls).
Proof.
  intros Hl (k & w & m & Q & Hst & HL & HQ & HP). exists Q. split; [apply HQ |].
  exists k, w, m, []. split_and!; [done | by eapply lock_frame | |].
  - eapply queue_swap; [done | | done]. intros. apply leave_sim.
  - eapply phase_insert; [done | done | | |].
    + intros u y i a ph _ _ _ Hin. by apply elem_of_nil in Hin.
    + done.
    + intros i a ph Hi. cbn in Hi. destruct mi as [[[i0 a0] ph0] |]; [| done]. cbn in Hi.
      injection Hi as <- <- <-. destruct ph0; cbn; auto; apply not_elem_of_nil.
Qed.

(** One entry of the own list is turned around. *)
Lemma queue_flip Q q ls t h g mi x v i a r p e :
  ls !! t = Some (Ghost h g ((i, a) :: r) p mi x v) → entries q !! i = Some e →
  queue_inv Q q ls →
  queue_inv Q (set_entries (<[i := set_next (head p) e]> (entries q)) q)
    (<[t := Ghost h g r ((i, a) :: p) mi x v]> ls).
Proof.
  intros Hl He [H1 H2 H3 Hown Hdisj Hmine Hinj].
  destruct (Hown t _ Hl) as (Hf & Hb & Hnd & Hout). cbn [fwd bwd] in Hf, Hb.
  set (l := Ghost h g ((i, a) :: r) p mi x v) in *. set (l' := Ghost h g r ((i, a) :: p) mi x v).
  assert (Hperm : items l' ≡ₚ items l).
  { unfold items, l, l'. cbn [fwd bwd]. rewrite !fmap_app, !fmap_cons. symmetry. apply Permutation_middle. }
  assert (Hin : ∀ j, j ∈ items l' ↔ j ∈ items l) by (intros j; by rewrite Hperm).
  assert (Hii : i ∈ items l) by left.
  assert (Hli : ∀ j, listed Q ls j ↔ listed Q (<[t := l']> ls) j).
  { intros j. rewrite (listed_insert Q ls t l l' j Hl), (listed_cases Q ls t l j Hl), Hin. done. }
  destruct (linked_flip _ i a r p e Hnd He Hf Hb) as [Hf' Hb'].
  constructor; cbn [wait_queue entries set_entries]; try done.
  - apply linked_insert; [by apply Hout | done].
  - intros u y Hy. destruct (insert_cases _ _ _ _ _ _ Hl Hy) as [[-> ->] | [Hu Hy']].
    + split_and!; [done | done | by rewrite Hperm |]. intros j Hj%Hin. by apply Hout.
    + destruct (Hown u y Hy') as (Hfy & Hby & Hndy & Houty).
      assert (Hni : i ∉ items y) by (by eapply (Hdisj t u)).
      unfold items in Hni. rewrite fmap_app, not_elem_of_app in Hni. destruct Hni.
      split_and!; [by apply linked_insert | by apply linked_insert | done | done].
  - intros u u' y y' j Hy Hy' Hne.
    destruct (insert_cases _ _ _ _ _ _ Hl Hy) as [[-> ->] | [? Hy1]],
      (insert_cases _ _ _ _ _ _ Hl Hy') as [[-> ->] | [? Hy1']]; rewrite ?Hin; try done; by eapply Hdisj.
  - intros u y j a' ph Hy Hj.
    assert (∃ y0, ls !! u = Some y0 ∧ mine y0 = Some (j, a', ph)) as (y0 & Hy0 & Hj0).
    { destruct (insert_cases _ _ _ _ _ _ Hl Hy) as [[-> ->] | [_ Hy']]; eauto. }
    destruct (Hmine u y0 j a' ph Hy0 Hj0) as (ej & Hej & Hok).
    eapply mine_ok_iff in Hok; [| apply Hli].
    destruct (decide (j = i)) as [-> | Hne]; [| exists ej; by rewrite list_lookup_insert_ne].
    assert (ej = e) as -> by congruence.
    exists (set_next (head p) e). rewrite list_lookup_insert_eq by (by eapply lookup_lt_Some). split; [done |].
    assert (Hli' : listed Q (<[t := l']> ls) i) by (apply Hli; right; eauto).
    destruct Hok as (? & ? & Hok). split; [done |]. split; [done |]. destruct ph; cbn; tauto.
  - intros u u' y y' j a1 a2 ph1 ph2 Hy Hy' Hne Hi Hi'.
    destruct (insert_cases _ _ _ _ _ _ Hl Hy) as [[-> ->] | [? Hy1]],
      (insert_cases _ _ _ _ _ _ Hl Hy') as [[-> ->] | [? Hy1']]; [done | | |].
    + by eapply (Hinj t u').
    + by eapply (Hinj u t).
    + by eapply (Hinj u u').
Qed.

(** An entry of the own list is woken up: its owner may go on. *)
Lemma queue_wake Q q ls t h g mi x v i a r e :
  ls !! t = Some (Ghost h g [] ((i, a) :: r) mi x v) → entries q !! i = Some e →
  queue_inv Q q ls →
  queue_inv Q (log_wake i (set_entries (<[i := wake e]> (entries q)) q))
    (<[t := Ghost h g [] r mi x v]> ls).
Proof.
  intros Hl He [H1 H2 H3 Hown Hdisj Hmine Hinj].
  destruct (Hown t _ Hl) as (_ & Hb & Hnd & Hout). cbn [fwd bwd] in Hb.
  set (l := Ghost h g [] ((i, a) :: r) mi x v) in *. set (l' := Ghost h g [] r mi x v).
  assert (Hit : items l = i :: items l') by done. rewrite Hit in Hnd, Hout.
  apply NoDup_cons in Hnd as [Hir Hnd]. destruct Hb as [_ Hb].
  assert (Hii : i ∈ items l) by left.
  assert (Hni : ∀ u y, u ≠ t → ls !! u = Some y → i ∉ items y).
  { intros u y Hu Hy. by eapply (Hdisj t u). }
  assert (Hli : ∀ j, j ≠ i → listed Q ls j ↔ listed Q (<[t := l']> ls) j).
  { intros j Hj. rewrite (listed_insert Q ls t l l' j Hl), (listed_cases Q ls t l j Hl), Hit, elem_of_cons. tauto. }
  assert (Hgone : ¬ listed Q (<[t := l']> ls) i).
  { rewrite (listed_insert Q ls t l l' i Hl). intros [Hq | [Hq | (u & y & Hu & Hy & Hq)]].
    - apply (Hout i); [left | done].
    - done.
    - by apply (Hni u y). }
  constructor; cbn [wait_queue entries set_entries log_wake]; try done.
  - apply linked_insert; [apply Hout; left | done].
  - intros u y Hy. destruct (insert_cases _ _ _ _ _ _ Hl Hy) as [[-> ->] | [Hu Hy']].
    + split_and!; [done | by apply linked_insert | done |]. intros j Hj. apply Hout. by right.
    + destruct (Hown u y Hy') as (Hfy & Hby & Hndy & Houty).
      pose proof (Hni u y Hu Hy') as Hniy. unfold items in Hniy. rewrite fmap_app, not_elem_of_app in Hniy. destruct Hniy.
      split_and!; [by apply linked_insert | by apply linked_insert | done | done].
  - intros u u' y y' j Hy Hy' Hne.
    destruct (insert_cases _ _ _ _ _ _ Hl Hy) as [[-> ->] | [? Hy1]],
      (insert_cases _ _ _ _ _ _ Hl Hy') as [[-> ->] | [? Hy1']]; [done | | | by eapply Hdisj].
    + intros Hj. eapply (Hdisj t u'); try done. rewrite Hit. by right.
    + intros Hj Hj'. eapply (Hdisj u t); try done. rewrite Hit. by right.
  - intros u y j a' ph Hy Hj.
    assert (∃ y0, ls !! u = Some y0 ∧ mine y0 = Some (j, a', ph)) as (y0 & Hy0 & Hj0).
    { destruct (insert_cases _ _ _ _ _ _ Hl Hy) as [[-> ->] | [_ Hy']]; eauto. }
    destruct (Hmine u y0 j a' ph Hy0 Hj0) as (ej & Hej & Hok).
    destruct (decide (j = i)) as [-> | Hne].
    + assert (ej = e) as -> by congruence.
      exists (wake e). rewrite list_lookup_insert_eq by (by eapply lookup_lt_Some). split; [done |].
      assert (Hli' : listed Q ls i) by (right; eauto).
      destruct Hok as (? & ? & Hok). split; [done |]. split; [done |].
      destruct ph; cbn in *; try tauto;
        (split; [split; [tauto | done] |]); (split; [done |]); try tauto.
      split; [tauto |]. destruct Hok as (_ & _ & _ & Hr). by destruct (waker e), (woken e).
    + exists ej. rewrite list_lookup_insert_ne by done. split; [done |].
      by eapply mine_ok_iff; [apply Hli |].
  - intros u u' y y' j a1 a2 ph1 ph2 Hy Hy' Hne Hi Hi'.
    destruct (insert_cases _ _ _ _ _ _ Hl Hy) as [[-> ->] | [? Hy1]],
      (insert_cases _ _ _ _ _ _ Hl Hy') as [[-> ->] | [? Hy1']]; [done | | |].
    + by eapply (Hinj t u').
    + by eapply (Hinj u t).
    + by eapply (Hinj u u').
Qed.

(** The own entry becomes the head of the queue. *)
Lemma queue_push Q q ls t h g x v i a w :
  ls !! t = Some (Ghost h g [] [] (Some (i, a, Private w)) x v) → wait_queue q = w →
  queue_inv Q q ls →
  queue_inv ((i, a) :: Q) (set_head (Some (i, a)) q)
    (<[t := Ghost h g [] [] (Some (i, a, Pushed)) x v]> ls).
Proof.
  intros Hl Hw [H1 H2 H3 Hown Hdisj Hmine Hinj].
  set (l := Ghost h g [] [] (Some (i, a, Private w)) x v) in *.
  set (l' := Ghost h g [] [] (Some (i, a, Pushed)) x v).
  destruct (Hmine t l i a _ Hl eq_refl) as (e & He & Hlive & Ha & Hnl & Hd & Hn & Hmx & Hwk).
  assert (Hiq : i ∉ Q.*1) by (intros ?; apply Hnl; by left).
  assert (Hli : ∀ j, listed ((i, a) :: Q) (<[t := l']> ls) j ↔ j = i ∨ listed Q ls j).
  { intros j. rewrite (listed_insert _ ls t l l' j Hl), (listed_cases Q ls t l j Hl), fmap_cons, elem_of_cons.
    cbn [fst]. unfold items at 1 3. cbn. tauto. }
  assert (Hother : ∀ u y j a' ph, u ≠ t → ls !! u = Some y → mine y = Some (j, a', ph) → j ≠ i).
  { intros u y j a' ph Hu Hy Hj ->. by eapply (Hinj u t). }
  constructor; cbn [wait_queue entries set_head]; try done.
  - split; [| done]. exists e. split; [done |]. split; [| congruence].
    unfold pending. repeat split; congruence.
  - rewrite fmap_cons. by constructor.
  - intros u y Hy. destruct (insert_cases _ _ _ _ _ _ Hl Hy) as [[-> ->] | [Hu Hy']].
    + split_and!; try done; [constructor |]. intros j Hj. by apply elem_of_nil in Hj.
    + destruct (Hown u y Hy') as (? & ? & ? & Houty). split_and!; try done.
      intros j Hj. rewrite fmap_cons. apply not_elem_of_cons. split; [| by apply Houty].
      intros ->. apply Hnl. right. eauto.
  - intros u u' y y' j Hy Hy' Hne.
    destruct (insert_cases _ _ _ _ _ _ Hl Hy) as [[-> ->] | [? Hy1]],
      (insert_cases _ _ _ _ _ _ Hl Hy') as [[-> ->] | [? Hy1']]; [done | | | by eapply Hdisj].
    + intros Hj. by apply elem_of_nil in Hj.
    + intros _. apply not_elem_of_nil.
  - intros u y j a' ph Hy Hj. destruct (insert_cases _ _ _ _ _ _ Hl Hy) as [[-> ->] | [Hu Hy']].
    + injection Hj as <- <- <-. exists e. split; [done |]. split; [done |]. split; [done |].
      split; [| split; [by rewrite Hd | done]]. split; [done |]. intros _. apply Hli. by left.
    + destruct (Hmine u y j a' ph Hy' Hj) as (ej & Hej & Hok). exists ej. split; [done |].
      eapply mine_ok_iff; [| exact Hok]. rewrite Hli. pose proof (Hother u y j a' ph Hu Hy' Hj). tauto.
  - intros u u' y y' j a1 a2 ph1 ph2 Hy Hy' Hne Hi Hi'.
    destruct (insert_cases _ _ _ _ _ _ Hl Hy) as [[-> ->] | [? Hy1]],
      (insert_cases _ _ _ _ _ _ Hl Hy') as [[-> ->] | [? Hy1']]; [done | | |].
    + injection Hi as <- <- <-. by eapply (Hother u' y').
    + injection Hi' as <- <- <-. by eapply (Hother u y).
    + by eapply (Hinj u u').
Qed.

Lemma phase_same k w m Q ls t l l' :
  ls !! t = Some l → sig l' = sig l → mine l' = mine l →
  phase_inv k w m Q ls → phase_inv k w m Q (<[t := l']> ls).
Proof.
  intros Hl Hs Hm HP.
  assert (Hns : no_sig (<[t := l']> ls) → no_sig ls).
  { intros Hn u x Hx. destruct (decide (u = t)) as [-> | Hu].
    - assert (x = l) as -> by congruence. rewrite <-Hs. by eapply no_sig_self.
    - apply (Hn u). by apply insert_other. }
  eapply phase_insert; [done | done | done | |].
  - intros _ Hn. split; [auto |]. intros ->. auto.
  - intros i a ph Hi. rewrite Hm in Hi. eapply phase_ok_stable; [exact id | | by eapply (HP t l i a ph)].
    intros _ Hn. split; [auto |]. intros ->. auto.
Qed.

(** An entry of the own lists can be read. *)
Lemma inv_listed b ls t l i :
  ls !! t = Some l → inv b ls → i ∈ items l → ∃ e a, entries (wait b) !! i = Some e ∧ pending e a.
Proof.
  intros Hl (k & w & m & Q & _ & _ & HQ & _) Hi. eapply listed_exists; [done |]. right. eauto.
Qed.

Lemma lookup_pending (b : bucket) i a e :
  entries (wait b) !! i = Some e → pending e a → lookup_entry i a b = Some e.
Proof.
  intros Hi (Hl & Ha & _). unfold lookup_entry. cbn [queue bucket_queue]. rewrite Hi. cbn.
  by rewrite Hl, Ha, eqb_reflx.
Qed.

Lemma inv_flip b ls t h mi x v i a r p :
  ls !! t = Some (Ghost h false ((i, a) :: r) p mi x v) → inv b ls →
  ∃ e, lookup_entry i a b = Some e ∧ next e = head r ∧
    inv (update_entry i (set_next (head p) e) b) (<[t := Ghost h false r ((i, a) :: p) mi x v]> ls).
Proof.
  intros Hl HI. destruct HI as (k & w & m & Q & Hst & HL & HQ & HP).
  destruct (qi_own _ _ _ HQ t _ Hl) as ([(e & He & Hp & Hn) _] & _). exists e.
  split; [by apply lookup_pending |]. split; [done |].
  exists k, w, m, Q. split_and!; [done | by eapply lock_frame | by eapply queue_flip | by eapply phase_same].
Qed.

Lemma inv_bwd b ls t h mi x v i a r :
  ls !! t = Some (Ghost h false [] ((i, a) :: r) mi x v) → inv b ls →
  ∃ e, lookup_entry i a b = Some e ∧ next e = head r ∧ (a = true → mutex e = true) ∧
    inv (let b' := update_entry i (wake e) b in set_queue (log_wake i (queue b')) b')
      (<[t := Ghost h false [] r mi x v]> ls).
Proof.
  intros Hl HI. destruct HI as (k & w & m & Q & Hst & HL & HQ & HP).
  destruct (qi_own _ _ _ HQ t _ Hl) as (_ & [(e & He & Hp & Hn) _] & _). exists e.
  split; [by apply lookup_pending |]. split; [done |]. split; [apply Hp |].
  exists k, w, m, Q. split_and!; [done | by eapply lock_frame | by eapply queue_wake | by eapply phase_same].
Qed.

Lemma inv_push b ls t i a w x v :
  ls !! t = Some (Ghost None false [] [] (Some (i, a, Private w)) x v) → inv b ls → get_head b = w →
  inv (put_head (Some (i, a)) b) (<[t := Ghost None false [] [] (Some (i, a, Pushed)) x v]> ls).
Proof.
  intros Hl (k & wf & m & Q & Hst & HL & HQ & HP) Hw.
  exists k, wf, m, ((i, a) :: Q). split_and!; [done | by eapply lock_frame | by eapply queue_push |].
  eapply phase_insert; [done | done | | |].
  - intros u y j a' ph Hu Hy Hj. rewrite fmap_cons, elem_of_cons. intros [-> | Hin]; [| done].
    exfalso. by eapply (qi_inj _ _ _ HQ u t).
  - intros _ Hns. split; [by eapply no_sig_insert |]. intros ->. auto.
  - intros j a' ph [= <- <- <-]. exact I.
Qed.

(** ** The wait queue *)

Lemma signal_spec t n h g mi v :
  wp inv t (signal n) (Ghost h g [] [] mi None v) (λ _ l, l = idle h (leave mi) v).
Proof.
  unfold signal. apply wp_act. intros b ls Hl HI. cbn [fst snd].
  destruct (inv_swap _ _ _ _ _ _ _ _ Hl HI) as (Q & Hq & HI'). rewrite Hq.
  exists (Ghost h false Q [] (leave mi) None v). split; [exact HI' |]. clear.
  eapply wp_call.
  { apply (wp_loop inv t n _ (λ '(current, prev) l, ∃ f p,
      l = Ghost h false f p (leave mi) None v ∧ current = head f ∧ prev = head p)); [by exists Q, [] |].
    intros [current prev] l (f & p & -> & -> & ->). destruct f as [| [i a] f]; cbn [head].
    - instantiate (1 := λ prev l, ∃ p, l = Ghost h false [] p (leave mi) None v ∧ prev = head p). cbn. eauto.
    - apply wp_modify. intros b ls Hl HI.
      destruct (inv_flip _ _ _ _ _ _ _ _ _ _ _ Hl HI) as (e & He & Hn & HI').
      eexists _, _. split; [exact He |]. split; [exact HI' |].
      cbn. exists f, ((i, a) :: p). by rewrite Hn. }
  intros prev l (p & -> & ->).
  apply (wp_loop inv t n _ (λ current l, ∃ p, l = Ghost h false [] p (leave mi) None v ∧ current = head p));
    [eauto |]. clear.
  intros current l (p & -> & ->). destruct p as [| [i a] p]; cbn [head]; [done |].
  apply wp_read. intros b ls Hl HI.
  destruct (inv_bwd _ _ _ _ _ _ _ _ _ _ Hl HI) as (e & He & Hn & _ & _). exists e. split; [done |].
  rewrite Hn. clear b ls Hl HI e He Hn.
  apply wp_call with (Q' := λ _ l, l = Ghost h false [] p (leave mi) None v); [| by intros _ l ->; exists p].
  destruct a; (apply wp_act; intros b ls Hl HI;
    destruct (inv_bwd _ _ _ _ _ _ _ _ _ _ Hl HI) as (e & He & Hn & Hm & HI');
    exists (Ghost h false [] p (leave mi) None v); rewrite He, ?Hm by done; split; [exact HI' | done]).
Qed.

(** Pushing keeps the link of the own entry equal to the head that is expected. *)
Lemma wait_push_spec t n i a w v :
  wp inv t (push n i a w) (idle None (Some (i, a, Private w)) v)
    (λ _ l, l = idle None (Some (i, a, Pushed)) v).
Proof.
  unfold push.
  apply (wp_loop inv t n _ (λ w l, l = idle None (Some (i, a, Private w)) v)); [done |].
  clear w. intros w l ->. apply wp_cas_weak.
  - intros b ls Hl HI Hw. exists (idle None (Some (i, a, Pushed)) v). split; [by eapply inv_push | done].
  - intros b0 ls0 _ _. generalize (get_head b0). intros w'. clear b0 ls0.
    apply wp_modify. intros b ls Hl HI.
    destruct (inv_own _ _ _ _ _ _ _ Hl eq_refl HI) as (e & lst & He & Hlk & _).
    exists e, (idle None (Some (i, a, Private w')) v). split; [done |]. split; [| done].
    eapply inv_update; [done | done | done | exact He |].
    intros lst' (? & ? & Hnl & ? & ? & ? & ?). split; [by intros |]. split; [done |]. split; [| done].
    by split_and!.
Qed.

(** ** Waiting *)

Lemma update_same (b : bucket) i e : entries (queue b) !! i = Some e → update_entry i e b = b.
Proof.
  destruct b as [st q c]. cbn. intros He. unfold update_entry. cbn. unfold set_wait. cbn.
  rewrite list_insert_id by done. by destruct q.
Qed.

(** The own entry was signalled. *)
Lemma inv_woken b ls t h i a ph v e :
  ls !! t = Some (idle h (Some (i, a, ph)) v) → queued ph = true → inv b ls →
  entries (queue b) !! i = Some e → done e = true →
  inv b (<[t := idle h (Some (i, a, Woken)) v]> ls).
Proof.
  intros Hl Hq HI He Hd. rewrite <-(update_same b i e He).
  eapply inv_update; [done | done | done | done |].
  intros lst Hok. split; [by intros |]. split; [done |]. split; [| done].
  destruct Hok as (? & ? & Hok). split; [done |]. split; [done |].
  assert (Hok' : (lst ↔ done e = false) ∧ (done e = true → waker e = false) ∧ mutex e = a)
    by (destruct ph; tauto || done).
  destruct Hok' as (Hi & Hw & Hm). split_and!; [rewrite Hi; congruence | done | auto | done].
Qed.

(** Who has to be waited for: the thread that has detached an entry which is not
    signalled yet, ... *)
Lemma busy_lister b (ls : list ghost) i u x : ls !! u = Some x → i ∈ items x → ∃ t' l', ls !! t' = Some l' ∧ busy b l'.
Proof.
  intros Hx Hi. exists u, x. split; [done |]. right. left. intros Hn. rewrite Hn in Hi. by apply elem_of_nil in Hi.
Qed.

Lemma busy_out k w m Q b ls u x j aj ej :
  queue_inv Q (wait b) ls → phase_inv k w m Q ls →
  ls !! u = Some x → mine x = Some (j, aj, Out) → entries (wait b) !! j = Some ej → done ej = false →
  ∃ t' l', ls !! t' = Some l' ∧ busy b l'.
Proof.
  intros HQ HP Hx Hj Hej Hdj.
  destruct (qi_mine _ _ _ HQ u x j aj Out Hx Hj) as (e0 & He0 & _ & _ & Hli & _).
  assert (e0 = ej) as -> by congruence.
  apply Hli in Hdj as [Hq | (u' & x' & Hx' & Hi)]; [| by eapply busy_lister].
  by destruct (HP u x j aj Out Hx Hj).
Qed.

(** ... or the one that holds the lock, unless it has to wait for the former. *)
Lemma busy_holder k w m Q b ls :
  lock_inv m (contents b) ls → queue_inv Q (wait b) ls → phase_inv k w m Q ls → m ≠ 0 →
  ∃ t' l', ls !! t' = Some l' ∧ busy b l'.
Proof.
  intros HL HQ HP Hm.
  assert (∃ u x, ls !! u = Some x ∧ hold x ≠ None) as (u & x & Hx & Hh).
  { destruct (decide (Exists (λ l, hold l ≠ None) ls)) as [Hs' | Hs'].
    - apply Exists_exists in Hs' as (x & [u Hx]%list_elem_of_lookup & Hh). eauto.
    - exfalso. apply Hm.
      assert (Hnone : ∀ l, l ∈ ls → hold l = None).
      { intros l Hin. destruct (hold l) eqn:Hh; [| done]. exfalso. apply Hs', Exists_exists.
        exists l. by rewrite Hh. }
      assert (total shared1 ls = 0%nat) as Hs0.
      { apply sum_list_with_zero. intros l Hin. unfold shared1. by rewrite Hnone. }
      assert (total excl1 ls = 0%nat) as He1.
      { apply sum_list_with_zero. intros l Hin. unfold excl1. by rewrite Hnone. }
      destruct (li_mask _ _ _ HL) as [(_ & ? & _) | (-> & _)]; lia. }
  destruct (mine x) as [[[j aj] phj] |] eqn:Hj; [| exists u, x; split; [done | right; right; by rewrite Hj]].
  destruct (qi_mine _ _ _ HQ u x j aj phj Hx Hj) as (ej & Hej & _).
  destruct phj; try (exists u, x; split; [done | right; right; by rewrite Hj]).
  destruct (done ej) eqn:Hdj; [| by eapply busy_out].
  exists u, x. split; [done | right; right]. rewrite Hj. split; [done |].
  unfold completed. cbn. by rewrite Hej.
Qed.

(** A thread with an unfinished wait is waited for by nobody, and waits for somebody. *)
Lemma inv_parked b ls t h i a ph v e :
  ls !! t = Some (idle h (Some (i, a, ph)) v) → inv b ls →
  ph = Out ∨ ((ph = Waits ∨ ph = Polled) ∧ h = None) →
  entries (queue b) !! i = Some e → done e = false →
  ¬ busy b (idle h (Some (i, a, ph)) v) ∧ ∃ t' l', ls !! t' = Some l' ∧ busy b l'.
Proof.
  intros Hl (k & w & m & Q & Hst & HL & HQ & HP) Hph He Hd. cbn in He. split.
  - intros [[=] | [Hn | [Hh Hm]]]; [done |]. destruct Hph as [-> | [_ ->]]; [| done].
    cbn in Hm. unfold completed in Hm. cbn in Hm. rewrite He in Hm. congruence.
  - destruct Hph as [-> | [Hph ->]]; [by eapply busy_out |].
    destruct (qi_mine _ _ _ HQ t _ i a ph Hl eq_refl) as (e0 & He0 & _ & _ & Hok).
    assert (e0 = e) as -> by congruence.
    assert (Hli : listed Q ls i ↔ done e = false) by (destruct Hph as [-> | ->]; apply Hok).
    apply Hli in Hd as [Hq | (u & x & Hx & Hi)]; [| by eapply busy_lister].
    destruct (decide (Exists (λ l, sig l = true) ls)) as [Hs | Hs].
    { apply Exists_exists in Hs as (x & [u Hx]%list_elem_of_lookup & Hs). exists u, x. split; [done | by left]. }
    assert (Hns : no_sig ls).
    { intros u x Hx. destruct (sig x) eqn:Hsx; [| done]. exfalso. apply Hs, Exists_exists.
      exists x. split; [by eapply list_elem_of_lookup_2 | done]. }
    eapply busy_holder; [done | done | done |].
    pose proof (HP t _ i a ph Hl eq_refl) as Ho. destruct Hph as [-> | ->]; by destruct (Ho Hq Hns).
Qed.

(** Where an entry is deallocated. *)
Lemma wp_free {R} t i a h ph v (k : wait_entry → prog bucket R) Q :
  queued ph = false →
  (∀ e, wp inv t (k e) (idle h None v) Q) →
  wp inv t (bind (modify_entry i a set_dead) k) (idle h (Some (i, a, ph)) v) Q.
Proof.
  intros Hph Hk. apply wp_modify. intros b ls Hl HI.
  destruct (inv_own _ _ _ _ _ _ _ Hl eq_refl HI) as (e & lst & He & Hlk & _).
  exists e, (idle h None v). split; [done |]. split; [| apply Hk].
  eapply inv_update; [done | done | done | exact He |].
  intros lst' (_ & _ & Hok). split; [| done]. intros Hl'.
  by destruct ph, Hok.
Qed.

Lemma wp_new_entry {R} t (a : bool) w h v (k : nat → prog bucket R) Q :
  (∀ i, wp inv t (k i) (idle h (Some (i, a, if a then Fresh w else Private w)) v) Q) →
  wp inv t (bind (new_entry a w) k) (idle h None v) Q.
Proof.
  intros Hk. apply wp_act. intros b ls Hl (kf & wf & m & Q0 & Hst & HL & HQ & HP).
  eexists. split; [| apply Hk]. cbn [fst snd].
  exists kf, wf, m, Q0. split_and!; [done | by eapply lock_frame | by eapply queue_new |].
  eapply phase_insert; [done | done | done | |].
  - intros _ Hns. split; [by eapply no_sig_insert |]. intros ->. auto.
  - intros i a' ph [= _ <- <-]. by destruct a.
Qed.

(** A thread blocked on its own entry. *)
Lemma wp_wait {R} t i h ph v (k : prog bucket R) Q :
  ph = Out ∨ (ph = Waits ∧ h = None) →
  wp inv t k (idle h (Some (i, false, Woken)) v) Q →
  wp inv t (bind (sync_wait i) (λ _, k)) (idle h (Some (i, false, ph)) v) Q.
Proof.
  intros Hph Hk. apply wp_park.
  - intros b ls Hl HI Hc. exists (idle h (Some (i, false, Woken)) v). split; [| done].
    destruct (inv_own _ _ _ _ _ _ _ Hl eq_refl HI) as (e & lst & He & _).
    unfold completed in Hc. rewrite He in Hc.
    eapply inv_woken; [done | | done | done | done]. destruct Hph as [-> | [-> _]]; done.
  - intros b ls Hl HI Hc. destruct (inv_own _ _ _ _ _ _ _ Hl eq_refl HI) as (e & lst & He & _).
    unfold completed in Hc. rewrite He in Hc. eapply inv_parked; [done | done | tauto | done | done].
Qed.

Lemma wait_sync_spec t n x v (f : prog bucket (result (option unit))) :
  (∀ i a v, wp inv t f (idle None (Some (i, a, Pushed)) v) (retry_post x i a v)) →
  wp inv t (wait_sync n f) (idle None None v) (attempt_post x None v).
Proof.
  intros Hf. unfold wait_sync. apply wp_load. intros b ls _ _. generalize (get_head b); intros w; clear b ls.
  apply wp_new_entry. intros i. eapply wp_call; [apply wait_push_spec |]. intros _ l ->.
  eapply wp_call; [apply Hf |]. intros [o | []] l Hr; cbn [is_ok retry_post] in *.
  - assert (∃ h ph, queued ph = true ∧ l = idle h (Some (i, false, ph)) v ∧
      attempt_post x None v (inl o) (idle h None v)) as (h & ph & Hq & -> & Hp).
    { destruct o as [u |]; destruct Hr as (ph & Hq & ->); [exists (Some x), ph | exists None, ph]; done. }
    eapply wp_call; [apply signal_spec |]. intros _ l ->. cbn [leave]. rewrite Hq.
    apply wp_wait; [by left |]. apply wp_free; [done |]. intros _. exact Hp.
  - subst l. cbn [bind]. apply wp_wait; [by right |]. apply wp_free; [done |]. done.
Qed.

(** Locking, with the attempts of either kind of lock. *)
Lemma lock_loop_spec t n x v (attempt retry : prog bucket (result (option unit))) :
  wp inv t attempt (idle None None v) (attempt_post x None v) →
  (∀ i a v, wp inv t retry (idle None (Some (i, a, Pushed)) v) (retry_post x i a v)) →
  wp inv t (loop n (λ _,
    let! r := attempt in
    match r with
    | inl locker => Ret (Break locker)
    | inr _ =>
        let! r := wait_sync n retry in
        match r with
        | inl locker => Ret (Break locker)
        | inr _ => Ret (Continue ())
        end
    end) ()) (idle None None v) (λ r l, attempt_post x None v (inl r) l).
Proof.
  intros Ha Hr. apply (wp_loop inv t n _ (λ _ l, l = idle None None v)); [done |].
  intros _ l ->. eapply wp_call; [exact Ha |]. intros [o | []] l Hl; [exact Hl |]. cbn in Hl. subst l.
  eapply wp_call; [by apply wait_sync_spec |]. intros [o | []] l Hl; exact Hl.
Qed.

Lemma locker_lock_spec t n v :
  wp inv t (Locker.lock n) (idle None None v) (λ r l, attempt_post true None v (inl r) l).
Proof. apply lock_loop_spec; [by apply locker_try_lock_spec | apply locker_retry_spec]. Qed.

Lemma reader_lock_spec t n v :
  wp inv t (Reader.lock n) (idle None None v) (λ r l, attempt_post false None v (inl r) l).
Proof. apply lock_loop_spec; [by apply reader_try_lock_spec | apply reader_retry_spec]. Qed.

(** ** Unlocking *)

(** What unlocking keeps: no entry, or one that has left the queue. *)
Definition settled (mi : option (nat * bool * phase)) : Prop :=
  match mi with Some (_, _, ph) => ph = Out | None => True end.

Lemma settled_same mi : settled mi → calm mi = mi ∧ leave mi = mi.
Proof. destruct mi as [[[i a] ph] |]; [| done]. by intros ->. Qed.

Lemma locker_drop_spec t n mi x v :
  settled mi →
  wp inv t (Locker.drop n) (Ghost (Some true) false [] [] mi x v) (λ _ l, l = idle None mi v).
Proof.
  intros [Hcalm Hleave]%settled_same. unfold Locker.drop. apply wp_load. intros b ls _ _. generalize (state b). intros cur. clear b ls.
  eapply wp_call.
  { apply (wp_loop inv t n _ (λ _ l, l = Ghost (Some true) false [] [] mi x v)); [done |].
    clear cur. intros cur l ->. apply wp_cas_weak; [| done].
    intros b ls Hl HI <-. destruct (inv_state _ _ HI) as (k & w & m & Hst & Hm).
    destruct (inv_unlock _ _ _ _ _ _ _ _ _ Hl HI Hst Hm) as [-> HI']. rewrite Hst, lock_word_unlock by done.
    eexists. split; [exact HI' |].
    instantiate (1 := λ cur l, ∃ w, (Z.land cur WAITING =? WAITING) = w ∧ l = Ghost None w [] [] (calm mi) None v).
    cbn. exists w. by rewrite lock_word_waiting. }
  intros cur' l (w & -> & ->). rewrite Hcalm. destruct w; [| done].
  eapply wp_mono; [| apply signal_spec]. intros _ l ->. by rewrite Hleave.
Qed.

Lemma reader_release_spec t n mi x v :
  settled mi →
  wp inv t (Reader.release n) (Ghost (Some false) false [] [] mi x v) (λ _ l, l = idle None mi v).
Proof.
  intros [Hcalm Hleave]%settled_same. unfold Reader.release. apply wp_load. intros b ls _ _. generalize (state b). intros cur. clear b ls.
  apply (wp_loop inv t n _ (λ _ l, l = Ghost (Some false) false [] [] mi x v)); [done |].
  clear cur. intros cur l ->. cbv zeta. apply wp_cas_weak; [| done].
  intros b ls Hl HI <-. destruct (inv_state _ _ HI) as (k & w & m & Hst & Hm).
  destruct (inv_unshare _ _ _ _ _ _ _ _ _ Hl HI Hst Hm) as [Hpos HI'].
  assert (Hm1 : in_word 30 (m + -1)) by (unfold in_word in *; lia).
  rewrite Hst, lock_word_waiting, <-Z.add_opp_r, lock_word_shift, lock_word_unwait by done.
  eexists. split; [exact HI' |]. rewrite Hcalm. destruct w; [| done].
  eapply wp_call; [apply signal_spec |]. intros _ l ->. by rewrite Hleave.
Qed.

(** ** Asynchronous waiting *)

(** Reading the own entry: what is found decides how the thread goes on. *)
Lemma wp_read_own {R} t i a h ph v (k : wait_entry → prog bucket R) Q :
  (∀ e lst, mine_ok lst e a ph →
    (queued ph = true ∧ done e = true ∧ wp inv t (k e) (idle h (Some (i, a, Woken)) v) Q) ∨
    wp inv t (k e) (idle h (Some (i, a, ph)) v) Q) →
  wp inv t (bind (read_entry i a) k) (idle h (Some (i, a, ph)) v) Q.
Proof.
  intros Hk. apply wp_act. intros b ls Hl HI. cbn [fst snd].
  destruct (inv_own _ _ _ _ _ _ _ Hl eq_refl HI) as (e & lst & He & Hlk & Hok). rewrite Hlk.
  destruct (Hk e lst Hok) as [(Hq & Hd & Hw) | Hw].
  - exists (idle h (Some (i, a, Woken)) v). split; [by eapply inv_woken | done].
  - exists (idle h (Some (i, a, ph)) v). split; [by rewrite list_insert_id | done].
Qed.

(** [try_wait] on an entry that was pushed. *)
Lemma wp_try_wait {R} t i h ph v (k : bool → prog bucket R) Q :
  queued ph = true →
  wp inv t (k true) (idle h (Some (i, true, Woken)) v) Q →
  wp inv t (k false) (idle h (Some (i, true, ph)) v) Q →
  wp inv t (bind (try_wait i) k) (idle h (Some (i, true, ph)) v) Q.
Proof.
  intros Hq Ht Hf. unfold try_wait. apply wp_bind, wp_read_own. intros e lst (_ & _ & Hok). cbn [wp].
  assert (mutex e = true) as -> by (destruct ph; done || apply Hok). cbn [andb].
  destruct (done e); auto.
Qed.

(** An update of the own entry that nothing else depends on. *)
Lemma wp_modify_own {R} t i a h ph ph' v f (k : wait_entry → prog bucket R) Q :
  (∀ e lst, mine_ok lst e a ph → mine_ok lst (f e) a ph' ∧
    (lst → next (f e) = next e ∧ ∀ a, pending e a → pending (f e) a)) →
  (∀ k w m inq ns, phase_ok k w m inq ns ph → phase_ok k w m inq ns ph') →
  (∀ e, wp inv t (k e) (idle h (Some (i, a, ph')) v) Q) →
  wp inv t (bind (modify_entry i a f) k) (idle h (Some (i, a, ph)) v) Q.
Proof.
  intros Hf Hq Hk. apply wp_modify. intros b ls Hl HI.
  destruct (inv_own _ _ _ _ _ _ _ Hl eq_refl HI) as (e & lst & He & Hlk & _).
  exists e, (idle h (Some (i, a, ph')) v). split; [done |]. split; [| apply Hk].
  eapply inv_update; [done | done | done | exact He |].
  intros lst' Hok. destruct (Hf e lst' Hok). auto.
Qed.

(** The result of [push_async_entry]. *)
Definition async_post (x : bool) (i : nat) (v : nat) (r : result (option unit)) (l : ghost) : Prop :=
  match r with
  | inl o => ∃ ph, (queued ph = false ∧ ∀ w, ph ≠ Private w) ∧
      l = idle (match o with Some _ => Some x | None => None end) (Some (i, true, ph)) v
  | inr _ => ∃ ph, (ph = Out ∨ ph = Waits) ∧ l = idle None (Some (i, true, ph)) v
  end.

Lemma push_async_spec t n i w x v (f : prog bucket (result (option unit))) dispose :
  wp inv t f (idle None (Some (i, true, Pushed)) v) (retry_post x i true v) →
  (∀ o, wp inv t (dispose o) (idle (match o with Some _ => Some x | None => None end) (Some (i, true, Out)) v)
    (λ _ l, l = idle None (Some (i, true, Out)) v)) →
  wp inv t (push_async_entry n i f dispose) (idle None (Some (i, true, Fresh w)) v) (async_post x i v).
Proof.
  intros Hf Hdis. unfold push_async_entry. apply wp_read_own. intros e lst (_ & _ & _ & _ & _ & -> & _). right.
  apply wp_dassert; [done |]. apply wp_load. intros b ls _ _. generalize (get_head b); intros w'; clear b ls.
  apply (wp_modify_own t i true None (Fresh w) (Fresh w')).
  { intros e' lst' (? & ? & ? & ? & ? & ? & ?). by split_and!. }
  { done. }
  intros _. apply (wp_modify_own t i true None (Fresh w') (Private w')).
  { intros e' lst' (? & ? & ? & ? & ? & ? & ?). by split_and!. }
  { done. }
  intros _. eapply wp_call; [apply wait_push_spec |]. intros _ l ->.
  eapply wp_call; [exact Hf |]. intros [o | []] l Hr; [| exists Waits; split; [by right | exact Hr]].
  assert (∃ ph, queued ph = true ∧
    l = idle (match o with Some _ => Some x | None => None end) (Some (i, true, ph)) v) as (ph & Hq & ->)
    by (destruct o; exact Hr).
  eapply wp_call; [apply signal_spec |]. intros _ l ->. cbn [leave]. rewrite Hq.
  apply wp_try_wait; [done | |].
  - apply (wp_modify_own t i true _ Woken Taken); [| done |].
    + intros e' lst' (? & ? & ? & ? & ? & ?). by split_and!.
    + intros _. by exists Taken.
  - eapply wp_call; [apply Hdis |]. intros _ l ->. exists Out. auto.
Qed.

Lemma async_drop_spec t n i h ph v :
  queued ph = false ∨ ((ph = Out ∨ ph = Waits) ∧ h = None) →
  (∀ w, ph ≠ Private w) →
  wp inv t (async_drop n i) (idle h (Some (i, true, ph)) v) (λ _ l, l = idle h None v).
Proof.
  intros Hph Hnp. unfold async_drop.
  assert (Hfree : ∀ ph, queued ph = false →
    wp inv t (modify_entry i true set_dead ;; Ret ()) (idle h (Some (i, true, ph)) v)
      (λ (_ : unit) l, l = idle h None v)) by (intros; by apply wp_free).
  assert (Hwoken : wp inv t (pull n i) (idle h (Some (i, true, Woken)) v)
    (λ _ l, l = idle h (Some (i, true, Woken)) v)).
  { unfold pull. apply wp_read_own. intros e lst (_ & _ & _ & -> & _). right. by rewrite andb_false_r. }
  apply wp_read_own. intros e lst (_ & _ & Hok). destruct Hph as [Hq | [Hph ->]].
  - right. destruct ph; try done.
    + destruct Hok as (_ & _ & _ & -> & _). by apply Hfree.
    + by destruct (Hnp w).
    + destruct (mutex e); [| by apply Hfree]. eapply wp_call; [exact Hwoken |]. intros _ l ->. by apply Hfree.
    + destruct Hok as (_ & ->). by apply Hfree.
  - assert (Hq : queued ph = true) by (destruct Hph as [-> | ->]; done). right.
    assert (mutex e = true) as -> by (destruct Hph as [-> | ->]; apply Hok).
    apply wp_call with (Q' := λ _ l, l = idle None (Some (i, true, Woken)) v);
      [| intros _ l ->; by apply Hfree].
    unfold pull. apply wp_read_own. intros e' lst' (_ & _ & Hok').
    assert (mutex e' = true) as -> by (destruct Hph as [-> | ->]; apply Hok').
    destruct (done e'); [left; done | right]. cbn [andb negb].
    eapply wp_call; [apply signal_spec |]. intros _ l ->. cbn [leave]. rewrite Hq.
    apply (wp_loop inv t n _ (λ _ l, l = idle None (Some (i, true, Out)) v)); [done |].
    intros _ l ->. by apply wp_try_wait.
Qed.

(** [poll]: the task is ready, or a waker was registered. *)
Lemma wp_poll {R} t i ph v (k : bool → prog bucket R) Q :
  ph = Out ∨ ph = Waits →
  wp inv t (k true) (idle None (Some (i, true, Woken)) v) Q →
  wp inv t (k false) (idle None (Some (i, true, Polled)) v) Q →
  wp inv t (bind (poll i) k) (idle None (Some (i, true, ph)) v) Q.
Proof.
  intros Hph Ht Hf. apply wp_act. intros b ls Hl HI. cbn [fst snd].
  destruct (inv_own _ _ _ _ _ _ _ Hl eq_refl HI) as (e & lst & He & Hlk & _ & _ & Hok). rewrite Hlk.
  assert (mutex e = true) as -> by (destruct Hph as [-> | ->]; apply Hok).
  destruct (done e) eqn:Hd.
  - exists (idle None (Some (i, true, Woken)) v). split; [| done].
    eapply inv_woken; [done | | done | done | done]. by destruct Hph as [-> | ->].
  - exists (idle None (Some (i, true, Polled)) v). split; [| done].
    eapply inv_update; [done | done | done | exact He |].
    intros lst' (? & ? & Hok'). split; [| split; [done |]; split].
    + intros _. split; [done |]. intros a' (? & ? & ? & Hm). by split_and!.
    + split; [done |]. split; [done |].
      assert ((lst' ↔ done e = false) ∧ (done e = true → waker e = false) ∧ mutex e = true) as (Hi & _ & Hm)
        by (by destruct Hph as [-> | ->]).
      split; [done |]. split; [by cbn; rewrite Hd |]. by split.
    + intros kf w m inq ns. destruct Hph as [-> | ->]; cbn; tauto.
Qed.

Lemma await_spec t n i ph v :
  ph = Out ∨ ph = Waits →
  wp inv t (await n i) (idle None (Some (i, true, ph)) v)
    (λ _ l, l = idle None (Some (i, true, Woken)) v).
Proof.
  intros Hph. unfold await.
  apply (wp_loop inv t n _ (λ _ l, ∃ ph, (ph = Out ∨ ph = Waits) ∧ l = idle None (Some (i, true, ph)) v));
    [eauto |].
  clear ph Hph. intros _ l (ph & Hph & ->). apply wp_poll; [done | done |].
  apply wp_park.
  - intros b ls Hl HI _. exists (idle None (Some (i, true, Polled)) v).
    split; [by rewrite list_insert_id |].
    apply (wp_modify_own t i true None Polled Waits).
    + intros e lst (? & ? & ? & ? & ? & ?). split; [by split_and! |]. intros _. split; [done |].
      intros a (? & ? & ? & ?). by split_and!.
    + intros k w m inq ns Hok. exact Hok.
    + intros _. cbn. exists Waits. auto.
  - intros b ls Hl HI Hw. destruct (inv_own _ _ _ _ _ _ _ Hl eq_refl HI) as (e & lst & He & Hlk & _ & _ & Hok).
    rewrite He in Hw. eapply inv_parked; [done | done | tauto | done |].
    destruct Hok as (_ & Hd & _ & Hr). rewrite Hw, orb_false_r in Hr.
    destruct (done e); [| done]. rewrite Hd in Hr by done. done.
Qed.

Definition held_by (x : bool) (o : option unit) : option bool :=
  match o with Some _ => Some x | None => None end.

(** [try_lock_or_wait], for either kind of lock. *)
Lemma try_lock_or_wait_spec t n i w x v (attempt retry : prog bucket (result (option unit)))
    (dispose : option unit → prog bucket unit) :
  (∀ mi, calm mi = mi → wp inv t attempt (idle None mi v) (attempt_post x mi v)) →
  wp inv t retry (idle None (Some (i, true, Pushed)) v) (retry_post x i true v) →
  (∀ o, wp inv t (dispose o) (idle (held_by x o) (Some (i, true, Out)) v)
    (λ _ l, l = idle None (Some (i, true, Out)) v)) →
  wp inv t (let! r := attempt in
            match r with
            | inl locker => Ret (inl locker)
            | inr _ => push_async_entry n i retry dispose
            end) (idle None (Some (i, true, Fresh w)) v)
    (λ r l, async_post x i v r l).
Proof.
  intros Ha Hr Hd. eapply wp_call; [by apply Ha |]. intros [o | []] l Hl.
  - exists (Fresh w). by destruct o.
  - cbn in Hl. subst l. by apply push_async_spec.
Qed.

Lemma locker_async_spec t n i w v :
  wp inv t (Locker.try_lock_or_wait n i) (idle None (Some (i, true, Fresh w)) v) (async_post true i v).
Proof.
  apply try_lock_or_wait_spec; [intros; by apply locker_try_lock_spec | apply locker_retry_spec |].
  intros [u |]; [by apply locker_drop_spec | done].
Qed.

Lemma reader_async_spec t n i w v :
  wp inv t (Reader.try_lock_or_wait n i) (idle None (Some (i, true, Fresh w)) v) (async_post false i v).
Proof.
  apply try_lock_or_wait_spec; [intros; by apply reader_try_lock_spec | apply reader_retry_spec |].
  intros [u |]; [by apply reader_release_spec | done].
Qed.

Lemma lock_async_spec t n cancel x v (f : nat → prog bucket (result (option unit))) :
  (∀ i w, wp inv t (f i) (idle None (Some (i, true, Fresh w)) v) (async_post x i v)) →
  wp inv t (lock_async n cancel f) (idle None None v) (λ r l, l = idle (held_by x r.2) None v).
Proof.
  intros Hf. unfold lock_async.
  apply (wp_loop inv t n _ (λ _ l, l = idle None None v)); [done |]. intros _ l ->.
  apply wp_new_entry. intros i. eapply wp_call; [apply Hf |].
  intros [o | []] l Hl; cbn in Hl; destruct Hl as (ph & Hph & ->).
  - destruct Hph as [Hq Hnp]. eapply wp_call; [apply async_drop_spec; [by left | done] |]. intros _ l ->. done.
  - assert (Hnp : ∀ w, ph ≠ Private w) by (by destruct Hph as [-> | ->]).
    destruct cancel.
    + eapply wp_call; [apply async_drop_spec; [by right | done] |]. intros _ l ->. done.
    + eapply wp_call; [by apply await_spec |]. intros _ l ->.
      eapply wp_call; [apply async_drop_spec; [by left | done] |]. intros _ l ->. done.
Qed.

(** ** Clients *)

Lemma write_lock_spec t n m v :
  wp inv t (write_lock n m) (idle None None v) (λ r l, l = idle (held_by true r) None v).
Proof.
  destruct m as [| cancel]; cbn [write_lock].
  - eapply wp_mono; [| apply locker_lock_spec]. by intros [u |] l.
  - eapply wp_call; [apply lock_async_spec; intros; apply locker_async_spec |]. by intros r l ->.
Qed.

Lemma read_lock_spec t n m v :
  wp inv t (read_lock n m) (idle None None v) (λ r l, l = idle (held_by false r) None v).
Proof.
  destruct m as [| cancel]; cbn [read_lock].
  - eapply wp_mono; [| apply reader_lock_spec]. by intros [u |] l.
  - eapply wp_call; [apply lock_async_spec; intros; apply reader_async_spec |]. by intros r l ->.
Qed.

Lemma wp_see {R} t h x v (k : nat → prog bucket R) Q :
  (∀ y, wp inv t (k y) (Ghost (Some h) false [] [] None (Some y) v) Q) →
  wp inv t (bind (load contents) k) (Ghost (Some h) false [] [] None x v) Q.
Proof.
  intros Hk. apply wp_act. intros b ls Hl HI. cbn [fst snd].
  exists (Ghost (Some h) false [] [] None (Some (contents b)) v). split; [by eapply inv_seen | apply Hk].
Qed.

Lemma lock_client_spec t n ops v :
  wp inv t (client n ops v) (idle None None v) (λ r l, l = idle None None r).
Proof.
  revert v. induction ops as [| [m kill | m] ops IH]; intros v; cbn [client]; [done | |].
  - eapply wp_call; [apply write_lock_spec |]. intros [u |] l ->; [| apply IH]. cbn [held_by].
    apply wp_see. intros x.
    apply wp_act. intros b ls Hl HI. cbn [fst snd].
    exists (Ghost (Some true) false [] [] None None (S v)). split; [by eapply inv_write |].
    eapply wp_call with (Q' := λ _ l, l = Ghost (Some true) false [] [] None None (S v)).
    { destruct kill; [| done]. clear b ls Hl HI. apply wp_act. intros b ls Hl HI.
      eexists. split; [by eapply inv_kill | done]. }
    intros _ l ->. eapply wp_call; [by apply locker_drop_spec |]. intros _ l ->. apply IH.
  - eapply wp_call; [apply read_lock_spec |]. intros [u |] l ->; [| apply IH]. cbn [held_by].
    apply wp_see. intros x. apply wp_load. intros b ls Hl HI.
    pose proof (inv_reread _ _ _ _ _ _ _ Hl HI) as ->. apply wp_dassert; [apply Nat.eqb_refl |].
    eapply wp_call; [by apply reader_release_spec |]. intros _ l ->. apply IH.
Qed.

(** ** The property *)

Lemma lock_inv_new n : inv bucket_new (replicate n (idle None None 0)).
Proof.
  assert (Hr : ∀ t l, replicate n (idle None None 0) !! t = Some l → l = idle None None 0).
  { intros t l Hl. by apply lookup_replicate in Hl as [-> _]. }
  assert (Hz : ∀ f : ghost → nat, f (idle None None 0) = 0%nat → total f (replicate n (idle None None 0)) = 0%nat).
  { intros f Hf. apply sum_list_with_zero. intros x [-> _]%elem_of_replicate. exact Hf. }
  exists false, false, 0, []. split_and!; [done | | |].
  - constructor; [right; rewrite !Hz by done; done | | by rewrite Hz].
    intros t l x Hl. by rewrite (Hr t l Hl).
  - constructor; cbn; try done; [constructor | | | |].
    + intros t l ->%Hr. split_and!; try done; [constructor |]. intros i Hi. by apply elem_of_nil in Hi.
    + intros t t' l l' i ->%Hr _ _ Hi. by apply elem_of_nil in Hi.
    + intros t l i a ph ->%Hr. done.
    + intros t t' l l' i a a' ph ph' ->%Hr. done.
  - intros t l i a ph ->%Hr. done.
Qed.

Definition lock_clients (n : nat) (ts : list (list op)) : list (prog bucket nat) :=
  (λ ops, client n ops 0) <$> ts.

Lemma clients_lock_ok n ts :
  pool_ok inv (λ _ r l, l = idle None None r) (Pool (lock_clients n ts) bucket_new)
    (replicate (length ts) (idle None None 0)).
Proof.
  unfold lock_clients. split_and!; cbn.
  - apply lock_inv_new.
  - by rewrite length_replicate, length_fmap.
  - intros t pr l Hpr Hl. apply lookup_replicate in Hl as [-> _].
    rewrite list_lookup_fmap in Hpr. destruct (ts !! t); simplify_eq/=. apply lock_client_spec.
Qed.

Lemma finished_writes (ps : list (prog bucket nat)) rs (ls : list ghost) :
  ps = Ret <$> rs → length ls = length ps →
  (∀ t r l, ps !! t = Some (Ret r) → ls !! t = Some l → l = idle None None r) →
  ls = idle None None <$> rs.
Proof.
  intros -> . revert rs. induction ls as [| l ls IH]; intros [| r rs] Hlen Hf; simpl in *; try done.
  rewrite (Hf 0%nat r l) by done. f_equal.
  apply IH; [by injection Hlen | intros t; apply (Hf (S t))].
Qed.

(** C11. The lock of a bucket, under every interleaving of any number of threads and
    tasks that lock it exclusively or shared, synchronously or asynchronously, give up
    waiting, kill the bucket and unlock it:
    - nobody accesses a wait queue entry after its owner has deallocated it, and no
      assertion of the sources fails;
    - accesses exclude each other: a reader sees the same contents twice, no increment
      is lost, and in the end the lock is free;
    - no wake-up is lost: a state in which no thread can go on is one in which all
      have finished, unless the bound of a retry loop was reached. *)
Theorem bucket_lock_concurrent n ts p (Hr : reachable (Pool (lock_clients n ts) bucket_new) p) :
  (∀ t pr, threads p !! t = Some pr → ¬ panicking pr) ∧
  (∀ rs, threads p = Ret <$> rs →
    contents (shared p) = sum_list rs ∧ Z.land (state (shared p)) LOCK_MASK = 0) ∧
  ((∀ p', ¬ pool_step p p') → (∀ t, threads p !! t ≠ Some OutOfFuel) →
    ∃ rs, threads p = Ret <$> rs).
Proof.
  destruct (pool_safe _ _ _ _ _ (clients_lock_ok n ts) Hr) as (ls & HI & Hlen & Hnp & Hfin).
  split_and!; [done | |].
  - intros rs Hrs. pose proof (finished_writes _ _ _ Hrs Hlen Hfin) as ->.
    destruct HI as (k & w & m & Q & Hst & HL & _).
    rewrite Hst, lock_word_mask by (by eapply in_word_count).
    assert (Hz : ∀ f : ghost → nat, (∀ r, f (idle None None r) = 0%nat) → total f (idle None None <$> rs) = 0%nat).
    { intros f Hf. apply sum_list_with_zero. intros x (r & -> & _)%list_elem_of_fmap. apply Hf. }
    destruct HL as [HM _ HD]. rewrite !Hz in HM by done. split.
    + rewrite HD. clear. induction rs as [| r rs IH]; [done |]. cbn. by rewrite IH.
    + destruct HM as [(_ & ? & _) | (-> & _)]; done.
  - intros Hstuck Hfuel.
    assert (Hall : Forall (λ pr, ∃ r, pr = Ret r) (threads p)).
    { apply Forall_lookup. intros t pr.
      eapply pool_live; [apply clients_lock_ok | | exact Hr | exact Hstuck | exact Hfuel].
      intros t' r l s -> [[=] | [Hi | [Hh _]]]; done. }
    clear -Hall. induction Hall as [| pr ps [r ->] _ [rs ->]]; [by exists [] | by exists (r :: rs)].
Qed.

Definition lock_example : list (list op) :=
  [[Write Sync false]; [Write Sync false; Read Sync]; [Read (Async false); Write Sync true]].

Lemma bucket_lock_concurrent_witness :
  ∃ p, reachable (Pool (lock_clients 5 lock_example) bucket_new) p ∧
    threads p = Ret <$> [1%nat; 1%nat; 1%nat] ∧ wake_ups (wait (shared p)) = [0%nat; 1%nat] ∧
    contents (shared p) = 3%nat.
Proof.
  set (p0 := Pool (lock_clients 5 lock_example) bucket_new).
  set (ts := replicate 2 0%nat ++ replicate 20 1%nat ++ replicate 20 2%nat ++ replicate 40 0%nat ++
            replicate 40 1%nat ++ replicate 40 2%nat).
  pose proof (execs_reachable ts p0) as Hr.
  assert (threads (execs ts p0) = Ret <$> [1%nat; 1%nat; 1%nat]) as Hth by (vm_compute; reflexivity).
  exists (execs ts p0). split; [exact Hr |]. split; [exact Hth |]. split; [vm_compute; reflexivity |].
  rewrite (proj1 (proj1 (proj2 (bucket_lock_concurrent 5 lock_example (execs ts p0) Hr)) _ Hth)). reflexivity.
Defined.
