(* ===== verification/Bucket.v ===== *)
(** * The contents of a bucket: [src/hash_table/bucket.rs]

    A bucket is a small hash table with linear probing: 32 slots in its data block,
    and linked buckets of 8 slots each when these are full.  Which slots are in use
    is told by a bitmap per block; a partial hash per slot makes most comparisons of
    keys unnecessary.  The operations below are those of a thread that has exclusive
    access to the bucket; the lock itself is in [BucketLock]. *)
From S2P Require Import Prelude Atomic Lru.

Local Open Scope Z_scope.

(** The [TYPE] parameter. *)
Inductive bucket_type := SEQUENTIAL | OPTIMISTIC | CACHE.

#[export] Instance bucket_type_eq_dec : EqDecision bucket_type.
Proof. solve_decision. Defined.

Definition LINKED_BUCKET_LEN : nat := BUCKET_LEN / 4.

(** [u32::MAX] *)
Definition u32_max : Z := umax 32.

Section Bucket.
Context {K V : Type} `{EqDecision K} (TYPE : bucket_type).

(** [DataBlock]: a slot that was never written, or whose entry was moved out of it, is
    [None]; reading it is undefined behaviour. *)
Definition DataBlock : Type := list (option (K * V)).

(** Pointers to linked buckets are keys of [links]; [None] is null. *)
Record Metadata := {
  link : option nat;
  occupied_bitmap : Z;
  removed_bitmap_or_lru_tail : Z;
  partial_hash_array : list Z
}.

Record LinkedBucket := {
  metadata : Metadata;
  data_block : DataBlock;
  prev_link : option nat
}.

(** [Bucket] with its data block and the memory of its linked buckets; [dropped] is the
    history of the entries that were dropped in place, [killed] a bit of [state], and
    [locked] tells whether a [Locker] exists. *)
Record Bucket := {
  killed : bool;
  locked : bool;
  num_entries : Z;
  main : Metadata;
  main_block : DataBlock;
  lru_list : DoublyLinkedList;
  links : gmap nat LinkedBucket;
  dropped : list (K * V)
}.

Record EntryPtr := {
  current_link_ptr : option nat;
  current_index : option nat   (* [None] is [usize::MAX] *)
}.

(** ** Setters *)

Definition set_link (x : option nat) (m : Metadata) : Metadata :=
  {| link := x; occupied_bitmap := occupied_bitmap m;
     removed_bitmap_or_lru_tail := removed_bitmap_or_lru_tail m;
     partial_hash_array := partial_hash_array m |}.
Definition set_occupied (x : Z) (m : Metadata) : Metadata :=
  {| link := link m; occupied_bitmap := x;
     removed_bitmap_or_lru_tail := removed_bitmap_or_lru_tail m;
     partial_hash_array := partial_hash_array m |}.
Definition set_removed (x : Z) (m : Metadata) : Metadata :=
  {| link := link m; occupied_bitmap := occupied_bitmap m;
     removed_bitmap_or_lru_tail := x; partial_hash_array := partial_hash_array m |}.
Definition set_hash (i : nat) (x : Z) (m : Metadata) : Metadata :=
  {| link := link m; occupied_bitmap := occupied_bitmap m;
     removed_bitmap_or_lru_tail := removed_bitmap_or_lru_tail m;
     partial_hash_array := <[i := x]> (partial_hash_array m) |}.

Definition set_metadata (x : Metadata) (l : LinkedBucket) : LinkedBucket :=
  {| metadata := x; data_block := data_block l; prev_link := prev_link l |}.
Definition set_data_block (x : DataBlock) (l : LinkedBucket) : LinkedBucket :=
  {| metadata := metadata l; data_block := x; prev_link := prev_link l |}.
Definition set_prev_link (x : option nat) (l : LinkedBucket) : LinkedBucket :=
  {| metadata := metadata l; data_block := data_block l; prev_link := x |}.

Definition set_killed (x : bool) (b : Bucket) : Bucket :=
  {| killed := x; locked := locked b; num_entries := num_entries b; main := main b;
     main_block := main_block b; lru_list := lru_list b; links := links b; dropped := dropped b |}.
Definition set_locked (x : bool) (b : Bucket) : Bucket :=
  {| killed := killed b; locked := x; num_entries := num_entries b; main := main b;
     main_block := main_block b; lru_list := lru_list b; links := links b; dropped := dropped b |}.
Definition set_num_entries (x : Z) (b : Bucket) : Bucket :=
  {| killed := killed b; locked := locked b; num_entries := x; main := main b;
     main_block := main_block b; lru_list := lru_list b; links := links b; dropped := dropped b |}.
Definition set_main (x : Metadata) (b : Bucket) : Bucket :=
  {| killed := killed b; locked := locked b; num_entries := num_entries b; main := x;
     main_block := main_block b; lru_list := lru_list b; links := links b; dropped := dropped b |}.
Definition set_main_block (x : DataBlock) (b : Bucket) : Bucket :=
  {| killed := killed b; locked := locked b; num_entries := num_entries b; main := main b;
     main_block := x; lru_list := lru_list b; links := links b; dropped := dropped b |}.
Definition set_lru_list (x : DoublyLinkedList) (b : Bucket) : Bucket :=
  {| killed := killed b; locked := locked b; num_entries := num_entries b; main := main b;
     main_block := main_block b; lru_list := x; links := links b; dropped := dropped b |}.
Definition set_links (x : gmap nat LinkedBucket) (b : Bucket) : Bucket :=
  {| killed := killed b; locked := locked b; num_entries := num_entries b; main := main b;
     main_block := main_block b; lru_list := lru_list b; links := x; dropped := dropped b |}.
Definition add_dropped (x : list (K * V)) (b : Bucket) : Bucket :=
  {| killed := killed b; locked := locked b; num_entries := num_entries b; main := main b;
     main_block := main_block b; lru_list := lru_list b; links := links b;
     dropped := dropped b ++ x |}.

(** [Metadata::default()] *)
Definition metadata_default (len : nat) : Metadata :=
  {| link := None; occupied_bitmap := 0; removed_bitmap_or_lru_tail := 0;
     partial_hash_array := replicate len 0 |}.

(** A zeroed bucket, with its uninitialised data block. *)
Definition bucket_default : Bucket :=
  {| killed := false; locked := false; num_entries := 0; main := metadata_default BUCKET_LEN;
     main_block := replicate BUCKET_LEN None; lru_list := lru_default; links := ∅; dropped := [] |}.

(** ** Memory accesses

    A block is the main block ([None]) or a linked bucket; an access through a
    dangling pointer is undefined behaviour. *)

Definition block_len (p : option nat) : nat :=
  match p with None => BUCKET_LEN | Some _ => LINKED_BUCKET_LEN end.

Definition get_meta (p : option nat) (b : Bucket) : option Metadata :=
  match p with
  | None => Some (main b)
  | Some i => metadata <$> links b !! i
  end.

Definition get_block (p : option nat) (b : Bucket) : option DataBlock :=
  match p with
  | None => Some (main_block b)
  | Some i => data_block <$> links b !! i
  end.

Definition put_meta (p : option nat) (f : Metadata → Metadata) (b : Bucket) : Bucket :=
  match p with
  | None => set_main (f (main b)) b
  | Some i => set_links (alter (λ l, set_metadata (f (metadata l)) l) i (links b)) b
  end.

Definition put_slot (p : option nat) (i : nat) (x : option (K * V)) (b : Bucket) : Bucket :=
  match p with
  | None => set_main_block (<[i := x]> (main_block b)) b
  | Some j => set_links (alter (λ l, set_data_block (<[i := x]> (data_block l)) l) j (links b)) b
  end.

(** A value that exists, or undefined behaviour. *)
Definition read {A} (f : Bucket → option A) : prog Bucket A :=
  Act (λ b, (f b, b)) (λ o, match o with Some x => Ret x | None => Panic end).

Definition modify (f : Bucket → Bucket) : prog Bucket unit := Act (λ b, ((), f b)) Ret.

Definition load_meta (p : option nat) : prog Bucket Metadata := read (get_meta p).
Definition store_meta (p : option nat) (f : Metadata → Metadata) : prog Bucket unit :=
  load_meta p ;; modify (put_meta p f).

(** [data_block[i].as_ptr()], dereferenced. *)
Definition get_slot (p : option nat) (i : nat) (b : Bucket) : option (K * V) :=
  d ← get_block p b; o ← d !! i; o.

Definition load_slot (p : option nat) (i : nat) : prog Bucket (K * V) := read (get_slot p i).

(** [data_block[i].as_mut_ptr().read()]: the entry is moved out of the slot. *)
Definition move_slot (p : option nat) (i : nat) : prog Bucket (K * V) :=
  let! kv := load_slot p i in modify (put_slot p i None) ;; Ret kv.

(** [data_block[i].as_mut_ptr().write(kv)] *)
Definition write_slot (p : option nat) (i : nat) (kv : K * V) : prog Bucket unit :=
  let! d := read (get_block p) in
  if decide (i < length d)%nat then modify (put_slot p i (Some kv)) else Panic.

Definition load_linked (i : nat) : prog Bucket LinkedBucket := read (λ b, links b !! i).

(** [num_entries += 1], [num_entries -= 1]: an overflow is a panic. *)
Definition inc_entries : prog Bucket unit :=
  let! n := load num_entries in
  if n =? u32_max then Panic else store set_num_entries (n + 1).
Definition dec_entries : prog Bucket unit :=
  let! n := load num_entries in
  if n =? 0 then Panic else store set_num_entries (n - 1).

(** ** Queries *)

(** The slots in use that can be found. *)
Definition reachable_bitmap (m : Metadata) : Z :=
  if decide (TYPE = OPTIMISTIC) then
    Z.land (occupied_bitmap m) (unot 32 (removed_bitmap_or_lru_tail m))
  else occupied_bitmap m.

Definition need_rebuild (b : Bucket) : bool :=
  bool_decide (TYPE = OPTIMISTIC) &&
  (removed_bitmap_or_lru_tail (main b) =? ushr u32_max (32 - BUCKET_LEN)).

(** The slots with the given partial hash. *)
Definition matching (len : nat) (m : Metadata) (partial_hash : Z) : Z :=
  foldl (λ matching i,
    if decide (partial_hash_array m !! i = Some partial_hash)
    then Z.lor matching (one_shl i) else matching) 0 (seq 0 len).

(** The key of a borrowed form is the key itself. *)
Definition search_entry (p : option nat) (m : Metadata) (key : K) (partial_hash : Z) :
    prog Bucket (option (nat * (K * V))) :=
  let bitmap := Z.land (reachable_bitmap m) (matching (block_len p) m partial_hash) in
  loop 33 (λ bitmap,
    let offset := trailing_zeros 32 bitmap in
    if (offset =? 32)%nat then Ret (Break None)
    else
      let! entry := load_slot p offset in
      if decide (entry.1 = key) then Ret (Break (Some (offset, entry)))
      else Ret (Continue (bitmap - one_shl offset))) bitmap.

(** [search] walks through at most [n] linked buckets. *)
Definition search (n : nat) (key : K) (partial_hash : Z) : prog Bucket (option (K * V)) :=
  let! num := load num_entries in
  if num =? 0 then Ret None
  else
    let! m := load_meta None in
    let! r := search_entry None m key partial_hash in
    match r with
    | Some (_, entry) => Ret (Some entry)
    | None =>
        loop n (λ link_ptr,
          match link_ptr with
          | None => Ret (Break None)
          | Some i =>
              let! m := load_meta (Some i) in
              let! r := search_entry (Some i) m key partial_hash in
              match r with
              | Some (_, entry) => Ret (Break (Some entry))
              | None => Ret (Continue (link m))
              end
          end) (link m)
    end.

Definition entry_ptr_new : EntryPtr := {| current_link_ptr := None; current_index := Some BUCKET_LEN |}.

Definition is_valid (p : EntryPtr) : bool := negb (bool_decide (current_index p = Some BUCKET_LEN)).

(** [Bucket::get], [Locker::get] *)
Definition get (n : nat) (key : K) (partial_hash : Z) : prog Bucket EntryPtr :=
  let! num := load num_entries in
  if num =? 0 then Ret entry_ptr_new
  else
    let! m := load_meta None in
    let! r := search_entry None m key partial_hash in
    match r with
    | Some (index, _) => Ret {| current_link_ptr := None; current_index := Some index |}
    | None =>
        loop n (λ link_ptr,
          match link_ptr with
          | None => Ret (Break entry_ptr_new)
          | Some i =>
              let! m := load_meta (Some i) in
              let! r := search_entry (Some i) m key partial_hash in
              match r with
              | Some (index, _) =>
                  Ret (Break {| current_link_ptr := Some i; current_index := Some index |})
              | None => Ret (Continue (link m))
              end
          end) (link m)
    end.

(** [Bucket::next_entry] *)
Definition next_entry (len : nat) (m : Metadata) (current_index : nat) : option nat :=
  if decide (len ≤ current_index)%nat then None
  else
    let bitmap := Z.land (reachable_bitmap m) (unot 32 (one_shl current_index - 1)) in
    let next_index := trailing_zeros 32 bitmap in
    if decide (next_index < len)%nat then Some next_index else None.

(** [EntryPtr::next_entry]: whether there was one, and the pointer after. *)
Definition ptr_next_entry (self : EntryPtr) (len : nat) (index : nat) (m : Metadata) : bool * EntryPtr :=
  let current := if (index =? len)%nat then O else S index in
  match next_entry len m current with
  | Some i => (true, {| current_link_ptr := current_link_ptr self; current_index := Some i |})
  | None => (false, {| current_link_ptr := link m; current_index := Some LINKED_BUCKET_LEN |})
  end.

(** [EntryPtr::next] *)
Definition next (n : nat) (self : EntryPtr) : prog Bucket (bool * EntryPtr) :=
  match current_index self with
  | None => Ret (false, self)
  | Some index =>
      let! r :=
        match current_link_ptr self with
        | None =>
            let! m := load_meta None in
            Ret (ptr_next_entry self BUCKET_LEN index m)
        | Some _ => Ret (false, self)
        end in
      if r.1 : bool then Ret (true, r.2)
      else
        loop n (λ self,
          match current_link_ptr self, current_index self with
          | Some i, Some index =>
              let! m := load_meta (Some i) in
              let r := ptr_next_entry self LINKED_BUCKET_LEN index m in
              if r.1 then Ret (Break (true, r.2)) else Ret (Continue r.2)
          | _, _ =>
              (* Fuse itself. *)
              Ret (Break (false, {| current_link_ptr := current_link_ptr self; current_index := None |}))
          end) r.2
  end.

(** [EntryPtr::get]; [get_mut] gives access to the value. *)
Definition ptr_get (self : EntryPtr) : prog Bucket (K * V) :=
  match current_index self with
  | Some index => load_slot (current_link_ptr self) index
  | None => Panic
  end.

Definition ptr_set (self : EntryPtr) (v : V) : prog Bucket unit :=
  match current_index self with
  | Some index =>
      let! kv := load_slot (current_link_ptr self) index in
      modify (put_slot (current_link_ptr self) index (Some (kv.1, v)))
  | None => Panic
  end.

Definition ptr_partial_hash (self : EntryPtr) : prog Bucket Z :=
  match current_index self with
  | Some index =>
      let! m := load_meta (current_link_ptr self) in
      match partial_hash_array m !! index with Some x => Ret x | None => Panic end
  | None => Panic
  end.

(** ** Linked buckets *)

(** [LinkedBucket::new] *)
Definition linked_bucket_new (next : option nat) : LinkedBucket :=
  {| metadata := set_link next (metadata_default LINKED_BUCKET_LEN);
     data_block := replicate LINKED_BUCKET_LEN None; prev_link := None |}.

(** [impl Drop for LinkedBucket], and the loop of [drop_entries]: the entries whose
    bits are set are dropped. *)
Definition drop_block (p : option nat) : prog Bucket unit :=
  let! m := load_meta p in
  loop 33 (λ index,
    if (index =? 32)%nat then Ret (Break ())
    else
      let! kv := move_slot p index in
      modify (add_dropped [kv]) ;;
      store_meta p (λ m, set_occupied (occupied_bitmap m - one_shl index) m) ;;
      let! m := load_meta p in
      Ret (Continue (trailing_zeros 32 (occupied_bitmap m)))) (trailing_zeros 32 (occupied_bitmap m)).

(** [release] of the only reference, or [drop_in_place]: the linked bucket is dropped,
    and deallocated. *)
Definition free_linked (i : nat) : prog Bucket unit :=
  drop_block (Some i) ;; modify (λ b, set_links (delete i (links b)) b).

(** [link.swap(x)] *)
Definition swap_link (p : option nat) (x : option nat) : prog Bucket (option nat) :=
  let! m := load_meta p in store_meta p (set_link x) ;; Ret (link m).

Definition clear_links (n : nat) : prog Bucket unit :=
  let! next := swap_link None None in
  match next with
  | None => Ret ()
  | Some next =>
      loop n (λ next,
        let! next_next := swap_link (Some next) None in
        free_linked next ;;
        match next_next with
        | Some next_next => Ret (Continue next_next)
        | None => Ret (Break ())
        end) next
  end.

Definition kill (n : nat) : prog Bucket unit :=
  (if decide (TYPE = OPTIMISTIC) then
     store_meta None (λ m, set_removed (occupied_bitmap m) m)
   else Ret ()) ;;
  modify (set_killed true) ;;
  modify (set_num_entries 0) ;;
  let! m := load_meta None in
  match link m with
  | Some _ => clear_links n
  | None => Ret ()
  end.

Definition drop_entries (n : nat) : prog Bucket unit :=
  let! m := load_meta None in
  (match link m with Some _ => clear_links n | None => Ret () end) ;;
  let! m := load_meta None in
  if occupied_bitmap m =? 0 then Ret () else drop_block None.

(** [EntryPtr::unlink] on the linked bucket [i] that the pointer points to. *)
Definition unlink (self : EntryPtr) (i : nat) : prog Bucket EntryPtr :=
  let! l := load_linked i in
  let prev_link_ptr := prev_link l in
  let! next_link :=
    if decide (TYPE = OPTIMISTIC) then Ret (link (metadata l)) else swap_link (Some i) None in
  (match next_link with
   | Some next =>
       load_linked next ;;
       modify (λ b, set_links (alter (set_prev_link prev_link_ptr) next (links b)) b)
   | None => Ret ()
   end) ;;
  let! old_link := swap_link prev_link_ptr next_link in
  (match old_link with Some old => free_linked old | None => Ret () end) ;;
  Ret {| current_link_ptr := next_link;
         current_index := match next_link with None => None | Some _ => Some LINKED_BUCKET_LEN end |}.

(** ** The locker *)

(** [Locker::try_lock] when no other thread uses the bucket: [None] is [Err(())], and
    [Some false] is [Ok(None)], for a killed bucket.  [locked] is set as long as a
    [Locker] or a [Reader] of the bucket exists. *)
Definition try_lock : prog Bucket (option bool) :=
  let! k := load killed in
  if k : bool then Ret (Some false)
  else
    let! l := load locked in
    if l : bool then Ret None else modify (set_locked true) ;; Ret (Some true).

(** [Reader::try_lock] *)
Definition reader_try_lock : prog Bucket (option bool) :=
  let! l := load locked in
  if l : bool then Ret None
  else
    let! k := load killed in
    if k : bool then Ret (Some false) else modify (set_locked true) ;; Ret (Some true).

(** [Locker::lock], [Reader::lock]: to wait for a lock that only this thread can release
    is a deadlock. *)
Definition lock : prog Bucket bool :=
  let! r := try_lock in match r with Some l => Ret l | None => Panic end.
Definition reader_lock : prog Bucket bool :=
  let! r := reader_try_lock in match r with Some l => Ret l | None => Panic end.

(** The drop of a [Locker], [Reader::release]. *)
Definition unlock : prog Bucket unit :=
  let! l := load locked in
  if l : bool then modify (set_locked false) else Panic.

(** [insert_entry_with], once the constructor was called. *)
Definition insert_entry_with (p : option nat) (index : nat) (partial_hash : Z) (kv : K * V) :
    prog Bucket unit :=
  write_slot p index kv ;;
  store_meta p (set_hash index partial_hash) ;;
  store_meta p (λ m, set_occupied (Z.lor (occupied_bitmap m) (one_shl index)) m).

(** Where a new entry goes: a free slot, if there is one. *)
Definition free_slot (n : nat) : prog Bucket (option (option nat * nat)) :=
  let! num := load num_entries in
  if num =? u32_max then Panic
  else
    let! m := load_meta None in
    let free_index := trailing_ones 32 (occupied_bitmap m) in
    if (free_index =? BUCKET_LEN)%nat then
      loop n (λ link_ptr,
        match link_ptr with
        | Some i =>
            let! m := load_meta (Some i) in
            let free_index := trailing_ones 32 (occupied_bitmap m) in
            if (free_index =? LINKED_BUCKET_LEN)%nat then Ret (Continue (link m))
            else Ret (Break (Some (Some i, free_index)))
        | None => Ret (Break None)
        end) (link m)
    else Ret (Some (None, free_index)).

(** A new linked bucket with one entry at the head of the list. *)
Definition insert_linked (partial_hash : Z) (kv : K * V) : prog Bucket EntryPtr :=
  let! m := load_meta None in
  let head := link m in
  let! i := Act (λ b, let i := fresh (dom (links b)) in
                      (i, set_links (<[i := linked_bucket_new head]> (links b)) b)) Ret in
  write_slot (Some i) 0 kv ;;
  store_meta (Some i) (set_hash 0 partial_hash) ;;
  store_meta (Some i) (set_occupied 1) ;;
  let! m := load_meta (Some i) in
  (match link m with
   | Some head =>
       load_linked head ;;
       modify (λ b, set_links (alter (set_prev_link (Some i)) head (links b)) b)
   | None => Ret ()
   end) ;;
  swap_link None (Some i) ;;
  inc_entries ;;
  Ret {| current_link_ptr := Some i; current_index := Some O |}.

Definition insert_at (slot : option (option nat * nat)) (partial_hash : Z) (kv : K * V) :
    prog Bucket EntryPtr :=
  match slot with
  | Some (p, index) =>
      insert_entry_with p index partial_hash kv ;;
      inc_entries ;;
      Ret {| current_link_ptr := p; current_index := Some index |}
  | None => insert_linked partial_hash kv
  end.

(** [insert_with] in a program on a larger state, [z] giving access to the bucket: the
    constructor runs after a slot was found and before it is written; the [X] is what it
    changes besides. *)
Definition insert_with {St X} (z : ∀ {R}, prog Bucket R → prog St R) (n : nat) (partial_hash : Z)
    (constructor : prog St ((K * V) * X)) : prog St (EntryPtr * X) :=
  let! slot := z (free_slot n) in
  let! r := constructor in
  let! ptr := z (insert_at slot partial_hash r.1) in
  Ret (ptr, r.2).

(** ** The LRU list *)

Definition zoom_lru {R} : prog DoublyLinkedList R → prog Bucket R := zoom (λ b, Some (lru_list b)) set_lru_list.

(** The new tail, if there is one, is stored. *)
Definition store_tail (r : option nat) : prog Bucket unit :=
  match r with
  | Some new_tail => store_meta None (set_removed (Z.of_nat new_tail))
  | None => Ret ()
  end.

Definition evict_lru_head : prog Bucket (option (K * V)) :=
  dassert (bool_decide (TYPE = CACHE)) ;;
  let! m := load_meta None in
  if occupied_bitmap m =? u32_max then
    dec_entries ;;
    let tail := removed_bitmap_or_lru_tail m in
    let! r := zoom_lru (lru_evict (Z.to_nat tail)) in
    let! evicted :=
      match r with
      | Some (evicted, new_tail) => store_tail (Some new_tail) ;; Ret evicted
      | None => Ret O
      end in
    let! m := load_meta None in
    dassert (negb (Z.land (occupied_bitmap m) (one_shl evicted) =? 0)) ;;
    store_meta None (λ m, set_occupied (Z.land (occupied_bitmap m) (unot 32 (one_shl evicted))) m) ;;
    let! kv := move_slot None evicted in
    Ret (Some kv)
  else Ret None.

Definition update_lru_tail (p : EntryPtr) : prog Bucket unit :=
  dassert (bool_decide (TYPE = CACHE)) ;;
  match current_index p with
  | None => Panic
  | Some index =>
      dassert (negb (index =? BUCKET_LEN)%nat) ;;
      match current_link_ptr p with
      | None =>
          let! m := load_meta None in
          let! r := zoom_lru (lru_promote (Z.to_nat (removed_bitmap_or_lru_tail m)) index) in
          store_tail r
      | Some _ => Ret ()
      end
  end.

Definition remove_from_lru_list (p : EntryPtr) : prog Bucket unit :=
  dassert (bool_decide (TYPE = CACHE)) ;;
  match current_index p with
  | None => Panic
  | Some index =>
      dassert (negb (index =? BUCKET_LEN)%nat) ;;
      match current_link_ptr p with
      | None =>
          let! m := load_meta None in
          let! r := zoom_lru (lru_remove (Z.to_nat (removed_bitmap_or_lru_tail m)) index) in
          store_tail r
      | Some _ => Ret ()
      end
  end.

(** ** Removal *)

(** The bit of a slot in the occupied bitmap. *)
Definition set_bit_occupied (p : option nat) (i : nat) : prog Bucket unit :=
  store_meta p (λ m, set_occupied (Z.lor (occupied_bitmap m) (one_shl i)) m).
Definition clear_bit_occupied (p : option nat) (i : nat) : prog Bucket unit :=
  store_meta p (λ m, set_occupied (Z.land (occupied_bitmap m) (unot 32 (one_shl i))) m).

Definition erase (self : EntryPtr) : prog Bucket (option (K * V)) :=
  match current_index self with
  | None => Panic
  | Some index =>
      dassert (negb (index =? BUCKET_LEN)%nat) ;;
      dec_entries ;;
      let p := current_link_ptr self in
      let! m := load_meta p in
      if decide (TYPE = OPTIMISTIC) then
        dassert (Z.land (removed_bitmap_or_lru_tail m) (one_shl index) =? 0) ;;
        store_meta p (λ m, set_removed (Z.lor (removed_bitmap_or_lru_tail m) (one_shl index)) m) ;;
        Ret None
      else
        dassert (negb (Z.land (occupied_bitmap m) (one_shl index) =? 0)) ;;
        (if decide (TYPE = CACHE ∧ p = None) then remove_from_lru_list self else Ret ()) ;;
        clear_bit_occupied p index ;;
        let! kv := move_slot p index in
        Ret (Some kv)
  end.

(** [pred] consumes the value, or gives one back. *)
Definition keep_or_consume (self : EntryPtr) (pred : K → V → option V) : prog Bucket bool :=
  dassert (negb (bool_decide (TYPE = OPTIMISTIC))) ;;
  match current_index self with
  | None => Panic
  | Some index =>
      dec_entries ;;
      let p := current_link_ptr self in
      let! m := load_meta p in
      dassert (negb (Z.land (occupied_bitmap m) (one_shl index) =? 0)) ;;
      let! kv := move_slot p index in
      clear_bit_occupied p index ;;
      match pred kv.1 kv.2 with
      | Some v =>
          write_slot p index (kv.1, v) ;;
          set_bit_occupied p index ;;
          inc_entries ;;
          Ret false
      | None => Ret true
      end
  end.

(** [extract_entry] *)
Definition extract_entry (p : option nat) (index : nat) : prog Bucket (K * V) :=
  dassert (index <? block_len p)%nat ;;
  dec_entries ;;
  clear_bit_occupied p index ;;
  move_slot p index.

Definition extract (self : EntryPtr) : prog Bucket ((K * V) * EntryPtr) :=
  dassert (negb (bool_decide (TYPE = OPTIMISTIC))) ;;
  match current_index self with
  | None => Panic
  | Some index =>
      let! extracted := extract_entry (current_link_ptr self) index in
      match current_link_ptr self with
      | Some i =>
          let! m := load_meta (Some i) in
          if occupied_bitmap m =? 0 then
            let! self := unlink self i in Ret (extracted, self)
          else Ret (extracted, self)
      | None => Ret (extracted, self)
      end
  end.
End Bucket.

Arguments DataBlock : clear implicits.
Arguments LinkedBucket : clear implicits.
Arguments Bucket : clear implicits.
