(* ===== verification/BucketInv.v ===== *)
(** * The invariant of a bucket

    A bucket's memory is described by the list of its linked buckets and by two finite
    maps from positions (a block and an index) to entries: those that occupy a slot,
    and those among them that can be found.  They differ for an [OPTIMISTIC] bucket
    only, which keeps the entries that were removed until it is dropped. *)
From S2P Require Import Prelude Atomic Lru Bucket.

Local Open Scope Z_scope.

(** A position: a block and an index in it. *)
Notation pos := (option nat * nat)%type.

Section Invariant.
Context {K V : Type} `{EqDecision K} (TYPE : bucket_type).

(** The partial hash of a key. *)
Context (ph : K → Z).

(** ** One block *)

Definition slot (d : list (option (K * V))) (i : nat) : option (K * V) := o ← d !! i; o.

Definition occ_in (m : Metadata) (d : list (option (K * V))) (i : nat) : option (K * V) :=
  if bit (occupied_bitmap m) i then slot d i else None.
Definition live_in (m : Metadata) (d : list (option (K * V))) (i : nat) : option (K * V) :=
  if bit (reachable_bitmap TYPE m) i then slot d i else None.

Record block_ok (p : option nat) (m : Metadata) (d : list (option (K * V))) : Prop := {
  bo_hashes : length (partial_hash_array m) = block_len p;
  bo_data : length d = block_len p;
  bo_occ : in_word (block_len p) (occupied_bitmap m);
  bo_rem : TYPE = OPTIMISTIC → ∀ i,
    bit (removed_bitmap_or_lru_tail m) i = true → bit (occupied_bitmap m) i = true;
  bo_slot : ∀ i, bit (occupied_bitmap m) i = true →
    ∃ kv, slot d i = Some kv ∧ partial_hash_array m !! i = Some (ph kv.1)
}.

Lemma block_len_le p : (block_len p ≤ 32)%nat.
Proof. destruct p; vm_compute; lia. Qed.

Lemma occ_lt p m d i : block_ok p m d → bit (occupied_bitmap m) i = true → (i < block_len p)%nat.
Proof. intros Hb. apply bit_true_lt, Hb. Qed.

Lemma bit_reachable m i :
  bit (reachable_bitmap TYPE m) i = bit (occupied_bitmap m) i &&
    (negb (bool_decide (TYPE = OPTIMISTIC)) || (bool_decide (i < 32)%nat && negb (bit (removed_bitmap_or_lru_tail m) i))).
Proof.
  unfold reachable_bitmap. case_decide as Ht.
  - rewrite bool_decide_true by done. by rewrite bit_land, bit_unot.
  - rewrite bool_decide_false by done. by rewrite andb_true_r.
Qed.

Lemma reachable_occ m i : bit (reachable_bitmap TYPE m) i = true → bit (occupied_bitmap m) i = true.
Proof. rewrite bit_reachable. by intros [? _]%andb_prop. Qed.

Lemma reachable_lt p m d i :
  block_ok p m d → bit (reachable_bitmap TYPE m) i = true → (i < block_len p)%nat.
Proof. intros Hb Hr. eapply occ_lt; [done | by apply reachable_occ]. Qed.

Lemma in_word_reachable m : in_word 32 (occupied_bitmap m) → in_word 32 (reachable_bitmap TYPE m).
Proof. unfold reachable_bitmap. case_decide; auto with word. Qed.

Lemma bo_occ32 p m d : block_ok p m d → in_word 32 (occupied_bitmap m).
Proof. intros Hb. eapply in_word_le; [| apply Hb]. apply block_len_le. Qed.

Lemma live_in_occ m d i kv : live_in m d i = Some kv → occ_in m d i = Some kv.
Proof.
  unfold live_in, occ_in. destruct (bit (reachable_bitmap TYPE m) i) eqn:Hr; [| done].
  by rewrite (reachable_occ _ _ Hr).
Qed.

Lemma live_in_Some p m d i :
  block_ok p m d → is_Some (live_in m d i) ↔ bit (reachable_bitmap TYPE m) i = true.
Proof.
  intros Hb. unfold live_in. destruct (bit (reachable_bitmap TYPE m) i) eqn:Hr.
  - destruct (bo_slot _ _ _ Hb i (reachable_occ _ _ Hr)) as (kv & -> & _). split; eauto.
  - split; [by intros [? ?] | done].
Qed.

Lemma live_in_seq p m d i :
  TYPE ≠ OPTIMISTIC → block_ok p m d → live_in m d i = occ_in m d i.
Proof.
  intros Ht Hb. unfold live_in, occ_in. rewrite bit_reachable, bool_decide_false by done.
  by rewrite andb_true_r.
Qed.

(** ** The linked buckets *)

(** The linked buckets from [p] on, [prev] being the block before. *)
Fixpoint chained (ls : gmap nat (LinkedBucket K V)) (prev p : option nat) (cs : list nat) : Prop :=
  match cs with
  | [] => p = None
  | c :: cs =>
      p = Some c ∧ ∃ lb, ls !! c = Some lb ∧ prev_link lb = prev ∧
        chained ls (Some c) (link (metadata lb)) cs
  end.

Definition has (p : option nat) (b : Bucket K V) : Prop :=
  match p with None => True | Some i => is_Some (links b !! i) end.

(** The LRU list of a [CACHE] bucket. *)
Definition lru_ok (b : Bucket K V) (l : list nat) : Prop :=
  0 ≤ removed_bitmap_or_lru_tail (main b) ∧
  rep (lru_list b) (Z.to_nat (removed_bitmap_or_lru_tail (main b))) l.

(** The linked buckets are [cs], from the first to the last; [O] are the entries that
    occupy a slot and [M] those that can be found. *)
Record wf (b : Bucket K V) (cs : list nat) (O M : gmap pos (K * V)) : Prop := {
  wf_nodup : NoDup cs;
  wf_dom : ∀ i, is_Some (links b !! i) ↔ i ∈ cs;
  wf_chain : chained (links b) None (link (main b)) cs;
  wf_block : ∀ p m d, get_meta p b = Some m → get_block p b = Some d → block_ok p m d;
  wf_occ : ∀ p i m d, get_meta p b = Some m → get_block p b = Some d → O !! (p, i) = occ_in m d i;
  wf_live : ∀ p i m d, get_meta p b = Some m → get_block p b = Some d → M !! (p, i) = live_in m d i;
  wf_out : ∀ p i, ¬ has p b → O !! (p, i) = None ∧ M !! (p, i) = None;
  wf_num : num_entries b = Z.of_nat (size M);
  wf_max : num_entries b ≤ u32_max;
  wf_lru : TYPE = CACHE → ∃ l, lru_ok b l
}.

(** ** The blocks of a bucket *)

Implicit Types (b : Bucket K V) (O M : gmap pos (K * V)) (m : Metadata) (d : list (option (K * V)))
  (n : Z) (p q : option nat) (i : nat) (cs : list nat).

Lemma has_block p b : has p b → ∃ m d, get_meta p b = Some m ∧ get_block p b = Some d.
Proof. destruct p as [i |]; cbn; [intros [lb ->] |]; eauto. Qed.

Lemma get_meta_has p b m : get_meta p b = Some m → has p b.
Proof. destruct p as [i |]; cbn; [| done]. destruct (links b !! i); [eauto | done]. Qed.

Lemma get_meta_block p b m : get_meta p b = Some m → ∃ d, get_block p b = Some d.
Proof. intros (m' & d & _ & Hd)%get_meta_has%has_block. eauto. Qed.

(** A bucket of which one block and the number of entries are replaced. *)
Definition put_block (p : option nat) (m : Metadata) (d : list (option (K * V))) (n : Z) (b : Bucket K V) : Bucket K V :=
  match p with
  | None =>
      {| killed := killed b; locked := locked b; num_entries := n; main := m; main_block := d;
         lru_list := lru_list b; links := links b; dropped := dropped b |}
  | Some i =>
      {| killed := killed b; locked := locked b; num_entries := n; main := main b;
         main_block := main_block b; lru_list := lru_list b;
         links := alter (λ l, {| metadata := m; data_block := d; prev_link := prev_link l |}) i (links b);
         dropped := dropped b |}
  end.

Lemma has_put_block p q m d n b : has q (put_block p m d n b) ↔ has q b.
Proof.
  destruct q as [j |], p as [i |]; cbn; [| done..].
  destruct (decide (i = j)) as [-> | Hne].
  - rewrite lookup_alter_eq. apply fmap_is_Some.
  - by rewrite lookup_alter_ne.
Qed.

Lemma get_meta_put_block p q m d n b :
  has p b → get_meta q (put_block p m d n b) = if decide (q = p) then Some m else get_meta q b.
Proof.
  intros Hp. destruct p as [i |], q as [j |]; cbn in *.
  - destruct (decide (j = i)) as [-> | Hne].
    + rewrite decide_True by done. rewrite lookup_alter_eq. by destruct Hp as [lb ->].
    + rewrite decide_False by congruence. by rewrite lookup_alter_ne.
  - by rewrite decide_False.
  - by rewrite decide_False.
  - by rewrite decide_True.
Qed.

Lemma get_block_put_block p q m d n b :
  has p b → get_block q (put_block p m d n b) = if decide (q = p) then Some d else get_block q b.
Proof.
  intros Hp. destruct p as [i |], q as [j |]; cbn in *.
  - destruct (decide (j = i)) as [-> | Hne].
    + rewrite decide_True by done. rewrite lookup_alter_eq. by destruct Hp as [lb ->].
    + rewrite decide_False by congruence. by rewrite lookup_alter_ne.
  - by rewrite decide_False.
  - by rewrite decide_False.
  - by rewrite decide_True.
Qed.

Lemma put_block_id p m d b :
  get_meta p b = Some m → get_block p b = Some d → put_block p m d (num_entries b) b = b.
Proof.
  destruct p as [i |], b as [k l n mn mb lr ls dr]; cbn; [| congruence].
  destruct (ls !! i) as [[m0 d0 pl] |] eqn:Hi; [| done]. cbn. intros [= ->] [= ->]. f_equal.
  apply map_eq. intros j. destruct (decide (i = j)) as [<- | Hne].
  - by rewrite lookup_alter_eq, Hi.
  - by rewrite lookup_alter_ne.
Qed.

Lemma put_meta_put_block p f m d n b : put_meta p f (put_block p m d n b) = put_block p (f m) d n b.
Proof.
  destruct p as [i |]; [| done]. unfold put_block, put_meta, set_links. cbn. f_equal.
 apply map_eq. intros j. destruct (decide (i = j)) as [<- | Hne].
  - rewrite !lookup_alter_eq. by destruct (links b !! i).
  - by rewrite !lookup_alter_ne by done.
Qed.

Lemma put_slot_put_block p j x m d n b :
  put_slot p j x (put_block p m d n b) = put_block p m (<[j := x]> d) n b.
Proof.
  destruct p as [i |]; [| done]. unfold put_block, put_slot, set_links. cbn. f_equal.
 apply map_eq. intros i'. destruct (decide (i = i')) as [<- | Hne].
  - rewrite !lookup_alter_eq. by destruct (links b !! i).
  - by rewrite !lookup_alter_ne by done.
Qed.

Lemma set_num_put_block p n' m d n b : set_num_entries n' (put_block p m d n b) = put_block p m d n' b.
Proof. by destruct p. Qed.

Lemma num_entries_put_block p m d n b : num_entries (put_block p m d n b) = n.
Proof. by destruct p. Qed.

Lemma flags_put_block p m d n b :
  killed (put_block p m d n b) = killed b ∧ locked (put_block p m d n b) = locked b ∧
  dropped (put_block p m d n b) = dropped b ∧ lru_list (put_block p m d n b) = lru_list b.
Proof. by destruct p. Qed.

(** ** Steps on one block *)

Section Steps.
Lemma runs_bucket_modify {R} f (k : unit → prog (Bucket K V) R) b (Q : R → Bucket K V → Prop) :
  runs (k ()) (f b) Q → runs (bind (modify f) k) b Q.
Proof. done. Qed.

Lemma runs_load_meta {R} p m (k : Metadata → prog (Bucket K V) R) b (Q : R → Bucket K V → Prop) :
  get_meta p b = Some m → runs (k m) b Q → runs (bind (load_meta p) k) b Q.
Proof. intros Hm Hr. apply runs_act. cbn [fst snd]. by rewrite Hm. Qed.

Lemma runs_load_slot {R} p i kv (k : K * V → prog (Bucket K V) R) b (Q : R → Bucket K V → Prop) :
  get_slot p i b = Some kv → runs (k kv) b Q → runs (bind (load_slot p i) k) b Q.
Proof. intros Hm Hr. apply runs_act. cbn [fst snd]. by rewrite Hm. Qed.

Lemma runs_load_linked {R} i lb (k : LinkedBucket K V → prog (Bucket K V) R) b (Q : R → Bucket K V → Prop) :
  links b !! i = Some lb → runs (k lb) b Q → runs (bind (load_linked i) k) b Q.
Proof. intros Hm Hr. apply runs_act. cbn [fst snd]. by rewrite Hm. Qed.

Lemma runs_store_meta {R} p f m (k : unit → prog (Bucket K V) R) b (Q : R → Bucket K V → Prop) :
  get_meta p b = Some m → runs (k ()) (put_meta p f b) Q → runs (bind (store_meta p f) k) b Q.
Proof.
  intros Hm Hr. unfold store_meta. apply runs_bind. eapply runs_load_meta; [done |].
  apply runs_act. exact Hr.
Qed.

Context (p : option nat) (b : Bucket K V) (Hp : has p b).

Lemma get_meta_pb m d n : get_meta p (put_block p m d n b) = Some m.
Proof. rewrite get_meta_put_block by done. by rewrite decide_True. Qed.

Lemma get_block_pb m d n : get_block p (put_block p m d n b) = Some d.
Proof. rewrite get_block_put_block by done. by rewrite decide_True. Qed.

Lemma get_slot_pb i m d n : get_slot p i (put_block p m d n b) = slot d i.
Proof. unfold get_slot. by rewrite get_block_pb. Qed.

Lemma runs_load_meta_pb {R} m d n (k : Metadata → prog (Bucket K V) R) (Q : R → Bucket K V → Prop) :
  runs (k m) (put_block p m d n b) Q → runs (bind (load_meta p) k) (put_block p m d n b) Q.
Proof. apply runs_load_meta, get_meta_pb. Qed.

Lemma runs_store_meta_pb {R} f m d n (k : unit → prog (Bucket K V) R) (Q : R → Bucket K V → Prop) :
  runs (k ()) (put_block p (f m) d n b) Q →
  runs (bind (store_meta p f) k) (put_block p m d n b) Q.
Proof.
  intros Hr. eapply runs_store_meta; [apply get_meta_pb |]. by rewrite put_meta_put_block.
Qed.

Lemma runs_move_slot_pb {R} i kv m d n (k : K * V → prog (Bucket K V) R) (Q : R → Bucket K V → Prop) :
  slot d i = Some kv →
  runs (k kv) (put_block p m (<[i := None]> d) n b) Q →
  runs (bind (move_slot p i) k) (put_block p m d n b) Q.
Proof.
  intros Hs Hr. unfold move_slot. apply runs_bind. apply (runs_load_slot _ _ kv).
  { by rewrite get_slot_pb. }
  apply runs_act. cbn [fst snd]. apply runs_ret. by rewrite put_slot_put_block.
Qed.

Lemma runs_write_slot_pb {R} i kv m d n (k : unit → prog (Bucket K V) R) (Q : R → Bucket K V → Prop) :
  (i < length d)%nat →
  runs (k ()) (put_block p m (<[i := Some kv]> d) n b) Q →
  runs (bind (write_slot p i kv) k) (put_block p m d n b) Q.
Proof.
  intros Hs Hr. unfold write_slot. apply runs_bind. apply runs_act. cbn [fst snd].
  rewrite get_block_pb, decide_True by done. apply runs_act. cbn [fst snd]. apply runs_ret.
  by rewrite put_slot_put_block.
Qed.

Lemma runs_inc_pb {R} m d n (k : unit → prog (Bucket K V) R) (Q : R → Bucket K V → Prop) :
  n ≠ u32_max → runs (k ()) (put_block p m d (n + 1) b) Q →
  runs (bind inc_entries k) (put_block p m d n b) Q.
Proof.
  intros Hn Hr. unfold inc_entries. apply runs_act. cbn [fst snd].
  rewrite num_entries_put_block. apply Z.eqb_neq in Hn as ->. apply runs_act. cbn [fst snd].
  by rewrite set_num_put_block.
Qed.

Lemma runs_dec_pb {R} m d n (k : unit → prog (Bucket K V) R) (Q : R → Bucket K V → Prop) :
  n ≠ 0 → runs (k ()) (put_block p m d (n - 1) b) Q →
  runs (bind dec_entries k) (put_block p m d n b) Q.
Proof.
  intros Hn Hr. unfold dec_entries. apply runs_act. cbn [fst snd].
  rewrite num_entries_put_block. apply Z.eqb_neq in Hn as ->. apply runs_act. cbn [fst snd].
  by rewrite set_num_put_block.
Qed.
End Steps.

(** ** Changes of one block *)

Lemma chained_ext ls ls' prev p cs :
  (∀ i lb, i ∈ cs → ls !! i = Some lb → ∃ lb', ls' !! i = Some lb' ∧ prev_link lb' = prev_link lb ∧
     link (metadata lb') = link (metadata lb)) →
  chained ls prev p cs → chained ls' prev p cs.
Proof.
  revert prev p. induction cs as [| c cs IH]; intros prev p Hext; cbn; [done |].
  intros (-> & lb & Hlb & Hprev & Hc). split; [done |].
  destruct (Hext c lb ltac:(left) Hlb) as (lb' & Hlb' & Hp' & Hl'). exists lb'.
  rewrite Hp', Hl'. split; [done |]. split; [done |]. apply IH; [| done].
  intros i lb1 Hi. apply Hext. by right.
Qed.

(** A bucket of which the LRU list is replaced as well. *)
Lemma wf_put_block b cs O M p m0 m d (n : Z) (s : DoublyLinkedList) (O' M' : gmap pos (K * V)) :
  wf b cs O M → get_meta p b = Some m0 → link m = link m0 → block_ok p m d →
  (∀ i, O' !! (p, i) = occ_in m d i) → (∀ q i, q ≠ p → O' !! (q, i) = O !! (q, i)) →
  (∀ i, M' !! (p, i) = live_in m d i) → (∀ q i, q ≠ p → M' !! (q, i) = M !! (q, i)) →
  n = Z.of_nat (size M') → n ≤ u32_max →
  (TYPE = CACHE → ∃ l, lru_ok (put_block p m d n (set_lru_list s b)) l) →
  wf (put_block p m d n (set_lru_list s b)) cs O' M'.
Proof.
  intros Hwf Hm Hlink Hb HO HO' HM HM' Hn Hmax Hlru.
  pose proof (get_meta_has _ _ _ Hm) as Hp.
  assert (Hp' : has p (set_lru_list s b)) by exact Hp.
  constructor; [apply Hwf | | | | | | | by rewrite num_entries_put_block.. | exact Hlru].
  - intros i. rewrite <-(wf_dom _ _ _ _ Hwf).
    exact (has_put_block p (Some i) m d n (set_lru_list s b)).
  - destruct p as [i |]; cbn in *.
    + eapply chained_ext; [| apply Hwf]. intros j lb _ Hj.
      destruct (decide (i = j)) as [<- | Hne].
      * rewrite lookup_alter_eq, Hj. rewrite Hj in Hm. injection Hm as <-. cbn. eauto.
      * rewrite lookup_alter_ne by done. eauto.
    + rewrite Hlink. injection Hm as <-. apply Hwf.
  - intros q m' d' Hm' Hd'. rewrite get_meta_put_block in Hm' by done.
    rewrite get_block_put_block in Hd' by done. case_decide; simplify_eq; [done |].
    by apply (wf_block _ _ _ _ Hwf).
  - intros q i m' d' Hm' Hd'. rewrite get_meta_put_block in Hm' by done.
    rewrite get_block_put_block in Hd' by done. case_decide; simplify_eq; [done |].
    rewrite HO' by done. by apply (wf_occ _ _ _ _ Hwf).
  - intros q i m' d' Hm' Hd'. rewrite get_meta_put_block in Hm' by done.
    rewrite get_block_put_block in Hd' by done. case_decide; simplify_eq; [done |].
    rewrite HM' by done. by apply (wf_live _ _ _ _ Hwf).
  - intros q i Hq. rewrite has_put_block in Hq.
    assert (q ≠ p) by (intros ->; done). rewrite HO', HM' by done.
    by apply (wf_out _ _ _ _ Hwf).
Qed.

Lemma wf_has b cs O M p : wf b cs O M → has p b ↔ p ∈ None :: (Some <$> cs).
Proof.
  intros Hwf. rewrite elem_of_cons, list_elem_of_fmap. destruct p as [i |]; cbn.
  - rewrite (wf_dom _ _ _ _ Hwf). split; [eauto |]. intros [? | (j & [= ->] & ?)]; done.
  - tauto.
Qed.

Lemma wf_lookup b cs O M p i kv :
  wf b cs O M → M !! (p, i) = Some kv →
  ∃ m d, get_meta p b = Some m ∧ get_block p b = Some d ∧ block_ok p m d ∧
    bit (reachable_bitmap TYPE m) i = true ∧ slot d i = Some kv ∧ (i < block_len p)%nat.
Proof.
  intros Hwf HM. destruct (decide (is_Some (get_meta p b))) as [[m Hm] | Hn].
  2:{ destruct (wf_out _ _ _ _ Hwf p i) as [_ Ho]; [| congruence].
      intros (m & d & Hm & _)%has_block. eauto. }
  destruct (get_meta_block _ _ _ Hm) as [d Hd]. exists m, d.
  pose proof (wf_block _ _ _ _ Hwf p m d Hm Hd) as Hb.
  rewrite (wf_live _ _ _ _ Hwf p i m d Hm Hd) in HM. unfold live_in in HM.
  destruct (bit (reachable_bitmap TYPE m) i) eqn:Hr; [| done].
  split_and!; try done. by eapply reachable_lt.
Qed.

Lemma wf_sub b cs O M : wf b cs O M → M ⊆ O.
Proof.
  intros Hwf. apply map_subseteq_spec. intros [p i] kv HM.
  destruct (wf_lookup _ _ _ _ _ _ _ Hwf HM) as (m & d & Hm & Hd & _).
  rewrite (wf_live _ _ _ _ Hwf p i m d Hm Hd) in HM.
  rewrite (wf_occ _ _ _ _ Hwf p i m d Hm Hd). by apply live_in_occ.
Qed.

Lemma wf_same b cs O M : TYPE ≠ OPTIMISTIC → wf b cs O M → O = M.
Proof.
  intros Ht Hwf. apply map_eq. intros [p i].
  destruct (decide (is_Some (get_meta p b))) as [[m Hm] | Hn].
  - destruct (get_meta_block _ _ _ Hm) as [d Hd].
    rewrite (wf_occ _ _ _ _ Hwf p i m d Hm Hd), (wf_live _ _ _ _ Hwf p i m d Hm Hd).
    symmetry. eapply live_in_seq; [done | by eapply wf_block].
  - destruct (wf_out _ _ _ _ Hwf p i) as [-> ->]; [| done].
    intros (m & d & Hm & _)%has_block. eauto.
Qed.

Lemma wf_empty_num b cs O M : wf b cs O M → num_entries b = 0 ↔ M = ∅.
Proof.
  intros Hwf. rewrite (wf_num _ _ _ _ Hwf). rewrite <-map_size_empty_iff. lia.
Qed.
End Invariant.
