(* ===== verification/BucketQuery.v ===== *)
(** * Queries on a bucket

    [search], [get] and [EntryPtr::next] answer what the map of the invariant says, and
    change nothing. *)
From S2P Require Import Prelude Atomic Lru Bucket BucketInv.

Local Open Scope Z_scope.

(** The pointer to a position. *)
Definition ptr_of (q : pos) : EntryPtr :=
  {| current_link_ptr := q.1; current_index := Some q.2 |}.

Section Query.
Context {K V : Type} `{EqDecision K} (TYPE : bucket_type) (ph : K → Z).

Implicit Types (b : Bucket K V) (O M : gmap pos (K * V)) (m : Metadata) (d : list (option (K * V)))
  (n : nat) (p : option nat) (q : pos) (i : nat) (cs : list nat) (kv : K * V).

Local Notation wf := (wf TYPE ph).
Local Notation block_ok := (block_ok TYPE ph).

(** No entry has the key. *)
Definition absent (M : gmap pos (K * V)) (key : K) : Prop := ∀ q kv, M !! q = Some kv → kv.1 ≠ key.

(** ** One block *)

Lemma bit_matching len m h i :
  bit (matching len m h) i = bool_decide (i < len)%nat && bool_decide (partial_hash_array m !! i = Some h).
Proof.
  unfold matching. induction len as [| len IH]; [by rewrite bool_decide_false by lia; apply bit_0 |].
  rewrite seq_S, foldl_app. cbn [foldl Nat.add]. set (x := foldl _ _ _) in *.
  transitivity (bit x i || (bool_decide (len = i) && bool_decide (partial_hash_array m !! i = Some h))).
  - destruct (decide (partial_hash_array m !! len = Some h)) as [Hd | Hd].
    + rewrite bit_lor, bit_one_shl. destruct (bool_decide_reflect (len = i)) as [<- |]; [| by cbn].
      by rewrite (bool_decide_true _ Hd).
    + destruct (bool_decide_reflect (len = i)) as [<- |]; [| by rewrite orb_false_r].
      rewrite (bool_decide_false _ Hd). by rewrite orb_false_r.
  - rewrite IH. destruct (bool_decide (partial_hash_array m !! i = Some h)); [| by rewrite !andb_false_r].
    rewrite !andb_true_r.
    repeat match goal with |- context [bool_decide ?P] => destruct (bool_decide_reflect P) end; done || lia.
Qed.

Lemma runs_search_entry b p m d key :
  get_block p b = Some d → block_ok p m d →
  runs (search_entry TYPE p m key (ph key)) b (λ r b', b' = b ∧
    match r with
    | Some (i, kv) => live_in TYPE m d i = Some kv ∧ kv.1 = key
    | None => ∀ i kv, live_in TYPE m d i = Some kv → kv.1 ≠ key
    end).
Proof.
  intros Hd Hb. unfold search_entry. set (bm := Z.land _ _).
  assert (Hslot : ∀ i, i ∈ bits_of 32 bm →
    live_in TYPE m d i = slot d i ∧ ∃ kv, slot d i = Some kv).
  { intros i [_ Hi]%elem_of_bits_of. unfold bm in Hi. rewrite bit_land in Hi. apply andb_prop in Hi as [Hr _].
    unfold live_in. rewrite Hr. split; [done |].
    destruct (bo_slot _ _ _ _ _ Hb i (reachable_occ _ _ _ Hr)) as (kv & ? & _). eauto. }
  assert (Hall : ∀ i kv, live_in TYPE m d i = Some kv → kv.1 = key → i ∈ bits_of 32 bm).
  { intros i kv Hl Hk. assert (Hr : bit (reachable_bitmap TYPE m) i = true).
    { unfold live_in in Hl. by destruct (bit _ i). }
    pose proof (reachable_lt _ _ _ _ _ _ Hb Hr) as Hi. pose proof (block_len_le p).
    apply elem_of_bits_of. split; [lia |]. unfold bm. rewrite bit_land, Hr, bit_matching.
    unfold live_in in Hl. rewrite Hr in Hl.
    destruct (bo_slot _ _ _ _ _ Hb i (reachable_occ _ _ _ Hr)) as (kv' & Hs & Hh).
    assert (kv' = kv) as -> by congruence. rewrite Hh, Hk.
    by rewrite !bool_decide_true by done. }
  assert (Hgen : ∀ l x n, bits_of 32 x = l → (length l < n)%nat → (∀ i, i ∈ l → ∃ kv, slot d i = Some kv) →
    runs (loop n (λ bitmap,
      let offset := trailing_zeros 32 bitmap in
      if (offset =? 32)%nat then Ret (Break None)
      else
        let! entry := load_slot p offset in
        if decide (entry.1 = key) then Ret (Break (Some (offset, entry)))
        else Ret (Continue (bitmap - one_shl offset))) x) b (λ r b', b' = b ∧
      match r with
      | Some (i, kv) => i ∈ l ∧ slot d i = Some kv ∧ kv.1 = key
      | None => ∀ i kv, i ∈ l → slot d i = Some kv → kv.1 ≠ key
      end)).
  { clear Hslot Hall. induction l as [| i l IH]; intros x n Hx Hn Hin; (destruct n as [| n]; [cbn in Hn; lia |]);
      apply runs_loop.
    - cbv zeta. rewrite (bits_of_nil _ _ Hx), Nat.eqb_refl. apply runs_ret. split; [done |].
      intros i kv Hi. by apply not_elem_of_nil in Hi.
    - destruct (bits_of_cons _ _ _ _ Hx) as (Ht & Hi & Hr). cbv zeta. rewrite Ht.
      rewrite (proj2 (Nat.eqb_neq i 32)) by lia.
      destruct (Hin i ltac:(left)) as [kv Hs].
      eapply runs_load_slot; [unfold get_slot; rewrite Hd; exact Hs |].
      case_decide as Hk; apply runs_ret.
      + split; [done |]. split; [left | done].
      + eapply runs_mono; [| apply IH; [exact Hr | cbn in Hn; lia |]].
        * intros [[j kv'] |] b' [-> Hpost]; (split; [done |]).
          -- destruct Hpost as (? & ? & ?). split; [by right | done].
          -- intros j kv' [-> | Hj]%elem_of_cons Hs'; [congruence | by eapply Hpost].
        * intros j Hj. apply Hin. by right. }
  eapply runs_mono; [| apply (Hgen (bits_of 32 bm) bm 33%nat); [done | pose proof (length_bits_of 32 bm); lia |]].
  - intros [[i kv] |] b' [-> Hpost]; (split; [done |]).
    + destruct Hpost as (Hi & Hs & Hk). destruct (Hslot i Hi) as [-> _]. done.
    + intros i kv Hl Hk. pose proof (Hall i kv Hl Hk) as Hi. destruct (Hslot i Hi) as [Heq _].
      apply (Hpost i kv Hi); [by rewrite <-Heq | done].
  - intros i Hi. by apply Hslot.
Qed.

(** ** The linked buckets *)

Lemma wf_linked b cs O M prev c cs' :
  wf b cs O M → chained (links b) prev (Some c) cs' → ∃ cs'', cs' = c :: cs''  ∧ ∃ m d,
    get_meta (Some c) b = Some m ∧ get_block (Some c) b = Some d ∧ block_ok (Some c) m d ∧
    chained (links b) (Some c) (link m) cs''.
Proof.
  intros Hwf Hc. destruct cs' as [| c' cs'']; [done |].
  destruct Hc as ([= <-] & lb & Hlb & Hp & Hc). exists cs''. split; [done |].
  exists (metadata lb), (data_block lb). cbn. rewrite Hlb. split_and!; try done.
  apply (wf_block _ _ _ _ _ _ Hwf (Some c)); cbn; by rewrite Hlb.
Qed.

Lemma runs_search_links {R} (g : nat → nat → K * V → R) (dflt : R) b cs O M key prev p cs' n :
  wf b cs O M → chained (links b) prev p cs' → (length cs' < n)%nat →
  runs (loop n (λ link_ptr,
      match link_ptr with
      | None => Ret (Break dflt)
      | Some i =>
          let! m := load_meta (Some i) in
          let! r := search_entry TYPE (Some i) m key (ph key) in
          match r with
          | Some (index, entry) => Ret (Break (g i index entry))
          | None => Ret (Continue (link m))
          end
      end) p) b (λ r b', b' = b ∧
    ((∃ c i kv, M !! (Some c, i) = Some kv ∧ kv.1 = key ∧ r = g c i kv) ∨
     ((∀ c i kv, c ∈ cs' → M !! (Some c, i) = Some kv → kv.1 ≠ key) ∧ r = dflt))).
Proof.
  intros Hwf. revert prev p n. induction cs' as [| c cs' IH]; intros prev p n Hc Hn;
    (destruct n as [| n]; [cbn in Hn; lia |]); apply runs_loop.
  - cbn in Hc. subst p. apply runs_ret. split; [done |]. right. split; [| done].
    intros c i kv Hin. by apply not_elem_of_nil in Hin.
  - pose proof Hc as [-> _].
    destruct (wf_linked _ _ _ _ _ _ _ Hwf Hc) as (cs'' & [= <-] & m & d & Hm & Hd & Hb & Hc').
    eapply runs_load_meta; [done |].
    eapply runs_call; [by eapply runs_search_entry |].
    intros [[i kv] |] b' [-> Hpost]; apply runs_ret.
    + split; [done |]. left. exists c, i, kv. rewrite (wf_live _ _ _ _ _ _ Hwf _ _ m d Hm Hd). destruct Hpost. done.
    + eapply runs_mono; [| eapply IH; [exact Hc' | cbn in Hn; lia]].
      intros r b' [-> [Hf | [Ha ->]]]; (split; [done |]); [by left | right]. split; [| done].
      intros c' i kv [-> | Hin]%elem_of_cons HM; [| by eapply Ha].
      rewrite (wf_live _ _ _ _ _ _ Hwf _ _ m d Hm Hd) in HM. by eapply Hpost.
Qed.

Lemma absent_blocks b cs O M key :
  wf b cs O M →
  (∀ i kv, M !! (None, i) = Some kv → kv.1 ≠ key) →
  (∀ c i kv, c ∈ cs → M !! (Some c, i) = Some kv → kv.1 ≠ key) → absent M key.
Proof.
  intros Hwf Hmain Hlink [[c |] i] kv HM; [| by eapply Hmain].
  eapply Hlink; [| exact HM]. destruct (wf_lookup _ _ _ _ _ _ _ _ _ Hwf HM) as (m & d & Hm & _).
  by apply get_meta_has, (wf_dom _ _ _ _ _ _ Hwf) in Hm.
Qed.

Lemma runs_bucket_get b cs O M n key :
  wf b cs O M → (length cs < n)%nat →
  runs (get TYPE n key (ph key)) b (λ r b', b' = b ∧
    ((∃ q kv, M !! q = Some kv ∧ kv.1 = key ∧ r = ptr_of q) ∨ (absent M key ∧ r = entry_ptr_new))).
Proof.
  intros Hwf Hn. unfold get. apply runs_load. destruct (Z.eqb_spec (num_entries b) 0) as [H0 | H0].
  { apply runs_ret. split; [done |]. right. split; [| done]. apply (wf_empty_num _ _ _ _ _ _ Hwf) in H0 as ->.
    intros q kv. by rewrite lookup_empty. }
  destruct (has_block None b I) as (m & d & Hm & Hd).
  pose proof (wf_block _ _ _ _ _ _ Hwf _ _ _ Hm Hd) as Hb.
  eapply runs_load_meta; [done |]. eapply runs_call; [by eapply runs_search_entry |].
  intros [[i kv] |] b' [-> Hpost].
  - apply runs_ret. split; [done |]. left. exists (None, i), kv.
    rewrite (wf_live _ _ _ _ _ _ Hwf _ _ m d Hm Hd). destruct Hpost. done.
  - injection Hm as <-. eapply runs_mono;
      [| by apply (runs_search_links (λ c i _, ptr_of (Some c, i)) entry_ptr_new b cs O M key None _ cs);
         [| apply (wf_chain _ _ _ _ _ _ Hwf) |]].
    intros r b' [-> [(c & i & kv & HM & Hk & ->) | [Ha ->]]]; (split; [done |]); [left; eauto | right].
    split; [| done]. eapply absent_blocks; [done | | done].
    intros i kv HM. rewrite (wf_live _ _ _ _ _ _ Hwf None i (main b) d eq_refl Hd) in HM. by eapply Hpost.
Qed.

Lemma runs_bucket_search b cs O M n key :
  wf b cs O M → (length cs < n)%nat →
  runs (search TYPE n key (ph key)) b (λ r b', b' = b ∧
    match r with
    | Some kv => ∃ q, M !! q = Some kv ∧ kv.1 = key
    | None => absent M key
    end).
Proof.
  intros Hwf Hn. unfold search. apply runs_load. destruct (Z.eqb_spec (num_entries b) 0) as [H0 | H0].
  { apply runs_ret. split; [done |]. apply (wf_empty_num _ _ _ _ _ _ Hwf) in H0 as ->.
    intros q kv. by rewrite lookup_empty. }
  destruct (has_block None b I) as (m & d & Hm & Hd).
  pose proof (wf_block _ _ _ _ _ _ Hwf _ _ _ Hm Hd) as Hb.
  eapply runs_load_meta; [done |]. eapply runs_call; [by eapply runs_search_entry |].
  intros [[i kv] |] b' [-> Hpost].
  - apply runs_ret. split; [done |]. exists (None, i).
    rewrite (wf_live _ _ _ _ _ _ Hwf _ _ m d Hm Hd). destruct Hpost. done.
  - injection Hm as <-. eapply runs_mono;
      [| by apply (runs_search_links (λ c i kv, Some kv) None b cs O M key None _ cs);
         [| apply (wf_chain _ _ _ _ _ _ Hwf) |]].
    intros r b' [-> [(c & i & kv & HM & Hk & ->) | [Ha ->]]]; (split; [done |]); [eauto |].
    eapply absent_blocks; [done | | done].
    intros i kv HM. rewrite (wf_live _ _ _ _ _ _ Hwf None i (main b) d eq_refl Hd) in HM. by eapply Hpost.
Qed.

Lemma is_valid_ptr b cs O M q kv :
  wf b cs O M → M !! q = Some kv → is_valid (ptr_of q) = true.
Proof.
  destruct q as [p i]. intros Hwf HM.
  destruct (wf_lookup _ _ _ _ _ _ _ _ _ Hwf HM) as (m & d & _ & _ & _ & _ & _ & Hi).
  unfold is_valid. cbn. rewrite bool_decide_false; [done |]. intros [= Heq].
  rewrite Heq in Hi. pose proof (block_len_le p). change BUCKET_LEN with 32%nat in *. lia.
Qed.

(** ** Iteration *)

(** The positions of a block from index [s] on, of the linked buckets, and after a
    pointer. *)
Definition from (p : option nat) (s : nat) : list pos := (λ i, (p, i)) <$> seq s (block_len p - s).
Definition linked_positions (cs : list nat) : list pos := concat ((λ c, from (Some c) 0) <$> cs).
Definition start (p : option nat) (index : nat) : nat := if (index =? block_len p)%nat then O else S index.

Inductive ahead (cs : list nat) : EntryPtr → list pos → Prop :=
  | ahead_main i :
      ahead cs {| current_link_ptr := None; current_index := Some i |}
        (from None (start None i) ++ linked_positions cs)
  | ahead_link cs1 c cs2 i :
      cs = cs1 ++ c :: cs2 →
      ahead cs {| current_link_ptr := Some c; current_index := Some i |}
        (from (Some c) (start (Some c) i) ++ linked_positions cs2)
  | ahead_fused p : ahead cs {| current_link_ptr := p; current_index := None |} [].

(** All the positions, in the order of an iteration. *)
Definition positions (cs : list nat) : list pos := from None 0 ++ linked_positions cs.

(** The positions of the entries. *)
Definition entries_at (M : gmap pos (K * V)) (l : list pos) : list pos := filter (λ q, is_Some (M !! q)) l.

Lemma ahead_new cs : ahead cs entry_ptr_new (positions cs).
Proof. apply (ahead_main cs BUCKET_LEN). Qed.

Lemma bit_from s i : bit (unot 32 (one_shl s - 1)) i = bool_decide (i < 32)%nat && negb (bool_decide (i < s)%nat).
Proof.
  rewrite bit_unot. f_equal. f_equal. unfold one_shl. rewrite Z.shiftl_1_l. apply bit_umax.
Qed.

Lemma next_entry_spec p m d s :
  block_ok p m d →
  let live := filter (λ i, bit (reachable_bitmap TYPE m) i = true) in
  match next_entry TYPE (block_len p) m s with
  | Some i => (i < block_len p)%nat ∧ bit (reachable_bitmap TYPE m) i = true ∧
      live (seq s (block_len p - s)) = i :: live (seq (S i) (block_len p - S i))
  | None => live (seq s (block_len p - s)) = []
  end.
Proof.
  intros Hb live. unfold next_entry. set (len := block_len p).
  pose proof (block_len_le p) as Hle. fold len in Hle.
  case_decide as Hs; [by replace (len - s)%nat with O by lia |].
  set (bm := Z.land _ _). assert (Hbm : ∀ i, bit bm i = bit (reachable_bitmap TYPE m) i &&
    (bool_decide (i < 32)%nat && negb (bool_decide (i < s)%nat))).
  { intros i. unfold bm. by rewrite bit_land, bit_from. }
  pose proof (trailing_zeros_below 32 bm) as Hlow. set (t := trailing_zeros 32 bm) in *.
  assert (Hnone : ∀ i, (s ≤ i < t)%nat → (i < 32)%nat → bit (reachable_bitmap TYPE m) i = false).
  { intros i Hi Hi32. specialize (Hlow i ltac:(lia)). rewrite Hbm in Hlow.
    rewrite bool_decide_true, bool_decide_false in Hlow by lia. by rewrite andb_true_r in Hlow. }
  case_decide as Ht.
  - assert (Hbt : bit bm t = true) by (apply trailing_zeros_bit; fold t; lia).
    rewrite Hbm in Hbt. apply andb_prop in Hbt as [Hr Hst]. apply andb_prop in Hst as [_ Hst].
    apply negb_true_iff, bool_decide_eq_false in Hst.
    split; [done |]. split; [done |].
    replace (len - s)%nat with ((t - s) + S (len - S t))%nat by lia.
    unfold live. rewrite seq_app, filter_app. replace (s + (t - s))%nat with t by lia. cbn [seq].
    rewrite filter_none, filter_cons_True by done || (intros i Hi%elem_of_seq; rewrite Hnone by lia; done).
    done.
  - apply filter_none. intros i Hi%elem_of_seq. by rewrite Hnone by lia.
Qed.

Lemma entries_from b cs O M p m d s :
  wf b cs O M → get_meta p b = Some m → get_block p b = Some d →
  entries_at M (from p s) =
    (λ i, (p, i)) <$> filter (λ i, bit (reachable_bitmap TYPE m) i = true) (seq s (block_len p - s)).
Proof.
  intros Hwf Hm Hd. pose proof (wf_block _ _ _ _ _ _ Hwf _ _ _ Hm Hd) as Hb.
  unfold entries_at, from. induction (seq s (block_len p - s)) as [| i l IH]; [done |].
  rewrite fmap_cons, !filter_cons.
  pose proof (live_in_Some _ _ _ _ _ i Hb) as Hl. rewrite <-(wf_live _ _ _ _ _ _ Hwf p i m d Hm Hd) in Hl.
  destruct (decide (is_Some (M !! (p, i)))), (decide (bit (reachable_bitmap TYPE m) i = true));
    try tauto; cbn; by rewrite IH.
Qed.

(** One block of [EntryPtr::next]. *)
Lemma ptr_next_entry_spec b cs O M p i m d :
  wf b cs O M → get_meta p b = Some m → get_block p b = Some d →
  let r := ptr_next_entry TYPE {| current_link_ptr := p; current_index := Some i |} (block_len p) i m in
  (r.1 = true ∧ ∃ j, r.2 = ptr_of (p, j) ∧ (j < block_len p)%nat ∧ is_Some (M !! (p, j)) ∧
     entries_at M (from p (start p i)) = (p, j) :: entries_at M (from p (S j))) ∨
  (r.1 = false ∧ r.2 = {| current_link_ptr := link m; current_index := Some LINKED_BUCKET_LEN |} ∧
     entries_at M (from p (start p i)) = []).
Proof.
  intros Hwf Hm Hd. pose proof (wf_block _ _ _ _ _ _ Hwf _ _ _ Hm Hd) as Hb.
  unfold ptr_next_entry. fold (start p i).
  pose proof (next_entry_spec p m d (start p i) Hb) as Hn. cbv zeta in Hn.
  destruct (next_entry TYPE (block_len p) m (start p i)) as [j |]; cbn [fst snd current_link_ptr].
  - destruct Hn as (Hj & Hr & Hl). left. split; [done |]. exists j.
    split; [done |]. split; [done |]. split.
    + rewrite (wf_live _ _ _ _ _ _ Hwf _ _ m d Hm Hd). by apply (live_in_Some _ _ _ _ _ j Hb).
    + by rewrite !(entries_from _ _ _ _ _ _ _ _ Hwf Hm Hd), Hl.
  - right. split; [done |]. split; [done |]. by rewrite (entries_from _ _ _ _ _ _ _ _ Hwf Hm Hd), Hn.
Qed.

(** What [next] answers: the next entry, if there is one. *)
Definition next_post (M : gmap pos (K * V)) cs (l : list pos) (r : bool * EntryPtr) : Prop :=
  match entries_at M l with
  | q :: l' => r.1 = true ∧ r.2 = ptr_of q ∧ ∃ l'', ahead cs r.2 l'' ∧ entries_at M l'' = l'
  | [] => r.1 = false ∧ ahead cs r.2 []
  end.

Lemma entries_app M l1 l2 : entries_at M (l1 ++ l2) = entries_at M l1 ++ entries_at M l2.
Proof. apply filter_app. Qed.

Lemma start_lt p j : (j < block_len p)%nat → start p j = S j.
Proof. intros Hj. unfold start. by rewrite (proj2 (Nat.eqb_neq _ _)) by lia. Qed.

Lemma runs_next_links b cs O M n prev cs1 cs2 p :
  wf b cs O M → cs = cs1 ++ cs2 → chained (links b) prev p cs2 → (length cs2 < n)%nat →
  runs (loop n (λ self : EntryPtr,
          match current_link_ptr self, current_index self with
          | Some i, Some index =>
              let! m := load_meta (Some i) in
              let r := ptr_next_entry TYPE self LINKED_BUCKET_LEN index m in
              if r.1 then Ret (Break (true, r.2)) else Ret (Continue r.2)
          | _, _ =>
              Ret (Break (false, {| current_link_ptr := current_link_ptr self; current_index := None |}))
          end) {| current_link_ptr := p; current_index := Some LINKED_BUCKET_LEN |}) b
    (λ r b', b' = b ∧ next_post M cs (linked_positions cs2) r).
Proof.
  intros Hwf. revert n prev cs1 p. induction cs2 as [| c cs2 IH]; intros n prev cs1 p Hcs Hc Hn;
    (destruct n as [| n]; [cbn in Hn; lia |]); apply runs_loop.
  - cbn in Hc. subst p. apply runs_ret. split; [done |]. split; [done | constructor].
  - pose proof Hc as [-> _].
    destruct (wf_linked _ _ _ _ _ _ _ Hwf Hc) as (cs'' & [= <-] & m & d & Hm & Hd & Hb & Hc').
    cbn [current_link_ptr current_index]. eapply runs_load_meta; [done |]. cbv zeta.
    pose proof (ptr_next_entry_spec _ _ _ _ (Some c) LINKED_BUCKET_LEN m d Hwf Hm Hd) as Hr. cbv zeta in Hr.
    change (block_len (Some c)) with LINKED_BUCKET_LEN in Hr.
    change (start (Some c) LINKED_BUCKET_LEN) with 0%nat in Hr.
    unfold next_post, linked_positions. rewrite fmap_cons. cbn [concat]. fold (linked_positions cs2).
    destruct Hr as [(-> & j & -> & Hj & _ & Hl) | (-> & -> & Hl)]; apply runs_ret.
    + split; [done |]. rewrite entries_app, Hl. cbn [app fst snd]. split; [done |]. split; [done |].
      exists (from (Some c) (S j) ++ linked_positions cs2). split; [| apply entries_app].
      rewrite <-(start_lt (Some c) j Hj). by apply (ahead_link cs cs1 c cs2 j).
    + rewrite entries_app, Hl. cbn [app].
      apply (IH n (Some c) (cs1 ++ [c])); [by rewrite <-app_assoc | done | cbn in Hn; lia].
Qed.

Lemma wf_link_at b cs O M cs1 c cs2 :
  wf b cs O M → cs = cs1 ++ c :: cs2 →
  ∃ m d prev, get_meta (Some c) b = Some m ∧ get_block (Some c) b = Some d ∧ block_ok (Some c) m d ∧
    chained (links b) prev (Some c) (c :: cs2) ∧ chained (links b) (Some c) (link m) cs2.
Proof.
  intros Hwf ->. assert (Hc : ∃ prev, chained (links b) prev (Some c) (c :: cs2)).
  { pose proof (wf_chain _ _ _ _ _ _ Hwf) as Hc. clear Hwf. revert Hc. generalize (link (main b)) (@None nat).
    induction cs1 as [| c' cs1 IH]; intros p prev Hc.
    - exists prev. pose proof Hc as [-> _]. exact Hc.
    - destruct Hc as (-> & lb & _ & _ & Hc). by eapply IH. }
  destruct Hc as [prev Hc].
  destruct (wf_linked _ _ _ _ _ _ _ Hwf Hc) as (cs'' & [= <-] & m & d & Hm & Hd & Hb & Hc').
  by exists m, d, prev.
Qed.

Lemma runs_next b cs O M n ptr l :
  wf b cs O M → ahead cs ptr l → (length cs < n)%nat →
  runs (next TYPE n ptr) b (λ r b', b' = b ∧ next_post M cs l r).
Proof.
  intros Hwf Ha Hn. unfold next. destruct Ha as [i | cs1 c cs2 i Hcs | p]; cbn [current_index current_link_ptr].
  - destruct (has_block None b I) as (m & d & Hm & Hd).
    apply runs_bind. eapply runs_load_meta; [done |]. apply runs_ret.
    pose proof (ptr_next_entry_spec _ _ _ _ None i m d Hwf Hm Hd) as Hr. cbv zeta in Hr.
    change (block_len None) with BUCKET_LEN in Hr.
    destruct Hr as [(-> & j & -> & Hj & _ & Hl) | (-> & -> & Hl)].
    + apply runs_ret. split; [done |]. unfold next_post. rewrite entries_app, Hl. cbn [app fst snd].
      split; [done |]. split; [done |].
      exists (from None (S j) ++ linked_positions cs). split; [| apply entries_app].
      rewrite <-(start_lt None j Hj). by apply (ahead_main cs j).
    + eapply runs_mono; [| apply (runs_next_links b cs O M n None [] cs); [done | done | | done]].
      * intros r b' [-> Hpost]. split; [done |]. unfold next_post. by rewrite entries_app, Hl.
      * injection Hm as <-. apply Hwf.
  - destruct (wf_link_at _ _ _ _ _ _ _ Hwf Hcs) as (m & d & prev & Hm & Hd & Hb & _ & Hc').
    assert (Hlen : (S (length cs2) < n)%nat).
    { rewrite Hcs in Hn. rewrite length_app in Hn. cbn in Hn. lia. }
    cbn [bind fst snd]. destruct n as [| n]; [lia |]. apply runs_loop.
    cbn [current_link_ptr current_index]. eapply runs_load_meta; [done |]. cbv zeta.
    pose proof (ptr_next_entry_spec _ _ _ _ (Some c) i m d Hwf Hm Hd) as Hr. cbv zeta in Hr.
    change (block_len (Some c)) with LINKED_BUCKET_LEN in Hr.
    destruct Hr as [(-> & j & -> & Hj & _ & Hl) | (-> & -> & Hl)]; apply runs_ret.
    + split; [done |]. unfold next_post. rewrite entries_app, Hl. cbn [app fst snd].
      split; [done |]. split; [done |].
      exists (from (Some c) (S j) ++ linked_positions cs2). split; [| apply entries_app].
      rewrite <-(start_lt (Some c) j Hj). by apply (ahead_link cs cs1 c cs2 j).
    + eapply runs_mono; [| apply (runs_next_links b cs O M n (Some c) (cs1 ++ [c]) cs2);
        [done | by rewrite <-app_assoc | done | lia]].
      intros r b' [-> Hpost]. split; [done |]. unfold next_post. by rewrite entries_app, Hl.
  - apply runs_ret. split; [done |]. split; [done | constructor].
Qed.

Lemma NoDup_from p s : NoDup (from p s).
Proof. unfold from. apply NoDup_fmap_2; [| apply NoDup_seq]. by intros i j [= ->]. Qed.

Lemma elem_of_from p p' s i : (p', i) ∈ from p s ↔ p' = p ∧ (s ≤ i < block_len p)%nat.
Proof.
  unfold from. rewrite list_elem_of_fmap. setoid_rewrite elem_of_seq. split.
  - intros (j & [= -> ->] & Hj). split; [done | lia].
  - intros [-> Hi]. exists i. split; [done | lia].
Qed.

Lemma elem_of_linked cs p i :
  (p, i) ∈ linked_positions cs ↔ ∃ c, p = Some c ∧ c ∈ cs ∧ (i < LINKED_BUCKET_LEN)%nat.
Proof.
  unfold linked_positions. rewrite elem_of_concat_lookup. setoid_rewrite elem_of_from. split.
  - intros (j & c & Hc & -> & Hi). exists c. split; [done |]. split; [| apply Hi].
    by eapply list_elem_of_lookup_2.
  - intros (c & -> & [j Hj]%list_elem_of_lookup & Hi). exists j, c. split; [done |].
    split; [done |]. split; [lia | exact Hi].
Qed.

Lemma NoDup_positions cs : NoDup cs → NoDup (positions cs).
Proof.
  intros Hnd. unfold positions. apply NoDup_app. split; [apply NoDup_from |]. split.
  - intros [p i] [-> _]%elem_of_from. rewrite elem_of_linked. by intros (c & ? & _).
  - unfold linked_positions. induction cs as [| c cs IH]; [constructor |].
    apply NoDup_cons in Hnd as [Hc Hnd]. rewrite fmap_cons. cbn [concat]. apply NoDup_app.
    split; [apply NoDup_from |]. split; [| by apply IH].
    intros [p i] [-> _]%elem_of_from. fold (linked_positions cs). rewrite elem_of_linked.
    by intros (c' & [= <-] & ? & _).
Qed.

Lemma wf_positions b cs O M q kv : wf b cs O M → M !! q = Some kv → q ∈ positions cs.
Proof.
  destruct q as [p i]. intros Hwf HM.
  destruct (wf_lookup _ _ _ _ _ _ _ _ _ Hwf HM) as (m & d & Hm & _ & _ & _ & _ & Hi).
  apply get_meta_has in Hm. unfold positions. apply elem_of_app. destruct p as [c |].
  - right. apply elem_of_linked. exists c. split; [done |]. split; [| exact Hi].
    by apply (wf_dom _ _ _ _ _ _ Hwf).
  - left. apply elem_of_from. split; [done |]. split; [lia | exact Hi].
Qed.

Lemma elem_of_entries_at M l q : q ∈ entries_at M l ↔ is_Some (M !! q) ∧ q ∈ l.
Proof. unfold entries_at. by rewrite list_elem_of_filter. Qed.

Lemma entries_empty M l : M = ∅ → entries_at M l = [].
Proof. intros ->. apply filter_none. intros q _ [kv Hkv]. by rewrite lookup_empty in Hkv. Qed.

Lemma entries_delete M q l : q ∉ l → entries_at (delete q M) l = entries_at M l.
Proof.
  intros Hq. apply filter_ext_in. intros x Hx. rewrite lookup_delete_ne; [done |]. by intros ->.
Qed.

Lemma entries_alter M q kv l : is_Some (M !! q) → entries_at (<[q := kv]> M) l = entries_at M l.
Proof.
  intros Hq. apply filter_ext_in. intros x Hx. destruct (decide (q = x)) as [<- | Hne].
  - rewrite lookup_insert_eq. split; [done | eauto].
  - by rewrite lookup_insert_ne.
Qed.
End Query.
