(* ===== verification/BucketOps.v ===== *)
(** * The operations of a bucket

    What each operation of [Bucket] does to the two maps of the invariant. *)
From S2P Require Import Prelude Atomic Lru Bucket BucketInv.

Local Open Scope Z_scope.

Section Ops.
Context {K V : Type} `{EqDecision K} (TYPE : bucket_type) (ph : K → Z).

Implicit Types (b : Bucket K V) (O M : gmap pos (K * V)) (m : Metadata) (d : list (option (K * V)))
  (n : Z) (p q : option nat) (i : nat) (cs : list nat) (kv : K * V).

Local Notation wf := (wf TYPE ph).
Local Notation block_ok := (block_ok TYPE ph).

(** ** Changes of one slot *)

Definition with_bit (i : nat) (h : Z) (m : Metadata) : Metadata :=
  set_occupied (Z.lor (occupied_bitmap m) (one_shl i)) (set_hash i h m).
Definition without_bit (i : nat) (m : Metadata) : Metadata :=
  set_occupied (Z.land (occupied_bitmap m) (unot 32 (one_shl i))) m.
Definition with_removed (i : nat) (m : Metadata) : Metadata :=
  set_removed (Z.lor (removed_bitmap_or_lru_tail m) (one_shl i)) m.

Lemma slot_insert d i j x :
  (i < length d)%nat → slot (<[i := x]> d) j = if decide (j = i) then x else slot d j.
Proof.
  intros Hi. unfold slot. destruct (decide (j = i)) as [Heq | Hne].
  - rewrite Heq, list_lookup_insert_eq by done. by destruct x.
  - by rewrite list_lookup_insert_ne by done.
Qed.

Lemma bit_clear p m d i j :
  block_ok p m d → bit (occupied_bitmap (without_bit i m)) j =
    bit (occupied_bitmap m) j && negb (bool_decide (i = j)).
Proof.
  intros Hb. cbn. rewrite bit_land. destruct (bit (occupied_bitmap m) j) eqn:Ho; [| done].
  pose proof (occ_lt _ _ _ _ _ _ Hb Ho). pose proof (block_len_le p).
  by rewrite bit_unot_low, bit_one_shl by lia.
Qed.

Lemma block_ok_add p m d i kv h :
  block_ok p m d → (i < block_len p)%nat → bit (occupied_bitmap m) i = false → h = ph kv.1 →
  let m' := with_bit i h m in let d' := <[i := Some kv]> d in
  block_ok p m' d' ∧
  (∀ j, occ_in m' d' j = if decide (j = i) then Some kv else occ_in m d j) ∧
  (∀ j, live_in TYPE m' d' j = if decide (j = i) then Some kv else live_in TYPE m d j).
Proof.
  intros Hb Hi Hfree -> m' d'.
  assert (Hd : (i < length d)%nat) by (by rewrite (bo_data _ _ _ _ _ Hb)).
  assert (Hh : (i < length (partial_hash_array m))%nat) by (by rewrite (bo_hashes _ _ _ _ _ Hb)).
  assert (Hocc : ∀ j, bit (occupied_bitmap m') j = bit (occupied_bitmap m) j || bool_decide (i = j)).
  { intros j. cbn. by rewrite bit_lor, bit_one_shl. }
  assert (Hslot : ∀ j, slot d' j = if decide (j = i) then Some kv else slot d j).
  { intros j. by apply slot_insert. }
  pose proof (block_len_le p) as Hle.
  split; [| split].
  - constructor.
    + cbn. rewrite length_insert. apply Hb.
    + unfold d'. rewrite length_insert. apply Hb.
    + cbn. apply in_word_lor; [apply Hb | by apply in_word_one_shl].
    + intros Ht j Hj. rewrite Hocc. by rewrite (bo_rem _ _ _ _ _ Hb Ht j Hj).
    + intros j. rewrite Hocc, Hslot. destruct (decide (j = i)) as [-> | Hne].
      * intros _. exists kv. split; [done |]. cbn. by apply list_lookup_insert_eq.
      * rewrite bool_decide_false, orb_false_r by congruence. cbn.
        rewrite list_lookup_insert_ne by done. apply Hb.
  - intros j. unfold occ_in. rewrite Hocc, Hslot. destruct (decide (j = i)) as [-> | Hne].
    + by rewrite bool_decide_true, orb_true_r by done.
    + by rewrite bool_decide_false, orb_false_r by congruence.
  - intros j. unfold live_in. rewrite !bit_reachable, Hocc, Hslot.
    destruct (decide (j = i)) as [-> | Hne].
    + rewrite bool_decide_true, orb_true_r by done. cbn [andb].
      destruct (bool_decide_reflect (TYPE = OPTIMISTIC)) as [Ht | Ht]; [| done]. cbn [negb orb].
      rewrite bool_decide_true by lia. cbn.
      destruct (bit (removed_bitmap_or_lru_tail m) i) eqn:Hr; [| done].
      apply (bo_rem _ _ _ _ _ Hb Ht) in Hr. congruence.
    + by rewrite bool_decide_false, orb_false_r by congruence.
Qed.

Lemma block_ok_del p m d i :
  TYPE ≠ OPTIMISTIC → block_ok p m d → (i < block_len p)%nat →
  let m' := without_bit i m in let d' := <[i := None]> d in
  block_ok p m' d' ∧
  (∀ j, occ_in m' d' j = if decide (j = i) then None else occ_in m d j) ∧
  (∀ j, live_in TYPE m' d' j = if decide (j = i) then None else live_in TYPE m d j).
Proof.
  intros Ht Hb Hi m' d'.
  assert (Hd : (i < length d)%nat) by (by rewrite (bo_data _ _ _ _ _ Hb)).
  assert (Hocc := λ j, bit_clear p m d i j Hb). fold m' in Hocc.
  assert (Hslot : ∀ j, slot d' j = if decide (j = i) then None else slot d j).
  { intros j. by apply slot_insert. }
  assert (Hb' : block_ok p m' d').
  { constructor.
    - apply Hb.
    - unfold d'. rewrite length_insert. apply Hb.
    - cbn. apply in_word_land_l, Hb.
    - done.
    - intros j. rewrite Hocc, Hslot. intros [Hj Hne]%andb_prop.
      destruct (decide (j = i)) as [-> | Hji]; [by rewrite bool_decide_true in Hne |].
      by apply Hb. }
  assert (HO : ∀ j, occ_in m' d' j = if decide (j = i) then None else occ_in m d j).
  { intros j. unfold occ_in. rewrite Hocc, Hslot. destruct (decide (j = i)) as [-> | Hne].
    - by rewrite bool_decide_true, andb_false_r by done.
    - by rewrite bool_decide_false, andb_true_r by congruence. }
  split; [done |]. split; [done |]. intros j.
  by rewrite (live_in_seq _ _ _ _ _ _ Ht Hb'), (live_in_seq _ _ _ _ _ _ Ht Hb), HO.
Qed.

Lemma block_ok_mark p m d i :
  TYPE = OPTIMISTIC → block_ok p m d → bit (occupied_bitmap m) i = true →
  let m' := with_removed i m in
  block_ok p m' d ∧ (∀ j, occ_in m' d j = occ_in m d j) ∧
  (∀ j, live_in TYPE m' d j = if decide (j = i) then None else live_in TYPE m d j).
Proof.
  intros Ht Hb Ho m'.
  assert (Hrem : ∀ j, bit (removed_bitmap_or_lru_tail m') j =
    bit (removed_bitmap_or_lru_tail m) j || bool_decide (i = j)).
  { intros j. cbn. by rewrite bit_lor, bit_one_shl. }
  split; [| split].
  - constructor; try apply Hb. intros _ j. rewrite Hrem. intros [Hr | Heq]%orb_prop.
    + by apply (bo_rem _ _ _ _ _ Hb Ht).
    + apply bool_decide_eq_true in Heq as <-. exact Ho.
  - done.
  - intros j. unfold live_in. rewrite !bit_reachable, Hrem.
    destruct (decide (j = i)) as [-> | Hne].
    + rewrite (bool_decide_true (TYPE = OPTIMISTIC)) by done.
      rewrite (bool_decide_true (i = i)), orb_true_r by done. by rewrite !andb_false_r.
    + by rewrite (bool_decide_false (i = j)), orb_false_r by congruence.
Qed.

(** ** Changes of one slot, in the bucket *)

Lemma set_lru_id b : set_lru_list (lru_list b) b = b.
Proof. by destruct b. Qed.

Lemma lru_put_block b p m0 m d n l :
  get_meta p b = Some m0 → removed_bitmap_or_lru_tail m = removed_bitmap_or_lru_tail m0 →
  lru_ok b l → lru_ok (put_block p m d n b) l.
Proof.
  destruct p as [i |]; [done |]. intros [= <-] Hr. unfold lru_ok. cbn. by rewrite Hr.
Qed.

Lemma wf_lookup_free b cs O M p i m d :
  wf b cs O M → get_meta p b = Some m → get_block p b = Some d → bit (occupied_bitmap m) i = false →
  O !! (p, i) = None ∧ M !! (p, i) = None.
Proof.
  intros Hwf Hm Hd Hf. rewrite (wf_occ _ _ _ _ _ _ Hwf p i m d Hm Hd), (wf_live _ _ _ _ _ _ Hwf p i m d Hm Hd).
  unfold occ_in, live_in. rewrite Hf.
  destruct (bit (reachable_bitmap TYPE m) i) eqn:Hr; [| done]. apply reachable_occ in Hr. congruence.
Qed.

Lemma wf_add b cs O M p i m d kv h :
  wf b cs O M → get_meta p b = Some m → get_block p b = Some d → (i < block_len p)%nat →
  bit (occupied_bitmap m) i = false → num_entries b ≠ u32_max → h = ph kv.1 →
  wf (put_block p (with_bit i h m) (<[i := Some kv]> d) (num_entries b + 1) b) cs
    (<[(p, i) := kv]> O) (<[(p, i) := kv]> M).
Proof.
  intros Hwf Hm Hd Hi Hf Hn Hh. destruct (wf_lookup_free _ _ _ _ _ _ _ _ Hwf Hm Hd Hf) as [HO HM].
  pose proof (wf_block _ _ _ _ _ _ Hwf p m d Hm Hd) as Hb.
  destruct (block_ok_add p m d i kv h Hb Hi Hf Hh) as (Hb' & HO' & HM').
  rewrite <-(set_lru_id b) at 2. apply (wf_put_block _ _ _ _ O M _ m); try done.
  - intros j. rewrite HO'. case_decide as Hj; [by rewrite Hj, lookup_insert_eq |].
    rewrite lookup_insert_ne by congruence. by apply (wf_occ _ _ _ _ _ _ Hwf).
  - intros q j Hq. by rewrite lookup_insert_ne by congruence.
  - intros j. rewrite HM'. case_decide as Hj; [by rewrite Hj, lookup_insert_eq |].
    rewrite lookup_insert_ne by congruence. by apply (wf_live _ _ _ _ _ _ Hwf).
  - intros q j Hq. by rewrite lookup_insert_ne by congruence.
  - rewrite map_size_insert_None by done. rewrite (wf_num _ _ _ _ _ _ Hwf). lia.
  - pose proof (wf_max _ _ _ _ _ _ Hwf). lia.
  - intros Ht. destruct (wf_lru _ _ _ _ _ _ Hwf Ht) as [l Hl]. exists l.
    rewrite set_lru_id. by eapply lru_put_block.
Qed.

Lemma wf_del b cs O M p i m0 m d kv s :
  TYPE ≠ OPTIMISTIC → wf b cs O M → get_meta p b = Some m0 → get_block p b = Some d →
  M !! (p, i) = Some kv →
  m = m0 ∨ p = None ∧ TYPE = CACHE ∧ (∃ t, m = set_removed t m0) →
  (TYPE = CACHE → ∃ l, lru_ok (put_block p m d 0 (set_lru_list s b)) l) →
  wf (put_block p (without_bit i m) (<[i := None]> d) (num_entries b - 1) (set_lru_list s b)) cs
    (delete (p, i) O) (delete (p, i) M).
Proof.
  intros Ht Hwf Hm Hd HM Hm' Hlru.
  destruct (wf_lookup _ _ _ _ _ _ _ _ _ Hwf HM) as (m1 & d1 & Hm1 & Hd1 & Hb & Hr & Hs & Hi).
  simplify_eq.
  assert (Hbm : block_ok p m d ∧ (∀ j, occ_in m d j = occ_in m0 d j) ∧ link m = link m0).
  { destruct Hm' as [-> | (_ & Hc & t & ->)]; [done |]. split; [| done].
    constructor; try apply Hb. congruence. }
  destruct Hbm as (Hbm & Hocc & Hlink).
  destruct (block_ok_del p m d i Ht Hbm Hi) as (Hb' & HO' & HM').
  assert (Hlive : ∀ j, live_in TYPE m d j = live_in TYPE m0 d j).
  { intros j. by rewrite (live_in_seq _ _ _ _ _ _ Ht Hbm), (live_in_seq _ _ _ _ _ _ Ht Hb). }
  apply (wf_put_block _ _ _ _ O M _ m0); try done.
  - intros j. rewrite HO', Hocc. case_decide as Hj; [by rewrite Hj, lookup_delete_eq |].
    rewrite lookup_delete_ne by congruence. by apply (wf_occ _ _ _ _ _ _ Hwf).
  - intros q j Hq. by rewrite lookup_delete_ne by congruence.
  - intros j. rewrite HM', Hlive. case_decide as Hj; [by rewrite Hj, lookup_delete_eq |].
    rewrite lookup_delete_ne by congruence. by apply (wf_live _ _ _ _ _ _ Hwf).
  - intros q j Hq. by rewrite lookup_delete_ne by congruence.
  - rewrite map_size_delete_Some by eauto. rewrite (wf_num _ _ _ _ _ _ Hwf).
    pose proof (wf_num _ _ _ _ _ _ Hwf). assert (size M ≠ 0%nat); [| lia].
    apply map_size_ne_0_lookup. eauto.
  - pose proof (wf_max _ _ _ _ _ _ Hwf). lia.
  - intros Hc. destruct (Hlru Hc) as [l Hl]. exists l. destruct p as [j |]; exact Hl.
Qed.

Lemma wf_mark b cs O M p i m d kv :
  TYPE = OPTIMISTIC → wf b cs O M → get_meta p b = Some m → get_block p b = Some d →
  M !! (p, i) = Some kv →
  wf (put_block p (with_removed i m) d (num_entries b - 1) b) cs O (delete (p, i) M).
Proof.
  intros Ht Hwf Hm Hd HM.
  destruct (wf_lookup _ _ _ _ _ _ _ _ _ Hwf HM) as (m1 & d1 & Hm1 & Hd1 & Hb & Hr & Hs & Hi).
  assert (m1 = m) as -> by congruence. assert (d1 = d) as -> by congruence.
  destruct (block_ok_mark p m d i Ht Hb (reachable_occ _ _ _ Hr)) as (Hb' & HO' & HM').
  rewrite <-(set_lru_id b) at 2. apply (wf_put_block _ _ _ _ O M _ m); try done.
  - intros j. rewrite HO'. by apply (wf_occ _ _ _ _ _ _ Hwf).
  - intros j. rewrite HM'. case_decide as Hj; [by rewrite Hj, lookup_delete_eq |].
    rewrite lookup_delete_ne by congruence. by apply (wf_live _ _ _ _ _ _ Hwf).
  - intros q j Hq. by rewrite lookup_delete_ne by congruence.
  - rewrite map_size_delete_Some by eauto. rewrite (wf_num _ _ _ _ _ _ Hwf).
    assert (size M ≠ 0%nat); [| lia]. apply map_size_ne_0_lookup. eauto.
  - pose proof (wf_max _ _ _ _ _ _ Hwf). lia.
  - congruence.
Qed.

(** The value of an entry changes. *)
Lemma wf_set b cs O M p i m d kv v :
  wf b cs O M → get_meta p b = Some m → get_block p b = Some d → M !! (p, i) = Some kv →
  wf (put_block p m (<[i := Some (kv.1, v)]> d) (num_entries b) b) cs
    (<[(p, i) := (kv.1, v)]> O) (<[(p, i) := (kv.1, v)]> M).
Proof.
  intros Hwf Hm Hd HM.
  destruct (wf_lookup _ _ _ _ _ _ _ _ _ Hwf HM) as (m1 & d1 & Hm1 & Hd1 & Hb & Hr & Hs & Hi).
  assert (m1 = m) as -> by congruence. assert (d1 = d) as -> by congruence.
  assert (Hlen : (i < length d)%nat) by (by rewrite (bo_data _ _ _ _ _ Hb)).
  assert (Hslot := λ j, slot_insert d i j (Some (kv.1, v)) Hlen).
  rewrite <-(set_lru_id b) at 2. apply (wf_put_block _ _ _ _ O M _ m); try done.
  - constructor; try apply Hb.
    + rewrite length_insert. apply Hb.
    + intros j Hj. destruct (bo_slot _ _ _ _ _ Hb j Hj) as (kv' & Hs' & Hh).
      rewrite Hslot. case_decide as Hji; [| eauto]. rewrite Hji in *.
      exists (kv.1, v). split; [done |]. cbn. rewrite Hh. by replace kv' with kv by congruence.
  - intros j. unfold occ_in. rewrite Hslot. case_decide as Hj.
    + by rewrite Hj, lookup_insert_eq, (reachable_occ _ _ _ Hr).
    + rewrite lookup_insert_ne by congruence. by apply (wf_occ _ _ _ _ _ _ Hwf).
  - intros q j Hq. by rewrite lookup_insert_ne by congruence.
  - intros j. unfold live_in. rewrite Hslot. case_decide as Hj.
    + by rewrite Hj, lookup_insert_eq, Hr.
    + rewrite lookup_insert_ne by congruence. by apply (wf_live _ _ _ _ _ _ Hwf).
  - intros q j Hq. by rewrite lookup_insert_ne by congruence.
  - rewrite map_size_insert_Some by eauto. apply Hwf.
  - apply Hwf.
  - intros Ht. destruct (wf_lru _ _ _ _ _ _ Hwf Ht) as [l Hl]. exists l.
    rewrite set_lru_id. by eapply lru_put_block.
Qed.

(** The LRU list changes. *)
Definition relru (s : DoublyLinkedList) (t : nat) b : Bucket K V :=
  set_lru_list s (set_main (set_removed (Z.of_nat t) (main b)) b).

Lemma wf_relru b cs O M s t l :
  TYPE = CACHE → wf b cs O M → rep s t l →
  wf (relru s t b) cs O M ∧ lru_ok (relru s t b) l.
Proof.
  intros Ht Hwf Hrep.
  assert (Hl : lru_ok (relru s t b) l).
  { split; cbn; [lia |]. by rewrite Nat2Z.id. }
  assert (Heq : relru s t b = put_block None (set_removed (Z.of_nat t) (main b)) (main_block b)
    (num_entries b) (set_lru_list s b)) by done.
  split; [| done]. rewrite Heq in *.
  pose proof (wf_block _ _ _ _ _ _ Hwf None _ _ eq_refl eq_refl) as Hb.
  assert (Hno : TYPE ≠ OPTIMISTIC) by congruence.
  assert (Hb' : block_ok None (set_removed (Z.of_nat t) (main b)) (main_block b)).
  { constructor; try apply Hb. done. }
  apply (wf_put_block _ _ _ _ O M _ (main b)); try done.
  - intros j. exact (wf_occ _ _ _ _ _ _ Hwf None j _ _ eq_refl eq_refl).
  - intros j. rewrite (live_in_seq _ _ _ _ _ _ Hno Hb'), (wf_live _ _ _ _ _ _ Hwf None j _ _ eq_refl eq_refl).
    by rewrite (live_in_seq _ _ _ _ _ _ Hno Hb).
  - apply Hwf.
  - apply Hwf.
  - eauto.
Qed.
End Ops.
