(* ===== verification/BucketSpec.v ===== *)
(** * Specifications of the operations of a bucket

    Each operation of [Bucket] in terms of the two maps of [BucketInv]: what it answers,
    and how the maps change. *)
From S2P Require Import Prelude Atomic Lru Bucket BucketInv BucketQuery BucketOps.

Local Open Scope Z_scope.

(** What the operations leave alone. *)
Definition same_flags {K V} (b b' : Bucket K V) : Prop :=
  killed b' = killed b ∧ locked b' = locked b ∧ dropped b' = dropped b.

Lemma same_flags_put_block {K V} p m d n (b : Bucket K V) : same_flags b (put_block p m d n b).
Proof. by destruct p. Qed.

Lemma same_flags_put_lru {K V} p m d n s (b : Bucket K V) :
  same_flags b (put_block p m d n (set_lru_list s b)).
Proof. by destruct p. Qed.

Lemma same_flags_trans {K V} (b b' b'' : Bucket K V) :
  same_flags b b' → same_flags b' b'' → same_flags b b''.
Proof. unfold same_flags. intuition congruence. Qed.

#[export] Hint Resolve same_flags_put_block same_flags_put_lru : scc.

Section Spec.
Context {K V : Type} `{EqDecision K} (TYPE : bucket_type) (ph : K → Z).

Implicit Types (b : Bucket K V) (O M : gmap pos (K * V)) (m : Metadata) (d : list (option (K * V)))
  (n : nat) (p : option nat) (q : pos) (i : nat) (cs : list nat) (kv : K * V).

Local Notation wf := (wf TYPE ph).
Local Notation block_ok := (block_ok TYPE ph).

(** ** Accesses through a pointer *)

(** The bucket seen from one of its blocks. *)
Lemma runs_focus {R} p m d (k : prog (Bucket K V) R) b Q :
  get_meta p b = Some m → get_block p b = Some d →
  runs k (put_block p m d (num_entries b) b) Q → runs k b Q.
Proof. intros Hm Hd. by rewrite put_block_id. Qed.

Lemma runs_last {St R} {allow : Refuses St} (p : prog St R) s Q : runs (bind p Ret) s Q → runs p s Q.
Proof. unfold runs. rewrite run_bind. by destruct (run p s). Qed.

Lemma get_slot_wf b cs O M q kv : wf b cs O M → M !! q = Some kv → get_slot q.1 q.2 b = Some kv.
Proof.
  destruct q as [p i]. intros Hwf HM.
  destruct (wf_lookup _ _ _ _ _ _ _ _ _ Hwf HM) as (m & d & Hm & Hd & _ & _ & Hs & _).
  cbn. unfold get_slot. rewrite Hd. exact Hs.
Qed.

Lemma runs_ptr_get b cs O M q kv :
  wf b cs O M → M !! q = Some kv → runs (ptr_get (ptr_of q)) b (λ r b', r = kv ∧ b' = b).
Proof.
  intros Hwf HM. apply runs_last. eapply runs_load_slot; [by eapply get_slot_wf | by apply runs_ret].
Qed.

Lemma runs_ptr_partial_hash b cs O M q kv :
  wf b cs O M → M !! q = Some kv → runs (ptr_partial_hash (ptr_of q)) b (λ r b', r = ph kv.1 ∧ b' = b).
Proof.
  destruct q as [p i]. intros Hwf HM.
  destruct (wf_lookup _ _ _ _ _ _ _ _ _ Hwf HM) as (m & d & Hm & Hd & Hb & Hr & Hs & Hi).
  eapply runs_load_meta; [done |]. cbn [snd].
  destruct (bo_slot _ _ _ _ _ Hb i (reachable_occ _ _ _ Hr)) as (kv' & Hs' & ->).
  apply runs_ret. by replace kv' with kv by congruence.
Qed.

Lemma runs_ptr_set b cs O M q kv v :
  wf b cs O M → M !! q = Some kv →
  runs (ptr_set (ptr_of q) v) b (λ _ b',
    wf b' cs (<[q := (kv.1, v)]> O) (<[q := (kv.1, v)]> M) ∧ same_flags b b').
Proof.
  destruct q as [p i]. intros Hwf HM.
  destruct (wf_lookup _ _ _ _ _ _ _ _ _ Hwf HM) as (m & d & Hm & Hd & Hb & Hr & Hs & Hi).
  unfold ptr_set. cbn [current_index ptr_of snd fst current_link_ptr].
  apply (runs_load_slot p i kv); [exact (get_slot_wf b cs O M (p, i) kv Hwf HM) |].
  apply runs_act. cbn [fst snd]. apply runs_ret.
  assert (Heq : put_slot p i (Some (kv.1, v)) b =
    put_block p m (<[i := Some (kv.1, v)]> d) (num_entries b) b).
  { rewrite <-put_slot_put_block. by rewrite put_block_id. }
  rewrite Heq. split; [by eapply wf_set | auto with scc].
Qed.

(** ** Removal *)

Lemma bit_land_ne0 x i : bit x i = true → negb (Z.land x (one_shl i) =? 0) = true.
Proof. intros Hb. by rewrite land_bit_test, Hb. Qed.

Lemma wf_nonzero b cs O M q kv : wf b cs O M → M !! q = Some kv → num_entries b ≠ 0.
Proof.
  intros Hwf HM H0. apply (wf_empty_num _ _ _ _ _ _ Hwf) in H0 as ->. by rewrite lookup_empty in HM.
Qed.

#[local] Instance lru_part : Part (λ b : Bucket K V, Some (lru_list b)) set_lru_list.
Proof. constructor; [done.. |]. intros b s [= <-]. apply set_lru_id. Qed.

Lemma relru_same b s l : lru_ok b l →
  set_lru_list s b = relru s (Z.to_nat (removed_bitmap_or_lru_tail (main b))) b.
Proof.
  intros [Hr _]. unfold relru. rewrite Z2Nat.id by done. by destruct b as [? ? ? [] ? ? ? ?].
Qed.

Lemma runs_zoom_lru {R} (p : prog DoublyLinkedList R) b Q :
  runs p (lru_list b) (λ r s, Q r (set_lru_list s b)) → runs (zoom_lru p) b Q.
Proof. intros Hr. by eapply runs_zoom; [apply _ | done |]. Qed.

(** The new tail is stored. *)
Lemma runs_store_tail r b s l t Q :
  lru_ok b l → t = default (Z.to_nat (removed_bitmap_or_lru_tail (main b))) r →
  Q () (relru s t b) → runs (store_tail r) (set_lru_list s b) Q.
Proof.
  intros Hl -> HQ. destruct r as [t |]; cbn [store_tail default].
  - apply runs_last. by eapply runs_store_meta.
  - apply runs_ret. by erewrite relru_same.
Qed.

Lemma runs_lru_step (p : nat → prog DoublyLinkedList (option nat)) b l l' Q :
  lru_ok b l →
  (let tail := Z.to_nat (removed_bitmap_or_lru_tail (main b)) in
   runs (p tail) (lru_list b) (λ r s, rep s (default tail r) l')) →
  (∀ s t, rep s t l' → Q () (relru s t b)) →
  runs (let! m := load_meta None in
        let! r := zoom_lru (p (Z.to_nat (removed_bitmap_or_lru_tail m))) in
        store_tail r) b Q.
Proof.
  intros Hl Hp HQ. eapply runs_load_meta; [done |]. apply runs_bind, runs_zoom_lru.
  eapply runs_mono; [| exact Hp]. intros r s Hrep. eapply runs_store_tail; [done | done |].
  by apply HQ.
Qed.

Lemma pos_in_range b cs O M q kv : wf b cs O M → M !! q = Some kv → (q.2 < block_len q.1 ≤ BUCKET_LEN)%nat.
Proof.
  destruct q as [p i]. intros Hwf HM.
  destruct (wf_lookup _ _ _ _ _ _ _ _ _ Hwf HM) as (m & d & _ & _ & _ & _ & _ & Hi).
  split; [done | apply block_len_le].
Qed.

Lemma not_len b cs O M q kv : wf b cs O M → M !! q = Some kv → negb (q.2 =? BUCKET_LEN)%nat = true.
Proof.
  intros Hwf HM. pose proof (pos_in_range _ _ _ _ _ _ Hwf HM).
  apply negb_true_iff, Nat.eqb_neq. lia.
Qed.

Lemma runs_remove_from_lru b l i Q :
  TYPE = CACHE → (i < BUCKET_LEN)%nat → lru_ok b l →
  (∀ s t, rep s t (filter (λ a, a ≠ i) l) → Q () (relru s t b)) →
  runs (remove_from_lru_list TYPE (ptr_of (None, i))) b Q.
Proof.
  intros Ht Hi Hl HQ. unfold remove_from_lru_list. rewrite bool_decide_true by done. cbn [bind dassert ptr_of fst snd current_index current_link_ptr].
  rewrite (proj2 (Nat.eqb_neq i BUCKET_LEN)) by lia. cbn [negb dassert bind].
  apply (runs_lru_step (λ t, lru_remove t i) b l (filter (λ a, a ≠ i) l)); [done | | done].
  cbv zeta. by apply runs_remove; [apply Hl |].
Qed.

(** [erase]: the entry is given back, or only marked. *)
Lemma runs_erase_lru b cs O M q kv l :
  wf b cs O M → M !! q = Some kv → (TYPE = CACHE → lru_ok b l) →
  runs (erase TYPE (ptr_of q)) b (λ r b',
    r = (if decide (TYPE = OPTIMISTIC) then None else Some kv) ∧
    wf b' cs (if decide (TYPE = OPTIMISTIC) then O else delete q O) (delete q M) ∧
    same_flags b b' ∧
    (TYPE = CACHE → lru_ok b' (match q.1 with None => filter (λ a, a ≠ q.2) l | Some _ => l end))).
Proof.
  destruct q as [p i]. intros Hwf HM Hlru.
  destruct (wf_lookup _ _ _ _ _ _ _ _ _ Hwf HM) as (m & d & Hm & Hd & Hb & Hr & Hs & Hi).
  pose proof (get_meta_has _ _ _ Hm) as Hp.
  pose proof (reachable_occ _ _ _ Hr) as Ho. pose proof (block_len_le p) as Hle.
  pose proof (wf_nonzero _ _ _ _ _ _ Hwf HM) as Hnz.
  unfold erase. cbn [current_index ptr_of snd fst current_link_ptr].
  apply runs_dassert; [exact (not_len b cs O M (p, i) kv Hwf HM) |].
  apply (runs_focus p m d); [done.. |].
  apply runs_dec_pb; [done |]. apply runs_load_meta_pb; [done |].
  destruct (decide (TYPE = OPTIMISTIC)) as [Ht | Ht].
  - apply runs_dassert.
    { rewrite land_bit_test. rewrite bit_reachable, Ho, (bool_decide_true (TYPE = OPTIMISTIC)) in Hr by done.
      cbn in Hr. by apply andb_prop in Hr as [_ ->]. }
    apply runs_store_meta_pb; [done |]. apply runs_ret. split; [done |].
    split; [by eapply wf_mark |]. split; [auto with scc | intros Hc; congruence].
  - apply runs_dassert; [by apply bit_land_ne0 |].
    assert (Hrest : ∀ m' s, (m' = m ∨ p = None ∧ TYPE = CACHE ∧ ∃ t, m' = set_removed t m) →
      (TYPE = CACHE → lru_ok (put_block p m' d 0 (set_lru_list s b))
         (match p with None => filter (λ a, a ≠ i) l | Some _ => l end)) →
      runs (clear_bit_occupied p i ;; (let! kv := move_slot p i in Ret (Some kv)))
        (put_block p m' d (num_entries b - 1) (set_lru_list s b))
        (λ r b', r = Some kv ∧ wf b' cs (delete (p, i) O) (delete (p, i) M) ∧ same_flags b b' ∧
          (TYPE = CACHE → lru_ok b' (match p with None => filter (λ a, a ≠ i) l | Some _ => l end)))).
    { intros m' s Hm' Hl. unfold clear_bit_occupied.
      apply (runs_store_meta_pb p (set_lru_list s b) Hp).
      apply (runs_move_slot_pb p (set_lru_list s b) Hp i kv); [done |]. apply runs_ret. split; [done |].
      split; [eapply wf_del; eauto |]. split; [auto with scc |]. intros Hc. specialize (Hl Hc). by destruct p. }
    case_decide as Hc.
    + destruct Hc as [Hc ->]. pose proof (Hlru Hc) as Hl.
      apply runs_bind. apply (runs_remove_from_lru _ l); [done | exact Hi | by eapply lru_put_block |].
      intros s t Hrep.
      assert (Heq : relru s t (put_block None m d (num_entries b - 1) b) =
        put_block None (set_removed (Z.of_nat t) m) d (num_entries b - 1) (set_lru_list s b)) by done.
      rewrite Heq. apply Hrest; [right; eauto |]. intros _. split; cbn; [lia |].
      rewrite Nat2Z.id. exact Hrep.
    + cbn [bind]. rewrite <-(set_lru_id b). apply Hrest; [by left |]. intros Ht'.
      rewrite set_lru_id. destruct p as [c |]; [by eapply lru_put_block; eauto | by destruct Hc].
Qed.

Lemma runs_erase b cs O M q kv :
  wf b cs O M → M !! q = Some kv →
  runs (erase TYPE (ptr_of q)) b (λ r b',
    r = (if decide (TYPE = OPTIMISTIC) then None else Some kv) ∧
    wf b' cs (if decide (TYPE = OPTIMISTIC) then O else delete q O) (delete q M) ∧
    same_flags b b').
Proof.
  intros Hwf HM. assert (Hl : ∃ l, TYPE = CACHE → lru_ok b l).
  { destruct (decide (TYPE = CACHE)) as [Ht | Ht]; [| by exists []].
    destruct (wf_lru _ _ _ _ _ _ Hwf Ht) as [l Hl]. by exists l. }
  destruct Hl as [l Hl]. eapply runs_mono; [| by eapply runs_erase_lru]. intros r b' (? & ? & ? & _). done.
Qed.

(** [keep_or_consume]: the value that the predicate gives back replaces the old one. *)
Lemma runs_keep_or_consume b cs O M q kv pred :
  TYPE ≠ OPTIMISTIC → wf b cs O M → M !! q = Some kv →
  runs (keep_or_consume TYPE (ptr_of q) pred) b (λ r b',
    match pred kv.1 kv.2 with
    | Some v => r = false ∧ wf b' cs (<[q := (kv.1, v)]> O) (<[q := (kv.1, v)]> M)
    | None => r = true ∧ wf b' cs (delete q O) (delete q M)
    end ∧ same_flags b b').
Proof.
  destruct q as [p i]. intros Ht Hwf HM.
  destruct (wf_lookup _ _ _ _ _ _ _ _ _ Hwf HM) as (m & d & Hm & Hd & Hb & Hr & Hs & Hi).
  pose proof (get_meta_has _ _ _ Hm) as Hp.
  pose proof (reachable_occ _ _ _ Hr) as Ho. pose proof (block_len_le p) as Hle.
  pose proof (wf_nonzero _ _ _ _ _ _ Hwf HM) as Hnz. pose proof (wf_max _ _ _ _ _ _ Hwf) as Hmax.
  assert (Hlen : (i < length d)%nat) by (by rewrite (bo_data _ _ _ _ _ Hb)).
  unfold keep_or_consume. apply runs_dassert; [by rewrite bool_decide_false |].
  cbn [current_index ptr_of snd fst current_link_ptr].
  apply (runs_focus p m d); [done.. |].
  apply runs_dec_pb; [done |]. apply runs_load_meta_pb; [done |].
  apply runs_dassert; [by apply bit_land_ne0 |].
  apply (runs_move_slot_pb p b Hp i kv); [done |].
  apply (runs_store_meta_pb p b Hp). destruct (pred kv.1 kv.2) as [v |].
  - apply (runs_write_slot_pb p b Hp); [by rewrite length_insert |].
    apply (runs_store_meta_pb p b Hp). apply runs_inc_pb; [lia |]. apply runs_ret.
    split; [| auto with scc]. split; [done |].
    set (m' := set_occupied _ _). assert (m' = m) as ->.
    { destruct m as [lk oc rm hs]. unfold m', set_occupied. cbn in *. f_equal.
      assert (Hw : in_word 32 oc) by (by eapply bo_occ32 in Hb).
      apply (word_ext 32); [auto with word; apply in_word_lor; [auto with word | apply in_word_one_shl; lia] | done |].
      intros j Hj. rewrite bit_lor, bit_land, bit_unot_low, bit_one_shl by done.
      destruct (bool_decide_reflect (i = j)) as [<- |]; [by rewrite Ho |].
      by rewrite andb_true_r, orb_false_r. }
    rewrite list_insert_insert_eq. replace (num_entries b - 1 + 1) with (num_entries b) by lia.
    by eapply wf_set.
  - apply runs_ret. split; [| auto with scc]. split; [done |].
    pose proof (wf_del TYPE ph b cs O M p i m m d kv (lru_list b) Ht Hwf Hm Hd HM ltac:(by left)) as Hdel.
    rewrite set_lru_id in Hdel. apply Hdel. intros Hc.
    destruct (wf_lru _ _ _ _ _ _ Hwf Hc) as [l Hl]. exists l. by eapply lru_put_block.
Qed.

(** ** The LRU list *)

Lemma runs_update_lru_tail b cs O M p i kv l :
  TYPE = CACHE → wf b cs O M → M !! (p, i) = Some kv → lru_ok b l →
  runs (update_lru_tail TYPE (ptr_of (p, i))) b (λ _ b',
    wf b' cs O M ∧ same_flags b b' ∧
    lru_ok b' (match p with None => i :: filter (λ a, a ≠ i) l | Some _ => l end)).
Proof.
  intros Ht Hwf HM Hl. unfold update_lru_tail. apply runs_dassert; [by rewrite bool_decide_true |].
  cbn [current_index ptr_of snd fst current_link_ptr].
  apply runs_dassert; [exact (not_len b cs O M (p, i) kv Hwf HM) |].
  destruct p as [c |]; [apply runs_ret; split_and!; done |].
  apply (runs_lru_step (λ t, lru_promote t i) b l (i :: filter (λ a, a ≠ i) l)); [done | |].
  - cbv zeta. apply runs_promote; [apply Hl |]. pose proof (pos_in_range _ _ _ _ _ _ Hwf HM) as Hr.
    cbn [fst snd] in Hr. change (block_len None) with BUCKET_LEN in Hr. lia.
  - intros s t Hrep. destruct (wf_relru TYPE ph b cs O M s t _ Ht Hwf Hrep) as [? ?]. done.
Qed.

Lemma occ_full b : in_word 32 (occupied_bitmap (main b)) →
  (occupied_bitmap (main b) =? u32_max) = true ↔ ∀ i, (i < 32)%nat → bit (occupied_bitmap (main b)) i = true.
Proof.
  intros Hw. rewrite Z.eqb_eq. unfold u32_max. split.
  - intros -> i Hi. by rewrite bit_umax, bool_decide_true.
  - intros Hall. apply (word_ext 32); [done | auto with word |].
    intros i Hi. by rewrite bit_umax, bool_decide_true, Hall.
Qed.

Lemma runs_evict_lru_head b cs O M l :
  TYPE = CACHE → wf b cs O M → lru_ok b l →
  runs (evict_lru_head TYPE) b (λ r b',
    match r with
    | Some kv =>
        let e := (None, default 0%nat (last l)) in
        M !! e = Some kv ∧ wf b' cs (delete e O) (delete e M) ∧ lru_ok b' (removelast l) ∧
        ∀ i, (i < BUCKET_LEN)%nat → is_Some (M !! (None, i))
    | None => b' = b ∧ ∃ i, (i < BUCKET_LEN)%nat ∧ M !! (None, i) = None
    end ∧ same_flags b b').
Proof.
  intros Ht Hwf Hl. assert (Hno : TYPE ≠ OPTIMISTIC) by congruence.
  pose proof (wf_block _ _ _ _ _ _ Hwf None _ _ eq_refl eq_refl) as Hb.
  pose proof (bo_occ32 _ _ _ _ _ Hb) as Hw. pose proof (occ_full b Hw) as Hfull.
  assert (HMi : ∀ i, M !! (None, i) = live_in TYPE (main b) (main_block b) i).
  { intros i. by apply (wf_live _ _ _ _ _ _ Hwf). }
  unfold evict_lru_head. apply runs_dassert; [by rewrite bool_decide_true |].
  eapply runs_load_meta; [done |].
  destruct (occupied_bitmap (main b) =? u32_max) eqn:He.
  2:{ apply runs_ret. split; [| done]. split; [done |].
      assert (Hlt : (trailing_ones 32 (occupied_bitmap (main b)) < 32)%nat).
      { pose proof (trailing_ones_le 32 (occupied_bitmap (main b))).
        destruct (decide (trailing_ones 32 (occupied_bitmap (main b)) = 32%nat)) as [Heq |]; [| lia].
        exfalso. enough (false = true) by done. apply Hfull. intros i Hi.
        apply (trailing_ones_below 32). lia. }
      exists (trailing_ones 32 (occupied_bitmap (main b))). split; [exact Hlt |].
      rewrite HMi, (live_in_seq _ _ _ _ _ _ Hno Hb). unfold occ_in. by rewrite trailing_ones_bit. }
  assert (Hall := proj1 Hfull eq_refl).
  set (e := default 0%nat (last l)).
  assert (Hi : (e < 32)%nat).
  { unfold e. destruct (last l) as [x |] eqn:Hx; cbn; [| lia].
    apply last_Some_elem_of in Hx. by apply (rep_range _ _ _ (proj2 Hl)). }
  assert (exists kv, M !! (None, e) = Some kv ∧ slot (main_block b) e = Some kv) as (kv & HM & Hs).
  { destruct (bo_slot _ _ _ _ _ Hb e (Hall e Hi)) as (kv & Hs & _). exists kv.
    rewrite HMi, (live_in_seq _ _ _ _ _ _ Hno Hb). unfold occ_in. by rewrite Hall. }
  pose proof (wf_nonzero _ _ _ _ _ _ Hwf HM) as Hnz.
  apply (runs_focus None (main b) (main_block b)); [done.. |]. apply runs_dec_pb; [done |].
  assert (Hrest : ∀ m s, (m = main b ∨ ∃ t, m = set_removed t (main b)) →
    lru_ok (put_block None m (main_block b) (num_entries b - 1) (set_lru_list s b)) (removelast l) →
    runs (let! m := load_meta None in
          dassert (negb (Z.land (occupied_bitmap m) (one_shl e) =? 0)) ;;
          store_meta None (λ m, set_occupied (Z.land (occupied_bitmap m) (unot 32 (one_shl e))) m) ;;
          (let! kv := move_slot None e in Ret (Some kv)))
      (put_block None m (main_block b) (num_entries b - 1) (set_lru_list s b)) (λ r b',
        match r with
        | Some kv => M !! (None, e) = Some kv ∧ wf b' cs (delete (None, e) O) (delete (None, e) M) ∧
            lru_ok b' (removelast l) ∧ ∀ i, (i < BUCKET_LEN)%nat → is_Some (M !! (None, i))
        | None => b' = b ∧ ∃ i, (i < BUCKET_LEN)%nat ∧ M !! (None, i) = None
        end ∧ same_flags b b')).
  { intros m s Hm Hl'. apply (runs_load_meta_pb None (set_lru_list s b) I).
    apply runs_dassert.
    { apply bit_land_ne0. destruct Hm as [-> | [t ->]]; by apply Hall. }
    apply (runs_store_meta_pb None (set_lru_list s b) I).
    apply (runs_move_slot_pb None (set_lru_list s b) I e kv); [done |]. apply runs_ret.
    split; [| auto with scc]. split; [done |]. split; [| split; [exact Hl' |]].
    2:{ intros i Hi'. destruct (bo_slot _ _ _ _ _ Hb i (Hall i Hi')) as (kv' & Hs' & _).
        rewrite HMi, (live_in_seq _ _ _ _ _ _ Hno Hb). unfold occ_in. rewrite (Hall i Hi'). eauto. }
    eapply (wf_del TYPE ph b cs O M None e (main b)); try done.
    - destruct Hm as [-> | Hm]; [by left | by right].
    - intros _. exists (removelast l). exact Hl'. }
  apply runs_bind, runs_zoom_lru. eapply runs_mono; [| apply runs_evict; exact (proj2 Hl)].
  intros [[x t] |] s Hev.
  - destruct Hev as (l' & Hleq & Hrep). assert (He' : x = e) by (unfold e; by rewrite Hleq, last_snoc).
    assert (Hl' : removelast l = l') by (rewrite Hleq; apply removelast_last).
    rewrite He'. apply runs_bind, runs_bind, runs_last. eapply (runs_store_meta None); [done |].
    apply (Hrest (set_removed (Z.of_nat t) (main b)) s); [right; eauto |].
    rewrite Hl'. split; cbn; [lia |]. by rewrite Nat2Z.id.
  - destruct Hev as [-> ->]. cbn [bind].
    apply (Hrest (main b) (lru_list b)); [by left |]. cbn [removelast].
    rewrite set_lru_id. by eapply lru_put_block.
Qed.
End Spec.
