(* ===== verification/BucketLinks.v ===== *)
(** * The linked buckets of a bucket

    Insertion, which may add a linked bucket, extraction, which may remove one, and the
    operations that drop all of them. *)
From S2P Require Import Prelude Atomic Lru Bucket BucketInv BucketQuery BucketOps BucketSpec.

Local Open Scope Z_scope.

Section Links.
Context {K V : Type} `{EqDecision K} (TYPE : bucket_type) (ph : K → Z).

Implicit Types (b : Bucket K V) (O M : gmap pos (K * V)) (m : Metadata) (d : list (option (K * V)))
  (n : nat) (p : option nat) (q : pos) (i c : nat) (cs : list nat) (kv : K * V).

Local Notation wf := (wf TYPE ph).
Local Notation block_ok := (block_ok TYPE ph).

(** ** A free slot *)

Lemma block_free p m d : block_ok p m d →
  let i := trailing_ones 32 (occupied_bitmap m) in
  (i ≤ block_len p)%nat ∧ ((i < block_len p)%nat → bit (occupied_bitmap m) i = false) ∧
  (i = block_len p → ∀ j, (j < block_len p)%nat → is_Some (occ_in m d j)).
Proof.
  intros Hb i. pose proof (block_len_le p) as Hle.
  assert (Hi : (i ≤ block_len p)%nat).
  { destruct (decide (i ≤ block_len p)%nat); [done |].
    assert (Ho : bit (occupied_bitmap m) (block_len p) = true) by (apply (trailing_ones_below 32); fold i; lia).
    pose proof (occ_lt _ _ _ _ _ _ Hb Ho). lia. }
  split; [done |]. split.
  - intros Hlt. apply trailing_ones_bit. fold i. lia.
  - intros Heq j Hj. assert (Ho : bit (occupied_bitmap m) j = true).
    { apply (trailing_ones_below 32). fold i. lia. }
    unfold occ_in. rewrite Ho. destruct (bo_slot _ _ _ _ _ Hb j Ho) as (kv & -> & _). eauto.
Qed.

Lemma runs_free_slot b cs O M n :
  wf b cs O M → (length cs < n)%nat → num_entries b ≠ u32_max →
  runs (free_slot n) b (λ r b', b' = b ∧
    match r with
    | Some (p, i) => ∃ m d, get_meta p b = Some m ∧ get_block p b = Some d ∧ (i < block_len p)%nat ∧
        bit (occupied_bitmap m) i = false
    | None => ∀ q, q ∈ positions cs → is_Some (O !! q)
    end).
Proof.
  intros Hwf Hn Hnum. unfold free_slot. apply runs_load. rewrite (proj2 (Z.eqb_neq _ _)) by done.
  destruct (has_block None b I) as (m & d & Hm & Hd).
  pose proof (wf_block _ _ _ _ _ _ Hwf _ _ _ Hm Hd) as Hb.
  eapply runs_load_meta; [done |]. cbv zeta.
  destruct (block_free None m d Hb) as (Hle & Hfree & Hfull).
  destruct (Nat.eqb_spec (trailing_ones 32 (occupied_bitmap m)) BUCKET_LEN) as [He | Hne].
  2:{ apply runs_ret. split; [done |]. exists m, d.
      change (block_len None) with BUCKET_LEN in *.
      split; [done |]. split; [done |]. split; [lia | apply Hfree; lia]. }
  assert (Hmain : ∀ i, (i < BUCKET_LEN)%nat → is_Some (O !! (None, i))).
  { intros i Hi. rewrite (wf_occ _ _ _ _ _ _ Hwf _ _ _ _ Hm Hd). by apply Hfull. }
  clear Hle Hfree Hfull He.
  assert (Hgen : ∀ cs2 prev p n, chained (links b) prev p cs2 → (length cs2 < n)%nat →
    runs (loop n (λ link_ptr,
        match link_ptr with
        | Some i =>
            let! m := load_meta (Some i) in
            let free_index := trailing_ones 32 (occupied_bitmap m) in
            if (free_index =? LINKED_BUCKET_LEN)%nat then Ret (Continue (link m))
            else Ret (Break (Some (Some i, free_index)))
        | None => Ret (Break None)
        end) p) b (λ r b', b' = b ∧
      match r with
      | Some (p, i) => ∃ m d, get_meta p b = Some m ∧ get_block p b = Some d ∧ (i < block_len p)%nat ∧
          bit (occupied_bitmap m) i = false
      | None => ∀ q, q ∈ linked_positions cs2 → is_Some (O !! q)
      end)).
  { induction cs2 as [| c cs2 IH]; intros prev p n' Hc Hn'; (destruct n' as [| n']; [cbn in Hn'; lia |]);
      apply runs_loop.
    - cbn in Hc. subst p. apply runs_ret. split; [done |]. intros q Hq. by apply elem_of_nil in Hq.
    - pose proof Hc as [-> _].
      destruct (wf_linked _ _ _ _ _ _ _ _ _ Hwf Hc) as (cs'' & [= <-] & m' & d' & Hm' & Hd' & Hb' & Hc').
      eapply runs_load_meta; [done |]. cbv zeta.
      destruct (block_free _ m' d' Hb') as (Hle & Hfree & Hfull).
      change (block_len (Some c)) with LINKED_BUCKET_LEN in *.
      destruct (Nat.eqb_spec (trailing_ones 32 (occupied_bitmap m')) LINKED_BUCKET_LEN) as [He | Hne'];
        apply runs_ret.
      + eapply runs_mono; [| eapply IH; [exact Hc' | cbn in Hn'; lia]].
        intros [[p' i] |] b' [-> Hpost]; (split; [done |]); [done |].
        intros q Hq. unfold linked_positions in Hq. rewrite fmap_cons in Hq. cbn [concat] in Hq.
        apply elem_of_app in Hq as [Hq | Hq]; [| by apply Hpost].
        destruct q as [p' i]. apply elem_of_from in Hq as [-> [_ Hi]].
        rewrite (wf_occ _ _ _ _ _ _ Hwf _ _ _ _ Hm' Hd'). by apply Hfull.
      + split; [done |]. exists m', d'. split; [done |]. split; [done |].
        change (block_len (Some c)) with LINKED_BUCKET_LEN. split; [lia | apply Hfree; lia]. }
  injection Hm as <-. eapply runs_mono; [| apply (Hgen cs None); [apply Hwf | done]].
  intros [[p' i] |] b' [-> Hpost]; (split; [done |]); [done |].
  intros q [Hq | Hq]%elem_of_app; [| by apply Hpost].
  destruct q as [p' i]. apply elem_of_from in Hq as [-> [_ Hi]]. by apply Hmain.
Qed.

(** ** A new linked bucket *)

(** The new linked bucket [c], in front of the others. *)
Definition add_link (c : nat) b : Bucket K V :=
  let head := link (main b) in
  let ls := <[c := linked_bucket_new head]> (links b) in
  set_links (match head with Some h => alter (set_prev_link (Some c)) h ls | None => ls end)
    (set_main (set_link (Some c) (main b)) b).

Lemma block_ok_link p m d x : block_ok p m d → block_ok p (set_link x m) d.
Proof. intros Hb. constructor; apply Hb. Qed.

Lemma block_ok_new c x :
  block_ok (Some c) (set_link x (metadata_default LINKED_BUCKET_LEN))
    (replicate LINKED_BUCKET_LEN (@None (K * V))).
Proof.
  assert (Hbit : ∀ i, bit 0 i = true → False) by (intros i; by rewrite bit_0).
  constructor; [done | done | apply in_word_0 | |].
  - intros _ i Hi. by apply Hbit in Hi.
  - intros i Hi. by apply Hbit in Hi.
Qed.

(** A bucket with the same blocks and other links: what is new is empty, and what is
    gone was. *)
Lemma wf_relink b b' cs cs' O M :
  wf b cs O M → NoDup cs' → (∀ i, is_Some (links b' !! i) ↔ i ∈ cs') →
  chained (links b') None (link (main b')) cs' →
  (∀ p m d, get_meta p b' = Some m → get_block p b' = Some d →
     (∃ m0 x, get_meta p b = Some m0 ∧ get_block p b = Some d ∧ m = set_link x m0) ∨
     (block_ok p m d ∧ occupied_bitmap m = 0 ∧ ¬ has p b)) →
  (∀ c, c ∈ cs → c ∉ cs' → ∀ i, O !! (Some c, i) = None) →
  num_entries b' = num_entries b → lru_list b' = lru_list b →
  removed_bitmap_or_lru_tail (main b') = removed_bitmap_or_lru_tail (main b) →
  wf b' cs' O M.
Proof.
  intros Hwf Hnd Hdom Hchain Hblk Hgone Hnum Hlru Hrem.
  assert (HM0 : ∀ q, O !! q = None → M !! q = None).
  { intros q Hq. destruct (M !! q) as [kv |] eqn:HM; [| done].
    pose proof (lookup_weaken _ _ _ _ HM (wf_sub _ _ _ _ _ _ Hwf)). congruence. }
  constructor; try done.
  - intros p m d Hm Hd. destruct (Hblk p m d Hm Hd) as [(m0 & x & Hm0 & Hd0 & ->) | [? _]]; [| done].
    apply block_ok_link. by eapply wf_block.
  - intros p i m d Hm Hd. destruct (Hblk p m d Hm Hd) as [(m0 & x & Hm0 & Hd0 & ->) | (_ & Hz & Hn)].
    + by apply (wf_occ _ _ _ _ _ _ Hwf p i m0 d).
    + destruct (wf_out _ _ _ _ _ _ Hwf p i Hn) as [-> _]. unfold occ_in. by rewrite Hz, bit_0.
  - intros p i m d Hm Hd. destruct (Hblk p m d Hm Hd) as [(m0 & x & Hm0 & Hd0 & ->) | (_ & Hz & Hn)].
    + by apply (wf_live _ _ _ _ _ _ Hwf p i m0 d).
    + destruct (wf_out _ _ _ _ _ _ Hwf p i Hn) as [_ ->]. unfold live_in.
      destruct (bit (reachable_bitmap TYPE m) i) eqn:Hr; [| done].
      apply reachable_occ in Hr. by rewrite Hz, bit_0 in Hr.
  - intros p i Hp. destruct (decide (O !! (p, i) = None)) as [Ho |]; [split; [done | by apply HM0] |].
    destruct p as [c |]; [| by destruct Hp]. cbn in Hp. rewrite Hdom in Hp.
    assert (Ho : O !! (Some c, i) = None); [| by split; [| apply HM0]].
    destruct (decide (c ∈ cs)) as [Hc | Hc]; [by apply Hgone |].
    apply (wf_out _ _ _ _ _ _ Hwf). cbn. by rewrite (wf_dom _ _ _ _ _ _ Hwf).
  - rewrite Hnum. apply Hwf.
  - rewrite Hnum. apply Hwf.
  - intros Ht. destruct (wf_lru _ _ _ _ _ _ Hwf Ht) as [l Hl]. exists l. unfold lru_ok. by rewrite Hlru, Hrem.
Qed.

Lemma wf_head b cs O M : wf b cs O M → link (main b) = head cs.
Proof. intros Hwf. pose proof (wf_chain _ _ _ _ _ _ Hwf) as Hc. destruct cs; [done | by destruct Hc]. Qed.

Lemma lookup_add_link c b i :
  link (main b) ≠ Some c →
  links (add_link c b) !! i =
    if decide (i = c) then Some (linked_bucket_new (link (main b)))
    else if decide (link (main b) = Some i) then set_prev_link (Some c) <$> links b !! i else links b !! i.
Proof.
  intros Hc. unfold add_link. cbn. destruct (link (main b)) as [h |] eqn:Hh; cbn.
  - destruct (decide (h = i)) as [-> | Hne].
    + rewrite lookup_alter_eq, lookup_insert_ne by congruence.
      rewrite decide_False by congruence. by rewrite decide_True.
    + rewrite lookup_alter_ne by done. rewrite (decide_False (P := Some h = Some i)) by congruence.
      destruct (decide (i = c)) as [-> | Hic]; [by rewrite lookup_insert_eq | by rewrite lookup_insert_ne].
  - destruct (decide (i = c)) as [-> | Hic]; [by rewrite lookup_insert_eq | by rewrite lookup_insert_ne].
Qed.

Lemma wf_add_link b cs O M c :
  wf b cs O M → links b !! c = None → wf (add_link c b) (c :: cs) O M.
Proof.
  intros Hwf Hc. pose proof (wf_head _ _ _ _ Hwf) as Hhead.
  assert (Hcs : c ∉ cs) by (rewrite <-(wf_dom _ _ _ _ _ _ Hwf), Hc; by intros [? ?]).
  assert (Hne : link (main b) ≠ Some c).
  { rewrite Hhead. intros Hh. apply Hcs. destruct cs as [| h r]; [done |]. injection Hh as ->. left. }
  assert (Hlk := λ i, lookup_add_link c b i Hne).
  assert (Hblk : ∀ i lb, i ≠ c → links (add_link c b) !! i = Some lb → ∃ lb0, links b !! i = Some lb0 ∧
    metadata lb = metadata lb0 ∧ data_block lb = data_block lb0).
  { intros i lb Hi. rewrite Hlk, decide_False by done. case_decide; [| eauto].
    destruct (links b !! i) as [lb0 |]; [| done]. intros [= <-]. eauto. }
  apply (wf_relink b _ cs (c :: cs)); try done.
  - constructor; [done | apply Hwf].
  - intros i. rewrite Hlk, elem_of_cons, <-(wf_dom _ _ _ _ _ _ Hwf).
    destruct (decide (i = c)) as [-> |]; [by split; [left | eauto] |].
    case_decide; rewrite ?fmap_is_Some; tauto.
  - split; [done |]. eexists. rewrite Hlk, decide_True by done. split; [done |]. split; [done |].
    cbn [linked_bucket_new metadata set_link link].
    pose proof (wf_chain _ _ _ _ _ _ Hwf) as Hch. pose proof (wf_nodup _ _ _ _ _ _ Hwf) as Hnd.
    rewrite Hhead in Hlk, Hch |- *. destruct cs as [| h r]; [done |]. cbn [head] in *.
    destruct Hch as (_ & lb & Hlb & Hprev & Hch). apply not_elem_of_cons in Hcs as [Hch' Hcr].
    apply NoDup_cons in Hnd as [Hhr Hnd]. split; [done |]. eexists.
    rewrite Hlk, decide_False, decide_True, Hlb by congruence. split; [done |]. split; [done |].
    eapply chained_ext; [| exact Hch]. intros i lb' Hi Hlb'. exists lb'.
    rewrite Hlk, decide_False by (intros ->; done). by rewrite decide_False by (intros [= ->]; done).
  - intros p m d Hm Hd. destruct p as [i |]; cbn [get_meta get_block] in Hm, Hd.
    + destruct (decide (i = c)) as [-> | Hi].
      * right. rewrite Hlk, decide_True in Hm, Hd by done. cbn in Hm, Hd. injection Hm as <-. injection Hd as <-.
        split; [apply block_ok_new |]. split; [done |]. cbn. rewrite Hc. by intros [? ?].
      * left. destruct (links (add_link c b) !! i) as [lb |] eqn:Hlb; [| done].
        destruct (Hblk i lb Hi Hlb) as (lb0 & Hlb0 & Hm0 & Hd0). cbn in Hm, Hd. cbn. rewrite Hlb0. cbn.
        exists (metadata lb0), (link (metadata lb0)). split; [done |]. split; [congruence |].
        injection Hm as <-. rewrite Hm0. by destruct (metadata lb0).
    + left. exists (main b), (Some c). injection Hm as <-. done.
  - intros c' Hc' Hn. exfalso. apply Hn. by right.
Qed.

(** ** Insertion *)

(** The LRU list is not touched. *)
Definition same_lru b b' : Prop :=
  lru_list b' = lru_list b ∧ removed_bitmap_or_lru_tail (main b') = removed_bitmap_or_lru_tail (main b).

Lemma same_lru_ok b b' l : same_lru b b' → lru_ok b l → lru_ok b' l.
Proof. unfold lru_ok. by intros [-> ->]. Qed.

Lemma add_link_eq c b h kv :
  links b !! c = None → link (main b) ≠ Some c →
  let m0 := set_link (link (main b)) (metadata_default LINKED_BUCKET_LEN) in
  let b1 := set_links (<[c := linked_bucket_new (link (main b))]> (links b)) b in
  let b2 := put_block (Some c) (set_occupied 1 (set_hash 0 h m0))
    (<[0%nat := Some kv]> (replicate LINKED_BUCKET_LEN None)) (num_entries b) b1 in
  let b3 := match link (main b) with
            | Some head => set_links (alter (set_prev_link (Some c)) head (links b2)) b2
            | None => b2
            end in
  set_num_entries (num_entries b + 1) (put_meta None (set_link (Some c)) b3) =
    put_block (Some c) (with_bit 0 h m0) (<[0%nat := Some kv]> (replicate LINKED_BUCKET_LEN None))
      (num_entries b + 1) (add_link c b).
Proof.
  intros Hc Hne m0 b1 b2 b3. unfold b3, add_link. destruct (link (main b)) as [h' |] eqn:Hh; [| reflexivity].
  assert (Hhc : h' ≠ c) by congruence.
  unfold b2, b1, put_block, put_meta, set_num_entries, set_links, set_main. cbn. f_equal.
  apply map_eq. intros j. destruct (decide (j = c)) as [-> | Hjc].
  - rewrite lookup_alter_ne, !lookup_alter_eq, lookup_alter_ne, lookup_insert_eq by done. reflexivity.
  - destruct (decide (j = h')) as [-> | Hjh].
    + rewrite lookup_alter_eq, (lookup_alter_ne _ _ c) by done.
      by rewrite (lookup_alter_ne _ _ c), lookup_alter_eq by done.
    + by rewrite !lookup_alter_ne by done.
Qed.

Lemma runs_insert_linked b cs O M h kv :
  wf b cs O M → num_entries b ≠ u32_max → h = ph kv.1 →
  runs (insert_linked h kv) b (λ r b', ∃ c,
    r = ptr_of (Some c, 0%nat) ∧ c ∉ cs ∧ O !! (Some c, 0%nat) = None ∧ M !! (Some c, 0%nat) = None ∧
    wf b' (c :: cs) (<[(Some c, 0%nat) := kv]> O) (<[(Some c, 0%nat) := kv]> M) ∧
    same_flags b b' ∧ same_lru b b').
Proof.
  intros Hwf Hn Hh. unfold insert_linked. eapply runs_load_meta; [done |]. apply runs_act. cbn [fst snd].
  set (c := fresh (dom (links b))).
  assert (Hc : links b !! c = None).
  { apply not_elem_of_dom. apply is_fresh. }
  assert (Hcs : c ∉ cs) by (rewrite <-(wf_dom _ _ _ _ _ _ Hwf), Hc; by intros [? ?]).
  assert (Hne : link (main b) ≠ Some c).
  { rewrite (wf_head _ _ _ _ Hwf). intros He. apply Hcs. destruct cs as [| x r]; [done |]. injection He as ->. left. }
  set (b1 := set_links _ _).
  set (m0 := set_link (link (main b)) (metadata_default LINKED_BUCKET_LEN)).
  assert (Hm : get_meta (Some c) b1 = Some m0) by (cbn; by rewrite lookup_insert_eq).
  assert (Hd : get_block (Some c) b1 = Some (replicate LINKED_BUCKET_LEN None)) by (cbn; by rewrite lookup_insert_eq).
  assert (Hp : has (Some c) b1) by (cbn; rewrite lookup_insert_eq; eauto).
  apply (runs_focus (Some c) m0 (replicate LINKED_BUCKET_LEN None)); [done.. |].
  apply (runs_write_slot_pb (Some c) b1 Hp); [vm_compute; lia |].
  apply (runs_store_meta_pb (Some c) b1 Hp). apply (runs_store_meta_pb (Some c) b1 Hp).
  apply (runs_load_meta_pb (Some c) b1 Hp).
  pose proof (add_link_eq c b h kv Hc Hne) as Heq. cbv zeta in Heq. fold m0 b1 in Heq.
  change (num_entries b) with (num_entries b1) in Heq. set (b2 := put_block (Some c) _ _ _ b1) in *.
  cbn [link set_occupied set_hash m0 set_link].
  set (b3 := match link (main b) with Some _ => _ | None => b2 end) in Heq.
  apply (runs_call _ _ _ (λ _ b', b' = b3)).
  { unfold b3. destruct (link (main b)) as [x |] eqn:Hx; [| by apply runs_ret].
    assert (Hlk : is_Some (links b2 !! x)).
    { unfold b2. cbn. rewrite lookup_alter_ne, lookup_insert_ne by congruence.
      apply (wf_dom _ _ _ _ _ _ Hwf). rewrite (wf_head _ _ _ _ Hwf) in Hx.
      destruct cs as [| x' r]; [done |]. injection Hx as ->. left. }
    destruct Hlk as [lb Hlb]. eapply runs_load_linked; [exact Hlb |].
    apply runs_act. by apply runs_ret. }
  intros _ b' ->. apply runs_bind. unfold swap_link. eapply runs_load_meta; [done |].
  apply runs_bind, runs_last. eapply runs_store_meta; [done |]. apply runs_ret. apply runs_ret.
  assert (Hnum : num_entries (put_meta None (set_link (Some c)) b3) = num_entries b).
  { unfold b3. by destruct (link (main b)). }
  unfold inc_entries. apply runs_bind, runs_act. cbn [fst snd]. rewrite Hnum.
  rewrite (proj2 (Z.eqb_neq _ _)) by done. apply runs_act. cbn [fst snd]. apply runs_ret. apply runs_ret.
  change (num_entries b1) with (num_entries b) in Heq. rewrite Heq. exists c. split; [done |]. split; [done |].
  assert (Hnh : ¬ has (Some c) b) by (cbn; rewrite Hc; by intros [? ?]).
  destruct (wf_out _ _ _ _ _ _ Hwf (Some c) 0 Hnh) as [HO HM]. split; [done |]. split; [done |].
  pose proof (wf_add_link _ _ _ _ c Hwf Hc) as Hwf'. pose proof (lookup_add_link c b c Hne) as Hlk.
  rewrite decide_True in Hlk by done.
  split; [| by destruct (link (main b))].
  change (num_entries b) with (num_entries (add_link c b)).
  apply wf_add; [done | unfold get_meta; by rewrite Hlk | unfold get_block; by rewrite Hlk |
    vm_compute; lia | apply bit_0 | done | done].
Qed.

Lemma runs_insert_at b cs O M slot h kv :
  wf b cs O M → num_entries b ≠ u32_max → h = ph kv.1 →
  match slot with
  | Some (p, i) => ∃ m d, get_meta p b = Some m ∧ get_block p b = Some d ∧ (i < block_len p)%nat ∧
      bit (occupied_bitmap m) i = false
  | None => True
  end →
  runs (insert_at slot h kv) b (λ r b', ∃ q cs',
    r = ptr_of q ∧ O !! q = None ∧ M !! q = None ∧
    wf b' cs' (<[q := kv]> O) (<[q := kv]> M) ∧ same_flags b b' ∧ same_lru b b' ∧
    cs' = (if slot is Some _ then cs else default 0%nat (q.1) :: cs)).
Proof.
  intros Hwf Hn Hh Hslot. destruct slot as [[p i] |]; cbn [insert_at].
  - destruct Hslot as (m & d & Hm & Hd & Hi & Hf). pose proof (get_meta_has _ _ _ Hm) as Hp.
    pose proof (wf_block _ _ _ _ _ _ Hwf _ _ _ Hm Hd) as Hb.
    destruct (wf_lookup_free _ _ _ _ _ _ _ _ _ _ Hwf Hm Hd Hf) as [HO HM].
    apply runs_bind. apply (runs_focus p m d); [done.. |].
    apply (runs_write_slot_pb p b Hp); [by rewrite (bo_data _ _ _ _ _ Hb) |].
    apply (runs_store_meta_pb p b Hp). apply runs_last, (runs_store_meta_pb p b Hp). apply runs_ret.
    apply runs_inc_pb; [done |]. apply runs_ret. exists (p, i), cs.
    split; [done |]. split; [done |]. split; [done |]. split; [| split; [auto with scc |]].
    + exact (wf_add TYPE ph b cs O M p i m d kv h Hwf Hm Hd Hi Hf Hn Hh).
    + split; [| done]. destruct p; [done |]. injection Hm as <-. done.
  - eapply runs_mono; [| by eapply runs_insert_linked].
    intros r b' (c & -> & Hc & HO & HM & Hwf' & Hf & Hl). exists (Some c, 0%nat), (c :: cs). done.
Qed.

(** ** Unlinking *)

Definition or_prev (o prev : option nat) : option nat := match o with Some y => Some y | None => prev end.

Lemma chained_at (ls : gmap nat (LinkedBucket K V)) prev p cs1 c cs2 :
  chained ls prev p (cs1 ++ c :: cs2) →
  ∃ lb, ls !! c = Some lb ∧ prev_link lb = or_prev (last cs1) prev ∧ link (metadata lb) = head cs2.
Proof.
  revert prev p. induction cs1 as [| a cs1 IH]; intros prev p Hc; destruct Hc as (-> & lb & Hlb & Hprev & Hc).
  - exists lb. split; [done |]. split; [done |]. destruct cs2; [exact Hc | by destruct Hc].
  - destruct (IH _ _ Hc) as (lb' & ? & Hp & ?). exists lb'. split; [done |]. split; [| done].
    rewrite Hp. rewrite last_cons. by destruct (last cs1).
Qed.

Lemma chained_last (ls : gmap nat (LinkedBucket K V)) prev p cs1 a c cs2 :
  last cs1 = Some a → chained ls prev p (cs1 ++ c :: cs2) →
  ∃ la, ls !! a = Some la ∧ link (metadata la) = Some c.
Proof.
  intros Hl Hc. apply last_Some in Hl as [cs0 ->]. rewrite <-app_assoc in Hc. cbn in Hc.
  destruct (chained_at _ _ _ _ _ _ Hc) as (la & ? & _ & ?). by exists la.
Qed.

Lemma chained_unlink (ls ls' : gmap nat (LinkedBucket K V)) prev p cs1 c cs2 :
  NoDup (cs1 ++ c :: cs2) → chained ls prev p (cs1 ++ c :: cs2) →
  (∀ a x, a ∈ cs1 → ls !! a = Some x → ∃ x', ls' !! a = Some x' ∧ prev_link x' = prev_link x ∧
     link (metadata x') = if decide (last cs1 = Some a) then head cs2 else link (metadata x)) →
  (∀ a x, a ∈ cs2 → ls !! a = Some x → ∃ x', ls' !! a = Some x' ∧ link (metadata x') = link (metadata x) ∧
     prev_link x' = if decide (head cs2 = Some a) then or_prev (last cs1) prev else prev_link x) →
  chained ls' prev (match cs1 with [] => head cs2 | _ => p end) (cs1 ++ cs2).
Proof.
  intros Hnd Hc H1 H2. revert prev p Hnd Hc H1 H2. induction cs1 as [| a cs1 IH]; intros prev p Hnd Hc H1 H2.
  - cbn [app] in *. destruct Hc as (-> & lb & Hlb & _ & Hc). destruct cs2 as [| x r]; [done |].
    destruct Hc as (_ & lx & Hlx & Hpx & Hc).
    apply NoDup_cons in Hnd as [_ Hnd]. apply NoDup_cons in Hnd as [Hx _].
    destruct (H2 x lx ltac:(left) Hlx) as (x' & Hx' & Hlk & Hpv). cbn in Hpv. rewrite decide_True in Hpv by done.
    split; [done |]. exists x'. split; [done |]. split; [done |]. rewrite Hlk.
    eapply chained_ext; [| exact Hc]. intros j lj Hj Hlj.
    destruct (H2 j lj ltac:(by right) Hlj) as (j' & Hj' & Hlkj & Hpvj). exists j'. split; [done |].
    rewrite Hlkj, Hpvj. split; [| done]. cbn. rewrite decide_False; [done |]. intros [= ->]. done.
  - destruct Hc as (-> & la & Hla & Hpa & Hc). apply NoDup_cons in Hnd as [Ha Hnd].
    destruct (H1 a la ltac:(left) Hla) as (a' & Ha' & Hpv & Hlk).
    cbn [app chained]. split; [done |]. exists a'. split; [done |]. split; [congruence |].
    replace (link (metadata a')) with (match cs1 with [] => head cs2 | _ => link (metadata la) end).
    2:{ rewrite Hlk, last_cons. destruct cs1 as [| a1 cs1]; [by rewrite decide_True |].
        destruct (last (a1 :: cs1)) as [y |] eqn:Hy; [| by apply last_None in Hy].
        rewrite decide_False; [done |]. intros [= ->]. apply Ha.
        change (a ∈ (a1 :: cs1) ++ c :: cs2). rewrite elem_of_app. left. by apply last_Some_elem_of. }
    apply (IH (Some a)); [done | done | |].
    + intros j x Hj Hx. destruct (H1 j x ltac:(by right) Hx) as (x' & ? & ? & Hlkj). exists x'.
      split; [done |]. split; [done |]. rewrite Hlkj, last_cons. destruct (last cs1) as [y |] eqn:Hy; [done |].
      apply last_None in Hy as ->. by apply elem_of_nil in Hj.
    + intros j x Hj Hx. destruct (H2 j x Hj Hx) as (x' & ? & ? & Hpj). exists x'. split; [done |]. split; [done |].
      rewrite Hpj, last_cons. by destruct (last cs1).
Qed.

(** The bucket without the linked bucket [c], whose neighbours are given. *)
Definition cut_link (c : nat) (prev next : option nat) b : Bucket K V :=
  let ls1 := alter (λ l, set_metadata (set_link None (metadata l)) l) c (links b) in
  let ls2 := match next with Some x => alter (set_prev_link prev) x ls1 | None => ls1 end in
  let b2 := put_meta prev (set_link next) (set_links ls2 b) in
  set_links (delete c (links b2)) b2.

Lemma lookup_cut_link c prev next b i :
  links (cut_link c prev next b) !! i =
    if decide (i = c) then None
    else (λ lb, {| metadata := if decide (prev = Some i) then set_link next (metadata lb) else metadata lb;
                   data_block := data_block lb;
                   prev_link := if decide (next = Some i) then prev else prev_link lb |}) <$> links b !! i.
Proof.
  unfold cut_link. cbn [links set_links]. destruct (decide (i = c)) as [-> | Hic]; [by rewrite lookup_delete_eq |].
  rewrite lookup_delete_ne by done.
  set (ls1 := alter _ c (links b)). set (ls2 := match next with Some _ => _ | None => ls1 end).
  assert (H1 : ls1 !! i = links b !! i) by (by apply lookup_alter_ne).
  assert (H2 : ls2 !! i = (λ lb, {| metadata := metadata lb; data_block := data_block lb;
    prev_link := if decide (next = Some i) then prev else prev_link lb |}) <$> links b !! i).
  { unfold ls2. destruct next as [x |]; [destruct (decide (x = i)) as [-> | Hne] |].
    - rewrite lookup_alter_eq, H1. destruct (links b !! i) as [[] |]; [| done]. cbn. by rewrite decide_True.
    - rewrite lookup_alter_ne, H1 by done. destruct (links b !! i) as [[] |]; [| done]. cbn.
      by rewrite decide_False by congruence.
    - rewrite H1. by destruct (links b !! i) as [[] |]. }
  destruct prev as [a |]; cbn.
  - destruct (decide (a = i)) as [-> | Hne].
    + rewrite lookup_alter_eq, H2. destruct (links b !! i); [| done]. cbn.
      by rewrite (decide_True (P := Some i = Some i)).
    + rewrite lookup_alter_ne, H2 by done. destruct (links b !! i); [| done]. cbn.
      by rewrite (decide_False (P := Some a = Some i)) by congruence.
  - rewrite H2. done.
Qed.

Lemma wf_cut_link b cs O M cs1 c cs2 lb :
  wf b cs O M → cs = cs1 ++ c :: cs2 → links b !! c = Some lb → occupied_bitmap (metadata lb) = 0 →
  wf (cut_link c (last cs1) (head cs2) b) (cs1 ++ cs2) O M.
Proof.
  intros Hwf Hcs Hlb Hz. pose proof (wf_nodup _ _ _ _ _ _ Hwf) as Hnd.
  pose proof (wf_chain _ _ _ _ _ _ Hwf) as Hch. rewrite Hcs in Hnd, Hch.
  assert (Hnc : c ∉ cs1 ++ cs2 ∧ NoDup (cs1 ++ cs2)).
  { rewrite <-Permutation_middle in Hnd. by apply NoDup_cons in Hnd. }
  destruct Hnc as [Hnc Hnd'].
  assert (Hne : ∀ a, a ∈ cs1 ++ cs2 → a ≠ c) by (intros a Ha ->; done).
  assert (Hlk := lookup_cut_link c (last cs1) (head cs2) b).
  assert (Hmain : link (main (cut_link c (last cs1) (head cs2) b)) =
    match cs1 with [] => head cs2 | _ => link (main b) end ∧
    ∃ x, main (cut_link c (last cs1) (head cs2) b) = set_link x (main b)).
  { destruct cs1 as [| a cs1]; [split; [done | by exists (head cs2)] |].
    destruct (last (a :: cs1)) as [y |] eqn:Hy; [| by apply last_None in Hy].
    split; [done |]. exists (link (main b)). by destruct b as [? ? ? [] ? ? ? ?]. }
  destruct Hmain as [Hmain [xm Hxm]].
  eapply (wf_relink b); [done | done | | | | | | |].
  - intros i. rewrite Hlk. destruct (decide (i = c)) as [-> | Hic].
    + split; [by intros [? ?] | done].
    + rewrite fmap_is_Some, (wf_dom _ _ _ _ _ _ Hwf), Hcs, !elem_of_app, elem_of_cons. tauto.
  - rewrite Hmain. eapply chained_unlink; [done | exact Hch | |].
    + intros a x Ha Hx. assert (Hac : a ≠ c) by (apply Hne, elem_of_app; by left).
      rewrite Hlk, decide_False, Hx by done. eexists. split; [done |]. cbn.
      assert (Hh : head cs2 ≠ Some a).
      { intros Hh. rewrite <-Permutation_middle in Hnd. apply NoDup_cons in Hnd as [_ Hnd].
        apply NoDup_app in Hnd as (_ & Hd & _). apply (Hd a Ha).
        destruct cs2; [done | injection Hh as ->; left]. }
      rewrite (decide_False (P := head cs2 = Some a)) by done. split; [done |]. by case_decide.
    + intros a x Ha Hx. assert (Hac : a ≠ c) by (apply Hne, elem_of_app; by right).
      rewrite Hlk, decide_False, Hx by done. eexists. split; [done |]. cbn.
      assert (Hl : last cs1 ≠ Some a).
      { intros Hl%last_Some_elem_of. rewrite <-Permutation_middle in Hnd. apply NoDup_cons in Hnd as [_ Hnd].
        apply NoDup_app in Hnd as (_ & Hd & _). by apply (Hd a Hl). }
      rewrite (decide_False (P := last cs1 = Some a)) by done. split; [done |].
      case_decide; [| done]. unfold or_prev. by destruct (last cs1).
  - intros p m d Hm Hd. left. destruct p as [i |]; cbn [get_meta get_block] in Hm, Hd |- *.
    + rewrite Hlk in Hm, Hd. case_decide; [done |].
      destruct (links b !! i) as [lb' |]; [| done]. cbn in Hm, Hd. injection Hm as <-. injection Hd as <-.
      exists (metadata lb'). case_decide; [by eexists |].
      exists (link (metadata lb')). split; [done |]. split; [done |]. by destruct (metadata lb').
    + exists (main b), xm. injection Hm as <-. split; [done |]. split; [| done].
      rewrite <-Hd. by destruct (last cs1).
  - intros c' Hc' Hn i. assert (c' = c) as ->.
    { rewrite Hcs in Hc'. apply elem_of_app in Hc' as [? | [-> | ?]%elem_of_cons]; [| done |];
        destruct Hn; apply elem_of_app; tauto. }
    rewrite (wf_occ _ _ _ _ _ _ Hwf (Some c) i (metadata lb) (data_block lb)); [| by cbn; rewrite Hlb..].
    unfold occ_in. by rewrite Hz, bit_0.
  - by destruct (last cs1).
  - by destruct (last cs1).
  - rewrite Hxm. done.
Qed.

(** Dropping a block without entries does nothing. *)
Lemma runs_drop_block_empty {R} p m (k : unit → prog (Bucket K V) R) b Q :
  get_meta p b = Some m → occupied_bitmap m = 0 → runs (k ()) b Q → runs (bind (drop_block p) k) b Q.
Proof.
  intros Hm Hz Hr. unfold drop_block. apply runs_bind. eapply runs_load_meta; [done |].
  rewrite Hz. apply runs_loop. exact Hr.
Qed.

Lemma runs_unlink b cs O M cs1 c cs2 lb i :
  TYPE ≠ OPTIMISTIC → wf b cs O M → cs = cs1 ++ c :: cs2 → links b !! c = Some lb →
  occupied_bitmap (metadata lb) = 0 →
  runs (unlink TYPE (ptr_of (Some c, i)) c) b (λ r b',
    wf b' (cs1 ++ cs2) O M ∧ same_flags b b' ∧ same_lru b b' ∧ ahead (cs1 ++ cs2) r (linked_positions cs2)).
Proof.
  intros Ht Hwf Hcs Hlb Hz. pose proof (wf_cut_link _ _ _ _ _ _ _ _ Hwf Hcs Hlb Hz) as Hwf'.
  pose proof (wf_chain _ _ _ _ _ _ Hwf) as Hch. pose proof (wf_nodup _ _ _ _ _ _ Hwf) as Hnd.
  rewrite Hcs in Hch, Hnd.
  destruct (chained_at _ _ _ _ _ _ Hch) as (lb0 & Hlb0 & Hpv & Hlk). simplify_eq.
  unfold unlink. eapply runs_load_linked; [done |]. rewrite decide_False by done. cbv zeta.
  rewrite Hpv. replace (or_prev (last cs1) None) with (last cs1) by (by destruct (last cs1)).
  set (ls1 := alter (λ l, set_metadata (set_link None (metadata l)) l) c (links b)).
  set (ls2 := match head cs2 with Some x => alter (set_prev_link (last cs1)) x ls1 | None => ls1 end).
  assert (Hnc : c ∉ cs1 ∧ c ∉ cs2 ∧ ∀ a, last cs1 = Some a → head cs2 ≠ Some a).
  { rewrite <-Permutation_middle in Hnd. apply NoDup_cons in Hnd as [Hn Hnd].
    apply NoDup_app in Hnd as (_ & Hd & _). rewrite elem_of_app in Hn.
    split; [tauto |]. split; [tauto |]. intros a Ha%last_Some_elem_of Hh. apply (Hd a Ha).
    destruct cs2; [done | injection Hh as ->; left]. }
  destruct Hnc as (Hc1 & Hc2 & Hph).
  assert (Hls2 : ∀ j, j ≠ c → head cs2 ≠ Some j → ls2 !! j = links b !! j).
  { intros j Hj Hjh. unfold ls2. destruct (head cs2) as [x |]; [rewrite lookup_alter_ne by congruence |];
      by apply lookup_alter_ne. }
  assert (Hls2c : ls2 !! c = Some (set_metadata (set_link None (metadata lb)) lb)).
  { unfold ls2. destruct (head cs2) as [x |] eqn:Hx.
    - rewrite lookup_alter_ne; [by unfold ls1; rewrite lookup_alter_eq, Hlb |].
      intros ->. apply Hc2. destruct cs2; [done | injection Hx as ->; left].
    - unfold ls1. by rewrite lookup_alter_eq, Hlb. }
  set (b2 := set_links ls2 b).
  assert (Hprev : ∃ mp, get_meta (last cs1) b2 = Some mp ∧ link mp = Some c).
  { destruct (last cs1) as [a |] eqn:Ha.
    - destruct (chained_last _ _ _ _ _ _ _ Ha Hch) as (la & Hla & Hlc). exists (metadata la).
      split; [| done]. cbn. rewrite Hls2, Hla; [done | | by apply Hph].
      intros ->. by apply last_Some_elem_of in Ha.
    - apply last_None in Ha as ->. exists (main b). split; [done |].
      cbn [app] in Hch. by destruct Hch as [? _]. }
  destruct Hprev as (mp & Hmp & Hlmp).
  apply (runs_call _ _ _ (λ r b', r = head cs2 ∧ b' = set_links ls1 b)).
  { unfold swap_link. eapply runs_load_meta; [cbn; by rewrite Hlb |].
    eapply runs_store_meta; [cbn; by rewrite Hlb |]. apply runs_ret. split; [exact Hlk | done]. }
  intros _ _ [-> ->]. apply (runs_call _ _ _ (λ _ b', b' = b2)).
  { unfold b2, ls2. destruct (head cs2) as [x |] eqn:Hx; [| by apply runs_ret].
    assert (Hlx : is_Some (ls1 !! x)).
    { unfold ls1. rewrite lookup_alter_ne.
      - apply (wf_dom _ _ _ _ _ _ Hwf). rewrite elem_of_app. right. right.
        destruct cs2; [done | injection Hx as ->; left].
      - intros ->. apply Hc2. destruct cs2; [done | injection Hx as ->; left]. }
    destruct Hlx as [lx Hlx]. eapply (runs_load_linked _ lx); [exact Hlx |]. apply runs_last, runs_act. by apply runs_ret. }
  intros _ _ ->. apply (runs_call _ _ _ (λ r b', r = Some c ∧ b' = put_meta (last cs1) (set_link (head cs2)) b2)).
  { unfold swap_link. eapply runs_load_meta; [done |]. eapply runs_store_meta; [done |]. by apply runs_ret. }
  intros _ _ [-> ->]. set (b3 := put_meta _ _ b2).
  apply (runs_call _ _ _ (λ _ b', b' = cut_link c (last cs1) (head cs2) b)).
  { unfold free_linked. eapply runs_drop_block_empty.
    - unfold b3. destruct (last cs1) as [a |] eqn:Ha; cbn.
      + rewrite lookup_alter_ne; [by rewrite Hls2c |]. intros ->. by apply last_Some_elem_of in Ha.
      + by rewrite Hls2c.
    - exact Hz.
    - apply runs_last, runs_act. by apply runs_ret. }
  intros _ _ ->. apply runs_ret. split; [done |]. split; [by destruct (last cs1) |].
  split; [split; destruct (last cs1); done |].
  destruct cs2 as [| x r]; cbn [head]; [constructor |].
  apply (ahead_link (cs1 ++ x :: r) cs1 x r LINKED_BUCKET_LEN). done.
Qed.

(** ** Extraction *)

(** What is left to visit from a pointer to an entry of a linked bucket. *)
Lemma ahead_linked_inv cs c i l cs1 cs2 :
  NoDup cs → cs = cs1 ++ c :: cs2 → ahead cs (ptr_of (Some c, i)) l →
  l = from (Some c) (start (Some c) i) ++ linked_positions cs2.
Proof.
  intros Hnd Hcs Ha. inversion Ha as [| cs1' c' cs2' i' Hcs' Hc Hl |]; subst c' i'.
  enough (cs2' = cs2) by by subst.
  assert (Heq : cs1 ++ c :: cs2 = cs1' ++ c :: cs2') by congruence. rewrite Hcs in Hnd.
  clear -Heq Hnd. revert cs1' Heq. induction cs1 as [| a cs1 IH]; intros [| a' cs1'] Heq; simplify_eq/=; try done.
  - apply NoDup_cons in Hnd as [Hn _]. destruct Hn. rewrite elem_of_app. right. left.
  - apply NoDup_cons in Hnd as [Hn _]. destruct Hn. rewrite elem_of_app. right. left.
  - apply NoDup_cons in Hnd as [_ Hnd]. by apply (IH Hnd cs1').
Qed.

Lemma runs_extract b cs O M q kv l :
  TYPE ≠ OPTIMISTIC → wf b cs O M → M !! q = Some kv → ahead cs (ptr_of q) l →
  runs (extract TYPE (ptr_of q)) b (λ r b', r.1 = kv ∧ ∃ cs' l',
    wf b' cs' (delete q O) (delete q M) ∧ same_flags b b' ∧ same_lru b b' ∧ (length cs' ≤ length cs)%nat ∧
    ahead cs' r.2 l' ∧ entries_at (delete q M) l' = entries_at (delete q M) l).
Proof.
  destruct q as [p i]. intros Ht Hwf HM Ha.
  destruct (wf_lookup _ _ _ _ _ _ _ _ _ Hwf HM) as (m & d & Hm & Hd & Hb & Hr & Hs & Hi).
  pose proof (get_meta_has _ _ _ Hm) as Hp. pose proof (wf_nonzero _ _ _ _ _ _ _ _ Hwf HM) as Hnz.
  unfold extract. apply runs_dassert; [by rewrite bool_decide_false |].
  cbn [current_index ptr_of snd fst current_link_ptr].
  pose proof (wf_del TYPE ph b cs O M p i m m d kv (lru_list b) Ht Hwf Hm Hd HM ltac:(by left)) as Hdel.
  rewrite set_lru_id in Hdel. set (b1 := put_block p (without_bit i m) _ _ b) in *.
  assert (Hwf1 : wf b1 cs (delete (p, i) O) (delete (p, i) M)).
  { apply Hdel. intros Hc. destruct (wf_lru _ _ _ _ _ _ Hwf Hc) as [l' Hl]. exists l'. by eapply lru_put_block. }
  clear Hdel. assert (Hf1 : same_flags b b1 ∧ same_lru b b1).
  { split; [apply same_flags_put_block |]. split; [by destruct p |]. destruct p; [done |]. by injection Hm as <-. }
  destruct Hf1 as [Hf1 Hl1].
  apply (runs_call _ _ _ (λ r b', r = kv ∧ b' = b1)).
  { unfold extract_entry. apply runs_dassert; [by apply Nat.ltb_lt |].
    apply (runs_focus p m d); [done.. |]. apply runs_dec_pb; [done |].
    apply (runs_store_meta_pb p b Hp). apply runs_last, (runs_move_slot_pb p b Hp i kv); [done |].
    by apply runs_ret. }
  intros _ _ [-> ->].
  assert (Hstay : ∀ cs0, cs0 = cs → runs (Ret (kv, ptr_of (p, i))) b1 (λ r b', r.1 = kv ∧ ∃ cs' l',
    wf b' cs' (delete (p, i) O) (delete (p, i) M) ∧ same_flags b b' ∧ same_lru b b' ∧ (length cs' ≤ length cs)%nat ∧
    ahead cs' r.2 l' ∧ entries_at (delete (p, i) M) l' = entries_at (delete (p, i) M) l)).
  { intros _ _. apply runs_ret. split; [done |]. by exists cs, l. }
  destruct p as [c |]; [| by apply (Hstay cs)].
  assert (Hm1 : get_meta (Some c) b1 = Some (without_bit i m)) by (by apply get_meta_pb).
  eapply runs_load_meta; [exact Hm1 |].
  destruct (Z.eqb_spec (occupied_bitmap (without_bit i m)) 0) as [Hz | Hnz']; [| by apply (Hstay cs)].
  assert (Hc : c ∈ cs) by (by apply (wf_dom _ _ _ _ _ _ Hwf)).
  apply list_elem_of_split in Hc as (cs1 & cs2 & Hcs).
  assert (Hlb : ∃ lb, links b1 !! c = Some lb ∧ metadata lb = without_bit i m).
  { cbn [get_meta] in Hm1. destruct (links b1 !! c) as [lb |]; [| done]. injection Hm1 as Hm1. eauto. }
  destruct Hlb as (lb & Hlb & Hlbm).
  apply runs_bind. eapply runs_mono; [| eapply runs_unlink; [done | exact Hwf1 | exact Hcs | exact Hlb | by rewrite Hlbm]].
  intros r b' (Hwf' & Hf' & Hl' & Ha'). apply runs_ret. split; [done |].
  exists (cs1 ++ cs2), (linked_positions cs2). split; [done |].
  split; [by eapply same_flags_trans |]. split; [destruct Hl1, Hl'; split; congruence |].
  split; [rewrite Hcs, !length_app; cbn; lia |]. split; [done |].
  rewrite (ahead_linked_inv _ _ _ _ _ _ (wf_nodup _ _ _ _ _ _ Hwf) Hcs Ha), entries_app.
  enough (entries_at (delete (Some c, i) M) (from (Some c) (start (Some c) i)) = []) as -> by done.
  apply filter_none. intros [p' j] [-> _]%elem_of_from [kv' Hkv'].
  destruct (wf_lookup _ _ _ _ _ _ _ _ _ Hwf1 Hkv') as (m' & d' & Hm' & _ & _ & Hr' & _).
  apply reachable_occ in Hr'. rewrite Hm1 in Hm'. injection Hm' as <-. rewrite Hz, bit_0 in Hr'. done.
Qed.
End Links.
