(* ===== verification/BucketDrop.v ===== *)
(** * Dropping the entries of a bucket

    [kill] drops the linked buckets, and [drop_entries] everything: each entry that
    occupies a slot is dropped once. *)
From S2P Require Import Prelude Atomic Lru Bucket BucketInv BucketQuery BucketOps BucketSpec BucketLinks.

Local Open Scope Z_scope.

Section Drop.
Context {K V : Type} `{EqDecision K} (TYPE : bucket_type) (ph : K → Z).

Implicit Types (b : Bucket K V) (O M : gmap pos (K * V)) (m : Metadata) (d : list (option (K * V)))
  (n : nat) (p : option nat) (q : pos) (i c : nat) (cs : list nat) (kv : K * V).

Local Notation wf := (wf TYPE ph).
Local Notation block_ok := (block_ok TYPE ph).

(** The entries at some positions. *)
Definition values_at (O : gmap pos (K * V)) (l : list pos) : list (K * V) := omap (λ q, O !! q) l.

Lemma values_at_app O l1 l2 : values_at O (l1 ++ l2) = values_at O l1 ++ values_at O l2.
Proof. apply omap_app. Qed.

Lemma values_at_perm O l :
  NoDup l → (∀ q kv, O !! q = Some kv → q ∈ l) → values_at O l ≡ₚ (map_to_list O).*2.
Proof.
  revert l. induction O as [| q kv O Hq IH] using map_ind; intros l Hnd Hin.
  - rewrite map_to_list_empty. cbn. clear. induction l as [| q l IH]; [done |]. csimpl.
    by rewrite lookup_empty.
  - rewrite map_to_list_insert by done. cbn [fmap list_fmap snd].
    assert (Hql : q ∈ l) by (eapply Hin, lookup_insert_eq).
    apply elem_of_Permutation in Hql as [l' Hl']. unfold values_at. rewrite Hl'. csimpl.
    rewrite lookup_insert_eq. constructor.
    rewrite Hl' in Hnd. apply NoDup_cons in Hnd as [Hq' Hnd].
    rewrite <-(IH l' Hnd).
    + unfold values_at. clear -Hq'. induction l' as [| x l' IHl]; [done |].
      apply not_elem_of_cons in Hq' as [Hx Hq']. csimpl. rewrite lookup_insert_ne by done.
      destruct (O !! x); by rewrite IHl.
    + intros q' kv' Hq1. assert (Hne : q' ≠ q) by congruence.
      assert (Hq2 : q' ∈ l) by (eapply Hin; rewrite lookup_insert_ne; [exact Hq1 | congruence]).
      rewrite Hl' in Hq2. by apply elem_of_cons in Hq2 as [-> |].
Qed.

(** ** One block *)

Lemma occ_values p m d :
  block_ok p m d →
  omap (occ_in m d) (seq 0 (block_len p)) = omap (slot d) (bits_of 32 (occupied_bitmap m)).
Proof.
  intros Hb. pose proof (block_len_le p) as Hle. unfold bits_of.
  assert (Hs : seq 0 32 = seq 0 (block_len p) ++ seq (block_len p) (32 - block_len p)).
  { rewrite <-seq_app. f_equal. lia. }
  rewrite Hs, filter_app, (filter_none _ (seq (block_len p) _)), app_nil_r.
  - clear Hs. induction (seq 0 (block_len p)) as [| i l IH]; [done |]. csimpl. unfold occ_in at 1.
    rewrite filter_cons. destruct (decide (bit (occupied_bitmap m) i = true)) as [Hi | Hi].
    + rewrite Hi. csimpl. destruct (slot d i); by rewrite IH.
    + by rewrite (not_true_is_false _ Hi).
  - intros i Hi%elem_of_seq Ho. pose proof (occ_lt _ _ _ _ _ _ Hb Ho). lia.
Qed.

Lemma add_dropped_put_block p m d (n : Z) b l l' :
  add_dropped l' (put_block p m d n (add_dropped l b)) = put_block p m d n (add_dropped (l ++ l') b).
Proof. destruct p; unfold put_block, add_dropped; cbn; by rewrite app_assoc. Qed.

Lemma runs_drop_block p b m d :
  get_meta p b = Some m → get_block p b = Some d → block_ok p m d →
  runs (drop_block p) b (λ _ b', ∃ m' d', link m' = link m ∧
    b' = put_block p m' d' (num_entries b)
      (add_dropped (omap (occ_in m d) (seq 0 (block_len p))) b)).
Proof.
  intros Hm Hd Hb. unfold drop_block. eapply runs_load_meta; [done |].
  rewrite (occ_values _ _ _ Hb). pose proof (get_meta_has _ _ _ Hm) as Hp.
  assert (Hgen : ∀ l m d acc n, bits_of 32 (occupied_bitmap m) = l → (∀ i, i ∈ l → is_Some (slot d i)) →
    (∀ i, i ∈ l → (i < length d)%nat) → (length l < n)%nat →
    runs (loop n (λ index,
      if (index =? 32)%nat then Ret (Break ())
      else
        let! kv := move_slot p index in
        modify (add_dropped [kv]) ;;
        store_meta p (λ m, set_occupied (occupied_bitmap m - one_shl index) m) ;;
        let! m := load_meta p in
        Ret (Continue (trailing_zeros 32 (occupied_bitmap m)))) (trailing_zeros 32 (occupied_bitmap m)))
      (put_block p m d (num_entries b) (add_dropped acc b)) (λ _ b', ∃ m' d', link m' = link m ∧
        b' = put_block p m' d' (num_entries b) (add_dropped (acc ++ omap (slot d) l) b))).
  { clear Hm Hd Hb m d. induction l as [| i l IH]; intros m d acc n Hl Hs Hlen Hn;
      (destruct n as [| n]; [cbn in Hn; lia |]); apply runs_loop.
    - rewrite (bits_of_nil _ _ Hl), Nat.eqb_refl. apply runs_ret. exists m, d. by rewrite app_nil_r.
    - destruct (bits_of_cons _ _ _ _ Hl) as (-> & Hi & Hr). rewrite (proj2 (Nat.eqb_neq i 32)) by lia.
      destruct (Hs i ltac:(left)) as [kv Hkv].
      apply (runs_move_slot_pb p (add_dropped acc b) Hp i kv); [done |].
      apply runs_act. cbn [fst snd bind]. rewrite add_dropped_put_block.
      apply (runs_store_meta_pb p (add_dropped (acc ++ [kv]) b) Hp).
      apply (runs_load_meta_pb p (add_dropped (acc ++ [kv]) b) Hp). apply runs_ret.
      set (m1 := set_occupied _ m). set (d1 := <[i := None]> d).
      assert (Hs1 : ∀ j, j ∈ l → slot d1 j = slot d j).
      { intros j Hj. unfold d1. rewrite slot_insert by (apply Hlen; left). rewrite decide_False; [done |].
        intros ->. assert (Hin : i ∈ bits_of 32 (occupied_bitmap m1)) by (rewrite <-Hr in Hj; exact Hj).
        pose proof (NoDup_bits_of 32 (occupied_bitmap m)) as Hnd. rewrite Hl in Hnd.
        by apply NoDup_cons in Hnd as [? _]. }
      eapply runs_mono; [| apply (IH m1 d1); [exact Hr | | | cbn in Hn; lia]].
      + intros _ b' (m' & d' & Hlk & ->). exists m', d'. split; [done |].
        csimpl. rewrite Hkv, <-app_assoc. cbn [app]. do 4 f_equal.
        clear -Hs1. induction l as [| j l IHl]; [done |]. csimpl. rewrite Hs1 by left.
        rewrite IHl; [done |]. intros k Hk. apply Hs1. by right.
      + intros j Hj. rewrite Hs1 by done. apply Hs. by right.
      + intros j Hj. unfold d1. rewrite length_insert. apply Hlen. by right. }
  apply (runs_focus p m d); [done.. |].
  assert (Hnil : add_dropped [] b = b) by (destruct b; unfold add_dropped; cbn; by rewrite app_nil_r).
  pose proof (Hgen (bits_of 32 (occupied_bitmap m)) m d [] 33%nat eq_refl) as Hg. rewrite Hnil in Hg. apply Hg.
  - intros i [_ Hi]%elem_of_bits_of. destruct (bo_slot _ _ _ _ _ Hb i Hi) as (kv & -> & _). eauto.
  - intros i [_ Hi]%elem_of_bits_of. rewrite (bo_data _ _ _ _ _ Hb). by eapply occ_lt.
  - pose proof (length_bits_of 32 (occupied_bitmap m)). lia.
Qed.

(** ** The linked buckets *)

Definition linked_values (ls : gmap nat (LinkedBucket K V)) (c : nat) : list (K * V) :=
  match ls !! c with
  | Some lb => omap (occ_in (metadata lb) (data_block lb)) (seq 0 LINKED_BUCKET_LEN)
  | None => []
  end.

Lemma free_linked_eq c b (l : list (K * V)) m d (n : Z) :
  let b2 := put_block (Some c) m d n (add_dropped l (put_meta (Some c) (set_link None) b)) in
  n = num_entries b →
  set_links (delete c (links b2)) b2 = add_dropped l (set_links (delete c (links b)) b).
Proof.
  intros b2 ->. unfold b2, put_block, set_links, add_dropped, put_meta. cbn. f_equal.
  apply map_eq. intros i. destruct (decide (i = c)) as [-> |]; [by rewrite !lookup_delete_eq |].
  by rewrite !lookup_delete_ne, !lookup_alter_ne by done.
Qed.

Lemma add_dropped_add b (l l' : list (K * V)) : add_dropped l' (add_dropped l b) = add_dropped (l ++ l') b.
Proof. unfold add_dropped. cbn. by rewrite app_assoc. Qed.

Lemma runs_clear_loop cs c prev b n :
  chained (links b) prev (Some c) (c :: cs) → NoDup (c :: cs) →
  (∀ i, is_Some (links b !! i) ↔ i ∈ c :: cs) →
  (∀ i lb, links b !! i = Some lb → block_ok (Some i) (metadata lb) (data_block lb)) →
  (length cs < n)%nat →
  runs (loop n (λ next,
        let! next_next := swap_link (Some next) None in
        free_linked next ;;
        match next_next with
        | Some next_next => Ret (Continue next_next)
        | None => Ret (Break ())
        end) c) b (λ _ b', b' = add_dropped (concat (linked_values (links b) <$> c :: cs)) (set_links ∅ b)).
Proof.
  revert c prev b n. induction cs as [| c' cs IH]; intros c prev b n Hc Hnd Hdom Hok Hn;
    (destruct n as [| n]; [cbn in Hn; lia |]); apply runs_loop;
    destruct Hc as (_ & lb & Hlb & Hprev & Hc).
  all: set (b3 := add_dropped (linked_values (links b) c) (set_links (delete c (links b)) b)).
  all: assert (Hstep : runs (free_linked c) (put_meta (Some c) (set_link None) b) (λ _ b', b' = b3)).
  1, 3: set (b1 := put_meta (Some c) (set_link None) b);
    assert (Hm1 : get_meta (Some c) b1 = Some (set_link None (metadata lb))) by (cbn; by rewrite lookup_alter_eq, Hlb);
    assert (Hd1 : get_block (Some c) b1 = Some (data_block lb)) by (cbn; by rewrite lookup_alter_eq, Hlb);
    unfold free_linked; eapply runs_call;
      [apply (runs_drop_block (Some c) b1 _ _ Hm1 Hd1 (block_ok_link _ _ _ _ _ _ (Hok c lb Hlb))) |];
    intros _ b' (m' & d' & _ & ->); apply runs_last, runs_act; apply runs_ret; cbn [fst snd];
    unfold b3, linked_values; rewrite Hlb; by apply free_linked_eq.
  all: apply (runs_call _ _ _ (λ r b', r = link (metadata lb) ∧ b' = put_meta (Some c) (set_link None) b)).
  1, 3: unfold swap_link; eapply runs_load_meta; [cbn; by rewrite Hlb |];
    eapply runs_store_meta; [cbn; by rewrite Hlb |]; by apply runs_ret.
  all: intros _ _ [-> ->]; eapply runs_call; [exact Hstep |]; intros _ _ ->.
  - cbn in Hc. rewrite Hc. apply runs_ret. unfold b3. rewrite fmap_cons. cbn [concat fmap list_fmap].
    rewrite app_nil_r. do 2 f_equal. apply map_eq. intros i. rewrite lookup_empty.
    destruct (decide (i = c)) as [-> |]; [by rewrite lookup_delete_eq |]. rewrite lookup_delete_ne by done.
    destruct (links b !! i) as [lbi |] eqn:Hi; [| done].
    assert (Hin : i ∈ [c]) by (apply Hdom; eauto). by apply list_elem_of_singleton in Hin.
  - pose proof Hc as [Hlc' _]. rewrite Hlc' in Hc |- *. apply runs_ret. apply NoDup_cons in Hnd as [Hnc Hnd].
    assert (Hlk : ∀ i, i ≠ c → links b3 !! i = links b !! i).
    { intros i Hi. unfold b3. cbn. by rewrite lookup_delete_ne. }
    assert (Hlc : links b3 !! c = None) by (unfold b3; cbn; by rewrite lookup_delete_eq).
    eapply runs_mono; [| apply (IH c' (Some c) b3 n); [| done | | | cbn in Hn; lia]].
    + intros _ b' ->. unfold b3 at 2. cbn [fmap list_fmap concat]. unfold add_dropped, set_links. cbn.
      f_equal. rewrite <-app_assoc. do 2 f_equal. f_equal.
      * unfold linked_values. rewrite Hlk; [done |]. intros ->. apply Hnc. left.
      * f_equal. apply list_fmap_ext. intros k x Hx. unfold linked_values. rewrite Hlk; [done |].
        intros ->. apply Hnc. right. by eapply list_elem_of_lookup_2.
    + eapply chained_ext; [| exact Hc]. intros i lbi Hi Hlbi. exists lbi.
      rewrite Hlk; [done |]. by intros ->.
    + intros i. destruct (decide (i = c)) as [-> | Hi].
      * rewrite Hlc. split; [by intros [? ?] | done].
      * rewrite Hlk, Hdom, elem_of_cons by done. tauto.
    + intros i lbi Hi. destruct (decide (i = c)) as [-> |]; [congruence |]. rewrite Hlk in Hi by done. by apply Hok.
Qed.

Lemma linked_values_at b cs O M : wf b cs O M →
  concat (linked_values (links b) <$> cs) = values_at O (linked_positions cs).
Proof.
  intros Hwf. assert (Hin : ∀ c, c ∈ cs → is_Some (links b !! c)) by (intros c; apply (wf_dom _ _ _ _ _ _ Hwf)).
  assert (Hgen : ∀ l, (∀ c, c ∈ l → is_Some (links b !! c)) →
    concat (linked_values (links b) <$> l) = values_at O (linked_positions l)); [| by apply Hgen].
  clear Hin. induction l as [| c l IH]; intros Hin; [done |].
  unfold linked_positions. rewrite !fmap_cons. cbn [concat]. rewrite values_at_app.
  fold (linked_positions l). rewrite <-IH by (intros x Hx; apply Hin; by right). f_equal.
  destruct (Hin c ltac:(left)) as [lb Hlb]. unfold linked_values. rewrite Hlb.
  unfold values_at, from. rewrite Nat.sub_0_r. change (block_len (Some c)) with LINKED_BUCKET_LEN.
  generalize (seq 0 LINKED_BUCKET_LEN) as s. induction s as [| i s IHs]; [done |]. csimpl.
  rewrite (wf_occ _ _ _ _ _ _ Hwf (Some c) i (metadata lb) (data_block lb)); [| by cbn; rewrite Hlb..].
  by rewrite IHs.
Qed.

Lemma runs_clear_links b cs O M n :
  wf b cs O M → (length cs < n)%nat →
  runs (clear_links n) b (λ _ b', b' = add_dropped (values_at O (linked_positions cs))
    (set_links ∅ (set_main (set_link None (main b)) b))).
Proof.
  intros Hwf Hn. unfold clear_links.
  apply (runs_call _ _ _ (λ r b', r = head cs ∧ b' = set_main (set_link None (main b)) b)).
  { unfold swap_link. eapply runs_load_meta; [done |]. eapply runs_store_meta; [done |]. apply runs_ret.
    split; [by eapply wf_head | done]. }
  intros _ _ [-> ->]. rewrite <-(linked_values_at _ _ _ _ Hwf). destruct cs as [| c cs]; cbn [head].
  - assert (He : links b = ∅).
    { apply map_eq. intros i. rewrite lookup_empty. destruct (links b !! i) as [lb |] eqn:Hi; [| done].
      assert (Hin : i ∈ []) by (apply (wf_dom _ _ _ _ _ _ Hwf); eauto). by apply elem_of_nil in Hin. }
    apply runs_ret. rewrite <-He. unfold add_dropped. cbn. by rewrite app_nil_r.
  - eapply runs_mono; [| apply (runs_clear_loop cs c None); [| apply Hwf | exact (wf_dom _ _ _ _ _ _ Hwf) | | cbn in Hn; lia]].
    + intros _ b' ->. done.
    + pose proof (wf_chain _ _ _ _ _ _ Hwf) as Hc. pose proof Hc as [Hh _]. rewrite Hh in Hc. exact Hc.
    + intros i lb Hi. apply (wf_block _ _ _ _ _ _ Hwf (Some i)); cbn; cbn in Hi; by rewrite Hi.
Qed.

(** The links are cleared when there are some. *)
Lemma runs_maybe_clear_links b cs O M n :
  wf b cs O M → (length cs < n)%nat →
  runs (let! m := load_meta None in match link m with Some _ => clear_links n | None => Ret () end) b
    (λ _ b', b' = add_dropped (values_at O (linked_positions cs))
      (set_links ∅ (set_main (set_link None (main b)) b))).
Proof.
  intros Hwf Hn. eapply runs_load_meta; [done |].
  destruct (link (main b)) as [c |] eqn:Hl; [by eapply runs_clear_links |].
  rewrite (wf_head _ _ _ _ _ _ Hwf) in Hl. destruct cs as [| c cs]; [| done].
  assert (He : links b = ∅).
  { apply map_eq. intros i. rewrite lookup_empty. destruct (links b !! i) as [lb |] eqn:Hi; [| done].
    assert (Hin : i ∈ []) by (apply (wf_dom _ _ _ _ _ _ Hwf); eauto). by apply elem_of_nil in Hin. }
  apply runs_ret. rewrite <-He. pose proof (wf_head _ _ _ _ _ _ Hwf) as Hh. cbn in Hh.
  destruct b as [k lo nu [lk oc rm hs] mb lr ls dr]. unfold add_dropped, set_main, set_links, set_link. cbn in *.
  by rewrite Hh, app_nil_r.
Qed.

(** The entries of the main block. *)
Definition main_only (O : gmap pos (K * V)) : gmap pos (K * V) := filter (λ x, x.1.1 = None) O.

Lemma lookup_main_only O p i : main_only O !! (p, i) = match p with None => O !! (p, i) | Some _ => None end.
Proof.
  unfold main_only. apply option_eq. intros kv. rewrite map_lookup_filter_Some. cbn.
  destruct p as [c |]; [| tauto]. split; [by intros [_ ?] | done].
Qed.

Definition killing b : Bucket K V :=
  set_num_entries 0 (set_killed true
    (if decide (TYPE = OPTIMISTIC) then set_main (set_removed (occupied_bitmap (main b)) (main b)) b else b)).

Lemma wf_killing b cs O : wf b cs O ∅ → wf (killing b) cs O ∅.
Proof.
  intros Hwf. pose proof (wf_block _ _ _ _ _ _ Hwf None _ _ eq_refl eq_refl) as Hb.
  unfold killing. destruct (decide (TYPE = OPTIMISTIC)) as [Ht | Ht].
  2:{ by destruct Hwf. }
  constructor; try (exact (wf_nodup _ _ _ _ _ _ Hwf) || exact (wf_dom _ _ _ _ _ _ Hwf) ||
    exact (wf_chain _ _ _ _ _ _ Hwf)).
  - intros [c |] m d Hm Hd; [by apply (wf_block _ _ _ _ _ _ Hwf (Some c)) |].
    injection Hm as <-. injection Hd as <-. constructor; try apply Hb. done.
  - intros [c |] i m d Hm Hd; [by apply (wf_occ _ _ _ _ _ _ Hwf (Some c)) |].
    injection Hm as <-. injection Hd as <-. exact (wf_occ _ _ _ _ _ _ Hwf None i _ _ eq_refl eq_refl).
  - intros [c |] i m d Hm Hd; [by apply (wf_live _ _ _ _ _ _ Hwf (Some c)) |].
    injection Hm as <-. injection Hd as <-. rewrite lookup_empty. unfold live_in. rewrite bit_reachable.
    rewrite bool_decide_true by done. cbn. destruct (bit (occupied_bitmap (main b)) i); [| done].
    by rewrite andb_false_r.
  - intros p i Hp. by apply (wf_out _ _ _ _ _ _ Hwf).
  - done.
  - cbn. pose proof (Z.pow_pos_nonneg 2 32). unfold u32_max, umax. lia.
  - intros Hc. congruence.
Qed.

Lemma wf_cleared b cs O (l : list (K * V)) :
  wf b cs O ∅ → wf (add_dropped l (set_links ∅ (set_main (set_link None (main b)) b))) [] (main_only O) ∅.
Proof.
  intros Hwf. pose proof (wf_block _ _ _ _ _ _ Hwf None _ _ eq_refl eq_refl) as Hb. constructor; try done.
  - constructor.
  - intros i. cbn. rewrite lookup_empty. split; [by intros [? ?] | by intros ?%elem_of_nil].
  - intros [c |] m d Hm Hd; [cbn in Hm; by rewrite lookup_empty in Hm |].
    injection Hm as <-. injection Hd as <-. by apply block_ok_link.
  - intros [c |] i m d Hm Hd; [cbn in Hm; by rewrite lookup_empty in Hm |].
    injection Hm as <-. injection Hd as <-. rewrite lookup_main_only.
    exact (wf_occ _ _ _ _ _ _ Hwf None i _ _ eq_refl eq_refl).
  - intros [c |] i m d Hm Hd; [cbn in Hm; by rewrite lookup_empty in Hm |].
    injection Hm as <-. injection Hd as <-. exact (wf_live _ _ _ _ _ _ Hwf None i _ _ eq_refl eq_refl).
  - intros [c |] i Hp; [| by destruct Hp]. by rewrite lookup_main_only, lookup_empty.
  - apply Hwf.
  - apply Hwf.
  - intros Ht. destruct (wf_lru _ _ _ _ _ _ Hwf Ht) as [l' Hl]. by exists l'.
Qed.

Lemma runs_kill b cs O n :
  wf b cs O ∅ → (length cs < n)%nat →
  runs (kill TYPE n) b (λ _ b', wf b' [] (main_only O) ∅ ∧ killed b' = true ∧ locked b' = locked b ∧
    dropped b' = dropped b ++ values_at O (linked_positions cs)).
Proof.
  intros Hwf Hn. unfold kill. apply (runs_call _ _ _ (λ _ b', set_num_entries 0 (set_killed true b') = killing b)).
  { unfold killing. case_decide; [| by apply runs_ret].
    apply runs_last. eapply runs_store_meta; [done |]. by apply runs_ret. }
  intros _ b' Hb'. apply runs_act. cbn [fst snd bind]. apply runs_act. cbn [fst snd bind].
  rewrite Hb'. eapply runs_mono; [| eapply runs_maybe_clear_links; [by apply wf_killing | done]].
  intros _ b'' ->. split; [by eapply wf_cleared, wf_killing |].
  unfold killing. by case_decide.
Qed.

Lemma main_values b cs O M : wf b cs O M →
  values_at O (from None 0) = omap (occ_in (main b) (main_block b)) (seq 0 (block_len None)).
Proof.
  intros Hwf. unfold values_at, from. rewrite Nat.sub_0_r. generalize (seq 0 (block_len None)) as s.
  induction s as [| i s IHs]; [done |]. csimpl.
  rewrite (wf_occ _ _ _ _ _ _ Hwf None i _ _ eq_refl eq_refl). by rewrite IHs.
Qed.

Lemma runs_drop_entries b cs O M n :
  wf b cs O M → (length cs < n)%nat →
  runs (drop_entries n) b (λ _ b',
    dropped b' = dropped b ++ values_at O (linked_positions cs) ++ values_at O (from None 0)).
Proof.
  intros Hwf Hn. pose proof (wf_block _ _ _ _ _ _ Hwf None _ _ eq_refl eq_refl) as Hb.
  set (b1 := add_dropped (values_at O (linked_positions cs)) (set_links ∅ (set_main (set_link None (main b)) b))).
  assert (Hrest : runs (let! m := load_meta None in if occupied_bitmap m =? 0 then Ret () else drop_block None) b1
    (λ _ b', dropped b' = dropped b ++ values_at O (linked_positions cs) ++ values_at O (from None 0))).
  { eapply runs_load_meta; [done |]. rewrite (main_values _ _ _ _ Hwf).
    change (occupied_bitmap (main b1)) with (occupied_bitmap (main b)).
    destruct (Z.eqb_spec (occupied_bitmap (main b)) 0) as [Hz | Hz].
    - apply runs_ret. rewrite (occ_values None _ _ Hb), Hz.
      assert (bits_of 32 0 = []) as -> by (apply filter_none; intros i _; by rewrite bit_0).
      change (omap (slot (main_block b)) []) with (@nil (K * V)). by rewrite app_nil_r.
    - eapply runs_mono; [| apply (runs_drop_block None b1 _ _ eq_refl eq_refl); by apply block_ok_link].
      intros _ b' (m' & d' & _ & ->). 
      transitivity (dropped b1 ++ omap (occ_in (main b) (main_block b)) (seq 0 (block_len None))); [reflexivity |].
      unfold b1. cbn [dropped add_dropped set_links set_main]. by rewrite <-app_assoc. }
  unfold drop_entries. change (runs (bind (load_meta None) (λ m, bind (match link m with
    | Some _ => clear_links n | None => Ret () end) (λ _, let! m := load_meta None in
      if occupied_bitmap m =? 0 then Ret () else drop_block None))) b
    (λ _ b', dropped b' = dropped b ++ values_at O (linked_positions cs) ++ values_at O (from None 0))).
  pose proof (runs_maybe_clear_links _ _ _ _ n Hwf Hn) as Hcl. fold b1 in Hcl.
  unfold runs in Hcl |- *. rewrite run_bind in Hcl. rewrite run_bind.
  destruct (run (load_meta None) b) as [m b' | | |]; [| done..]. rewrite run_bind.
  destruct (run _ b') as [[] b'' | | |]; [| done..]. subst b''. exact Hrest.
Qed.

Lemma wf_occ_positions b cs O M q kv : wf b cs O M → O !! q = Some kv → q ∈ positions cs.
Proof.
  destruct q as [p i]. intros Hwf HO. unfold positions. apply elem_of_app.
  destruct (decide (is_Some (get_meta p b))) as [[m Hm] | Hno].
  - destruct (get_meta_block _ _ _ Hm) as [d Hd]. rewrite (wf_occ _ _ _ _ _ _ Hwf p i m d Hm Hd) in HO.
    unfold occ_in in HO. destruct (bit (occupied_bitmap m) i) eqn:Ho; [| done].
    pose proof (occ_lt _ _ _ _ _ _ (wf_block _ _ _ _ _ _ Hwf p m d Hm Hd) Ho) as Hi.
    apply get_meta_has in Hm. destruct p as [c |].
    + right. apply elem_of_linked. exists c. split; [done |]. split; [by apply (wf_dom _ _ _ _ _ _ Hwf) | exact Hi].
    + left. apply elem_of_from. split; [done |]. split; [lia | exact Hi].
  - destruct (wf_out _ _ _ _ _ _ Hwf p i) as [Hn0 _]; [| congruence].
    intros (m & d & Hm & _)%has_block. apply Hno. eauto.
Qed.

(** Every entry that occupies a slot is dropped, once. *)
Lemma runs_drop_all b cs O M n :
  wf b cs O M → (length cs < n)%nat →
  runs (drop_entries n) b (λ _ b', dropped b' ≡ₚ dropped b ++ (map_to_list O).*2).
Proof.
  intros Hwf Hn. eapply runs_mono; [| by eapply runs_drop_entries]. intros x b' ->. apply Permutation_app_head.
  rewrite Permutation_app_comm, <-values_at_app. fold (positions cs).
  apply values_at_perm; [apply NoDup_positions, Hwf |]. intros q kv HO. by eapply wf_occ_positions.
Qed.
End Drop.
