(* ===== verification/BucketIter.v ===== *)
(** * Loops over the entries of a bucket

    [while entry_ptr.next(..) { .. }], the loop of all the operations that visit a whole
    bucket: every entry is visited once, also when the body removes the entry it is at.
    The entries of a bucket as a finite map from keys to values. *)
From S2P Require Import Prelude Atomic Lru Bucket BucketInv BucketQuery BucketOps BucketSpec BucketLinks.

Local Open Scope Z_scope.

Section Iter.
Context {K V : Type} `{EqDecision K} (TYPE : bucket_type) (ph : K → Z).

Implicit Types (b : Bucket K V) (O M : gmap pos (K * V)) (n : nat) (q : pos) (cs : list nat).

Local Notation wf := (wf TYPE ph).

(** The loop in a program on a larger state, [z] giving access to the bucket; the body may
    leave it.  [n] bounds both the iterations and the linked buckets of one step. *)
Definition while_next_in {St A R} (z : ∀ {R}, prog (Bucket K V) R → prog St R) (n : nat)
    (body : EntryPtr → A → prog St (flow (EntryPtr * A) R)) (finish : A → R) (a : A) : prog St R :=
  loop n (λ s : EntryPtr * A,
    let! r := z (next TYPE n s.1) in
    if r.1 : bool then body r.2 s.2 else Ret (Break (finish s.2))) (entry_ptr_new, a).

Definition while_next {A} (n : nat) (body : EntryPtr → A → prog (Bucket K V) (EntryPtr * A)) (a : A) :
    prog (Bucket K V) A :=
  while_next_in (λ _ p, p) n (λ ptr a, let! x := body ptr a in Ret (Continue x)) id a.

(** The rule of these loops.  [at_bucket s b] says that [b] is the bucket in the state [s];
    [I todo O M a s] holds when the entries at [todo] are left to visit. *)
Section Rule.
Context {St A R : Type} {allow : Refuses St} (z : ∀ R, prog (Bucket K V) R → prog St R) (at_bucket : St → Bucket K V → Prop).
Context (Hz : ∀ R (p : prog (Bucket K V) R) s b Q, at_bucket s b → runs p b (λ r b', b' = b ∧ Q r) →
  runs (z R p) s (λ r s', s' = s ∧ Q r)).

Lemma runs_while_next_in (I : list pos → gmap pos (K * V) → gmap pos (K * V) → A → St → Prop)
    n (body : EntryPtr → A → prog St (flow (EntryPtr * A) R)) finish a s b cs O M (Q : R → St → Prop) :
  (∀ q todo s b cs1 O M a l, at_bucket s b → wf b cs1 O M → (length cs1 ≤ length cs)%nat →
     ahead cs1 (ptr_of q) l → entries_at M l = todo → NoDup (q :: todo) → is_Some (M !! q) →
     I (q :: todo) O M a s →
     runs (body (ptr_of q) a) s (λ x s',
       match x with
       | Continue x => ∃ b' cs' O' M' l', at_bucket s' b' ∧ wf b' cs' O' M' ∧ (length cs' ≤ length cs1)%nat ∧
           ahead cs' x.1 l' ∧ entries_at M' l' = todo ∧ I todo O' M' x.2 s'
       | Break r => Q r s'
       end)) →
  (∀ s b cs1 O M a, at_bucket s b → wf b cs1 O M → (length cs1 ≤ length cs)%nat → I [] O M a s →
     Q (finish a) s) →
  at_bucket s b → wf b cs O M → (length cs < n)%nat → (size M < n)%nat →
  I (entries_at M (positions cs)) O M a s →
  runs (while_next_in z n body finish a) s Q.
Proof.
  intros Hbody Hfinish Hat Hwf Hcs Hsize HI. unfold while_next_in.
  assert (Hgen : ∀ todo fuel s b cs1 O M a ptr l, at_bucket s b → wf b cs1 O M → ahead cs1 ptr l →
    entries_at M l = todo →
    NoDup todo → (length cs1 ≤ length cs)%nat → (length todo < fuel)%nat → I todo O M a s →
    runs (loop fuel (λ s : EntryPtr * A,
      let! r := z _ (next TYPE n s.1) in
      if r.1 : bool then body r.2 s.2 else Ret (Break (finish s.2))) (ptr, a)) s Q).
  { clear Hwf HI Hsize Hat.
    induction todo as [| q todo IH]; intros fuel s1 b1 cs1 O1 M1 a1 ptr l Hat Hwf Ha Htodo Hnd Hlen Hf HI;
      (destruct fuel as [| fuel]; [cbn in Hf; lia |]); apply runs_loop; cbn [fst snd].
    all: eapply runs_call; [eapply Hz; [exact Hat |]; eapply runs_mono;
           [| eapply runs_next; [done | done | lia]]; intros ? ? [-> Hr]; split; [done | exact Hr] |];
         intros r s' [-> Hpost]; unfold next_post in Hpost; rewrite Htodo in Hpost.
    - destruct Hpost as [-> _]. apply runs_ret. by eapply Hfinish.
    - destruct Hpost as (-> & -> & l' & Ha' & Hl').
      assert (Hq : is_Some (M1 !! q)).
      { assert (Hin : q ∈ entries_at M1 l) by (rewrite Htodo; left). by apply elem_of_entries_at in Hin as [? _]. }
      eapply runs_mono; [| by eapply (Hbody q todo s1 b1 cs1)].
      intros [[ptr' a'] | r'] s' Hx; [| done].
      destruct Hx as (b' & cs' & O' & M' & l'' & Hat' & Hwf' & Hlen' & Ha'' & Hl'' & HI').
      cbn [fst snd] in *. apply NoDup_cons in Hnd as [_ Hnd].
      eapply (IH fuel _ b' cs'); try done; [lia | cbn in Hf; lia]. }
  pose proof (NoDup_positions cs (wf_nodup _ _ _ _ _ _ Hwf)) as Hnd.
  apply (Hgen (entries_at M (positions cs)) n s b cs O M a _ (positions cs)); try done.
  - apply ahead_new.
  - by apply NoDup_filter.
  - assert (Hle : (length (entries_at M (positions cs)) ≤ size M)%nat); [| lia].
    rewrite <-size_dom. rewrite <-(size_list_to_set (C := gset pos)) by (by apply NoDup_filter).
    apply subseteq_size. intros q Hq%elem_of_list_to_set%elem_of_entries_at. apply elem_of_dom, Hq.
Qed.
End Rule.

Lemma runs_while_next {A} (I : list pos → gmap pos (K * V) → gmap pos (K * V) → A → Bucket K V → Prop)
    n (body : EntryPtr → A → prog (Bucket K V) (EntryPtr * A)) a b cs O M :
  (∀ q todo b cs O M a l, wf b cs O M → ahead cs (ptr_of q) l → entries_at M l = todo →
     NoDup (q :: todo) → is_Some (M !! q) → I (q :: todo) O M a b →
     runs (body (ptr_of q) a) b (λ x b', ∃ cs' O' M' l', wf b' cs' O' M' ∧ (length cs' ≤ length cs)%nat ∧
       ahead cs' x.1 l' ∧ entries_at M' l' = todo ∧ I todo O' M' x.2 b')) →
  wf b cs O M → (length cs < n)%nat → (size M < n)%nat →
  I (entries_at M (positions cs)) O M a b →
  runs (while_next n body a) b (λ a' b', ∃ cs' O' M', wf b' cs' O' M' ∧ (length cs' ≤ length cs)%nat ∧
    I [] O' M' a' b').
Proof.
  intros Hbody Hwf Hcs Hsize HI.
  eapply (runs_while_next_in (λ _ p, p) (λ s b, s = b)) with (I := I); try done.
  - by intros R p s b0 Q ->.
  - intros q todo ? b1 cs1 O1 M1 a1 l -> Hwf1 Hlen Ha Htodo Hnd Hq HI1.
    eapply runs_call; [by eapply Hbody |].
    intros x b' (cs' & O' & M' & l' & Hwf' & ?). apply runs_ret. by exists b', cs', O', M', l'.
  - intros ? b1 cs1 O1 M1 a1 -> ? ? ?. by exists cs1, O1, M1.
Qed.
End Iter.

(** ** A map from keys to values *)

Section Keyed.
Context {K V : Type} `{Countable K}.

Implicit Types (M : gmap pos (K * V)) (m : gmap K V).

(** No key occurs twice, and [m] are the entries. *)
Record keyed M m : Prop := {
  keyed_lookup : ∀ k v, m !! k = Some v ↔ ∃ q, M !! q = Some (k, v);
  keyed_inj : ∀ q q' k v v', M !! q = Some (k, v) → M !! q' = Some (k, v') → q = q'
}.

Lemma keyed_empty : keyed ∅ ∅.
Proof.
  constructor; [| by intros ? ? ? ? ? Hq; rewrite lookup_empty in Hq].
  intros k v. rewrite lookup_empty. split; [done |]. intros [q Hq]. by rewrite lookup_empty in Hq.
Qed.

Lemma keyed_absent M m k : keyed M m → absent M k ↔ m !! k = None.
Proof.
  intros Hk. split.
  - intros Ha. destruct (m !! k) as [v |] eqn:Hm; [| done].
    apply (keyed_lookup _ _ Hk) in Hm as [q Hq]. by destruct (Ha q _ Hq).
  - intros Hm q [k' v] Hq Heq. cbn in Heq. subst k'.
    assert (Hs : m !! k = Some v) by (apply (keyed_lookup _ _ Hk); eauto). congruence.
Qed.

Lemma keyed_insert M m q k v :
  keyed M m → M !! q = None → m !! k = None → keyed (<[q := (k, v)]> M) (<[k := v]> m).
Proof.
  intros Hk Hq Hm. pose proof (proj2 (keyed_absent _ _ k Hk) Hm) as Ha.
  constructor.
  - intros k' v'. destruct (decide (k = k')) as [<- | Hne].
    + rewrite lookup_insert_eq. split.
      * intros [= <-]. exists q. by rewrite lookup_insert_eq.
      * intros [q' Hq']. destruct (decide (q = q')) as [<- | Hne].
        -- rewrite lookup_insert_eq in Hq'. congruence.
        -- rewrite lookup_insert_ne in Hq' by done. by destruct (Ha _ _ Hq').
    + rewrite lookup_insert_ne, (keyed_lookup _ _ Hk) by done. split; intros [q' Hq']; exists q'.
      * rewrite lookup_insert_ne; [done | congruence].
      * destruct (decide (q = q')) as [<- |]; [| by rewrite lookup_insert_ne in Hq'].
        rewrite lookup_insert_eq in Hq'. congruence.
  - intros q1 q2 k' v1 v2 H1 H2.
    destruct (decide (q = q1)) as [<- | Hn1], (decide (q = q2)) as [<- | Hn2]; [done | | |].
    + rewrite lookup_insert_eq in H1. rewrite lookup_insert_ne in H2 by done. injection H1 as <- <-.
      by destruct (Ha _ _ H2).
    + rewrite lookup_insert_eq in H2. rewrite lookup_insert_ne in H1 by done. injection H2 as <- <-.
      by destruct (Ha _ _ H1).
    + rewrite lookup_insert_ne in H1, H2 by done. by eapply (keyed_inj _ _ Hk).
Qed.

Lemma keyed_delete M m q k v :
  keyed M m → M !! q = Some (k, v) → keyed (delete q M) (delete k m).
Proof.
  intros Hk Hq. constructor.
  - intros k' v'. destruct (decide (k = k')) as [<- | Hne].
    + rewrite lookup_delete_eq. split; [done |]. intros [q' Hq']. apply lookup_delete_Some in Hq' as [Hne Hq'].
      destruct Hne. by eapply (keyed_inj _ _ Hk).
    + rewrite lookup_delete_ne, (keyed_lookup _ _ Hk) by done. split; intros [q' Hq']; exists q'.
      * rewrite lookup_delete_ne; [done | congruence].
      * by apply lookup_delete_Some in Hq' as [_ ?].
  - intros q1 q2 k' v1 v2 [_ H1]%lookup_delete_Some [_ H2]%lookup_delete_Some. by eapply (keyed_inj _ _ Hk).
Qed.

(** A function on the entries that keeps the keys. *)
Lemma keyed_imap M M' m (f : K → V → option V) :
  keyed M m → (∀ q, M' !! q = kv ← M !! q; v ← f kv.1 kv.2; Some (kv.1, v)) →
  keyed M' (map_imap f m).
Proof.
  intros Hk HM'. constructor.
  - intros k v. rewrite map_lookup_imap. split.
    + intros (v0 & Hm & Hf)%bind_Some. apply (keyed_lookup _ _ Hk) in Hm as [q Hq]. exists q.
      rewrite HM', Hq. cbn. by rewrite Hf.
    + intros [q Hq]. rewrite HM' in Hq. apply bind_Some in Hq as ([k0 v0] & Hq & Hf). cbn in Hf.
      apply bind_Some in Hf as (v1 & Hf & [= <- <-]).
      assert (Hm : m !! k0 = Some v0) by (apply (keyed_lookup _ _ Hk); eauto). by rewrite Hm.
  - intros q1 q2 k v1 v2 H1 H2. rewrite HM' in H1, H2.
    apply bind_Some in H1 as ([k1 w1] & H1 & Hf1). apply bind_Some in H2 as ([k2 w2] & H2 & Hf2). cbn in *.
    apply bind_Some in Hf1 as (? & _ & [= <- _]). apply bind_Some in Hf2 as (? & _ & [= <- _]).
    by eapply (keyed_inj _ _ Hk).
Qed.

Lemma keyed_perm M m : keyed M m → (map_to_list M).*2 ≡ₚ map_to_list m.
Proof.
  intros Hk. apply NoDup_Permutation; [| apply NoDup_map_to_list |].
  - assert (Hin : ∀ l, NoDup l → (∀ x, x ∈ l → M !! x.1 = Some x.2) → NoDup l.*2).
    { induction l as [| [q kv] l IH]; intros Hnd Hl; [constructor |]. apply NoDup_cons in Hnd as [Hn Hnd].
      cbn. constructor; [| apply IH; [done |]; intros x Hx; apply Hl; by right].
      intros ([q' kv'] & Heq & Hq')%list_elem_of_fmap. cbn in Heq. subst kv'. apply Hn.
      pose proof (Hl _ ltac:(left)) as H1. pose proof (Hl (q', kv) ltac:(by right)) as H2. cbn in H1, H2.
      destruct kv as [k v]. by rewrite (keyed_inj _ _ Hk q q' k v v H1 H2). }
    apply Hin; [apply NoDup_map_to_list |]. intros [q kv] Hx. by apply elem_of_map_to_list in Hx.
  - intros [k v]. rewrite elem_of_map_to_list, (keyed_lookup _ _ Hk), list_elem_of_fmap. split.
    + intros ([q kv] & -> & Hx). apply elem_of_map_to_list in Hx. eauto.
    + intros [q Hq]. exists (q, (k, v)). split; [done |]. by apply elem_of_map_to_list.
Qed.

Lemma keyed_size M m : keyed M m → size m = size M.
Proof.
  intros Hk%keyed_perm. rewrite <-!length_map_to_list, <-Hk. apply length_fmap.
Qed.
End Keyed.
