(* ===== verification/BucketProps.v ===== *)
(** * A bucket is a map

    Any sequence of operations on a new bucket answers what the same sequence on a
    finite map does, and every entry that was put in is moved out or dropped once. *)
From S2P Require Import Prelude Atomic Lru Bucket BucketInv BucketQuery BucketOps BucketSpec BucketLinks BucketDrop BucketIter.

Local Open Scope Z_scope.

Section Trace.
Context {K V : Type} `{Countable K} (TYPE : bucket_type) (ph : K → Z) (n : nat).

Implicit Types (b : Bucket K V) (O M : gmap pos (K * V)) (q : pos) (cs : list nat) (m : gmap K V).

Local Notation wf := (wf TYPE ph).

(** ** Sequences of operations

    An operation is the code of a method of the hash tables on one bucket. *)
Inductive bucket_op : Type :=
  | OpInsert (k : K) (v : V)
  | OpGet (k : K)
  | OpSet (k : K) (v : V)
  | OpRemove (k : K)
  | OpLen
  | OpRetain (f : K → V → bool)
  | OpPrune (f : K → V → option V)
  | OpDrain.

Inductive bucket_res : Type :=
  | Value (o : option V)
  | Count (z : Z)
  | Nothing.

(** Relocation and pruning move entries, which an [OPTIMISTIC] bucket never does. *)
Definition op_ok (op : bucket_op) : Prop :=
  match op with OpPrune _ | OpDrain => TYPE ≠ OPTIMISTIC | _ => True end.

(** The entries that an operation put into the bucket and took out of it. *)
Definition moves : Type := list (K * V) * list (K * V).

Definition moved (ins outs : list (K * V)) (a : moves) : moves := (a.1 ++ ins, a.2 ++ outs).

Definition op_apply (op : bucket_op) : prog (Bucket K V) (bucket_res * moves) :=
  match op with
  | OpInsert k v =>
      let! ptr := get TYPE n k (ph k) in
      if is_valid ptr then let! e := ptr_get ptr in Ret (Value (Some e.2), ([], []))
      else insert_with (λ R p, p) n (ph k) (Ret ((k, v), ())) ;; Ret (Value None, ([(k, v)], []))
  | OpGet k => let! r := search TYPE n k (ph k) in Ret (Value (snd <$> r), ([], []))
  | OpSet k v =>
      let! ptr := get TYPE n k (ph k) in
      if is_valid ptr then
        let! e := ptr_get ptr in ptr_set ptr v ;; Ret (Value (Some e.2), ([(e.1, v)], [e]))
      else Ret (Value None, ([], []))
  | OpRemove k =>
      let! ptr := get TYPE n k (ph k) in
      if is_valid ptr then
        let! e := ptr_get ptr in
        let! r := erase TYPE ptr in Ret (Value (Some e.2), ([], option_list r))
      else Ret (Value None, ([], []))
  | OpLen => let! z := load num_entries in Ret (Count z, ([], []))
  | OpRetain f =>
      let! a := while_next TYPE n (λ ptr a,
        let! e := ptr_get ptr in
        if f e.1 e.2 then Ret (ptr, a)
        else let! r := erase TYPE ptr in Ret (ptr, moved [] (option_list r) a)) ([], []) in
      Ret (Nothing, a)
  | OpPrune f =>
      let! a := while_next TYPE n (λ ptr a,
        let! e := ptr_get ptr in
        keep_or_consume TYPE ptr f ;;
        Ret (ptr, moved (match f e.1 e.2 with Some v => [(e.1, v)] | None => [] end) [e] a)) ([], []) in
      Ret (Nothing, a)
  | OpDrain =>
      let! a := while_next TYPE n (λ ptr a,
        let! r := extract TYPE ptr in Ret (r.2, moved [] [r.1] a)) ([], []) in
      Ret (Nothing, a)
  end.

Fixpoint op_trace (ops : list bucket_op) (a : moves) : prog (Bucket K V) (list bucket_res * moves) :=
  match ops with
  | [] => Ret ([], a)
  | op :: ops =>
      let! r := op_apply op in
      let! rs := op_trace ops (moved r.2.1 r.2.2 a) in
      Ret (r.1 :: rs.1, rs.2)
  end.

(** The specification. *)
Definition op_spec (op : bucket_op) (m : gmap K V) : bucket_res * gmap K V :=
  match op with
  | OpInsert k v => (Value (m !! k), match m !! k with Some _ => m | None => <[k := v]> m end)
  | OpGet k => (Value (m !! k), m)
  | OpSet k v => (Value (m !! k), match m !! k with Some _ => <[k := v]> m | None => m end)
  | OpRemove k => (Value (m !! k), delete k m)
  | OpLen => (Count (Z.of_nat (size m)), m)
  | OpRetain f => (Nothing, map_imap (λ k v, if f k v then Some v else None) m)
  | OpPrune f => (Nothing, map_imap f m)
  | OpDrain => (Nothing, ∅)
  end.

Fixpoint spec_trace (ops : list bucket_op) (m : gmap K V) : list bucket_res * gmap K V :=
  match ops with
  | [] => ([], m)
  | op :: ops =>
      let r := op_spec op m in
      let rs := spec_trace ops r.2 in
      (r.1 :: rs.1, rs.2)
  end.

(** ** The entries as a multiset *)

Definition vals (O : gmap pos (K * V)) : list (K * V) := (map_to_list O).*2.

Lemma vals_insert O q kv : O !! q = None → vals (<[q := kv]> O) ≡ₚ kv :: vals O.
Proof. intros Hq. unfold vals. by rewrite map_to_list_insert. Qed.

Lemma vals_delete O q kv : O !! q = Some kv → vals O ≡ₚ kv :: vals (delete q O).
Proof. intros Hq. unfold vals. by rewrite <-(map_to_list_delete O q kv Hq). Qed.

Lemma vals_set O q kv kv' : O !! q = Some kv → vals (<[q := kv']> O) ++ [kv] ≡ₚ vals O ++ [kv'].
Proof.
  intros Hq. rewrite (vals_delete O q kv Hq), <-insert_delete_eq, vals_insert by apply lookup_delete_eq.
  rewrite !(Permutation_app_comm _ [_]). cbn. apply perm_swap.
Qed.

(** ** The loops *)

(** [f] tells what becomes of each value. *)
Definition after_visit (f : K → V → option V) (q : pos) (kv : K * V) M : gmap pos (K * V) :=
  match f kv.1 kv.2 with Some v => <[q := (kv.1, v)]> M | None => delete q M end.

(** The rule of a loop that does [f] to each entry; [J] relates the occupied slots, the
    accumulator and the bucket. *)
Lemma runs_visit_with {X} (f : K → V → option V) (J : gmap pos (K * V) → X → Bucket K V → Prop)
    (body : EntryPtr → X → prog (Bucket K V) (EntryPtr * X)) x b cs O M m :
  (∀ q kv b cs O M l x, wf b cs O M → ahead cs (ptr_of q) l → M !! q = Some kv → q ∉ entries_at M l → J O x b →
     runs (body (ptr_of q) x) b (λ r b', ∃ cs' O' l',
       wf b' cs' O' (after_visit f q kv M) ∧ (length cs' ≤ length cs)%nat ∧ ahead cs' r.1 l' ∧
       entries_at (after_visit f q kv M) l' = entries_at M l ∧ J O' r.2 b')) →
  wf b cs O M → keyed M m → (length cs < n)%nat → (size M < n)%nat → J O x b →
  runs (while_next TYPE n body x) b (λ x b', ∃ cs' O' M',
    wf b' cs' O' M' ∧ keyed M' (map_imap f m) ∧ (length cs' ≤ length cs)%nat ∧ (size M' ≤ size M)%nat ∧ J O' x b').
Proof.
  intros Hbody Hwf Hk Hcs Hsize HJ.
  set (I := λ (todo : list pos) O' M' (x : X) b',
    (∀ q, M' !! q = if decide (q ∈ todo) then M !! q else kv ← M !! q; v ← f kv.1 kv.2; Some (kv.1, v)) ∧ J O' x b').
  eapply runs_mono; [| eapply (runs_while_next TYPE ph I); [| exact Hwf | done | done |]].
  - intros x' b' (cs' & O' & M' & Hwf' & Hlen & HM' & HJ'). exists cs', O', M'.
    assert (HM : ∀ q, M' !! q = kv ← M !! q; v ← f kv.1 kv.2; Some (kv.1, v)).
    { intros q. rewrite HM'. rewrite decide_False; [done | apply not_elem_of_nil]. }
    split; [done |]. split; [by eapply keyed_imap |]. split; [done |]. split; [| done].
    rewrite <-!size_dom. apply subseteq_size. intros q [kv Hkv]%elem_of_dom. apply elem_of_dom.
    rewrite HM in Hkv. apply bind_Some in Hkv as (kv0 & ? & _). eauto.
  - intros q todo b1 cs1 O1 M1 x1 l Hwf1 Ha Htodo Hnd [kv Hkv] (HM1 & HJ1).
    pose proof (proj1 (NoDup_cons _ _) Hnd) as [Hq Hnd']. rewrite <-Htodo in Hq.
    eapply runs_mono; [| by eapply Hbody].
    intros [ptr x2] b' (cs' & O' & l' & Hwf' & Hlen & Ha' & Hl' & HJ'). cbn [fst snd] in *.
    exists cs', O', (after_visit f q kv M1), l'. split; [done |]. split; [done |]. split; [done |].
    split; [by rewrite Hl' |]. split; [| done].
    rewrite Htodo in Hq. assert (Hkv0 : M !! q = Some kv).
    { rewrite HM1, decide_True in Hkv by left. done. }
    intros q'. unfold after_visit. destruct (decide (q = q')) as [<- | Hne].
    + rewrite decide_False by done. rewrite Hkv0. cbn.
      destruct (f kv.1 kv.2); cbn; [by rewrite lookup_insert_eq | by rewrite lookup_delete_eq].
    + assert (HM1' : M1 !! q' = if decide (q' ∈ todo) then M !! q' else kv ← M !! q'; v ← f kv.1 kv.2; Some (kv.1, v)).
      { rewrite HM1. destruct (decide (q' ∈ todo)) as [Hin | Hin]; [by rewrite decide_True by (by right) |].
        rewrite decide_False; [done |]. intros [-> | ?]%elem_of_cons; done. }
      rewrite <-HM1'. destruct (f kv.1 kv.2); cbn; [by rewrite lookup_insert_ne | by rewrite lookup_delete_ne].
  - split; [| done]. intros q. case_decide as Hin; [done |].
    destruct (M !! q) as [kv |] eqn:HM; [| done]. destruct Hin. apply elem_of_entries_at.
    split; [rewrite HM; eauto | by eapply wf_positions].
Qed.

Lemma runs_visit (f : K → V → option V) (body : EntryPtr → moves → prog (Bucket K V) (EntryPtr * moves)) b cs O M m :
  (∀ q kv b cs O M l a, wf b cs O M → ahead cs (ptr_of q) l → M !! q = Some kv → q ∉ entries_at M l →
     runs (body (ptr_of q) a) b (λ x b', ∃ cs' O' l' ins outs,
       wf b' cs' O' (after_visit f q kv M) ∧ (length cs' ≤ length cs)%nat ∧ ahead cs' x.1 l' ∧
       entries_at (after_visit f q kv M) l' = entries_at M l ∧
       x.2 = moved ins outs a ∧ vals O' ++ outs ≡ₚ vals O ++ ins ∧ dropped b' = dropped b)) →
  wf b cs O M → keyed M m → (length cs < n)%nat → (size M < n)%nat →
  runs (while_next TYPE n body ([], [])) b (λ a b', ∃ cs' O' M',
    wf b' cs' O' M' ∧ keyed M' (map_imap f m) ∧ (length cs' ≤ length cs)%nat ∧ (size M' ≤ size M)%nat ∧
    vals O' ++ a.2 ≡ₚ vals O ++ a.1 ∧ dropped b' = dropped b).
Proof.
  intros Hbody Hwf Hk Hcs Hsize.
  eapply (runs_visit_with f (λ O' a b', vals O' ++ a.2 ≡ₚ vals O ++ a.1 ∧ dropped b' = dropped b)); try done.
  clear Hwf. intros q kv b1 cs1 O1 M1 l a Hwf Ha HM Hq [Hv1 Hd1].
  eapply runs_mono; [| by eapply Hbody].
  intros [ptr mv] b' (cs' & O' & l' & ins & outs & Hwf' & Hlen & Ha' & Hl' & Hmv & Hv & Hd). cbn [snd] in Hmv. subst mv.
  exists cs', O', l'. split_and!; try done; [| congruence]. unfold moved. cbn [fst snd].
  rewrite (Permutation_app_comm a.2), app_assoc, Hv, <-app_assoc, (Permutation_app_comm ins), app_assoc, Hv1.
  by rewrite app_assoc.
Qed.

Lemma runs_ptr_get_bind {R} b cs O M q kv (k : K * V → prog (Bucket K V) R) Q :
  wf b cs O M → M !! q = Some kv → runs (k kv) b Q → runs (bind (ptr_get (ptr_of q)) k) b Q.
Proof.
  intros Hwf HM Hr. eapply runs_call; [by eapply runs_ptr_get |]. by intros _ _ [-> ->].
Qed.

Lemma entries_after f q kv M l :
  M !! q = Some kv → q ∉ entries_at M l → entries_at (after_visit f q kv M) l = entries_at M l.
Proof.
  intros HM Hq. unfold after_visit. destruct (f kv.1 kv.2); [by apply entries_alter; eauto |].
  apply entries_delete. intros Hin. apply Hq, elem_of_entries_at. eauto.
Qed.

Lemma runs_retain_body (f : K → V → bool) q kv b cs O M l a :
  wf b cs O M → ahead cs (ptr_of q) l → M !! q = Some kv → q ∉ entries_at M l →
  let g := λ k v, if f k v then Some v else None in
  runs (let! e := ptr_get (ptr_of q) in
        if f e.1 e.2 then Ret (ptr_of q, a)
        else let! r := erase TYPE (ptr_of q) in Ret (ptr_of q, moved [] (option_list r) a)) b
    (λ x b', ∃ cs' O' l' ins outs,
       wf b' cs' O' (after_visit g q kv M) ∧ (length cs' ≤ length cs)%nat ∧ ahead cs' x.1 l' ∧
       entries_at (after_visit g q kv M) l' = entries_at M l ∧
       x.2 = moved ins outs a ∧ vals O' ++ outs ≡ₚ vals O ++ ins ∧ dropped b' = dropped b).
Proof.
  intros Hwf Ha HM Hq g. pose proof (entries_after g q kv M l HM Hq) as He.
  assert (HO : O !! q = Some kv) by (eapply lookup_weaken; [done | by eapply wf_sub]).
  eapply runs_ptr_get_bind; [done.. |]. unfold after_visit, g in He |- *. destruct (f kv.1 kv.2).
  - apply runs_ret. exists cs, O, l, [], []. destruct kv as [k v]. cbn [fst snd] in *.
    rewrite insert_id by done. split; [done |]. split; [done |]. split; [done |]. split; [done |].
    split; [by destruct a; unfold moved; cbn; rewrite !app_nil_r |]. done.
  - eapply runs_call; [by eapply runs_erase |]. intros r b' (-> & Hwf' & (_ & _ & Hd)). apply runs_ret.
    eexists cs, _, l, [], _. split; [exact Hwf' |]. split; [done |]. split; [done |]. split; [done |].
    split; [done |]. split; [| done]. case_decide; cbn; [done |].
    by rewrite (vals_delete O q _ HO), app_nil_r, (Permutation_app_comm _ [_]).
Qed.

Lemma runs_prune_body (f : K → V → option V) q kv b cs O M l a :
  TYPE ≠ OPTIMISTIC → wf b cs O M → ahead cs (ptr_of q) l → M !! q = Some kv → q ∉ entries_at M l →
  runs (let! e := ptr_get (ptr_of q) in
        keep_or_consume TYPE (ptr_of q) f ;;
        Ret (ptr_of q, moved (match f e.1 e.2 with Some v => [(e.1, v)] | None => [] end) [e] a)) b
    (λ x b', ∃ cs' O' l' ins outs,
       wf b' cs' O' (after_visit f q kv M) ∧ (length cs' ≤ length cs)%nat ∧ ahead cs' x.1 l' ∧
       entries_at (after_visit f q kv M) l' = entries_at M l ∧
       x.2 = moved ins outs a ∧ vals O' ++ outs ≡ₚ vals O ++ ins ∧ dropped b' = dropped b).
Proof.
  intros Ht Hwf Ha HM Hq. pose proof (entries_after f q kv M l HM Hq) as He.
  assert (HO : O !! q = Some kv) by (eapply lookup_weaken; [done | by eapply wf_sub]).
  eapply runs_ptr_get_bind; [done.. |].
  eapply runs_call; [by eapply runs_keep_or_consume |]. intros r b' [Hr (_ & _ & Hd)]. apply runs_ret.
  unfold after_visit in He |- *. destruct (f kv.1 kv.2) as [v |]; destruct Hr as [_ Hwf'];
    eexists cs, _, l, _, _; (split; [exact Hwf' |]); (split; [done |]); (split; [done |]); (split; [done |]);
    (split; [done |]); (split; [| done]).
  - by apply vals_set.
  - by rewrite (vals_delete O q _ HO), app_nil_r, (Permutation_app_comm _ [_]).
Qed.

Lemma runs_drain_body q kv b cs O M l a :
  TYPE ≠ OPTIMISTIC → wf b cs O M → ahead cs (ptr_of q) l → M !! q = Some kv → q ∉ entries_at M l →
  let f : K → V → option V := λ _ _, None in
  runs (let! r := extract TYPE (ptr_of q) in Ret (r.2, moved [] [r.1] a)) b
    (λ x b', ∃ cs' O' l' ins outs,
       wf b' cs' O' (after_visit f q kv M) ∧ (length cs' ≤ length cs)%nat ∧ ahead cs' x.1 l' ∧
       entries_at (after_visit f q kv M) l' = entries_at M l ∧
       x.2 = moved ins outs a ∧ vals O' ++ outs ≡ₚ vals O ++ ins ∧ dropped b' = dropped b).
Proof.
  intros Ht Hwf Ha HM Hq f. pose proof (entries_after f q kv M l HM Hq) as He.
  assert (HO : O !! q = Some kv) by (eapply lookup_weaken; [done | by eapply wf_sub]).
  eapply runs_call; [by eapply runs_extract |].
  intros [kv' ptr] b' [Heq (cs' & l' & Hwf' & (_ & _ & Hd) & _ & Hlen & Ha' & Hl')]. cbn [fst snd] in *. subst kv'.
  apply runs_ret. exists cs', (delete q O), l', [], [kv]. split; [done |]. split; [done |]. split; [done |].
  split; [rewrite <-He; exact Hl' |]. split; [done |]. split; [| done].
  by rewrite (vals_delete O q _ HO), app_nil_r, (Permutation_app_comm _ [_]).
Qed.

(** ** One operation *)

Definition op_post op b cs O M m (r : bucket_res * moves) b' : Prop :=
  ∃ cs' O' M', wf b' cs' O' M' ∧ r.1 = (op_spec op m).1 ∧ keyed M' (op_spec op m).2 ∧
    (length cs' ≤ S (length cs))%nat ∧ (size M' ≤ S (size M))%nat ∧
    vals O' ++ r.2.2 ≡ₚ vals O ++ r.2.1 ∧ dropped b' = dropped b.

(** An operation that starts by looking for its key. *)
Lemma runs_get_entry {R} b cs O M m k (found : EntryPtr → prog (Bucket K V) R) (missing : prog (Bucket K V) R)
    (Q : R → Bucket K V → Prop) :
  wf b cs O M → keyed M m → (length cs < n)%nat →
  (∀ q v, M !! q = Some (k, v) → m !! k = Some v → runs (found (ptr_of q)) b Q) →
  (m !! k = None → runs missing b Q) →
  runs (let! ptr := get TYPE n k (ph k) in if is_valid ptr then found ptr else missing) b Q.
Proof.
  intros Hwf Hk Hn Hf Hm. eapply runs_call; [by eapply runs_bucket_get |].
  intros ptr b' [-> [(q & [k' v] & Hq & Heq & ->) | [Ha ->]]].
  - cbn in Heq. subst k'. rewrite (is_valid_ptr _ _ _ _ _ _ _ _ Hwf Hq). apply (Hf q v Hq).
    apply (keyed_lookup _ _ Hk). eauto.
  - apply Hm. by apply (keyed_absent M).
Qed.

Lemma runs_insert_with b cs O M k v :
  wf b cs O M → (length cs < n)%nat → num_entries b ≠ u32_max →
  runs (insert_with (λ R p, p) n (ph k) (Ret ((k, v), ()))) b (λ ptr b', ∃ q cs',
    ptr.1 = ptr_of q ∧ O !! q = None ∧ M !! q = None ∧
    wf b' cs' (<[q := (k, v)]> O) (<[q := (k, v)]> M) ∧ same_flags b b' ∧ same_lru b b' ∧
    (length cs' ≤ S (length cs))%nat ∧ (cs' = cs ∨ ∀ q', q' ∈ positions cs → is_Some (O !! q'))).
Proof.
  intros Hwf Hn Hnum. unfold insert_with. eapply runs_call; [by eapply runs_free_slot |].
  intros slot b' [-> Hslot]. cbn [bind fst snd].
  eapply runs_call; [eapply (runs_insert_at _ _ b cs O M); [done | done | done |] |].
  - destruct slot as [[p i] |]; [exact Hslot | done].
  - intros ptr b' (q & cs' & -> & HO & HM & Hwf' & Hf & Hl & Hcs'). apply runs_ret. exists q, cs'. split_and!; try done.
    + rewrite Hcs'. destruct slot; cbn; lia.
    + destruct slot; [by left | by right].
Qed.

Lemma runs_op op b cs O M m :
  wf b cs O M → keyed M m → (length cs < n)%nat → (size M < n)%nat → num_entries b ≠ u32_max → op_ok op →
  runs (op_apply op) b (op_post op b cs O M m).
Proof.
  intros Hwf Hk Hcs Hsize Hnum Hok.
  assert (Hsame : ∀ r : bucket_res, r = (op_spec op m).1 → m = (op_spec op m).2 →
    op_post op b cs O M m (r, ([], [])) b).
  { intros r -> Hm. exists cs, O, M. split; [done |]. split; [done |]. split; [by rewrite <-Hm |].
    split; [lia |]. split; [lia |]. done. }
  destruct op as [k v | k | k v | k | | f | f |]; cbn [op_apply].
  - eapply runs_get_entry; [done.. | |].
    + intros q v' Hq Hm. eapply runs_ptr_get_bind; [done.. |]. apply runs_ret. apply Hsame; cbn; by rewrite Hm.
    + intros Hm. eapply runs_call; [by eapply runs_insert_with |].
      intros ptr b' (q & cs' & _ & HO & HM & Hwf' & (_ & _ & Hd) & _ & Hlen & _). apply runs_ret.
      exists cs', (<[q := (k, v)]> O), (<[q := (k, v)]> M). cbn. rewrite Hm. split; [done |]. split; [done |].
      split; [by apply keyed_insert |]. split; [done |].
      split; [by rewrite map_size_insert_None |]. split; [| done].
      rewrite app_nil_r, vals_insert by done. by rewrite (Permutation_app_comm (vals O)).
  - eapply runs_call; [by eapply runs_bucket_search |]. intros r b' [-> Hr]. apply runs_ret. apply Hsame; [| done].
    cbn. f_equal. destruct r as [[k' v] |].
    + destruct Hr as (q & Hq & Heq). cbn in Heq. subst k'. symmetry. apply (keyed_lookup _ _ Hk). eauto.
    + symmetry. by apply (keyed_absent M).
  - eapply runs_get_entry; [done.. | |].
    + intros q v' Hq Hm. eapply runs_ptr_get_bind; [done.. |].
      eapply runs_call; [by eapply runs_ptr_set |]. intros _ b' [Hwf' (_ & _ & Hd)]. apply runs_ret. cbn [fst] in *.
      exists cs, (<[q := (k, v)]> O), (<[q := (k, v)]> M). cbn. rewrite Hm. split; [done |]. split; [done |].
      pose proof (keyed_imap M (<[q := (k, v)]> M) m (λ k' v', if decide (k' = k) then Some v else Some v') Hk) as Hk'.
      split; [| split; [lia |]; split; [rewrite map_size_insert_Some by eauto; lia |]; split; [| done]].
      * replace (<[k := v]> m) with (map_imap (λ k' v', if decide (k' = k) then Some v else Some v') m).
        { apply Hk'. intros q'. destruct (decide (q = q')) as [<- | Hne].
          - rewrite lookup_insert_eq, Hq. cbn. by rewrite decide_True.
          - rewrite lookup_insert_ne by done. destruct (M !! q') as [[k' w] |] eqn:Hq'; [| done]. cbn.
            rewrite decide_False; [done |]. intros ->. destruct Hne. by eapply (keyed_inj _ _ Hk). }
        apply map_eq. intros k'. rewrite map_lookup_imap. destruct (decide (k = k')) as [<- | Hne].
        -- rewrite lookup_insert_eq, Hm. cbn. by rewrite decide_True.
        -- rewrite lookup_insert_ne by done. destruct (m !! k'); [| done]. cbn. by rewrite decide_False.
      * apply vals_set. eapply lookup_weaken; [done | by eapply wf_sub].
    + intros Hm. apply runs_ret. apply Hsame; cbn; by rewrite Hm.
  - eapply runs_get_entry; [done.. | |].
    + intros q v Hq Hm. eapply runs_ptr_get_bind; [done.. |].
      eapply runs_call; [by eapply runs_erase |]. intros r b' (-> & Hwf' & (_ & _ & Hd)). apply runs_ret.
      eexists cs, _, (delete q M). cbn. split; [exact Hwf' |]. split; [by rewrite Hm |].
      split; [by eapply keyed_delete |]. split; [lia |]. split; [rewrite map_size_delete_Some by eauto; lia |].
      split; [| done]. case_decide; cbn; [done |].
      assert (HO : O !! q = Some (k, v)) by (eapply lookup_weaken; [done | by eapply wf_sub]).
      by rewrite (vals_delete O q _ HO), app_nil_r, (Permutation_app_comm _ [_]).
    + intros Hm. apply runs_ret. apply Hsame; cbn; [by rewrite Hm |]. by rewrite delete_id.
  - apply runs_load, runs_ret. apply Hsame; [| done]. cbn. f_equal. rewrite (wf_num _ _ _ _ _ _ Hwf).
    by rewrite (keyed_size _ _ Hk).
  - eapply runs_call; [eapply (runs_visit (λ k v, if f k v then Some v else None)); [| done..] |].
    + intros. by apply runs_retain_body.
    + intros a b' (cs' & O' & M' & Hwf' & Hk' & ? & ? & Hv & Hd). apply runs_ret.
      exists cs', O', M'. cbn. split_and!; try done; lia.
  - eapply runs_call; [eapply (runs_visit f); [| done..] |].
    + intros. by apply runs_prune_body.
    + intros a b' (cs' & O' & M' & Hwf' & Hk' & ? & ? & Hv & Hd). apply runs_ret.
      exists cs', O', M'. cbn. split_and!; try done; lia.
  - eapply runs_call; [eapply (runs_visit (λ _ _, None)); [| done..] |].
    + intros. by apply runs_drain_body.
    + intros a b' (cs' & O' & M' & Hwf' & Hk' & ? & ? & Hv & Hd). apply runs_ret.
      exists cs', O', M'. cbn. replace (map_imap (λ _ _, None) m) with (∅ : gmap K V) in Hk'.
      * split_and!; try done; lia.
      * apply map_eq. intros k. rewrite lookup_empty, map_lookup_imap. by destruct (m !! k).
Qed.

Lemma trace_perm {T} (P' P P1 R1 R2 a1 a2 i o : list T) :
  P' ++ R2 ++ a1 ++ i ≡ₚ P1 ++ R1 ++ a2 ++ o → P1 ++ o ≡ₚ P ++ i → P' ++ R2 ++ a1 ≡ₚ P ++ R1 ++ a2.
Proof.
  intros H1 H2. apply (Permutation_app_inv_r i). rewrite <-!app_assoc, H1.
  transitivity ((P1 ++ o) ++ R1 ++ a2).
  - rewrite <-app_assoc. apply Permutation_app_head. by rewrite (app_assoc R1), Permutation_app_comm.
  - rewrite H2, <-app_assoc. apply Permutation_app_head. by rewrite (app_assoc R1 a2 i), Permutation_app_comm.
Qed.

Lemma runs_trace ops b cs O M m a :
  wf b cs O M → keyed M m → (length cs + length ops < n)%nat → (size M + length ops < n)%nat →
  Z.of_nat (size M + length ops) ≤ u32_max → (∀ op, op ∈ ops → op_ok op) →
  runs (op_trace ops a) b (λ r b', ∃ cs' O' M', wf b' cs' O' M' ∧ r.1 = (spec_trace ops m).1 ∧
    keyed M' (spec_trace ops m).2 ∧ (length cs' < n)%nat ∧ (size M' < n)%nat ∧
    vals O' ++ r.2.2 ++ a.1 ≡ₚ vals O ++ r.2.1 ++ a.2 ∧ dropped b' = dropped b).
Proof.
  revert b cs O M m a. induction ops as [| op ops IH]; intros b cs O M m a Hwf Hk Hcs Hsize Hmax Hok; cbn [op_trace spec_trace].
  - apply runs_ret. exists cs, O, M. cbn. split_and!; try done; [cbn in Hcs; lia | cbn in Hsize; lia |].
    by rewrite (Permutation_app_comm a.1).
  - cbn [length] in Hcs, Hsize, Hmax.
    assert (Hnum : num_entries b ≠ u32_max) by (rewrite (wf_num _ _ _ _ _ _ Hwf); lia).
    eapply runs_call; [apply (runs_op op b cs O M m); [done | done | lia | lia | done | apply Hok; left] |].
    intros r b1 (cs1 & O1 & M1 & Hwf1 & Hr & Hk1 & Hcs1 & Hsize1 & Hv1 & Hd1).
    eapply runs_call; [apply (IH b1 cs1 O1 M1 (op_spec op m).2); [done | done | lia | lia | lia |] |].
    + intros op' Hin. apply Hok. by right.
    + intros rs b' (cs' & O' & M' & Hwf' & Hrs & Hk' & Hcs' & Hsize' & Hv' & Hd'). apply runs_ret. cbn [fst snd].
      exists cs', O', M'. split; [done |]. split; [by rewrite Hr, Hrs |]. split; [done |]. split; [done |].
      split; [done |]. split; [| congruence].
      unfold moved in Hv'. cbn [fst snd] in Hv'.
      by eapply trace_perm.
Qed.

Lemma wf_default : wf (bucket_default : Bucket K V) [] ∅ ∅.
Proof.
  assert (Hbit : ∀ i, bit 0 i = true → False) by (intros i; by rewrite bit_0).
  constructor; try done.
  - constructor.
  - intros i. cbn. rewrite lookup_empty. split; [by intros [? ?] | by intros ?%elem_of_nil].
  - intros [c |] m d Hm Hd; [cbn in Hm; by rewrite lookup_empty in Hm |].
    injection Hm as <-. injection Hd as <-. constructor; [done | done | apply in_word_0 | |].
    + intros _ i Hi. by apply Hbit in Hi.
    + intros i Hi. by apply Hbit in Hi.
  - intros [c |] i m d Hm Hd; [cbn in Hm; by rewrite lookup_empty in Hm |].
    injection Hm as <-. injection Hd as <-. unfold occ_in. cbn [main bucket_default metadata_default occupied_bitmap].
    by rewrite bit_0, lookup_empty.
  - intros [c |] i m d Hm Hd; [cbn in Hm; by rewrite lookup_empty in Hm |].
    injection Hm as <-. injection Hd as <-. unfold live_in. rewrite bit_reachable.
    cbn [main bucket_default metadata_default occupied_bitmap]. by rewrite bit_0, lookup_empty.
  - intros _. exists []. split; [done |]. apply rep_default.
Qed.

(** C12. A bucket is a finite map.  Any sequence of insertions, lookups, updates, removals,
    counts, filters, pruning and draining loops on a new bucket, of any of the three
    types, returns without panicking or reading an empty slot, and answers what the same
    sequence does on a finite map from keys to values; partial hashes, full data blocks,
    the linked buckets that come and go, and the slots of removed entries do not show. *)
Theorem bucket_refines_map (ops : list bucket_op)
    (Hok : ∀ op, op ∈ ops → op_ok op) (Hn : (length ops < n)%nat) (Hmax : Z.of_nat (length ops) ≤ u32_max) :
  ∃ a b, run (op_trace ops ([], [])) bucket_default = Done ((spec_trace ops ∅).1, a) b ∧
    num_entries b = Z.of_nat (size (spec_trace ops ∅).2).
Proof.
  assert (Hr := runs_trace ops bucket_default [] ∅ ∅ ∅ ([], []) wf_default keyed_empty).
  rewrite map_size_empty in Hr. specialize (Hr Hn Hn Hmax Hok). apply runs_Done in Hr as ([rs a] & b & Hrun & Hpost).
  destruct Hpost as (cs & O & M & Hwf & Hrs & Hk & _). cbn [fst] in Hrs. subst rs.
  exists a, b. split; [done |]. by rewrite (wf_num _ _ _ _ _ _ Hwf), (keyed_size _ _ Hk).
Qed.

(** C14. Every entry is dropped exactly once.  After any sequence of operations, dropping
    the bucket drops, together with what the operations handed back, exactly the entries
    that were put in, as a multiset: none is leaked, none is dropped twice or both
    dropped and handed back.  For an [OPTIMISTIC] bucket this includes the removed
    entries that readers may still see. *)
Theorem bucket_drops_once (ops : list bucket_op)
    (Hok : ∀ op, op ∈ ops → op_ok op) (Hn : (length ops < n)%nat) (Hmax : Z.of_nat (length ops) ≤ u32_max) :
  ∃ ins outs b,
    run (let! r := op_trace ops ([], []) in drop_entries n ;; Ret r.2) bucket_default = Done (ins, outs) b ∧
    dropped b ++ outs ≡ₚ ins.
Proof.
  assert (Hr := runs_trace ops bucket_default [] ∅ ∅ ∅ ([], []) wf_default keyed_empty).
  rewrite map_size_empty in Hr. specialize (Hr Hn Hn Hmax Hok).
  assert (Hd : runs (let! r := op_trace ops ([], []) in drop_entries n ;; Ret r.2) bucket_default
    (λ a b, dropped b ++ a.2 ≡ₚ a.1)).
  { eapply runs_call; [exact Hr |]. intros [rs [ins outs]] b (cs & O & M & Hwf & _ & _ & Hcs & _ & Hv & Hd).
    cbn [fst snd] in *. eapply runs_call; [by eapply runs_drop_all |]. intros x b' Hd'. apply runs_ret.
    cbn [fst snd]. rewrite Hd', Hd. rewrite !app_nil_r in Hv. exact Hv. }
  apply runs_Done in Hd as ([ins outs] & b & Hrun & Hp). eauto.
Qed.

(** The loop that reads all the entries. *)
Definition entries : prog (Bucket K V) (list (K * V)) :=
  while_next TYPE n (λ ptr l, let! e := ptr_get ptr in Ret (ptr, l ++ [e])) [].

(** C36. Iteration is complete.  After any sequence of operations, a pointer that starts
    before the first entry and is advanced by [next] until it says that there is no more
    visits each entry of the bucket exactly once, through the data block and all the
    linked buckets, and none that was removed. *)
Theorem bucket_iteration (ops : list bucket_op)
    (Hok : ∀ op, op ∈ ops → op_ok op) (Hn : (length ops < n)%nat) (Hmax : Z.of_nat (length ops) ≤ u32_max) :
  ∃ l b, run (op_trace ops ([], []) ;; entries) bucket_default = Done l b ∧
    l ≡ₚ map_to_list (spec_trace ops ∅).2.
Proof.
  assert (Hr := runs_trace ops bucket_default [] ∅ ∅ ∅ ([], []) wf_default keyed_empty).
  rewrite map_size_empty in Hr. specialize (Hr Hn Hn Hmax Hok).
  assert (Hd : runs (op_trace ops ([], []) ;; entries) bucket_default
    (λ l b, l ≡ₚ map_to_list (spec_trace ops ∅).2)).
  { eapply runs_call; [exact Hr |]. intros [rs [ins outs]] b (cs & O & M & Hwf & _ & Hk & Hcs & Hsize & _).
    cbn [fst snd] in *.
    eapply runs_mono; [| eapply (runs_while_next TYPE ph (λ todo _ M' l _, M' = M ∧ l ++ values_at M todo ≡ₚ (map_to_list M).*2));
      [| exact Hwf | done | done |]].
    - intros l b' (cs' & O' & M' & _ & _ & -> & Hl). cbn in Hl. rewrite app_nil_r in Hl.
      by rewrite <-(keyed_perm _ _ Hk).
    - intros q todo b1 cs1 O1 M1 a l Hwf1 Ha Htodo Hnd [kv Hkv] [-> Hl].
      eapply runs_ptr_get_bind; [done.. |]. apply runs_ret. exists cs1, O1, M, l.
      split; [done |]. split; [done |]. split; [done |]. split; [done |]. split; [done |].
      unfold values_at in Hl |- *. cbn [omap list_omap] in Hl. cbn [fst snd]. rewrite Hkv in Hl. rewrite <-app_assoc. exact Hl.
    - split; [done |]. cbn [app]. apply values_at_perm.
      + by apply NoDup_filter, NoDup_positions, Hwf.
      + intros q kv Hq. apply elem_of_entries_at. split; [eauto | by eapply wf_positions]. }
  apply runs_Done in Hd as (l & b & Hrun & Hp). eauto.
Qed.
End Trace.

(** ** The theorems at work *)

Definition fill (n : nat) : list (bucket_op (K := Z) (V := Z)) :=
  (λ i, OpInsert (Z.of_nat i) (10 * Z.of_nat i)) <$> seq 0 n.

Definition low_byte (k : Z) : Z := k mod 256.

Lemma op_ok_seq (op : bucket_op (K := Z) (V := Z)) : op_ok SEQUENTIAL op.
Proof. by destruct op. Defined.

Lemma bucket_refines_map_witness :
  let ops := fill 43 ++ [OpRemove 3; OpGet 3; OpInsert 40 0; OpGet 41; OpPrune (λ k v, if k <? 9 then None else Some (v + 1));
    OpGet 41; OpLen; OpDrain; OpLen] in
  drop 43 (spec_trace ops ∅).1 = [Value (Some 30); Value None; Value (Some 400); Value (Some 410); Nothing;
    Value (Some 411); Count 34; Nothing; Count 0] ∧
  ∃ a b, run (op_trace SEQUENTIAL low_byte 100 ops ([], [])) bucket_default = Done ((spec_trace ops ∅).1, a) b ∧
    num_entries b = Z.of_nat (size (spec_trace ops ∅).2).
Proof.
  intros ops. split; [vm_compute; reflexivity |].
  apply (bucket_refines_map SEQUENTIAL low_byte 100 ops).
  - intros op _. apply op_ok_seq.
  - apply Nat.ltb_lt. vm_compute. reflexivity.
  - apply Z.leb_le. vm_compute. reflexivity.
Defined.

Lemma bucket_drops_once_witness :
  let ops := fill 35 ++ [OpRemove 3; OpRemove 34; OpInsert 50 0] in
  ∃ ins outs b,
    run (let! r := op_trace OPTIMISTIC low_byte 100 ops ([], []) in drop_entries 100 ;; Ret r.2) bucket_default =
      Done (ins, outs) b ∧ dropped b ++ outs ≡ₚ ins.
Proof.
  intros ops. apply (bucket_drops_once OPTIMISTIC low_byte 100 ops).
  - apply Forall_forall. vm_compute. repeat (constructor; [exact I |]). constructor.
  - apply Nat.ltb_lt. vm_compute. reflexivity.
  - apply Z.leb_le. vm_compute. reflexivity.
Defined.

Lemma bucket_iteration_witness :
  let ops := fill 34 ++ [OpRemove 5] in
  ∃ l b, run (op_trace SEQUENTIAL low_byte 100 ops ([], []) ;; entries SEQUENTIAL 100) bucket_default = Done l b ∧
    l ≡ₚ map_to_list (spec_trace ops ∅).2.
Proof.
  intros ops. apply (bucket_iteration SEQUENTIAL low_byte 100 ops).
  - intros op _. apply op_ok_seq.
  - apply Nat.ltb_lt. vm_compute. reflexivity.
  - apply Z.leb_le. vm_compute. reflexivity.
Defined.
