(* ===== verification/BucketLru.v ===== *)
(** * A bucket of a cache is an LRU cache

    The bucket part of [HashCache]: [put] evicts when the data block is full, [get]
    and [put] move the entry to the front of the LRU list.  With these operations a
    bucket behaves like a list of at most 32 entries in the order of their last use. *)
From S2P Require Import Prelude Atomic Lru Bucket BucketInv BucketQuery BucketOps BucketSpec BucketLinks BucketDrop BucketIter BucketProps.

Local Open Scope Z_scope.

Section Cache.
Context {K V : Type} `{Countable K} (ph : K → Z) (n : nat).

Implicit Types (b : Bucket K V) (M : gmap pos (K * V)) (l : list (K * V)) (li : list nat).

Local Notation wf := (wf CACHE ph).

(** ** Operations, as in [hash_cache.rs] *)

Inductive cache_op : Type :=
  | CPut (k : K) (v : V)
  | CGet (k : K)
  | CRemove (k : K).

Inductive cache_res : Type :=
  | Exists                             (* [Err]: the key is there *)
  | Evicted (e : option (K * V))       (* [Ok]: the entry that made room *)
  | Found (o : option V).

(** [put]: the part that is executed with the bucket locked. *)
Definition cache_put (k : K) (v : V) : prog (Bucket K V) cache_res :=
  let! ptr := get CACHE n k (ph k) in
  if is_valid ptr then Ret Exists
  else
    let! evicted := evict_lru_head CACHE in
    let! ptr := insert_with (λ R p, p) n (ph k) (Ret ((k, v), ())) in
    update_lru_tail CACHE ptr.1 ;;
    Ret (Evicted evicted).

(** [get], and the value read through the occupied entry. *)
Definition cache_get (k : K) : prog (Bucket K V) cache_res :=
  let! ptr := get CACHE n k (ph k) in
  if is_valid ptr then
    update_lru_tail CACHE ptr ;; (let! e := ptr_get ptr in Ret (Found (Some e.2)))
  else Ret (Found None).

(** [OccupiedEntry::remove_entry] *)
Definition cache_remove (k : K) : prog (Bucket K V) cache_res :=
  let! ptr := get CACHE n k (ph k) in
  if is_valid ptr then let! r := erase CACHE ptr in Ret (Found (snd <$> r)) else Ret (Found None).

Definition cache_apply (op : cache_op) : prog (Bucket K V) cache_res :=
  match op with
  | CPut k v => cache_put k v
  | CGet k => cache_get k
  | CRemove k => cache_remove k
  end.

Fixpoint cache_trace (ops : list cache_op) : prog (Bucket K V) (list cache_res) :=
  match ops with
  | [] => Ret []
  | op :: ops => let! r := cache_apply op in let! rs := cache_trace ops in Ret (r :: rs)
  end.

(** ** The specification: the entries, the one used last first *)

Fixpoint assoc (k : K) (l : list (K * V)) : option V :=
  match l with
  | [] => None
  | (k', v) :: l => if decide (k' = k) then Some v else assoc k l
  end.

Definition without (k : K) (l : list (K * V)) : list (K * V) := filter (λ e, e.1 ≠ k) l.

Definition lru_spec (op : cache_op) (l : list (K * V)) : cache_res * list (K * V) :=
  match op with
  | CPut k v =>
      match assoc k l with
      | Some _ => (Exists, l)
      | None =>
          if (length l =? BUCKET_LEN)%nat then (Evicted (last l), (k, v) :: removelast l)
          else (Evicted None, (k, v) :: l)
      end
  | CGet k =>
      match assoc k l with
      | Some v => (Found (Some v), (k, v) :: without k l)
      | None => (Found None, l)
      end
  | CRemove k => (Found (assoc k l), without k l)
  end.

Fixpoint lru_spec_trace (ops : list cache_op) (l : list (K * V)) : list cache_res * list (K * V) :=
  match ops with
  | [] => ([], l)
  | op :: ops =>
      let r := lru_spec op l in
      let rs := lru_spec_trace ops r.2 in
      (r.1 :: rs.1, rs.2)
  end.

(** ** The invariant *)

Definition holds M (i : nat) (e : K * V) : Prop := M !! (None, i) = Some e.

Record listed M li l : Prop := {
  listed_holds : Forall2 (holds M) li l;
  listed_all : ∀ q e, M !! q = Some e → ∃ i, q = (None, i) ∧ i ∈ li;
  listed_nodup : NoDup li;
  listed_keys : NoDup l.*1
}.

Lemma assoc_Some k v l : NoDup l.*1 → assoc k l = Some v ↔ (k, v) ∈ l.
Proof.
  induction l as [| [k' v'] l IH]; intros Hnd; cbn.
  - split; [done | by intros ?%elem_of_nil].
  - apply NoDup_cons in Hnd as [Hk Hnd]. case_decide as Hd.
    + subst k'. rewrite elem_of_cons. split; [intros [= ->]; by left |].
      intros [[= ->] | Hin]; [done |]. destruct Hk. apply list_elem_of_fmap. by exists (k, v).
    + rewrite IH, elem_of_cons by done. split; [by right |]. intros [[= -> ->] | ?]; done.
Qed.

Lemma listed_in M li l e : listed M li l → e ∈ l ↔ ∃ i, i ∈ li ∧ M !! (None, i) = Some e.
Proof.
  intros Hl. pose proof (listed_holds _ _ _ Hl) as Hf. split.
  - intros [j Hj]%list_elem_of_lookup. destruct (Forall2_lookup_r _ _ _ _ _ Hf Hj) as (i & Hi & Hh).
    exists i. split; [by eapply list_elem_of_lookup_2 | exact Hh].
  - intros (i & [j Hj]%list_elem_of_lookup & HM). destruct (Forall2_lookup_l _ _ _ _ _ Hf Hj) as (e' & He' & Hh).
    unfold holds in Hh. assert (e' = e) as -> by congruence. by eapply list_elem_of_lookup_2.
Qed.

Lemma listed_assoc M li l k : listed M li l →
  match assoc k l with
  | Some v => ∃ i, i ∈ li ∧ M !! (None, i) = Some (k, v)
  | None => absent M k
  end.
Proof.
  intros Hl. destruct (assoc k l) as [v |] eqn:Ha.
  - apply (assoc_Some _ _ _ (listed_keys _ _ _ Hl)) in Ha. by apply (listed_in _ _ _ _ Hl).
  - intros q [k' v] HM Heq. cbn in Heq. subst k'. destruct (listed_all _ _ _ Hl _ _ HM) as (i & -> & Hi).
    enough (assoc k l = Some v) by congruence. apply (assoc_Some _ _ _ (listed_keys _ _ _ Hl)).
    apply (listed_in _ _ _ _ Hl). eauto.
Qed.

(** A lookup finds the entry that the list has. *)
Lemma listed_found M li l q k v :
  listed M li l → M !! q = Some (k, v) → ∃ i, q = (None, i) ∧ i ∈ li ∧ assoc k l = Some v.
Proof.
  intros Hl HM. destruct (listed_all _ _ _ Hl _ _ HM) as (i & -> & Hi). exists i.
  split; [done |]. split; [done |]. apply (assoc_Some _ _ _ (listed_keys _ _ _ Hl)), (listed_in _ _ _ _ Hl). eauto.
Qed.

Lemma without_keys k l : NoDup l.*1 → NoDup (without k l).*1 ∧ k ∉ (without k l).*1.
Proof.
  intros Hnd. split.
  - induction l as [| [k' v'] l IH]; [constructor |]. cbn in Hnd. apply NoDup_cons in Hnd as [Hk Hnd].
    unfold without. rewrite filter_cons. case_decide; [| by apply IH].
    cbn. constructor; [| by apply IH]. intros ([k1 v1] & Heq & [_ Hin]%list_elem_of_filter)%list_elem_of_fmap.
    cbn in Heq. subst k1. apply Hk. apply list_elem_of_fmap. by exists (k', v1).
  - intros ([k1 v1] & Heq & [Hne _]%list_elem_of_filter)%list_elem_of_fmap. by subst k.
Qed.

Lemma without_absent k l : k ∉ l.*1 → without k l = l.
Proof.
  intros Hk. induction l as [| [k' v'] l IH]; [done |]. cbn in Hk. apply not_elem_of_cons in Hk as [Hne Hk].
  unfold without in IH |- *. rewrite filter_cons_True by (cbn; congruence). by rewrite IH.
Qed.

Lemma listed_filter M li l i k v :
  listed M li l → i ∈ li → M !! (None, i) = Some (k, v) →
  Forall2 (holds M) (filter (λ a, a ≠ i) li) (without k l).
Proof.
  intros [Hf _ Hnd Hk] Hi HM. induction Hf as [| j [k' v'] li l Hj Hf IH]; [constructor |].
  apply NoDup_cons in Hnd as [Hj' Hnd]. cbn in Hk. apply NoDup_cons in Hk as [Hk' Hk].
  unfold without. rewrite !filter_cons. unfold holds in Hj. cbn [fst].
  destruct (decide (j = i)) as [-> | Hne].
  - rewrite Hj in HM. injection HM as -> ->. rewrite !decide_False by (intros Hn; by apply Hn).
    pose proof (without_absent k l Hk') as Hw. unfold without in Hw. rewrite Hw.
    by rewrite filter_absent.
  - rewrite decide_True by done. apply elem_of_cons in Hi as [-> | Hi]; [done |].
    rewrite decide_True; [constructor; [done |]; by apply IH |].
    intros ->. apply list_elem_of_lookup in Hi as [x Hx].
    destruct (Forall2_lookup_l _ _ _ _ _ Hf Hx) as (e & He & Hh).
    unfold holds in Hh. rewrite HM in Hh. injection Hh as <-. apply Hk'. apply list_elem_of_fmap.
    exists (k, v). split; [done |]. by eapply list_elem_of_lookup_2.
Qed.

Lemma elem_of_others li i j : j ∈ filter (λ a, a ≠ i) li ↔ j ≠ i ∧ j ∈ li.
Proof. by rewrite list_elem_of_filter. Qed.

(** The entry at [i] is used. *)
Lemma listed_use M li l i k v :
  listed M li l → i ∈ li → M !! (None, i) = Some (k, v) →
  listed M (i :: filter (λ a, a ≠ i) li) ((k, v) :: without k l).
Proof.
  intros Hl Hi HM. destruct (without_keys k l (listed_keys _ _ _ Hl)) as [Hk Hn]. constructor.
  - constructor; [done |]. by eapply listed_filter.
  - intros q e Hq. destruct (listed_all _ _ _ Hl _ _ Hq) as (j & -> & Hj). exists j. split; [done |].
    destruct (decide (j = i)) as [-> |]; [left | right; by apply elem_of_others].
  - constructor; [by intros [? _]%elem_of_others | apply NoDup_filter, Hl].
  - cbn. by constructor.
Qed.

Lemma holds_ext M M' li l :
  (∀ i, i ∈ li → M' !! (None, i) = M !! (None, i)) → Forall2 (holds M) li l → Forall2 (holds M') li l.
Proof.
  intros Heq Hf. induction Hf as [| i e li l Hi Hf IH]; constructor.
  - unfold holds. by rewrite Heq by left.
  - apply IH. intros j Hj. apply Heq. by right.
Qed.

(** The entry at [i] is removed. *)
Lemma listed_remove M li l i k v :
  listed M li l → i ∈ li → M !! (None, i) = Some (k, v) →
  listed (delete (None, i) M) (filter (λ a, a ≠ i) li) (without k l).
Proof.
  intros Hl Hi HM. destruct (without_keys k l (listed_keys _ _ _ Hl)) as [Hk _]. constructor; [| | apply NoDup_filter, Hl | done].
  - eapply holds_ext; [| by eapply listed_filter]. intros j [Hj _]%elem_of_others. apply lookup_delete_ne. congruence.
  - intros q e [Hne Hq]%lookup_delete_Some. destruct (listed_all _ _ _ Hl _ _ Hq) as (j & -> & Hj).
    exists j. split; [done |]. apply elem_of_others. split; [congruence | done].
Qed.

(** A new entry at a free index. *)
Lemma listed_add M li l i k v :
  listed M li l → M !! (None, i) = None → assoc k l = None →
  listed (<[(None, i) := (k, v)]> M) (i :: filter (λ a, a ≠ i) li) ((k, v) :: l).
Proof.
  intros Hl HM Ha. assert (Hi : i ∉ li).
  { intros [x Hx]%list_elem_of_lookup. destruct (Forall2_lookup_l _ _ _ _ _ (listed_holds _ _ _ Hl) Hx) as (e & _ & Hh).
    unfold holds in Hh. congruence. }
  rewrite filter_absent by done. constructor.
  - constructor; [apply lookup_insert_eq |]. eapply holds_ext; [| apply Hl].
    intros j Hj. apply lookup_insert_ne. intros [= ->]. done.
  - intros q e Hq. destruct (decide ((None, i) = q)) as [<- | Hne]; [exists i; by split; [| left] |].
    rewrite lookup_insert_ne in Hq by done. destruct (listed_all _ _ _ Hl _ _ Hq) as (j & -> & Hj).
    exists j. split; [done | by right].
  - constructor; [done | apply Hl].
  - cbn. constructor; [| apply Hl]. intros ([k' v'] & Heq & Hin)%list_elem_of_fmap. cbn in Heq. subst k'.
    apply (assoc_Some _ _ _ (listed_keys _ _ _ Hl)) in Hin. congruence.
Qed.

Lemma last_removelast {A} (l : list A) x : last l = Some x → l = removelast l ++ [x].
Proof. intros [l' ->]%last_Some. by rewrite removelast_last. Qed.

Lemma listed_last M li l i : listed M li l → last li = Some i →
  ∃ k v, last l = Some (k, v) ∧ M !! (None, i) = Some (k, v) ∧
    filter (λ a, a ≠ i) li = removelast li ∧ without k l = removelast l.
Proof.
  intros Hl Hi. pose proof (last_removelast _ _ Hi) as Hli. destruct Hl as [Hf _ Hnd Hk].
  rewrite Hli in Hf. apply Forall2_app_inv_l in Hf as (l1 & l2 & Hf1 & Hf2 & ->).
  inversion Hf2 as [| ? [k v] ? l3 Hh Hf3]; subst. inversion Hf3; subst. exists k, v.
  rewrite last_snoc, removelast_last. split; [done |]. split; [exact Hh |]. split.
  - rewrite Hli at 1. rewrite filter_split; [by rewrite app_nil_r |]. by rewrite <-Hli.
  - unfold without. rewrite fmap_app in Hk. apply NoDup_app in Hk as (_ & Hd & _).
    rewrite filter_app. rewrite (filter_cons_False _ _ []) by (intros Hn; by apply Hn). rewrite filter_nil, app_nil_r.
    apply without_absent. intros Hin. apply (Hd _ Hin). cbn. left.
Qed.

(** ** One operation *)

Definition cache_inv b l : Prop := ∃ M li, wf b [] M M ∧ lru_ok b li ∧ listed M li l.

Lemma in_range b li : lru_ok b li → li ⊆+ seq 0 BUCKET_LEN.
Proof.
  intros [_ Hr]. apply NoDup_submseteq; [apply Hr |]. intros i Hi. apply elem_of_seq.
  pose proof (rep_range _ _ _ Hr i Hi). lia.
Qed.

Lemma listed_size b M li l : lru_ok b li → listed M li l → (size M ≤ BUCKET_LEN)%nat ∧ length l = length li.
Proof.
  intros Hr Hl. split.
  - pose proof (submseteq_length _ _ (in_range _ _ Hr)) as Hle. rewrite length_seq in Hle.
    transitivity (length li); [| done]. rewrite <-size_dom.
    rewrite <-(length_fmap (λ i, (None, i) : pos) li).
    assert (Hnd : NoDup ((λ i, (None, i) : pos) <$> li)).
    { apply NoDup_fmap_2; [by intros i j [= ->] | apply Hl]. }
    rewrite <-(size_list_to_set (C := gset pos)) by done. apply subseteq_size.
    intros q [e Hq]%elem_of_dom. destruct (listed_all _ _ _ Hl _ _ Hq) as (i & -> & Hi).
    apply elem_of_list_to_set, list_elem_of_fmap. eauto.
  - symmetry. eapply Forall2_length, Hl.
Qed.

Lemma runs_cache_get b l k {R} (found : EntryPtr → prog (Bucket K V) R) (missing : prog (Bucket K V) R) Q :
  cache_inv b l → (0 < n)%nat →
  (∀ M li i v, wf b [] M M → lru_ok b li → listed M li l → i ∈ li → M !! (None, i) = Some (k, v) →
     assoc k l = Some v → runs (found (ptr_of (None, i))) b Q) →
  (assoc k l = None → runs missing b Q) →
  runs (let! ptr := get CACHE n k (ph k) in if is_valid ptr then found ptr else missing) b Q.
Proof.
  intros (M & li & Hwf & Hlru & Hl) Hn Hf Hm. eapply runs_call; [by eapply runs_bucket_get |].
  intros ptr b' [-> [(q & [k' v] & Hq & Heq & ->) | [Ha ->]]].
  - cbn in Heq. subst k'. rewrite (is_valid_ptr _ _ _ _ _ _ _ _ Hwf Hq).
    destruct (listed_found _ _ _ _ _ _ Hl Hq) as (i & -> & Hi & Hk). by eapply (Hf M li i v).
  - apply Hm. pose proof (listed_assoc _ _ _ k Hl) as Hk. destruct (assoc k l) as [v |]; [| done].
    destruct Hk as (i & _ & HM). by destruct (Ha _ _ HM).
Qed.

(** The insertion of a new entry, which becomes the one used last. *)
Lemma runs_put_new b M li l k v (r : cache_res) :
  wf b [] M M → lru_ok b li → listed M li l → assoc k l = None → (length li < BUCKET_LEN)%nat → (0 < n)%nat →
  runs (let! ptr := insert_with (λ R p, p) n (ph k) (Ret ((k, v), ())) in update_lru_tail CACHE ptr.1 ;; Ret r) b
    (λ r' b', r' = r ∧ cache_inv b' ((k, v) :: l)).
Proof.
  intros Hwf Hlru Hl Hk Hlen Hn. destruct (listed_size _ _ _ _ Hlru Hl) as [Hsize _].
  assert (Hnum : num_entries b ≠ u32_max).
  { rewrite (wf_num _ _ _ _ _ _ Hwf). unfold u32_max, umax. change BUCKET_LEN with 32%nat in Hsize. lia. }
  eapply runs_call; [by eapply runs_insert_with |].
  intros [ptr ()] b1 (q & cs' & Hp & _ & HM & Hwf1 & _ & Hsl & _ & Hcs).
  cbn [fst] in Hp |- *. subst ptr.
  assert (Hcs0 : cs' = []).
  { destruct Hcs as [-> | Hfull]; [done |]. exfalso.
    assert (Hsub : seq 0 BUCKET_LEN ⊆+ li); [| apply submseteq_length in Hsub; rewrite length_seq in Hsub; lia].
    apply NoDup_submseteq; [apply NoDup_seq |]. intros i Hi%elem_of_seq.
    destruct (Hfull (None, i)) as [e He].
    { apply elem_of_app. left. apply elem_of_from. split; [done |]. cbn. lia. }
    destruct (listed_all _ _ _ Hl _ _ He) as (j & [= <-] & Hj). done. }
  rewrite Hcs0 in Hwf1.
  assert (Hq : ∃ i, q = (None, i)).
  { pose proof (wf_positions _ _ _ _ _ _ q (k, v) Hwf1 (lookup_insert_eq _ _ _)) as Hin.
    destruct q as [p i]. exists i. unfold positions in Hin. rewrite app_nil_r in Hin.
    by apply elem_of_from in Hin as [-> _]. }
  destruct Hq as [i ->]. pose proof (same_lru_ok _ _ _ Hsl Hlru) as Hlru1.
  eapply runs_call; [eapply (runs_update_lru_tail CACHE ph b1 [] _ _ None i (k, v) li); [done | exact Hwf1 | apply lookup_insert_eq | done] |].
  intros x b' (Hwf' & _ & Hlru'). apply runs_ret. split; [done |]. exists (<[(None, i) := (k, v)]> M), (i :: filter (λ a, a ≠ i) li).
  split; [done |]. split; [done |]. by apply listed_add.
Qed.

Lemma runs_cache_op op b l :
  cache_inv b l → (0 < n)%nat →
  runs (cache_apply op) b (λ r b', r = (lru_spec op l).1 ∧ cache_inv b' (lru_spec op l).2).
Proof.
  intros Hinv Hn. destruct op as [k v | k | k]; cbn [cache_apply lru_spec]; unfold cache_put, cache_get, cache_remove.
  - apply (runs_cache_get b l k); [exact Hinv | exact Hn | |].
    + intros M li i w Hwf Hlru Hl Hi HM ->. apply runs_ret. done.
    + intros Hk. rewrite Hk. destruct Hinv as (M & li & Hwf & Hlru & Hl).
      destruct (listed_size _ _ _ _ Hlru Hl) as [_ Hlen]. rewrite Hlen.
      eapply runs_call; [by eapply (runs_evict_lru_head CACHE ph b [] M M li) |].
      intros [e |] b1 [Hev _].
      * destruct Hev as (HMe & Hwf1 & Hlru1 & Hall).
        assert (H32 : length li = BUCKET_LEN).
        { apply Nat.le_antisymm; [pose proof (submseteq_length _ _ (in_range _ _ Hlru)) as Hle; by rewrite length_seq in Hle |].
          rewrite <-(length_seq BUCKET_LEN 0). apply submseteq_length, NoDup_submseteq; [apply NoDup_seq |].
          intros i Hi%elem_of_seq. destruct (Hall i ltac:(lia)) as [e' He'].
          by destruct (listed_all _ _ _ Hl _ _ He') as (j & [= <-] & Hj). }
        rewrite H32, Nat.eqb_refl. destruct (last li) as [i |] eqn:Hi; [| by apply last_None in Hi as ->].
        change (default 0%nat (Some i)) with i in HMe, Hwf1. destruct (listed_last _ _ _ _ Hl Hi) as (k1 & v1 & Hlast & HM1 & Hf1 & Hf2).
        assert (Hin : i ∈ li) by (by apply last_Some_elem_of).
        pose proof (listed_remove _ _ _ _ _ _ Hl Hin HM1) as Hl1. rewrite Hf1, Hf2 in Hl1.
        assert (e = (k1, v1)) as -> by congruence. rewrite Hlast. cbn [fst snd].
        pose proof (listed_holds _ _ _ Hl1) as Hlen1. apply Forall2_length in Hlen1.
        eapply runs_put_new; try done.
        -- rewrite <-Hf2. pose proof (without_keys k1 l (listed_keys _ _ _ Hl)) as [Hnd _].
           destruct (assoc k (without k1 l)) as [w |] eqn:Hw; [| done].
           apply (assoc_Some _ _ _ Hnd), list_elem_of_filter in Hw as [_ Hw].
           apply (assoc_Some _ _ _ (listed_keys _ _ _ Hl)) in Hw. congruence.
        -- rewrite (last_removelast _ _ Hi), length_app in H32. cbn in H32. lia.
      * destruct Hev as [-> (i & Hi & HMi)].
        assert (Hlt : (length li < BUCKET_LEN)%nat).
        { assert (Hni : i ∉ li).
          { intros [x Hx]%list_elem_of_lookup.
            destruct (Forall2_lookup_l _ _ _ _ _ (listed_holds _ _ _ Hl) Hx) as (e & _ & Hh). unfold holds in Hh. congruence. }
          assert (Hsub : i :: li ⊆+ seq 0 BUCKET_LEN).
          { apply NoDup_submseteq; [constructor; [done | apply Hl] |]. intros j [-> | Hj]%elem_of_cons.
            - apply elem_of_seq. lia.
            - apply elem_of_seq. pose proof (rep_range _ _ _ (proj2 Hlru) j Hj). lia. }
          apply submseteq_length in Hsub. rewrite length_seq in Hsub. cbn [length] in Hsub. lia. }
        rewrite (proj2 (Nat.eqb_neq (length li) BUCKET_LEN)) by lia. cbn [fst snd].
        by eapply runs_put_new.
  - apply (runs_cache_get b l k); [exact Hinv | exact Hn | |].
    + intros M li i v Hwf Hlru Hl Hi HM ->. cbn [fst snd].
      eapply runs_call; [by eapply (runs_update_lru_tail CACHE ph b [] M M None i (k, v) li) |].
      intros x b' (Hwf' & _ & Hlru'). eapply runs_call; [by eapply runs_ptr_get |]. intros e b'' [-> ->].
      apply runs_ret. split; [done |]. exists M, (i :: filter (λ a, a ≠ i) li).
      split; [done |]. split; [done |]. by apply listed_use.
    + intros ->. apply runs_ret. done.
  - apply (runs_cache_get b l k); [exact Hinv | exact Hn | |].
    + intros M li i v Hwf Hlru Hl Hi HM ->. cbn [fst snd].
      eapply runs_call; [by eapply (runs_erase_lru CACHE ph b [] M M (None, i) (k, v) li) |].
      intros r b' (-> & Hwf' & _ & Hlru'). apply runs_ret. rewrite decide_False in Hwf' by done.
      rewrite decide_False by done. split; [done |].
      exists (delete (None, i) M), (filter (λ a, a ≠ i) li). split; [done |]. split; [by apply Hlru' |].
      by eapply listed_remove.
    + intros Hk. rewrite Hk. apply runs_ret. split; [done |]. destruct Hinv as (M & li & Hwf & Hlru & Hl).
      exists M, li. split; [done |]. split; [done |]. cbn [snd]. rewrite without_absent; [done |].
      intros ([k' v] & Heq & Hin)%list_elem_of_fmap. cbn in Heq. subst k'.
      apply (assoc_Some _ _ _ (listed_keys _ _ _ Hl)) in Hin. congruence.
Qed.

(** C13. A bucket of a [HashCache] is an LRU cache of 32 entries.  Any sequence of [put],
    [get] and [remove] on a new bucket of the [CACHE] type answers what the list of the
    entries in the order of their last use does: a [put] of a new key that finds 32
    entries evicts exactly the entry whose last use is the oldest, any other one evicts
    nothing, and no operation panics or allocates a linked bucket. *)
Theorem cache_bucket_lru (ops : list cache_op) (Hn : (0 < n)%nat) :
  ∃ b, run (cache_trace ops) bucket_default = Done (lru_spec_trace ops []).1 b ∧
    num_entries b = Z.of_nat (length (lru_spec_trace ops []).2) ∧ links b = ∅.
Proof.
  assert (Hgen : ∀ b l, cache_inv b l → runs (cache_trace ops) b (λ rs b',
    rs = (lru_spec_trace ops l).1 ∧ cache_inv b' (lru_spec_trace ops l).2)).
  { induction ops as [| op ops IH]; intros b l Hinv; [by apply runs_ret |]. cbn [cache_trace lru_spec_trace].
    eapply runs_call; [by apply runs_cache_op |]. intros r b1 [-> Hinv1].
    eapply runs_call; [by apply IH |]. intros rs b2 [-> Hinv2]. by apply runs_ret. }
  assert (Hinv0 : cache_inv bucket_default []).
  { exists ∅, []. split; [apply wf_default |]. split; [split; [done | apply rep_default] |].
    constructor; [constructor | | constructor | constructor].
    intros q e Hq. by rewrite lookup_empty in Hq. }
  specialize (Hgen _ _ Hinv0). apply runs_Done in Hgen as (rs & b & Hrun & -> & M & li & Hwf & Hlru & Hl).
  exists b. split; [exact Hrun |]. split.
  - rewrite (wf_num _ _ _ _ _ _ Hwf). f_equal. pose proof (Forall2_length _ _ _ (listed_holds _ _ _ Hl)) as Hlen.
    rewrite <-Hlen. apply Nat.le_antisymm.
    + rewrite <-size_dom. transitivity (size (list_to_set ((λ i, (None, i) : pos) <$> li) : gset pos)).
      * apply subseteq_size. intros q [e Hq]%elem_of_dom. destruct (listed_all _ _ _ Hl _ _ Hq) as (i & -> & Hi).
        apply elem_of_list_to_set, list_elem_of_fmap. eauto.
      * rewrite size_list_to_set by (apply NoDup_fmap_2; [by intros i j [= ->] | apply Hl]). by rewrite length_fmap.
    + rewrite <-size_dom, <-(length_fmap (λ i, (None, i) : pos) li).
      rewrite <-(size_list_to_set (C := gset pos)) by (apply NoDup_fmap_2; [by intros i j [= ->] | apply Hl]).
      apply subseteq_size. intros q (i & -> & Hi)%elem_of_list_to_set%list_elem_of_fmap. apply elem_of_dom.
      apply list_elem_of_lookup in Hi as [x Hx].
      destruct (Forall2_lookup_l _ _ _ _ _ (listed_holds _ _ _ Hl) Hx) as (e & _ & Hh). eauto.
  - apply map_eq. intros i. rewrite lookup_empty. destruct (links b !! i) as [lb |] eqn:Hi; [| done].
    assert (Hin : i ∈ []) by (apply (wf_dom _ _ _ _ _ _ Hwf); eauto). by apply elem_of_nil in Hin.
Qed.
End Cache.

Lemma cache_bucket_lru_witness :
  let ops := ((λ i, CPut (Z.of_nat i) (Z.of_nat i)) <$> seq 0 32) ++
    [CGet 0; CPut 100 7; CGet 1; CRemove 2; CPut 101 8; CPut 102 9; CPut 100 1] in
  (0 < 1)%nat ∧
  drop 32 (lru_spec_trace ops []).1 =
    [Found (Some 0); Evicted (Some (1, 1)); Found None; Found (Some 2); Evicted None; Evicted (Some (3, 3)); Exists] ∧
  ∃ b, run (cache_trace low_byte 1 ops) bucket_default = Done (lru_spec_trace ops []).1 b ∧
    num_entries b = Z.of_nat (length (lru_spec_trace ops []).2) ∧ links b = ∅.
Proof.
  intros ops. assert (Hn : (0 < 1)%nat) by lia. split; [exact Hn |]. split; [vm_compute; reflexivity |].
  exact (cache_bucket_lru low_byte 1 ops Hn).
Defined.
