(* ===== verification/BucketArray.v ===== *)
(** * The bucket array: [src/hash_table/bucket_array.rs]

    An array of buckets, a power of two of them.  The index of a key's bucket is the
    upper bits of its hash value, so that when the array grows or shrinks a bucket is
    spread over adjacent buckets, or merged with its neighbours.  The sizes are those of a
    64-bit machine. *)
From S2P Require Import Prelude Atomic Lru Bucket.

Local Open Scope Z_scope.

(** [usize::MAX] *)
Definition usize_max : Z := umax 64.

(** [BucketArray::minimum_capacity()], the function. *)
Definition array_minimum_capacity : Z := ushl (Z.of_nat BUCKET_LEN) 1.

Definition partial_hash (hash : Z) : Z := hash mod ushl 1 8.

(** ** The number of buckets *)

Definition adjusted_capacity (capacity : Z) : Z :=
  Z.min (Z.max capacity 64) (usize_max / 2 - (Z.of_nat BUCKET_LEN - 1)).

Definition required_buckets (capacity : Z) : Z :=
  next_power_of_two ((adjusted_capacity capacity + Z.of_nat BUCKET_LEN - 1) / Z.of_nat BUCKET_LEN).

(** The log, and whether the debug assertions hold; the result is cast to 8 bits. *)
Definition calculate_log2_array_size (capacity : Z) : Z * bool :=
  let required_buckets := required_buckets capacity in
  let log2_capacity := 64 - leading_zeros 64 required_buckets - 1 in
  (wrap 8 log2_capacity,
   (log2_capacity <? 64) && (ushl 1 (Z.to_nat log2_capacity) * Z.of_nat BUCKET_LEN >=? adjusted_capacity capacity)).

(** ** Memory

    The sizes of the types, which depend on the keys and the values, and what the allocator
    answers to the requests that a container makes, one after the other: an address, or
    null.  A bucket has 64 bytes, with an LRU list 128: its fields add up to that.  A block
    of memory does not reach over the end of the address space. *)
Record Memory := {
  bucket_size : Z;
  data_block_size : Z;
  data_block_align : Z;
  alloc_zeroed : nat → Z → Z → Z;
  alloc : nat → Z → Z → Z;
  bucket_size_cases : bucket_size = 64 ∨ bucket_size = 128;
  data_block_size_range : 0 ≤ data_block_size;
  alloc_zeroed_range request size align : let address := alloc_zeroed request size align in
    address = 0 ∨ (0 < address ∧ address + size ≤ usize_max)
}.

(** [isize::MAX] *)
Definition isize_max : Z := 2 ^ 63 - 1.

(** [Layout::from_size_align] accepts the size.  [from_size_align_unchecked] does not look,
    but must not be called with a size that it would not accept. *)
Definition layout_fits (size align : Z) : bool := size <=? isize_max - (align - 1).

(** An operation on [usize] that does not overflow. *)
Definition checked (x : Z) : option Z := if x <=? usize_max then Some x else None.

(** How an allocation ends: with its result; because there is no such memory, be it that its
    size overflows, that it has no layout, or that the allocator returns null; or with
    another assertion that fails. *)
Inductive allocation (A : Type) :=
  | Allocated (a : A)
  | OutOfMemory
  | Failed.

Arguments Allocated {_} _.
Arguments OutOfMemory {_}.
Arguments Failed {_}.

(** [calculate_memory_layout]: the size of a bucket and of the allocation; [None] is an
    overflow. *)
Definition calculate_memory_layout (size_of_t array_len : Z) : option (Z * Z) :=
  let aligned_size := next_power_of_two size_of_t in
  size ← checked (array_len * size_of_t);
  allocation_size ← checked (aligned_size + size);
  Some (size_of_t, allocation_size).

(** The part of [BucketArray::new] that allocates the buckets.  The allocator gives an
    address without any alignment; the array starts at the next multiple of the size of a
    bucket, at the offset that is the result. *)
Definition place_buckets (m : Memory) (request : nat) (array_len : Z) : allocation Z :=
  match calculate_memory_layout (bucket_size m) array_len with
  | None => OutOfMemory
  | Some (bucket_size, bucket_array_allocation_size) =>
      if layout_fits bucket_array_allocation_size 1 then
        let bucket_array_ptr := alloc_zeroed m request bucket_array_allocation_size 1 in
        if bucket_array_ptr =? 0 then OutOfMemory
        else
          let bucket_array_ptr_offset :=
            next_power_of_two bucket_size - bucket_array_ptr mod next_power_of_two bucket_size in
          if bucket_array_ptr_offset + bucket_size * array_len <=? bucket_array_allocation_size then
            match checked (bucket_array_ptr + bucket_array_ptr_offset) with
            | Some start => if start mod bucket_size =? 0 then Allocated bucket_array_ptr_offset else Failed
            | None => Failed
            end
          else Failed
      else OutOfMemory
  end.

(** The part of it that allocates the data blocks: their address.  An allocation of no bytes
    is outside of the contract of [alloc]. *)
Definition place_data_blocks (m : Memory) (request : nat) (array_len : Z) : allocation Z :=
  match checked (data_block_size m * array_len) with
  | None => OutOfMemory
  | Some size =>
      if layout_fits size (data_block_align m) && negb (size =? 0) then
        let data_block_array_ptr := alloc m request size (data_block_align m) in
        if data_block_array_ptr =? 0 then OutOfMemory else Allocated data_block_array_ptr
      else OutOfMemory
  end.

(** ** The array *)

(** [old_array] is the id of an array, [None] is null. *)
Record BucketArray (K V : Type) := {
  array_len : nat;
  hash_offset : nat;
  sample_size : nat;
  bucket_ptr_offset : Z;
  old_array : option nat;
  num_cleared_buckets : Z;
  buckets : list (Bucket K V)
}.

Arguments array_len {_ _} _.
Arguments hash_offset {_ _} _.
Arguments sample_size {_ _} _.
Arguments bucket_ptr_offset {_ _} _.
Arguments old_array {_ _} _.
Arguments num_cleared_buckets {_ _} _.
Arguments buckets {_ _} _.

Section Array.
Context {K V : Type}.

Definition set_old_array (x : option nat) (a : BucketArray K V) : BucketArray K V :=
  {| array_len := array_len a; hash_offset := hash_offset a; sample_size := sample_size a; bucket_ptr_offset := bucket_ptr_offset a;
     old_array := x; num_cleared_buckets := num_cleared_buckets a; buckets := buckets a |}.
Definition set_num_cleared_buckets (x : Z) (a : BucketArray K V) : BucketArray K V :=
  {| array_len := array_len a; hash_offset := hash_offset a; sample_size := sample_size a; bucket_ptr_offset := bucket_ptr_offset a;
     old_array := old_array a; num_cleared_buckets := x; buckets := buckets a |}.
Definition set_buckets (x : list (Bucket K V)) (a : BucketArray K V) : BucketArray K V :=
  {| array_len := array_len a; hash_offset := hash_offset a; sample_size := sample_size a; bucket_ptr_offset := bucket_ptr_offset a;
     old_array := old_array a; num_cleared_buckets := num_cleared_buckets a; buckets := x |}.

(** [BucketArray::new]; [request] is the number of the arrays that were asked for before. *)
Definition array_new (m : Memory) (request : nat) (capacity : Z) (old_array : option nat) : allocation (BucketArray K V) :=
  let '(log2_array_len, ok) := calculate_log2_array_size capacity in
  if ok && negb (log2_array_len =? 0) then
    let array_len := ushl 1 (Z.to_nat log2_array_len) in
    match place_buckets m request array_len with
    | Allocated bucket_array_ptr_offset =>
        match place_data_blocks m request array_len with
        | Allocated _ =>
            Allocated {| array_len := Z.to_nat array_len;
                         hash_offset := 64 - Z.to_nat log2_array_len;
                         sample_size := Z.to_nat (next_power_of_two log2_array_len);
                         bucket_ptr_offset := wrap 16 bucket_array_ptr_offset;
                         old_array := old_array;
                         num_cleared_buckets := 0;
                         buckets := replicate (Z.to_nat array_len) bucket_default |}
        | OutOfMemory => OutOfMemory
        | Failed => Failed
        end
    | OutOfMemory => OutOfMemory
    | Failed => Failed
    end
  else Failed.

Implicit Types (self : BucketArray K V).

Definition num_buckets self : nat := array_len self.

(** [BucketArray::num_entries]: the number of slots, linked buckets aside. *)
Definition array_num_entries self : Z := Z.of_nat (array_len self * BUCKET_LEN).

Definition within_sampling_range self (index : nat) : bool := (index mod sample_size self =? 0)%nat.

Definition full_sample_size self : nat := Nat.min (sample_size self * sample_size self) (num_buckets self).

Definition has_old_array self : bool := negb (bool_decide (old_array self = None)).

(** [hash.wrapping_shr(self.hash_offset) as usize] *)
Definition calculate_bucket_index self (hash : Z) : nat :=
  Z.to_nat (ushr hash (hash_offset self mod 64)).
End Array.

(** ** The size of a new array *)

Lemma log2_up_bounds x : 1 ≤ x → x ≤ 2 ^ Z.log2_up x < 2 * x.
Proof.
  intros Hx. destruct (decide (x = 1)) as [-> |]; [cbn; lia |].
  pose proof (Z.log2_up_spec x ltac:(lia)) as [Hlo Hhi]. split; [done |].
  pose proof (Z.log2_up_pos x ltac:(lia)) as Hpos.
  replace (Z.log2_up x) with (Z.succ (Z.pred (Z.log2_up x))) by lia. rewrite Z.pow_succ_r by lia. lia.
Qed.

Lemma required_buckets_pow capacity :
  ∃ e, 1 ≤ e ≤ 58 ∧ required_buckets capacity = 2 ^ e ∧
    adjusted_capacity capacity ≤ 2 ^ e * 32 ∧
    (2 ≤ e → 2 ^ (e - 1) * 32 < adjusted_capacity capacity).
Proof.
  unfold required_buckets, next_power_of_two. set (q := (_ + _ - 1) / _).
  assert (Hadj : 64 ≤ adjusted_capacity capacity ≤ 2 ^ 63 - 32).
  { unfold adjusted_capacity, usize_max, umax. change (Z.of_nat BUCKET_LEN) with 32.
    change ((2 ^ Z.of_nat 64 - 1) / 2) with (2 ^ 63 - 1). lia. }
  assert (Hq : 32 * q ≤ adjusted_capacity capacity + 31 < 32 * q + 32).
  { unfold q. change (Z.of_nat BUCKET_LEN) with 32.
    pose proof (Z.div_mod (adjusted_capacity capacity + 32 - 1) 32 ltac:(lia)).
    pose proof (Z.mod_pos_bound (adjusted_capacity capacity + 32 - 1) 32 ltac:(lia)). lia. }
  pose proof (log2_up_bounds q ltac:(lia)) as Hb.
  exists (Z.log2_up q). split; [split |].
  - assert (Z.log2_up 2 ≤ Z.log2_up q); [apply Z.log2_up_le_mono; lia | by cbn in *].
  - rewrite <-(Z.log2_up_pow2 58) by lia. apply Z.log2_up_le_mono. lia.
  - split; [done |]. split; [lia |]. intros He.
    pose proof (Z.log2_up_spec q ltac:(lia)) as [Hlo _]. rewrite <-Z.sub_1_r in Hlo. lia.
Qed.

Lemma leading_zeros_pow e : 0 ≤ e < 64 → leading_zeros 64 (2 ^ e) = 63 - e.
Proof.
  intros He. unfold leading_zeros. pose proof (Z.pow_pos_nonneg 2 e).
  destruct (Z.eqb_spec (2 ^ e) 0) as [H0 | _]; [lia |]. rewrite Z.log2_pow2 by lia. lia.
Qed.

(** An array of [2 ^ e] buckets. *)
Record shape {K V} (a : BucketArray K V) (e : nat) : Prop := {
  sh_log : (1 ≤ e ≤ 58)%nat;
  sh_len : array_len a = (2 ^ e)%nat;
  sh_offset : hash_offset a = (64 - e)%nat;
  sh_sample : sample_size a = Z.to_nat (next_power_of_two (Z.of_nat e));
  sh_buckets : length (buckets a) = array_len a
}.

Lemma calculate_log2_spec capacity :
  ∃ e : nat, (1 ≤ e ≤ 58)%nat ∧ calculate_log2_array_size capacity = (Z.of_nat e, true) ∧
    required_buckets capacity = 2 ^ Z.of_nat e ∧
    adjusted_capacity capacity ≤ 2 ^ Z.of_nat e * 32 ∧
    ((2 ≤ e)%nat → 2 ^ (Z.of_nat e - 1) * 32 < adjusted_capacity capacity).
Proof.
  destruct (required_buckets_pow capacity) as (e & He & Hr & Hlo & Hhi). exists (Z.to_nat e).
  rewrite !Z2Nat.id by lia. split; [lia |]. split; [| split; [done |]; split; [done |]; intros; apply Hhi; lia].
  unfold calculate_log2_array_size. rewrite Hr, leading_zeros_pow by lia.
  replace (64 - (63 - e) - 1) with e by lia. rewrite wrap_id; [f_equal | unfold in_word; lia].
  apply andb_true_intro. split; [apply Z.ltb_lt; lia |]. apply Z.geb_le.
  unfold ushl. rewrite Z.shiftl_1_l, Z2Nat.id by lia. exact Hlo.
Qed.

(** ** The memory of a new array *)

Lemma bucket_size_pow m : next_power_of_two (bucket_size m) = bucket_size m.
Proof. by destruct (bucket_size_cases m) as [-> | ->]. Qed.

(** Wherever the allocator puts the memory, the first bucket is aligned to the size of a
    bucket, the last one ends inside the allocation, and the offset fits the 16 bits in
    which it is kept for the deallocation. *)
Lemma place_buckets_cases m request array_len : 0 ≤ array_len →
  place_buckets m request array_len = OutOfMemory ∨
  ∃ offset size, place_buckets m request array_len = Allocated offset ∧
    calculate_memory_layout (bucket_size m) array_len = Some (bucket_size m, size) ∧
    0 < offset ∧ wrap 16 offset = offset ∧ (alloc_zeroed m request size 1 + offset) mod bucket_size m = 0 ∧
    offset + bucket_size m * array_len ≤ size.
Proof.
  intros Hlen. unfold place_buckets. destruct (calculate_memory_layout _ _) as [[z size] |] eqn:Hlay; [| by left].
  unfold calculate_memory_layout, checked in Hlay. rewrite bucket_size_pow in Hlay.
  destruct (_ <=? _) eqn:H1 in Hlay; [| done]. cbn in Hlay. destruct (_ <=? _) eqn:H2 in Hlay; [| done]. cbn in Hlay. injection Hlay as <- <-.
  set (size := bucket_size m + array_len * bucket_size m) in *. destruct (layout_fits _ _); [| by left].
  pose proof (alloc_zeroed_range m request size 1) as Hptr. cbv zeta in Hptr. set (ptr := alloc_zeroed m request size 1) in *.
  destruct (Z.eqb_spec ptr 0) as [_ | Hne]; [by left |]. destruct Hptr as [? | [Hptr Hend]]; [done |]. right. rewrite bucket_size_pow.
  assert (Hb : 0 < bucket_size m < 2 ^ 16) by (destruct (bucket_size_cases m) as [-> | ->]; lia).
  pose proof (Z.mod_pos_bound ptr (bucket_size m) ltac:(lia)) as Hm. set (offset := bucket_size m - ptr mod bucket_size m).
  assert (Hal : (ptr + offset) mod bucket_size m = 0).
  { unfold offset. replace (ptr + (bucket_size m - ptr mod bucket_size m)) with ((ptr / bucket_size m + 1) * bucket_size m); [apply Z.mod_mul; lia |].
    pose proof (Z.div_mod ptr (bucket_size m) ltac:(lia)). lia. }
  exists offset, size. assert (Hsum : offset + bucket_size m * array_len ≤ size) by (unfold offset, size; lia).
  rewrite (proj2 (Z.leb_le _ _) Hsum). unfold checked.
  assert (Hin : ptr + offset ≤ usize_max) by (unfold offset, size in *; nia).
  rewrite (proj2 (Z.leb_le _ _) Hin), Hal. cbn [Z.eqb]. split; [done |]. split; [done |]. split; [unfold offset; lia |].
  split; [apply wrap_id; unfold in_word, offset; lia | done].
Qed.
Lemma place_data_blocks_cases m request array_len :
  place_data_blocks m request array_len = OutOfMemory ∨ ∃ ptr, place_data_blocks m request array_len = Allocated ptr.
Proof.
  unfold place_data_blocks. destruct (checked _) as [size |]; [| by left]. destruct (layout_fits _ _ && _); [| by left].
  destruct (_ =? 0); [by left | right; eauto].
Qed.

Lemma array_new_cases {K V} m request capacity old :
  array_new (K := K) (V := V) m request capacity old = OutOfMemory ∨
  ∃ (a : BucketArray K V) e, array_new m request capacity old = Allocated a ∧ shape a e ∧ old_array a = old ∧
    num_cleared_buckets a = 0 ∧ buckets a = replicate (2 ^ e) bucket_default ∧
    adjusted_capacity capacity ≤ array_num_entries a ∧
    ((2 ≤ e)%nat → array_num_entries a < 2 * adjusted_capacity capacity).
Proof.
  destruct (calculate_log2_spec capacity) as (e & He & Hc & _ & Hlo & Hhi).
  unfold array_new. rewrite Hc. rewrite (proj2 (Z.eqb_neq _ _)) by lia. cbn [andb negb].
  assert (Hlen : Z.to_nat (ushl 1 (Z.to_nat (Z.of_nat e))) = (2 ^ e)%nat).
  { unfold ushl. rewrite Z.shiftl_1_l, Nat2Z.id. rewrite <-(Nat2Z.id (2 ^ e)). f_equal. by rewrite Nat2Z.inj_pow. }
  assert (Hpos : 0 ≤ ushl 1 (Z.to_nat (Z.of_nat e))) by (unfold ushl; rewrite Z.shiftl_1_l; lia).
  destruct (place_buckets_cases m request _ Hpos) as [-> | (offset & size & -> & _)]; [by left |].
  destruct (place_data_blocks_cases m request (ushl 1 (Z.to_nat (Z.of_nat e)))) as [-> | (ptr & ->)]; [by left |].
  right. rewrite Hlen, Nat2Z.id. eexists _, e. split; [done |].
  assert (Hent : ∀ a : BucketArray K V, array_len a = (2 ^ e)%nat → array_num_entries a = 2 ^ Z.of_nat e * 32).
  { intros a Ha. unfold array_num_entries. rewrite Ha, Nat2Z.inj_mul, Nat2Z.inj_pow. done. }
  split; [constructor; cbn; [done | done | done | done | apply length_replicate] |].
  rewrite Hent by done. split; [done |]. split; [done |]. split; [done |]. split; [lia |].
  intros He2. specialize (Hhi He2). replace (Z.of_nat e) with (Z.succ (Z.of_nat e - 1)) by lia.
  rewrite Z.pow_succ_r by lia. lia.
Qed.

Lemma array_new_shape {K V} m request capacity old (a : BucketArray K V) : array_new m request capacity old = Allocated a →
  ∃ e, shape a e ∧ old_array a = old ∧ num_cleared_buckets a = 0 ∧ buckets a = replicate (2 ^ e) bucket_default ∧
    adjusted_capacity capacity ≤ array_num_entries a ∧
    ((2 ≤ e)%nat → array_num_entries a < 2 * adjusted_capacity capacity).
Proof.
  intros Ha. destruct (array_new_cases (K := K) (V := V) m request capacity old) as [Hn | (a' & e & Hn & Hr)]; [congruence |].
  assert (a' = a) as -> by congruence. eauto.
Qed.

(** The allocator has the memory for an array of the given number of buckets. *)
Definition granted (m : Memory) (request : nat) (array_len : Z) : Prop :=
  let size := (array_len + 1) * bucket_size m in
  let blocks := data_block_size m * array_len in
  size ≤ isize_max ∧ alloc_zeroed m request size 1 ≠ 0 ∧
  0 < blocks ≤ isize_max - (data_block_align m - 1) ∧ blocks ≤ usize_max ∧ alloc m request blocks (data_block_align m) ≠ 0.

Lemma granted_buckets m request array_len : 0 ≤ array_len → granted m request array_len → place_buckets m request array_len ≠ OutOfMemory.
Proof.
  intros Hlen (Hs & Hz & _). destruct (place_buckets_cases m request array_len Hlen) as [Hp | (o & z & -> & _)]; [| done].
  revert Hp. unfold place_buckets, calculate_memory_layout. rewrite bucket_size_pow. unfold checked.
  assert (Hb : 0 < bucket_size m) by (destruct (bucket_size_cases m) as [-> | ->]; lia).
  assert (Hm : isize_max ≤ usize_max) by (by vm_compute).
  rewrite (proj2 (Z.leb_le _ _)) by nia. cbn. rewrite (proj2 (Z.leb_le _ _)) by nia. cbn.
  replace (bucket_size m + array_len * bucket_size m) with ((array_len + 1) * bucket_size m) by ring.
  unfold layout_fits. rewrite (proj2 (Z.leb_le _ _)) by lia. rewrite (proj2 (Z.eqb_neq _ _) Hz).
  repeat (destruct (_ <=? _); [| done]). destruct (_ =? 0); done.
Qed.

Lemma granted_data_blocks m request array_len : granted m request array_len → place_data_blocks m request array_len ≠ OutOfMemory.
Proof.
  intros (_ & _ & [H0 Hs] & Hu & Ha). unfold place_data_blocks, checked, layout_fits.
  rewrite (proj2 (Z.leb_le _ _) Hu), (proj2 (Z.leb_le _ _) Hs), (proj2 (Z.eqb_neq _ 0)) by lia. cbn [andb negb].
  by rewrite (proj2 (Z.eqb_neq _ _) Ha).
Qed.

(** C22. A new array.  For every capacity, and whatever the allocator answers,
    [BucketArray::new] fails no assertion other than those on the memory; with enough memory
    it gives an array, whose number of buckets is a power of two between 2 and [2 ^ 58], and
    the smallest one whose slots can hold the capacity (bounded below by 64 and above by the
    greatest capacity the index arithmetic supports).  The samples that the resize policy
    takes are not empty and not greater than the array. *)
Theorem array_new_capacity {K V} (m : Memory) (request : nat) (capacity : Z) (old : option nat) :
  let result := array_new (K := K) (V := V) m request capacity old in
  result ≠ Failed ∧
  (granted m request (required_buckets capacity) → ∃ a, result = Allocated a) ∧
  ∀ a, result = Allocated a →
    (∃ e, (1 ≤ e ≤ 58)%nat ∧ num_buckets a = (2 ^ e)%nat ∧ hash_offset a = (64 - e)%nat) ∧
    Z.of_nat (num_buckets a) = required_buckets capacity ∧ length (buckets a) = num_buckets a ∧
    adjusted_capacity capacity ≤ array_num_entries a ∧
    ((2 < num_buckets a)%nat → array_num_entries a < 2 * adjusted_capacity capacity) ∧
    (1 ≤ sample_size a ≤ num_buckets a)%nat ∧ (1 ≤ full_sample_size a ≤ num_buckets a)%nat.
Proof.
  intros result. split; [unfold result; destruct (array_new_cases (K := K) (V := V) m request capacity old) as [-> | (a & e & -> & _)]; done |].
  destruct (calculate_log2_spec capacity) as (e & He & Hc & Hr & _). split.
  - intros Hg. unfold result, array_new. rewrite Hc, (proj2 (Z.eqb_neq _ _)) by lia. cbn [andb negb].
    assert (Heq : ushl 1 (Z.to_nat (Z.of_nat e)) = required_buckets capacity) by (unfold ushl; by rewrite Z.shiftl_1_l, Nat2Z.id, Hr).
    rewrite Heq. assert (Hpos : 0 ≤ required_buckets capacity) by (rewrite Hr; lia).
    pose proof (granted_buckets m request _ Hpos Hg). pose proof (granted_data_blocks m request _ Hg).
    destruct (place_buckets_cases m request _ Hpos) as [? | (offset & size & -> & _)]; [done |].
    destruct (place_data_blocks_cases m request (required_buckets capacity)) as [? | (ptr & ->)]; [done | eauto].
  - intros a Ha. destruct (array_new_shape _ _ _ _ _ Ha) as (e' & Hsh & _ & _ & _ & Hlo & Hhi).
    assert (e' = e) as ->.
    { pose proof (sh_len _ _ Hsh) as Hl. revert Ha. unfold result, array_new. rewrite Hc, (proj2 (Z.eqb_neq _ _)) by lia. cbn [andb negb].
      destruct (place_buckets _ _ _) as [o | |]; try done. destruct (place_data_blocks _ _ _) as [p | |]; try done. intros [= <-]. cbn in Hl.
      unfold ushl in Hl. rewrite Z.shiftl_1_l, Nat2Z.id in Hl. apply (f_equal Z.of_nat) in Hl. rewrite Z2Nat.id, Nat2Z.inj_pow in Hl by lia.
      change (Z.of_nat 2) with 2 in Hl. apply Z.pow_inj_r in Hl; lia. }
    unfold num_buckets, full_sample_size. rewrite (sh_buckets _ _ Hsh), (sh_len _ _ Hsh), (sh_sample _ _ Hsh).
    assert (H2 : (2 ^ 1 ≤ 2 ^ e)%nat) by (apply Nat.pow_le_mono_r; lia).
    assert (Hs : (1 ≤ Z.to_nat (next_power_of_two (Z.of_nat e)) ≤ 2 ^ e)%nat).
    { unfold next_power_of_two. pose proof (log2_up_bounds (Z.of_nat e) ltac:(lia)) as Hb. split; [lia |].
      apply Nat2Z.inj_le. rewrite Z2Nat.id, Nat2Z.inj_pow by lia. apply Z.pow_le_mono_r; [lia |].
      apply Z.log2_up_le_lin. lia. }
    split; [exists e; split; [done |]; split; [done | by rewrite (sh_offset _ _ Hsh)] |].
    split; [by rewrite Hr, Nat2Z.inj_pow |]. split; [done |]. split; [done |]. split.
    + intros Hgt. apply Hhi. destruct (decide (e = 1)%nat) as [-> |]; [cbn in Hgt; lia | lia].
    + split; [exact Hs |]. unfold num_buckets. rewrite (sh_len _ _ Hsh). nia.
Qed.

(** An allocator that never runs out of memory, and gives one and the same address. *)
Definition plentiful_address (size : Z) : Z := if size <=? 2 ^ 62 then 4100 else 0.

Lemma plentiful_range (size : Z) : plentiful_address size = 0 ∨ 0 < plentiful_address size ∧ plentiful_address size + size ≤ usize_max.
Proof.
  unfold plentiful_address, usize_max, umax. change (2 ^ Z.of_nat 64) with (2 ^ 64). destruct (Z.leb_spec size (2 ^ 62)); [right; lia | by left].
Qed.

(** The memory of the examples: buckets without an LRU list, pairs of 16 bytes. *)
Definition plentiful : Memory.
Proof.
  refine {| bucket_size := 64; data_block_size := 512; data_block_align := 8;
            alloc_zeroed := λ _ size _, plentiful_address size; alloc := λ _ size _, plentiful_address size |}.
  - by left.
  - lia.
  - intros _ size _. apply plentiful_range.
Defined.

Lemma array_new_capacity_witness :
  granted plentiful 3 (required_buckets 1000) ∧
  let result := array_new (K := Z) (V := Z) plentiful 3 1000 None in
  result ≠ Failed ∧
  (granted plentiful 3 (required_buckets 1000) → ∃ a, result = Allocated a) ∧
  ∀ a, result = Allocated a →
    (∃ e, (1 ≤ e ≤ 58)%nat ∧ num_buckets a = (2 ^ e)%nat ∧ hash_offset a = (64 - e)%nat) ∧
    Z.of_nat (num_buckets a) = required_buckets 1000 ∧ length (buckets a) = num_buckets a ∧
    adjusted_capacity 1000 ≤ array_num_entries a ∧
    ((2 < num_buckets a)%nat → array_num_entries a < 2 * adjusted_capacity 1000) ∧
    (1 ≤ sample_size a ≤ num_buckets a)%nat ∧ (1 ≤ full_sample_size a ≤ num_buckets a)%nat.
Proof.
  split; [| exact (array_new_capacity plentiful 3 1000 None)].
  split; [apply Z.leb_le; reflexivity |]. split; [discriminate |].
  split; [split; [apply Z.ltb_lt; reflexivity | apply Z.leb_le; reflexivity] |]. split; [apply Z.leb_le; reflexivity | discriminate].
Defined.

(** The sizes of the greatest arrays overflow: 2^58 buckets of 64 bytes have 2^64 bytes.  A
    build that does not check for overflows goes on with what is left of the two sizes: no
    byte for the buckets, but for the padding of one of them, and no data block. *)
Theorem array_layout_wraps {K V} (m : Memory) (request : nat) (capacity : Z) (old : option nat)
    (Hcapacity : 2 ^ 62 < capacity) (Heven : data_block_size m mod 64 = 0) :
  required_buckets capacity = 2 ^ 58 ∧ array_new (K := K) (V := V) m request capacity old = OutOfMemory ∧
  wrap 64 (2 ^ 58 * bucket_size m) = 0 ∧ wrap 64 (data_block_size m * 2 ^ 58) = 0.
Proof.
  assert (Hr : required_buckets capacity = 2 ^ 58).
  { unfold required_buckets, adjusted_capacity, usize_max, umax, next_power_of_two. change (Z.of_nat BUCKET_LEN) with 32.
    change ((2 ^ Z.of_nat 64 - 1) / 2) with (2 ^ 63 - 1). set (q := (_ + 32 - 1) / 32).
    assert (Hq : 2 ^ 57 < q ≤ 2 ^ 58).
    { unfold q. split; [apply Z.div_lt_upper_bound || (apply Z.lt_le_trans with (2 ^ 57 + 1); [lia | apply Z.div_le_lower_bound; lia]) |].
      apply Z.lt_succ_r, Z.div_lt_upper_bound; lia. }
    f_equal. apply Z.log2_up_unique; lia. }
  split; [done |]. split; [| split].
  - destruct (array_new_cases (K := K) (V := V) m request capacity old) as [? | (a & e & Ha & Hsh & _)]; [done | exfalso].
    destruct (calculate_log2_spec capacity) as (e' & He & Hc & Hr' & _). revert Ha. unfold array_new. rewrite Hc, (proj2 (Z.eqb_neq _ _)) by lia.
    cbn [andb negb]. assert (Heq : ushl 1 (Z.to_nat (Z.of_nat e')) = 2 ^ 58) by (unfold ushl; rewrite Z.shiftl_1_l, Nat2Z.id; congruence).
    rewrite Heq. unfold place_buckets. by destruct (bucket_size_cases m) as [-> | ->].
  - by destruct (bucket_size_cases m) as [-> | ->].
  - apply Z.mod_divide in Heven as [q ->]; [| done]. unfold wrap. replace (q * 64 * 2 ^ 58) with (q * 2 ^ Z.of_nat 64) by (change (2 ^ Z.of_nat 64) with (64 * 2 ^ 58); ring).
    apply Z.mod_mul. lia.
Qed.

(** ** Indices *)

Lemma bucket_index_eq {K V} (a : BucketArray K V) e hash :
  shape a e → calculate_bucket_index a hash = Z.to_nat (hash / 2 ^ Z.of_nat (64 - e)).
Proof.
  intros Hsh. pose proof (sh_log _ _ Hsh). unfold calculate_bucket_index, ushr.
  rewrite (sh_offset _ _ Hsh), Nat.mod_small by lia. by rewrite Z.shiftr_div_pow2 by lia.
Qed.

Lemma bucket_index_lt {K V} (a : BucketArray K V) e hash :
  shape a e → in_word 64 hash → (calculate_bucket_index a hash < array_len a)%nat.
Proof.
  intros Hsh Hh. pose proof (sh_log _ _ Hsh). rewrite (bucket_index_eq a e) by done. rewrite (sh_len _ _ Hsh).
  apply Nat2Z.inj_lt. rewrite Z2Nat.id, Nat2Z.inj_pow by (apply Z.div_pos; unfold in_word in Hh; lia).
  apply Z.div_lt_upper_bound; [lia |]. unfold in_word in Hh. rewrite <-Z.pow_add_r by lia.
  replace (Z.of_nat (64 - e) + Z.of_nat e) with (Z.of_nat 64) by lia. lia.
Qed.

(** The bucket in the smaller of two arrays. *)
Lemma bucket_index_parent {K V} (a a' : BucketArray K V) e e' hash :
  shape a e → shape a' e' → (e ≤ e')%nat → in_word 64 hash →
  calculate_bucket_index a hash = (calculate_bucket_index a' hash / 2 ^ (e' - e))%nat.
Proof.
  intros Hsh Hsh' Hle Hh. pose proof (sh_log _ _ Hsh). pose proof (sh_log _ _ Hsh').
  rewrite (bucket_index_eq a e), (bucket_index_eq a' e') by done.
  unfold in_word in Hh. apply Nat2Z.inj.
  rewrite Nat2Z.inj_div, Nat2Z.inj_pow, !Z2Nat.id by (apply Z.div_pos; lia).
  change (Z.of_nat 2) with 2. rewrite Zdiv_Zdiv by lia. rewrite <-Z.pow_add_r by lia.
  do 3 f_equal. lia.
Qed.

(** C21. The bucket of a key.  In an array that [BucketArray::new] made, every 64-bit hash
    value selects an existing bucket; and for two arrays one of which is [2 ^ r] times
    longer, the bucket in the shorter one is the one in the longer one divided by
    [2 ^ r].  So the entries of a bucket go to [2 ^ r] adjacent buckets when the table
    grows, and [2 ^ r] adjacent buckets merge when it shrinks. *)
Theorem bucket_index_spread {K V} (m : Memory) (request request' : nat) (capacity capacity' hash : Z) (old old' : option nat)
    (a a' : BucketArray K V) (Ha : array_new m request capacity old = Allocated a) (Ha' : array_new m request' capacity' old' = Allocated a')
    (Hlen : (num_buckets a ≤ num_buckets a')%nat) (Hhash : in_word 64 hash) :
  (calculate_bucket_index a hash < num_buckets a)%nat ∧
  (calculate_bucket_index a' hash < num_buckets a')%nat ∧
  ∃ r, num_buckets a' = (2 ^ r * num_buckets a)%nat ∧
    calculate_bucket_index a hash = (calculate_bucket_index a' hash / 2 ^ r)%nat.
Proof.
  destruct (array_new_shape _ _ _ _ _ Ha) as (e & Hsh & _). destruct (array_new_shape _ _ _ _ _ Ha') as (e' & Hsh' & _).
  split; [by eapply bucket_index_lt |]. split; [by eapply bucket_index_lt |].
  unfold num_buckets in *. rewrite (sh_len _ _ Hsh), (sh_len _ _ Hsh') in *.
  assert (Hee : (e ≤ e')%nat) by (apply (Nat.pow_le_mono_r_iff 2); [lia | done]).
  exists (e' - e)%nat. split; [| by apply bucket_index_parent].
  rewrite <-Nat.pow_add_r. f_equal. lia.
Qed.

Lemma bucket_index_spread_witness :
  let h := 12345678901234567890 in
  ∃ a a' : BucketArray Z Z, array_new plentiful 0 100 None = Allocated a ∧ array_new plentiful 1 1000 None = Allocated a' ∧
    (num_buckets a ≤ num_buckets a')%nat ∧ in_word 64 h ∧
    calculate_bucket_index a h = 2%nat ∧ calculate_bucket_index a' h = 21%nat ∧
    ∃ r, num_buckets a' = (2 ^ r * num_buckets a)%nat ∧
      calculate_bucket_index a h = (calculate_bucket_index a' h / 2 ^ r)%nat.
Proof.
  intros h.
  destruct (array_new (K := Z) (V := Z) plentiful 0 100 None) as [a | |] eqn:Ha; [| vm_compute in Ha; discriminate ..].
  destruct (array_new (K := Z) (V := Z) plentiful 1 1000 None) as [a' | |] eqn:Ha'; [| vm_compute in Ha'; discriminate ..].
  exists a, a'. split; [reflexivity |]. split; [reflexivity |].
  assert (Hlen : (num_buckets a ≤ num_buckets a')%nat).
  { vm_compute in Ha, Ha'. injection Ha as <-. injection Ha' as <-. apply Nat.leb_le. reflexivity. }
  assert (Hh : in_word 64 h) by (split; [apply Z.leb_le; reflexivity | apply Z.ltb_lt; reflexivity]).
  split; [exact Hlen |]. split; [exact Hh |].
  split; [vm_compute in Ha; injection Ha as <-; reflexivity |].
  split; [vm_compute in Ha'; injection Ha' as <-; reflexivity |].
  exact (proj2 (proj2 (bucket_index_spread plentiful 0 1 100 1000 h None None a a' Ha Ha' Hlen Hh))).
Defined.
