(* ===== verification/Rehash.v ===== *)
(** * The rehashing metadata: [incremental_rehash] in [src/hash_table.rs]

    The threads that use a hash table relocate the buckets of its old array together.
    One word tells which: its low five bits count the threads that are relocating, the
    others are the index of the first bucket that no thread has claimed.  A thread claims
    32 buckets; when it is done, or when it has to give up, it releases its claim, and the
    last one drops the old array. *)
From S2P Require Import Prelude Atomic Lru Bucket.

Local Open Scope Z_scope.

(** [current & (BUCKET_LEN - 1)] and [current & !(BUCKET_LEN - 1)] *)
Definition ref_cnt (current : Z) : Z := Z.land current (Z.of_nat BUCKET_LEN - 1).
Definition claimed (current : Z) : Z := Z.land current (unot 64 (Z.of_nat BUCKET_LEN - 1)).

(** The code is stated on the word [rehashing_metadata] of a larger state; [num_buckets]
    is the length of the old array. *)
Section Metadata.
Context {St : Type} (rehashing_metadata : St → Z) (set_rehashing_metadata : Z → St → St).
Context (n : nat) (num_buckets : nat).

(** The first loop: the index of the first bucket of the range, if there is one. *)
Definition rehash_claim : prog St (option Z) :=
  let! current := load rehashing_metadata in
  loop n (λ current,
    if (Z.of_nat num_buckets <=? current) || (ref_cnt current =? Z.of_nat BUCKET_LEN - 1) then Ret (Break None)
    else
      let! r := compare_exchange_weak rehashing_metadata set_rehashing_metadata
                  current (current + Z.of_nat BUCKET_LEN + 1) in
      match r with
      | inl _ => Ret (Break (Some (claimed current)))
      | inr result => Ret (Continue result)
      end) current.

(** The closure of the [ExitGuard]: whether the old array is to be dropped. *)
Definition rehash_release (prev : Z) (success : bool) : prog St bool :=
  if success then
    let! previous := fetch_modify rehashing_metadata set_rehashing_metadata (λ x, wrap 64 (x - 1)) in
    let current := previous - 1 in
    Ret ((ref_cnt current =? 0) && (Z.of_nat num_buckets <=? current))
  else
    let! current := load rehashing_metadata in
    loop n (λ current,
      let new := if current <=? prev then current - 1 else Z.lor prev (ref_cnt current - 1) in
      let! r := compare_exchange_weak rehashing_metadata set_rehashing_metadata current new in
      match r with
      | inl _ => Ret (Break false)
      | inr actual => Ret (Continue actual)
      end) current.
End Metadata.

(** [for index in current..(current + BUCKET_LEN).min(num_buckets)] *)
Definition rehash_range (num_buckets : nat) (current : Z) : list nat :=
  seq (Z.to_nat current) (Nat.min (Z.to_nat current + BUCKET_LEN) num_buckets - Z.to_nat current).
