(* ===== verification/HashTable.v ===== *)
(** * The hash table: [src/hash_table.rs]

    A hash table has a current bucket array and, while it is being resized, an old one
    that the current array points to.  Every operation relocates a few buckets of the old
    array before it does its own work in the current one.  The operations below are the
    synchronous ones ([async_wait] is [()]) as a thread alone runs them; the arrays and
    their buckets are in a memory, with the locks of the buckets. *)
From S2P Require Import Prelude Atomic Tag Lru Bucket BucketIter BucketArray Rehash.

Local Open Scope Z_scope.

#[export] Existing Instance Tag.eq_dec.

(** The operator [?]: [None] is [Err(())]. *)
Notation "'let?' x := p 'in' k" := (bind p (λ o, match o with Some x => k | None => Ret None end))
  (at level 10, x binder, p at level 100, k at level 200) : prog_scope.

(** The length of [target_buckets], [usize::BITS / 2]. *)
Definition target_buckets_len : nat := 32.

(** [usize::next_power_of_two]: an overflow is a panic. *)
Definition checked_npot {St} (x : Z) : prog St Z :=
  if next_power_of_two x <=? usize_max then Ret (next_power_of_two x) else Panic.

Section Table.
Context {K V : Type} `{EqDecision K} (TYPE : bucket_type).

(** The hasher is a function; the maximum capacity is that of the container. *)
Context (hash : K → Z) (maximum_capacity : Z).

(** The bound on the iterations of retry loops and on the linked buckets of a bucket. *)
Context (n : nat).

(** [arrays] is the memory; an array that was released to the collector is in [garbage]
    until it is dropped.  [disposed] are the entries that were dropped with an array, and
    [cloned] those that were created by a clone.  [memory] is the allocator, [requests] the
    number of the arrays that it was asked for. *)
Record Table := {
  memory : Memory;
  requests : nat;
  arrays : gmap nat (BucketArray K V);
  bucket_array : option nat * Tag.t;
  minimum_capacity : Z;
  garbage : list nat;
  disposed : list (K * V);
  cloned : list (K * V)
}.

Definition set_requests (x : nat) (t : Table) : Table :=
  {| memory := memory t; requests := x; arrays := arrays t; bucket_array := bucket_array t; minimum_capacity := minimum_capacity t;
     garbage := garbage t; disposed := disposed t; cloned := cloned t |}.
Definition set_arrays (x : gmap nat (BucketArray K V)) (t : Table) : Table :=
  {| memory := memory t; requests := requests t; arrays := x; bucket_array := bucket_array t; minimum_capacity := minimum_capacity t;
     garbage := garbage t; disposed := disposed t; cloned := cloned t |}.
Definition set_bucket_array (x : option nat * Tag.t) (t : Table) : Table :=
  {| memory := memory t; requests := requests t; arrays := arrays t; bucket_array := x; minimum_capacity := minimum_capacity t;
     garbage := garbage t; disposed := disposed t; cloned := cloned t |}.
Definition set_minimum_capacity (x : Z) (t : Table) : Table :=
  {| memory := memory t; requests := requests t; arrays := arrays t; bucket_array := bucket_array t; minimum_capacity := x;
     garbage := garbage t; disposed := disposed t; cloned := cloned t |}.
Definition set_garbage (x : list nat) (t : Table) : Table :=
  {| memory := memory t; requests := requests t; arrays := arrays t; bucket_array := bucket_array t; minimum_capacity := minimum_capacity t;
     garbage := x; disposed := disposed t; cloned := cloned t |}.
Definition add_disposed (x : list (K * V)) (t : Table) : Table :=
  {| memory := memory t; requests := requests t; arrays := arrays t; bucket_array := bucket_array t; minimum_capacity := minimum_capacity t;
     garbage := garbage t; disposed := disposed t ++ x; cloned := cloned t |}.
Definition add_cloned (x : list (K * V)) (t : Table) : Table :=
  {| memory := memory t; requests := requests t; arrays := arrays t; bucket_array := bucket_array t; minimum_capacity := minimum_capacity t;
     garbage := garbage t; disposed := disposed t; cloned := cloned t ++ x |}.

(** ** Accesses through a reference to an array *)

Definition get_array (x : nat) (t : Table) : option (BucketArray K V) := arrays t !! x.
Definition put_array (x : nat) (a : BucketArray K V) (t : Table) : Table :=
  set_arrays (<[x := a]> (arrays t)) t.

Definition get_bucket (x i : nat) (t : Table) : option (Bucket K V) :=
  a ← arrays t !! x; buckets a !! i.
Definition put_bucket (x i : nat) (b : Bucket K V) (t : Table) : Table :=
  set_arrays (alter (λ a, set_buckets (<[i := b]> (buckets a)) a) x (arrays t)) t.

Definition at_array {R} (x : nat) (p : prog (BucketArray K V) R) : prog Table R :=
  zoom (get_array x) (put_array x) p.

(** [bucket(i)], [bucket_mut(i)] and the data block: an index out of bounds is a failed
    assertion. *)
Definition at_bucket {R} (x i : nat) (p : prog (Bucket K V) R) : prog Table R :=
  zoom (get_bucket x i) (put_bucket x i) p.

(** The array as it is now. *)
Definition snapshot (x : nat) : prog Table (BucketArray K V) := at_array x (load id).

(** [bucket(i).num_entries()] *)
Definition bucket_entries (a : BucketArray K V) (i : nat) : Z :=
  match buckets a !! i with Some b => num_entries b | None => 0 end.

(** [BucketArray::drop_old_array]: the array goes to the collector. *)
Definition drop_old_array (current : nat) : prog Table unit :=
  let! o := at_array current (fetch_modify old_array set_old_array (λ _, None)) in
  match o with
  | None => Ret ()
  | Some old =>
      let! a := snapshot old in
      dassert (num_cleared_buckets a =? Z.max (Z.of_nat (array_len a)) (Z.of_nat BUCKET_LEN)) ;;
      let! g := load garbage in store set_garbage (g ++ [old])
  end.

(** [Locker::try_lock] or [Locker::lock]. *)
Definition lock_bucket (TRY_LOCK : bool) (x i : nat) : prog Table (option bool) :=
  if TRY_LOCK then at_bucket x i try_lock
  else let! l := at_bucket x i lock in Ret (Some l).

(** [HashTable::try_clone]: the implementations for [HashMap] and [HashCache] give
    nothing, the one for [HashIndex] a clone. *)
Definition try_clone (entry : K * V) : option (K * V) :=
  if decide (TYPE = OPTIMISTIC) then Some entry else None.

(** ** Relocation *)

(** The loop that locks the target buckets up to the one that is needed: the number of
    those locked, and whether it succeeded. *)
Definition lock_targets (TRY_LOCK : bool) (current target_index offset max_index : nat) : prog Table (nat * bool) :=
  loop (S (S target_buckets_len)) (λ max_index,
    if (max_index <=? offset)%nat then
      let! r := lock_bucket TRY_LOCK current (max_index + target_index)%nat in
      match r with
      | None => Ret (Break (max_index, false))
      | Some false => Panic
      | Some true =>
          if (max_index <? target_buckets_len)%nat then Ret (Continue (S max_index)) else Panic
      end
    else Ret (Break (max_index, true))) max_index.

(** The drop of [target_buckets]. *)
Definition unlock_targets (current target_index max_index : nat) : prog Table (flow unit unit) :=
  for_each (seq 0 max_index) (λ i _, at_bucket current (i + target_index)%nat unlock ;; Ret (Continue ())) ().

(** The index of the new bucket, and the partial hash. *)
Definition relocation_target (current old old_index target_index : nat) (entry_ptr : EntryPtr) (key : K) :
    prog Table (nat * Z) :=
  let! current_array := snapshot current in
  let! old_array := snapshot old in
  if (num_buckets current_array <=? num_buckets old_array)%nat then
    dassert (calculate_bucket_index current_array (hash key) =? target_index)%nat ;;
    let! h := at_bucket old old_index (ptr_partial_hash entry_ptr) in
    Ret (target_index, h)
  else
    let hash := hash key in
    let new_index := calculate_bucket_index current_array hash in
    dassert (target_index <=? new_index)%nat ;;
    dassert (new_index - target_index <? num_buckets current_array / num_buckets old_array)%nat ;;
    Ret (new_index, partial_hash hash).

(** The body of the loop: one entry.  It gives the pointer to go on from, or [None] if a
    bucket could not be locked, and the number of locked buckets. *)
Definition relocate_entry (TRY_LOCK : bool) (current old old_index target_index : nat)
    (entry_ptr : EntryPtr) (max_index : nat) : prog Table (option EntryPtr * nat) :=
  let! old_entry := at_bucket old old_index (ptr_get entry_ptr) in
  let! target := relocation_target current old old_index target_index entry_ptr old_entry.1 in
  let (new_index, partial_hash) := target in
  let! l := lock_targets TRY_LOCK current target_index (new_index - target_index) max_index in
  if l.2 : bool then
    let entry_clone := try_clone old_entry in
    Act (λ t, ((), add_cloned (option_list entry_clone) t)) Ret ;;
    let! r := insert_with (λ R, at_bucket current new_index) n partial_hash
                (match entry_clone with
                 | Some kv => Ret (kv, entry_ptr)
                 | None => at_bucket old old_index (extract TYPE entry_ptr)
                 end) in
    (if decide (TYPE = OPTIMISTIC) then at_bucket old old_index (erase TYPE r.2) ;; Ret () else Ret ()) ;;
    Ret (Some r.2, l.1)
  else Ret (None, l.1).

Definition relocate_bucket (TRY_LOCK : bool) (current old old_index : nat) : prog Table (option unit) :=
  let! k := at_bucket old old_index (load killed) in
  dassert (negb k) ;;
  let! num := at_bucket old old_index (load num_entries) in
  let! ok :=
    if num =? 0 then Ret true
    else
      let! current_array := snapshot current in
      let! old_array := snapshot old in
      let! target_index :=
        if (num_buckets current_array <=? num_buckets old_array)%nat then
          Ret (old_index / (num_buckets old_array / num_buckets current_array))%nat
        else
          let ratio := (num_buckets current_array / num_buckets old_array)%nat in
          dassert (ratio <=? BUCKET_LEN)%nat ;; Ret (old_index * ratio)%nat in
      let! r := while_next_in TYPE (λ R, at_bucket old old_index) n
        (λ entry_ptr max_index,
          let! e := relocate_entry TRY_LOCK current old old_index target_index entry_ptr max_index in
          match e.1 with
          | Some entry_ptr => Ret (Continue (entry_ptr, e.2))
          | None => Ret (Break (e.2, false))
          end) (λ max_index, (max_index, true)) O in
      unlock_targets current target_index r.1 ;;
      Ret r.2 in
  if ok : bool then at_bucket old old_index (kill TYPE n) ;; Ret (Some ()) else Ret None.

(** A bucket of the old array, if it is not killed. *)
Definition lock_and_relocate (TRY_LOCK : bool) (current old index : nat) : prog Table (option unit) :=
  let? locker := lock_bucket TRY_LOCK old index in
  if locker : bool then
    let! r := relocate_bucket TRY_LOCK current old index in
    at_bucket old index unlock ;; Ret r
  else Ret (Some ()).

(** The result is [Ok(!current_array.has_old_array())]. *)
Definition has_no_old_array (current : nat) : prog Table (option bool) :=
  let! h := at_array current (load has_old_array) in Ret (Some (negb h)).

Definition incremental_rehash (TRY_LOCK : bool) (current : nat) : prog Table (option bool) :=
  let! o := at_array current (load old_array) in
  match o with
  | None => has_no_old_array current
  | Some old =>
      let! a := snapshot old in
      let! c := at_array old (rehash_claim num_cleared_buckets set_num_cleared_buckets n (num_buckets a)) in
      match c with
      | None => has_no_old_array current
      | Some prev =>
          let! r := for_each (rehash_range (num_buckets a) prev) (λ index _,
            let! r := lock_and_relocate TRY_LOCK current old index in
            match r with Some _ => Ret (Continue ()) | None => Ret (Break ()) end) () in
          let success := match r with Continue _ => true | Break _ => false end in
          let! last := at_array old
            (rehash_release num_cleared_buckets set_num_cleared_buckets n (num_buckets a) prev success) in
          (if last then drop_old_array current else Ret ()) ;;
          if success then has_no_old_array current else Ret None
      end
  end.

Definition move_entry (current old : nat) (hash : Z) : prog Table (option bool) :=
  let? r := incremental_rehash false current in
  if r : bool then Ret (Some true)
  else
    let! a := snapshot old in
    let? x := lock_and_relocate false current old (calculate_bucket_index a hash) in
    Ret (Some false).

(** The loop goes on as long as there is an old array; its buckets are a bound. *)
Definition clear_old_array (current : nat) : prog Table unit :=
  let! o := at_array current (load old_array) in
  let! bound := match o with Some old => let! a := snapshot old in Ret (num_buckets a) | None => Ret O end in
  loop (S bound) (λ _,
    let! h := at_array current (load has_old_array) in
    if h : bool then
      let! r := incremental_rehash false current in
      match r with Some true => Ret (Break ()) | _ => Ret (Continue ()) end
    else Ret (Break ())) ().

(** ** Resizing *)

(** [sample]: the buckets are read one after the other. *)
Definition sample (current_array : BucketArray K V) (sampling_index sample_size : nat) : Z :=
  foldl (λ num_entries i, num_entries + bucket_entries current_array (i mod num_buckets current_array)%nat) 0
    (seq sampling_index sample_size) * Z.of_nat (num_buckets current_array / sample_size).

Definition bucket_needs_rebuild (a : BucketArray K V) (i : nat) : bool :=
  match buckets a !! i with Some b => need_rebuild TYPE b | None => false end.

Fixpoint check_rebuild (current_array : BucketArray K V) (indices : list nat) (sample_size : nat)
    (num_buckets_to_rebuild : nat) : bool :=
  match indices with
  | [] => false
  | i :: indices =>
      if bucket_needs_rebuild current_array (i mod num_buckets current_array)%nat then
        if (sample_size / 2 <=? S num_buckets_to_rebuild)%nat then true
        else check_rebuild current_array indices sample_size (S num_buckets_to_rebuild)
      else check_rebuild current_array indices sample_size num_buckets_to_rebuild
  end.

(** [BucketArray::new] in a [Shared]: its place in the memory is free. *)
Definition add_array (a : BucketArray K V) (t : Table) : nat * Table :=
  let x := fresh (dom (arrays t)) in (x, put_array x a t).

Definition alloc_array (capacity : Z) (old : option nat) : prog Table nat :=
  let! m := load memory in
  let! request := fetch_modify requests set_requests S in
  match array_new m request capacity old with
  | Allocated a => Act (add_array a) Ret
  | OutOfMemory => NoMemory
  | Failed => Panic
  end.

(** The capacity that the policy asks for. *)
Definition choose_capacity (capacity minimum_capacity estimated_num_entries : Z) : prog Table Z :=
  if capacity / 8 * 7 <=? estimated_num_entries then
    if capacity =? maximum_capacity then Ret capacity
    else
      loop 7 (λ new_capacity,
        if new_capacity <=? estimated_num_entries / 8 * 15 then
          if new_capacity =? maximum_capacity then Ret (Break new_capacity)
          else if new_capacity / capacity =? 32 then Ret (Break new_capacity)
          else Ret (Continue (new_capacity * 2))
        else Ret (Break new_capacity)) capacity
  else if estimated_num_entries <=? capacity / 16 then
    checked_npot (Z.max (Z.max estimated_num_entries minimum_capacity) array_minimum_capacity)
  else Ret capacity.

(** [Shared::drop] of the only reference: the array goes to the collector. *)
Definition release_array (o : option nat) : prog Table unit :=
  match o with
  | Some x => let! g := load garbage in store set_garbage (g ++ [x])
  | None => Ret ()
  end.

(** An empty table is dropped with all the buckets read-locked; whether it was. *)
Definition try_drop_table (current num : nat) : prog Table bool :=
  let! r := for_each (seq 0 num) (λ i _,
    let! r := at_bucket current i reader_try_lock in
    match r with
    | Some true =>
        let! e := at_bucket current i (load num_entries) in
        if e =? 0 then Ret (Continue ()) else at_bucket current i unlock ;; Ret (Break i)
    | _ => Ret (Break i)
    end) () in
  match r with
  | Continue _ =>
      let! o := fetch_modify bucket_array set_bucket_array (λ _, (None, Tag.None)) in
      release_array o.1 ;;
      for_each (seq 0 num) (λ i _,
        at_bucket current i (kill TYPE n ;; unlock) ;; Ret (Continue () : flow unit unit)) () ;;
      Ret true
  | Break i =>
      for_each (seq 0 i) (λ i _, at_bucket current i unlock ;; Ret (Continue () : flow unit unit)) () ;;
      Ret false
  end.

Definition try_resize (sampling_index : nat) : prog Table unit :=
  let! current_array_ptr := load bucket_array in
  if negb (bool_decide (current_array_ptr.2 = Tag.None)) then Ret ()
  else
    match current_array_ptr.1 with
    | None => Ret ()
    | Some current =>
        let! a := snapshot current in
        if has_old_array a then Ret ()
        else
          let! minimum_capacity := load minimum_capacity in
          let capacity := array_num_entries a in
          let sample_size := full_sample_size a in
          let estimated_num_entries := sample a sampling_index sample_size in
          let! new_capacity := choose_capacity capacity minimum_capacity estimated_num_entries in
          let try_resize := negb (new_capacity =? capacity) in
          let try_drop := (estimated_num_entries =? 0) && (minimum_capacity =? 0) in
          let try_rebuild := bool_decide (TYPE = OPTIMISTIC) && negb try_resize &&
            check_rebuild a (seq sampling_index sample_size) sample_size 0 in
          if try_resize || try_drop || try_rebuild then
            let! u := fetch_update bucket_array set_bucket_array (λ p,
              if decide (p = current_array_ptr) then Some (p.1, Tag.First) else None) in
            match u with
            | inr _ => Ret ()
            | inl _ =>
                let! gone := if try_drop then try_drop_table current (num_buckets a) else Ret false in
                if gone : bool then Ret ()
                else if try_resize || try_rebuild then
                  let! p := load bucket_array in
                  let! x := alloc_array new_capacity p.1 in
                  (* The reference that [swap] returns is dropped; the new array has another one. *)
                  store set_bucket_array (Some x, Tag.None)
                else
                  let! _ := fetch_modify bucket_array set_bucket_array (λ p, (p.1, Tag.None)) in Ret ()
            end
          else Ret ()
    end.

(** The [any] of [try_enlarge]: whether the sum exceeds the threshold. *)
Fixpoint exceeds (a : BucketArray K V) (index : nat) (threshold : Z) (offsets : list nat) (num_entries : Z) : bool :=
  match offsets with
  | [] => false
  | i :: offsets =>
      let num_entries := num_entries + bucket_entries a ((index + i) mod num_buckets a)%nat in
      if threshold <? num_entries then true else exceeds a index threshold offsets num_entries
  end.

Definition try_enlarge (current index : nat) (num_entries : Z) : prog Table unit :=
  let! a := snapshot current in
  let sample_size := sample_size a in
  let threshold := Z.of_nat (sample_size * (BUCKET_LEN / 8) * 7) in
  if (threshold <? num_entries) || exceeds a index threshold (seq 1 (sample_size - 1)) num_entries
  then try_resize index else Ret ().

(** The loop of [try_shrink_or_rebuild]: whether the array is to be resized. *)
Fixpoint shrink_scan (a : BucketArray K V) (index : nat) (offsets : list nat) (num_entries : Z)
    (num_buckets_to_rebuild : nat) : bool :=
  let shrink_threshold := Z.of_nat (sample_size a * BUCKET_LEN / 16) in
  let rebuild_threshold := (sample_size a / 2)%nat in
  let optimistic := bool_decide (TYPE = OPTIMISTIC) in
  match offsets with
  | [] => negb optimistic || (num_entries <? shrink_threshold)
  | i :: offsets =>
      let bucket := ((index + i) mod num_buckets a)%nat in
      let num_entries := num_entries + bucket_entries a bucket in
      if (shrink_threshold <=? num_entries) &&
         (negb optimistic || (num_buckets_to_rebuild + (sample_size a - i) <? rebuild_threshold)%nat)
      then false
      else if optimistic && bucket_needs_rebuild a bucket then
        if (rebuild_threshold <=? num_buckets_to_rebuild)%nat then true
        else shrink_scan a index offsets num_entries (S num_buckets_to_rebuild)
      else shrink_scan a index offsets num_entries num_buckets_to_rebuild
  end.

Definition try_shrink_or_rebuild (current index : nat) : prog Table unit :=
  let! a := snapshot current in
  dassert (negb (has_old_array a)) ;;
  let! minimum_capacity := load minimum_capacity in
  let! npot := checked_npot minimum_capacity in
  if (npot <? array_num_entries a) || bool_decide (TYPE = OPTIMISTIC) then
    if shrink_scan a index (seq 0 (sample_size a)) 0 0 then try_resize index else Ret ()
  else Ret ().

Definition reserve_capacity (additional_capacity : Z) : prog Table Z :=
  let! current_minimum_capacity := load minimum_capacity in
  loop n (λ current_minimum_capacity,
    let new_minimum_capacity := current_minimum_capacity + additional_capacity in
    if usize_max <? new_minimum_capacity then Ret (Break 0)
    else
      let! r := compare_exchange_weak minimum_capacity set_minimum_capacity
                  current_minimum_capacity new_minimum_capacity in
      match r with
      | inl _ => try_resize 0 ;; Ret (Break additional_capacity)
      | inr actual => Ret (Continue actual)
      end) current_minimum_capacity.

(** ** The operations *)

(** The new array is dropped at once if another thread was faster. *)
Definition get_current_array : prog Table nat :=
  let! p := load bucket_array in
  match p.1 with
  | Some x => Ret x
  | None =>
      let! minimum_capacity := load minimum_capacity in
      let! x := alloc_array minimum_capacity None in
      let! r := compare_exchange bucket_array set_bucket_array (None, Tag.None) (Some x, Tag.None) in
      match r with
      | inl _ => Ret x
      | inr p =>
          release_array (Some x) ;;
          match p.1 with Some y => Ret y | None => Panic end
      end
  end.

Definition sum_entries (a : BucketArray K V) : Z :=
  foldl (λ num_entries i, num_entries + bucket_entries a i) 0 (seq 0 (num_buckets a)).

(** [HashTable::num_entries] *)
Definition table_num_entries : prog Table Z :=
  let! p := load bucket_array in
  match p.1 with
  | None => Ret 0
  | Some x =>
      let! a := snapshot x in
      let! old := match old_array a with Some o => let! a := snapshot o in Ret (sum_entries a) | None => Ret 0 end in
      let num_entries := old + sum_entries a in
      let! minimum_capacity := load minimum_capacity in
      (if (num_entries =? 0) && (minimum_capacity =? 0) then try_resize 0 else Ret ()) ;;
      Ret num_entries
  end.

(** [bucket(i).num_entries() != 0] for some [i]. *)
Definition any_bucket_entry (a : BucketArray K V) : bool :=
  existsb (λ i, negb (bucket_entries a i =? 0)) (seq 0 (num_buckets a)).

Definition has_entry : prog Table bool :=
  let! p := load bucket_array in
  match p.1 with
  | None => Ret false
  | Some x =>
      let! a := snapshot x in
      let! old := match old_array a with Some o => let! a := snapshot o in Ret (any_bucket_entry a) | None => Ret false end in
      if old || any_bucket_entry a then Ret true
      else
        let! minimum_capacity := load minimum_capacity in
        (if minimum_capacity =? 0 then try_resize 0 else Ret ()) ;; Ret false
  end.

Definition num_slots : prog Table Z :=
  let! p := load bucket_array in
  match p.1 with
  | None => Ret 0
  | Some x => let! a := snapshot x in Ret (array_num_entries a)
  end.

(** [LockedEntry]: the bucket [index] of [locker] is locked. *)
Record LockedEntry := {
  locker : nat;
  index : nat;
  entry_ptr : EntryPtr
}.

(** The drop of a [LockedEntry]. *)
Definition drop_entry (e : LockedEntry) : prog Table unit := at_bucket (locker e) (index e) unlock.

Definition reserve_entry (key : K) (hash : Z) : prog Table (option LockedEntry) :=
  loop n (λ _,
    let! current := get_current_array in
    let! o := at_array current (load old_array) in
    let! moved :=
      match o with
      | Some old => let? r := move_entry current old hash in Ret (Some false)
      | None => Ret (Some true)
      end in
    match moved with
    | None => Ret (Break None)
    | Some resizable =>
        let! a := snapshot current in
        let index := calculate_bucket_index a hash in
        let! num := at_bucket current index (load num_entries) in
        (if resizable &&
            (negb (bool_decide (TYPE = CACHE)) || (array_num_entries a <? maximum_capacity)) &&
            within_sampling_range a index && (Z.of_nat BUCKET_LEN - 1 <=? num)
         then try_enlarge current index num else Ret ()) ;;
        let! l := at_bucket current index lock in
        if l : bool then
          let! ptr := at_bucket current index (get TYPE n key (partial_hash hash)) in
          Ret (Break (Some {| locker := current; index := index; entry_ptr := ptr |}))
        else Ret (Continue ())
    end) ().

(** [Ok(Some((key, val)))] gives back the arguments; [Err] is [None]. *)
Definition insert_entry (key : K) (val : V) (hash : Z) : prog Table (option (option (K * V))) :=
  let? e := reserve_entry key hash in
  if is_valid (entry_ptr e) then drop_entry e ;; Ret (Some (Some (key, val)))
  else
    insert_with (λ R, at_bucket (locker e) (index e)) n (partial_hash hash) (Ret ((key, val), ())) ;;
    drop_entry e ;;
    Ret (Some None).

Definition read_entry (key : K) (hash : Z) : prog Table (option (option (K * V))) :=
  let! p := load bucket_array in
  loop n (λ p,
    match p.1 with
    | None => Ret (Break (Some None))
    | Some current =>
        let! o := at_array current (load old_array) in
        (* [inl] is an early return. *)
        let! early :=
          match o with
          | None => Ret (inr ())
          | Some old =>
              if decide (TYPE = OPTIMISTIC) then
                let! r := incremental_rehash true current in
                if decide (r = Some true) then Ret (inr ())
                else
                  let! a := snapshot old in
                  let! e := at_bucket old (calculate_bucket_index a hash) (search TYPE n key (partial_hash hash)) in
                  match e with Some e => Ret (inl (Some (Some e))) | None => Ret (inr ()) end
              else
                let! r := move_entry current old hash in
                match r with Some _ => Ret (inr ()) | None => Ret (inl None) end
          end in
        match early with
        | inl r => Ret (Break r)
        | inr _ =>
            let! a := snapshot current in
            let index := calculate_bucket_index a hash in
            let! e :=
              if decide (TYPE = OPTIMISTIC) then
                at_bucket current index (search TYPE n key (partial_hash hash))
              else
                let! l := at_bucket current index reader_lock in
                if l : bool then
                  let! e := at_bucket current index (search TYPE n key (partial_hash hash)) in
                  at_bucket current index unlock ;; Ret e
                else Ret None in
            match e with
            | Some e => Ret (Break (Some (Some e)))
            | None =>
                let! p' := load bucket_array in
                if decide (p = p') then Ret (Break (Some None)) else Ret (Continue p')
            end
        end
    end) p.

Definition get_entry (key : K) (hash : Z) : prog Table (option (option LockedEntry)) :=
  let! p := load bucket_array in
  loop n (λ p,
    match p.1 with
    | None => Ret (Break (Some None))
    | Some current =>
        let! o := at_array current (load old_array) in
        let! r := match o with Some old => move_entry current old hash | None => Ret (Some true) end in
        match r with
        | None => Ret (Break None)
        | Some _ =>
            let! a := snapshot current in
            let index := calculate_bucket_index a hash in
            let! l := at_bucket current index lock in
            let! found :=
              if l : bool then
                let! ptr := at_bucket current index (get TYPE n key (partial_hash hash)) in
                if is_valid ptr then Ret (Some ptr) else at_bucket current index unlock ;; Ret None
              else Ret None in
            match found with
            | Some ptr => Ret (Break (Some (Some {| locker := current; index := index; entry_ptr := ptr |})))
            | None =>
                let! p' := load bucket_array in
                if decide (p = p') then Ret (Break (Some None)) else Ret (Continue p')
            end
        end
    end) p.

(** [condition] may change the value; the result is the argument of [post_processor], and
    [None] is [Err]. *)
Definition remove_entry (key : K) (hash : Z) (condition : V → bool * V) :
    prog Table (option (option (option (K * V)))) :=
  loop n (λ _,
    let! p := load bucket_array in
    match p.1 with
    | None => Ret (Break (Some None))
    | Some current =>
        let! o := at_array current (load old_array) in
        let! r := match o with Some old => move_entry current old hash | None => Ret (Some true) end in
        match r with
        | None => Ret (Break None)
        | Some shrinkable =>
            let! a := snapshot current in
            let index := calculate_bucket_index a hash in
            let! l := at_bucket current index lock in
            if l : bool then
              let! ptr := at_bucket current index (get TYPE n key (partial_hash hash)) in
              let! ok :=
                if is_valid ptr then
                  let! e := at_bucket current index (ptr_get ptr) in
                  let c := condition e.2 in
                  at_bucket current index (ptr_set ptr c.2) ;; Ret c.1
                else Ret false in
              if ok : bool then
                let! result := at_bucket current index (erase TYPE ptr) in
                let! num := at_bucket current index (load num_entries) in
                let! rebuild := at_bucket current index (load (need_rebuild TYPE)) in
                at_bucket current index unlock ;;
                (if shrinkable && ((num <=? 1) || rebuild) && within_sampling_range a index
                 then try_shrink_or_rebuild current index else Ret ()) ;;
                Ret (Break (Some (Some result)))
              else at_bucket current index unlock ;; Ret (Break (Some None))
            else Ret (Continue ())
        end
    end) ().

(** The loops that visit every bucket of the table, until the array stays the same:
    [visit] is run on a locked bucket, and may end the whole loop. *)
Definition scan {A R} (lock : prog (Bucket K V) bool) (visit : nat → nat → A → prog Table (flow A R)) (a : A) :
    prog Table (flow A R) :=
  let! p := load bucket_array in
  loop n (λ s : (option nat * Tag.t) * A,
    match s.1.1 with
    | None => Ret (Break (Continue s.2))
    | Some current =>
        clear_old_array current ;;
        let! array := snapshot current in
        let! r := for_each (seq 0 (num_buckets array)) (λ index a,
          let! l := at_bucket current index lock in
          if l : bool then visit current index a else Ret (Continue a)) s.2 in
        match r with
        | Break r => Ret (Break (Break r))
        | Continue a =>
            let! p' := load bucket_array in
            if decide (s.1.1 = p'.1) then Ret (Break (Continue a)) else Ret (Continue (p', a))
        end
    end) (p, a).

Definition lock_first_entry : prog Table (option LockedEntry) :=
  let! r := scan lock (λ current index _,
    let! r := at_bucket current index (next TYPE n entry_ptr_new) in
    if r.1 : bool then Ret (Break {| locker := current; index := index; entry_ptr := r.2 |})
    else at_bucket current index unlock ;; Ret (Continue ())) () in
  match r with Break e => Ret (Some e) | Continue _ => Ret None end.

(** The predicate is a [FnMut]: its state is threaded. *)
Definition any_entry {S} (pred : K → V → S → bool * S) (s : S) : prog Table (bool * S) :=
  let! r := scan reader_lock (λ current index s,
    let! found := at_bucket current index (while_next_in TYPE (λ _ p, p) n
      (λ ptr s, let! e := ptr_get ptr in
        let p := pred e.1 e.2 s in
        if p.1 then Ret (Break (true, p.2)) else Ret (Continue (ptr, p.2))) (λ s, (false, s)) s) in
    at_bucket current index unlock ;;
    if found.1 : bool then Ret (Break found.2) else Ret (Continue found.2)) s in
  match r with Break s => Ret (true, s) | Continue s => Ret (false, s) end.

(** [pred] may change the value; a removed entry is dropped at once. *)
Definition retain_entries (pred : K → V → bool * V) : prog Table unit :=
  let! r := scan lock (λ current index removed,
    let! removed := at_bucket current index (while_next TYPE n
      (λ ptr removed,
        let! e := ptr_get ptr in
        let p := pred e.1 e.2 in
        ptr_set ptr p.2 ;;
        if p.1 then Ret (ptr, removed)
        else
          let! r := erase TYPE ptr in
          modify (add_dropped (option_list r)) ;; Ret (ptr, true)) removed) in
    at_bucket current index unlock ;; Ret (Continue removed : flow bool unit)) false in
  match r with Continue true => try_resize 0 | _ => Ret () end.

(** The key of an entry whose value was consumed is dropped. *)
Definition prune_entries (pred : K → V → option V) : prog Table unit :=
  let! r := scan lock (λ current index removed,
    let! removed := at_bucket current index (while_next TYPE n
      (λ ptr removed,
        let! e := ptr_get ptr in
        let! r := keep_or_consume TYPE ptr pred in
        if r : bool then modify (add_dropped [e]) ;; Ret (ptr, true) else Ret (ptr, removed)) removed) in
    at_bucket current index unlock ;; Ret (Continue removed : flow bool unit)) false in
  match r with Continue true => try_resize 0 | _ => Ret () end.

(** [LockedEntry::next] *)
Definition locked_entry_next (self : LockedEntry) : prog Table (option LockedEntry) :=
  let! r := at_bucket (locker self) (index self) (next TYPE n (entry_ptr self)) in
  if r.1 : bool then Ret (Some {| locker := locker self; index := index self; entry_ptr := r.2 |})
  else
    let! p := load bucket_array in
    match p.1 with
    | None => drop_entry self ;; Ret None
    | Some current =>
        let! a := snapshot current in
        if has_old_array a then drop_entry self ;; lock_first_entry
        else
          let prev_index := index self in
          drop_entry self ;;
          let! r := for_each (seq (S prev_index) (num_buckets a - S prev_index)) (λ index _,
            let! l := at_bucket current index lock in
            if l : bool then
              let! r := at_bucket current index (next TYPE n entry_ptr_new) in
              if r.1 : bool then Ret (Break {| locker := current; index := index; entry_ptr := r.2 |})
              else at_bucket current index unlock ;; Ret (Continue ())
            else Ret (Continue ())) () in
          match r with
          | Break e => Ret (Some e)
          | Continue _ =>
              let! p' := load bucket_array in
              if decide (p.1 = p'.1) then Ret None else lock_first_entry
          end
    end.

(** ** The end of an array and of a table *)

(** [impl Drop for BucketArray], with the fields and the deallocation; entries need to be
    dropped.  An array has an old array, which has none. *)
Fixpoint drop_array (depth : nat) (x : nat) : prog Table unit :=
  match depth with
  | O => OutOfFuel
  | S depth =>
      let! a := snapshot x in
      (match old_array a with
       | Some o =>
           if decide (TYPE = OPTIMISTIC) then Ret ()
           else at_array x (store set_old_array None) ;; drop_array depth o
       | None => Ret ()
       end) ;;
      let first := if decide (TYPE = OPTIMISTIC) then O else Z.to_nat (num_cleared_buckets a) in
      for_each (seq first (array_len a - first)) (λ index _,
        at_bucket x index (drop_entries n) ;; Ret (Continue () : flow unit unit)) () ;;
      let! a := snapshot x in
      release_array (old_array a) ;;
      Act (λ t, ((), add_disposed (concat (dropped <$> buckets a)) (set_arrays (delete x (arrays t)) t))) Ret
  end.

(** The collector drops the arrays that were released to it; a dropped array may release
    another one. *)
Definition collect : prog Table unit :=
  let! g := load garbage in
  loop (length g + 2) (λ _,
    let! g := load garbage in
    match g with
    | [] => Ret (Break ())
    | x :: g => store set_garbage g ;; drop_array 2 x ;; Ret (Continue ())
    end) ().

(** The drop of the container: [impl Drop for HashMap], [impl Drop for HashCache], and
    the drop of the field of [HashIndex]. *)
Definition drop_table : prog Table unit :=
  let! p := fetch_modify bucket_array set_bucket_array (λ _, (None, Tag.None)) in
  match p.1 with
  | None => Ret ()
  | Some x => if decide (TYPE = OPTIMISTIC) then release_array (Some x) else drop_array 2 x
  end.

(** An empty table without arrays. *)
Definition table_new (m : Memory) (minimum_capacity : Z) : Table :=
  {| memory := m; requests := 0; arrays := ∅; bucket_array := (None, Tag.None); minimum_capacity := minimum_capacity;
     garbage := []; disposed := []; cloned := [] |}.
End Table.

Arguments Table : clear implicits.

(** A run on a table may end because there is no memory for another array. *)
#[export] Instance table_refuses K V : Refuses (Table K V) := true.

#[export] Instance table_can_refuse K V : CanRefuse (Table K V) := eq_refl.
