(* ===== verification/TableInv.v ===== *)
(** * The invariant of the hash table

    The entries of an array are a finite map, and the bucket [i] holds those whose hash
    value selects [i].  A table is made of the current array, an old one if there is one,
    whose entries are those that were not relocated yet, and the arrays that wait for the
    collector.  Every key that was put in and not handed back is held by exactly one slot
    of one of them, or was dropped. *)
From S2P Require Import Prelude Atomic Tag Lru Bucket BucketInv BucketQuery BucketOps BucketSpec BucketLinks BucketDrop BucketIter BucketProps BucketArray Rehash HashTable.

Local Open Scope Z_scope.

Section Inv.
Context {K V : Type} `{Countable K} (TYPE : bucket_type) (hash : K → Z) {allow : Refuses (Table K V)}.

Implicit Types (A : gmap K V) (b : Bucket K V) (a : BucketArray K V) (t : Table K V)
  (L D : gset nat) (i j e c : nat) (h ins outs : list K).

(** The partial hash of a key. *)
Definition phash (k : K) : Z := partial_hash (hash k).

(** The bucket of a key in an array of [2 ^ e] buckets. *)
Definition idx e (k : K) : nat := Z.to_nat (hash k / 2 ^ Z.of_nat (64 - e)).

Lemma calculate_idx a e k : shape a e → calculate_bucket_index a (hash k) = idx e k.
Proof. intros Hsh. by rewrite (bucket_index_eq a e). Qed.

Lemma idx_lt e k : (∀ k, in_word 64 (hash k)) → (e ≤ 58)%nat → (idx e k < 2 ^ e)%nat.
Proof.
  intros Hhash He. specialize (Hhash k). unfold idx, in_word in *.
  apply Nat2Z.inj_lt. rewrite Z2Nat.id, Nat2Z.inj_pow by (apply Z.div_pos; lia).
  apply Z.div_lt_upper_bound; [lia |]. rewrite <-Z.pow_add_r by lia.
  replace (Z.of_nat (64 - e) + Z.of_nat e) with (Z.of_nat 64) by lia. lia.
Qed.

Definition part e i A : gmap K V := filter (λ x, idx e x.1 = i) A.

Lemma lookup_part e i A k : part e i A !! k = if decide (idx e k = i) then A !! k else None.
Proof.
  unfold part. rewrite map_lookup_filter. case_decide; destruct (A !! k); by simplify_option_eq.
Qed.

Lemma part_insert_eq e A k v : part e (idx e k) (<[k := v]> A) = <[k := v]> (part e (idx e k) A).
Proof.
  apply map_eq. intros k'. rewrite lookup_part. destruct (decide (k = k')) as [<- | Hne].
  - rewrite !lookup_insert_eq. by rewrite decide_True.
  - rewrite !lookup_insert_ne by done. by rewrite lookup_part.
Qed.

Lemma part_insert_ne e i A k v : i ≠ idx e k → part e i (<[k := v]> A) = part e i A.
Proof.
  intros Hi. apply map_eq. intros k'. rewrite !lookup_part. case_decide as Hk; [| done].
  rewrite lookup_insert_ne; [done | congruence].
Qed.

Lemma part_delete_eq e A k : part e (idx e k) (delete k A) = delete k (part e (idx e k) A).
Proof.
  apply map_eq. intros k'. rewrite lookup_part. destruct (decide (k = k')) as [<- | Hne].
  - rewrite !lookup_delete_eq. by case_decide.
  - rewrite !lookup_delete_ne by done. by rewrite lookup_part.
Qed.

Lemma part_delete_ne e i A k : i ≠ idx e k → part e i (delete k A) = part e i A.
Proof.
  intros Hi. apply map_eq. intros k'. rewrite !lookup_part. case_decide as Hk; [| done].
  rewrite lookup_delete_ne; [done | congruence].
Qed.

Lemma part_subseteq e i A : part e i A ⊆ A.
Proof. apply map_filter_subseteq. Qed.

Lemma part_size e i A : (size (part e i A) ≤ size A)%nat.
Proof. apply map_subseteq_size, part_subseteq. Qed.

Lemma part_empty e i : part e i ∅ = ∅.
Proof. apply map_filter_empty. Qed.

(** ** Buckets and arrays *)

(** The keys that a bucket holds. *)
Definition holds (b : Bucket K V) (O : gmap pos (K * V)) : list K := (vals O ++ dropped b).*1.

(** At most [c] linked buckets; the flags; the entries; the keys that it holds. *)
Definition bucket_ok c (lk kl : bool) (m : gmap K V) h b : Prop :=
  ∃ cs O M, wf TYPE phash b cs O M ∧ keyed M m ∧ (length cs ≤ c)%nat ∧ h ≡ₚ holds b O ∧
    locked b = lk ∧ killed b = kl ∧ (kl = true → m = ∅).

Lemma holds_insert b b' (O : gmap pos (K * V)) q kv :
  O !! q = None → dropped b' = dropped b → holds b' (<[q := kv]> O) ≡ₚ kv.1 :: holds b O.
Proof. intros Hq Hd. unfold holds. by rewrite Hd, vals_insert. Qed.

Lemma holds_delete b b' (O : gmap pos (K * V)) q kv :
  O !! q = Some kv → dropped b' = dropped b → holds b O ≡ₚ kv.1 :: holds b' (delete q O).
Proof. intros Hq Hd. unfold holds. by rewrite Hd, (vals_delete O q kv). Qed.

Lemma holds_same b b' (O : gmap pos (K * V)) : dropped b' = dropped b → holds b' O = holds b O.
Proof. intros Hd. unfold holds. by rewrite Hd. Qed.

Lemma bucket_ok_mono c c' lk kl m h b : (c ≤ c')%nat → bucket_ok c lk kl m h b → bucket_ok c' lk kl m h b.
Proof.
  intros Hc (cs & O & M & Hwf & Hk & Hcs & Hrest). exists cs, O, M.
  split; [done |]. split; [done |]. split; [lia | done].
Qed.

Lemma bucket_ok_num c lk kl m h b : bucket_ok c lk kl m h b → num_entries b = Z.of_nat (size m).
Proof. intros (cs & O & M & Hwf & Hk & _). by rewrite (wf_num _ _ _ _ _ _ Hwf), (keyed_size _ _ Hk). Qed.

Global Instance bucket_ok_perm c lk kl m : Proper ((≡ₚ) ==> (=) ==> iff) (bucket_ok c lk kl m).
Proof.
  intros h h' Hh b ? <-. split; intros (cs & O & M & Hwf & Hk & Hcs & Heq & Hrest); exists cs, O, M;
    (split; [done |]; split; [done |]; split; [done |]; split; [| done]); by rewrite <-Heq.
Qed.

(** An array of [2 ^ e] buckets with the entries [A]; those in [L] are locked, those in
    [D] killed; [h] are the keys that it holds. *)
Definition array_ok e c L D A h a : Prop :=
  shape a e ∧ ∃ hs : list (list K), length hs = array_len a ∧ h ≡ₚ concat hs ∧
    ∀ i b, buckets a !! i = Some b → ∃ hi, hs !! i = Some hi ∧
      bucket_ok c (bool_decide (i ∈ L)) (bool_decide (i ∈ D)) (part e i A) hi b.

(** The buckets other than [i] stay the same. *)
Definition same_but e i L D A L' D' A' : Prop :=
  ∀ j, j ≠ i → (j ∈ L' ↔ j ∈ L) ∧ (j ∈ D' ↔ j ∈ D) ∧ part e j A' = part e j A.

Lemma same_but_refl e i L D A : same_but e i L D A L D A.
Proof. done. Qed.

Lemma array_ok_shape e c L D A h a : array_ok e c L D A h a → shape a e.
Proof. by intros [? _]. Qed.

Lemma array_ok_fields e c L D A h a o w :
  array_ok e c L D A h a → array_ok e c L D A h (set_old_array o (set_num_cleared_buckets w a)).
Proof. intros [[? ? ? ? ?] ?]. split; [by constructor | done]. Qed.

Lemma array_ok_mono e c c' L D A h a : (c ≤ c')%nat → array_ok e c L D A h a → array_ok e c' L D A h a.
Proof.
  intros Hc (Hsh & hs & Hlen & Hh & Hb). split; [done |]. exists hs. split; [done |]. split; [done |].
  intros i b Hi. destruct (Hb i b Hi) as (hi & Hhi & Hbi). exists hi. split; [done |]. by eapply bucket_ok_mono.
Qed.

Lemma array_bucket e c L D A h a i :
  array_ok e c L D A h a → (i < 2 ^ e)%nat → ∃ b hi, buckets a !! i = Some b ∧
    bucket_ok c (bool_decide (i ∈ L)) (bool_decide (i ∈ D)) (part e i A) hi b.
Proof.
  intros (Hsh & hs & Hlen & Hh & Hb) Hi.
  assert (His : is_Some (buckets a !! i)).
  { apply lookup_lt_is_Some. by rewrite (sh_buckets _ _ Hsh), (sh_len _ _ Hsh). }
  destruct His as [b Hib]. destruct (Hb i b Hib) as (hi & Hhi & Hbi). eauto.
Qed.

(** A step on the bucket [i]. *)
Lemma array_focus e c L D A h a i :
  array_ok e c L D A h a → (i < 2 ^ e)%nat →
  ∃ b hi rest, buckets a !! i = Some b ∧
    bucket_ok c (bool_decide (i ∈ L)) (bool_decide (i ∈ D)) (part e i A) hi b ∧ h ≡ₚ hi ++ rest ∧
    ∀ c' L' D' A' hi' b', (c ≤ c')%nat → same_but e i L D A L' D' A' →
      bucket_ok c' (bool_decide (i ∈ L')) (bool_decide (i ∈ D')) (part e i A') hi' b' →
      array_ok e c' L' D' A' (hi' ++ rest) (set_buckets (<[i := b']> (buckets a)) a).
Proof.
  intros (Hsh & hs & Hlen & Hh & Hb) Hi.
  assert (His : is_Some (buckets a !! i)).
  { apply lookup_lt_is_Some. by rewrite (sh_buckets _ _ Hsh), (sh_len _ _ Hsh). }
  destruct His as [b Hib]. destruct (Hb i b Hib) as (hi & Hhi & Hbi).
  exists b, hi, (concat (<[i := []]> hs)). split; [done |]. split; [done |].
  assert (Hperm : ∀ hi', concat (<[i := hi']> hs) ≡ₚ hi' ++ concat (<[i := []]> hs)).
  { intros hi'. rewrite !insert_take_drop by (by eapply lookup_lt_Some). rewrite !concat_app. cbn.
    rewrite !app_assoc. apply Permutation_app_tail, Permutation_app_comm. }
  split.
  { rewrite Hh. rewrite <-(list_insert_id hs i hi) at 1 by done. apply Hperm. }
  intros c' L' D' A' hi' b' Hc Hsame Hb'. split.
  - destruct Hsh as [? ? ? ? ?]. constructor; try done. cbn. by rewrite length_insert.
  - exists (<[i := hi']> hs). split; [by rewrite length_insert |]. split; [by rewrite Hperm |].
    intros j bj. cbn. destruct (decide (i = j)) as [<- | Hne].
    + rewrite list_lookup_insert_eq by (by eapply lookup_lt_Some). intros [= <-]. exists hi'.
      split; [| done]. apply list_lookup_insert_eq. by eapply lookup_lt_Some.
    + rewrite !list_lookup_insert_ne by done. intros Hj. destruct (Hb j bj Hj) as (hj & Hhj & Hbj).
      exists hj. split; [done |]. destruct (Hsame j ltac:(done)) as (HL & HD & HA).
      rewrite (bool_decide_ext _ _ HL), (bool_decide_ext _ _ HD), HA. by eapply bucket_ok_mono.
Qed.

(** A new array. *)
Lemma array_ok_new m request capacity o c a : array_new m request capacity o = Allocated a →
  ∃ e, array_ok e c ∅ ∅ ∅ [] a ∧ old_array a = o ∧ num_cleared_buckets a = 0 ∧
    adjusted_capacity capacity ≤ array_num_entries a ∧ ((2 ≤ e)%nat → array_num_entries a < 2 * adjusted_capacity capacity).
Proof.
  intros Hnew. destruct (array_new_shape _ _ _ _ _ Hnew) as (e & Hsh & Ho & Hw & Hb & Hlo & Hhi).
  exists e. split_and!; try done. split; [done |]. exists (replicate (2 ^ e) []).
  split; [by rewrite length_replicate, (sh_len _ _ Hsh) |].
  split.
  { replace (concat _) with (@nil K); [done |]. clear. induction (2 ^ e)%nat as [| k IH]; [done | exact IH]. }
  intros i b Hi. rewrite Hb in Hi. apply lookup_replicate in Hi as [-> Hi]. exists [].
  split; [by rewrite lookup_replicate_2 |]. rewrite part_empty. exists [], ∅, ∅.
  split; [apply wf_default |]. split; [apply keyed_empty |]. split; [cbn; lia |].
  split; [unfold holds, vals; by rewrite map_to_list_empty |].
  rewrite !bool_decide_false by set_solver. done.
Qed.

(** ** The table *)

(** The array [y] of the memory. *)
Definition arr (y : nat) e c L D A h (o : option nat) (w : Z) t : Prop :=
  ∃ a, arrays t !! y = Some a ∧ array_ok e c L D A h a ∧ old_array a = o ∧ num_cleared_buckets a = w.

(** The old array, if there is one.  The first [w] buckets are killed. *)
Definition old_arr (o : option nat) e c L D A h (w : Z) t : Prop :=
  match o with
  | Some y => arr y e c L D A h None w t
  | None => A = ∅ ∧ h = []
  end.

(** An array that can be dropped: the entries of the buckets that are skipped are gone. *)
Definition droppable c t (y : nat) h : Prop :=
  ∃ e L D w, arr y e c L D ∅ h None w t ∧
    ∀ i, (i < 2 ^ e)%nat → Z.of_nat i < w → i ∈ D.

Definition garbage_ok c h t : Prop :=
  ∃ hs, Forall2 (droppable c t) (garbage t) hs ∧ h ≡ₚ concat hs.

(** What the steps on buckets do not change: the current array has [2 ^ exp] buckets, the
    old one, if there is one, [2 ^ old_exp]; the tag of the pointer to the current array,
    and the minimum capacity. *)
Record config := Config {
  cur : nat;
  exp : nat;
  old : option nat;
  old_exp : nat;
  tag : Tag.t;
  min_cap : Z
}.

Implicit Types (C : config).

(** [A] are the entries of the current array, and [Ao] those of the old one; [I] bounds the
    number of entries that were ever inserted, and thereby the number of linked buckets: a
    linked bucket of the current array was made for an insertion or for a relocation.
    [ins] are the keys that were put in, [outs] those that were handed back. *)
Record tab C (Lx Lo D : gset nat) A (Ao : gmap K V) (w : Z) (I : nat) ins outs t : Prop := {
  tab_hold : ∃ hx ho hg,
    arr (cur C) (exp C) (I - size Ao) Lx ∅ A hx (old C) 0 t ∧
    old_arr (old C) (old_exp C) I Lo D Ao ho w t ∧ garbage_ok I hg t ∧
    hx ++ ho ++ hg ++ (disposed t).*1 ++ outs ≡ₚ ins ++ (cloned t).*1;
  tab_ptr : bucket_array t = (Some (cur C), tag C);
  tab_min : minimum_capacity t = min_cap C;
  tab_ids : NoDup (cur C :: option_list (old C) ++ garbage t);
  tab_dom : dom (arrays t) = list_to_set (cur C :: option_list (old C) ++ garbage t);
  tab_disj : A ##ₘ Ao;
  tab_size : (size A + size Ao ≤ I)%nat
}.

Lemma arr_frame y e c L D A h o w t t' :
  arrays t' !! y = arrays t !! y → arr y e c L D A h o w t → arr y e c L D A h o w t'.
Proof. intros Heq (a & Ha & ?). exists a. by rewrite Heq. Qed.

Lemma garbage_ok_frame c h t t' :
  garbage t' = garbage t → (∀ y, y ∈ garbage t → arrays t' !! y = arrays t !! y) →
  garbage_ok c h t → garbage_ok c h t'.
Proof.
  intros Hg Hf (hs & Hall & Hh). exists hs. split; [| done]. rewrite Hg.
  eapply Forall2_in; [| exact Hall]. intros y hy Hy (e & L & D & w & Harr & HD). exists e, L, D, w. split; [| done].
  eapply arr_frame; [| done]. by apply Hf.
Qed.

Lemma garbage_ok_mono c c' h t : (c ≤ c')%nat → garbage_ok c h t → garbage_ok c' h t.
Proof.
  intros Hc (hs & Hall & Hh). exists hs. split; [| done]. eapply Forall2_impl; [exact Hall |].
  intros y hy (e & L & D & w & (a & Ha & Hok & Hrest) & HD). exists e, L, D, w. split; [| done].
  exists a. split; [done |]. split; [by eapply array_ok_mono | done].
Qed.

Lemma arr_mono y e c c' L D A h o w t : (c ≤ c')%nat → arr y e c L D A h o w t → arr y e c' L D A h o w t.
Proof. intros Hc (a & Ha & Hok & Hr). exists a. split; [done |]. split; [by eapply array_ok_mono | done]. Qed.

(** ** Access to a bucket *)

Lemma lookup_put_bucket x i b t y :
  arrays (put_bucket x i b t) !! y =
    if decide (y = x) then (λ a, set_buckets (<[i := b]> (buckets a)) a) <$> arrays t !! x else arrays t !! y.
Proof.
  cbn. case_decide as Hy; [subst y; apply lookup_alter_eq | by rewrite lookup_alter_ne].
Qed.

Lemma lookup_put_eq x i b t :
  arrays (put_bucket x i b t) !! x = (λ a, set_buckets (<[i := b]> (buckets a)) a) <$> arrays t !! x.
Proof. by rewrite lookup_put_bucket, decide_True. Qed.

Lemma lookup_put_ne x i b t y : y ≠ x → arrays (put_bucket x i b t) !! y = arrays t !! y.
Proof. intros Hy. by rewrite lookup_put_bucket, decide_False. Qed.

#[export] Instance part_bucket x i : Part (get_bucket (K := K) (V := V) x i) (put_bucket x i).
Proof.
  constructor; intros t b.
  - intros b' Hb. unfold get_bucket in *. rewrite lookup_put_bucket, decide_True by done.
    apply bind_Some in Hb as (a & -> & Hi). cbn. apply list_lookup_insert_eq. by eapply lookup_lt_Some.
  - intros b' b'' Hb. unfold put_bucket, set_arrays. cbn. f_equal.
    apply map_eq. intros y. destruct (decide (x = y)) as [<- | Hne]; [| by rewrite !lookup_alter_ne].
    rewrite !lookup_alter_eq. destruct (arrays t !! x) as [a |]; [| done]. cbn. unfold set_buckets. cbn.
    by rewrite list_insert_insert_eq.
  - intros Hb. unfold get_bucket in Hb. apply bind_Some in Hb as (a & Ha & Hi).
    unfold put_bucket, set_arrays. destruct t; cbn in *. f_equal.
    apply map_eq. intros y. destruct (decide (x = y)) as [<- | Hne]; [| by rewrite !lookup_alter_ne].
    rewrite lookup_alter_eq, Ha. cbn. f_equal. unfold set_buckets. destruct a; cbn in *. f_equal. by apply list_insert_id.
Qed.

#[export] Instance part_array x : Part (get_array (K := K) (V := V) x) (put_array x).
Proof.
  constructor; intros t a.
  - intros a' Ha. unfold get_array, put_array. cbn. apply lookup_insert_eq.
  - intros a' a'' Ha. unfold put_array, set_arrays. cbn. f_equal. apply insert_insert_eq.
  - intros Ha. unfold put_array, set_arrays. destruct t; cbn in *. f_equal. by apply insert_id.
Qed.

Lemma runs_at_bucket {R} x i (p : prog (Bucket K V) R) t b Q :
  get_bucket x i t = Some b → runs p b (λ r b', Q r (put_bucket x i b' t)) → runs (at_bucket x i p) t Q.
Proof. apply runs_zoom. apply _. Qed.

(** A program that only reads the bucket. *)
Lemma runs_read_bucket {R} x i (p : prog (Bucket K V) R) t b Q :
  get_bucket x i t = Some b → runs p b (λ r b', b' = b ∧ Q r) → runs (at_bucket x i p) t (λ r t', t' = t ∧ Q r).
Proof.
  intros Hb Hp. eapply runs_at_bucket; [done |]. eapply runs_mono; [| exact Hp].
  intros r b' [-> HQ]. split; [| done]. by apply part_put_get.
Qed.

Lemma runs_read_bind {R1 R2} x i (p : prog (Bucket K V) R1) (k : R1 → prog (Table K V) R2) t b (Qp : R1 → Prop) Q :
  get_bucket x i t = Some b → runs p b (λ r b', b' = b ∧ Qp r) → (∀ r, Qp r → runs (k r) t Q) →
  runs (bind (at_bucket x i p) k) t Q.
Proof.
  intros Hb Hp Hk. eapply runs_call; [by eapply runs_read_bucket |]. intros r t' [-> Hr]. auto.
Qed.

Lemma runs_at_bind {R1 R2} x i (p : prog (Bucket K V) R1) (k : R1 → prog (Table K V) R2) t b Qp Q :
  get_bucket x i t = Some b → runs p b Qp → (∀ r b', Qp r b' → runs (k r) (put_bucket x i b' t) Q) →
  runs (bind (at_bucket x i p) k) t Q.
Proof.
  intros Hb Hp Hk. apply runs_bind. eapply runs_at_bucket; [done |]. eapply runs_mono; [| exact Hp]. auto.
Qed.

Lemma runs_at_array {R} x (p : prog (BucketArray K V) R) t a Q :
  arrays t !! x = Some a → runs p a (λ r a', Q r (put_array x a' t)) → runs (at_array x p) t Q.
Proof. intros Ha. by apply (runs_zoom (get_array x) (put_array x) p t a). Qed.

Lemma runs_array_load {X R} x (get : BucketArray K V → X) t a (k : X → prog (Table K V) R) Q :
  arrays t !! x = Some a → runs (k (get a)) t Q → runs (bind (at_array x (load get)) k) t Q.
Proof.
  intros Ha Hk. apply runs_bind. eapply runs_at_array; [done |]. unfold runs. cbn [run load].
  by rewrite (part_put_get (get := get_array x) t a).
Qed.

Lemma runs_snapshot {R} x t a (k : BucketArray K V → prog (Table K V) R) Q :
  arrays t !! x = Some a → runs (k a) t Q → runs (bind (snapshot x) k) t Q.
Proof. intros Ha Hk. by eapply runs_array_load. Qed.

Lemma runs_bucket_load {X R} x i (get : Bucket K V → X) t b (k : X → prog (Table K V) R) Q :
  get_bucket x i t = Some b → runs (k (get b)) t Q → runs (bind (at_bucket x i (load get)) k) t Q.
Proof.
  intros Hb Hk. apply runs_bind. eapply runs_at_bucket; [done |]. unfold runs. cbn [run load].
  by rewrite (part_put_get (get := get_bucket x i) t b).
Qed.

(** ** Steps *)

Lemma old_arr_frame o e c L D A h w t t' :
  (∀ y, o = Some y → arrays t' !! y = arrays t !! y) →
  old_arr o e c L D A h w t → old_arr o e c L D A h w t'.
Proof. intros Hf. destruct o as [y |]; [| done]. apply arr_frame. by apply Hf. Qed.

Lemma old_arr_mono o e c c' L D A h w t : (c ≤ c')%nat → old_arr o e c L D A h w t → old_arr o e c' L D A h w t.
Proof. intros Hc. destruct o as [y |]; [| done]. by apply arr_mono. Qed.

Lemma dom_put_bucket x i b t : is_Some (arrays t !! x) → dom (arrays (put_bucket x i b t)) = dom (arrays t).
Proof. intros Hx. cbn. apply dom_alter_L. Qed.

Lemma bool_decide_empty (i : nat) `{!Decision (i ∈ (∅ : gset nat))} : bool_decide (i ∈ (∅ : gset nat)) = false.
Proof. apply bool_decide_false. set_solver. Qed.

Lemma arr_focus y e c L D A h o w t i :
  arr y e c L D A h o w t → (i < 2 ^ e)%nat →
  ∃ b hi rest, get_bucket y i t = Some b ∧
    bucket_ok c (bool_decide (i ∈ L)) (bool_decide (i ∈ D)) (part e i A) hi b ∧ h ≡ₚ hi ++ rest ∧
    ∀ c' L' D' A' hi' b', (c ≤ c')%nat → same_but e i L D A L' D' A' →
      bucket_ok c' (bool_decide (i ∈ L')) (bool_decide (i ∈ D')) (part e i A') hi' b' →
      arr y e c' L' D' A' (hi' ++ rest) o w (put_bucket y i b' t).
Proof.
  intros (a & Ha & Hok & Ho & Hw) Hi. destruct (array_focus _ _ _ _ _ _ _ i Hok Hi) as (b & hi & rest & Hb & Hbok & Hh & Hput).
  exists b, hi, rest. split; [unfold get_bucket; by rewrite Ha |]. split; [done |]. split; [done |].
  intros c' L' D' A' hi' b' Hc Hs Hb'. eexists. split; [rewrite lookup_put_bucket, decide_True, Ha by done; done |].
  split; [by apply Hput | done].
Qed.

Lemma wf_set_locked l b cs O M : wf TYPE phash b cs O M → wf TYPE phash (set_locked l b) cs O M.
Proof. by intros []; constructor. Qed.

Lemma bucket_ok_lock c lk lk' kl m h b : bucket_ok c lk kl m h b → bucket_ok c lk' kl m h (set_locked lk' b).
Proof.
  intros (cs & O & M & Hwf & Hk & Hcs & Hh & _ & Hrest). exists cs, O, M.
  split; [by apply wf_set_locked |]. done.
Qed.

(** What a bucket holds is determined by its memory. *)
Lemma wf_unique b cs O M cs' O' M' :
  wf TYPE phash b cs O M → wf TYPE phash b cs' O' M' → O = O' ∧ M = M' ∧ length cs = length cs'.
Proof.
  intros Hwf Hwf'. split_and!.
  - apply map_eq. intros [p i]. destruct (decide (is_Some (get_meta p b))) as [[m Hm] | Hn].
    + destruct (get_meta_block _ _ _ Hm) as [d Hd].
      by rewrite (wf_occ _ _ _ _ _ _ Hwf p i m d Hm Hd), (wf_occ _ _ _ _ _ _ Hwf' p i m d Hm Hd).
    + assert (Hh : ¬ has p b) by (intros (m & d & Hm & _)%has_block; eauto).
      destruct (wf_out _ _ _ _ _ _ Hwf p i Hh) as [-> _]. by destruct (wf_out _ _ _ _ _ _ Hwf' p i Hh) as [-> _].
  - apply map_eq. intros [p i]. destruct (decide (is_Some (get_meta p b))) as [[m Hm] | Hn].
    + destruct (get_meta_block _ _ _ Hm) as [d Hd].
      by rewrite (wf_live _ _ _ _ _ _ Hwf p i m d Hm Hd), (wf_live _ _ _ _ _ _ Hwf' p i m d Hm Hd).
    + assert (Hh : ¬ has p b) by (intros (m & d & Hm & _)%has_block; eauto).
      destruct (wf_out _ _ _ _ _ _ Hwf p i Hh) as [_ ->]. by destruct (wf_out _ _ _ _ _ _ Hwf' p i Hh) as [_ ->].
  - apply Permutation_length, NoDup_Permutation; [apply Hwf | apply Hwf' |].
    intros c. by rewrite <-(wf_dom _ _ _ _ _ _ Hwf), (wf_dom _ _ _ _ _ _ Hwf').
Qed.

Lemma keyed_unique (M : gmap pos (K * V)) (m m' : gmap K V) : keyed M m → keyed M m' → m = m'.
Proof.
  intros Hk Hk'. apply map_eq. intros k. apply option_eq. intros v.
  by rewrite (keyed_lookup _ _ Hk), (keyed_lookup _ _ Hk').
Qed.

Lemma bucket_ok_wf c lk kl m h b cs O M :
  bucket_ok c lk kl m h b → wf TYPE phash b cs O M →
  keyed M m ∧ (length cs ≤ c)%nat ∧ h ≡ₚ holds b O ∧ locked b = lk ∧ killed b = kl.
Proof.
  intros (cs' & O' & M' & Hwf' & Hk & Hcs & Hh & Hl & Hkl & _) Hwf.
  destruct (wf_unique _ _ _ _ _ _ _ Hwf Hwf') as (-> & -> & ->). done.
Qed.

Section Tab.
Context {C : config} {Lx Lo D : gset nat} {A Ao : gmap K V} {w : Z} {I : nat}
  {ins outs : list K} {t : Table K V} (Ht : tab C Lx Lo D A Ao w I ins outs t).

Local Notation x := (cur C).
Local Notation e := (exp C).
Local Notation o := (old C).
Local Notation eo := (old_exp C).

Lemma tab_old_ne y : o = Some y → y ≠ x.
Proof. intros Ho ->. pose proof (tab_ids _ _ _ _ _ _ _ _ _ _ _ Ht) as Hn. apply NoDup_cons in Hn as [Hn _]. rewrite Ho in Hn. set_solver. Qed.

Lemma tab_garbage_ne y : y ∈ garbage t → y ≠ x ∧ o ≠ Some y.
Proof.
  intros Hy. pose proof (tab_ids _ _ _ _ _ _ _ _ _ _ _ Ht) as Hn. apply NoDup_cons in Hn as [Hn Hn'].
  split; [set_solver |]. intros Ho. rewrite Ho in Hn'. cbn in Hn'. apply NoDup_cons in Hn' as [? _]. done.
Qed.

(** A step on a bucket of the current array. *)
Lemma tab_cur i : (i < 2 ^ e)%nat →
  ∃ b h, get_bucket x i t = Some b ∧ bucket_ok (I - size Ao) (bool_decide (i ∈ Lx)) false (part e i A) h b ∧
    ∀ Lx' A' I' h' ins' outs' b', (I ≤ I')%nat → same_but e i Lx ∅ A Lx' ∅ A' →
      bucket_ok (I' - size Ao) (bool_decide (i ∈ Lx')) false (part e i A') h' b' →
      A' ##ₘ Ao → (size A' + size Ao ≤ I')%nat → h' ++ outs' ++ ins ≡ₚ h ++ outs ++ ins' →
      tab C Lx' Lo D A' Ao w I' ins' outs' (put_bucket x i b' t).
Proof.
  intros Hi. destruct (tab_hold _ _ _ _ _ _ _ _ _ _ _ Ht) as (hx & ho & hg & Hx & Hold & Hg & Hperm).
  destruct (arr_focus _ _ _ _ _ _ _ _ _ _ i Hx Hi) as (b & h & rest & Hb & Hok & Hh & Hput).
  rewrite bool_decide_empty in Hok. exists b, h. split; [done |]. split; [done |].
  intros Lx' A' I' h' ins' outs' b' HI Hs Hok' Hdisj Hsize Hp.
  assert (Hframe : ∀ y, y ≠ x → arrays (put_bucket x i b' t) !! y = arrays t !! y).
  { intros y Hy. by rewrite lookup_put_bucket, decide_False. }
  constructor; try done.
  - exists (h' ++ rest), ho, hg. split; [apply Hput; [lia | done | by rewrite bool_decide_empty] |].
    split.
    { eapply old_arr_mono; [exact HI |]. eapply old_arr_frame; [| exact Hold]. intros y Hy. by apply Hframe, tab_old_ne. }
    split.
    { eapply garbage_ok_mono; [exact HI |]. eapply (garbage_ok_frame _ _ t); [done | | exact Hg]. intros y Hy. by apply Hframe, tab_garbage_ne. }
    cbn [disposed cloned put_bucket set_arrays]. rewrite Hh in Hperm. solve_perm.
  - apply (tab_ptr _ _ _ _ _ _ _ _ _ _ _ Ht).
  - apply (tab_min _ _ _ _ _ _ _ _ _ _ _ Ht).
  - apply (tab_ids _ _ _ _ _ _ _ _ _ _ _ Ht).
  - rewrite dom_put_bucket; [apply (tab_dom _ _ _ _ _ _ _ _ _ _ _ Ht) |].
    destruct Hx as (a & Ha & _). by rewrite Ha.
Qed.

(** A step on a bucket of the old array. *)
Lemma tab_old y i : o = Some y → (i < 2 ^ eo)%nat →
  ∃ b h, get_bucket y i t = Some b ∧
    bucket_ok I (bool_decide (i ∈ Lo)) (bool_decide (i ∈ D)) (part eo i Ao) h b ∧
    ∀ Lo' D' Ao' I' h' ins' outs' b', (I ≤ I')%nat → same_but eo i Lo D Ao Lo' D' Ao' →
      bucket_ok I' (bool_decide (i ∈ Lo')) (bool_decide (i ∈ D')) (part eo i Ao') h' b' →
      A ##ₘ Ao' → (I - size Ao ≤ I' - size Ao')%nat → (size A + size Ao' ≤ I')%nat →
      h' ++ outs' ++ ins ≡ₚ h ++ outs ++ ins' →
      tab C Lx Lo' D' A Ao' w I' ins' outs' (put_bucket y i b' t).
Proof.
  intros Ho Hi. destruct (tab_hold _ _ _ _ _ _ _ _ _ _ _ Ht) as (hx & ho & hg & Hx & Hold & Hg & Hperm).
  pose proof (tab_old_ne _ Ho) as Hyx. rewrite Ho in Hold. cbn in Hold.
  destruct (arr_focus _ _ _ _ _ _ _ _ _ _ i Hold Hi) as (b & h & rest & Hb & Hok & Hh & Hput).
  exists b, h. split; [done |]. split; [done |].
  intros Lo' D' Ao' I' h' ins' outs' b' HI Hs Hok' Hdisj Hc Hsize Hp.
  assert (Hframe : ∀ z, z ≠ y → arrays (put_bucket y i b' t) !! z = arrays t !! z).
  { intros z Hz. by rewrite lookup_put_bucket, decide_False. }
  constructor; try done.
  - exists hx, (h' ++ rest), hg. split.
    { eapply arr_mono; [exact Hc |]. eapply arr_frame; [| exact Hx]. by apply Hframe. }
    split; [rewrite Ho; by apply Hput |].
    split.
    { eapply garbage_ok_mono; [exact HI |]. eapply (garbage_ok_frame _ _ t); [done | | exact Hg].
      intros z Hz. apply Hframe. destruct (tab_garbage_ne _ Hz) as [_ Hne]. congruence. }
    cbn [disposed cloned put_bucket set_arrays]. rewrite Hh in Hperm. solve_perm.
  - apply (tab_ptr _ _ _ _ _ _ _ _ _ _ _ Ht).
  - apply (tab_min _ _ _ _ _ _ _ _ _ _ _ Ht).
  - apply (tab_ids _ _ _ _ _ _ _ _ _ _ _ Ht).
  - rewrite dom_put_bucket; [apply (tab_dom _ _ _ _ _ _ _ _ _ _ _ Ht) |].
    destruct Hold as (a & Ha & _). by rewrite Ha.
Qed.

(** The bucket of the other array stays the same. *)
Lemma get_put_other y z i j b : y ≠ z → get_bucket z j (put_bucket y i b t) = get_bucket z j t.
Proof. intros Hne. unfold get_bucket. by rewrite lookup_put_bucket, decide_False. Qed.

Lemma get_put_ne y i j b : i ≠ j → get_bucket y j (put_bucket y i b t) = get_bucket y j t.
Proof.
  intros Hne. unfold get_bucket. rewrite lookup_put_bucket, decide_True by done.
  destruct (arrays t !! y) as [a |]; [| done]. cbn. by apply list_lookup_insert_ne.
Qed.

(** The arrays. *)
Lemma tab_array : ∃ a, arrays t !! x = Some a ∧ shape a e ∧ old_array a = o ∧ num_cleared_buckets a = 0.
Proof.
  destruct (tab_hold _ _ _ _ _ _ _ _ _ _ _ Ht) as (hx & ho & hg & (a & Ha & Hok & Ho & Hw) & _).
  exists a. split; [done |]. split; [by eapply array_ok_shape | done].
Qed.

Lemma tab_old_array y : o = Some y →
  ∃ a, arrays t !! y = Some a ∧ shape a eo ∧ old_array a = None ∧ num_cleared_buckets a = w.
Proof.
  intros Ho. destruct (tab_hold _ _ _ _ _ _ _ _ _ _ _ Ht) as (hx & ho & hg & _ & Hold & _). rewrite Ho in Hold.
  destruct Hold as (a & Ha & Hok & Hoo & Hw). exists a. split; [done |]. split; [by eapply array_ok_shape | done].
Qed.

(** A clone is in the hands of the thread. *)
Lemma tab_clone kvs : tab C Lx Lo D A Ao w I ins (kvs.*1 ++ outs) (add_cloned kvs t).
Proof.
  destruct Ht as [(hx & ho & hg & Hx & Hold & Hg & Hperm) ? ? ? ? ? ?]. constructor; try done.
  exists hx, ho, hg. split; [done |]. split; [done |]. split; [done |]. cbn [disposed cloned add_cloned].
  rewrite fmap_app. solve_perm.
Qed.
(** ** Locks *)

Lemma elem_lock (i j : nat) (L : gset nat) : j ≠ i → (j ∈ {[i]} ∪ L ↔ j ∈ L) ∧ (j ∈ L ∖ {[i]} ↔ j ∈ L).
Proof. intros Hne. rewrite elem_of_union, elem_of_difference, elem_of_singleton. tauto. Qed.

Lemma locked_in (i : nat) (L : gset nat) : i ∈ {[i]} ∪ L.
Proof. apply elem_of_union. left. by apply elem_of_singleton. Qed.

Lemma lock_elem (i : nat) (L : gset nat) : i ∈ L → {[i]} ∪ L = L.
Proof.
  intros Hi. apply set_eq. intros j. rewrite elem_of_union, elem_of_singleton.
  split; [by intros [-> | ?] | tauto].
Qed.

Lemma lock_restore (i : nat) (L : gset nat) : i ∉ L → ({[i]} ∪ L) ∖ {[i]} = L.
Proof.
  intros Hi. apply set_eq. intros j. rewrite elem_of_difference, elem_of_union, elem_of_singleton.
  split; [tauto |]. intros Hj. split; [by right |]. by intros ->.
Qed.

Lemma unlocked_out (i : nat) (L : gset nat) : i ∉ L ∖ {[i]}.
Proof. rewrite elem_of_difference, elem_of_singleton. tauto. Qed.

Lemma same_but_lock i (L L' D' : gset nat) (E : nat) (B : gmap K V) :
  (∀ j, j ≠ i → (j ∈ L' ↔ j ∈ L)) → same_but E i L D' B L' D' B.
Proof. intros HL j Hj. split; [by apply HL | done]. Qed.

Lemma runs_try_lock b (Q : option bool → Bucket K V → Prop) :
  locked b = false → killed b = false → Q (Some true) (set_locked true b) → runs try_lock b Q.
Proof. intros Hl Hk HQ. unfold try_lock. apply runs_load. rewrite Hk. apply runs_load. by rewrite Hl. Qed.

Lemma runs_lock b (Q : bool → Bucket K V → Prop) :
  locked b = false → killed b = false → Q true (set_locked true b) → runs lock b Q.
Proof. intros Hl Hk HQ. apply runs_bind. by apply runs_try_lock. Qed.

Lemma runs_reader_lock b (Q : bool → Bucket K V → Prop) :
  locked b = false → killed b = false → Q true (set_locked true b) → runs reader_lock b Q.
Proof.
  intros Hl Hk HQ. apply runs_bind. unfold reader_try_lock. apply runs_load. rewrite Hl. apply runs_load. by rewrite Hk.
Qed.

Lemma runs_lock_killed b (Q : bool → Bucket K V → Prop) : killed b = true → Q false b → runs lock b Q.
Proof. intros Hk HQ. apply runs_bind. unfold try_lock. apply runs_load. by rewrite Hk. Qed.

Lemma runs_try_lock_killed b (Q : option bool → Bucket K V → Prop) :
  killed b = true → Q (Some false) b → runs try_lock b Q.
Proof. intros Hk HQ. unfold try_lock. apply runs_load. by rewrite Hk. Qed.

Lemma runs_unlock b (Q : unit → Bucket K V → Prop) :
  locked b = true → Q () (set_locked false b) → runs unlock b Q.
Proof. intros Hl HQ. unfold unlock. apply runs_load. by rewrite Hl. Qed.

(** A change of the lock of a bucket of the current array. *)
Lemma tab_cur_lock i : (i < 2 ^ e)%nat →
  ∃ b h, get_bucket x i t = Some b ∧ bucket_ok (I - size Ao) (bool_decide (i ∈ Lx)) false (part e i A) h b ∧
    tab C ({[i]} ∪ Lx) Lo D A Ao w I ins outs (put_bucket x i (set_locked true b) t) ∧
    tab C (Lx ∖ {[i]}) Lo D A Ao w I ins outs (put_bucket x i (set_locked false b) t).
Proof.
  intros Hi. destruct (tab_cur i Hi) as (b & h & Hb & Hok & Hput). exists b, h. split; [done |]. split; [done |].
  split; apply (Hput _ A I h ins outs); try done; try apply (tab_disj _ _ _ _ _ _ _ _ _ _ _ Ht);
    try apply (tab_size _ _ _ _ _ _ _ _ _ _ _ Ht).
  - apply same_but_lock. intros j Hj. by apply elem_lock.
  - rewrite bool_decide_true by apply locked_in. by eapply bucket_ok_lock.
  - apply same_but_lock. intros j Hj. by apply elem_lock.
  - rewrite bool_decide_false by apply unlocked_out. by eapply bucket_ok_lock.
Qed.

Lemma tab_old_lock y i : o = Some y → (i < 2 ^ eo)%nat →
  ∃ b h, get_bucket y i t = Some b ∧
    bucket_ok I (bool_decide (i ∈ Lo)) (bool_decide (i ∈ D)) (part eo i Ao) h b ∧
    tab C Lx ({[i]} ∪ Lo) D A Ao w I ins outs (put_bucket y i (set_locked true b) t) ∧
    tab C Lx (Lo ∖ {[i]}) D A Ao w I ins outs (put_bucket y i (set_locked false b) t).
Proof.
  intros Ho Hi. destruct (tab_old y i Ho Hi) as (b & h & Hb & Hok & Hput). exists b, h. split; [done |]. split; [done |].
  split; apply (Hput _ D Ao I h ins outs); try done; try apply (tab_disj _ _ _ _ _ _ _ _ _ _ _ Ht);
    try apply (tab_size _ _ _ _ _ _ _ _ _ _ _ Ht).
  - apply same_but_lock. intros j Hj. by apply elem_lock.
  - rewrite bool_decide_true by apply locked_in. by eapply bucket_ok_lock.
  - apply same_but_lock. intros j Hj. by apply elem_lock.
  - rewrite bool_decide_false by apply unlocked_out. by eapply bucket_ok_lock.
Qed.

Lemma locked_of c (L : gset nat) i kl m h b :
  bucket_ok c (bool_decide (i ∈ L)) kl m h b → locked b = bool_decide (i ∈ L) ∧ killed b = kl.
Proof. by intros (cs & O & M & _ & _ & _ & _ & ? & ? & _). Qed.

Lemma runs_lock_bucket_cur tl i (Q : option bool → Table K V → Prop) :
  (i < 2 ^ e)%nat → i ∉ Lx →
  (∀ t', tab C ({[i]} ∪ Lx) Lo D A Ao w I ins outs t' →
     (∀ z j, z ≠ x ∨ j ≠ i → get_bucket z j t' = get_bucket z j t) → Q (Some true) t') →
  runs (lock_bucket tl x i) t Q.
Proof.
  intros Hi Hn HQ. destruct (tab_cur_lock i Hi) as (b & h & Hb & Hok & Hput & _).
  destruct (locked_of _ _ _ _ _ _ _ Hok) as [Hl Hk]. rewrite bool_decide_false in Hl by done.
  assert (HQ' : Q (Some true) (put_bucket x i (set_locked true b) t)).
  { apply HQ; [done |]. intros z j Hz. destruct (decide (z = x)) as [-> |]; [apply get_put_ne; destruct Hz; congruence | by apply get_put_other]. }
  unfold lock_bucket. destruct tl.
  - eapply runs_at_bucket; [done |]. by apply runs_try_lock.
  - apply runs_bind. eapply runs_at_bucket; [done |]. by apply runs_lock.
Qed.

Lemma runs_unlock_cur i (Q : unit → Table K V → Prop) :
  (i < 2 ^ e)%nat → i ∈ Lx →
  (∀ t', tab C (Lx ∖ {[i]}) Lo D A Ao w I ins outs t' →
     (∀ z j, z ≠ x ∨ j ≠ i → get_bucket z j t' = get_bucket z j t) → Q () t') →
  runs (at_bucket x i unlock) t Q.
Proof.
  intros Hi Hn HQ. destruct (tab_cur_lock i Hi) as (b & h & Hb & Hok & _ & Hput).
  destruct (locked_of _ _ _ _ _ _ _ Hok) as [Hl Hk]. rewrite bool_decide_true in Hl by done.
  eapply runs_at_bucket; [done |]. apply runs_unlock; [done |]. apply HQ; [done |].
  intros z j Hz. destruct (decide (z = x)) as [-> |]; [apply get_put_ne; destruct Hz; congruence | by apply get_put_other].
Qed.

Lemma runs_lock_bucket_old tl y i (Q : option bool → Table K V → Prop) :
  o = Some y → (i < 2 ^ eo)%nat → i ∉ Lo →
  (i ∈ D → Q (Some false) t) →
  (i ∉ D → ∀ t', tab C Lx ({[i]} ∪ Lo) D A Ao w I ins outs t' → Q (Some true) t') →
  runs (lock_bucket tl y i) t Q.
Proof.
  intros Ho Hi Hn HQk HQ. destruct (tab_old_lock y i Ho Hi) as (b & h & Hb & Hok & Hput & _).
  destruct (locked_of _ _ _ _ _ _ _ Hok) as [Hl Hk]. rewrite bool_decide_false in Hl by done.
  destruct (decide (i ∈ D)) as [HD | HD].
  - rewrite bool_decide_true in Hk by done.
    assert (HQ' : Q (Some false) (put_bucket y i b t)) by (rewrite part_put_get by done; auto).
    unfold lock_bucket. destruct tl; [| apply runs_bind]; (eapply runs_at_bucket; [done |]).
    + by apply runs_try_lock_killed.
    + by apply runs_lock_killed.
  - rewrite bool_decide_false in Hk by done.
    unfold lock_bucket. destruct tl; [| apply runs_bind]; (eapply runs_at_bucket; [done |]).
    + apply runs_try_lock; [done | done |]. auto.
    + apply runs_lock; [done | done |]. apply runs_ret. auto.
Qed.

Lemma runs_unlock_old y i (Q : unit → Table K V → Prop) :
  o = Some y → (i < 2 ^ eo)%nat → i ∈ Lo →
  (∀ t', tab C Lx (Lo ∖ {[i]}) D A Ao w I ins outs t' → Q () t') →
  runs (at_bucket y i unlock) t Q.
Proof.
  intros Ho Hi Hn HQ. destruct (tab_old_lock y i Ho Hi) as (b & h & Hb & Hok & _ & Hput).
  destruct (locked_of _ _ _ _ _ _ _ Hok) as [Hl Hk]. rewrite bool_decide_true in Hl by done.
  eapply runs_at_bucket; [done |]. apply runs_unlock; [done |]. by apply HQ.
Qed.
End Tab.
End Inv.
