(* ===== verification/TableRelocate.v ===== *)
(** * Relocation

    An entry of the old array moves to the bucket of the current array that its hash value
    selects; a bucket is killed when its last entry was moved.  The buckets that may get
    an entry of the bucket [i] are adjacent, and at most 32. *)
From S2P Require Import Prelude Atomic Tag Lru Bucket BucketInv BucketQuery BucketOps BucketSpec BucketLinks BucketDrop BucketIter BucketProps BucketArray Rehash HashTable TableInv.

Local Open Scope Z_scope.

Section Relocate.
Context {K V : Type} `{Countable K} (TYPE : bucket_type) (hash : K → Z) {allow : Refuses (Table K V)}.
Context (Hhash : ∀ k, in_word 64 (hash k)) (n : nat).

Implicit Types (A Ao : gmap K V) (b : Bucket K V) (t : Table K V) (C : config)
  (Lx Lo D : gset nat) (i j y I T R : nat) (h ins outs : list K).

Local Notation tab := (tab TYPE hash).
Local Notation bucket_ok := (bucket_ok TYPE hash).
Local Notation wf := (wf TYPE (phash hash)).
Local Notation idx := (idx hash).
Local Notation part := (part hash).

(** ** A step on two buckets *)

Lemma put_bucket_comm x y i j b b' t :
  x ≠ y → put_bucket x i b (put_bucket y j b' t) = put_bucket y j b' (put_bucket x i b t).
Proof.
  intros Hne. unfold put_bucket, set_arrays. cbn. f_equal. apply map_eq. intros z.
  destruct (decide (z = x)) as [-> | Hx]; [| destruct (decide (z = y)) as [-> | Hy]].
  - by rewrite lookup_alter_eq, (lookup_alter_ne _ _ y x), (lookup_alter_ne _ _ y x), lookup_alter_eq by congruence.
  - by rewrite lookup_alter_eq, (lookup_alter_ne _ _ x y), (lookup_alter_ne _ _ x y), lookup_alter_eq by congruence.
  - by rewrite !lookup_alter_ne by congruence.
Qed.

Lemma put_bucket_cloned x i b kvs t : put_bucket x i b (add_cloned kvs t) = add_cloned kvs (put_bucket x i b t).
Proof. done. Qed.

(** The entry of an old bucket goes to a bucket of the current array. *)
Lemma tab_move C Lx Lo D A Ao w I ins outs t y i j :
  tab C Lx Lo D A Ao w I ins outs t → old C = Some y → (i < 2 ^ old_exp C)%nat → (j < 2 ^ exp C)%nat →
  ∃ b h bj hj, get_bucket y i t = Some b ∧
    bucket_ok I (bool_decide (i ∈ Lo)) (bool_decide (i ∈ D)) (part (old_exp C) i Ao) h b ∧
    get_bucket (cur C) j t = Some bj ∧
    bucket_ok (I - size Ao) (bool_decide (j ∈ Lx)) false (part (exp C) j A) hj bj ∧
    ∀ A' Ao' h' hj' b' bj' kvs, same_but hash (exp C) j Lx ∅ A Lx ∅ A' →
      same_but hash (old_exp C) i Lo D Ao Lo D Ao' →
      bucket_ok (I - size Ao') (bool_decide (j ∈ Lx)) false (part (exp C) j A') hj' bj' →
      bucket_ok I (bool_decide (i ∈ Lo)) (bool_decide (i ∈ D)) (part (old_exp C) i Ao') h' b' →
      A' ##ₘ Ao' → (size Ao' ≤ size Ao)%nat → (size A' + size Ao' ≤ I)%nat →
      h' ++ hj' ≡ₚ h ++ hj ++ kvs.*1 →
      tab C Lx Lo D A' Ao' w I ins outs (put_bucket y i b' (put_bucket (cur C) j bj' (add_cloned kvs t))).
Proof.
  intros Ht Ho Hi Hj. pose proof (tab_old_ne _ _ Ht y Ho) as Hne.
  destruct (tab_hold _ _ _ _ _ _ _ _ _ _ _ _ _ Ht) as (hx & ho & hg & Hx & Hold & Hg & Hperm).
  rewrite Ho in Hold. cbn [old_arr] in Hold.
  destruct (arr_focus _ _ _ _ _ _ _ _ _ _ _ _ i Hold Hi) as (b & h & rest & Hb & Hok & Hh & Hput).
  destruct (arr_focus _ _ _ _ _ _ _ _ _ _ _ _ j Hx Hj) as (bj & hj & restj & Hbj & Hokj & Hhj & Hputj).
  rewrite bool_decide_empty in Hokj.
  exists b, h, bj, hj. split; [done |]. split; [done |]. split; [done |]. split; [done |].
  intros A' Ao' h' hj' b' bj' kvs Hs Hso Hok' Hok'' Hdisj Hsize Hsize' Hp.
  set (t' := put_bucket y i b' (put_bucket (cur C) j bj' (add_cloned kvs t))).
  assert (Harr : ∀ z, z ≠ y → z ≠ cur C → arrays t' !! z = arrays t !! z).
  { intros z Hzy Hzx. unfold t'. by rewrite !lookup_put_ne by done. }
  constructor.
  - exists (hj' ++ restj), (h' ++ rest), hg. split.
    { unfold t'. rewrite put_bucket_comm, !put_bucket_cloned by done.
      eapply arr_frame; [| apply (Hputj (I - size Ao')%nat Lx ∅ A' hj' bj'); [lia | done | by rewrite bool_decide_empty]].
      cbn [arrays add_cloned]. by rewrite !lookup_put_eq, lookup_put_ne by congruence. }
    split.
    { rewrite Ho. cbn [old_arr]. unfold t'.
      eapply arr_frame; [| apply (Hput I Lo D Ao' h' b'); [lia | done | done]].
      by rewrite !lookup_put_eq, lookup_put_ne by done. }
    split.
    { eapply (garbage_ok_frame _ _ _ _ t); [done | | exact Hg].
      intros z Hz. destruct (tab_garbage_ne _ _ Ht z Hz) as [Hz1 Hz2]. apply Harr; congruence. }
    cbn [disposed cloned t' put_bucket set_arrays add_cloned]. rewrite Hh, Hhj in Hperm. rewrite fmap_app.
    solve_perm.
  - apply (tab_ptr _ _ _ _ _ _ _ _ _ _ _ _ _ Ht).
  - apply (tab_min _ _ _ _ _ _ _ _ _ _ _ _ _ Ht).
  - apply (tab_ids _ _ _ _ _ _ _ _ _ _ _ _ _ Ht).
  - unfold t'. destruct Hx as (ax & Hax & _), Hold as (ao & Hao & _).
    rewrite !dom_put_bucket; [apply (tab_dom _ _ _ _ _ _ _ _ _ _ _ _ _ Ht) | |].
    + cbn. by rewrite Hax.
    + rewrite lookup_put_ne by done. cbn. by rewrite Hao.
  - done.
  - done.
Qed.

(** ** The target buckets *)

(** The buckets [T], ..., [T + k - 1]. *)
Definition range (T k : nat) : gset nat := list_to_set (seq T k).

Lemma elem_of_range T k j : j ∈ range T k ↔ (T ≤ j < T + k)%nat.
Proof. unfold range. rewrite elem_of_list_to_set, elem_of_seq. lia. Qed.

Lemma range_S T k : range T (S k) = {[(k + T)%nat]} ∪ range T k.
Proof.
  apply set_eq. intros j. rewrite elem_of_union, elem_of_singleton, !elem_of_range. lia.
Qed.

Lemma range_0 T : range T 0 = ∅.
Proof. done. Qed.

(** The keys of the old bucket [i] belong to the [R] buckets from [T] on. *)
Record targets C i T R : Prop := {
  tg_len : (1 ≤ R ≤ 32)%nat;
  tg_end : (T + R ≤ 2 ^ exp C)%nat;
  tg_key : ∀ k, idx (old_exp C) k = i → (T ≤ idx (exp C) k < T + R)%nat;
  tg_grow : (old_exp C < exp C)%nat → R = (2 ^ (exp C - old_exp C))%nat;
  tg_same : (exp C ≤ old_exp C)%nat → R = 1%nat
}.

Lemma runs_lock_targets C Lo D A Ao w I ins outs t T R tl offset mx :
  tab C (range T mx) Lo D A Ao w I ins outs t → (R ≤ 32)%nat → (T + R ≤ 2 ^ exp C)%nat →
  (offset < R)%nat → (mx ≤ R)%nat →
  runs (lock_targets tl (cur C) T offset mx) t (λ r t', ∃ mx', r = (mx', true) ∧ (mx' ≤ R)%nat ∧ (offset < mx')%nat ∧
    tab C (range T mx') Lo D A Ao w I ins outs t' ∧ ∀ z j, z ≠ cur C → get_bucket z j t' = get_bucket z j t).
Proof.
  intros Ht HR32 HR Ho Hmx. unfold lock_targets.
  assert (Hgen : ∀ fuel mx t1, (R < fuel + mx)%nat → (mx ≤ R)%nat → tab C (range T mx) Lo D A Ao w I ins outs t1 →
    (∀ z j, z ≠ cur C → get_bucket z j t1 = get_bucket z j t) →
    runs (loop fuel (λ max_index,
      if (max_index <=? offset)%nat then
        let! r := lock_bucket tl (cur C) (max_index + T)%nat in
        match r with
        | None => Ret (Break (max_index, false))
        | Some false => Panic
        | Some true =>
            if (max_index <? target_buckets_len)%nat then Ret (Continue (S max_index)) else Panic
        end
      else Ret (Break (max_index, true))) mx) t1 (λ r t', ∃ mx', r = (mx', true) ∧ (mx' ≤ R)%nat ∧ (offset < mx')%nat ∧
    tab C (range T mx') Lo D A Ao w I ins outs t' ∧ ∀ z j, z ≠ cur C → get_bucket z j t' = get_bucket z j t)).
  { clear Ht mx Hmx. induction fuel as [| fuel IH]; intros mx t1 Hf Hmx Ht Hfr; [lia |]. apply runs_loop.
    destruct (Nat.leb_spec mx offset) as [Hle | Hgt].
    - eapply runs_call; [eapply (runs_lock_bucket_cur _ _ Ht tl (mx + T) (λ r t', r = Some true ∧
        tab C (range T (S mx)) Lo D A Ao w I ins outs t' ∧ ∀ z j, z ≠ cur C → get_bucket z j t' = get_bucket z j t)) |].
      + lia.
      + rewrite elem_of_range. lia.
      + intros t' Ht' Hfr'. split; [done |]. split; [by rewrite range_S |]. intros z j Hz. rewrite Hfr' by (by left). by apply Hfr.
      + intros r t' (-> & Ht' & Hfr'). unfold target_buckets_len. rewrite (proj2 (Nat.ltb_lt mx 32)) by lia.
        apply runs_ret. apply IH; [lia | lia | done | done].
    - apply runs_ret. exists mx. split; [done |]. split; [done |]. split; [lia |]. done. }
  apply Hgen; [unfold target_buckets_len; lia | done | done | done].
Qed.

Lemma runs_unlock_targets C Lo D A Ao w I ins outs t T mx :
  tab C (range T mx) Lo D A Ao w I ins outs t → (T + mx ≤ 2 ^ exp C)%nat →
  runs (unlock_targets (cur C) T mx) t (λ _ t', tab C ∅ Lo D A Ao w I ins outs t' ∧
    ∀ z j, z ≠ cur C → get_bucket z j t' = get_bucket z j t).
Proof.
  intros Ht HR. unfold unlock_targets.
  apply (runs_for_each (λ l (_ : unit) s,
    tab C (range (length l + T) (mx - length l)) Lo D A Ao w I ins outs s ∧
    ∀ z j, z ≠ cur C → get_bucket z j s = get_bucket z j t)).
  - intros l1 i l2 [] s Hl [Hs Hfr].
    assert (Hi : i = length l1 ∧ (length l1 < mx)%nat).
    { pose proof (f_equal (λ l, l !! length l1) Hl) as Hlk. cbn in Hlk.
      rewrite list_lookup_middle in Hlk by done. apply lookup_seq in Hlk. lia. }
    destruct Hi as [-> Hi].
    eapply runs_call; [eapply (runs_unlock_cur _ _ Hs (length l1 + T) (λ _ t',
      tab C (range (length (l1 ++ [length l1]) + T) (mx - length (l1 ++ [length l1]))) Lo D A Ao w I ins outs t' ∧
      ∀ z j, z ≠ cur C → get_bucket z j t' = get_bucket z j t)); [lia | rewrite elem_of_range; lia |] |].
    + intros t' Ht' Hfr'. split.
      * rewrite length_app. cbn [length]. replace (range _ _) with (range (length l1 + T) (mx - length l1) ∖ {[(length l1 + T)%nat]}); [done |].
        apply set_eq. intros j. rewrite elem_of_difference, elem_of_singleton, !elem_of_range. lia.
      * intros z j Hz. rewrite Hfr' by (by left). by apply Hfr.
    + intros u t' Ht'. by apply runs_ret.
  - intros [] s [Hs Hfr]. split; [| done]. rewrite length_seq, Nat.sub_diag in Hs. exact Hs.
  - split; [| done]. cbn. by rewrite Nat.sub_0_r.
Qed.

(** ** One entry *)

Lemma pow_leb e e' : (2 ^ e <=? 2 ^ e')%nat = (e <=? e')%nat.
Proof.
  apply Bool.eq_iff_eq_true. rewrite !Nat.leb_le. symmetry. apply Nat.pow_le_mono_r_iff. lia.
Qed.

Lemma pow_div e e' : (e' ≤ e)%nat → (2 ^ e / 2 ^ e')%nat = (2 ^ (e - e'))%nat.
Proof.
  intros He. replace e with ((e - e') + e')%nat at 1 by lia. rewrite Nat.pow_add_r. apply Nat.div_mul.
  apply Nat.pow_nonzero. lia.
Qed.

Lemma runs_relocation_target C Lx Lo D A Ao w I ins outs t y i b cs O M q k v T R :
  tab C Lx Lo D A Ao w I ins outs t → old C = Some y → targets C i T R → idx (old_exp C) k = i →
  get_bucket y i t = Some b → wf b cs O M → M !! q = Some (k, v) →
  runs (relocation_target hash (cur C) y i T (ptr_of q) k) t (λ r t', t' = t ∧ r = (idx (exp C) k, phash hash k)).
Proof.
  intros Ht Ho Htg Hk Hb Hwf Hq.
  destruct (tab_array _ _ Ht) as (a & Ha & Hsh & _). destruct (tab_old_array _ _ Ht y Ho) as (ao & Hao & Hsho & _).
  unfold relocation_target. eapply runs_snapshot; [done |]. eapply runs_snapshot; [done |].
  unfold num_buckets. rewrite (sh_len _ _ Hsh), (sh_len _ _ Hsho), pow_leb, !(calculate_idx hash a (exp C) k Hsh).
  pose proof (tg_key _ _ _ _ Htg k Hk) as Hr.
  destruct (Nat.leb_spec (exp C) (old_exp C)) as [Hle | Hgt].
  - rewrite (tg_same _ _ _ _ Htg Hle) in Hr. apply runs_dassert; [apply Nat.eqb_eq; lia |].
    eapply (runs_read_bind _ _ _ _ _ b (λ r, r = phash hash k)); [exact Hb | |].
    + eapply runs_mono; [| by eapply runs_ptr_partial_hash]. by intros r b' [-> ->].
    + intros r ->. apply runs_ret. split; [done |]. f_equal. lia.
  - rewrite pow_div by lia. rewrite <-(tg_grow _ _ _ _ Htg Hgt).
    apply runs_dassert; [apply Nat.leb_le; lia |]. apply runs_dassert; [apply Nat.ltb_lt; lia |].
    by apply runs_ret.
Qed.

Lemma part_bucket_of E i A k v : part E i A !! k = Some v → idx E k = i ∧ A !! k = Some v.
Proof. rewrite lookup_part. case_decide; done. Qed.

Lemma same_but_insert E k v A L : same_but hash E (idx E k) L ∅ A L ∅ (<[k := v]> A).
Proof. intros j Hj. split; [done |]. split; [done |]. by apply part_insert_ne. Qed.

Lemma same_but_delete E k A L (D' : gset nat) : same_but hash E (idx E k) L D' A L D' (delete k A).
Proof. intros j Hj. split; [done |]. split; [done |]. by apply part_delete_ne. Qed.

(** A free slot of a bucket, and the insertion that follows. *)
Definition slot_free (b : Bucket K V) (slot : option (option nat * nat)) : Prop :=
  match slot with
  | Some (p, i) => ∃ m d, get_meta p b = Some m ∧ get_block p b = Some d ∧ (i < block_len p)%nat ∧
      bit (occupied_bitmap m) i = false
  | None => True
  end.

Lemma runs_free_slot_of c lk kl m h b :
  bucket_ok c lk kl m h b → (c < n)%nat → (Z.of_nat (size m) < u32_max) →
  runs (free_slot n) b (λ r b', b' = b ∧ slot_free b r).
Proof.
  intros (cs & O & M & Hwf & Hk & Hcs & _) Hc Hm.
  eapply runs_mono; [| eapply runs_free_slot; [exact Hwf | lia |]].
  - intros [[p i] |] b' [-> Hs]; done.
  - rewrite (wf_num _ _ _ _ _ _ Hwf), <-(keyed_size _ _ Hk). lia.
Qed.

Lemma runs_insert_ptr_of c lk m h b slot k v :
  bucket_ok c lk false m h b → slot_free b slot → (Z.of_nat (size m) < u32_max) → m !! k = None →
  runs (insert_at slot (phash hash k) (k, v)) b (λ r b', (∃ h',
    bucket_ok (S c) lk false (<[k := v]> m) h' b' ∧ h' ≡ₚ k :: h) ∧
    ∃ q cs O M, r = ptr_of q ∧ wf b' cs O M ∧ M !! q = Some (k, v)).
Proof.
  intros (cs & O & M & Hwf & Hk & Hcs & Hh & Hl & Hkl & _) Hs Hm Hkm.
  eapply runs_mono; [| eapply (runs_insert_at TYPE (phash hash) b cs O M); [done | | done |]].
  - intros r b' (q & cs' & Hr & HO & HM & Hwf' & (Hf1 & Hf2 & Hf3) & _ & Hcs'). split.
    2:{ exists q, cs', (<[q := (k, v)]> O), (<[q := (k, v)]> M). split; [done |]. split; [done |]. apply lookup_insert_eq. }
    exists (k :: h). split; [| done].
    exists cs', (<[q := (k, v)]> O), (<[q := (k, v)]> M). split; [done |]. split; [by apply keyed_insert |].
    split; [rewrite Hcs'; destruct slot; cbn; lia |].
    split; [rewrite (holds_insert b b' O q (k, v)) by done; by rewrite Hh |]. split; [by rewrite Hf2 |].
    split; [by rewrite Hf1 | done].
  - rewrite (wf_num _ _ _ _ _ _ Hwf), <-(keyed_size _ _ Hk). lia.
  - destruct slot as [[p i] |]; done.
Qed.

Lemma runs_insert_of c lk m h b slot k v :
  bucket_ok c lk false m h b → slot_free b slot → (Z.of_nat (size m) < u32_max) → m !! k = None →
  runs (insert_at slot (phash hash k) (k, v)) b (λ _ b', ∃ h',
    bucket_ok (S c) lk false (<[k := v]> m) h' b' ∧ h' ≡ₚ k :: h).
Proof.
  intros Hok Hs Hm Hk. eapply runs_mono; [| by eapply runs_insert_ptr_of]. by intros r b' [Hb' _].
Qed.

(** The entry is taken out of the old bucket: it is moved, or removed once a clone of it
    is in the new one. *)
Lemma runs_take_out c lk kl m h b cs O M q k v l :
  bucket_ok c lk kl m h b → kl = false → wf b cs O M → M !! q = Some (k, v) → ahead cs (ptr_of q) l →
  q ∉ entries_at M l →
  (TYPE = OPTIMISTIC → runs (erase TYPE (ptr_of q)) b (λ _ b', ∃ O',
     wf b' cs O' (delete q M) ∧ ahead cs (ptr_of q) l ∧ entries_at (delete q M) l = entries_at M l ∧
     bucket_ok c lk kl (delete k m) h b')) ∧
  (TYPE ≠ OPTIMISTIC → runs (extract TYPE (ptr_of q)) b (λ r b', r.1 = (k, v) ∧ ∃ cs' O' l' h',
     wf b' cs' O' (delete q M) ∧ (length cs' ≤ length cs)%nat ∧ ahead cs' r.2 l' ∧
     entries_at (delete q M) l' = entries_at M l ∧ bucket_ok c lk kl (delete k m) h' b' ∧ h ≡ₚ k :: h')).
Proof.
  intros Hok -> Hwf Hq Ha Hl. destruct (bucket_ok_wf _ _ _ _ _ _ _ _ _ _ _ Hok Hwf) as (Hk & Hcs & Hh & Hlk & Hkl).
  assert (He : entries_at (delete q M) l = entries_at M l).
  { apply entries_delete. intros Hin. apply Hl, elem_of_entries_at. eauto. }
  split; intros Ht.
  - eapply runs_mono; [| by eapply runs_erase]. intros r b' (_ & Hwf' & Hf1 & Hf2 & Hf3).
    rewrite decide_True in Hwf' by done. exists O. split; [done |]. split; [done |]. split; [done |].
    exists cs, O, (delete q M). split; [done |]. split; [by eapply keyed_delete |]. split; [done |].
    split; [by rewrite (holds_same b) |]. split; [by rewrite Hf2 |]. split; [by rewrite Hf1 | done].
  - eapply runs_mono; [| by eapply runs_extract].
    intros r b' (Hr & cs' & l' & Hwf' & (Hf1 & Hf2 & Hf3) & _ & Hlen & Ha' & Hl'). split; [done |].
    assert (HO : O !! q = Some (k, v)) by (eapply lookup_weaken; [done | by eapply wf_sub]).
    exists cs', (delete q O), l', (holds b' (delete q O)). split; [done |]. split; [done |]. split; [done |].
    split; [by rewrite Hl' |]. split; [| by rewrite Hh, (holds_delete b b' O q (k, v))].
    exists cs', (delete q O), (delete q M). split; [done |]. split; [by eapply keyed_delete |]. split; [lia |].
    split; [done |]. split; [by rewrite Hf2 |]. split; [by rewrite Hf1 | done].
Qed.

(** The insertion into the new bucket, with the entry taken out of the old one before (by
    the constructor) or after it. *)
Lemma runs_move_entry {X} (g : EntryPtr → X) C Lx Lo D A Ao w I ins outs t y i b cs O M q k v l :
  tab C Lx Lo D A Ao w I ins outs t → old C = Some y → (i < 2 ^ old_exp C)%nat →
  idx (old_exp C) k = i → (idx (exp C) k < 2 ^ exp C)%nat → (I < n)%nat → Z.of_nat I ≤ u32_max → i ∉ D →
  get_bucket y i t = Some b → wf b cs O M → ahead cs (ptr_of q) l → M !! q = Some (k, v) → q ∉ entries_at M l →
  runs (let entry_clone := try_clone TYPE (k, v) in
    Act (λ t, ((), add_cloned (option_list entry_clone) t)) Ret ;;
    let! r := insert_with (λ _, at_bucket (cur C) (idx (exp C) k)) n (phash hash k)
                (match entry_clone with
                 | Some kv => Ret (kv, ptr_of q)
                 | None => at_bucket y i (extract TYPE (ptr_of q))
                 end) in
    (if decide (TYPE = OPTIMISTIC) then at_bucket y i (erase TYPE r.2) ;; Ret () else Ret ()) ;;
    Ret (g r.2)) t
    (λ x t', ∃ ptr b' cs' O' l', x = g ptr ∧ get_bucket y i t' = Some b' ∧ wf b' cs' O' (delete q M) ∧
       (length cs' ≤ length cs)%nat ∧ ahead cs' ptr l' ∧ entries_at (delete q M) l' = entries_at M l ∧
       tab C Lx Lo D (<[k := v]> A) (delete k Ao) w I ins outs t').
Proof.
  intros Ht Ho Hi Hki Hj Hn Hmax HD Hb Hwf Ha Hq Hl. set (j := idx (exp C) k) in *.
  destruct (tab_move _ _ _ _ _ _ _ _ _ _ _ y i j Ht Ho Hi Hj) as (b0 & h & bj & hj & Hb0 & Hok & Hbj & Hokj & Hput).
  assert (b0 = b) as -> by congruence. clear Hb0.
  pose proof (tab_old_ne _ _ Ht y Ho) as Hne.
  destruct (bucket_ok_wf _ _ _ _ _ _ _ _ _ _ _ Hok Hwf) as (Hkey & _).
  assert (HAo : Ao !! k = Some v).
  { eapply part_bucket_of. apply (keyed_lookup _ _ Hkey). eauto. }
  assert (HA : A !! k = None).
  { eapply map_disjoint_Some_r; [apply (tab_disj _ _ _ _ _ _ _ _ _ _ _ _ _ Ht) | done]. }
  pose proof (tab_size _ _ _ _ _ _ _ _ _ _ _ _ _ Ht) as Hsize.
  assert (Hpos : (0 < size Ao)%nat).
  { destruct (decide (size Ao = 0%nat)) as [H0 |]; [| lia]. apply map_size_empty_iff in H0. subst Ao. by rewrite lookup_empty in HAo. }
  assert (Hsd : size (delete k Ao) = pred (size Ao)) by (apply map_size_delete_Some; eauto).
  assert (Hsi : size (<[k := v]> A) = S (size A)) by (by apply map_size_insert_None).
  pose proof (part_size hash (exp C) j A) as Hps.
  assert (Hpj : part (exp C) j A !! k = None) by (rewrite lookup_part, HA; by destruct (decide _)).
  assert (Hfin : ∀ h' hj' b' bj' kvs,
    bucket_ok I (bool_decide (i ∈ Lo)) (bool_decide (i ∈ D)) (delete k (part (old_exp C) i Ao)) h' b' →
    bucket_ok (S (I - size Ao)) (bool_decide (j ∈ Lx)) false (<[k := v]> (part (exp C) j A)) hj' bj' →
    h' ++ hj' ≡ₚ h ++ hj ++ kvs.*1 →
    tab C Lx Lo D (<[k := v]> A) (delete k Ao) w I ins outs (put_bucket y i b' (put_bucket (cur C) j bj' (add_cloned kvs t)))).
  { intros h' hj' b' bj' kvs Hok' Hokj' Hp. apply (Hput _ _ h' hj' b' bj' kvs).
    - apply same_but_insert.
    - rewrite <-Hki. apply same_but_delete.
    - unfold j. rewrite part_insert_eq. eapply bucket_ok_mono; [| exact Hokj']. lia.
    - rewrite <-Hki, part_delete_eq, Hki. exact Hok'.
    - apply map_disjoint_insert_l_2; [apply lookup_delete_eq |].
      eapply map_disjoint_weaken_r; [apply (tab_disj _ _ _ _ _ _ _ _ _ _ _ _ _ Ht) | apply delete_subseteq].
    - lia.
    - lia.
    - exact Hp. }
  destruct (runs_take_out _ _ _ _ _ _ _ _ _ _ _ _ _ Hok (bool_decide_false _ HD) Hwf Hq Ha Hl) as [Herase Hextract].
  unfold try_clone. destruct (decide (TYPE = OPTIMISTIC)) as [Ht0 | Ht0]; cbn [option_list]; apply runs_act; cbn [fst snd bind].
  - unfold insert_with. eapply runs_call.
    + eapply runs_read_bind; [exact Hbj | eapply runs_free_slot_of; [exact Hokj | lia | lia] |].
      intros slot Hslot. cbn [bind fst snd].
      eapply runs_at_bind; [exact Hbj | by eapply runs_insert_of; try done; lia |].
      intros ptr bj' Hins. apply runs_ret.
      instantiate (1 := λ r s, r.2 = ptr_of q ∧ ∃ bj' hj', s = put_bucket (cur C) j bj' (add_cloned [(k, v)] t) ∧
        bucket_ok (S (I - size Ao)) (bool_decide (j ∈ Lx)) false (<[k := v]> (part (exp C) j A)) hj' bj' ∧ hj' ≡ₚ k :: hj).
      destruct Hins as (hj' & ? & ?). split; [done |]. by exists bj', hj'.
    + intros [p1 p2] s (Hp & bj' & hj' & -> & Hokj' & Hhj'). cbn [snd] in *. subst p2.
      assert (Hb' : get_bucket y i (put_bucket (cur C) j bj' (add_cloned [(k, v)] t)) = Some b).
      { rewrite put_bucket_cloned. change (get_bucket y i (put_bucket (cur C) j bj' t) = Some b). by rewrite get_put_other. }
      apply runs_bind. eapply runs_at_bind; [exact Hb' | by apply Herase |].
      intros r b' (O' & Hwf' & Ha' & He & Hok'). apply runs_ret, runs_ret.
      exists (ptr_of q), b', cs, O', l. split; [done |]. split; [by eapply part_get_put |]. split; [done |]. split; [done |]. split; [done |].
      split; [done |]. eapply Hfin; [done | done |]. rewrite Hhj'. cbn. solve_perm.
  - unfold insert_with. eapply runs_call.
    + eapply runs_read_bind; [exact Hbj | eapply runs_free_slot_of; [exact Hokj | lia | lia] |].
      intros slot Hslot. eapply runs_at_bind; [exact Hb | by apply Hextract |].
      intros [kv ptr] b' (Hkv & Hex). cbn [fst snd] in *. subst kv.
      eapply runs_at_bind; [| by eapply runs_insert_of; try done; lia |].
      { rewrite get_put_other by done. exact Hbj. }
      intros ptr' bj' Hins. apply runs_ret.
      instantiate (1 := λ r s, ∃ b' bj' hj', s = put_bucket (cur C) j bj' (put_bucket y i b' (add_cloned [] t)) ∧
        (∃ cs' O' l' h', wf b' cs' O' (delete q M) ∧ (length cs' ≤ length cs)%nat ∧ ahead cs' r.2 l' ∧
           entries_at (delete q M) l' = entries_at M l ∧
           bucket_ok I (bool_decide (i ∈ Lo)) (bool_decide (i ∈ D)) (delete k (part (old_exp C) i Ao)) h' b' ∧ h ≡ₚ k :: h') ∧
        bucket_ok (S (I - size Ao)) (bool_decide (j ∈ Lx)) false (<[k := v]> (part (exp C) j A)) hj' bj' ∧ hj' ≡ₚ k :: hj).
      destruct Hins as (hj' & ? & ?). by exists b', bj', hj'.
    + intros [p1 ptr] s (b' & bj' & hj' & -> & (cs' & O' & l' & h' & Hwf' & Hlen & Ha' & He & Hok' & Hh') & Hokj' & Hhj').
      cbn [snd] in *. apply runs_ret. rewrite put_bucket_comm by done.
      exists ptr, b', cs', O', l'. split; [done |]. split.
      { eapply part_get_put. rewrite get_put_other by done. exact Hb. }
      split; [done |]. split; [done |]. split; [done |]. split; [done |].
      eapply Hfin; [done | done |]. rewrite Hhj', Hh'. cbn. solve_perm.
Qed.

Lemma runs_relocate_entry C T R mx Lo D A Ao w I ins outs t y i b cs O M q k v l tl :
  tab C (range T mx) Lo D A Ao w I ins outs t → old C = Some y → (i < 2 ^ old_exp C)%nat →
  targets C i T R → (mx ≤ R)%nat → (I < n)%nat → Z.of_nat I ≤ u32_max → i ∉ D →
  get_bucket y i t = Some b → wf b cs O M → ahead cs (ptr_of q) l → M !! q = Some (k, v) → q ∉ entries_at M l →
  runs (relocate_entry TYPE hash n tl (cur C) y i T (ptr_of q) mx) t
    (λ r t', ∃ ptr mx' b' cs' O' l', r = (Some ptr, mx') ∧ (mx' ≤ R)%nat ∧
       get_bucket y i t' = Some b' ∧ wf b' cs' O' (delete q M) ∧
       (length cs' ≤ length cs)%nat ∧ ahead cs' ptr l' ∧ entries_at (delete q M) l' = entries_at M l ∧
       tab C (range T mx') Lo D (<[k := v]> A) (delete k Ao) w I ins outs t').
Proof.
  intros Ht Ho Hi Htg Hmx Hn Hmax HD Hb Hwf Ha Hq Hl.
  destruct (tab_old _ _ Ht y i Ho Hi) as (b0 & h & Hb0 & Hok & _). assert (b0 = b) as -> by congruence.
  assert (Hki : idx (old_exp C) k = i).
  { destruct (bucket_ok_wf _ _ _ _ _ _ _ _ _ _ _ Hok Hwf) as (Hkey & _).
    eapply part_bucket_of. apply (keyed_lookup _ _ Hkey). eauto. }
  pose proof (tg_key _ _ _ _ Htg k Hki) as Hr. pose proof (tg_end _ _ _ _ Htg) as Hend.
  pose proof (tab_old_ne _ _ Ht y Ho) as Hne.
  unfold relocate_entry. eapply (runs_read_bind _ _ _ _ _ b (λ r, r = (k, v))); [exact Hb | |].
  { eapply runs_mono; [| by eapply runs_ptr_get]. by intros r b' [-> ->]. }
  intros r ->. eapply runs_call; [by eapply runs_relocation_target |]. intros r t1 [-> ->]. cbn [fst snd].
  eapply runs_call; [eapply (runs_lock_targets _ _ _ _ _ _ _ _ _ _ T R tl); [exact Ht | apply Htg | exact Hend | lia | exact Hmx] |].
  intros r t1 (mx' & -> & Hmx' & _ & Ht1 & Hfr). cbn [fst snd].
  eapply runs_mono; [| eapply (runs_move_entry (λ ptr, (Some ptr, mx'))); try done; [lia | by rewrite Hfr]].
  intros r t' (ptr & b' & cs' & O' & l' & -> & ?). exists ptr, mx', b', cs', O', l'. done.
Qed.

(** ** A bucket *)

(** The entries of the old bucket that were moved, [M] being those that are left. *)
Definition relocating C T R Lo D (w : Z) I ins outs y i (m Ao0 : gmap K V)
    (todo : list pos) (O M : gmap pos (K * V)) (mx : nat) t : Prop :=
  ∃ A Ao, tab C (range T mx) Lo D A Ao w I ins outs t ∧ (mx ≤ R)%nat ∧ A ∪ Ao = m ∧
    (∀ k, idx (old_exp C) k ≠ i → Ao !! k = Ao0 !! k) ∧ (∀ q, is_Some (M !! q) → q ∈ todo).

Lemma runs_relocate_loop C T R Lo D A Ao w I ins outs t y i tl :
  tab C ∅ Lo D A Ao w I ins outs t → old C = Some y → (i < 2 ^ old_exp C)%nat →
  targets C i T R → (I < n)%nat → Z.of_nat I ≤ u32_max → i ∉ D →
  runs (while_next_in TYPE (λ _, at_bucket y i) n
        (λ entry_ptr max_index,
          let! e := relocate_entry TYPE hash n tl (cur C) y i T entry_ptr max_index in
          match e.1 with
          | Some entry_ptr => Ret (Continue (entry_ptr, e.2))
          | None => Ret (Break (e.2, false))
          end) (λ max_index, (max_index, true)) 0%nat) t
    (λ r t', ∃ mx A' Ao', r = (mx, true) ∧ (mx ≤ R)%nat ∧ tab C (range T mx) Lo D A' Ao' w I ins outs t' ∧
       A' ∪ Ao' = A ∪ Ao ∧ Ao' = filter (λ x, idx (old_exp C) x.1 ≠ i) Ao).
Proof.
  intros Ht Ho Hi Htg Hn Hmax HD.
  destruct (tab_old _ _ Ht y i Ho Hi) as (b & h & Hb & (cs & O & M & Hwf & Hk & Hcs & _) & _).
  pose proof (part_size hash (old_exp C) i Ao) as Hps. rewrite (keyed_size _ _ Hk) in Hps.
  pose proof (tab_size _ _ _ _ _ _ _ _ _ _ _ _ _ Ht) as Hsize.
  eapply (runs_while_next_in TYPE (phash hash) (λ _, at_bucket y i) (λ s b, get_bucket y i s = Some b))
    with (I := relocating C T R Lo D w I ins outs y i (A ∪ Ao) Ao).
  - intros X p s b' Q Hs Hp. by eapply runs_read_bucket.
  - intros q todo s b1 cs1 O1 M1 mx l Hb1 Hwf1 Hlen Ha Htodo Hnd [[k v] Hq] (A1 & Ao1 & Ht1 & Hmx & Hm & Hoff & Hin).
    pose proof (proj1 (NoDup_cons _ _) Hnd) as [Hq' _]. rewrite <-Htodo in Hq'.
    eapply runs_call; [by eapply (runs_relocate_entry C T R mx) |].
    intros r t' (ptr & mx' & b' & cs' & O' & l' & -> & Hmx' & Hb' & Hwf' & Hlen' & Ha' & He & Ht').
    cbn [fst snd]. apply runs_ret. exists b', cs', O', (delete q M1), l'. split; [done |]. split; [done |].
    split; [done |]. split; [done |]. split; [by rewrite He |].
    destruct (tab_old _ _ Ht1 y i Ho Hi) as (b2 & h2 & Hb2 & Hok2 & _). assert (b2 = b1) as -> by congruence.
    destruct (bucket_ok_wf _ _ _ _ _ _ _ _ _ _ _ Hok2 Hwf1) as (Hkey & _).
    assert (Hk' : idx (old_exp C) k = i ∧ Ao1 !! k = Some v).
    { apply part_bucket_of. apply (keyed_lookup _ _ Hkey). eauto. }
    destruct Hk' as [Hki HAo]. exists (<[k := v]> A1), (delete k Ao1). split; [done |]. split; [done |]. split; [| split].
    + rewrite <-insert_union_l, insert_union_r, insert_delete_eq, insert_id; [done | done |].
      eapply map_disjoint_Some_r; [apply (tab_disj _ _ _ _ _ _ _ _ _ _ _ _ _ Ht1) | done].
    + intros k' Hk'. rewrite lookup_delete_ne by congruence. by apply Hoff.
    + intros q' [kv Hkv]. apply lookup_delete_Some in Hkv as [Hne Hkv].
      assert (Hi' : q' ∈ q :: todo) by (apply Hin; eauto). apply elem_of_cons in Hi' as [-> |]; done.
  - intros s b1 cs1 O1 M1 mx Hb1 Hwf1 _ (A1 & Ao1 & Ht1 & Hmx & Hm & Hoff & Hin).
    exists mx, A1, Ao1. split; [done |]. split; [done |]. split; [done |]. split; [done |].
    destruct (tab_old _ _ Ht1 y i Ho Hi) as (b2 & h2 & Hb2 & Hok2 & _). assert (b2 = b1) as -> by congruence.
    destruct (bucket_ok_wf _ _ _ _ _ _ _ _ _ _ _ Hok2 Hwf1) as (Hkey & _).
    apply map_eq. intros k. rewrite map_lookup_filter. destruct (decide (idx (old_exp C) k = i)) as [Hki | Hki].
    + replace (Ao1 !! k) with (@None V).
      * destruct (Ao !! k); by simplify_option_eq.
      * symmetry. destruct (Ao1 !! k) as [v |] eqn:Hv; [| done]. exfalso.
        assert (Hp : part (old_exp C) i Ao1 !! k = Some v) by (by rewrite lookup_part, decide_True).
        apply (keyed_lookup _ _ Hkey) in Hp as [q Hq]. assert (Hq' : q ∈ []) by (apply Hin; eauto).
        by apply elem_of_nil in Hq'.
    + rewrite Hoff by done. destruct (Ao !! k); by simplify_option_eq.
  - exact Hb.
  - exact Hwf.
  - lia.
  - lia.
  - exists A, Ao. rewrite range_0. split; [done |]. split; [lia |]. split; [done |]. split; [done |].
    intros q Hq. apply elem_of_entries_at. split; [done |]. destruct Hq as [kv Hq]. by eapply wf_positions.
Qed.

(** ** The whole bucket *)

Lemma idx_parent e e' k : (e ≤ e' ≤ 58)%nat → idx e k = (idx e' k / 2 ^ (e' - e))%nat.
Proof.
  intros He. pose proof (Hhash k) as Hk. unfold TableInv.idx, in_word in *. apply Nat2Z.inj.
  rewrite Nat2Z.inj_div, Nat2Z.inj_pow, !Z2Nat.id by (apply Z.div_pos; lia).
  change (Z.of_nat 2) with 2. rewrite Zdiv_Zdiv by lia. rewrite <-Z.pow_add_r by lia.
  do 3 f_equal. lia.
Qed.

(** [target_index] and the number of target buckets. *)
Definition target_index C i : nat :=
  if (exp C <=? old_exp C)%nat then (i / 2 ^ (old_exp C - exp C))%nat else (i * 2 ^ (exp C - old_exp C))%nat.
Definition target_count C : nat := if (exp C <=? old_exp C)%nat then 1%nat else (2 ^ (exp C - old_exp C))%nat.

Lemma targets_ok C i :
  (exp C ≤ 58)%nat → (old_exp C ≤ 58)%nat → (exp C ≤ old_exp C + 5)%nat → (i < 2 ^ old_exp C)%nat →
  targets C i (target_index C i) (target_count C).
Proof.
  intros He Heo Hr Hi. unfold target_index, target_count.
  destruct (Nat.leb_spec (exp C) (old_exp C)) as [Hle | Hgt].
  - pose proof (Nat.pow_nonzero 2 (old_exp C - exp C)) as Hp. constructor; [lia | | | lia | done].
    + assert (Hlt : (i / 2 ^ (old_exp C - exp C) < 2 ^ exp C)%nat); [| lia].
      apply Nat.Div0.div_lt_upper_bound. rewrite <-Nat.pow_add_r.
      by replace (old_exp C - exp C + exp C)%nat with (old_exp C) by lia.
    + intros k <-. rewrite (idx_parent (exp C) (old_exp C)) by lia. lia.
  - pose proof (Nat.pow_nonzero 2 (exp C - old_exp C)) as Hp.
    assert (H5 : (2 ^ (exp C - old_exp C) ≤ 2 ^ 5)%nat) by (apply Nat.pow_le_mono_r; lia).
    constructor; [cbn in H5; lia | | | done | lia].
    + replace (exp C) with (old_exp C + (exp C - old_exp C))%nat at 3 by lia. rewrite Nat.pow_add_r. nia.
    + intros k Hk. rewrite (idx_parent (old_exp C) (exp C)) in Hk by lia.
      set (p := (2 ^ (exp C - old_exp C))%nat) in *. subst i.
      pose proof (Nat.div_mod_eq (idx (exp C) k) p). pose proof (Nat.mod_upper_bound (idx (exp C) k) p ltac:(lia)). lia.
Qed.

Lemma killed_part C Lx Lo D A Ao w I ins outs t y i :
  tab C Lx Lo D A Ao w I ins outs t → old C = Some y → (i < 2 ^ old_exp C)%nat → i ∈ D →
  part (old_exp C) i Ao = ∅.
Proof.
  intros Ht Ho Hi HD. destruct (tab_old _ _ Ht y i Ho Hi) as (b & h & _ & (cs & O & M & _ & _ & _ & _ & _ & _ & Hkl) & _).
  apply Hkl. by rewrite bool_decide_true.
Qed.

Lemma vals_main O b cs M : wf b cs O M → vals (main_only O) ++ values_at O (linked_positions cs) ≡ₚ vals O.
Proof.
  intros Hwf. unfold vals. pose proof (NoDup_positions cs (wf_nodup _ _ _ _ _ _ Hwf)) as Hnd.
  rewrite <-(values_at_perm O (positions cs) Hnd).
  - unfold positions. rewrite values_at_app. apply Permutation_app_tail.
    rewrite <-(values_at_perm (main_only O) (from None 0)).
    + unfold values_at. replace (omap (λ q, main_only O !! q) (from None 0)) with (omap (λ q, O !! q) (from None 0)); [done |].
      apply list_omap_ext, Forall2_same_length_lookup. split; [done |]. intros i [p j] q' Hp [= <-]%(eq_trans (eq_sym Hp)).
      apply list_elem_of_lookup_2, elem_of_from in Hp as [-> _]. by rewrite (lookup_main_only (phash hash)).
    + apply NoDup_from.
    + intros [p j] kv Hp. rewrite (lookup_main_only (phash hash)) in Hp. destruct p; [done |].
      pose proof (wf_occ_positions _ _ _ _ _ _ _ _ Hwf Hp) as Hin.
      unfold positions in Hin. apply elem_of_app in Hin as [? | Hin]; [done |].
      apply elem_of_linked in Hin as (c & ? & _). done.
  - intros q kv Hq. by eapply wf_occ_positions.
Qed.

(** An empty bucket is killed. *)
Lemma runs_kill_ok c lk kl h b :
  bucket_ok c lk kl ∅ h b → (c < n)%nat →
  runs (kill TYPE n) b (λ _ b', bucket_ok c lk true ∅ h b').
Proof.
  intros (cs & O & M & Hwf & Hk & Hcs & Hh & Hl & _) Hc.
  assert (HM : M = ∅). { apply map_size_empty_iff. rewrite <-(keyed_size _ _ Hk). apply map_size_empty. }
  subst M. eapply runs_mono; [| eapply runs_kill; [exact Hwf | lia]].
  intros r b' (Hwf' & Hkl' & Hl' & Hd'). exists [], (main_only O), ∅.
  split; [done |]. split; [done |]. split; [cbn; lia |]. split; [| by rewrite Hl'].
  rewrite Hh. unfold holds. rewrite Hd'. apply fmap_Permutation. rewrite <-(vals_main O b cs ∅) by done.
  rewrite <-!app_assoc. apply Permutation_app_head, Permutation_app_comm.
Qed.

Lemma runs_kill_old C Lo D A Ao w I ins outs t y i :
  tab C ∅ Lo D A Ao w I ins outs t → old C = Some y → (i < 2 ^ old_exp C)%nat → (I < n)%nat →
  part (old_exp C) i Ao = ∅ →
  runs (at_bucket y i (kill TYPE n)) t (λ _ t', tab C ∅ Lo ({[i]} ∪ D) A Ao w I ins outs t').
Proof.
  intros Ht Ho Hi Hn Hp. destruct (tab_old _ _ Ht y i Ho Hi) as (b & h & Hb & Hok & Hput).
  rewrite Hp in Hok. eapply runs_at_bucket; [done |]. eapply runs_mono; [| by eapply runs_kill_ok].
  intros r b' Hok'. apply (Hput Lo ({[i]} ∪ D) Ao I h ins outs b'); try done.
  - intros j Hj. split; [done |]. split; [by apply elem_lock | done].
  - rewrite (bool_decide_true (i ∈ {[i]} ∪ D)) by apply locked_in. by rewrite Hp.
  - apply (tab_disj _ _ _ _ _ _ _ _ _ _ _ _ _ Ht).
  - apply (tab_size _ _ _ _ _ _ _ _ _ _ _ _ _ Ht).
Qed.

Lemma filter_part E i Ao : part E i (filter (λ x, idx E x.1 ≠ i) Ao) = ∅.
Proof.
  apply map_eq. intros k. rewrite lookup_part, lookup_empty. case_decide as Hk; [| done].
  rewrite map_lookup_filter. destruct (Ao !! k); by simplify_option_eq.
Qed.

Lemma filter_not_part E i Ao : part E i Ao = ∅ → filter (λ x, idx E x.1 ≠ i) Ao = Ao.
Proof.
  intros Hp. apply map_eq. intros k. rewrite map_lookup_filter. destruct (Ao !! k) as [v |] eqn:Hv; [| done].
  cbn. rewrite option_guard_True; [done |]. cbn. intros Hk.
  assert (Hpk : part E i Ao !! k = Some v) by (by rewrite lookup_part, decide_True).
  by rewrite Hp, lookup_empty in Hpk.
Qed.

Lemma runs_relocate_bucket C Lo D A Ao w I ins outs t y i tl :
  tab C ∅ Lo D A Ao w I ins outs t → old C = Some y → (i < 2 ^ old_exp C)%nat →
  (exp C ≤ old_exp C + 5)%nat → (I < n)%nat → Z.of_nat I ≤ u32_max → i ∉ D →
  runs (relocate_bucket TYPE hash n tl (cur C) y i) t (λ r t', r = Some () ∧
    ∃ A' Ao', tab C ∅ Lo ({[i]} ∪ D) A' Ao' w I ins outs t' ∧ A' ∪ Ao' = A ∪ Ao ∧ Ao' ⊆ Ao).
Proof.
  intros Ht Ho Hi Hr Hn Hmax HD.
  destruct (tab_array _ _ Ht) as (a & Ha & Hsh & _). destruct (tab_old_array _ _ Ht y Ho) as (ao & Hao & Hsho & _).
  pose proof (sh_log _ _ Hsh) as He. pose proof (sh_log _ _ Hsho) as Heo.
  destruct (tab_old _ _ Ht y i Ho Hi) as (b & h & Hb & Hok & _).
  destruct (locked_of _ _ _ _ _ _ _ _ _ Hok) as [_ Hkl]. pose proof (bucket_ok_num _ _ _ _ _ _ _ _ Hok) as Hnum.
  unfold relocate_bucket. eapply runs_bucket_load; [done |].
  apply runs_dassert; [by rewrite Hkl, bool_decide_false |].
  eapply runs_bucket_load; [done |]. rewrite Hnum. destruct (Z.eqb_spec (Z.of_nat (size (part (old_exp C) i Ao))) 0) as [H0 | H0].
  - assert (Hp : part (old_exp C) i Ao = ∅) by (apply map_size_empty_iff; lia).
    cbn [bind]. eapply runs_call; [by eapply runs_kill_old |]. intros u t' Ht'. apply runs_ret. split; [done |].
    exists A, Ao. done.
  - pose proof (targets_ok C i ltac:(lia) ltac:(lia) Hr Hi) as Htg.
    eapply runs_call; [eapply runs_snapshot; [done |]; eapply runs_snapshot; [done |] |].
    + unfold num_buckets. rewrite (sh_len _ _ Hsh), (sh_len _ _ Hsho), pow_leb.
      eapply runs_call; [instantiate (1 := λ r t', t' = t ∧ r = target_index C i) |].
      * unfold target_index. pose proof (tg_len _ _ _ _ Htg) as Hlen. unfold target_count in Hlen.
        destruct (Nat.leb_spec (exp C) (old_exp C)) as [Hle | Hgt].
        -- apply runs_ret. split; [done |]. by rewrite pow_div.
        -- rewrite pow_div by lia. apply runs_dassert; [apply Nat.leb_le; change BUCKET_LEN with 32%nat; lia |]. by apply runs_ret.
      * intros r t1 [-> ->]. eapply runs_call; [by eapply runs_relocate_loop |].
        intros r t1 (mx & A' & Ao' & -> & Hmx & Ht1 & Hm & HAo'). cbn [fst snd].
        eapply runs_call; [eapply runs_unlock_targets; [exact Ht1 | pose proof (tg_end _ _ _ _ Htg); lia] |].
        intros u t2 [Ht2 _]. apply runs_ret.
        instantiate (1 := λ r t', r = true ∧ ∃ A' Ao', tab C ∅ Lo D A' Ao' w I ins outs t' ∧ A' ∪ Ao' = A ∪ Ao ∧
          Ao' = filter (λ x, idx (old_exp C) x.1 ≠ i) Ao).
        split; [done |]. by exists A', Ao'.
    + intros r t' (-> & A' & Ao' & Ht' & Hm & ->).
      eapply runs_call; [eapply runs_kill_old; try done; apply filter_part |].
      intros u t2 Ht2. apply runs_ret. split; [done |]. eexists A', _. split; [exact Ht2 |]. split; [done |].
      apply map_filter_subseteq.
Qed.

Lemma runs_lock_and_relocate C D A Ao w I ins outs t y i tl :
  tab C ∅ ∅ D A Ao w I ins outs t → old C = Some y → (i < 2 ^ old_exp C)%nat →
  (exp C ≤ old_exp C + 5)%nat → (I < n)%nat → Z.of_nat I ≤ u32_max →
  runs (lock_and_relocate TYPE hash n tl (cur C) y i) t (λ r t', r = Some () ∧
    ∃ A' Ao', tab C ∅ ∅ ({[i]} ∪ D) A' Ao' w I ins outs t' ∧ A' ∪ Ao' = A ∪ Ao ∧ Ao' ⊆ Ao).
Proof.
  intros Ht Ho Hi Hr Hn Hmax. unfold lock_and_relocate.
  eapply runs_call; [eapply (runs_lock_bucket_old _ _ Ht tl y i (λ r t',
    (i ∈ D ∧ r = Some false ∧ t' = t) ∨ (i ∉ D ∧ r = Some true ∧ tab C ∅ ({[i]} ∪ ∅) D A Ao w I ins outs t'))) |];
    try done; [intros HD; left; done | intros HD t' Ht'; right; done |].
  intros r t1 [(HD & -> & ->) | (HD & -> & Ht1)].
  - apply runs_ret. split; [done |]. exists A, Ao. by rewrite lock_elem.
  - eapply runs_call; [by eapply runs_relocate_bucket |]. intros r t2 (-> & A' & Ao' & Ht2 & Hm & Hs).
    eapply runs_call; [eapply (runs_unlock_old _ _ Ht2 y i (λ _ t', tab C ∅ ∅ ({[i]} ∪ D) A' Ao' w I ins outs t')) |]; try done.
    + apply locked_in.
    + intros t' Ht'. by rewrite lock_restore in Ht' by apply not_elem_of_empty.
    + intros u t' Ht'. apply runs_ret. split; [done |]. by exists A', Ao'.
Qed.
End Relocate.
