(* ===== verification/TableRehash.v ===== *)
(** * Incremental rehashing

    [incremental_rehash] relocates 32 buckets, and drops the old array when all were
    relocated; [move_entry] also relocates the bucket of a key.  They keep the entries of
    the table. *)
From S2P Require Import Prelude Atomic Tag Lru Bucket BucketInv BucketArray Rehash HashTable TableInv TableRelocate.

Local Open Scope Z_scope.

(** ** The metadata of a thread alone *)

Lemma ref_cnt_low (j : nat) r : (0 <= r < 32) → ref_cnt (32 * Z.of_nat j + r) = r.
Proof.
  intros Hr. unfold ref_cnt. change (Z.of_nat BUCKET_LEN - 1) with (Z.ones 5). rewrite Z.land_ones by lia.
  change (2 ^ 5) with 32. rewrite (Z.mul_comm 32), Z.add_comm, Z.mod_add by lia. by apply Z.mod_small.
Qed.

Lemma claimed_low (j : nat) r : (0 <= r < 32) → 32 * Z.of_nat j + r < 2 ^ 64 → claimed (32 * Z.of_nat j + r) = 32 * Z.of_nat j.
Proof.
  intros Hr Hw. unfold claimed, unot. change (Z.of_nat BUCKET_LEN - 1) with (Z.ones 5).
  assert (Heq : Z.land (32 * Z.of_nat j + r) (Z.ldiff (Z.ones (Z.of_nat 64)) (Z.ones 5)) = Z.ldiff (32 * Z.of_nat j + r) (Z.ones 5)).
  { rewrite Z.ldiff_land, Z.land_assoc. rewrite Z.land_ones by lia. change (2 ^ Z.of_nat 64) with (2 ^ 64).
    rewrite Z.mod_small by lia. by rewrite Z.ldiff_land. }
  rewrite Heq, Z.ldiff_ones_r by lia. rewrite Z.shiftr_div_pow2, Z.shiftl_mul_pow2 by lia. change (2 ^ 5) with 32.
  rewrite (Z.mul_comm 32), Z.add_comm, Z.div_add, Z.div_small by lia. lia.
Qed.

Lemma ids_release (x y : nat) (g : list nat) :
  {[x]} ∪ list_to_set (x :: y :: g) = (list_to_set (x :: g ++ [y]) : gset nat).
Proof.
  apply set_eq. intros z.
  rewrite elem_of_union, elem_of_singleton, !elem_of_list_to_set, !elem_of_cons, elem_of_app, list_elem_of_singleton.
  tauto.
Qed.

Section Rehash.
Context {K V : Type} `{Countable K} (TYPE : bucket_type) (hash : K → Z) {allow : Refuses (Table K V)}.
Context (Hhash : ∀ k, in_word 64 (hash k)) (n : nat).

Implicit Types (A Ao : gmap K V) (b : Bucket K V) (t : Table K V) (C : config)
  (Lx Lo D : gset nat) (i j y I : nat) (w : Z) (h ins outs : list K).

Local Notation tab := (tab TYPE hash).
Local Notation idx := (idx hash).
Local Notation part := (part hash).

(** Between two operations no bucket is locked, and the buckets below the word are
    killed. *)
Record quiet C D A Ao w I ins outs t : Prop := {
  q_tab : tab C ∅ ∅ D A Ao w I ins outs t;
  q_ratio : (exp C ≤ old_exp C + 5)%nat;
  q_word : old C ≠ None → (∃ j, w = 32 * Z.of_nat j) ∧ w < 2 ^ Z.of_nat (old_exp C) ∧
    ∀ i, Z.of_nat i < w → i ∈ D
}.

(** The table without the old array. *)
Definition without_old C : config :=
  {| cur := cur C; exp := exp C; old := None; old_exp := exp C; tag := tag C; min_cap := min_cap C |}.

Lemma runs_rehash_claim (num : nat) w (j : nat) (a : BucketArray K V) :
  w = 32 * Z.of_nat j → w < Z.of_nat num → Z.of_nat num < 2 ^ 64 → num_cleared_buckets a = w → (0 < n)%nat →
  runs (rehash_claim num_cleared_buckets set_num_cleared_buckets n num) a
    (λ r a', r = Some w ∧ a' = set_num_cleared_buckets (w + 33) a).
Proof.
  intros Hj Hw Hnum Ha Hn. unfold rehash_claim. apply runs_load. destruct n as [| n']; [lia |].
  apply runs_loop. rewrite Ha.
  pose proof (ref_cnt_low j 0 ltac:(lia)) as Hr. rewrite Z.add_0_r, <-Hj in Hr. rewrite Hr.
  rewrite (proj2 (Z.leb_gt _ _)) by lia. change (0 =? Z.of_nat BUCKET_LEN - 1) with false. cbn [orb].
  apply runs_cas_weak; [done |]. apply runs_ret. split.
  - f_equal. rewrite <-(Z.add_0_r w) at 1. rewrite Hj at 1. rewrite claimed_low by lia. lia.
  - f_equal. change (Z.of_nat BUCKET_LEN) with 32. lia.
Qed.

Lemma runs_rehash_release (num : nat) w (j : nat) (a : BucketArray K V) :
  w = 32 * Z.of_nat j → w < Z.of_nat num → Z.of_nat num < 2 ^ 63 → num_cleared_buckets a = w + 33 →
  runs (rehash_release num_cleared_buckets set_num_cleared_buckets n num w true) a
    (λ r a', r = (Z.of_nat num <=? w + 32) ∧ a' = set_num_cleared_buckets (w + 32) a).
Proof.
  intros Hj Hw Hnum Ha. unfold rehash_release. apply runs_act. cbn [fst snd]. apply runs_ret. rewrite Ha.
  replace (w + 33 - 1) with (32 * Z.of_nat (S j) + 0) at 1 by lia. rewrite ref_cnt_low by lia.
  split; [cbn; f_equal; lia |]. f_equal. rewrite wrap_id; [lia |].
  unfold in_word. lia.
Qed.

(** ** Steps on the arrays *)

Lemma tab_set_word C Lx Lo D A Ao w w' I ins outs t y ao :
  tab C Lx Lo D A Ao w I ins outs t → old C = Some y → arrays t !! y = Some ao →
  tab C Lx Lo D A Ao w' I ins outs (put_array y (set_num_cleared_buckets w' ao) t).
Proof.
  intros Ht Ho Hao. pose proof (tab_old_ne _ _ Ht y Ho) as Hne.
  assert (Hf : ∀ z, z ≠ y → arrays (put_array y (set_num_cleared_buckets w' ao) t) !! z = arrays t !! z).
  { intros z Hz. cbn. by apply lookup_insert_ne. }
  assert (Hg' := λ z Hz, tab_garbage_ne _ _ Ht z Hz).
  destruct Ht as [(hx & ho & hg & Hx & Hold & Hg & Hperm) Hptr Hmin Hids Hdom Hdisj Hsize]. constructor; try done.
  - exists hx, ho, hg. split; [by eapply arr_frame; [apply Hf | exact Hx] |]. split.
    { rewrite Ho in Hold |- *. destruct Hold as (ao' & Hao' & Hok & Hoo & Hw).
      assert (ao' = ao) as -> by congruence. eexists. split; [apply lookup_insert_eq |].
      split; [| done]. pose proof (array_ok_fields _ _ _ _ _ _ _ _ _ (old_array ao) w' Hok) as Hok'.
      by destruct ao. }
    split; [| done]. eapply (garbage_ok_frame _ _ _ _ t); [done | | exact Hg]. intros z Hz. apply Hf.
    destruct (Hg' z Hz). congruence.
  - transitivity (dom (arrays t)); [| exact Hdom]. cbn [arrays put_array set_arrays]. rewrite dom_insert_L.
    apply subseteq_union_1_L. intros z ->%elem_of_singleton.
    apply elem_of_dom. by rewrite Hao.
Qed.

Lemma runs_at_old {R} C Lx Lo D A Ao w I ins outs t y (p : prog (BucketArray K V) R) Q (Q' : R → Prop) w' :
  tab C Lx Lo D A Ao w I ins outs t → old C = Some y →
  (∀ a, num_cleared_buckets a = w → runs p a (λ r a', Q' r ∧ a' = set_num_cleared_buckets w' a)) →
  (∀ r t', Q' r → tab C Lx Lo D A Ao w' I ins outs t' → Q r t') →
  runs (at_array y p) t Q.
Proof.
  intros Ht Ho Hp HQ. destruct (tab_old_array _ _ Ht y Ho) as (ao & Hao & _ & _ & Hw).
  eapply runs_at_array; [done |]. eapply runs_mono; [| by apply Hp]. intros r a' [Hr ->].
  apply HQ; [done |]. by eapply tab_set_word.
Qed.

(** All the buckets of the old array are killed. *)
Lemma all_killed C Lx Lo D A Ao w I ins outs t y :
  tab C Lx Lo D A Ao w I ins outs t → old C = Some y → (old_exp C ≤ 58)%nat →
  (∀ i, (i < 2 ^ old_exp C)%nat → i ∈ D) → Ao = ∅.
Proof.
  intros Ht Ho He HD. apply map_empty. intros k. destruct (Ao !! k) as [v |] eqn:Hk; [| done]. exfalso.
  pose proof (idx_lt hash (old_exp C) k Hhash He) as Hi.
  pose proof (killed_part _ _ _ _ _ _ _ _ _ _ _ _ _ _ _ Ht Ho Hi (HD _ Hi)) as Hp.
  assert (Hpk : part (old_exp C) (idx (old_exp C) k) Ao !! k = Some v) by (by rewrite lookup_part, decide_True).
  by rewrite Hp, lookup_empty in Hpk.
Qed.

(** The old array goes to the collector. *)
Lemma runs_drop_old_array C Lo D A Ao w I ins outs t y :
  tab C ∅ Lo D A Ao w I ins outs t → old C = Some y →
  (∀ i, (i < 2 ^ old_exp C)%nat → i ∈ D) → w = Z.max (2 ^ Z.of_nat (old_exp C)) 32 →
  runs (drop_old_array (cur C)) t (λ _ t', tab (without_old C) ∅ ∅ ∅ A ∅ 0 I ins outs t').
Proof.
  intros Ht Ho HD Hw. pose proof (tab_old_ne _ _ Ht y Ho) as Hne.
  destruct (tab_array _ _ Ht) as (a & Ha & Hsh & Hoa & Hwa).
  destruct (tab_old_array _ _ Ht y Ho) as (ao & Hao & Hsho & Hoo & Hwo).
  pose proof (sh_log _ _ Hsho) as He.
  assert (Ao = ∅) as -> by (eapply all_killed; [done | done | lia | done]).
  unfold drop_old_array. apply runs_bind. eapply runs_at_array; [done |].
  apply runs_act. cbn [fst snd]. apply runs_ret. rewrite Hoa, Ho.
  assert (Hao' : arrays (put_array (cur C) (set_old_array None a) t) !! y = Some ao).
  { cbn. by rewrite lookup_insert_ne by done. }
  eapply runs_snapshot; [done |]. rewrite Hwo, (sh_len _ _ Hsho), Hw. apply runs_dassert.
  { apply Z.eqb_eq. rewrite Nat2Z.inj_pow. done. }
  apply runs_load. apply runs_act. cbn [fst snd]. apply runs_ret.
  assert (Hg' := λ z Hz, tab_garbage_ne _ _ Ht z Hz).
  assert (Hids := tab_ids _ _ _ _ _ _ _ _ _ _ _ _ _ Ht). assert (Hdom := tab_dom _ _ _ _ _ _ _ _ _ _ _ _ _ Ht).
  destruct Ht as [(hx & ho & hg & Hx & Hold & Hg & Hperm) Hptr Hmin _ _ Hdisj Hsize].
  rewrite Ho in Hids, Hdom, Hold. cbn [option_list app old_arr] in Hids, Hdom, Hold.
  assert (Hf : ∀ z, z ≠ cur C → arrays (put_array (cur C) (set_old_array None a) t) !! z = arrays t !! z).
  { intros z Hz. cbn. by apply lookup_insert_ne. }
  constructor; cbn [cur exp old old_exp tag min_cap without_old option_list app].
  - exists hx, [], (hg ++ ho). split; [| split; [done | split]].
    + destruct Hx as (a' & Ha' & Hok & _ & _). assert (a' = a) as -> by congruence.
      eexists. split; [apply lookup_insert_eq |].
      split; [| done]. pose proof (array_ok_fields _ _ _ _ _ _ _ _ _ None (num_cleared_buckets a) Hok) as Hok'.
      by destruct a.
    + destruct (garbage_ok_frame TYPE hash I hg t (put_array (cur C) (set_old_array None a) t) eq_refl) as (hs & Hhs & Hhg); [| exact Hg |].
      { intros z Hz. apply Hf. by apply Hg'. }
      exists (hs ++ [ho]). split; [| by rewrite concat_app, Hhg; cbn; rewrite app_nil_r].
      apply Forall2_app; [exact Hhs |]. constructor; [| constructor].
      exists (old_exp C), Lo, D, w. split; [| intros; by apply HD].
      eapply arr_frame; [by apply Hf | exact Hold].
    + cbn [disposed cloned set_garbage put_array set_arrays]. solve_perm.
  - exact Hptr.
  - exact Hmin.
  - cbn [garbage set_garbage put_array set_arrays]. rewrite (Permutation_app_comm (garbage t) [y]).
    exact Hids.
  - cbn [garbage set_garbage put_array set_arrays arrays]. rewrite dom_insert_L, Hdom. apply ids_release.
  - apply map_disjoint_empty_r.
  - rewrite map_size_empty in *. exact Hsize.
Qed.

(** ** [incremental_rehash] *)

Context (I : nat) (Hn : (I < n)%nat) (Hmax : Z.of_nat I ≤ u32_max).

(** The table after some relocations, [D] being killed and [Ao] what is left. *)
Definition relocated C D A Ao w ins outs t : Prop :=
  ∃ D' A' Ao', tab C ∅ ∅ D' A' Ao' w I ins outs t ∧ D ⊆ D' ∧ A' ∪ Ao' = A ∪ Ao ∧ Ao' ⊆ Ao.

Lemma runs_relocate_range C D A Ao w ins outs t y tl l :
  tab C ∅ ∅ D A Ao w I ins outs t → old C = Some y → (exp C ≤ old_exp C + 5)%nat →
  (∀ i, i ∈ l → (i < 2 ^ old_exp C)%nat) →
  runs (for_each l (λ index _,
      let! r := lock_and_relocate TYPE hash n tl (cur C) y index in
      match r with Some _ => Ret (Continue ()) | None => Ret (Break ()) end) ()) t
    (λ r t', r = Continue () ∧ relocated C (list_to_set l ∪ D) A Ao w ins outs t').
Proof.
  intros Ht Ho Hr Hl.
  apply (runs_for_each (λ l1 (_ : unit) s, relocated C (list_to_set l1 ∪ D) A Ao w ins outs s)).
  - intros l1 i l2 [] s -> (D1 & A1 & Ao1 & Hs & HD & Hm & Hsub).
    eapply runs_call; [eapply (runs_lock_and_relocate _ _ Hhash n _ _ _ _ _ I _ _ _ y i tl); try done; apply Hl; set_solver |].
    intros r t' (-> & A' & Ao' & Ht' & Hm' & Hsub'). apply runs_ret. exists ({[i]} ∪ D1), A', Ao'.
    split; [done |]. split; [| split; [by rewrite Hm' | by transitivity Ao1]].
    intros j. rewrite !elem_of_union, list_to_set_app_L, elem_of_union, elem_of_singleton.
    specialize (HD j). rewrite elem_of_union in HD. rewrite !elem_of_list_to_set in *. rewrite list_elem_of_singleton. tauto.
  - intros [] s Hs. done.
  - exists D, A, Ao. split; [done |]. split; [| done]. intros j. rewrite elem_of_union.
    intros [Hj%elem_of_list_to_set%elem_of_nil |]; done.
Qed.

Lemma elem_of_rehash_range num w (j : nat) i :
  w = 32 * Z.of_nat j → i ∈ rehash_range num w ↔ w ≤ Z.of_nat i < w + 32 ∧ (i < num)%nat.
Proof.
  intros Hw. unfold rehash_range. rewrite elem_of_seq. change BUCKET_LEN with 32%nat. lia.
Qed.

Lemma pow_word (e : nat) w (j : nat) :
  w = 32 * Z.of_nat j → w < 2 ^ Z.of_nat e ≤ w + 32 → w + 32 = Z.max (2 ^ Z.of_nat e) 32.
Proof.
  intros Hw He. destruct (decide (e ≤ 5)%nat) as [Hle | Hgt].
  - assert (2 ^ Z.of_nat e ≤ 2 ^ 5) by (apply Z.pow_le_mono_r; lia). lia.
  - replace (Z.of_nat e) with (5 + Z.of_nat (e - 5)) in * by lia. rewrite Z.pow_add_r in * by lia. lia.
Qed.

Lemma runs_has_no_old C Lx Lo D A Ao w ins outs t :
  tab C Lx Lo D A Ao w I ins outs t →
  runs (has_no_old_array (cur C)) t (λ r t', t' = t ∧ r = Some (bool_decide (old C = None))).
Proof.
  intros Ht. destruct (tab_array _ _ Ht) as (a & Ha & _ & Ho & _). unfold has_no_old_array.
  eapply runs_array_load; [done |]. apply runs_ret. split; [done |]. unfold has_old_array.
  by rewrite Ho, negb_involutive.
Qed.

(** The result of a call: there is no old array any more, or there is still one. *)
Definition rehashed C D A Ao w ins outs (r : bool) t : Prop :=
  if r then old (without_old C) = None ∧ quiet (without_old C) ∅ (A ∪ Ao) ∅ 0 I ins outs t
  else old C ≠ None ∧ ∃ D' A' Ao', quiet C D' A' Ao' (w + 32) I ins outs t ∧ D ⊆ D' ∧
    A' ∪ Ao' = A ∪ Ao ∧ Ao' ⊆ Ao.

Lemma quiet_no_old C D A Ao w ins outs t :
  quiet C D A Ao w I ins outs t → old C = None →
  Ao = ∅ ∧ quiet (without_old C) ∅ (A ∪ Ao) ∅ 0 I ins outs t.
Proof.
  intros [Ht Hr _] Ho. destruct (tab_hold _ _ _ _ _ _ _ _ _ _ _ _ _ Ht) as (hx & ho & hg & Hx & Hold & Hg & Hperm).
  rewrite Ho in Hold. destruct Hold as [-> ->]. split; [done |]. rewrite map_union_empty.
  constructor; [| cbn; lia | done].
  destruct Ht as [_ Hptr Hmin Hids Hdom Hdisj Hsize]. rewrite Ho in *. constructor; try done.
  by exists hx, [], hg.
Qed.

Lemma runs_incremental_rehash C D A Ao w ins outs t tl :
  quiet C D A Ao w I ins outs t →
  runs (incremental_rehash TYPE hash n tl (cur C)) t (λ r t', ∃ r', r = Some r' ∧ rehashed C D A Ao w ins outs r' t').
Proof.
  intros Hq. pose proof Hq as [Ht Hr Hw]. destruct (tab_array _ _ Ht) as (a & Ha & _ & Hoa & _).
  unfold incremental_rehash. eapply runs_array_load; [done |]. rewrite Hoa.
  destruct (old C) as [y |] eqn:Ho.
  2:{ eapply runs_mono; [| by eapply runs_has_no_old]. intros r t' [-> ->]. exists true. rewrite bool_decide_true by done.
      split; [done |]. split; [done |]. by apply (quiet_no_old C D A Ao w). }
  destruct (Hw ltac:(done)) as ((j & Hj) & Hlt & HwD).
  destruct (tab_old_array _ _ Ht y Ho) as (ao & Hao & Hsho & _ & Hwo). pose proof (sh_log _ _ Hsho) as He.
  assert (Hp58 : 2 ^ Z.of_nat (old_exp C) ≤ 2 ^ 58) by (apply Z.pow_le_mono_r; lia).
  assert (Hnum : Z.of_nat (num_buckets ao) = 2 ^ Z.of_nat (old_exp C)).
  { unfold num_buckets. by rewrite (sh_len _ _ Hsho), Nat2Z.inj_pow. }
  eapply runs_snapshot; [done |].
  eapply runs_call; [eapply (runs_at_old C ∅ ∅ D A Ao w I ins outs t y _
    (λ r t', r = Some w ∧ tab C ∅ ∅ D A Ao (w + 33) I ins outs t') (λ r, r = Some w)); [done | done | | by intros r t' ? ?] |].
  { intros a' Ha'. eapply (runs_rehash_claim _ w j); [done | lia | lia | done | lia]. }
  intros r t1 [-> Ht1]. cbv beta iota.
  eapply runs_call; [eapply (runs_relocate_range C D A Ao (w + 33) ins outs t1 y tl); [done | done | done |] |].
  { intros i Hi. apply (elem_of_rehash_range _ _ j) in Hi as [_ Hi]; [| done].
    unfold num_buckets in Hi. by rewrite (sh_len _ _ Hsho) in Hi. }
  intros r t2 (-> & D2 & A2 & Ao2 & Ht2 & HD2 & Hm2 & Hsub2). cbv beta iota.
  eapply runs_call; [eapply (runs_at_old C ∅ ∅ D2 A2 Ao2 (w + 33) I ins outs t2 y _
    (λ r t', r = (2 ^ Z.of_nat (old_exp C) <=? w + 32) ∧ tab C ∅ ∅ D2 A2 Ao2 (w + 32) I ins outs t')
    (λ r, r = (2 ^ Z.of_nat (old_exp C) <=? w + 32))); [done | done | | by intros r t' ? ?] |].
  { intros a' Ha'. rewrite <-Hnum. eapply (runs_rehash_release _ w j); [done | lia | lia | done]. }
  intros r t3 [-> Ht3].
  assert (HD3 : ∀ i, Z.of_nat i < w + 32 → (i < 2 ^ old_exp C)%nat → i ∈ D2).
  { intros i Hi Hi2. apply HD2. apply elem_of_union. destruct (decide (Z.of_nat i < w)) as [Hlo | Hhi]; [right; by apply HwD |].
    left. apply elem_of_list_to_set, (elem_of_rehash_range _ _ j); [done |]. unfold num_buckets. rewrite (sh_len _ _ Hsho). lia. }
  assert (Hpn : Z.of_nat (2 ^ old_exp C) = 2 ^ Z.of_nat (old_exp C)) by (by rewrite Nat2Z.inj_pow).
  destruct (Z.leb_spec (2 ^ Z.of_nat (old_exp C)) (w + 32)) as [Hle | Hgt].
  - eapply runs_call; [eapply (runs_drop_old_array C ∅ D2 A2 Ao2 (w + 32)); [exact Ht3 | done | | by eapply pow_word] |].
    { intros i Hi. apply HD3; lia. }
    intros u t4 Ht4. assert (Ao2 = ∅) as ->.
    { eapply all_killed; [exact Ht3 | done | lia |]. intros i Hi. apply HD3; lia. }
    eapply runs_mono; [| eapply (runs_has_no_old (without_old C)); exact Ht4]. intros r t' [-> ->].
    exists true. rewrite bool_decide_true by done. split; [done |]. split; [done |].
    rewrite <-Hm2, map_union_empty. constructor; [done | cbn; lia | done].
  - apply runs_bind, runs_ret. eapply runs_mono; [| eapply (runs_has_no_old C); exact Ht3]. intros r t' [-> ->].
    exists false. rewrite Ho, bool_decide_false by done. split; [done |]. split; [by rewrite Ho |].
    exists D2, A2, Ao2. split; [| split; [| done]].
    + constructor; [done | done |]. intros _. split; [exists (S j); lia |]. split; [lia |].
      intros i Hi. apply HD3; lia.
    + intros i Hi. apply HD2. apply elem_of_union. by right.
Qed.

(** ** [move_entry] and [clear_old_array] *)

Lemma runs_move_entry_of C D A Ao w ins outs t y k :
  quiet C D A Ao w I ins outs t → old C = Some y →
  runs (move_entry TYPE hash n (cur C) y (hash k)) t (λ r t',
    (r = Some true ∧ quiet (without_old C) ∅ (A ∪ Ao) ∅ 0 I ins outs t') ∨
    (r = Some false ∧ ∃ D' A' Ao' w', quiet C D' A' Ao' w' I ins outs t' ∧ A' ∪ Ao' = A ∪ Ao ∧ Ao' !! k = None)).
Proof.
  intros Hq Ho. unfold move_entry. eapply runs_call; [by eapply runs_incremental_rehash |].
  intros r t1 ([|] & -> & Hr); cbv beta iota.
  - apply runs_ret. left. by destruct Hr as [_ ?].
  - destruct Hr as (_ & D1 & A1 & Ao1 & [Ht1 Hr1 Hw1] & HD1 & Hm1 & Hs1).
    destruct (tab_old_array _ _ Ht1 y Ho) as (ao & Hao & Hsho & _ & Hwo). pose proof (sh_log _ _ Hsho) as He.
    eapply runs_snapshot; [done |]. rewrite (calculate_idx hash ao (old_exp C) k Hsho).
    assert (Hi : (idx (old_exp C) k < 2 ^ old_exp C)%nat) by (apply idx_lt; [done | lia]).
    eapply runs_call; [by eapply runs_lock_and_relocate |].
    intros r t2 (-> & A2 & Ao2 & Ht2 & Hm2 & Hs2). apply runs_ret. right. split; [done |].
    exists ({[idx (old_exp C) k]} ∪ D1), A2, Ao2, (w + 32). split; [| split; [by rewrite Hm2 |]].
    + constructor; [done | done |]. intros Hne. destruct (Hw1 Hne) as (? & ? & HwD). split; [done |]. split; [done |].
      intros i Hi'. apply elem_of_union. right. by apply HwD.
    + pose proof (killed_part _ _ _ _ _ _ _ _ _ _ _ _ _ _ _ Ht2 Ho Hi (locked_in _ _)) as Hp.
      destruct (Ao2 !! k) as [v |] eqn:Hv; [| done]. exfalso.
      assert (Hpk : part (old_exp C) (idx (old_exp C) k) Ao2 !! k = Some v) by (by rewrite lookup_part, decide_True).
      by rewrite Hp, lookup_empty in Hpk.
Qed.

Lemma runs_clear_old_array C D A Ao w ins outs t :
  quiet C D A Ao w I ins outs t →
  runs (clear_old_array TYPE hash n (cur C)) t (λ _ t', quiet (without_old C) ∅ (A ∪ Ao) ∅ 0 I ins outs t').
Proof.
  intros Hq. pose proof Hq as [Ht Hr Hw]. destruct (tab_array _ _ Ht) as (a & Ha & _ & Hoa & _).
  unfold clear_old_array. eapply runs_array_load; [done |]. rewrite Hoa.
  assert (Hgen : ∀ fuel D A' Ao' w t, quiet C D A' Ao' w I ins outs t → A' ∪ Ao' = A ∪ Ao →
    (old C ≠ None → 2 ^ Z.of_nat (old_exp C) - w < 32 * Z.of_nat fuel) → (0 < fuel)%nat →
    runs (loop fuel (λ _ : unit,
      let! o := at_array (cur C) (load has_old_array) in
      if o : bool then
        let! r := incremental_rehash TYPE hash n false (cur C) in
        match r with Some true => Ret (Break ()) | _ => Ret (Continue ()) end
      else Ret (Break ())) ()) t (λ _ t', quiet (without_old C) ∅ (A ∪ Ao) ∅ 0 I ins outs t')).
  { clear Hq Ht Hr Hw Ha Hoa. clear D w t a. induction fuel as [| fuel IH]; intros D A' Ao' w t Hq Hm Hf Hpos; [lia |].
    pose proof Hq as [Ht Hr Hw]. destruct (tab_array _ _ Ht) as (a & Ha & _ & Hoa & _). apply runs_loop.
    eapply runs_array_load; [done |]. unfold has_old_array. rewrite Hoa.
    destruct (old C) as [y |] eqn:Ho.
    - rewrite bool_decide_false by done. cbn [negb]. eapply runs_call; [by eapply runs_incremental_rehash |].
      intros r t1 ([|] & -> & Hr1); apply runs_ret.
      + destruct Hr1 as [_ Hr1]. by rewrite Hm in Hr1.
      + destruct Hr1 as (_ & D1 & A1 & Ao1 & Hq1 & _ & Hm1 & _).
        specialize (Hf ltac:(done)). pose proof (q_word _ _ _ _ _ _ _ _ _ Hq1 ltac:(by rewrite Ho)) as (? & ? & _).
        eapply IH; [exact Hq1 | by rewrite Hm1 | intros _; lia | lia].
    - rewrite bool_decide_true by done. cbn [negb]. apply runs_ret. rewrite <-Hm. by eapply quiet_no_old. }
  destruct (old C) as [y |] eqn:Ho.
  - destruct (tab_old_array _ _ Ht y Ho) as (ao & Hao & Hsho & _ & Hwo). eapply runs_call.
    + eapply runs_snapshot; [done |]. apply runs_ret. instantiate (1 := λ r t', r = (2 ^ old_exp C)%nat ∧ t' = t).
      split; [| done]. unfold num_buckets. apply (sh_len _ _ Hsho).
    + intros r t' [-> ->]. eapply Hgen; [done | done | | lia]. intros Hne. destruct (Hw Hne) as ((j & ->) & _ & _).
      rewrite Nat2Z.inj_succ, Nat2Z.inj_pow. change (Z.of_nat 2) with 2.
      pose proof (Z.pow_pos_nonneg 2 (Z.of_nat (old_exp C))). lia.
  - apply runs_bind, runs_ret. eapply Hgen; [done | done | done | lia].
Qed.
End Rehash.
