(* ===== verification/TableResize.v ===== *)
(** * The sizes of a table, and resizing *)
From S2P Require Import Prelude Atomic Tag Lru Bucket BucketInv BucketArray Rehash HashTable TableInv TableRelocate TableRehash.

Local Open Scope Z_scope.

(** ** The sizes that the resize policy chooses

    A capacity is 32 times the number of buckets, a power of two.  The new one is at most
    32 times the old one, so that a bucket is spread over at most 32 buckets, is not above
    the maximum capacity, and not below the floor [F] that the minimum capacities set. *)

(** The capacity of [2 ^ e] buckets. *)
Definition capacity_of (e : nat) : Z := 2 ^ Z.of_nat (e + 5).

Lemma capacity_of_pos e : 0 < capacity_of e.
Proof. apply Z.pow_pos_nonneg; lia. Qed.

Lemma capacity_of_le e e' : (e ≤ e')%nat ↔ capacity_of e ≤ capacity_of e'.
Proof. unfold capacity_of. rewrite <-Z.pow_le_mono_r_iff by lia. lia. Qed.

Lemma capacity_of_add e j : capacity_of (e + j) = capacity_of e * 2 ^ Z.of_nat j.
Proof. unfold capacity_of. rewrite <-Z.pow_add_r by lia. f_equal. lia. Qed.

Lemma shape_capacity {K V} (a : BucketArray K V) e : shape a e → array_num_entries a = capacity_of e.
Proof.
  intros Hsh. unfold array_num_entries. rewrite (sh_len _ _ Hsh), Nat2Z.inj_mul, Nat2Z.inj_pow. unfold capacity_of.
  rewrite Nat2Z.inj_add, Z.pow_add_r by lia. done.
Qed.

Lemma npot_capacity x q : 2 ^ 5 < x → x ≤ 2 ^ q → ∃ e : nat,
  next_power_of_two x = capacity_of e ∧ x ≤ capacity_of e ∧ capacity_of e ≤ 2 ^ q ∧ (1 ≤ e)%nat.
Proof.
  intros Hx Hq. unfold next_power_of_two. pose proof (Z.log2_up_spec x ltac:(lia)) as [Hlo Hhi].
  assert (H5 : 5 < Z.log2_up x). { apply Z.log2_up_lt_pow2; lia. }
  exists (Z.to_nat (Z.log2_up x - 5)). unfold capacity_of.
  replace (Z.of_nat (Z.to_nat (Z.log2_up x - 5) + 5)) with (Z.log2_up x) by lia.
  split; [done |]. split; [lia |]. split; [| lia]. apply Z.pow_le_mono_r; [lia |].
  rewrite <-(Z.log2_up_pow2 q); [by apply Z.log2_up_le_mono |].
  destruct (Z.le_gt_cases 0 q); [done |]. rewrite Z.pow_neg_r in Hq; lia.
Qed.

(** ** Allocation *)

(** The array of a capacity that is a power of two has exactly that capacity. *)
Lemma array_new_exact {K V} (a : BucketArray K V) e e' :
  (1 ≤ e ≤ 58)%nat → shape a e' →
  adjusted_capacity (capacity_of e) ≤ array_num_entries a →
  ((2 ≤ e')%nat → array_num_entries a < 2 * adjusted_capacity (capacity_of e)) → e' = e.
Proof.
  intros He Hsh. rewrite (shape_capacity a e') by done. pose proof (sh_log _ _ Hsh) as He'.
  assert (Hadj : capacity_of e / 2 < adjusted_capacity (capacity_of e) ≤ capacity_of e).
  { unfold adjusted_capacity, usize_max, umax. change (Z.of_nat BUCKET_LEN) with 32.
    change ((2 ^ Z.of_nat 64 - 1) / 2 - (32 - 1)) with (2 ^ 63 - 32).
    assert (2 ^ 6 ≤ capacity_of e ≤ 2 ^ 63) by (unfold capacity_of; split; apply Z.pow_le_mono_r; lia).
    pose proof (Z.div_mod (capacity_of e) 2 ltac:(lia)). pose proof (Z.mod_pos_bound (capacity_of e) 2). lia. }
  assert (Hhalf : capacity_of e / 2 = capacity_of (e - 1)).
  { replace e with ((e - 1) + 1)%nat at 1 by lia. rewrite capacity_of_add. change (2 ^ Z.of_nat 1) with 2. apply Z.div_mul. lia. }
  intros Hlo Hhi. assert (Hge : (e ≤ e')%nat).
  { destruct (decide (e ≤ e')%nat) as [| Hn]; [done |]. exfalso.
    assert (capacity_of e' ≤ capacity_of (e - 1)) by (apply capacity_of_le; lia). lia. }
  destruct (decide (e' = e)) as [| Hne]; [done |]. exfalso. specialize (Hhi ltac:(lia)).
  assert (capacity_of (e + 1) ≤ capacity_of e') by (apply capacity_of_le; lia).
  rewrite capacity_of_add in *. change (2 ^ Z.of_nat 1) with 2 in *. lia.
Qed.

(** The first array of a table. *)
Lemma array_new_first {K V} (a : BucketArray K V) mn e k :
  0 ≤ mn → 64 ≤ 2 ^ k → mn ≤ 2 ^ k → k ≤ 63 → shape a e →
  adjusted_capacity mn ≤ array_num_entries a →
  ((2 ≤ e)%nat → array_num_entries a < 2 * adjusted_capacity mn) →
  Z.max 64 mn ≤ capacity_of e ≤ 2 ^ k.
Proof.
  intros Hmn Hk64 Hmk Hk Hsh. rewrite (shape_capacity a e) by done. pose proof (sh_log _ _ Hsh) as He.
  assert (Hk0 : 0 ≤ k) by (destruct (Z.le_gt_cases 0 k); [done |]; rewrite Z.pow_neg_r in Hk64; lia).
  assert (H63 : 2 ^ k ≤ 2 ^ 63) by (apply Z.pow_le_mono_r; lia).
  unfold adjusted_capacity, usize_max, umax. change (Z.of_nat BUCKET_LEN) with 32.
  change ((2 ^ Z.of_nat 64 - 1) / 2 - (32 - 1)) with (2 ^ 63 - 32). intros Hlo Hhi. split.
  - destruct (decide (Z.max mn 64 ≤ 2 ^ 63 - 32)) as [Hle | Hgt]; [lia |].
    assert (e = 58%nat) as ->; [| unfold capacity_of; change (2 ^ Z.of_nat (58 + 5)) with (2 ^ 63); lia].
    destruct (decide (e ≤ 57)%nat) as [Hle |]; [| lia].
    assert (capacity_of e ≤ 2 ^ 62) by (unfold capacity_of; apply Z.pow_le_mono_r; lia). lia.
  - destruct (decide (2 ≤ e)%nat) as [H2 | H1].
    + specialize (Hhi H2). assert (Hlt : capacity_of e < 2 ^ (k + 1)) by (rewrite Z.pow_add_r by lia; lia).
      unfold capacity_of in *. apply Z.pow_lt_mono_r_iff in Hlt; [| lia | lia]. apply Z.pow_le_mono_r; lia.
    + assert (e = 1%nat) as -> by lia. unfold capacity_of. cbn. lia.
Qed.

(** ** The policy *)

Section Choose.
Context {K V : Type} {allow : Refuses (Table K V)} (maximum_capacity : Z) (k : Z) (Hk : 6 ≤ k ≤ 63) (Hmaximum : maximum_capacity = 2 ^ k).

(** The floor [F], the minimum capacity and the capacity of the array. *)
Record caps (F mn : Z) (e : nat) : Prop := {
  cp_exp : (1 ≤ e)%nat;
  cp_floor : 64 ≤ F ≤ capacity_of e;
  cp_max : capacity_of e ≤ maximum_capacity;
  cp_min : 0 ≤ mn ∧ (F = 64 ∨ F ≤ mn) ∧ mn ≤ 32 * F ∧ mn ≤ maximum_capacity
}.

Lemma caps_exp F mn e : caps F mn e → (1 ≤ e ≤ 58)%nat.
Proof.
  intros [He _ Hm _]. split; [done |]. rewrite Hmaximum in Hm. unfold capacity_of in Hm.
  apply Z.pow_le_mono_r_iff in Hm; lia.
Qed.

Lemma runs_grow e est (t : Table K V) F mn :
  caps F mn e →
  runs (loop 7 (λ new_capacity,
        if new_capacity <=? est / 8 * 15 then
          if new_capacity =? maximum_capacity then Ret (Break new_capacity)
          else if new_capacity / capacity_of e =? 32 then Ret (Break new_capacity)
          else Ret (Continue (new_capacity * 2))
        else Ret (Break new_capacity)) (capacity_of e)) t
    (λ r t', t' = t ∧ ∃ e', r = capacity_of e' ∧ (e' ≤ e + 5)%nat ∧ caps F mn e').
Proof.
  intros Hc.
  assert (Hgen : ∀ fuel j, (6 < fuel + j)%nat → (j ≤ 5)%nat → caps F mn (e + j) →
    runs (loop fuel (λ new_capacity,
        if new_capacity <=? est / 8 * 15 then
          if new_capacity =? maximum_capacity then Ret (Break new_capacity)
          else if new_capacity / capacity_of e =? 32 then Ret (Break new_capacity)
          else Ret (Continue (new_capacity * 2))
        else Ret (Break new_capacity)) (capacity_of (e + j))) t
    (λ r t', t' = t ∧ ∃ e', r = capacity_of e' ∧ (e' ≤ e + 5)%nat ∧ caps F mn e')).
  { induction fuel as [| fuel IH]; intros j Hf Hj Hcj; [lia |]. apply runs_loop.
    assert (Hdone : t = t ∧ ∃ e', capacity_of (e + j) = capacity_of e' ∧ (e' ≤ e + 5)%nat ∧ caps F mn e').
    { split; [done |]. exists (e + j)%nat. split; [done |]. split; [lia | done]. }
    destruct (Z.leb_spec (capacity_of (e + j)) (est / 8 * 15)); [| by apply runs_ret].
    destruct (Z.eqb_spec (capacity_of (e + j)) maximum_capacity) as [| Hne]; [by apply runs_ret |].
    destruct (Z.eqb_spec (capacity_of (e + j) / capacity_of e) 32) as [| H32]; [by apply runs_ret |].
    apply runs_ret. replace (capacity_of (e + j) * 2) with (capacity_of (e + S j)).
    - assert (Hj5 : j ≠ 5%nat).
      { intros ->. apply H32. rewrite capacity_of_add. rewrite Z.mul_comm, Z.div_mul; [done |].
        pose proof (capacity_of_pos e). lia. }
      apply IH; [lia | lia |]. destruct Hcj as [He Hfl Hm Hmn]. constructor; [lia | | | done].
      + assert (capacity_of (e + j) ≤ capacity_of (e + S j)) by (apply capacity_of_le; lia). lia.
      + rewrite Hmaximum in *. unfold capacity_of in *.
        assert (Hlt : Z.of_nat (e + j + 5) < k); [| apply Z.pow_le_mono_r; lia].
        apply (Z.pow_lt_mono_r_iff 2); lia.
    - replace (e + S j)%nat with ((e + j) + 1)%nat by lia. by rewrite (capacity_of_add (e + j) 1). }
  specialize (Hgen 7%nat 0%nat). rewrite !Nat.add_0_r in Hgen. apply Hgen; [lia | lia | done].
Qed.

Lemma runs_choose_capacity e est (t : Table K V) F mn :
  caps F mn e →
  runs (choose_capacity maximum_capacity (capacity_of e) mn est) t
    (λ r t', t' = t ∧ ∃ e', r = capacity_of e' ∧ (e' ≤ e + 5)%nat ∧ caps F mn e').
Proof.
  intros Hc. assert (Hsame : t = t ∧ ∃ e', capacity_of e = capacity_of e' ∧ (e' ≤ e + 5)%nat ∧ caps F mn e').
  { split; [done |]. exists e. split; [done |]. split; [lia | done]. }
  unfold choose_capacity. destruct (Z.leb_spec (capacity_of e / 8 * 7) est); [| destruct (Z.leb_spec est (capacity_of e / 16)) as [Hle | Hgt]].
  - destruct (Z.eqb_spec (capacity_of e) maximum_capacity); [by apply runs_ret | by apply runs_grow].
  - change array_minimum_capacity with 64. destruct Hc as [He Hfl Hm (Hmn0 & HF & Hmn & Hmm)].
    pose proof (capacity_of_pos e) as Hpos.
    assert (H16 : capacity_of e / 16 ≤ capacity_of e) by (apply Z.div_le_upper_bound; lia).
    assert (Hmaxe : maximum_capacity < 2 ^ 64).
    { rewrite Hmaximum. apply Z.pow_lt_mono_r; lia. }
    destruct (npot_capacity (Z.max (Z.max est mn) 64) (Z.of_nat (e + 10))) as (e' & Hn & Hlo & Hhi & He'); [lia | |].
    { replace (Z.of_nat (e + 10)) with (Z.of_nat (e + 5) + 5) by lia. rewrite Z.pow_add_r by lia.
      change (2 ^ Z.of_nat (e + 5)) with (capacity_of e). lia. }
    destruct (npot_capacity (Z.max (Z.max est mn) 64) k) as (e2 & Hn2 & _ & Hhi2 & _); [lia | rewrite <-Hmaximum; lia |].
    rewrite <-Hn2, Hn in Hhi2. unfold checked_npot. rewrite Hn.
    rewrite (proj2 (Z.leb_le (capacity_of e') usize_max)) by (unfold usize_max, umax; change (Z.of_nat 64) with 64; lia).
    apply runs_ret. split; [done |]. exists e'. split; [done |]. split.
    + unfold capacity_of in Hhi. apply Z.pow_le_mono_r_iff in Hhi; lia.
    + constructor; [done | lia | lia |]. done.
  - by apply runs_ret.
Qed.
End Choose.

(** ** Resizing

    [try_resize] keeps the entries of the table: it does nothing, or allocates an array to
    which the current one becomes the old array, or drops an empty table. *)

Lemma seq_split (s len : nat) (l1 l2 : list nat) i :
  seq s len = l1 ++ i :: l2 → i = (s + length l1)%nat ∧ (length l1 < len)%nat.
Proof.
  intros Hl. pose proof (f_equal (λ l, l !! length l1) Hl) as Hlk. cbn in Hlk.
  rewrite list_lookup_middle in Hlk by done. apply lookup_seq in Hlk. lia.
Qed.

(** The table after a request for an array. *)
Definition after_request {K V : Type} (t : Table K V) : Table K V := set_requests (S (requests t)) t.

Section Resize.
Context {K V : Type} `{Countable K} (TYPE : bucket_type) (hash : K → Z) {allow : Refuses (Table K V)} {can : CanRefuse (Table K V)}.
Context (Hhash : ∀ k, in_word 64 (hash k)) (n : nat).
Context (maximum_capacity : Z) (k : Z) (Hk : 6 ≤ k ≤ 63) (Hmaximum : maximum_capacity = 2 ^ k).
Context (I : nat) (Hn : (I < n)%nat) (Hmax : Z.of_nat I ≤ u32_max).

Implicit Types (A Ao m : gmap K V) (b : Bucket K V) (t : Table K V) (C : config)
  (Lx Lo L D : gset nat) (i j y x e : nat) (w F mn : Z) (h ins outs : list K).

Local Notation tab := (tab TYPE hash).
Local Notation idx := (idx hash).
Local Notation part := (part hash).
Local Notation caps := (caps maximum_capacity).

(** A table without an array. *)
Record no_array mn ins outs t : Prop := {
  na_ptr : bucket_array t = (None, Tag.None);
  na_min : minimum_capacity t = mn;
  na_hold : ∃ hg, garbage_ok TYPE hash I hg t ∧ hg ++ (disposed t).*1 ++ outs ≡ₚ ins ++ (cloned t).*1;
  na_ids : NoDup (garbage t);
  na_dom : dom (arrays t) = list_to_set (garbage t)
}.

(** ** The tag *)

Definition with_tag (g : Tag.t) C : config :=
  {| cur := cur C; exp := exp C; old := old C; old_exp := old_exp C; tag := g; min_cap := min_cap C |}.

Lemma tab_set_tag g C Lx Lo D A Ao w ins outs t :
  tab C Lx Lo D A Ao w I ins outs t →
  tab (with_tag g C) Lx Lo D A Ao w I ins outs (set_bucket_array (Some (cur C), g) t).
Proof. intros [? ? ? ? ? ?]. by constructor. Qed.

Lemma with_tag_id C : with_tag (tag C) C = C.
Proof. by destruct C. Qed.

(** ** The end of an empty table *)

(** The array [x] of the table was released; the buckets in [D] are killed, and those in
    [L] are locked. *)
Record leaving x e L D mn ins outs t : Prop := {
  lv_ptr : bucket_array t = (None, Tag.None);
  lv_min : minimum_capacity t = mn;
  lv_hold : ∃ hx hg g, garbage t = g ++ [x] ∧ arr TYPE hash x e I L D ∅ hx None 0 t ∧
    (∃ hs, Forall2 (droppable TYPE hash I t) g hs ∧ hg ≡ₚ concat hs) ∧
    hx ++ hg ++ (disposed t).*1 ++ outs ≡ₚ ins ++ (cloned t).*1;
  lv_ids : NoDup (garbage t);
  lv_dom : dom (arrays t) = list_to_set (garbage t)
}.

Lemma leaving_no_array x e L D mn ins outs t : leaving x e L D mn ins outs t → no_array mn ins outs t.
Proof.
  intros [Hptr Hmin (hx & hg & g & Hg & Hx & (hs & Hhs & Hhg) & Hperm) Hids Hdom]. constructor; try done.
  exists (hg ++ hx). split; [| solve_perm]. exists (hs ++ [hx]). rewrite Hg. split.
  - apply Forall2_app; [done |]. constructor; [| constructor]. exists e, L, D, 0. split; [done | intros; lia].
  - by rewrite concat_app, Hhg; cbn; rewrite app_nil_r.
Qed.

Lemma droppable_frame c t t' y h : arrays t' !! y = arrays t !! y → droppable TYPE hash c t y h → droppable TYPE hash c t' y h.
Proof. intros Hf (e & L & D & w & Ha & HD). exists e, L, D, w. split; [| done]. by eapply arr_frame. Qed.

(** A step on a bucket of the array. *)
Lemma leaving_focus x e L D mn ins outs t i :
  leaving x e L D mn ins outs t → (i < 2 ^ e)%nat →
  ∃ b h, get_bucket x i t = Some b ∧
    bucket_ok TYPE hash I (bool_decide (i ∈ L)) (bool_decide (i ∈ D)) ∅ h b ∧
    ∀ L' D' h' b', (∀ j, j ≠ i → (j ∈ L' ↔ j ∈ L) ∧ (j ∈ D' ↔ j ∈ D)) →
      bucket_ok TYPE hash I (bool_decide (i ∈ L')) (bool_decide (i ∈ D')) ∅ h' b' → h' ≡ₚ h →
      leaving x e L' D' mn ins outs (put_bucket x i b' t).
Proof.
  intros [Hptr Hmin (hx & hg & g & Hg & Hx & (hs & Hhs & Hhg) & Hperm) Hids Hdom] Hi.
  destruct (arr_focus _ _ _ _ _ _ _ _ _ _ _ _ i Hx Hi) as (b & h & rest & Hb & Hok & Hh & Hput).
  rewrite part_empty in Hok. exists b, h. split; [done |]. split; [done |].
  intros L' D' h' b' Hs Hok' Hp. constructor; try done.
  - exists (h' ++ rest), hg, g. split; [done |]. split; [apply Hput; [lia | | by rewrite part_empty] |].
    { intros j Hj. destruct (Hs j Hj). split_and!; try done. }
    split; [| cbn [disposed cloned put_bucket set_arrays]; rewrite Hh in Hperm; solve_perm].
    exists hs. split; [| done]. eapply Forall2_in; [| exact Hhs]. intros y hy Hy. apply droppable_frame.
    apply lookup_put_ne. intros ->. rewrite Hg in Hids. apply NoDup_app in Hids as (_ & Hno & _).
    apply (Hno x Hy). by apply list_elem_of_singleton.
  - rewrite dom_put_bucket; [done |]. destruct Hx as (a & Ha & _). by rewrite Ha.
Qed.

Lemma runs_kill_unlock x e i mn ins outs t :
  leaving x e (range i (2 ^ e - i)) (range 0 i) mn ins outs t → (i < 2 ^ e)%nat →
  runs (at_bucket x i (kill TYPE n ;; unlock)) t (λ _ t',
    leaving x e (range (S i) (2 ^ e - S i)) (range 0 (S i)) mn ins outs t').
Proof.
  intros Hl Hi. destruct (leaving_focus _ _ _ _ _ _ _ _ i Hl Hi) as (b & h & Hb & Hok & Hput).
  rewrite (bool_decide_true (i ∈ range i _)) in Hok by (rewrite elem_of_range; lia).
  eapply runs_at_bucket; [done |]. eapply runs_call; [eapply runs_kill_ok; [exact Hok | lia] |].
  intros u b1 Hok1. pose proof Hok1 as (cs & O & M & _ & _ & _ & _ & Hlk & Hkl & _).
  apply runs_unlock; [done |]. apply (Hput _ _ h (set_locked false b1)).
  - intros j Hj. rewrite !elem_of_range. lia.
  - rewrite bool_decide_false by (rewrite elem_of_range; lia).
    rewrite bool_decide_true by (rewrite elem_of_range; lia). eapply bucket_ok_lock; exact Hok1.
  - done.
Qed.

(** The table [C], whose buckets are all empty and locked, is dropped. *)
Lemma tab_leaving C A Lo D w ins outs t (R : nat) :
  tab C (range 0 R) Lo D A ∅ w I ins outs t → old C = None → A = ∅ →
  leaving (cur C) (exp C) (range 0 R) ∅ (min_cap C) ins outs
    (set_garbage (garbage t ++ [cur C]) (set_bucket_array (None, Tag.None) t)).
Proof.
  intros [(hx & ho & hg & Hx & Hold & (hs & Hhs & Hhg) & Hperm) Hptr Hmin Hids Hdom _ _] Ho ->.
  rewrite Ho in *. destruct Hold as [_ ->]. rewrite map_size_empty, Nat.sub_0_r in Hx.
  cbn [option_list app] in *. constructor; try done.
  - exists hx, hg, (garbage t). split; [done |]. split; [exact Hx |]. split; [by exists hs |]. cbn. solve_perm.
  - cbn [garbage set_garbage]. rewrite (Permutation_app_comm (garbage t) [cur C]). exact Hids.
  - cbn [garbage set_garbage set_bucket_array arrays]. rewrite Hdom. apply set_eq. intros z.
    rewrite !elem_of_list_to_set, elem_of_cons, elem_of_app, list_elem_of_singleton. tauto.
Qed.

(** An array of which every bucket is empty. *)
Lemma all_parts_empty e A : (e ≤ 58)%nat → (∀ i, (i < 2 ^ e)%nat → part e i A = ∅) → A = ∅.
Proof.
  intros He Hp. apply map_empty. intros key. destruct (A !! key) as [v |] eqn:Hv; [| done]. exfalso.
  pose proof (idx_lt hash e key Hhash He) as Hi. specialize (Hp _ Hi).
  assert (Hpk : part e (idx e key) A !! key = Some v) by (by rewrite lookup_part, decide_True).
  by rewrite Hp, lookup_empty in Hpk.
Qed.

(** The locks are taken, until a bucket is not empty. *)
Lemma runs_lock_all C D A w ins outs t :
  tab C ∅ ∅ D A ∅ w I ins outs t →
  runs (for_each (seq 0 (2 ^ exp C)) (λ i (_ : unit),
    let! r := at_bucket (cur C) i reader_try_lock in
    match r with
    | Some true =>
        let! num := at_bucket (cur C) i (load num_entries) in
        if num =? 0 then Ret (Continue ()) else at_bucket (cur C) i unlock ;; Ret (Break i)
    | _ => Ret (Break i)
    end) ()) t
    (λ r t', match r with
             | Continue _ => tab C (range 0 (2 ^ exp C)) ∅ D A ∅ w I ins outs t' ∧
                 ∀ i, (i < 2 ^ exp C)%nat → part (exp C) i A = ∅
             | Break i => (i ≤ 2 ^ exp C)%nat ∧ tab C (range 0 i) ∅ D A ∅ w I ins outs t'
             end).
Proof.
  intros Ht.
  apply (runs_for_each (λ l (_ : unit) s, tab C (range 0 (length l)) ∅ D A ∅ w I ins outs s ∧
    ∀ i, (i < length l)%nat → part (exp C) i A = ∅)).
  - intros l1 i l2 [] s Hl [Hs Hp]. apply seq_split in Hl as [-> Hi]. cbn [Nat.add].
    destruct (tab_cur_lock _ _ Hs (length l1) Hi) as (b & h & Hb & Hok & Hput & _).
    destruct (locked_of _ _ _ _ _ _ _ _ _ Hok) as [Hlk Hkl].
    rewrite bool_decide_false in Hlk by (rewrite elem_of_range; lia).
    eapply (runs_at_bind _ _ _ _ _ b (λ r b', r = Some true ∧ b' = set_locked true b)); [exact Hb | |].
    { unfold reader_try_lock. apply runs_load. rewrite Hlk. apply runs_load. rewrite Hkl. done. }
    intros r b' [-> ->]. cbv beta iota.
    assert (Hb1 : get_bucket (cur C) (length l1) (put_bucket (cur C) (length l1) (set_locked true b) s) = Some (set_locked true b)).
    { by eapply part_get_put. }
    eapply runs_bucket_load; [exact Hb1 |]. cbn [num_entries set_locked]. rewrite (bucket_ok_num _ _ _ _ _ _ _ _ Hok).
    destruct (Z.eqb_spec (Z.of_nat (size (part (exp C) (length l1) A))) 0) as [H0 | H0].
    + apply runs_ret. rewrite length_app. cbn [length]. rewrite Nat.add_1_r, range_S, Nat.add_0_r. split; [exact Hput |].
      intros j Hj. destruct (decide (j = length l1)) as [-> | Hne]; [apply map_size_empty_iff; lia | apply Hp; lia].
    + apply runs_bind. eapply runs_at_bucket; [exact Hb1 |]. apply runs_unlock; [done |]. apply runs_ret.
      split; [lia |]. erewrite part_put_put by exact Hb.
      replace (set_locked false (set_locked true b)) with b; [by rewrite part_put_get |].
      destruct b; cbn in Hlk |- *. by rewrite Hlk.
  - intros [] s [Hs Hp]. rewrite length_seq in Hs, Hp. done.
  - split; [done |]. intros i Hi. cbn in Hi. lia.
Qed.

Lemma runs_unlock_all C Lo D A Ao w ins outs t R :
  tab C (range 0 R) Lo D A Ao w I ins outs t → (R ≤ 2 ^ exp C)%nat →
  runs (for_each (seq 0 R) (λ i (_ : unit), at_bucket (cur C) i unlock ;; Ret (Continue () : flow unit unit)) ()) t
    (λ _ t', tab C ∅ Lo D A Ao w I ins outs t').
Proof.
  intros Ht HR.
  apply (runs_for_each (λ l (_ : unit) s, tab C (range (length l) (R - length l)) Lo D A Ao w I ins outs s)).
  - intros l1 i l2 [] s Hl Hs. apply seq_split in Hl as [-> Hi]. cbn [Nat.add].
    eapply runs_call; [eapply (runs_unlock_cur _ _ Hs (length l1) (λ _ t',
      tab C (range (length (l1 ++ [length l1])) (R - length (l1 ++ [length l1]))) Lo D A Ao w I ins outs t')) |].
    + lia.
    + rewrite elem_of_range. lia.
    + intros t' Ht' _. rewrite length_app. cbn [length].
      replace (range (length l1 + 1) (R - (length l1 + 1))) with (range (length l1) (R - length l1) ∖ {[length l1]}); [done |].
      apply set_eq. intros j. rewrite elem_of_difference, elem_of_singleton, !elem_of_range. lia.
    + intros u t' Ht'. by apply runs_ret.
  - intros [] s Hs. rewrite length_seq, Nat.sub_diag in Hs. exact Hs.
  - cbn. by rewrite Nat.sub_0_r.
Qed.

Lemma runs_kill_all x e mn ins outs t :
  leaving x e (range 0 (2 ^ e)) ∅ mn ins outs t →
  runs (for_each (seq 0 (2 ^ e)) (λ i (_ : unit),
      at_bucket x i (kill TYPE n ;; unlock) ;; Ret (Continue () : flow unit unit)) ()) t
    (λ _ t', no_array mn ins outs t').
Proof.
  intros Hl.
  apply (runs_for_each (λ l (_ : unit) s, leaving x e (range (length l) (2 ^ e - length l)) (range 0 (length l)) mn ins outs s)).
  - intros l1 i l2 [] s Hl1 Hs. apply seq_split in Hl1 as [-> Hi]. cbn [Nat.add].
    eapply runs_call; [by eapply runs_kill_unlock |]. intros u t' Ht'. apply runs_ret.
    rewrite length_app. cbn [length]. by rewrite Nat.add_1_r.
  - intros [] s Hs. by eapply leaving_no_array.
  - cbn [length]. rewrite range_0, Nat.sub_0_r. exact Hl.
Qed.

(** Whether the table was dropped. *)
Lemma runs_try_drop_table C D A w ins outs t :
  tab C ∅ ∅ D A ∅ w I ins outs t → old C = None →
  runs (try_drop_table TYPE n (cur C) (2 ^ exp C)) t (λ r t',
    if r : bool then A = ∅ ∧ no_array (min_cap C) ins outs t' else tab C ∅ ∅ D A ∅ w I ins outs t').
Proof.
  intros Ht Ho. destruct (tab_array _ _ Ht) as (a & Ha & Hsh & _). pose proof (sh_log _ _ Hsh) as He.
  unfold try_drop_table. eapply runs_call; [by eapply runs_lock_all |].
  intros [[] | i] t1 Hr.
  - destruct Hr as [Ht1 Hp]. assert (A = ∅) as HA by (eapply all_parts_empty; [| done]; lia).
    apply runs_act. cbn [fst snd bind]. rewrite (tab_ptr _ _ _ _ _ _ _ _ _ _ _ _ _ Ht1).
    cbn [fst release_array]. apply runs_bind. apply runs_load. apply runs_act. cbn [fst snd]. apply runs_ret.
    eapply runs_call; [eapply runs_kill_all; exact (tab_leaving _ _ _ _ _ _ _ _ _ Ht1 Ho HA) |]. intros u t2 Ht2. by apply runs_ret.
  - destruct Hr as [Hi Ht1]. eapply runs_call; [by eapply runs_unlock_all |]. intros u t2 Ht2. by apply runs_ret.
Qed.

(** ** [try_resize] *)

(** The table [C] with a new array [x]; its own array is the old one. *)
Definition with_new x e C : config :=
  {| cur := x; exp := e; old := Some (cur C); old_exp := exp C; tag := Tag.None; min_cap := min_cap C |}.

Lemma runs_alloc_array capacity o t :
  runs (alloc_array capacity o) t (λ x t', ∃ a e, array_new (memory t) (requests t) capacity o = Allocated a ∧ array_ok TYPE hash e 0 ∅ ∅ ∅ [] a ∧
    old_array a = o ∧ num_cleared_buckets a = 0 ∧ adjusted_capacity capacity ≤ array_num_entries a ∧
    ((2 ≤ e)%nat → array_num_entries a < 2 * adjusted_capacity capacity) ∧
    x ∉ dom (arrays t) ∧ t' = put_array x a (after_request t)).
Proof.
  unfold alloc_array. apply runs_load, runs_act. cbn [fst snd bind].
  destruct (array_new_cases (K := K) (V := V) (memory t) (requests t) capacity o) as [-> | (a & _ & Hnew & _)]; [exact can |].
  rewrite Hnew. destruct (array_ok_new TYPE hash _ _ _ _ 0 _ Hnew) as (e & Hok & Ho & Hw & Hlo & Hhi).
  apply runs_act, runs_ret. exists a, e. split_and!; try done. apply (is_fresh (dom (arrays t))).
Qed.

Lemma tab_with_new C A w ins outs t x a e g :
  tab C ∅ ∅ ∅ A ∅ w I ins outs t → old C = None → x ∉ dom (arrays t) →
  array_ok TYPE hash e 0 ∅ ∅ ∅ [] a → old_array a = Some (cur C) → num_cleared_buckets a = 0 → g = Tag.None →
  tab (with_new x e C) ∅ ∅ ∅ ∅ A 0 I ins outs (set_bucket_array (Some x, g) (put_array x a (after_request t))).
Proof.
  intros [(hx & ho & hg & Hx & Hold & Hg & Hperm) Hptr Hmin Hids Hdom _ Hsize] Ho Hf Hok Hoa Hwa ->.
  rewrite Ho in *. destruct Hold as [_ ->]. rewrite map_size_empty, Nat.sub_0_r in Hx. rewrite map_size_empty in Hsize.
  cbn [option_list app] in *.
  assert (Hne : ∀ z, z ∈ cur C :: garbage t → z ≠ x).
  { intros z Hz ->. apply Hf. rewrite Hdom. by apply elem_of_list_to_set. }
  assert (Hfr : ∀ z, z ≠ x → arrays (put_array x a (after_request t)) !! z = arrays t !! z).
  { intros z Hz. cbn. by apply lookup_insert_ne. }
  constructor; cbn [cur exp old old_exp tag min_cap with_new option_list app].
  - exists [], hx, hg. split; [| split; [| split]].
    + exists a. split; [apply lookup_insert_eq |]. split; [| done]. eapply array_ok_mono; [| exact Hok]. lia.
    + cbn [old_arr]. eapply arr_frame; [| exact Hx]. apply Hfr, Hne. by left.
    + eapply (garbage_ok_frame _ _ _ _ t); [done | | exact Hg]. intros z Hz. apply Hfr, Hne. by right.
    + exact Hperm.
  - done.
  - exact Hmin.
  - apply NoDup_cons. split; [| exact Hids]. intros Hx'. by apply (Hne x).
  - cbn [arrays put_array set_arrays after_request set_requests set_bucket_array garbage]. by rewrite dom_insert_L, Hdom.
  - apply map_disjoint_empty_l.
  - rewrite map_size_empty. lia.
Qed.

(** What a call leaves: the table as it was, a table of which the array is the old one, or
    none. *)
Definition resized F C A ins outs t : Prop :=
  quiet TYPE hash C ∅ A ∅ 0 I ins outs t ∨
  (∃ x e, quiet TYPE hash (with_new x e C) ∅ ∅ A 0 I ins outs t ∧ caps F (min_cap C) e) ∨
  (A = ∅ ∧ no_array (min_cap C) ins outs t).

Lemma quiet_word C A w ins outs t :
  tab C ∅ ∅ ∅ A ∅ w I ins outs t → old C = None → (exp C ≤ old_exp C + 5)%nat → quiet TYPE hash C ∅ A ∅ 0 I ins outs t.
Proof.
  intros [(hx & ho & hg & Hx & Hold & Hg & Hperm) ? ? ? ? ? ?] Ho Hr. constructor; [| done | done].
  constructor; try done. exists hx, ho, hg. split; [done |]. split; [by rewrite Ho in * | done].
Qed.

(** The part that runs with the tag. *)
Lemma runs_resize_tagged F C A ins outs t e (try_drop try_resize : bool) :
  tab (with_tag Tag.First C) ∅ ∅ ∅ A ∅ 0 I ins outs t → old C = None → tag C = Tag.None →
  (exp C ≤ old_exp C + 5)%nat → (e ≤ exp C + 5)%nat → caps F (min_cap C) e →
  runs (let! gone := if try_drop then try_drop_table TYPE n (cur C) (2 ^ exp C) else Ret false in
        if gone : bool then Ret ()
        else if try_resize then
          let! p := load bucket_array in
          let! x := alloc_array (capacity_of e) p.1 in
          store set_bucket_array (Some x, Tag.None)
        else let! _ := fetch_modify bucket_array set_bucket_array (λ p, (p.1, Tag.None)) in Ret ()) t
    (λ _ t', resized F C A ins outs t').
Proof.
  intros Ht Ho Hg Hr He Hc. eapply (runs_call _ _ _ (λ r t', if r : bool then A = ∅ ∧ no_array (min_cap C) ins outs t'
    else tab (with_tag Tag.First C) ∅ ∅ ∅ A ∅ 0 I ins outs t')).
  { destruct try_drop; [| by apply runs_ret].
    apply (runs_try_drop_table (with_tag Tag.First C) ∅ A 0 ins outs t); [exact Ht | exact Ho]. }
  intros [|] t1 Ht1; cbv beta iota.
  { apply runs_ret. right. by right. }
  assert (Hptr := tab_ptr _ _ _ _ _ _ _ _ _ _ _ _ _ Ht1).
  destruct try_resize.
  - apply runs_load. rewrite Hptr. cbn [fst cur with_tag].
    eapply runs_call; [apply runs_alloc_array |].
    intros x t2 (a & e' & Hnew & Hok & Hoa & Hwa & Hlo & Hhi & Hf & ->).
    pose proof (caps_exp _ _ Hk Hmaximum _ _ _ Hc) as He58.
    assert (e' = e) as -> by (eapply array_new_exact; [done | by eapply array_ok_shape | done | done]).
    apply runs_act. cbn [fst snd]. apply runs_ret. right. left. exists x, e. split; [| done].
    pose proof (tab_with_new _ _ _ _ _ _ x a e Tag.None Ht1 Ho Hf Hok Hoa Hwa eq_refl) as Hnew'.
    constructor; [exact Hnew' | exact He |].
    intros _. split; [by exists 0%nat |]. split; [apply Z.pow_pos_nonneg; lia | intros; lia].
  - apply runs_act. cbn [fst snd bind]. rewrite Hptr. cbn [fst cur with_tag]. apply runs_ret. left.
    pose proof (tab_set_tag Tag.None _ _ _ _ _ _ _ _ _ _ Ht1) as Ht2.
    eapply quiet_word; [| exact Ho | exact Hr].
    replace C with (with_tag Tag.None (with_tag Tag.First C)); [exact Ht2 |]. destruct C; cbn in *. by subst.
Qed.

Lemma runs_try_resize F C A ins outs t (i : nat) :
  quiet TYPE hash C ∅ A ∅ 0 I ins outs t → old C = None → tag C = Tag.None → caps F (min_cap C) (exp C) →
  runs (try_resize TYPE maximum_capacity n i) t (λ _ t', resized F C A ins outs t').
Proof.
  intros Hq Ho Hg Hc. pose proof Hq as [Ht Hr _]. destruct (tab_array _ _ Ht) as (a & Ha & Hsh & Hoa & _).
  assert (Hptr := tab_ptr _ _ _ _ _ _ _ _ _ _ _ _ _ Ht).
  assert (Hsame : resized F C A ins outs t) by (by left).
  unfold try_resize. apply runs_load. rewrite Hptr, Hg. cbn [fst snd]. rewrite bool_decide_true by done. cbn [negb].
  eapply runs_snapshot; [exact Ha |]. unfold has_old_array. rewrite Hoa, Ho, bool_decide_true by done. cbn [negb].
  apply runs_load. rewrite (tab_min _ _ _ _ _ _ _ _ _ _ _ _ _ Ht), (shape_capacity a _ Hsh).
  eapply runs_call; [eapply (runs_choose_capacity maximum_capacity k Hk Hmaximum); exact Hc |].
  intros r t1 (-> & e & -> & He & Hce).
  destruct (_ || _ : bool); [| by apply runs_ret].
  apply runs_act. cbn [fst snd bind]. rewrite Hptr, Hg, decide_True by done. cbn [fst snd].
  replace (num_buckets a) with (2 ^ exp C)%nat by (symmetry; apply (sh_len _ _ Hsh)).
  eapply runs_resize_tagged; [| done | done | done | exact He | exact Hce].
  exact (tab_set_tag Tag.First _ _ _ _ _ _ _ _ _ _ Ht).
Qed.

(** There is an old array: nothing is done. *)
Lemma runs_try_resize_old C D A Ao w ins outs t (i : nat) (Q : unit → Table K V → Prop) :
  quiet TYPE hash C D A Ao w I ins outs t → old C ≠ None → Q () t →
  runs (try_resize TYPE maximum_capacity n i) t Q.
Proof.
  intros [Ht _ _] Ho HQ. destruct (tab_array _ _ Ht) as (a & Ha & Hsh & Hoa & _).
  unfold try_resize. apply runs_load. rewrite (tab_ptr _ _ _ _ _ _ _ _ _ _ _ _ _ Ht). cbn [fst snd].
  destruct (bool_decide _); cbn [negb]; [| by apply runs_ret].
  eapply runs_snapshot; [exact Ha |]. unfold has_old_array. rewrite Hoa, bool_decide_false by done. by apply runs_ret.
Qed.

Lemma runs_try_resize_none mn ins outs t (i : nat) (Q : unit → Table K V → Prop) :
  no_array mn ins outs t → Q () t → runs (try_resize TYPE maximum_capacity n i) t Q.
Proof. intros [Hptr _ _ _ _] HQ. unfold try_resize. apply runs_load. rewrite Hptr. by apply runs_ret. Qed.
End Resize.
