(* ===== verification/TableOps.v ===== *)
(** * The operations of the hash table on one key

    Between two operations a table is [live]: it has no array, or no bucket is locked.  An
    operation on a key works in the bucket of the key, which is one of the current array, or
    one of the old array if the operation itself had the table enlarged. *)
From S2P Require Import Prelude Atomic Tag Lru Bucket BucketInv BucketQuery BucketOps BucketSpec BucketLinks BucketDrop BucketIter BucketProps BucketArray Rehash HashTable TableInv TableRelocate TableRehash TableResize.

Local Open Scope Z_scope.

Section Ops.
Context {K V : Type} `{Countable K} (TYPE : bucket_type) (hash : K → Z) {allow : Refuses (Table K V)} {can : CanRefuse (Table K V)}.
Context (Hhash : ∀ k, in_word 64 (hash k)) (n : nat).
Context (maximum_capacity : Z) (kmax : Z) (Hk : 6 ≤ kmax ≤ 63) (Hmaximum : maximum_capacity = 2 ^ kmax).
Context (F : Z).

Implicit Types (A Ao m mb : gmap K V) (b : Bucket K V) (t : Table K V) (C : config)
  (Lx Lo D : gset nat) (i j x y I c : nat) (w mn : Z) (h ins outs : list K) (k : K) (v : V) (o : option V) (lk : bool).

Local Notation tab := (tab TYPE hash).
Local Notation quiet := (quiet TYPE hash).
Local Notation bucket_ok := (bucket_ok TYPE hash).
Local Notation wf := (wf TYPE (phash hash)).
Local Notation idx := (idx hash).
Local Notation part := (part hash).
Local Notation caps := (caps maximum_capacity).
Local Notation no_array := (no_array TYPE hash).

(** The minimum capacities for which the policy is safe: at most 32 times the floor. *)
Record limits mn : Prop := {
  lm_floor : 64 ≤ F ≤ maximum_capacity;
  lm_min : 0 ≤ mn ∧ (F = 64 ∨ F ≤ mn) ∧ mn ≤ 32 * F ∧ mn ≤ maximum_capacity
}.

(** The number of insertions: within the fuel, and within a [u32]. *)
Definition budget I : Prop := (I < n)%nat ∧ Z.of_nat I ≤ u32_max.

(** The table [C] with the entries [m], of which [Ao] are in the old array. *)
Record steady C Lx Lo D A Ao w I mn m ins outs t : Prop := {
  st_tab : tab C Lx Lo D A Ao w I ins outs t;
  st_ratio : (exp C ≤ old_exp C + 5)%nat;
  st_word : old C ≠ None → (∃ j, w = 32 * Z.of_nat j) ∧ w < 2 ^ Z.of_nat (old_exp C) ∧ ∀ i, Z.of_nat i < w → i ∈ D;
  st_map : A ∪ Ao = m;
  st_tag : tag C = Tag.None;
  st_min : min_cap C = mn;
  st_caps : caps F mn (exp C)
}.

(** Between two operations. *)
Inductive live I mn m ins outs t : Prop :=
  | live_none : no_array I mn ins outs t → m = ∅ → limits mn → live I mn m ins outs t
  | live_array C D A Ao w : steady C ∅ ∅ D A Ao w I mn m ins outs t → live I mn m ins outs t.

Lemma steady_quiet C D A Ao w I mn m ins outs t :
  steady C ∅ ∅ D A Ao w I mn m ins outs t → quiet C D A Ao w I ins outs t.
Proof. intros [? ? ? _ _ _ _]. by constructor. Qed.

Lemma quiet_steady C D A Ao w I mn m ins outs t :
  quiet C D A Ao w I ins outs t → A ∪ Ao = m → tag C = Tag.None → min_cap C = mn → caps F mn (exp C) →
  steady C ∅ ∅ D A Ao w I mn m ins outs t.
Proof. intros [? ? ?]. by constructor. Qed.

Lemma caps_limits mn e : caps F mn e → limits mn.
Proof. intros [? ? ? ?]. constructor; [lia | done]. Qed.

Lemma steady_limits C Lx Lo D A Ao w I mn m ins outs t : steady C Lx Lo D A Ao w I mn m ins outs t → limits mn.
Proof. intros Hs. eapply caps_limits, st_caps, Hs. Qed.

Lemma live_limits I mn m ins outs t : live I mn m ins outs t → limits mn.
Proof. intros [? ? ? | ? ? ? ? ? Hs]; [done | by eapply steady_limits]. Qed.

Lemma steady_exp C Lx Lo D A Ao w I mn m ins outs t :
  steady C Lx Lo D A Ao w I mn m ins outs t → (exp C ≤ 58)%nat.
Proof. intros Hs. by destruct (caps_exp _ _ Hk Hmaximum _ _ _ (st_caps _ _ _ _ _ _ _ _ _ _ _ _ _ Hs)). Qed.

Lemma steady_old_exp C Lx Lo D A Ao w I mn m ins outs t y :
  steady C Lx Lo D A Ao w I mn m ins outs t → old C = Some y → (old_exp C ≤ 58)%nat.
Proof.
  intros Hs Ho. destruct (tab_old_array _ _ (st_tab _ _ _ _ _ _ _ _ _ _ _ _ _ Hs) y Ho) as (a & _ & Hsh & _).
  pose proof (sh_log _ _ Hsh). lia.
Qed.

Lemma steady_no_old C Lx Lo D A Ao w I mn m ins outs t :
  steady C Lx Lo D A Ao w I mn m ins outs t → old C = None → Ao = ∅ ∧ A = m.
Proof.
  intros Hs Ho. destruct (tab_hold _ _ _ _ _ _ _ _ _ _ _ _ _ (st_tab _ _ _ _ _ _ _ _ _ _ _ _ _ Hs)) as (hx & ho & hg & _ & Hold & _).
  rewrite Ho in Hold. destruct Hold as [-> _]. split; [done |]. rewrite <-(st_map _ _ _ _ _ _ _ _ _ _ _ _ _ Hs).
  by rewrite map_union_empty.
Qed.

Lemma steady_size C Lx Lo D A Ao w I mn m ins outs t :
  steady C Lx Lo D A Ao w I mn m ins outs t → size m = (size A + size Ao)%nat ∧ (size m ≤ I)%nat.
Proof.
  intros Hs. rewrite <-(st_map _ _ _ _ _ _ _ _ _ _ _ _ _ Hs).
  pose proof (tab_disj _ _ _ _ _ _ _ _ _ _ _ _ _ (st_tab _ _ _ _ _ _ _ _ _ _ _ _ _ Hs)).
  rewrite map_size_disj_union by done. split; [done |]. apply (tab_size _ _ _ _ _ _ _ _ _ _ _ _ _ (st_tab _ _ _ _ _ _ _ _ _ _ _ _ _ Hs)).
Qed.

(** ** The bucket of a key *)

Definition lock_set lk i : gset nat := if lk then {[i]} else ∅.

(** The bucket [i] of the array [x] is where the key [k] is or has to go. *)
Definition at_key k C x i lk I mn m ins outs t : Prop :=
  ∃ D A Ao w,
    (steady C (lock_set lk i) ∅ D A Ao w I mn m ins outs t ∧ x = cur C ∧ i = idx (exp C) k ∧ Ao !! k = None) ∨
    (steady C ∅ (lock_set lk i) D A Ao w I mn m ins outs t ∧ old C = Some x ∧ i = idx (old_exp C) k ∧ A !! k = None ∧ i ∉ D).

Lemma at_key_live k C x i I mn m ins outs t : at_key k C x i false I mn m ins outs t → live I mn m ins outs t.
Proof. intros (D & A & Ao & w & [(Hs & _) | (Hs & _)]); by eapply live_array. Qed.

Lemma bool_decide_lock lk i : bool_decide (i ∈ lock_set lk i) = lk.
Proof. destruct lk; cbn; [apply bool_decide_true; by apply elem_of_singleton | apply bool_decide_false, not_elem_of_empty]. Qed.

Lemma same_lock i j lk lk' : j ≠ i → (j ∈ lock_set lk' i ↔ j ∈ lock_set lk i).
Proof. intros Hne. destruct lk, lk'; cbn; rewrite ?elem_of_singleton; try done; split; intros Hj; try done; by apply not_elem_of_empty in Hj. Qed.

Lemma lookup_part_key e k A : part e (idx e k) A !! k = A !! k.
Proof. rewrite lookup_part. by case_decide. Qed.

Lemma alter_match k A o : partial_alter (λ _, o) k A = match o with Some v => <[k := v]> A | None => delete k A end.
Proof. by destruct o. Qed.

Lemma part_alter_eq e k A o :
  part e (idx e k) (partial_alter (λ _, o) k A) = partial_alter (λ _, o) k (part e (idx e k) A).
Proof. rewrite !alter_match. destruct o; [apply part_insert_eq | apply part_delete_eq]. Qed.

Lemma part_alter_ne e i k A o : i ≠ idx e k → part e i (partial_alter (λ _, o) k A) = part e i A.
Proof. rewrite alter_match. destruct o; [apply part_insert_ne | apply part_delete_ne]. Qed.

Lemma alter_union_l A Ao k o : Ao !! k = None → partial_alter (λ _, o) k A ∪ Ao = partial_alter (λ _, o) k (A ∪ Ao).
Proof.
  intros Hn. rewrite !alter_match. destruct o as [v |].
  - by rewrite insert_union_l.
  - by rewrite delete_union, (delete_id Ao).
Qed.

Lemma alter_union_r A Ao k o : A !! k = None → A ∪ partial_alter (λ _, o) k Ao = partial_alter (λ _, o) k (A ∪ Ao).
Proof.
  intros Hn. rewrite !alter_match. destruct o as [v |].
  - by rewrite insert_union_r.
  - by rewrite delete_union, (delete_id A).
Qed.

Lemma alter_disjoint A Ao k o : A ##ₘ Ao → Ao !! k = None → partial_alter (λ _, o) k A ##ₘ Ao.
Proof.
  intros Hd Hn. rewrite alter_match. destruct o as [v |]; [by apply map_disjoint_insert_l_2 | by apply map_disjoint_delete_l].
Qed.

Lemma alter_size A k o : (size (partial_alter (λ _, o) k A) ≤ S (size A))%nat ∧
  (is_Some (A !! k) ∨ o = None → size (partial_alter (λ _, o) k A) ≤ size A)%nat ∧
  (is_Some o → size A ≤ size (partial_alter (λ _, o) k A))%nat.
Proof.
  rewrite alter_match. destruct o as [v |].
  - rewrite map_size_insert.
    destruct (A !! k) eqn:Hk'; cbn; split_and!; try lia; intros [[? ?] |]; done.
  - rewrite map_size_delete.
    destruct (A !! k) eqn:Hk'; cbn; split_and!; try lia; intros [? ?]; done.
Qed.

(** The entries [mb] of a bucket are some of those that an array of [2 ^ e] buckets has to
    keep together with [k]. *)
Definition together k mb m : Prop := mb ⊆ m ∧ ∃ e, (1 ≤ e ≤ 58)%nat ∧ ∀ k', is_Some (mb !! k') → idx e k' = idx e k.

Lemma together_part e k A m : (1 ≤ e ≤ 58)%nat → A ⊆ m → together k (part e (idx e k) A) m.
Proof.
  intros He Hsub. split; [etrans; [apply part_subseteq | done] |]. exists e. split; [done |].
  intros k' Hk'. rewrite lookup_part in Hk'. case_decide; [done | by destruct Hk'].
Qed.

(** A step on the bucket of the key, at the key or at an entry [k'] that is there. *)
Lemma at_key_step_of k C x i lk I mn m ins outs t :
  at_key k C x i lk I mn m ins outs t →
  ∃ b h mb c, get_bucket x i t = Some b ∧ bucket_ok c lk false mb h b ∧ mb !! k = m !! k ∧ (size mb ≤ I)%nat ∧
    together k mb m ∧ (c ≤ I)%nat ∧
    ∀ k' lk' I' o h' ins' outs' b', k' = k ∨ is_Some (mb !! k') → (I ≤ I')%nat →
      bucket_ok (c + (I' - I)) lk' false (partial_alter (λ _, o) k' mb) h' b' →
      (o = None ∨ is_Some (mb !! k') ∨ I < I')%nat →
      h' ++ outs' ++ ins ≡ₚ h ++ outs ++ ins' →
      at_key k C x i lk' I' mn (partial_alter (λ _, o) k' m) ins' outs' (put_bucket x i b' t).
Proof.
  intros (D & A & Ao & w & [(Hs & -> & -> & Hn) | (Hs & Ho & -> & Hn & HD)]);
    pose proof (steady_size _ _ _ _ _ _ _ _ _ _ _ _ _ Hs) as [Hm1 Hm2]; pose proof Hs as [Ht Hr Hw Hm Htag Hmin Hcaps];
    pose proof (tab_disj _ _ _ _ _ _ _ _ _ _ _ _ _ Ht) as Hd.
  - destruct (tab_cur _ _ Ht (idx (exp C) k)) as (b & h & Hb & Hok & Hput).
    { apply idx_lt; [done | by eapply steady_exp]. }
    rewrite bool_decide_lock in Hok. exists b, h, (part (exp C) (idx (exp C) k) A), (I - size Ao)%nat.
    pose proof (part_size hash (exp C) (idx (exp C) k) A) as Hp.
    destruct (tab_array _ _ Ht) as (a & _ & Hsh & _).
    assert (together k (part (exp C) (idx (exp C) k) A) m) as Htog.
    { apply together_part; [apply Hsh |]. rewrite <-Hm. apply map_union_subseteq_l. }
    split_and!; try done; try lia.
    { rewrite lookup_part_key, <-Hm. symmetry. by apply lookup_union_l. }
    intros k' lk' I' o h' ins' outs' b' Hk' HI Hok' Ho Hperm.
    assert (idx (exp C) k' = idx (exp C) k ∧ Ao !! k' = None) as [Hidx Hn'].
    { destruct Hk' as [-> | Hk']; [done |]. rewrite lookup_part in Hk'. case_decide as Hidx; [| by destruct Hk'].
      split; [done |]. destruct Hk' as [v Hv]. by eapply map_disjoint_Some_r. }
    rewrite <-Hidx in Ho, Hok'. rewrite lookup_part_key in Ho.
    destruct (alter_size A k' o) as (Hs1 & Hs2 & _).
    exists D, (partial_alter (λ _, o) k' A), Ao, w. left. split; [| done]. constructor; try done; [| by rewrite alter_union_l, Hm].
    apply (Hput _ _ I' h' ins' outs' b'); try done.
    + intros j Hj. split; [by apply same_lock |]. split; [done |]. apply part_alter_ne. by rewrite Hidx.
    + rewrite bool_decide_lock, <-Hidx, part_alter_eq. eapply bucket_ok_mono; [| exact Hok']. lia.
    + by apply alter_disjoint.
    + destruct Ho as [-> | [Ho | Ho]]; try lia; [specialize (Hs2 (or_intror eq_refl)) | specialize (Hs2 (or_introl Ho))]; lia.
  - destruct (tab_old _ _ Ht x (idx (old_exp C) k) Ho) as (b & h & Hb & Hok & Hput).
    { apply idx_lt; [done | by eapply steady_old_exp]. }
    rewrite bool_decide_lock, bool_decide_false in Hok by done.
    exists b, h, (part (old_exp C) (idx (old_exp C) k) Ao), I.
    pose proof (part_size hash (old_exp C) (idx (old_exp C) k) Ao) as Hp.
    destruct (tab_old_array _ _ Ht x Ho) as (a & _ & Hsh & _).
    assert (together k (part (old_exp C) (idx (old_exp C) k) Ao) m) as Htog.
    { apply together_part; [apply Hsh |]. rewrite <-Hm. by apply map_union_subseteq_r. }
    split_and!; try done; try lia.
    { rewrite lookup_part_key, <-Hm. symmetry. by apply lookup_union_r. }
    intros k' lk' I' o h' ins' outs' b' Hk' HI Hok' Ho' Hperm.
    assert (idx (old_exp C) k' = idx (old_exp C) k ∧ A !! k' = None) as [Hidx Hn'].
    { destruct Hk' as [-> | Hk']; [done |]. rewrite lookup_part in Hk'. case_decide as Hidx; [| by destruct Hk'].
      split; [done |]. destruct Hk' as [v Hv]. by eapply map_disjoint_Some_l. }
    rewrite <-Hidx in Ho', Hok'. rewrite lookup_part_key in Ho'.
    destruct (alter_size Ao k' o) as (Hs1 & Hs2 & Hs3).
    assert (Hs4 : (size (partial_alter (λ _, o) k' Ao) ≤ size Ao + (I' - I))%nat).
    { destruct Ho' as [-> | [Ho' | Ho']]; try lia; [specialize (Hs2 (or_intror eq_refl)) | specialize (Hs2 (or_introl Ho'))]; lia. }
    exists D, A, (partial_alter (λ _, o) k' Ao), w. right. split; [| done]. constructor; try done; [| by rewrite alter_union_r, Hm].
    apply (Hput _ _ _ I' h' ins' outs' b'); try done.
    + intros j Hj. split; [by apply same_lock |]. split; [done |]. apply part_alter_ne. by rewrite Hidx.
    + rewrite bool_decide_lock, <-Hidx, part_alter_eq, Hidx, bool_decide_false by done. rewrite <-Hidx.
      eapply bucket_ok_mono; [| exact Hok']. lia.
    + apply map_disjoint_sym, alter_disjoint; [by apply map_disjoint_sym | done].
    + lia.
    + lia.
Qed.

(** A step at the key. *)
Lemma at_key_step k C x i lk I mn m ins outs t :
  at_key k C x i lk I mn m ins outs t →
  ∃ b h mb c, get_bucket x i t = Some b ∧ bucket_ok c lk false mb h b ∧ mb !! k = m !! k ∧ (size mb ≤ I)%nat ∧
    (size mb ≤ size m)%nat ∧ (c ≤ I)%nat ∧
    ∀ lk' I' o h' ins' outs' b', (I ≤ I')%nat →
      bucket_ok (c + (I' - I)) lk' false (partial_alter (λ _, o) k mb) h' b' →
      (o = None ∨ is_Some (m !! k) ∨ I < I')%nat →
      h' ++ outs' ++ ins ≡ₚ h ++ outs ++ ins' →
      at_key k C x i lk' I' mn (partial_alter (λ _, o) k m) ins' outs' (put_bucket x i b' t).
Proof.
  intros Ha. destruct (at_key_step_of _ _ _ _ _ _ _ _ _ _ _ Ha) as (b & h & mb & c & Hb & Hok & Hmk & Hs & [Hsub _] & Hc & Hput).
  exists b, h, mb, c. rewrite <-Hmk. split_and!; try done; [by apply map_subseteq_size |].
  intros lk' I' o h' ins' outs' b'. apply Hput. by left.
Qed.

(** ** Steps in the bucket *)

(** What [get] finds: a pointer to the entry, or an invalid one. *)
Definition located b k o (ptr : EntryPtr) : Prop :=
  match o with
  | Some v => ∃ q cs O M, ptr = ptr_of q ∧ wf b cs O M ∧ M !! q = Some (k, v)
  | None => is_valid ptr = false
  end.

Lemma located_valid b k o ptr : located b k o ptr → is_valid ptr = bool_decide (is_Some o).
Proof.
  unfold located. destruct o as [v |].
  - intros (q & cs & O & M & -> & Hwf & Hq). rewrite bool_decide_true by eauto. by eapply is_valid_ptr.
  - intros Hv. rewrite Hv. symmetry. apply bool_decide_false. by intros [? ?].
Qed.

Lemma located_lock b k o ptr l : located b k o ptr → located (set_locked l b) k o ptr.
Proof.
  destruct o as [v |]; [| done]. intros (q & cs & O & M & -> & Hwf & Hq). exists q, cs, O, M.
  split; [done |]. split; [by apply wf_set_locked | done].
Qed.

(** The bucket [i] of the array [x], as it is. *)
Definition in_bucket x i t (P : Bucket K V → Prop) : Prop := ∃ b, get_bucket x i t = Some b ∧ P b.

Lemma in_put_bucket x i t b b' (P : Bucket K V → Prop) :
  get_bucket x i t = Some b → P b' → in_bucket x i (put_bucket x i b' t) P.
Proof. intros Hb HP. exists b'. split; [by eapply part_get_put | done]. Qed.

Lemma alter_same (k : K) m o : o = m !! k → partial_alter (λ _, o) k m = m.
Proof. intros ->. apply partial_alter_self. Qed.

(** A step after which the bucket holds the same. *)
Lemma at_key_same k C x i lk I mn m ins outs t :
  at_key k C x i lk I mn m ins outs t →
  ∃ b h mb c, get_bucket x i t = Some b ∧ bucket_ok c lk false mb h b ∧ mb !! k = m !! k ∧ (size mb ≤ I)%nat ∧
    (size mb ≤ size m)%nat ∧ (c ≤ I)%nat ∧
    ∀ lk' b', bucket_ok c lk' false mb h b' → at_key k C x i lk' I mn m ins outs (put_bucket x i b' t).
Proof.
  intros Ha. destruct (at_key_step _ _ _ _ _ _ _ _ _ _ _ Ha) as (b & h & mb & c & Hb & Hok & Hmk & Hs & Hsm & Hc & Hput).
  exists b, h, mb, c. split_and!; try done. intros lk' b' Hok'.
  rewrite <-(alter_same k m (m !! k) eq_refl). apply (Hput lk' I (m !! k) h); [done | | | done].
  - rewrite alter_same by done. eapply bucket_ok_mono; [| exact Hok']. lia.
  - destruct (m !! k); [right; left; eauto | by left].
Qed.

Lemma bucket_ok_flags c lk kl mb h b : bucket_ok c lk kl mb h b → locked b = lk ∧ killed b = kl.
Proof. by intros (cs & O & M & _ & _ & _ & _ & ? & ? & _). Qed.

Lemma runs_lock_key k C x i I mn m ins outs t :
  at_key k C x i false I mn m ins outs t →
  runs (at_bucket x i lock) t (λ r t', r = true ∧ at_key k C x i true I mn m ins outs t').
Proof.
  intros Ha. destruct (at_key_same _ _ _ _ _ _ _ _ _ _ _ Ha) as (b & h & mb & c & Hb & Hok & _ & _ & _ & _ & Hput).
  destruct (bucket_ok_flags _ _ _ _ _ _ Hok). eapply runs_at_bucket; [done |]. apply runs_lock; [done | done |].
  split; [done |]. apply Hput. by eapply bucket_ok_lock.
Qed.

Lemma runs_reader_lock_key k C x i I mn m ins outs t :
  at_key k C x i false I mn m ins outs t →
  runs (at_bucket x i reader_lock) t (λ r t', r = true ∧ at_key k C x i true I mn m ins outs t').
Proof.
  intros Ha. destruct (at_key_same _ _ _ _ _ _ _ _ _ _ _ Ha) as (b & h & mb & c & Hb & Hok & _ & _ & _ & _ & Hput).
  destruct (bucket_ok_flags _ _ _ _ _ _ Hok). eapply runs_at_bucket; [done |]. apply runs_reader_lock; [done | done |].
  split; [done |]. apply Hput. by eapply bucket_ok_lock.
Qed.

Lemma runs_unlock_key k C x i I mn m ins outs t :
  at_key k C x i true I mn m ins outs t →
  runs (at_bucket x i unlock) t (λ _ t', at_key k C x i false I mn m ins outs t').
Proof.
  intros Ha. destruct (at_key_same _ _ _ _ _ _ _ _ _ _ _ Ha) as (b & h & mb & c & Hb & Hok & _ & _ & _ & _ & Hput).
  destruct (bucket_ok_flags _ _ _ _ _ _ Hok). eapply runs_at_bucket; [done |]. apply runs_unlock; [done |].
  apply Hput. by eapply bucket_ok_lock.
Qed.

Lemma runs_get_key k C x i lk I mn m ins outs t :
  at_key k C x i lk I mn m ins outs t → budget I →
  runs (at_bucket x i (get TYPE n k (phash hash k))) t (λ r t', t' = t ∧ in_bucket x i t (λ b, located b k (m !! k) r)).
Proof.
  intros Ha [Hn _]. destruct (at_key_same _ _ _ _ _ _ _ _ _ _ _ Ha) as (b & h & mb & c & Hb & Hok & Hmk & _ & _ & Hc & _).
  destruct Hok as (cs & O & M & Hwf & Hkey & Hcs & _).
  eapply runs_read_bucket; [done |]. eapply runs_mono; [| eapply runs_bucket_get; [exact Hwf | lia]].
  intros r b' [-> Hr]. split; [done |]. exists b. split; [done |]. unfold located. rewrite <-Hmk.
  destruct Hr as [(q & [k' v] & Hq & Heq & ->) | [Habs ->]].
  - cbn in Heq. subst k'. rewrite (proj2 (keyed_lookup _ _ Hkey k v)) by eauto. by exists q, cs, O, M.
  - by rewrite (proj1 (keyed_absent _ _ _ Hkey) Habs).
Qed.

Lemma runs_search_key k C x i lk I mn m ins outs t :
  at_key k C x i lk I mn m ins outs t → budget I →
  runs (at_bucket x i (search TYPE n k (phash hash k))) t (λ r t', t' = t ∧ r = pair k <$> m !! k).
Proof.
  intros Ha [Hn _]. destruct (at_key_same _ _ _ _ _ _ _ _ _ _ _ Ha) as (b & h & mb & c & Hb & Hok & Hmk & _ & _ & Hc & _).
  destruct Hok as (cs & O & M & Hwf & Hkey & Hcs & _).
  eapply runs_read_bucket; [done |]. eapply runs_mono; [| eapply runs_bucket_search; [exact Hwf | lia]].
  intros r b' [-> Hr]. split; [done |]. rewrite <-Hmk. destruct r as [[k' v] |].
  - destruct Hr as (q & Hq & Heq). cbn in Heq. subst k'. by rewrite (proj2 (keyed_lookup _ _ Hkey k v)) by eauto.
  - by rewrite (proj1 (keyed_absent _ _ _ Hkey) Hr).
Qed.

Lemma runs_insert_located k v C x i I mn m ins outs t :
  at_key k C x i true I mn m ins outs t → budget (S I) → m !! k = None →
  runs (insert_with (λ _, at_bucket x i) n (phash hash k) (Ret ((k, v), ()))) t
    (λ r t', at_key k C x i true (S I) mn (<[k := v]> m) (k :: ins) outs t' ∧
       in_bucket x i t' (λ b, located b k (Some v) r.1)).
Proof.
  intros Ha [Hn Hmax] Hmk. destruct (at_key_step _ _ _ _ _ _ _ _ _ _ _ Ha) as (b & h & mb & c & Hb & Hok & Hbk & Hs & _ & Hc & Hput).
  unfold insert_with. eapply (runs_read_bind _ _ _ _ _ b (λ r, slot_free b r)); [done | |].
  { eapply runs_free_slot_of; [exact Hok | lia | lia]. }
  intros slot Hslot. cbn [bind fst snd]. eapply runs_at_bind; [exact Hb | |].
  { eapply (runs_insert_ptr_of TYPE hash); [exact Hok | exact Hslot | lia | by rewrite Hbk]. }
  intros r b' [(h' & Hok' & Hh') Hloc]. apply runs_ret. split.
  2:{ eapply in_put_bucket; [exact Hb |]. exact Hloc. }
  change (<[k := v]> m) with (partial_alter (λ _ : option V, Some v) k m).
  apply (Hput true (S I) (Some v) h'); [lia | | right; right; lia | rewrite Hh'; solve_perm].
  eapply bucket_ok_mono; [| exact Hok']. lia.
Qed.

Lemma runs_insert_key k v C x i I mn m ins outs t :
  at_key k C x i true I mn m ins outs t → budget (S I) → m !! k = None →
  runs (insert_with (λ _, at_bucket x i) n (phash hash k) (Ret ((k, v), ()))) t
    (λ r t', at_key k C x i true (S I) mn (<[k := v]> m) (k :: ins) outs t').
Proof. intros Ha Hn Hk'. eapply runs_mono; [| by eapply runs_insert_located]. by intros r t' [? _]. Qed.

Lemma located_wf c lk mb h b k v ptr :
  bucket_ok c lk false mb h b → located b k (Some v) ptr → ∃ q cs O M, ptr = ptr_of q ∧ wf b cs O M ∧ keyed M mb ∧
    (length cs ≤ c)%nat ∧ h ≡ₚ holds b O ∧ M !! q = Some (k, v) ∧ O !! q = Some (k, v).
Proof.
  intros Hok (q & cs & O & M & -> & Hwf & Hq). destruct (bucket_ok_wf _ _ _ _ _ _ _ _ _ _ _ Hok Hwf) as (? & ? & ? & _).
  exists q, cs, O, M. split_and!; try done. eapply lookup_weaken; [done | by eapply wf_sub].
Qed.

Lemma runs_ptr_get_key k v C x i lk I mn m ins outs t ptr :
  at_key k C x i lk I mn m ins outs t → in_bucket x i t (λ b, located b k (Some v) ptr) →
  runs (at_bucket x i (ptr_get ptr)) t (λ r t', t' = t ∧ r = (k, v)).
Proof.
  intros Ha (b & Hb & (q & cs & O & M & -> & Hwf & Hq)). eapply runs_read_bucket; [done |].
  eapply runs_mono; [| by eapply runs_ptr_get]. by intros r b' [-> ->].
Qed.

Lemma keyed_set (M : gmap pos (K * V)) mb q k v v' : keyed M mb → M !! q = Some (k, v) → keyed (<[q := (k, v')]> M) (<[k := v']> mb).
Proof.
  intros Hk' Hq. assert (Hdel : <[q := (k, v')]> M = <[q := (k, v')]> (delete q M)) by (by rewrite insert_delete_eq).
  rewrite Hdel. replace (<[k := v']> mb) with (<[k := v']> (delete k mb)) by apply insert_delete_eq.
  apply keyed_insert; [by eapply keyed_delete | apply lookup_delete_eq | apply lookup_delete_eq].
Qed.

Lemma runs_ptr_set_key k v v' C x i I mn m ins outs t ptr :
  at_key k C x i true I mn m ins outs t → m !! k = Some v → in_bucket x i t (λ b, located b k (Some v) ptr) →
  runs (at_bucket x i (ptr_set ptr v')) t (λ _ t',
    at_key k C x i true I mn (<[k := v']> m) ins outs t' ∧ in_bucket x i t' (λ b, located b k (Some v') ptr)).
Proof.
  intros Ha Hm (b & Hb & Hl). destruct (at_key_step _ _ _ _ _ _ _ _ _ _ _ Ha) as (b0 & h & mb & c & Hb0 & Hok & Hbk & Hs & _ & Hc & Hput).
  assert (b0 = b) as -> by congruence.
  destruct (located_wf _ _ _ _ _ _ _ _ Hok Hl) as (q & cs & O & M & -> & Hwf & Hkey & Hcs & Hh & Hq & HO).
  destruct (bucket_ok_flags _ _ _ _ _ _ Hok) as [Hlk Hkl].
  eapply runs_at_bucket; [done |]. eapply runs_mono; [| by eapply runs_ptr_set].
  intros r b' (Hwf' & Hf1 & Hf2 & Hf3). cbn [fst] in Hwf'. split.
  - change (<[k := v']> m) with (partial_alter (λ _ : option V, Some v') k m).
    apply (Hput true I (Some v') h); [done | | right; left; eauto | done].
    exists cs, (<[q := (k, v')]> O), (<[q := (k, v')]> M). split; [done |].
    split; [by eapply keyed_set |]. split; [lia |].
    split; [| by rewrite Hf1, Hf2]. rewrite Hh. unfold holds. rewrite Hf3, !fmap_app. apply Permutation_app_tail.
    rewrite (vals_delete O q (k, v) HO), <-insert_delete_eq, vals_insert by apply lookup_delete_eq. done.
  - eapply in_put_bucket; [exact Hb |]. exists q, cs, (<[q := (k, v')]> O), (<[q := (k, v')]> M).
    split; [done |]. split; [done |]. apply lookup_insert_eq.
Qed.

Lemma runs_erase_key k v C x i I mn m ins outs t ptr :
  at_key k C x i true I mn m ins outs t → m !! k = Some v → in_bucket x i t (λ b, located b k (Some v) ptr) →
  runs (at_bucket x i (erase TYPE ptr)) t (λ r t', r = (if decide (TYPE = OPTIMISTIC) then None else Some (k, v)) ∧
    at_key k C x i true I mn (delete k m) ins ((option_list r).*1 ++ outs) t').
Proof.
  intros Ha Hm (b & Hb & Hl). destruct (at_key_step _ _ _ _ _ _ _ _ _ _ _ Ha) as (b0 & h & mb & c & Hb0 & Hok & Hbk & Hs & _ & Hc & Hput).
  assert (b0 = b) as -> by congruence.
  destruct (located_wf _ _ _ _ _ _ _ _ Hok Hl) as (q & cs & O & M & -> & Hwf & Hkey & Hcs & Hh & Hq & HO).
  destruct (bucket_ok_flags _ _ _ _ _ _ Hok) as [Hlk Hkl].
  eapply runs_at_bucket; [done |]. eapply runs_mono; [| by eapply runs_erase].
  intros r b' (-> & Hwf' & Hf1 & Hf2 & Hf3). split; [done |].
  change (delete k m) with (partial_alter (λ _ : option V, None) k m).
  eapply (Hput true I None); [done | | by left |].
  - eexists cs, _, (delete q M). split; [exact Hwf' |]. split; [by eapply keyed_delete |]. split; [lia |].
    split; [reflexivity |]. by rewrite Hf1, Hf2.
  - case_decide; cbn [option_list fmap list_fmap fst app].
    + rewrite Hh, (holds_same b) by done. done.
    + rewrite Hh, (holds_delete b b' O q (k, v)) by done. cbn [fst]. solve_perm.
Qed.

(** ** The current array *)

(** The table after its first allocation. *)
Definition first_config x e mn : config :=
  {| cur := x; exp := e; old := None; old_exp := e; tag := Tag.None; min_cap := mn |}.

Lemma no_array_first I mn ins outs t x a e :
  no_array I mn ins outs t → x ∉ dom (arrays t) → array_ok TYPE hash e 0 ∅ ∅ ∅ [] a → old_array a = None →
  num_cleared_buckets a = 0 →
  tab (first_config x e mn) ∅ ∅ ∅ ∅ ∅ 0 I ins outs (set_bucket_array (Some x, Tag.None) (put_array x a (after_request t))).
Proof.
  intros [Hptr Hmin (hg & Hg & Hperm) Hids Hdom] Hf Hok Ho Hw.
  assert (Hne : ∀ z, z ∈ garbage t → z ≠ x).
  { intros z Hz ->. apply Hf. rewrite Hdom. by apply elem_of_list_to_set. }
  constructor; cbn [cur exp old old_exp tag min_cap first_config option_list app].
  - exists [], [], hg. split; [| split; [done | split]].
    + exists a. split; [apply lookup_insert_eq |]. split; [| done]. eapply array_ok_mono; [| exact Hok]. lia.
    + eapply (garbage_ok_frame _ _ _ _ t); [done | | exact Hg]. intros z Hz. cbn. apply lookup_insert_ne.
      intros ->. by apply (Hne z).
    + exact Hperm.
  - done.
  - exact Hmin.
  - apply NoDup_cons. split; [| exact Hids]. intros Hx. by apply (Hne x).
  - cbn [arrays put_array set_arrays after_request set_requests set_bucket_array garbage]. by rewrite dom_insert_L, Hdom.
  - apply map_disjoint_empty_l.
  - rewrite map_size_empty. lia.
Qed.

Lemma limits_caps mn e : (1 ≤ e)%nat → limits mn → Z.max 64 mn ≤ capacity_of e ≤ maximum_capacity → caps F mn e.
Proof. intros He [? ?] ?. constructor; [done | lia | lia | done]. Qed.

Lemma runs_get_current_array I mn m ins outs t :
  live I mn m ins outs t →
  runs get_current_array t (λ x t', ∃ C D A Ao w, x = cur C ∧ steady C ∅ ∅ D A Ao w I mn m ins outs t').
Proof.
  intros [Hno -> Hlim | C D A Ao w Hs]; unfold get_current_array; apply runs_load.
  - rewrite (na_ptr _ _ _ _ _ _ _ Hno). cbn [fst]. apply runs_load. rewrite (na_min _ _ _ _ _ _ _ Hno).
    eapply runs_call; [apply (runs_alloc_array TYPE hash) |].
    intros x t2 (a & e & Hnew & Hok & Hoa & Hwa & Hlo & Hhi & Hf & ->).
    apply runs_cas; [apply (na_ptr _ _ _ _ _ _ _ Hno) |]. apply runs_ret.
    pose proof (array_ok_shape _ _ _ _ _ _ _ _ _ Hok) as Hsh. pose proof (sh_log _ _ Hsh) as He.
    exists (first_config x e mn), ∅, ∅, ∅, 0. split; [done |].
    constructor; [by eapply no_array_first | cbn; lia | done | by rewrite map_union_empty | done | done |].
    apply limits_caps; [cbn; lia | done |]. destruct Hlim as [Hfl (Hmn0 & _ & _ & Hmn)]. cbn [exp first_config].
    rewrite Hmaximum in *. eapply array_new_first; [done | lia | lia | lia | exact Hsh | done | done].
  - rewrite (tab_ptr _ _ _ _ _ _ _ _ _ _ _ _ _ (st_tab _ _ _ _ _ _ _ _ _ _ _ _ _ Hs)). cbn [fst].
    apply runs_ret. by exists C, D, A, Ao, w.
Qed.

(** ** The work on the old array *)

(** The table that a relocation leaves: the old array is dropped, or the key is not in it. *)
Definition moved_to k C C' : Prop := cur C' = cur C ∧ exp C' = exp C.

Lemma runs_move_key k C D A Ao w I mn m ins outs t y :
  steady C ∅ ∅ D A Ao w I mn m ins outs t → old C = Some y → budget I →
  runs (move_entry TYPE hash n (cur C) y (hash k)) t (λ r t', ∃ (ok : bool) C', r = Some ok ∧ moved_to k C C' ∧
    at_key k C' (cur C) (idx (exp C) k) false I mn m ins outs t' ∧ (ok = true → old C' = None)).
Proof.
  intros Hs Ho [Hn Hmax]. pose proof Hs as [_ _ _ Hm Htag Hmin Hcaps].
  eapply runs_mono; [| eapply (runs_move_entry_of TYPE hash Hhash n I Hn Hmax _ _ _ _ _ _ _ _ _ k); [by eapply steady_quiet | exact Ho]].
  intros r t' [(-> & Hq) | (-> & D' & A' & Ao' & w' & Hq & Hm' & HAo)].
  - exists true, (without_old C). split; [done |]. split; [done |]. split; [| done].
    exists ∅, (A ∪ Ao), ∅, 0. left. split; [| done].
    apply quiet_steady; try done. by rewrite map_union_empty.
  - exists false, C. split; [done |]. split; [done |]. split; [| done].
    exists D', A', Ao', w'. left. split; [| done]. apply quiet_steady; try done. by rewrite Hm'.
Qed.

Lemma steady_key k C D A Ao w I mn m ins outs t :
  steady C ∅ ∅ D A Ao w I mn m ins outs t → old C = None →
  at_key k C (cur C) (idx (exp C) k) false I mn m ins outs t.
Proof.
  intros Hs Ho. exists D, A, Ao, w. left. split; [done |]. split; [done |]. split; [done |].
  destruct (steady_no_old _ _ _ _ _ _ _ _ _ _ _ _ _ Hs Ho) as [-> _]. apply lookup_empty.
Qed.

(** What the operations do first. *)
Lemma runs_settle {R} k C D A Ao w I mn m ins outs t (next : option bool → prog (Table K V) R) Q :
  steady C ∅ ∅ D A Ao w I mn m ins outs t → budget I →
  (∀ (ok : bool) C' t', cur C' = cur C → exp C' = exp C → at_key k C' (cur C) (idx (exp C) k) false I mn m ins outs t' →
     (ok = true → old C' = None) → runs (next (Some ok)) t' Q) →
  runs (let! oa := at_array (cur C) (load old_array) in
        let! r := match oa with Some old => move_entry TYPE hash n (cur C) old (hash k) | None => Ret (Some true) end in
        next r) t Q.
Proof.
  intros Hs Hn Hnext. pose proof (st_tab _ _ _ _ _ _ _ _ _ _ _ _ _ Hs) as Ht.
  destruct (tab_array _ _ Ht) as (a & Ha & _ & Hoa & _). eapply runs_array_load; [exact Ha |]. rewrite Hoa.
  destruct (old C) as [y |] eqn:Ho.
  - eapply runs_call; [by eapply (runs_move_key k) |]. intros r t' (ok & C' & -> & [Hc He] & Hkey & Hok'). by eapply Hnext.
  - apply runs_bind, runs_ret. apply (Hnext true C); try done. by eapply steady_key.
Qed.

Lemma at_key_cur k C x i lk I mn m ins outs t :
  at_key k C x i lk I mn m ins outs t → ∃ a, arrays t !! cur C = Some a ∧ shape a (exp C).
Proof.
  intros (D & A & Ao & w & [(Hs & _) | (Hs & _)]);
    destruct (tab_array _ _ (st_tab _ _ _ _ _ _ _ _ _ _ _ _ _ Hs)) as (a & Ha & Hsh & _); by exists a.
Qed.

Lemma at_key_ptr k C x i lk I mn m ins outs t :
  at_key k C x i lk I mn m ins outs t → bucket_array t = (Some (cur C), Tag.None).
Proof.
  intros (D & A & Ao & w & [(Hs & _) | (Hs & _)]);
    rewrite (tab_ptr _ _ _ _ _ _ _ _ _ _ _ _ _ (st_tab _ _ _ _ _ _ _ _ _ _ _ _ _ Hs)); f_equal;
    apply (st_tag _ _ _ _ _ _ _ _ _ _ _ _ _ Hs).
Qed.

Lemma live_ptr I mn m ins outs t : live I mn m ins outs t →
  (bucket_array t = (None, Tag.None) ∧ m = ∅) ∨ ∃ C D A Ao w, steady C ∅ ∅ D A Ao w I mn m ins outs t ∧
    bucket_array t = (Some (cur C), Tag.None).
Proof.
  intros [Hno -> Hlim | C D A Ao w Hs].
  - left. split; [apply (na_ptr _ _ _ _ _ _ _ Hno) | done].
  - right. exists C, D, A, Ao, w. split; [done |].
    rewrite (tab_ptr _ _ _ _ _ _ _ _ _ _ _ _ _ (st_tab _ _ _ _ _ _ _ _ _ _ _ _ _ Hs)). f_equal.
    apply (st_tag _ _ _ _ _ _ _ _ _ _ _ _ _ Hs).
Qed.

(** ** Resizing *)

Lemma runs_resize_live I mn m ins outs t (i : nat) :
  live I mn m ins outs t → budget I →
  runs (try_resize TYPE maximum_capacity n i) t (λ _ t', live I mn m ins outs t').
Proof.
  intros [Hno -> Hlim | C D A Ao w Hs] [Hn Hmax].
  { eapply (runs_try_resize_none TYPE hash); [exact Hno | by apply live_none]. }
  pose proof Hs as [_ Hr _ Hm Htag Hmin Hcaps]. pose proof (steady_quiet _ _ _ _ _ _ _ _ _ _ _ Hs) as Hq.
  destruct (old C) as [y |] eqn:Ho.
  { eapply runs_try_resize_old; [exact Hq | by rewrite Ho | by eapply live_array]. }
  destruct (quiet_no_old _ _ n I Hn C D A Ao w ins outs t Hq Ho) as [-> Hq']. rewrite Hm in Hq'. clear Hq.
  pose proof (tab_ptr _ _ _ _ _ _ _ _ _ _ _ _ _ (q_tab _ _ _ _ _ _ _ _ _ _ _ Hq')) as Hptr.
  eapply runs_mono; [| eapply (runs_try_resize TYPE hash Hhash n maximum_capacity kmax Hk Hmaximum I Hn F (without_old C)); try done].
  2:{ cbn. by rewrite Hmin. }
  intros r t' [Hq2 | [(x & e & Hq2 & Hc2) | (-> & Hno)]].
  - eapply live_array, quiet_steady; [exact Hq2 | by rewrite map_union_empty | done | done | by cbn].
  - eapply live_array, quiet_steady; [exact Hq2 | by rewrite map_empty_union | done | done | cbn in *; by rewrite <-Hmin].
  - cbn in Hno. rewrite Hmin in Hno. apply live_none; [done | done | by eapply caps_limits].
Qed.

Lemma with_new_key C x e k D A Ao w I mn m ins outs t :
  steady (with_new x e C) ∅ ∅ D A Ao w I mn m ins outs t → A = ∅ → D = ∅ →
  at_key k (with_new x e C) (cur C) (idx (exp C) k) false I mn m ins outs t.
Proof.
  intros Hs -> ->. exists ∅, ∅, Ao, w. right. split; [done |]. split; [done |]. split; [done |]. split; [apply lookup_empty | apply not_elem_of_empty].
Qed.

(** After a call for a bucket that has entries, the bucket of the key is the same one: if
    the table was resized it belongs to the old array. *)
Lemma runs_resize_key k C I mn m ins outs t (i : nat) :
  at_key k C (cur C) (idx (exp C) k) false I mn m ins outs t → m ≠ ∅ → budget I →
  runs (try_resize TYPE maximum_capacity n i) t (λ _ t', ∃ C',
    at_key k C' (cur C) (idx (exp C) k) false I mn m ins outs t').
Proof.
  intros (D & A & Ao & w & Hs) Hne [Hn Hmax].
  assert (Hs' : steady C ∅ ∅ D A Ao w I mn m ins outs t).
  { by destruct Hs as [(Hs & _) | (Hs & _)]. }
  pose proof Hs' as [_ Hr _ Hm Htag Hmin Hcaps]. pose proof (steady_quiet _ _ _ _ _ _ _ _ _ _ _ Hs') as Hq.
  destruct (old C) as [y |] eqn:Ho.
  { eapply runs_try_resize_old; [exact Hq | by rewrite Ho |]. exists C, D, A, Ao, w. by rewrite Ho. }
  destruct (quiet_no_old _ _ n I Hn C D A Ao w ins outs t Hq Ho) as [-> Hq']. rewrite Hm in Hq'. clear Hq Hs.
  eapply runs_mono; [| eapply (runs_try_resize TYPE hash Hhash n maximum_capacity kmax Hk Hmaximum I Hn F (without_old C)); try done].
  2:{ cbn. by rewrite Hmin. }
  intros r t' [Hq2 | [(x & e & Hq2 & Hc2) | (-> & Hno)]]; [| | done].
  - exists (without_old C). eapply (steady_key k (without_old C)); [| done].
    eapply quiet_steady; [exact Hq2 | by rewrite map_union_empty | done | done | by cbn].
  - exists (with_new x e (without_old C)). eapply (with_new_key (without_old C)); [| done | done].
    eapply quiet_steady; [exact Hq2 | by rewrite map_empty_union | done | done | cbn in *; by rewrite <-Hmin].
Qed.
End Ops.
