(* ===== verification/TableKey.v ===== *)
(** * Insertion, lookup and removal

    The operations of the hash table on one key answer what the map of its entries does. *)
From S2P Require Import Prelude Atomic Tag Lru Bucket BucketInv BucketQuery BucketOps BucketSpec BucketLinks BucketDrop BucketIter BucketProps BucketArray Rehash HashTable TableInv TableRelocate TableRehash TableResize TableOps.

Local Open Scope Z_scope.

Lemma npot_small x : 0 ≤ x ≤ 2 ^ 63 → next_power_of_two x ≤ usize_max.
Proof.
  intros Hx. unfold next_power_of_two, usize_max, umax. change (Z.of_nat 64) with 64.
  assert (Z.log2_up x ≤ 63). { rewrite <-(Z.log2_up_pow2 63) by lia. apply Z.log2_up_le_mono. lia. }
  assert (2 ^ Z.log2_up x ≤ 2 ^ 63) by (apply Z.pow_le_mono_r; lia). lia.
Qed.

Section Weaken.
Context {K V : Type} `{Countable K} (TYPE : bucket_type) (hash : K → Z) (maximum_capacity F : Z).

Implicit Types (A Ao m : gmap K V) (t : Table K V) (C : config) (Lx Lo D : gset nat) (I : nat) (w mn : Z) (h ins outs : list K).

Lemma garbage_mono I I' h t : (I ≤ I')%nat → garbage_ok TYPE hash I h t → garbage_ok TYPE hash I' h t.
Proof. apply garbage_ok_mono. Qed.

Lemma tab_mono C Lx Lo D A Ao w I I' ins outs ins' outs' t :
  tab TYPE hash C Lx Lo D A Ao w I ins outs t → (I ≤ I')%nat → outs' ++ ins ≡ₚ outs ++ ins' →
  tab TYPE hash C Lx Lo D A Ao w I' ins' outs' t.
Proof.
  intros [(hx & ho & hg & Hx & Hold & Hg & Hperm) ? ? ? ? ? ?] HI Hp. constructor; try done; [| lia].
  exists hx, ho, hg. split; [eapply arr_mono; [| exact Hx]; lia |].
  split; [by eapply old_arr_mono |]. split; [by eapply garbage_ok_mono |]. solve_perm.
Qed.

Lemma live_moves I I' mn m ins outs ins' outs' t :
  live TYPE hash maximum_capacity F I mn m ins outs t → (I ≤ I')%nat → outs' ++ ins ≡ₚ outs ++ ins' → live TYPE hash maximum_capacity F I' mn m ins' outs' t.
Proof.
  intros [[Hptr Hmin (hg & Hg & Hperm) Hids Hdom] Hm Hlim | C D A Ao w [Ht ? ? ? ? ? ?]] HI Hp.
  - apply live_none; [| done | done]. constructor; try done. exists hg.
    split; [by eapply garbage_ok_mono |]. solve_perm.
  - apply (live_array _ _ _ _ _ _ _ _ _ _ C D A Ao w). constructor; try done. by eapply tab_mono.
Qed.

End Weaken.

Section Key.
Context {K V : Type} `{Countable K} (TYPE : bucket_type) (hash : K → Z) {allow : Refuses (Table K V)} {can : CanRefuse (Table K V)}.
Context (Hhash : ∀ k, in_word 64 (hash k)) (n : nat).
Context (maximum_capacity : Z) (kmax : Z) (Hk : 6 ≤ kmax ≤ 63) (Hmaximum : maximum_capacity = 2 ^ kmax).
Context (F : Z).

Implicit Types (A Ao m mb : gmap K V) (b : Bucket K V) (t : Table K V) (C : config)
  (Lx Lo D : gset nat) (i j x y I c : nat) (w mn : Z) (h ins outs : list K) (k : K) (v : V) (o : option V) (lk : bool).

Local Notation tab := (tab TYPE hash).
Local Notation wf := (wf TYPE (phash hash)).
Local Notation idx := (idx hash).
Local Notation part := (part hash).
Local Notation no_array := (no_array TYPE hash).
Local Notation steady := (steady TYPE hash maximum_capacity F).
Local Notation live := (live TYPE hash maximum_capacity F).
Local Notation at_key := (at_key TYPE hash maximum_capacity F).
Local Notation located := (located TYPE hash).
Local Notation budget := (budget n).

(** ** The policy *)

Lemma runs_try_enlarge_key k C I mn m ins outs t b :
  at_key k C (cur C) (idx (exp C) k) false I mn m ins outs t → budget I →
  get_bucket (cur C) (idx (exp C) k) t = Some b → Z.of_nat BUCKET_LEN - 1 ≤ num_entries b →
  runs (try_enlarge TYPE maximum_capacity n (cur C) (idx (exp C) k) (num_entries b)) t
    (λ _ t', ∃ C', at_key k C' (cur C) (idx (exp C) k) false I mn m ins outs t').
Proof.
  intros Ha Hn Hb Hnum. destruct (at_key_cur _ _ _ _ _ _ _ _ _ _ _ _ _ _ _ Ha) as (a & Hga & _).
  unfold try_enlarge. eapply runs_snapshot; [exact Hga |].
  destruct (_ || _ : bool); [| apply runs_ret; by exists C].
  eapply (runs_resize_key TYPE hash Hhash n maximum_capacity kmax Hk Hmaximum); [exact Ha | | done].
  intros ->. destruct (at_key_same _ _ Hhash _ _ Hk Hmaximum _ _ _ _ _ _ _ _ _ _ _ _ Ha) as (b0 & h & mb & c & Hb0 & Hok & _ & _ & Hs & _).
  assert (b0 = b) as -> by congruence. rewrite (bucket_ok_num _ _ _ _ _ _ _ _ Hok) in Hnum.
  rewrite map_size_empty in Hs. change BUCKET_LEN with 32%nat in Hnum. lia.
Qed.

Lemma runs_try_shrink C D A Ao w I mn m ins outs t (i : nat) :
  steady C ∅ ∅ D A Ao w I mn m ins outs t → old C = None → budget I →
  runs (try_shrink_or_rebuild TYPE maximum_capacity n (cur C) i) t (λ _ t', live I mn m ins outs t').
Proof.
  intros Hs Ho Hn. assert (Hlive : live I mn m ins outs t) by (by eapply live_array).
  pose proof (st_tab _ _ _ _ _ _ _ _ _ _ _ _ _ _ _ _ _ Hs) as Ht.
  destruct (tab_array _ _ Ht) as (a & Ha & Hsh & Hoa & _).
  unfold try_shrink_or_rebuild. eapply runs_snapshot; [exact Ha |].
  apply runs_dassert; [unfold has_old_array; rewrite Hoa, Ho; by rewrite bool_decide_true |].
  apply runs_load. rewrite (tab_min _ _ _ _ _ _ _ _ _ _ _ _ _ Ht), (st_min _ _ _ _ _ _ _ _ _ _ _ _ _ _ _ _ _ Hs).
  assert (limits maximum_capacity F mn) as [_ (Hmn0 & _ & _ & Hmn)] by (by eapply live_limits).
  assert (2 ^ kmax ≤ 2 ^ 63) by (apply Z.pow_le_mono_r; lia).
  unfold checked_npot. rewrite (proj2 (Z.leb_le _ _)) by (apply npot_small; lia). cbn [bind].
  destruct (_ || _ : bool); [| by apply runs_ret]. destruct (shrink_scan _ _ _ _ _ _); [| by apply runs_ret].
  eapply (runs_resize_live TYPE hash Hhash n maximum_capacity kmax Hk Hmaximum); done.
Qed.

(** ** Reservation and insertion *)

(** The bucket of [e] is the locked bucket of [k], and its pointer is what [get] finds. *)
Definition reserved k (e : LockedEntry) C I mn m ins outs t : Prop :=
  at_key k C (locker e) (index e) true I mn m ins outs t ∧
  in_bucket (locker e) (index e) t (λ b, located b k (m !! k) (entry_ptr e)).

Lemma runs_reserve_entry k I mn m ins outs t :
  live I mn m ins outs t → budget I →
  runs (reserve_entry TYPE hash maximum_capacity n k (hash k)) t
    (λ r t', ∃ e C, r = Some e ∧ reserved k e C I mn m ins outs t').
Proof.
  intros Hl Hn. unfold reserve_entry. apply runs_loop_once; [destruct Hn; lia |].
  eapply runs_call; [eapply (runs_get_current_array TYPE hash maximum_capacity kmax Hk Hmaximum F); exact Hl |].
  intros x t1 (C & D & A & Ao & w & -> & Hs).
  pose proof (st_tab _ _ _ _ _ _ _ _ _ _ _ _ _ _ _ _ _ Hs) as Ht.
  destruct (tab_array _ _ Ht) as (a & Ha & _ & Hoa & _). eapply runs_array_load; [exact Ha |]. rewrite Hoa.
  eapply (runs_call _ _ _ (λ r t', ∃ (ok : bool) C', r = Some ok ∧ cur C' = cur C ∧ exp C' = exp C ∧
    at_key k C' (cur C) (idx (exp C) k) false I mn m ins outs t')).
  { destruct (old C) as [y |] eqn:Ho.
    - eapply runs_call; [eapply (runs_move_key TYPE hash Hhash n maximum_capacity F k); [exact Hs | exact Ho | exact Hn] |].
      intros r t2 (ok & C' & -> & [Hc He] & Hkey & _). apply runs_ret. by exists false, C'.
    - apply runs_ret. exists true, C. split; [done |]. split; [done |]. split; [done |]. by eapply steady_key. }
  intros r t2 (ok & C' & -> & Hc & He & Hkey). rewrite <-Hc, <-He in *. clear C Hs Ht Ha Hoa Hc He a t1 D A Ao w.
  destruct (at_key_cur _ _ _ _ _ _ _ _ _ _ _ _ _ _ _ Hkey) as (a & Ha & Hsh).
  eapply runs_snapshot; [exact Ha |]. rewrite (calculate_idx hash a (exp C') k Hsh).
  destruct (at_key_same _ _ Hhash _ _ Hk Hmaximum _ _ _ _ _ _ _ _ _ _ _ _ Hkey) as (b & _ & _ & _ & Hb & _).
  eapply runs_bucket_load; [exact Hb |].
  eapply (runs_call _ _ _ (λ _ t', ∃ C2, at_key k C2 (cur C') (idx (exp C') k) false I mn m ins outs t')).
  { destruct (_ && (_ <=? _)) eqn:Hcond; [| apply runs_ret; by exists C'].
    apply andb_prop in Hcond as [_ Hcond]. apply Z.leb_le in Hcond. eapply runs_try_enlarge_key; [exact Hkey | exact Hn | exact Hb | exact Hcond]. }
  intros u t3 (C2 & Hkey2).
  eapply runs_call; [eapply (runs_lock_key TYPE hash Hhash maximum_capacity kmax Hk Hmaximum F); exact Hkey2 |].
  intros l t4 (-> & Hkey3).
  eapply runs_call; [eapply (runs_get_key TYPE hash Hhash n maximum_capacity kmax Hk Hmaximum F k); [exact Hkey3 | exact Hn] |].
  intros ptr t5 (-> & Hin). apply runs_ret. eexists. split; [done |]. eexists _, C2. split; [done |]. split; [exact Hkey3 | exact Hin].
Qed.

Lemma runs_drop_entry k e C I mn m ins outs t :
  at_key k C (locker e) (index e) true I mn m ins outs t →
  runs (drop_entry e) t (λ _ t', live I mn m ins outs t').
Proof.
  intros Hkey. eapply runs_mono; [| eapply (runs_unlock_key TYPE hash Hhash maximum_capacity kmax Hk Hmaximum F); exact Hkey].
  intros u t' Hkey'. eapply at_key_live. exact Hkey'.
Qed.

(** A key that is there already is handed back with its value. *)
Lemma runs_insert_entry k v I mn m ins outs t :
  live I mn m ins outs t → budget (S I) →
  runs (insert_entry TYPE hash maximum_capacity n k v (hash k)) t (λ r t',
    match m !! k with
    | Some _ => r = Some (Some (k, v)) ∧ live I mn m ins outs t'
    | None => r = Some None ∧ live (S I) mn (<[k := v]> m) (k :: ins) outs t'
    end).
Proof.
  intros Hl Hn. assert (Hn' : budget I) by (destruct Hn; split; lia). unfold insert_entry.
  eapply runs_call; [apply (runs_reserve_entry k I mn m ins outs t Hl Hn') |].
  intros r t1 (e & C & -> & Hkey & (b & Hb & Hloc)). rewrite (located_valid _ _ _ _ _ _ Hloc).
  destruct (m !! k) as [v' |] eqn:Hmk.
  - rewrite bool_decide_true by eauto. eapply runs_call; [eapply runs_drop_entry; exact Hkey |].
    intros u t2 Ht2. by apply runs_ret.
  - rewrite bool_decide_false by (by intros [? ?]).
    eapply runs_call; [eapply (runs_insert_key TYPE hash Hhash n maximum_capacity kmax Hk Hmaximum F k v); [exact Hkey | done | done] |].
    intros r t2 Hkey2. eapply runs_call; [eapply runs_drop_entry; exact Hkey2 |]. intros u t3 Ht3. by apply runs_ret.
Qed.

(** ** Lookup *)

(** The part of [read_entry] on the current array. *)
Lemma runs_read_current {R} k C I mn m ins outs t (next : option (K * V) → prog (Table K V) R) Q :
  at_key k C (cur C) (idx (exp C) k) false I mn m ins outs t → budget I →
  (∀ t' C', cur C' = cur C → at_key k C' (cur C) (idx (exp C) k) false I mn m ins outs t' → runs (next (pair k <$> m !! k)) t' Q) →
  runs (let! a := snapshot (cur C) in
        let index := calculate_bucket_index a (hash k) in
        let! e :=
          if decide (TYPE = OPTIMISTIC) then
            at_bucket (cur C) index (search TYPE n k (partial_hash (hash k)))
          else
            let! l := at_bucket (cur C) index reader_lock in
            if l : bool then
              let! e := at_bucket (cur C) index (search TYPE n k (partial_hash (hash k))) in
              at_bucket (cur C) index unlock ;; Ret e
            else Ret None in
        next e) t Q.
Proof.
  intros Hkey Hn Hnext. destruct (at_key_cur _ _ _ _ _ _ _ _ _ _ _ _ _ _ _ Hkey) as (a & Ha & Hsh).
  eapply runs_snapshot; [exact Ha |]. cbv zeta. rewrite (calculate_idx hash a (exp C) k Hsh).
  eapply (runs_call _ _ _ (λ e t', e = pair k <$> m !! k ∧ at_key k C (cur C) (idx (exp C) k) false I mn m ins outs t')).
  { destruct (decide (TYPE = OPTIMISTIC)) as [Ht0 | Ht0].
    - eapply runs_mono; [| eapply (runs_search_key TYPE hash Hhash n maximum_capacity kmax Hk Hmaximum F k); [exact Hkey | exact Hn]].
      intros e t' [-> ->]. by split.
    - eapply runs_call; [eapply (runs_reader_lock_key TYPE hash Hhash maximum_capacity kmax Hk Hmaximum F); exact Hkey |].
      intros l t2 (-> & Hkey2).
      eapply runs_call; [eapply (runs_search_key TYPE hash Hhash n maximum_capacity kmax Hk Hmaximum F k); [exact Hkey2 | exact Hn] |].
      intros e t3 (-> & ->).
      eapply runs_call; [eapply (runs_unlock_key TYPE hash Hhash maximum_capacity kmax Hk Hmaximum F); exact Hkey2 |].
      intros u t4 Hkey4. by apply runs_ret. }
  intros e t' [-> Hkey']. by apply (Hnext t' C).
Qed.

(** A bucket of the old array may be read without a lock, killed or not. *)
Lemma runs_search_old k C D A Ao w I mn m ins outs t y :
  steady C ∅ ∅ D A Ao w I mn m ins outs t → old C = Some y → budget I →
  runs (let! a := snapshot y in at_bucket y (calculate_bucket_index a (hash k)) (search TYPE n k (partial_hash (hash k)))) t
    (λ r t', t' = t ∧ r = pair k <$> Ao !! k).
Proof.
  intros Hs Ho [Hn _]. pose proof (st_tab _ _ _ _ _ _ _ _ _ _ _ _ _ _ _ _ _ Hs) as Ht.
  destruct (tab_old_array _ _ Ht y Ho) as (ao & Hao & Hsho & _ & _). pose proof (sh_log _ _ Hsho) as He.
  eapply runs_snapshot; [exact Hao |]. rewrite (calculate_idx hash ao (old_exp C) k Hsho).
  destruct (tab_old _ _ Ht y (idx (old_exp C) k) Ho) as (b & h & Hb & (cs & O & M & Hwf & Hkey & Hcs & _) & _).
  { apply idx_lt; [done | lia]. }
  eapply runs_read_bucket; [exact Hb |]. eapply runs_mono; [| eapply (runs_bucket_search TYPE (phash hash)); [exact Hwf | lia]].
  intros r b' [-> Hr]. split; [done |]. rewrite <-(lookup_part_key hash (old_exp C) k Ao). destruct r as [[k' v] |].
  - destruct Hr as (q & Hq & Heq). cbn in Heq. subst k'. by rewrite (proj2 (keyed_lookup _ _ Hkey k v)) by eauto.
  - by rewrite (proj1 (keyed_absent _ _ _ Hkey) Hr).
Qed.

Lemma runs_read_entry k I mn m ins outs t :
  live I mn m ins outs t → budget I →
  runs (read_entry TYPE hash n k (hash k)) t (λ r t', r = Some (pair k <$> m !! k) ∧ live I mn m ins outs t').
Proof.
  intros Hl Hn. unfold read_entry. apply runs_load. apply runs_loop_once; [destruct Hn; lia |].
  destruct (live_ptr _ _ _ _ _ _ _ _ _ _ Hl) as [[-> ->] | (C & D & A & Ao & w & Hs & Hptr)].
  { apply runs_ret. eexists. split; [done |]. split; [done | exact Hl]. }
  rewrite Hptr. cbn [fst]. pose proof (st_tab _ _ _ _ _ _ _ _ _ _ _ _ _ _ _ _ _ Hs) as Ht.
  destruct (tab_array _ _ Ht) as (a & Ha & _ & Hoa & _). eapply runs_array_load; [exact Ha |]. rewrite Hoa.
  eapply (runs_call _ _ _ (λ early t', match early with
    | inl r => r = Some (pair k <$> m !! k) ∧ live I mn m ins outs t'
    | inr _ => ∃ C', cur C' = cur C ∧ at_key k C' (cur C') (idx (exp C') k) false I mn m ins outs t'
    end)).
  { clear Ha Hoa a. destruct (old C) as [y |] eqn:Ho; [destruct (decide (TYPE = OPTIMISTIC)) as [Ht0 | Ht0] |].
    - eapply runs_call; [eapply (runs_incremental_rehash TYPE hash Hhash n I); [apply Hn | apply Hn | by eapply steady_quiet] |].
      intros r t2 ([|] & -> & Hr).
      + rewrite decide_True by done. apply runs_ret. exists (without_old C). split; [done |].
        destruct Hr as [Ho' Hq]. eapply steady_key; [| exact Ho']. destruct Hs.
        eapply quiet_steady; [exact Hq | by rewrite map_union_empty | done | done | done].
      + rewrite decide_False by done. destruct Hr as (_ & D' & A' & Ao' & Hq & _ & Hm & _).
        assert (Hs2 : steady C ∅ ∅ D' A' Ao' (w + 32) I mn m ins outs t2).
        { destruct Hs. eapply quiet_steady; [exact Hq | by rewrite Hm | done | done | done]. }
        pose proof (runs_search_old k _ _ _ _ _ _ _ _ _ _ _ y Hs2 Ho Hn) as Hse.
        unfold snapshot in *. apply runs_bind. unfold runs in Hse. rewrite run_bind in Hse. unfold runs.
        destruct (run (at_array y (load id)) t2) as [ao t3 | | |]; [| done ..].
        apply runs_bind. eapply runs_mono; [| exact Hse]. intros e t4 [-> ->].
        assert (Hlk : m !! k = (A' ∪ Ao') !! k) by (by rewrite (st_map _ _ _ _ _ _ _ _ _ _ _ _ _ _ _ _ _ Hs2)).
        destruct (Ao' !! k) as [v |] eqn:Hk'; cbn [fmap option_fmap option_map]; apply runs_ret.
        * split; [| by eapply live_array]. rewrite Hlk.
          rewrite lookup_union_r, Hk'; [done |]. eapply map_disjoint_Some_r; [| exact Hk'].
          apply (tab_disj _ _ _ _ _ _ _ _ _ _ _ _ _ (st_tab _ _ _ _ _ _ _ _ _ _ _ _ _ _ _ _ _ Hs2)).
        * exists C. split; [done |]. exists D', A', Ao', (w + 32). left. done.
    - eapply runs_call; [eapply (runs_move_key TYPE hash Hhash n maximum_capacity F k); [exact Hs | exact Ho | exact Hn] |].
      intros r t2 (ok & C' & -> & [Hc He] & Hkey & _). apply runs_ret. exists C'. by rewrite Hc, He.
    - apply runs_ret. exists C. split; [done |]. by eapply steady_key. }
  intros [r | _] t2 Hearly; [apply runs_ret; by exists r |].
  destruct Hearly as (C' & Hc & Hkey). rewrite <-Hc. eapply runs_read_current; [exact Hkey | exact Hn |].
  intros t3 C3 Hc3 Hkey3. destruct (m !! k) as [v |]; cbn [fmap option_fmap option_map].
  - apply runs_ret. eexists. split; [done |]. split; [done |]. eapply at_key_live; exact Hkey3.
  - apply runs_load. rewrite (at_key_ptr _ _ _ _ _ _ _ _ _ _ _ _ _ _ _ Hkey3), Hc3, decide_True by done.
    apply runs_ret. eexists. split; [done |]. split; [done |]. eapply at_key_live; exact Hkey3.
Qed.

(** The entry stays locked. *)
Lemma runs_get_entry_of k I mn m ins outs t :
  live I mn m ins outs t → budget I →
  runs (get_entry TYPE hash n k (hash k)) t (λ r t',
    match m !! k with
    | Some _ => ∃ e C, r = Some (Some e) ∧ reserved k e C I mn m ins outs t'
    | None => r = Some None ∧ live I mn m ins outs t'
    end).
Proof.
  intros Hl Hn. unfold get_entry. apply runs_load. apply runs_loop_once; [destruct Hn; lia |].
  destruct (live_ptr _ _ _ _ _ _ _ _ _ _ Hl) as [[-> ->] | (C & D & A & Ao & w & Hs & Hptr)].
  { apply runs_ret. eexists. split; [done |]. rewrite lookup_empty. split; [done | exact Hl]. }
  rewrite Hptr. cbn [fst].
  eapply (runs_settle TYPE hash Hhash n maximum_capacity F k); [exact Hs | exact Hn |].
  intros ok C' t2 Hc He Hkey _. rewrite <-Hc, <-He in *.
  destruct (at_key_cur _ _ _ _ _ _ _ _ _ _ _ _ _ _ _ Hkey) as (a & Ha & Hsh).
  eapply runs_snapshot; [exact Ha |]. cbv zeta. rewrite (calculate_idx hash a (exp C') k Hsh).
  eapply runs_call; [eapply (runs_lock_key TYPE hash Hhash maximum_capacity kmax Hk Hmaximum F); exact Hkey |].
  intros l t3 (-> & Hkey3). apply runs_bind.
  eapply runs_call; [eapply (runs_get_key TYPE hash Hhash n maximum_capacity kmax Hk Hmaximum F k); [exact Hkey3 | exact Hn] |].
  intros ptr t4 (-> & (b & Hb & Hloc)). rewrite (located_valid _ _ _ _ _ _ Hloc).
  destruct (m !! k) as [v |] eqn:Hm.
  - rewrite bool_decide_true by eauto. apply runs_ret, runs_ret. eexists. split; [done |]. eexists _, C'. split; [done |].
    split; [exact Hkey3 |]. exists b. rewrite Hm. done.
  - rewrite bool_decide_false by (by intros [? ?]).
    eapply runs_call; [eapply (runs_unlock_key TYPE hash Hhash maximum_capacity kmax Hk Hmaximum F); exact Hkey3 |].
    intros u t5 Hkey5. apply runs_ret. apply runs_load.
    rewrite (at_key_ptr _ _ _ _ _ _ _ _ _ _ _ _ _ _ _ Hkey5), decide_True by done.
    apply runs_ret. eexists. split; [done |]. split; [done |]. eapply at_key_live; exact Hkey5.
Qed.

(** ** Removal *)

(** What [remove_entry] makes of the entries: the condition may change a value that stays. *)
Definition remove_result k (condition : V → bool * V) m : option (option (K * V)) * gmap K V :=
  match m !! k with
  | Some v =>
      let c := condition v in
      if c.1 then (Some (if decide (TYPE = OPTIMISTIC) then None else Some (k, c.2)), delete k m)
      else (None, <[k := c.2]> m)
  | None => (None, m)
  end.

(** The keys that a result hands back. *)
Definition result_keys (r : option (option (K * V))) : list K := (option_list (mjoin r)).*1.

Lemma runs_condition k condition C x i I mn m ins outs t ptr :
  at_key k C x i true I mn m ins outs t → in_bucket x i t (λ b, located b k (m !! k) ptr) →
  runs (if is_valid ptr then
          let! e := at_bucket x i (ptr_get ptr) in
          let c := condition e.2 in
          at_bucket x i (ptr_set ptr c.2) ;; Ret c.1
        else Ret false) t
    (λ ok t', match m !! k with
              | Some v => ok = (condition v).1 ∧ at_key k C x i true I mn (<[k := (condition v).2]> m) ins outs t' ∧
                  in_bucket x i t' (λ b, located b k (Some (condition v).2) ptr)
              | None => ok = false ∧ at_key k C x i true I mn m ins outs t'
              end).
Proof.
  intros Hkey (b & Hb & Hloc). rewrite (located_valid _ _ _ _ _ _ Hloc). destruct (m !! k) as [v |] eqn:Hm.
  - rewrite bool_decide_true by eauto.
    eapply runs_call; [eapply (runs_ptr_get_key TYPE hash maximum_capacity F k v); [exact Hkey | by exists b] |].
    intros e t2 [-> ->]. cbn [snd].
    eapply runs_call; [eapply (runs_ptr_set_key TYPE hash Hhash maximum_capacity kmax Hk Hmaximum F k v); [exact Hkey | done | by exists b] |].
    intros u t2 [Hkey2 Hin]. by apply runs_ret.
  - rewrite bool_decide_false by (by intros [? ?]). by apply runs_ret.
Qed.

Lemma at_key_steady k C x i I mn m ins outs t :
  at_key k C x i false I mn m ins outs t → ∃ D A Ao w, steady C ∅ ∅ D A Ao w I mn m ins outs t.
Proof. intros (D & A & Ao & w & [(Hs & _) | (Hs & _)]); by exists D, A, Ao, w. Qed.

Lemma runs_remove_entry k condition I mn m ins outs t :
  live I mn m ins outs t → budget I →
  runs (remove_entry TYPE hash maximum_capacity n k (hash k) condition) t (λ r t',
    let s := remove_result k condition m in
    r = Some s.1 ∧ live I mn s.2 ins (result_keys s.1 ++ outs) t').
Proof.
  intros Hl Hn. unfold remove_entry. apply runs_loop_once; [destruct Hn; lia |]. apply runs_load.
  destruct (live_ptr _ _ _ _ _ _ _ _ _ _ Hl) as [[-> ->] | (C & D & A & Ao & w & Hs & Hptr)].
  { apply runs_ret. eexists. split; [done |]. unfold remove_result. rewrite lookup_empty. by split. }
  rewrite Hptr. cbn [fst].
  eapply (runs_settle TYPE hash Hhash n maximum_capacity F k); [exact Hs | exact Hn |].
  intros ok C' t2 Hc He Hkey Hok. rewrite <-Hc, <-He in *.
  destruct (at_key_cur _ _ _ _ _ _ _ _ _ _ _ _ _ _ _ Hkey) as (a & Ha & Hsh).
  eapply runs_snapshot; [exact Ha |]. cbv zeta. rewrite (calculate_idx hash a (exp C') k Hsh).
  eapply runs_call; [eapply (runs_lock_key TYPE hash Hhash maximum_capacity kmax Hk Hmaximum F); exact Hkey |].
  intros l t3 (-> & Hkey3).
  eapply runs_call; [eapply (runs_get_key TYPE hash Hhash n maximum_capacity kmax Hk Hmaximum F k); [exact Hkey3 | exact Hn] |].
  intros ptr t4 (-> & Hin). eapply runs_call; [by eapply runs_condition |].
  intros ok2 t5 Hr. unfold remove_result.
  assert (Hend : ∀ m' t', at_key k C' (cur C') (idx (exp C') k) true I mn m' ins outs t' →
    runs (at_bucket (cur C') (idx (exp C') k) unlock ;; Ret (Break (Some None) : flow unit (option (option (option (K * V)))))) t'
      (λ br s', ∃ r, br = Break r ∧ r = Some None ∧ live I mn m' ins outs s')).
  { intros m' t' Hkey'.
    eapply runs_call; [eapply (runs_unlock_key TYPE hash Hhash maximum_capacity kmax Hk Hmaximum F); exact Hkey' |].
    intros u t6 Hkey6. apply runs_ret. eexists. split; [done |]. split; [done |]. eapply at_key_live; exact Hkey6. }
  destruct (m !! k) as [v |] eqn:Hm; [| destruct Hr as [-> Hkey5]; by apply Hend].
  destruct Hr as (-> & Hkey5 & Hin5). destruct (condition v) as [[|] v2]; cbn [fst snd] in *; [| by apply Hend].
  eapply runs_call; [eapply (runs_erase_key TYPE hash Hhash maximum_capacity kmax Hk Hmaximum F k v2); [exact Hkey5 | by rewrite lookup_insert_eq | exact Hin5] |].
  intros result t6 (-> & Hkey6). rewrite delete_insert_eq in Hkey6.
  destruct (at_key_same _ _ Hhash _ _ Hk Hmaximum _ _ _ _ _ _ _ _ _ _ _ _ Hkey6) as (b & _ & _ & _ & Hb & _).
  eapply runs_bucket_load; [exact Hb |]. eapply runs_bucket_load; [exact Hb |].
  eapply runs_call; [eapply (runs_unlock_key TYPE hash Hhash maximum_capacity kmax Hk Hmaximum F); exact Hkey6 |].
  intros u t7 Hkey7.
  eapply (runs_call _ _ _ (λ _ t', live I mn (delete k m) ins
    ((option_list (if decide (TYPE = OPTIMISTIC) then None else Some (k, v2))).*1 ++ outs) t')).
  - destruct ok; cbn [andb].
    + destruct (_ && _ : bool); [| apply runs_ret; eapply at_key_live; exact Hkey7].
      destruct (at_key_steady _ _ _ _ _ _ _ _ _ _ Hkey7) as (D7 & A7 & Ao7 & w7 & Hs7).
      eapply runs_try_shrink; [exact Hs7 | by apply Hok | exact Hn].
    + apply runs_ret. eapply at_key_live; exact Hkey7.
  - intros u2 t8 Hl8. apply runs_ret. eexists. split; [done |]. split; [done |]. exact Hl8.
Qed.
End Key.
