(* ===== verification/TableScan.v ===== *)
(** * The operations of the hash table on all the entries

    The sizes that are read from the buckets, and the loops that visit every bucket. *)
From S2P Require Import Prelude Atomic Tag Lru Bucket BucketInv BucketQuery BucketOps BucketSpec BucketLinks BucketDrop BucketIter BucketProps BucketArray Rehash HashTable TableInv TableRelocate TableRehash TableResize TableOps TableKey.

Local Open Scope Z_scope.

(** ** Sums *)

Fixpoint zsum (f : nat → Z) (l : list nat) : Z :=
  match l with
  | [] => 0
  | i :: l => f i + zsum f l
  end.

Lemma foldl_zsum (f : nat → Z) l z : foldl (λ s i, s + f i) z l = z + zsum f l.
Proof. revert z. induction l as [| i l IH]; intros z; cbn; [lia |]. rewrite IH. lia. Qed.

Lemma zsum_add (f g : nat → Z) l : zsum (λ i, f i + g i) l = zsum f l + zsum g l.
Proof. induction l as [| i l IH]; cbn; [done |]. rewrite IH. lia. Qed.

Lemma zsum_ext (f g : nat → Z) l : (∀ i, i ∈ l → f i = g i) → zsum f l = zsum g l.
Proof.
  induction l as [| i l IH]; intros Hfg; cbn; [done |]. rewrite IH by (intros j Hj; apply Hfg; by right).
  rewrite Hfg by left. done.
Qed.

Lemma zsum_one (j : nat) l : NoDup l → zsum (λ i, if decide (j = i) then 1 else 0) l = if decide (j ∈ l) then 1 else 0.
Proof.
  induction l as [| i l IH]; intros Hl; cbn.
  - rewrite decide_False; [done | apply not_elem_of_nil].
  - apply NoDup_cons in Hl as [Hi Hl]. rewrite IH by done. destruct (decide (j = i)) as [-> | Hne].
    + rewrite (decide_False (P := i ∈ l)) by done. rewrite decide_True by left. done.
    + destruct (decide (j ∈ l)) as [Hin | Hin]; [by rewrite decide_True by (by right) |].
      rewrite decide_False; [done |]. by intros [-> | ?]%elem_of_cons.
Qed.

Section Scan.
Context {K V : Type} `{Countable K} (TYPE : bucket_type) (hash : K → Z) {allow : Refuses (Table K V)} {can : CanRefuse (Table K V)}.
Context (Hhash : ∀ k, in_word 64 (hash k)) (n : nat).
Context (maximum_capacity : Z) (kmax : Z) (Hk : 6 ≤ kmax ≤ 63) (Hmaximum : maximum_capacity = 2 ^ kmax).
Context (F : Z).

Implicit Types (A Ao m mb : gmap K V) (b : Bucket K V) (t : Table K V) (C : config)
  (Lx Lo D : gset nat) (i j x y I c : nat) (w mn : Z) (h ins outs : list K) (k : K) (v : V) (lk : bool).

Local Notation tab := (tab TYPE hash).
Local Notation wf := (wf TYPE (phash hash)).
Local Notation idx := (idx hash).
Local Notation part := (part hash).
Local Notation bucket_ok := (bucket_ok TYPE hash).
Local Notation no_array := (no_array TYPE hash).
Local Notation steady := (steady TYPE hash maximum_capacity F).
Local Notation live := (live TYPE hash maximum_capacity F).
Local Notation budget := (budget n).

(** The buckets partition the entries. *)
Lemma zsum_parts e A : (e ≤ 58)%nat → zsum (λ i, Z.of_nat (size (part e i A))) (seq 0 (2 ^ e)) = Z.of_nat (size A).
Proof.
  intros He. induction A as [| k v A Hk' IH] using map_ind.
  - rewrite map_size_empty. rewrite (zsum_ext _ (λ _, 0)).
    + generalize (seq 0 (2 ^ e)). induction l as [| i l IHl]; cbn in *; lia.
    + intros i _. by rewrite part_empty, map_size_empty.
  - rewrite map_size_insert_None by done. rewrite Nat2Z.inj_succ, <-IH, <-Z.add_1_r.
    rewrite (zsum_ext _ (λ i, Z.of_nat (size (part e i A)) + if decide (idx e k = i) then 1 else 0)).
    + rewrite zsum_add, zsum_one by apply NoDup_seq. rewrite decide_True; [done |].
      apply elem_of_seq. pose proof (idx_lt hash e k Hhash He). lia.
    + intros i _. case_decide as Hi.
      * subst i. rewrite part_insert_eq, map_size_insert_None; [lia |]. by rewrite lookup_part_key.
      * rewrite part_insert_ne by congruence. lia.
Qed.

(** What is read from the buckets of an array. *)
Lemma bucket_entries_part y a e c Lx D A h o w t i :
  arrays t !! y = Some a → arr TYPE hash y e c Lx D A h o w t → (i < 2 ^ e)%nat →
  bucket_entries a i = Z.of_nat (size (part e i A)).
Proof.
  intros Ha Harr Hi. destruct (arr_focus _ _ _ _ _ _ _ _ _ _ _ _ i Harr Hi) as (b & hi & rest & Hb & Hok & _).
  unfold get_bucket in Hb. rewrite Ha in Hb. cbn in Hb. unfold bucket_entries. rewrite Hb. by eapply bucket_ok_num.
Qed.

Lemma sum_entries_size y a e c Lx D A h o w t :
  arrays t !! y = Some a → arr TYPE hash y e c Lx D A h o w t → (e ≤ 58)%nat → sum_entries a = Z.of_nat (size A).
Proof.
  intros Ha Harr He. assert (Hsh : shape a e).
  { destruct Harr as (a' & Ha' & Hok & _). assert (a' = a) as -> by congruence. by eapply array_ok_shape. }
  unfold sum_entries. rewrite foldl_zsum, <-(zsum_parts e A He). unfold num_buckets. rewrite (sh_len _ _ Hsh).
  rewrite (zsum_ext _ (λ i, Z.of_nat (size (part e i A)))); [lia |].
  intros i Hi%elem_of_seq. eapply bucket_entries_part; [exact Ha | exact Harr | lia].
Qed.

Lemma any_bucket_size y a e c Lx D A h o w t :
  arrays t !! y = Some a → arr TYPE hash y e c Lx D A h o w t → (e ≤ 58)%nat →
  any_bucket_entry a = bool_decide (A ≠ ∅).
Proof.
  intros Ha Harr He. assert (Hsh : shape a e).
  { destruct Harr as (a' & Ha' & Hok & _). assert (a' = a) as -> by congruence. by eapply array_ok_shape. }
  apply Bool.eq_iff_eq_true. rewrite bool_decide_eq_true. unfold any_bucket_entry. rewrite existsb_exists.
  unfold num_buckets. rewrite (sh_len _ _ Hsh). split.
  - intros (i & Hi%list_elem_of_In%elem_of_seq & Hne) ->.
    rewrite (bucket_entries_part _ _ _ _ _ _ _ _ _ _ _ _ Ha Harr) in Hne by lia. by rewrite part_empty, map_size_empty in Hne.
  - intros Hne. destruct (map_choose A Hne) as (k & v & Hkv). pose proof (idx_lt hash e k Hhash He) as Hi.
    exists (idx e k). split; [apply list_elem_of_In, elem_of_seq; lia |].
    rewrite (bucket_entries_part _ _ _ _ _ _ _ _ _ _ _ _ Ha Harr) by done. apply negb_true_iff, Z.eqb_neq.
    intros H0. assert (Hp : part e (idx e k) A !! k = Some v) by (by rewrite lookup_part_key).
    assert (Hem : part e (idx e k) A = ∅) by (apply map_size_empty_iff; lia). by rewrite Hem, lookup_empty in Hp.
Qed.

(** ** Sizes *)

Lemma steady_arr C Lx Lo D A Ao w I mn m ins outs t :
  steady C Lx Lo D A Ao w I mn m ins outs t →
  ∃ a hx, arrays t !! cur C = Some a ∧ old_array a = old C ∧ arr TYPE hash (cur C) (exp C) (I - size Ao) Lx ∅ A hx (old C) 0 t.
Proof.
  intros [Ht _ _ _ _ _ _]. destruct (tab_hold _ _ _ _ _ _ _ _ _ _ _ _ _ Ht) as (hx & _ & _ & Hx & _).
  pose proof Hx as (a & Ha & _ & Ho & _). by exists a, hx.
Qed.

Lemma steady_old_arr C Lx Lo D A Ao w I mn m ins outs t y :
  steady C Lx Lo D A Ao w I mn m ins outs t → old C = Some y →
  ∃ a ho, arrays t !! y = Some a ∧ arr TYPE hash y (old_exp C) I Lo D Ao ho None w t ∧ (old_exp C ≤ 58)%nat.
Proof.
  intros [Ht _ _ _ _ _ _] Ho. destruct (tab_hold _ _ _ _ _ _ _ _ _ _ _ _ _ Ht) as (_ & ho & _ & _ & Hold & _).
  rewrite Ho in Hold. pose proof Hold as (a & Ha & Hok & _). exists a, ho. split; [done |]. split; [done |].
  pose proof (sh_log _ _ (array_ok_shape _ _ _ _ _ _ _ _ _ Hok)). lia.
Qed.

Lemma runs_table_num_entries I mn m ins outs t :
  live I mn m ins outs t → budget I →
  runs (table_num_entries TYPE maximum_capacity n) t (λ r t', r = Z.of_nat (size m) ∧ live I mn m ins outs t').
Proof.
  intros Hl Hn. unfold table_num_entries. apply runs_load.
  destruct (live_ptr _ _ _ _ _ _ _ _ _ _ Hl) as [[-> ->] | (C & D & A & Ao & w & Hs & ->)].
  { apply runs_ret. by split. }
  cbn [fst]. destruct (steady_arr _ _ _ _ _ _ _ _ _ _ _ _ _ Hs) as (a & hx & Ha & Hoa & Harr).
  eapply runs_snapshot; [exact Ha |]. rewrite Hoa.
  pose proof (steady_exp _ _ _ _ Hk Hmaximum _ _ _ _ _ _ _ _ _ _ _ _ _ _ Hs) as He.
  pose proof (steady_size _ _ _ _ _ _ _ _ _ _ _ _ _ _ _ _ _ Hs) as [Hm _].
  eapply (runs_call _ _ _ (λ r t', r = Z.of_nat (size Ao) ∧ t' = t)).
  { destruct (old C) as [y |] eqn:Ho.
    - destruct (steady_old_arr _ _ _ _ _ _ _ _ _ _ _ _ _ y Hs Ho) as (ao & ho & Hao & Haro & Heo).
      eapply runs_snapshot; [exact Hao |]. apply runs_ret. split; [| done]. by eapply sum_entries_size.
    - apply runs_ret. destruct (steady_no_old _ _ _ _ _ _ _ _ _ _ _ _ _ _ _ _ _ Hs Ho) as [-> _]. by rewrite map_size_empty. }
  intros r t' [-> ->]. cbv zeta. apply runs_load.
  rewrite (sum_entries_size _ _ _ _ _ _ _ _ _ _ _ Ha Harr He).
  eapply (runs_call _ _ _ (λ _ t', live I mn m ins outs t')).
  - destruct (_ && _ : bool); [| by apply runs_ret].
    eapply (runs_resize_live TYPE hash Hhash n maximum_capacity kmax Hk Hmaximum); done.
  - intros u t' Hl'. apply runs_ret. split; [lia | done].
Qed.

Lemma runs_has_entry I mn m ins outs t :
  live I mn m ins outs t → budget I →
  runs (has_entry TYPE maximum_capacity n) t (λ r t', r = bool_decide (m ≠ ∅) ∧ live I mn m ins outs t').
Proof.
  intros Hl Hn. unfold has_entry. apply runs_load.
  destruct (live_ptr _ _ _ _ _ _ _ _ _ _ Hl) as [[-> ->] | (C & D & A & Ao & w & Hs & ->)].
  { apply runs_ret. split; [by rewrite bool_decide_false by auto | done]. }
  cbn [fst]. destruct (steady_arr _ _ _ _ _ _ _ _ _ _ _ _ _ Hs) as (a & hx & Ha & Hoa & Harr).
  eapply runs_snapshot; [exact Ha |]. rewrite Hoa.
  pose proof (steady_exp _ _ _ _ Hk Hmaximum _ _ _ _ _ _ _ _ _ _ _ _ _ _ Hs) as He.
  pose proof (st_map _ _ _ _ _ _ _ _ _ _ _ _ _ _ _ _ _ Hs) as Hm.
  eapply (runs_call _ _ _ (λ r t', r = bool_decide (Ao ≠ ∅) ∧ t' = t)).
  { destruct (old C) as [y |] eqn:Ho.
    - destruct (steady_old_arr _ _ _ _ _ _ _ _ _ _ _ _ _ y Hs Ho) as (ao & ho & Hao & Haro & Heo).
      eapply runs_snapshot; [exact Hao |]. apply runs_ret. split; [| done]. by eapply any_bucket_size.
    - apply runs_ret. destruct (steady_no_old _ _ _ _ _ _ _ _ _ _ _ _ _ _ _ _ _ Hs Ho) as [-> _]. by rewrite bool_decide_false by auto. }
  intros r t' [-> ->]. rewrite (any_bucket_size _ _ _ _ _ _ _ _ _ _ _ Ha Harr He).
  assert (Hor : bool_decide (Ao ≠ ∅) || bool_decide (A ≠ ∅) = bool_decide (m ≠ ∅)).
  { apply Bool.eq_iff_eq_true. rewrite orb_true_iff, !bool_decide_eq_true. rewrite <-Hm. split.
    - intros Hne He2. pose proof (map_positive_l _ _ He2) as HA. rewrite HA, map_empty_union in He2. by destruct Hne.
    - intros Hne. destruct (decide (Ao = ∅)) as [-> | ?]; [| by left]. right. intros ->. by rewrite map_union_empty in Hne. }
  rewrite Hor. destruct (bool_decide (m ≠ ∅)); [by apply runs_ret |]. apply runs_load.
  eapply (runs_call _ _ _ (λ _ t', live I mn m ins outs t')).
  - destruct (_ =? _); [| by apply runs_ret].
    eapply (runs_resize_live TYPE hash Hhash n maximum_capacity kmax Hk Hmaximum); done.
  - intros u t' Hl'. by apply runs_ret.
Qed.

(** The number of slots is zero, or a capacity within the bounds. *)
Lemma runs_num_slots I mn m ins outs t :
  live I mn m ins outs t →
  runs num_slots t (λ r t', t' = t ∧ ((r = 0 ∧ m = ∅) ∨ ∃ e : nat, r = capacity_of e ∧ F ≤ r ≤ maximum_capacity)).
Proof.
  intros Hl. unfold num_slots. apply runs_load.
  destruct (live_ptr _ _ _ _ _ _ _ _ _ _ Hl) as [[-> ->] | (C & D & A & Ao & w & Hs & ->)].
  { apply runs_ret. split; [done |]. by left. }
  cbn [fst]. destruct (tab_array _ _ (st_tab _ _ _ _ _ _ _ _ _ _ _ _ _ _ _ _ _ Hs)) as (a & Ha & Hsh & _).
  eapply runs_snapshot; [exact Ha |]. apply runs_ret. split; [done |]. right. exists (exp C).
  split; [by apply shape_capacity |]. rewrite (shape_capacity a (exp C) Hsh).
  destruct (st_caps _ _ _ _ _ _ _ _ _ _ _ _ _ _ _ _ _ Hs) as [_ Hfl Hmx _]. lia.
Qed.

(** ** Reservation of capacity *)

Lemma steady_min C Lx Lo D A Ao w I mn mn' m ins outs t :
  steady C Lx Lo D A Ao w I mn m ins outs t → limits maximum_capacity F mn' →
  steady {| cur := cur C; exp := exp C; old := old C; old_exp := old_exp C; tag := tag C; min_cap := mn' |}
    Lx Lo D A Ao w I mn' m ins outs (set_minimum_capacity mn' t).
Proof.
  intros [[? ? ? ? ? ? ?] ? ? ? ? ? [? ? ? ?]] [? ?]. constructor; try done; by constructor.
Qed.

Lemma live_min I mn mn' m ins outs t :
  live I mn m ins outs t → limits maximum_capacity F mn' → live I mn' m ins outs (set_minimum_capacity mn' t).
Proof.
  intros [[? ? ? ? ?] Hm _ | C D A Ao w Hs] Hlim.
  - apply live_none; [by constructor | done | done].
  - eapply live_array, steady_min; [exact Hs | done].
Qed.

Lemma live_minimum I mn m ins outs t : live I mn m ins outs t → minimum_capacity t = mn.
Proof.
  intros [[? ? ? ? ?] _ _ | C D A Ao w Hs]; [done |].
  by rewrite (tab_min _ _ _ _ _ _ _ _ _ _ _ _ _ (st_tab _ _ _ _ _ _ _ _ _ _ _ _ _ _ _ _ _ Hs)), (st_min _ _ _ _ _ _ _ _ _ _ _ _ _ _ _ _ _ Hs).
Qed.

(** A reservation that overflows is refused. *)
Lemma runs_reserve_capacity additional I mn m ins outs t :
  live I mn m ins outs t → budget I →
  (limits maximum_capacity F (mn + additional) ∨ usize_max < mn + additional) →
  runs (reserve_capacity TYPE maximum_capacity n additional) t (λ r t',
    if usize_max <? mn + additional then r = 0 ∧ live I mn m ins outs t'
    else r = additional ∧ live I (mn + additional) m ins outs t').
Proof.
  intros Hl Hn Hlim. unfold reserve_capacity. apply runs_load. rewrite (live_minimum _ _ _ _ _ _ Hl).
  apply runs_loop_once; [destruct Hn; lia |]. cbv zeta.
  destruct (usize_max <? mn + additional) eqn:Ho.
  { apply runs_ret. by exists 0. }
  destruct Hlim as [Hlim | Hgt]; [| apply Z.ltb_ge in Ho; lia].
  apply runs_cas_weak; [by eapply live_minimum |].
  eapply runs_call; [eapply (runs_resize_live TYPE hash Hhash n maximum_capacity kmax Hk Hmaximum F); [| exact Hn]; by eapply live_min |].
  intros u t' Hl'. apply runs_ret. by exists additional.
Qed.

(** ** The loops over the buckets *)

(** No old array; the bucket [j] is locked, or none is. *)
Definition at_scan C j lk I mn m ins outs t : Prop :=
  steady C (lock_set lk j) ∅ ∅ m ∅ 0 I mn m ins outs t ∧ old C = None.

Lemma at_scan_live C j I mn m ins outs t : at_scan C j false I mn m ins outs t → live I mn m ins outs t.
Proof. intros [Hs _]. by eapply live_array. Qed.

Lemma at_scan_ptr C j lk I mn m ins outs t :
  at_scan C j lk I mn m ins outs t → bucket_array t = (Some (cur C), Tag.None).
Proof.
  intros [Hs _]. rewrite (tab_ptr _ _ _ _ _ _ _ _ _ _ _ _ _ (st_tab _ _ _ _ _ _ _ _ _ _ _ _ _ _ _ _ _ Hs)).
  by rewrite (st_tag _ _ _ _ _ _ _ _ _ _ _ _ _ _ _ _ _ Hs).
Qed.

Lemma scan_step C j lk I mn m ins outs t :
  at_scan C j lk I mn m ins outs t → (j < 2 ^ exp C)%nat →
  ∃ b h, get_bucket (cur C) j t = Some b ∧ bucket_ok I lk false (part (exp C) j m) h b ∧
    ∀ lk' m' outs' h' b', (∀ i, i ≠ j → part (exp C) i m' = part (exp C) i m) → (size m' ≤ I)%nat →
      bucket_ok I lk' false (part (exp C) j m') h' b' → h' ++ outs' ≡ₚ h ++ outs →
      at_scan C j lk' I mn m' ins outs' (put_bucket (cur C) j b' t).
Proof.
  intros [Hs Ho] Hj. pose proof Hs as [Ht Hr Hw _ Htag Hmin Hcaps].
  destruct (tab_cur _ _ Ht j Hj) as (b & h & Hb & Hok & Hput).
  rewrite bool_decide_lock, map_size_empty, Nat.sub_0_r in Hok. exists b, h. split; [done |]. split; [done |].
  intros lk' m' outs' h' b' Hp Hm' Hok' Hperm. split; [| done]. constructor; try done; [| by rewrite map_union_empty].
  eapply (Hput _ _ I h'); [done | | | apply map_disjoint_empty_r | rewrite map_size_empty; lia | solve_perm].
  - intros i Hi. split; [by apply same_lock |]. split; [done |]. by apply Hp.
  - by rewrite bool_decide_lock, map_size_empty, Nat.sub_0_r.
Qed.

Lemma at_scan_size C j lk I mn m ins outs t : at_scan C j lk I mn m ins outs t → (size m ≤ I)%nat.
Proof. intros [Hs _]. by destruct (steady_size _ _ _ _ _ _ _ _ _ _ _ _ _ _ _ _ _ Hs) as [_ ?]. Qed.

(** A step that keeps the entries. *)
Lemma scan_same C j lk I mn m ins outs t :
  at_scan C j lk I mn m ins outs t → (j < 2 ^ exp C)%nat →
  ∃ b h, get_bucket (cur C) j t = Some b ∧ bucket_ok I lk false (part (exp C) j m) h b ∧
    ∀ lk' h' b', bucket_ok I lk' false (part (exp C) j m) h' b' → h' ≡ₚ h →
      at_scan C j lk' I mn m ins outs (put_bucket (cur C) j b' t).
Proof.
  intros Hs Hj. destruct (scan_step _ _ _ _ _ _ _ _ _ Hs Hj) as (b & h & Hb & Hok & Hput). exists b, h.
  split; [done |]. split; [done |]. intros lk' h' b' Hok' Hh. apply (Hput lk' m outs h' b'); try done.
  - by eapply at_scan_size.
  - by rewrite Hh.
Qed.

Lemma at_scan_move C i j I mn m ins outs t : at_scan C i false I mn m ins outs t → at_scan C j false I mn m ins outs t.
Proof. done. Qed.

(** The ways to lock a bucket. *)
Definition locks (p : prog (Bucket K V) bool) : Prop :=
  ∀ b Q, locked b = false → killed b = false → Q true (set_locked true b) → runs p b Q.

Lemma locks_lock : locks lock.
Proof. intros b Q. apply runs_lock. Qed.

Lemma locks_reader_lock : locks reader_lock.
Proof. intros b Q. apply runs_reader_lock. Qed.

Lemma runs_lock_scan p C j I mn m ins outs t :
  locks p → at_scan C j false I mn m ins outs t → (j < 2 ^ exp C)%nat →
  runs (at_bucket (cur C) j p) t (λ r t', r = true ∧ at_scan C j true I mn m ins outs t').
Proof.
  intros Hp Hs Hj. destruct (scan_same _ _ _ _ _ _ _ _ _ Hs Hj) as (b & h & Hb & Hok & Hput).
  destruct (bucket_ok_flags _ _ _ _ _ _ _ _ Hok). eapply runs_at_bucket; [exact Hb |]. apply Hp; [done | done |].
  split; [done |]. eapply Hput; [by eapply bucket_ok_lock | done].
Qed.

Lemma runs_unlock_scan C j I mn m ins outs t :
  at_scan C j true I mn m ins outs t → (j < 2 ^ exp C)%nat →
  runs (at_bucket (cur C) j unlock) t (λ _ t', at_scan C j false I mn m ins outs t').
Proof.
  intros Hs Hj. destruct (scan_same _ _ _ _ _ _ _ _ _ Hs Hj) as (b & h & Hb & Hok & Hput).
  destruct (bucket_ok_flags _ _ _ _ _ _ _ _ Hok). eapply runs_at_bucket; [exact Hb |]. apply runs_unlock; [done |].
  eapply Hput; [by eapply bucket_ok_lock | done].
Qed.

Lemma runs_clear_scan C D A Ao w I mn m ins outs t :
  steady C ∅ ∅ D A Ao w I mn m ins outs t → budget I →
  runs (clear_old_array TYPE hash n (cur C)) t (λ _ t', at_scan (without_old C) 0 false I mn m ins outs t').
Proof.
  intros Hs [Hn Hmax]. pose proof Hs as [_ _ _ Hm Htag Hmin Hcaps].
  eapply runs_mono; [| eapply (runs_clear_old_array TYPE hash Hhash n I Hn Hmax); by eapply steady_quiet].
  intros u t' Hq. rewrite Hm in Hq. split; [| done].
  eapply quiet_steady; [exact Hq | by rewrite map_union_empty | done | done | done].
Qed.

(** The rule of these loops: [P e j x m outs] holds before the bucket [j] is visited. *)
Lemma runs_scan {X R} (p : prog (Bucket K V) bool) (visit : nat → nat → X → prog (Table K V) (flow X R)) (x0 : X)
    (P : nat → nat → X → gmap K V → list K → Prop) I mn m ins outs t (Q : flow X R → Table K V → Prop) :
  live I mn m ins outs t → budget I → locks p →
  (∀ C j (x : X) m' outs' t', (exp C ≤ 58)%nat → (j < 2 ^ exp C)%nat → P (exp C) j x m' outs' →
     at_scan C j true I mn m' ins outs' t' →
     runs (visit (cur C) j x) t' (λ r t'',
       match r with
       | Continue x' => ∃ m'' outs'', P (exp C) (S j) x' m'' outs'' ∧ at_scan C j false I mn m'' ins outs'' t''
       | Break r => Q (Break r) t''
       end)) →
  (∀ e (x : X) m' outs' t', (e ≤ 58)%nat → P e (2 ^ e)%nat x m' outs' → live I mn m' ins outs' t' → Q (Continue x) t') →
  (∀ e, P e 0%nat x0 m outs) → (m = ∅ → Q (Continue x0) t) →
  runs (scan TYPE hash n p visit x0) t Q.
Proof.
  intros Hl Hn Hlock Hvisit Hend HP Hnone. unfold scan. apply runs_load. apply runs_loop_once; [destruct Hn; lia |].
  destruct (live_ptr _ _ _ _ _ _ _ _ _ _ Hl) as [[-> Hm] | (C & D & A & Ao & w & Hs & ->)]; cbn [fst snd].
  { apply runs_ret. eexists. split; [done |]. by apply Hnone. }
  eapply runs_call; [by eapply runs_clear_scan |]. intros u t1 Hs1. set (C1 := without_old C) in *.
  change (cur C) with (cur C1). pose proof (proj1 Hs1) as Hst.
  pose proof (steady_exp _ _ _ _ Hk Hmaximum _ _ _ _ _ _ _ _ _ _ _ _ _ _ Hst) as He.
  destruct (tab_array _ _ (st_tab _ _ _ _ _ _ _ _ _ _ _ _ _ _ _ _ _ Hst)) as (a & Ha & Hsh & _).
  eapply runs_snapshot; [exact Ha |].
  eapply (runs_call _ _ _ (λ r t', match r with
    | Break r => Q (Break r) t'
    | Continue x => ∃ m' outs', P (exp C1) (2 ^ exp C1)%nat x m' outs' ∧ at_scan C1 0 false I mn m' ins outs' t'
    end)).
  - replace (num_buckets a) with (2 ^ exp C1)%nat by (symmetry; apply (sh_len _ _ Hsh)).
    apply (runs_for_each (λ l (x : X) s, ∃ m' outs', P (exp C1) (length l) x m' outs' ∧ at_scan C1 0 false I mn m' ins outs' s)).
    + intros l1 i l2 x s Hl1 (m' & outs' & HPj & Hsj). apply seq_split in Hl1 as [-> Hi]. cbn [Nat.add].
      eapply runs_call; [eapply (runs_lock_scan p C1 (length l1)); [done | exact Hsj | exact Hi] |].
      intros r s2 (-> & Hs2). eapply runs_mono; [| eapply Hvisit; [exact He | exact Hi | exact HPj | exact Hs2]].
      intros [x' | r] s3 Hr; [| exact Hr]. destruct Hr as (m'' & outs'' & HP' & Hs3). exists m'', outs''.
      rewrite length_app. cbn [length]. rewrite Nat.add_1_r. split; [done |]. exact Hs3.
    + intros x s Hx. rewrite length_seq in Hx. exact Hx.
    + exists m, outs. split; [apply HP | exact Hs1].
  - intros [x | r] t2 Hr; [| apply runs_ret; by eexists].
    destruct Hr as (m' & outs' & HPe & Hs2). apply runs_load. rewrite (at_scan_ptr _ _ _ _ _ _ _ _ _ Hs2). cbn [fst].
    rewrite decide_True by done. apply runs_ret. eexists. split; [done |].
    eapply Hend; [exact He | exact HPe | by eapply at_scan_live].
Qed.

(** ** Loops that change the values of a bucket *)

Lemma wf_add_dropped (l : list (K * V)) b (cs : list nat) (O M : gmap pos (K * V)) : wf b cs O M → wf (add_dropped l b) cs O M.
Proof. by intros []; constructor. Qed.

Lemma holds_set b b' (O : gmap pos (K * V)) q k v v' :
  O !! q = Some (k, v) → dropped b' = dropped b → holds b' (<[q := (k, v')]> O) ≡ₚ holds b O.
Proof.
  intros Hq Hd. rewrite <-insert_delete_eq, (holds_insert b b') by (done || apply lookup_delete_eq).
  by rewrite (holds_delete b b O q (k, v)).
Qed.

(** The body does [f] to an entry, and the bucket holds the same keys. *)
Lemma runs_filter_bucket {X} (f : K → V → option V) (body : EntryPtr → X → prog (Bucket K V) (EntryPtr * X)) (x : X) c h b m :
  bucket_ok c true false m h b → (c < n)%nat → (size m < n)%nat →
  (∀ q kv b cs O M (x : X), wf b cs O M → M !! q = Some kv → O !! q = Some kv →
     runs (body (ptr_of q) x) b (λ r b', r.1 = ptr_of q ∧ ∃ O', wf b' cs O' (after_visit f q kv M) ∧
       holds b' O' ≡ₚ holds b O ∧ locked b' = locked b ∧ killed b' = killed b)) →
  runs (while_next TYPE n body x) b (λ _ b', ∃ h', bucket_ok c true false (map_imap f m) h' b' ∧ h' ≡ₚ h).
Proof.
  intros (cs & O & M & Hwf & Hkey & Hcs & Hh & Hlk & Hkl & _) Hc Hm Hbody.
  eapply runs_mono; [| eapply (runs_visit_with TYPE (phash hash) n f (λ O' _ b', holds b' O' ≡ₚ h ∧ locked b' = true ∧ killed b' = false));
    [| exact Hwf | exact Hkey | lia | by rewrite <-(keyed_size _ _ Hkey) | by rewrite Hh]].
  - intros r b' (cs' & O' & M' & Hwf' & Hkey' & Hlen & _ & Hh' & Hlk' & Hkl'). exists (holds b' O'). split; [| done].
    exists cs', O', M'. split; [done |]. split; [done |]. split; [lia |]. done.
  - intros q kv b1 cs1 O1 M1 l y Hwf1 Ha Hq Hnq (Hh1 & Hlk1 & Hkl1).
    assert (HO : O1 !! q = Some kv) by (eapply lookup_weaken; [exact Hq | by eapply wf_sub]).
    eapply runs_mono; [| by eapply (Hbody q kv b1 cs1 O1 M1)].
    intros [ptr z] b' (Hr & O' & Hwf' & Hh' & Hlk' & Hkl'). cbn [fst snd] in *. subst ptr. exists cs1, O', l.
    split; [done |]. split; [done |]. split; [done |]. split; [by apply entries_after |].
    rewrite Hh', Hlk', Hkl'. done.
Qed.

Definition retain_value (pred : K → V → bool * V) k v : option V :=
  let p := pred k v in if p.1 then Some p.2 else None.

Lemma runs_retain_bucket (pred : K → V → bool * V) (x : bool) c h b m :
  bucket_ok c true false m h b → (c < n)%nat → (size m < n)%nat →
  runs (while_next TYPE n (λ ptr removed,
        let! e := ptr_get ptr in
        let p := pred e.1 e.2 in
        ptr_set ptr p.2 ;;
        if p.1 then Ret (ptr, removed)
        else
          let! r := erase TYPE ptr in
          modify (add_dropped (option_list r)) ;; Ret (ptr, true)) x) b
    (λ _ b', ∃ h', bucket_ok c true false (map_imap (retain_value pred) m) h' b' ∧ h' ≡ₚ h).
Proof.
  intros Hok Hc Hm. eapply runs_filter_bucket; [exact Hok | done | done |].
  clear Hok x. intros q [k v] b1 cs O M x Hwf Hq HO.
  eapply runs_ptr_get_bind; [exact Hwf | exact Hq |]. cbn [fst snd]. cbv zeta.
  eapply runs_call; [by eapply (runs_ptr_set TYPE (phash hash)) |].
  intros u b2 (Hwf2 & Hf1 & Hf2 & Hf3). cbn [fst] in Hwf2. unfold after_visit, retain_value. cbn [fst snd].
  destruct (pred k v) as [[|] v2]; cbn [fst snd] in *.
  - apply runs_ret. split; [done |]. exists (<[q := (k, v2)]> O). split; [done |].
    split; [by eapply holds_set | done].
  - eapply runs_call; [eapply (runs_erase TYPE (phash hash)); [exact Hwf2 | by rewrite lookup_insert_eq] |].
    intros r b3 (-> & Hwf3 & Hg1 & Hg2 & Hg3). apply runs_act. cbn [fst snd bind]. apply runs_ret. split; [done |].
    rewrite !delete_insert_eq in Hwf3. eexists. split; [by apply wf_add_dropped, Hwf3 |].
    split; [| cbn [locked killed add_dropped]; split; congruence].
    unfold holds. cbn [dropped add_dropped]. rewrite Hg3, Hf3. case_decide; cbn [option_list].
    + rewrite app_nil_r. fold (holds b2 (<[q := (k, v2)]> O)). pose proof (holds_set b1 b2 O q k v v2 HO Hf3) as Hhs.
      unfold holds in Hhs. by rewrite Hf3 in Hhs.
    + rewrite (vals_delete O q (k, v) HO), !fmap_app. cbn [fmap list_fmap fst]. solve_perm.
Qed.

Lemma runs_prune_bucket (pred : K → V → option V) (x : bool) c h b m :
  TYPE ≠ OPTIMISTIC → bucket_ok c true false m h b → (c < n)%nat → (size m < n)%nat →
  runs (while_next TYPE n (λ ptr removed,
        let! e := ptr_get ptr in
        let! r := keep_or_consume TYPE ptr pred in
        if r : bool then modify (add_dropped [e]) ;; Ret (ptr, true) else Ret (ptr, removed)) x) b
    (λ _ b', ∃ h', bucket_ok c true false (map_imap pred m) h' b' ∧ h' ≡ₚ h).
Proof.
  intros Ht Hok Hc Hm. eapply runs_filter_bucket; [exact Hok | done | done |].
  clear Hok x. intros q [k v] b1 cs O M x Hwf Hq HO.
  eapply runs_ptr_get_bind; [exact Hwf | exact Hq |]. cbn [fst snd].
  eapply runs_call; [by eapply (runs_keep_or_consume TYPE (phash hash)) |].
  intros r b2 (Hr & Hf1 & Hf2 & Hf3). unfold after_visit. cbn [fst snd] in *.
  destruct (pred k v) as [v2 |]; destruct Hr as [-> Hwf2].
  - apply runs_ret. split; [done |]. exists (<[q := (k, v2)]> O). split; [done |].
    split; [by eapply holds_set | done].
  - apply runs_act. cbn [fst snd bind]. apply runs_ret. split; [done |].
    eexists. split; [by apply wf_add_dropped, Hwf2 |].
    split; [| done]. unfold holds. cbn [dropped add_dropped]. rewrite Hf3.
    rewrite (vals_delete O q (k, v) HO), !fmap_app. cbn [fmap list_fmap fst]. solve_perm.
Qed.

(** The predicate is asked about one entry after the other until it says [true]. *)
Fixpoint ask {Y} (pred : K → V → Y → bool * Y) (l : list (K * V)) (s : Y) : bool * Y :=
  match l with
  | [] => (false, s)
  | kv :: l => let p := pred kv.1 kv.2 s in if p.1 then (true, p.2) else ask pred l p.2
  end.

Lemma ask_app {Y} (pred : K → V → Y → bool * Y) l1 l2 s :
  ask pred (l1 ++ l2) s = (let r := ask pred l1 s in if r.1 then r else ask pred l2 r.2).
Proof.
  revert s. induction l1 as [| kv l1 IH]; intros s; cbn; [done |]. destruct (pred kv.1 kv.2 s) as [[|] s']; cbn; [done |]. apply IH.
Qed.

Lemma runs_any_bucket {Y} (pred : K → V → Y → bool * Y) (s : Y) c lk h b m :
  bucket_ok c lk false m h b → (c < n)%nat → (size m < n)%nat →
  runs (while_next_in TYPE (λ _ p, p) n
      (λ ptr s, let! e := ptr_get ptr in
        let p := pred e.1 e.2 s in
        if p.1 then Ret (Break (true, p.2)) else Ret (Continue (ptr, p.2))) (λ s, (false, s)) s) b
    (λ r b', b' = b ∧ ∃ l, l ≡ₚ map_to_list m ∧ r = ask pred l s).
Proof.
  intros (cs & O & M & Hwf & Hkey & Hcs & _) Hc Hm.
  set (l0 := values_at M (entries_at M (positions cs))).
  assert (Hl0 : l0 ≡ₚ map_to_list m).
  { rewrite <-(keyed_perm _ _ Hkey). apply values_at_perm; [by apply NoDup_filter, NoDup_positions, Hwf |].
    intros q kv Hq. apply elem_of_entries_at. split; [eauto | by eapply wf_positions]. }
  eapply (runs_while_next_in TYPE (phash hash) (λ _ p, p) (λ s b, s = b)) with
    (I := λ todo _ M' s' b', b' = b ∧ M' = M ∧ ask pred l0 s = ask pred (values_at M todo) s');
    [by intros ? ? ? ? ? -> | | | done | exact Hwf | lia | by rewrite <-(keyed_size _ _ Hkey) | done].
  - intros q todo ? b1 cs1 O1 M1 s1 l -> Hwf1 Hlen Ha Htodo Hnd [[k v] Hq] (-> & -> & Hask).
    eapply runs_ptr_get_bind; [exact Hwf1 | exact Hq |]. cbn [fst snd]. cbv zeta.
    unfold values_at in Hask. cbn [omap list_omap] in Hask. rewrite Hq in Hask. cbn [ask fst snd] in Hask. cbv zeta in Hask.
    destruct (pred k v s1) as [[|] s2]; cbn [fst snd] in *; apply runs_ret.
    + split; [done |]. by exists l0.
    + exists b, cs1, O1, M, l. by split_and!.
  - intros s1 b1 cs1 O1 M1 s2 -> Hwf1 Hlen (-> & -> & Hask). split; [done |]. exists l0. by rewrite Hask.
Qed.

(** The entries, bucket by bucket. *)
Lemma map_to_list_disj A Ao : A ##ₘ Ao → map_to_list (A ∪ Ao) ≡ₚ map_to_list A ++ map_to_list Ao.
Proof.
  induction A as [| k v A Hk' IH] using map_ind; intros Hd.
  - by rewrite map_empty_union, map_to_list_empty.
  - apply map_disjoint_insert_l in Hd as [HAo Hd]. rewrite <-insert_union_l, !map_to_list_insert by (by rewrite ?lookup_union_None).
    cbn. by rewrite IH.
Qed.

Lemma parts_perm e A (js : list nat) : NoDup js →
  concat ((λ i, map_to_list (part e i A)) <$> js) ≡ₚ map_to_list (filter (λ kv : K * V, idx e kv.1 ∈ js) A).
Proof.
  induction js as [| i js IH]; intros Hnd; cbn.
  - replace (filter _ A) with (∅ : gmap K V); [by rewrite map_to_list_empty |].
    symmetry. apply map_empty. intros k. apply map_lookup_filter_None. right. intros v _ Hin. by apply not_elem_of_nil in Hin.
  - apply NoDup_cons in Hnd as [Hi Hnd]. rewrite IH by done. rewrite <-map_to_list_disj.
    + apply reflexive_eq. f_equal. apply map_eq. intros k. rewrite lookup_union, lookup_part, !map_lookup_filter.
      destruct (A !! k) as [v |]; cbn; [| by destruct (decide _)].
      destruct (decide (idx e k = i)) as [He | He].
      * rewrite (option_guard_True (idx e k ∈ i :: js)) by (rewrite He; left). cbn. by destruct (guard _).
      * destruct (decide (idx e k ∈ js)) as [Hin | Hin].
        -- by rewrite !option_guard_True by (done || by right).
        -- rewrite !option_guard_False; [done | | done]. by intros [? | ?]%elem_of_cons.
    + apply map_disjoint_spec. intros k v1 v2 H1 H2. rewrite lookup_part in H1. case_decide as He; [| done].
      apply map_lookup_filter_Some in H2 as [_ Hin]. cbn in Hin. by rewrite He in Hin.
Qed.

Lemma parts_all e A : (e ≤ 58)%nat → concat ((λ i, map_to_list (part e i A)) <$> seq 0 (2 ^ e)) ≡ₚ map_to_list A.
Proof.
  intros He. rewrite parts_perm by apply NoDup_seq. apply reflexive_eq. f_equal. apply map_filter_id.
  intros k v _. apply elem_of_seq. pose proof (idx_lt hash e k Hhash He). cbn. lia.
Qed.

(** ** The operations that visit the whole table *)

(** The entries once [f] was done to those of the buckets below [j]. *)
Definition visited (f : K → V → option V) e j m : gmap K V :=
  map_imap (λ k v, if decide (idx e k < j)%nat then f k v else Some v) m.

Lemma visited_0 f e m : visited f e 0 m = m.
Proof.
  rewrite <-(map_imap_Some m) at 2. apply map_imap_ext. intros k. destruct (m !! k); [| done]. cbn. by rewrite decide_False by lia.
Qed.

Lemma visited_all f e m : (e ≤ 58)%nat → visited f e (2 ^ e) m = map_imap f m.
Proof.
  intros He. apply map_imap_ext. intros k. destruct (m !! k); [| done]. cbn.
  rewrite decide_True; [done | by apply idx_lt].
Qed.

Lemma map_imap_size (f : K → V → option V) m : (size (map_imap f m) ≤ size m)%nat.
Proof.
  rewrite <-!size_dom. apply subseteq_size. intros k [v Hv]%elem_of_dom. apply elem_of_dom.
  rewrite map_lookup_imap in Hv. apply bind_Some in Hv as (v0 & Hv0 & _). eauto.
Qed.

Lemma part_visited_ne f e j m i : i ≠ j → part e i (visited f e (S j) m) = part e i (visited f e j m).
Proof.
  intros Hi. apply map_eq. intros k. rewrite !lookup_part. case_decide as Hki; [| done].
  unfold visited. rewrite !map_lookup_imap. destruct (m !! k); [| done]. cbn. rewrite Hki.
  destruct (decide (i < j)%nat); [by rewrite decide_True by lia | by rewrite decide_False by lia].
Qed.

Lemma part_visited_eq f e j m : part e j (visited f e j m) = part e j m.
Proof.
  apply map_eq. intros k. rewrite !lookup_part. case_decide as Hki; [| done].
  unfold visited. rewrite map_lookup_imap. destruct (m !! k); [| done]. cbn. by rewrite decide_False by lia.
Qed.

Lemma part_visited_next f e j m : part e j (visited f e (S j) m) = map_imap f (part e j m).
Proof.
  apply map_eq. intros k. rewrite map_lookup_imap, !lookup_part. case_decide as Hki; [| done].
  unfold visited. rewrite map_lookup_imap. destruct (m !! k); [| done]. cbn. by rewrite decide_True by lia.
Qed.

(** A loop of which each iteration does [f] to the entries of a bucket. *)
Lemma runs_scan_filter (f : K → V → option V) (body : EntryPtr → bool → prog (Bucket K V) (EntryPtr * bool)) I mn m ins outs t :
  live I mn m ins outs t → budget I →
  (∀ c h b m (x : bool), bucket_ok c true false m h b → (c < n)%nat → (size m < n)%nat →
     runs (while_next TYPE n body x) b (λ _ b', ∃ h', bucket_ok c true false (map_imap f m) h' b' ∧ h' ≡ₚ h)) →
  runs (let! r := scan TYPE hash n lock (λ current index removed,
          let! removed := at_bucket current index (while_next TYPE n body removed) in
          at_bucket current index unlock ;; Ret (Continue removed : flow bool unit)) false in
        match r with Continue true => try_resize TYPE maximum_capacity n 0 | _ => Ret () end) t
    (λ _ t', live I mn (map_imap f m) ins outs t').
Proof.
  intros Hl Hn Hbody.
  eapply (runs_call _ _ _ (λ r t', live I mn (map_imap f m) ins outs t')).
  - eapply (runs_scan lock _ false (λ e j (_ : bool) m' outs', m' = visited f e j m ∧ outs' = outs)); [exact Hl | exact Hn | apply locks_lock | | | |].
    + intros C j x m' outs' t' He Hj [-> ->] Hs.
      destruct (scan_step _ _ _ _ _ _ _ _ _ Hs Hj) as (b & h & Hb & Hok & Hput). rewrite part_visited_eq in Hok.
      pose proof (at_scan_size _ _ _ _ _ _ _ _ _ Hs) as Hsz. pose proof (part_size hash (exp C) j m) as Hps.
      eapply runs_at_bind; [exact Hb | eapply Hbody; [exact Hok | by destruct Hn |] |].
      { rewrite <-part_visited_eq with (f := f). pose proof (part_size hash (exp C) j (visited f (exp C) j m)). destruct Hn; lia. }
      intros r b' (h' & Hok' & Hh'). rewrite <-part_visited_next in Hok'.
      eapply runs_call; [eapply (runs_unlock_scan C j) |].
      * eapply (Hput true (visited f (exp C) (S j) m) outs h'); [| | exact Hok' | by rewrite Hh'].
        -- intros i Hi. by apply part_visited_ne.
        -- transitivity (size (visited f (exp C) j m)); [| exact Hsz].
           rewrite <-!size_dom. apply subseteq_size. intros k [v Hv]%elem_of_dom. apply elem_of_dom.
           unfold visited in *. rewrite map_lookup_imap in *. destruct (m !! k) as [v0 |]; [| done]. cbn in *.
           destruct (decide (idx (exp C) k < j)%nat); [| eauto]. rewrite decide_True in Hv by lia. eauto.
      * exact Hj.
      * intros u t2 Hs2. apply runs_ret. exists (visited f (exp C) (S j) m), outs. by split.
    + intros e x m' outs' t' He [-> ->] Hl'. by rewrite visited_all in Hl'.
    + intros e. by rewrite visited_0.
    + intros ->. by rewrite map_imap_empty.
  - intros r t' Hl'. destruct r as [[|] | []]; try by apply runs_ret.
    eapply (runs_resize_live TYPE hash Hhash n maximum_capacity kmax Hk Hmaximum); done.
Qed.

Lemma runs_retain_entries (pred : K → V → bool * V) I mn m ins outs t :
  live I mn m ins outs t → budget I →
  runs (retain_entries TYPE hash maximum_capacity n pred) t (λ _ t', live I mn (map_imap (retain_value pred) m) ins outs t').
Proof.
  intros Hl Hn. unfold retain_entries. eapply runs_scan_filter; [exact Hl | exact Hn |].
  intros c h b m' x Hok Hc Hm. by apply runs_retain_bucket.
Qed.

Lemma runs_prune_entries (pred : K → V → option V) I mn m ins outs t :
  TYPE ≠ OPTIMISTIC → live I mn m ins outs t → budget I →
  runs (prune_entries TYPE hash maximum_capacity n pred) t (λ _ t', live I mn (map_imap pred m) ins outs t').
Proof.
  intros Ht Hl Hn. unfold prune_entries. eapply runs_scan_filter; [exact Hl | exact Hn |].
  intros c h b m' x Hok Hc Hm. by apply runs_prune_bucket.
Qed.

(** The buckets below [j] were asked, in this order. *)
Definition asked {Y} (pred : K → V → Y → bool * Y) (s : Y) e j m (s' : Y) (ls : list (list (K * V))) : Prop :=
  length ls = j ∧ (∀ i l, ls !! i = Some l → l ≡ₚ map_to_list (part e i m)) ∧ ask pred (concat ls) s = (false, s').

Lemma concat_perm {X} (ls ls' : list (list X)) : Forall2 (≡ₚ) ls ls' → concat ls ≡ₚ concat ls'.
Proof. induction 1 as [| l l' ls ls' Hl _ IH]; cbn; [done |]. by rewrite Hl, IH. Qed.

Lemma asked_perm e j m (ls : list (list (K * V))) :
  length ls = j → (∀ i l, ls !! i = Some l → l ≡ₚ map_to_list (part e i m)) →
  concat ls ≡ₚ concat ((λ i, map_to_list (part e i m)) <$> seq 0 j).
Proof.
  intros Hlen Hls. apply concat_perm, Forall2_lookup. intros i. rewrite list_lookup_fmap.
  destruct (ls !! i) as [l |] eqn:Hl.
  - pose proof (lookup_lt_Some _ _ _ Hl). rewrite lookup_seq_lt by lia. cbn. constructor. by apply Hls.
  - apply lookup_ge_None in Hl. rewrite lookup_seq_ge by lia. constructor.
Qed.

Lemma runs_any_entry {Y} (pred : K → V → Y → bool * Y) (s : Y) I mn m ins outs t :
  live I mn m ins outs t → budget I →
  runs (any_entry TYPE hash n pred s) t (λ r t', (∃ l, l ≡ₚ map_to_list m ∧ r = ask pred l s) ∧ live I mn m ins outs t').
Proof.
  intros Hl Hn. unfold any_entry.
  eapply (runs_call _ _ _ (λ r t', (∃ l, l ≡ₚ map_to_list m ∧ match r with
    | Break s' => ask pred l s = (true, s') | Continue s' => ask pred l s = (false, s') end) ∧ live I mn m ins outs t')).
  - eapply (runs_scan reader_lock _ s (λ e j s' m' outs', m' = m ∧ outs' = outs ∧ ∃ ls, asked pred s e j m s' ls));
      [exact Hl | exact Hn | apply locks_reader_lock | | | |].
    + intros C j s1 m' outs' t' He Hj (-> & -> & ls & Hlen & Hls & Hask) Hs.
      destruct (scan_same _ _ _ _ _ _ _ _ _ Hs Hj) as (b & h & Hb & Hok & Hput).
      pose proof (at_scan_size _ _ _ _ _ _ _ _ _ Hs) as Hsz. pose proof (part_size hash (exp C) j m) as Hps.
      eapply (runs_read_bind _ _ _ _ _ b (λ r, ∃ l, l ≡ₚ map_to_list (part (exp C) j m) ∧ r = ask pred l s1)).
      { exact Hb. }
      { eapply runs_any_bucket; [exact Hok | by destruct Hn | destruct Hn; lia]. }
      intros r (l & Hperm & Hr). eapply runs_call; [by eapply runs_unlock_scan |]. intros u t2 Hs2.
      assert (Hall : ask pred (concat (ls ++ [l])) s = r).
      { rewrite concat_app, ask_app, Hask. cbn. by rewrite app_nil_r, Hr. }
      assert (Hls' : ∀ i l', (ls ++ [l]) !! i = Some l' → l' ≡ₚ map_to_list (part (exp C) i m)).
      { intros i l' [Hi | [Hi Hi']]%lookup_app_Some; [by apply Hls |].
        apply list_lookup_singleton_Some in Hi' as [Hi0 <-]. by replace i with j by lia. }
      destruct r as [[|] s2]; cbn [fst snd]; apply runs_ret.
      * split; [| eapply at_scan_live; exact Hs2].
        exists (concat (ls ++ [l]) ++ concat ((λ i, map_to_list (part (exp C) i m)) <$> seq (S j) (2 ^ exp C - S j))).
        split; [| by rewrite ask_app, Hall].
        rewrite (asked_perm (exp C) (S j) m) by (done || (rewrite length_app; cbn; lia)).
        rewrite <-concat_app, <-fmap_app, <-seq_app. replace (S j + (2 ^ exp C - S j))%nat with (2 ^ exp C)%nat by lia. by apply parts_all.
      * exists m, outs. split; [| exact Hs2]. split; [done |]. split; [done |]. exists (ls ++ [l]).
        split; [rewrite length_app; cbn; lia | done].
    + intros e s1 m' outs' t' He (-> & -> & ls & Hlen & Hls & Hask) Hl'. split; [| done]. exists (concat ls).
      split; [| done]. rewrite (asked_perm e (2 ^ e) m) by done. by apply parts_all.
    + intros e. split; [done |]. split; [done |]. exists []. split; [done |]. split; [by intros i l; rewrite lookup_nil |]. done.
    + intros ->. split; [| done]. exists []. by rewrite map_to_list_empty.
  - intros [s1 | s1] t' [(l & Hp & Hr) Hl']; apply runs_ret; (split; [| done]); by exists l.
Qed.
End Scan.
