(* ===== verification/TableDrop.v ===== *)
(** * The end of a table

    When the container is dropped and the collector has run, nothing is left in the memory,
    and every key that was put in was handed back or dropped, once. *)
From S2P Require Import Prelude Atomic Tag Lru Bucket BucketInv BucketQuery BucketOps BucketSpec BucketLinks BucketDrop BucketIter BucketProps BucketArray Rehash HashTable TableInv TableRelocate TableRehash TableResize TableOps TableKey.

Local Open Scope Z_scope.

Section Drop.
Context {K V : Type} `{Countable K} (TYPE : bucket_type) (hash : K → Z).
Context (n : nat).

Implicit Types (A Ao m : gmap K V) (b : Bucket K V) (t : Table K V) (C : config)
  (L D : gset nat) (i j x y c e : nat) (w : Z) (h ins outs : list K).

Local Notation wf := (wf TYPE (phash hash)).
Local Notation part := (part hash).
Local Notation bucket_ok := (bucket_ok TYPE hash).
Local Notation arr := (arr TYPE hash).
Local Notation droppable := (droppable TYPE hash).

(** ** A bucket *)

Lemma runs_drop_bucket c lk kl m h b :
  bucket_ok c lk kl m h b → (c < n)%nat → runs (drop_entries n) b (λ _ b', (dropped b').*1 ≡ₚ h).
Proof.
  intros (cs & O & M & Hwf & _ & Hcs & Hh & _) Hc. eapply runs_mono; [| eapply runs_drop_all; [exact Hwf | lia]].
  intros u b' Hd. rewrite Hd, Hh. unfold holds, vals. rewrite !fmap_app. apply Permutation_app_comm.
Qed.

(** A bucket without entries holds only what it dropped: without [OPTIMISTIC] a removed
    entry does not stay. *)
Lemma empty_bucket_holds c lk kl h b : TYPE ≠ OPTIMISTIC → bucket_ok c lk kl ∅ h b → (dropped b).*1 ≡ₚ h.
Proof.
  intros Ht (cs & O & M & Hwf & Hkey & _ & Hh & _). rewrite Hh. unfold holds.
  assert (O = ∅) as ->; [| unfold vals; by rewrite map_to_list_empty].
  apply map_empty. intros [p i]. destruct (decide (is_Some (get_meta p b))) as [[md Hm] | Hno].
  - destruct (get_meta_block _ _ _ Hm) as [d Hd]. rewrite (wf_occ _ _ _ _ _ _ Hwf p i md d Hm Hd).
    rewrite <-(live_in_seq _ _ _ _ _ _ Ht (wf_block _ _ _ _ _ _ Hwf p md d Hm Hd)).
    rewrite <-(wf_live _ _ _ _ _ _ Hwf p i md d Hm Hd).
    destruct (M !! (p, i)) as [[k v] |] eqn:HM; [| done]. exfalso.
    assert (Hk : (∅ : gmap K V) !! k = Some v) by (apply (keyed_lookup _ _ Hkey); eauto). by rewrite lookup_empty in Hk.
  - destruct (wf_out _ _ _ _ _ _ Hwf p i) as [Ho _]; [| done].
    intros (md & d & Hm & _)%has_block. apply Hno. eauto.
Qed.

(** ** The buckets of an array *)

(** The array while its buckets are dropped: those that satisfy [done] were. *)
Definition dropping (P : nat → Prop) x e c L D A h (o : option nat) t : Prop :=
  ∃ a hs, arrays t !! x = Some a ∧ shape a e ∧ old_array a = o ∧ length hs = array_len a ∧ h ≡ₚ concat hs ∧
    ∀ i b, buckets a !! i = Some b → ∃ hi, hs !! i = Some hi ∧
      ((P i ∧ (dropped b).*1 ≡ₚ hi) ∨
       (¬ P i ∧ bucket_ok c (bool_decide (i ∈ L)) (bool_decide (i ∈ D)) (part e i A) hi b)).

Lemma runs_drop_index (P : nat → Prop) x e c L D A h o t i :
  dropping P x e c L D A h o t → (i < 2 ^ e)%nat → ¬ P i → (c < n)%nat →
  runs (at_bucket x i (drop_entries n)) t (λ _ t', dropping (λ j, P j ∨ j = i) x e c L D A h o t' ∧
    ∃ a, t' = put_array x a t).
Proof.
  intros (a & hs & Ha & Hsh & Ho & Hlen & Hh & Hb) Hi HP Hc.
  assert (His : is_Some (buckets a !! i)).
  { apply lookup_lt_is_Some. by rewrite (sh_buckets _ _ Hsh), (sh_len _ _ Hsh). }
  destruct His as [b Hib]. destruct (Hb i b Hib) as (hi & Hhi & [[? _] | [_ Hok]]); [done |].
  eapply runs_at_bucket; [unfold get_bucket; by rewrite Ha |].
  eapply runs_mono; [| by eapply runs_drop_bucket]. intros u b' Hd. split.
  - exists (set_buckets (<[i := b']> (buckets a)) a), hs. split; [by rewrite lookup_put_eq, Ha |].
    split. { destruct Hsh as [? ? ? ? ?]. constructor; try done. cbn. by rewrite length_insert. }
    split; [done |]. split; [done |]. split; [done |].
    intros j bj. cbn. destruct (decide (i = j)) as [<- | Hne].
    + rewrite list_lookup_insert_eq by (by eapply lookup_lt_Some). intros [= <-]. exists hi. split; [done |]. left. by split; [right |].
    + rewrite list_lookup_insert_ne by done. intros Hj. destruct (Hb j bj Hj) as (hj & Hhj & [[HPj Hdj] | [HPj Hokj]]);
        exists hj; (split; [done |]); [left | right]; (split; [| done]); [by left | intros [? | ?]; [done | congruence]].
  - exists (set_buckets (<[i := b']> (buckets a)) a). unfold put_bucket, put_array, set_arrays. f_equal.
    apply map_eq. intros z. destruct (decide (x = z)) as [<- | Hne].
    + by rewrite lookup_alter_eq, Ha, lookup_insert_eq.
    + by rewrite lookup_alter_ne, lookup_insert_ne.
Qed.

Lemma dropping_ext (P P' : nat → Prop) x e c L D A h o t :
  (∀ j, P j ↔ P' j) → dropping P x e c L D A h o t → dropping P' x e c L D A h o t.
Proof.
  intros HP (a & hs & Ha & Hsh & Ho & Hlen & Hh & Hb). exists a, hs. split_and!; try done.
  intros i b Hi. destruct (Hb i b Hi) as (hi & Hhi & Hcase). exists hi. split; [done |]. by rewrite <-(HP i).
Qed.

(** All the buckets were dropped. *)
Lemma dropping_done x e c L D A h o t : dropping (λ _, True) x e c L D A h o t →
  ∃ a, arrays t !! x = Some a ∧ old_array a = o ∧ (concat (dropped <$> buckets a)).*1 ≡ₚ h.
Proof.
  intros (a & hs & Ha & Hsh & Ho & Hlen & Hh & Hb). exists a. split; [done |]. split; [done |]. rewrite Hh.
  assert (Hl : length (buckets a) = length hs) by (by rewrite (sh_buckets _ _ Hsh)).
  assert (Hb' : ∀ i b, buckets a !! i = Some b → ∃ hi, hs !! i = Some hi ∧ (dropped b).*1 ≡ₚ hi).
  { intros i b Hi. destruct (Hb i b Hi) as (hi & Hhi & [[_ Hd] | [Hf _]]); [by exists hi | by destruct Hf]. }
  clear Hsh Ho Hlen Hh Ha Hb. rename Hb' into Hb. revert hs Hb Hl. generalize (buckets a) as bs. clear. induction bs as [| b bs IH]; intros hs Hb Hl.
  - by destruct hs.
  - destruct hs as [| h hs]; [done |]. cbn. rewrite fmap_app.
    destruct (Hb 0%nat b eq_refl) as (hi & [= ->] & Hd).
    rewrite Hd. apply Permutation_app_head, IH; [| by injection Hl].
    intros i b' Hi. apply (Hb (S i) b' Hi).
Qed.

(** ** [drop_array] *)

Lemma arr_dropping (P : nat → Prop) `{!∀ i, Decision (P i)} x e c L D A h o w t :
  arr x e c L D A h o w t →
  (∀ i, (i < 2 ^ e)%nat → P i → TYPE ≠ OPTIMISTIC ∧ part e i A = ∅) → dropping P x e c L D A h o t.
Proof.
  intros (a & Ha & (Hsh & hs & Hlen & Hh & Hb) & Ho & _) HP. exists a, hs. split_and!; try done.
  intros i b Hi. destruct (Hb i b Hi) as (hi & Hhi & Hok). exists hi. split; [done |].
  destruct (decide (P i)) as [Hp | Hp]; [left | by right]. split; [done |].
  assert (Hlt : (i < 2 ^ e)%nat).
  { apply lookup_lt_Some in Hi. by rewrite (sh_buckets _ _ Hsh), (sh_len _ _ Hsh) in Hi. }
  destruct (HP i Hlt Hp) as [Ht Hpart]. rewrite Hpart in Hok. by eapply empty_bucket_holds.
Qed.

(** The first bucket that is dropped. *)
Definition first_bucket w : nat := if decide (TYPE = OPTIMISTIC) then O else Z.to_nat w.

(** The array is freed; what is left of the memory stays. *)
Definition freed x h t t' : Prop :=
  arrays t' = delete x (arrays t) ∧ bucket_array t' = bucket_array t ∧ minimum_capacity t' = minimum_capacity t ∧
  cloned t' = cloned t ∧ (disposed t').*1 ≡ₚ (disposed t).*1 ++ h.

Lemma runs_drop_buckets x e c L D A h o w t :
  arr x e c L D A h o w t → (c < n)%nat →
  (∀ i, (i < 2 ^ e)%nat → Z.of_nat i < w → TYPE = OPTIMISTIC ∨ part e i A = ∅) →
  runs (for_each (seq (first_bucket w) (2 ^ e - first_bucket w)) (λ index (_ : unit),
          at_bucket x index (drop_entries n) ;; Ret (Continue () : flow unit unit)) () ;;
        let! a := snapshot x in
        release_array (old_array a) ;;
        Act (λ t, ((), add_disposed (concat (dropped <$> buckets a)) (set_arrays (delete x (arrays t)) t))) Ret) t
    (λ _ t', freed x h t t' ∧ garbage t' = garbage t ++ option_list o).
Proof.
  intros Harr Hc HA.
  eapply (runs_call _ _ _ (λ _ t', dropping (λ _, True) x e c L D A h o t' ∧ ∃ a, t' = put_array x a t)).
  - assert (Hdec : ∀ l i, Decision ((i < first_bucket w)%nat ∨ i ∈ (l : list nat))) by (intros; apply _).
    eapply (runs_for_each (λ l (_ : unit) s, dropping (λ i, (i < first_bucket w)%nat ∨ i ∈ l) x e c L D A h o s ∧ ∃ a, s = put_array x a t)).
    + intros l1 i l2 [] s Hl [Hs (a & ->)].
      pose proof (f_equal (λ l, l !! length l1) Hl) as Hlk. cbn in Hlk. rewrite list_lookup_middle in Hlk by done.
      apply lookup_seq in Hlk as [Hi Hlt]. eapply runs_call; [eapply (runs_drop_index _ _ _ _ _ _ _ _ _ _ i Hs); [lia | | done] |].
      * intros [Hlo | Hin]; [lia |]. pose proof (NoDup_seq (first_bucket w) (2 ^ e - first_bucket w)) as Hnd.
        rewrite Hl in Hnd. apply NoDup_app in Hnd as (_ & Hno & _). apply (Hno i Hin). by left.
      * intros u s' [Hs' (a' & ->)]. apply runs_ret. split.
        -- eapply dropping_ext; [| exact Hs']. intros j. cbn. rewrite elem_of_app, list_elem_of_singleton. tauto.
        -- exists a'. unfold put_array, set_arrays. cbn. f_equal. apply insert_insert_eq.
    + intros [] s [Hs Ha]. split; [| done].
      destruct Hs as (a & hs & Hla & Hsh & Ho & Hlen & Hh & Hb). exists a, hs. split_and!; try done.
      intros i b Hi. destruct (Hb i b Hi) as (hi & Hhi & Hcase). exists hi. split; [done |]. left. split; [done |].
      destruct Hcase as [[_ Hd] | [Hno _]]; [done |]. exfalso. apply Hno. rewrite elem_of_seq.
      apply lookup_lt_Some in Hi. rewrite (sh_buckets _ _ Hsh), (sh_len _ _ Hsh) in Hi. lia.
    + split.
      * apply (arr_dropping _ _ _ _ _ _ _ _ _ w); [exact Harr |]. intros i Hi [Hlt | Hin]; [| by apply not_elem_of_nil in Hin].
        unfold first_bucket in Hlt. destruct (decide (TYPE = OPTIMISTIC)) as [Ht | Ht]; [lia |].
        split; [done |]. destruct (HA i Hi ltac:(lia)); done.
      * destruct Harr as (a & Ha & _). exists a. unfold put_array, set_arrays. destruct t; cbn in *. f_equal. by rewrite insert_id.
  - intros u t1 [Hd (a0 & ->)]. destruct (dropping_done _ _ _ _ _ _ _ _ _ Hd) as (a & Ha & Ho & Hh).
    assert (a = a0) as -> by (cbn in Ha; rewrite lookup_insert_eq in Ha; congruence).
    eapply runs_snapshot; [exact Ha |]. rewrite Ho.
    eapply (runs_call _ _ _ (λ _ t', t' = set_garbage (garbage t ++ option_list o) (put_array x a0 t))).
    { destruct o as [y |]; cbn [release_array option_list].
      - apply runs_load. apply runs_act. cbn [fst snd]. by apply runs_ret.
      - apply runs_ret. rewrite app_nil_r. by destruct t. }
    intros v t2 ->. apply runs_act. cbn [fst snd]. apply runs_ret. split; [| done].
    split; [| split; [done | split; [done | split; [done |]]]].
    + cbn. apply delete_insert_eq.
    + cbn. rewrite fmap_app. by rewrite Hh.
Qed.

(** An array without an old one. *)
Lemma runs_drop_array depth x e c L D A h w t :
  arr x e c L D A h None w t → (c < n)%nat →
  (∀ i, (i < 2 ^ e)%nat → Z.of_nat i < w → TYPE = OPTIMISTIC ∨ part e i A = ∅) →
  runs (drop_array TYPE n (S depth) x) t (λ _ t', freed x h t t' ∧ garbage t' = garbage t).
Proof.
  intros Harr Hc HA. pose proof Harr as (a & Ha & Hok & Ho & Hwa). pose proof (array_ok_shape _ _ _ _ _ _ _ _ _ Hok) as Hsh.
  cbn [drop_array]. eapply runs_snapshot; [exact Ha |]. rewrite Ho. cbn [bind]. rewrite Hwa, (sh_len _ _ Hsh).
  eapply runs_mono; [| eapply runs_drop_buckets; [exact Harr | done | done]].
  intros u t' [Hf Hg]. split; [done |]. by rewrite app_nil_r in Hg.
Qed.

(** ** The collector *)

(** An array that can be dropped at any time. *)
Definition disposable c t (y : nat) h : Prop :=
  ∃ e L D A w, arr y e c L D A h None w t ∧
    ∀ i, (i < 2 ^ e)%nat → Z.of_nat i < w → TYPE = OPTIMISTIC ∨ part e i A = ∅.

Lemma droppable_disposable c t y h : droppable c t y h → disposable c t y h.
Proof.
  intros (e & L & D & w & Harr & _). exists e, L, D, ∅, w. split; [done |]. intros i _ _. right. apply part_empty.
Qed.

Lemma disposable_frame c t t' y h : arrays t' !! y = arrays t !! y → disposable c t y h → disposable c t' y h.
Proof. intros Hf (e & L & D & A & w & Harr & HA). exists e, L, D, A, w. split; [by eapply arr_frame | done]. Qed.

Definition collect_step (_ : unit) : prog (Table K V) (flow unit unit) :=
  let! g := load garbage in
  match g with
  | [] => Ret (Break ())
  | x :: g => store set_garbage g ;; drop_array TYPE n 2 x ;; Ret (Continue ())
  end.

(** The arrays [g] were dropped. *)
Definition collected (g : list nat) h t t' : Prop :=
  bucket_array t' = bucket_array t ∧ cloned t' = cloned t ∧ (disposed t').*1 ≡ₚ (disposed t).*1 ++ h ∧
  (∀ z, z ∉ g → arrays t' !! z = arrays t !! z) ∧ dom (arrays t') = dom (arrays t) ∖ list_to_set g.

Lemma runs_collect_some {Q : unit → Table K V → Prop} c (g : list nat) :
  (c < n)%nat → ∀ fuel t hs rest, garbage t = g ++ rest → NoDup g → Forall2 (disposable c t) g hs →
  (∀ t', garbage t' = rest → collected g (concat hs) t t' → runs (loop fuel collect_step ()) t' Q) →
  runs (loop (length g + fuel) collect_step ()) t Q.
Proof.
  intros Hc. induction g as [| x g IH]; intros fuel t hs rest Hg Hnd Hall HQ.
  - apply Forall2_nil_inv_l in Hall as ->. apply HQ; [done |]. split_and!; try done.
    + by rewrite app_nil_r.
    + cbn. by rewrite difference_empty_L.
  - apply Forall2_cons_inv_l in Hall as (h & hs' & (e & L & D & A & w & Harr & HA) & Hall & ->).
    apply NoDup_cons in Hnd as [Hx Hnd]. cbn [length Nat.add]. apply runs_loop. unfold collect_step at 1. apply runs_load.
    rewrite Hg. cbn [app]. apply runs_act. cbn [fst snd bind].
    eapply runs_call; [eapply (runs_drop_array 1 x e c L D A h w); [exact Harr | done | exact HA] |].
    intros u t1 [(Har & Hptr & Hmn & Hcl & Hdis) Hg1]. apply runs_ret. cbn in Har, Hptr, Hcl, Hdis, Hg1.
    apply (IH fuel t1 hs' rest); [exact Hg1 | done | |].
    + eapply Forall2_in; [| exact Hall]. intros y hy Hy. apply disposable_frame. rewrite Har.
      apply lookup_delete_ne. congruence.
    + intros t' Hg' (H1 & H2 & H3 & H4 & H5). apply HQ; [done |]. split; [congruence |]. split; [congruence |].
      split; [rewrite H3, Hdis; cbn [concat]; by rewrite app_assoc |]. split.
      * intros z [Hzx Hz]%not_elem_of_cons. rewrite H4, Har by done. by apply lookup_delete_ne.
      * rewrite H5, Har, dom_delete_L. apply set_eq. intros z.
        rewrite !elem_of_difference, !elem_of_list_to_set, elem_of_singleton, elem_of_cons. tauto.
Qed.

Lemma runs_collect_all c t hs (Q : unit → Table K V → Prop) (fuel : nat) :
  (c < n)%nat → NoDup (garbage t) → Forall2 (disposable c t) (garbage t) hs → (0 < fuel)%nat →
  (∀ t', collected (garbage t) (concat hs) t t' → Q () t') →
  runs (loop (length (garbage t) + fuel) collect_step ()) t Q.
Proof.
  intros Hc Hnd Hall Hf HQ. eapply (runs_collect_some c (garbage t) Hc fuel t hs []); [by rewrite app_nil_r | done | done |].
  intros t' Hg Hcol. destruct fuel as [| fuel]; [lia |]. apply runs_loop. unfold collect_step. apply runs_load. rewrite Hg.
  apply runs_ret. by apply HQ.
Qed.

(** ** The container *)

Context (maximum_capacity : Z) (F : Z).
Local Notation steady := (steady TYPE hash maximum_capacity F).
Local Notation live := (live TYPE hash maximum_capacity F).

(** Nothing is left in the memory; a key that is neither handed back nor dropped is lost. *)
Definition finished ins outs t : Prop :=
  arrays t = ∅ ∧ bucket_array t = (None, Tag.None) ∧ (disposed t).*1 ++ outs ≡ₚ ins ++ (cloned t).*1.

Lemma garbage_disposable c h t : garbage_ok TYPE hash c h t → ∃ hs, Forall2 (disposable c t) (garbage t) hs ∧ h ≡ₚ concat hs.
Proof.
  intros (hs & Hall & Hh). exists hs. split; [| done]. eapply Forall2_impl; [exact Hall |].
  intros y hy. apply droppable_disposable.
Qed.

(** The last step: all the arrays that are left are in the hands of the collector. *)
Lemma runs_collect I ins outs t hs :
  (I < n)%nat → bucket_array t = (None, Tag.None) → NoDup (garbage t) → dom (arrays t) = list_to_set (garbage t) →
  Forall2 (disposable I t) (garbage t) hs → concat hs ++ (disposed t).*1 ++ outs ≡ₚ ins ++ (cloned t).*1 →
  runs (collect TYPE n) t (λ _ t', finished ins outs t').
Proof.
  intros Hn Hptr Hnd Hdom Hall Hperm. unfold collect. apply runs_load.
  apply (runs_collect_all I t hs); [done | done | done | lia |].
  intros t' (Hp & Hcl & Hdis & _ & Hd). split; [| split].
  - apply dom_empty_iff_L. rewrite Hd, Hdom. apply difference_diag_L.
  - by rewrite Hp.
  - rewrite Hcl. solve_perm.
Qed.

(** Before the collector runs. *)
Definition released I ins outs t : Prop :=
  bucket_array t = (None, Tag.None) ∧ NoDup (garbage t) ∧ dom (arrays t) = list_to_set (garbage t) ∧
  ∃ hs, Forall2 (disposable I t) (garbage t) hs ∧ concat hs ++ (disposed t).*1 ++ outs ≡ₚ ins ++ (cloned t).*1.

Lemma runs_collect_released I ins outs t :
  (I < n)%nat → released I ins outs t → runs (collect TYPE n) t (λ _ t', finished ins outs t').
Proof. intros Hn (? & ? & ? & hs & ? & ?). by eapply runs_collect. Qed.

(** The arrays of a table. *)
Lemma steady_parts C D A Ao w I mn m ins outs t :
  steady C ∅ ∅ D A Ao w I mn m ins outs t →
  ∃ a hx ho hg hs, arrays t !! cur C = Some a ∧ shape a (exp C) ∧ old_array a = old C ∧ num_cleared_buckets a = 0 ∧
    arr (cur C) (exp C) I ∅ ∅ A hx (old C) 0 t ∧
    match old C with
    | Some y => y ≠ cur C ∧ arr y (old_exp C) I ∅ D Ao ho None w t ∧
        ∀ i, (i < 2 ^ old_exp C)%nat → Z.of_nat i < w → TYPE = OPTIMISTIC ∨ part (old_exp C) i Ao = ∅
    | None => ho = []
    end ∧
    Forall2 (disposable I t) (garbage t) hs ∧ hg ≡ₚ concat hs ∧
    hx ++ ho ++ hg ++ (disposed t).*1 ++ outs ≡ₚ ins ++ (cloned t).*1.
Proof.
  intros [Ht _ Hw _ _ _ _]. destruct (tab_array _ _ Ht) as (a & Ha & Hsh & Hoa & Hwa).
  destruct (tab_hold _ _ _ _ _ _ _ _ _ _ _ _ _ Ht) as (hx & ho & hg & Hx & Hold & Hg & Hperm).
  destruct (garbage_disposable _ _ _ Hg) as (hs & Hall & Hhs).
  exists a, hx, ho, hg, hs. do 4 (split; [done |]). split; [eapply arr_mono; [| exact Hx]; lia |].
  split; [| done]. destruct (old C) as [y |] eqn:Ho; [| by destruct Hold].
  split; [by eapply tab_old_ne |]. split; [exact Hold |]. intros i Hi Hlt. right.
  eapply killed_part; [exact Ht | exact Ho | done |]. by apply Hw.
Qed.

Lemma nodup_split (x : nat) (l g : list nat) : NoDup (x :: l ++ g) → NoDup g ∧ x ∉ g ∧ ∀ y, y ∈ l → y ∉ g.
Proof.
  intros [Hx Hnd]%NoDup_cons. apply NoDup_app in Hnd as (_ & Hl & Hg). split; [done |]. split; [| done].
  intros Hin. apply Hx, elem_of_app. by right.
Qed.

Lemma disposable_all c t t' (g : list nat) hs :
  (∀ y, y ∈ g → arrays t' !! y = arrays t !! y) → Forall2 (disposable c t) g hs → Forall2 (disposable c t') g hs.
Proof. intros Hf Hall. eapply Forall2_in; [| exact Hall]. intros y h Hy. apply disposable_frame. by apply Hf. Qed.

(** An array and its old one, which goes first. *)
Lemma runs_drop_both x y e eo c L Lo D Do A Ao h ho w t :
  TYPE ≠ OPTIMISTIC → (c < n)%nat → y ≠ x → arr x e c L D A h (Some y) 0 t → arr y eo c Lo Do Ao ho None w t →
  (∀ i, (i < 2 ^ eo)%nat → Z.of_nat i < w → TYPE = OPTIMISTIC ∨ part eo i Ao = ∅) →
  runs (drop_array TYPE n 2 x) t (λ _ t',
    arrays t' = delete x (delete y (arrays t)) ∧ bucket_array t' = bucket_array t ∧ cloned t' = cloned t ∧
    (disposed t').*1 ≡ₚ (disposed t).*1 ++ ho ++ h ∧ garbage t' = garbage t).
Proof.
  intros Ht Hc Hne Hx Hy HAo. pose proof Hx as (a & Ha & Hok & Hoa & Hwa).
  pose proof (array_ok_shape _ _ _ _ _ _ _ _ _ Hok) as Hsh.
  set (t2 := put_array x (set_old_array None a) t).
  assert (Hy2 : arr y eo c Lo Do Ao ho None w t2).
  { eapply arr_frame; [| exact Hy]. cbn. by apply lookup_insert_ne. }
  change (drop_array TYPE n 2 x) with (let! a := snapshot x in
    (match old_array a with
     | Some o => if decide (TYPE = OPTIMISTIC) then Ret () else at_array x (store set_old_array None) ;; drop_array TYPE n 1 o
     | None => Ret ()
     end) ;;
    for_each (seq (first_bucket (num_cleared_buckets a)) (array_len a - first_bucket (num_cleared_buckets a))) (λ index _,
      at_bucket x index (drop_entries n) ;; Ret (Continue () : flow unit unit)) () ;;
    let! a := snapshot x in
    release_array (old_array a) ;;
    Act (λ t, ((), add_disposed (concat (dropped <$> buckets a)) (set_arrays (delete x (arrays t)) t))) Ret).
  eapply runs_snapshot; [exact Ha |]. rewrite Hoa, (decide_False (P := TYPE = OPTIMISTIC)) by done.
  eapply (runs_call _ _ _ (λ _ t', freed y ho t2 t' ∧ garbage t' = garbage t2)).
  { apply runs_bind. eapply runs_at_array; [exact Ha |]. apply runs_act. cbn [fst snd]. apply runs_ret.
    eapply (runs_drop_array 0); [exact Hy2 | done | exact HAo]. }
  intros u t3 [(Har & Hptr & _ & Hcl & Hdis) Hg].
  assert (Hx3 : arr x e c L D A h None 0 t3).
  { exists (set_old_array None a). split; [rewrite Har, lookup_delete_ne by done; cbn; apply lookup_insert_eq |].
    pose proof (array_ok_fields _ _ _ _ _ _ _ _ _ None (num_cleared_buckets a) Hok) as Hok'. split; [by destruct a | by destruct a]. }
  rewrite Hwa, (sh_len _ _ Hsh).
  eapply runs_mono; [| eapply runs_drop_buckets; [exact Hx3 | done | intros; lia]].
  intros v t4 [(Har4 & Hptr4 & _ & Hcl4 & Hdis4) Hg4]. rewrite app_nil_r in Hg4.
  split; [| split; [by rewrite Hptr4, Hptr | split; [by rewrite Hcl4, Hcl | split; [| by rewrite Hg4, Hg]]]].
  - rewrite Har4, Har. cbn. apply map_eq. intros z. destruct (decide (z = x)) as [-> | Hzx]; [by rewrite !lookup_delete_eq |].
    rewrite !(lookup_delete_ne _ x) by done. destruct (decide (z = y)) as [-> | Hzy]; [by rewrite !lookup_delete_eq |].
    rewrite !(lookup_delete_ne _ y) by done. by apply lookup_insert_ne.
  - rewrite Hdis4, Hdis. cbn. by rewrite app_assoc.
Qed.

Lemma runs_drop_table_now C D A Ao w I mn m ins outs t :
  TYPE ≠ OPTIMISTIC → (I < n)%nat → steady C ∅ ∅ D A Ao w I mn m ins outs t →
  runs (drop_table TYPE n) t (λ _ t', released I ins outs t').
Proof.
  intros Ht Hn Hs. pose proof (st_tab _ _ _ _ _ _ _ _ _ _ _ _ _ _ _ _ _ Hs) as Htab.
  pose proof (tab_ids _ _ _ _ _ _ _ _ _ _ _ _ _ Htab) as Hids. pose proof (tab_dom _ _ _ _ _ _ _ _ _ _ _ _ _ Htab) as Hdom.
  destruct (steady_parts _ _ _ _ _ _ _ _ _ _ _ Hs) as (a & hx & ho & hg & hs & Ha & Hsh & Hoa & Hwa & Hx & Hold & Hall & Hhs & Hperm).
  destruct (nodup_split _ _ _ Hids) as (Hnd & Hxg & Hyg).
  unfold drop_table. apply runs_act. cbn [fst snd bind]. rewrite (tab_ptr _ _ _ _ _ _ _ _ _ _ _ _ _ Htab). cbn [fst].
  rewrite decide_False by done. set (t1 := set_bucket_array (None, Tag.None) t).
  destruct (old C) as [y |] eqn:Ho; cbn [option_list app] in *.
  - destruct Hold as (Hne & Hy & HAo).
    eapply runs_mono; [| eapply (runs_drop_both (cur C) y (exp C) (old_exp C) I ∅ ∅ ∅ D A Ao hx ho w t1); done].
    intros u t' (Har & Hptr & Hcl & Hdis & Hg). split; [by rewrite Hptr |]. rewrite Hg. split; [done |]. split.
    + rewrite Har, !dom_delete_L. cbn [t1 arrays set_bucket_array garbage]. rewrite Hdom. apply set_eq. intros z.
      rewrite !elem_of_difference, !elem_of_singleton, !elem_of_list_to_set, !elem_of_cons.
      split; [tauto |]. intros Hz. split; [split; [tauto |] |]; intros ->; [by apply (Hyg y); [left |] | done].
    + exists hs. split; [| rewrite Hcl; cbn [t1 cloned disposed set_bucket_array] in *; solve_perm].
      eapply disposable_all; [| exact Hall]. intros z Hz.
      rewrite Har, !lookup_delete_ne; [done | intros <-; by apply (Hyg y); [left |] | intros <-; done].
  - eapply runs_mono; [| eapply (runs_drop_array 1 (cur C) (exp C) I ∅ ∅ A hx 0 t1); [exact Hx | done | intros; lia]].
    intros u t' [(Har & Hptr & _ & Hcl & Hdis) Hg]. subst ho. split; [by rewrite Hptr |].
    rewrite Hg. split; [done |]. split.
    + rewrite Har, dom_delete_L. cbn [t1 arrays set_bucket_array garbage]. rewrite Hdom. apply set_eq. intros z.
      rewrite elem_of_difference, elem_of_singleton, !elem_of_list_to_set, elem_of_cons. split; [tauto |].
      intros Hz. split; [by right |]. intros ->. done.
    + exists hs. split; [| rewrite Hcl; cbn [t1 cloned disposed set_bucket_array] in *; solve_perm].
      eapply disposable_all; [| exact Hall]. intros z Hz. rewrite Har. apply lookup_delete_ne. intros <-. done.
Qed.

(** An [OPTIMISTIC] array goes to the collector with its old one. *)
Lemma runs_drop_optimistic x e c L D A h o w t depth :
  TYPE = OPTIMISTIC → (c < n)%nat → arr x e c L D A h o w t →
  runs (drop_array TYPE n (S depth) x) t (λ _ t', freed x h t t' ∧ garbage t' = garbage t ++ option_list o).
Proof.
  intros Ht Hc Harr. pose proof Harr as (a & Ha & Hok & Ho & Hwa). pose proof (array_ok_shape _ _ _ _ _ _ _ _ _ Hok) as Hsh.
  cbn [drop_array]. eapply runs_snapshot; [exact Ha |]. rewrite Ho.
  eapply (runs_call _ _ _ (λ _ t', t' = t)).
  { destruct o; [rewrite decide_True by done |]; by apply runs_ret. }
  intros u t1 ->. rewrite Hwa, (sh_len _ _ Hsh).
  eapply runs_drop_buckets; [exact Harr | done |]. intros i _ _. by left.
Qed.

Lemma runs_drop_table_later C D A Ao w I mn m ins outs t :
  TYPE = OPTIMISTIC → (I < n)%nat → steady C ∅ ∅ D A Ao w I mn m ins outs t →
  runs (drop_table TYPE n ;; collect TYPE n) t (λ _ t', finished ins outs t').
Proof.
  intros Ht Hn Hs. pose proof (st_tab _ _ _ _ _ _ _ _ _ _ _ _ _ _ _ _ _ Hs) as Htab.
  pose proof (tab_ids _ _ _ _ _ _ _ _ _ _ _ _ _ Htab) as Hids. pose proof (tab_dom _ _ _ _ _ _ _ _ _ _ _ _ _ Htab) as Hdom.
  destruct (steady_parts _ _ _ _ _ _ _ _ _ _ _ Hs) as (a & hx & ho & hg & hs & Ha & Hsh & Hoa & Hwa & Hx & Hold & Hall & Hhs & Hperm).
  destruct (nodup_split _ _ _ Hids) as (Hnd & Hxg & Hyg).
  unfold drop_table. apply runs_act. cbn [fst snd bind]. rewrite (tab_ptr _ _ _ _ _ _ _ _ _ _ _ _ _ Htab). cbn [fst].
  rewrite decide_True by done. apply runs_load. apply runs_act. cbn [fst snd bind].
  set (t1 := set_garbage _ _). assert (Hg1 : garbage t1 = garbage t ++ [cur C]) by done.
  unfold collect. apply runs_load. rewrite Hg1, length_app. cbn [length].
  replace (length (garbage t) + 1 + 2)%nat with (length (garbage t) + 3)%nat by lia.
  eapply (runs_collect_some I (garbage t) Hn 3 t1 hs [cur C]); [done | done | exact Hall |].
  intros t2 Hg2 (Hptr2 & Hcl2 & Hdis2 & Hfr2 & Hd2). apply runs_loop. unfold collect_step at 1. apply runs_load.
  rewrite Hg2. apply runs_act. cbn [fst snd bind].
  eapply runs_call; [eapply (runs_drop_optimistic (cur C) (exp C) I ∅ ∅ A hx (old C) 0); [done | done |] |].
  { eapply arr_frame; [| exact Hx]. cbn. by apply Hfr2. }
  intros u t3 [(Har3 & Hptr3 & _ & Hcl3 & Hdis3) Hg3]. apply runs_ret. cbn in Har3, Hptr3, Hcl3, Hdis3, Hg3.
  assert (Hfin : ∀ t' h, collected (garbage t3) h t3 t' → h ≡ₚ ho → finished ins outs t').
  { intros t' h (Hptr' & Hcl' & Hdis' & _ & Hd') Hh. split; [| split].
    - apply dom_empty_iff_L. rewrite Hd', Har3, dom_delete_L, Hd2, Hg3. cbn [t1 arrays set_garbage set_bucket_array]. rewrite Hdom.
      apply set_eq. intros z. rewrite !elem_of_difference, elem_of_singleton, !elem_of_list_to_set, elem_of_cons, elem_of_app.
      split; [tauto | by intros ?%not_elem_of_empty].
    - by rewrite Hptr', Hptr3, Hptr2.
    - rewrite Hcl', Hcl3, Hcl2. cbn [t1 cloned disposed set_garbage set_bucket_array] in *. solve_perm. }
  destruct (old C) as [y |] eqn:Ho; cbn [option_list] in Hg3.
  - destruct Hold as (Hne & Hy & HAo). replace 2%nat with (length (garbage t3) + 1)%nat by (by rewrite Hg3).
    apply (runs_collect_all I t3 [ho]); [done | rewrite Hg3; apply NoDup_singleton | | lia |].
    + rewrite Hg3. constructor; [| constructor]. exists (old_exp C), ∅, D, Ao, w. split; [| exact HAo].
      eapply arr_frame; [| exact Hy]. rewrite Har3, lookup_delete_ne by done. apply Hfr2, Hyg. by left.
    + intros t' Hc. eapply Hfin; [exact Hc |]. cbn. by rewrite app_nil_r.
  - replace 2%nat with (length (garbage t3) + 2)%nat by (by rewrite Hg3).
    apply (runs_collect_all I t3 []); [done | rewrite Hg3; constructor | rewrite Hg3; constructor | lia |].
    intros t' Hc. eapply Hfin; [exact Hc |]. by rewrite Hold.
Qed.

(** The container is dropped, and the collector runs. *)
Lemma runs_finish I mn m ins outs t :
  live I mn m ins outs t → (I < n)%nat →
  runs (drop_table TYPE n ;; collect TYPE n) t (λ _ t', finished ins outs t').
Proof.
  intros [Hno _ _ | C D A Ao w Hs] Hn.
  - eapply (runs_call _ _ _ (λ _ t', released I ins outs t')); [| intros; by eapply runs_collect_released].
    destruct Hno as [Hptr _ (hg & Hg & Hperm) Hids Hdom]. unfold drop_table. apply runs_act. cbn [fst snd bind]. rewrite Hptr.
    apply runs_ret. split; [done |]. split; [done |]. split; [done |].
    destruct (garbage_disposable _ _ _ Hg) as (hs & Hall & Hhs). exists hs. split; [exact Hall |]. cbn. by rewrite <-Hhs.
  - destruct (decide (TYPE = OPTIMISTIC)) as [Ht | Ht]; [by eapply runs_drop_table_later |].
    eapply runs_call; [by eapply runs_drop_table_now |]. intros u t' Hr. by eapply runs_collect_released.
Qed.
End Drop.
