(* ===== verification/TableEntry.v ===== *)
(** * Locked entries, and what containers do with them *)
From S2P Require Import Prelude Atomic Tag Lru Bucket BucketInv BucketQuery BucketOps BucketSpec BucketLinks BucketIter BucketProps BucketArray Rehash HashTable TableInv TableRelocate TableRehash TableResize TableOps TableKey TableScan.

Local Open Scope Z_scope.

(** ** Locked entries

    The handles to an entry, or to a place for one, of all the containers: what can be done
    with the locked bucket, and how [lock_first_entry] and [LockedEntry::next] go from one
    entry to the next one. *)

Section Entry.
Context {K V : Type} `{Countable K} (TYPE : bucket_type) (hash : K → Z).
Context (Hhash : ∀ k, in_word 64 (hash k)) (n : nat).
Context (maximum_capacity : Z) (kmax : Z) (Hk : 6 ≤ kmax ≤ 63) (Hmaximum : maximum_capacity = 2 ^ kmax).
Context (F : Z).

Implicit Types (A m mb : gmap K V) (b : Bucket K V) (t : Table K V) (C : config)
  (i j x I c : nat) (mn : Z) (h ins outs : list K) (k : K) (v : V) (e : LockedEntry) (rest : list (K * V)).

Local Notation wf := (wf TYPE (phash hash)).
Local Notation idx := (idx hash).
Local Notation part := (part hash).
Local Notation steady := (steady TYPE hash maximum_capacity F).
Local Notation live := (live TYPE hash maximum_capacity F).
Local Notation at_key := (at_key TYPE hash maximum_capacity F).
Local Notation at_scan := (at_scan TYPE hash maximum_capacity F).
Local Notation located := (located TYPE hash).
Local Notation reserved := (reserved TYPE hash maximum_capacity F).
Local Notation budget := (budget n).

(** ** The entry of a key *)

Lemma runs_entry_get k v e C I mn m ins outs t :
  reserved k e C I mn m ins outs t → m !! k = Some v →
  runs (at_bucket (locker e) (index e) (ptr_get (entry_ptr e))) t (λ r t', t' = t ∧ r = (k, v)).
Proof.
  intros [Hkey Hin] Hm. rewrite Hm in Hin. by eapply (runs_ptr_get_key TYPE hash maximum_capacity F k v).
Qed.

Lemma runs_entry_set k v v' e C I mn m ins outs t :
  reserved k e C I mn m ins outs t → m !! k = Some v →
  runs (at_bucket (locker e) (index e) (ptr_set (entry_ptr e) v')) t (λ _ t', reserved k e C I mn (<[k := v']> m) ins outs t').
Proof.
  intros [Hkey Hin] Hm. rewrite Hm in Hin.
  eapply runs_mono; [| by eapply (runs_ptr_set_key TYPE hash Hhash maximum_capacity kmax Hk Hmaximum F k v)].
  intros r t' [Hkey' Hin']. split; [exact Hkey' |]. by rewrite lookup_insert_eq.
Qed.

Lemma runs_entry_insert k v e C I mn m ins outs t :
  reserved k e C I mn m ins outs t → m !! k = None → budget (S I) →
  runs (insert_with (λ _, at_bucket (locker e) (index e)) n (phash hash k) (Ret ((k, v), ()))) t (λ r t',
    reserved k {| locker := locker e; index := index e; entry_ptr := r.1 |} C (S I) mn (<[k := v]> m) (k :: ins) outs t').
Proof.
  intros [Hkey _] Hm Hn.
  eapply runs_mono; [| by eapply (runs_insert_located TYPE hash Hhash n maximum_capacity kmax Hk Hmaximum F k v)].
  intros r t' [Hkey' Hin']. split; [exact Hkey' |]. by rewrite lookup_insert_eq.
Qed.

Lemma reserved_valid k e C I mn m ins outs t :
  reserved k e C I mn m ins outs t → is_valid (entry_ptr e) = bool_decide (is_Some (m !! k)).
Proof. intros [_ (b & _ & Hloc)]. by eapply located_valid. Qed.

(** The end of [OccupiedEntry::remove_entry]: the table may be shrunk. *)
Lemma runs_entry_removed {R} (next : prog (Table K V) R) k e C I mn m ins outs t Q :
  at_key k C (locker e) (index e) true I mn m ins outs t → budget I →
  (∀ t', live I mn m ins outs t' → runs next t' Q) →
  runs (let! num := at_bucket (locker e) (index e) (load num_entries) in
        let! rebuild := at_bucket (locker e) (index e) (load (need_rebuild TYPE)) in
        let! shrunk :=
          if (num <=? 1) || rebuild then
            let! p := load bucket_array in
            match p.1 with
            | None => Ret false
            | Some current =>
                let! a := snapshot current in
                if negb (has_old_array a) && within_sampling_range a (index e) then
                  drop_entry e ;;
                  try_shrink_or_rebuild TYPE maximum_capacity n current (index e) ;;
                  Ret true
                else Ret false
            end
          else Ret false in
        (if shrunk : bool then Ret () else drop_entry e) ;; next) t Q.
Proof.
  intros Hkey Hn Hnext.
  destruct (at_key_same _ _ Hhash _ _ Hk Hmaximum _ _ _ _ _ _ _ _ _ _ _ _ Hkey) as (b & _ & _ & _ & Hb & _).
  eapply runs_bucket_load; [exact Hb |]. eapply runs_bucket_load; [exact Hb |].
  assert (Hdrop : runs (drop_entry e) t (λ _ t', at_key k C (locker e) (index e) false I mn m ins outs t')).
  { eapply runs_unlock_key; done. }
  assert (Hend : runs (drop_entry e ;; next) t Q).
  { eapply runs_call; [exact Hdrop |]. intros u t' Hkey'. eapply Hnext, at_key_live; exact Hkey'. }
  destruct (_ || _ : bool); [| exact Hend].
  apply runs_bind. apply runs_load. rewrite (at_key_ptr _ _ _ _ _ _ _ _ _ _ _ _ _ _ _ Hkey). cbn [fst].
  destruct (at_key_cur _ _ _ _ _ _ _ _ _ _ _ _ _ _ _ Hkey) as (a & Ha & Hsh).
  eapply runs_snapshot; [exact Ha |]. destruct (_ && _ : bool) eqn:Hc; [| apply runs_ret; exact Hend].
  apply andb_prop in Hc as [Hold _]. apply negb_true_iff in Hold. unfold has_old_array in Hold.
  eapply runs_call; [exact Hdrop |]. intros u t2 Hkey2.
  destruct (at_key_steady _ _ _ _ _ _ _ _ _ _ _ _ _ _ Hkey2) as (D & A & Ao & w & Hs).
  assert (Hno : old C = None).
  { destruct Hkey as (D1 & A1 & Ao1 & w1 & Hs1).
    assert (Ht : ∃ Lx Lo, tab TYPE hash C Lx Lo D1 A1 Ao1 w1 I ins outs t).
    { destruct Hs1 as [[Hs1 _] | [Hs1 _]]; eexists _, _; apply Hs1. }
    destruct Ht as (Lx & Lo & Ht). destruct (tab_array _ _ Ht) as (a' & Ha' & _ & Ho & _).
    assert (a' = a) as -> by congruence. rewrite <-Ho. destruct (old_array a); [| done].
    cbn in Hold. done. }
  eapply runs_call; [eapply (runs_try_shrink TYPE hash Hhash n maximum_capacity kmax Hk Hmaximum F); [exact Hs | exact Hno | exact Hn] |].
  intros u2 t3 Hl. apply runs_ret. by apply Hnext.
Qed.

(** ** Handles that are held *)

(** The table between two operations, whatever keys went in and out. *)
Definition alive I mn m t : Prop := ∃ ins outs, live I mn m ins outs t.

(** An entry of [k], or a place for one, is held; its bucket is locked. *)
Definition holding k e I mn m t : Prop := ∃ C ins outs, reserved k e C I mn m ins outs t.

Lemma alive_mono I I' mn m t : alive I mn m t → (I ≤ I')%nat → alive I' mn m t.
Proof. intros (ins & outs & Hl) HI. exists ins, outs. by eapply live_moves; [exact Hl | done |]. Qed.

Lemma alive_size I mn m t : alive I mn m t → (size m ≤ I)%nat.
Proof.
  intros (ins & outs & Hl). destruct (live_ptr _ _ _ _ _ _ _ _ _ _ Hl) as [[_ ->] | (C & D & A & Ao & w & Hs & _)].
  - rewrite map_size_empty. apply Nat.le_0_l.
  - apply (steady_size _ _ _ _ _ _ _ _ _ _ _ _ _ _ _ _ _ Hs).
Qed.

Lemma holding_valid k e I mn m t : holding k e I mn m t → is_valid (entry_ptr e) = bool_decide (is_Some (m !! k)).
Proof. intros (C & ins & outs & Hr). by eapply reserved_valid. Qed.

Lemma runs_holding_get {R} k v e I mn m t (next : K * V → prog (Table K V) R) Q :
  holding k e I mn m t → m !! k = Some v → runs (next (k, v)) t Q →
  runs (let! r := at_bucket (locker e) (index e) (ptr_get (entry_ptr e)) in next r) t Q.
Proof.
  intros (C & ins & outs & Hr) Hm Hn. eapply runs_call; [by eapply (runs_entry_get k v) |]. by intros r t' [-> ->].
Qed.

Lemma runs_holding_set {R} k v v' e I mn m t (next : unit → prog (Table K V) R) Q :
  holding k e I mn m t → m !! k = Some v → (∀ t', holding k e I mn (<[k := v']> m) t' → runs (next ()) t' Q) →
  runs (let! r := at_bucket (locker e) (index e) (ptr_set (entry_ptr e) v') in next r) t Q.
Proof.
  intros (C & ins & outs & Hr) Hm Hn. eapply runs_call; [by eapply (runs_entry_set k v v') |].
  intros [] t' Hr'. apply Hn. by exists C, ins, outs.
Qed.

Lemma runs_holding_drop {R} k e I mn m t (next : unit → prog (Table K V) R) Q :
  holding k e I mn m t → (∀ t', alive I mn m t' → runs (next ()) t' Q) → runs (let! r := drop_entry e in next r) t Q.
Proof.
  intros (C & ins & outs & [Hr _]) Hn.
  eapply runs_call; [by eapply (runs_drop_entry TYPE hash Hhash maximum_capacity kmax Hk Hmaximum F k) |].
  intros [] t' Hl. apply Hn. by exists ins, outs.
Qed.

Lemma runs_holding_insert {R} k v e I mn m t (next : EntryPtr * () → prog (Table K V) R) Q :
  holding k e I mn m t → m !! k = None → budget (S I) →
  (∀ r t', holding k {| locker := locker e; index := index e; entry_ptr := r.1 |} (S I) mn (<[k := v]> m) t' → runs (next r) t' Q) →
  runs (let! r := insert_with (λ R, at_bucket (locker e) (index e)) n (partial_hash (hash k)) (Ret ((k, v), ())) in next r) t Q.
Proof.
  intros (C & ins & outs & Hr) Hm Hb Hn. eapply runs_call; [by eapply (runs_entry_insert k v) |].
  intros r t' Hr'. apply Hn. exists C, (k :: ins), outs. exact Hr'.
Qed.

(** [OccupiedEntry::remove_entry] of the containers that give entries back. *)
Lemma runs_holding_remove {R} k v e I mn m t (next : K * V → prog (Table K V) R) Q :
  TYPE ≠ OPTIMISTIC → holding k e I mn m t → m !! k = Some v → budget I →
  (∀ t', alive I mn (delete k m) t' → runs (next (k, v)) t' Q) →
  runs (let! r := at_bucket (locker e) (index e) (erase TYPE (entry_ptr e)) in
        match r with
        | None => Panic
        | Some r =>
            let! num := at_bucket (locker e) (index e) (load num_entries) in
            let! rebuild := at_bucket (locker e) (index e) (load (need_rebuild TYPE)) in
            let! shrunk :=
              if (num <=? 1) || rebuild then
                let! p := load bucket_array in
                match p.1 with
                | None => Ret false
                | Some current =>
                    let! a := snapshot current in
                    if negb (has_old_array a) && within_sampling_range a (index e) then
                      drop_entry e ;;
                      try_shrink_or_rebuild TYPE maximum_capacity n current (index e) ;;
                      Ret true
                    else Ret false
                end
              else Ret false in
            (if shrunk : bool then Ret () else drop_entry e) ;; next r
        end) t Q.
Proof.
  intros Ht (C & ins & outs & [Hkey Hin]) Hm Hb Hn. rewrite Hm in Hin.
  eapply runs_call; [by eapply (runs_erase_key TYPE hash Hhash maximum_capacity kmax Hk Hmaximum F k v) |].
  intros r t' [-> Hkey']. rewrite decide_False by done.
  eapply runs_entry_removed; [exact Hkey' | exact Hb |]. intros t2 Hl. apply Hn. by eexists _, _.
Qed.
End Entry.

(** ** The least recently used entries of a locked bucket

    What a cache does with a bucket that it holds, besides what every container does: an
    entry is promoted, or evicted to make room. *)

Section Lru.
Context {K V : Type} `{Countable K} (hash : K → Z).
Context (Hhash : ∀ k, in_word 64 (hash k)) (n : nat).
Context (maximum_capacity : Z) (kmax : Z) (Hk : 6 ≤ kmax ≤ 63) (Hmaximum : maximum_capacity = 2 ^ kmax).
Context (F : Z).

Implicit Types (m mb : gmap K V) (b : Bucket K V) (t : Table K V) (C : config) (I : nat) (mn : Z) (k : K) (v : V) (e : LockedEntry).

Local Notation bucket_ok := (bucket_ok CACHE hash).
Local Notation located := (located CACHE hash).
Local Notation holding := (holding CACHE hash maximum_capacity F).
Local Notation together := (together hash).

Lemma bucket_ok_lru c lk mb h b cs O M :
  bucket_ok c lk false mb h b → wf CACHE (phash hash) b cs O M → keyed M mb ∧ (length cs ≤ c)%nat ∧ h ≡ₚ holds b O ∧ ∃ l, lru_ok b l.
Proof.
  intros Hok Hwf. destruct (bucket_ok_wf _ _ _ _ _ _ _ _ _ _ _ Hok Hwf) as (? & ? & ? & _).
  destruct (wf_lru _ _ _ _ _ _ Hwf eq_refl) as [l Hl]. eauto.
Qed.

Lemma runs_holding_promote {R} k v e I mn m t (next : unit → prog (Table K V) R) Q :
  holding k e I mn m t → m !! k = Some v → (∀ t', holding k e I mn m t' → runs (next ()) t' Q) →
  runs (let! r := at_bucket (locker e) (index e) (update_lru_tail CACHE (entry_ptr e)) in next r) t Q.
Proof.
  intros (C & ins & outs & Hkey & (b & Hb & Hloc)) Hm Hn. rewrite Hm in Hloc.
  destruct (at_key_same _ _ Hhash _ _ Hk Hmaximum _ _ _ _ _ _ _ _ _ _ _ _ Hkey) as (b0 & h & mb & c & Hb0 & Hok & _ & _ & _ & _ & Hput).
  assert (b0 = b) as -> by congruence.
  destruct (located_wf _ _ _ _ _ _ _ _ _ _ Hok Hloc) as ([p i] & cs & O & M & Hptr & Hwf & _ & _ & _ & HM & _). rewrite Hptr.
  destruct (bucket_ok_lru _ _ _ _ _ _ _ _ Hok Hwf) as (Hkeyed & Hcs & Hh & l & Hl). destruct (bucket_ok_flags _ _ _ _ _ _ _ _ Hok).
  eapply runs_at_bind; [exact Hb | by eapply (runs_update_lru_tail CACHE (phash hash)) |].
  intros [] b' (Hwf' & (Hf1 & Hf2 & Hf3) & _). apply Hn. exists C, ins, outs. split.
  - apply Hput. exists cs, O, M. split; [exact Hwf' |]. split; [exact Hkeyed |]. split; [exact Hcs |].
    split; [by rewrite (holds_same b) |]. by rewrite Hf1, Hf2.
  - rewrite Hptr, Hm. eapply in_put_bucket; [exact Hb |]. by exists (p, i), cs, O, M.
Qed.

(** What is evicted for the key [k]: nothing, or one of 32 entries that have to be together
    with it. *)
Definition evicts k (r : option (K * V)) m m' : Prop :=
  match r with
  | Some kv => m !! kv.1 = Some kv.2 ∧ m' = delete kv.1 m ∧
      ∃ mb, is_Some (mb !! kv.1) ∧ together k mb m ∧ (BUCKET_LEN ≤ size mb)%nat
  | None => m' = m
  end.

Lemma full_size b cs O M mb :
  wf CACHE (phash hash) b cs O M → keyed M mb → (∀ i, (i < BUCKET_LEN)%nat → is_Some (M !! (None, i))) → (BUCKET_LEN ≤ size mb)%nat.
Proof.
  intros Hwf Hkeyed Hall. rewrite (keyed_size _ _ Hkeyed), <-size_dom.
  set (X := list_to_set (pair (@None nat) <$> seq 0 BUCKET_LEN) : gset pos).
  assert (Hsz : size X = BUCKET_LEN).
  { unfold X. rewrite size_list_to_set, length_fmap, length_seq; [done |].
    apply NoDup_fmap_2; [intros ? ? [= ->]; done | apply NoDup_seq]. }
  rewrite <-Hsz at 1. apply subseteq_size. intros q Hq. unfold X in Hq.
  apply elem_of_list_to_set, list_elem_of_fmap in Hq as (i & -> & Hi). apply elem_of_seq in Hi. apply elem_of_dom, Hall. lia.
Qed.

Lemma runs_holding_evict {R} k e I mn m t (next : option (K * V) → prog (Table K V) R) Q :
  holding k e I mn m t → m !! k = None →
  (∀ r m' t', evicts k r m m' → m' !! k = None → holding k e I mn m' t' → runs (next r) t' Q) →
  runs (let! r := at_bucket (locker e) (index e) (evict_lru_head CACHE) in next r) t Q.
Proof.
  intros (C & ins & outs & Hkey & (b & Hb & Hloc)) Hm Hn. rewrite Hm in Hloc.
  destruct (at_key_step_of _ _ Hhash _ _ Hk Hmaximum _ _ _ _ _ _ _ _ _ _ _ _ Hkey) as (b0 & h & mb & c & Hb0 & Hok & Hmk & _ & Htog & _ & Hput).
  assert (b0 = b) as -> by congruence. pose proof Hok as (cs & O & M & Hwf & _).
  destruct (bucket_ok_lru _ _ _ _ _ _ _ _ Hok Hwf) as (Hkeyed & Hcs & Hh & l & Hl). destruct (bucket_ok_flags _ _ _ _ _ _ _ _ Hok).
  eapply runs_at_bind; [exact Hb | by eapply (runs_evict_lru_head CACHE (phash hash)) |].
  intros [[k0 v0] |] b' Hr; cbn [fst] in Hr.
  - destruct Hr as [(HM & Hwf' & _ & Hall) (Hf1 & Hf2 & Hf3)].
    assert (Hmb : mb !! k0 = Some v0) by (apply (keyed_lookup _ _ Hkeyed k0 v0); eauto).
    assert (Hm0 : m !! k0 = Some v0) by (eapply lookup_weaken; [exact Hmb | apply Htog]).
    pose proof (full_size _ _ _ _ _ Hwf Hkeyed Hall) as Hfull.
    assert (HO : O !! (None, default 0%nat (last l)) = Some (k0, v0)) by (eapply lookup_weaken; [exact HM | by eapply wf_sub]).
    apply (Hn _ (delete k0 m)).
    + split; [exact Hm0 |]. split; [done |]. exists mb. split; [by eexists |]. by split.
    + apply lookup_delete_None. by right.
    + exists C, ins, (k0 :: outs). split.
      * change (delete k0 m) with (partial_alter (λ _ : option V, None) k0 m).
        eapply (Hput k0 true I None _ ins (k0 :: outs)); [right; by eexists | done | | by left |].
        { eexists cs, _, _. split; [exact Hwf' |]. split; [by eapply keyed_delete |]. split; [lia |]. split; [reflexivity |].
          by rewrite Hf1, Hf2. }
        rewrite Hh, (holds_delete b b' O _ (k0, v0)) by done. cbn [fst]. solve_perm.
      * assert (delete k0 m !! k = None) as -> by (apply lookup_delete_None; by right).
        eapply in_put_bucket; [exact Hb | exact Hloc].
  - destruct Hr as [(-> & _) _]. apply (Hn None m); [done | done |]. exists C, ins, outs. split.
    + rewrite part_put_get by exact Hb. exact Hkey.
    + rewrite Hm. eapply in_put_bucket; [exact Hb | exact Hloc].
Qed.
End Lru.

(** ** A new version of an entry

    How an [OPTIMISTIC] container replaces the value of an entry that readers may be looking
    at: a second entry of the same key is inserted, then the first one is erased. *)

Section Update.
Context {K V : Type} `{Countable K} (hash : K → Z).
Context (Hhash : ∀ k, in_word 64 (hash k)) (n : nat).
Context (maximum_capacity : Z) (kmax : Z) (Hk : 6 ≤ kmax ≤ 63) (Hmaximum : maximum_capacity = 2 ^ kmax).
Context (F : Z).

Implicit Types (m mb : gmap K V) (b : Bucket K V) (t : Table K V) (C : config) (I : nat) (mn : Z) (k : K) (v : V) (e : LockedEntry).

Local Notation bucket_ok := (bucket_ok OPTIMISTIC hash).
Local Notation holding := (holding OPTIMISTIC hash maximum_capacity F).
Local Notation budget := (budget n).

(** The two entries of the key, one after the other. *)
Lemma keyed_update (M : gmap pos (K * V)) mb q q' k v v' :
  keyed M mb → M !! q = Some (k, v) → M !! q' = None →
  keyed (delete q (<[q' := (k, v')]> M)) (<[k := v']> mb).
Proof.
  intros Hkey Hq Hq'. assert (Hne : q ≠ q') by congruence. rewrite delete_insert_ne by done.
  rewrite <-(insert_delete_eq mb). apply keyed_insert; [by eapply keyed_delete | | apply lookup_delete_eq].
  by rewrite lookup_delete_ne.
Qed.

Lemma runs_update_bucket c h mb b cs O M q k v v' (slot : option (option nat * nat)) :
  bucket_ok c true false mb h b → wf OPTIMISTIC (phash hash) b cs O M → M !! q = Some (k, v) → slot_free b slot →
  Z.of_nat (size mb) < u32_max →
  runs (insert_at slot (phash hash k) (k, v') ;; erase OPTIMISTIC (ptr_of q)) b (λ _ b',
    bucket_ok (S c) true false (<[k := v']> mb) (k :: h) b').
Proof.
  intros Hok Hwf Hq Hslot Hsz. destruct (bucket_ok_wf _ _ _ _ _ _ _ _ _ _ _ Hok Hwf) as (Hkey & Hcs & Hh & Hlk & Hkl).
  eapply runs_call; [eapply (runs_insert_at OPTIMISTIC (phash hash) b cs O M slot _ (k, v')); [done | | done |] |].
  { rewrite (wf_num _ _ _ _ _ _ Hwf), <-(keyed_size _ _ Hkey). lia. }
  { destruct slot as [[p i] |]; done. }
  intros r b1 (q' & cs' & _ & HO & HM & Hwf1 & (Hf1 & Hf2 & Hf3) & _ & Hcs').
  assert (Hne : q' ≠ q) by congruence.
  eapply runs_mono; [| eapply (runs_erase OPTIMISTIC (phash hash)); [exact Hwf1 | by rewrite lookup_insert_ne]].
  intros r2 b2 (_ & Hwf2 & Hg1 & Hg2 & Hg3). rewrite decide_True in Hwf2 by done.
  exists cs', (<[q' := (k, v')]> O), (delete q (<[q' := (k, v')]> M)). split; [exact Hwf2 |].
  split; [by eapply keyed_update |]. split; [rewrite Hcs'; destruct slot; cbn; lia |].
  split; [rewrite (holds_insert b b2 O q' (k, v')) by (done || congruence); by rewrite Hh |].
  split; [congruence |]. split; [congruence | done].
Qed.

(** [OccupiedEntry::update]. *)
Lemma runs_holding_update k v v' e I mn m t :
  holding k e I mn m t → m !! k = Some v → budget (S I) →
  runs (let! x := at_bucket (locker e) (index e) (ptr_get (entry_ptr e)) in
        let! partial_hash := at_bucket (locker e) (index e) (ptr_partial_hash (entry_ptr e)) in
        let! _ := insert_with (λ R, at_bucket (locker e) (index e)) n partial_hash (Ret ((x.1, v'), ())) in
        let! _ := at_bucket (locker e) (index e) (erase OPTIMISTIC (entry_ptr e)) in
        drop_entry e) t (λ _ t', alive OPTIMISTIC hash maximum_capacity F (S I) mn (<[k := v']> m) t').
Proof.
  intros (C & ins & outs & Hkey & (b & Hb & Hloc)) Hm [Hn Hmax]. rewrite Hm in Hloc.
  destruct (at_key_step _ _ Hhash _ _ Hk Hmaximum _ _ _ _ _ _ _ _ _ _ _ _ Hkey) as (b0 & h & mb & c & Hb0 & Hok & Hbk & Hsz & _ & Hc & Hput).
  assert (b0 = b) as -> by congruence.
  destruct (located_wf _ _ _ _ _ _ _ _ _ _ Hok Hloc) as (q & cs & O & M & Hptr & Hwf & _ & _ & _ & Hq & _). rewrite Hptr.
  eapply (runs_read_bind _ _ _ _ _ b (λ r, r = (k, v))); [exact Hb | |].
  { eapply runs_mono; [| by eapply (runs_ptr_get OPTIMISTIC (phash hash))]. by intros r b' [-> ->]. }
  intros x ->.
  eapply (runs_read_bind _ _ _ _ _ b (λ r, r = phash hash k)); [exact Hb | |].
  { eapply runs_mono; [| by eapply (runs_ptr_partial_hash OPTIMISTIC (phash hash))]. by intros r b' [-> ->]. }
  intros r ->. unfold insert_with. apply runs_bind.
  eapply (runs_read_bind _ _ _ _ _ b (λ r, slot_free b r)); [exact Hb | |].
  { eapply runs_free_slot_of; [exact Hok | lia | lia]. }
  intros slot Hslot. cbn [bind fst snd].
  pose proof (runs_update_bucket c h mb b cs O M q k v v' slot Hok Hwf Hq Hslot ltac:(lia)) as Hup.
  unfold runs in Hup. rewrite run_bind in Hup.
  eapply (runs_at_bind _ _ _ _ _ b (λ _ b1, runs (erase OPTIMISTIC (ptr_of q)) b1 (λ _ b', bucket_ok (S c) true false (<[k := v']> mb) (k :: h) b'))).
  { exact Hb. }
  { unfold runs. destruct (run (insert_at slot (phash hash k) (k, v')) b); [exact Hup | done ..]. }
  intros ptr b1 Her. apply runs_ret. eapply runs_at_bind; [by eapply part_get_put | exact Her |]. intros r b2 Hok2.
  rewrite (part_put_put _ b) by exact Hb.
  assert (Hkey2 : at_key OPTIMISTIC hash maximum_capacity F k C (locker e) (index e) true (S I) mn (<[k := v']> m) (k :: ins) outs
    (put_bucket (locker e) (index e) b2 t)).
  { change (<[k := v']> m) with (partial_alter (λ _ : option V, Some v') k m).
    apply (Hput true (S I) (Some v') (k :: h)); [lia | | right; right; lia | solve_perm].
    eapply bucket_ok_mono; [| exact Hok2]. lia. }
  eapply runs_mono; [| by eapply (runs_drop_entry OPTIMISTIC hash Hhash maximum_capacity kmax Hk Hmaximum F k)].
  intros [] t' Hl. by exists (k :: ins), outs.
Qed.
End Update.
