(* ===== verification/TableIter.v ===== *)
(** * Iteration through locked entries

    [lock_first_entry] and [LockedEntry::next] visit every entry of the table once, bucket by
    bucket; the value of the entry that is locked may be changed on the way. *)
From S2P Require Import Prelude Atomic Tag Lru Bucket BucketInv BucketQuery BucketOps BucketSpec BucketLinks BucketDrop BucketIter BucketProps BucketArray Rehash HashTable TableInv TableRelocate TableRehash TableResize TableOps TableKey TableScan TableEntry.

Local Open Scope Z_scope.

Section Iter.
Context {K V : Type} `{Countable K} (TYPE : bucket_type) (hash : K → Z).
Context (Hhash : ∀ k, in_word 64 (hash k)) (n : nat).
Context (maximum_capacity : Z) (kmax : Z) (Hk : 6 ≤ kmax ≤ 63) (Hmaximum : maximum_capacity = 2 ^ kmax).
Context (F : Z).

Implicit Types (A m mb : gmap K V) (b : Bucket K V) (t : Table K V) (C : config)
  (i j x I c : nat) (mn : Z) (h ins outs : list K) (k : K) (v : V) (e : LockedEntry) (rest : list (K * V))
  (M O : gmap pos (K * V)) (q : pos) (l : list pos).

Local Notation wf := (wf TYPE (phash hash)).
Local Notation idx := (idx hash).
Local Notation part := (part hash).
Local Notation live := (live TYPE hash maximum_capacity F).
Local Notation at_scan := (at_scan TYPE hash maximum_capacity F).
Local Notation reserved := (reserved TYPE hash maximum_capacity F).
Local Notation budget := (budget n).

(** The entries of the buckets from [j] on. *)
Definition tail (e j : nat) m : list (K * V) :=
  concat ((λ i, map_to_list (part e i m)) <$> seq j (2 ^ e - j)).

Lemma tail_cons (e j : nat) m : (j < 2 ^ e)%nat → tail e j m = map_to_list (part e j m) ++ tail e (S j) m.
Proof. intros Hj. unfold tail. replace (2 ^ e - j)%nat with (S (2 ^ e - S j)) by lia. done. Qed.

Lemma tail_all (e : nat) m : (e ≤ 58)%nat → tail e 0 m ≡ₚ map_to_list m.
Proof. intros He. unfold tail. rewrite Nat.sub_0_r. by apply parts_all. Qed.

Lemma tail_end (e : nat) m : tail e (2 ^ e) m = [].
Proof. unfold tail. by rewrite Nat.sub_diag. Qed.

Lemma tail_skip (e j : nat) m : (j < 2 ^ e)%nat → part e j m = ∅ → tail e j m = tail e (S j) m.
Proof. intros Hj Hp. rewrite tail_cons, Hp, map_to_list_empty by done. done. Qed.

(** The bucket [index e] is locked and [entry_ptr e] points to the entry [k], [v]; the
    entries that come after it are [rest]. *)
Definition pointing b M mb (ptr : EntryPtr) k v rest : Prop :=
  ∃ cs O q l, ptr = ptr_of q ∧ wf b cs O M ∧ keyed M mb ∧ M !! q = Some (k, v) ∧ ahead cs (ptr_of q) l ∧
    NoDup (q :: entries_at M l) ∧ rest = values_at M (entries_at M l).

Definition cursor e k v rest I mn m ins outs t : Prop :=
  ∃ C b M rest', locker e = cur C ∧ (index e < 2 ^ exp C)%nat ∧ at_scan C (index e) true I mn m ins outs t ∧
    get_bucket (cur C) (index e) t = Some b ∧ pointing b M (part (exp C) (index e) m) (entry_ptr e) k v rest' ∧
    rest ≡ₚ rest' ++ tail (exp C) (S (index e)) m.

Lemma pointing_lookup b M mb ptr k v rest : pointing b M mb ptr k v rest → mb !! k = Some v.
Proof. intros (cs & O & q & l & _ & _ & Hkey & Hq & _). apply (keyed_lookup _ _ Hkey). eauto. Qed.

Lemma scan_exp C j lk I mn m ins outs t : at_scan C j lk I mn m ins outs t → (exp C ≤ 58)%nat.
Proof. intros [Hs _]. eapply (steady_exp TYPE hash maximum_capacity kmax); [exact Hk | exact Hmaximum | exact Hs]. Qed.

(** A handle from an iteration is as good as any other. *)
Lemma cursor_reserved e k v rest I mn m ins outs t :
  cursor e k v rest I mn m ins outs t → m !! k = Some v ∧ ∃ C, reserved k e C I mn m ins outs t.
Proof.
  intros (C & b & M & rest' & Hloc & Hj & Hs & Hb & Hp & _).
  pose proof (pointing_lookup _ _ _ _ _ _ _ Hp) as Hm. apply part_bucket_of in Hm as [Hi Hm].
  split; [exact Hm |]. exists C. destruct Hs as [Hs Ho]. split.
  - exists ∅, m, ∅, 0. left. rewrite Hloc, Hi. split; [exact Hs |]. split; [done |]. split; [done |]. apply lookup_empty.
  - exists b. rewrite Hloc. split; [exact Hb |]. rewrite Hm. destruct Hp as (cs & O & q & l & -> & Hwf & _ & Hq & _).
    by exists q, cs, O, M.
Qed.

(** ** The next entry of a bucket *)

Lemma next_pointing b cs O M mb l r :
  wf b cs O M → keyed M mb → NoDup (entries_at M l) → next_post M cs l r →
  (r.1 = false ∧ values_at M (entries_at M l) = []) ∨
  (r.1 = true ∧ ∃ k v rest, pointing b M mb r.2 k v rest ∧ values_at M (entries_at M l) = (k, v) :: rest).
Proof.
  intros Hwf Hkey Hnd Hr. unfold next_post in Hr. destruct (entries_at M l) as [| q l'] eqn:Hl.
  - left. by destruct Hr as [-> _].
  - destruct Hr as (-> & -> & l'' & Ha & <-). right. split; [done |].
    assert (Hq : q ∈ entries_at M l) by (rewrite Hl; left). apply elem_of_entries_at in Hq as [[[k v] Hq] _].
    exists k, v, (values_at M (entries_at M l'')). split.
    + by exists cs, O, q, l''.
    + unfold values_at. cbn [omap list_omap]. by rewrite Hq.
Qed.

Lemma runs_first_in b c lk h mb :
  bucket_ok TYPE hash c lk false mb h b → (c < n)%nat →
  runs (next TYPE n entry_ptr_new) b (λ r b', b' = b ∧
    ((r.1 = false ∧ mb = ∅) ∨
     (r.1 = true ∧ ∃ M k v rest, pointing b M mb r.2 k v rest ∧ (k, v) :: rest ≡ₚ map_to_list mb))).
Proof.
  intros (cs & O & M & Hwf & Hkey & Hcs & _) Hc.
  assert (Hperm : values_at M (entries_at M (positions cs)) ≡ₚ map_to_list mb).
  { rewrite <-(keyed_perm _ _ Hkey). apply values_at_perm; [by apply NoDup_filter, NoDup_positions, Hwf |].
    intros q kv Hq. apply elem_of_entries_at. split; [eauto | by eapply wf_positions]. }
  eapply runs_mono; [| eapply runs_next; [exact Hwf | apply ahead_new | lia]].
  intros r b' [-> Hr]. split; [done |].
  eapply next_pointing in Hr as [[-> Hv] | (-> & k & v & rest & Hp & Hv)]; [| | exact Hwf | exact Hkey | by apply NoDup_filter, NoDup_positions, Hwf].
  - left. split; [done |]. rewrite Hv in Hperm. by apply Permutation_nil, map_to_list_empty_iff in Hperm.
  - right. split; [done |]. exists M, k, v, rest. split; [exact Hp |]. by rewrite <-Hv.
Qed.

Lemma runs_next_in b M mb ptr k v rest c lk h :
  pointing b M mb ptr k v rest → bucket_ok TYPE hash c lk false mb h b → (c < n)%nat →
  runs (next TYPE n ptr) b (λ r b', b' = b ∧
    ((r.1 = false ∧ rest = []) ∨
     (r.1 = true ∧ ∃ k' v' rest', pointing b M mb r.2 k' v' rest' ∧ rest = (k', v') :: rest'))).
Proof.
  intros (cs & O & q & l & -> & Hwf & Hkey & Hq & Ha & Hnd & ->) Hok Hc.
  destruct (bucket_ok_wf _ _ _ _ _ _ _ _ _ _ _ Hok Hwf) as (_ & Hcs & _).
  eapply runs_mono; [| eapply runs_next; [exact Hwf | exact Ha | lia]].
  intros r b' [-> Hr]. split; [done |].
  eapply next_pointing in Hr as [Hr | Hr]; [by left | by right | exact Hwf | exact Hkey | apply NoDup_cons in Hnd as [_ Hnd]; exact Hnd].
Qed.

(** ** The first entry *)

(** What is done with a locked bucket. *)
Lemma runs_visit_first C j I mn m ins outs t :
  at_scan C j true I mn m ins outs t → (j < 2 ^ exp C)%nat → budget I →
  runs (let! r := at_bucket (cur C) j (next TYPE n entry_ptr_new) in
        if r.1 : bool then Ret (Break {| locker := cur C; index := j; entry_ptr := r.2 |})
        else at_bucket (cur C) j unlock ;; Ret (Continue () : flow unit LockedEntry)) t (λ r t',
    match r with
    | Break e => ∃ k v rest, cursor e k v rest I mn m ins outs t' ∧ (k, v) :: rest ≡ₚ tail (exp C) j m
    | Continue _ => part (exp C) j m = ∅ ∧ at_scan C j false I mn m ins outs t'
    end).
Proof.
  intros Hs Hj [Hn _].
  destruct (scan_same TYPE hash maximum_capacity kmax Hk F _ _ _ _ _ _ _ _ _ Hs Hj) as (b & h & Hb & Hok & _).
  eapply runs_read_bind; [exact Hb | eapply runs_first_in; [exact Hok | lia] |].
  intros r [[-> Hp] | (-> & M & k & v & rest & Hp & Hperm)].
  - eapply runs_call; [eapply (runs_unlock_scan TYPE hash maximum_capacity kmax Hk F); [exact Hs | exact Hj] |].
    intros u t2 Hs2. apply runs_ret. by split.
  - apply runs_ret. exists k, v, (rest ++ tail (exp C) (S j) m). split.
    + exists C, b, M, rest. split; [done |]. split; [exact Hj |]. split; [exact Hs |]. split; [exact Hb |]. split; [exact Hp | reflexivity].
    + rewrite (tail_cons (exp C) j) by exact Hj. by rewrite app_comm_cons, Hperm.
Qed.

Lemma runs_lock_first_entry I mn m ins outs t :
  live I mn m ins outs t → budget I →
  runs (lock_first_entry TYPE hash n) t (λ r t',
    match r with
    | Some e => ∃ k v rest, cursor e k v rest I mn m ins outs t' ∧ (k, v) :: rest ≡ₚ map_to_list m
    | None => m = ∅ ∧ live I mn m ins outs t'
    end).
Proof.
  intros Hl Hn. unfold lock_first_entry.
  eapply (runs_call _ _ _ (λ r t', match r with
    | Break e => ∃ k v rest, cursor e k v rest I mn m ins outs t' ∧ (k, v) :: rest ≡ₚ map_to_list m
    | Continue _ => m = ∅ ∧ live I mn m ins outs t' end)).
  - eapply (runs_scan TYPE hash Hhash n maximum_capacity kmax Hk Hmaximum F lock _ ()
      (λ (ex j : nat) (_ : unit) m' outs', m' = m ∧ outs' = outs ∧ tail ex 0 m = tail ex j m)); [exact Hl | exact Hn | apply locks_lock | | | |].
    + intros C j [] m' outs' t' He Hj (-> & -> & Htail) Hs.
      eapply runs_mono; [| eapply runs_visit_first; [exact Hs | exact Hj | exact Hn]].
      intros [[] | e] t2.
      * intros [Hp Hs2]. exists m, outs. split; [| exact Hs2]. split; [done |]. split; [done |]. rewrite Htail. by apply tail_skip.
      * intros (k & v & rest & Hc & Hperm). exists k, v, rest. split; [exact Hc |]. rewrite Hperm, <-Htail. by apply tail_all.
    + intros e [] m' outs' t' He (-> & -> & Htail) Hl'. split; [| exact Hl']. rewrite tail_end in Htail.
      pose proof (tail_all e m He) as Hp. rewrite Htail in Hp. by apply Permutation_nil, map_to_list_empty_iff in Hp.
    + intros e. done.
    + intros ->. by split.
  - intros [[] | e] t' Hr; apply runs_ret; exact Hr.
Qed.
(** ** The next entry *)

Lemma runs_locked_entry_next e k v rest I mn m ins outs t :
  cursor e k v rest I mn m ins outs t → budget I →
  runs (locked_entry_next TYPE hash n e) t (λ r t',
    match r with
    | Some e' => ∃ k' v' rest', cursor e' k' v' rest' I mn m ins outs t' ∧ (k', v') :: rest' ≡ₚ rest
    | None => rest = [] ∧ live I mn m ins outs t'
    end).
Proof.
  intros (C & b & M & rest0 & Hloc & Hj & Hs & Hb & Hp & Hrest) [Hn Hmax]. unfold locked_entry_next. rewrite Hloc.
  destruct (scan_same TYPE hash maximum_capacity kmax Hk F _ _ _ _ _ _ _ _ _ Hs Hj) as (b' & h & Hb' & Hok & _).
  assert (b' = b) as -> by congruence.
  eapply runs_read_bind; [exact Hb | eapply runs_next_in; [exact Hp | exact Hok | lia] |].
  intros r [[-> ->] | (-> & k' & v' & rest' & Hp' & ->)].
  2:{ apply runs_ret. exists k', v', (rest' ++ tail (exp C) (S (index e)) m). split; [| by rewrite Hrest].
      exists C, b, M, rest'. split; [done |]. split; [exact Hj |]. split; [exact Hs |]. split; [exact Hb |]. split; [exact Hp' | done]. }
  cbn [app] in Hrest. apply runs_load. rewrite (at_scan_ptr _ _ _ _ _ _ _ _ _ _ _ _ _ Hs). cbn [fst].
  pose proof (scan_exp _ _ _ _ _ _ _ _ _ Hs) as He. pose proof Hs as [Hst Hold].
  destruct (tab_array _ _ (st_tab _ _ _ _ _ _ _ _ _ _ _ _ _ _ _ _ _ Hst)) as (a & Ha & Hsh & Hoa & _).
  eapply runs_snapshot; [exact Ha |]. unfold has_old_array. rewrite Hoa, Hold, bool_decide_true by done. cbn [negb].
  unfold drop_entry. rewrite Hloc.
  eapply runs_call; [eapply (runs_unlock_scan TYPE hash maximum_capacity kmax Hk F); [exact Hs | exact Hj] |].
  intros u t2 Hs2.
  replace (num_buckets a) with (2 ^ exp C)%nat by (symmetry; apply (sh_len _ _ Hsh)).
  eapply (runs_call _ _ _ (λ r t', match r with
    | Break e' => ∃ k' v' rest', cursor e' k' v' rest' I mn m ins outs t' ∧ (k', v') :: rest' ≡ₚ rest
    | Continue _ => rest = [] ∧ at_scan C 0 false I mn m ins outs t'
    end)).
  - eapply (runs_for_each (λ (l1 : list nat) (_ : unit) (s : Table K V), tail (exp C) (S (index e)) m = tail (exp C) (S (index e) + length l1) m ∧
      at_scan C 0 false I mn m ins outs s)).
    + intros l1 i l2 [] s Hl1 (Htail & Hsj). apply seq_split in Hl1 as [-> Hi]. set (j := (S (index e) + length l1)%nat) in *.
      assert (Hjlt : (j < 2 ^ exp C)%nat) by lia.
      eapply runs_call; [eapply (runs_lock_scan TYPE hash maximum_capacity kmax Hk F lock C j); [apply locks_lock | exact Hsj | exact Hjlt] |].
      intros r2 s2 (-> & Hs3). eapply runs_mono; [| eapply runs_visit_first; [exact Hs3 | exact Hjlt | by split]].
      intros [[] | e'] s4.
      * intros [Hpj Hs4]. split; [| exact Hs4]. rewrite length_app. cbn [length]. rewrite Htail, Nat.add_1_r, Nat.add_succ_r. by apply tail_skip.
      * intros (k' & v' & rest' & Hc' & Hperm). exists k', v', rest'. split; [exact Hc' |]. by rewrite Hperm, Hrest, Htail.
    + intros [] s [Htail Hsj]. split; [| exact Hsj]. rewrite length_seq in Htail.
      replace (S (index e) + (2 ^ exp C - S (index e)))%nat with (2 ^ exp C)%nat in Htail by lia.
      rewrite Htail, tail_end in Hrest. by apply Permutation_nil.
    + split; [by rewrite Nat.add_0_r | exact Hs2].
  - intros [[] | e'] t3 Hr; [| apply runs_ret; exact Hr]. destruct Hr as [-> Hs3].
    apply runs_load. rewrite (at_scan_ptr _ _ _ _ _ _ _ _ _ _ _ _ _ Hs3). cbn [fst].
    rewrite decide_True by done. apply runs_ret. split; [done |]. eapply at_scan_live; exact Hs3.
Qed.
(** ** Changing the value on the way *)

Lemma tail_insert (ex j : nat) k v m : (idx ex k < j)%nat → tail ex j (<[k := v]> m) = tail ex j m.
Proof.
  intros Hi. unfold tail. f_equal. apply list_fmap_ext. intros a i Ha%lookup_seq. cbn. rewrite part_insert_ne; [done | lia].
Qed.

Lemma values_insert M q kv l : q ∉ l → values_at (<[q := kv]> M) l = values_at M l.
Proof.
  intros Hq. unfold values_at. induction l as [| q' l IH]; [done |]. apply not_elem_of_cons in Hq as [Hne Hq].
  cbn [omap list_omap]. by rewrite lookup_insert_ne, (IH Hq).
Qed.

Lemma runs_cursor_set e k v v' rest I mn m ins outs t :
  cursor e k v rest I mn m ins outs t →
  runs (at_bucket (locker e) (index e) (ptr_set (entry_ptr e) v')) t (λ _ t', cursor e k v' rest I mn (<[k := v']> m) ins outs t').
Proof.
  intros (C & b & M & rest0 & Hloc & Hj & Hs & Hb & Hp & Hrest). rewrite Hloc.
  destruct (scan_step TYPE hash maximum_capacity kmax Hk F _ _ _ _ _ _ _ _ _ Hs Hj) as (b' & h & Hb' & Hok & Hput).
  assert (b' = b) as -> by congruence. pose proof (pointing_lookup _ _ _ _ _ _ _ Hp) as Hm.
  destruct Hp as (cs & O & q & l & Hptr & Hwf & Hkey & Hq & Ha & Hnd & ->).
  destruct (bucket_ok_wf _ _ _ _ _ _ _ _ _ _ _ Hok Hwf) as (_ & Hcs & Hh & Hlk & Hkl).
  apply part_bucket_of in Hm as [Hi Hm]. rewrite Hptr.
  assert (HO : O !! q = Some (k, v)) by (eapply lookup_weaken; [exact Hq | by eapply wf_sub]).
  eapply runs_at_bucket; [exact Hb |]. eapply runs_mono; [| by eapply (runs_ptr_set TYPE (phash hash))].
  intros u b2 (Hwf2 & Hf1 & Hf2 & Hf3). cbn [fst] in Hwf2. apply NoDup_cons in Hnd as [Hql Hnd].
  assert (Hpart : part (exp C) (index e) (<[k := v']> m) = <[k := v']> (part (exp C) (index e) m)).
  { rewrite <-Hi. apply part_insert_eq. }
  exists C, b2, (<[q := (k, v')]> M), (values_at M (entries_at M l)). split; [done |]. split; [exact Hj |]. split; [| split; [| split]].
  - eapply (Hput true (<[k := v']> m) outs h); [| | | done].
    + intros i Hne. apply part_insert_ne. congruence.
    + rewrite map_size_insert_Some by eauto. eapply (at_scan_size TYPE hash maximum_capacity F); exact Hs.
    + rewrite Hpart. exists cs, (<[q := (k, v')]> O), (<[q := (k, v')]> M). split; [exact Hwf2 |].
      split; [by eapply keyed_set |]. split; [done |]. split; [by rewrite (holds_set b b2 O q k v v') |].
      split; [by rewrite Hf2 |]. split; [by rewrite Hf1 | done].
  - by eapply part_get_put.
  - rewrite Hpart. exists cs, (<[q := (k, v')]> O), q, l. split; [exact Hptr |]. split; [exact Hwf2 |].
    split; [by eapply keyed_set |]. split; [apply lookup_insert_eq |]. split; [exact Ha |].
    rewrite entries_alter by eauto. split; [by apply NoDup_cons |]. by rewrite values_insert.
  - by rewrite tail_insert by lia.
Qed.
End Iter.
