(* ===== verification/TableProps.v ===== *)
(** * A hash table is a map

    Any sequence of operations on a new table answers what the same sequence on a finite map
    does, whatever the resize policy does in between; every key that was put in is handed
    back or dropped, once. *)
From S2P Require Import Prelude Atomic Tag Lru Bucket BucketInv BucketQuery BucketIter BucketProps BucketArray Rehash HashTable TableInv TableRelocate TableRehash TableResize TableOps TableKey TableScan TableDrop.

Local Open Scope Z_scope.

Section Props.
Context {K V : Type} `{Countable K} (TYPE : bucket_type) (hash : K → Z) (n : nat) (maximum_capacity : Z).

Implicit Types (m : gmap K V) (t : Table K V) (mn : Z) (ins outs : list K) (k : K) (v : V).

(** ** Sequences of operations *)

Inductive table_op : Type :=
  | TInsert (k : K) (v : V)
  | TRead (k : K)
  | TRemove (k : K) (condition : V → bool * V)
  | TLen
  | TNonEmpty
  | TAny (pred : K → V → bool)
  | TRetain (pred : K → V → bool * V)
  | TPrune (pred : K → V → option V)
  | TReserve (additional : Z).

Inductive table_res : Type :=
  | Inserted (o : option (option (K * V)))
  | Found (o : option (option (K * V)))
  | Removed (o : option (option (option (K * V))))
  | Length (z : Z)
  | Whether (b : bool)
  | Reserved (z : Z)
  | Finished.

Definition table_apply (op : table_op) : prog (Table K V) table_res :=
  match op with
  | TInsert k v => let! r := insert_entry TYPE hash maximum_capacity n k v (hash k) in Ret (Inserted r)
  | TRead k => let! r := read_entry TYPE hash n k (hash k) in Ret (Found r)
  | TRemove k c => let! r := remove_entry TYPE hash maximum_capacity n k (hash k) c in Ret (Removed r)
  | TLen => let! z := table_num_entries TYPE maximum_capacity n in Ret (Length z)
  | TNonEmpty => let! b := has_entry TYPE maximum_capacity n in Ret (Whether b)
  | TAny p => let! r := any_entry TYPE hash n (λ k v u, (p k v, u)) () in Ret (Whether r.1)
  | TRetain p => retain_entries TYPE hash maximum_capacity n p ;; Ret Finished
  | TPrune p => prune_entries TYPE hash maximum_capacity n p ;; Ret Finished
  | TReserve a => let! z := reserve_capacity TYPE maximum_capacity n a in Ret (Reserved z)
  end.

Fixpoint table_trace (ops : list table_op) : prog (Table K V) (list table_res) :=
  match ops with
  | [] => Ret []
  | op :: ops =>
      let! r := table_apply op in
      let! rs := table_trace ops in
      Ret (r :: rs)
  end.

(** The specification: the answer, the minimum capacity and the map afterwards, the keys
    that were given to the table and those that it gave back. *)
Record effect := Effect {
  answer : table_res;
  new_min : Z;
  new_map : gmap K V;
  given : list K;
  returned : list K
}.

Definition table_spec (op : table_op) mn m : effect :=
  match op with
  | TInsert k v =>
      match m !! k with
      | Some _ => Effect (Inserted (Some (Some (k, v)))) mn m [k] [k]
      | None => Effect (Inserted (Some None)) mn (<[k := v]> m) [k] []
      end
  | TRead k => Effect (Found (Some (pair k <$> m !! k))) mn m [] []
  | TRemove k c => let s := remove_result TYPE k c m in Effect (Removed (Some s.1)) mn s.2 [] (result_keys s.1)
  | TLen => Effect (Length (Z.of_nat (size m))) mn m [] []
  | TNonEmpty => Effect (Whether (bool_decide (m ≠ ∅))) mn m [] []
  | TAny p => Effect (Whether (existsb (λ kv, p kv.1 kv.2) (map_to_list m))) mn m [] []
  | TRetain p => Effect Finished mn (map_imap (retain_value p) m) [] []
  | TPrune p => Effect Finished mn (map_imap p m) [] []
  | TReserve a => Effect (Reserved a) (mn + a) m [] []
  end.

(** The answers, the final map, and the keys that went in and out. *)
Fixpoint table_effects (ops : list table_op) mn m : list table_res * gmap K V * (list K * list K) :=
  match ops with
  | [] => ([], m, ([], []))
  | op :: ops =>
      let e := table_spec op mn m in
      let r := table_effects ops (new_min e) (new_map e) in
      (answer e :: r.1.1, r.1.2, (given e ++ r.2.1, returned e ++ r.2.2))
  end.

(** [HashIndex] has no [prune]; the reservations stay within 32 times the floor [F]. *)
Definition table_ok (F : Z) (op : table_op) mn : Prop :=
  match op with
  | TPrune _ => TYPE ≠ OPTIMISTIC
  | TReserve a => mn + a ≤ usize_max ∧ limits maximum_capacity F (mn + a)
  | _ => True
  end.

Fixpoint table_oks (F : Z) (ops : list table_op) mn : Prop :=
  match ops with
  | [] => True
  | op :: ops => table_ok F op mn ∧ table_oks F ops (match op with TReserve a => mn + a | _ => mn end)
  end.

(** ** One operation *)

Context (Hhash : ∀ k, in_word 64 (hash k)).
Context (kmax : Z) (Hk : 6 ≤ kmax ≤ 63) (Hmaximum : maximum_capacity = 2 ^ kmax) (F : Z).

Local Notation live := (live TYPE hash maximum_capacity F).
Local Notation budget := (budget n).

Definition table_post op (I : nat) mn m ins outs (r : table_res) t : Prop :=
  let e := table_spec op mn m in
  r = answer e ∧ live (S I) (new_min e) (new_map e) (given e ++ ins) (returned e ++ outs) t.

Lemma ask_any (p : K → V → bool) (l : list (K * V)) : (ask (λ k v u, (p k v, u)) l ()).1 = existsb (λ kv, p kv.1 kv.2) l.
Proof. induction l as [| kv l IH]; cbn; [done |]. by destruct (p kv.1 kv.2). Qed.

Lemma existsb_perm {X} (f : X → bool) (l l' : list X) : l ≡ₚ l' → existsb f l = existsb f l'.
Proof.
  intros Hp. apply Bool.eq_iff_eq_true. rewrite !existsb_exists. setoid_rewrite <-list_elem_of_In. by setoid_rewrite Hp.
Qed.

Lemma runs_table_op op (I : nat) mn m ins outs t :
  live I mn m ins outs t → budget (S I) → table_ok F op mn →
  runs (table_apply op) t (table_post op I mn m ins outs).
Proof.
  intros Hl Hn Hok. assert (Hn' : budget I) by (destruct Hn; split; lia).
  assert (Hup : ∀ mn' m' t', live I mn' m' ins outs t' → live (S I) mn' m' ins outs t').
  { intros mn' m' t' Hl'. by eapply live_moves; [exact Hl' | lia |]. }
  unfold table_post. destruct op as [k v | k | k c | | | p | p | p | a]; cbn [table_apply table_spec table_ok] in *.
  - eapply runs_call; [eapply (runs_insert_entry TYPE hash Hhash n maximum_capacity kmax Hk Hmaximum F k v); [exact Hl | done] |].
    intros r t' Hr. apply runs_ret. destruct (m !! k); destruct Hr as [-> Hl']; (split; [done |]); [| exact Hl'].
    eapply live_moves; [exact Hl' | lia |]. cbn. apply Permutation_middle.
  - eapply runs_call; [eapply (runs_read_entry TYPE hash Hhash n maximum_capacity kmax Hk Hmaximum F k); [exact Hl | done] |].
    intros r t' [-> Hl']. apply runs_ret. split; [done |]. by apply Hup.
  - eapply runs_call; [eapply (runs_remove_entry TYPE hash Hhash n maximum_capacity kmax Hk Hmaximum F k c); [exact Hl | done] |].
    intros r t' [-> Hl']. apply runs_ret. split; [done |]. by eapply live_moves; [exact Hl' | lia |].
  - eapply runs_call; [eapply (runs_table_num_entries TYPE hash Hhash n maximum_capacity kmax Hk Hmaximum F); [exact Hl | done] |].
    intros r t' [-> Hl']. apply runs_ret. split; [done |]. by apply Hup.
  - eapply runs_call; [eapply (runs_has_entry TYPE hash Hhash n maximum_capacity kmax Hk Hmaximum F); [exact Hl | done] |].
    intros r t' [-> Hl']. apply runs_ret. split; [done |]. by apply Hup.
  - eapply runs_call; [eapply (runs_any_entry TYPE hash Hhash n maximum_capacity kmax Hk Hmaximum F); [exact Hl | done] |].
    intros r t' [(l & Hp & ->) Hl']. apply runs_ret. split; [| by apply Hup]. cbn. by rewrite ask_any, (existsb_perm _ _ _ Hp).
  - eapply runs_call; [eapply (runs_retain_entries TYPE hash Hhash n maximum_capacity kmax Hk Hmaximum F); [exact Hl | done] |].
    intros r t' Hl'. apply runs_ret. split; [done |]. by apply Hup.
  - eapply runs_call; [eapply (runs_prune_entries TYPE hash Hhash n maximum_capacity kmax Hk Hmaximum F); [done | exact Hl | done] |].
    intros r t' Hl'. apply runs_ret. split; [done |]. by apply Hup.
  - destruct Hok as [Hno Hlim].
    eapply runs_call; [eapply (runs_reserve_capacity TYPE hash Hhash n maximum_capacity kmax Hk Hmaximum F a); [exact Hl | done | by left] |].
    intros r t' Hr. rewrite (proj2 (Z.ltb_ge _ _)) in Hr by done. destruct Hr as [-> Hl']. apply runs_ret. split; [done |]. by apply Hup.
Qed.

Lemma table_oks_step op ops mn m : table_oks F (op :: ops) mn →
  table_ok F op mn ∧ table_oks F ops (new_min (table_spec op mn m)).
Proof.
  intros [Hop Hops]. split; [done |]. destruct op; try done. cbn. by destruct (m !! k).
Qed.

Lemma runs_table_trace ops (I : nat) mn m ins outs t :
  live I mn m ins outs t → budget (length ops + I) → table_oks F ops mn →
  runs (table_trace ops) t (λ rs t', ∃ mn', let e := table_effects ops mn m in
    rs = e.1.1 ∧ live (length ops + I) mn' e.1.2 (e.2.1 ++ ins) (e.2.2 ++ outs) t').
Proof.
  revert I mn m ins outs t. induction ops as [| op ops IH]; intros I mn m ins outs t Hl Hn Hok.
  - apply runs_ret. by exists mn.
  - destruct (table_oks_step op ops mn m Hok) as [Hop Hops]. cbn [table_trace length Nat.add] in *.
    eapply runs_call; [eapply (runs_table_op op I); [exact Hl | | exact Hop] |].
    { destruct Hn; split; lia. }
    intros r t1 [-> Hl1]. eapply runs_call; [eapply (IH (S I)); [exact Hl1 | by rewrite Nat.add_succ_r | exact Hops] |].
    intros rs t2 (mn' & -> & Hl2). apply runs_ret. exists mn'. cbn [table_effects]. cbv zeta. cbn [fst snd].
    split; [done |]. rewrite Nat.add_succ_r in Hl2. eapply live_moves; [exact Hl2 | lia |]. solve_perm.
Qed.

(** ** A new table *)

Lemma live_new mem mn : limits maximum_capacity F mn → live 0 mn (∅ : gmap K V) [] [] (table_new mem mn).
Proof.
  intros Hlim. apply live_none; [| done | done]. constructor; try done.
  - exists []. split; [by exists [] | done].
  - constructor.
Qed.
End Props.

(** The floor that a table with the given minimum capacity has. *)
Definition floor_of (mn : Z) : Z := Z.max 64 mn.

Lemma limits_new mn (kmax : Z) : 6 ≤ kmax ≤ 63 → 0 ≤ mn ≤ 2 ^ kmax → limits (2 ^ kmax) (floor_of mn) mn.
Proof.
  intros Hk Hmn. unfold floor_of. assert (2 ^ 6 ≤ 2 ^ kmax) by (apply Z.pow_le_mono_r; lia).
  constructor; lia.
Qed.

Section Theorems.
Context {K V : Type} `{Countable K} (TYPE : bucket_type) (hash : K → Z) (n : nat) (kmax : Z) (mem : Memory).

Implicit Types (t : Table K V) (ops : list (table_op (K := K) (V := V))).

(** The hash values are 64-bit words; the maximum capacity is a power of two, as those of
    the containers are; the minimum capacity is within it, and what the reservations make of
    it is within it and within 32 times the floor ([table_ok], [limits]).  [n]
    bounds the retries of the loops and the linked buckets of one bucket, for which the
    number of operations is enough. *)
Record setting (mn : Z) ops : Prop := {
  se_hash : ∀ k, in_word 64 (hash k);
  se_max : 6 ≤ kmax ≤ 63;
  se_min : 0 ≤ mn ≤ 2 ^ kmax;
  se_ops : table_oks TYPE (2 ^ kmax) (floor_of mn) ops mn;
  se_fuel : (length ops < n)%nat;
  se_count : Z.of_nat (length ops) ≤ u32_max
}.

Lemma runs_table_new mn ops : setting mn ops →
  runs (table_trace TYPE hash n (2 ^ kmax) ops) (table_new mem mn) (λ rs t, ∃ mn', let e := table_effects TYPE ops mn ∅ in
    rs = e.1.1 ∧ live TYPE hash (2 ^ kmax) (floor_of mn) (length ops) mn' e.1.2 e.2.1 e.2.2 t).
Proof.
  intros [Hhash Hk Hmn Hops Hn Hmax].
  eapply runs_mono; [| eapply (runs_table_trace TYPE hash n (2 ^ kmax) Hhash kmax Hk eq_refl (floor_of mn) ops 0);
    [apply live_new, limits_new; [done | done] | split; lia | done]].
  intros rs t (mn' & -> & Hl). exists mn'. split; [done |]. rewrite Nat.add_0_r, !app_nil_r in Hl. exact Hl.
Qed.

(** C1. A hash table is a map.  A sequence of insertions, lookups, removals with a
    condition, size queries, searches, [retain], [prune] and bounded reservations on a new
    table returns, without a failed assertion and without running out of fuel, and its
    answers are those of the same operations on a finite map.  The table is resized and its
    entries relocated in between, some of them while an old array is still there; this is
    for each of the three kinds of buckets, and any hash function.  The conditions on the
    sequence ([setting]): every reservation keeps the minimum capacity, what was reserved
    before included, within the maximum capacity and within 32 times the greater of 64 and
    the minimum capacity that the table was created with (beyond that the next insertion
    can panic, see [reserve_panics]); [prune] is not called on an [OPTIMISTIC] table, which
    has none; and there are fewer than [2 ^ 32] operations.  The condition on the memory
    ([served]): no array is refused to this run. *)
Theorem hash_table_refines_map (mn : Z) ops (Hset : setting mn ops)
    (Hmem : served (table_trace TYPE hash n (2 ^ kmax) ops) (table_new mem mn) = true) :
  ∃ t, run (table_trace TYPE hash n (2 ^ kmax) ops) (table_new mem mn) = Done (table_effects TYPE ops mn ∅).1.1 t.
Proof.
  destruct (runs_returns _ _ _ (runs_table_new mn ops Hset) Hmem) as (rs & t & Hrun & mn' & -> & _). eauto.
Qed.

(** C10. Keys are neither lost nor dropped twice. After any sequence of operations whose
    reservations are bounded ([setting]) and that is refused no memory, when the container
    is dropped and the collector has run, no array is left in the memory; and the keys that
    were dropped together with those that were handed back are, each with its multiplicity,
    the keys that were put in and those of the clones that the relocation of an [OPTIMISTIC]
    table makes. *)
Theorem hash_table_drops_once (mn : Z) ops (Hset : setting mn ops)
    (Hmem : served (table_trace TYPE hash n (2 ^ kmax) ops ;; drop_table TYPE n ;; collect TYPE n) (table_new mem mn) = true) :
  ∃ t, run (table_trace TYPE hash n (2 ^ kmax) ops ;; drop_table TYPE n ;; collect TYPE n) (table_new mem mn) = Done () t ∧
    arrays t = ∅ ∧ bucket_array t = (None, Tag.None) ∧
    let e := table_effects TYPE ops mn ∅ in (disposed t).*1 ++ e.2.2 ≡ₚ e.2.1 ++ (cloned t).*1.
Proof.
  assert (Hr : runs (table_trace TYPE hash n (2 ^ kmax) ops ;; drop_table TYPE n ;; collect TYPE n) (table_new mem mn)
    (λ _ t, finished (table_effects TYPE ops mn ∅).2.1 (table_effects TYPE ops mn ∅).2.2 t)).
  { eapply runs_call; [by apply runs_table_new |]. intros rs t (mn' & _ & Hl).
    eapply (runs_finish TYPE hash n); [exact Hl | apply Hset]. }
  apply runs_returns in Hr as ([] & t & Hrun & Hfin); [| exact Hmem]. exists t. split; [exact Hrun | exact Hfin].
Qed.

(** C34. [scan] is complete. After any sequence of operations whose reservations are bounded
    ([setting]) and that is refused no memory, the loop that asks the predicate of
    [any_entry] about every entry, here one that only collects them, asks it exactly once
    about each entry of the map. *)
Theorem hash_table_scan (mn : Z) ops (Hset : setting mn ops)
    (Hmem : served (table_trace TYPE hash n (2 ^ kmax) ops ;; any_entry TYPE hash n (λ k v l, (false, l ++ [(k, v)])) []) (table_new mem mn) = true) :
  ∃ l t, run (table_trace TYPE hash n (2 ^ kmax) ops ;; any_entry TYPE hash n (λ k v l, (false, l ++ [(k, v)])) []) (table_new mem mn) =
      Done (false, l) t ∧ l ≡ₚ map_to_list (table_effects TYPE ops mn ∅).1.2.
Proof.
  assert (Hask : ∀ l (s : list (K * V)), ask (λ k v l, (false, l ++ [(k, v)])) l s = (false, s ++ l)).
  { induction l as [| [k v] l IH]; intros s; cbn; [by rewrite app_nil_r |]. by rewrite IH, <-app_assoc. }
  assert (Hr : runs (table_trace TYPE hash n (2 ^ kmax) ops ;; any_entry TYPE hash n (λ k v l, (false, l ++ [(k, v)])) []) (table_new mem mn)
    (λ r _, ∃ l, l ≡ₚ map_to_list (table_effects TYPE ops mn ∅).1.2 ∧ r = (false, l))).
  { eapply runs_call; [by apply runs_table_new |]. intros rs t (mn' & _ & Hl). destruct Hset as [Hhash Hk Hmn Hops Hn Hmax].
    eapply runs_mono; [| eapply (runs_any_entry TYPE hash Hhash n (2 ^ kmax) kmax Hk eq_refl); [exact Hl | split; lia]].
    intros r t' [(l & Hp & ->) _]. exists l. split; [done |]. by rewrite Hask. }
  apply runs_returns in Hr as (r & t & Hrun & l & Hp & ->); [| exact Hmem]. eauto.
Qed.

(** C35. The capacity is bounded. After any sequence of operations whose reservations are
    bounded ([setting]) and that is refused no memory, the number of slots is zero, of a
    table that is empty, or a power of two that is not below the minimum capacity that the
    table was created with, nor below 64, and not above the maximum. *)
Theorem hash_table_capacity (mn : Z) ops (Hset : setting mn ops)
    (Hmem : served (table_trace TYPE hash n (2 ^ kmax) ops ;; num_slots) (table_new mem mn) = true) :
  ∃ z t, run (table_trace TYPE hash n (2 ^ kmax) ops ;; num_slots) (table_new mem mn) = Done z t ∧
    (z = 0 ∧ (table_effects TYPE ops mn ∅).1.2 = ∅ ∨
     ∃ e : nat, z = 2 ^ Z.of_nat (e + 5) ∧ Z.max 64 mn ≤ z ≤ 2 ^ kmax).
Proof.
  assert (Hr : runs (table_trace TYPE hash n (2 ^ kmax) ops ;; num_slots) (table_new mem mn) (λ z t,
    z = 0 ∧ (table_effects TYPE ops mn ∅).1.2 = ∅ ∨ ∃ e : nat, z = 2 ^ Z.of_nat (e + 5) ∧ Z.max 64 mn ≤ z ≤ 2 ^ kmax)).
  { eapply runs_call; [by apply runs_table_new |]. intros rs t (mn' & _ & Hl).
    eapply runs_mono; [| eapply (runs_num_slots TYPE hash (2 ^ kmax) (floor_of mn)); exact Hl].
    intros z t' [_ Hz]. exact Hz. }
  apply runs_returns in Hr as (z & t & Hrun & Hz); [| exact Hmem]. eauto.
Qed.
End Theorems.

(** ** A reservation that the policy does not bound *)

(** C39. A reservation can make the next insertion panic. The comment on the policy says
    that a table grows up to 32 times at once; but the branch that shrinks the table to fit
    also takes the minimum capacity, which [reserve] raised. Two insertions give the table 2
    buckets, and the reservation of 10000 entries then 512: the bucket that the next
    insertion relocates would be spread over 256 buckets, which the assertion on the ratio
    in [relocate_bucket] excludes, and [target_buckets] has no place for. The other theorems
    ask that a reservation keeps the minimum capacity within 32 times the greater of 64 and
    the first minimum capacity. *)
Theorem reserve_panics :
  run (table_trace SEQUENTIAL (λ k : Z, wrap 64 (k * 11400714819323198485)) 100 (2 ^ 63)
    [TInsert 1 10; TInsert 2 20; TReserve 10000; TInsert 3 30]) (table_new plentiful 0) = Panicked.
Proof. vm_compute. reflexivity. Qed.

(** ** The theorems at work *)

(** A hash function that spreads consecutive keys. *)
Definition mix (k : Z) : Z := wrap 64 (k * 11400714819323198485).

Definition inserts (s len : nat) : list (table_op (K := Z) (V := Z)) :=
  (λ i, TInsert (Z.of_nat i) (10 * Z.of_nat i)) <$> seq s len.

Definition demo : list (table_op (K := Z) (V := Z)) :=
  inserts 0 120 ++ [TRead 7; TReserve 300; TRemove 9 (λ v, (true, v)); TRemove 10 (λ v, (false, v + 1)); TRead 10;
    TRead 9; TLen; TRetain (λ k v, (k <? 100, v)); TLen; TAny (λ k v, v =? 101); TNonEmpty; TInsert 3 0].

Lemma oks_inserts TYPE (maximum_capacity F mn : Z) (s len : nat) ops :
  table_oks TYPE maximum_capacity F ops mn → table_oks TYPE maximum_capacity F (inserts s len ++ ops) mn.
Proof. unfold inserts. generalize (seq s len). induction l as [| i l IH]; [done |]. intros Hok. split; [exact I | by apply IH]. Defined.

Lemma demo_setting TYPE : setting TYPE mix 200 20 0 demo.
Proof.
  constructor.
  - intros k. apply in_word_wrap.
  - lia.
  - lia.
  - unfold demo. apply oks_inserts. split; [exact I |].
    split; [split; [unfold usize_max, umax; lia | constructor; unfold floor_of; lia] |].
    do 10 (split; [exact I |]). exact I.
  - apply Nat.ltb_lt. vm_compute. reflexivity.
  - apply Z.leb_le. vm_compute. reflexivity.
Defined.

(** The table of 2 buckets is enlarged twice on the way, and the answers do not change. *)
Lemma hash_table_refines_map_witness :
  drop 120 (table_effects OPTIMISTIC demo 0 ∅).1.1 =
    [Found (Some (Some (7, 70))); Reserved 300; Removed (Some (Some None)); Removed (Some None);
     Found (Some (Some (10, 101))); Found (Some None); Length 119; Finished; Length 99; Whether true; Whether true;
     Inserted (Some (Some (3, 0)))] ∧
  ∃ t, run (table_trace OPTIMISTIC mix 200 (2 ^ 20) demo) (table_new plentiful 0) = Done (table_effects OPTIMISTIC demo 0 ∅).1.1 t.
Proof.
  split; [vm_compute; reflexivity |]. apply (hash_table_refines_map OPTIMISTIC mix 200 20 plentiful 0 demo); [apply demo_setting | vm_compute; reflexivity].
Defined.

Lemma hash_table_drops_once_witness :
  ∃ t, run (table_trace SEQUENTIAL mix 200 (2 ^ 20) demo ;; drop_table SEQUENTIAL 200 ;; collect SEQUENTIAL 200) (table_new plentiful 0) = Done () t ∧
    arrays t = ∅ ∧ bucket_array t = (None, Tag.None) ∧
    let e := table_effects SEQUENTIAL demo 0 ∅ in (disposed t).*1 ++ e.2.2 ≡ₚ e.2.1 ++ (cloned t).*1.
Proof. apply (hash_table_drops_once SEQUENTIAL mix 200 20 plentiful 0 demo); [apply demo_setting | vm_compute; reflexivity]. Defined.

Lemma hash_table_scan_witness :
  ∃ l t, run (table_trace CACHE mix 200 (2 ^ 20) demo ;; any_entry CACHE mix 200 (λ k v l, (false, l ++ [(k, v)])) []) (table_new plentiful 0) =
    Done (false, l) t ∧ l ≡ₚ map_to_list (table_effects CACHE demo 0 ∅).1.2.
Proof. apply (hash_table_scan CACHE mix 200 20 plentiful 0 demo); [apply demo_setting | vm_compute; reflexivity]. Defined.

Lemma hash_table_capacity_witness :
  ∃ z t, run (table_trace SEQUENTIAL mix 200 (2 ^ 20) demo ;; num_slots) (table_new plentiful 0) = Done z t ∧
    (z = 0 ∧ (table_effects SEQUENTIAL demo 0 ∅).1.2 = ∅ ∨ ∃ e : nat, z = 2 ^ Z.of_nat (e + 5) ∧ Z.max 64 0 ≤ z ≤ 2 ^ 20).
Proof. apply (hash_table_capacity SEQUENTIAL mix 200 20 plentiful 0 demo); [apply demo_setting | vm_compute; reflexivity]. Defined.
