(* ===== verification/TableReserve.v ===== *)
(** * Creation of a table, reservations *)
From S2P Require Import Prelude Atomic Tag Lru Bucket BucketInv BucketQuery BucketIter BucketProps BucketArray Rehash HashTable TableInv TableRelocate TableRehash TableResize TableOps TableKey TableScan TableEntry TableProps.

Local Open Scope Z_scope.

(** ** Creation of a table

    What [with_capacity_and_hasher] makes in every container: the first array, and the
    number of its slots as the minimum capacity. *)

(** The minimum capacity of a container that is created with the given capacity. *)
Definition table_base (capacity : Z) : Z :=
  if capacity =? 0 then 0
  else Z.of_nat (Z.to_nat (ushl 1 (Z.to_nat (calculate_log2_array_size capacity).1)) * BUCKET_LEN).

Lemma array_new_entries {K V : Type} m request (capacity : Z) o (a : BucketArray K V) :
  array_new m request capacity o = Allocated a → capacity ≠ 0 → array_num_entries a = table_base capacity.
Proof.
  unfold array_new, table_base. intros Ha Hc. rewrite (proj2 (Z.eqb_neq _ _)) by done.
  destruct (calculate_log2_array_size capacity) as [z b]. destruct (b && _); [| done].
  destruct (place_buckets _ _ _); try done. destruct (place_data_blocks _ _ _); try done. by injection Ha as <-.
Qed.

Lemma shape_entries {K V : Type} (a : BucketArray K V) e : shape a e → 64 ≤ array_num_entries a ≤ 2 ^ 63.
Proof.
  intros Hsh. rewrite (shape_capacity _ _ Hsh). pose proof (sh_log _ _ Hsh). unfold capacity_of. split.
  - change 64 with (2 ^ 6). apply Z.pow_le_mono_r; lia.
  - apply Z.pow_le_mono_r; lia.
Qed.

Lemma table_base_log (capacity : Z) : capacity ≠ 0 → ∃ e : nat, (1 ≤ e ≤ 58)%nat ∧ table_base capacity = capacity_of e.
Proof.
  intros Hne. destruct (calculate_log2_spec capacity) as (e & He & Hc & _). exists e. split; [done |].
  unfold table_base. rewrite (proj2 (Z.eqb_neq _ _) Hne), Hc. cbn [fst]. unfold ushl, capacity_of. rewrite Z.shiftl_1_l, Nat2Z.id.
  rewrite Nat2Z.inj_mul, Z2Nat.id by lia. change (Z.of_nat BUCKET_LEN) with (2 ^ 5). rewrite <-Z.pow_add_r by lia. f_equal. lia.
Qed.

Lemma table_base_range (capacity : Z) : 0 ≤ table_base capacity ≤ 2 ^ 63.
Proof.
  destruct (Z.eqb_spec capacity 0) as [-> | Hne]; [done |]. destruct (table_base_log capacity Hne) as (e & He & ->).
  unfold capacity_of. split; [lia | apply Z.pow_le_mono_r; lia].
Qed.

Section New.
Context {K V : Type} `{Countable K} (TYPE : bucket_type) (hash : K → Z) (Hhash : ∀ k, in_word 64 (hash k)).
Context (maximum_capacity : Z) (kmax : Z) (Hk : 6 ≤ kmax ≤ 63) (Hmaximum : maximum_capacity = 2 ^ kmax).

Lemma runs_with_capacity mem (capacity : Z) : table_base capacity ≤ 2 ^ kmax →
  runs (if capacity =? 0 then Ret ()
        else
          let! x := alloc_array capacity None in
          let! a := snapshot x in
          store set_bucket_array (Some x, Tag.None) ;;
          store set_minimum_capacity (array_num_entries a)) (table_new mem 0 : Table K V) (λ _ t,
    alive TYPE hash maximum_capacity (floor_of (table_base capacity)) 0 (table_base capacity) ∅ t).
Proof.
  intros Hbase2. destruct (Z.eqb_spec capacity 0) as [-> | Hne].
  { apply runs_ret. exists [], []. apply live_new. rewrite Hmaximum. apply limits_new; [done | lia]. }
  eapply runs_call; [apply (runs_alloc_array TYPE hash) |].
  intros x t1 (a & e & Hnew & Hok & Hoa & Hwa & Hlo & Hhi & Hf & ->).
  pose proof (array_ok_shape _ _ _ _ _ _ _ _ _ Hok) as Hsh. pose proof (array_new_entries _ _ _ _ _ Hnew Hne) as Hbase.
  pose proof (sh_log _ _ Hsh) as He. pose proof (shape_entries _ _ Hsh) as H64.
  eapply runs_snapshot; [apply lookup_insert_eq |]. apply runs_act. cbn [fst snd bind]. rewrite Hbase in *.
  set (base := table_base capacity) in *. rewrite (shape_capacity _ _ Hsh) in Hbase.
  assert (Hlim : limits maximum_capacity (floor_of base) base).
  { rewrite Hmaximum. apply limits_new; [done | lia]. }
  unfold runs. cbn [run store]. exists [], [].
  eapply (live_array TYPE hash maximum_capacity _ _ _ _ _ _ _ (first_config x e base) ∅ ∅ ∅ 0).
  constructor; [| cbn; lia | done | by rewrite map_union_empty | done | done |].
  - change (set_minimum_capacity base (set_bucket_array (Some x, Tag.None) (put_array x a (after_request (table_new mem 0)))))
      with (set_bucket_array (Some x, Tag.None) (put_array x a (after_request (table_new (K := K) (V := V) mem base)))).
    eapply (no_array_first TYPE hash kmax Hk); [| exact Hf | exact Hok | exact Hoa | exact Hwa]. constructor; try done.
    + exists []. split; [by exists [] | done].
    + constructor.
  - apply (limits_caps _ kmax Hk); [cbn; lia | exact Hlim |]. cbn [exp first_config]. rewrite Hmaximum. lia.
Qed.
End New.

(** ** Reservations

    [reserve] raises the minimum capacity of a container, and the drop of a [Reserve] gives
    it back.  The reservations that a program holds are a list. *)

Implicit Types (rs : list Z).

Definition sum_reserved (rs : list Z) : Z := foldr Z.add 0 rs.

(** Whether a reservation succeeds is a matter of the minimum capacity [mn]. *)
Definition reservation (a mn : Z) : option Z :=
  if (usize_max <? mn + a) || (a =? 0) then None else Some a.

Lemma sum_reserved_app rs rs' : sum_reserved (rs ++ rs') = sum_reserved rs + sum_reserved rs'.
Proof. induction rs as [| a rs IH]; cbn; [done |]. fold (sum_reserved (rs ++ rs')) (sum_reserved rs). lia. Qed.

Lemma sum_reserved_delete rs (i : nat) (a : Z) : rs !! i = Some a → sum_reserved (delete i rs) = sum_reserved rs - a.
Proof.
  revert i. induction rs as [| b rs IH]; intros [| i] Hi; try done.
  - injection Hi as ->. change (sum_reserved rs = a + sum_reserved rs - a). lia.
  - change (b + sum_reserved (delete i rs) = b + sum_reserved rs - a). rewrite (IH i Hi). lia.
Qed.

Lemma delete_none rs (i : nat) : rs !! i = None → delete i rs = rs.
Proof.
  revert i. induction rs as [| b rs IH]; intros [| i] Hi; try done. change (b :: delete i rs = b :: rs). by rewrite IH.
Qed.

Lemma sum_reserved_pos rs : Forall (Z.le 0) rs → 0 ≤ sum_reserved rs.
Proof. induction 1; cbn; [done |]. fold (sum_reserved l). lia. Qed.

Section Reserve.
Context {K V : Type} `{Countable K} (TYPE : bucket_type) (hash : K → Z) (Hhash : ∀ k, in_word 64 (hash k)) (n : nat).
Context (maximum_capacity : Z) (kmax : Z) (Hk : 6 ≤ kmax ≤ 63) (Hmaximum : maximum_capacity = 2 ^ kmax) (F : Z).

Implicit Types (m : gmap K V) (t : Table K V) (base : Z) (I : nat).

Local Notation alive := (alive TYPE hash maximum_capacity F).
Local Notation budget := (budget n).

(** A reservation fails, or it is within 32 times the floor [F]. *)
Definition reservable (a mn : Z) : Prop := 0 ≤ a ∧ (usize_max < mn + a ∨ limits maximum_capacity F (mn + a)).

(** The floor is that of the first minimum capacity [base], and only what was reserved is
    given back. *)
Definition fits base rs : Prop := F = floor_of base ∧ 0 ≤ base ∧ Forall (Z.le 0) rs.

(** The function [reserve]. *)
Lemma runs_reserve (a : Z) base rs I m t :
  alive I (base + sum_reserved rs) m t → budget I → fits base rs → reservable a (base + sum_reserved rs) →
  runs (let! additional := reserve_capacity TYPE maximum_capacity n a in
        if additional =? 0 then Ret None else Ret (Some additional)) t (λ r t',
    let rs' := rs ++ option_list (reservation a (base + sum_reserved rs)) in
    r = reservation a (base + sum_reserved rs) ∧ alive I (base + sum_reserved rs') m t' ∧ fits base rs').
Proof.
  intros (ins & outs & Hl) Hb (HF & Hbase & Hrs) [Ha Hok].
  eapply runs_call; [eapply (runs_reserve_capacity TYPE hash Hhash n maximum_capacity kmax Hk Hmaximum F a);
    [exact Hl | exact Hb | by destruct Hok; [right | left]] |].
  intros r t' Hr. unfold reservation. destruct (usize_max <? _) eqn:Ho; destruct Hr as [-> Hl']; cbn [orb].
  - apply runs_ret. split; [done |]. rewrite app_nil_r. split; [by exists ins, outs | done].
  - destruct (Z.eqb_spec a 0) as [-> | Hne]; apply runs_ret; (split; [done |]); cbn [option_list].
    + rewrite app_nil_r. rewrite Z.add_0_r in Hl'. split; [by exists ins, outs | done].
    + rewrite sum_reserved_app. cbn [sum_reserved foldr]. rewrite Z.add_0_r, Z.add_assoc. split; [by exists ins, outs |].
      split; [done |]. split; [done |]. apply Forall_app. split; [done |]. by repeat constructor.
Qed.

(** The drop of a [Reserve]. *)
Lemma runs_unreserve (i : nat) (a : Z) base rs I m t :
  alive I (base + sum_reserved rs) m t → budget I → fits base rs → rs !! i = Some a →
  runs (let! result := fetch_modify minimum_capacity set_minimum_capacity (λ x, wrap 64 (x - a)) in
        try_resize TYPE maximum_capacity n 0 ;;
        dassert (a <=? result)) t (λ _ t', alive I (base + sum_reserved (delete i rs)) m t' ∧ fits base (delete i rs)).
Proof.
  intros (ins & outs & Hl) Hb (HF & Hbase & Hrs) Hi. apply runs_act. cbn [fst snd].
  rewrite (live_minimum _ _ _ _ _ _ _ _ _ _ Hl).
  assert (Hrs' : Forall (Z.le 0) (delete i rs)) by (by apply Forall_delete).
  pose proof (sum_reserved_delete rs i a Hi) as Hsum. pose proof (sum_reserved_pos _ Hrs') as Hpos.
  pose proof (Forall_lookup_1 _ _ _ _ Hrs Hi) as Ha. cbn in Ha.
  destruct (live_limits _ _ _ _ Hk _ _ _ _ _ _ _ Hl) as [Hf1 (Hm0 & Hf2 & Hm32 & Hmax)]. unfold floor_of in HF.
  assert (2 ^ kmax ≤ 2 ^ 63) by (apply Z.pow_le_mono_r; lia).
  rewrite wrap_id; [| unfold in_word; change (2 ^ Z.of_nat 64) with (2 * 2 ^ 63); lia].
  eapply runs_call; [eapply (runs_resize_live TYPE hash Hhash n maximum_capacity kmax Hk Hmaximum F); [| exact Hb] |].
  - eapply (live_min TYPE hash maximum_capacity F _ _ (base + sum_reserved rs - a)); [exact Hl |]. constructor; [done | lia].
  - intros u t' Hl'. unfold dassert. rewrite (proj2 (Z.leb_le _ _)) by lia. apply runs_ret.
    replace (base + sum_reserved rs - a) with (base + sum_reserved (delete i rs)) in Hl' by lia.
    split; [by exists ins, outs | done].
Qed.
End Reserve.
