(* ===== verification/HashMap.v ===== *)
(** * The hash map: [src/hash_map.rs]

    [HashMap] is the hash table with buckets of the type [SEQUENTIAL].  What it adds are the
    handles: an [OccupiedEntry] or a [VacantEntry] keeps its bucket locked, and a [Reserve]
    keeps the minimum capacity up, until they are dropped.  The synchronous functions are
    modelled as a thread alone runs them. *)
From S2P Require Import Prelude Atomic Tag Lru Bucket BucketArray HashTable.

Local Open Scope Z_scope.

(** [HashTable::calculate_bucket_index], of any container. *)
Definition bucket_index_of {K V : Type} (hash : K → Z) (key : K) : prog (Table K V) nat :=
  let! p := load bucket_array in
  match p.1 with
  | None => Ret O
  | Some x => let! a := snapshot x in Ret (calculate_bucket_index a (hash key))
  end.

Section HashMap.
Context {K V : Type} `{EqDecision K} (hash : K → Z) (n : nat).

(** [HashMap::maximum_capacity] *)
Definition map_maximum_capacity : Z := one_shl 63.

(** [HashMap::with_capacity_and_hasher] initialises a table that [with_hasher] would give. *)
Definition map_with_capacity (capacity : Z) : prog (Table K V) unit :=
  if capacity =? 0 then Ret ()
  else
    let! x := alloc_array capacity None in
    let! a := snapshot x in
    store set_bucket_array (Some x, Tag.None) ;;
    store set_minimum_capacity (array_num_entries a).

(** ** Handles *)

(** An [OccupiedEntry] is its [LockedEntry]. *)
Inductive Entry : Type :=
  | Occupied (locked_entry : LockedEntry)
  | Vacant (key : K) (hash : Z) (locked_entry : LockedEntry).

Definition map_entry (key : K) : prog (Table K V) Entry :=
  let! r := reserve_entry SEQUENTIAL hash map_maximum_capacity n key (hash key) in
  match r with
  | None => Panic
  | Some locked_entry =>
      if is_valid (entry_ptr locked_entry) then Ret (Occupied locked_entry)
      else Ret (Vacant key (hash key) locked_entry)
  end.

Definition map_first_entry : prog (Table K V) (option LockedEntry) := lock_first_entry SEQUENTIAL hash n.

Definition map_get (key : K) : prog (Table K V) (option LockedEntry) :=
  let! r := get_entry SEQUENTIAL hash n key (hash key) in Ret (mjoin r).

(** [OccupiedEntry] *)
Definition occupied_entry (self : LockedEntry) : prog (Table K V) (K * V) :=
  at_bucket (locker self) (index self) (ptr_get (entry_ptr self)).

Definition occupied_key (self : LockedEntry) : prog (Table K V) K :=
  let! e := occupied_entry self in Ret e.1.

Definition occupied_get (self : LockedEntry) : prog (Table K V) V :=
  let! e := occupied_entry self in Ret e.2.

(** [get_mut]: what is done through the reference is [f]. *)
Definition occupied_get_mut {R} (self : LockedEntry) (f : V → V * R) : prog (Table K V) R :=
  let! e := occupied_entry self in
  at_bucket (locker self) (index self) (ptr_set (entry_ptr self) (f e.2).1) ;;
  Ret (f e.2).2.

Definition occupied_insert (self : LockedEntry) (val : V) : prog (Table K V) V :=
  occupied_get_mut self (λ v, (val, v)).

Definition occupied_remove_entry (self : LockedEntry) : prog (Table K V) (K * V) :=
  let! entry := at_bucket (locker self) (index self) (erase SEQUENTIAL (entry_ptr self)) in
  match entry with
  | None => Panic
  | Some entry =>
      let! num := at_bucket (locker self) (index self) (load num_entries) in
      let! rebuild := at_bucket (locker self) (index self) (load (need_rebuild SEQUENTIAL)) in
      let! shrunk :=
        if (num <=? 1) || rebuild then
          let! p := load bucket_array in
          match p.1 with
          | None => Ret false
          | Some current =>
              let! a := snapshot current in
              if negb (has_old_array a) && within_sampling_range a (index self) then
                drop_entry self ;;
                try_shrink_or_rebuild SEQUENTIAL map_maximum_capacity n current (index self) ;;
                Ret true
              else Ret false
          end
        else Ret false in
      (if shrunk : bool then Ret () else drop_entry self) ;;
      Ret entry
  end.

Definition occupied_remove (self : LockedEntry) : prog (Table K V) V :=
  let! e := occupied_remove_entry self in Ret e.2.

Definition occupied_next (self : LockedEntry) : prog (Table K V) (option LockedEntry) :=
  locked_entry_next SEQUENTIAL hash n self.

(** [VacantEntry::insert_entry] *)
Definition vacant_insert_entry (key : K) (hash : Z) (locked_entry : LockedEntry) (val : V) :
    prog (Table K V) LockedEntry :=
  let! r := insert_with (λ R, at_bucket (locker locked_entry) (index locked_entry)) n
              (partial_hash hash) (Ret ((key, val), ())) in
  Ret {| locker := locker locked_entry; index := index locked_entry; HashTable.entry_ptr := r.1 |}.

(** [VacantEntry::into_key] *)
Definition vacant_into_key (key : K) (locked_entry : LockedEntry) : prog (Table K V) K :=
  drop_entry locked_entry ;; Ret key.

(** [Entry] *)
Definition entry_or_insert_with_key (self : Entry) (constructor : K → V) : prog (Table K V) LockedEntry :=
  match self with
  | Occupied o => Ret o
  | Vacant key hash e => vacant_insert_entry key hash e (constructor key)
  end.

Definition entry_or_insert_with (self : Entry) (constructor : unit → V) : prog (Table K V) LockedEntry :=
  entry_or_insert_with_key self (λ _, constructor ()).

Definition entry_or_insert (self : Entry) (val : V) : prog (Table K V) LockedEntry :=
  entry_or_insert_with self (λ _, val).

Definition entry_key (self : Entry) : prog (Table K V) K :=
  match self with
  | Occupied o => occupied_key o
  | Vacant key _ _ => Ret key
  end.

Definition entry_and_modify (self : Entry) (f : V → V) : prog (Table K V) Entry :=
  match self with
  | Occupied o => occupied_get_mut o (λ v, (f v, ())) ;; Ret self
  | Vacant _ _ _ => Ret self
  end.

Definition entry_insert_entry (self : Entry) (val : V) : prog (Table K V) LockedEntry :=
  match self with
  | Occupied o => let! _ := occupied_insert o val in Ret o
  | Vacant key hash e => vacant_insert_entry key hash e val
  end.

(** The drop of an [Entry]. *)
Definition entry_drop (self : Entry) : prog (Table K V) unit :=
  match self with
  | Occupied e | Vacant _ _ e => drop_entry e
  end.

(** ** The map *)

Definition map_insert (key : K) (val : V) : prog (Table K V) (unit + K * V) :=
  let! r := insert_entry SEQUENTIAL hash map_maximum_capacity n key val (hash key) in
  match r with
  | Some (Some kv) => Ret (inr kv)
  | _ => Ret (inl ())
  end.

(** The updater may change the value, and its result is handed on. *)
Definition map_update {R} (key : K) (updater : K → V → V * R) : prog (Table K V) (option R) :=
  let! r := get_entry SEQUENTIAL hash n key (hash key) in
  match mjoin r with
  | None => Ret None
  | Some e =>
      let! kv := occupied_entry e in
      at_bucket (locker e) (index e) (ptr_set (entry_ptr e) (updater kv.1 kv.2).1) ;;
      drop_entry e ;;
      Ret (Some (updater kv.1 kv.2).2)
  end.

Definition map_remove_if (key : K) (condition : V → bool * V) : prog (Table K V) (option (K * V)) :=
  let! r := remove_entry SEQUENTIAL hash map_maximum_capacity n key (hash key) condition in
  Ret (mjoin (mjoin r)).

Definition map_remove (key : K) : prog (Table K V) (option (K * V)) :=
  map_remove_if key (λ v, (true, v)).

Definition map_read {R} (key : K) (reader : K → V → R) : prog (Table K V) (option R) :=
  let! r := read_entry SEQUENTIAL hash n key (hash key) in
  Ret ((λ e, reader e.1 e.2) <$> mjoin r).

Definition map_contains (key : K) : prog (Table K V) bool :=
  let! r := map_read key (λ _ _, ()) in Ret (bool_decide (is_Some r)).

Definition map_any {S} (pred : K → V → S → bool * S) (s : S) : prog (Table K V) (bool * S) :=
  any_entry SEQUENTIAL hash n pred s.

Definition map_scan {S} (scanner : K → V → S → S) (s : S) : prog (Table K V) S :=
  let! r := map_any (λ k v s, (false, scanner k v s)) s in Ret r.2.

Definition map_retain (pred : K → V → bool * V) : prog (Table K V) unit :=
  retain_entries SEQUENTIAL hash map_maximum_capacity n pred.

Definition map_prune (pred : K → V → option V) : prog (Table K V) unit :=
  prune_entries SEQUENTIAL hash map_maximum_capacity n pred.

Definition map_clear : prog (Table K V) unit := map_retain (λ _ v, (false, v)).

Definition map_len : prog (Table K V) Z := table_num_entries SEQUENTIAL map_maximum_capacity n.

Definition map_is_empty : prog (Table K V) bool :=
  let! r := has_entry SEQUENTIAL map_maximum_capacity n in Ret (negb r).

Definition map_capacity : prog (Table K V) Z := num_slots.

Definition map_capacity_range : prog (Table K V) (Z * Z) :=
  let! minimum_capacity := load minimum_capacity in Ret (minimum_capacity, map_maximum_capacity).

(** ** Reservations *)

(** The field [additional] of the [Reserve]. *)
Definition map_reserve (additional_capacity : Z) : prog (Table K V) (option Z) :=
  let! additional := reserve_capacity SEQUENTIAL map_maximum_capacity n additional_capacity in
  if additional =? 0 then Ret None else Ret (Some additional).

(** [impl Drop for Reserve] *)
Definition reserve_drop (additional : Z) : prog (Table K V) unit :=
  let! result := fetch_modify minimum_capacity set_minimum_capacity (λ x, wrap 64 (x - additional)) in
  try_resize SEQUENTIAL map_maximum_capacity n 0 ;;
  dassert (additional <=? result).
End HashMap.

(** ** Two maps *)

(** The operations on another table are run while this one is scanned: that table is in the
    state of the closure, which also says how the operations on it ended. *)
Definition run_in {St A} (p : prog St A) (s : outcome St unit) : outcome St A :=
  match s with
  | Done _ s => run p s
  | Panicked => Panicked
  | Refused => Refused
  | Starved => Starved
  end.

(** The outcome of these operations becomes that of the caller. *)
Definition leave_run {St A T} (o : outcome St A) : prog T (A * St) :=
  match o with
  | Done a s => Ret (a, s)
  | Panicked => Panic
  | Refused => NoMemory
  | Starved => OutOfFuel
  end.

Section Two.
Context {K V : Type} `{EqDecision K} `{EqDecision V} (n : nat).

(** [impl Clone for HashMap]: the clone. *)
Definition map_clone (hash : K → Z) : prog (Table K V) (Table K V) :=
  let! m := load memory in
  let! capacity := map_capacity in
  let! r := map_scan hash n (λ k v self_clone, run_in (map_insert hash n k v ;; Ret ()) self_clone)
              (run (map_with_capacity capacity) (table_new m 0)) in
  let! c := leave_run r in
  Ret c.2.

(** [!self.any(|k, v| other.read(k, |_, ov| v == ov) != Some(true))]: each map has its own
    hasher. *)
Definition map_included (hash hash_other : K → Z) (other : Table K V) : prog (Table K V) (bool * Table K V) :=
  let! r := map_any hash n (λ k v other,
    match run_in (map_read hash_other n k (λ _ ov, bool_decide (v = ov))) other with
    | Done r other => (bool_decide (r ≠ Some true), Done () other)
    | Panicked => (true, Panicked)
    | Refused => (true, Refused)
    | Starved => (true, Starved)
    end) (Done () other) in
  let! other := leave_run r.2 in
  Ret (negb r.1, other.2).

(** [PartialEq::eq] of two maps that are not the same one: both may change, as reading
    relocates entries. *)
Definition map_partial_eq (hash hash_other : K → Z) : prog (Table K V * Table K V) bool :=
  let! other := load snd in
  let! r := zoom (λ s, Some s.1) (λ t s, (t, s.2)) (map_included hash hash_other other) in
  store (λ t s, (s.1, t)) r.2 ;;
  if r.1 : bool then
    let! self := load fst in
    let! r := zoom (λ s, Some s.2) (λ t s, (s.1, t)) (map_included hash_other hash self) in
    store (λ t s, (t, s.2)) r.2 ;;
    Ret r.1
  else Ret false.
End Two.
