(* ===== verification/MapSpec.v ===== *)
(** * Programs that use a hash map

    A program calls the functions of [HashMap] and uses the handles that it gets, one at a
    time; its answers are those of the same program on a finite map.  Loops through
    [first_entry] and [next] visit every entry once. *)
From S2P Require Import Prelude Atomic Tag Lru Bucket BucketInv BucketQuery BucketIter BucketProps BucketArray Rehash HashTable TableInv TableRelocate TableRehash TableResize TableOps TableKey TableScan TableDrop TableEntry TableIter TableProps TableReserve HashMap.

Local Open Scope Z_scope.

(** ** Programs that use a map *)

Section Client.
Context {K V : Type} `{Countable K} (hash : K → Z) (n : nat).

(** What is observed; [EEvicted] only of a cache. *)
Inductive event : Type :=
  | EKey (k : K)
  | EVal (v : V)
  | EEntry (k : K) (v : V)
  | EEvicted (r : option (K * V)).

(** What is done with an [OccupiedEntry], and with a [VacantEntry]; each of them ends. *)
Inductive occupied_use : Type :=
  | ODrop
  | OKey (u : occupied_use)
  | OGet (u : occupied_use)
  | OGetMut (f : V → V) (u : occupied_use)
  | OInsert (v : V) (u : occupied_use)
  | ORemoveEntry
  | ORemove.

Inductive vacant_use : Type :=
  | VDrop
  | VIntoKey
  | VInsertEntry (v : V) (u : occupied_use).

Inductive entry_use : Type :=
  | UDrop
  | UKey (u : entry_use)
  | UAndModify (f : V → V) (u : entry_use)
  | UOrInsert (v : V) (u : occupied_use)
  | UOrInsertWithKey (constructor : K → V) (u : occupied_use)
  | UInsertEntry (v : V) (u : occupied_use)
  | UMatch (u : occupied_use) (w : vacant_use).

Fixpoint use_occupied (u : occupied_use) (e : LockedEntry) : prog (Table K V) (list event) :=
  match u with
  | ODrop => drop_entry e ;; Ret []
  | OKey u => let! k := occupied_key e in let! r := use_occupied u e in Ret (EKey k :: r)
  | OGet u => let! v := occupied_get e in let! r := use_occupied u e in Ret (EVal v :: r)
  | OGetMut f u => occupied_get_mut e (λ v, (f v, ())) ;; use_occupied u e
  | OInsert v u => let! v := occupied_insert e v in let! r := use_occupied u e in Ret (EVal v :: r)
  | ORemoveEntry => let! kv := occupied_remove_entry n e in Ret [EEntry kv.1 kv.2]
  | ORemove => let! v := occupied_remove n e in Ret [EVal v]
  end.

Definition use_vacant (w : vacant_use) (key : K) (hash : Z) (e : LockedEntry) : prog (Table K V) (list event) :=
  match w with
  | VDrop => drop_entry e ;; Ret []
  | VIntoKey => let! k := vacant_into_key key e in Ret [EKey k]
  | VInsertEntry v u => let! o := vacant_insert_entry n key hash e v in use_occupied u o
  end.

Fixpoint use_entry (u : entry_use) (self : Entry) : prog (Table K V) (list event) :=
  match u with
  | UDrop => entry_drop self ;; Ret []
  | UKey u => let! k := entry_key self in let! r := use_entry u self in Ret (EKey k :: r)
  | UAndModify f u => let! self := entry_and_modify self f in use_entry u self
  | UOrInsert v u => let! o := entry_or_insert n self v in use_occupied u o
  | UOrInsertWithKey c u => let! o := entry_or_insert_with_key n self c in use_occupied u o
  | UInsertEntry v u => let! o := entry_insert_entry n self v in use_occupied u o
  | UMatch u w =>
      match self with
      | Occupied o => use_occupied u o
      | Vacant key hash e => use_vacant w key hash e
      end
  end.

Inductive map_op : Type :=
  | MInsert (k : K) (v : V)
  | MUpdate (k : K) (f : K → V → V * V)
  | MRemove (k : K)
  | MRemoveIf (k : K) (condition : V → bool * V)
  | MRead (k : K) (f : K → V → V)
  | MContains (k : K)
  | MGet (k : K) (u : occupied_use)
  | MEntry (k : K) (u : entry_use)
  | MAny (pred : K → V → bool)
  | MRetain (pred : K → V → bool * V)
  | MPrune (pred : K → V → option V)
  | MClear
  | MLen
  | MIsEmpty
  | MReserve (additional : Z)
  | MUnreserve (i : nat).

Inductive map_res : Type :=
  | RInsert (r : unit + K * V)
  | RValue (r : option V)
  | REntry (r : option (K * V))
  | RBool (r : bool)
  | REvents (r : option (list event))
  | RNumber (r : Z)
  | RReserve (r : option Z)
  | RUnit.

(** The program keeps the [Reserve]s it got in a list. *)
Definition map_apply (op : map_op) (rs : list Z) : prog (Table K V) (map_res * list Z) :=
  match op with
  | MInsert k v => let! r := map_insert hash n k v in Ret (RInsert r, rs)
  | MUpdate k f => let! r := map_update hash n k f in Ret (RValue r, rs)
  | MRemove k => let! r := map_remove hash n k in Ret (REntry r, rs)
  | MRemoveIf k c => let! r := map_remove_if hash n k c in Ret (REntry r, rs)
  | MRead k f => let! r := map_read hash n k f in Ret (RValue r, rs)
  | MContains k => let! r := map_contains hash n k in Ret (RBool r, rs)
  | MGet k u =>
      let! o := map_get hash n k in
      match o with
      | None => Ret (REvents None, rs)
      | Some e => let! r := use_occupied u e in Ret (REvents (Some r), rs)
      end
  | MEntry k u =>
      let! e := map_entry hash n k in
      let! r := use_entry u e in Ret (REvents (Some r), rs)
  | MAny p => let! r := map_any hash n (λ k v u, (p k v, u)) () in Ret (RBool r.1, rs)
  | MRetain p => map_retain hash n p ;; Ret (RUnit, rs)
  | MPrune p => map_prune hash n p ;; Ret (RUnit, rs)
  | MClear => map_clear hash n ;; Ret (RUnit, rs)
  | MLen => let! z := map_len n in Ret (RNumber z, rs)
  | MIsEmpty => let! b := map_is_empty n in Ret (RBool b, rs)
  | MReserve a => let! r := map_reserve n a in Ret (RReserve r, rs ++ option_list r)
  | MUnreserve i =>
      match rs !! i with
      | Some a => reserve_drop n a ;; Ret (RUnit, delete i rs)
      | None => Ret (RUnit, rs)
      end
  end.

Fixpoint map_trace (ops : list map_op) (rs : list Z) : prog (Table K V) (list map_res) :=
  match ops with
  | [] => Ret []
  | op :: ops =>
      let! r := map_apply op rs in
      let! l := map_trace ops r.2 in
      Ret (r.1 :: l)
  end.

(** ** The same programs on a finite map *)

Implicit Types (m : gmap K V).

Fixpoint spec_occupied (u : occupied_use) (k : K) (v : V) m : list event * gmap K V :=
  match u with
  | ODrop => ([], m)
  | OKey u => let r := spec_occupied u k v m in (EKey k :: r.1, r.2)
  | OGet u => let r := spec_occupied u k v m in (EVal v :: r.1, r.2)
  | OGetMut f u => spec_occupied u k (f v) (<[k := f v]> m)
  | OInsert v' u => let r := spec_occupied u k v' (<[k := v']> m) in (EVal v :: r.1, r.2)
  | ORemoveEntry => ([EEntry k v], delete k m)
  | ORemove => ([EVal v], delete k m)
  end.

Definition spec_vacant (w : vacant_use) (k : K) m : list event * gmap K V :=
  match w with
  | VDrop => ([], m)
  | VIntoKey => ([EKey k], m)
  | VInsertEntry v u => spec_occupied u k v (<[k := v]> m)
  end.

Fixpoint spec_entry (u : entry_use) (k : K) m : list event * gmap K V :=
  match u with
  | UDrop => ([], m)
  | UKey u => let r := spec_entry u k m in (EKey k :: r.1, r.2)
  | UAndModify f u => spec_entry u k (alter f k m)
  | UOrInsert v u =>
      match m !! k with Some v' => spec_occupied u k v' m | None => spec_occupied u k v (<[k := v]> m) end
  | UOrInsertWithKey c u =>
      match m !! k with Some v' => spec_occupied u k v' m | None => spec_occupied u k (c k) (<[k := c k]> m) end
  | UInsertEntry v u => spec_occupied u k v (<[k := v]> m)
  | UMatch u w =>
      match m !! k with Some v => spec_occupied u k v m | None => spec_vacant w k m end
  end.

Definition reserves (op : map_op) (mn : Z) (rs : list Z) : list Z :=
  match op with
  | MReserve a => rs ++ option_list (reservation a mn)
  | MUnreserve i => delete i rs
  | _ => rs
  end.

Definition map_spec (op : map_op) (mn : Z) m : map_res * gmap K V :=
  match op with
  | MInsert k v =>
      match m !! k with
      | Some _ => (RInsert (inr (k, v)), m)
      | None => (RInsert (inl ()), <[k := v]> m)
      end
  | MUpdate k f =>
      match m !! k with
      | Some v => (RValue (Some (f k v).2), <[k := (f k v).1]> m)
      | None => (RValue None, m)
      end
  | MRemove k => (REntry (pair k <$> m !! k), delete k m)
  | MRemoveIf k c =>
      match m !! k with
      | Some v => if (c v).1 then (REntry (Some (k, (c v).2)), delete k m) else (REntry None, <[k := (c v).2]> m)
      | None => (REntry None, m)
      end
  | MRead k f => (RValue (f k <$> m !! k), m)
  | MContains k => (RBool (bool_decide (is_Some (m !! k))), m)
  | MGet k u =>
      match m !! k with
      | Some v => let r := spec_occupied u k v m in (REvents (Some r.1), r.2)
      | None => (REvents None, m)
      end
  | MEntry k u => let r := spec_entry u k m in (REvents (Some r.1), r.2)
  | MAny p => (RBool (existsb (λ kv, p kv.1 kv.2) (map_to_list m)), m)
  | MRetain p => (RUnit, map_imap (retain_value p) m)
  | MPrune p => (RUnit, map_imap p m)
  | MClear => (RUnit, ∅)
  | MLen => (RNumber (Z.of_nat (size m)), m)
  | MIsEmpty => (RBool (bool_decide (m = ∅)), m)
  | MReserve a => (RReserve (reservation a mn), m)
  | MUnreserve i => (RUnit, m)
  end.

(** [base] is the minimum capacity that the map was created with, [rs] the reservations. *)
Fixpoint map_effects (ops : list map_op) (base : Z) (rs : list Z) m : list map_res * gmap K V :=
  match ops with
  | [] => ([], m)
  | op :: ops =>
      let mn := base + sum_reserved rs in
      let s := map_spec op mn m in
      let r := map_effects ops base (reserves op mn rs) s.2 in
      (s.1 :: r.1, r.2)
  end.

(** A reservation fails, or it is within 32 times the floor [F]. *)
Definition map_ok (F : Z) (op : map_op) (mn : Z) : Prop :=
  match op with
  | MReserve a => reservable map_maximum_capacity F a mn
  | _ => True
  end.

Fixpoint map_oks (F : Z) (ops : list map_op) (base : Z) (rs : list Z) : Prop :=
  match ops with
  | [] => True
  | op :: ops =>
      let mn := base + sum_reserved rs in
      map_ok F op mn ∧ map_oks F ops base (reserves op mn rs)
  end.
End Client.

Arguments event : clear implicits.
Arguments occupied_use : clear implicits.
Arguments vacant_use : clear implicits.
Arguments entry_use : clear implicits.
Arguments map_op : clear implicits.
Arguments map_res : clear implicits.

Lemma alter_insert_some {K V} `{Countable K} (f : V → V) k v (m : gmap K V) : m !! k = Some v → alter f k m = <[k := f v]> m.
Proof.
  intros Hm. apply map_eq. intros k'. destruct (decide (k = k')) as [<- | Hne].
  - by rewrite lookup_insert_eq, lookup_alter_eq, Hm.
  - by rewrite lookup_insert_ne, lookup_alter_ne.
Qed.

Lemma alter_absent {K V} `{Countable K} (f : V → V) k (m : gmap K V) : m !! k = None → alter f k m = m.
Proof.
  intros Hm. apply map_eq. intros k'.
  destruct (decide (k = k')) as [<- | Hne]; [by rewrite lookup_alter_eq, Hm | by rewrite lookup_alter_ne].
Qed.

(** A scan that collects the entries. *)
Lemma foldl_collect {K V} (l1 l0 : list (K * V)) : foldl (λ y kv, y ++ [(kv.1, kv.2)]) l0 l1 = l0 ++ l1.
Proof. revert l0. induction l1 as [| [k v] l1 IH]; intros l0; cbn; [by rewrite app_nil_r |]. by rewrite IH, <-app_assoc. Qed.

(** ** One operation *)

Section Spec.
Context {K V : Type} `{Countable K} (hash : K → Z) (Hhash : ∀ k, in_word 64 (hash k)) (n : nat) (F : Z).

Implicit Types (m : gmap K V) (t : Table K V) (mn base : Z) (rs : list Z) (k : K) (v : V) (e : LockedEntry) (I : nat)
  (ins outs : list K).

Local Notation live := (live SEQUENTIAL hash map_maximum_capacity F).
Local Notation reserved := (reserved SEQUENTIAL hash map_maximum_capacity F).
Local Notation budget := (budget n).

Lemma word_range : 6 ≤ 63 ≤ 63.
Proof. done. Qed.

Lemma map_maximum : map_maximum_capacity = 2 ^ 63.
Proof. done. Qed.

Local Notation alive := (alive SEQUENTIAL hash map_maximum_capacity F).
Local Notation holding := (holding SEQUENTIAL hash map_maximum_capacity F).

Lemma runs_occupied_entry {R} k v e I mn m t (next : K * V → prog (Table K V) R) Q :
  holding k e I mn m t → m !! k = Some v → runs (next (k, v)) t Q →
  runs (let! x := occupied_entry e in next x) t Q.
Proof. apply runs_holding_get. Qed.

Lemma runs_occupied_set {R} k v v' e I mn m t (next : unit → prog (Table K V) R) Q :
  holding k e I mn m t → m !! k = Some v → (∀ t', holding k e I mn (<[k := v']> m) t' → runs (next ()) t' Q) →
  runs (let! x := at_bucket (locker e) (index e) (ptr_set (entry_ptr e) v') in next x) t Q.
Proof. by eapply (runs_holding_set SEQUENTIAL hash Hhash map_maximum_capacity 63 word_range map_maximum). Qed.

Lemma runs_occupied_drop {R} k e I mn m t (next : unit → prog (Table K V) R) Q :
  holding k e I mn m t → (∀ t', alive I mn m t' → runs (next ()) t' Q) → runs (let! x := drop_entry e in next x) t Q.
Proof. by eapply (runs_holding_drop SEQUENTIAL hash Hhash map_maximum_capacity 63 word_range map_maximum). Qed.

Lemma runs_vacant_insert {R} k v e I mn m t (next : LockedEntry → prog (Table K V) R) Q :
  holding k e I mn m t → m !! k = None → budget (S I) →
  (∀ e' t', holding k e' (S I) mn (<[k := v]> m) t' → runs (next e') t' Q) →
  runs (let! x := vacant_insert_entry n k (hash k) e v in next x) t Q.
Proof.
  intros Hh Hm Hb Hn. unfold vacant_insert_entry. apply runs_bind.
  eapply (runs_holding_insert SEQUENTIAL hash Hhash n map_maximum_capacity 63 word_range map_maximum F k v); [exact Hh | exact Hm | exact Hb |].
  intros r t' Hh'. apply runs_ret. by apply Hn.
Qed.

Lemma runs_occupied_remove {R} k v e I mn m t (next : K * V → prog (Table K V) R) Q :
  holding k e I mn m t → m !! k = Some v → budget I →
  (∀ t', alive I mn (delete k m) t' → runs (next (k, v)) t' Q) →
  runs (let! x := occupied_remove_entry n e in next x) t Q.
Proof.
  intros Hh Hm Hb Hn. unfold occupied_remove_entry. apply runs_bind.
  eapply (runs_holding_remove SEQUENTIAL hash Hhash n map_maximum_capacity 63 word_range map_maximum F k v); [done | exact Hh | exact Hm | exact Hb |].
  intros t' Hl. apply runs_ret. by apply Hn.
Qed.

(** ** Handles *)

Lemma runs_use_occupied u k v e I mn m t :
  holding k e I mn m t → m !! k = Some v → budget I →
  runs (use_occupied n u e) t (λ r t', let s := spec_occupied u k v m in r = s.1 ∧ alive I mn s.2 t').
Proof.
  intros Hh Hm Hb. revert v m t Hh Hm. induction u as [| u IH | u IH | f u IH | v' u IH | |]; intros v m t Hh Hm; cbn [use_occupied spec_occupied].
  - eapply runs_occupied_drop; [exact Hh |]. intros t' Hl. by apply runs_ret.
  - unfold occupied_key. apply runs_bind. eapply runs_occupied_entry; [exact Hh | exact Hm |]. apply runs_ret.
    eapply runs_call; [by apply IH |]. intros r t' [-> Hl]. by apply runs_ret.
  - unfold occupied_get. apply runs_bind. eapply runs_occupied_entry; [exact Hh | exact Hm |]. apply runs_ret.
    eapply runs_call; [by apply IH |]. intros r t' [-> Hl]. by apply runs_ret.
  - unfold occupied_get_mut. apply runs_bind. eapply runs_occupied_entry; [exact Hh | exact Hm |].
    eapply runs_occupied_set; [exact Hh | exact Hm |]. intros t' Hh'. apply runs_ret. apply IH; [exact Hh' | apply lookup_insert_eq].
  - unfold occupied_insert, occupied_get_mut. apply runs_bind. eapply runs_occupied_entry; [exact Hh | exact Hm |].
    eapply runs_occupied_set; [exact Hh | exact Hm |]. intros t' Hh'. apply runs_ret. cbn [fst snd].
    eapply runs_call; [apply IH; [exact Hh' | apply lookup_insert_eq] |]. intros r t2 [-> Hl]. by apply runs_ret.
  - eapply runs_occupied_remove; [exact Hh | exact Hm | exact Hb |]. intros t' Hl. by apply runs_ret.
  - unfold occupied_remove. apply runs_bind. eapply runs_occupied_remove; [exact Hh | exact Hm | exact Hb |].
    intros t' Hl. apply runs_ret. by apply runs_ret.
Qed.

(** What an [Entry] of the key [k] is. *)
Definition entry_of k (self : Entry) I mn m t : Prop :=
  match self with
  | Occupied e => ∃ v, m !! k = Some v ∧ holding k e I mn m t
  | Vacant key h e => key = k ∧ h = hash k ∧ m !! k = None ∧ holding k e I mn m t
  end.

Lemma runs_map_entry k I mn m t :
  alive I mn m t → budget I → runs (map_entry hash n k) t (λ r t', entry_of k r I mn m t').
Proof.
  intros (ins & outs & Hl) Hb. unfold map_entry.
  eapply runs_call; [by eapply (runs_reserve_entry SEQUENTIAL hash Hhash n map_maximum_capacity 63 word_range map_maximum F k) |].
  intros r t' (e & C & -> & Hr). rewrite (reserved_valid _ _ _ _ _ _ _ _ _ _ _ _ _ Hr).
  assert (Hh : holding k e I mn m t') by (by exists C, ins, outs).
  destruct (m !! k) as [v |] eqn:Hm.
  - rewrite bool_decide_true by eauto. apply runs_ret. by exists v.
  - rewrite bool_decide_false by (by intros [? ?]). by apply runs_ret.
Qed.

Lemma runs_use_vacant w k e I mn m t :
  holding k e I mn m t → m !! k = None → budget (S I) →
  runs (use_vacant n w k (hash k) e) t (λ r t', let s := spec_vacant w k m in r = s.1 ∧ alive (S I) mn s.2 t').
Proof.
  intros Hh Hm Hb. destruct w as [| | v u]; cbn [use_vacant spec_vacant].
  - eapply runs_occupied_drop; [exact Hh |]. intros t' Hl. apply runs_ret. split; [done |]. eapply alive_mono; [exact Hl | lia].
  - unfold vacant_into_key. apply runs_bind. eapply runs_occupied_drop; [exact Hh |]. intros t' Hl. apply runs_ret, runs_ret.
    split; [done |]. eapply alive_mono; [exact Hl | lia].
  - eapply runs_vacant_insert; [exact Hh | exact Hm | exact Hb |]. intros e' t' Hh'.
    apply runs_use_occupied; [exact Hh' | apply lookup_insert_eq | exact Hb].
Qed.

(** The entry is there, or a new one is inserted; then it is used. *)
Lemma runs_or_insert (self : Entry) (c : K → V) u k I mn m t :
  entry_of k self I mn m t → budget (S I) →
  runs (let! o := entry_or_insert_with_key n self c in use_occupied n u o) t (λ r t',
    let s := match m !! k with Some v' => spec_occupied u k v' m | None => spec_occupied u k (c k) (<[k := c k]> m) end in
    r = s.1 ∧ alive (S I) mn s.2 t').
Proof.
  intros Hself Hb. assert (Hb' : budget I) by (destruct Hb; split; lia). destruct self as [e | key h e]; cbn [entry_or_insert_with_key].
  - destruct Hself as (v & Hm & Hh). apply runs_bind, runs_ret. rewrite Hm.
    eapply runs_mono; [| by eapply runs_use_occupied]. intros r t' [-> Hl]. split; [done |]. eapply alive_mono; [exact Hl | lia].
  - destruct Hself as (-> & -> & Hm & Hh). rewrite Hm. eapply runs_vacant_insert; [exact Hh | exact Hm | exact Hb |].
    intros e' t' Hh'. apply runs_use_occupied; [exact Hh' | apply lookup_insert_eq | exact Hb].
Qed.

Lemma runs_use_entry u (self : Entry) k I mn m t :
  entry_of k self I mn m t → budget (S I) →
  runs (use_entry n u self) t (λ r t', let s := spec_entry u k m in r = s.1 ∧ alive (S I) mn s.2 t').
Proof.
  intros Hself Hb. assert (Hb' : budget I) by (destruct Hb; split; lia).
  revert self m t Hself. induction u as [| u IH | f u IH | v u | c u | v u | u w]; intros self m t Hself; cbn [use_entry spec_entry].
  - destruct self as [e | key h e]; cbn [entry_drop].
    + destruct Hself as (v & Hm & Hh). eapply runs_occupied_drop; [exact Hh |]. intros t' Hl. apply runs_ret.
      split; [done |]. eapply alive_mono; [exact Hl | lia].
    + destruct Hself as (_ & _ & _ & Hh). eapply runs_occupied_drop; [exact Hh |]. intros t' Hl. apply runs_ret.
      split; [done |]. eapply alive_mono; [exact Hl | lia].
  - eapply (runs_call _ _ _ (λ r t', r = k ∧ entry_of k self I mn m t')).
    + destruct self as [e | key h e]; cbn [entry_key]; [| apply runs_ret; split; [apply Hself | exact Hself]].
      pose proof Hself as (v & Hm & Hh). unfold occupied_key. eapply runs_occupied_entry; [exact Hh | exact Hm |]. by apply runs_ret.
    + intros r t' [-> Hself']. eapply runs_call; [by apply IH |]. intros r t2 [-> Hl]. by apply runs_ret.
  - eapply (runs_call _ _ _ (λ r t', entry_of k r I mn (alter f k m) t')); [| intros r t' Hself'; by apply IH].
    destruct self as [e | key h e]; cbn [entry_and_modify].
    + destruct Hself as (v & Hm & Hh). unfold occupied_get_mut. apply runs_bind. eapply runs_occupied_entry; [exact Hh | exact Hm |].
      eapply runs_occupied_set; [exact Hh | exact Hm |]. intros t' Hh'. apply runs_ret, runs_ret. exists (f v).
      rewrite (alter_insert_some f k v m Hm). split; [apply lookup_insert_eq | exact Hh'].
    + apply runs_ret. destruct Hself as (-> & -> & Hm & Hh). rewrite (alter_absent f k m Hm). by split_and!.
  - by apply runs_or_insert.
  - by apply runs_or_insert.
  - destruct self as [e | key h e]; cbn [entry_insert_entry].
    + destruct Hself as (v' & Hm & Hh). unfold occupied_insert, occupied_get_mut. apply runs_bind, runs_bind.
      eapply runs_occupied_entry; [exact Hh | exact Hm |]. eapply runs_occupied_set; [exact Hh | exact Hm |].
      intros t' Hh'. apply runs_ret, runs_ret. cbn [fst].
      eapply runs_mono; [| eapply runs_use_occupied; [exact Hh' | apply lookup_insert_eq | exact Hb']].
      intros r t2 [-> Hl]. split; [done |]. eapply alive_mono; [exact Hl | lia].
    + destruct Hself as (-> & -> & Hm & Hh). eapply runs_vacant_insert; [exact Hh | exact Hm | exact Hb |].
      intros e' t' Hh'. apply runs_use_occupied; [exact Hh' | apply lookup_insert_eq | exact Hb].
  - destruct self as [e | key h e].
    + destruct Hself as (v & Hm & Hh). rewrite Hm. eapply runs_mono; [| by eapply runs_use_occupied].
      intros r t' [-> Hl]. split; [done |]. eapply alive_mono; [exact Hl | lia].
    + destruct Hself as (-> & -> & Hm & Hh). rewrite Hm. by apply runs_use_vacant.
Qed.
(** ** Reservations *)

Local Notation fits := (fits F).

Lemma runs_map_reserve (a : Z) base rs I m t :
  alive I (base + sum_reserved rs) m t → budget I → fits base rs → map_ok F (MReserve a : map_op K V) (base + sum_reserved rs) →
  runs (map_reserve n a) t (λ r t',
    let rs' := rs ++ option_list (reservation a (base + sum_reserved rs)) in
    r = reservation a (base + sum_reserved rs) ∧ alive I (base + sum_reserved rs') m t' ∧ fits base rs').
Proof. apply (runs_reserve SEQUENTIAL hash Hhash n map_maximum_capacity 63 word_range map_maximum F). Qed.

Lemma runs_reserve_drop (i : nat) (a : Z) base rs I m t :
  alive I (base + sum_reserved rs) m t → budget I → fits base rs → rs !! i = Some a →
  runs (reserve_drop n a) t (λ _ t', alive I (base + sum_reserved (delete i rs)) m t' ∧ fits base (delete i rs)).
Proof. apply (runs_unreserve SEQUENTIAL hash Hhash n map_maximum_capacity 63 word_range map_maximum F). Qed.

(** ** One operation *)

Definition map_post (op : map_op K V) I base rs m (r : map_res K V * list Z) t : Prop :=
  let mn := base + sum_reserved rs in
  r.1 = (map_spec op mn m).1 ∧ r.2 = reserves op mn rs ∧ alive (S I) (base + sum_reserved r.2) (map_spec op mn m).2 t ∧ fits base r.2.

Lemma map_imap_none m : map_imap (retain_value (λ (_ : K) (v : V), (false, v))) m = ∅.
Proof. apply map_empty. intros k. rewrite map_lookup_imap. by destruct (m !! k). Qed.

Lemma runs_map_op op I base rs m t :
  alive I (base + sum_reserved rs) m t → budget (S I) → fits base rs → map_ok F op (base + sum_reserved rs) →
  runs (map_apply hash n op rs) t (map_post op I base rs m).
Proof.
  intros Hal Hb Hfit Hok. assert (Hb' : budget I) by (destruct Hb; split; lia).
  pose proof Hal as (ins & outs & Hl). set (mn := base + sum_reserved rs) in *.
  assert (Hup : ∀ m' t', alive I mn m' t' → alive (S I) mn m' t') by (intros; eapply alive_mono; [done | lia]).
  assert (Hend : ∀ m' t' ins' outs', live I mn m' ins' outs' t' → alive (S I) mn m' t').
  { intros m' t' ins' outs' Hl'. apply Hup. by exists ins', outs'. }
  unfold map_post.
  destruct op as [k v | k f | k | k c | k f | k | k u | k u | p | p | p | | | | a | i]; cbn [map_apply map_spec reserves]; fold mn.
  - unfold map_insert. apply runs_bind.
    eapply runs_call; [by eapply (runs_insert_entry SEQUENTIAL hash Hhash n map_maximum_capacity 63 word_range map_maximum F k v) |].
    intros r t' Hr. destruct (m !! k); destruct Hr as [-> Hl']; apply runs_ret, runs_ret; (split; [done |]); (split; [done |]); (split; [| done]).
    + by eapply Hend.
    + by eexists _, _.
  - unfold map_update. apply runs_bind.
    eapply runs_call; [by eapply (runs_get_entry_of SEQUENTIAL hash Hhash n map_maximum_capacity 63 word_range map_maximum F k) |].
    intros r t' Hr. destruct (m !! k) as [v |] eqn:Hm.
    + destruct Hr as (e & C & -> & Hr). cbn [mjoin option_join]. assert (Hh : holding k e I mn m t') by (by exists C, ins, outs).
      eapply runs_occupied_entry; [exact Hh | exact Hm |]. cbn [fst snd].
      eapply runs_occupied_set; [exact Hh | exact Hm |]. intros t2 Hh2. eapply runs_occupied_drop; [exact Hh2 |].
      intros t3 Hl3. apply runs_ret, runs_ret. split; [done |]. split; [done |]. split; [by apply Hup | done].
    + destruct Hr as [-> Hl']. apply runs_ret, runs_ret. split; [done |]. split; [done |]. split; [by eapply Hend | done].
  - unfold map_remove, map_remove_if. apply runs_bind.
    eapply runs_call; [by eapply (runs_remove_entry SEQUENTIAL hash Hhash n map_maximum_capacity 63 word_range map_maximum F k) |].
    intros r t' [-> Hl']. apply runs_ret, runs_ret. unfold remove_result in Hl' |- *.
    destruct (m !! k) as [v |] eqn:Hm; cbn [fst snd] in *.
    + rewrite decide_False by done. split; [done |]. split; [done |]. split; [by eapply Hend | done].
    + split; [done |]. split; [done |]. split; [| done]. rewrite delete_id by done. by eapply Hend.
  - unfold map_remove_if. apply runs_bind.
    eapply runs_call; [by eapply (runs_remove_entry SEQUENTIAL hash Hhash n map_maximum_capacity 63 word_range map_maximum F k) |].
    intros r t' [-> Hl']. apply runs_ret, runs_ret. unfold remove_result in Hl' |- *.
    destruct (m !! k) as [v |] eqn:Hm; cbn [fst snd] in *; [destruct (c v) as [[|] v2]; cbn [fst snd] in * |].
    + rewrite decide_False by done. split; [done |]. split; [done |]. split; [by eapply Hend | done].
    + split; [done |]. split; [done |]. split; [by eapply Hend | done].
    + split; [done |]. split; [done |]. split; [by eapply Hend | done].
  - unfold map_read. apply runs_bind.
    eapply runs_call; [by eapply (runs_read_entry SEQUENTIAL hash Hhash n map_maximum_capacity 63 word_range map_maximum F k) |].
    intros r t' [-> Hl']. apply runs_ret, runs_ret. split; [by destruct (m !! k) |]. split; [done |]. split; [by eapply Hend | done].
  - unfold map_contains, map_read. apply runs_bind, runs_bind.
    eapply runs_call; [by eapply (runs_read_entry SEQUENTIAL hash Hhash n map_maximum_capacity 63 word_range map_maximum F k) |].
    intros r t' [-> Hl']. do 3 apply runs_ret. split; [| split; [done |]; split; [by eapply Hend | done]].
    by destruct (m !! k).
  - unfold map_get. apply runs_bind.
    eapply runs_call; [by eapply (runs_get_entry_of SEQUENTIAL hash Hhash n map_maximum_capacity 63 word_range map_maximum F k) |].
    intros r t' Hr. destruct (m !! k) as [v |] eqn:Hm.
    + destruct Hr as (e & C & -> & Hr). apply runs_ret. cbn [mjoin option_join id].
      eapply runs_call; [eapply (runs_use_occupied u k v e I mn m); [by exists C, ins, outs | exact Hm | exact Hb'] |].
      intros r t2 [-> Hl2]. apply runs_ret. split; [done |]. split; [done |]. split; [by apply Hup | done].
    + destruct Hr as [-> Hl']. apply runs_ret. apply runs_ret. split; [done |]. split; [done |]. split; [by eapply Hend | done].
  - eapply runs_call; [by apply runs_map_entry |]. intros self t' Hself.
    eapply runs_call; [by apply (runs_use_entry u self k I mn m) |]. intros r t2 [-> Hl2]. apply runs_ret.
    split; [done |]. split; [done |]. split; [exact Hl2 | done].
  - eapply runs_call; [by eapply (runs_any_entry SEQUENTIAL hash Hhash n map_maximum_capacity 63 word_range map_maximum F) |].
    intros r t' [(l & Hp & ->) Hl']. apply runs_ret. split; [| split; [done |]; split; [by eapply Hend | done]].
    cbn. by rewrite ask_any, (existsb_perm _ _ _ Hp).
  - eapply runs_call; [by eapply (runs_retain_entries SEQUENTIAL hash Hhash n map_maximum_capacity 63 word_range map_maximum F) |].
    intros r t' Hl'. apply runs_ret. split; [done |]. split; [done |]. split; [eapply Hend; exact Hl' | done].
  - eapply runs_call; [by eapply (runs_prune_entries SEQUENTIAL hash Hhash n map_maximum_capacity 63 word_range map_maximum F) |].
    intros r t' Hl'. apply runs_ret. split; [done |]. split; [done |]. split; [eapply Hend; exact Hl' | done].
  - eapply runs_call; [by eapply (runs_retain_entries SEQUENTIAL hash Hhash n map_maximum_capacity 63 word_range map_maximum F) |].
    intros r t' Hl'. apply runs_ret. rewrite map_imap_none in Hl'. split; [done |]. split; [done |]. split; [eapply Hend; exact Hl' | done].
  - eapply runs_call; [by eapply (runs_table_num_entries SEQUENTIAL hash Hhash n map_maximum_capacity 63 word_range map_maximum F) |].
    intros r t' [-> Hl']. apply runs_ret. split; [done |]. split; [done |]. split; [eapply Hend; exact Hl' | done].
  - unfold map_is_empty. apply runs_bind.
    eapply runs_call; [by eapply (runs_has_entry SEQUENTIAL hash Hhash n map_maximum_capacity 63 word_range map_maximum F) |].
    intros r t' [-> Hl']. apply runs_ret, runs_ret. split; [| split; [done |]; split; [eapply Hend; exact Hl' | done]].
    cbn. f_equal. rewrite <-bool_decide_not. apply bool_decide_ext. destruct (decide (m = ∅)); tauto.
  - eapply runs_call; [by eapply runs_map_reserve |]. intros r t' (-> & Hl' & Hfit'). apply runs_ret.
    split; [done |]. split; [done |]. cbn [snd]. split; [| exact Hfit']. eapply alive_mono; [exact Hl' | lia].
  - destruct (rs !! i) as [a |] eqn:Hi.
    + eapply runs_call; [by eapply runs_reserve_drop |]. intros r t' [Hl' Hfit']. apply runs_ret.
      split; [done |]. split; [done |]. cbn [snd]. split; [| exact Hfit']. eapply alive_mono; [exact Hl' | lia].
    + apply runs_ret. cbn [fst snd]. rewrite delete_none by done. split; [done |]. split; [done |].
      split; [eapply Hend; exact Hl | done].
Qed.
(** ** Sequences of operations *)

Lemma runs_map_trace ops I base rs m t :
  alive I (base + sum_reserved rs) m t → budget (length ops + I) → fits base rs → map_oks F ops base rs →
  runs (map_trace hash n ops rs) t (λ l t', ∃ rs', let e := map_effects ops base rs m in
    l = e.1 ∧ alive (length ops + I) (base + sum_reserved rs') e.2 t' ∧ fits base rs').
Proof.
  revert I rs m t. induction ops as [| op ops IH]; intros I rs m t Hal Hb Hfit Hok.
  - apply runs_ret. by exists rs.
  - cbn [map_trace map_oks length Nat.add] in *. destruct Hok as [Hop Hops].
    eapply runs_call; [apply (runs_map_op op I base rs m t Hal); [destruct Hb; split; lia | exact Hfit | exact Hop] |].
    intros [r rs1] t1 (Hr & Hrs & Hal1 & Hfit1). cbn [fst snd] in *. subst r rs1.
    eapply runs_call; [apply (IH (S I) _ _ _ Hal1); [by rewrite Nat.add_succ_r | exact Hfit1 | exact Hops] |].
    intros l t2 (rs' & -> & Hal2 & Hfit2). apply runs_ret. exists rs'. split; [done |].
    rewrite Nat.add_succ_r in Hal2. by split.
Qed.

(** ** A loop over the entries *)

(** [while let Some(mut e) = o { .. e.get_mut() ..; o = e.next(); }]: the entries that were
    met, with the values that they had. *)
Definition iterate_from (f : K → V → V) (o : option LockedEntry) (acc : list (K * V)) (fuel : nat) :
    prog (Table K V) (list (K * V)) :=
  loop fuel (λ s : option LockedEntry * list (K * V),
    match s.1 with
    | None => Ret (Break s.2)
    | Some e =>
        let! k := occupied_key e in
        let! v := occupied_get_mut e (λ v, (f k v, v)) in
        let! o := occupied_next hash n e in
        Ret (Continue (o, s.2 ++ [(k, v)]))
    end) (o, acc).

Definition map_iterate (f : K → V → V) : prog (Table K V) (list (K * V)) :=
  let! o := map_first_entry hash n in iterate_from f o [] n.

(** [m'] is [m] after [f] was done to the values of the keys [ks]. *)
Definition touched (f : K → V → V) (ks : list K) m m' : Prop :=
  ∀ k, m' !! k = if decide (k ∈ ks) then f k <$> m !! k else m !! k.

Lemma touched_all f m m' : touched f (map_to_list m).*1 m m' → m' = map_imap (λ k v, Some (f k v)) m.
Proof.
  intros Ht. apply map_eq. intros k. rewrite (Ht k), map_lookup_imap. case_decide as Hin.
  - by destruct (m !! k).
  - destruct (m !! k) as [v |] eqn:Hm; [| done]. destruct Hin. apply list_elem_of_fmap. exists (k, v).
    split; [done |]. by apply elem_of_map_to_list.
Qed.

Lemma runs_iterate_from f rest I mn m ins outs t k v e acc (fuel : nat) :
  cursor SEQUENTIAL hash map_maximum_capacity F e k v rest I mn m ins outs t → budget I →
  NoDup ((k, v) :: rest).*1 → (length rest + 1 < fuel)%nat →
  runs (iterate_from f (Some e) acc fuel) t (λ l t', ∃ l' m', l = acc ++ l' ∧ l' ≡ₚ (k, v) :: rest ∧
    live I mn m' ins outs t' ∧ touched f ((k, v) :: rest).*1 m m').
Proof.
  intros Hc Hb. revert rest m t k v e acc Hc. induction fuel as [| fuel IH]; intros rest m t k v e acc Hc Hnd Hf; [lia |].
  unfold iterate_from. apply runs_loop. cbn [fst snd].
  destruct (cursor_reserved _ _ _ _ _ _ _ _ _ _ _ _ _ _ Hc) as (Hm & C & Hr).
  assert (Hh : holding k e I mn m t) by (by exists C, ins, outs).
  unfold occupied_key. apply runs_bind. eapply runs_occupied_entry; [exact Hh | exact Hm |]. apply runs_ret.
  unfold occupied_get_mut. apply runs_bind. eapply runs_occupied_entry; [exact Hh | exact Hm |]. cbn [fst snd].
  eapply runs_call; [by eapply (runs_cursor_set SEQUENTIAL hash map_maximum_capacity 63 word_range F e k v (f k v)) |].
  intros u t1 Hc1. apply runs_ret.
  eapply runs_call; [eapply (runs_locked_entry_next SEQUENTIAL hash n map_maximum_capacity 63 word_range map_maximum F); [exact Hc1 | exact Hb] |].
  intros [e' |] t2 Hnext; apply runs_ret.
  - destruct Hnext as (k' & v' & rest' & Hc2 & Hperm).
    assert (Hlen : length ((k', v') :: rest') = length rest) by (by rewrite Hperm). cbn in Hlen.
    assert (Hks : ((k', v') :: rest').*1 ≡ₚ rest.*1) by (by rewrite Hperm).
    change (NoDup (k :: rest.*1)) in Hnd. apply NoDup_cons in Hnd as [Hk Hnd].
    eapply runs_mono; [| apply (IH rest' (<[k := f k v]> m) t2 k' v' e'); [exact Hc2 | by rewrite Hks | lia]].
    intros l t3 (l' & m' & -> & Hl' & Hlive & Htouch). exists ((k, v) :: l'), m'.
    split; [by rewrite <-app_assoc |]. split; [by rewrite Hl', Hperm |]. split; [exact Hlive |].
    intros x. rewrite (Htouch x). change (((k, v) :: rest).*1) with (k :: rest.*1).
    destruct (decide (x = k)) as [-> | Hne].
    + rewrite decide_False by (by rewrite Hks). rewrite decide_True by left. by rewrite lookup_insert_eq, Hm.
    + rewrite lookup_insert_ne by done. apply decide_ext. rewrite Hks, elem_of_cons. tauto.
  - destruct Hnext as [-> Hlive]. destruct fuel as [| fuel]; [cbn in Hf; lia |]. apply runs_loop. apply runs_ret.
    exists [(k, v)], (<[k := f k v]> m). split; [done |]. split; [done |]. split; [exact Hlive |].
    intros x. cbn [fmap list_fmap fst]. destruct (decide (x = k)) as [-> | Hne].
    + rewrite decide_True by left. by rewrite lookup_insert_eq, Hm.
    + rewrite decide_False by (by intros Hx%list_elem_of_singleton). by rewrite lookup_insert_ne.
Qed.

Lemma runs_map_iterate f I mn m t :
  alive I mn m t → budget (S I) →
  runs (map_iterate f) t (λ l t', l ≡ₚ map_to_list m ∧ alive I mn (map_imap (λ k v, Some (f k v)) m) t').
Proof.
  intros Hal [Hn Hmax]. pose proof (alive_size _ _ _ _ _ _ _ _ Hal) as Hsz. pose proof Hal as (ins & outs & Hl).
  assert (Hb : budget I) by (split; lia). unfold map_iterate, map_first_entry.
  eapply runs_call; [by eapply (runs_lock_first_entry SEQUENTIAL hash Hhash n map_maximum_capacity 63 word_range map_maximum F) |].
  intros [e |] t1 Hr.
  - destruct Hr as (k & v & rest & Hc & Hperm).
    assert (Hks : ((k, v) :: rest).*1 ≡ₚ (map_to_list m).*1) by (by rewrite Hperm).
    assert (Hlen : length ((k, v) :: rest) = size m) by (by rewrite Hperm, length_map_to_list). cbn in Hlen.
    eapply runs_mono; [| eapply (runs_iterate_from f); [exact Hc | exact Hb | | lia]].
    2:{ rewrite Hks. apply NoDup_fst_map_to_list. }
    intros l t2 (l' & m' & -> & Hl' & Hlive & Htouch). cbn [app]. split; [by rewrite Hl' |]. exists ins, outs.
    rewrite <-(touched_all f m m'); [exact Hlive |]. intros k'. rewrite (Htouch k'). apply decide_ext. by rewrite Hks.
  - destruct Hr as [-> Hlive]. unfold iterate_from. apply runs_loop_once; [lia |]. apply runs_ret. eexists. split; [done |].
    split; [by rewrite map_to_list_empty |]. exists ins, outs. replace (map_imap _ ∅) with (∅ : gmap K V); [exact Hlive |].
    symmetry. apply map_empty. intros k. by rewrite map_lookup_imap, lookup_empty.
Qed.
End Spec.
