(* ===== verification/MapProps.v ===== *)
(** * A hash map is a map

    The theorems on [HashMap], from its creation on: programs answer what they would on a
    finite map, loops visit every entry, a clone has the same entries, and two maps are equal
    when their entries are. *)
From S2P Require Import Prelude Atomic Tag Lru Bucket BucketInv BucketQuery BucketIter BucketProps BucketArray Rehash HashTable TableInv TableRelocate TableRehash TableResize TableOps TableKey TableScan TableEntry TableIter TableProps TableReserve HashMap MapSpec.

Local Open Scope Z_scope.

Local Notation map_alive hash := (alive SEQUENTIAL hash map_maximum_capacity).

(** ** Creation *)

Section New.
Context {K V : Type} `{Countable K} (hash : K → Z) (Hhash : ∀ k, in_word 64 (hash k)) (n : nat).

Implicit Types (m : gmap K V) (t : Table K V).

Local Notation alive F := (alive SEQUENTIAL hash map_maximum_capacity F).

Lemma runs_map_with_capacity mem (capacity : Z) :
  runs (map_with_capacity capacity) (table_new mem 0 : Table K V) (λ _ t,
    alive (floor_of (table_base capacity)) 0 (table_base capacity) ∅ t ∧ fits (floor_of (table_base capacity)) (table_base capacity) []).
Proof.
  pose proof (table_base_range capacity). eapply runs_mono; [| apply (runs_with_capacity SEQUENTIAL hash map_maximum_capacity 63 word_range map_maximum); lia].
  intros [] t Hal. split; [exact Hal |]. split; [done |]. split; [lia | done].
Qed.

(** A program on a new map. *)
Record map_setting (capacity : Z) (ops : list (map_op K V)) : Prop := {
  ms_capacity : in_word 64 capacity;
  ms_ops : map_oks (floor_of (table_base capacity)) ops (table_base capacity) [];
  ms_fuel : (S (length ops) < n)%nat;
  ms_count : Z.of_nat (S (length ops)) ≤ u32_max
}.

Definition map_program (capacity : Z) (ops : list (map_op K V)) : prog (Table K V) (list (map_res K V)) :=
  map_with_capacity capacity ;; map_trace hash n ops [].

Definition map_result (capacity : Z) (ops : list (map_op K V)) : list (map_res K V) * gmap K V :=
  map_effects ops (table_base capacity) [] ∅.

Lemma runs_map_program mem (capacity : Z) (ops : list (map_op K V)) : map_setting capacity ops →
  runs (map_program capacity ops) (table_new mem 0) (λ l t, ∃ mn, let e := map_result capacity ops in
    l = e.1 ∧ alive (floor_of (table_base capacity)) (length ops) mn e.2 t).
Proof.
  intros [Hcap Hops Hn Hmax]. unfold map_program. eapply runs_call; [apply runs_map_with_capacity |].
  intros [] t [Hal Hfit]. eapply runs_mono; [| eapply (runs_map_trace hash Hhash n _ ops 0 _ [] ∅ t);
    [| split; lia | exact Hfit | exact Hops]].
  - intros l t' (rs' & -> & Hal' & _). eexists. split; [done |]. rewrite Nat.add_0_r in Hal'. exact Hal'.
  - by rewrite Z.add_0_r.
Qed.
End New.

(** ** Clones *)

Section Clone.
Context {K V : Type} `{Countable K} `{EqDecision V} (n : nat).

Implicit Types (m : gmap K V) (t s : Table K V) (l : list (K * V)) (I : nat) (F mn : Z).

(** How a run on another table ends: as it should, or without memory. *)
Definition ends {St A} {allow : Refuses St} (o : outcome St A) (Q : A → St → Prop) : Prop :=
  match o with Done a s => Q a s | Refused => may_refuse (St := St) = true | _ => False end.

Lemma ends_runs {A St} {allow : Refuses St} (p : prog St A) (s : St) (Q : A → St → Prop) : runs p s Q → ends (run p s) Q.
Proof. done. Qed.

Lemma ends_mono {A St} {allow : Refuses St} (o : outcome St A) (Q Q' : A → St → Prop) : (∀ a (s : St), Q a s → Q' a s) → ends o Q → ends o Q'.
Proof. destruct o; cbn; auto. Qed.

Lemma run_in_ends {St A} {allow : Refuses St} (p : prog St A) o (Q : A → St → Prop) :
  ends o (λ _ (s : St), runs p s Q) → ends (run_in p o) Q.
Proof. by destruct o as [[] s | | |]. Qed.

Lemma runs_leave_run {St T A R} {allow1 : Refuses St} {allow : Refuses T} (o : outcome St A) (k : A * St → prog T R) (t : T) (Q : R → T → Prop) :
  (may_refuse (St := St) = true → may_refuse (St := T) = true) →
  ends o (λ a (s : St), runs (k (a, s)) t Q) → runs (let! r := leave_run o in k r) t Q.
Proof. intros Hallow. destruct o; auto. Qed.

(** A scan whose closure never stops it. *)
Lemma ask_scan {Y} (scanner : K → V → Y → Y) l (y : Y) :
  ask (λ k v y, (false, scanner k v y)) l y = (false, foldl (λ y kv, scanner kv.1 kv.2 y) y l).
Proof. revert y. induction l as [| [k v] l IH]; intros y; cbn; [done |]. apply IH. Qed.

Lemma runs_map_scan {Y} (hash : K → Z) (scanner : K → V → Y → Y) (y : Y) F I mn m t :
  (∀ k, in_word 64 (hash k)) → map_alive hash F I mn m t → budget n I →
  runs (map_scan hash n scanner y) t (λ r t', map_alive hash F I mn m t' ∧
    ∃ l, l ≡ₚ map_to_list m ∧ r = foldl (λ y kv, scanner kv.1 kv.2 y) y l).
Proof.
  intros Hhash (ins & outs & Hl) Hb. unfold map_scan, map_any. eapply runs_call.
  { by eapply (runs_any_entry SEQUENTIAL hash Hhash n map_maximum_capacity 63 word_range map_maximum F). }
  intros r t' [(l & Hp & ->) Hl']. apply runs_ret. split; [by exists ins, outs |]. exists l. split; [done |]. by rewrite ask_scan.
Qed.

Lemma runs_insert_new (hash : K → Z) F I mn m s k v :
  (∀ k, in_word 64 (hash k)) → map_alive hash F I mn m s → budget n (S I) → m !! k = None →
  runs (map_insert hash n k v ;; Ret ()) s (λ _ s', map_alive hash F (S I) mn (<[k := v]> m) s').
Proof.
  intros Hhash (ins & outs & Hl) Hb Hmk. unfold map_insert. apply runs_bind. eapply runs_call.
  { eapply (runs_insert_entry SEQUENTIAL hash Hhash n map_maximum_capacity 63 word_range map_maximum F k v); [exact Hl |]. destruct Hb; split; lia. }
  intros r s1 Hr. rewrite Hmk in Hr. destruct Hr as [-> Hl1]. do 2 apply runs_ret. by eexists _, _.
Qed.

Lemma insert_all (hash : K → Z) F l I mn m o :
  (∀ k, in_word 64 (hash k)) → ends o (λ _ s, map_alive hash F I mn m s) → budget n (length l + I) → NoDup l.*1 → (∀ k, k ∈ l.*1 → m !! k = None) →
  ends (foldl (λ o kv, run_in (map_insert hash n kv.1 kv.2 ;; Ret ()) o) o l) (λ _ s', map_alive hash F (length l + I) mn (list_to_map l ∪ m) s').
Proof.
  intros Hhash. revert I m o. induction l as [| [k v] l IH]; intros I m o Ho Hb Hnd Hm; cbn [foldl fst snd].
  { destruct o as [[] s | | |]; try done. cbn. by rewrite map_empty_union. }
  cbn in Hnd. apply NoDup_cons in Hnd as [Hk Hnd]. cbn [length list_to_map foldr fst snd].
  replace (<[k := v]> (list_to_map l) ∪ m) with (list_to_map l ∪ <[k := v]> m)
    by (rewrite <-insert_union_l, <-insert_union_r; [done |]; by apply not_elem_of_list_to_map).
  cbn [length] in Hb. replace (S (length l) + I)%nat with (length l + S I)%nat in * by lia. apply IH; [| done | done |].
  - apply run_in_ends. destruct o as [[] s | | |]; try done. cbn [ends] in *.
    apply runs_insert_new; [done | exact Ho | destruct Hb; split; lia | apply Hm; left].
  - intros k' Hk'. rewrite lookup_insert_ne by (by intros ->). apply Hm. by right.
Qed.

Lemma runs_map_clone (hash : K → Z) F I mn m t :
  (∀ k, in_word 64 (hash k)) → map_alive hash F I mn m t → budget n I →
  runs (map_clone n hash) t (λ c t', map_alive hash F I mn m t' ∧
    ∃ base, map_alive hash (floor_of base) (size m) base m c ∧ fits (floor_of base) base []).
Proof.
  intros Hhash Hal Hb. pose proof Hal as (ins & outs & Hl). unfold map_clone, map_capacity. apply runs_load.
  eapply runs_call; [eapply (runs_num_slots SEQUENTIAL hash map_maximum_capacity F); exact Hl |].
  intros z t1 [-> _]. eapply runs_call; [by eapply runs_map_scan |]. intros r t2 (Hal2 & l & Hp & ->).
  assert (Hlen : length l = size m) by (by rewrite Hp, length_map_to_list).
  pose proof (alive_size _ _ _ _ _ _ _ _ Hal) as Hsz. apply runs_leave_run; [done |].
  eapply ends_mono; [| apply (insert_all hash (floor_of (table_base z)) l 0 (table_base z) ∅); [exact Hhash | | destruct Hb; split; lia | | intros k _; apply lookup_empty]].
  - intros [] s Hals. cbn [snd]. apply runs_ret. split; [exact Hal2 |]. exists (table_base z). rewrite map_union_empty, Nat.add_0_r, Hlen in Hals.
    assert (Hlm : list_to_map l = m).
    { rewrite (list_to_map_proper l (map_to_list m)); [apply list_to_map_to_list | | done]. rewrite Hp. apply NoDup_fst_map_to_list. }
    rewrite Hlm in Hals. split; [exact Hals |]. split; [done |]. pose proof (table_base_range z). split; [lia | done].
  - apply ends_runs. eapply runs_mono; [| by apply runs_map_with_capacity]. by intros [] s [Hs _].
  - rewrite Hp. apply NoDup_fst_map_to_list.
Qed.

End Clone.

(** ** Comparison *)

Section Compare.
Context {K V : Type} `{Countable K} `{EqDecision V} (n : nat) {allow : Refuses (Table K V)}.

Implicit Types (m : gmap K V) (t s : Table K V) (l : list (K * V)) (I : nat) (F mn : Z).


Lemma ask_included (hash : K → Z) F I mn m l s :
  (∀ k, in_word 64 (hash k)) → map_alive hash F I mn m s → budget n I →
  let r := ask (λ k v other,
      match run_in (map_read hash n k (λ _ ov, bool_decide (v = ov))) other with
      | Done r other => (bool_decide (r ≠ Some true), Done () other)
      | Panicked => (true, Panicked)
      | Refused => (true, Refused)
      | Starved => (true, Starved)
      end) l (Done () s) in
  ends r.2 (λ _ s', r.1 = existsb (λ kv, bool_decide (m !! kv.1 ≠ Some kv.2)) l ∧ map_alive hash F I mn m s').
Proof.
  intros Hhash Hal Hb. revert s Hal. induction l as [| [k v] l IH]; intros s Hal; cbn [ask fst snd existsb]; [done |].
  assert (Hr : runs (map_read hash n k (λ _ ov, bool_decide (v = ov))) s (λ r s',
    r = (λ ov, bool_decide (v = ov)) <$> m !! k ∧ map_alive hash F I mn m s')).
  { destruct Hal as (ins & outs & Hl). unfold map_read. eapply runs_call.
    { by eapply (runs_read_entry SEQUENTIAL hash Hhash n map_maximum_capacity 63 word_range map_maximum F k). }
    intros r s' [-> Hl']. apply runs_ret. split; [by destruct (m !! k) | by exists ins, outs]. }
  apply ends_runs in Hr. unfold run_in. destruct (run _ s) as [r s1 | | |]; [| done ..]. destruct Hr as [-> Hal1]. cbn [fst snd].
  destruct (decide (m !! k = Some v)) as [Hm | Hm].
  - rewrite Hm. cbn [fmap option_fmap option_map]. rewrite bool_decide_false by (rewrite bool_decide_true by done; by intros []).
    rewrite (bool_decide_false (Some v ≠ Some v)) by (by intros []). by apply IH.
  - rewrite bool_decide_true; cbn [fst snd ends].
    + by rewrite (bool_decide_true (m !! k ≠ Some v)).
    + intros Heq. destruct (m !! k) as [ov |]; [| done]. injection Heq as Heq. apply bool_decide_eq_true in Heq. congruence.
Qed.

Lemma runs_map_included (hash1 hash2 : K → Z) F1 I1 mn1 m1 t F2 I2 mn2 m2 s :
  (∀ k, in_word 64 (hash1 k)) → (∀ k, in_word 64 (hash2 k)) →
  map_alive hash1 F1 I1 mn1 m1 t → map_alive hash2 F2 I2 mn2 m2 s → budget n I1 → budget n I2 →
  runs (map_included n hash1 hash2 s) t (λ r t', r.1 = bool_decide (m1 ⊆ m2) ∧
    map_alive hash1 F1 I1 mn1 m1 t' ∧ map_alive hash2 F2 I2 mn2 m2 r.2).
Proof.
  intros Hh1 Hh2 (ins & outs & Hl) Hal2 Hb1 Hb2. unfold map_included, map_any. eapply runs_call.
  { by eapply (runs_any_entry SEQUENTIAL hash1 Hh1 n map_maximum_capacity 63 word_range map_maximum F1). }
  intros r t' [(l & Hp & ->) Hl']. pose proof (ask_included hash2 F2 I2 mn2 m2 l s Hh2 Hal2 Hb2) as Hask. cbv zeta in Hask.
  apply runs_leave_run; [done |]. eapply ends_mono; [| exact Hask]. intros [] s' [-> Hal2']. apply runs_ret.
  cbn [fst snd]. split; [| split; [by exists ins, outs | done]].
  apply Bool.eq_iff_eq_true. rewrite bool_decide_eq_true, negb_true_iff, map_subseteq_spec, <-not_true_iff_false, existsb_exists. split.
  - intros Hn k v Hm. destruct (decide (m2 !! k = Some v)) as [? | Hne]; [done |]. destruct Hn. exists (k, v).
    split; [apply list_elem_of_In; rewrite Hp; by apply elem_of_map_to_list | by apply bool_decide_eq_true].
  - intros Ha ([k v] & Hin & Hne). apply bool_decide_eq_true in Hne. apply Hne, Ha.
    apply list_elem_of_In in Hin. rewrite Hp in Hin. by apply elem_of_map_to_list in Hin.
Qed.

#[local] Instance part_fst {X Y} : Part (λ s : X * Y, Some s.1) (λ (x : X) (s : X * Y), (x, s.2)).
Proof. constructor; [done | done |]. by intros [x y] ? [= <-]. Qed.

#[local] Instance part_snd {X Y} : Part (λ s : X * Y, Some s.2) (λ (y : Y) (s : X * Y), (s.1, y)).
Proof. constructor; [done | done |]. by intros [x y] ? [= <-]. Qed.

Lemma runs_map_partial_eq (hash1 hash2 : K → Z) F1 I1 mn1 m1 F2 I2 mn2 m2 (s : Table K V * Table K V) :
  (∀ k, in_word 64 (hash1 k)) → (∀ k, in_word 64 (hash2 k)) →
  map_alive hash1 F1 I1 mn1 m1 s.1 → map_alive hash2 F2 I2 mn2 m2 s.2 → budget n I1 → budget n I2 →
  runs (map_partial_eq n hash1 hash2) s (λ r (s' : Table K V * Table K V), r = bool_decide (m1 = m2) ∧
    map_alive hash1 F1 I1 mn1 m1 s'.1 ∧ map_alive hash2 F2 I2 mn2 m2 s'.2).
Proof.
  intros Hh1 Hh2 Hal1 Hal2 Hb1 Hb2. unfold map_partial_eq. apply runs_load. apply runs_bind.
  eapply (runs_zoom_in (S := Table K V)); [apply _ | apply refuses_fst | done |]. eapply runs_mono; [| by eapply (runs_map_included hash1 hash2)].
  intros [r s2] t' (-> & Hal1' & Hal2'). cbn [fst snd] in *. apply runs_act. cbn [fst snd bind].
  destruct (decide (m1 ⊆ m2)) as [Hsub | Hsub].
  - rewrite bool_decide_true by done. apply runs_load. cbn [fst]. apply runs_bind.
    eapply (runs_zoom_in (S := Table K V)); [apply _ | apply refuses_snd | done |]. eapply runs_mono; [| by eapply (runs_map_included hash2 hash1)].
    intros [r2 t2] s3 (-> & Hal2'' & Hal1''). cbn [fst snd] in *. apply runs_act. cbn [fst snd bind]. apply runs_ret.
    cbn [fst snd]. split; [| done]. apply bool_decide_ext. split; [| by intros ->]. intros Hsub2. by apply (anti_symm (⊆)).
  - rewrite bool_decide_false by done. apply runs_ret. cbn [fst snd]. split; [| done]. symmetry. apply bool_decide_false.
    by intros ->.
Qed.
End Compare.

Lemma map_to_list_imap {K V : Type} `{Countable K} (f : K → V → V) (m : gmap K V) :
  map_to_list (map_imap (λ k v, Some (f k v)) m) ≡ₚ (λ kv, (kv.1, f kv.1 kv.2)) <$> map_to_list m.
Proof.
  apply NoDup_Permutation; [apply NoDup_map_to_list | |].
  - apply (NoDup_fmap_1 fst). rewrite <-list_fmap_compose. apply NoDup_fst_map_to_list.
  - intros [k v]. rewrite elem_of_map_to_list, map_lookup_imap, list_elem_of_fmap. split.
    + destruct (m !! k) as [v0 |] eqn:Hm; [| done]. intros [= <-]. exists (k, v0). split; [done |]. by apply elem_of_map_to_list.
    + intros ([k0 v0] & [= -> ->] & Hin). apply elem_of_map_to_list in Hin. cbn. by rewrite Hin.
Qed.

(** ** The theorems *)

Section Theorems.
Context {K V : Type} `{Countable K} `{EqDecision V} (hash : K → Z) (Hhash : ∀ k, in_word 64 (hash k)) (n : nat) (mem : Memory).

Implicit Types (m : gmap K V) (t : Table K V) (ops : list (map_op K V)) (capacity : Z).

(** C2. A hash map is a map, handles included.  A program that creates a [HashMap] and calls
    its functions, with bounded reservations, answers what the same program does on a finite
    map, without a panic.  It may hold an [OccupiedEntry], a [VacantEntry] or an [Entry] and
    read, change, insert and remove through it, and hold any number of [Reserve]s and drop
    them in any order.  The conditions on the program ([map_setting], [reservable]): every
    call of [reserve] either fails, because the sum exceeds [usize], or keeps the minimum
    capacity, the reservations that are held included, within the maximum capacity and
    within 32 times the greater of 64 and the capacity the map was created with (beyond that
    the next insertion can panic, see [reserve_panics]); and there are fewer than [2 ^ 32]
    calls.  The condition on the memory ([served]): no array is refused to this run. *)
Theorem hash_map_refines_map capacity ops (Hset : map_setting n capacity ops)
    (Hmem : served (map_program hash n capacity ops) (table_new mem 0) = true) :
  ∃ t, run (map_program hash n capacity ops) (table_new mem 0) = Done (map_result capacity ops).1 t.
Proof.
  destruct (runs_returns _ _ _ (runs_map_program hash Hhash n mem capacity ops Hset) Hmem) as (l & t & Hrun & mn & -> & _). eauto.
Qed.

(** A scan that collects the entries. *)
Definition map_entries : prog (Table K V) (list (K * V)) := map_scan hash n (λ k v l, l ++ [(k, v)]) [].

Lemma runs_map_entries F (I : nat) (mn : Z) m t :
  map_alive hash F I mn m t → budget n I → runs map_entries t (λ l t', l ≡ₚ map_to_list m ∧ map_alive hash F I mn m t').
Proof.
  intros Hal Hb. eapply runs_mono; [| eapply (runs_map_scan n hash (λ k v l, l ++ [(k, v)])); [exact Hhash | exact Hal | exact Hb]].
  intros l t' (Hal' & l2 & Hl2 & ->). rewrite foldl_collect. by split.
Qed.

(** C27. An iteration by handles is complete. After any program whose reservations are
    bounded ([map_setting]) and that is refused no memory, the loop that starts with
    [first_entry], changes each value through [get_mut] and goes on with [next] meets every
    entry of the map exactly once; a scan that follows sees every value changed, once. *)
Theorem hash_map_iteration capacity ops (f : K → V → V) (Hset : map_setting n capacity ops)
    (Hmem : served (map_program hash n capacity ops ;;
      let! l := map_iterate hash n f in let! l' := map_entries in Ret (l, l')) (table_new mem 0) = true) :
  ∃ l l' t, run (map_program hash n capacity ops ;;
      let! l := map_iterate hash n f in let! l' := map_entries in Ret (l, l')) (table_new mem 0) = Done (l, l') t ∧
    l ≡ₚ map_to_list (map_result capacity ops).2 ∧
    l' ≡ₚ (λ kv, (kv.1, f kv.1 kv.2)) <$> map_to_list (map_result capacity ops).2.
Proof.
  set (m := (map_result capacity ops).2). pose proof Hset as [_ _ Hn Hmax].
  assert (Hr : runs (map_program hash n capacity ops ;;
      let! l := map_iterate hash n f in let! l' := map_entries in Ret (l, l')) (table_new mem 0)
    (λ r t, r.1 ≡ₚ map_to_list m ∧ r.2 ≡ₚ map_to_list (map_imap (λ k v, Some (f k v)) m))).
  { eapply runs_call; [by apply runs_map_program |]. intros rs t (mn & _ & Hal).
    eapply runs_call; [eapply (runs_map_iterate hash Hhash n _ f); [exact Hal | by split] |]. intros l t1 [Hl Hal1].
    eapply runs_call; [eapply runs_map_entries; [exact Hal1 | split; lia] |]. intros l' t2 [Hl' _]. by apply runs_ret. }
  apply runs_returns in Hr as ([l l'] & t & Hrun & Hl & Hl'); [| exact Hmem]. exists l, l', t. split; [exact Hrun |]. split; [exact Hl |].
  etrans; [exact Hl' | apply map_to_list_imap].
Qed.

(** A clone is an independent map with the same entries.  After any program, [clone]
    returns a map on which every further program answers what it does on a finite map with
    the entries of the original; the original still has them. *)
Theorem hash_map_clone capacity ops (Hset : map_setting n capacity ops)
    (Hmem : served (map_program hash n capacity ops ;; let! c := map_clone n hash in let! l := map_entries in Ret (c, l)) (table_new mem 0) = true) :
  ∃ c l t base, let m := (map_result capacity ops).2 in
    run (map_program hash n capacity ops ;; let! c := map_clone n hash in let! l := map_entries in Ret (c, l)) (table_new mem 0) =
      Done (c, l) t ∧ l ≡ₚ map_to_list m ∧
    ∀ ops2, (length ops2 + size m < n)%nat → Z.of_nat (length ops2 + size m) ≤ u32_max →
      map_oks (floor_of base) ops2 base [] → served (map_trace hash n ops2 []) c = true →
        ∃ c', run (map_trace hash n ops2 []) c = Done (map_effects ops2 base [] m).1 c'.
Proof.
  set (m := (map_result capacity ops).2). pose proof Hset as [_ _ Hn Hmax].
  assert (Hr : runs (map_program hash n capacity ops ;; let! c := map_clone n hash in let! l := map_entries in Ret (c, l)) (table_new mem 0)
    (λ r t, r.2 ≡ₚ map_to_list m ∧ ∃ base, map_alive hash (floor_of base) (size m) base m r.1 ∧ fits (floor_of base) base [])).
  { eapply runs_call; [by apply runs_map_program |]. intros rs t (mn & _ & Hal).
    eapply runs_call; [eapply runs_map_clone; [done | exact Hal | split; lia] |]. intros c t1 [Hal1 Hc].
    eapply runs_call; [eapply runs_map_entries; [exact Hal1 | split; lia] |]. intros l t2 [Hl _]. by apply runs_ret. }
  apply runs_returns in Hr as ([c l] & t & Hrun & Hl & base & Hal & Hfit); [| exact Hmem]. exists c, l, t, base. cbn [fst snd] in *.
  split; [exact Hrun |]. split; [exact Hl |]. intros ops2 Hn2 Hmax2 Hok2 Hmem2.
  destruct (runs_returns (St := Table K V) _ _ _ (runs_map_trace hash Hhash n _ ops2 (size m) base [] m c ltac:(by rewrite Z.add_0_r) (conj Hn2 Hmax2) Hfit Hok2) Hmem2)
    as (r & c' & Hrun2 & rs' & -> & _). eauto.
Qed.

(** C28. Two maps are equal when their entries are. After any two programs whose
    reservations are bounded ([map_setting]) and that are refused no memory, on maps that
    may have different hashers, [==] answers whether the two finite maps are the same. *)
Theorem hash_map_eq (hash2 : K → Z) (capacity1 capacity2 : Z) (ops1 ops2 : list (map_op K V))
    (Hhash2 : ∀ k, in_word 64 (hash2 k)) (Hset1 : map_setting n capacity1 ops1) (Hset2 : map_setting n capacity2 ops2)
    (Hmem1 : served (map_program hash n capacity1 ops1) (table_new mem 0) = true)
    (Hmem2 : served (map_program hash2 n capacity2 ops2) (table_new mem 0) = true) :
  ∃ l1 t1 l2 t2 s, run (map_program hash n capacity1 ops1) (table_new mem 0) = Done l1 t1 ∧
    run (map_program hash2 n capacity2 ops2) (table_new mem 0) = Done l2 t2 ∧
    run (map_partial_eq n hash hash2) (t1, t2) = Done (bool_decide ((map_result capacity1 ops1).2 = (map_result capacity2 ops2).2)) s.
Proof.
  destruct (runs_returns _ _ _ (runs_map_program hash Hhash n mem capacity1 ops1 Hset1) Hmem1) as (l1 & t1 & Hrun1 & mn1 & _ & Hal1).
  destruct (runs_returns _ _ _ (runs_map_program hash2 Hhash2 n mem capacity2 ops2 Hset2) Hmem2) as (l2 & t2 & Hrun2 & mn2 & _ & Hal2).
  pose proof Hset1 as [_ _ Hn1 Hmax1]. pose proof Hset2 as [_ _ Hn2 Hmax2].
  assert (Hr := runs_map_partial_eq n (allow := never_refuses _) hash hash2 _ _ _ _ _ _ _ _ (t1, t2) Hhash Hhash2 Hal1 Hal2).
  destruct (proj1 (runs_Done _ _ _) (Hr ltac:(split; lia) ltac:(split; lia))) as (r & s & Hrun & -> & _).
  by exists l1, t1, l2, t2, s.
Qed.
End Theorems.

(** ** The theorems at work *)

(** A program with handles of every kind; the map is enlarged twice. *)
Definition map_demo : list (map_op Z Z) :=
  ((λ i, MInsert (Z.of_nat i) (10 * Z.of_nat i)) <$> seq 0 100) ++
  [MEntry 7 (UKey (UAndModify (λ v, v + 1) (UOrInsert 0 (OGet (OInsert 5 (OGet ODrop))))));
   MEntry 200 (UAndModify (λ v, v + 1) (UOrInsertWithKey (λ k, k * 2) (OKey (OGet ODrop))));
   MEntry 201 (UMatch ORemove VIntoKey); MEntry 8 (UMatch ORemoveEntry VDrop);
   MReserve 300; MGet 9 (OGetMut (λ v, v * v) (OGet ORemove)); MGet 9 ODrop; MReserve 0; MUnreserve 0;
   MUpdate 10 (λ k v, (k + v, v)); MRemove 10; MRemoveIf 11 (λ v, (110 <? v, v + 1)); MRead 11 (λ k v, k + v);
   MContains 8; MRetain (λ k v, (20 <=? k, v)); MPrune (λ k v, if v <? 400 then Some (v + 1) else None); MLen; MIsEmpty;
   MInsert 20 0; MAny (λ k v, v =? 201)].

Lemma demo_limits (x : Z) : 0 ≤ x ≤ 2048 → limits map_maximum_capacity (floor_of (table_base 0)) x.
Proof. intros Hx. change (limits (2 ^ 63) 64 x). constructor; lia. Qed.

(** Only a reservation has a condition. *)
Definition plain {K V : Type} (op : map_op K V) : bool :=
  match op with MReserve _ | MUnreserve _ => false | _ => true end.

Lemma map_oks_plain {K V : Type} (F base : Z) (ops ops' : list (map_op K V)) (rs : list Z) :
  forallb plain ops = true → map_oks F ops' base rs → map_oks F (ops ++ ops') base rs.
Proof.
  induction ops as [| op ops IH]; [done |]. intros Hp Hok. cbn [forallb] in Hp. apply andb_prop in Hp as [Hop Hops].
  split; [by destruct op |]. by destruct op; try done; apply IH.
Qed.

Lemma map_demo_setting : map_setting 200 0 map_demo.
Proof.
  constructor.
  - split; [done | reflexivity].
  - apply map_oks_plain; [vm_compute; reflexivity |]. do 4 (split; [exact I |]).
    split; [split; [done | right; by apply demo_limits] |]. do 2 (split; [exact I |]).
    split; [split; [done | right; by apply demo_limits] |]. split; [exact I |].
    rewrite <-(app_nil_r (MUpdate _ _ :: _)). apply map_oks_plain; [reflexivity | exact I].
  - apply Nat.ltb_lt. vm_compute. reflexivity.
  - apply Z.leb_le. vm_compute. reflexivity.
Qed.

Lemma mix_word (k : Z) : in_word 64 (mix k).
Proof. apply in_word_wrap. Qed.

Lemma hash_map_refines_map_witness :
  drop 100 (map_result 0 map_demo).1 =
    [REvents (Some [EKey 7; EVal 71; EVal 71; EVal 5]); REvents (Some [EKey 200; EVal 400]); REvents (Some [EKey 201]);
     REvents (Some [EEntry 8 80]); RReserve (Some 300); REvents (Some [EVal 8100; EVal 8100]); REvents None;
     RReserve None; RUnit; RValue (Some 100); REntry (Some (10, 110)); REntry None; RValue (Some 122); RBool false; RUnit; RUnit;
     RNumber 20; RBool false; RInsert (inr (20, 0)); RBool true] ∧
  ∃ t, run (map_program mix 200 0 map_demo) (table_new plentiful 0) = Done (map_result 0 map_demo).1 t.
Proof. split; [vm_compute; reflexivity |]. apply (hash_map_refines_map mix mix_word 200 plentiful 0 map_demo); [apply map_demo_setting | vm_compute; reflexivity]. Defined.

Lemma hash_map_iteration_witness :
  ∃ l l' t, run (map_program mix 200 0 map_demo ;;
      let! l := map_iterate mix 200 (λ k v, k + v) in let! l' := map_entries mix 200 in Ret (l, l')) (table_new plentiful 0) = Done (l, l') t ∧
    l ≡ₚ map_to_list (map_result 0 map_demo).2 ∧ l' ≡ₚ (λ kv, (kv.1, kv.1 + kv.2)) <$> map_to_list (map_result 0 map_demo).2.
Proof. apply (hash_map_iteration mix mix_word 200 plentiful 0 map_demo (λ k v, k + v)); [apply map_demo_setting | vm_compute; reflexivity]. Defined.

Lemma hash_map_clone_witness :
  ∃ c l t base, let m := (map_result 0 map_demo).2 in
    run (map_program mix 200 0 map_demo ;; let! c := map_clone 200 mix in let! l := map_entries mix 200 in Ret (c, l)) (table_new plentiful 0) =
      Done (c, l) t ∧ l ≡ₚ map_to_list m ∧
    ∀ ops2, (length ops2 + size m < 200)%nat → Z.of_nat (length ops2 + size m) ≤ u32_max →
      map_oks (floor_of base) ops2 base [] → served (map_trace mix 200 ops2 []) c = true →
        ∃ c', run (map_trace mix 200 ops2 []) c = Done (map_effects ops2 base [] m).1 c'.
Proof. apply (hash_map_clone mix mix_word 200 plentiful 0 map_demo); [apply map_demo_setting | vm_compute; reflexivity]. Defined.

Lemma hash_map_eq_witness :
  ∃ l1 t1 l2 t2 s, run (map_program mix 200 0 map_demo) (table_new plentiful 0) = Done l1 t1 ∧
    run (map_program (λ k, 0) 200 0 map_demo) (table_new plentiful 0) = Done l2 t2 ∧
    run (map_partial_eq 200 mix (λ k, 0)) (t1, t2) = Done (bool_decide ((map_result 0 map_demo).2 = (map_result 0 map_demo).2)) s.
Proof.
  apply (hash_map_eq mix mix_word 200 plentiful (λ k, 0) 0 0 map_demo map_demo);
    [| apply map_demo_setting | apply map_demo_setting | vm_compute; reflexivity | vm_compute; reflexivity].
  intros k. split; [done | reflexivity].
Defined.
