(* ===== verification/HashSet.v ===== *)
(** * The hash set: [src/hash_set.rs]

    A [HashSet] is a [HashMap] whose values are of the unit type; [Reserve] is the one of
    the map, so its drop is [reserve_drop]. *)
From S2P Require Import Prelude Atomic Tag Lru Bucket BucketArray HashTable HashMap.

Local Open Scope Z_scope.

Section HashSet.
Context {K : Type} `{EqDecision K} (hash : K → Z) (n : nat).

Implicit Types (key : K).

(** [HashSet::with_capacity_and_hasher] *)
Definition set_with_capacity (capacity : Z) : prog (Table K unit) unit := map_with_capacity capacity.

Definition set_reserve (capacity : Z) : prog (Table K unit) (option Z) := map_reserve n capacity.

Definition set_insert key : prog (Table K unit) (unit + K) :=
  let! r := map_insert hash n key () in
  match r with
  | inr (k, _) => Ret (inr k)
  | inl _ => Ret (inl ())
  end.

Definition set_remove key : prog (Table K unit) (option K) :=
  let! r := map_remove hash n key in Ret (fst <$> r).

Definition set_remove_if key (condition : unit → bool) : prog (Table K unit) (option K) :=
  let! r := map_remove_if hash n key (λ v, (condition (), v)) in Ret (fst <$> r).

Definition set_read {R} key (reader : K → R) : prog (Table K unit) (option R) :=
  map_read hash n key (λ k _, reader k).

Definition set_contains key : prog (Table K unit) bool :=
  let! r := set_read key (λ _, ()) in Ret (bool_decide (is_Some r)).

Definition set_scan {S} (scanner : K → S → S) (s : S) : prog (Table K unit) S :=
  map_scan hash n (λ k _, scanner k) s.

Definition set_any {S} (pred : K → S → bool * S) (s : S) : prog (Table K unit) (bool * S) :=
  map_any hash n (λ k _, pred k) s.

Definition set_retain (filter : K → bool) : prog (Table K unit) unit :=
  map_retain hash n (λ k v, (filter k, v)).

Definition set_clear : prog (Table K unit) unit := map_clear hash n.

Definition set_len : prog (Table K unit) Z := map_len n.

Definition set_is_empty : prog (Table K unit) bool := map_is_empty n.

Definition set_capacity : prog (Table K unit) Z := map_capacity.

Definition set_capacity_range : prog (Table K unit) (Z * Z) := map_capacity_range.

Definition set_bucket_index key : prog (Table K unit) nat := bucket_index_of hash key.
End HashSet.

(** ** Two sets *)

Section Two.
Context {K : Type} `{EqDecision K} (n : nat).

(** [impl Clone for HashSet] *)
Definition set_clone (hash : K → Z) : prog (Table K unit) (Table K unit) := map_clone n hash.

(** [!self.any(|k| !other.contains(k))] *)
Definition set_included (hash hash_other : K → Z) (other : Table K unit) :
    prog (Table K unit) (bool * Table K unit) :=
  let! r := set_any hash n (λ k other,
    match run_in (set_contains hash_other n k) other with
    | Done b other => (negb b, Done () other)
    | Panicked => (true, Panicked)
    | Refused => (true, Refused)
    | Starved => (true, Starved)
    end) (Done () other) in
  let! other := leave_run r.2 in
  Ret (negb r.1, other.2).

(** [PartialEq::eq] of two sets that are not the same one. *)
Definition set_partial_eq (hash hash_other : K → Z) : prog (Table K unit * Table K unit) bool :=
  let! other := load snd in
  let! r := zoom (λ s, Some s.1) (λ t s, (t, s.2)) (set_included hash hash_other other) in
  store (λ t s, (s.1, t)) r.2 ;;
  if r.1 : bool then
    let! self := load fst in
    let! r := zoom (λ s, Some s.2) (λ t s, (s.1, t)) (set_included hash_other hash self) in
    store (λ t s, (t, s.2)) r.2 ;;
    Ret r.1
  else Ret false.
End Two.
