(* ===== verification/SetProps.v ===== *)
(** * A hash set is a set

    The theorems on [HashSet]: programs answer what they would on a finite set, a clone has
    the same keys, and two sets are equal when their keys are.  They come from what
    [MapSpec] shows of the map with values of the unit type. *)
From S2P Require Import Prelude Atomic Tag Lru Bucket BucketInv BucketQuery BucketIter BucketProps BucketArray Rehash HashTable TableInv TableRelocate TableRehash TableResize TableOps TableKey TableScan TableEntry TableIter TableProps TableReserve HashMap MapSpec MapProps HashSet.

Local Open Scope Z_scope.

(** ** Programs that use a set *)

Section Client.
Context {K R : Type} `{Countable K} (hash : K → Z) (n : nat).

Implicit Types (X : gset K) (k : K).

Inductive set_op : Type :=
  | SInsert (k : K)
  | SRemove (k : K)
  | SRemoveIf (k : K) (condition : unit → bool)
  | SRead (k : K) (reader : K → R)
  | SContains (k : K)
  | SAny (pred : K → bool)
  | SRetain (filter : K → bool)
  | SClear
  | SLen
  | SIsEmpty
  | SCapacityRange
  | SReserve (additional : Z)
  | SUnreserve (i : nat).

Inductive set_res : Type :=
  | SRInsert (r : unit + K)
  | SRKey (r : option K)
  | SRRead (r : option R)
  | SRBool (r : bool)
  | SRNumber (r : Z)
  | SRRange (r : Z * Z)
  | SRReserve (r : option Z)
  | SRUnit.

(** The program keeps the [Reserve]s it got in a list. *)
Definition set_apply (op : set_op) (rs : list Z) : prog (Table K unit) (set_res * list Z) :=
  match op with
  | SInsert k => let! r := set_insert hash n k in Ret (SRInsert r, rs)
  | SRemove k => let! r := set_remove hash n k in Ret (SRKey r, rs)
  | SRemoveIf k c => let! r := set_remove_if hash n k c in Ret (SRKey r, rs)
  | SRead k f => let! r := set_read hash n k f in Ret (SRRead r, rs)
  | SContains k => let! r := set_contains hash n k in Ret (SRBool r, rs)
  | SAny p => let! r := set_any hash n (λ k u, (p k, u)) () in Ret (SRBool r.1, rs)
  | SRetain p => set_retain hash n p ;; Ret (SRUnit, rs)
  | SClear => set_clear hash n ;; Ret (SRUnit, rs)
  | SLen => let! z := set_len n in Ret (SRNumber z, rs)
  | SIsEmpty => let! b := set_is_empty n in Ret (SRBool b, rs)
  | SCapacityRange => let! r := set_capacity_range in Ret (SRRange r, rs)
  | SReserve a => let! r := set_reserve n a in Ret (SRReserve r, rs ++ option_list r)
  | SUnreserve i =>
      match rs !! i with
      | Some a => reserve_drop n a ;; Ret (SRUnit, delete i rs)
      | None => Ret (SRUnit, rs)
      end
  end.

Fixpoint set_trace (ops : list set_op) (rs : list Z) : prog (Table K unit) (list set_res) :=
  match ops with
  | [] => Ret []
  | op :: ops =>
      let! r := set_apply op rs in
      let! l := set_trace ops r.2 in
      Ret (r.1 :: l)
  end.

(** ** The same programs on a finite set *)

Definition set_reserves (op : set_op) (mn : Z) (rs : list Z) : list Z :=
  match op with
  | SReserve a => rs ++ option_list (reservation a mn)
  | SUnreserve i => delete i rs
  | _ => rs
  end.

(** The key, when the set has it. *)
Definition key_in k X : option K := if decide (k ∈ X) then Some k else None.

Definition set_spec (op : set_op) (mn : Z) X : set_res * gset K :=
  match op with
  | SInsert k => (SRInsert (if decide (k ∈ X) then inr k else inl ()), {[k]} ∪ X)
  | SRemove k => (SRKey (key_in k X), X ∖ {[k]})
  | SRemoveIf k c => if c () then (SRKey (key_in k X), X ∖ {[k]}) else (SRKey None, X)
  | SRead k f => (SRRead (f <$> key_in k X), X)
  | SContains k => (SRBool (bool_decide (k ∈ X)), X)
  | SAny p => (SRBool (existsb p (elements X)), X)
  | SRetain p => (SRUnit, filter (λ k, p k = true) X)
  | SClear => (SRUnit, ∅)
  | SLen => (SRNumber (Z.of_nat (size X)), X)
  | SIsEmpty => (SRBool (bool_decide (X = ∅)), X)
  | SCapacityRange => (SRRange (mn, 2 ^ 63), X)
  | SReserve a => (SRReserve (reservation a mn), X)
  | SUnreserve i => (SRUnit, X)
  end.

(** [base] is the minimum capacity that the set was created with, [rs] the reservations. *)
Fixpoint set_effects (ops : list set_op) (base : Z) (rs : list Z) X : list set_res * gset K :=
  match ops with
  | [] => ([], X)
  | op :: ops =>
      let mn := base + sum_reserved rs in
      let s := set_spec op mn X in
      let r := set_effects ops base (set_reserves op mn rs) s.2 in
      (s.1 :: r.1, r.2)
  end.

(** A reservation fails, or it is within 32 times the floor [F]. *)
Definition set_ok (F : Z) (op : set_op) (mn : Z) : Prop :=
  match op with
  | SReserve a => reservable map_maximum_capacity F a mn
  | _ => True
  end.

Fixpoint set_oks (F : Z) (ops : list set_op) (base : Z) (rs : list Z) : Prop :=
  match ops with
  | [] => True
  | op :: ops =>
      let mn := base + sum_reserved rs in
      set_ok F op mn ∧ set_oks F ops base (set_reserves op mn rs)
  end.
End Client.

Arguments set_op : clear implicits.
Arguments set_res : clear implicits.

(** ** Maps of units and sets *)

Section Units.
Context {K : Type} `{Countable K}.

Implicit Types (X : gset K) (m : gmap K unit).

Local Notation units X := (gset_to_gmap () X).

Lemma units_dom m : units (dom m) = m.
Proof.
  apply map_eq. intros k. destruct (m !! k) as [[] |] eqn:Hm.
  - apply lookup_gset_to_gmap_Some. split; [by apply elem_of_dom_2 in Hm | done].
  - apply lookup_gset_to_gmap_None. by apply not_elem_of_dom.
Qed.

Lemma units_eq m X : (∀ k, is_Some (m !! k) ↔ k ∈ X) → m = units X.
Proof. intros HX. rewrite <-(units_dom m). f_equal. apply set_eq. intros k. by rewrite elem_of_dom. Qed.

Lemma units_lookup k X : units X !! k = if decide (k ∈ X) then Some () else None.
Proof.
  case_decide; [by apply lookup_gset_to_gmap_Some | by apply lookup_gset_to_gmap_None].
Qed.

Lemma units_is_Some k X : is_Some (units X !! k) ↔ k ∈ X.
Proof. by rewrite <-elem_of_dom, dom_gset_to_gmap. Qed.

Lemma units_size X : size (units X) = size X.
Proof. by rewrite <-(size_dom (units X)), dom_gset_to_gmap. Qed.

Lemma units_empty X : units X = ∅ ↔ X = ∅.
Proof.
  split; intros HX.
  - by rewrite <-(dom_gset_to_gmap X ()), HX, dom_empty_L.
  - by rewrite HX, gset_to_gmap_empty.
Qed.

Lemma units_list X : (map_to_list (units X)).*1 ≡ₚ elements X.
Proof.
  apply NoDup_Permutation; [apply NoDup_fst_map_to_list | apply NoDup_elements |]. intros k.
  rewrite elem_of_elements, list_elem_of_fmap. split.
  - intros ([k' []] & -> & Hin%elem_of_map_to_list). by apply lookup_gset_to_gmap_Some in Hin as [? _].
  - intros Hk. exists (k, ()). split; [done |]. by apply elem_of_map_to_list, lookup_gset_to_gmap_Some.
Qed.

Lemma existsb_fst {A B} (p : A → bool) (l : list (A * B)) : existsb (λ kv, p kv.1) l = existsb p l.*1.
Proof. induction l as [| kv l IH]; cbn; [done | by rewrite IH]. Qed.
End Units.

(** ** One operation *)

Section Spec.
Context {K R : Type} `{Countable K} (hash : K → Z) (Hhash : ∀ k, in_word 64 (hash k)) (n : nat) (F : Z).

Implicit Types (X : gset K) (m : gmap K unit) (t : Table K unit) (mn base : Z) (rs : list Z) (k : K) (I : nat)
  (op : set_op K R).

Local Notation units X := (gset_to_gmap () X).
Local Notation alive := (alive SEQUENTIAL hash map_maximum_capacity F).
Local Notation budget := (budget n).
Local Notation fits := (fits F).

(** The set [t] has the keys [X]. *)
Definition set_alive I mn X t : Prop := alive I mn (units X) t.

Definition set_post op I base rs X (r : set_res K R * list Z) t : Prop :=
  let mn := base + sum_reserved rs in
  r.1 = (set_spec op mn X).1 ∧ r.2 = set_reserves op mn rs ∧
  set_alive (S I) (base + sum_reserved r.2) (set_spec op mn X).2 t ∧ fits base r.2.

(** A call that returns what it got, in another form. *)
Lemma runs_returned {A B} (p : prog (Table K unit) A) (g : A → B) t Q :
  runs (let! a := p in Ret (g a)) t Q → runs p t (λ a t', Q (g a) t').
Proof. unfold runs. rewrite run_bind. by destruct (run p t). Qed.

(** What the map of units does, said of sets. *)
Lemma set_post_of_map op mop I base rs X r mr t :
  map_post hash F mop I base rs (units X) (mr, rs) t →
  r = (set_spec op (base + sum_reserved rs) X).1 → set_reserves op (base + sum_reserved rs) rs = rs →
  (∀ k, is_Some ((map_spec mop (base + sum_reserved rs) (units X)).2 !! k) ↔ k ∈ (set_spec op (base + sum_reserved rs) X).2) →
  set_post op I base rs X (r, rs) t.
Proof.
  intros (_ & _ & Hal & Hfit) Hr Hrs HX. cbn [fst snd] in *. split; [exact Hr |]. split; [done |]. split; [| exact Hfit].
  unfold set_alive. rewrite <-(units_eq _ _ HX). exact Hal.
Qed.

Lemma runs_map_reading {Y} {allow : Refuses (Table K unit)} k (f : K → unit → Y) I mn m t :
  alive I mn m t → budget I → runs (map_read hash n k f) t (λ r t', r = f k <$> m !! k ∧ alive I mn m t').
Proof.
  intros (ins & outs & Hl) Hb. unfold map_read. eapply runs_call.
  { by eapply (runs_read_entry SEQUENTIAL hash Hhash n map_maximum_capacity 63 word_range map_maximum F k). }
  intros r t' [-> Hl']. apply runs_ret. split; [by destruct (m !! k) | by exists ins, outs].
Qed.

Lemma runs_set_read {Y} {allow : Refuses (Table K unit)} k (f : K → Y) I mn X t :
  set_alive I mn X t → budget I → runs (set_read hash n k f) t (λ r t', r = f <$> key_in k X ∧ set_alive I mn X t').
Proof.
  intros Hal Hb. eapply runs_mono; [| by eapply runs_map_reading]. intros r t' [-> Hal']. split; [| exact Hal'].
  rewrite units_lookup. unfold key_in. by case_decide.
Qed.

Lemma runs_set_contains {allow : Refuses (Table K unit)} k I mn X t :
  set_alive I mn X t → budget I → runs (set_contains hash n k) t (λ r t', r = bool_decide (k ∈ X) ∧ set_alive I mn X t').
Proof.
  intros Hal Hb. unfold set_contains. eapply runs_call; [by eapply runs_set_read |]. intros r t' [-> Hal']. apply runs_ret.
  split; [| exact Hal']. unfold key_in. case_decide; cbn; [by rewrite !bool_decide_true | by rewrite !bool_decide_false by (by rewrite ?is_Some_None)].
Qed.

(** The step of [MapSpec], with the call alone. *)
Lemma runs_set_call {A} (p : prog (Table K unit) A) (g : A → map_res K unit) mop I base rs X t :
  map_apply hash n mop rs = (let! a := p in Ret (g a, rs)) →
  set_alive I (base + sum_reserved rs) X t → budget (S I) → fits base rs → map_ok F mop (base + sum_reserved rs) →
  runs p t (λ a t', map_post hash F mop I base rs (units X) (g a, rs) t').
Proof.
  intros Hp Hal Hb Hfit Hok. apply (runs_returned p (λ a, (g a, rs))). rewrite <-Hp. by apply runs_map_op.
Qed.

Lemma runs_set_op op I base rs X t :
  set_alive I (base + sum_reserved rs) X t → budget (S I) → fits base rs → set_ok F op (base + sum_reserved rs) →
  runs (set_apply hash n op rs) t (set_post op I base rs X).
Proof.
  intros Hal Hb Hfit Hok. assert (Hb' : budget I) by (destruct Hb; split; lia).
  assert (Hup : ∀ mn t', set_alive I mn X t' → set_alive (S I) mn X t') by (intros; eapply alive_mono; [done | lia]).
  destruct op as [k | k | k c | k f | k | p | p | | | | | a | i]; cbn [set_apply].
  - unfold set_insert. apply runs_bind.
    eapply runs_call; [by apply (runs_set_call (map_insert hash n k ()) RInsert (MInsert k ()) I base rs X) |].
    intros r t' Hpost. assert (Hr := proj1 Hpost). cbn in Hr. rewrite units_lookup in Hr.
    assert (HX : ∀ k', is_Some ((map_spec (MInsert k ()) (base + sum_reserved rs) (units X)).2 !! k') ↔ k' ∈ {[k]} ∪ X).
    { intros k'. cbn. rewrite units_lookup. case_decide; cbn [snd]; rewrite ?lookup_insert_is_Some, units_is_Some; [set_solver |].
      destruct (decide (k = k')); set_solver. }
    destruct (decide (k ∈ X)) as [Hin | Hin]; injection Hr as ->; apply runs_ret, runs_ret;
      (eapply set_post_of_map; [exact Hpost | cbn; by case_decide | done | exact HX]).
  - unfold set_remove. apply runs_bind.
    eapply runs_call; [by apply (runs_set_call (map_remove hash n k) REntry (MRemove k) I base rs X) |].
    intros r t' Hpost. assert (Hr := proj1 Hpost). cbn in Hr. injection Hr as ->. apply runs_ret, runs_ret.
    eapply set_post_of_map; [exact Hpost | | done |].
    + cbn. rewrite units_lookup. unfold key_in. by case_decide.
    + intros k'. cbn. rewrite lookup_delete_is_Some, units_is_Some. set_solver.
  - unfold set_remove_if. apply runs_bind.
    eapply runs_call; [by apply (runs_set_call (map_remove_if hash n k (λ v, (c (), v))) REntry (MRemoveIf k (λ v, (c (), v))) I base rs X) |].
    intros r t' Hpost. assert (Hr := proj1 Hpost). cbn in Hr. rewrite units_lookup in Hr. apply runs_ret, runs_ret.
    eapply set_post_of_map; [exact Hpost | | by destruct (c ()) |].
    + cbn. unfold key_in. case_decide; destruct (c ()); by injection Hr as ->.
    + intros k'. cbn. rewrite units_lookup. case_decide; destruct (c ()); cbn [fst snd];
        rewrite ?lookup_delete_is_Some, ?lookup_insert_is_Some, units_is_Some; try set_solver.
      destruct (decide (k = k')); set_solver.
  - eapply runs_call; [by eapply runs_set_read |]. intros r t' [-> Hal']. apply runs_ret. split_and!; [done | done | by apply Hup | done].
  - eapply runs_call; [by eapply runs_set_contains |]. intros r t' [-> Hal']. apply runs_ret. split_and!; [done | done | by apply Hup | done].
  - eapply runs_call.
    { apply (runs_set_call (set_any hash n (λ k u, (p k, u)) ()) (λ r, RBool r.1) (MAny (λ k _, p k)) I base rs X); done. }
    intros r t' Hpost. assert (Hr := proj1 Hpost). cbn in Hr. injection Hr as Hr. apply runs_ret.
    eapply set_post_of_map; [exact Hpost | | done | by intros k'; cbn; rewrite units_is_Some].
    cbn. rewrite Hr, existsb_fst. f_equal. apply existsb_perm, units_list.
  - eapply runs_call.
    { apply (runs_set_call (set_retain hash n p) (λ _, RUnit) (MRetain (λ k v, (p k, v))) I base rs X); done. }
    intros r t' Hpost. apply runs_ret. eapply set_post_of_map; [exact Hpost | done | done |].
    intros k'. cbn. rewrite map_lookup_imap, elem_of_filter, units_lookup. unfold retain_value. cbn.
    case_decide; cbn; [| by split; [intros [? ?] | tauto]]. destruct (p k'); [by split; [| eauto] |].
    split; [intros [? ?]; done | by intros [? _]].
  - eapply runs_call.
    { apply (runs_set_call (set_clear hash n) (λ _, RUnit) MClear I base rs X); done. }
    intros r t' Hpost. apply runs_ret. eapply set_post_of_map; [exact Hpost | done | done |].
    intros k'. cbn. rewrite lookup_empty. split; [by intros [? ?] | set_solver].
  - eapply runs_call.
    { apply (runs_set_call (set_len n) RNumber MLen I base rs X); done. }
    intros r t' Hpost. assert (Hr := proj1 Hpost). cbn in Hr. rewrite units_size in Hr. injection Hr as ->. apply runs_ret.
    eapply set_post_of_map; [exact Hpost | done | done | by intros k'; cbn; rewrite units_is_Some].
  - eapply runs_call.
    { apply (runs_set_call (set_is_empty n) RBool MIsEmpty I base rs X); done. }
    intros r t' Hpost. assert (Hr := proj1 Hpost). cbn in Hr. injection Hr as ->. apply runs_ret.
    eapply set_post_of_map; [exact Hpost | cbn; f_equal; apply bool_decide_ext, units_empty | done | by intros k'; cbn; rewrite units_is_Some].
  - unfold set_capacity_range, map_capacity_range. apply runs_bind, runs_load, runs_ret, runs_ret.
    pose proof Hal as (ins & outs & Hl). rewrite (live_minimum _ _ _ _ _ _ _ _ _ _ Hl).
    split_and!; [done | done | by apply Hup | done].
  - eapply runs_call; [eapply (runs_map_reserve hash Hhash n F a base rs I (units X)); done |].
    intros r t' (-> & Hal' & Hfit'). apply runs_ret. split_and!; [done | done | | exact Hfit'].
    eapply alive_mono; [exact Hal' | lia].
  - destruct (rs !! i) as [a |] eqn:Hi.
    + eapply runs_call; [eapply (runs_reserve_drop hash Hhash n F i a base rs I (units X)); done |].
      intros r t' [Hal' Hfit']. apply runs_ret. split_and!; [done | done | | exact Hfit']. eapply alive_mono; [exact Hal' | lia].
    + apply runs_ret. unfold set_post. cbn [fst snd set_reserves]. rewrite delete_none by done.
      split_and!; [done | done | by apply Hup | done].
Qed.
End Spec.

(** ** Sequences of operations *)

Section Programs.
Context {K R : Type} `{Countable K} (hash : K → Z) (Hhash : ∀ k, in_word 64 (hash k)) (n : nat).

Implicit Types (X : gset K) (t : Table K unit) (mn base : Z) (rs : list Z) (k : K) (I : nat) (ops : list (set_op K R)).

Lemma runs_set_trace F ops I base rs X t :
  set_alive hash F I (base + sum_reserved rs) X t → budget n (length ops + I) → fits F base rs → set_oks F ops base rs →
  runs (set_trace hash n ops rs) t (λ l t', ∃ rs', let e := set_effects ops base rs X in
    l = e.1 ∧ set_alive hash F (length ops + I) (base + sum_reserved rs') e.2 t' ∧ fits F base rs').
Proof.
  revert I rs X t. induction ops as [| op ops IH]; intros I rs X t Hal Hb Hfit Hok.
  - apply runs_ret. by exists rs.
  - cbn [set_trace set_oks length Nat.add] in *. destruct Hok as [Hop Hops].
    eapply runs_call; [apply (runs_set_op hash Hhash n F op I base rs X t Hal); [destruct Hb; split; lia | exact Hfit | exact Hop] |].
    intros [r rs1] t1 (Hr & Hrs & Hal1 & Hfit1). cbn [fst snd] in *. subst r rs1.
    eapply runs_call; [apply (IH (S I) _ _ _ Hal1); [by rewrite Nat.add_succ_r | exact Hfit1 | exact Hops] |].
    intros l t2 (rs' & -> & Hal2 & Hfit2). apply runs_ret. exists rs'. split; [done |].
    rewrite Nat.add_succ_r in Hal2. by split.
Qed.

(** A program on a new set. *)
Record set_setting (capacity : Z) ops : Prop := {
  ss_capacity : in_word 64 capacity;
  ss_ops : set_oks (floor_of (table_base capacity)) ops (table_base capacity) [];
  ss_fuel : (S (length ops) < n)%nat;
  ss_count : Z.of_nat (S (length ops)) ≤ u32_max
}.

Definition set_program (capacity : Z) ops : prog (Table K unit) (list (set_res K R)) :=
  set_with_capacity capacity ;; set_trace hash n ops [].

Definition set_result (capacity : Z) ops : list (set_res K R) * gset K :=
  set_effects ops (table_base capacity) [] ∅.

Lemma runs_set_program mem (capacity : Z) ops : set_setting capacity ops →
  runs (set_program capacity ops) (table_new mem 0) (λ l t, ∃ mn, let e := set_result capacity ops in
    l = e.1 ∧ set_alive hash (floor_of (table_base capacity)) (length ops) mn e.2 t).
Proof.
  intros [Hcap Hops Hn Hmax]. unfold set_program, set_with_capacity. eapply runs_call; [apply (runs_map_with_capacity hash) |].
  intros [] t [Hal Hfit]. eapply runs_mono; [| eapply (runs_set_trace _ ops 0 _ [] ∅ t); [| split; lia | exact Hfit | exact Hops]].
  - intros l t' (rs' & -> & Hal' & _). eexists. split; [done |]. rewrite Nat.add_0_r in Hal'. exact Hal'.
  - unfold set_alive. by rewrite Z.add_0_r, gset_to_gmap_empty.
Qed.
End Programs.

(** ** Comparison and clones *)

Section Eq.
Context {K : Type} `{Countable K} (n : nat).

Implicit Types (X : gset K) (t s : Table K unit) (F mn : Z) (I : nat).

#[local] Instance set_part_fst {A B} : Part (λ s : A * B, Some s.1) (λ (x : A) (s : A * B), (x, s.2)).
Proof. constructor; [done | done |]. by intros [x y] ? [= <-]. Qed.

#[local] Instance set_part_snd {A B} : Part (λ s : A * B, Some s.2) (λ (y : B) (s : A * B), (s.1, y)).
Proof. constructor; [done | done |]. by intros [x y] ? [= <-]. Qed.

Lemma ask_set_included {allow : Refuses (Table K unit)} (hash : K → Z) F I mn X (l : list (K * unit)) s :
  (∀ k, in_word 64 (hash k)) → set_alive hash F I mn X s → budget n I →
  let r := ask (λ k _ other,
      match run_in (set_contains hash n k) other with
      | Done b other => (negb b, Done () other)
      | Panicked => (true, Panicked)
      | Refused => (true, Refused)
      | Starved => (true, Starved)
      end) l (Done () s) in
  ends r.2 (λ _ s', r.1 = existsb (λ k, negb (bool_decide (k ∈ X))) l.*1 ∧ set_alive hash F I mn X s').
Proof.
  intros Hhash Hal Hb. revert s Hal. induction l as [| [k []] l IH]; intros s Hal; cbn [ask fst snd existsb fmap list_fmap]; [done |].
  pose proof (ends_runs _ _ _ (runs_set_contains hash Hhash n F k I mn X s Hal Hb)) as Hr. unfold run_in.
  destruct (run _ s) as [r s1 | | |]; [| done ..]. destruct Hr as [-> Hal1].
  cbn [fst snd]. destruct (negb (bool_decide (k ∈ X))); [by cbn | by apply IH].
Qed.

Lemma runs_set_included {allow : Refuses (Table K unit)} (hash1 hash2 : K → Z) F1 I1 mn1 X1 t F2 I2 mn2 X2 s :
  (∀ k, in_word 64 (hash1 k)) → (∀ k, in_word 64 (hash2 k)) →
  set_alive hash1 F1 I1 mn1 X1 t → set_alive hash2 F2 I2 mn2 X2 s → budget n I1 → budget n I2 →
  runs (set_included n hash1 hash2 s) t (λ r t', r.1 = bool_decide (X1 ⊆ X2) ∧
    set_alive hash1 F1 I1 mn1 X1 t' ∧ set_alive hash2 F2 I2 mn2 X2 r.2).
Proof.
  intros Hh1 Hh2 (ins & outs & Hl) Hal2 Hb1 Hb2. unfold set_included, set_any, map_any. eapply runs_call.
  { by eapply (runs_any_entry SEQUENTIAL hash1 Hh1 n map_maximum_capacity 63 word_range map_maximum F1). }
  intros r t' [(l & Hp & ->) Hl']. pose proof (ask_set_included hash2 F2 I2 mn2 X2 l s Hh2 Hal2 Hb2) as Hask. cbv zeta in Hask.
  apply runs_leave_run; [done |]. eapply ends_mono; [| exact Hask]. intros [] s' [-> Hal2']. apply runs_ret. cbn [fst snd]. split; [| split; [by exists ins, outs | done]].
  rewrite (existsb_perm _ _ (elements X1)) by (by rewrite Hp, units_list).
  apply Bool.eq_iff_eq_true. rewrite bool_decide_eq_true, negb_true_iff, <-not_true_iff_false, existsb_exists. split.
  - intros Hn k Hk. destruct (decide (k ∈ X2)) as [? | Hne]; [done |]. destruct Hn. exists k.
    split; [by apply list_elem_of_In, elem_of_elements | by rewrite bool_decide_false].
  - intros Hsub (k & Hin & Hne). apply list_elem_of_In, elem_of_elements, Hsub in Hin. by rewrite bool_decide_true in Hne.
Qed.

Lemma runs_set_partial_eq {allow : Refuses (Table K unit)} (hash1 hash2 : K → Z) F1 I1 mn1 X1 F2 I2 mn2 X2 (s : Table K unit * Table K unit) :
  (∀ k, in_word 64 (hash1 k)) → (∀ k, in_word 64 (hash2 k)) →
  set_alive hash1 F1 I1 mn1 X1 s.1 → set_alive hash2 F2 I2 mn2 X2 s.2 → budget n I1 → budget n I2 →
  runs (set_partial_eq n hash1 hash2) s (λ r (s' : Table K unit * Table K unit), r = bool_decide (X1 = X2) ∧
    set_alive hash1 F1 I1 mn1 X1 s'.1 ∧ set_alive hash2 F2 I2 mn2 X2 s'.2).
Proof.
  intros Hh1 Hh2 Hal1 Hal2 Hb1 Hb2. unfold set_partial_eq. apply runs_load. apply runs_bind.
  eapply (runs_zoom_in (S := Table K unit)); [apply _ | apply refuses_fst | done |]. eapply runs_mono; [| by eapply (runs_set_included hash1 hash2)].
  intros [r s2] t' (-> & Hal1' & Hal2'). cbn [fst snd] in *. apply runs_act. cbn [fst snd bind].
  destruct (decide (X1 ⊆ X2)) as [Hsub | Hsub].
  - rewrite bool_decide_true by done. apply runs_load. cbn [fst]. apply runs_bind.
    eapply (runs_zoom_in (S := Table K unit)); [apply _ | apply refuses_snd | done |]. eapply runs_mono; [| by eapply (runs_set_included hash2 hash1)].
    intros [r2 t2] s3 (-> & Hal2'' & Hal1''). cbn [fst snd] in *. apply runs_act. cbn [fst snd bind]. apply runs_ret.
    cbn [fst snd]. split; [| done]. apply bool_decide_ext. set_solver.
  - rewrite bool_decide_false by done. apply runs_ret. cbn [fst snd]. split; [| done]. symmetry. apply bool_decide_false.
    by intros ->.
Qed.

(** A clone has the same keys. *)
Lemma runs_set_clone (hash : K → Z) F I mn X t :
  (∀ k, in_word 64 (hash k)) → set_alive hash F I mn X t → budget n I →
  runs (set_clone n hash) t (λ c t', set_alive hash F I mn X t' ∧
    ∃ base, set_alive hash (floor_of base) (size X) base X c ∧ fits (floor_of base) base []).
Proof. intros Hhash Hal Hb. unfold set_alive. rewrite <-(units_size X). by apply (runs_map_clone n hash). Qed.
End Eq.

(** ** The theorems *)

Section Theorems.
Context {K R : Type} `{Countable K} (hash : K → Z) (Hhash : ∀ k, in_word 64 (hash k)) (n : nat) (mem : Memory).

Implicit Types (ops : list (set_op K R)) (capacity : Z).

(** C5. A hash set is a set.  A program that creates a [HashSet] and calls its functions, with
    bounded reservations, answers what the same program does on a finite set, without a
    panic: a refused insertion gives its key back, a removal returns the key, the minimum
    capacity is the one asked for plus the reservations that are held.  The conditions on
    the program ([set_setting], [reservable]): every call of [reserve] either fails, because
    the sum exceeds [usize], or keeps the minimum capacity, the reservations that are held
    included, within the maximum capacity and within 32 times the greater of 64 and the
    capacity the set was created with (beyond that the next insertion can panic, see
    [reserve_panics]); and there are fewer than [2 ^ 32] calls.  The condition on the memory
    ([served]): no array is refused to this run. *)
Theorem hash_set_refines_set capacity ops (Hset : set_setting n capacity ops)
    (Hmem : served (set_program hash n capacity ops) (table_new mem 0) = true) :
  ∃ t, run (set_program hash n capacity ops) (table_new mem 0) = Done (set_result capacity ops).1 t.
Proof.
  destruct (runs_returns _ _ _ (runs_set_program hash Hhash n mem capacity ops Hset) Hmem) as (l & t & Hrun & mn & -> & _). eauto.
Qed.

(** A program and a clone of the set that it leaves. *)
Definition set_program_clone capacity ops : prog (Table K unit) (list (set_res K R) * Table K unit) :=
  let! l := set_program hash n capacity ops in let! c := set_clone n hash in Ret (l, c).

Lemma runs_set_program_clone capacity ops : set_setting n capacity ops →
  runs (set_program_clone capacity ops) (table_new mem 0) (λ r t, ∃ mn base, let X := (set_result capacity ops).2 in
    set_alive hash (floor_of (table_base capacity)) (length ops) mn X t ∧ set_alive hash (floor_of base) (size X) base X r.2).
Proof.
  intros Hset. pose proof Hset as [_ _ Hn Hmax]. unfold set_program_clone. eapply runs_call; [by apply runs_set_program |].
  intros l t (mn & _ & Hal). eapply runs_call; [eapply runs_set_clone; [exact Hhash | exact Hal | split; lia] |].
  intros c t1 (Hal1 & base & Halc & _). apply runs_ret. by exists mn, base.
Qed.

(** C29. Two sets are equal when their keys are, and a clone has the keys of the original.
    After any two programs whose reservations are bounded ([set_setting]) and that are
    refused no memory, on sets that may have different hashers, [==] answers whether the two
    finite sets are the same, both for the first set and for a clone of it. *)
Theorem hash_set_clone_eq (hash2 : K → Z) (capacity1 capacity2 : Z) (ops1 ops2 : list (set_op K R))
    (Hhash2 : ∀ k, in_word 64 (hash2 k)) (Hset1 : set_setting n capacity1 ops1) (Hset2 : set_setting n capacity2 ops2)
    (Hmem1 : served (set_program_clone capacity1 ops1) (table_new mem 0) = true)
    (Hmem2 : served (set_program hash2 n capacity2 ops2) (table_new mem 0) = true) :
  let same := bool_decide ((set_result capacity1 ops1).2 = (set_result capacity2 ops2).2) in
  ∃ l1 c t1' l2 t2 s s', run (set_program_clone capacity1 ops1) (table_new mem 0) = Done (l1, c) t1' ∧ run (set_program hash2 n capacity2 ops2) (table_new mem 0) = Done l2 t2 ∧
    run (set_partial_eq n hash hash2) (t1', t2) = Done same s ∧ run (set_partial_eq n hash hash2) (c, t2) = Done same s'.
Proof.
  intros same. pose proof Hset1 as [_ _ Hn1 Hmax1]. pose proof Hset2 as [_ _ Hn2 Hmax2].
  assert (Hb1 : budget n (length ops1)) by (split; lia). assert (Hb2 : budget n (length ops2)) by (split; lia).
  destruct (runs_returns _ _ _ (runs_set_program_clone capacity1 ops1 Hset1) Hmem1) as ([l1 c] & t1 & Hrun1 & mn1 & base & Hal1 & Halc).
  destruct (runs_returns _ _ _ (runs_set_program hash2 Hhash2 n mem capacity2 ops2 Hset2) Hmem2) as (l2 & t2 & Hrun2 & mn2 & _ & Hal2).
  assert (Hsz : budget n (size (set_result capacity1 ops1).2)).
  { pose proof (alive_size _ _ _ _ _ _ _ _ Hal1) as Hle. rewrite units_size in Hle. split; lia. }
  destruct (proj1 (runs_Done _ _ _) (runs_set_partial_eq (allow := never_refuses _) n hash hash2 _ _ _ _ _ _ _ _ (t1, t2) Hhash Hhash2 Hal1 Hal2 Hb1 Hb2))
    as (r & s & Hs & -> & _).
  destruct (proj1 (runs_Done _ _ _) (runs_set_partial_eq (allow := never_refuses _) n hash hash2 _ _ _ _ _ _ _ _ (c, t2) Hhash Hhash2 Halc Hal2 Hsz Hb2))
    as (r' & s' & Hs' & -> & _).
  by exists l1, c, t1, l2, t2, s, s'.
Qed.
End Theorems.

(** ** The theorems at work *)

Definition set_demo : list (set_op Z Z) :=
  ((λ i, SInsert (Z.of_nat i)) <$> seq 0 70) ++
  [SInsert 7; SReserve 300; SCapacityRange; SRemove 8; SRemove 8; SRemoveIf 9 (λ _, false); SRemoveIf 10 (λ _, true);
   SRead 11 (λ k, k * k); SContains 10; SUnreserve 0; SCapacityRange; SRetain (λ k, k <? 20); SLen; SAny (λ k, k =? 8);
   SAny (λ k, k =? 9); SIsEmpty; SClear; SIsEmpty].

Lemma set_oks_inserts (F base : Z) (l : list nat) (ops : list (set_op Z Z)) (rs : list Z) :
  set_oks F ops base rs → set_oks F (((λ i, SInsert (Z.of_nat i)) <$> l) ++ ops) base rs.
Proof. intros Hok. induction l as [| i l IH]; [exact Hok |]. by split. Qed.

Lemma set_demo_setting : set_setting 200 0 set_demo.
Proof.
  constructor.
  - split; [done | reflexivity].
  - apply set_oks_inserts. split; [exact I |]. split; [split; [done | right; by apply demo_limits] |].
    by repeat split.
  - apply Nat.ltb_lt. vm_compute. reflexivity.
  - apply Z.leb_le. vm_compute. reflexivity.
Qed.

Lemma hash_set_refines_set_witness :
  drop 70 (set_result 0 set_demo).1 =
    [SRInsert (inr 7); SRReserve (Some 300); SRRange (300, 2 ^ 63); SRKey (Some 8); SRKey None; SRKey None; SRKey (Some 10);
     SRRead (Some 121); SRBool false; SRUnit; SRRange (0, 2 ^ 63); SRUnit; SRNumber 18; SRBool false; SRBool true; SRBool false;
     SRUnit; SRBool true] ∧
  ∃ t, run (set_program mix 200 0 set_demo) (table_new plentiful 0) = Done (set_result 0 set_demo).1 t.
Proof. split; [vm_compute; reflexivity |]. apply (hash_set_refines_set mix mix_word 200 plentiful 0 set_demo); [apply set_demo_setting | vm_compute; reflexivity]. Defined.

Lemma hash_set_clone_eq_witness :
  ∃ l1 c t1' l2 t2 s s', run (set_program_clone mix 200 0 (take 80 set_demo)) (table_new plentiful 0) = Done (l1, c) t1' ∧ run (set_program (λ k, 0) 200 0 (take 79 set_demo)) (table_new plentiful 0) = Done l2 t2 ∧
    run (set_partial_eq 200 mix (λ k, 0)) (t1', t2) = Done true s ∧ run (set_partial_eq 200 mix (λ k, 0)) (c, t2) = Done true s'.
Proof.
  replace true with (bool_decide ((set_result 0 (take 80 set_demo)).2 = (set_result 0 (take 79 set_demo)).2)) by (vm_compute; reflexivity).
  assert (Htake : ∀ i, (i < 88)%nat → set_setting 200 0 (take i set_demo)).
  { intros i Hi. destruct set_demo_setting as [Hcap Hops Hn Hmax]. constructor; [done | | |].
    - clear Hi Hn Hmax Hcap. revert Hops. generalize (floor_of (table_base 0)) as F, (table_base 0) as base, (@nil Z) as rs, set_demo as l.
      induction i as [| i IH]; intros F base rs l Hops; [exact I |]. destruct l as [| op l]; [exact I |].
      destruct Hops as [Hop Hops]. split; [exact Hop | by apply IH].
    - rewrite length_take. lia.
    - rewrite length_take. lia. }
  apply (hash_set_clone_eq mix mix_word 200 plentiful (λ k, 0) 0 0 (take 80 set_demo) (take 79 set_demo));
    [by split | apply Htake; lia | apply Htake; lia | vm_compute; reflexivity | vm_compute; reflexivity].
Defined.
