(* ===== verification/HashCache.v ===== *)
(** * The hash cache: [src/hash_cache.rs]

    [HashCache] is the hash table with buckets of the type [CACHE]: the 32 slots of a bucket
    are linked from the most to the least recently used one, and a new entry of a full bucket
    takes the place of the least recently used one.  The maximum capacity is a field of the
    cache, here a parameter of its functions.  The synchronous functions are modelled as a
    thread alone runs them. *)
From S2P Require Import Prelude Atomic Tag Lru Bucket BucketIter BucketArray HashTable.

Local Open Scope Z_scope.

Definition DEFAULT_MAXIMUM_CAPACITY : Z := 256.

(** The maximum capacity of a cache whose minimum capacity is [minimum_capacity]. *)
Definition cache_maximum_capacity (minimum_capacity maximum_capacity : Z) : Z :=
  next_power_of_two (Z.min (Z.max (Z.max maximum_capacity minimum_capacity) array_minimum_capacity) (one_shl 63)).

(** An [OccupiedEntry] is its [LockedEntry]. *)
Inductive CacheEntry {K : Type} : Type :=
  | CacheOccupied (locked_entry : LockedEntry)
  | CacheVacant (key : K) (hash : Z) (locked_entry : LockedEntry).

Arguments CacheEntry : clear implicits.

Section HashCache.
Context {K V : Type} `{EqDecision K} (hash : K → Z) (maximum_capacity : Z) (n : nat).

(** [HashCache::with_capacity_and_hasher] initialises a table that [with_hasher] would give,
    and chooses the maximum capacity. *)
Definition cache_with_capacity (minimum maximum : Z) : prog (Table K V) Z :=
  (if minimum =? 0 then Ret ()
   else
     let! x := alloc_array minimum None in
     let! a := snapshot x in
     store set_bucket_array (Some x, Tag.None) ;;
     store set_minimum_capacity (array_num_entries a)) ;;
  let! minimum_capacity := load minimum_capacity in
  Ret (cache_maximum_capacity minimum_capacity maximum).

(** ** Handles *)

Definition cache_entry (key : K) : prog (Table K V) (CacheEntry K) :=
  let! r := reserve_entry CACHE hash maximum_capacity n key (hash key) in
  match r with
  | None => Panic
  | Some locked_entry =>
      if is_valid (entry_ptr locked_entry) then
        at_bucket (locker locked_entry) (index locked_entry) (update_lru_tail CACHE (entry_ptr locked_entry)) ;;
        Ret (CacheOccupied locked_entry)
      else Ret (CacheVacant key (hash key) locked_entry)
  end.

Definition cache_get (key : K) : prog (Table K V) (option LockedEntry) :=
  let! r := get_entry CACHE hash n key (hash key) in
  match mjoin r with
  | None => Ret None
  | Some locked_entry =>
      at_bucket (locker locked_entry) (index locked_entry) (update_lru_tail CACHE (entry_ptr locked_entry)) ;;
      Ret (Some locked_entry)
  end.

(** [OccupiedEntry] *)
Definition cache_occupied_entry (self : LockedEntry) : prog (Table K V) (K * V) :=
  at_bucket (locker self) (index self) (ptr_get (entry_ptr self)).

Definition cache_occupied_key (self : LockedEntry) : prog (Table K V) K :=
  let! e := cache_occupied_entry self in Ret e.1.

Definition cache_occupied_get (self : LockedEntry) : prog (Table K V) V :=
  let! e := cache_occupied_entry self in Ret e.2.

(** [get_mut]: what is done through the reference is [f]. *)
Definition cache_occupied_get_mut {R} (self : LockedEntry) (f : V → V * R) : prog (Table K V) R :=
  let! e := cache_occupied_entry self in
  at_bucket (locker self) (index self) (ptr_set (entry_ptr self) (f e.2).1) ;;
  Ret (f e.2).2.

Definition cache_occupied_put (self : LockedEntry) (val : V) : prog (Table K V) V :=
  cache_occupied_get_mut self (λ v, (val, v)).

Definition cache_occupied_remove_entry (self : LockedEntry) : prog (Table K V) (K * V) :=
  let! entry := at_bucket (locker self) (index self) (erase CACHE (entry_ptr self)) in
  match entry with
  | None => Panic
  | Some entry =>
      let! num := at_bucket (locker self) (index self) (load num_entries) in
      let! rebuild := at_bucket (locker self) (index self) (load (need_rebuild CACHE)) in
      let! shrunk :=
        if (num <=? 1) || rebuild then
          let! p := load bucket_array in
          match p.1 with
          | None => Ret false
          | Some current =>
              let! a := snapshot current in
              if negb (has_old_array a) && within_sampling_range a (index self) then
                drop_entry self ;;
                try_shrink_or_rebuild CACHE maximum_capacity n current (index self) ;;
                Ret true
              else Ret false
          end
        else Ret false in
      (if shrunk : bool then Ret () else drop_entry self) ;;
      Ret entry
  end.

Definition cache_occupied_remove (self : LockedEntry) : prog (Table K V) V :=
  let! e := cache_occupied_remove_entry self in Ret e.2.

(** [VacantEntry::put_entry] *)
Definition cache_vacant_put_entry (key : K) (hash : Z) (locked_entry : LockedEntry) (val : V) :
    prog (Table K V) (option (K * V) * LockedEntry) :=
  let! evicted := at_bucket (locker locked_entry) (index locked_entry) (evict_lru_head CACHE) in
  let! r := insert_with (λ R, at_bucket (locker locked_entry) (index locked_entry)) n
              (partial_hash hash) (Ret ((key, val), ())) in
  at_bucket (locker locked_entry) (index locked_entry) (update_lru_tail CACHE r.1) ;;
  Ret (evicted, {| locker := locker locked_entry; index := index locked_entry; HashTable.entry_ptr := r.1 |}).

(** [VacantEntry::into_key] *)
Definition cache_vacant_into_key (key : K) (locked_entry : LockedEntry) : prog (Table K V) K :=
  drop_entry locked_entry ;; Ret key.

(** [Entry] *)
Definition cache_or_put_with_key (self : CacheEntry K) (constructor : K → V) :
    prog (Table K V) (option (K * V) * LockedEntry) :=
  match self with
  | CacheOccupied o => Ret (None, o)
  | CacheVacant key hash e => cache_vacant_put_entry key hash e (constructor key)
  end.

Definition cache_or_put_with (self : CacheEntry K) (constructor : unit → V) :
    prog (Table K V) (option (K * V) * LockedEntry) :=
  cache_or_put_with_key self (λ _, constructor ()).

Definition cache_or_put (self : CacheEntry K) (val : V) : prog (Table K V) (option (K * V) * LockedEntry) :=
  cache_or_put_with self (λ _, val).

Definition cache_entry_key (self : CacheEntry K) : prog (Table K V) K :=
  match self with
  | CacheOccupied o => cache_occupied_key o
  | CacheVacant key _ _ => Ret key
  end.

Definition cache_and_modify (self : CacheEntry K) (f : V → V) : prog (Table K V) (CacheEntry K) :=
  match self with
  | CacheOccupied o => cache_occupied_get_mut o (λ v, (f v, ())) ;; Ret (CacheOccupied o)
  | CacheVacant _ _ _ => Ret self
  end.

Definition cache_put_entry (self : CacheEntry K) (val : V) : prog (Table K V) (option (K * V) * LockedEntry) :=
  match self with
  | CacheOccupied o => let! _ := cache_occupied_put o val in Ret (None, o)
  | CacheVacant key hash e => cache_vacant_put_entry key hash e val
  end.

(** The drop of an [Entry]. *)
Definition cache_entry_drop (self : CacheEntry K) : prog (Table K V) unit :=
  match self with
  | CacheOccupied e | CacheVacant _ _ e => drop_entry e
  end.

(** ** The cache *)

(** [Ok] with what was evicted, or [Err] with the arguments. *)
Definition cache_put (key : K) (val : V) : prog (Table K V) (option (K * V) + K * V) :=
  let! r := reserve_entry CACHE hash maximum_capacity n key (hash key) in
  match r with
  | None => Ret (inr (key, val))
  | Some e =>
      if is_valid (entry_ptr e) then drop_entry e ;; Ret (inr (key, val))
      else
        let! evicted := at_bucket (locker e) (index e) (evict_lru_head CACHE) in
        let! r := insert_with (λ R, at_bucket (locker e) (index e)) n (partial_hash (hash key))
                    (Ret ((key, val), ())) in
        at_bucket (locker e) (index e) (update_lru_tail CACHE r.1) ;;
        drop_entry e ;;
        Ret (inl evicted)
  end.

Definition cache_read {R} (key : K) (reader : K → V → R) : prog (Table K V) (option R) :=
  let! r := read_entry CACHE hash n key (hash key) in
  Ret ((λ e, reader e.1 e.2) <$> mjoin r).

Definition cache_contains (key : K) : prog (Table K V) bool :=
  let! r := cache_read key (λ _ _, ()) in Ret (bool_decide (is_Some r)).

(** The condition may change a value that stays. *)
Definition cache_remove_if (key : K) (condition : V → bool * V) : prog (Table K V) (option (K * V)) :=
  let! o := cache_get key in
  match o with
  | None => Ret None
  | Some o =>
      let! c := cache_occupied_get_mut o (λ v, let c := condition v in (c.2, c.1)) in
      if c : bool then let! e := cache_occupied_remove_entry o in Ret (Some e)
      else drop_entry o ;; Ret None
  end.

Definition cache_remove (key : K) : prog (Table K V) (option (K * V)) := cache_remove_if key (λ v, (true, v)).

(** The scanner is a [FnMut]: its state is threaded. *)
Definition cache_scan {S} (scanner : K → V → S → S) (s : S) : prog (Table K V) S :=
  let! r := scan CACHE hash n reader_lock (λ current index s,
    let! s := at_bucket current index (while_next CACHE n
      (λ ptr s, let! e := ptr_get ptr in Ret (ptr, scanner e.1 e.2 s)) s) in
    at_bucket current index unlock ;; Ret (Continue s : flow S unit)) s in
  match r with Continue s => Ret s | Break _ => Panic end.

Definition cache_any {S} (pred : K → V → S → bool * S) (s : S) : prog (Table K V) (bool * S) :=
  any_entry CACHE hash n pred s.

Definition cache_retain (pred : K → V → bool * V) : prog (Table K V) unit :=
  retain_entries CACHE hash maximum_capacity n pred.

Definition cache_clear : prog (Table K V) unit := cache_retain (λ _ v, (false, v)).

Definition cache_len : prog (Table K V) Z := table_num_entries CACHE maximum_capacity n.

Definition cache_is_empty : prog (Table K V) bool :=
  let! r := has_entry CACHE maximum_capacity n in Ret (negb r).

Definition cache_capacity : prog (Table K V) Z := num_slots.

Definition cache_capacity_range : prog (Table K V) (Z * Z) :=
  let! minimum_capacity := load minimum_capacity in Ret (minimum_capacity, maximum_capacity).
End HashCache.
