(* ===== verification/CacheProps.v ===== *)
(** * Programs that use a cache, and what it promises *)
From S2P Require Import Prelude Atomic Tag Lru Bucket BucketInv BucketQuery BucketOps BucketSpec BucketLinks BucketDrop BucketIter BucketProps BucketArray Rehash HashTable TableInv TableRelocate TableRehash TableResize TableOps TableKey TableScan TableDrop TableEntry TableProps TableReserve MapSpec HashCache.

Local Open Scope Z_scope.

(** ** Programs that use a cache

    A program calls the functions of [HashCache] and uses the handles that it gets, one at a
    time.  Its answers are those of the same program on a finite map, but for the entries that
    the insertions evict: each evicts at most one, and only one of 32 entries that share their
    bucket with the new one. *)

Section Client.
Context {K V : Type} `{Countable K} (hash : K → Z) (maximum_capacity : Z) (n : nat).

Fixpoint cache_use_occupied (u : occupied_use V) (e : LockedEntry) : prog (Table K V) (list (event K V)) :=
  match u with
  | ODrop => drop_entry e ;; Ret []
  | OKey u => let! k := cache_occupied_key e in let! r := cache_use_occupied u e in Ret (EKey k :: r)
  | OGet u => let! v := cache_occupied_get e in let! r := cache_use_occupied u e in Ret (EVal v :: r)
  | OGetMut f u => cache_occupied_get_mut e (λ v, (f v, ())) ;; cache_use_occupied u e
  | OInsert v u => let! v := cache_occupied_put e v in let! r := cache_use_occupied u e in Ret (EVal v :: r)
  | ORemoveEntry => let! kv := cache_occupied_remove_entry maximum_capacity n e in Ret [EEntry kv.1 kv.2]
  | ORemove => let! v := cache_occupied_remove maximum_capacity n e in Ret [EVal v]
  end.

(** What is done with the results of [or_put] and the like. *)
Definition cache_use_put (u : occupied_use V) (r : option (K * V) * LockedEntry) : prog (Table K V) (list (event K V)) :=
  let! l := cache_use_occupied u r.2 in Ret (EEvicted r.1 :: l).

Definition cache_use_vacant (w : vacant_use V) (key : K) (hash : Z) (e : LockedEntry) : prog (Table K V) (list (event K V)) :=
  match w with
  | VDrop => drop_entry e ;; Ret []
  | VIntoKey => let! k := cache_vacant_into_key key e in Ret [EKey k]
  | VInsertEntry v u => let! r := cache_vacant_put_entry n key hash e v in cache_use_put u r
  end.

Fixpoint cache_use_entry (u : entry_use K V) (self : CacheEntry K) : prog (Table K V) (list (event K V)) :=
  match u with
  | UDrop => cache_entry_drop self ;; Ret []
  | UKey u => let! k := cache_entry_key self in let! r := cache_use_entry u self in Ret (EKey k :: r)
  | UAndModify f u => let! self := cache_and_modify self f in cache_use_entry u self
  | UOrInsert v u => let! r := cache_or_put n self v in cache_use_put u r
  | UOrInsertWithKey c u => let! r := cache_or_put_with_key n self c in cache_use_put u r
  | UInsertEntry v u => let! r := cache_put_entry n self v in cache_use_put u r
  | UMatch u w =>
      match self with
      | CacheOccupied o => cache_use_occupied u o
      | CacheVacant key hash e => cache_use_vacant w key hash e
      end
  end.

Inductive cache_op : Type :=
  | CPut (k : K) (v : V)
  | CRemove (k : K)
  | CRemoveIf (k : K) (condition : V → bool * V)
  | CRead (k : K) (f : K → V → V)
  | CContains (k : K)
  | CGet (k : K) (u : occupied_use V)
  | CEntry (k : K) (u : entry_use K V)
  | CScan
  | CAny (pred : K → V → bool)
  | CRetain (pred : K → V → bool * V)
  | CClear
  | CLen
  | CIsEmpty.

Inductive cache_res : Type :=
  | XPut (r : option (K * V) + K * V)
  | XValue (r : option V)
  | XEntry (r : option (K * V))
  | XBool (r : bool)
  | XEvents (r : option (list (event K V)))
  | XEntries (l : list (K * V))
  | XNumber (r : Z)
  | XUnit.

(** The scanner of [CScan] collects the entries. *)
Definition cache_apply (op : cache_op) : prog (Table K V) cache_res :=
  match op with
  | CPut k v => let! r := cache_put hash maximum_capacity n k v in Ret (XPut r)
  | CRemove k => let! r := cache_remove hash maximum_capacity n k in Ret (XEntry r)
  | CRemoveIf k c => let! r := cache_remove_if hash maximum_capacity n k c in Ret (XEntry r)
  | CRead k f => let! r := cache_read hash n k f in Ret (XValue r)
  | CContains k => let! r := cache_contains hash n k in Ret (XBool r)
  | CGet k u =>
      let! o := cache_get hash n k in
      match o with
      | None => Ret (XEvents None)
      | Some e => let! r := cache_use_occupied u e in Ret (XEvents (Some r))
      end
  | CEntry k u =>
      let! e := cache_entry hash maximum_capacity n k in
      let! r := cache_use_entry u e in Ret (XEvents (Some r))
  | CScan => let! l := cache_scan hash n (λ k v l, l ++ [(k, v)]) [] in Ret (XEntries l)
  | CAny p => let! r := cache_any hash n (λ k v u, (p k v, u)) () in Ret (XBool r.1)
  | CRetain p => cache_retain hash maximum_capacity n p ;; Ret XUnit
  | CClear => cache_clear hash maximum_capacity n ;; Ret XUnit
  | CLen => let! z := cache_len maximum_capacity n in Ret (XNumber z)
  | CIsEmpty => let! b := cache_is_empty maximum_capacity n in Ret (XBool b)
  end.

Fixpoint cache_trace (ops : list cache_op) : prog (Table K V) (list cache_res) :=
  match ops with
  | [] => Ret []
  | op :: ops =>
      let! r := cache_apply op in
      let! l := cache_trace ops in
      Ret (r :: l)
  end.

(** ** The same programs on a finite map *)

Implicit Types (m : gmap K V).

(** What the insertion of [k] evicts: nothing, or an entry of the bucket of [k] in an array
    of [2 ^ e] buckets, which holds 32 at least. *)
Definition evicted k (r : option (K * V)) m m' : Prop :=
  match r with
  | None => m' = m
  | Some kv => m !! kv.1 = Some kv.2 ∧ m' = delete kv.1 m ∧
      ∃ e : nat, (1 ≤ e ≤ 58)%nat ∧ idx hash e kv.1 = idx hash e k ∧ (BUCKET_LEN ≤ size (part hash e (idx hash e k) m))%nat
  end.

(** The insertion of a key that is not there. *)
Definition putting k (v : V) (r : option (K * V)) m m' : Prop := ∃ m1, evicted k r m m1 ∧ m' = <[k := v]> m1.

Definition spec_put (u : occupied_use V) k (v : V) m (l : list (event K V)) m' : Prop :=
  ∃ r m1, putting k v r m m1 ∧ l = EEvicted r :: (spec_occupied u k v m1).1 ∧ m' = (spec_occupied u k v m1).2.

Definition spec_kept (u : occupied_use V) k (v : V) m (l : list (event K V)) m' : Prop :=
  l = EEvicted None :: (spec_occupied u k v m).1 ∧ m' = (spec_occupied u k v m).2.

Definition spec_cache_vacant (w : vacant_use V) k m (l : list (event K V)) m' : Prop :=
  match w with
  | VDrop => l = [] ∧ m' = m
  | VIntoKey => l = [EKey k] ∧ m' = m
  | VInsertEntry v u => spec_put u k v m l m'
  end.

Fixpoint spec_cache_entry (u : entry_use K V) k m (l : list (event K V)) m' : Prop :=
  match u with
  | UDrop => l = [] ∧ m' = m
  | UKey u => ∃ l', l = EKey k :: l' ∧ spec_cache_entry u k m l' m'
  | UAndModify f u => spec_cache_entry u k (alter f k m) l m'
  | UOrInsert v u => match m !! k with Some v' => spec_kept u k v' m l m' | None => spec_put u k v m l m' end
  | UOrInsertWithKey c u => match m !! k with Some v' => spec_kept u k v' m l m' | None => spec_put u k (c k) m l m' end
  | UInsertEntry v u => match m !! k with Some _ => spec_kept u k v (<[k := v]> m) l m' | None => spec_put u k v m l m' end
  | UMatch u w =>
      match m !! k with
      | Some v => l = (spec_occupied u k v m).1 ∧ m' = (spec_occupied u k v m).2
      | None => spec_cache_vacant w k m l m'
      end
  end.

(** An operation that answers [r] takes the map [m] to [m']. *)
Definition cache_spec (op : cache_op) m (r : cache_res) m' : Prop :=
  match op with
  | CPut k v =>
      match m !! k with
      | Some _ => r = XPut (inr (k, v)) ∧ m' = m
      | None => ∃ e, r = XPut (inl e) ∧ putting k v e m m'
      end
  | CRemove k => r = XEntry (pair k <$> m !! k) ∧ m' = delete k m
  | CRemoveIf k c =>
      match m !! k with
      | Some v => if (c v).1 then r = XEntry (Some (k, (c v).2)) ∧ m' = delete k m else r = XEntry None ∧ m' = <[k := (c v).2]> m
      | None => r = XEntry None ∧ m' = m
      end
  | CRead k f => r = XValue (f k <$> m !! k) ∧ m' = m
  | CContains k => r = XBool (bool_decide (is_Some (m !! k))) ∧ m' = m
  | CGet k u =>
      match m !! k with
      | Some v => r = XEvents (Some (spec_occupied u k v m).1) ∧ m' = (spec_occupied u k v m).2
      | None => r = XEvents None ∧ m' = m
      end
  | CEntry k u => ∃ l, r = XEvents (Some l) ∧ spec_cache_entry u k m l m'
  | CScan => ∃ l, r = XEntries l ∧ l ≡ₚ map_to_list m ∧ m' = m
  | CAny p => r = XBool (existsb (λ kv, p kv.1 kv.2) (map_to_list m)) ∧ m' = m
  | CRetain p => r = XUnit ∧ m' = map_imap (retain_value p) m
  | CClear => r = XUnit ∧ m' = ∅
  | CLen => r = XNumber (Z.of_nat (size m)) ∧ m' = m
  | CIsEmpty => r = XBool (bool_decide (m = ∅)) ∧ m' = m
  end.

Inductive cache_steps : list cache_op → gmap K V → list cache_res → gmap K V → Prop :=
  | cache_done m : cache_steps [] m [] m
  | cache_step op ops m r m1 l m2 :
      cache_spec op m r m1 → cache_steps ops m1 l m2 → cache_steps (op :: ops) m (r :: l) m2.
End Client.

Arguments cache_op : clear implicits.
Arguments cache_res : clear implicits.

(** ** One operation *)

Section Spec.
Context {K V : Type} `{Countable K} (hash : K → Z) (Hhash : ∀ k, in_word 64 (hash k)).
Context (maximum_capacity : Z) (kmax : Z) (Hk : 6 ≤ kmax ≤ 63) (Hmaximum : maximum_capacity = 2 ^ kmax) (n : nat) (F : Z).

Implicit Types (m : gmap K V) (t : Table K V) (mn : Z) (k : K) (v : V) (e : LockedEntry) (I : nat).

Local Notation alive := (alive CACHE hash maximum_capacity F).
Local Notation holding := (holding CACHE hash maximum_capacity F).
Local Notation budget := (budget n).

Lemma evicts_evicted k r m m' : evicts hash k r m m' → evicted hash k r m m'.
Proof.
  destruct r as [kv |]; [| done]. intros (Hm & -> & mb & Hmb & (Hsub & e & He & Htog) & Hsz).
  split; [done |]. split; [done |]. exists e. split; [done |]. split; [by apply Htog |].
  etrans; [exact Hsz |]. apply map_subseteq_size, map_subseteq_spec. intros k' v' Hk'.
  rewrite lookup_part, decide_True by (apply Htog; eauto). by eapply lookup_weaken.
Qed.

Lemma runs_cache_remove_entry {R} k v e I mn m t (next : K * V → prog (Table K V) R) Q :
  holding k e I mn m t → m !! k = Some v → budget I →
  (∀ t', alive I mn (delete k m) t' → runs (next (k, v)) t' Q) →
  runs (let! x := cache_occupied_remove_entry maximum_capacity n e in next x) t Q.
Proof.
  intros Hh Hm Hb Hn. unfold cache_occupied_remove_entry. apply runs_bind.
  eapply (runs_holding_remove CACHE hash Hhash n maximum_capacity kmax Hk Hmaximum F k v); [done | exact Hh | exact Hm | exact Hb |].
  intros t' Hl. apply runs_ret. by apply Hn.
Qed.

(** What [put] and [put_entry] do in a locked bucket: evict, insert, promote. *)
Lemma runs_put_locked {R} k v e I mn m t (next : option (K * V) → LockedEntry → prog (Table K V) R) Q :
  holding k e I mn m t → m !! k = None → budget (S I) →
  (∀ r m' e' t', putting hash k v r m m' → m' !! k = Some v → locker e' = locker e → index e' = index e →
     holding k e' (S I) mn m' t' → runs (next r e') t' Q) →
  runs (let! evicted := at_bucket (locker e) (index e) (evict_lru_head CACHE) in
        let! r := insert_with (λ R, at_bucket (locker e) (index e)) n (partial_hash (hash k)) (Ret ((k, v), ())) in
        at_bucket (locker e) (index e) (update_lru_tail CACHE r.1) ;;
        next evicted {| locker := locker e; index := index e; HashTable.entry_ptr := r.1 |}) t Q.
Proof.
  intros Hh Hm Hb Hn.
  eapply (runs_holding_evict hash Hhash maximum_capacity kmax Hk Hmaximum F k e); [exact Hh | exact Hm |].
  intros r m1 t1 Hev Hm1 Hh1.
  eapply (runs_holding_insert CACHE hash Hhash n maximum_capacity kmax Hk Hmaximum F k v e); [exact Hh1 | exact Hm1 | exact Hb |].
  intros p t2 Hh2. assert (Hm2 : <[k := v]> m1 !! k = Some v) by apply lookup_insert_eq.
  eapply (runs_holding_promote hash Hhash maximum_capacity kmax Hk Hmaximum F k v
    {| locker := locker e; index := index e; HashTable.entry_ptr := p.1 |}); [exact Hh2 | exact Hm2 |].
  intros t3 Hh3. apply (Hn r (<[k := v]> m1)); [| done | done | done | exact Hh3].
  exists m1. split; [by apply evicts_evicted | done].
Qed.

(** ** Handles *)

Lemma runs_cache_occupied u k v e I mn m t :
  holding k e I mn m t → m !! k = Some v → budget I →
  runs (cache_use_occupied maximum_capacity n u e) t (λ r t', let s := spec_occupied u k v m in r = s.1 ∧ alive I mn s.2 t').
Proof.
  intros Hh Hm Hb. revert v m t Hh Hm.
  induction u as [| u IH | u IH | f u IH | v' u IH | |]; intros v m t Hh Hm; cbn [cache_use_occupied spec_occupied].
  - eapply (runs_holding_drop CACHE hash Hhash maximum_capacity kmax Hk Hmaximum); [exact Hh |]. intros t' Hl. by apply runs_ret.
  - unfold cache_occupied_key. apply runs_bind. eapply runs_holding_get; [exact Hh | exact Hm |]. apply runs_ret.
    eapply runs_call; [by apply IH |]. intros r t' [-> Hl]. by apply runs_ret.
  - unfold cache_occupied_get. apply runs_bind. eapply runs_holding_get; [exact Hh | exact Hm |]. apply runs_ret.
    eapply runs_call; [by apply IH |]. intros r t' [-> Hl]. by apply runs_ret.
  - unfold cache_occupied_get_mut. apply runs_bind. eapply runs_holding_get; [exact Hh | exact Hm |].
    eapply (runs_holding_set CACHE hash Hhash maximum_capacity kmax Hk Hmaximum); [exact Hh | exact Hm |].
    intros t' Hh'. apply runs_ret. apply IH; [exact Hh' | apply lookup_insert_eq].
  - unfold cache_occupied_put, cache_occupied_get_mut. apply runs_bind. eapply runs_holding_get; [exact Hh | exact Hm |].
    eapply (runs_holding_set CACHE hash Hhash maximum_capacity kmax Hk Hmaximum); [exact Hh | exact Hm |].
    intros t' Hh'. apply runs_ret. cbn [fst snd].
    eapply runs_call; [apply IH; [exact Hh' | apply lookup_insert_eq] |]. intros r t2 [-> Hl]. by apply runs_ret.
  - eapply runs_cache_remove_entry; [exact Hh | exact Hm | exact Hb |]. intros t' Hl. by apply runs_ret.
  - unfold cache_occupied_remove. apply runs_bind. eapply runs_cache_remove_entry; [exact Hh | exact Hm | exact Hb |].
    intros t' Hl. apply runs_ret. by apply runs_ret.
Qed.

(** What an [Entry] of the key [k] is. *)
Definition cache_entry_of k (self : CacheEntry K) I mn m t : Prop :=
  match self with
  | CacheOccupied e => ∃ v, m !! k = Some v ∧ holding k e I mn m t
  | CacheVacant key h e => key = k ∧ h = hash k ∧ m !! k = None ∧ holding k e I mn m t
  end.

Lemma runs_cache_entry k I mn m t :
  alive I mn m t → budget I → runs (cache_entry hash maximum_capacity n k) t (λ r t', cache_entry_of k r I mn m t').
Proof.
  intros (ins & outs & Hl) Hb. unfold cache_entry.
  eapply runs_call; [by eapply (runs_reserve_entry CACHE hash Hhash n maximum_capacity kmax Hk Hmaximum F k) |].
  intros r t' (e & C & -> & Hr). rewrite (reserved_valid _ _ _ _ _ _ _ _ _ _ _ _ _ Hr).
  assert (Hh : holding k e I mn m t') by (by exists C, ins, outs).
  destruct (m !! k) as [v |] eqn:Hm.
  - rewrite bool_decide_true by eauto.
    eapply (runs_holding_promote hash Hhash maximum_capacity kmax Hk Hmaximum F k v); [exact Hh | exact Hm |].
    intros t2 Hh2. apply runs_ret. by exists v.
  - rewrite bool_decide_false by (by intros [? ?]). by apply runs_ret.
Qed.

Lemma runs_get_promoted k I mn m t :
  alive I mn m t → budget I →
  runs (cache_get hash n k) t (λ r t',
    match m !! k with
    | Some _ => ∃ e, r = Some e ∧ holding k e I mn m t'
    | None => r = None ∧ alive I mn m t'
    end).
Proof.
  intros (ins & outs & Hl) Hb. unfold cache_get.
  eapply runs_call; [by eapply (runs_get_entry_of CACHE hash Hhash n maximum_capacity kmax Hk Hmaximum F k) |].
  intros r t' Hr. destruct (m !! k) as [v |] eqn:Hm.
  - destruct Hr as (e & C & -> & Hr). cbn [mjoin option_join id].
    eapply (runs_holding_promote hash Hhash maximum_capacity kmax Hk Hmaximum F k v); [by exists C, ins, outs | exact Hm |].
    intros t2 Hh2. apply runs_ret. by exists e.
  - destruct Hr as [-> Hl']. apply runs_ret. split; [done |]. by exists ins, outs.
Qed.

Local Notation alive_up Hl := (alive_mono _ _ _ _ _ _ _ _ _ Hl (Nat.le_succ_diag_r _)).

(** The results of [or_put] and the like, used. *)
Lemma runs_use_kept u k v e I mn m t :
  holding k e I mn m t → m !! k = Some v → budget I →
  runs (cache_use_put maximum_capacity n u (None, e)) t (λ l t', ∃ m', spec_kept u k v m l m' ∧ alive (S I) mn m' t').
Proof.
  intros Hh Hm Hb. unfold cache_use_put. eapply runs_call; [by eapply runs_cache_occupied |].
  intros l t' [-> Hl]. apply runs_ret. eexists. split; [by split |]. exact (alive_up Hl).
Qed.

Lemma runs_use_put u k v e I mn m t :
  holding k e I mn m t → m !! k = None → budget (S I) →
  runs (let! r := cache_vacant_put_entry n k (hash k) e v in cache_use_put maximum_capacity n u r) t
    (λ l t', ∃ m', spec_put hash u k v m l m' ∧ alive (S I) mn m' t').
Proof.
  intros Hh Hm Hb. unfold cache_vacant_put_entry. apply runs_bind.
  eapply (runs_put_locked k v e I mn m t (λ r e, Ret (r, e))); [exact Hh | exact Hm | exact Hb |].
  intros r m' e' t' Hput Hm' _ _ Hh'. apply runs_ret. unfold cache_use_put. cbn [fst snd].
  eapply runs_call; [by eapply runs_cache_occupied |]. intros l t2 [-> Hl]. apply runs_ret.
  eexists. split; [by exists r, m' |]. exact Hl.
Qed.

Lemma runs_use_or_put (self : CacheEntry K) (c : K → V) u k I mn m t :
  cache_entry_of k self I mn m t → budget (S I) →
  runs (let! r := cache_or_put_with_key n self c in cache_use_put maximum_capacity n u r) t (λ l t', ∃ m',
    match m !! k with Some v' => spec_kept u k v' m l m' | None => spec_put hash u k (c k) m l m' end ∧ alive (S I) mn m' t').
Proof.
  intros Hself Hb. assert (Hb' : budget I) by (destruct Hb; split; lia).
  destruct self as [e | key h e]; cbn [cache_or_put_with_key].
  - destruct Hself as (v & Hm & Hh). apply runs_bind, runs_ret. rewrite Hm. by apply runs_use_kept.
  - destruct Hself as (-> & -> & Hm & Hh). rewrite Hm. by apply runs_use_put.
Qed.

Lemma runs_cache_vacant w k e I mn m t :
  holding k e I mn m t → m !! k = None → budget (S I) →
  runs (cache_use_vacant maximum_capacity n w k (hash k) e) t (λ l t', ∃ m', spec_cache_vacant hash w k m l m' ∧ alive (S I) mn m' t').
Proof.
  intros Hh Hm Hb. destruct w as [| | v u]; cbn [cache_use_vacant spec_cache_vacant].
  - eapply (runs_holding_drop CACHE hash Hhash maximum_capacity kmax Hk Hmaximum); [exact Hh |]. intros t' Hl. apply runs_ret.
    exists m. split; [done |]. exact (alive_up Hl).
  - unfold cache_vacant_into_key. apply runs_bind.
    eapply (runs_holding_drop CACHE hash Hhash maximum_capacity kmax Hk Hmaximum); [exact Hh |]. intros t' Hl. apply runs_ret, runs_ret.
    exists m. split; [done |]. exact (alive_up Hl).
  - by apply runs_use_put.
Qed.

Lemma runs_cache_use_entry u (self : CacheEntry K) k I mn m t :
  cache_entry_of k self I mn m t → budget (S I) →
  runs (cache_use_entry maximum_capacity n u self) t (λ l t', ∃ m', spec_cache_entry hash u k m l m' ∧ alive (S I) mn m' t').
Proof.
  intros Hself Hb. assert (Hb' : budget I) by (destruct Hb; split; lia).
  revert self m t Hself. induction u as [| u IH | f u IH | v u | c u | v u | u w]; intros self m t Hself; cbn [cache_use_entry spec_cache_entry].
  - eapply (runs_call _ _ _ (λ _ t', alive I mn m t')).
    + destruct self as [e | key h e]; cbn [cache_entry_drop]; apply runs_last;
        (eapply (runs_holding_drop CACHE hash Hhash maximum_capacity kmax Hk Hmaximum F k); [apply Hself |] ||
         (destruct Hself as (v & Hm & Hh); eapply (runs_holding_drop CACHE hash Hhash maximum_capacity kmax Hk Hmaximum F k); [exact Hh |]));
        intros t' Hl; by apply runs_ret.
    + intros x t' Hl. apply runs_ret. exists m. split; [done |]. exact (alive_up Hl).
  - eapply (runs_call _ _ _ (λ r t', r = k ∧ cache_entry_of k self I mn m t')).
    + destruct self as [e | key h e]; cbn [cache_entry_key]; [| apply runs_ret; split; [apply Hself | exact Hself]].
      pose proof Hself as (v & Hm & Hh). unfold cache_occupied_key. eapply runs_holding_get; [exact Hh | exact Hm |]. by apply runs_ret.
    + intros r t' [-> Hself']. eapply runs_call; [by apply IH |]. intros l t2 (m' & Hspec & Hl). apply runs_ret.
      exists m'. split; [by exists l | exact Hl].
  - eapply (runs_call _ _ _ (λ r t', cache_entry_of k r I mn (alter f k m) t')); [| intros r t' Hself'; by apply IH].
    destruct self as [e | key h e]; cbn [cache_and_modify].
    + destruct Hself as (v & Hm & Hh). unfold cache_occupied_get_mut. apply runs_bind. eapply runs_holding_get; [exact Hh | exact Hm |].
      eapply (runs_holding_set CACHE hash Hhash maximum_capacity kmax Hk Hmaximum); [exact Hh | exact Hm |].
      intros t' Hh'. apply runs_ret, runs_ret. exists (f v). rewrite (alter_insert_some f k v m Hm).
      split; [apply lookup_insert_eq | exact Hh'].
    + apply runs_ret. destruct Hself as (-> & -> & Hm & Hh). rewrite (alter_absent f k m Hm). by split_and!.
  - by apply (runs_use_or_put self (λ _, v)).
  - by apply runs_use_or_put.
  - destruct self as [e | key h e]; cbn [cache_put_entry].
    + destruct Hself as (v' & Hm & Hh). unfold cache_occupied_put, cache_occupied_get_mut. apply runs_bind, runs_bind.
      eapply runs_holding_get; [exact Hh | exact Hm |].
      eapply (runs_holding_set CACHE hash Hhash maximum_capacity kmax Hk Hmaximum); [exact Hh | exact Hm |].
      intros t' Hh'. apply runs_ret, runs_ret. rewrite Hm. apply runs_use_kept; [exact Hh' | apply lookup_insert_eq | exact Hb'].
    + destruct Hself as (-> & -> & Hm & Hh). rewrite Hm. by apply runs_use_put.
  - destruct self as [e | key h e].
    + destruct Hself as (v & Hm & Hh). rewrite Hm. eapply runs_mono; [| by eapply runs_cache_occupied].
      intros l t' [-> Hl]. eexists. split; [by split |]. exact (alive_up Hl).
    + destruct Hself as (-> & -> & Hm & Hh). rewrite Hm. by apply runs_cache_vacant.
Qed.

(** ** Scans *)

Lemma runs_scan_bucket {Y} (f : K → V → Y → Y) (y : Y) (c : nat) (lk : bool) (h : list K) (b : Bucket K V) m :
  bucket_ok CACHE hash c lk false m h b → (c < n)%nat → (size m < n)%nat →
  runs (while_next CACHE n (λ ptr s, let! kv := ptr_get ptr in Ret (ptr, f kv.1 kv.2 s)) y) b
    (λ r b', b' = b ∧ ∃ l, l ≡ₚ map_to_list m ∧ r = foldl (λ y kv, f kv.1 kv.2 y) y l).
Proof.
  intros (cs & O & M & Hwf & Hkey & Hcs & _) Hc Hm. set (l0 := values_at M (entries_at M (positions cs))).
  assert (Hl0 : l0 ≡ₚ map_to_list m).
  { rewrite <-(keyed_perm _ _ Hkey). apply values_at_perm; [by apply NoDup_filter, NoDup_positions, Hwf |].
    intros q kv Hq. apply elem_of_entries_at. split; [eauto | by eapply wf_positions]. }
  unfold while_next.
  eapply (runs_while_next_in CACHE (phash hash) (λ _ p, p) (λ s b, s = b)) with
    (I := λ todo _ M' s' b', b' = b ∧ M' = M ∧
       foldl (λ y kv, f kv.1 kv.2 y) y l0 = foldl (λ y kv, f kv.1 kv.2 y) s' (values_at M todo));
    [by intros ? ? ? ? ? -> | | | done | exact Hwf | lia | by rewrite <-(keyed_size _ _ Hkey) | done].
  - intros q todo ? b1 cs1 O1 M1 s1 l -> Hwf1 Hlen Ha Htodo Hnd [[k v] Hq] (-> & -> & Hfold). apply runs_bind.
    eapply runs_ptr_get_bind; [exact Hwf1 | exact Hq |]. apply runs_ret, runs_ret. cbn [fst snd].
    unfold values_at in Hfold. cbn [omap list_omap] in Hfold. rewrite Hq in Hfold. cbn [foldl fst snd] in Hfold.
    exists b, cs1, O1, M, l. by split_and!.
  - intros s1 b1 cs1 O1 M1 s2 -> Hwf1 Hlen (-> & -> & Hfold). split; [done |]. by exists l0.
Qed.

Lemma runs_cache_scan {Y} (f : K → V → Y → Y) (y : Y) I mn m t :
  alive I mn m t → budget I →
  runs (cache_scan hash n f y) t (λ r t', (∃ l, l ≡ₚ map_to_list m ∧ r = foldl (λ y kv, f kv.1 kv.2 y) y l) ∧ alive I mn m t').
Proof.
  intros (ins & outs & Hl) Hn. unfold cache_scan. set (foldf := foldl (λ (y : Y) (kv : K * V), f kv.1 kv.2 y)).
  eapply (runs_call _ _ _ (λ r t', match r with
    | Continue s => (∃ l, l ≡ₚ map_to_list m ∧ s = foldf y l) ∧ alive I mn m t' | Break _ => False end)).
  - eapply (runs_scan CACHE hash Hhash n maximum_capacity kmax Hk Hmaximum F reader_lock _ y (λ (e : nat) j s m' outs',
        m' = m ∧ outs' = outs ∧ ∃ ls, length ls = j ∧ (∀ i l, ls !! i = Some l → l ≡ₚ map_to_list (part hash e i m)) ∧ s = foldf y (concat ls)));
      [exact Hl | exact Hn | apply locks_reader_lock | | | |].
    + intros C j s1 m' outs' t' He Hj (-> & -> & ls & Hlen & Hls & Hs1) Hs.
      destruct (scan_same _ _ _ _ Hk _ _ _ _ _ _ _ _ _ _ Hs Hj) as (b & h & Hb & Hok & _).
      pose proof (at_scan_size _ _ _ _ _ _ _ _ _ _ _ _ _ Hs) as Hsz. pose proof (part_size hash (exp C) j m) as Hps.
      eapply (runs_read_bind _ _ _ _ _ b (λ r, ∃ l, l ≡ₚ map_to_list (part hash (exp C) j m) ∧ r = foldf s1 l)).
      { exact Hb. }
      { eapply runs_scan_bucket; [exact Hok | by destruct Hn | destruct Hn; lia]. }
      intros r (l & Hperm & Hr).
      eapply runs_call; [by eapply (runs_unlock_scan CACHE hash maximum_capacity kmax Hk F) |].
      intros u t2 Hs2. apply runs_ret. exists m, outs. split; [| exact Hs2]. split; [done |]. split; [done |]. exists (ls ++ [l]).
      split; [rewrite length_app; cbn; lia |]. split.
      * intros i l' [Hi | [Hi Hi']]%lookup_app_Some; [by apply Hls |].
        apply list_lookup_singleton_Some in Hi' as [Hi0 <-]. by replace i with j by lia.
      * rewrite Hr, Hs1. unfold foldf. rewrite concat_app, foldl_app. cbn [concat]. by rewrite app_nil_r.
    + intros ex s1 m' outs' t' He (-> & -> & ls & Hlen & Hls & ->) Hl'. split; [| by exists ins, outs]. exists (concat ls).
      split; [| done]. rewrite (asked_perm hash kmax Hk ex (2 ^ ex) m) by done. by apply (parts_all hash Hhash kmax).
    + intros ex. split; [done |]. split; [done |]. exists []. split; [done |]. split; [by intros i l; rewrite lookup_nil |]. done.
    + intros ->. split; [| by exists ins, outs]. exists []. by rewrite map_to_list_empty.
  - intros [s | x] t' Hr; [done |]. by apply runs_ret.
Qed.

(** ** One operation *)

Lemma runs_cache_remove_if k (c : V → bool * V) I mn m t :
  alive I mn m t → budget I →
  runs (cache_remove_if hash maximum_capacity n k c) t (λ r t', ∃ m',
    cache_spec hash (CRemoveIf k c) m (XEntry r) m' ∧ alive I mn m' t').
Proof.
  intros Hal Hb. unfold cache_remove_if. eapply runs_call; [by apply runs_get_promoted |]. intros o t1 Ho. cbn [cache_spec].
  destruct (m !! k) as [v |] eqn:Hm.
  2:{ destruct Ho as [-> Hal1]. apply runs_ret. exists m. by split_and!. }
  destruct Ho as (e & -> & Hh). unfold cache_occupied_get_mut. apply runs_bind.
  eapply runs_holding_get; [exact Hh | exact Hm |]. cbv zeta. cbn [fst snd].
  eapply (runs_holding_set CACHE hash Hhash maximum_capacity kmax Hk Hmaximum); [exact Hh | exact Hm |].
  intros t2 Hh2. apply runs_ret. assert (Hm2 : <[k := (c v).2]> m !! k = Some (c v).2) by apply lookup_insert_eq.
  destruct (c v).1.
  - eapply runs_cache_remove_entry; [exact Hh2 | exact Hm2 | exact Hb |]. intros t3 Hal3. apply runs_ret.
    rewrite delete_insert_eq in Hal3. eexists. by split.
  - eapply (runs_holding_drop CACHE hash Hhash maximum_capacity kmax Hk Hmaximum F k); [exact Hh2 |]. intros t3 Hal3. apply runs_ret.
    eexists. by split.
Qed.

Lemma runs_cache_put k v I mn m t :
  alive I mn m t → budget (S I) →
  runs (cache_put hash maximum_capacity n k v) t (λ r t', ∃ m',
    cache_spec hash (CPut k v) m (XPut r) m' ∧ alive (S I) mn m' t').
Proof.
  intros (ins & outs & Hl) Hb. assert (Hb' : budget I) by (destruct Hb; split; lia). unfold cache_put. cbn [cache_spec].
  eapply runs_call; [by eapply (runs_reserve_entry CACHE hash Hhash n maximum_capacity kmax Hk Hmaximum F k) |].
  intros r t' (e & C & -> & Hr). rewrite (reserved_valid _ _ _ _ _ _ _ _ _ _ _ _ _ Hr).
  assert (Hh : holding k e I mn m t') by (by exists C, ins, outs).
  destruct (m !! k) as [v' |] eqn:Hm.
  - rewrite bool_decide_true by eauto.
    eapply (runs_holding_drop CACHE hash Hhash maximum_capacity kmax Hk Hmaximum F k); [exact Hh |].
    intros t2 Hal. apply runs_ret. exists m. split; [done |]. exact (alive_up Hal).
  - rewrite bool_decide_false by (by intros [? ?]).
    eapply (runs_put_locked k v e I mn m t' (λ r e', drop_entry e' ;; Ret (inl r))); [exact Hh | exact Hm | exact Hb |].
    intros r m' e' t2 Hput _ _ _ Hh'.
    eapply (runs_holding_drop CACHE hash Hhash maximum_capacity kmax Hk Hmaximum F k); [exact Hh' |].
    intros t3 Hal. apply runs_ret. exists m'. split; [by exists r | exact Hal].
Qed.

Lemma runs_cache_apply (op : cache_op K V) I mn m t :
  alive I mn m t → budget (S I) →
  runs (cache_apply hash maximum_capacity n op) t (λ r t', ∃ m', cache_spec hash op m r m' ∧ alive (S I) mn m' t').
Proof.
  intros Hal Hb. assert (Hb' : budget I) by (destruct Hb; split; lia). pose proof Hal as (ins & outs & Hl).
  assert (Hend : ∀ m' t' ins' outs', live CACHE hash maximum_capacity F I mn m' ins' outs' t' → alive (S I) mn m' t').
  { intros m' t' ins' outs' Hl'. eapply alive_mono; [by exists ins', outs' | lia]. }
  destruct op as [k v | k | k c | k f | k | k u | k u | | p | p | | |]; cbn [cache_apply].
  - eapply runs_call; [by apply runs_cache_put |]. intros r t' Hr. by apply runs_ret.
  - unfold cache_remove. eapply runs_call; [by apply runs_cache_remove_if |]. intros r t' (m' & Hspec & Hal'). apply runs_ret.
    exists m'. split; [| exact (alive_up Hal')]. cbn [cache_spec] in *.
    destruct (m !! k) as [v |] eqn:Hm; cbn [fst snd] in Hspec; [exact Hspec |]. destruct Hspec as [-> ->]. by rewrite delete_id.
  - eapply runs_call; [by apply runs_cache_remove_if |]. intros r t' (m' & Hspec & Hal'). apply runs_ret.
    exists m'. split; [exact Hspec | exact (alive_up Hal')].
  - unfold cache_read. apply runs_bind.
    eapply runs_call; [by eapply (runs_read_entry CACHE hash Hhash n maximum_capacity kmax Hk Hmaximum F k) |].
    intros r t' [-> Hl']. apply runs_ret, runs_ret. exists m. split; [| by eapply Hend]. cbn. by destruct (m !! k).
  - unfold cache_contains, cache_read. apply runs_bind, runs_bind.
    eapply runs_call; [by eapply (runs_read_entry CACHE hash Hhash n maximum_capacity kmax Hk Hmaximum F k) |].
    intros r t' [-> Hl']. do 3 apply runs_ret. exists m. split; [| by eapply Hend]. cbn. by destruct (m !! k).
  - eapply runs_call; [by apply runs_get_promoted |]. intros o t' Ho. cbn [cache_spec]. destruct (m !! k) as [v |] eqn:Hm.
    + destruct Ho as (e & -> & Hh). eapply runs_call; [by eapply runs_cache_occupied |]. intros r t2 [-> Hl2]. apply runs_ret.
      eexists. split; [by split |]. exact (alive_up Hl2).
    + destruct Ho as [-> Hal']. apply runs_ret. exists m. split; [done | exact (alive_up Hal')].
  - eapply runs_call; [by apply runs_cache_entry |]. intros self t' Hself.
    eapply runs_call; [by apply (runs_cache_use_entry u self k I mn m) |]. intros r t2 (m' & Hspec & Hl2). apply runs_ret.
    exists m'. split; [by exists r | exact Hl2].
  - eapply runs_call; [by apply runs_cache_scan |]. intros r t' [(l & Hl0 & ->) Hal']. apply runs_ret.
    exists m. split; [| exact (alive_up Hal')]. exists l. split; [| done]. by rewrite foldl_collect.
  - eapply runs_call; [by eapply (runs_any_entry CACHE hash Hhash n maximum_capacity kmax Hk Hmaximum F) |].
    intros r t' [(l & Hp & ->) Hl']. apply runs_ret. exists m. split; [| by eapply Hend].
    cbn. by rewrite ask_any, (existsb_perm _ _ _ Hp).
  - eapply runs_call; [by eapply (runs_retain_entries CACHE hash Hhash n maximum_capacity kmax Hk Hmaximum F) |].
    intros r t' Hl'. apply runs_ret. eexists. split; [done |]. eapply Hend; exact Hl'.
  - eapply runs_call; [by eapply (runs_retain_entries CACHE hash Hhash n maximum_capacity kmax Hk Hmaximum F) |].
    intros r t' Hl'. apply runs_ret. rewrite map_imap_none in Hl'. exists ∅. split; [done |]. eapply Hend; exact Hl'.
  - eapply runs_call; [by eapply (runs_table_num_entries CACHE hash Hhash n maximum_capacity kmax Hk Hmaximum F) |].
    intros r t' [-> Hl']. apply runs_ret. exists m. split; [done |]. eapply Hend; exact Hl'.
  - unfold cache_is_empty. apply runs_bind.
    eapply runs_call; [by eapply (runs_has_entry CACHE hash Hhash n maximum_capacity kmax Hk Hmaximum F) |].
    intros r t' [-> Hl']. apply runs_ret, runs_ret. exists m. split; [| eapply Hend; exact Hl'].
    cbn. split; [| done]. f_equal. rewrite <-bool_decide_not. apply bool_decide_ext. destruct (decide (m = ∅)); tauto.
Qed.

(** ** Programs *)

Lemma runs_cache_trace (ops : list (cache_op K V)) I mn m t :
  alive I mn m t → budget (length ops + I) →
  runs (cache_trace hash maximum_capacity n ops) t (λ l t', ∃ m', cache_steps hash ops m l m' ∧ alive (length ops + I) mn m' t').
Proof.
  revert I m t. induction ops as [| op ops IH]; intros I m t Hal Hb; cbn [cache_trace length Nat.add] in *.
  - apply runs_ret. exists m. split; [constructor | exact Hal].
  - eapply runs_call; [apply (runs_cache_apply op I mn m t Hal); destruct Hb; split; lia |].
    intros r t1 (m1 & Hspec & Hal1). eapply runs_call; [apply (IH (S I) _ _ Hal1); by rewrite Nat.add_succ_r |].
    intros l t2 (m2 & Hsteps & Hal2). apply runs_ret. exists m2. rewrite Nat.add_succ_r in Hal2.
    split; [by econstructor | exact Hal2].
Qed.
End Spec.

(** ** What a hash cache promises

    The theorems on [HashCache], from its creation on: programs answer what they would on a
    finite map from which the insertions may evict entries.  The order of use of the entries
    does not survive a resize. *)

(** The maximum capacity is a power of two between 64 and 2^63, and not below the minimum
    one. *)
Lemma cache_maximum (minimum_capacity maximum : Z) : minimum_capacity ≤ 2 ^ 63 →
  ∃ kmax, 6 ≤ kmax ≤ 63 ∧ cache_maximum_capacity minimum_capacity maximum = 2 ^ kmax ∧ minimum_capacity ≤ 2 ^ kmax ∧
    Z.min maximum (2 ^ 63) ≤ 2 ^ kmax.
Proof.
  intros Hm. unfold cache_maximum_capacity, next_power_of_two. change array_minimum_capacity with 64. change (one_shl 63) with (2 ^ 63).
  set (x := Z.min (Z.max (Z.max maximum minimum_capacity) 64) (2 ^ 63)).
  assert (Hx : 64 ≤ x ≤ 2 ^ 63) by lia. exists (Z.log2_up x).
  assert (x ≤ 2 ^ Z.log2_up x) by (apply Z.log2_log2_up_spec; lia).
  split; [| split; [done |]; lia]. split.
  - change 6 with (Z.log2_up 64). apply Z.log2_up_le_mono. lia.
  - change 63 with (Z.log2_up (2 ^ 63)). apply Z.log2_up_le_mono. lia.
Qed.

Section Props.
Context {K V : Type} `{Countable K} (hash : K → Z) (Hhash : ∀ k, in_word 64 (hash k)) (n : nat) (mem : Memory).

Definition cache_program (minimum maximum : Z) (ops : list (cache_op K V)) : prog (Table K V) (Z * list (cache_res K V)) :=
  let! maximum_capacity := cache_with_capacity minimum maximum in
  let! l := cache_trace hash maximum_capacity n ops in
  Ret (maximum_capacity, l).

Lemma runs_cache_program (minimum maximum : Z) (ops : list (cache_op K V)) :
  (S (length ops) < n)%nat → Z.of_nat (S (length ops)) ≤ u32_max →
  runs (cache_program minimum maximum ops) (table_new mem 0) (λ r t, ∃ m,
    r.1 = cache_maximum_capacity (table_base minimum) maximum ∧ cache_steps hash ops ∅ r.2 m).
Proof.
  intros Hn Hmax. destruct (cache_maximum (table_base minimum) maximum) as (kmax & Hk & Heq & Hbase & _).
  { apply table_base_range. }
  unfold cache_program, cache_with_capacity. apply runs_bind.
  eapply runs_call; [apply (runs_with_capacity CACHE hash (2 ^ kmax) kmax Hk eq_refl mem minimum Hbase) |].
  intros [] t (ins & outs & Hl). apply runs_load. rewrite (live_minimum _ _ _ _ _ _ _ _ _ _ Hl). apply runs_ret.
  rewrite Heq. eapply runs_call.
  { apply (runs_cache_trace hash Hhash (2 ^ kmax) kmax Hk eq_refl n (floor_of (table_base minimum)) ops 0 (table_base minimum) ∅ t); [by exists ins, outs | split; lia]. }
  intros l t2 (m & Hsteps & _). apply runs_ret. by exists m.
Qed.

(** C3. A cache is a map that forgets.  Any program that creates a [HashCache] and calls its
    functions, handles included, returns without a panic, and its answers are those of the
    same program on a finite map in which an insertion may delete one entry: only an entry of
    the bucket of the new key, and only when 32 entries belong there.  [remove], [retain],
    [get] and the rest lose nothing, and the entries that are evicted are handed back.  A
    cache has no reservations; the conditions are that there are fewer than [2 ^ 32] calls
    and that no array is refused to the run for want of memory ([served]). *)
Theorem hash_cache_refines_map (minimum maximum : Z) (ops : list (cache_op K V))
    (Hn : (S (length ops) < n)%nat) (Hmax : Z.of_nat (S (length ops)) ≤ u32_max)
    (Hmem : served (cache_program minimum maximum ops) (table_new mem 0) = true) :
  ∃ l t m, run (cache_program minimum maximum ops) (table_new mem 0) =
      Done (cache_maximum_capacity (table_base minimum) maximum, l) t ∧ cache_steps hash ops ∅ l m.
Proof.
  destruct (runs_returns _ _ _ (runs_cache_program minimum maximum ops Hn Hmax) Hmem) as ([x l] & t & Hrun & m & Hx & Hsteps).
  cbn [fst snd] in *. subst x. by exists l, t, m.
Qed.
End Props.

(** ** The order of use *)

(** 32 entries of one bucket: the last of them enlarges the table. *)
Definition fill : list (cache_op Z Z) := (λ i, CPut (Z.of_nat i) (Z.of_nat i)) <$> seq 0 32.

(** The memory of the examples: the buckets of a cache have an LRU list. *)
Definition cache_memory : Memory.
Proof.
  refine {| bucket_size := 128; data_block_size := 512; data_block_align := 8;
            alloc_zeroed := λ _ size _, plentiful_address size; alloc := λ _ size _, plentiful_address size |}.
  - by right.
  - lia.
  - intros _ size _. apply plentiful_range.
Defined.

(** The answers of a program on a cache whose keys are their own hash values. *)
Definition cache_answers (n : nat) (ops : list (cache_op Z Z)) : option (list (cache_res Z Z)) :=
  match run (cache_program (wrap 64) n 0 1024 ops) (table_new cache_memory 0) with Done r _ => Some r.2 | _ => None end.

(** C30. The entries of a full bucket lose their order when the table is enlarged, shown in
    one configuration: a new cache with keys [0] to [31] that all belong to one bucket, for
    each choice of the key that is read. 32 entries are put into a cache, and the last put
    has it enlarged; then one of them is read through [get], and a new one is put: the entry
    that was just read is evicted, and the other 31, none of which was used since, stay.
    The next put evicts the one that was just put. *)
Theorem cache_evicts_used_entry (k : Z) : 0 ≤ k < 32 →
  cache_answers 100 (fill ++ [CGet k ODrop; CPut 100 0; CPut 101 1; CAny (λ x _, x =? k); CLen]) =
    Some (replicate 32 (XPut (inl None)) ++
      [XEvents (Some []); XPut (inl (Some (k, k))); XPut (inl (Some (100, 0))); XBool false; XNumber 32]).
Proof.
  intros Hk. assert (Hin : k ∈ Z.of_nat <$> seq 0 32).
  { apply list_elem_of_fmap. exists (Z.to_nat k). split; [lia |]. apply elem_of_seq. lia. }
  cbn [seq fmap list_fmap] in Hin. clear Hk.
  repeat (apply elem_of_cons in Hin as [-> | Hin]; [vm_compute; reflexivity |]). by apply not_elem_of_nil in Hin.
Qed.

(** ** The theorems at work *)

(** Every kind of handle, and evictions. *)
Definition cache_demo : list (cache_op Z Z) :=
  fill ++ [CPut 3 9; CEntry 3 (UKey (UAndModify (λ v, v + 1) (UOrInsert 0 (OGet (OInsert 7 ODrop)))));
    CEntry 40 (UOrInsertWithKey (λ k, k * 2) (OKey (OGet ODrop))); CEntry 41 (UMatch ORemove VIntoKey);
    CEntry 42 (UMatch ORemove (VInsertEntry 5 ORemoveEntry)); CRead 2 (λ k v, k + v); CRemoveIf 4 (λ v, (false, v + 1));
    CRemove 4; CRead 4 (λ k v, v); CRetain (λ k v, (k <? 3, v * 2)); CScan; CLen; CClear; CIsEmpty].

Lemma cache_evicts_used_entry_witness :
  0 ≤ 5 < 32 ∧ cache_answers 100 (fill ++ [CGet 5 ODrop; CPut 100 0; CPut 101 1; CAny (λ x _, x =? 5); CLen]) =
    Some (replicate 32 (XPut (inl None)) ++
      [XEvents (Some []); XPut (inl (Some (5, 5))); XPut (inl (Some (100, 0))); XBool false; XNumber 32]).
Proof. split; [lia |]. apply (cache_evicts_used_entry 5). lia. Defined.

Lemma hash_cache_refines_map_witness :
  drop 32 <$> cache_answers 100 cache_demo =
    Some [XPut (inr (3, 9)); XEvents (Some [EKey 3; EEvicted None; EVal 4; EVal 4]); XEvents (Some [EEvicted (Some (3, 7)); EKey 40; EVal 80]);
      XEvents (Some [EKey 41]); XEvents (Some [EEvicted (Some (40, 80)); EEntry 42 5]); XValue (Some 4); XEntry None;
      XEntry (Some (4, 5)); XValue None; XUnit; XEntries [(0, 0); (1, 2); (2, 4)]; XNumber 3; XUnit; XBool true] ∧
  ∃ l t m, run (cache_program (wrap 64) 100 0 1000 cache_demo) (table_new cache_memory 0) = Done (1024, l) t ∧
    cache_steps (wrap 64) cache_demo ∅ l m.
Proof.
  split; [vm_compute; reflexivity |].
  apply (hash_cache_refines_map (wrap 64) (in_word_wrap 64) 100 cache_memory 0 1000 cache_demo); [by vm_compute; lia | by vm_compute | vm_compute; reflexivity].
Defined.
