(* ===== verification/HashIndex.v ===== *)
(** * The hash index: [src/hash_index.rs]

    [HashIndex] is the hash table with buckets of the type [OPTIMISTIC]: readers take no lock,
    so an entry that is removed or replaced keeps its slot until the bucket is dropped, and a
    resize leaves clones of the entries in the old array.  An [Iter] goes through the buckets
    without locking them.  The synchronous functions are modelled as a thread alone runs
    them. *)
From S2P Require Import Prelude Atomic Tag Lru Bucket BucketArray HashTable.

Local Open Scope Z_scope.

(** [HashIndex::maximum_capacity] *)
Definition index_maximum_capacity : Z := one_shl 63.

(** An [OccupiedEntry] is its [LockedEntry]. *)
Inductive IndexEntry {K : Type} : Type :=
  | IndexOccupied (locked_entry : LockedEntry)
  | IndexVacant (key : K) (hash : Z) (locked_entry : LockedEntry).

Arguments IndexEntry : clear implicits.

Section HashIndex.
Context {K V : Type} `{EqDecision K} (hash : K → Z) (n : nat).

(** [HashIndex::with_capacity_and_hasher] initialises a table that [with_hasher] would give. *)
Definition index_with_capacity (capacity : Z) : prog (Table K V) unit :=
  if capacity =? 0 then Ret ()
  else
    let! x := alloc_array capacity None in
    let! a := snapshot x in
    store set_bucket_array (Some x, Tag.None) ;;
    store set_minimum_capacity (array_num_entries a).

(** ** Handles *)

Definition index_entry (key : K) : prog (Table K V) (IndexEntry K) :=
  let! r := reserve_entry OPTIMISTIC hash index_maximum_capacity n key (hash key) in
  match r with
  | None => Panic
  | Some locked_entry =>
      if is_valid (entry_ptr locked_entry) then Ret (IndexOccupied locked_entry)
      else Ret (IndexVacant key (hash key) locked_entry)
  end.

Definition index_first_entry : prog (Table K V) (option LockedEntry) := lock_first_entry OPTIMISTIC hash n.

Definition index_get (key : K) : prog (Table K V) (option LockedEntry) :=
  let! r := get_entry OPTIMISTIC hash n key (hash key) in Ret (mjoin r).

(** [OccupiedEntry] *)
Definition index_occupied_entry (self : LockedEntry) : prog (Table K V) (K * V) :=
  at_bucket (locker self) (index self) (ptr_get (entry_ptr self)).

Definition index_occupied_key (self : LockedEntry) : prog (Table K V) K :=
  let! e := index_occupied_entry self in Ret e.1.

Definition index_occupied_get (self : LockedEntry) : prog (Table K V) V :=
  let! e := index_occupied_entry self in Ret e.2.

(** [get_mut], which is unsafe: what is done through the reference is [f]. *)
Definition index_occupied_get_mut {R} (self : LockedEntry) (f : V → V * R) : prog (Table K V) R :=
  let! e := index_occupied_entry self in
  at_bucket (locker self) (index self) (ptr_set (entry_ptr self) (f e.2).1) ;;
  Ret (f e.2).2.

Definition index_occupied_remove_entry (self : LockedEntry) : prog (Table K V) unit :=
  let! _ := at_bucket (locker self) (index self) (erase OPTIMISTIC (entry_ptr self)) in
  let! num := at_bucket (locker self) (index self) (load num_entries) in
  let! rebuild := at_bucket (locker self) (index self) (load (need_rebuild OPTIMISTIC)) in
  let! shrunk :=
    if (num <=? 1) || rebuild then
      let! p := load bucket_array in
      match p.1 with
      | None => Ret false
      | Some current =>
          let! a := snapshot current in
          if negb (has_old_array a) && within_sampling_range a (index self) then
            drop_entry self ;;
            try_shrink_or_rebuild OPTIMISTIC index_maximum_capacity n current (index self) ;;
            Ret true
          else Ret false
      end
    else Ret false in
  (if shrunk : bool then Ret () else drop_entry self) ;;
  Ret ().

(** The key is cloned; the entry is dropped at the end. *)
Definition index_occupied_update (self : LockedEntry) (val : V) : prog (Table K V) unit :=
  let! e := index_occupied_entry self in
  let! partial_hash := at_bucket (locker self) (index self) (ptr_partial_hash (entry_ptr self)) in
  let! _ := insert_with (λ R, at_bucket (locker self) (index self)) n partial_hash (Ret ((e.1, val), ())) in
  let! _ := at_bucket (locker self) (index self) (erase OPTIMISTIC (entry_ptr self)) in
  drop_entry self.

Definition index_occupied_next (self : LockedEntry) : prog (Table K V) (option LockedEntry) :=
  locked_entry_next OPTIMISTIC hash n self.

(** [VacantEntry::insert_entry] *)
Definition index_vacant_insert_entry (key : K) (hash : Z) (locked_entry : LockedEntry) (val : V) :
    prog (Table K V) LockedEntry :=
  let! r := insert_with (λ R, at_bucket (locker locked_entry) (index locked_entry)) n
              (partial_hash hash) (Ret ((key, val), ())) in
  Ret {| locker := locker locked_entry; index := index locked_entry; HashTable.entry_ptr := r.1 |}.

(** [VacantEntry::into_key] *)
Definition index_vacant_into_key (key : K) (locked_entry : LockedEntry) : prog (Table K V) K :=
  drop_entry locked_entry ;; Ret key.

(** [Entry] *)
Definition index_or_insert_with_key (self : IndexEntry K) (constructor : K → V) : prog (Table K V) LockedEntry :=
  match self with
  | IndexOccupied o => Ret o
  | IndexVacant key hash e => index_vacant_insert_entry key hash e (constructor key)
  end.

Definition index_or_insert_with (self : IndexEntry K) (constructor : unit → V) : prog (Table K V) LockedEntry :=
  index_or_insert_with_key self (λ _, constructor ()).

Definition index_or_insert (self : IndexEntry K) (val : V) : prog (Table K V) LockedEntry :=
  index_or_insert_with self (λ _, val).

Definition index_entry_key (self : IndexEntry K) : prog (Table K V) K :=
  match self with
  | IndexOccupied o => index_occupied_key o
  | IndexVacant key _ _ => Ret key
  end.

(** [and_modify], which is unsafe. *)
Definition index_and_modify (self : IndexEntry K) (f : V → V) : prog (Table K V) (IndexEntry K) :=
  match self with
  | IndexOccupied o => index_occupied_get_mut o (λ v, (f v, ())) ;; Ret (IndexOccupied o)
  | IndexVacant _ _ _ => Ret self
  end.

(** The drop of an [Entry]. *)
Definition index_entry_drop (self : IndexEntry K) : prog (Table K V) unit :=
  match self with
  | IndexOccupied e | IndexVacant _ _ e => drop_entry e
  end.

(** ** The index *)

Definition index_insert (key : K) (val : V) : prog (Table K V) (unit + K * V) :=
  let! r := insert_entry OPTIMISTIC hash index_maximum_capacity n key val (hash key) in
  match r with
  | Some (Some kv) => Ret (inr kv)
  | _ => Ret (inl ())
  end.

(** Whether an entry was removed: nothing is handed back. *)
Definition index_remove_if (key : K) (condition : V → bool) : prog (Table K V) bool :=
  let! r := remove_entry OPTIMISTIC hash index_maximum_capacity n key (hash key) (λ v, (condition v, v)) in
  Ret (bool_decide (is_Some (mjoin r))).

Definition index_remove (key : K) : prog (Table K V) bool := index_remove_if key (λ _, true).

Definition index_peek (key : K) : prog (Table K V) (option V) :=
  let! r := read_entry OPTIMISTIC hash n key (hash key) in Ret (snd <$> mjoin r).

Definition index_peek_with {R} (key : K) (reader : K → V → R) : prog (Table K V) (option R) :=
  let! r := read_entry OPTIMISTIC hash n key (hash key) in
  Ret ((λ e, reader e.1 e.2) <$> mjoin r).

Definition index_contains (key : K) : prog (Table K V) bool :=
  let! r := index_peek_with key (λ _ _, ()) in Ret (bool_decide (is_Some r)).

Definition index_retain (pred : K → V → bool) : prog (Table K V) unit :=
  retain_entries OPTIMISTIC hash index_maximum_capacity n (λ k v, (pred k v, v)).

Definition index_clear : prog (Table K V) unit := index_retain (λ _ _, false).

Definition index_len : prog (Table K V) Z := table_num_entries OPTIMISTIC index_maximum_capacity n.

Definition index_is_empty : prog (Table K V) bool :=
  let! r := has_entry OPTIMISTIC index_maximum_capacity n in Ret (negb r).

Definition index_capacity : prog (Table K V) Z := num_slots.

Definition index_capacity_range : prog (Table K V) (Z * Z) :=
  let! minimum_capacity := load minimum_capacity in Ret (minimum_capacity, index_maximum_capacity).

(** ** Reservations *)

(** The field [additional] of the [Reserve]. *)
Definition index_reserve (additional_capacity : Z) : prog (Table K V) (option Z) :=
  let! additional := reserve_capacity OPTIMISTIC index_maximum_capacity n additional_capacity in
  if additional =? 0 then Ret None else Ret (Some additional).

(** [impl Drop for Reserve] *)
Definition index_reserve_drop (additional : Z) : prog (Table K V) unit :=
  let! result := fetch_modify minimum_capacity set_minimum_capacity (λ x, wrap 64 (x - additional)) in
  try_resize OPTIMISTIC index_maximum_capacity n 0 ;;
  dassert (additional <=? result).
End HashIndex.

(** ** Iterators *)

(** A reference to a bucket is its array and its index there. *)
Record Iter : Type := {
  current_array : option nat;
  current_index : nat;
  current_bucket : option (nat * nat);
  current_entry_ptr : EntryPtr
}.

(** [HashIndex::iter] *)
Definition index_iter : Iter :=
  {| current_array := None; current_index := 0; current_bucket := None; current_entry_ptr := entry_ptr_new |}.

Section Iter.
Context {K V : Type} (n : nat).

(** [array.bucket(index)] asserts that there is one. *)
Definition bucket_of (array index : nat) : prog (Table K V) (nat * nat) :=
  let! a := snapshot array in
  dassert (index <? num_buckets a)%nat ;;
  Ret (array, index).

(** One turn of the loop of [Iterator::next]: the next entry of the bucket, or the step to
    the next bucket. *)
Definition index_iter_step (s : nat * Iter) : prog (Table K V) (flow (nat * Iter) (option (K * V) * Iter)) :=
  let array := s.1 in
  let self := s.2 in
  let! r :=
    match current_bucket self with
    | Some bucket =>
        let! r := at_bucket bucket.1 bucket.2 (next OPTIMISTIC n (current_entry_ptr self)) in
        if r.1 : bool then
          let! e := at_bucket array (current_index self) (ptr_get r.2) in
          Ret (Some e, {| current_array := current_array self; current_index := current_index self;
                          current_bucket := Some bucket; current_entry_ptr := r.2 |})
        else
          Ret (None, {| current_array := current_array self; current_index := current_index self;
                        current_bucket := None; current_entry_ptr := r.2 |})
    | None => Ret (None, self)
    end in
  match r.1 with
  | Some e => Ret (Break (Some e, r.2))
  | None =>
      let self := {| current_array := current_array r.2; current_index := S (current_index r.2);
                     current_bucket := current_bucket r.2; current_entry_ptr := current_entry_ptr r.2 |} in
      let! a := snapshot array in
      if (current_index self =? num_buckets a)%nat then
        let! p := load bucket_array in
        match p.1 with
        | None => Ret (Break (None, self))
        | Some current =>
            if decide (current_array self = Some current) then Ret (Break (None, self))
            else
              let! old_array := at_array current (load old_array) in
              let array :=
                if decide (current_array self = old_array) then current else default current old_array in
              let! bucket := bucket_of array 0 in
              Ret (Continue (array,
                {| current_array := Some array; current_index := 0;
                   current_bucket := Some bucket; current_entry_ptr := entry_ptr_new |}))
        end
      else
        let! bucket := bucket_of array (current_index self) in
        Ret (Continue (array,
          {| current_array := current_array self; current_index := current_index self;
             current_bucket := Some bucket; current_entry_ptr := entry_ptr_new |}))
  end.

(** [Iterator::next]: the loop runs once for every bucket that it leaves, [fuel] times at
    most. *)
Definition index_iter_next (fuel : nat) (self : Iter) : prog (Table K V) (option (K * V) * Iter) :=
  let! start :=
    match current_array self with
    | Some array => Ret (Some (array, self))
    | None =>
        let! p := load bucket_array in
        match p.1 with
        | None => Ret None
        | Some current =>
            let! old_array := at_array current (load old_array) in
            let array := default current old_array in
            let! bucket := bucket_of array 0 in
            Ret (Some (array,
              {| current_array := Some array; current_index := current_index self;
                 current_bucket := Some bucket; current_entry_ptr := entry_ptr_new |}))
        end
    end in
  match start with
  | None => Ret (None, self)
  | Some start => loop fuel index_iter_step start
  end.
End Iter.
