(* ===== verification/IndexIter.v ===== *)
(** * Iterators of a hash index

    An [Iter] goes through the old array, if there is one, and through the current one,
    bucket by bucket.  On a table that stays as it is, every entry is met once; the table is
    only read. *)
From S2P Require Import Prelude Atomic Tag Lru Bucket BucketInv BucketQuery BucketOps BucketSpec BucketLinks BucketDrop BucketIter BucketProps BucketArray Rehash HashTable TableInv TableRelocate TableRehash TableResize TableOps TableKey TableScan TableEntry TableIter HashIndex.

Local Open Scope Z_scope.

(** The number of buckets of the arrays that an iterator visits. *)
Definition num_visited {K V} (t : Table K V) : nat :=
  match (bucket_array t).1 with
  | None => O
  | Some x =>
      match arrays t !! x with
      | None => O
      | Some a => (num_buckets a + from_option num_buckets O (old_array a ≫= λ y, arrays t !! y))%nat
      end
  end.

Section Iter.
Context {K V : Type} `{Countable K} (hash : K → Z) (Hhash : ∀ k, in_word 64 (hash k)) (n : nat) {allow : Refuses (Table K V)}.
Context (maximum_capacity : Z) (kmax : Z) (Hk : 6 ≤ kmax ≤ 63) (Hmaximum : maximum_capacity = 2 ^ kmax) (F : Z).

Implicit Types (A Ao B m mb : gmap K V) (b : Bucket K V) (t : Table K V) (C : config) (y e j I c : nat) (w mn : Z)
  (h ins outs : list K) (kv : K * V) (rest after : list (K * V)) (M O : gmap pos (K * V)) (l : list pos) (it : Iter).

Local Notation wf := (wf OPTIMISTIC (phash hash)).
Local Notation part := (part hash).
Local Notation tail := (tail hash).
Local Notation steady := (steady OPTIMISTIC hash maximum_capacity F).
Local Notation live := (live OPTIMISTIC hash maximum_capacity F).

(** The array that is being visited, its entries and those that come after it. *)
Inductive phase C A Ao : nat → nat → gmap K V → list (K * V) → nat → Prop :=
  | phase_old y : old C = Some y → phase C A Ao y (old_exp C) Ao (map_to_list A) (2 ^ exp C)
  | phase_cur : phase C A Ao (cur C) (exp C) A [] 0.

(** The entries of a bucket that are left at a pointer. *)
Definition left_at b mb (ptr : EntryPtr) rest : Prop :=
  ∃ cs O M l, wf b cs O M ∧ keyed M mb ∧ ahead cs ptr l ∧ NoDup (entries_at M l) ∧ rest = values_at M (entries_at M l).

(** The iterator is in the bucket [j] of the array [y], and [rest] is what it has to give;
    [turns] bounds the turns of the loop. *)
Definition visiting C A Ao y it rest (turns : nat) t : Prop :=
  ∃ e B after more b rest0, phase C A Ao y e B after more ∧ current_array it = Some y ∧ (current_index it < 2 ^ e)%nat ∧
    current_bucket it = Some (y, current_index it) ∧ get_bucket y (current_index it) t = Some b ∧
    left_at b (part e (current_index it) B) (current_entry_ptr it) rest0 ∧
    rest ≡ₚ rest0 ++ tail e (S (current_index it)) B ++ after ∧ (2 ^ e - current_index it + more ≤ turns)%nat.

(** The iterator is at the end. *)
Definition finished C it : Prop :=
  current_array it = Some (cur C) ∧ current_index it = (2 ^ exp C)%nat ∧ current_bucket it = None.

Lemma phase_array C A Ao D w I mn m ins outs t y e B after more :
  steady C ∅ ∅ D A Ao w I mn m ins outs t → phase C A Ao y e B after more → ∃ a, arrays t !! y = Some a ∧ shape a e.
Proof.
  intros Hs Hp. pose proof (st_tab _ _ _ _ _ _ _ _ _ _ _ _ _ _ _ _ _ Hs) as Ht. destruct Hp as [y Ho |].
  - destruct (tab_old_array _ _ Ht y Ho) as (a & Ha & Hsh & _). by exists a.
  - destruct (tab_array _ _ Ht) as (a & Ha & Hsh & _). by exists a.
Qed.

Lemma phase_bucket C A Ao D w I mn m ins outs t y e B after more j :
  steady C ∅ ∅ D A Ao w I mn m ins outs t → phase C A Ao y e B after more → (j < 2 ^ e)%nat →
  ∃ b c lk kl h, get_bucket y j t = Some b ∧ bucket_ok OPTIMISTIC hash c lk kl (part e j B) h b ∧ (c ≤ I)%nat.
Proof.
  intros Hs Hp Hj. pose proof (st_tab _ _ _ _ _ _ _ _ _ _ _ _ _ _ _ _ _ Hs) as Ht. destruct Hp as [y Ho |].
  - destruct (tab_old _ _ Ht y j Ho Hj) as (b & h & Hb & Hok & _). eexists b, _, _, _, h. split; [done |]. split; [exact Hok | done].
  - destruct (tab_cur _ _ Ht j Hj) as (b & h & Hb & Hok & _). eexists b, _, _, _, h. split; [done |]. split; [exact Hok | lia].
Qed.

(** The start of a bucket. *)
Lemma left_at_new c lk kl mb h b :
  bucket_ok OPTIMISTIC hash c lk kl mb h b → ∃ rest, left_at b mb entry_ptr_new rest ∧ rest ≡ₚ map_to_list mb.
Proof.
  intros (cs & O & M & Hwf & Hkey & _). exists (values_at M (entries_at M (positions cs))). split.
  - exists cs, O, M, (positions cs). split; [exact Hwf |]. split; [exact Hkey |]. split; [apply ahead_new |].
    split; [by apply NoDup_filter, NoDup_positions, Hwf | done].
  - rewrite <-(keyed_perm _ _ Hkey). apply values_at_perm; [by apply NoDup_filter, NoDup_positions, Hwf |].
    intros q kv Hq. apply elem_of_entries_at. split; [eauto | by eapply wf_positions].
Qed.

Lemma visit_bucket C A Ao D w I mn m ins outs t y e B after more j :
  steady C ∅ ∅ D A Ao w I mn m ins outs t → phase C A Ao y e B after more → (j < 2 ^ e)%nat →
  visiting C A Ao y {| current_array := Some y; current_index := j; current_bucket := Some (y, j); current_entry_ptr := entry_ptr_new |}
    (tail e j B ++ after) (2 ^ e - j + more) t.
Proof.
  intros Hs Hp Hj. destruct (phase_bucket _ _ _ _ _ _ _ _ _ _ _ _ _ _ _ _ _ Hs Hp Hj) as (b & c & lk & kl & h & Hb & Hok & _).
  destruct (left_at_new _ _ _ _ _ _ Hok) as (rest0 & Hleft & Hperm). exists e, B, after, more, b, rest0. cbn [HashIndex.current_array HashIndex.current_index HashIndex.current_bucket HashIndex.current_entry_ptr].
  do 6 (split; [done |]). split; [| lia]. rewrite (tail_cons hash kmax Hk e j B) by done. by rewrite Hperm, <-app_assoc.
Qed.

Lemma runs_bucket_of C A Ao D w I mn m ins outs t y e B after more j {R} (next : nat * nat → prog (Table K V) R) Q :
  steady C ∅ ∅ D A Ao w I mn m ins outs t → phase C A Ao y e B after more → (j < 2 ^ e)%nat →
  runs (next (y, j)) t Q → runs (let! r := bucket_of y j in next r) t Q.
Proof.
  intros Hs Hp Hj Hn. destruct (phase_array _ _ _ _ _ _ _ _ _ _ _ _ _ _ _ _ Hs Hp) as (a & Ha & Hsh). unfold bucket_of.
  apply runs_bind. eapply runs_snapshot; [exact Ha |]. apply runs_dassert; [| by apply runs_ret].
  apply Nat.ltb_lt. unfold num_buckets. by rewrite (sh_len _ _ Hsh).
Qed.

(** One turn, in a bucket. *)
Lemma runs_left_next b mb ptr rest c lk kl h :
  left_at b mb ptr rest → bucket_ok OPTIMISTIC hash c lk kl mb h b → (c < n)%nat →
  runs (next OPTIMISTIC n ptr) b (λ r b', b' = b ∧
    match rest with
    | [] => r.1 = false
    | kv :: rest' => r.1 = true ∧ left_at b mb r.2 rest' ∧ runs (ptr_get r.2) b (λ r b', b' = b ∧ r = kv)
    end).
Proof.
  intros (cs & O & M & l & Hwf & Hkey & Ha & Hnd & ->) Hok Hc.
  destruct (bucket_ok_wf _ _ _ _ _ _ _ _ _ _ _ Hok Hwf) as (_ & Hcs & _).
  eapply runs_mono; [| eapply runs_next; [exact Hwf | exact Ha | lia]].
  intros r b' [-> Hr]. split; [done |]. unfold next_post in Hr. destruct (entries_at M l) as [| q l'] eqn:Hl.
  - by destruct Hr.
  - destruct Hr as (-> & -> & l'' & Ha' & <-).
    assert (Hq : q ∈ entries_at M l) by (rewrite Hl; left). apply elem_of_entries_at in Hq as [[kv Hq] _].
    unfold values_at. cbn [omap list_omap]. rewrite Hq. split; [done |]. apply NoDup_cons in Hnd as [_ Hnd]. split.
    + by exists cs, O, M, l''.
    + eapply runs_mono; [| by eapply (runs_ptr_get OPTIMISTIC (phash hash))]. by intros r0 b' [-> ->].
Qed.

(** What [next] answers. *)
Definition next_answer C A Ao rest (turns : nat) t (r : option (K * V) * Iter) : Prop :=
  match r.1 with
  | Some kv => ∃ rest' y, rest ≡ₚ kv :: rest' ∧ visiting C A Ao y r.2 rest' turns t
  | None => rest = [] ∧ finished C r.2
  end.

Lemma next_answer_perm C A Ao rest rest' turns t r :
  rest ≡ₚ rest' → next_answer C A Ao rest' turns t r → next_answer C A Ao rest turns t r.
Proof.
  intros Hp. unfold next_answer. destruct r.1 as [kv |].
  - intros (rest2 & y & Hp2 & Hv). exists rest2, y. split; [by rewrite Hp | exact Hv].
  - intros [-> Hf]. split; [| exact Hf]. by apply Permutation_nil.
Qed.

Lemma visiting_mono C A Ao y it rest turns turns' t :
  visiting C A Ao y it rest turns t → (turns ≤ turns')%nat → visiting C A Ao y it rest turns' t.
Proof.
  intros (e & B & after & more & b & rest0 & Hp & Hy & Hj & Hbk & Hb & Hleft & Hrest & Hturns) Hle.
  exists e, B, after, more, b, rest0. do 7 (split; [done |]). lia.
Qed.

Lemma next_answer_mono C A Ao rest turns turns' t r :
  (turns ≤ turns')%nat → next_answer C A Ao rest turns t r → next_answer C A Ao rest turns' t r.
Proof.
  intros Hle. unfold next_answer. destruct r.1 as [kv |]; [| done]. intros (rest2 & y & Hp2 & Hv). exists rest2, y.
  split; [done |]. by eapply visiting_mono.
Qed.

(** One turn of the loop. *)
Lemma runs_iter_step C A Ao D w I mn m ins outs t y it rest turns :
  steady C ∅ ∅ D A Ao w I mn m ins outs t → visiting C A Ao y it rest turns t → (I < n)%nat →
  runs (index_iter_step n (y, it)) t (λ r t', t' = t ∧
    match r with
    | Break r => next_answer C A Ao rest turns t r
    | Continue s => ∃ turns', (turns' < turns)%nat ∧ visiting C A Ao s.1 s.2 rest turns' t
    end).
Proof.
  intros Hs (e & B & after & more & b & rest0 & Hp & Hy & Hj & Hbk & Hb & Hleft & Hrest & Hturns) Hn.
  destruct (phase_bucket _ _ _ _ _ _ _ _ _ _ _ _ _ _ _ _ _ Hs Hp Hj) as (b' & c & lk & kl & h & Hb' & Hok & Hc).
  assert (b' = b) as -> by congruence. unfold index_iter_step. cbn [fst snd]. rewrite Hbk. cbn [fst snd]. apply runs_bind.
  eapply runs_read_bind; [exact Hb | eapply runs_left_next; [exact Hleft | exact Hok | lia] |].
  intros r Hr. destruct rest0 as [| kv rest0].
  2:{ destruct Hr as (-> & Hleft' & Hget). eapply runs_read_bind; [exact Hb | exact Hget |]. intros kv' ->.
      apply runs_ret. cbn [fst snd]. apply runs_ret. split; [done |]. unfold next_answer. cbn [fst snd].
      exists (rest0 ++ tail e (S (current_index it)) B ++ after), y. split; [exact Hrest |].
      exists e, B, after, more, b, rest0. cbn [HashIndex.current_array HashIndex.current_index HashIndex.current_bucket HashIndex.current_entry_ptr].
      by do 7 (split; [done |]). }
  rewrite Hr. apply runs_ret. cbn [fst snd app] in *. rewrite Hy.
  destruct (phase_array _ _ _ _ _ _ _ _ _ _ _ _ _ _ _ _ Hs Hp) as (a & Ha & Hsh).
  eapply runs_snapshot; [exact Ha |].
  cbn [HashIndex.current_array HashIndex.current_index HashIndex.current_bucket HashIndex.current_entry_ptr].
  assert (Hnum : num_buckets a = (2 ^ e)%nat) by apply (sh_len _ _ Hsh). rewrite Hnum.
  destruct (Nat.eqb_spec (S (current_index it)) (2 ^ e)) as [Hend | Hne].
  - rewrite Hend, (tail_end hash e B) in Hrest. cbn [app] in Hrest. apply runs_load.
    pose proof (st_tab _ _ _ _ _ _ _ _ _ _ _ _ _ _ _ _ _ Hs) as Ht. rewrite (tab_ptr _ _ _ _ _ _ _ _ _ _ _ _ _ Ht). cbn [fst].
    destruct (tab_array _ _ Ht) as (ac & Hac & _ & Hoc & _). destruct Hp as [y Ho |].
    + rewrite decide_False by (intros [= ->]; by apply (tab_old_ne _ _ Ht _ Ho)).
      eapply runs_array_load; [exact Hac |]. rewrite Hoc, Ho, decide_True by done.
      pose proof (visit_bucket C A Ao D w I mn m ins outs t _ _ _ _ _ 0 Hs (phase_cur C A Ao)) as Hv.
      eapply (runs_bucket_of C A Ao); [exact Hs | apply phase_cur | |].
      { pose proof (Nat.pow_nonzero 2 (exp C)). lia. }
      apply runs_ret. split; [done |]. exists (2 ^ exp C - 0 + 0)%nat. split; [pose proof (Nat.pow_nonzero 2 (old_exp C)); lia |].
      cbn [fst snd]. assert (H0 : (0 < 2 ^ exp C)%nat) by (pose proof (Nat.pow_nonzero 2 (exp C)); lia).
      destruct (Hv H0) as (e2 & B2 & af2 & more2 & b2 & r2 & Hp2 & Hy2 & Hj2 & Hbk2 & Hb2 & Hl2 & Hr2 & Ht2).
      exists e2, B2, af2, more2, b2, r2. do 6 (split; [done |]). split; [| exact Ht2]. rewrite Hrest, <-Hr2, app_nil_r.
      symmetry. apply (tail_all hash Hhash F). by eapply (steady_exp OPTIMISTIC hash maximum_capacity kmax Hk Hmaximum).
    + rewrite decide_True by done. apply runs_ret. split; [done |]. unfold next_answer. cbn [fst snd].
      split; [by apply Permutation_nil |]. split; [done |]. by split.
  - assert (Hj' : (S (current_index it) < 2 ^ e)%nat) by lia.
    eapply (runs_bucket_of C A Ao); [exact Hs | exact Hp | exact Hj' |].
    apply runs_ret. split; [done |]. exists (2 ^ e - S (current_index it) + more)%nat. split; [lia |]. cbn [fst snd].
    pose proof (visit_bucket _ _ _ _ _ _ _ _ _ _ _ _ _ _ _ _ _ Hs Hp Hj') as (e2 & B2 & af2 & more2 & b2 & r2 & Hp2 & Hy2 & Hj2 & Hbk2 & Hb2 & Hl2 & Hr2 & Ht2).
    exists e2, B2, af2, more2, b2, r2. do 6 (split; [done |]). split; [by rewrite Hrest | exact Ht2].
Qed.

Lemma runs_iter_loop C A Ao D w I mn m ins outs t y it rest turns (fuel : nat) :
  steady C ∅ ∅ D A Ao w I mn m ins outs t → visiting C A Ao y it rest turns t → (I < n)%nat → (turns < fuel)%nat →
  runs (loop fuel (index_iter_step n) (y, it)) t (λ r t', t' = t ∧ next_answer C A Ao rest turns t r).
Proof.
  intros Hs Hv Hn. revert y it turns Hv. induction fuel as [| fuel IH]; intros y it turns Hv Hf; [lia |]. apply runs_loop.
  eapply runs_mono; [| by eapply runs_iter_step]. intros [[y' it'] | r] t' [-> Hr]; [| done].
  destruct Hr as (turns' & Hlt & Hv'). cbn [fst snd] in Hv'.
  eapply runs_mono; [| eapply IH; [exact Hv' | lia]]. intros r t' [-> Hr]. split; [done |]. eapply next_answer_mono; [| exact Hr]. lia.
Qed.

(** ** A whole iteration *)

(** [next] until it returns [None]: the entries, and the iterator at the end. *)
Definition drain_from (fuel : nat) (x : Iter * list (K * V)) (k : nat) : prog (Table K V) (list (K * V) * Iter) :=
  loop k (λ x : Iter * list (K * V),
    let! r := index_iter_next n fuel x.1 in
    match r.1 with
    | None => Ret (Break (x.2, r.2))
    | Some kv => Ret (Continue (r.2, x.2 ++ [kv]))
    end) x.

Definition drain (fuel : nat) : prog (Table K V) (list (K * V) * Iter) := drain_from fuel (index_iter, []) n.

Lemma runs_iter_next C A Ao D w I mn m ins outs t y it rest turns (fuel : nat) :
  steady C ∅ ∅ D A Ao w I mn m ins outs t → visiting C A Ao y it rest turns t → (I < n)%nat → (turns < fuel)%nat →
  runs (index_iter_next n fuel it) t (λ r t', t' = t ∧ next_answer C A Ao rest turns t r).
Proof.
  intros Hs Hv Hn Hf. pose proof Hv as (e & B & after & more & b & rest0 & _ & Hy & _). unfold index_iter_next. rewrite Hy.
  cbn [bind]. by eapply runs_iter_loop.
Qed.

Lemma runs_drain_from C A Ao D w I mn m ins outs t y it rest turns acc (fuel k : nat) :
  steady C ∅ ∅ D A Ao w I mn m ins outs t → visiting C A Ao y it rest turns t → (I < n)%nat → (turns < fuel)%nat →
  (length rest < k)%nat →
  runs (drain_from fuel (it, acc) k) t (λ r t', t' = t ∧ ∃ got : list (K * V), r.1 = acc ++ got ∧ got ≡ₚ rest ∧ finished C r.2).
Proof.
  intros Hs Hv Hn Hf. revert y it rest acc Hv. induction k as [| k IH]; intros y it rest acc Hv Hk'; [lia |].
  unfold drain_from. apply runs_loop. cbn [fst snd].
  eapply runs_call; [by eapply runs_iter_next |]. intros [[kv |] it'] t' [-> Hr]; unfold next_answer in Hr; cbn [fst snd] in *.
  - destruct Hr as (rest' & y' & Hp & Hv'). apply runs_ret. rewrite Hp in Hk'. cbn [length] in Hk'.
    eapply runs_mono; [| apply (IH y' it' rest' (acc ++ [kv])); [exact Hv' | lia]]. intros r t' (-> & l & -> & Hl & Hfin).
    split; [done |]. exists (kv :: l). split; [by rewrite <-app_assoc |]. split; [by rewrite Hl, Hp | exact Hfin].
  - destruct Hr as [-> Hfin]. apply runs_ret. split; [done |]. exists []. split; [by rewrite app_nil_r |]. by split.
Qed.

Lemma num_visited_steady C A Ao D w I mn m ins outs t :
  steady C ∅ ∅ D A Ao w I mn m ins outs t →
  num_visited t = (2 ^ exp C + if old C then 2 ^ old_exp C else 0)%nat.
Proof.
  intros Hs. pose proof (st_tab _ _ _ _ _ _ _ _ _ _ _ _ _ _ _ _ _ Hs) as Ht. unfold num_visited.
  rewrite (tab_ptr _ _ _ _ _ _ _ _ _ _ _ _ _ Ht). cbn [fst].
  destruct (tab_array _ _ Ht) as (a & -> & Hsh & -> & _). unfold num_buckets at 1. rewrite (sh_len _ _ Hsh). f_equal.
  destruct (old C) as [y |] eqn:Ho; [| done]. destruct (tab_old_array _ _ Ht y Ho) as (ao & Hao & Hsho & _). cbn. rewrite Hao. apply (sh_len _ _ Hsho).
Qed.

(** The first call goes to the first bucket. *)
Lemma runs_iter_start C A Ao D w I mn m ins outs t (fuel : nat) :
  steady C ∅ ∅ D A Ao w I mn m ins outs t → ∃ y it rest, visiting C A Ao y it rest (num_visited t) t ∧ rest ≡ₚ map_to_list m ∧
    ∀ Q, runs (index_iter_next n fuel it) t Q → runs (index_iter_next n fuel index_iter) t Q.
Proof.
  intros Hs. pose proof (st_tab _ _ _ _ _ _ _ _ _ _ _ _ _ _ _ _ _ Hs) as Ht.
  pose proof (steady_exp OPTIMISTIC hash maximum_capacity kmax Hk Hmaximum F _ _ _ _ _ _ _ _ _ _ _ _ _ Hs) as He.
  destruct (tab_array _ _ Ht) as (a & Ha & _ & Hoa & _). rewrite (num_visited_steady _ _ _ _ _ _ _ _ _ _ _ Hs).
  assert (Hpos : ∀ e, (0 < 2 ^ e)%nat) by (intros e; pose proof (Nat.pow_nonzero 2 e); lia).
  assert (Hgo : ∀ y e B after more, phase C A Ao y e B after more → y = default (cur C) (old C) →
    tail e 0 B ++ after ≡ₚ map_to_list m → (2 ^ e - 0 + more ≤ 2 ^ exp C + if old C then 2 ^ old_exp C else 0)%nat →
    ∃ y it rest, visiting C A Ao y it rest (2 ^ exp C + if old C then 2 ^ old_exp C else 0) t ∧ rest ≡ₚ map_to_list m ∧
    ∀ Q, runs (index_iter_next n fuel it) t Q → runs (index_iter_next n fuel index_iter) t Q).
  { intros y e B after more Hp Hy Hperm Hturns. eexists y, _, _. split; [| split; [exact Hperm |]].
    - eapply visiting_mono; [| exact Hturns]. by eapply (visit_bucket C A Ao).
    - intros Q HQ. unfold index_iter_next in HQ |- *. cbn [HashIndex.current_array index_iter bind] in HQ |- *.
      apply runs_bind. apply runs_load. rewrite (tab_ptr _ _ _ _ _ _ _ _ _ _ _ _ _ Ht). cbn [fst].
      eapply runs_array_load; [exact Ha |]. rewrite Hoa, <-Hy. cbv zeta.
      eapply (runs_bucket_of C A Ao); [exact Hs | exact Hp | apply Hpos |]. apply runs_ret. exact HQ. }
  destruct (old C) as [y |] eqn:Ho.
  - apply (Hgo y (old_exp C) Ao (map_to_list A) (2 ^ exp C)%nat); [by apply phase_old | done | | lia].
    rewrite (tail_all hash Hhash F) by (by eapply (steady_old_exp OPTIMISTIC hash maximum_capacity F)).
    rewrite <-(st_map _ _ _ _ _ _ _ _ _ _ _ _ _ _ _ _ _ Hs), map_to_list_disj by apply (tab_disj _ _ _ _ _ _ _ _ _ _ _ _ _ Ht).
    apply Permutation_app_comm.
  - apply (Hgo (cur C) (exp C) A [] 0%nat); [apply phase_cur | done | | lia].
    destruct (steady_no_old _ _ _ _ _ _ _ _ _ _ _ _ _ _ _ _ _ Hs Ho) as [_ ->].
    rewrite app_nil_r. by apply (tail_all hash Hhash F).
Qed.

Lemma runs_bind_inv {X Y} (p : prog (Table K V) X) (next : X → prog (Table K V) Y) t Q :
  runs (bind p next) t Q → runs p t (λ r t', runs (next r) t' Q).
Proof. unfold runs. rewrite run_bind. by destruct (run p t). Qed.

Lemma runs_drain_start (fuel : nat) it acc t Q :
  (∀ Q, runs (index_iter_next n fuel it) t Q → runs (index_iter_next n fuel index_iter) t Q) →
  runs (drain_from fuel (it, acc) n) t Q → runs (drain_from fuel (index_iter, acc) n) t Q.
Proof.
  intros Hstart. unfold drain_from. destruct n as [| k]; [done |]. cbn [loop fst snd]. intros Hr.
  apply runs_bind, runs_bind, Hstart. by apply runs_bind_inv, runs_bind_inv.
Qed.

(** An iteration on a table that stays as it is. *)
Lemma runs_drain I mn m ins outs t (fuel : nat) :
  live I mn m ins outs t → (S I < n)%nat → (num_visited t < fuel)%nat →
  runs (drain fuel) t (λ r t', t' = t ∧ r.1 ≡ₚ map_to_list m).
Proof.
  intros Hl Hn Hf. destruct (live_ptr _ _ _ _ _ _ _ _ _ _ Hl) as [[Hptr ->] | (C & D & A & Ao & w & Hs & Hptr)].
  - unfold drain, drain_from. apply runs_loop_once; [lia |]. cbn [fst snd]. unfold index_iter_next. cbn [HashIndex.current_array index_iter].
    apply runs_bind, runs_bind, runs_load. rewrite Hptr. cbn [fst]. apply runs_ret, runs_ret. apply runs_ret.
    eexists. split; [done |]. split; [done |]. by rewrite map_to_list_empty.
  - destruct (runs_iter_start _ _ _ _ _ _ _ _ _ _ _ fuel Hs) as (y & it & rest & Hv & Hrest & Hstart).
    assert (Hlen : (length rest ≤ I)%nat).
    { rewrite Hrest, length_map_to_list. apply (steady_size _ _ _ _ _ _ _ _ _ _ _ _ _ _ _ _ _ Hs). }
    pose proof (runs_drain_from _ _ _ _ _ _ _ _ _ _ _ _ _ _ _ [] fuel n Hs Hv ltac:(lia) Hf ltac:(lia)) as Hd.
    eapply runs_mono; [| eapply (runs_drain_start fuel it); [exact Hstart | exact Hd]].
    intros r t' (-> & l & Hl' & Hperm & _). split; [done |]. rewrite Hl'. cbn [app]. by rewrite Hperm.
Qed.

(** ** After the end *)

Lemma run_snapshot x (a : BucketArray K V) t : arrays t !! x = Some a → run (snapshot x) t = Done a t.
Proof. intros Ha. unfold snapshot, at_array, load. cbn [zoom run]. unfold get_array. rewrite Ha. unfold put_array, set_arrays. rewrite insert_id by done. by destruct t. Qed.

(** The iterator is at a bucket that does not exist. *)
Lemma next_after_end C A Ao D w I mn m ins outs t it (fuel : nat) :
  steady C ∅ ∅ D A Ao w I mn m ins outs t → finished C it → run (index_iter_next n (S fuel) it) t = Panicked.
Proof.
  intros Hs (Hy & Hj & Hb). pose proof (st_tab _ _ _ _ _ _ _ _ _ _ _ _ _ _ _ _ _ Hs) as Ht.
  destruct (tab_array _ _ Ht) as (a & Ha & Hsh & _). unfold index_iter_next. rewrite Hy. cbn [bind loop].
  rewrite run_bind. unfold index_iter_step. cbn [fst snd]. rewrite Hb. cbn [bind fst snd HashIndex.current_index].
  rewrite run_bind, (run_snapshot _ _ _ Ha). unfold num_buckets. rewrite (sh_len _ _ Hsh), Hj.
  rewrite (proj2 (Nat.eqb_neq _ _)) by lia. rewrite run_bind. unfold bucket_of. rewrite run_bind, (run_snapshot _ _ _ Ha).
  unfold num_buckets. rewrite (sh_len _ _ Hsh), (proj2 (Nat.ltb_ge _ _)) by lia. done.
Qed.

Lemma runs_drain_finished I mn m ins outs t (fuel : nat) :
  live I mn m ins outs t → (bucket_array t).1 ≠ None → (S I < n)%nat → (num_visited t < fuel)%nat →
  runs (drain fuel) t (λ r t', t' = t ∧ run (index_iter_next n fuel r.2) t = Panicked).
Proof.
  intros Hl Hptr Hn Hf. destruct (live_ptr _ _ _ _ _ _ _ _ _ _ Hl) as [[Hptr' ->] | (C & D & A & Ao & w & Hs & _)].
  { by rewrite Hptr' in Hptr. }
  destruct (runs_iter_start _ _ _ _ _ _ _ _ _ _ _ fuel Hs) as (y & it & rest & Hv & Hrest & Hstart).
  assert (Hlen : (length rest ≤ I)%nat).
  { rewrite Hrest, length_map_to_list. apply (steady_size _ _ _ _ _ _ _ _ _ _ _ _ _ _ _ _ _ Hs). }
  pose proof (runs_drain_from _ _ _ _ _ _ _ _ _ _ _ _ _ _ _ [] fuel n Hs Hv ltac:(lia) Hf ltac:(lia)) as Hd.
  apply (runs_drain_start fuel it [] t _ Hstart) in Hd. fold (drain fuel) in Hd.
  eapply runs_mono; [| exact Hd]. intros [got it'] t' (-> & _ & _ & _ & Hfin). split; [done |].
  destruct fuel as [| fuel]; [lia |]. by eapply next_after_end.
Qed.
End Iter.

(** An iterator asks for no memory. *)
Lemma drain_then_next {K V : Type} `{Countable K} (hash : K → Z) (Hhash : ∀ k, in_word 64 (hash k)) (n : nat)
    (maximum_capacity : Z) (kmax : Z) (Hk : 6 ≤ kmax ≤ 63) (Hmaximum : maximum_capacity = 2 ^ kmax) (F : Z)
    I mn (m : gmap K V) ins outs (t : Table K V) (fuel : nat) :
  live OPTIMISTIC hash maximum_capacity F I mn m ins outs t → (bucket_array t).1 ≠ None → (S I < n)%nat → (num_visited t < fuel)%nat →
  ∃ it got, run (drain n fuel) t = Done (got, it) t ∧ run (index_iter_next n fuel it) t = Panicked.
Proof.
  intros Hl Hptr Hn Hf.
  pose proof (runs_drain_finished hash Hhash n (allow := never_refuses _) maximum_capacity kmax Hk Hmaximum F I mn m ins outs t fuel Hl Hptr Hn Hf) as Hd.
  apply runs_Done in Hd as ([got it] & t' & Hrun & -> & Hp). by exists it, got.
Qed.
