(* ===== verification/IndexSpec.v ===== *)
(** * Programs that use a hash index

    A program calls the functions of [HashIndex] and uses the handles that it gets, one at a
    time; its answers are those of the same program on a finite map. *)
From S2P Require Import Prelude Atomic Tag Lru Bucket BucketInv BucketQuery BucketOps BucketSpec BucketLinks BucketDrop BucketIter BucketProps BucketArray Rehash HashTable TableInv TableRelocate TableRehash TableResize TableOps TableKey TableScan TableDrop TableEntry TableIter TableProps TableReserve MapSpec HashIndex.

Local Open Scope Z_scope.

(** ** Programs that use an index *)

Section Client.
Context {K V : Type} `{Countable K} (hash : K → Z) (n : nat).

(** What is done with an [OccupiedEntry]; each of them ends. *)
Inductive index_use : Type :=
  | IDrop
  | IKey (u : index_use)
  | IGet (u : index_use)
  | IGetMut (f : V → V) (u : index_use)
  | IUpdate (v : V)
  | IRemoveEntry.

Inductive index_vacant_use : Type :=
  | IVDrop
  | IVIntoKey
  | IVInsertEntry (v : V) (u : index_use).

Inductive index_entry_use : Type :=
  | IUDrop
  | IUKey (u : index_entry_use)
  | IUAndModify (f : V → V) (u : index_entry_use)
  | IUOrInsert (v : V) (u : index_use)
  | IUOrInsertWithKey (constructor : K → V) (u : index_use)
  | IUMatch (u : index_use) (w : index_vacant_use).

Fixpoint index_use_occupied (u : index_use) (e : LockedEntry) : prog (Table K V) (list (event K V)) :=
  match u with
  | IDrop => drop_entry e ;; Ret []
  | IKey u => let! k := index_occupied_key e in let! r := index_use_occupied u e in Ret (EKey k :: r)
  | IGet u => let! v := index_occupied_get e in let! r := index_use_occupied u e in Ret (EVal v :: r)
  | IGetMut f u => index_occupied_get_mut e (λ v, (f v, ())) ;; index_use_occupied u e
  | IUpdate v => index_occupied_update n e v ;; Ret []
  | IRemoveEntry => index_occupied_remove_entry n e ;; Ret []
  end.

Definition index_use_vacant (w : index_vacant_use) (key : K) (hash : Z) (e : LockedEntry) : prog (Table K V) (list (event K V)) :=
  match w with
  | IVDrop => drop_entry e ;; Ret []
  | IVIntoKey => let! k := index_vacant_into_key key e in Ret [EKey k]
  | IVInsertEntry v u => let! o := index_vacant_insert_entry n key hash e v in index_use_occupied u o
  end.

Fixpoint index_use_entry (u : index_entry_use) (self : IndexEntry K) : prog (Table K V) (list (event K V)) :=
  match u with
  | IUDrop => index_entry_drop self ;; Ret []
  | IUKey u => let! k := index_entry_key self in let! r := index_use_entry u self in Ret (EKey k :: r)
  | IUAndModify f u => let! self := index_and_modify self f in index_use_entry u self
  | IUOrInsert v u => let! o := index_or_insert n self v in index_use_occupied u o
  | IUOrInsertWithKey c u => let! o := index_or_insert_with_key n self c in index_use_occupied u o
  | IUMatch u w =>
      match self with
      | IndexOccupied o => index_use_occupied u o
      | IndexVacant key hash e => index_use_vacant w key hash e
      end
  end.

Inductive index_op : Type :=
  | IInsert (k : K) (v : V)
  | IRemove (k : K)
  | IRemoveIf (k : K) (condition : V → bool)
  | IPeek (k : K)
  | IPeekWith (k : K) (f : K → V → V)
  | IContains (k : K)
  | IGetEntry (k : K) (u : index_use)
  | IEntry (k : K) (u : index_entry_use)
  | IRetain (pred : K → V → bool)
  | IClear
  | ILen
  | IIsEmpty
  | IReserve (additional : Z)
  | IUnreserve (i : nat).

Inductive index_res : Type :=
  | YInsert (r : unit + K * V)
  | YValue (r : option V)
  | YBool (r : bool)
  | YEvents (r : option (list (event K V)))
  | YNumber (r : Z)
  | YReserve (r : option Z)
  | YUnit.

(** The program keeps the [Reserve]s it got in a list. *)
Definition index_apply (op : index_op) (rs : list Z) : prog (Table K V) (index_res * list Z) :=
  match op with
  | IInsert k v => let! r := index_insert hash n k v in Ret (YInsert r, rs)
  | IRemove k => let! r := index_remove hash n k in Ret (YBool r, rs)
  | IRemoveIf k c => let! r := index_remove_if hash n k c in Ret (YBool r, rs)
  | IPeek k => let! r := index_peek hash n k in Ret (YValue r, rs)
  | IPeekWith k f => let! r := index_peek_with hash n k f in Ret (YValue r, rs)
  | IContains k => let! r := index_contains hash n k in Ret (YBool r, rs)
  | IGetEntry k u =>
      let! o := index_get hash n k in
      match o with
      | None => Ret (YEvents None, rs)
      | Some e => let! r := index_use_occupied u e in Ret (YEvents (Some r), rs)
      end
  | IEntry k u =>
      let! e := index_entry hash n k in
      let! r := index_use_entry u e in Ret (YEvents (Some r), rs)
  | IRetain p => index_retain hash n p ;; Ret (YUnit, rs)
  | IClear => index_clear hash n ;; Ret (YUnit, rs)
  | ILen => let! z := index_len n in Ret (YNumber z, rs)
  | IIsEmpty => let! b := index_is_empty n in Ret (YBool b, rs)
  | IReserve a => let! r := index_reserve n a in Ret (YReserve r, rs ++ option_list r)
  | IUnreserve i =>
      match rs !! i with
      | Some a => index_reserve_drop n a ;; Ret (YUnit, delete i rs)
      | None => Ret (YUnit, rs)
      end
  end.

Fixpoint index_trace (ops : list index_op) (rs : list Z) : prog (Table K V) (list index_res) :=
  match ops with
  | [] => Ret []
  | op :: ops =>
      let! r := index_apply op rs in
      let! l := index_trace ops r.2 in
      Ret (r.1 :: l)
  end.

(** ** The same programs on a finite map *)

Implicit Types (m : gmap K V).

Fixpoint spec_index_use (u : index_use) (k : K) (v : V) m : list (event K V) * gmap K V :=
  match u with
  | IDrop => ([], m)
  | IKey u => let r := spec_index_use u k v m in (EKey k :: r.1, r.2)
  | IGet u => let r := spec_index_use u k v m in (EVal v :: r.1, r.2)
  | IGetMut f u => spec_index_use u k (f v) (<[k := f v]> m)
  | IUpdate v' => ([], <[k := v']> m)
  | IRemoveEntry => ([], delete k m)
  end.

Definition spec_index_vacant (w : index_vacant_use) (k : K) m : list (event K V) * gmap K V :=
  match w with
  | IVDrop => ([], m)
  | IVIntoKey => ([EKey k], m)
  | IVInsertEntry v u => spec_index_use u k v (<[k := v]> m)
  end.

Fixpoint spec_index_entry (u : index_entry_use) (k : K) m : list (event K V) * gmap K V :=
  match u with
  | IUDrop => ([], m)
  | IUKey u => let r := spec_index_entry u k m in (EKey k :: r.1, r.2)
  | IUAndModify f u => spec_index_entry u k (alter f k m)
  | IUOrInsert v u =>
      match m !! k with Some v' => spec_index_use u k v' m | None => spec_index_use u k v (<[k := v]> m) end
  | IUOrInsertWithKey c u =>
      match m !! k with Some v' => spec_index_use u k v' m | None => spec_index_use u k (c k) (<[k := c k]> m) end
  | IUMatch u w =>
      match m !! k with Some v => spec_index_use u k v m | None => spec_index_vacant w k m end
  end.

Definition index_spec (op : index_op) (mn : Z) m : index_res * gmap K V :=
  match op with
  | IInsert k v =>
      match m !! k with
      | Some _ => (YInsert (inr (k, v)), m)
      | None => (YInsert (inl ()), <[k := v]> m)
      end
  | IRemove k => (YBool (bool_decide (is_Some (m !! k))), delete k m)
  | IRemoveIf k c =>
      match m !! k with
      | Some v => if c v then (YBool true, delete k m) else (YBool false, m)
      | None => (YBool false, m)
      end
  | IPeek k => (YValue (m !! k), m)
  | IPeekWith k f => (YValue (f k <$> m !! k), m)
  | IContains k => (YBool (bool_decide (is_Some (m !! k))), m)
  | IGetEntry k u =>
      match m !! k with
      | Some v => let r := spec_index_use u k v m in (YEvents (Some r.1), r.2)
      | None => (YEvents None, m)
      end
  | IEntry k u => let r := spec_index_entry u k m in (YEvents (Some r.1), r.2)
  | IRetain p => (YUnit, filter (λ kv, p kv.1 kv.2 = true) m)
  | IClear => (YUnit, ∅)
  | ILen => (YNumber (Z.of_nat (size m)), m)
  | IIsEmpty => (YBool (bool_decide (m = ∅)), m)
  | IReserve a => (YReserve (reservation a mn), m)
  | IUnreserve i => (YUnit, m)
  end.

Definition index_reserves (op : index_op) (mn : Z) (rs : list Z) : list Z :=
  match op with
  | IReserve a => rs ++ option_list (reservation a mn)
  | IUnreserve i => delete i rs
  | _ => rs
  end.

(** [base] is the minimum capacity that the index was created with, [rs] the reservations. *)
Fixpoint index_effects (ops : list index_op) (base : Z) (rs : list Z) m : list index_res * gmap K V :=
  match ops with
  | [] => ([], m)
  | op :: ops =>
      let mn := base + sum_reserved rs in
      let s := index_spec op mn m in
      let r := index_effects ops base (index_reserves op mn rs) s.2 in
      (s.1 :: r.1, r.2)
  end.

Definition index_ok (F : Z) (op : index_op) (mn : Z) : Prop :=
  match op with
  | IReserve a => reservable index_maximum_capacity F a mn
  | _ => True
  end.

Fixpoint index_oks (F : Z) (ops : list index_op) (base : Z) (rs : list Z) : Prop :=
  match ops with
  | [] => True
  | op :: ops =>
      let mn := base + sum_reserved rs in
      index_ok F op mn ∧ index_oks F ops base (index_reserves op mn rs)
  end.
End Client.

Arguments index_use : clear implicits.
Arguments index_vacant_use : clear implicits.
Arguments index_entry_use : clear implicits.
Arguments index_op : clear implicits.
Arguments index_res : clear implicits.

(** ** One operation *)

Section Spec.
Context {K V : Type} `{Countable K} (hash : K → Z) (Hhash : ∀ k, in_word 64 (hash k)) (n : nat) (F : Z).

Implicit Types (m : gmap K V) (t : Table K V) (mn base : Z) (rs : list Z) (k : K) (v : V) (e : LockedEntry) (I : nat)
  (ins outs : list K).

Local Notation live := (live OPTIMISTIC hash index_maximum_capacity F).
Local Notation alive := (alive OPTIMISTIC hash index_maximum_capacity F).
Local Notation holding := (holding OPTIMISTIC hash index_maximum_capacity F).
Local Notation budget := (budget n).
Local Notation alive_up Hl := (alive_mono _ _ _ _ _ _ _ _ _ Hl (Nat.le_succ_diag_r _)).

Lemma index_maximum : index_maximum_capacity = 2 ^ 63.
Proof. done. Qed.

Local Notation dropping := (runs_holding_drop OPTIMISTIC hash Hhash index_maximum_capacity 63 word_range index_maximum F).
Local Notation setting := (runs_holding_set OPTIMISTIC hash Hhash index_maximum_capacity 63 word_range index_maximum F).

Lemma runs_index_insert_entry {R} k v e I mn m t (next : LockedEntry → prog (Table K V) R) Q :
  holding k e I mn m t → m !! k = None → budget (S I) →
  (∀ e' t', holding k e' (S I) mn (<[k := v]> m) t' → runs (next e') t' Q) →
  runs (let! x := index_vacant_insert_entry n k (hash k) e v in next x) t Q.
Proof.
  intros Hh Hm Hb Hn. unfold index_vacant_insert_entry. apply runs_bind.
  eapply (runs_holding_insert OPTIMISTIC hash Hhash n index_maximum_capacity 63 word_range index_maximum F k v); [exact Hh | exact Hm | exact Hb |].
  intros r t' Hh'. apply runs_ret. by apply Hn.
Qed.

Lemma runs_index_remove_entry k v e I mn m t :
  holding k e I mn m t → m !! k = Some v → budget I →
  runs (index_occupied_remove_entry n e) t (λ _ t', alive I mn (delete k m) t').
Proof.
  intros (C & ins & outs & [Hkey Hin]) Hm Hb. unfold index_occupied_remove_entry. rewrite Hm in Hin.
  eapply runs_call; [by eapply (runs_erase_key OPTIMISTIC hash Hhash index_maximum_capacity 63 word_range index_maximum F k v) |].
  intros r t' [-> Hkey']. rewrite decide_True in Hkey' by done.
  eapply (runs_entry_removed OPTIMISTIC hash Hhash n index_maximum_capacity 63 word_range index_maximum F); [exact Hkey' | exact Hb |].
  intros t2 Hl. apply runs_ret. by exists ins, outs.
Qed.

Lemma runs_index_update k v v' e I mn m t :
  holding k e I mn m t → m !! k = Some v → budget (S I) →
  runs (index_occupied_update n e v') t (λ _ t', alive (S I) mn (<[k := v']> m) t').
Proof. apply (runs_holding_update hash Hhash n index_maximum_capacity 63 word_range index_maximum F). Qed.

(** ** Handles *)

Lemma runs_index_use u k v e I mn m t :
  holding k e I mn m t → m !! k = Some v → budget (S I) →
  runs (index_use_occupied n u e) t (λ r t', let s := spec_index_use u k v m in r = s.1 ∧ alive (S I) mn s.2 t').
Proof.
  intros Hh Hm Hb. assert (Hb' : budget I) by (destruct Hb; split; lia). revert v m t Hh Hm.
  induction u as [| u IH | u IH | f u IH | v' |]; intros v m t Hh Hm; cbn [index_use_occupied spec_index_use].
  - eapply dropping; [exact Hh |]. intros t' Hl. apply runs_ret. split; [done |]. exact (alive_up Hl).
  - unfold index_occupied_key. apply runs_bind. eapply runs_holding_get; [exact Hh | exact Hm |]. apply runs_ret.
    eapply runs_call; [by apply IH |]. intros r t' [-> Hl]. by apply runs_ret.
  - unfold index_occupied_get. apply runs_bind. eapply runs_holding_get; [exact Hh | exact Hm |]. apply runs_ret.
    eapply runs_call; [by apply IH |]. intros r t' [-> Hl]. by apply runs_ret.
  - unfold index_occupied_get_mut. apply runs_bind. eapply runs_holding_get; [exact Hh | exact Hm |].
    eapply setting; [exact Hh | exact Hm |].
    intros t' Hh'. apply runs_ret. apply IH; [exact Hh' | apply lookup_insert_eq].
  - eapply runs_call; [by eapply runs_index_update |]. intros [] t' Hl. by apply runs_ret.
  - eapply runs_call; [by eapply runs_index_remove_entry |]. intros [] t' Hl. apply runs_ret. split; [done |]. exact (alive_up Hl).
Qed.

(** What an [Entry] of the key [k] is. *)
Definition index_entry_of k (self : IndexEntry K) I mn m t : Prop :=
  match self with
  | IndexOccupied e => ∃ v, m !! k = Some v ∧ holding k e I mn m t
  | IndexVacant key h e => key = k ∧ h = hash k ∧ m !! k = None ∧ holding k e I mn m t
  end.

Lemma runs_index_entry k I mn m t :
  alive I mn m t → budget I → runs (index_entry hash n k) t (λ r t', index_entry_of k r I mn m t').
Proof.
  intros (ins & outs & Hl) Hb. unfold index_entry.
  eapply runs_call; [by eapply (runs_reserve_entry OPTIMISTIC hash Hhash n index_maximum_capacity 63 word_range index_maximum F k) |].
  intros r t' (e & C & -> & Hr). rewrite (reserved_valid _ _ _ _ _ _ _ _ _ _ _ _ _ Hr).
  assert (Hh : holding k e I mn m t') by (by exists C, ins, outs).
  destruct (m !! k) as [v |] eqn:Hm.
  - rewrite bool_decide_true by eauto. apply runs_ret. by exists v.
  - rewrite bool_decide_false by (by intros [? ?]). by apply runs_ret.
Qed.

(** A new entry is used: one insertion more, and one for an update. *)
Lemma runs_index_vacant w k e I mn m t :
  holding k e I mn m t → m !! k = None → budget (S (S I)) →
  runs (index_use_vacant n w k (hash k) e) t (λ r t', let s := spec_index_vacant w k m in r = s.1 ∧ alive (S (S I)) mn s.2 t').
Proof.
  intros Hh Hm Hb. assert (Hb' : budget (S I)) by (destruct Hb; split; lia). destruct w as [| | v u]; cbn [index_use_vacant spec_index_vacant].
  - eapply dropping; [exact Hh |]. intros t' Hl. apply runs_ret. split; [done |]. exact (alive_up (alive_up Hl)).
  - unfold index_vacant_into_key. apply runs_bind. eapply dropping; [exact Hh |]. intros t' Hl. apply runs_ret, runs_ret.
    split; [done |]. exact (alive_up (alive_up Hl)).
  - eapply runs_index_insert_entry; [exact Hh | exact Hm | exact Hb' |].
    intros e' t' Hh'. apply runs_index_use; [exact Hh' | apply lookup_insert_eq | exact Hb].
Qed.

(** The entry is there, or a new one is inserted; then it is used. *)
Lemma runs_index_or_insert (self : IndexEntry K) (c : K → V) u k I mn m t :
  index_entry_of k self I mn m t → budget (S (S I)) →
  runs (let! o := index_or_insert_with_key n self c in index_use_occupied n u o) t (λ r t',
    let s := match m !! k with Some v' => spec_index_use u k v' m | None => spec_index_use u k (c k) (<[k := c k]> m) end in
    r = s.1 ∧ alive (S (S I)) mn s.2 t').
Proof.
  intros Hself Hb. assert (Hb' : budget (S I)) by (destruct Hb; split; lia). destruct self as [e | key h e]; cbn [index_or_insert_with_key].
  - destruct Hself as (v & Hm & Hh). apply runs_bind, runs_ret. rewrite Hm.
    eapply runs_mono; [| by eapply runs_index_use]. intros r t' [-> Hl]. split; [done |]. exact (alive_up Hl).
  - destruct Hself as (-> & -> & Hm & Hh). rewrite Hm. eapply runs_index_insert_entry; [exact Hh | exact Hm | exact Hb' |].
    intros e' t' Hh'. apply runs_index_use; [exact Hh' | apply lookup_insert_eq | exact Hb].
Qed.

Lemma runs_index_use_entry u (self : IndexEntry K) k I mn m t :
  index_entry_of k self I mn m t → budget (S (S I)) →
  runs (index_use_entry n u self) t (λ r t', let s := spec_index_entry u k m in r = s.1 ∧ alive (S (S I)) mn s.2 t').
Proof.
  intros Hself Hb. assert (Hb' : budget (S I)) by (destruct Hb; split; lia).
  revert self m t Hself. induction u as [| u IH | f u IH | v u | c u | u w]; intros self m t Hself; cbn [index_use_entry spec_index_entry].
  - eapply (runs_call _ _ _ (λ _ t', alive I mn m t')).
    + destruct self as [e | key h e]; cbn [index_entry_drop]; apply runs_last.
      * destruct Hself as (v & Hm & Hh). eapply dropping; [exact Hh |]. intros t' Hl. by apply runs_ret.
      * destruct Hself as (_ & _ & _ & Hh). eapply dropping; [exact Hh |]. intros t' Hl. by apply runs_ret.
    + intros x t' Hl. apply runs_ret. split; [done |]. exact (alive_up (alive_up Hl)).
  - eapply (runs_call _ _ _ (λ r t', r = k ∧ index_entry_of k self I mn m t')).
    + destruct self as [e | key h e]; cbn [index_entry_key]; [| apply runs_ret; split; [apply Hself | exact Hself]].
      pose proof Hself as (v & Hm & Hh). unfold index_occupied_key. eapply runs_holding_get; [exact Hh | exact Hm |]. by apply runs_ret.
    + intros r t' [-> Hself']. eapply runs_call; [by apply IH |]. intros r t2 [-> Hl]. by apply runs_ret.
  - eapply (runs_call _ _ _ (λ r t', index_entry_of k r I mn (alter f k m) t')); [| intros r t' Hself'; by apply IH].
    destruct self as [e | key h e]; cbn [index_and_modify].
    + destruct Hself as (v & Hm & Hh). unfold index_occupied_get_mut. apply runs_bind. eapply runs_holding_get; [exact Hh | exact Hm |].
      eapply setting; [exact Hh | exact Hm |]. intros t' Hh'. apply runs_ret, runs_ret. exists (f v).
      rewrite (alter_insert_some f k v m Hm). split; [apply lookup_insert_eq | exact Hh'].
    + apply runs_ret. destruct Hself as (-> & -> & Hm & Hh). rewrite (alter_absent f k m Hm). by split_and!.
  - by apply (runs_index_or_insert self (λ _, v)).
  - by apply runs_index_or_insert.
  - destruct self as [e | key h e].
    + destruct Hself as (v & Hm & Hh). rewrite Hm. eapply runs_mono; [| by eapply runs_index_use].
      intros r t' [-> Hl]. split; [done |]. exact (alive_up Hl).
    + destruct Hself as (-> & -> & Hm & Hh). rewrite Hm. by apply runs_index_vacant.
Qed.

(** ** One operation *)

Definition index_post (op : index_op K V) I base rs m (r : index_res K V * list Z) t : Prop :=
  let mn := base + sum_reserved rs in
  r.1 = (index_spec op mn m).1 ∧ r.2 = index_reserves op mn rs ∧
  alive (S (S I)) (base + sum_reserved r.2) (index_spec op mn m).2 t ∧ fits F base r.2.

(** The answer of an operation that leaves the reservations alone. *)
Lemma index_post_plain (op : index_op K V) I base rs m r t :
  index_reserves op (base + sum_reserved rs) rs = rs → fits F base rs →
  r = (index_spec op (base + sum_reserved rs) m).1 →
  alive (S (S I)) (base + sum_reserved rs) (index_spec op (base + sum_reserved rs) m).2 t → index_post op I base rs m (r, rs) t.
Proof. intros Hrs Hfit Hr Hal. unfold index_post. cbn [fst snd]. by rewrite Hrs. Qed.

Lemma map_imap_filter (p : K → V → bool) m :
  map_imap (retain_value (λ k v, (p k v, v))) m = filter (λ kv, p kv.1 kv.2 = true) m.
Proof.
  apply map_eq. intros k. rewrite map_lookup_imap, map_lookup_filter. destruct (m !! k) as [v |]; [| done]. cbn.
  unfold retain_value. cbn [fst snd]. destruct (p k v) eqn:Hp; [by rewrite option_guard_True |]. by rewrite option_guard_False by congruence.
Qed.

Lemma runs_index_op (op : index_op K V) I base rs m t :
  alive I (base + sum_reserved rs) m t → budget (S (S I)) → fits F base rs → index_ok F op (base + sum_reserved rs) →
  runs (index_apply hash n op rs) t (index_post op I base rs m).
Proof.
  intros Hal Hb Hfit Hok. assert (Hb1 : budget (S I)) by (destruct Hb; split; lia). assert (Hb' : budget I) by (destruct Hb; split; lia).
  pose proof Hal as (ins & outs & Hl). set (mn := base + sum_reserved rs) in *.
  assert (Hend : ∀ m' t' ins' outs', live I mn m' ins' outs' t' → alive (S (S I)) mn m' t').
  { intros m' t' ins' outs' Hl'. eapply alive_mono; [by exists ins', outs' | lia]. }
  destruct op as [k v | k | k c | k | k f | k | k u | k u | p | | | | a | i]; cbn [index_apply].
  - unfold index_insert. apply runs_bind.
    eapply runs_call; [by eapply (runs_insert_entry OPTIMISTIC hash Hhash n index_maximum_capacity 63 word_range index_maximum F k v) |].
    intros r t' Hr. destruct (m !! k) eqn:Hm; destruct Hr as [-> Hl']; apply runs_ret, runs_ret; apply index_post_plain;
      try done; cbn [index_spec]; rewrite Hm; try done; [by eapply Hend |]. exact (alive_up (ex_intro _ _ (ex_intro _ _ Hl'))).
  - unfold index_remove, index_remove_if. apply runs_bind.
    eapply runs_call; [by eapply (runs_remove_entry OPTIMISTIC hash Hhash n index_maximum_capacity 63 word_range index_maximum F k) |].
    intros r t' [-> Hl']. apply runs_ret, runs_ret. unfold remove_result in Hl' |- *.
    destruct (m !! k) as [v |] eqn:Hm; cbn [fst snd] in *; apply index_post_plain; try done; cbn [index_spec fst snd]; rewrite ?Hm; try done.
    + eapply Hend; exact Hl'.
    + rewrite delete_id by done. eapply Hend; exact Hl'.
  - unfold index_remove_if. apply runs_bind.
    eapply runs_call; [by eapply (runs_remove_entry OPTIMISTIC hash Hhash n index_maximum_capacity 63 word_range index_maximum F k) |].
    intros r t' [-> Hl']. apply runs_ret, runs_ret. unfold remove_result in Hl' |- *.
    destruct (m !! k) as [v |] eqn:Hm; cbn [fst snd] in *; [destruct (c v) eqn:Hc; cbn [fst snd] in * |];
      apply index_post_plain; try done; cbn [index_spec]; rewrite ?Hm, ?Hc; try done; cbn [fst snd].
    + eapply Hend; exact Hl'.
    + rewrite insert_id in Hl' by done. eapply Hend; exact Hl'.
    + eapply Hend; exact Hl'.
  - unfold index_peek. apply runs_bind.
    eapply runs_call; [by eapply (runs_read_entry OPTIMISTIC hash Hhash n index_maximum_capacity 63 word_range index_maximum F k) |].
    intros r t' [-> Hl']. apply runs_ret, runs_ret. apply index_post_plain; try done; [cbn; by destruct (m !! k) | eapply Hend; exact Hl'].
  - unfold index_peek_with. apply runs_bind.
    eapply runs_call; [by eapply (runs_read_entry OPTIMISTIC hash Hhash n index_maximum_capacity 63 word_range index_maximum F k) |].
    intros r t' [-> Hl']. apply runs_ret, runs_ret. apply index_post_plain; try done; [cbn; by destruct (m !! k) | eapply Hend; exact Hl'].
  - unfold index_contains, index_peek_with. apply runs_bind, runs_bind.
    eapply runs_call; [by eapply (runs_read_entry OPTIMISTIC hash Hhash n index_maximum_capacity 63 word_range index_maximum F k) |].
    intros r t' [-> Hl']. do 3 apply runs_ret. apply index_post_plain; try done; [cbn; by destruct (m !! k) | eapply Hend; exact Hl'].
  - unfold index_get. apply runs_bind.
    eapply runs_call; [by eapply (runs_get_entry_of OPTIMISTIC hash Hhash n index_maximum_capacity 63 word_range index_maximum F k) |].
    intros r t' Hr. destruct (m !! k) as [v |] eqn:Hm.
    + destruct Hr as (e & C & -> & Hr). apply runs_ret. cbn [mjoin option_join id].
      eapply runs_call; [eapply (runs_index_use u k v e I mn m); [by exists C, ins, outs | exact Hm | exact Hb1] |].
      intros r t2 [-> Hl2]. apply runs_ret. apply index_post_plain; try done; cbn [index_spec]; rewrite Hm; [done |]. exact (alive_up Hl2).
    + destruct Hr as [-> Hl']. apply runs_ret, runs_ret. apply index_post_plain; try done; cbn [index_spec]; rewrite Hm; [done |]. by eapply Hend.
  - eapply runs_call; [by apply runs_index_entry |]. intros self t' Hself.
    eapply runs_call; [by apply (runs_index_use_entry u self k I mn m) |]. intros r t2 [-> Hl2]. apply runs_ret. by apply index_post_plain.
  - eapply runs_call; [by eapply (runs_retain_entries OPTIMISTIC hash Hhash n index_maximum_capacity 63 word_range index_maximum F) |].
    intros r t' Hl'. apply runs_ret. apply index_post_plain; try done. cbn [index_spec snd]. rewrite <-map_imap_filter. eapply Hend; exact Hl'.
  - eapply runs_call; [by eapply (runs_retain_entries OPTIMISTIC hash Hhash n index_maximum_capacity 63 word_range index_maximum F) |].
    intros r t' Hl'. apply runs_ret. rewrite map_imap_none in Hl'. apply index_post_plain; try done. eapply Hend; exact Hl'.
  - eapply runs_call; [by eapply (runs_table_num_entries OPTIMISTIC hash Hhash n index_maximum_capacity 63 word_range index_maximum F) |].
    intros r t' [-> Hl']. apply runs_ret. apply index_post_plain; try done. eapply Hend; exact Hl'.
  - unfold index_is_empty. apply runs_bind.
    eapply runs_call; [by eapply (runs_has_entry OPTIMISTIC hash Hhash n index_maximum_capacity 63 word_range index_maximum F) |].
    intros r t' [-> Hl']. apply runs_ret, runs_ret. apply index_post_plain; try done; [| eapply Hend; exact Hl'].
    cbn. f_equal. rewrite <-bool_decide_not. apply bool_decide_ext. destruct (decide (m = ∅)); tauto.
  - eapply runs_call; [eapply (runs_reserve OPTIMISTIC hash Hhash n index_maximum_capacity 63 word_range index_maximum F); [exact Hal | exact Hb' | exact Hfit | exact Hok] |].
    intros r t' (-> & Hl' & Hfit'). apply runs_ret.
    split; [done |]. split; [done |]. cbn [snd]. split; [| exact Hfit']. exact (alive_up (alive_up Hl')).
  - destruct (rs !! i) as [a |] eqn:Hi.
    + eapply runs_call; [by eapply (runs_unreserve OPTIMISTIC hash Hhash n index_maximum_capacity 63 word_range index_maximum F) |].
      intros r t' [Hl' Hfit']. apply runs_ret.
      split; [done |]. split; [done |]. cbn [snd]. split; [| exact Hfit']. exact (alive_up (alive_up Hl')).
    + apply runs_ret. apply index_post_plain; try done; [| by eapply Hend]. cbn [index_reserves]. by apply delete_none.
Qed.

(** ** Programs *)

Lemma runs_index_trace (ops : list (index_op K V)) I base rs m t :
  alive I (base + sum_reserved rs) m t → budget (2 * length ops + I) → fits F base rs → index_oks F ops base rs →
  runs (index_trace hash n ops rs) t (λ l t', ∃ rs', let e := index_effects ops base rs m in
    l = e.1 ∧ alive (2 * length ops + I) (base + sum_reserved rs') e.2 t').
Proof.
  revert I rs m t. induction ops as [| op ops IH]; intros I rs m t Hal Hb Hfit Hok.
  - apply runs_ret. by exists rs.
  - cbn [index_trace index_oks] in *. destruct Hok as [Hop Hops].
    assert (Hlen : (2 * length (op :: ops) + I = 2 * length ops + S (S I))%nat) by (cbn; lia). rewrite Hlen in *.
    eapply runs_call; [apply (runs_index_op op I base rs m t Hal); [destruct Hb; split; lia | exact Hfit | exact Hop] |].
    intros [r rs1] t1 (Hr & Hrs & Hal1 & Hfit1). cbn [fst snd] in *. subst r rs1.
    eapply runs_call; [apply (IH (S (S I)) _ _ _ Hal1); [exact Hb | exact Hfit1 | exact Hops] |].
    intros l t2 (rs' & -> & Hal2). apply runs_ret. exists rs'. by split.
Qed.
End Spec.
