(* ===== verification/IndexProps.v ===== *)
(** * A hash index is a map

    The theorems on [HashIndex], from its creation on: programs answer what they would on a
    finite map; an iterator meets every entry, but must not be used once it is at its end. *)
From S2P Require Import Prelude Atomic Tag Lru Bucket BucketArray HashTable TableInv TableOps TableScan TableEntry TableProps TableReserve HashMap MapSpec MapProps HashIndex IndexIter IndexSpec.

Local Open Scope Z_scope.

Section Props.
Context {K V : Type} `{Countable K} (hash : K → Z) (Hhash : ∀ k, in_word 64 (hash k)) (n : nat) (mem : Memory).

Implicit Types (m : gmap K V) (t : Table K V) (ops : list (index_op K V)) (capacity : Z).

Local Notation alive F := (alive OPTIMISTIC hash index_maximum_capacity F).

Lemma runs_index_with_capacity capacity :
  runs (index_with_capacity capacity) (table_new mem 0 : Table K V) (λ _ t,
    alive (floor_of (table_base capacity)) 0 (table_base capacity) ∅ t ∧ fits (floor_of (table_base capacity)) (table_base capacity) []).
Proof.
  pose proof (table_base_range capacity).
  eapply runs_mono; [| apply (runs_with_capacity OPTIMISTIC hash index_maximum_capacity 63 word_range index_maximum); lia].
  intros [] t Hal. split; [exact Hal |]. split; [done |]. split; [lia | done].
Qed.

(** A program on a new index: an operation inserts twice at most, a new entry and a new
    version of it. *)
Record index_setting capacity ops : Prop := {
  is_capacity : in_word 64 capacity;
  is_ops : index_oks (floor_of (table_base capacity)) ops (table_base capacity) [];
  is_fuel : (S (2 * length ops) < n)%nat;
  is_count : Z.of_nat (2 * length ops) ≤ u32_max
}.

Definition index_program capacity ops : prog (Table K V) (list (index_res K V)) :=
  index_with_capacity capacity ;; index_trace hash n ops [].

Definition index_result capacity ops : list (index_res K V) * gmap K V :=
  index_effects ops (table_base capacity) [] ∅.

Lemma runs_index_program capacity ops : index_setting capacity ops →
  runs (index_program capacity ops) (table_new mem 0) (λ l t, ∃ mn, let e := index_result capacity ops in
    l = e.1 ∧ alive (floor_of (table_base capacity)) (2 * length ops) mn e.2 t).
Proof.
  intros [Hcap Hops Hn Hmax]. unfold index_program. eapply runs_call; [apply runs_index_with_capacity |].
  intros [] t [Hal Hfit].
  assert (Hb : budget n (2 * length ops + 0)) by (split; lia).
  assert (Hal0 : alive (floor_of (table_base capacity)) 0 (table_base capacity + sum_reserved []) ∅ t) by (by rewrite Z.add_0_r).
  eapply runs_mono; [| exact (runs_index_trace hash Hhash n _ ops 0 _ [] ∅ t Hal0 Hb Hfit Hops)].
  intros l t2 (rs' & -> & Hal2). rewrite Nat.add_0_r in Hal2. by eexists.
Qed.

(** C4. A hash index is a map, handles included.  A program that creates a [HashIndex] and
    calls its functions, with bounded reservations, answers what the same program does on a
    finite map, without a panic: although removed entries and old versions of an entry stay
    in their slots and old arrays keep clones of relocated entries, none of them is seen
    again.  The conditions on the program ([index_setting], [reservable]): every call of
    [reserve] either fails, because the sum exceeds [usize], or keeps the minimum capacity,
    the reservations that are held included, within the maximum capacity and within 32 times
    the greater of 64 and the capacity the index was created with (beyond that the next
    insertion can panic, see [reserve_panics]); and there are fewer than [2 ^ 31] calls.
    The condition on the memory ([served]): no array is refused to this run. *)
Theorem hash_index_refines_map capacity ops (Hset : index_setting capacity ops)
    (Hmem : served (index_program capacity ops) (table_new mem 0) = true) :
  ∃ t, run (index_program capacity ops) (table_new mem 0) = Done (index_result capacity ops).1 t.
Proof. destruct (runs_returns _ _ _ (runs_index_program capacity ops Hset) Hmem) as (l & t & Hrun & mn & -> & _). eauto. Qed.

(** C31. An iterator meets every entry once, and only reads. After any program whose
    reservations are bounded ([index_setting]) and that is refused no memory, and also in
    the middle of a resize, the calls of [next] up to the first [None] give the entries of
    the map, each once, and leave the table as it is; [next] comes to an end after at most
    as many turns of its loop as there are buckets. *)
Theorem hash_index_iteration capacity ops (fuel : nat) (Hset : index_setting capacity ops)
    (Hmem : served (index_program capacity ops) (table_new mem 0) = true) :
  ∃ t, run (index_program capacity ops) (table_new mem 0) = Done (index_result capacity ops).1 t ∧
    ((num_visited t < fuel)%nat → ∃ l it, run (drain n fuel) t = Done (l, it) t ∧ l ≡ₚ map_to_list (index_result capacity ops).2).
Proof.
  destruct (runs_returns _ _ _ (runs_index_program capacity ops Hset) Hmem) as (l & t & Hrun & mn & -> & ins & outs & Hl).
  exists t. split; [exact Hrun |]. intros Hf. destruct Hset as [_ _ Hn _].
  pose proof (runs_drain hash Hhash n (allow := never_refuses _) index_maximum_capacity 63 word_range index_maximum _ _ _ _ _ _ t fuel Hl Hn Hf) as Hd.
  apply runs_Done in Hd as ([l2 it] & t' & Hrun2 & -> & Hperm). by exists l2, it.
Qed.

(** C32. The iterator of a hash index is not fused. [Iter] implements [FusedIterator], which
    promises [None] for ever after the first one; but after any program whose reservations
    are bounded ([index_setting]), that is refused no memory and left the index with an
    array, the call of [next] that follows the first [None] asks for the bucket that is two
    after the last one: the assertion on the index panics, and a release build reads outside
    of the array. *)
Theorem index_iter_not_fused capacity ops (fuel : nat) (Hset : index_setting capacity ops)
    (Hmem : served (index_program capacity ops) (table_new mem 0) = true) :
  ∃ t, run (index_program capacity ops) (table_new mem 0) = Done (index_result capacity ops).1 t ∧
    ((bucket_array t).1 ≠ None → (num_visited t < fuel)%nat →
     ∃ it l, run (drain n fuel) t = Done (l, it) t ∧ run (index_iter_next n fuel it) t = Panicked).
Proof.
  destruct (runs_returns _ _ _ (runs_index_program capacity ops Hset) Hmem) as (l & t & Hrun & mn & -> & ins & outs & Hl).
  exists t. split; [exact Hrun |]. intros Hptr Hf. destruct Hset as [_ _ Hn _].
  by eapply (drain_then_next hash Hhash n index_maximum_capacity 63 word_range index_maximum).
Qed.
End Props.

(** ** The theorems at work *)

(** Handles of every kind, resizes and reservations. *)
Definition index_demo : list (index_op Z Z) :=
  ((λ i, IInsert (Z.of_nat i) (10 * Z.of_nat i)) <$> seq 0 70) ++
  [IEntry 7 (IUKey (IUAndModify (λ v, v + 1) (IUOrInsert 0 (IGet (IUpdate 5))))); IPeek 7;
   IEntry 200 (IUOrInsertWithKey (λ k, k * 2) (IGet (IUpdate 6))); IPeekWith 200 (λ k v, k + v);
   IEntry 201 (IUMatch IRemoveEntry IVIntoKey); IEntry 8 (IUMatch IRemoveEntry IVDrop); IContains 8;
   IReserve 100; IGetEntry 9 (IKey (IGetMut (λ v, v * v) (IGet IDrop))); IGetEntry 8 IDrop; IUnreserve 0;
   IRemove 10; IRemove 10; IRemoveIf 11 (λ v, 110 <? v); IRetain (λ k v, (20 <=? k) && (k <? 30)); ILen; IIsEmpty; IInsert 20 0].

(** Only a reservation has a condition. *)
Definition index_plain {K V : Type} (op : index_op K V) : bool :=
  match op with IReserve _ | IUnreserve _ => false | _ => true end.

Lemma index_oks_plain {K V : Type} (F base : Z) (ops ops' : list (index_op K V)) (rs : list Z) :
  forallb index_plain ops = true → index_oks F ops' base rs → index_oks F (ops ++ ops') base rs.
Proof.
  induction ops as [| op ops IH]; [done |]. intros Hp Hok. cbn [forallb] in Hp. apply andb_prop in Hp as [Hop Hops].
  split; [by destruct op |]. by destruct op; try done; apply IH.
Qed.

Lemma index_demo_setting : index_setting 200 0 index_demo.
Proof.
  constructor.
  - split; [done | reflexivity].
  - apply index_oks_plain; [vm_compute; reflexivity |]. do 7 (split; [exact I |]).
    split; [split; [done | right; by apply demo_limits] |]. do 3 (split; [exact I |]).
    rewrite <-(app_nil_r (IRemove 10 :: _)). apply index_oks_plain; [reflexivity | exact I].
  - apply Nat.ltb_lt. vm_compute. reflexivity.
  - apply Z.leb_le. vm_compute. reflexivity.
Qed.

Lemma hash_index_refines_map_witness :
  drop 70 (index_result 0 index_demo).1 =
    [YEvents (Some [EKey 7; EVal 71]); YValue (Some 5); YEvents (Some [EVal 400]); YValue (Some 206);
     YEvents (Some [EKey 201]); YEvents (Some []); YBool false; YReserve (Some 100); YEvents (Some [EKey 9; EVal 8100]);
     YEvents None; YUnit; YBool true; YBool false; YBool false; YUnit; YNumber 10; YBool false; YInsert (inr (20, 0))] ∧
  ∃ t, run (index_program mix 200 0 index_demo) (table_new plentiful 0) = Done (index_result 0 index_demo).1 t.
Proof. split; [vm_compute; reflexivity |]. apply (hash_index_refines_map mix mix_word 200 plentiful 0 index_demo); [apply index_demo_setting | vm_compute; reflexivity]. Defined.

(** The table that the program leaves has an array, and fewer than 100 buckets. *)
Definition index_demo_buckets : option (bool * bool) :=
  match run (index_program mix 200 0 index_demo) (table_new plentiful 0) with
  | Done _ t => Some (bool_decide ((bucket_array t).1 = None), (num_visited t <? 100)%nat)
  | _ => None
  end.

Lemma hash_index_iteration_witness :
  index_demo_buckets = Some (false, true) ∧ ∃ t, run (index_program mix 200 0 index_demo) (table_new plentiful 0) = Done (index_result 0 index_demo).1 t ∧
    ((num_visited t < 100)%nat → ∃ l it, run (drain 200 100) t = Done (l, it) t ∧ l ≡ₚ map_to_list (index_result 0 index_demo).2).
Proof. split; [vm_compute; reflexivity |]. apply (hash_index_iteration mix mix_word 200 plentiful 0 index_demo 100); [apply index_demo_setting | vm_compute; reflexivity]. Defined.

Lemma index_iter_not_fused_witness :
  index_demo_buckets = Some (false, true) ∧ ∃ t, run (index_program mix 200 0 index_demo) (table_new plentiful 0) = Done (index_result 0 index_demo).1 t ∧
    ((bucket_array t).1 ≠ None → (num_visited t < 100)%nat →
     ∃ it l, run (drain 200 100) t = Done (l, it) t ∧ run (index_iter_next 200 100 it) t = Panicked).
Proof. split; [vm_compute; reflexivity |]. apply (index_iter_not_fused mix mix_word 200 plentiful 0 index_demo 100); [apply index_demo_setting | vm_compute; reflexivity]. Defined.
