(* ===== verification/Dimension.v ===== *)
(** * The metadata word of a leaf: [Dimension] in [src/tree_index/leaf.rs]

    The word packs a rank per entry ([num_bits_per_entry] bits each, entry 0 in
    the lowest bits) and, in its two highest bits, the states frozen and retired.
    Rank 0 is an unused entry, rank [removed_rank] an entry that is reserved or
    removed, and the other ranks order the entries by key. *)
From S2P Require Import Prelude Tag.

Local Open Scope Z_scope.

Record Dimension := { num_entries : nat; num_bits_per_entry : nat }.

Definition DIMENSION : Dimension :=
  match (usize_bits / 8)%nat with
  | 1%nat => {| num_entries := 2; num_bits_per_entry := 2 |}
  | 2%nat => {| num_entries := 4; num_bits_per_entry := 3 |}
  | 4%nat => {| num_entries := 7; num_bits_per_entry := 4 |}
  | 8%nat => {| num_entries := 14; num_bits_per_entry := 4 |}
  | _ => {| num_entries := 25; num_bits_per_entry := 5 |}
  end.

Definition frozen (metadata : Z) : bool := negb (Z.land metadata (one_shl (usize_bits - 2)) =? 0).

Definition freeze (metadata : Z) : Z := Z.lor metadata (one_shl (usize_bits - 2)).

Definition thaw (metadata : Z) : Z :=
  Z.land metadata (unot usize_bits (one_shl (usize_bits - 2))).

Definition retired (metadata : Z) : bool := negb (Z.land metadata (one_shl (usize_bits - 1)) =? 0).

Definition retire (metadata : Z) : Z := Z.lor metadata (one_shl (usize_bits - 1)).

Definition rank_mask (self : Dimension) (index : nat) : Z :=
  ushl (one_shl (num_bits_per_entry self) - 1) (index * num_bits_per_entry self).

Definition rank (self : Dimension) (metadata : Z) (index : nat) : Z :=
  ushr metadata (index * num_bits_per_entry self) mod one_shl (num_bits_per_entry self).

Definition uninit_rank : Z := 0.

Definition removed_rank (self : Dimension) : Z := one_shl (num_bits_per_entry self) - 1.

Definition augment (self : Dimension) (metadata : Z) (index : nat) (rank : Z) : Z :=
  Z.lor (Z.land metadata (unot usize_bits (rank_mask self index)))
        (ushl rank (index * num_bits_per_entry self)).

(** ** The dimensions of a 64-bit word *)

Lemma DIMENSION_64 : DIMENSION = {| num_entries := 14; num_bits_per_entry := 4 |}.
Proof. reflexivity. Qed.

(** [Eq1] and [Eq2] of the source: every rank fits its bits, and the ranks and the
    two special bits fit the word. *)
Lemma dimension_eqs :
  Z.of_nat (num_entries DIMENSION) + 2 ≤ 2 ^ Z.of_nat (num_bits_per_entry DIMENSION) ∧
  (num_bits_per_entry DIMENSION * num_entries DIMENSION + 2 ≤ usize_bits)%nat.
Proof. rewrite DIMENSION_64. unfold usize_bits. simpl. lia. Qed.

Abbreviation N := (num_entries DIMENSION).
Abbreviation B := (num_bits_per_entry DIMENSION).
Abbreviation rk m i := (rank DIMENSION m i).
Abbreviation removed := (removed_rank DIMENSION).

(** Slot [i] holds an entry that can be found. *)
Definition valid (m : Z) (i : nat) : Prop := uninit_rank < rk m i < removed.

#[export] Instance valid_dec m i : Decision (valid m i).
Proof. unfold valid. apply _. Defined.

Lemma N_val : N = 14%nat.
Proof. reflexivity. Qed.

Lemma B_val : B = 4%nat.
Proof. reflexivity. Qed.

Lemma pow_B : 2 ^ Z.of_nat B = 16.
Proof. reflexivity. Qed.

(** Arithmetic with the dimensions written out. *)
Ltac dims := rewrite ?N_val, ?B_val in *; unfold usize_bits in *; lia.

Lemma slot_bits i b : (i < N)%nat → (b < B)%nat → (b + i * B < usize_bits - 2)%nat.
Proof. intros. dims. Qed.

Lemma removed_val : removed = 15.
Proof. reflexivity. Qed.

Lemma rank_range m i : 0 ≤ rk m i < 2 ^ Z.of_nat B.
Proof. unfold rank, one_shl. rewrite Z.shiftl_1_l. apply Z.mod_pos_bound. lia. Qed.

Lemma rank_le_removed m i : 0 ≤ rk m i ≤ removed.
Proof. pose proof (rank_range m i) as Hr. rewrite removed_val. simpl in Hr. lia. Qed.

Lemma in_word_rank m i : in_word B (rk m i).
Proof. apply rank_range. Qed.

Lemma bit_rank m i b : bit (rk m i) b = bool_decide (b < B)%nat && bit m (b + i * B).
Proof.
  unfold rank, one_shl. rewrite Z.shiftl_1_l, bit_mod_pow2, bit_ushr. done.
Qed.

Lemma rank_ext m m' i j :
  (∀ b, (b < B)%nat → bit m (b + i * B) = bit m' (b + j * B)) → rk m i = rk m' j.
Proof.
  intros Hb. apply (word_ext B); [apply in_word_rank.. |]. intros b Hlt.
  rewrite !bit_rank, !bool_decide_true by done. simpl. auto.
Qed.

Lemma bit_rank_mask i b :
  bit (rank_mask DIMENSION i) b = bool_decide (i * B ≤ b < (i + 1) * B)%nat.
Proof.
  unfold rank_mask. rewrite bit_ushl.
  replace (one_shl B - 1) with (umax B) by reflexivity. rewrite bit_umax.
  repeat case_bool_decide; simpl; try done; lia.
Qed.

Lemma in_word_rank_mask i : (i < N)%nat → in_word usize_bits (rank_mask DIMENSION i).
Proof.
  intros Hi. apply in_word_bits.
  - unfold rank_mask, ushl. apply Z.shiftl_nonneg. done.
  - intros b Hb. rewrite bit_rank_mask. apply bool_decide_false.
    dims.
Qed.

Lemma in_word_slot i r : (i < N)%nat → in_word B r → in_word usize_bits (ushl r (i * B)).
Proof.
  intros Hi Hr. apply in_word_bits.
  - unfold ushl. apply Z.shiftl_nonneg. apply Hr.
  - intros b Hb. rewrite bit_ushl. case_bool_decide; [| done]. simpl.
    apply (bit_high B); [done |].
    dims.
Qed.

Lemma bit_augment m i r b :
  (b < usize_bits)%nat →
  in_word B r →
  bit (augment DIMENSION m i r) b =
    if decide (i * B ≤ b < (i + 1) * B)%nat then bit r (b - i * B) else bit m b.
Proof.
  intros Hb Hr. unfold augment. rewrite bit_lor, bit_land, bit_unot_low, bit_rank_mask, bit_ushl by done.
  destruct (decide _) as [Hin | Hout].
  - rewrite (bool_decide_true (i * B ≤ b < _)%nat), (bool_decide_true (i * B ≤ b)%nat) by lia.
    by rewrite andb_false_r.
  - rewrite (bool_decide_false (i * B ≤ b < _)%nat) by lia. rewrite andb_true_r.
    case_bool_decide; simpl; [| by rewrite orb_false_r].
    rewrite (bit_high B r) by (done || dims). by rewrite orb_false_r.
Qed.

Lemma in_word_augment m i r :
  (i < N)%nat → in_word B r → in_word usize_bits m → in_word usize_bits (augment DIMENSION m i r).
Proof.
  intros Hi Hr Hm. unfold augment. apply in_word_lor; [by apply in_word_land_l | by apply in_word_slot].
Qed.

Lemma rank_augment_eq m i r : (i < N)%nat → in_word B r → rk (augment DIMENSION m i r) i = r.
Proof.
  intros Hi Hr. apply (word_ext B); [apply in_word_rank | done |]. intros b Hb.
  rewrite bit_rank, bool_decide_true by done. simpl.
  pose proof (slot_bits i b Hi Hb). rewrite bit_augment by (done || dims).
  rewrite decide_True by dims. f_equal. dims.
Qed.

Lemma rank_augment_ne m i j r :
  (i < N)%nat → (j < N)%nat → i ≠ j → in_word B r → rk (augment DIMENSION m i r) j = rk m j.
Proof.
  intros Hi Hj Hne Hr. apply rank_ext. intros b Hb.
  pose proof (slot_bits j b Hj Hb). rewrite bit_augment by (done || dims).
  rewrite decide_False; [done |]. dims.
Qed.

Lemma rank_augment m i j r :
  (i < N)%nat → (j < N)%nat → in_word B r →
  rk (augment DIMENSION m i r) j = if decide (i = j) then r else rk m j.
Proof.
  intros. case_decide; subst; [by apply rank_augment_eq | by apply rank_augment_ne].
Qed.

(** The two words that the sources write by hand. *)
Lemma lor_mask_augment m i :
  (i < N)%nat → in_word usize_bits m →
  Z.lor m (rank_mask DIMENSION i) = augment DIMENSION m i removed.
Proof.
  intros Hi Hm. assert (in_word B removed) by (rewrite removed_val; done).
  apply (word_ext usize_bits);
    [by apply in_word_lor, in_word_rank_mask | by apply in_word_augment |].
  intros b Hb. rewrite bit_lor, bit_rank_mask, bit_augment by done.
  destruct (decide _) as [Hin | Hout].
  - rewrite bool_decide_true by lia. rewrite orb_true_r.
    replace removed with (umax B) by reflexivity. rewrite bit_umax, bool_decide_true by lia. done.
  - rewrite bool_decide_false by lia. by rewrite orb_false_r.
Qed.

Lemma land_mask_augment m i :
  (i < N)%nat → in_word usize_bits m →
  Z.land m (unot usize_bits (rank_mask DIMENSION i)) = augment DIMENSION m i uninit_rank.
Proof.
  intros Hi Hm. unfold augment, uninit_rank, ushl. rewrite Z.shiftl_0_l, Z.lor_0_r. done.
Qed.

(** ** The special bits *)

Lemma frozen_bit m : frozen m = bit m (usize_bits - 2).
Proof. unfold frozen. by rewrite land_bit_test, negb_involutive. Qed.

Lemma retired_bit m : retired m = bit m (usize_bits - 1).
Proof. unfold retired. by rewrite land_bit_test, negb_involutive. Qed.

Lemma rank_special m m' i :
  (i < N)%nat → (∀ b, (b < usize_bits - 2)%nat → bit m b = bit m' b) → rk m i = rk m' i.
Proof. intros Hi Hb. apply rank_ext. intros b Hlt. apply Hb. by apply slot_bits. Qed.

Ltac special :=
  intros; unfold freeze, thaw, retire; rewrite ?frozen_bit, ?retired_bit; autorewrite with word;
  rewrite ?bit_unot_low by (unfold usize_bits; lia); autorewrite with word;
  unfold usize_bits in *; simpl in *;
  repeat (case_bool_decide; try lia); simpl; rewrite ?orb_false_r, ?orb_true_r, ?andb_true_r, ?andb_false_r;
  auto.

Lemma rank_freeze m i : (i < N)%nat → rk (freeze m) i = rk m i.
Proof. intros Hi. apply rank_special; [done |]. special. Qed.

Lemma rank_thaw m i : (i < N)%nat → rk (thaw m) i = rk m i.
Proof. intros Hi. apply rank_special; [done |]. special. Qed.

Lemma rank_retire m i : (i < N)%nat → rk (retire m) i = rk m i.
Proof. intros Hi. apply rank_special; [done |]. special. Qed.

Lemma frozen_freeze m : frozen (freeze m) = true.
Proof. special. Qed.

Lemma frozen_thaw m : frozen (thaw m) = false.
Proof. special. Qed.

Lemma retired_freeze m : retired (freeze m) = retired m.
Proof. special. Qed.

Lemma retired_thaw m : retired (thaw m) = retired m.
Proof. special. Qed.

Lemma retired_retire m : retired (retire m) = true.
Proof. special. Qed.

Lemma frozen_retire m : frozen (retire m) = frozen m.
Proof. special. Qed.

Lemma frozen_augment m i r : (i < N)%nat → in_word B r → frozen (augment DIMENSION m i r) = frozen m.
Proof.
  intros Hi Hr. rewrite !frozen_bit, bit_augment by (done || dims).
  rewrite decide_False; [done |]. dims.
Qed.

Lemma retired_augment m i r : (i < N)%nat → in_word B r → retired (augment DIMENSION m i r) = retired m.
Proof.
  intros Hi Hr. rewrite !retired_bit, bit_augment by (done || dims).
  rewrite decide_False; [done |]. dims.
Qed.

Lemma in_word_freeze m : in_word usize_bits m → in_word usize_bits (freeze m).
Proof. intros. apply in_word_lor; [done |]. apply in_word_one_shl. unfold usize_bits; lia. Qed.

Lemma in_word_thaw m : in_word usize_bits m → in_word usize_bits (thaw m).
Proof. intros. by apply in_word_land_l. Qed.

Lemma in_word_retire m : in_word usize_bits m → in_word usize_bits (retire m).
Proof. intros. apply in_word_lor; [done |]. apply in_word_one_shl. unfold usize_bits; lia. Qed.

Lemma thaw_freeze m : in_word usize_bits m → frozen m = false → thaw (freeze m) = m.
Proof.
  intros Hm Hf. rewrite frozen_bit in Hf. apply (word_ext usize_bits); [by apply in_word_thaw, in_word_freeze | done |].
  intros b Hb. unfold thaw, freeze. autorewrite with word. case_bool_decide as Hc; simpl; [by rewrite <-Hc, Hf |].
  by rewrite orb_false_r, andb_true_r.
Qed.

#[export] Hint Resolve in_word_augment in_word_freeze in_word_thaw in_word_retire in_word_rank : word.

(** ** Iterating over the ranks

    The loops of the source shift a copy of the word: iteration [i] sees the rank
    of entry [i], and the loop may stop when no bit is left. *)
Lemma shifted_rank m i : ushr m (i * B) mod one_shl B = rk m i.
Proof. done. Qed.

Lemma shifted_start m : ushr m (0 * B) = m.
Proof. done. Qed.

Lemma shifted_step m i : ushr (ushr m (i * B)) B = ushr m (S i * B).
Proof. unfold ushr. rewrite Z.shiftr_shiftr by lia. f_equal. lia. Qed.

Lemma shifted_zero m i j : ushr m (i * B) = 0 → (i ≤ j)%nat → rk m j = 0.
Proof.
  intros Hz Hij. apply (word_ext B); [apply in_word_rank | apply in_word_0 |].
  intros b Hb. rewrite bit_rank, bit_0.
  assert (bit (ushr m (i * B)) (b + j * B - i * B) = bit 0 (b + j * B - i * B)) as Hbit by by rewrite Hz.
  rewrite bit_ushr, bit_0 in Hbit. rewrite <-Hbit. rewrite bool_decide_true by done. simpl.
  f_equal. dims.
Qed.

Lemma in_word_removed : in_word B removed.
Proof. done. Qed.

Lemma in_word_uninit : in_word B uninit_rank.
Proof. done. Qed.

Lemma in_word_rank_succ r : 0 ≤ r → r < removed → in_word B (r + 1).
Proof. intros ? Hr. unfold in_word. rewrite pow_B, removed_val in *. lia. Qed.

#[export] Hint Resolve in_word_removed in_word_uninit : word.

(** The dimensions and the words are used through the lemmas above. *)
#[global] Opaque in_word DIMENSION rank removed_rank augment rank_mask frozen retired freeze thaw retire.

Arguments rank : simpl never.
Arguments augment : simpl never.
Arguments rank_mask : simpl never.
Arguments removed_rank : simpl never.
Arguments frozen : simpl never.
Arguments retired : simpl never.
Arguments freeze : simpl never.
Arguments thaw : simpl never.
Arguments retire : simpl never.
Arguments num_entries : simpl never.
Arguments num_bits_per_entry : simpl never.
