(* ===== verification/Leaf.v ===== *)
(** * The leaf of a tree index: [src/tree_index/leaf.rs]

    A leaf is an array of entries, in the order of their insertion, and the
    metadata word that ranks them by key.  An entry that was made reachable is never
    moved or overwritten, so that searches read keys without a lock. *)
From S2P Require Import Prelude Atomic Ord Tag Dimension.

Local Open Scope Z_scope.

Section Operations.
Context {K V : Type} `{KeyOrd K}.

(** [Leaf]: the metadata and the two arrays of [EntryArray]; an entry that is not
    initialised, or was moved out, is [None].  The link to the next leaf belongs to
    the linked list. *)
Record leaf := Leaf {
  metadata : Z;
  keys : list (option K);
  values : list (option V)
}.

Definition set_metadata (m : Z) (s : leaf) : leaf := Leaf m (keys s) (values s).

Definition key_of (s : leaf) (index : nat) : option K := mjoin (keys s !! index).
Definition value_of (s : leaf) (index : nat) : option V := mjoin (values s !! index).

Inductive InsertResult :=
  | Success
  | Duplicate (key : K) (val : V)
  | Full (key : K) (val : V)
  | Frozen (key : K) (val : V)
  | Retired (key : K) (val : V)
  | Retry (key : K) (val : V).

Inductive RemoveResult := RSuccess | RCleanup | RRetired | RFail | RFrozen.

(** [Leaf::new] *)
Definition new : leaf := Leaf 0 (replicate N None) (replicate N None).

(** [for i in 0..DIMENSION.num_entries], [mutable_metadata] being shifted at the end
    of every iteration, and the loop left when it is zero. *)
Fixpoint for_ranks {St A R} (n i : nat) (mutable_metadata : Z)
    (body : nat → Z → A → prog St (flow A R)) (a : A) : prog St (flow A R) :=
  match n with
  | O => Ret (Continue a)
  | S n =>
      if mutable_metadata =? 0 then Ret (Continue a)
      else
        let! x := body i (mutable_metadata mod one_shl B) a in
        match x with
        | Continue a => for_ranks n (S i) (ushr mutable_metadata B) body a
        | Break r => Ret (Break r)
        end
  end.

(** The same loop when its body is a computation without memory accesses. *)
Fixpoint fold_ranks {A R} (n i : nat) (mutable_metadata : Z)
    (body : nat → Z → A → flow A R) (a : A) : flow A R :=
  match n with
  | O => Continue a
  | S n =>
      if mutable_metadata =? 0 then Continue a
      else
        match body i (mutable_metadata mod one_shl B) a with
        | Continue a => fold_ranks n (S i) (ushr mutable_metadata B) body a
        | Break r => Break r
        end
  end.

(** ** The entries *)

Definition key_at (index : nat) : prog leaf K :=
  Act (λ s, (key_of s index, s)) (λ o, match o with Some k => Ret k | None => Panic end).

Definition value_at (index : nat) : prog leaf V :=
  Act (λ s, (value_of s index, s)) (λ o, match o with Some v => Ret v | None => Panic end).

Definition compare (index : nat) (key : K) : prog leaf comparison :=
  let! k := key_at index in Ret (cmp k key).

(** [write]: the key, then the value. *)
Definition write (index : nat) (key : K) (val : V) : prog leaf unit :=
  Act (λ s, ((), Leaf (metadata s) (<[index := Some key]> (keys s)) (values s))) (λ _,
  Act (λ s, ((), Leaf (metadata s) (keys s) (<[index := Some val]> (values s)))) Ret).

(** [take] moves the key, then the value out. *)
Definition take (index : nat) : prog leaf (K * V) :=
  Act (λ s, (key_of s index, Leaf (metadata s) (<[index := None]> (keys s)) (values s))) (λ ok,
  match ok with
  | None => Panic
  | Some key =>
      Act (λ s, (value_of s index, Leaf (metadata s) (keys s) (<[index := None]> (values s)))) (λ ov,
      match ov with
      | None => Panic
      | Some val => Ret (key, val)
      end)
  end).

(** ** State of the leaf *)

Definition leaf_thaw : prog leaf bool :=
  let! r := fetch_update metadata set_metadata (λ p, if frozen p then Some (thaw p) else None) in
  Ret (match r with inl _ => true | inr _ => false end).

Definition leaf_freeze : prog leaf bool :=
  let! r := fetch_update metadata set_metadata (λ p, if frozen p then None else Some (freeze p)) in
  Ret (match r with inl _ => true | inr _ => false end).

Definition is_retired : prog leaf bool :=
  let! m := load metadata in Ret (retired m).

Definition is_empty : prog leaf bool :=
  let! m := load metadata in
  Ret (match fold_ranks N 0 m
               (λ _ rank a,
                 if negb (rank =? uninit_rank) && negb (rank =? removed) then Break false
                 else Continue a) ()
       with Break b => b | Continue _ => true end).

Definition validate (m : Z) : prog leaf bool :=
  let! m' := load metadata in Ret (m' =? m).

(** [max_entry]; [max_key] projects its result. *)
Definition max_entry : prog leaf (option (K * V)) :=
  let! m := load metadata in
  match fold_ranks (R := Empty_set) N 0 m
          (λ i rank '(max_rank, max_index),
            if (max_rank <? rank) && negb (rank =? removed) then Continue (rank, i)
            else Continue (max_rank, max_index)) (0, N)
  with
  | Continue (_, max_index) =>
      if negb (max_index =? N)%nat then
        let! k := key_at max_index in
        let! v := value_at max_index in
        Ret (Some (k, v))
      else Ret None
  | Break r => match r with end
  end.

Definition max_key : prog leaf (option K) :=
  let! e := max_entry in Ret (fst <$> e).

(** ** Searching *)

Definition search_slot (key : K) (m : Z) : prog leaf (option nat) :=
  let! x := for_ranks N 0 m
    (λ i rank '(min_max_rank, max_min_rank),
      if (rank <? min_max_rank) && (max_min_rank <? rank) then
        let! o := compare i key in
        Ret (match o with
             | Lt => Continue (min_max_rank, if max_min_rank <? rank then rank else max_min_rank)
             | Gt => Continue (if rank <? min_max_rank then rank else min_max_rank, max_min_rank)
             | Eq => Break i
             end)
      else Ret (Continue (min_max_rank, max_min_rank))) (removed, 0) in
  Ret (match x with Break i => Some i | Continue _ => None end).

Definition search (key : K) : prog leaf (option V) :=
  let! m := load metadata in
  let! slot := search_slot key m in
  match slot with
  | Some i => let! v := value_at i in Ret (Some v)
  | None => Ret None
  end.

Definition max_less (m : Z) (key : K) : prog leaf nat :=
  let! x := for_ranks (R := Empty_set) N 0 m
    (λ i rank '(min_max_rank, max_min_rank, max_min_index),
      if (rank <? min_max_rank) && (max_min_rank <? rank) then
        let! o := compare i key in
        Ret (match o with
             | Lt => if max_min_rank <? rank then Continue (min_max_rank, rank, i)
                     else Continue (min_max_rank, max_min_rank, max_min_index)
             | Gt => Continue (if rank <? min_max_rank then rank else min_max_rank,
                               max_min_rank, max_min_index)
             | Eq => Continue (rank, max_min_rank, max_min_index)
             end)
      else Ret (Continue (min_max_rank, max_min_rank, max_min_index))) (removed, 0, N) in
  Ret (match x with Continue (_, _, max_min_index) => max_min_index | Break r => match r with end end).

Definition min_greater_equal (key : K) : prog leaf (option (K * V) * Z) :=
  let! m := load metadata in
  let! x := for_ranks N 0 m
    (λ i rank '(min_max_rank, max_min_rank, min_max_index),
      if (rank <? min_max_rank) && (max_min_rank <? rank) then
        let! k := key_at i in
        match cmp k key with
        | Lt => Ret (Continue (min_max_rank, if max_min_rank <? rank then rank else max_min_rank,
                               min_max_index))
        | Gt => Ret (if rank <? min_max_rank then Continue (rank, max_min_rank, i)
                     else Continue (min_max_rank, max_min_rank, min_max_index))
        | Eq => let! v := value_at i in Ret (Break (k, v))
        end
      else Ret (Continue (min_max_rank, max_min_rank, min_max_index))) (removed, 0, N) in
  match x with
  | Break e => Ret (Some e, m)
  | Continue (_, _, min_max_index) =>
      if negb (min_max_index =? N)%nat then
        let! k := key_at min_max_index in
        let! v := value_at min_max_index in
        Ret (Some (k, v), m)
      else Ret (None, m)
  end.

(** ** Insertion *)

Definition rollback (index : nat) : prog leaf InsertResult :=
  let! '(key, val) := take index in
  let! old := fetch_modify metadata set_metadata
                (λ m, Z.land m (unot usize_bits (rank_mask DIMENSION index))) in
  let result := Z.land old (unot usize_bits (rank_mask DIMENSION index)) in
  Ret (if retired result then Retired key val
       else if frozen result then Frozen key val
       else Duplicate key val).

(** The loop of [post_insert] over the ranks: the ranks around the new key, and the
    metadata with the ranks of the greater keys incremented. *)
Definition post_insert_scan (key : K) (prev_metadata : Z)
    : prog leaf (flow (Z * Z * Z) unit) :=
  for_ranks N 0 prev_metadata
    (λ i rank '(min_max_rank, max_min_rank, new_metadata),
      if (rank <? min_max_rank) && (max_min_rank <? rank) then
        let! o := compare i key in
        Ret (match o with
             | Lt => Continue (min_max_rank, if max_min_rank <? rank then rank else max_min_rank,
                               new_metadata)
             | Gt => Continue (if rank <? min_max_rank then rank else min_max_rank, max_min_rank,
                               augment DIMENSION new_metadata i (rank + 1))
             | Eq => Break ()
             end)
      else if negb (rank =? removed) && (min_max_rank <? rank) then
        Ret (Continue (min_max_rank, max_min_rank, augment DIMENSION new_metadata i (rank + 1)))
      else Ret (Continue (min_max_rank, max_min_rank, new_metadata)))
    (removed, 0, prev_metadata).

Definition post_insert (n : nat) (free_slot_index : nat) (prev_metadata : Z)
    : prog leaf InsertResult :=
  let! key := key_at free_slot_index in
  loop n (λ prev_metadata,
    let! x := post_insert_scan key prev_metadata in
    match x with
    | Break _ => let! r := rollback free_slot_index in Ret (Break r)
    | Continue (_, max_min_rank, new_metadata) =>
        let final_metadata := augment DIMENSION new_metadata free_slot_index (max_min_rank + 1) in
        let! r := compare_exchange metadata set_metadata prev_metadata final_metadata in
        match r with
        | inr actual =>
            if frozen actual || retired actual then
              let! r := rollback free_slot_index in Ret (Break r)
            else Ret (Continue actual)
        | inl _ => Ret (Break Success)
        end
    end) prev_metadata.

(** The search for an unused entry in [insert]: this loop has no early exit. *)
Fixpoint uninit_slot (n i : nat) (mutable_metadata : Z) : option nat :=
  match n with
  | O => None
  | S n =>
      if mutable_metadata mod one_shl B =? uninit_rank then Some i
      else uninit_slot n (S i) (ushr mutable_metadata B)
  end.

Definition insert (n : nat) (key : K) (val : V) : prog leaf InsertResult :=
  let! m := load metadata in
  loop n (λ m,
    if retired m then Ret (Break (Retired key val))
    else if frozen m then Ret (Break (Frozen key val))
    else
      match uninit_slot N 0 m with
      | Some i =>
          let interim_metadata := augment DIMENSION m i removed in
          let! r := compare_exchange metadata set_metadata m interim_metadata in
          match r with
          | inr actual => Ret (Continue actual)
          | inl _ =>
              write i key val ;;
              let! r := post_insert n i interim_metadata in
              Ret (Break r)
          end
      | None =>
          let! slot := search_slot key m in
          match slot with
          | Some _ => Ret (Break (Duplicate key val))
          | None => Ret (Break (Full key val))
          end
      end) m.

Definition insert_unchecked (key : K) (val : V) (index : nat) : prog leaf unit :=
  dassert (index <? N)%nat ;;
  let! m := load metadata in
  let new_metadata := augment DIMENSION m index (Z.of_nat index + 1) in
  write index key val ;;
  store set_metadata new_metadata.

(** ** Removal *)

(** Whether no entry other than [i] is reachable. *)
Definition others_empty (i : nat) (m : Z) : bool :=
  match fold_ranks N 0 m
          (λ j rank a,
            if negb (i =? j)%nat && negb (rank =? uninit_rank) && negb (rank =? removed)
            then Break false
            else Continue a) ()
  with Break b => b | Continue _ => true end.

(** The inner loop of [remove_if], once the key was found in entry [i]. *)
Definition remove_found (n : nat) (condition : V → bool) (i : nat) (m : Z)
    : prog leaf RemoveResult :=
  loop n (λ m,
    let! v := value_at i in
    if negb (condition v) then Ret (Break RFail)
    else
      let empty := others_empty i m in
      let new_metadata := Z.lor m (rank_mask DIMENSION i) in
      let new_metadata := if empty then retire new_metadata else new_metadata in
      let! r := compare_exchange metadata set_metadata m new_metadata in
      match r with
      | inl _ => Ret (Break (if empty then RRetired else RSuccess))
      | inr actual =>
          if rank DIMENSION actual i =? removed then Ret (Break RFail)
          else if frozen actual then Ret (Break RFrozen)
          else Ret (Continue actual)
      end) m.

Definition remove_if (n : nat) (key : K) (condition : V → bool) : prog leaf RemoveResult :=
  let! m := load metadata in
  if frozen m then Ret RFrozen
  else
    let! x := for_ranks N 0 m
      (λ i rank '(min_max_rank, max_min_rank),
        if (rank <? min_max_rank) && (max_min_rank <? rank) then
          let! o := compare i key in
          match o with
          | Lt => Ret (Continue (min_max_rank, if max_min_rank <? rank then rank else max_min_rank))
          | Gt => Ret (Continue (if rank <? min_max_rank then rank else min_max_rank, max_min_rank))
          | Eq => let! r := remove_found n condition i m in Ret (Break r)
          end
        else Ret (Continue (min_max_rank, max_min_rank))) (removed, 0) in
    Ret (match x with Break r => r | Continue _ => RFail end).

(** ** Scanning *)

(** [Leaf::next]: the entry with the next higher rank, [N] if there is none. *)
Definition next (index : nat) (m : Z) : nat :=
  let current_entry_rank := if (index =? N)%nat then 0 else rank DIMENSION m index in
  if current_entry_rank <? Z.of_nat N then
    match fold_ranks N 0 m
            (λ i rank '(next_rank, next_index),
              if negb (i =? index)%nat && negb (rank =? uninit_rank) && (rank <? next_rank) then
                if rank =? current_entry_rank + 1 then Break i
                else if current_entry_rank <? rank then Continue (rank, i)
                else Continue (next_rank, next_index)
              else Continue (next_rank, next_index)) (removed, N)
    with
    | Break i => i
    | Continue (_, next_index) => next_index
    end
  else N.

(** [Scanner]: the metadata it was created with and the current entry, [N] before
    the first one and [usize::MAX] after the last one. *)
Record Scanner := { sc_metadata : Z; entry_index : Z }.

Definition scanner_new : prog leaf Scanner :=
  let! m := load metadata in Ret {| sc_metadata := m; entry_index := Z.of_nat N |}.

Definition scanner_max_less (key : K) : prog leaf (option Scanner) :=
  let! m := load metadata in
  let! index := max_less m key in
  Ret (if (index =? N)%nat then None
       else Some {| sc_metadata := m; entry_index := Z.of_nat index |}).

Definition scanner_get (self : Scanner) : prog leaf (option (K * V)) :=
  if Z.of_nat N <=? entry_index self then Ret None
  else
    let! k := key_at (Z.to_nat (entry_index self)) in
    let! v := value_at (Z.to_nat (entry_index self)) in
    Ret (Some (k, v)).

Definition proceed (self : Scanner) : Scanner :=
  if entry_index self =? umax usize_bits then self
  else
    let index := next (Z.to_nat (entry_index self)) (sc_metadata self) in
    if (index =? N)%nat
    then {| sc_metadata := sc_metadata self; entry_index := umax usize_bits |}
    else {| sc_metadata := sc_metadata self; entry_index := Z.of_nat index |}.

(** [impl Iterator for Scanner]: the item and the scanner afterwards. *)
Definition scanner_next (self : Scanner) : prog leaf (option (K * V) * Scanner) :=
  let self := proceed self in
  let! e := scanner_get self in Ret (e, self).

(** [for (i, (k, v)) in scanner.enumerate()], with the fuel [n]. *)
Definition for_each {A} (n : nat) (body : nat → K * V → A → prog leaf A) (sc : Scanner) (a : A)
    : prog leaf A :=
  loop n (λ '(i, sc, a),
    let! '(e, sc) := scanner_next sc in
    match e with
    | None => Ret (Break a)
    | Some e => let! a := body i e a in Ret (Continue (S i, sc, a))
    end) (0%nat, sc, a).

(** ** Splitting *)

Definition optimal_boundary_score (m : Z) : Z :=
  (fix go (n : nat) (mutable_metadata boundary prev_rank : Z) :=
    match n with
    | O => boundary
    | S n =>
        let rank := mutable_metadata mod one_shl B in
        if negb (rank =? 0) && negb (rank =? removed) then
          go n (ushr mutable_metadata B)
             (if prev_rank <? rank then boundary + 1 else boundary - 1) rank
        else go n (ushr mutable_metadata B) boundary prev_rank
    end) N m (Z.of_nat N) 1.

(** [x.clamp(lo, hi)] *)
Definition clamp (x lo hi : Z) : Z := Z.min (Z.max x lo) hi.

Definition optimal_boundary (m : Z) : Z :=
  let n := Z.of_nat N in
  clamp (optimal_boundary_score m) (n / 2 + 1) (n + n / 2 - 1) - n / 2.

(** [get_or_insert_with(|| Shared::new(Leaf::new())).insert_unchecked(..)] on a leaf
    that no other thread can see. *)
Definition insert_into (l : option leaf) (key : K) (val : V) (index : nat) : prog leaf (option leaf) :=
  match run (insert_unchecked key val index) (default new l) with
  | Done _ l' => Ret (Some l')
  | _ => Panic
  end.

(** The fuel of the scan: one iteration per entry and the last one. *)
Definition scan_fuel : nat := S N.

(** [freeze_and_distribute]; a leaf that is frozen already is undefined behaviour
    ([unwrap_unchecked]).  The results are the low-key and the high-key leaf. *)
Definition freeze_and_distribute (low_key_leaf high_key_leaf : option leaf)
    : prog leaf (option leaf * option leaf) :=
  let! r := fetch_update metadata set_metadata (λ p, if frozen p then None else Some (freeze p)) in
  match r with
  | inr _ => Panic
  | inl m =>
      let boundary := Z.to_nat (optimal_boundary m) in
      for_each scan_fuel (λ i '(k, v) '(low, high),
        if (i <? boundary)%nat
        then let! low := insert_into low k v i in Ret (low, high)
        else let! high := insert_into high k v (i - boundary) in Ret (low, high))
        {| sc_metadata := m; entry_index := Z.of_nat N |} (low_key_leaf, high_key_leaf)
  end.

(** [impl Drop for Leaf] *)
Definition drop : prog leaf unit :=
  let! m := load metadata in
  let! _ := for_ranks (R := Empty_set) N 0 m
    (λ i rank _,
      if negb (rank =? uninit_rank) then let! _ := take i in Ret (Continue ())
      else Ret (Continue ())) () in
  Ret ().
End Operations.

Arguments leaf : clear implicits.
Arguments InsertResult : clear implicits.
Arguments Leaf {_ _} _ _ _.
