(* ===== verification/LeafInv.v ===== *)
(** * The invariant of a leaf, and its searches *)
From S2P Require Import Prelude Atomic Ord Tag Dimension Leaf.

Local Open Scope Z_scope.

(** ** The rules of the loops over the ranks *)

Section Loops.
Context {St A R : Type}.

(** The induction that the rules of the three logics ([reads], [runs] and [wp]) share:
    [X] is what a judgement [P] is about besides the program. *)
Lemma for_ranks_ind {X} m (body : nat → Z → A → prog St (flow A R))
    (J : nat → A → X → Prop) (P : prog St (flow A R) → X → Prop) :
  (∀ a x, J N a x → P (Ret (Continue a)) x) →
  (∀ i a x, (i < N)%nat → J i a x → rk m i = 0 → J (S i) a x) →
  (∀ i a x rest, (i < N)%nat → J i a x → (∀ a' x', J (S i) a' x' → P (rest a') x') →
     P (let! y := body i (rk m i) a in
        match y with Continue a => rest a | Break r => Ret (Break r) end) x) →
  ∀ a x, J 0%nat a x → P (for_ranks N 0 m body a) x.
Proof.
  intros Hend Hzero Hbody a x HJ.
  assert (∀ n i a x, (i + n = N)%nat → J i a x → P (for_ranks n i (ushr m (i * B)) body a) x) as Hgen.
  { clear a x HJ. intros n. induction n as [| n IH]; intros i a x Hi HJ; cbn [for_ranks].
    - apply Hend. by replace N with i by lia.
    - destruct (Z.eqb_spec (ushr m (i * B)) 0) as [Hz | _].
      + apply Hend. assert (∀ j, (i ≤ j ≤ N)%nat → J j a x) as Hall; [| by apply Hall; lia].
        intros j Hj. induction j as [| j IHj]; [by replace i with O in HJ by lia |].
        destruct (decide (i = S j)) as [-> |]; [done |].
        apply Hzero; [lia | apply IHj; lia |]. apply (shifted_zero m i); [done | lia].
      + rewrite shifted_rank, shifted_step. apply Hbody; [lia | done |].
        intros a' x' HJ'. apply IH; [lia | done]. }
  specialize (Hgen N 0%nat a x eq_refl HJ). by rewrite shifted_start in Hgen.
Qed.

Lemma for_ranks_rule (P : St → Prop) m (body : nat → Z → A → prog St (flow A R))
    (J : nat → A → Prop) (Q : R → Prop) :
  (∀ i a, (i < N)%nat → J i a →
    reads P (body i (rk m i) a)
      (λ x, match x with Continue a' => J (S i) a' | Break r => Q r end)) →
  (∀ i a, (i < N)%nat → J i a → rk m i = 0 → J (S i) a) →
  ∀ a, J 0%nat a →
  reads P (for_ranks N 0 m body a)
    (λ x, match x with Continue a' => J N a' | Break r => Q r end).
Proof.
  intros Hbody Hzero a HJ.
  apply (for_ranks_ind m body (λ i a (_ : unit), J i a) (λ p _, reads P p _)); [done | by eauto | | exact () | done].
  intros i a' x rest Hi HJ' Hrest. eapply reads_call; [by apply Hbody |].
  intros [a'' | r]; [by apply Hrest | done].
Qed.

Lemma runs_for_ranks m (body : nat → Z → A → prog St (flow A R))
    (J : nat → A → St → Prop) (Q : R → St → Prop) :
  (∀ i a s, (i < N)%nat → J i a s →
    runs (body i (rk m i) a) s
      (λ x s', match x with Continue a' => J (S i) a' s' | Break r => Q r s' end)) →
  (∀ i a s, (i < N)%nat → J i a s → rk m i = 0 → J (S i) a s) →
  ∀ a s, J 0%nat a s →
  runs (for_ranks N 0 m body a) s
    (λ x s', match x with Continue a' => J N a' s' | Break r => Q r s' end).
Proof.
  intros Hbody Hzero. apply (for_ranks_ind m body J (λ p s, runs p s _)); [done | done |].
  intros i a s rest Hi HJ Hrest. eapply runs_call; [by apply Hbody |].
  intros [a' | r] s'; [apply Hrest | by intros ?; apply runs_ret].
Qed.

Lemma wp_for_ranks {L} (Inv : St → list L → Prop) t m (body : nat → Z → A → prog St (flow A R))
    (J : nat → A → L → Prop) (Q : R → L → Prop) :
  (∀ i a l, (i < N)%nat → J i a l →
    wp Inv t (body i (rk m i) a) l
      (λ x l', match x with Continue a' => J (S i) a' l' | Break r => Q r l' end)) →
  (∀ i a l, (i < N)%nat → J i a l → rk m i = 0 → J (S i) a l) →
  ∀ a l, J 0%nat a l →
  wp Inv t (for_ranks N 0 m body a) l
    (λ x l', match x with Continue a' => J N a' l' | Break r => Q r l' end).
Proof.
  intros Hbody Hzero. apply (for_ranks_ind m body J (λ p l, wp Inv t p l _)); [done | done |].
  intros i a l rest Hi HJ Hrest. eapply wp_call; [by apply Hbody |].
  intros [a' | r] l'; [apply Hrest | done].
Qed.

Lemma fold_ranks_rule m (body : nat → Z → A → flow A R) (J : nat → A → Prop) (Q : R → Prop) :
  (∀ i a, (i < N)%nat → J i a →
    match body i (rk m i) a with Continue a' => J (S i) a' | Break r => Q r end) →
  (∀ i a, (i < N)%nat → J i a → rk m i = 0 → J (S i) a) →
  ∀ a, J 0%nat a →
  match fold_ranks N 0 m body a with Continue a' => J N a' | Break r => Q r end.
Proof.
  intros Hbody Hzero a HJ.
  assert (∀ n i a, (i + n = N)%nat → J i a →
    match fold_ranks n i (ushr m (i * B)) body a with Continue a' => J N a' | Break r => Q r end) as Hgen.
  { clear a HJ. intros n. induction n as [| n IH]; intros i a Hi HJ; cbn [fold_ranks].
    - by replace N with i by lia.
    - destruct (Z.eqb_spec (ushr m (i * B)) 0) as [Hz | _].
      + assert (∀ j, (i ≤ j ≤ N)%nat → J j a) as Hall; [| by apply Hall; lia].
        intros j Hj. induction j as [| j IHj]; [by replace i with O in HJ by lia |].
        destruct (decide (i = S j)) as [-> |]; [done |].
        apply Hzero; [lia | apply IHj; lia |]. apply (shifted_zero m i); [done | lia].
      + specialize (Hbody i a ltac:(lia) HJ). rewrite shifted_rank.
        destruct (body i (rk m i) a) as [a' | r]; [| done]. rewrite shifted_step. apply IH; [lia | done]. }
  specialize (Hgen N 0%nat a eq_refl HJ). by rewrite shifted_start in Hgen.
Qed.
End Loops.

Arguments for_ranks : simpl never.
Arguments fold_ranks : simpl never.

(** ** Snapshots

    A search works on a metadata word it has read and on the keys of the entries
    that the word ranks.  [e] gives these entries: what the searching thread knows
    of the arrays. *)
Section Snapshot.
Context {K V : Type} `{KeyOrd K}.

Definition entry (s : leaf K V) (i : nat) : option (K * V) :=
  match key_of s i, value_of s i with
  | Some k, Some v => Some (k, v)
  | _, _ => None
  end.

Definition agrees (e : nat → option (K * V)) (s : leaf K V) : Prop :=
  ∀ i a, (i < N)%nat → e i = Some a → entry s i = Some a.

(** Entry [a] is what [m] ranks in slot [i]. *)
Definition ranked (e : nat → option (K * V)) (m : Z) (i : nat) (a : K * V) : Prop :=
  (i < N)%nat ∧ valid m i ∧ e i = Some a.

Record snapshot (e : nat → option (K * V)) (m : Z) : Prop := {
  snap_some : ∀ i, (i < N)%nat → valid m i → is_Some (e i);
  snap_order : ∀ i j a b, ranked e m i a → ranked e m j b → i ≠ j →
    rk m i ≠ rk m j ∧ (rk m i < rk m j → cmp a.1 b.1 = Lt)
}.

Lemma ranked_fun e m i a b : ranked e m i a → ranked e m i b → a = b.
Proof. intros (_ & _ & Ha) (_ & _ & Hb). congruence. Qed.

Lemma snap_lt e m i j a b :
  snapshot e m → ranked e m i a → ranked e m j b → rk m i < rk m j ↔ cmp a.1 b.1 = Lt.
Proof.
  intros Hs Hi Hj. destruct (decide (i = j)) as [-> | Hne].
  - rewrite (ranked_fun _ _ _ _ _ Hi Hj), cmp_refl. split; [lia | done].
  - destruct (snap_order _ _ Hs i j a b Hi Hj Hne) as [Hd Hlt].
    destruct (snap_order _ _ Hs j i b a Hj Hi ltac:(auto)) as [_ Hgt].
    split; [done |]. intros Hc. destruct (Z.lt_total (rk m i) (rk m j)) as [| [|]]; [done | done |].
    specialize (Hgt ltac:(done)). by apply cmp_lt_asym in Hc.
Qed.

Lemma snap_inj e m i j a b :
  snapshot e m → ranked e m i a → ranked e m j b → a.1 = b.1 → i = j.
Proof.
  intros Hs Hi Hj Heq. destruct (decide (i = j)) as [| Hne]; [done |].
  destruct (snap_order _ _ Hs i j a b Hi Hj Hne) as [Hd _].
  pose proof (snap_lt _ _ _ _ _ _ Hs Hi Hj) as H1. pose proof (snap_lt _ _ _ _ _ _ Hs Hj Hi) as H2.
  rewrite Heq, cmp_refl in *. destruct H1 as [H1 _], H2 as [H2 _].
  destruct (Z.lt_total (rk m i) (rk m j)) as [Hx | [Hx | Hx]]; [by specialize (H1 Hx) | done | by specialize (H2 Hx)].
Qed.

(** The ranks around [k] among the first [i] slots: [mx] is the highest rank of the
    smaller keys, [mn] the lowest rank of the others. *)
Record located e m (k : K) (i : nat) (mn mx : Z) : Prop := {
  loc_low : ∀ j a, (j < i)%nat → ranked e m j a → cmp a.1 k = Lt → rk m j ≤ mx;
  loc_low_tight : mx = 0 ∨ ∃ j a, (j < i)%nat ∧ ranked e m j a ∧ cmp a.1 k = Lt ∧ rk m j = mx;
  loc_high : ∀ j a, (j < i)%nat → ranked e m j a → cmp a.1 k ≠ Lt → mn ≤ rk m j;
  loc_high_tight : mn = removed ∨ ∃ j a, (j < i)%nat ∧ ranked e m j a ∧ cmp a.1 k ≠ Lt ∧ rk m j = mn
}.

Definition absent e m (k : K) (i : nat) : Prop :=
  ∀ j a, (j < i)%nat → ranked e m j a → cmp a.1 k ≠ Eq.

Definition in_window (r mn mx : Z) : bool := (r <? mn) && (mx <? r).

Lemma located_0 e m k : located e m k 0 removed 0.
Proof. constructor; auto; lia. Qed.

Lemma absent_0 e m k : absent e m k 0.
Proof. intros j a. lia. Qed.

Lemma located_range e m k i mn mx : located e m k i mn mx → 0 ≤ mx ∧ mn ≤ removed ∧ mx < removed.
Proof.
  intros [_ Hl _ Hh]. split_and!.
  - destruct Hl as [-> | (j & a & _ & (_ & [? ?] & _) & _ & <-)]; [lia | unfold uninit_rank in *; lia].
  - destruct Hh as [-> | (j & a & _ & (_ & [? ?] & _) & _ & <-)]; lia.
  - destruct Hl as [-> | (j & a & _ & (_ & [? ?] & _) & _ & <-)]; [rewrite removed_val; lia | lia].
Qed.

Lemma window_valid e m k i mn mx :
  located e m k i mn mx → in_window (rk m i) mn mx = true → valid m i.
Proof.
  intros Hl [Hn%Z.ltb_lt Hx%Z.ltb_lt]%andb_true_iff. apply located_range in Hl.
  unfold valid, uninit_rank. lia.
Qed.

Lemma window_ranked e m k i mn mx :
  snapshot e m → (i < N)%nat → located e m k i mn mx → in_window (rk m i) mn mx = true →
  ∃ a, ranked e m i a.
Proof.
  intros Hs Hi Hl Hw. pose proof (window_valid _ _ _ _ _ _ Hl Hw) as Hv.
  destruct (snap_some _ _ Hs i Hi Hv) as [a Ha]. by exists a.
Qed.

Lemma located_lt e m k i mn mx a :
  located e m k i mn mx → in_window (rk m i) mn mx = true → ranked e m i a → cmp a.1 k = Lt →
  located e m k (S i) mn (rk m i).
Proof.
  intros [Hl1 Hl2 Hh1 Hh2] [Hn%Z.ltb_lt Hx%Z.ltb_lt]%andb_true_iff Ha Hc. constructor.
  - intros j b Hj Hb Hcb. destruct (decide (j = i)) as [-> |]; [lia |].
    specialize (Hl1 j b ltac:(lia) Hb Hcb). lia.
  - right. exists i, a. split_and!; auto with lia.
  - intros j b Hj Hb Hcb. destruct (decide (j = i)) as [-> |].
    + by rewrite (ranked_fun _ _ _ _ _ Hb Ha) in Hcb.
    + apply (Hh1 j b); [lia | done | done].
  - destruct Hh2 as [| (j & b & ? & ?)]; [by left | right]. exists j, b. split; [lia | done].
Qed.

Lemma located_ge e m k i mn mx a :
  located e m k i mn mx → in_window (rk m i) mn mx = true → ranked e m i a → cmp a.1 k ≠ Lt →
  located e m k (S i) (rk m i) mx.
Proof.
  intros [Hl1 Hl2 Hh1 Hh2] [Hn%Z.ltb_lt Hx%Z.ltb_lt]%andb_true_iff Ha Hc. constructor.
  - intros j b Hj Hb Hcb. destruct (decide (j = i)) as [-> |].
    + by rewrite (ranked_fun _ _ _ _ _ Hb Ha) in Hcb.
    + apply (Hl1 j b); [lia | done | done].
  - destruct Hl2 as [| (j & b & ? & ?)]; [by left | right]. exists j, b. split; [lia | done].
  - intros j b Hj Hb Hcb. destruct (decide (j = i)) as [-> |]; [lia |].
    specialize (Hh1 j b ltac:(lia) Hb Hcb). lia.
  - right. exists i, a. split_and!; auto with lia.
Qed.

(** A slot outside of the window needs no comparison: its rank tells on which side
    its key is. *)
Lemma outside_lt e m k n i mn mx a :
  snapshot e m → located e m k n mn mx → ranked e m i a → rk m i ≤ mx → cmp a.1 k = Lt.
Proof.
  intros Hs Hl Ha Hle. destruct (loc_low_tight _ _ _ _ _ _ Hl) as [-> | (j & b & Hj & Hb & Hc & <-)].
  - destruct Ha as (_ & [? _] & _). unfold uninit_rank in *. lia.
  - destruct (decide (i = j)) as [-> |]; [by rewrite (ranked_fun _ _ _ _ _ Ha Hb) |].
    apply (cmp_trans _ b.1); [| done]. apply (snap_lt _ _ _ _ _ _ Hs Ha Hb).
    destruct (snap_order _ _ Hs i j a b Ha Hb); lia.
Qed.

Lemma outside_gt e m k n i mn mx a :
  snapshot e m → located e m k n mn mx → (n ≤ i)%nat → ranked e m i a → mn ≤ rk m i →
  cmp a.1 k = Gt.
Proof.
  intros Hs Hl Hn Ha Hle. destruct (loc_high_tight _ _ _ _ _ _ Hl) as [-> | (j & b & Hj & Hb & Hc & <-)].
  - destruct Ha as (_ & [_ ?] & _). lia.
  - assert (cmp b.1 a.1 = Lt) as Hba.
    { apply (snap_lt _ _ _ _ _ _ Hs Hb Ha). destruct (snap_order _ _ Hs j i b a Hb Ha); lia. }
    apply cmp_gt_lt. destruct (cmp b.1 k) eqn:Hbk; [| done |].
    + apply cmp_eq in Hbk. by rewrite <-Hbk.
    + apply cmp_gt_lt in Hbk. by eapply cmp_trans.
Qed.

Lemma located_skip e m k i mn mx :
  snapshot e m → located e m k i mn mx → in_window (rk m i) mn mx = false →
  located e m k (S i) mn mx ∧ ∀ a, ranked e m i a → cmp a.1 k ≠ Eq.
Proof.
  intros Hs Hl Hw.
  assert (Hcase : ∀ a, ranked e m i a → (rk m i ≤ mx ∧ cmp a.1 k = Lt) ∨ (mn ≤ rk m i ∧ cmp a.1 k = Gt)).
  { intros a Ha. apply andb_false_iff in Hw as [Hn%Z.ltb_ge | Hx%Z.ltb_ge].
    - right. split; [done | by eapply outside_gt].
    - left. split; [done | by eapply outside_lt]. }
  split; [| intros a Ha; destruct (Hcase a Ha) as [[_ ->] | [_ ->]]; done].
  destruct Hl as [Hl1 Hl2 Hh1 Hh2]. constructor.
  - intros j b Hj Hb Hcb. destruct (decide (j = i)) as [-> |]; [| apply (Hl1 j b); [lia | done | done]].
    destruct (Hcase b Hb) as [[? ?] | [? ?]]; [done | congruence].
  - destruct Hl2 as [| (j & b & ? & ?)]; [by left | right]. exists j, b. split; [lia | done].
  - intros j b Hj Hb Hcb. destruct (decide (j = i)) as [-> |]; [| apply (Hh1 j b); [lia | done | done]].
    destruct (Hcase b Hb) as [[? ?] | [? ?]]; [done | done].
  - destruct Hh2 as [| (j & b & ? & ?)]; [by left | right]. exists j, b. split; [lia | done].
Qed.

Lemma located_zero e m k i mn mx :
  snapshot e m → located e m k i mn mx → rk m i = 0 → located e m k (S i) mn mx.
Proof.
  intros Hs Hl Hz. apply (located_skip e m k i mn mx Hs Hl). apply andb_false_iff. right.
  apply Z.ltb_ge. apply located_range in Hl. lia.
Qed.

Lemma absent_S e m k i :
  absent e m k i → (∀ a, ranked e m i a → cmp a.1 k ≠ Eq) → absent e m k (S i).
Proof.
  intros Ha Hi j b Hj Hb. destruct (decide (j = i)) as [-> |]; [by apply Hi |].
  apply (Ha j b); [lia | done].
Qed.

Lemma zero_not_ranked e m i a : rk m i = 0 → ¬ ranked e m i a.
Proof. intros Hz (_ & [Hv _] & _). unfold uninit_rank in *. lia. Qed.
End Snapshot.

(** ** The searches *)

(** The window test of an iteration of a search. *)
Ltac in_window_cases Hs Hi Hl a Ha :=
  match goal with
  | |- context [(?r <? ?mn) && (?mx <? ?r)] =>
      change ((r <? mn) && (mx <? r)) with (in_window r mn mx);
      let Hw := fresh "Hw" in
      destruct (in_window r mn mx) eqn:Hw;
      [destruct (window_ranked _ _ _ _ _ _ Hs Hi Hl Hw) as [a Ha]; pose proof Hw as Hw';
       apply andb_true_iff in Hw' as [Hlt1 Hlt2]
      | destruct (located_skip _ _ _ _ _ _ Hs Hl Hw) as [Hskip Hne]]
  end.


Section Searches.
Context {K V : Type} `{KeyOrd K}.
Implicit Types (e : nat → option (K * V)) (k : K).

Lemma entry_split (s : leaf K V) i k v :
  entry s i = Some (k, v) ↔ key_of s i = Some k ∧ value_of s i = Some v.
Proof.
  unfold entry. destruct (key_of s i), (value_of s i); split; intros;
    repeat match goal with H : _ ∧ _ |- _ => destruct H end; by simplify_eq.
Qed.

Lemma reads_key_at e m i a :
  ranked e m i a → reads (agrees e) (key_at (V := V) i) (λ k, k = a.1).
Proof.
  intros (Hi & _ & Ha) s Hs. destruct a as [k v]. apply (Hs i) in Ha; [| done].
  apply entry_split in Ha as [Hk _]. simpl. by rewrite Hk.
Qed.

Lemma reads_value_at e m i a :
  ranked e m i a → reads (agrees e) (value_at (K := K) i) (λ v, v = a.2).
Proof.
  intros (Hi & _ & Ha) s Hs. destruct a as [k v]. apply (Hs i) in Ha; [| done].
  apply entry_split in Ha as [_ Hv]. simpl. by rewrite Hv.
Qed.

Lemma reads_compare e m i a key :
  ranked e m i a → reads (agrees e) (compare (V := V) i key) (λ o, o = cmp a.1 key).
Proof. intros Ha. eapply reads_call; [by eapply reads_key_at |]. by intros k ->. Qed.

(** Reading a whole entry. *)
Lemma reads_entry {R} e m i a (cont : K → V → prog (leaf K V) R) Q :
  ranked e m i a → reads (agrees e) (cont a.1 a.2) Q →
  reads (agrees e) (let! k := key_at i in let! v := value_at i in cont k v) Q.
Proof.
  intros Ha Hc. eapply reads_call; [by eapply reads_key_at |]. intros ? ->.
  eapply reads_call; [by eapply reads_value_at |]. by intros ? ->.
Qed.

Lemma search_slot_spec e m key :
  snapshot e m →
  reads (agrees e) (search_slot (V := V) key m)
    (λ r, match r with
          | Some i => ∃ a, ranked e m i a ∧ a.1 = key
          | None => ∀ i a, ranked e m i a → a.1 ≠ key
          end).
Proof.
  intros Hs. unfold search_slot. eapply reads_call.
  - apply (for_ranks_rule _ _ _
      (λ i '(mn, mx), located e m key i mn mx ∧ absent e m key i)
      (λ i, ∃ a, ranked e m i a ∧ a.1 = key)).
    + intros i [mn mx] Hi [Hl Hab]. in_window_cases Hs Hi Hl a Ha.
      * eapply reads_call; [by eapply reads_compare |]. intros o ->. rewrite Hlt1, Hlt2.
        destruct (cmp a.1 key) eqn:Hc; simpl.
        -- exists a. split; [done | by apply cmp_eq].
        -- split; [by eapply located_lt |]. apply absent_S; [done |].
           intros b Hb. rewrite (ranked_fun _ _ _ _ _ Hb Ha). congruence.
        -- split; [eapply located_ge; eauto; congruence |]. apply absent_S; [done |].
           intros b Hb. rewrite (ranked_fun _ _ _ _ _ Hb Ha). congruence.
      * simpl. split; [done | by apply absent_S].
    + intros i [mn mx] Hi [Hl Hab] Hz. split; [by apply located_zero |].
      apply absent_S; [done |]. intros a Ha. by apply zero_not_ranked in Ha.
    + split; [apply located_0 | apply absent_0].
  - intros [[mn mx] | i]; simpl; [| done]. intros [_ Hab] i a Ha Heq.
    apply (Hab i a); [by destruct Ha | done | by apply cmp_eq].
Qed.

Definition max_less_result e m key (r : nat) : Prop :=
  if decide (r = N) then ∀ i a, ranked e m i a → cmp a.1 key ≠ Lt
  else ∃ a, ranked e m r a ∧ cmp a.1 key = Lt ∧
       ∀ i b, ranked e m i b → cmp b.1 key = Lt → rk m i ≤ rk m r.

Lemma max_less_spec e m key :
  snapshot e m → reads (agrees e) (max_less (V := V) m key) (max_less_result e m key).
Proof.
  intros Hs. unfold max_less. eapply reads_call.
  - apply (for_ranks_rule _ _ _
      (λ i '(mn, mx, idx), located e m key i mn mx ∧
         (if decide (idx = N) then mx = 0
          else ∃ a, ranked e m idx a ∧ cmp a.1 key = Lt ∧ rk m idx = mx)) (λ _, False)).
    + intros i [[mn mx] idx] Hi [Hl Hidx]. in_window_cases Hs Hi Hl a Ha.
      * eapply reads_call; [by eapply reads_compare |]. intros o ->. rewrite Hlt1, Hlt2.
        destruct (cmp a.1 key) eqn:Hc; simpl.
        -- split; [eapply located_ge; eauto; congruence | done].
        -- split; [by eapply located_lt |]. rewrite decide_False by dims. eauto.
        -- split; [eapply located_ge; eauto; congruence | done].
      * by simpl.
    + intros i [[mn mx] idx] Hi [Hl Hidx] Hz. split; [by apply located_zero | done].
    + split; [apply located_0 |]. by rewrite decide_True.
  - intros [[[mn mx] idx] | []]; cbn [reads]. intros [Hl Hidx]. unfold max_less_result.
    case_decide.
    + intros i a Ha Hc. pose proof (loc_low _ _ _ _ _ _ Hl i a ltac:(by destruct Ha) Ha Hc).
      destruct Ha as (_ & [? _] & _). unfold uninit_rank in *. lia.
    + destruct Hidx as (a & Ha & Hc & Hrk). exists a. split_and!; [done | done |].
      intros i b Hb Hcb. rewrite Hrk. apply (loc_low _ _ _ _ _ _ Hl i b); [by destruct Hb | done | done].
Qed.

(** The entry with the lowest key that is not below [key], and its absence. *)
Definition min_ge_result e m key (r : option (K * V)) : Prop :=
  match r with
  | None => ∀ i a, ranked e m i a → cmp a.1 key = Lt
  | Some a => ∃ i, ranked e m i a ∧ cmp a.1 key ≠ Lt ∧
              ∀ j b, ranked e m j b → cmp b.1 key ≠ Lt → rk m i ≤ rk m j
  end.

(** [min_greater_equal] after its first load. *)
Lemma min_ge_scan e m key :
  snapshot e m →
  reads (agrees e)
    (for_ranks N 0 m
      (λ i rank '(min_max_rank, max_min_rank, min_max_index),
      if (rank <? min_max_rank) && (max_min_rank <? rank) then
        let! k := key_at i in
        match cmp k key with
        | Lt => Ret (Continue (min_max_rank, if max_min_rank <? rank then rank else max_min_rank,
                               min_max_index))
        | Gt => Ret (if rank <? min_max_rank then Continue (rank, max_min_rank, i)
                     else Continue (min_max_rank, max_min_rank, min_max_index))
        | Eq => let! v := value_at i in Ret (Break (k, v))
        end
      else Ret (Continue (min_max_rank, max_min_rank, min_max_index))) (removed, 0, N))
    (λ x, match x with
          | Break a => min_ge_result e m key (Some a)
          | Continue (_, _, idx) =>
              if decide (idx = N) then min_ge_result e m key None
              else ∃ a, ranked e m idx a ∧ min_ge_result e m key (Some a)
          end).
Proof.
  intros Hs. eapply reads_mono; [| apply (for_ranks_rule _ _ _
      (λ i '(mn, mx, idx), located e m key i mn mx ∧
         (if decide (idx = N) then mn = removed
          else ∃ a, ranked e m idx a ∧ cmp a.1 key ≠ Lt ∧ rk m idx = mn))
      (λ a, min_ge_result e m key (Some a)))].
  - intros [[[mn mx] idx] | a]; [| done]. intros [Hl Hidx]. case_decide.
    + intros i a Ha. destruct (cmp a.1 key) eqn:Hc; [| done |];
        pose proof (loc_high _ _ _ _ _ _ Hl i a ltac:(by destruct Ha) Ha ltac:(congruence));
        destruct Ha as (_ & [_ ?] & _); lia.
    + destruct Hidx as (a & Ha & Hc & Hrk). exists a. split; [done |].
      exists idx. split_and!; [done.. |]. intros j b Hb Hcb. rewrite Hrk.
      apply (loc_high _ _ _ _ _ _ Hl j b); [by destruct Hb | done | done].
  - intros i [[mn mx] idx] Hi [Hl Hidx]. in_window_cases Hs Hi Hl a Ha.
    + eapply reads_call; [by eapply reads_key_at |]. intros ? ->. rewrite Hlt1, Hlt2.
      destruct (cmp a.1 key) eqn:Hc.
      * eapply reads_call; [by eapply reads_value_at |]. intros ? ->. cbn [reads]. exists i.
        replace (a.1, a.2) with a by by destruct a. split_and!; [done | congruence |].
        intros j b Hb Hcb. apply cmp_eq in Hc. rewrite <-Hc in Hcb.
        destruct (decide (rk m i ≤ rk m j)) as [| Hgt]; [done |].
        exfalso. apply Hcb. apply (snap_lt _ _ _ _ _ _ Hs Hb Ha). lia.
      * cbn [reads]. split; [by eapply located_lt | done].
      * cbn [reads]. split; [eapply located_ge; eauto; congruence |].
        rewrite decide_False by lia. exists a. split_and!; [done | congruence | done].
    + by simpl.
  - intros i [[mn mx] idx] Hi [Hl Hidx] Hz. split; [by apply located_zero | done].
  - split; [apply located_0 |]. by rewrite decide_True.
Qed.
End Searches.

(** ** What [post_insert] computes *)

Section PostInsert.
Context {K V : Type} `{KeyOrd K}.
Implicit Types (e : nat → option (K * V)) (k : K).

(** The rank of slot [j] after the slots below [i] were visited: the ranks of the
    greater keys are shifted by one. *)
Definition shifted e m key i new : Prop :=
  in_word usize_bits new ∧ frozen new = frozen m ∧ retired new = retired m ∧
  ∀ j, (j < N)%nat →
    ((j < i)%nat → ∀ a, ranked e m j a → cmp a.1 key = Gt → rk new j = rk m j + 1) ∧
    ((i ≤ j)%nat ∨ ¬ valid m j ∨ (∃ a, ranked e m j a ∧ cmp a.1 key = Lt) → rk new j = rk m j).

Lemma shifted_keep e m key i new :
  (i < N)%nat → shifted e m key i new →
  ¬ valid m i ∨ (∃ a, ranked e m i a ∧ cmp a.1 key = Lt) → shifted e m key (S i) new.
Proof.
  intros Hi (Hw & Hf & Hr & Hj) Hcase. split_and!; [done.. |]. intros j Hlt.
  destruct (Hj j Hlt) as [Hgt Hsame]. split.
  - intros Hji a Ha Hc. destruct (decide (j = i)) as [-> |]; [| apply (Hgt ltac:(lia) a Ha Hc)].
    destruct Hcase as [Hv | (b & Hb & Hcb)]; [by destruct Ha as (_ & ? & _) |].
    rewrite (ranked_fun _ _ _ _ _ Ha Hb) in Hc. congruence.
  - intros [Hle | Hor]; [apply Hsame; left; lia | apply Hsame; by right].
Qed.

Lemma shifted_inc e m key i new a :
  shifted e m key i new → ranked e m i a → cmp a.1 key = Gt →
  shifted e m key (S i) (augment DIMENSION new i (rk m i + 1)).
Proof.
  intros (Hw & Hf & Hr & Hj) Ha Hc. destruct Ha as (Hi & Hv & He) eqn:HA. clear HA.
  assert (in_word B (rk m i + 1)) as Hwr.
  { destruct Hv. apply in_word_rank_succ; unfold uninit_rank in *; lia. }
  split_and!; [by apply in_word_augment | by rewrite frozen_augment | by rewrite retired_augment |].
  intros j Hlt. destruct (Hj j Hlt) as [Hgt Hsame]. rewrite rank_augment by done. case_decide; subst.
  - split; [done |]. intros [? | [? | (b & Hb & Hcb)]]; [lia | done |].
    rewrite (ranked_fun _ _ _ _ _ Hb Ha) in Hcb. congruence.
  - split; [intros Hji; apply Hgt; lia |]. intros [Hle | Hor]; apply Hsame; [left; lia | by right].
Qed.

Lemma post_insert_scan_spec e m key :
  snapshot e m → in_word usize_bits m →
  reads (agrees e) (post_insert_scan (V := V) key m)
    (λ x, match x with
          | Break _ => ∃ i a, ranked e m i a ∧ a.1 = key
          | Continue (mn, mx, new) =>
              located e m key N mn mx ∧ absent e m key N ∧ shifted e m key N new
          end).
Proof.
  intros Hs Hm. unfold post_insert_scan.
  eapply reads_mono; [| apply (for_ranks_rule _ _ _
    (λ i '(mn, mx, new), located e m key i mn mx ∧ absent e m key i ∧ shifted e m key i new)
    (λ _, ∃ i a, ranked e m i a ∧ a.1 = key))].
  - by intros [[[mn mx] new] | []].
  - intros i [[mn mx] new] Hi (Hl & Hab & Hsh). in_window_cases Hs Hi Hl a Ha.
    + eapply reads_call; [by eapply reads_compare |]. intros o ->. rewrite Hlt1, Hlt2.
      assert (Habs : cmp a.1 key ≠ Eq → absent e m key (S i)).
      { intros Hne. apply absent_S; [done |]. intros b Hb. by rewrite (ranked_fun _ _ _ _ _ Hb Ha). }
      destruct (cmp a.1 key) eqn:Hc; cbn [reads].
      * exists i, a. split; [done | by apply cmp_eq].
      * split_and!; [by eapply located_lt | by apply Habs |]. apply shifted_keep; eauto.
      * split_and!; [eapply located_ge; eauto; congruence | by apply Habs |].
        by eapply shifted_inc.
    + pose proof (absent_S _ _ _ _ Hab Hne) as Hab'.
      destruct (negb (rk m i =? removed) && (mn <? rk m i)) eqn:Hb.
      * apply andb_true_iff in Hb as [Hnr%negb_true_iff%Z.eqb_neq Hgt%Z.ltb_lt].
        assert (∃ a, ranked e m i a) as [a Ha].
        { assert (valid m i) as Hv.
          { pose proof (rank_le_removed m i). pose proof (located_range _ _ _ _ _ _ Hl).
            destruct (loc_high_tight _ _ _ _ _ _ Hl) as [-> | (j & b & _ & (_ & [? ?] & _) & _ & <-)];
              unfold valid, uninit_rank in *; lia. }
          destruct (snap_some _ _ Hs i Hi Hv) as [a Ha]. by exists a. }
        cbn [reads]. split_and!; [done | done |]. eapply shifted_inc; [done | done |].
        eapply (outside_gt e m key i i mn mx); eauto; lia.
      * cbn [reads]. split_and!; [done | done |]. apply shifted_keep; [done | done |].
        destruct (decide (valid m i)) as [Hv |]; [right | by left].
        destruct (snap_some _ _ Hs i Hi Hv) as [a Ha]. assert (ranked e m i a) as Hra by done.
        exists a. split; [done |].
        apply andb_false_iff in Hb as [Hb%negb_false_iff%Z.eqb_eq | Hb%Z.ltb_ge]; [destruct Hv; lia |].
        apply (outside_lt e m key i i mn mx); [done.. |].
        apply andb_false_iff in Hw as [Hw%Z.ltb_ge | Hw%Z.ltb_ge]; [| done].
        exfalso. destruct (loc_high_tight _ _ _ _ _ _ Hl) as [-> | (j & b & Hj & Hb' & _ & Hrk)];
          [destruct Hv; lia |].
        destruct (snap_order _ _ Hs i j a b Hra Hb'); lia.
  - intros i [[mn mx] new] Hi (Hl & Hab & Hsh) Hz. split_and!; [by apply located_zero | |].
    + apply absent_S; [done |]. intros a Ha. by apply zero_not_ranked in Ha.
    + apply shifted_keep; [done | done |]. left. unfold valid, uninit_rank. lia.
  - split_and!; [apply located_0 | apply absent_0 |]. split_and!; [done.. |].
    intros j Hj. split; [lia | done].
Qed.
End PostInsert.
