(* ===== verification/LeafState.v ===== *)
(** * The well-formed states of a leaf, and the steps of its operations

    [wf s fl] describes a leaf with the reserved entries [fl]: those whose insertion
    has not been committed or rolled back. *)
From S2P Require Import Prelude Atomic Ord Tag Dimension Leaf LeafInv.

Local Open Scope Z_scope.

Section State.
Context {K V : Type} `{KeyOrd K}.
Implicit Types (s : leaf K V) (fl : list nat).

(** The entries that can be found, in slot order. *)
Definition live_at s (i : nat) : option (K * V) :=
  if decide (valid (metadata s) i) then entry s i else None.

Definition entries s : list (K * V) := gather (live_at s) N.

(** How many slots were reserved or committed. *)
Definition used_slot (m : Z) (i : nat) : option unit :=
  if decide (rk m i = uninit_rank) then None else Some ().
Definition used (m : Z) : nat := length (gather (used_slot m) N).

Record wf s fl : Prop := {
  wf_word : in_word usize_bits (metadata s);
  wf_keys : length (keys s) = N;
  wf_values : length (values s) = N;
  wf_nodup : NoDup fl;
  wf_flight : ∀ i, i ∈ fl → (i < N)%nat ∧ rk (metadata s) i = removed;
  wf_entry : ∀ i, (i < N)%nat → rk (metadata s) i ≠ uninit_rank → i ∉ fl → is_Some (entry s i);
  wf_clean : ∀ i, (i < N)%nat → rk (metadata s) i = uninit_rank →
    key_of s i = None ∧ value_of s i = None;
  wf_order : ∀ i j a b, ranked (entry s) (metadata s) i a → ranked (entry s) (metadata s) j b →
    i ≠ j → rk (metadata s) i ≠ rk (metadata s) j ∧
            (rk (metadata s) i < rk (metadata s) j → cmp a.1 b.1 = Lt);
  wf_bound : ∀ i, (i < N)%nat → valid (metadata s) i →
    rk (metadata s) i + Z.of_nat (length fl) ≤ Z.of_nat (used (metadata s))
}.

Lemma valid_not_flight s fl i : wf s fl → valid (metadata s) i → i ∉ fl.
Proof. intros Hwf [_ Hv] Hi. destruct (wf_flight _ _ Hwf i Hi) as [_ Hr]. lia. Qed.

Lemma wf_snapshot s fl : wf s fl → snapshot (entry s) (metadata s).
Proof.
  intros Hwf. constructor; [| apply (wf_order _ _ Hwf)].
  intros i Hi Hv. apply (wf_entry _ _ Hwf); [done | | by eapply valid_not_flight].
  destruct Hv. unfold uninit_rank in *. lia.
Qed.

Lemma agrees_self s : agrees (entry s) s.
Proof. by intros i a _ Ha. Qed.

Lemma wf_perm s fl fl' : fl ≡ₚ fl' → wf s fl → wf s fl'.
Proof.
  intros Hp [? ? ? ? Hf He ? ? Hb]. constructor; auto.
  - by rewrite <-Hp.
  - intros i. rewrite <-Hp. apply Hf.
  - intros i ? ?. rewrite <-Hp. by apply He.
  - intros i ? ?. rewrite <-Hp. by apply Hb.
Qed.

Lemma elem_of_entries s a : a ∈ entries s ↔ ∃ i, ranked (entry s) (metadata s) i a.
Proof.
  unfold entries, gather, ranked. rewrite list_elem_of_omap. setoid_rewrite elem_of_seq.
  unfold live_at. split.
  - intros (i & Hi & Hl). exists i. case_decide; [| done]. split_and!; [lia | done | done].
  - intros (i & Hi & Hv & He). exists i. rewrite decide_True by done. split; [lia | done].
Qed.

(** ** Counting the used slots *)

Lemma used_le m : (used m ≤ N)%nat.
Proof.
  unfold used, gather. etrans; [apply length_omap_le |]. by rewrite length_seq.
Qed.

Lemma used_augment m i r :
  (i < N)%nat → in_word B r →
  (used (augment DIMENSION m i r) + (if decide (rk m i = uninit_rank) then 0 else 1) =
   used m + (if decide (r = uninit_rank) then 0 else 1))%nat.
Proof.
  intros Hi Hr.
  assert (gather (used_slot (augment DIMENSION m i r)) N ++ option_list (used_slot m i) ≡ₚ
          gather (used_slot m) N ++ option_list (used_slot (augment DIMENSION m i r) i)) as Hp.
  { apply gather_update_perm_lt; [done |]. intros j Hj Hne.
    unfold used_slot. by rewrite rank_augment_ne by auto. }
  unfold used. apply Permutation_length in Hp. rewrite !length_app in Hp.
  unfold used_slot in Hp at 2 4.
  rewrite rank_augment_eq in Hp by done. repeat case_decide; simpl in *; lia.
Qed.

Lemma used_ext m m' :
  (∀ i, (i < N)%nat → rk m i = uninit_rank ↔ rk m' i = uninit_rank) → used m = used m'.
Proof.
  intros Hm. unfold used. f_equal. apply gather_ext. intros i Hi. unfold used_slot.
  specialize (Hm i Hi). repeat case_decide; tauto.
Qed.

(** ** The steps *)

Lemma entries_same s s' :
  (∀ i, (i < N)%nat → live_at s' i = live_at s i) → entries s' = entries s.
Proof. intros Hs. by apply gather_ext. Qed.

Lemma entries_update s s' i :
  (i < N)%nat → (∀ j, (j < N)%nat → j ≠ i → live_at s' j = live_at s j) →
  entries s' ++ option_list (live_at s i) ≡ₚ entries s ++ option_list (live_at s' i).
Proof. intros Hi Hs. apply gather_update_perm_lt; [done |]. intros j Hj Hne. by rewrite Hs. Qed.

Lemma flight_le s fl : wf s fl → (length fl ≤ used (metadata s))%nat.
Proof.
  intros Hwf. unfold used, gather.
  assert (length (omap (used_slot (metadata s)) (seq 0 N)) =
          length (filter (λ i, rk (metadata s) i ≠ uninit_rank) (seq 0 N))) as ->.
  { generalize (seq 0 N) as l. induction l as [| i l IH]; [done |].
    csimpl. unfold used_slot at 1. rewrite filter_cons. repeat case_decide; simpl; tauto || lia. }
  apply submseteq_length, NoDup_submseteq; [apply (wf_nodup _ _ Hwf) |].
  intros i Hi. destruct (wf_flight _ _ Hwf i Hi) as [Hlt Hr].
  apply list_elem_of_filter. rewrite Hr. split; [done | apply elem_of_seq; lia].
Qed.

(** Freezing, thawing and retiring leave the ranks as they are. *)
Lemma wf_special s fl m' :
  wf s fl → in_word usize_bits m' → (∀ i, (i < N)%nat → rk m' i = rk (metadata s) i) →
  wf (set_metadata m' s) fl ∧ entries (set_metadata m' s) = entries s.
Proof.
  intros Hwf Hm Hr.
  assert (Hv : ∀ i, (i < N)%nat → valid m' i ↔ valid (metadata s) i).
  { intros i Hi. unfold valid. by rewrite Hr. }
  assert (Hrk : ∀ i a, ranked (entry s) m' i a → ranked (entry s) (metadata s) i a).
  { intros i a (Hi & ? & ?). split_and!; [done | by apply Hv | done]. }
  split.
  - destruct Hwf as [? ? ? ? Hf He Hc Ho Hb]. constructor; simpl; auto.
    + intros i Hi. destruct (Hf i Hi). rewrite Hr by done. done.
    + intros i Hi. rewrite Hr by done. by apply He.
    + intros i Hi. rewrite Hr by done. by apply Hc.
    + intros i j a b Ha Hb' Hne. rewrite (Hr i), (Hr j) by (apply Ha || apply Hb'). eauto.
    + intros i Hi Hvi. rewrite Hr by done. rewrite (used_ext m' (metadata s)).
      * apply Hb; [done | by apply Hv].
      * intros j Hj. by rewrite Hr.
  - apply entries_same. intros i Hi. unfold live_at. simpl.
    specialize (Hv i Hi). repeat case_decide; tauto.
Qed.

(** Slot [i] is reserved for an insertion. *)
Lemma wf_reserve s fl i :
  wf s fl → (i < N)%nat → rk (metadata s) i = uninit_rank →
  let s' := set_metadata (augment DIMENSION (metadata s) i removed) s in
  wf s' (i :: fl) ∧ entries s' = entries s.
Proof.
  intros Hwf Hi Hz s'.
  pose proof in_word_removed as Hwr.
  assert (Hv : ∀ j, (j < N)%nat → valid (metadata s') j ↔ valid (metadata s) j).
  { intros j Hj. unfold s', valid. simpl. rewrite rank_augment by done. case_decide; [| done].
    subst. rewrite Hz. unfold uninit_rank. rewrite removed_val. lia. }
  assert (Hne : ∀ j, (j < N)%nat → valid (metadata s') j → rk (metadata s') j = rk (metadata s) j).
  { intros j Hj Hvj. unfold s'. simpl. apply rank_augment_ne; [done | done | | done].
    intros <-. apply Hv in Hvj; [| done]. destruct Hvj. lia. }
  assert (i ∉ fl) as Hnew.
  { intros Hin. destruct (wf_flight _ _ Hwf i Hin) as [_ Hr]. by rewrite Hz in Hr. }
  split.
  - pose proof (used_augment (metadata s) i removed Hi Hwr) as Hu.
    rewrite decide_True, decide_False in Hu by done.
    destruct Hwf as [? ? ? ? Hf He Hc Ho Hb]. constructor; auto.
    + by apply in_word_augment.
    + by apply NoDup_cons.
    + intros j [-> | Hj]%elem_of_cons; simpl.
      * by rewrite rank_augment_eq.
      * destruct (Hf j Hj) as [Hj' Hr]. split; [done |]. rewrite rank_augment by done. by case_decide.
    + intros j Hj Hr [Hji Hjf]%not_elem_of_cons. apply He; [done | | done].
      simpl in Hr. by rewrite rank_augment_ne in Hr by auto.
    + intros j Hj Hr. apply Hc; [done |]. simpl in Hr. rewrite rank_augment in Hr by done.
      by case_decide.
    + intros j1 j2 a b (Hj1 & Hv1 & He1) (Hj2 & Hv2 & He2) Hj12.
      rewrite !Hne by done. apply Ho; [split_and!; [done | by apply Hv | done].. | done].
    + intros j Hj Hvj. rewrite Hne by done. apply Hv in Hvj; [| done].
      specialize (Hb j Hj Hvj). simpl. lia.
  - apply entries_same. intros j Hj. unfold live_at. specialize (Hv j Hj).
    repeat case_decide; tauto.
Qed.

(** The arrays change in a reserved slot. *)
Lemma wf_fill s fl i ks vs :
  wf s fl → i ∈ fl → length ks = N → length vs = N →
  (∀ j, j ≠ i → ks !! j = keys s !! j ∧ vs !! j = values s !! j) →
  wf (Leaf (metadata s) ks vs) fl ∧ entries (Leaf (metadata s) ks vs) = entries s.
Proof.
  intros Hwf Hi Hk Hv Hj. set (s' := Leaf (metadata s) ks vs).
  assert (Hent : ∀ j, j ≠ i → entry s' j = entry s j).
  { intros j Hne. destruct (Hj j Hne) as [H1 H2]. unfold entry, key_of, value_of. simpl. by rewrite H1, H2. }
  assert (Hrk : ∀ j a, ranked (entry s') (metadata s) j a → ranked (entry s) (metadata s) j a).
  { intros j a (? & Hvj & He). split_and!; [done.. |]. rewrite <-Hent; [done |].
    intros ->. by apply (valid_not_flight _ _ _ Hwf Hvj). }
  split.
  - destruct Hwf as [? ? ? ? Hf He Hc Ho Hb]. constructor; simpl; auto.
    + intros j Hlt Hr Hnf. rewrite Hent by (by intros ->). by apply He.
    + intros j Hlt Hr. assert (j ≠ i) as Hne.
      { intros ->. destruct (Hf i Hi) as [_ Hx]. by rewrite Hr in Hx. }
      destruct (Hj j Hne) as [H1 H2]. unfold key_of, value_of. simpl. rewrite H1, H2. by apply Hc.
  - apply entries_same. intros j Hlt. unfold live_at. simpl. case_decide as Hvj; [| done].
    apply Hent. intros ->. by apply (valid_not_flight _ _ _ Hwf Hvj).
Qed.

(** Slot [i], reserved, goes back to the unused ones. *)
Lemma wf_release s fl i :
  wf s (i :: fl) → key_of s i = None → value_of s i = None →
  let s' := set_metadata (augment DIMENSION (metadata s) i uninit_rank) s in
  wf s' fl ∧ entries s' = entries s.
Proof.
  intros Hwf Hki Hvi s'. destruct (wf_flight _ _ Hwf i ltac:(left)) as [Hi Hri].
  pose proof in_word_uninit as Hwr.
  assert (i ∉ fl ∧ NoDup fl) as [Hnew Hnd] by (by apply NoDup_cons, (wf_nodup _ _ Hwf)).
  assert (Hne : ∀ j, (j < N)%nat → j ≠ i → rk (metadata s') j = rk (metadata s) j).
  { intros j Hj Hji. unfold s'. simpl. apply rank_augment_ne; auto. }
  assert (Hri' : rk (metadata s') i = uninit_rank) by (by apply rank_augment_eq).
  assert (Hv : ∀ j, (j < N)%nat → valid (metadata s') j → j ≠ i ∧ valid (metadata s) j).
  { intros j Hj Hvj. destruct (decide (j = i)) as [-> |].
    - destruct Hvj. lia.
    - split; [done |]. unfold valid. by rewrite <-Hne. }
  assert (Hv' : ∀ j, (j < N)%nat → valid (metadata s) j → valid (metadata s') j).
  { intros j Hj Hvj. unfold valid. rewrite Hne; [done | done |]. intros ->. destruct Hvj; lia. }
  split.
  - pose proof (used_augment (metadata s) i uninit_rank Hi Hwr) as Hu.
    rewrite decide_False, decide_True in Hu by (done || rewrite Hri; done).
    destruct Hwf as [? ? ? ? Hf He Hc Ho Hb]. constructor; auto.
    + by apply in_word_augment.
    + intros j Hj. destruct (Hf j ltac:(by right)). rewrite Hne; [done | done |]. by intros ->.
    + intros j Hj Hr Hjf. destruct (decide (j = i)) as [-> |]; [done |].
      apply He; [done | by rewrite <-Hne | by apply not_elem_of_cons].
    + intros j Hj Hr. destruct (decide (j = i)) as [-> |]; [done |].
      apply Hc; [done | by rewrite <-Hne].
    + intros j1 j2 a b (Hj1 & Hv1 & He1) (Hj2 & Hv2 & He2) Hj12.
      destruct (Hv _ Hj1 Hv1), (Hv _ Hj2 Hv2). rewrite !Hne by done. by apply Ho.
    + intros j Hj Hvj. destruct (Hv _ Hj Hvj). rewrite Hne by done.
      specialize (Hb j ltac:(done) ltac:(done)). simpl in *. lia.
  - apply entries_same. intros j Hj. unfold live_at. specialize (Hv j Hj). specialize (Hv' j Hj).
    repeat case_decide; tauto.
Qed.

(** Entry [i] is removed. *)
Lemma wf_remove s fl i a :
  wf s fl → ranked (entry s) (metadata s) i a →
  let s' := set_metadata (augment DIMENSION (metadata s) i removed) s in
  wf s' fl ∧ entries s ≡ₚ a :: entries s'.
Proof.
  intros Hwf (Hi & Hvi & Hea) s'.
  pose proof in_word_removed as Hwr.
  assert (i ∉ fl) as Hif by by eapply valid_not_flight.
  assert (Hri' : rk (metadata s') i = removed) by (by apply rank_augment_eq).
  assert (Hne : ∀ j, (j < N)%nat → j ≠ i → rk (metadata s') j = rk (metadata s) j).
  { intros j Hj Hji. unfold s'. simpl. apply rank_augment_ne; auto. }
  assert (Hv : ∀ j, (j < N)%nat → valid (metadata s') j → j ≠ i ∧ valid (metadata s) j).
  { intros j Hj Hvj. destruct (decide (j = i)) as [-> |].
    - destruct Hvj. lia.
    - split; [done |]. unfold valid. by rewrite <-Hne. }
  split.
  - pose proof (used_augment (metadata s) i removed Hi Hwr) as Hu.
    rewrite !decide_False in Hu by (done || destruct Hvi; unfold uninit_rank in *; lia).
    destruct Hwf as [? ? ? ? Hf He Hc Ho Hb]. constructor; auto.
    + by apply in_word_augment.
    + intros j Hj. destruct (Hf j Hj). rewrite Hne; [done | done |]. by intros ->.
    + intros j Hj Hr Hjf. destruct (decide (j = i)) as [-> |]; [by exists a |].
      apply He; [done | by rewrite <-Hne | done].
    + intros j Hj Hr. destruct (decide (j = i)) as [-> |]; [by rewrite Hri' in Hr |].
      apply Hc; [done | by rewrite <-Hne].
    + intros j1 j2 a1 a2 (Hj1 & Hv1 & He1) (Hj2 & Hv2 & He2) Hj12.
      destruct (Hv _ Hj1 Hv1), (Hv _ Hj2 Hv2). rewrite !Hne by done. by apply Ho.
    + intros j Hj Hvj. destruct (Hv _ Hj Hvj). rewrite Hne by done.
      specialize (Hb j ltac:(done) ltac:(done)). simpl in *. lia.
  - pose proof (entries_update s s' i Hi) as Hp. unfold live_at in Hp at 3 4.
    rewrite decide_True, decide_False in Hp by (done || intros [_ Hx]; lia).
    replace (entry s i) with (Some a) in Hp. simpl in Hp. rewrite app_nil_r in Hp.
    rewrite <-Hp, (Permutation_app_comm _ [a]); [done |].
    intros j Hj Hji. unfold live_at. specialize (Hv j Hj).
    assert (valid (metadata s) j → valid (metadata s') j) by (unfold valid; by rewrite Hne).
    repeat case_decide; tauto.
Qed.

(** The insertion of [k] is committed in the reserved slot [i]: [mx] is the highest
    rank of the smaller keys, and the ranks above it are shifted. *)
Definition commits (m m' : Z) (i : nat) (mx : Z) : Prop :=
  in_word usize_bits m' ∧
  ∀ j, (j < N)%nat → rk m' j = if decide (j = i) then mx + 1
                               else if decide (valid m j ∧ mx < rk m j) then rk m j + 1
                               else rk m j.

Record committed (m m' : Z) (fl : list nat) (i : nat) (mx : Z) : Prop := {
  com_new : rk m' i = mx + 1;
  com_valid_new : valid m' i;
  com_valid : ∀ j, (j < N)%nat → j ≠ i → valid m' j ↔ valid m j;
  com_rank : ∀ j, (j < N)%nat → j ≠ i → valid m j →
    rk m' j = if decide (mx < rk m j) then rk m j + 1 else rk m j;
  com_special : ∀ j, (j < N)%nat → j ≠ i → ¬ valid m j → rk m' j = rk m j;
  com_used : used m' = used m;
  com_bound : ∀ j, (j < N)%nat → valid m' j → rk m' j + Z.of_nat (length fl) ≤ Z.of_nat (used m)
}.

Lemma commits_committed s fl i m' mx :
  wf s (i :: fl) → 0 ≤ mx →
  (mx = 0 ∨ ∃ j, (j < N)%nat ∧ valid (metadata s) j ∧ rk (metadata s) j = mx) →
  commits (metadata s) m' i mx → committed (metadata s) m' fl i mx.
Proof.
  intros Hwf Hmx Htight (_ & Hrk).
  destruct (wf_flight _ _ Hwf i ltac:(left)) as [Hi Hri].
  pose proof (flight_le _ _ Hwf) as Hfl. pose proof (wf_bound _ _ Hwf) as Hb0.
  revert Htight Hrk Hri Hfl Hb0. generalize (metadata s) as m. cbn [length].
  intros m Htight Hrk Hri Hfl Hb0.
  assert (Hui : Z.of_nat (used m) ≤ 14) by (pose proof (used_le m); dims).
  assert (Hb : ∀ j, (j < N)%nat → valid m j → rk m j + 1 + Z.of_nat (length fl) ≤ Z.of_nat (used m)).
  { intros j Hj Hvj. specialize (Hb0 j Hj Hvj). lia. }
  assert (Hbx : mx + 1 + Z.of_nat (length fl) ≤ Z.of_nat (used m)).
  { destruct Htight as [-> | (j & Hj & Hvj & <-)]; [lia | auto]. }
  assert (Hri' : rk m' i = mx + 1) by (rewrite Hrk by done; by rewrite decide_True).
  assert (Hrank : ∀ j, (j < N)%nat → j ≠ i → valid m j →
            rk m' j = if decide (mx < rk m j) then rk m j + 1 else rk m j).
  { intros j Hj Hji Hvj. rewrite Hrk, decide_False by done. repeat case_decide; tauto. }
  assert (Hspec : ∀ j, (j < N)%nat → j ≠ i → ¬ valid m j → rk m' j = rk m j).
  { intros j Hj Hji Hvj. rewrite Hrk, !decide_False by tauto. done. }
  assert (Hv : ∀ j, (j < N)%nat → j ≠ i → valid m' j ↔ valid m j).
  { intros j Hj Hji. destruct (decide (valid m j)) as [Hvj | Hvj].
    - specialize (Hb j Hj Hvj). unfold valid. rewrite Hrank by done. destruct Hvj.
      unfold uninit_rank in *. rewrite removed_val in *. case_decide; lia.
    - unfold valid at 1. rewrite Hspec by done. done. }
  constructor; auto.
  - unfold valid. rewrite Hri', removed_val. unfold uninit_rank. lia.
  - apply used_ext. intros j Hj. destruct (decide (j = i)) as [-> |].
    + rewrite Hri', Hri, removed_val. unfold uninit_rank. lia.
    + destruct (decide (valid m j)) as [Hvj | Hvj]; [| by rewrite Hspec].
      rewrite Hrank by done. destruct Hvj. unfold uninit_rank in *. case_decide; lia.
  - intros j Hj Hvj. destruct (decide (j = i)) as [-> |]; [lia |].
    apply Hv in Hvj; [| done..]. rewrite Hrank by done. specialize (Hb j Hj Hvj). case_decide; lia.
Qed.

Lemma wf_commit s fl i m' mx k v :
  wf s (i :: fl) → entry s i = Some (k, v) → 0 ≤ mx →
  (mx = 0 ∨ ∃ j, (j < N)%nat ∧ valid (metadata s) j ∧ rk (metadata s) j = mx) →
  (∀ j a, ranked (entry s) (metadata s) j a →
     (rk (metadata s) j ≤ mx → cmp a.1 k = Lt) ∧ (mx < rk (metadata s) j → cmp k a.1 = Lt)) →
  commits (metadata s) m' i mx →
  wf (set_metadata m' s) fl ∧ entries (set_metadata m' s) ≡ₚ (k, v) :: entries s.
Proof.
  intros Hwf Hki Hmx Htight Hside Hcom.
  destruct (wf_flight _ _ Hwf i ltac:(left)) as [Hi Hri].
  assert (i ∉ fl ∧ NoDup fl) as [Hnew Hnd] by (by apply NoDup_cons, (wf_nodup _ _ Hwf)).
  destruct (commits_committed _ _ _ _ _ Hwf Hmx Htight Hcom) as [Cn Cvn Cv Cr Cs Cu Cb].
  assert (Hold : ∀ j a, j ≠ i → ranked (entry s) m' j a → ranked (entry s) (metadata s) j a).
  { intros j a Hji (? & ? & ?). split_and!; [done | by apply Cv | done]. }
  assert (Hnewkey : ∀ a, ranked (entry s) m' i a → a = (k, v)).
  { intros a (_ & _ & He). congruence. }
  split.
  - constructor; simpl; try apply Hwf; auto; [apply Hcom | | | | |].
    + intros j Hj. destruct (wf_flight _ _ Hwf j ltac:(by right)) as [Hlt Hr]. split; [done |].
      assert (j ≠ i) by (by intros ->). rewrite Cs; [done.. |]. intros [_ ?]. lia.
    + intros j Hj Hr Hjf. destruct (decide (j = i)) as [-> |]; [by exists (k, v) |].
      apply (wf_entry _ _ Hwf); [done | | by apply not_elem_of_cons].
      intros Hz. rewrite Cs in Hr; [done.. |]. intros [? _]. lia.
    + intros j Hj Hr. apply (wf_clean _ _ Hwf); [done |]. destruct (decide (j = i)) as [-> |].
      { destruct Cvn. lia. }
      rewrite <-Cs; [done.. |]. intros Hv. apply Cv in Hv; [| done..]. destruct Hv. lia.
    + intros j1 j2 a b H1 H2 Hne.
      destruct (decide (j1 = i)) as [-> |], (decide (j2 = i)) as [-> |]; [done | | |].
      * rewrite (Hnewkey _ H1). apply Hold in H2; [| done]. destruct (Hside _ _ H2) as [Hlo Hhi].
        rewrite Cn, Cr by (done || apply H2). case_decide; simpl; [intuition lia | split; lia].
      * rewrite (Hnewkey _ H2). apply Hold in H1; [| done]. destruct (Hside _ _ H1) as [Hlo Hhi].
        rewrite Cn, Cr by (done || apply H1). case_decide; simpl; [split; lia |].
        split; [lia |]. intros _. apply Hlo. lia.
      * apply Hold in H1, H2; [| done..]. rewrite !Cr by (done || apply H1 || apply H2).
        destruct (wf_order _ _ Hwf _ _ _ _ H1 H2 Hne) as [Hd Hlt].
        repeat case_decide; split; try lia; intros ?; apply Hlt; lia.
    + intros j Hj Hvj. rewrite Cu. by apply Cb.
  - pose proof (entries_update s (set_metadata m' s) i Hi) as Hp. unfold live_at in Hp at 3 4.
    simpl in Hp. rewrite decide_False, decide_True in Hp by (done || intros [_ Hx]; lia).
    change (entry (set_metadata m' s) i) with (entry s i) in Hp. rewrite Hki in Hp. simpl in Hp.
    rewrite app_nil_r in Hp. rewrite Hp, (Permutation_app_comm _ [(k, v)]); [done |].
    intros j Hj Hji. unfold live_at. simpl. specialize (Cv j Hj Hji).
    repeat case_decide; tauto.
Qed.

(** What the arrays hold in the slots that [m] ranks, seen from a partial knowledge. *)
Lemma ranked_known s e i a :
  snapshot e (metadata s) → agrees e s → ranked (entry s) (metadata s) i a →
  ranked e (metadata s) i a.
Proof.
  intros Hs Hag (Hi & Hv & He). destruct (snap_some _ _ Hs i Hi Hv) as [b Hb].
  pose proof (Hag i b Hi Hb) as He'. split_and!; [done | done |]. congruence.
Qed.

(** The exchange of [post_insert] commits the insertion. *)
Lemma scan_commit s fl e i mn mx key v new :
  wf s (i :: fl) → entry s i = Some (key, v) →
  snapshot e (metadata s) → agrees e s →
  located e (metadata s) key N mn mx → absent e (metadata s) key N →
  shifted e (metadata s) key N new →
  let m' := augment DIMENSION new i (mx + 1) in
  wf (set_metadata m' s) fl ∧ entries (set_metadata m' s) ≡ₚ (key, v) :: entries s.
Proof.
  intros Hwf Hki Hs Hag Hl Hab (Hw & _ & _ & Hsh) m'. set (m := metadata s) in *.
  destruct (wf_flight _ _ Hwf i ltac:(left)) as [Hi Hri]. fold m in Hri.
  pose proof (located_range _ _ _ _ _ _ Hl) as (Hmx & _ & Hmx').
  assert (in_word B (mx + 1)) as Hwx by (by apply in_word_rank_succ).
  assert (Hside : ∀ j a, ranked e m j a →
            (rk m j ≤ mx ∧ cmp a.1 key = Lt) ∨ (mx < rk m j ∧ cmp a.1 key = Gt)).
  { intros j a Ha. destruct (cmp a.1 key) eqn:Hc.
    - by destruct (Hab j a ltac:(apply Ha) Ha).
    - left. split; [| done]. by apply (loc_low _ _ _ _ _ _ Hl j a ltac:(apply Ha)).
    - right. split; [| done]. destruct (decide (mx < rk m j)); [done |]. exfalso.
      assert (cmp a.1 key = Lt); [| congruence]. apply (outside_lt e m key N j mn mx a); [done.. | lia]. }
  apply (wf_commit s fl i m' mx key v); try done; fold m.
  - destruct (loc_low_tight _ _ _ _ _ _ Hl) as [-> | (j & a & Hj & (_ & Hv & _) & _ & Hr)]; [by left |].
    right. by exists j.
  - intros j a Ha. apply (ranked_known s e) in Ha; [| done..]. fold m in Ha.
    rewrite (cmp_lt_gt key). destruct (Hside j a Ha) as [[? ->] | [? ->]]; split; try done; lia.
  - split; [by apply in_word_augment |]. intros j Hj. unfold m'. rewrite rank_augment by done.
    destruct (decide (j = i)) as [-> | Hne]; [by rewrite decide_True |].
    rewrite decide_False by congruence. destruct (Hsh j Hj) as [Hgt Hsame].
    destruct (decide (valid m j)) as [Hv | Hv].
    + destruct (snap_some _ _ Hs j Hj Hv) as [a Ha]. assert (ranked e m j a) as Hra by done.
      destruct (Hside j a Hra) as [[? ?] | [? ?]].
      * rewrite decide_False by lia. apply Hsame. right. right. eauto.
      * rewrite decide_True by done. by apply (Hgt Hj a).
    + rewrite decide_False by tauto. apply Hsame. right. by left.
Qed.
End State.
