(* ===== verification/LeafSeq.v ===== *)
(** * The operations of a leaf, one at a time

    The functional behaviour of every operation of [src/tree_index/leaf.rs] on a leaf
    that no other thread modifies, every branch included.  The leaf is specified by
    [entries], the multiset of the key-value pairs that can be found. *)
From S2P Require Import Prelude Atomic Ord Tag Dimension Leaf LeafInv LeafState.

Local Open Scope Z_scope.

Section Sequential.
Context {K V : Type} `{KeyOrd K}.
Implicit Types (s : leaf K V) (key : K) (val : V).

Definition key_in key s : Prop := ∃ v, (key, v) ∈ entries s.

Lemma key_in_ranked key s :
  key_in key s ↔ ∃ i a, ranked (entry s) (metadata s) i a ∧ a.1 = key.
Proof.
  unfold key_in. setoid_rewrite elem_of_entries. split.
  - intros (v & i & Hr). by exists i, (key, v).
  - intros (i & [k v] & Hr & <-). eauto.
Qed.

Lemma uninit_slot_spec m :
  match uninit_slot N 0 m with
  | Some i => (i < N)%nat ∧ rk m i = uninit_rank
  | None => ∀ i, (i < N)%nat → rk m i ≠ uninit_rank
  end.
Proof.
  assert (∀ n i, (i + n = N)%nat →
    match uninit_slot n i (ushr m (i * B)) with
    | Some j => (j < N)%nat ∧ rk m j = uninit_rank
    | None => ∀ j, (i ≤ j < N)%nat → rk m j ≠ uninit_rank
    end) as Hgen.
  { induction n as [| n IH]; intros i Hi; cbn [uninit_slot]; [lia |]. rewrite shifted_rank.
    destruct (Z.eqb_spec (rk m i) uninit_rank) as [| Hne]; [split; [lia | done] |].
    specialize (IH (S i) ltac:(lia)). rewrite shifted_step.
    destruct (uninit_slot n (S i) _); [done |]. intros j Hj.
    destruct (decide (j = i)) as [-> |]; [done | apply IH; lia]. }
  specialize (Hgen N 0%nat eq_refl). rewrite shifted_start in Hgen.
  destruct (uninit_slot N 0 m); [done |]. intros i Hi. apply Hgen. lia.
Qed.

Lemma used_full m : (∀ i, (i < N)%nat → rk m i ≠ uninit_rank) ↔ used m = N.
Proof.
  split.
  - intros Hm. unfold used, gather. transitivity (length (seq 0 N)); [| apply length_seq].
    assert (∀ i, i ∈ seq 0 N → rk m i ≠ uninit_rank) as Hs by (intros i Hi%elem_of_seq; apply Hm; lia).
    revert Hs. generalize (seq 0 N) as l. induction l as [| i l IH]; intros Hs; [done |]. csimpl.
    unfold used_slot at 1. rewrite decide_False by (apply Hs; left). simpl. f_equal.
    apply IH. intros j Hj. apply Hs. by right.
  - intros Hu i Hi Hz.
    pose proof (used_augment m i removed Hi in_word_removed) as Ha.
    pose proof (used_le (augment DIMENSION m i removed)).
    rewrite decide_True, decide_False in Ha by done. lia.
Qed.

(** ** The building blocks *)

Lemma runs_write {R} s i key val (k : unit → prog (leaf K V) R) Q :
  runs (k ()) (Leaf (metadata s) (<[i := Some key]> (keys s)) (<[i := Some val]> (values s))) Q →
  runs (bind (write i key val) k) s Q.
Proof. done. Qed.

Lemma runs_take {R} s i key val (k : K * V → prog (leaf K V) R) Q :
  entry s i = Some (key, val) →
  runs (k (key, val)) (Leaf (metadata s) (<[i := None]> (keys s)) (<[i := None]> (values s))) Q →
  runs (bind (take i) k) s Q.
Proof.
  intros [Hk Hv]%entry_split Hr. unfold runs, take. simpl. rewrite Hk. simpl.
  replace (value_of _ i) with (Some val) by (by unfold value_of in *). exact Hr.
Qed.

Lemma runs_key_at {R} s i a (k : K → prog (leaf K V) R) Q :
  entry s i = Some a → runs (k a.1) s Q → runs (bind (key_at i) k) s Q.
Proof.
  destruct a as [key val]. intros [Hk _]%entry_split Hr. unfold runs, key_at. simpl.
  by rewrite Hk.
Qed.

Lemma runs_value_at {R} s i a (k : V → prog (leaf K V) R) Q :
  entry s i = Some a → runs (k a.2) s Q → runs (bind (value_at i) k) s Q.
Proof.
  destruct a as [key val]. intros [_ Hv]%entry_split Hr. unfold runs, value_at. simpl.
  by rewrite Hv.
Qed.

Lemma entry_written s i key val :
  (i < length (keys s))%nat → (i < length (values s))%nat →
  entry (Leaf (metadata s) (<[i := Some key]> (keys s)) (<[i := Some val]> (values s))) i = Some (key, val).
Proof.
  intros Hk Hv. unfold entry, key_of, value_of. simpl.
  by rewrite !list_lookup_insert_eq by done.
Qed.

(** [rollback] of a reserved slot. *)
Lemma runs_rollback s fl i key val :
  wf s (i :: fl) → entry s i = Some (key, val) →
  runs (rollback i) s (λ r s',
    wf s' fl ∧ entries s' = entries s ∧
    frozen (metadata s') = frozen (metadata s) ∧ retired (metadata s') = retired (metadata s) ∧
    r = if retired (metadata s) then Retired key val
        else if frozen (metadata s) then Frozen key val
        else Duplicate key val).
Proof.
  intros Hwf Hi. unfold rollback. eapply runs_take; [done |].
  destruct (wf_flight _ _ Hwf i ltac:(left)) as [Hlt Hri].
  destruct (wf_fill s (i :: fl) i (<[i := None]> (keys s)) (<[i := None]> (values s))) as [Hwf' He'];
    [done | left | rewrite length_insert; apply Hwf.. | |].
  { intros j Hne. by rewrite !list_lookup_insert_ne by done. }
  apply runs_bind, runs_act. simpl. apply runs_ret, runs_ret. simpl.
  rewrite !(land_mask_augment _ _ Hlt (wf_word _ _ Hwf)).
  rewrite !retired_augment, !frozen_augment by (apply Hlt || apply in_word_uninit).
  destruct (wf_release _ _ _ Hwf') as [Hwf'' He'']; simpl in *.
  { unfold key_of. simpl. rewrite list_lookup_insert_eq; [done |]. by rewrite (wf_keys _ _ Hwf). }
  { unfold value_of. simpl. rewrite list_lookup_insert_eq; [done |]. by rewrite (wf_values _ _ Hwf). }
  split_and!; [exact Hwf'' | by rewrite <-He', <-He'' | done | done | done].
Qed.

(** ** Insertion *)

Lemma runs_post_insert s fl n i key val :
  wf s (i :: fl) → entry s i = Some (key, val) →
  frozen (metadata s) = false → retired (metadata s) = false →
  runs (post_insert (S n) i (metadata s)) s (λ r s',
    wf s' fl ∧ frozen (metadata s') = false ∧ retired (metadata s') = false ∧
    match r with
    | Success => ¬ key_in key s ∧ entries s' ≡ₚ (key, val) :: entries s
    | Duplicate k v => k = key ∧ v = val ∧ key_in key s ∧ entries s' = entries s
    | _ => False
    end).
Proof.
  intros Hwf Hi Hfz Hrt. pose proof (wf_snapshot _ _ Hwf) as Hsn.
  unfold post_insert. eapply runs_key_at; [done |]. cbn [fst]. apply runs_loop. eapply runs_call.
  { eapply (runs_reads (agrees (entry s))); [apply agrees_self |].
    apply post_insert_scan_spec; [done | apply Hwf]. }
  intros x s' [Hx ->]. destruct x as [[[mn mx] new] | []].
  - destruct Hx as (Hl & Hab & Hsh). apply runs_cas; [done |]. apply runs_ret.
    destruct (wf_flight _ _ Hwf i ltac:(left)) as [Hlt _].
    pose proof (located_range _ _ _ _ _ _ Hl) as (Hmx & _ & Hmx').
    assert (in_word B (mx + 1)) as Hwx by (by apply in_word_rank_succ).
    destruct (scan_commit s fl (entry s) i mn mx key val new) as [Hwf' He'];
      [done.. | apply agrees_self | done | done | done |].
    destruct Hsh as (_ & Hf & Hr & _). split; [done |]. simpl.
    rewrite frozen_augment, retired_augment, Hf, Hr by done. split_and!; [done.. | | done].
    rewrite key_in_ranked. intros (j & a & Ha & Heq). apply (Hab j a ltac:(apply Ha) Ha). by apply cmp_eq.
  - eapply runs_call; [by eapply runs_rollback |].
    intros r s' (Hwf' & He & Hf & Hr & ->). apply runs_ret. rewrite Hfz, Hrt in *.
    rewrite He. split_and!; try done. by apply key_in_ranked.
Qed.

Lemma runs_search_slot {R} s fl key (k : option nat → prog (leaf K V) R) Q :
  wf s fl →
  (∀ i a, ranked (entry s) (metadata s) i a → a.1 = key → runs (k (Some i)) s Q) →
  (¬ key_in key s → runs (k None) s Q) →
  runs (bind (search_slot key (metadata s)) k) s Q.
Proof.
  intros Hwf Hsome Hnone. eapply runs_call.
  { eapply (runs_reads (agrees (entry s))); [apply agrees_self |].
    apply search_slot_spec. by eapply wf_snapshot. }
  intros r s' [Hr ->]. destruct r as [i |].
  - destruct Hr as (a & Ha & Heq). eauto.
  - apply Hnone. rewrite key_in_ranked. intros (i & a & Ha & Heq). by apply (Hr i a).
Qed.

Lemma runs_insert s n key val :
  wf s [] →
  runs (insert (S n) key val) s (λ r s',
    wf s' [] ∧ frozen (metadata s') = frozen (metadata s) ∧ retired (metadata s') = retired (metadata s) ∧
    if retired (metadata s) then r = Retired key val ∧ s' = s
    else if frozen (metadata s) then r = Frozen key val ∧ s' = s
    else match r with
         | Success => ¬ key_in key s ∧ (used (metadata s) < N)%nat ∧
                      entries s' ≡ₚ (key, val) :: entries s
         | Duplicate k v => k = key ∧ v = val ∧ key_in key s ∧ entries s' = entries s
         | Full k v => k = key ∧ v = val ∧ ¬ key_in key s ∧ used (metadata s) = N ∧ s' = s
         | _ => False
         end).
Proof.
  intros Hwf. unfold insert. apply runs_load, runs_loop.
  destruct (retired (metadata s)) eqn:Hrt; [apply runs_ret; by rewrite Hrt |].
  destruct (frozen (metadata s)) eqn:Hfz; [apply runs_ret; by rewrite Hrt, Hfz |].
  pose proof (uninit_slot_spec (metadata s)) as Hu.
  destruct (uninit_slot N 0 (metadata s)) as [i |].
  - destruct Hu as [Hi Hz]. apply runs_cas; [done |]. apply runs_write.
    destruct (wf_reserve _ _ _ Hwf Hi Hz) as [Hwf1 He1].
    set (s1 := set_metadata _ s) in *.
    assert (Hk : (i < length (keys s1))%nat) by by rewrite (wf_keys _ _ Hwf1).
    assert (Hv : (i < length (values s1))%nat) by by rewrite (wf_values _ _ Hwf1).
    destruct (wf_fill s1 [i] i (<[i := Some key]> (keys s1)) (<[i := Some val]> (values s1)))
      as [Hwf2 He2]; [done | left | rewrite length_insert; apply Hwf1.. | |].
    { intros j Hne. by rewrite !list_lookup_insert_ne by done. }
    set (s2 := Leaf _ _ _) in *.
    assert (used (metadata s) < N)%nat as Hroom.
    { destruct (decide (used (metadata s) = N)) as [Hfull |].
      - by destruct (proj2 (used_full _) Hfull i Hi Hz).
      - pose proof (used_le (metadata s)). lia. }
    assert (Hki : key_in key s2 ↔ key_in key s) by (unfold key_in; by rewrite He2, He1).
    eapply runs_call.
    { apply (runs_post_insert s2 [] n i key val Hwf2).
      - by apply entry_written.
      - simpl. by rewrite frozen_augment by auto with word.
      - simpl. by rewrite retired_augment by auto with word. }
    intros r s3 (Hwf3 & Hfz3 & Hrt3 & Hr). apply runs_ret. split_and!; [done.. |].
    destruct r; try contradiction; rewrite He2, He1 in Hr; tauto.
  - eapply runs_search_slot; [done | |].
    + intros i a Ha Heq. apply runs_ret. split_and!; try done.
      apply key_in_ranked. eauto.
    + intros Hn. apply runs_ret. split_and!; try done. by apply used_full.
Qed.

(** ** Removal *)

Lemma others_empty_spec m i :
  others_empty i m = true ↔ ∀ j, (j < N)%nat → valid m j → j = i.
Proof.
  unfold others_empty.
  set (body := λ (j : nat) (rank : Z) (a : unit), if _ : bool then Break false else Continue a).
  assert (match fold_ranks N 0 m body () with
          | Continue _ => ∀ j, (j < N)%nat → valid m j → j = i
          | Break b => b = false ∧ ∃ j, (j < N)%nat ∧ valid m j ∧ j ≠ i
          end) as Hf.
  { apply (fold_ranks_rule m _ (λ n _, ∀ j, (j < n)%nat → valid m j → j = i)); [| | lia].
    - intros j [] Hj HJ. unfold body. destruct (_ && _) eqn:Hb.
      + apply andb_true_iff in Hb as [[Hne%negb_true_iff%Nat.eqb_neq H0%negb_true_iff%Z.eqb_neq]%andb_true_iff
          H1%negb_true_iff%Z.eqb_neq]. split; [done |]. exists j. split_and!; [done | | done].
        pose proof (rank_le_removed m j). unfold valid, uninit_rank in *. lia.
      + intros j' Hj' Hv. destruct (decide (j' = j)) as [-> |]; [| apply HJ; [lia | done]].
        destruct Hv. apply andb_false_iff in Hb as [[Hb | Hb]%andb_false_iff | Hb];
          apply negb_false_iff in Hb; [apply Nat.eqb_eq in Hb | apply Z.eqb_eq in Hb..]; lia.
    - intros j [] Hj HJ Hz j' Hj' Hv. destruct (decide (j' = j)) as [-> |]; [| apply HJ; [lia | done]].
      destruct Hv. unfold uninit_rank in *. lia. }
  destruct (fold_ranks _ _ _ _ _) as [[] | b]; [done |].
  destruct Hf as (-> & j & Hj & Hv & Hne). split; [done |]. intros Hall. by destruct Hne, (Hall j).
Qed.

Lemma entries_nil s : entries s = [] ↔ ∀ i a, ¬ ranked (entry s) (metadata s) i a.
Proof.
  split.
  - intros Hn i a Ha. assert (a ∈ entries s) as Hin by (apply elem_of_entries; eauto).
    rewrite Hn in Hin. by apply not_elem_of_nil in Hin.
  - intros Hn. destruct (entries s) as [| a l] eqn:He; [done |].
    assert (a ∈ entries s) as [i Ha]%elem_of_entries by (rewrite He; left). by destruct (Hn i a).
Qed.

(** The removal of entry [i], found by the search. *)
Lemma runs_remove_found s n i a (condition : V → bool) :
  wf s [] → frozen (metadata s) = false → ranked (entry s) (metadata s) i a →
  runs (remove_found (S n) condition i (metadata s)) s (λ r s', entry s' = entry s ∧
    wf s' [] ∧
    match r with
    | RFail => s' = s ∧ condition a.2 = false
    | RSuccess => condition a.2 = true ∧ entries s ≡ₚ a :: entries s' ∧ entries s' ≠ [] ∧
                  frozen (metadata s') = false ∧ retired (metadata s') = retired (metadata s)
    | RRetired => condition a.2 = true ∧ entries s ≡ₚ [a] ∧ entries s' = [] ∧
                  frozen (metadata s') = false ∧ retired (metadata s') = true
    | _ => False
    end).
Proof.
  intros Hwf Hfz Ha. pose proof Ha as (Hi & _ & He). unfold remove_found. apply runs_loop.
  eapply runs_value_at; [exact He |].
  destruct (condition a.2) eqn:Hc; [| by apply runs_ret]. cbn [negb]. cbv zeta.
  apply runs_cas; [reflexivity |].
  rewrite (lor_mask_augment _ _ Hi (wf_word _ _ Hwf)).
  destruct (wf_remove s [] i a Hwf Ha) as [Hwf' Hp].
  set (m' := augment DIMENSION (metadata s) i removed) in *.
  assert (frozen m' = false) as Hfz' by (unfold m'; rewrite frozen_augment; auto with word).
  assert (retired m' = retired (metadata s)) as Hrt' by (unfold m'; rewrite retired_augment; auto with word).
  assert (Hrest : ∀ j b, ranked (entry s) (metadata s) j b → j ≠ i →
            ranked (entry (set_metadata m' s)) m' j b).
  { intros j b (Hj & Hv & Hb) Hne. split_and!; [exact Hj | | exact Hb].
    unfold valid, m'. rewrite rank_augment_ne by auto with word. exact Hv. }
  destruct (others_empty i (metadata s)) eqn:Ho.
  - rewrite others_empty_spec in Ho. destruct (wf_special (set_metadata m' s) [] (retire m') Hwf') as [Hwf'' He''].
    { apply in_word_retire, (wf_word _ _ Hwf'). }
    { intros j Hj. by apply rank_retire. }
    assert (entries (set_metadata m' s) = []) as Hnil.
    { apply entries_nil. intros j b (Hj & Hv & Hb).
      assert (j = i) as ->.
      { apply Ho; [exact Hj |]. destruct (decide (j = i)) as [-> |]; [apply Ha |].
        unfold valid in Hv |- *. simpl in Hv. unfold m' in Hv. by rewrite rank_augment_ne in Hv by auto with word. }
      destruct Hv as [_ Hv]. simpl in Hv. unfold m' in Hv.
      rewrite rank_augment_eq in Hv by auto with word. lia. }
    apply runs_ret. change (set_metadata (retire m') s) with (set_metadata (retire m') (set_metadata m' s)).
    rewrite He'', Hnil. rewrite Hnil in Hp. split; [done |]. split; [exact Hwf'' |]. simpl.
    rewrite frozen_retire, retired_retire. tauto.
  - apply runs_ret. split; [done |]. split; [exact Hwf' |]. simpl. split_and!; [reflexivity | exact Hp | | exact Hfz' | exact Hrt'].
    intros Hnil. rewrite entries_nil in Hnil.
    assert (others_empty i (metadata s) = true) as Ht; [| by rewrite Ht in Ho].
    apply others_empty_spec. intros j Hj Hv. destruct (decide (j = i)) as [| Hne]; [assumption |].
    destruct (snap_some _ _ (wf_snapshot _ _ Hwf) j Hj Hv) as [b Hb].
    destruct (Hnil j b). apply Hrest; [split_and!; assumption | exact Hne].
Qed.

(** The arrays are as before. *)
Lemma runs_remove_if_entry s n key (condition : V → bool) :
  wf s [] →
  runs (remove_if (S n) key condition) s (λ r s', entry s' = entry s ∧
    wf s' [] ∧
    match r with
    | RFrozen => frozen (metadata s) = true ∧ s' = s
    | RFail => frozen (metadata s) = false ∧ s' = s ∧
               ∀ v, (key, v) ∈ entries s → condition v = false
    | RSuccess => ∃ v, condition v = true ∧ entries s ≡ₚ (key, v) :: entries s' ∧ entries s' ≠ [] ∧
                  frozen (metadata s') = false ∧ retired (metadata s') = retired (metadata s)
    | RRetired => ∃ v, condition v = true ∧ entries s ≡ₚ [(key, v)] ∧ entries s' = [] ∧
                  frozen (metadata s') = false ∧ retired (metadata s') = true
    | RCleanup => False
    end).
Proof.
  intros Hwf. pose proof (wf_snapshot _ _ Hwf) as Hs. unfold remove_if. apply runs_load.
  destruct (frozen (metadata s)) eqn:Hfz; [by apply runs_ret |].
  eapply runs_call.
  - apply (runs_for_ranks (metadata s) _
      (λ i '(mn, mx) s', s' = s ∧ located (entry s) (metadata s) key i mn mx ∧
                         absent (entry s) (metadata s) key i)
      (λ r s', entry s' = entry s ∧ wf s' [] ∧ ∃ i a, ranked (entry s) (metadata s) i a ∧ a.1 = key ∧
        match r with
        | RFail => s' = s ∧ condition a.2 = false
        | RSuccess => condition a.2 = true ∧ entries s ≡ₚ a :: entries s' ∧ entries s' ≠ [] ∧
                      frozen (metadata s') = false ∧ retired (metadata s') = retired (metadata s)
        | RRetired => condition a.2 = true ∧ entries s ≡ₚ [a] ∧ entries s' = [] ∧
                      frozen (metadata s') = false ∧ retired (metadata s') = true
        | _ => False
        end)).
    + intros i [mn mx] s' Hi (-> & Hl & Hab). in_window_cases Hs Hi Hl a Ha.
      * eapply runs_call.
        { eapply (runs_reads (agrees (entry s))); [apply agrees_self | by eapply reads_compare]. }
        intros o s' [-> ->]. rewrite Hlt1, Hlt2.
        assert (Habs : cmp a.1 key ≠ Eq → absent (entry s) (metadata s) key (S i)).
        { intros Hne. apply absent_S; [done |]. intros b Hb. by rewrite (ranked_fun _ _ _ _ _ Hb Ha). }
        destruct (cmp a.1 key) eqn:Hc.
        -- eapply runs_call; [by apply (runs_remove_found s n i a) |].
           intros r s' (Hen & Hwf' & Hr). apply runs_ret. split; [exact Hen |]. split; [exact Hwf' |].
           exists i, a. split_and!; [exact Ha | by apply cmp_eq | exact Hr].
        -- apply runs_ret. split_and!; [done | by eapply located_lt | by apply Habs].
        -- apply runs_ret. split_and!; [done | eapply located_ge; eauto; congruence | by apply Habs].
      * apply runs_ret. split_and!; [done | done | by apply absent_S].
    + intros i [mn mx] s' Hi (-> & Hl & Hab) Hz. split_and!; [done | by apply located_zero |].
      apply absent_S; [done |]. intros a Ha. by apply zero_not_ranked in Ha.
    + split_and!; [done | apply located_0 | apply absent_0].
  - intros [[mn mx] | r] s' Hx; apply runs_ret.
    + destruct Hx as (-> & _ & Hab). split_and!; try done.
      intros v [i Hr]%elem_of_entries. exfalso. apply (Hab i _ (proj1 Hr) Hr). apply cmp_refl.
    + destruct Hx as (Hen & Hwf' & i & [k v] & Ha & <- & Hr). split; [exact Hen |]. split; [exact Hwf' |]. simpl in *.
      destruct r; try tauto; [exists v; tauto.. |].
      destruct Hr as [-> Hc]. split_and!; [reflexivity.. |].
      intros v' [j Hj]%elem_of_entries.
      assert (j = i) as -> by (by eapply snap_inj). pose proof (ranked_fun _ _ _ _ _ Hj Ha).
      by simplify_eq.
Qed.

Lemma runs_remove_if s n key (condition : V → bool) :
  wf s [] →
  runs (remove_if (S n) key condition) s (λ r s',
    wf s' [] ∧
    match r with
    | RFrozen => frozen (metadata s) = true ∧ s' = s
    | RFail => frozen (metadata s) = false ∧ s' = s ∧
               ∀ v, (key, v) ∈ entries s → condition v = false
    | RSuccess => ∃ v, condition v = true ∧ entries s ≡ₚ (key, v) :: entries s' ∧ entries s' ≠ [] ∧
                  frozen (metadata s') = false ∧ retired (metadata s') = retired (metadata s)
    | RRetired => ∃ v, condition v = true ∧ entries s ≡ₚ [(key, v)] ∧ entries s' = [] ∧
                  frozen (metadata s') = false ∧ retired (metadata s') = true
    | RCleanup => False
    end).
Proof. intros Hwf. eapply runs_mono; [| by apply runs_remove_if_entry]. by intros r s' [_ Hr]. Qed.

(** ** Queries *)

Lemma runs_search s key :
  wf s [] →
  runs (search key) s (λ r s', s' = s ∧
    match r with
    | Some v => (key, v) ∈ entries s
    | None => ¬ key_in key s
    end).
Proof.
  intros Hwf. unfold search. apply runs_load. eapply runs_search_slot; [exact Hwf | |].
  - intros i [k v] Ha Heq. simpl in Heq. subst k. eapply runs_value_at; [apply Ha |].
    apply runs_ret. split; [done |]. apply elem_of_entries. by exists i.
  - intros Hn. by apply runs_ret.
Qed.

Lemma is_empty_fold m :
  match fold_ranks N 0 m
          (λ _ rank a, if negb (rank =? uninit_rank) && negb (rank =? removed)
                       then Break false else Continue a) ()
  with
  | Continue _ => ∀ j, (j < N)%nat → ¬ valid m j
  | Break b => b = false ∧ ∃ j, (j < N)%nat ∧ valid m j
  end.
Proof.
  apply (fold_ranks_rule m _ (λ n _, ∀ j, (j < n)%nat → ¬ valid m j)); [| | lia].
  - intros j [] Hj HJ. destruct (_ && _) eqn:Hb.
    + apply andb_true_iff in Hb as [H0%negb_true_iff%Z.eqb_neq H1%negb_true_iff%Z.eqb_neq].
      split; [done |]. exists j. split; [done |].
      pose proof (rank_le_removed m j). unfold valid, uninit_rank in *. lia.
    + intros j' Hj' Hv. destruct (decide (j' = j)) as [-> |]; [| apply (HJ j'); [lia | done]].
      destruct Hv. apply andb_false_iff in Hb as [Hb | Hb];
        apply negb_false_iff, Z.eqb_eq in Hb; lia.
  - intros j [] Hj HJ Hz j' Hj' Hv. destruct (decide (j' = j)) as [-> |]; [| apply (HJ j'); [lia | done]].
    destruct Hv. unfold uninit_rank in *. lia.
Qed.

Lemma runs_is_empty s :
  wf s [] → runs is_empty s (λ b s', s' = s ∧ (b = true ↔ entries s = [])).
Proof.
  intros Hwf. unfold is_empty. apply runs_load, runs_ret. split; [done |].
  rewrite entries_nil. pose proof (is_empty_fold (metadata s)) as Hf.
  destruct (fold_ranks _ _ _ _ _) as [[] | b].
  - split; [intros _ | done]. intros i a (Hi & Hv & _). by apply (Hf i).
  - destruct Hf as (-> & j & Hj & Hv). split; [done |]. intros Hn. exfalso.
    destruct (snap_some _ _ (wf_snapshot _ _ Hwf) j Hj Hv) as [a Ha]. by apply (Hn j a).
Qed.

(** The loop of [max_entry]: the entry with the highest rank. *)
Lemma max_entry_fold m :
  match fold_ranks (R := Empty_set) N 0 m
          (λ i rank '(max_rank, max_index),
            if (max_rank <? rank) && negb (rank =? removed) then Continue (rank, i)
            else Continue (max_rank, max_index)) (0, N)
  with
  | Continue (_, i) =>
      if decide (i = N) then ∀ j, (j < N)%nat → ¬ valid m j
      else (i < N)%nat ∧ valid m i ∧ ∀ j, (j < N)%nat → valid m j → rk m j ≤ rk m i
  | Break _ => False
  end.
Proof.
  pose (J := λ n '(mr, i), 0 ≤ mr ∧ (∀ j, (j < n)%nat → valid m j → rk m j ≤ mr) ∧
    if decide (i = N) then mr = 0 else (i < N)%nat ∧ valid m i ∧ rk m i = mr).
  match goal with |- match ?f with _ => _ end =>
    assert (match f with Continue a => J N a | Break r => False end) as HJ
  end.
  { apply (fold_ranks_rule m _ J (λ _, False)).
    - intros j [mr i] Hj (H0 & Hle & Hi). destruct (_ && _) eqn:Hb.
      + apply andb_true_iff in Hb as [Hlt%Z.ltb_lt Hr%negb_true_iff%Z.eqb_neq].
        pose proof (rank_le_removed m j). split_and!; [lia | |].
        * intros j' Hj' Hv. destruct (decide (j' = j)) as [-> |]; [lia |].
          specialize (Hle j' ltac:(lia) Hv). lia.
        * rewrite decide_False by lia. unfold valid, uninit_rank. split_and!; lia.
      + split_and!; [done | | done]. intros j' Hj' Hv.
        destruct (decide (j' = j)) as [-> |]; [| apply (Hle j'); [lia | done]].
        destruct Hv. apply andb_false_iff in Hb as [Hb%Z.ltb_ge | Hb]; [done |].
        apply negb_false_iff, Z.eqb_eq in Hb. lia.
    - intros j [mr i] Hj (H0 & Hle & Hi) Hz. split_and!; [done | | done].
      intros j' Hj' Hv. destruct (decide (j' = j)) as [-> |]; [lia | apply (Hle j'); [lia | done]].
    - split_and!; [lia | lia |]. by rewrite decide_True. }
  destruct (fold_ranks _ _ _ _ _) as [[mr i] |]; [| done].
  destruct HJ as (H0 & Hle & Hi). case_decide.
  - intros j Hj Hv. specialize (Hle j Hj Hv). destruct Hv. unfold uninit_rank in *. lia.
  - destruct Hi as (? & ? & Hr). split_and!; [done.. |]. intros j Hj Hv. rewrite Hr. auto.
Qed.

Lemma runs_max_entry s :
  wf s [] →
  runs max_entry s (λ r s', s' = s ∧
    match r with
    | Some a => a ∈ entries s ∧ ∀ b, b ∈ entries s → b = a ∨ cmp b.1 a.1 = Lt
    | None => entries s = []
    end).
Proof.
  intros Hwf. pose proof (wf_snapshot _ _ Hwf) as Hs. unfold max_entry. apply runs_load.
  pose proof (max_entry_fold (metadata s)) as Hf.
  destruct (fold_ranks _ _ _ _ _) as [[mr i] | []]. destruct (Nat.eqb_spec i N) as [-> | Hne]; simpl.
  - rewrite decide_True in Hf by done. apply runs_ret. split; [done |]. apply entries_nil.
    intros j a (Hj & Hv & _). by apply (Hf j).
  - rewrite decide_False in Hf by done. destruct Hf as (Hi & Hv & Hmax).
    destruct (snap_some _ _ Hs i Hi Hv) as [a Ha]. assert (ranked (entry s) (metadata s) i a) as Hra by done.
    eapply runs_key_at; [exact Ha |]. eapply runs_value_at; [exact Ha |]. apply runs_ret.
    split; [done |]. replace (a.1, a.2) with a by by destruct a.
    split; [apply elem_of_entries; eauto |]. intros b [j Hb]%elem_of_entries.
    destruct (decide (j = i)) as [-> |]; [left; by eapply ranked_fun |]. right.
    apply (snap_lt _ _ _ _ _ _ Hs Hb Hra). pose proof (Hmax j (proj1 Hb) (proj1 (proj2 Hb))).
    destruct (snap_order _ _ Hs j i b a Hb Hra); [done |]. lia.
Qed.

(** In terms of keys: the rank order is the key order. *)
Lemma rank_key_le s i j a b :
  wf s [] → ranked (entry s) (metadata s) i a → ranked (entry s) (metadata s) j b →
  rk (metadata s) i ≤ rk (metadata s) j ↔ cmp b.1 a.1 ≠ Lt.
Proof.
  intros Hwf Ha Hb. rewrite <-(snap_lt _ _ _ _ _ _ (wf_snapshot _ _ Hwf) Hb Ha). lia.
Qed.

Lemma runs_min_greater_equal s key :
  wf s [] →
  runs (min_greater_equal key) s (λ '(r, m) s', s' = s ∧ m = metadata s ∧
    match r with
    | Some a => a ∈ entries s ∧ cmp a.1 key ≠ Lt ∧
                ∀ b, b ∈ entries s → cmp b.1 key ≠ Lt → cmp b.1 a.1 ≠ Lt
    | None => ∀ a, a ∈ entries s → cmp a.1 key = Lt
    end).
Proof.
  intros Hwf. pose proof (wf_snapshot _ _ Hwf) as Hs. unfold min_greater_equal. apply runs_load.
  assert (Hres : ∀ a, min_ge_result (entry s) (metadata s) key (Some a) →
    a ∈ entries s ∧ cmp a.1 key ≠ Lt ∧ ∀ b, b ∈ entries s → cmp b.1 key ≠ Lt → cmp b.1 a.1 ≠ Lt).
  { intros a (i & Ha & Hc & Hmin). split_and!; [apply elem_of_entries; eauto | exact Hc |].
    intros b [j Hb]%elem_of_entries Hcb. apply (rank_key_le s i j a b Hwf Ha Hb). eauto. }
  eapply runs_call.
  { eapply (runs_reads (agrees (entry s))); [apply agrees_self | by apply min_ge_scan]. }
  intros x s' [Hx ->]. destruct x as [[[mn mx] idx] | a].
  - destruct (Nat.eqb_spec idx N) as [-> | Hne]; cbn [negb].
    + rewrite decide_True in Hx by done. apply runs_ret. split_and!; [done.. |].
      intros a [i Ha]%elem_of_entries. by apply (Hx i).
    + rewrite decide_False in Hx by done. destruct Hx as (a & Ha & Hr).
      eapply runs_key_at; [apply Ha |]. eapply runs_value_at; [apply Ha |]. apply runs_ret.
      split; [done |]. split; [done |]. replace (a.1, a.2) with a by by destruct a. by apply Hres.
  - apply runs_ret. split; [done |]. split; [done |]. by apply Hres.
Qed.

Lemma runs_max_less s key :
  wf s [] →
  runs (max_less (metadata s) key) s (λ i s', s' = s ∧
    if decide (i = N) then ∀ a, a ∈ entries s → cmp a.1 key ≠ Lt
    else ∃ a, entry s i = Some a ∧ a ∈ entries s ∧ cmp a.1 key = Lt ∧
              ∀ b, b ∈ entries s → cmp b.1 key = Lt → cmp a.1 b.1 ≠ Lt).
Proof.
  intros Hwf. eapply runs_mono; [| eapply (runs_reads (agrees (entry s)));
    [apply agrees_self | by apply max_less_spec, (wf_snapshot _ _ Hwf)]].
  intros i s' [Hr ->]. split; [done |]. unfold max_less_result in Hr. case_decide.
  - intros a [j Ha]%elem_of_entries. by apply (Hr j).
  - destruct Hr as (a & Ha & Hc & Hmax). exists a.
    split_and!; [apply Ha | apply elem_of_entries; eauto | exact Hc |].
    intros b [j Hb]%elem_of_entries Hcb. apply (rank_key_le s j i b a Hwf Hb Ha). eauto.
Qed.
End Sequential.
