(* ===== verification/LeafScan.v ===== *)
(** * Scanning and splitting a leaf

    The reference for a scan is the list of the entries by increasing rank, which is
    the list of the entries by increasing key. *)
From stdpp Require Import sorting.
From S2P Require Import Prelude Atomic Ord Tag Dimension Leaf LeafInv LeafState LeafSeq.

Local Open Scope Z_scope.

Lemma StronglySorted_lookup {A} (R : A → A → Prop) (l : list A) i j a b :
  StronglySorted R l → l !! i = Some a → l !! j = Some b → (i < j)%nat → R a b.
Proof.
  intros Hl. revert i j. induction Hl as [| c l Hl IH Hf]; intros [| i] [| j] Hi Hj Hij; simplify_eq/=; try lia.
  - rewrite Forall_lookup in Hf. eauto.
  - apply (IH i j); [done | done | lia].
Qed.

(** ** The slots in rank order *)

(** The first slot of a rank. *)
Definition slot_with (m : Z) (r : nat) : option nat :=
  head (filter (λ i, rk m i = Z.of_nat r) (seq 0 N)).

(** The slots of the ranks above [c], by increasing rank. *)
Definition rest (m : Z) (c : nat) : list nat := omap (slot_with m) (seq (S c) (N - c)).

Definition in_order (m : Z) : list nat := rest m 0.

Definition distinct (m : Z) : Prop :=
  ∀ i j, (i < N)%nat → (j < N)%nat → valid m i → valid m j → rk m i = rk m j → i = j.

Lemma valid_le_N m i : valid m i → 0 < rk m i ≤ Z.of_nat N.
Proof. intros [H0 H1]. unfold uninit_rank in H0. rewrite removed_val in H1. dims. Qed.

Lemma slot_with_Some m r i :
  slot_with m r = Some i → (i < N)%nat ∧ rk m i = Z.of_nat r.
Proof.
  unfold slot_with. intros Hh. assert (i ∈ filter (λ i, rk m i = Z.of_nat r) (seq 0 N)) as Hin.
  { destruct (filter _ _); simplify_eq/=. left. }
  apply list_elem_of_filter in Hin as [Hr Hi%elem_of_seq]. split; [lia | done].
Qed.

Lemma slot_with_None m r : slot_with m r = None → ∀ i, (i < N)%nat → rk m i ≠ Z.of_nat r.
Proof.
  unfold slot_with. intros Hh i Hi Hr.
  assert (i ∈ filter (λ i, rk m i = Z.of_nat r) (seq 0 N)) as Hin.
  { apply list_elem_of_filter. split; [done | apply elem_of_seq; lia]. }
  destruct (filter _ _); [by apply not_elem_of_nil in Hin | done].
Qed.

Lemma rest_step m c :
  (c < N)%nat →
  rest m c = match slot_with m (S c) with Some i => i :: rest m (S c) | None => rest m (S c) end.
Proof.
  intros Hc. unfold rest. replace (N - c)%nat with (S (N - S c)) by lia. done.
Qed.

Lemma rest_N m c : (N ≤ c)%nat → rest m c = [].
Proof. intros Hc. unfold rest. by replace (N - c)%nat with O by lia. Qed.

Lemma rest_nil m c :
  (∀ i, (i < N)%nat → valid m i → rk m i ≤ Z.of_nat c) → rest m c = [].
Proof.
  remember (N - c)%nat as k eqn:Hk. revert c Hk. induction k as [| k IH]; intros c Hk Hc.
  - apply rest_N. lia.
  - rewrite rest_step by lia. destruct (slot_with m (S c)) as [i |] eqn:Hs.
    + apply slot_with_Some in Hs as [Hi Hr]. exfalso.
      assert (valid m i) as Hv by (unfold valid, uninit_rank; rewrite removed_val; dims).
      specialize (Hc i Hi Hv). lia.
    + apply IH; [lia |]. intros i Hi Hv. specialize (Hc i Hi Hv). lia.
Qed.

Lemma rest_cons m c i :
  distinct m → (i < N)%nat → valid m i → Z.of_nat c < rk m i →
  (∀ j, (j < N)%nat → valid m j → Z.of_nat c < rk m j → rk m i ≤ rk m j) →
  rest m c = i :: rest m (Z.to_nat (rk m i)).
Proof.
  intros Hd Hi Hv. remember (N - c)%nat as k eqn:Hk. revert c Hk.
  pose proof (valid_le_N m i Hv). induction k as [| k IH]; intros c Hk Hc Hmin; [lia |].
  rewrite rest_step by lia. destruct (slot_with m (S c)) as [j |] eqn:Hs.
  - apply slot_with_Some in Hs as [Hj Hr].
    assert (valid m j) as Hvj by (unfold valid, uninit_rank; rewrite removed_val; dims).
    specialize (Hmin j Hj Hvj ltac:(lia)). assert (i = j) as -> by (apply Hd; auto; lia).
    do 2 f_equal. lia.
  - assert (rk m i ≠ Z.of_nat (S c)) by (by apply slot_with_None). apply IH; [lia.. |].
    intros j Hj Hvj Hcj. apply Hmin; auto. lia.
Qed.

Lemma length_rest m c : (length (rest m c) ≤ N)%nat.
Proof. unfold rest. etrans; [apply length_omap_le |]. rewrite length_seq. lia. Qed.

(** ** [Leaf::next] *)

(** A scanner position: before the first entry ([c] is 0) or on the entry of rank
    [c]. *)
Definition position (m : Z) (index : nat) (c : nat) : Prop :=
  (index = N ∧ c = O) ∨ ((index < N)%nat ∧ valid m index ∧ rk m index = Z.of_nat c).

Lemma position_at m i : (i < N)%nat → valid m i → position m i (Z.to_nat (rk m i)).
Proof. intros Hi Hv. right. pose proof (valid_le_N _ _ Hv). split_and!; [done | done | lia]. Qed.

Lemma next_spec m index c :
  distinct m → position m index c →
  match rest m c with
  | [] => next index m = N
  | i :: _ => next index m = i ∧ (i < N)%nat ∧ valid m i ∧
              rest m c = i :: rest m (Z.to_nat (rk m i))
  end.
Proof.
  intros Hd Hpos. unfold next. set (cur := if (index =? N)%nat then 0 else rk m index).
  assert (cur = Z.of_nat c ∧ cur ≤ Z.of_nat N) as [Hcur HcN].
  { unfold cur. destruct Hpos as [[-> ->] | (Hi & Hv & Hr)].
    - rewrite Nat.eqb_refl. lia.
    - pose proof (valid_le_N _ _ Hv). destruct (Nat.eqb_spec index N); lia. }
  assert (Hidx : index = N ∨ rk m index = cur) by (destruct Hpos as [[? ?] | (? & ? & ?)]; [by left | right; lia]).
  clearbody cur. subst cur.
  assert (Hdone : ∀ i, (i < N)%nat → valid m i → Z.of_nat c < rk m i →
     (∀ j, (j < N)%nat → valid m j → Z.of_nat c < rk m j → rk m i ≤ rk m j) →
     match rest m c with
     | [] => i = N
     | i' :: _ => i = i' ∧ (i' < N)%nat ∧ valid m i' ∧ rest m c = i' :: rest m (Z.to_nat (rk m i'))
     end).
  { intros i Hi Hv Hc Hmin. by rewrite (rest_cons m c i). }
  destruct (Z.ltb_spec (Z.of_nat c) (Z.of_nat N)) as [HcN' | HcN']; [| by rewrite rest_N by lia].
  pose (J := λ n '(nr, ni), (∀ j, (j < n)%nat → valid m j → Z.of_nat c < rk m j → nr ≤ rk m j) ∧
    if decide (ni = N) then nr = removed else (ni < N)%nat ∧ valid m ni ∧ Z.of_nat c < rk m ni ∧ rk m ni = nr).
  pose (Q := λ i, (i < N)%nat ∧ valid m i ∧ rk m i = Z.of_nat c + 1).
  match goal with |- context [fold_ranks N 0 m ?body ?start] =>
    assert (match fold_ranks N 0 m body start with Continue a => J N a | Break r => Q r end) as HJ
  end.
  { apply fold_ranks_rule.
    - intros i [nr ni] Hi [Hle Hni].
      assert (Hskip : ¬ valid m i ∨ rk m i ≤ Z.of_nat c ∨ nr ≤ rk m i → J (S i) (nr, ni)).
      { intros Hor. split; [| exact Hni]. intros j Hj Hv Hc.
        destruct (decide (j = i)) as [-> |]; [| apply Hle; [lia | done..]].
        destruct Hor as [| [|]]; [done | lia | done]. }
      destruct (_ && _) eqn:Hb.
      + apply andb_true_iff in Hb as [[Hne%negb_true_iff%Nat.eqb_neq H0%negb_true_iff%Z.eqb_neq]%andb_true_iff Hlt%Z.ltb_lt].
        pose proof (rank_le_removed m i).
        assert (nr ≤ removed) by (case_decide; [lia | destruct Hni as (_ & [_ ?] & _ & ?); lia]).
        assert (valid m i) as Hv by (unfold valid, uninit_rank in *; lia).
        destruct (Z.eqb_spec (rk m i) (Z.of_nat c + 1)); [done |].
        destruct (Z.ltb_spec (Z.of_nat c) (rk m i)).
        * split; [| rewrite decide_False by lia; split_and!; done].
          intros j Hj Hvj Hc. destruct (decide (j = i)) as [-> |]; [lia |].
          specialize (Hle j ltac:(lia) Hvj Hc). lia.
        * apply Hskip. lia.
      + apply Hskip. apply andb_false_iff in Hb as [[Hb | Hb]%andb_false_iff | Hb].
        * apply negb_false_iff, Nat.eqb_eq in Hb. subst. right. left. destruct Hidx; lia.
        * apply negb_false_iff, Z.eqb_eq in Hb. left. intros [? _]. lia.
        * apply Z.ltb_ge in Hb. lia.
    - intros i [nr ni] Hi [Hle Hni] Hz. split; [| exact Hni]. intros j Hj Hv Hc.
      destruct (decide (j = i)) as [-> |]; [lia | apply Hle; [lia | done..]].
    - split; [lia |]. by rewrite decide_True. }
  destruct (fold_ranks _ _ _ _ _) as [[nr ni] | i].
  - destruct HJ as [Hle Hni]. case_decide.
    + rewrite rest_nil; [done |]. intros i Hi Hv. destruct (decide (rk m i ≤ Z.of_nat c)); [done |].
      specialize (Hle i Hi Hv ltac:(lia)). destruct Hv. lia.
    + destruct Hni as (Hi & Hv & Hc & Hr). apply Hdone; [done.. |]. intros j Hj Hvj Hcj. rewrite Hr. auto.
  - destruct HJ as (Hi & Hv & Hr). apply Hdone; [done | done | lia |]. intros. lia.
Qed.

(** ** Scanning *)

Section Scan.
Context {K V : Type} `{KeyOrd K}.
Implicit Types (s : leaf K V) (e : nat → option (K * V)).

Lemma snapshot_distinct e m : snapshot e m → distinct m.
Proof.
  intros Hs i j Hi Hj Hvi Hvj Hr. destruct (decide (i = j)) as [| Hne]; [done |].
  destruct (snap_some _ _ Hs i Hi Hvi) as [a Ha], (snap_some _ _ Hs j Hj Hvj) as [b Hb].
  by destruct (snap_order _ _ Hs i j a b (conj Hi (conj Hvi Ha)) (conj Hj (conj Hvj Hb)) Hne).
Qed.

Definition scanner_at (m : Z) (index : nat) : Scanner :=
  {| sc_metadata := m; entry_index := Z.of_nat index |}.

Definition fused (m : Z) : Scanner := {| sc_metadata := m; entry_index := umax usize_bits |}.

Lemma proceed_at m index :
  (index ≤ N)%nat →
  proceed (scanner_at m index) =
    if (next index m =? N)%nat then fused m else scanner_at m (next index m).
Proof.
  intros Hi. unfold proceed, scanner_at, fused. simpl.
  destruct (Z.eqb_spec (Z.of_nat index) (umax usize_bits)) as [He |]; [| by rewrite Nat2Z.id].
  exfalso. unfold umax in He. assert (Z.of_nat index ≤ 14) by dims.
  change (2 ^ Z.of_nat usize_bits - 1) with (2 ^ 64 - 1) in He. lia.
Qed.

(** The iterator yields the next entry in rank order, and [None] for ever once
    there is none. *)
Lemma scanner_next_spec e m index c :
  snapshot e m → position m index c →
  reads (agrees e) (scanner_next (V := V) (scanner_at m index)) (λ '(o, sc),
    match rest m c with
    | [] => o = None ∧ sc = fused m
    | i :: _ => ∃ a, ranked e m i a ∧ o = Some a ∧ sc = scanner_at m i ∧
                rest m c = i :: rest m (Z.to_nat (rk m i))
    end).
Proof.
  intros Hs Hpos. unfold scanner_next. cbv zeta.
  assert (index ≤ N)%nat by (destruct Hpos as [[-> _] | [? _]]; lia).
  rewrite proceed_at by done.
  pose proof (next_spec m index c (snapshot_distinct _ _ Hs) Hpos) as Hn.
  destruct (rest m c) as [| i l].
  - rewrite Hn, Nat.eqb_refl. unfold scanner_get.
    rewrite (proj2 (Z.leb_le _ _)); [done |]. unfold fused. cbn [entry_index].
    change (umax usize_bits) with (2 ^ 64 - 1). dims.
  - destruct Hn as (-> & Hi & Hv & Hrest).
    rewrite (proj2 (Nat.eqb_neq _ _)) by lia. unfold scanner_get, scanner_at. cbn [entry_index].
    rewrite (proj2 (Z.leb_gt _ _)), Nat2Z.id by lia.
    destruct (snap_some _ _ Hs i Hi Hv) as [a Ha]. assert (ranked e m i a) as Hra by done.
    apply reads_bind. eapply reads_entry; [exact Hra |]. cbn [reads].
    exists a. split_and!; [done | by destruct a | done | done].
Qed.

Lemma fused_next e m :
  reads (agrees e) (scanner_next (V := V) (fused m)) (λ r, r = (None, fused m)).
Proof.
  unfold scanner_next, proceed, fused. cbn [entry_index]. rewrite Z.eqb_refl. cbv zeta.
  unfold scanner_get. cbn [entry_index]. rewrite (proj2 (Z.leb_le _ _)); [done |].
  change (umax usize_bits) with (2 ^ 64 - 1). dims.
Qed.

(** The [for] loop over a scanner: the body sees the entries one after the other, and
    the fuel is enough. *)
Lemma for_each_rule {A} e m (body : nat → K * V → A → prog (leaf K V) A) (J : nat → A → Prop) a :
  snapshot e m →
  (∀ i b x, omap e (in_order m) !! i = Some b → J i x → reads (agrees e) (body i b x) (J (S i))) →
  J 0%nat a →
  reads (agrees e) (for_each scan_fuel body (scanner_at m N) a) (J (length (in_order m))).
Proof.
  intros Hs Hbody HJ. unfold for_each.
  assert (∀ n c index k x, (length (rest m c) < n)%nat → position m index c →
    (∀ i b x, omap e (rest m c) !! i = Some b → J (k + i)%nat x →
              reads (agrees e) (body (k + i)%nat b x) (J (S (k + i)))) →
    J k x →
    reads (agrees e) (loop n (λ '(i, sc, a),
      let! '(e, sc) := scanner_next sc in
      match e with
      | None => Ret (Break a)
      | Some e => let! a := body i e a in Ret (Continue (S i, sc, a))
      end) (k, scanner_at m index, x)) (J (k + length (rest m c))%nat)) as Hgen.
  { clear a HJ Hbody. induction n as [| n IH]; intros c index k x Hn Hpos Hbody HJ; [lia |].
    cbn [loop]. apply reads_bind, reads_bind.
    eapply reads_mono; [| by apply (scanner_next_spec e m index c)].
    intros [o sc] Hx. destruct (rest m c) as [| i l].
    - destruct Hx as [-> ->]. cbn [reads]. rewrite Nat.add_0_r. exact HJ.
    - destruct Hx as (b & Hb & -> & -> & Hrest). injection Hrest as ->.
      assert (reads (agrees e) (body k b x) (J (S k))) as Hb0.
      { pose proof (Hbody 0%nat b x) as Hb0. rewrite Nat.add_0_r in Hb0.
        apply Hb0; [| exact HJ]. csimpl. by destruct Hb as (_ & _ & ->). }
      apply reads_bind. eapply reads_mono; [| exact Hb0]. intros y HJy. cbn [reads length].
      rewrite Nat.add_succ_r, <-Nat.add_succ_l. apply IH.
      + simpl in Hn. lia.
      + apply position_at; apply Hb.
      + intros i' b' x' Hi'. rewrite Nat.add_succ_l, <-Nat.add_succ_r. apply Hbody.
        csimpl. destruct Hb as (_ & _ & ->). done.
      + exact HJy. }
  apply (Hgen scan_fuel 0%nat N 0%nat a); [| by left | done | done].
  unfold scan_fuel. pose proof (length_rest m 0). lia.
Qed.

(** ** The order of a scan *)

Definition sorted_entries s : list (K * V) := omap (entry s) (in_order (metadata s)).

Definition before (a b : K * V) : Prop := cmp a.1 b.1 = Lt.

Lemma elem_of_rest m c i :
  distinct m → i ∈ rest m c ↔ (i < N)%nat ∧ valid m i ∧ Z.of_nat c < rk m i.
Proof.
  intros Hd. unfold rest. rewrite list_elem_of_omap. setoid_rewrite elem_of_seq. split.
  - intros (r & Hr & [Hi Heq]%slot_with_Some). split_and!; [done | | lia].
    unfold valid, uninit_rank. rewrite removed_val. dims.
  - intros (Hi & Hv & Hc). pose proof (valid_le_N _ _ Hv). exists (Z.to_nat (rk m i)). split; [lia |].
    destruct (slot_with m (Z.to_nat (rk m i))) as [j |] eqn:Hs.
    + apply slot_with_Some in Hs as [Hj Hr]. f_equal. apply Hd; [done | done | | done | lia].
      unfold valid in *. lia.
    + exfalso. apply (slot_with_None _ _ Hs i Hi). lia.
Qed.

Lemma sorted_rest e m c :
  snapshot e m → (c ≤ N)%nat →
  StronglySorted before (omap e (rest m c)) ∧ NoDup (rest m c).
Proof.
  intros Hs. pose proof (snapshot_distinct _ _ Hs) as Hd.
  remember (N - c)%nat as k eqn:Hk. revert c Hk. induction k as [| k IH]; intros c Hk Hc.
  { rewrite rest_N by lia. split; constructor. }
  destruct (IH (S c)) as [Hss Hnd]; [lia.. |]. rewrite rest_step by lia.
  destruct (slot_with m (S c)) as [i |] eqn:Hsl; [| done].
  apply slot_with_Some in Hsl as [Hi Hr].
  assert (valid m i) as Hv by (unfold valid, uninit_rank; rewrite removed_val; dims).
  destruct (snap_some _ _ Hs i Hi Hv) as [a Ha]. csimpl. rewrite Ha. split.
  - constructor; [done |]. apply Forall_forall. intros b (j & Hj & Hb)%list_elem_of_omap.
    apply elem_of_rest in Hj as (Hj & Hvj & Hcj); [| done].
    apply (snap_lt e m i j a b Hs); [done | done | lia].
  - constructor; [| done]. intros (_ & _ & Hc')%elem_of_rest; [lia | done].
Qed.

(** A scan sees the entries of the leaf, each of them once, by increasing key. *)
Lemma sorted_entries_spec s :
  wf s [] → StronglySorted before (sorted_entries s) ∧ sorted_entries s ≡ₚ entries s.
Proof.
  intros Hwf. pose proof (wf_snapshot _ _ Hwf) as Hs.
  destruct (sorted_rest _ _ 0 Hs) as [Hss Hnd]; [lia |]. split; [exact Hss |].
  unfold sorted_entries, entries, gather.
  assert (omap (live_at s) (seq 0 N) = omap (entry s) (filter (valid (metadata s)) (seq 0 N))) as ->.
  { generalize (seq 0 N) as l. induction l as [| i l IH]; [done |]. csimpl.
    unfold live_at at 1. rewrite filter_cons. rewrite IH. by case_decide. }
  apply omap_Permutation, NoDup_Permutation; [exact Hnd | by apply NoDup_filter, NoDup_seq |].
  intros i. unfold in_order. rewrite elem_of_rest by by eapply snapshot_distinct.
  rewrite list_elem_of_filter, elem_of_seq. unfold valid, uninit_rank. intuition lia.
Qed.

Lemma length_sorted_entries s : wf s [] → length (sorted_entries s) = length (in_order (metadata s)).
Proof.
  intros Hwf. unfold sorted_entries. pose proof (wf_snapshot _ _ Hwf) as Hs.
  assert (∀ i, i ∈ in_order (metadata s) → is_Some (entry s i)) as Hi.
  { intros i (Hi & Hv & _)%elem_of_rest; [by apply (snap_some _ _ Hs) | by eapply snapshot_distinct]. }
  revert Hi. generalize (in_order (metadata s)) as l. induction l as [| i l IH]; intros Hi; [done |].
  csimpl. destruct (Hi i ltac:(left)) as [a ->]. simpl. f_equal. apply IH. intros j Hj. apply Hi. by right.
Qed.

(** ** Splitting *)

(** A leaf under construction by [insert_unchecked] holds [l] in its first slots. *)
Record packed (l : list (K * V)) s : Prop := {
  packed_word : in_word usize_bits (metadata s);
  packed_keys : length (keys s) = N;
  packed_values : length (values s) = N;
  packed_special : frozen (metadata s) = false ∧ retired (metadata s) = false;
  packed_len : (length l ≤ N)%nat;
  packed_rank : ∀ j, (j < N)%nat →
    rk (metadata s) j = if decide (j < length l)%nat then Z.of_nat j + 1 else uninit_rank;
  packed_entry : ∀ j, (j < length l)%nat → entry s j = l !! j;
  packed_clean : ∀ j, (length l ≤ j < N)%nat → key_of s j = None ∧ value_of s j = None
}.

Lemma rank_0 i : (i < N)%nat → rk 0 i = uninit_rank.
Proof. intros Hi. apply (shifted_zero 0 0); [done | lia]. Qed.

Lemma packed_new : packed [] new.
Proof.
  assert (∀ i, bit 0 i = false) as Hz by apply bit_0.
  constructor; cbn [metadata keys values new length].
  - apply in_word_0.
  - apply length_replicate.
  - apply length_replicate.
  - by rewrite frozen_bit, retired_bit, !Hz.
  - lia.
  - intros j Hj. by apply rank_0.
  - intros j. lia.
  - intros j Hj. unfold key_of, value_of. simpl. by rewrite !lookup_replicate_2 by lia.
Qed.

Lemma insert_unchecked_spec l s k v :
  packed l s → (length l < N)%nat →
  ∃ s', run (insert_unchecked k v (length l)) s = Done () s' ∧ packed (l ++ [(k, v)]) s'.
Proof.
  intros [Hw Hk Hv [Hf Hr] Hle Hrk He Hc] Hlt. eexists. split.
  { unfold insert_unchecked. rewrite (proj2 (Nat.ltb_lt _ _) Hlt). reflexivity. }
  assert (in_word B (Z.of_nat (length l) + 1)) as Hwr.
  { apply in_word_rank_succ; [lia |]. rewrite removed_val. dims. }
  set (m := metadata s) in *.
  constructor; cbn [metadata keys values set_metadata]; rewrite ?length_insert, ?length_app; simpl.
  - by apply in_word_augment.
  - done.
  - done.
  - by rewrite frozen_augment, retired_augment.
  - lia.
  - intros j Hj. rewrite rank_augment by done. destruct (decide (length l = j)) as [<- |].
    + rewrite decide_True by lia. lia.
    + rewrite Hrk by done. repeat case_decide; try done; lia.
  - intros j Hj. destruct (decide (j = length l)) as [-> |].
    + rewrite lookup_app_r, Nat.sub_diag by lia. unfold entry, key_of, value_of. simpl.
      rewrite !list_lookup_insert_eq by lia. done.
    + rewrite lookup_app_l by lia. rewrite <-He by lia. unfold entry, key_of, value_of. simpl.
      by rewrite !list_lookup_insert_ne by done.
  - intros j Hj. unfold key_of, value_of. simpl. rewrite !list_lookup_insert_ne by lia.
    apply Hc. lia.
Qed.

Lemma used_prefix m n : (n ≤ N)%nat → (∀ j, (j < n)%nat → rk m j ≠ uninit_rank) → (n ≤ used m)%nat.
Proof.
  intros Hn Hj. unfold used, gather. replace N with (n + (N - n))%nat by lia.
  rewrite seq_app, omap_app, length_app. etrans; [| apply Nat.le_add_r].
  assert (∀ j, j ∈ seq 0 n → rk m j ≠ uninit_rank) as Hs by (intros j Hi%elem_of_seq; apply Hj; lia).
  assert (n = length (seq 0 n)) as Hlen by by rewrite length_seq.
  rewrite Hlen at 1. revert Hs. generalize (seq 0 n) as l. clear.
  induction l as [| j l IH]; intros Hs; [simpl; lia |]. csimpl. unfold used_slot at 1.
  rewrite decide_False by (apply Hs; left). simpl. apply le_n_S, IH. intros i Hi. apply Hs. by right.
Qed.

Lemma packed_valid l s j :
  packed l s → (j < N)%nat → valid (metadata s) j ↔ (j < length l)%nat.
Proof.
  intros Hp Hj. unfold valid. rewrite (packed_rank _ _ Hp) by done.
  pose proof (packed_len _ _ Hp). unfold uninit_rank. rewrite removed_val. case_decide; dims.
Qed.

Lemma packed_sorted l s :
  packed l s → StronglySorted before l → wf s [] ∧ sorted_entries s = l.
Proof.
  intros Hp Hl. assert (wf s []) as Hwf.
  { constructor; try apply Hp; try done; [apply NoDup_nil_2 | set_solver | | | |].
    - intros i Hi Hr _. rewrite (packed_rank _ _ Hp) in Hr by done. case_decide; [| done].
      rewrite (packed_entry _ _ Hp) by done. by apply lookup_lt_is_Some_2.
    - intros i Hi Hr. apply (packed_clean _ _ Hp). split; [| done].
      rewrite (packed_rank _ _ Hp) in Hr by done. case_decide; [| lia].
      unfold uninit_rank in Hr. lia.
    - intros i j a b (Hi & Hvi & Ha) (Hj & Hvj & Hb) Hne.
      apply (packed_valid l) in Hvi, Hvj; try done.
      rewrite !(packed_rank _ _ Hp), !decide_True by done. rewrite (packed_entry _ _ Hp) in Ha, Hb by done.
      split; [lia |]. intros Hlt.
      apply (StronglySorted_lookup before l i j a b Hl); [done | done | lia].
    - intros i Hi Hv. apply (packed_valid l) in Hv; [| done | done].
      rewrite (packed_rank _ _ Hp), decide_True by done. simpl.
      assert (S i ≤ used (metadata s))%nat; [| lia]. apply used_prefix; [lia |].
      intros j Hj. rewrite (packed_rank _ _ Hp) by lia. rewrite decide_True by lia. unfold uninit_rank. lia. }
  split; [done |]. pose proof (snapshot_distinct _ _ (wf_snapshot _ _ Hwf)) as Hd.
  assert (∀ k c, (c + k = length l)%nat → rest (metadata s) c = seq c k) as Hrest.
  { pose proof (packed_len _ _ Hp). induction k as [| k IH]; intros c Hc.
    - apply rest_nil. intros i Hi Hv. apply (packed_valid l) in Hv; [| done | done].
      rewrite (packed_rank _ _ Hp), decide_True by done. lia.
    - assert (rk (metadata s) c = Z.of_nat c + 1) as Hrc
        by (rewrite (packed_rank _ _ Hp) by lia; by rewrite decide_True by lia).
      rewrite (rest_cons _ c c); [| done | lia | apply (packed_valid l); [done | lia..] | lia |].
      + rewrite Hrc. cbn [seq]. f_equal. replace (Z.to_nat (Z.of_nat c + 1)) with (S c) by lia. apply IH. lia.
      + intros j Hj Hv. rewrite Hrc. lia. }
  unfold sorted_entries, in_order. rewrite (Hrest (length l) 0%nat eq_refl).
  pose proof (packed_entry _ _ Hp) as He. revert He. generalize (entry s) as f. clear.
  intros f He. apply list_eq. intros i.
  assert (∀ k c, (c + k = length l)%nat → omap f (seq c k) = skipn c l) as Hom.
  { induction k as [| k IH]; intros c Hc; [by rewrite drop_ge by lia |].
    csimpl. rewrite He by lia. destruct (lookup_lt_is_Some_2 l c) as [a Ha]; [lia |].
    rewrite Ha, IH by lia. by rewrite (drop_S l a c). }
  by rewrite (Hom (length l) 0%nat eq_refl).
Qed.

Definition holds (l : list (K * V)) (o : option (leaf K V)) : Prop :=
  match o with Some s => l ≠ [] ∧ packed l s | None => l = [] end.

Lemma insert_into_spec (P : leaf K V → Prop) l o k v :
  holds l o → (length l < N)%nat →
  reads P (insert_into o k v (length l)) (holds (l ++ [(k, v)])).
Proof.
  intros Ho Hlt. assert (packed l (default new o)) as Hp.
  { destruct o as [s |]; simpl in *; [apply Ho |]. subst. apply packed_new. }
  destruct (insert_unchecked_spec _ _ k v Hp Hlt) as (s' & Hrun & Hp').
  unfold insert_into. rewrite Hrun. cbn [reads holds]. split; [by destruct l | done].
Qed.

(** [freeze_and_distribute]: the entries go, in key order, to a low leaf and a high
    leaf, split at [optimal_boundary]. *)
Lemma runs_freeze_and_distribute s :
  wf s [] → frozen (metadata s) = false →
  runs (freeze_and_distribute None None) s (λ '(low, high) s',
    s' = set_metadata (freeze (metadata s)) s ∧
    let b := Z.to_nat (optimal_boundary (metadata s)) in
    holds (firstn b (sorted_entries s)) low ∧ holds (skipn b (sorted_entries s)) high).
Proof.
  intros Hwf Hf. pose proof (wf_snapshot _ _ Hwf) as Hs. unfold freeze_and_distribute.
  apply runs_bind, runs_act. rewrite Hf. cbn [fst snd]. apply runs_ret.
  set (b := Z.to_nat (optimal_boundary (metadata s))).
  set (l := sorted_entries s).
  assert (length l ≤ N)%nat as Hlen.
  { unfold l. rewrite length_sorted_entries by done. apply length_rest. }
  eapply runs_mono; [| eapply (runs_reads (agrees (entry s)));
    [| apply (for_each_rule _ _ _ (λ i '(low, high),
         holds (firstn (min i b) l) low ∧ holds (skipn b (firstn i l)) high)); [done | |]]].
  - intros [low high] s' [[Hlo Hhi] ->]. split; [done |].
    rewrite <-(length_sorted_entries s Hwf) in Hlo, Hhi. fold l in Hlo, Hhi.
    rewrite take_ge in Hhi by lia. split; [| done].
    rewrite <-(firstn_all l), take_take, Nat.min_comm. exact Hlo.
  - intros i a _ Ha. exact Ha.
  - intros i [k v] [low high] Hi [Hlo Hhi]. change (l !! i = Some (k, v)) in Hi.
    pose proof (lookup_lt_Some _ _ _ Hi) as Hil.
    assert (firstn (S i) l = firstn i l ++ [(k, v)]) as Htake by by apply take_S_r.
    destruct (Nat.ltb_spec i b) as [Hib | Hib].
    + rewrite Nat.min_l in Hlo by lia. eapply reads_call.
      { replace i with (length (firstn i l)) at 1 by (rewrite length_take; lia).
        apply insert_into_spec; [exact Hlo | rewrite length_take; lia]. }
      intros low' Hlo'. cbn [reads]. rewrite Nat.min_l, Htake by lia. split; [exact Hlo' |].
      rewrite drop_ge in Hhi |- *; [exact Hhi | rewrite ?length_app, length_take; simpl; lia..].
    + eapply reads_call.
      { replace (i - b)%nat with (length (skipn b (firstn i l))) by (rewrite length_drop, length_take; lia).
        apply insert_into_spec; [exact Hhi | rewrite length_drop, length_take; lia]. }
      intros high' Hhi'. cbn [reads]. rewrite Nat.min_r in Hlo |- * by lia. split; [exact Hlo |].
      rewrite Htake, drop_app_le; [exact Hhi' | rewrite length_take; lia].
  - rewrite Nat.min_0_l, !take_0, drop_nil. done.
Qed.
End Scan.
