(* ===== verification/LeafProps.v ===== *)
(** * The properties of a leaf that no other thread modifies *)
From stdpp Require Import sorting.
From S2P Require Import Prelude Atomic Ord Tag Dimension Leaf LeafInv LeafState LeafSeq LeafScan.

Local Open Scope Z_scope.

(** ** [optimal_boundary] *)

Definition score_step (x : Z * Z) (rank : Z) : Z * Z :=
  if negb (rank =? 0) && negb (rank =? removed)
  then (if x.2 <? rank then x.1 + 1 else x.1 - 1, rank) else x.

Definition score (ranks : list Z) : Z := (foldl score_step (Z.of_nat N, 1) ranks).1.

Lemma optimal_boundary_ranks m : optimal_boundary_score m = score (map (rank DIMENSION m) (seq 0 N)).
Proof.
  unfold optimal_boundary_score, score.
  match goal with |- ?go N m (Z.of_nat N) 1 = _ =>
    assert (∀ n i b p, go n (ushr m (i * B)) b p = (foldl score_step (b, p) (map (rank DIMENSION m) (seq i n))).1) as Hgen
  end.
  { induction n as [| n IH]; intros i b p; [done |]. cbn [seq map foldl]. cbv beta iota zeta.
    rewrite shifted_rank, shifted_step. unfold score_step at 2. cbn [fst snd].
    destruct (_ && _); apply IH. }
  specialize (Hgen N 0%nat (Z.of_nat N) 1). by rewrite shifted_start in Hgen.
Qed.

Lemma score_bounds ranks : Z.of_nat N - Z.of_nat (length ranks) ≤ score ranks ≤ Z.of_nat N + Z.of_nat (length ranks).
Proof.
  unfold score. generalize (Z.of_nat N) as b. generalize 1 as p. induction ranks as [| r l IH]; intros p b; simpl; [lia |].
  change (score_step (b, p) r) with (if negb (r =? 0) && negb (r =? removed) then (if p <? r then b + 1 else b - 1, r) else (b, p)).
  destruct (_ && _).
  - specialize (IH r (if p <? r then b + 1 else b - 1)). destruct (p <? r); lia.
  - specialize (IH p b). lia.
Qed.

(** C26. [optimal_boundary] never underflows, and its result is at least 1 and below the
    number of entries, whatever the metadata: both halves of a full leaf get an
    entry.  A leaf filled in ascending order is split after its last but one entry,
    a leaf filled in descending order after its first one. *)
Theorem optimal_boundary_bounds m :
  0 ≤ optimal_boundary_score m ∧
  1 ≤ optimal_boundary m < Z.of_nat N ∧
  ((∀ j, (j < N)%nat → rk m j = Z.of_nat j + 1) → optimal_boundary m = Z.of_nat N - 1) ∧
  ((∀ j, (j < N)%nat → rk m j = Z.of_nat (N - j)) → optimal_boundary m = 1).
Proof.
  pose proof (score_bounds (map (rank DIMENSION m) (seq 0 N))) as Hs.
  rewrite length_map, length_seq, <-optimal_boundary_ranks in Hs.
  assert (Hval : ∀ f : nat → Z, (∀ j, (j < N)%nat → rk m j = f j) →
    optimal_boundary_score m = score (map f (seq 0 N))).
  { intros f Hf. rewrite optimal_boundary_ranks. f_equal. apply map_ext_in.
    intros j Hj%in_seq. apply Hf. lia. }
  unfold optimal_boundary, clamp. cbv zeta. rewrite N_val in *.
  split_and!; [lia | change (Z.of_nat 14 / 2) with 7; lia | change (Z.of_nat 14 / 2) with 7; lia | |].
  - intros Hf. by rewrite (Hval _ Hf).
  - intros Hf. by rewrite (Hval _ Hf).
Qed.

Lemma boundary_range m :
  (1 ≤ Z.to_nat (optimal_boundary m))%nat ∧ (Z.to_nat (optimal_boundary m) < N)%nat.
Proof.
  unfold optimal_boundary, clamp. cbv zeta. rewrite N_val. change (Z.of_nat 14 / 2) with 7. lia.
Qed.

Section Properties.
Context {K V : Type} `{KeyOrd K}.
Implicit Types (s : leaf K V).

(** ** Dropping a leaf *)

Lemma runs_drop s :
  wf s [] →
  runs drop s (λ _ s', ∀ i, (i < N)%nat → key_of s' i = None ∧ value_of s' i = None).
Proof.
  intros Hwf. unfold drop. apply runs_load. eapply runs_call.
  - apply (runs_for_ranks (metadata s) _
      (λ n _ s', length (keys s') = N ∧ length (values s') = N ∧
        (∀ i, (i < n)%nat → key_of s' i = None ∧ value_of s' i = None) ∧
        (∀ i, (n ≤ i)%nat → key_of s' i = key_of s i ∧ value_of s' i = value_of s i))
      (λ _ _, False)).
    + intros i [] s' Hi (Hk & Hv & Hlo & Hhi).
      destruct (Z.eqb_spec (rk (metadata s) i) uninit_rank) as [Hz | Hz]; cbn [negb].
      * apply runs_ret. split_and!; [done | done | | intros j Hj; apply Hhi; lia].
        intros j Hj. destruct (decide (j = i)) as [-> |]; [| apply Hlo; lia].
        destruct (Hhi i ltac:(lia)) as [-> ->]. by apply (wf_clean _ _ Hwf).
      * destruct (wf_entry _ _ Hwf i Hi Hz) as [[k v] He]; [apply not_elem_of_nil |].
        destruct (Hhi i ltac:(lia)) as [Hki Hvi].
        eapply runs_take; [unfold entry; rewrite Hki, Hvi; exact He |].
        apply runs_ret. cbn [keys values]. rewrite !length_insert. split_and!; [done | done | |].
        -- intros j Hj. unfold key_of, value_of. cbn [keys values]. destruct (decide (j = i)) as [-> |].
           ++ by rewrite !list_lookup_insert_eq by lia.
           ++ rewrite !list_lookup_insert_ne by done. apply Hlo. lia.
        -- intros j Hj. unfold key_of, value_of. cbn [keys values].
           rewrite !list_lookup_insert_ne by lia. apply Hhi. lia.
    + intros i [] s' Hi (Hk & Hv & Hlo & Hhi) Hz.
      split_and!; [done | done | | intros j Hj; apply Hhi; lia].
      intros j Hj. destruct (decide (j = i)) as [-> |]; [| apply Hlo; lia].
      destruct (Hhi i ltac:(lia)) as [-> ->]. by apply (wf_clean _ _ Hwf).
    + split_and!; [apply Hwf | apply Hwf | lia | done].
  - intros [[] | []] s' Hx. apply runs_ret. apply Hx.
Qed.

Lemma wf_new : wf (new : leaf K V) [].
Proof. apply (packed_sorted [] new packed_new). constructor. Qed.

Lemma wf_insert s s' n key val r :
  wf s [] → run (insert (S n) key val) s = Done r s' → wf s' [].
Proof.
  intros Hwf Hrun. pose proof (runs_insert s n key val Hwf) as Hr. unfold runs in Hr.
  rewrite Hrun in Hr. apply Hr.
Qed.

(** C19. Insertion into a leaf, every branch: one iteration of its loops is enough, the
    leaf stays well-formed, and the result tells exactly what happened.  A retired
    or frozen leaf is not touched and gives the pair back; a key that is present is
    reported as a duplicate, and the pair comes back; a new key is added, unless no
    entry is unused, in which case nothing changes. *)
Theorem leaf_insert s n key val :
  wf s [] →
  runs (insert (S n) key val) s (λ r s',
    wf s' [] ∧
    frozen (metadata s') = frozen (metadata s) ∧ retired (metadata s') = retired (metadata s) ∧
    if retired (metadata s) then r = Retired key val ∧ s' = s
    else if frozen (metadata s) then r = Frozen key val ∧ s' = s
    else match r with
         | Success => ¬ key_in key s ∧ (used (metadata s) < N)%nat ∧
                      entries s' ≡ₚ (key, val) :: entries s
         | Duplicate k v => k = key ∧ v = val ∧ key_in key s ∧ entries s' = entries s
         | Full k v => k = key ∧ v = val ∧ ¬ key_in key s ∧ used (metadata s) = N ∧ s' = s
         | _ => False
         end).
Proof. apply runs_insert. Qed.

(** C20. Conditional removal from a leaf, every branch: the entry of the key is removed
    if the condition holds of its value, the leaf retires exactly when its last
    entry goes, and a frozen leaf, an absent key or a false condition change
    nothing. *)
Theorem leaf_remove s n key (condition : V → bool) :
  wf s [] →
  runs (remove_if (S n) key condition) s (λ r s',
    wf s' [] ∧
    match r with
    | RFrozen => frozen (metadata s) = true ∧ s' = s
    | RFail => frozen (metadata s) = false ∧ s' = s ∧
               ∀ v, (key, v) ∈ entries s → condition v = false
    | RSuccess => ∃ v, condition v = true ∧ entries s ≡ₚ (key, v) :: entries s' ∧ entries s' ≠ [] ∧
                  frozen (metadata s') = false ∧ retired (metadata s') = retired (metadata s)
    | RRetired => ∃ v, condition v = true ∧ entries s ≡ₚ [(key, v)] ∧ entries s' = [] ∧
                  frozen (metadata s') = false ∧ retired (metadata s') = true
    | RCleanup => False
    end).
Proof. apply runs_remove_if. Qed.

(** C23. The queries of a leaf return what the reference says and change nothing:
    [search] finds the value of a key exactly when the key is present, [max_entry]
    the entry with the greatest key, [min_greater_equal] the one with the least key
    not below the given one, [max_less] the one with the greatest key below it, and
    [is_empty] whether there is none. *)
Theorem leaf_queries s key :
  wf s [] →
  runs (search key) s (λ r s', s' = s ∧
    match r with Some v => (key, v) ∈ entries s | None => ¬ key_in key s end) ∧
  runs max_entry s (λ r s', s' = s ∧
    match r with
    | Some a => a ∈ entries s ∧ ∀ b, b ∈ entries s → b = a ∨ cmp b.1 a.1 = Lt
    | None => entries s = []
    end) ∧
  runs (min_greater_equal key) s (λ '(r, m) s', s' = s ∧ m = metadata s ∧
    match r with
    | Some a => a ∈ entries s ∧ cmp a.1 key ≠ Lt ∧
                ∀ b, b ∈ entries s → cmp b.1 key ≠ Lt → cmp b.1 a.1 ≠ Lt
    | None => ∀ a, a ∈ entries s → cmp a.1 key = Lt
    end) ∧
  runs (max_less (metadata s) key) s (λ i s', s' = s ∧
    if decide (i = N) then ∀ a, a ∈ entries s → cmp a.1 key ≠ Lt
    else ∃ a, entry s i = Some a ∧ a ∈ entries s ∧ cmp a.1 key = Lt ∧
              ∀ b, b ∈ entries s → cmp b.1 key = Lt → cmp a.1 b.1 ≠ Lt) ∧
  runs is_empty s (λ b s', s' = s ∧ (b = true ↔ entries s = [])).
Proof.
  intros Hwf. split; [by apply runs_search |]. split; [by apply runs_max_entry |].
  split; [by apply runs_min_greater_equal |]. split; [by apply runs_max_less | by apply runs_is_empty].
Qed.

(** C24. Iterating over a leaf with a [Scanner] yields every entry exactly once, in
    strictly increasing key order, and ends: one iteration per entry and one more
    are enough. *)
Theorem leaf_scan s :
  wf s [] →
  runs (let! sc := scanner_new in for_each scan_fuel (λ _ e acc, Ret (acc ++ [e])) sc []) s
    (λ l s', s' = s ∧ StronglySorted before l ∧ l ≡ₚ entries s).
Proof.
  intros Hwf. pose proof (wf_snapshot _ _ Hwf) as Hs. destruct (sorted_entries_spec s Hwf) as [Hss Hp].
  unfold scanner_new. apply runs_bind, runs_load, runs_ret.
  eapply runs_mono; [| eapply (runs_reads (agrees (entry s))); [apply agrees_self |
    apply (for_each_rule _ _ _ (λ i l, l = firstn i (sorted_entries s))); [exact Hs | | done]]].
  - intros l s' [-> ->]. rewrite <-length_sorted_entries, firstn_all by done. done.
  - intros i a l Hi ->. cbn [reads]. symmetry. apply take_S_r, Hi.
Qed.

(** C25. Splitting a leaf by [freeze_and_distribute]: the leaf is frozen and keeps its
    entries; they are copied, in key order, to a low leaf and a high leaf, both
    well-formed, neither frozen nor retired, and every key of the low one is below
    every key of the high one.  A leaf is only created when it gets an entry, and
    both are when the leaf was full. *)
Theorem leaf_split s :
  wf s [] → frozen (metadata s) = false →
  runs (freeze_and_distribute None None) s (λ '(low, high) s',
    s' = set_metadata (freeze (metadata s)) s ∧ wf s' [] ∧ entries s' = entries s ∧
    let part o := match o with Some l => entries l | None => [] end in
    (∀ l, low = Some l ∨ high = Some l →
       wf l [] ∧ entries l ≠ [] ∧ frozen (metadata l) = false ∧ retired (metadata l) = false) ∧
    part low ++ part high ≡ₚ entries s ∧
    (∀ a b, a ∈ part low → b ∈ part high → before a b) ∧
    (length (entries s) = N → is_Some low ∧ is_Some high)).
Proof.
  intros Hwf Hf. destruct (sorted_entries_spec s Hwf) as [Hss Hp].
  eapply runs_mono; [| by apply runs_freeze_and_distribute].
  intros [low high] s' (-> & Hlo & Hhi). cbv zeta in *.
  set (b := Z.to_nat (optimal_boundary (metadata s))) in *.
  set (l := sorted_entries s) in *.
  destruct (wf_special s [] (freeze (metadata s)) Hwf) as [Hwf' He'].
  { apply in_word_freeze, (wf_word _ _ Hwf). }
  { intros i Hi. by apply rank_freeze. }
  split; [done |]. split; [done |]. split; [done |].
  assert (StronglySorted before (firstn b l ++ skipn b l)) as Hboth by by rewrite take_drop.
  apply StronglySorted_app in Hboth as (Hcross & Hsl & Hsh).
  assert (Hpart : ∀ (o : option (leaf K V)) l', holds l' o → StronglySorted before l' →
    (match o with Some l => entries l | None => [] end) ≡ₚ l' ∧
    ∀ x, o = Some x → wf x [] ∧ entries x ≠ [] ∧ frozen (metadata x) = false ∧ retired (metadata x) = false).
  { intros [x |] l' Ho Hsl'; simpl in Ho; [| by subst]. destruct Ho as [Hne Hpk].
    destruct (packed_sorted l' x Hpk Hsl') as [Hwx Hx]. destruct (sorted_entries_spec x Hwx) as [_ Hpx].
    rewrite Hx in Hpx. split; [done |]. intros ? [= <-]. split; [done |]. split; [| apply Hpk].
    intros Hn. rewrite Hn in Hpx. by apply Permutation_nil_r in Hpx. }
  destruct (Hpart _ _ Hlo Hsl) as [Hpl Hl], (Hpart _ _ Hhi Hsh) as [Hph Hh].
  split; [intros x [Hx | Hx]; auto |]. split; [by rewrite Hpl, Hph, take_drop |]. split.
  { intros a c. rewrite Hpl, Hph. apply Hcross. }
  intros Hfull. rewrite <-Hp in Hfull. fold l in Hfull.
  destruct (boundary_range (metadata s)) as [Hb1 Hb2]. fold b in Hb1, Hb2.
  split; [destruct low | destruct high]; try done; simpl in *; exfalso.
  - apply (f_equal length) in Hlo. rewrite length_take in Hlo. simpl in Hlo. lia.
  - apply (f_equal length) in Hhi. rewrite length_drop in Hhi. simpl in Hhi. lia.
Qed.

(** Dropping a leaf moves every initialised entry out exactly once, those that were
    removed included, reads no uninitialised slot, and leaves nothing behind. *)
Theorem leaf_drop s :
  wf s [] →
  runs drop s (λ _ s', ∀ i, (i < N)%nat → key_of s' i = None ∧ value_of s' i = None).
Proof. apply runs_drop. Qed.
End Properties.

(** ** Examples *)

(** Three insertions, out of order. *)
Definition ins (k v : Z) (s : leaf Z Z) : leaf Z Z :=
  match run (insert 1 k v) s with Done _ s' => s' | _ => s end.

Definition example_leaf : leaf Z Z := ins 30 300 (ins 10 100 (ins 20 200 new)).

Lemma wf_ins k v s : wf s [] → wf (ins k v s) [].
Proof.
  intros Hwf. unfold ins. destruct (run (insert 1 k v) s) eqn:Hrun; [| done..].
  by eapply (wf_insert s _ 0).
Qed.

Lemma wf_example : wf example_leaf [].
Proof. do 3 apply wf_ins. apply wf_new. Qed.

Lemma leaf_insert_witness :
  wf example_leaf [] ∧
  run (insert 1 20 7) example_leaf = Done (Duplicate 20 7) example_leaf ∧
  ∃ s', run (insert 1 15 7) example_leaf = Done Success s' ∧ entries s' ≡ₚ (15, 7) :: entries example_leaf.
Proof.
  pose proof (leaf_insert example_leaf 0 15 7 wf_example) as Hr.
  split; [exact wf_example |]. split; [vm_compute; reflexivity |].
  unfold runs in Hr. destruct (run (insert 1 15 7) example_leaf) as [r s' | | |] eqn:Hrun; [| contradiction | discriminate Hr | contradiction].
  assert (r = Success) as -> by (vm_compute in Hrun; congruence).
  exists s'. split; [reflexivity |].
  replace (retired (metadata example_leaf)) with false in Hr by (vm_compute; reflexivity).
  replace (frozen (metadata example_leaf)) with false in Hr by (vm_compute; reflexivity).
  apply Hr.
Defined.

Lemma leaf_remove_witness :
  wf example_leaf [] ∧
  runs (remove_if 1 20 (λ v, v =? 200)) example_leaf (λ r s', r = RSuccess ∧ wf s' []).
Proof.
  pose proof (leaf_remove example_leaf 0 20 (λ v, v =? 200) wf_example) as Hr.
  split; [exact wf_example |]. unfold runs in *.
  destruct (run (remove_if 1 20 (λ v, v =? 200)) example_leaf) as [r s' | | |] eqn:Hrun; [| contradiction | discriminate Hr | contradiction].
  split; [vm_compute in Hrun; congruence | apply Hr].
Defined.

Lemma leaf_queries_witness :
  wf example_leaf [] ∧ run (search 30) example_leaf = Done (Some 300) example_leaf ∧
  (30, 300) ∈ entries example_leaf.
Proof.
  pose proof (proj1 (leaf_queries example_leaf 30 wf_example)) as Hr.
  split; [exact wf_example |]. split; [vm_compute; reflexivity |].
  unfold runs in Hr. replace (run (search 30) example_leaf) with (Done (Some 300) example_leaf) in Hr
    by (vm_compute; reflexivity). apply Hr.
Defined.

Lemma leaf_scan_witness :
  wf example_leaf [] ∧ entries example_leaf = [(20, 200); (10, 100); (30, 300)] ∧
  StronglySorted before [(10, 100); (20, 200); (30, 300)].
Proof.
  pose proof (leaf_scan example_leaf wf_example) as Hr.
  split; [exact wf_example |]. split; [vm_compute; reflexivity |].
  unfold runs in Hr. destruct (run _ example_leaf) as [l s' | | |] eqn:Hrun in Hr; [| contradiction | discriminate Hr | contradiction].
  replace [(10, 100); (20, 200); (30, 300)] with l by (vm_compute in Hrun; congruence). apply Hr.
Defined.

Lemma leaf_split_witness :
  wf example_leaf [] ∧ frozen (metadata example_leaf) = false ∧
  runs (freeze_and_distribute None None) example_leaf (λ '(low, high) _,
    option_map entries low = Some [(10, 100); (20, 200); (30, 300)] ∧ high = None).
Proof.
  assert (frozen (metadata example_leaf) = false) as Hf by (vm_compute; reflexivity).
  split; [exact wf_example |]. split; [exact Hf |].
  pose proof (leaf_split example_leaf wf_example Hf) as Hr. unfold runs in *.
  destruct (run _ example_leaf) as [[low high] s' | | |] eqn:Hrun in Hr |- *; [| contradiction | discriminate Hr | contradiction].
  clear Hr. vm_compute in Hrun. injection Hrun as <- <- _. split; vm_compute; reflexivity.
Defined.

Lemma leaf_drop_witness :
  wf example_leaf [] ∧ runs drop example_leaf (λ _ s', key_of s' 0 = None).
Proof.
  split; [exact wf_example |]. eapply runs_mono; [| exact (leaf_drop example_leaf wf_example)].
  intros r s' Hs. apply (Hs 0%nat). rewrite N_val. lia.
Defined.
