(* ===== verification/LeafConc.v ===== *)
(** * A leaf shared by any number of threads

    The ghost state of a thread is the slot it has reserved, the entries it has
    seen, and the entries it added and removed.  The invariant says that the leaf is
    well-formed, reserved slots being those of the threads, that what a thread has
    seen is still there, that no entry is lost or duplicated, and that a retired
    leaf is empty. *)
From stdpp Require Import sorting.
From S2P Require Import Prelude Atomic Ord Tag Dimension Leaf LeafInv LeafState LeafSeq LeafScan.

Local Open Scope Z_scope.

Section Concurrent.
Context {K V : Type} `{KeyOrd K}.
Implicit Types (s : leaf K V).

Record ghost := Ghost {
  mine : option (nat * (option K * option V));
  known : gmap nat (K * V);
  added : list (K * V);
  taken : list (K * V)
}.

Definition slot_of (l : ghost) : list nat :=
  match mine l with Some (i, _) => [i] | None => [] end.

Definition flight (ls : list ghost) : list nat := concat (slot_of <$> ls).

Definition total (f : ghost → list (K * V)) (ls : list ghost) : list (K * V) := concat (f <$> ls).

Definition knows (l : ghost) (i : nat) : option (K * V) := known l !! i.

Record inv s (ls : list ghost) : Prop := {
  inv_wf : wf s (flight ls);
  inv_mine : ∀ t l i ok ov, ls !! t = Some l → mine l = Some (i, (ok, ov)) →
    key_of s i = ok ∧ value_of s i = ov;
  inv_known : ∀ t l i a, ls !! t = Some l → knows l i = Some a →
    (i < N)%nat ∧ entry s i = Some a ∧ rk (metadata s) i ≠ uninit_rank ∧ i ∉ flight ls;
  inv_vals : total added ls ≡ₚ total taken ls ++ entries s;
  inv_retired : retired (metadata s) = true → entries s = []
}.

Lemma elem_of_flight ls i : i ∈ flight ls ↔ ∃ t l, ls !! t = Some l ∧ i ∈ slot_of l.
Proof. apply elem_of_concat_lookup. Qed.

Lemma flight_insert ls t l l' :
  ls !! t = Some l → flight (<[t := l']> ls) ++ slot_of l ≡ₚ flight ls ++ slot_of l'.
Proof. apply concat_insert_perm. Qed.

(** A step of thread [t] changes the arrays in its own slot only, and reserves an
    unused slot only. *)
Lemma leaf_inv_step s s' ls t l l' :
  inv s ls → ls !! t = Some l →
  wf s' (flight (<[t := l']> ls)) →
  (∀ j, (j < N)%nat → j ∉ slot_of l →
    key_of s' j = key_of s j ∧ value_of s' j = value_of s j ∧
    (rk (metadata s) j ≠ uninit_rank → rk (metadata s') j ≠ uninit_rank)) →
  (∀ j, j ∈ slot_of l' → j ∈ slot_of l ∨ rk (metadata s) j = uninit_rank) →
  (∀ i ok ov, mine l' = Some (i, (ok, ov)) → key_of s' i = ok ∧ value_of s' i = ov) →
  (∀ i a, knows l' i = Some a → knows l i = Some a ∨
     (i < N)%nat ∧ entry s' i = Some a ∧ rk (metadata s') i ≠ uninit_rank ∧
     i ∉ flight (<[t := l']> ls)) →
  added l' ++ taken l ++ entries s ≡ₚ added l ++ taken l' ++ entries s' →
  (retired (metadata s') = true → entries s' = []) →
  inv s' (<[t := l']> ls).
Proof.
  intros HI Hl Hwf Hkeep Hslot Hmine Hknown Hvals Hret.
  pose proof (lookup_lt_Some _ _ _ Hl) as Ht.
  pose proof (inv_wf _ _ HI) as Hwf0.
  assert (Hold : ∀ i, (i < N)%nat → i ∉ flight ls → rk (metadata s) i ≠ uninit_rank →
            entry s' i = entry s i ∧ rk (metadata s') i ≠ uninit_rank ∧ i ∉ flight (<[t := l']> ls)).
  { intros i Hi Hnf Hrk. assert (i ∉ slot_of l) as Hns.
    { intros Hin. apply Hnf, elem_of_flight. eauto. }
    destruct (Hkeep i Hi Hns) as (Hk & Hv & Hr). split_and!; [unfold entry; by rewrite Hk, Hv | auto |].
    intros (t' & l0 & Hl0 & Hin)%elem_of_flight. apply list_lookup_insert_Some in Hl0 as [(-> & <- & _) | [Hne Hl0]].
    - by destruct (Hslot i Hin).
    - apply Hnf, elem_of_flight. eauto. }
  constructor; [done | | | | done].
  - intros t' l0 i ok ov Hl0 Hm. apply list_lookup_insert_Some in Hl0 as [(-> & <- & _) | [Hne Hl0]]; [eauto |].
    assert (i ∈ slot_of l0) as Hin by (unfold slot_of; rewrite Hm; left).
    assert (i ∉ slot_of l) as Hns.
    { eapply (concat_disjoint slot_of ls t' t); eauto. apply (wf_nodup _ _ Hwf0). }
    destruct (wf_flight _ _ Hwf0 i) as [Hi _]; [apply elem_of_flight; eauto |].
    destruct (Hkeep i Hi Hns) as (-> & -> & _). by eapply (inv_mine _ _ HI).
  - assert (Hkn : ∀ t0 l0 i a, ls !! t0 = Some l0 → knows l0 i = Some a →
      (i < N)%nat ∧ entry s' i = Some a ∧ rk (metadata s') i ≠ uninit_rank ∧ i ∉ flight (<[t := l']> ls)).
    { intros t0 l0 i a Hl0 Ha. destruct (inv_known _ _ HI _ _ _ _ Hl0 Ha) as (Hi & He & Hr & Hnf).
      destruct (Hold i Hi Hnf Hr) as (-> & ? & ?). done. }
    intros t' l0 i a Hl0 Ha. apply list_lookup_insert_Some in Hl0 as [(-> & <- & _) | [Hne Hl0]]; [| eauto].
    destruct (Hknown i a Ha); eauto.
  - unfold total. eapply (vals_step (total added ls) _ (total taken ls)).
    + by apply (concat_insert_perm added).
    + by apply (concat_insert_perm taken).
    + apply (inv_vals _ _ HI).
    + done.
Qed.

(** What a thread knows can be read. *)
Lemma inv_agrees s ls t l : inv s ls → ls !! t = Some l → agrees (knows l) s.
Proof. intros HI Hl i a Hi Ha. by apply (inv_known _ _ HI t l i a). Qed.

(** A load of the metadata: the thread gets to know the entries it ranks. *)
Definition knowledge s : gmap nat (K * V) := map_of (live_at s) N.

Definition learn s (l : ghost) : ghost := Ghost (mine l) (knowledge s) (added l) (taken l).

Lemma inv_learn s ls t l :
  inv s ls → ls !! t = Some l →
  inv s (<[t := learn s l]> ls) ∧ snapshot (knows (learn s l)) (metadata s) ∧
  in_word usize_bits (metadata s).
Proof.
  intros HI Hl. pose proof (inv_wf _ _ HI) as Hwf. pose proof (wf_snapshot _ _ Hwf) as Hs.
  assert (Hfl : flight (<[t := learn s l]> ls) ≡ₚ flight ls).
  { pose proof (flight_insert ls t l (learn s l) Hl) as Hp. by apply Permutation_app_inv_r in Hp. }
  assert (Hkn : ∀ i, (i < N)%nat → knows (learn s l) i = live_at s i).
  { intros i Hi. apply lookup_map_of_lt. done. }
  split_and!; [| | apply Hwf].
  - apply (leaf_inv_step s s ls t l (learn s l)); try done; [by eapply wf_perm | by left | | | by apply HI].
    + intros i ok ov Hm. by eapply (inv_mine _ _ HI t l).
    + intros i a Ha. right. destruct (decide (i < N)%nat) as [Hi |].
      * rewrite Hkn in Ha by done. unfold live_at in Ha. case_decide as Hv; [| done].
        rewrite Hfl. split_and!; [done | done | | by eapply valid_not_flight].
        destruct Hv. lia.
      * unfold knows, learn, knowledge in Ha. simpl in Ha. rewrite lookup_map_of_ge in Ha by lia. done.
  - assert (Hr : ∀ i a, ranked (knows (learn s l)) (metadata s) i a → ranked (entry s) (metadata s) i a).
    { intros i a (Hi & Hv & Ha). rewrite Hkn in Ha by done. unfold live_at in Ha.
      rewrite decide_True in Ha by done. done. }
    constructor.
    + intros i Hi Hv. rewrite Hkn by done. unfold live_at. rewrite decide_True by done.
      by apply (snap_some _ _ Hs).
    + intros i j a b Ha%Hr Hb%Hr. by apply (snap_order _ _ Hs).
Qed.

(** ** Rules *)

Lemma wp_load_learn {R} t (k : Z → prog (leaf K V) R) l Q :
  (∀ m kn, snapshot (λ i, kn !! i) m → in_word usize_bits m →
     wp inv t (k m) (Ghost (mine l) kn (added l) (taken l)) Q) →
  wp inv t (bind (load metadata) k) l Q.
Proof.
  intros Hk s ls Hl HI. destruct (inv_learn s ls t l HI Hl) as (HI' & Hs & Hw).
  exists (learn s l). split; [exact HI' |]. apply Hk; [exact Hs | exact Hw].
Qed.

(** A compare-and-exchange: on failure the thread gets to know the actual entries. *)
Lemma wp_cas_learn {R} t cur new (k : Z + Z → prog (leaf K V) R) l Q :
  (∀ s ls, ls !! t = Some l → inv s ls → metadata s = cur →
     ∃ l', inv (set_metadata new s) (<[t := l']> ls) ∧ wp inv t (k (inl cur)) l' Q) →
  (∀ m kn, snapshot (λ i, kn !! i) m → in_word usize_bits m →
     wp inv t (k (inr m)) (Ghost (mine l) kn (added l) (taken l)) Q) →
  wp inv t (bind (compare_exchange metadata set_metadata cur new) k) l Q.
Proof.
  intros Hok Hko. apply wp_act. intros s ls Hl HI. destruct (decide (metadata s = cur)) as [Heq |].
  - apply (Hok s ls Hl HI Heq).
  - destruct (inv_learn s ls t l HI Hl) as (HI' & Hs & Hw).
    exists (learn s l). split; [exact HI' |]. apply Hko; [exact Hs | exact Hw].
Qed.

(** A program that reads what the thread knows. *)
Lemma wp_reads {R} t (p : prog (leaf K V) R) l Q :
  reads (agrees (knows l)) p (λ r, Q r l) → wp inv t p l Q.
Proof. apply reads_wp. intros s ls Hl HI. by eapply inv_agrees. Qed.

Lemma wp_reads_call {R1 R2} t (p : prog (leaf K V) R1) (k : R1 → prog (leaf K V) R2) l Q' Q :
  reads (agrees (knows l)) p Q' → (∀ r, Q' r → wp inv t (k r) l Q) →
  wp inv t (bind p k) l Q.
Proof.
  intros Hp Hk. eapply (wp_call _ _ _ _ _ (λ r l', l' = l ∧ Q' r)).
  - apply wp_reads. eapply reads_mono; [| exact Hp]. done.
  - intros r l' [-> Hr]. auto.
Qed.

(** ** The atomic steps *)

Lemma flight_head ls t l i c :
  ls !! t = Some l → mine l = Some (i, c) → ∃ fl, flight ls ≡ₚ i :: fl ∧
  ∀ l', slot_of l' = [] → flight (<[t := l']> ls) ≡ₚ fl.
Proof.
  intros Hl Hm. set (idle := Ghost None ∅ [] []).
  exists (flight (<[t := idle]> ls)). split.
  - pose proof (flight_insert ls t l idle Hl) as Hp. unfold slot_of in Hp. rewrite Hm in Hp.
    simpl in Hp. rewrite app_nil_r in Hp. by rewrite <-Hp, (Permutation_app_comm _ [i]).
  - intros l' Hl'. pose proof (flight_insert ls t l l' Hl) as Hp1.
    pose proof (flight_insert ls t l idle Hl) as Hp2. rewrite Hl' in Hp1. simpl in Hp2.
    rewrite app_nil_r in *. rewrite <-Hp2 in Hp1. by apply Permutation_app_inv_r in Hp1.
Qed.

(** Freezing and thawing. *)
Lemma step_special s ls t l m' :
  inv s ls → ls !! t = Some l → in_word usize_bits m' →
  (∀ i, (i < N)%nat → rk m' i = rk (metadata s) i) → retired m' = retired (metadata s) →
  inv (set_metadata m' s) (<[t := l]> ls).
Proof.
  intros HI Hl Hw Hr Hret. destruct (wf_special s _ m' (inv_wf _ _ HI) Hw Hr) as [Hwf He].
  apply (leaf_inv_step s _ ls t l l HI Hl).
  - by rewrite list_insert_id.
  - intros j Hj _. split_and!; [done | done |]. simpl. by rewrite Hr.
  - by left.
  - intros i ok ov Hm. by apply (inv_mine _ _ HI t l).
  - by left.
  - by rewrite He.
  - simpl. rewrite He, Hret. apply (inv_retired _ _ HI).
Qed.

Lemma leaf_step_reserve s ls t kn ad tk i :
  inv s ls → ls !! t = Some (Ghost None kn ad tk) → (i < N)%nat →
  rk (metadata s) i = uninit_rank →
  inv (set_metadata (augment DIMENSION (metadata s) i removed) s)
      (<[t := Ghost (Some (i, (None, None))) kn ad tk]> ls).
Proof.
  intros HI Hl Hi Hz. pose proof (inv_wf _ _ HI) as Hwf.
  destruct (wf_reserve s _ i Hwf Hi Hz) as [Hwf' He].
  set (l' := Ghost (Some (i, (None, None))) kn ad tk).
  assert (flight (<[t := l']> ls) ≡ₚ i :: flight ls) as Hfl.
  { pose proof (flight_insert ls t _ l' Hl) as Hp. simpl in Hp. rewrite app_nil_r in Hp.
    rewrite Hp. symmetry. apply Permutation_cons_append. }
  eapply (leaf_inv_step s _ ls t _ l' HI Hl).
  - by eapply wf_perm; [symmetry |].
  - intros j Hj _. split_and!; [done | done |]. simpl. rewrite rank_augment by auto with word.
    case_decide; [| done]. intros _. rewrite removed_val. unfold uninit_rank. lia.
  - intros j [-> | Hj]%elem_of_cons; [by right | by apply not_elem_of_nil in Hj].
  - intros j ok ov [= <- <- <-]. by apply (wf_clean _ _ Hwf).
  - by left.
  - rewrite He. done.
  - simpl. rewrite retired_augment by auto with word. rewrite He. apply (inv_retired _ _ HI).
Qed.

(** Writes to the reserved slot. *)
Lemma step_fill s ls t i ok ov kn ad tk ok' ov' ks vs :
  inv s ls → ls !! t = Some (Ghost (Some (i, (ok, ov))) kn ad tk) →
  length ks = N → length vs = N →
  (∀ j, j ≠ i → ks !! j = keys s !! j ∧ vs !! j = values s !! j) →
  mjoin (ks !! i) = ok' → mjoin (vs !! i) = ov' →
  inv (Leaf (metadata s) ks vs) (<[t := Ghost (Some (i, (ok', ov'))) kn ad tk]> ls).
Proof.
  intros HI Hl Hks Hvs Hsame Hok Hov. pose proof (inv_wf _ _ HI) as Hwf.
  assert (i ∈ flight ls) as Hi by (apply elem_of_flight; eexists t, _; split; [done | left]).
  destruct (wf_fill s _ i ks vs Hwf Hi Hks Hvs Hsame) as [Hwf' He].
  set (l' := Ghost (Some (i, (ok', ov'))) kn ad tk).
  assert (flight (<[t := l']> ls) ≡ₚ flight ls) as Hfl.
  { pose proof (flight_insert ls t _ l' Hl) as Hp. by apply Permutation_app_inv_r in Hp. }
  eapply (leaf_inv_step s _ ls t _ l' HI Hl).
  - by eapply wf_perm; [symmetry |].
  - intros j Hj Hns. assert (j ≠ i) as Hne by (intros ->; apply Hns; left).
    destruct (Hsame j Hne) as [H1 H2]. unfold key_of, value_of. simpl.
    rewrite H1, H2. split; [reflexivity |]. split; [reflexivity |]. intros Hx. exact Hx.
  - by left.
  - intros j ok0 ov0 [= <- <- <-]. split; assumption.
  - by left.
  - by rewrite He.
  - simpl. rewrite He. apply (inv_retired _ _ HI).
Qed.

(** The reserved slot is given back. *)
Lemma leaf_step_release s ls t i kn ad tk :
  inv s ls → ls !! t = Some (Ghost (Some (i, (None, None))) kn ad tk) →
  inv (set_metadata (augment DIMENSION (metadata s) i uninit_rank) s)
      (<[t := Ghost None kn ad tk]> ls).
Proof.
  intros HI Hl. pose proof (inv_wf _ _ HI) as Hwf.
  destruct (flight_head ls t _ i _ Hl eq_refl) as (fl & Hfl & Hfl').
  destruct (inv_mine _ _ HI t _ i None None Hl eq_refl) as [Hk Hv].
  apply (wf_perm _ _ _ Hfl) in Hwf. pose proof (wf_flight _ _ Hwf i ltac:(left)) as [Hi _].
  destruct (wf_release s fl i Hwf Hk Hv) as [Hwf' He].
  eapply (leaf_inv_step s _ ls t _ (Ghost None kn ad tk) HI Hl); simpl.
  - eapply wf_perm; [| exact Hwf']. symmetry. by apply Hfl'.
  - intros j Hj Hns. assert (j ≠ i) as Hne by (intros ->; apply Hns; left).
    split_and!; [done | done |]. by rewrite rank_augment_ne by auto with word.
  - intros j Hj. by apply not_elem_of_nil in Hj.
  - done.
  - by left.
  - by rewrite He.
  - rewrite retired_augment by auto with word. rewrite He. apply (inv_retired _ _ HI).
Qed.

(** The insertion is committed. *)
Lemma step_commit s ls t i key val kn ad tk m mn mx new :
  inv s ls → ls !! t = Some (Ghost (Some (i, (Some key, Some val))) kn ad tk) →
  metadata s = m → snapshot (λ i, kn !! i) m → retired m = false →
  located (λ i, kn !! i) m key N mn mx → absent (λ i, kn !! i) m key N →
  shifted (λ i, kn !! i) m key N new →
  inv (set_metadata (augment DIMENSION new i (mx + 1)) s)
      (<[t := Ghost None kn (ad ++ [(key, val)]) tk]> ls).
Proof.
  intros HI Hl <- Hs Hret Hloc Hab Hsh. pose proof (inv_wf _ _ HI) as Hwf.
  destruct (flight_head ls t _ i _ Hl eq_refl) as (fl & Hfl & Hfl').
  destruct (inv_mine _ _ HI t _ i _ _ Hl eq_refl) as [Hk Hv].
  apply (wf_perm _ _ _ Hfl) in Hwf. pose proof (wf_flight _ _ Hwf i ltac:(left)) as [Hi _].
  assert (in_word B (mx + 1)) as Hwx by (apply in_word_rank_succ; apply (located_range _ _ _ _ _ _ Hloc)).
  destruct (scan_commit s fl (λ i, kn !! i) i mn mx key val new) as [Hwf' He]; try done.
  { by apply entry_split. }
  { apply (inv_agrees _ _ _ _ HI Hl). }
  destruct Hsh as (_ & _ & Hretn & Hrk).
  eapply (leaf_inv_step s _ ls t _ (Ghost None kn (ad ++ [(key, val)]) tk) HI Hl); simpl.
  - eapply wf_perm; [| exact Hwf']. symmetry. by apply Hfl'.
  - intros j Hj Hns. assert (j ≠ i) as Hne by (intros ->; apply Hns; left).
    split_and!; [done | done |]. rewrite rank_augment_ne by auto. intros Hnz Hz.
    destruct (Hrk j Hj) as [Hgt Hsame]. destruct (decide (valid (metadata s) j)) as [Hvj | Hvj].
    + destruct (snap_some _ _ Hs j Hj Hvj) as [a Ha]. assert (ranked (λ i, kn !! i) (metadata s) j a) as Hra by done.
      destruct (cmp a.1 key) eqn:Hc; [by apply (Hab j a Hj Hra) | |].
      * rewrite Hsame in Hz; [done |]. right. right. eauto.
      * rewrite (Hgt Hj a Hra Hc) in Hz. destruct Hvj. unfold uninit_rank in *. lia.
    + rewrite Hsame in Hz; [done | tauto].
  - intros j Hj. by apply not_elem_of_nil in Hj.
  - done.
  - by left.
  - rewrite He. rewrite <-!app_assoc. apply Permutation_app_head.
    exact (Permutation_middle tk (entries s) (key, val)).
  - rewrite retired_augment, Hretn, Hret by auto. done.
Qed.

(** An entry is removed, and the leaf retires if it was the last one. *)
Lemma step_remove s ls t kn ad tk i a :
  inv s ls → ls !! t = Some (Ghost None kn ad tk) → kn !! i = Some a →
  rk (metadata s) i ≠ removed →
  let m' := Z.lor (metadata s) (rank_mask DIMENSION i) in
  inv (set_metadata (if others_empty i (metadata s) then retire m' else m') s)
      (<[t := Ghost None kn ad (tk ++ [a])]> ls).
Proof.
  intros HI Hl Ha Hnr m'. pose proof (inv_wf _ _ HI) as Hwf.
  destruct (inv_known _ _ HI t _ i a Hl Ha) as (Hi & Hea & Hnz & _).
  assert (valid (metadata s) i) as Hv.
  { pose proof (rank_le_removed (metadata s) i). unfold valid, uninit_rank in *. lia. }
  assert (ranked (entry s) (metadata s) i a) as Hra by done.
  set (l' := Ghost None kn ad (tk ++ [a])).
  assert (flight (<[t := l']> ls) ≡ₚ flight ls) as Hfl.
  { pose proof (flight_insert ls t _ l' Hl) as Hp. by apply Permutation_app_inv_r in Hp. }
  unfold m'. rewrite (lor_mask_augment _ _ Hi (wf_word _ _ Hwf)). clear m'.
  destruct (wf_remove s _ i a Hwf Hra) as [Hwf' Hp].
  set (m1 := augment DIMENSION (metadata s) i removed) in *.
  destruct (wf_special (set_metadata m1 s) _ (retire m1) Hwf') as [Hwf'' He''].
  { apply in_word_retire, (wf_word _ _ Hwf'). }
  { intros j Hj. by apply rank_retire. }
  set (m2 := if others_empty i (metadata s) then retire m1 else m1).
  assert (wf (set_metadata m2 s) (flight ls) ∧ entries (set_metadata m2 s) = entries (set_metadata m1 s)
          ∧ ∀ j, (j < N)%nat → rk m2 j = rk m1 j) as (Hwf2 & He2 & Hr2).
  { unfold m2. destruct (others_empty i (metadata s)); [| done]. split_and!; [exact Hwf'' | exact He'' |].
    intros j Hj. by apply rank_retire. }
  eapply (leaf_inv_step s _ ls t _ l' HI Hl); simpl.
  - eapply wf_perm; [| exact Hwf2]. by symmetry.
  - intros j Hj _. split_and!; [done | done |]. rewrite Hr2 by done. unfold m1.
    rewrite rank_augment by auto with word. case_decide; [| done]. intros _. rewrite removed_val.
    unfold uninit_rank. lia.
  - by left.
  - done.
  - by left.
  - rewrite He2, Hp, <-app_assoc. done.
  - intros Hret. rewrite He2. apply entries_nil. intros j b (Hj & Hvj & Hb). simpl in Hvj.
    assert (j ≠ i) as Hne.
    { intros ->. destruct Hvj as [_ Hx]. unfold m1 in Hx. rewrite rank_augment_eq in Hx by auto with word. lia. }
    assert (valid (metadata s) j) as Hvj'.
    { unfold valid, m1 in Hvj. by rewrite rank_augment_ne in Hvj by auto with word. }
    unfold m2 in Hret. destruct (others_empty i (metadata s)) eqn:Ho.
    + rewrite others_empty_spec in Ho. by apply Hne, Ho.
    + unfold m1 in Hret. rewrite retired_augment in Hret by auto with word.
      pose proof (inv_retired _ _ HI Hret) as Hn. rewrite entries_nil in Hn. by apply (Hn i a).
Qed.

(** ** The operations *)

(** A thread between two operations. *)
Definition idle (l : ghost) (ad tk : list (K * V)) : Prop :=
  mine l = None ∧ added l = ad ∧ taken l = tk.

Lemma idle_eq l ad tk : idle l ad tk → l = Ghost None (known l) ad tk.
Proof. destruct l. intros (? & ? & ?). simpl in *. by subst. Qed.

(** [i] is a slot of both arrays. *)
Lemma slot_lengths s ls t l i c :
  inv s ls → ls !! t = Some l → mine l = Some (i, c) →
  (i < length (keys s))%nat ∧ (i < length (values s))%nat.
Proof.
  intros HI Hl Hm. pose proof (inv_wf _ _ HI) as Hwf.
  rewrite (wf_keys _ _ Hwf), (wf_values _ _ Hwf). destruct (wf_flight _ _ Hwf i); [| done].
  apply elem_of_flight. exists t, l. split; [done |]. unfold slot_of. rewrite Hm. left.
Qed.

Lemma write_spec {R} t i key val kn ad tk (k : unit → prog (leaf K V) R) Q :
  wp inv t (k ()) (Ghost (Some (i, (Some key, Some val))) kn ad tk) Q →
  wp inv t (bind (write i key val) k) (Ghost (Some (i, (None, None))) kn ad tk) Q.
Proof.
  intros Hk. unfold write. apply wp_act. intros s ls Hl HI.
  destruct (slot_lengths _ _ _ _ i _ HI Hl eq_refl) as [Hks Hvs].
  exists (Ghost (Some (i, (Some key, None))) kn ad tk). split.
  { destruct (inv_mine _ _ HI t _ i None None Hl eq_refl) as [_ Hv].
    eapply step_fill; [exact HI | exact Hl | rewrite length_insert; apply (inv_wf _ _ HI) |
      apply (inv_wf _ _ HI) | | by rewrite list_lookup_insert_eq | exact Hv].
    intros j Hne. by rewrite list_lookup_insert_ne. }
  clear s ls Hl HI Hks Hvs. apply wp_act. intros s ls Hl HI.
  destruct (slot_lengths _ _ _ _ i _ HI Hl eq_refl) as [Hks Hvs].
  exists (Ghost (Some (i, (Some key, Some val))) kn ad tk). split; [| exact Hk].
  destruct (inv_mine _ _ HI t _ i _ _ Hl eq_refl) as [Hkk _].
  eapply step_fill; [exact HI | exact Hl | apply (inv_wf _ _ HI) | rewrite length_insert;
    apply (inv_wf _ _ HI) | | exact Hkk | by rewrite list_lookup_insert_eq].
  intros j Hne. by rewrite list_lookup_insert_ne.
Qed.

Lemma take_spec {R} t i key val kn ad tk (k : K * V → prog (leaf K V) R) Q :
  wp inv t (k (key, val)) (Ghost (Some (i, (None, None))) kn ad tk) Q →
  wp inv t (bind (take i) k) (Ghost (Some (i, (Some key, Some val))) kn ad tk) Q.
Proof.
  intros Hk. unfold take. apply wp_act. intros s ls Hl HI.
  destruct (slot_lengths _ _ _ _ i _ HI Hl eq_refl) as [Hks Hvs].
  destruct (inv_mine _ _ HI t _ i _ _ Hl eq_refl) as [Hkk Hv]. cbn [fst snd]. rewrite Hkk.
  exists (Ghost (Some (i, (None, Some val))) kn ad tk). split.
  { eapply step_fill; [exact HI | exact Hl | rewrite length_insert; apply (inv_wf _ _ HI) |
      apply (inv_wf _ _ HI) | | by rewrite list_lookup_insert_eq | exact Hv].
    intros j Hne. by rewrite list_lookup_insert_ne. }
  clear s ls Hl HI Hks Hvs Hkk Hv. apply wp_act. intros s ls Hl HI.
  destruct (slot_lengths _ _ _ _ i _ HI Hl eq_refl) as [Hks Hvs].
  destruct (inv_mine _ _ HI t _ i _ _ Hl eq_refl) as [Hkk Hv]. cbn [fst snd]. rewrite Hv.
  exists (Ghost (Some (i, (None, None))) kn ad tk). split; [| exact Hk].
  eapply step_fill; [exact HI | exact Hl | apply (inv_wf _ _ HI) | rewrite length_insert;
    apply (inv_wf _ _ HI) | | exact Hkk | by rewrite list_lookup_insert_eq].
  intros j Hne. by rewrite list_lookup_insert_ne.
Qed.

(** The pair that a failed insertion gives back is the one it was given. *)
Definition gives_back (r : InsertResult K V) (key : K) (val : V) : Prop :=
  match r with
  | Success => True
  | Duplicate k v | Full k v | Frozen k v | Retired k v => k = key ∧ v = val
  | Retry _ _ => False
  end.

Definition insert_added (r : InsertResult K V) (key : K) (val : V) : list (K * V) :=
  match r with Success => [(key, val)] | _ => [] end.

Definition insert_post key val ad tk (r : InsertResult K V) (l : ghost) : Prop :=
  gives_back r key val ∧ idle l (ad ++ insert_added r key val) tk.

Lemma rollback_spec t i key val kn ad tk :
  wp inv t (rollback i) (Ghost (Some (i, (Some key, Some val))) kn ad tk)
    (insert_post key val ad tk).
Proof.
  unfold rollback. apply take_spec. apply wp_act. intros s ls Hl HI. cbn [fst snd].
  exists (Ghost None kn ad tk). split.
  - assert (i < N)%nat as Hi.
    { destruct (wf_flight _ _ (inv_wf _ _ HI) i); [| done].
      apply elem_of_flight. eexists t, _. split; [done | left]. }
    rewrite (land_mask_augment _ _ Hi (wf_word _ _ (inv_wf _ _ HI))). by apply leaf_step_release.
  - cbn [wp bind]. unfold insert_post, idle. simpl.
    destruct (retired _); [simpl; rewrite app_nil_r; tauto |].
    destruct (frozen _); simpl; rewrite app_nil_r; tauto.
Qed.

(** What [post_insert] assumes of the metadata it tries to replace. *)
Definition insertable (l : ghost) (m : Z) : Prop :=
  snapshot (knows l) m ∧ in_word usize_bits m ∧ frozen m = false ∧ retired m = false.

Lemma post_insert_spec t n i m key val kn ad tk :
  insertable (Ghost None kn [] []) m →
  wp inv t (post_insert n i m) (Ghost (Some (i, (Some key, Some val))) kn ad tk)
    (insert_post key val ad tk).
Proof.
  intros Hm. unfold post_insert, key_at. apply wp_act. intros s ls Hl HI.
  destruct (inv_mine _ _ HI t _ i _ _ Hl eq_refl) as [Hk _]. cbn [fst snd]. rewrite Hk.
  eexists. split; [rewrite list_insert_id by exact Hl; exact HI |]. clear s ls Hl HI Hk. cbn [bind].
  eapply wp_loop with (J := λ m l, ∃ kn, l = Ghost (Some (i, (Some key, Some val))) kn ad tk ∧
                                   insertable (Ghost None kn [] []) m); [eauto |].
  clear m kn Hm. intros m l (kn & -> & Hs & Hw & Hf & Hr).
  eapply wp_reads_call; [by apply post_insert_scan_spec |].
  intros [[[mn mx] new] | []] Hx.
  - destruct Hx as (Hloc & Hab & Hsh). apply wp_cas_learn.
    + intros s ls Hl HI Heq. exists (Ghost None kn (ad ++ [(key, val)]) tk). split; [by eapply step_commit |].
      cbn [wp]. unfold insert_post, idle. simpl. tauto.
    + intros m' kn' Hs' Hw'. cbn [mine added taken].
      destruct (frozen m' || retired m') eqn:Hfr.
      * eapply wp_call; [apply rollback_spec |]. intros r l' Hr'. exact Hr'.
      * apply orb_false_iff in Hfr as [Hf' Hr']. cbn [wp]. exists kn'. split; [done |].
        split_and!; assumption.
  - eapply wp_call; [apply rollback_spec |]. intros r l' Hr'. exact Hr'.
Qed.

Lemma snapshot_reserve (e : nat → option (K * V)) m i :
  (i < N)%nat → snapshot e m → snapshot e (augment DIMENSION m i removed).
Proof.
  intros Hi Hs. set (m' := augment DIMENSION m i removed).
  assert (Hrk : ∀ j, (j < N)%nat → valid m' j → valid m j ∧ rk m' j = rk m j).
  { intros j Hj Hv. assert (rk m' j = rk m j) as Heq; [| split; [unfold valid; by rewrite <-Heq | done]].
    destruct Hv as [_ Hv]. unfold m' in *. rewrite rank_augment in Hv |- * by auto with word.
    case_decide; [lia | done]. }
  constructor.
  - intros j Hj Hv. apply (snap_some _ _ Hs j Hj), Hrk; assumption.
  - intros j1 j2 a b (Hj1 & Hv1 & Ha) (Hj2 & Hv2 & Hb) Hne.
    destruct (Hrk j1 Hj1 Hv1) as [? ->], (Hrk j2 Hj2 Hv2) as [? ->]. by apply (snap_order _ _ Hs).
Qed.

Lemma insert_spec t n key val ad tk l :
  idle l ad tk → wp inv t (insert n key val) l (insert_post key val ad tk).
Proof.
  intros ->%idle_eq. unfold insert. apply wp_load_learn. intros m kn Hs Hw. cbn [mine added taken].
  eapply wp_loop with (J := λ m l, ∃ kn, l = Ghost None kn ad tk ∧
    snapshot (λ i, kn !! i) m ∧ in_word usize_bits m); [eauto |].
  clear m kn Hs Hw. intros m l' (kn & -> & Hs & Hw).
  assert (Hback : ∀ r, gives_back r key val → insert_added r key val = [] →
            insert_post key val ad tk r (Ghost None kn ad tk)).
  { intros r Hg Hn. unfold insert_post, idle. rewrite Hn, app_nil_r. done. }
  destruct (retired m) eqn:Hr; [by apply Hback |].
  destruct (frozen m) eqn:Hf; [by apply Hback |].
  pose proof (uninit_slot_spec m) as Hu. destruct (uninit_slot N 0 m) as [i |].
  - destruct Hu as [Hi Hz]. apply wp_cas_learn; [| intros m' kn' Hs' Hw'; cbn [wp]; eauto].
    intros s ls Hl HI Heq. exists (Ghost (Some (i, (None, None))) kn ad tk). split.
    { rewrite <-Heq. apply leaf_step_reserve; [done | done | done | by rewrite Heq]. }
    apply write_spec. eapply wp_call; [apply post_insert_spec |]; [| intros r l' Hr'; exact Hr'].
    split_and!; [by apply snapshot_reserve | by auto with word
                | by rewrite frozen_augment by auto with word
                | by rewrite retired_augment by auto with word].
  - eapply wp_reads_call; [by apply (search_slot_spec (λ i, kn !! i))|].
    intros [i |] _; by apply Hback.
Qed.

Definition remove_taken (r : RemoveResult) (tk : list (K * V)) (key : K) (condition : V → bool)
    (tk' : list (K * V)) : Prop :=
  match r with
  | RSuccess | RRetired => ∃ v, condition v = true ∧ tk' = tk ++ [(key, v)]
  | RFail | RFrozen => tk' = tk
  | RCleanup => False
  end.

Definition remove_post key condition ad tk (r : RemoveResult) (l : ghost) : Prop :=
  ∃ tk', idle l ad tk' ∧ remove_taken r tk key condition tk'.

Lemma reads_known (l : ghost) i a :
  (i < N)%nat → knows l i = Some a →
  reads (agrees (knows l)) (value_at (K := K) i) (λ v, v = a.2).
Proof.
  intros Hi Ha s Hs. destruct a as [k v]. apply (Hs i) in Ha; [| done].
  apply entry_split in Ha as [_ Hv]. simpl. by rewrite Hv.
Qed.

Lemma remove_found_spec t n condition i m a kn ad tk :
  (i < N)%nat → kn !! i = Some a → rk m i ≠ removed →
  wp inv t (remove_found n condition i m) (Ghost None kn ad tk) (remove_post a.1 condition ad tk).
Proof.
  intros Hi Ha Hnr. unfold remove_found.
  eapply wp_loop with (J := λ m l, l = Ghost None kn ad tk ∧ rk m i ≠ removed); [done |].
  clear m Hnr. intros m l (-> & Hnr).
  eapply wp_reads_call; [by apply (reads_known _ i a) |]. intros v ->.
  destruct (condition a.2) eqn:Hc; cbn [negb].
  - cbv zeta. apply wp_act. intros s ls Hl HI. destruct (decide (metadata s = m)) as [Heq |].
    + exists (Ghost None kn ad (tk ++ [a])). split.
      { cbn [snd]. rewrite <-Heq. apply step_remove; [done | done | done | by rewrite Heq]. }
      cbn [fst bind wp]. exists (tk ++ [a]). split; [done |].
      destruct (others_empty i m); (exists a.2; split; [done | by destruct a]).
    + exists (Ghost None kn ad tk). split; [cbn [snd]; by rewrite list_insert_id |].
      cbn [fst bind]. destruct (Z.eqb_spec (rank DIMENSION (metadata s) i) removed) as [Heq | Hne].
      * cbn [wp]. by exists tk.
      * destruct (frozen (metadata s)); cbn [wp]; [by exists tk | done].
  - cbn [wp]. by exists tk.
Qed.

Lemma remove_if_spec t n key condition ad tk l :
  idle l ad tk → wp inv t (remove_if n key condition) l (remove_post key condition ad tk).
Proof.
  intros ->%idle_eq. unfold remove_if. apply wp_load_learn. intros m kn Hs Hw. cbn [mine added taken].
  assert (Hnone : ∀ r, r = RFail ∨ r = RFrozen → remove_post key condition ad tk r (Ghost None kn ad tk)).
  { intros r Hr. exists tk. by destruct Hr as [-> | ->]. }
  destruct (frozen m); [apply Hnone; by right |].
  eapply wp_call.
  - apply (wp_for_ranks inv t m _ (λ i '(mn, mx) l, l = Ghost None kn ad tk ∧
      located (λ i, kn !! i) m key i mn mx) (remove_post key condition ad tk)).
    + intros i [mn mx] l' Hi (-> & Hl). in_window_cases Hs Hi Hl a Ha.
      * eapply wp_reads_call; [by apply (reads_compare (λ i, kn !! i) m) |]. intros o ->.
        rewrite Hlt1, Hlt2. destruct (cmp a.1 key) eqn:Hc.
        -- apply cmp_eq in Hc. eapply wp_call; [apply (remove_found_spec t n condition i m a); [done | apply Ha |] |].
           { destruct Ha as (_ & [_ Hv] & _). lia. }
           rewrite Hc. intros r l' Hr. exact Hr.
        -- cbn [wp]. split; [done | by eapply located_lt].
        -- cbn [wp]. split; [done | eapply located_ge; eauto; congruence].
      * cbn [wp]. done.
    + intros i [mn mx] l' Hi (-> & Hl) Hz. split; [done | by apply located_zero].
    + split; [done | apply located_0].
  - intros [[mn mx] | r] l' Hx; [| exact Hx]. destruct Hx as [-> _]. apply Hnone. by left.
Qed.

(** A query: it reads a snapshot of the metadata, then what the snapshot ranks. *)
Lemma query_spec {R} t (k : Z → prog (leaf K V) R) (Q : R → Prop) ad tk l :
  idle l ad tk →
  (∀ m e, snapshot e m → in_word usize_bits m → reads (agrees e) (k m) Q) →
  wp inv t (bind (load metadata) k) l (λ r l', Q r ∧ idle l' ad tk).
Proof.
  intros (Hm & Ha & Ht) Hk. apply wp_load_learn. intros m kn Hs Hw. apply wp_reads.
  eapply reads_mono; [| apply (Hk m (knows (Ghost (mine l) kn (added l) (taken l)))); done].
  intros r Hr. done.
Qed.

Lemma freeze_spec t ad tk l :
  idle l ad tk → wp inv t (leaf_freeze (K := K) (V := V)) l (λ _ l', idle l' ad tk).
Proof.
  intros Hid. unfold leaf_freeze. apply wp_act. intros s ls Hl HI. exists l.
  destruct (frozen (metadata s)); cbn [fst snd bind wp].
  - by rewrite list_insert_id.
  - split; [| done]. pose proof (inv_wf _ _ HI) as Hwf.
    apply (step_special s ls t l); [done | done | by apply in_word_freeze, (wf_word _ _ Hwf) | | by apply retired_freeze].
    intros i Hi. by apply rank_freeze.
Qed.

Lemma thaw_spec t ad tk l :
  idle l ad tk → wp inv t (leaf_thaw (K := K) (V := V)) l (λ _ l', idle l' ad tk).
Proof.
  intros Hid. unfold leaf_thaw. apply wp_act. intros s ls Hl HI. exists l.
  destruct (frozen (metadata s)); cbn [fst snd bind wp].
  - split; [| done]. pose proof (inv_wf _ _ HI) as Hwf.
    apply (step_special s ls t l); [done | done | by apply in_word_thaw, (wf_word _ _ Hwf) | | by apply retired_thaw].
    intros i Hi. by apply rank_thaw.
  - by rewrite list_insert_id.
Qed.

(** The queries leave the ghost state as it is, and never read an entry that is not
    there. *)
Lemma search_spec t key ad tk l :
  idle l ad tk → wp inv t (search key) l (λ _ l', True ∧ idle l' ad tk).
Proof.
  intros Hid. unfold search. apply query_spec; [exact Hid |]. intros m e Hs Hw.
  eapply reads_call; [by apply search_slot_spec |].
  intros [i |] Hr; [| done]. destruct Hr as (a & Ha & _).
  eapply reads_call; [by eapply reads_value_at | done].
Qed.

Lemma max_entry_spec t ad tk l :
  idle l ad tk → wp inv t (max_entry (K := K) (V := V)) l (λ _ l', True ∧ idle l' ad tk).
Proof.
  intros Hid. unfold max_entry. apply query_spec; [exact Hid |]. intros m e Hs Hw.
  pose proof (LeafSeq.max_entry_fold m) as Hf.
  destruct (fold_ranks _ _ _ _ _) as [[mr i] | []].
  destruct (Nat.eqb_spec i N) as [-> | Hne]; cbn [negb]; [done |].
  rewrite decide_False in Hf by done. destruct Hf as (Hi & Hv & _).
  destruct (snap_some _ _ Hs i Hi Hv) as [a Ha]. by eapply (reads_entry e m i a).
Qed.

Lemma min_greater_equal_spec t key ad tk l :
  idle l ad tk → wp inv t (min_greater_equal key) l (λ _ l', True ∧ idle l' ad tk).
Proof.
  intros Hid. unfold min_greater_equal. apply query_spec; [exact Hid |]. intros m e Hs Hw.
  eapply reads_call; [by apply min_ge_scan |].
  intros [[[mn mx] idx] | a] Hx; [| done].
  destruct (Nat.eqb_spec idx N) as [-> | Hne]; cbn [negb]; [done |].
  rewrite decide_False in Hx by done. destruct Hx as (a & Ha & _). by eapply reads_entry.
Qed.

Lemma scan_spec t ad tk l :
  idle l ad tk →
  wp inv t (let! sc := scanner_new in for_each scan_fuel (λ _ e acc, Ret (acc ++ [e])) sc []) l
    (λ r l', StronglySorted before r ∧ idle l' ad tk).
Proof.
  intros Hid. unfold scanner_new. apply query_spec; [exact Hid |]. intros m e Hs Hw. cbn [bind].
  eapply reads_mono; [| apply (for_each_rule e m _ (λ i r, r = firstn i (omap e (in_order m)))); [exact Hs | | done]].
  - intros r ->. destruct (sorted_rest e m 0 Hs) as [Hss _]; [lia |].
    change (rest m 0) with (in_order m) in Hss.
    rewrite <-(firstn_skipn (length (in_order m)) (omap e (in_order m))) in Hss.
    by apply StronglySorted_app_1_l in Hss.
  - intros i b r Hi ->. cbn [reads]. symmetry. apply take_S_r, Hi.
Qed.

Lemma pure_query_spec {R} t (f : Z → R) ad tk l :
  idle l ad tk → wp inv t (let! m := load metadata in Ret (f m)) l (λ _ l', True ∧ idle l' ad tk).
Proof. intros Hid. by apply query_spec. Qed.

(** ** Clients *)

Inductive op :=
  | Insert (key : K) (val : V)
  | RemoveIf (key : K) (condition : V → bool)
  | Search (key : K)
  | MaxEntry
  | MinGreaterEqual (key : K)
  | Scan
  | IsEmpty
  | IsRetired
  | Validate (m : Z)
  | Freeze
  | Thaw.

(** A thread that runs a list of operations; it returns the pairs it inserted and the
    keys it removed. *)
Fixpoint client (n : nat) (ops : list op) (acc : list (K * V) * list K)
    : prog (leaf K V) (list (K * V) * list K) :=
  match ops with
  | [] => Ret acc
  | Insert key val :: ops =>
      let! r := insert n key val in client n ops (acc.1 ++ insert_added r key val, acc.2)
  | RemoveIf key condition :: ops =>
      let! r := remove_if n key condition in
      client n ops (acc.1, match r with RSuccess | RRetired => acc.2 ++ [key] | _ => acc.2 end)
  | Search key :: ops => let! _ := search key in client n ops acc
  | MaxEntry :: ops => let! _ := max_entry in client n ops acc
  | MinGreaterEqual key :: ops => let! _ := min_greater_equal key in client n ops acc
  | Scan :: ops =>
      let! _ := (let! sc := scanner_new in
                 for_each scan_fuel (λ _ e acc, Ret (acc ++ [e])) sc []) in client n ops acc
  | IsEmpty :: ops => let! _ := is_empty in client n ops acc
  | IsRetired :: ops => let! _ := is_retired in client n ops acc
  | Validate m :: ops => let! _ := validate m in client n ops acc
  | Freeze :: ops => let! _ := leaf_freeze in client n ops acc
  | Thaw :: ops => let! _ := leaf_thaw in client n ops acc
  end.

Definition client_post (r : list (K * V) * list K) (l : ghost) : Prop :=
  ∃ tk, idle l r.1 tk ∧ fst <$> tk = r.2.

Lemma leaf_client_spec t n ops acc tk l :
  idle l acc.1 tk → fst <$> tk = acc.2 → wp inv t (client n ops acc) l client_post.
Proof.
  revert acc tk l. induction ops as [| o ops IH]; intros acc tk l Hid Hk; cbn [client].
  { exists tk. done. }
  destruct o as [key val | key condition | | | | | | | | |].
  1: { eapply wp_call; [by apply insert_spec |]. intros r l' [_ Hid']. by apply (IH _ tk). }
  1: { eapply wp_call; [by apply remove_if_spec |]. intros r l' (tk' & Hid' & Hr).
       apply (IH _ tk'); [done |]. destruct r; simpl in *; try done; subst; try done;
         destruct Hr as (v & _ & ->); by rewrite fmap_app, Hk. }
  1: eapply wp_call; [by apply search_spec |].
  2: eapply wp_call; [by apply max_entry_spec |].
  3: eapply wp_call; [by apply min_greater_equal_spec |].
  4: eapply wp_call; [by apply scan_spec |].
  5: eapply wp_call; [by apply pure_query_spec |].
  6: eapply wp_call; [by apply pure_query_spec |].
  7: eapply wp_call; [by apply pure_query_spec |].
  1-7: intros r l' [_ Hid']; by apply (IH _ tk).
  1: eapply wp_call; [by apply freeze_spec |].
  2: eapply wp_call; [by apply thaw_spec |].
  all: intros r l' Hid'; by apply (IH _ tk).
Qed.

Lemma leaf_inv_new k : inv new (replicate k (Ghost None ∅ [] [])).
Proof.
  assert (∀ {A} (f : ghost → list A), f (Ghost None ∅ [] []) = [] →
            concat (f <$> replicate k (Ghost None ∅ [] [])) = []) as Hz.
  { intros A f Hf. induction k as [| k IH]; [done |]. simpl. by rewrite Hf. }
  assert (flight (replicate k (Ghost None ∅ [] [])) = []) as Hfl by by apply Hz.
  destruct (packed_sorted (V := V) [] new packed_new ltac:(constructor)) as [Hwf He].
  assert (entries (new : leaf K V) = []) as Hen.
  { destruct (sorted_entries_spec new Hwf) as [_ Hp]. rewrite He in Hp. by apply Permutation_nil_l. }
  constructor.
  - by rewrite Hfl.
  - by intros t l i ok ov [-> _]%lookup_replicate.
  - by intros t l i a [-> _]%lookup_replicate.
  - unfold total. rewrite !Hz by done. by rewrite Hen.
  - done.
Qed.

Lemma leaf_finished (rs : list (list (K * V) * list K)) (ls : list ghost) :
  length ls = length rs →
  (∀ t r l, rs !! t = Some r → ls !! t = Some l → client_post r l) →
  total added ls = concat (fst <$> rs) ∧ fst <$> total taken ls = concat (snd <$> rs) ∧
  flight ls = [].
Proof.
  revert rs. induction ls as [| l ls IH]; intros [| r rs] Hlen Hf; try done.
  destruct (IH rs) as (H1 & H2 & H3).
  { by injection Hlen. }
  { intros t. apply (Hf (S t)). }
  destruct (Hf 0%nat r l) as (tk & (Hm & Ha & Ht) & Hk); [done | done |].
  unfold total, flight in *. rewrite !fmap_cons. cbn [concat]. unfold slot_of at 1.
  rewrite fmap_app, H1, H2, H3, Hm, Ha, Ht, Hk. done.
Qed.
End Concurrent.

(** ** Property *)

(** C8. A leaf under every interleaving of every number of threads that insert, remove,
    search, scan, freeze and thaw: no thread ever reads or moves an entry that is
    not initialised and no rank overflows; at every moment the leaf is well-formed
    (reserved slots apart, the ranks order the keys) and empty if it has retired;
    and when the threads are done, the entries inserted are, as a multiset, the
    entries in the leaf and entries with exactly the keys that were removed: none
    is lost, none is duplicated. *)
Theorem leaf_concurrent {K V} `{KeyOrd K} (n : nat) (threads_ops : list (list (op (K := K) (V := V)))) p :
  reachable (Pool ((λ ops, client n ops ([], [])) <$> threads_ops) new) p →
  (∀ t pr, threads p !! t = Some pr → ¬ panicking pr) ∧
  (∃ fl, wf (shared p) fl) ∧
  (retired (metadata (shared p)) = true → entries (shared p) = []) ∧
  (∀ rs, threads p = Ret <$> rs →
    wf (shared p) [] ∧
    ∃ gone, concat (fst <$> rs) ≡ₚ gone ++ entries (shared p) ∧
            fst <$> gone ≡ₚ concat (snd <$> rs)).
Proof.
  intros Hr.
  assert (Hok : pool_ok inv (λ _ r l, client_post r l)
    (Pool ((λ ops, client n ops ([], [])) <$> threads_ops) new)
    (replicate (length threads_ops) (Ghost None ∅ [] []))).
  { split_and!; cbn [shared threads].
    - apply leaf_inv_new.
    - by rewrite length_fmap, length_replicate.
    - intros t pr l Hpr [-> _]%lookup_replicate.
      apply list_lookup_fmap_Some in Hpr as (ops & -> & _). by apply (leaf_client_spec t n ops _ []). }
  destruct (pool_safe _ _ _ _ _ Hok Hr) as (ls & HI & Hll & Hnp & Hfin).
  split; [exact Hnp |]. split; [eexists; apply (inv_wf _ _ HI) |].
  split; [apply (inv_retired _ _ HI) |]. intros rs Hrs.
  destruct (leaf_finished rs ls) as (H1 & H2 & H3).
  { by rewrite Hll, Hrs, length_fmap. }
  { intros t r l Ht Hl. apply (Hfin t); [| done]. rewrite Hrs. by rewrite list_lookup_fmap, Ht. }
  pose proof (inv_wf _ _ HI) as Hwf. rewrite H3 in Hwf. split; [exact Hwf |].
  exists (total taken ls). rewrite <-H1, H2. split; [apply (inv_vals _ _ HI) | done].
Qed.

(** Two threads, interleaved: the leaf is frozen and thawed during an insertion, and
    the removal of an older key overtakes it. *)
Definition example_threads : list (list (op (K := Z) (V := Z))) :=
  [[Insert 20 200; Insert 10 100]; [Freeze; Thaw; RemoveIf 20 (λ _, true)]].

Lemma leaf_concurrent_witness :
  ∃ p, reachable (Pool ((λ ops, client 3 ops ([], [])) <$> example_threads) new) p ∧
    threads p = [Ret ([(20, 200); (10, 100)], []); Ret ([], [20])] ∧
    wf (shared p) [].
Proof.
  set (p0 := Pool ((λ ops, client 3 ops ([], [])) <$> example_threads) new).
  set (ts := replicate 9 0%nat ++ replicate 2 1%nat ++ replicate 2 0%nat ++ replicate 3 1%nat ++
            replicate 9 0%nat ++ replicate 9 1%nat).
  assert (threads (execs ts p0) = [Ret ([(20, 200); (10, 100)], []); Ret ([], [20])]) as Hth
    by (vm_compute; reflexivity).
  pose proof (execs_reachable ts p0) as Hr.
  exists (execs ts p0). split; [exact Hr |]. split; [exact Hth |].
  refine (proj1 (proj2 (proj2 (proj2 (leaf_concurrent 3 example_threads (execs ts p0) Hr)))
            [([(20, 200); (10, 100)], []); ([], [20])] Hth)).
Defined.

(** C38. A leaf is frozen while an insertion of a new key is committed, so that the
    insertion is rolled back; when the leaf is thawed before the metadata of the
    reserved slot is reset, [rollback] answers [Duplicate] although the leaf never
    held the key. *)
Theorem rollback_spurious_duplicate :
  ∃ p, reachable (Pool [insert 2 5 50; leaf_freeze ;; leaf_thaw ;; Ret Success] (new : leaf Z Z)) p ∧
    threads p = [Ret (Duplicate 5 50); Ret Success] ∧ entries (shared p) = [].
Proof.
  set (p0 := Pool [insert 2 5 50; leaf_freeze ;; leaf_thaw ;; Ret Success] (new : leaf Z Z)).
  exists (execs [0; 0; 0; 0; 0; 1; 0; 0; 0; 1; 0]%nat p0).
  split; [apply execs_reachable |]. split; vm_compute; reflexivity.
Qed.
