(* ===== verification/TreeStore.v ===== *)
(** * The memory of a tree index

    The leaves, the nodes and the [AtomicShared]s of a [TreeIndex], by their addresses: an
    address is an index into a list, an allocation appends to it.  A [Leaf] is the one of
    [Leaf.v] with its link; the children of a node are a leaf whose values are the addresses
    of [AtomicShared]s ([src/tree_index/node.rs], [leaf_node.rs], [internal_node.rs]).
    Nothing is deallocated: what a [Shared] that is dropped or released does is in
    [RefCounted] and in the files on the collector. *)
From S2P Require Import Prelude Atomic Ord Tag AtomicShared LinkedList Dimension Leaf.

#[local] Existing Instance Tag.eq_dec.

(** [RETIRED] and [LOCKED] *)
Definition RETIRED : Tag.t := Tag.First.
Definition LOCKED : Tag.t := Tag.Second.

Section Store.
Context {K V : Type} `{KeyOrd K}.

(** [Leaf] with its link. *)
Record TreeLeaf := { body : leaf K V; link : Ptr }.

(** [leaf_node::StructuralChange]; a pointer to a key is the key. *)
Record LeafChange := {
  origin_leaf_key : option K;
  origin_leaf : Ptr;
  low_key_leaf : Ptr;
  high_key_leaf : Ptr;
  low_key_leaf_node : option nat;
  high_key_leaf_node : option nat
}.

(** [LeafNode], without its wait queue. *)
Record LeafNode := {
  leaf_children : leaf K nat;
  leaf_unbounded_child : nat;
  leaf_split_op : LeafChange;
  leaf_latch : Tag.t
}.

(** [internal_node::StructuralChange] *)
Record NodeChange := {
  origin_node_key : option K;
  origin_node : Ptr;
  low_key_node : Ptr;
  middle_key : option K;
  high_key_node : Ptr
}.

(** [InternalNode], without its wait queue. *)
Record InternalNode := {
  node_children : leaf K nat;
  node_unbounded_child : nat;
  node_split_op : NodeChange;
  node_latch : Tag.t
}.

Inductive Node :=
  | InternalN (internal_node : InternalNode)
  | LeafN (leaf_node : LeafNode).

(** The memory, and the field [root] of the [TreeIndex]. *)
Record tree := {
  leaves : list TreeLeaf;
  nodes : list Node;
  cells : list Ptr;
  root : Ptr
}.

(** ** Setters *)

Definition set_leaf_children (c : leaf K nat) (n : LeafNode) : LeafNode :=
  {| leaf_children := c; leaf_unbounded_child := leaf_unbounded_child n; leaf_split_op := leaf_split_op n; leaf_latch := leaf_latch n |}.

Definition set_leaf_split_op (o : LeafChange) (n : LeafNode) : LeafNode :=
  {| leaf_children := leaf_children n; leaf_unbounded_child := leaf_unbounded_child n; leaf_split_op := o; leaf_latch := leaf_latch n |}.

Definition set_leaf_latch (l : Tag.t) (n : LeafNode) : LeafNode :=
  {| leaf_children := leaf_children n; leaf_unbounded_child := leaf_unbounded_child n; leaf_split_op := leaf_split_op n; leaf_latch := l |}.

Definition set_origin_leaf_key (k : option K) (o : LeafChange) : LeafChange :=
  {| origin_leaf_key := k; origin_leaf := origin_leaf o; low_key_leaf := low_key_leaf o; high_key_leaf := high_key_leaf o;
     low_key_leaf_node := low_key_leaf_node o; high_key_leaf_node := high_key_leaf_node o |}.

Definition set_origin_leaf (p : Ptr) (o : LeafChange) : LeafChange :=
  {| origin_leaf_key := origin_leaf_key o; origin_leaf := p; low_key_leaf := low_key_leaf o; high_key_leaf := high_key_leaf o;
     low_key_leaf_node := low_key_leaf_node o; high_key_leaf_node := high_key_leaf_node o |}.

Definition set_low_key_leaf (p : Ptr) (o : LeafChange) : LeafChange :=
  {| origin_leaf_key := origin_leaf_key o; origin_leaf := origin_leaf o; low_key_leaf := p; high_key_leaf := high_key_leaf o;
     low_key_leaf_node := low_key_leaf_node o; high_key_leaf_node := high_key_leaf_node o |}.

Definition set_high_key_leaf (p : Ptr) (o : LeafChange) : LeafChange :=
  {| origin_leaf_key := origin_leaf_key o; origin_leaf := origin_leaf o; low_key_leaf := low_key_leaf o; high_key_leaf := p;
     low_key_leaf_node := low_key_leaf_node o; high_key_leaf_node := high_key_leaf_node o |}.

Definition set_low_key_leaf_node (x : option nat) (o : LeafChange) : LeafChange :=
  {| origin_leaf_key := origin_leaf_key o; origin_leaf := origin_leaf o; low_key_leaf := low_key_leaf o; high_key_leaf := high_key_leaf o;
     low_key_leaf_node := x; high_key_leaf_node := high_key_leaf_node o |}.

Definition set_high_key_leaf_node (x : option nat) (o : LeafChange) : LeafChange :=
  {| origin_leaf_key := origin_leaf_key o; origin_leaf := origin_leaf o; low_key_leaf := low_key_leaf o; high_key_leaf := high_key_leaf o;
     low_key_leaf_node := low_key_leaf_node o; high_key_leaf_node := x |}.

Definition set_node_children (c : leaf K nat) (n : InternalNode) : InternalNode :=
  {| node_children := c; node_unbounded_child := node_unbounded_child n; node_split_op := node_split_op n; node_latch := node_latch n |}.

Definition set_node_split_op (o : NodeChange) (n : InternalNode) : InternalNode :=
  {| node_children := node_children n; node_unbounded_child := node_unbounded_child n; node_split_op := o; node_latch := node_latch n |}.

Definition set_node_latch (l : Tag.t) (n : InternalNode) : InternalNode :=
  {| node_children := node_children n; node_unbounded_child := node_unbounded_child n; node_split_op := node_split_op n; node_latch := l |}.

Definition set_origin_node_key (k : option K) (o : NodeChange) : NodeChange :=
  {| origin_node_key := k; origin_node := origin_node o; low_key_node := low_key_node o; middle_key := middle_key o; high_key_node := high_key_node o |}.

Definition set_origin_node (p : Ptr) (o : NodeChange) : NodeChange :=
  {| origin_node_key := origin_node_key o; origin_node := p; low_key_node := low_key_node o; middle_key := middle_key o; high_key_node := high_key_node o |}.

Definition set_low_key_node (p : Ptr) (o : NodeChange) : NodeChange :=
  {| origin_node_key := origin_node_key o; origin_node := origin_node o; low_key_node := p; middle_key := middle_key o; high_key_node := high_key_node o |}.

Definition set_middle_key (k : option K) (o : NodeChange) : NodeChange :=
  {| origin_node_key := origin_node_key o; origin_node := origin_node o; low_key_node := low_key_node o; middle_key := k; high_key_node := high_key_node o |}.

Definition set_high_key_node (p : Ptr) (o : NodeChange) : NodeChange :=
  {| origin_node_key := origin_node_key o; origin_node := origin_node o; low_key_node := low_key_node o; middle_key := middle_key o; high_key_node := p |}.

Definition set_leaves (l : list TreeLeaf) (s : tree) : tree :=
  {| leaves := l; nodes := nodes s; cells := cells s; root := root s |}.

Definition set_nodes (l : list Node) (s : tree) : tree :=
  {| leaves := leaves s; nodes := l; cells := cells s; root := root s |}.

Definition set_cells (l : list Ptr) (s : tree) : tree :=
  {| leaves := leaves s; nodes := nodes s; cells := l; root := root s |}.

Definition set_root (p : Ptr) (s : tree) : tree :=
  {| leaves := leaves s; nodes := nodes s; cells := cells s; root := p |}.

(** ** Addresses *)

Definition leaf_at (l : nat) (s : tree) : option (leaf K V) := body <$> leaves s !! l.

Definition put_leaf (l : nat) (b : leaf K V) (s : tree) : tree :=
  set_leaves (alter (λ x, {| body := b; link := link x |}) l (leaves s)) s.

(** [link_ref] *)
#[export] Instance tree_links : LinkedList tree := {|
  link_ref l s := link <$> leaves s !! l;
  set_link l p s := set_leaves (alter (λ x, {| body := body x; link := p |}) l (leaves s)) s
|}.

Definition cell_at (c : nat) (s : tree) : option Ptr := cells s !! c.

Definition put_cell (c : nat) (p : Ptr) (s : tree) : tree := set_cells (<[c := p]> (cells s)) s.

Definition leaf_node_at (i : nat) (s : tree) : option LeafNode :=
  match nodes s !! i with Some (LeafN n) => Some n | _ => None end.

Definition put_leaf_node (i : nat) (n : LeafNode) (s : tree) : tree := set_nodes (<[i := LeafN n]> (nodes s)) s.

Definition internal_node_at (i : nat) (s : tree) : option InternalNode :=
  match nodes s !! i with Some (InternalN n) => Some n | _ => None end.

Definition put_internal_node (i : nat) (n : InternalNode) (s : tree) : tree := set_nodes (<[i := InternalN n]> (nodes s)) s.

(** The children of a node of either kind. *)
Definition children_of (n : Node) : leaf K nat :=
  match n with InternalN n => node_children n | LeafN n => leaf_children n end.

Definition set_children (c : leaf K nat) (n : Node) : Node :=
  match n with InternalN n => InternalN (set_node_children c n) | LeafN n => LeafN (set_leaf_children c n) end.

Definition unbounded_of (n : Node) : nat :=
  match n with InternalN n => node_unbounded_child n | LeafN n => leaf_unbounded_child n end.

Definition children_at (i : nat) (s : tree) : option (leaf K nat) := children_of <$> nodes s !! i.

Definition put_children (i : nat) (c : leaf K nat) (s : tree) : tree :=
  set_nodes (alter (set_children c) i (nodes s)) s.

Definition at_leaf {R} (l : nat) (p : prog (leaf K V) R) : prog tree R := zoom (leaf_at l) (put_leaf l) p.
Definition at_cell {R} (c : nat) (p : prog Ptr R) : prog tree R := zoom (cell_at c) (put_cell c) p.
Definition at_children {R} (i : nat) (p : prog (leaf K nat) R) : prog tree R := zoom (children_at i) (put_children i) p.
Definition at_leaf_node {R} (i : nat) (p : prog LeafNode R) : prog tree R := zoom (leaf_node_at i) (put_leaf_node i) p.
Definition at_internal_node {R} (i : nat) (p : prog InternalNode R) : prog tree R := zoom (internal_node_at i) (put_internal_node i) p.
Definition at_root {R} (p : prog Ptr R) : prog tree R := zoom (λ s, Some (root s)) set_root p.

Definition node_at (i : nat) : prog tree Node :=
  Act (λ s, (nodes s !! i, s)) (λ o, match o with Some n => Ret n | None => Panic end).

(** [&self.unbounded_child] *)
Definition unbounded_child (i : nat) : prog tree nat := let! n := node_at i in Ret (unbounded_of n).

(** ** Allocation *)

Definition alloc_leaf (b : leaf K V) : prog tree nat :=
  Act (λ s, (length (leaves s), set_leaves (leaves s ++ [{| body := b; link := ptr_null |}]) s)) Ret.

Definition alloc_cell (p : Ptr) : prog tree nat :=
  Act (λ s, (length (cells s), set_cells (cells s ++ [p]) s)) Ret.

Definition alloc_node (n : Node) : prog tree nat :=
  Act (λ s, (length (nodes s), set_nodes (nodes s ++ [n]) s)) Ret.

Definition leaf_change_default : LeafChange :=
  {| origin_leaf_key := None; origin_leaf := ptr_null; low_key_leaf := ptr_null; high_key_leaf := ptr_null;
     low_key_leaf_node := None; high_key_leaf_node := None |}.

Definition node_change_default : NodeChange :=
  {| origin_node_key := None; origin_node := ptr_null; low_key_node := ptr_null; middle_key := None; high_key_node := ptr_null |}.

(** [Node::new_leaf_node], [LeafNode::new] *)
Definition new_leaf_node : prog tree nat :=
  let! c := alloc_cell ptr_null in
  alloc_node (LeafN {| leaf_children := Leaf.new; leaf_unbounded_child := c; leaf_split_op := leaf_change_default; leaf_latch := Tag.None |}).

(** [Node::new_internal_node], [InternalNode::new] *)
Definition new_internal_node : prog tree nat :=
  let! c := alloc_cell ptr_null in
  alloc_node (InternalN {| node_children := Leaf.new; node_unbounded_child := c; node_split_op := node_change_default; node_latch := Tag.None |}).

Definition tree_new : tree := {| leaves := []; nodes := []; cells := []; root := ptr_null |}.

(** ** Scanners

    A [Scanner] of a leaf in the tree: the leaf, the snapshot of its metadata and the entry. *)
Record TreeScanner := { scanner_leaf : nat; scanner_state : Scanner }.

Definition tree_scanner_new (l : nat) : prog tree TreeScanner :=
  let! sc := at_leaf l scanner_new in Ret {| scanner_leaf := l; scanner_state := sc |}.

Definition tree_scanner_max_less (l : nat) (key : K) : prog tree (option TreeScanner) :=
  let! sc := at_leaf l (scanner_max_less key) in
  Ret ((λ sc, {| scanner_leaf := l; scanner_state := sc |}) <$> sc).

Definition tree_scanner_get (self : TreeScanner) : prog tree (option (K * V)) :=
  at_leaf (scanner_leaf self) (scanner_get (scanner_state self)).

Definition tree_scanner_next (self : TreeScanner) : prog tree (option (K * V) * TreeScanner) :=
  let! r := at_leaf (scanner_leaf self) (scanner_next (scanner_state self)) in
  Ret (r.1, {| scanner_leaf := scanner_leaf self; scanner_state := r.2 |}).

Definition tree_scanner_max_key (self : TreeScanner) : prog tree (option K) :=
  at_leaf (scanner_leaf self) max_key.

(** The inner loop of [jump]: to the first entry with a key above [key]. *)
Definition next_above (n : nat) (key : K) (sc : TreeScanner) : prog tree (option TreeScanner) :=
  loop n (λ sc : TreeScanner,
    let! r := tree_scanner_next sc in
    match r.1 with
    | Some entry => if bool_decide (cmp key entry.1 = Lt) then Ret (Break (Some r.2)) else Ret (Continue r.2)
    | None => Ret (Break None)
    end) sc.

Definition jump (n : nat) (self : TreeScanner) (min_allowed_key : option K) : prog tree (option TreeScanner) :=
  let! next_leaf_ptr := next_ptr n (scanner_leaf self) in
  loop n (λ next_leaf_ptr : Ptr,
    match next_leaf_ptr.1 with
    | Some next_leaf =>
        let! leaf_scanner := tree_scanner_new next_leaf in
        let! skip :=
          match min_allowed_key with
          | Some key =>
              let! clear := is_clear (scanner_leaf self) in
              if negb clear then let! r := next_above n key leaf_scanner in Ret (Some r) else Ret None
          | None => Ret None
          end in
        match skip with
        | Some (Some leaf_scanner) => Ret (Break (Some leaf_scanner))
        | Some None => let! next := next_ptr n next_leaf in Ret (Continue next)
        | None =>
            let! r := tree_scanner_next leaf_scanner in
            match r.1 with
            | Some _ => Ret (Break (Some r.2))
            | None => let! next := next_ptr n next_leaf in Ret (Continue next)
            end
        end
    | None => Ret (Break None)
    end) next_leaf_ptr.

(** [for entry in Scanner::new(&self.children)] *)
Definition for_children {A R} (n : nat) (i : nat) (body : K * nat → A → prog tree (flow A R)) (a : A) : prog tree (flow A R) :=
  let! sc := at_children i scanner_new in
  loop n (λ s : Scanner * A,
    let! r := at_children i (scanner_next s.1) in
    match r.1 with
    | None => Ret (Break (Continue s.2))
    | Some entry =>
        let! x := body entry s.2 in
        match x with
        | Continue a => Ret (Continue (r.2, a))
        | Break b => Ret (Break (Break b))
        end
    end) (sc, a).
End Store.

Arguments tree : clear implicits.
Arguments Node : clear implicits.
Arguments LeafNode : clear implicits.
Arguments InternalNode : clear implicits.
Arguments LeafChange : clear implicits.
Arguments NodeChange : clear implicits.
Arguments TreeLeaf : clear implicits.
