(* ===== verification/TreeLeafNode.v ===== *)
(** * The nodes above the leaves: [src/tree_index/leaf_node.rs]

    A [LeafNode] has leaves as its children: a bounded one holds keys up to its own key, the
    unbounded one the keys above.  A full leaf is split in two; a leaf node without room for
    another child stays locked, for its parent to split it.  The destructor of the
    [ExitGuard] in [split_leaf] only acts on a panic, which is not modelled. *)
From S2P Require Import Prelude Atomic Ord Tag AtomicShared LinkedList Dimension Leaf TreeStore.

#[local] Existing Instance Tag.eq_dec.

Local Open Scope Z_scope.

Section LeafNode.
Context {K V : Type} `{KeyOrd K} (n : nat).

Implicit Types (self : nat) (key : K) (val : V).


(** [entry.0 == key]: the order decides equality. *)
Definition key_eqb (a b : K) : bool := match cmp a b with Eq => true | _ => false end.

Local Notation op f := (λ x : LeafNode K, f (leaf_split_op x)).
Local Notation set_op f := (λ v (x : LeafNode K), set_leaf_split_op (f v (leaf_split_op x)) x).

Definition leaf_node_retired self : prog (tree K V) bool :=
  let! c := unbounded_child self in
  let! tag := at_cell c shared_tag in Ret (bool_decide (tag = RETIRED)).

(** ** Locking *)

Definition leaf_node_try_lock self : prog (tree K V) bool :=
  let! r := at_leaf_node self (compare_exchange leaf_latch set_leaf_latch Tag.None LOCKED) in
  Ret (match r with inl _ => true | inr _ => false end).

Definition leaf_node_unlock self : prog (tree K V) unit :=
  let! latch := at_leaf_node self (load leaf_latch) in
  dassert (bool_decide (latch = LOCKED)) ;;
  at_leaf_node self (store set_leaf_latch Tag.None).

Definition leaf_node_retire self : prog (tree K V) unit :=
  let! latch := at_leaf_node self (load leaf_latch) in
  dassert (bool_decide (latch = LOCKED)) ;;
  at_leaf_node self (store set_leaf_latch RETIRED).

(** [wait]: as long as the node is locked. *)
Definition leaf_node_wait self : prog (tree K V) unit :=
  Park (λ s, match leaf_node_at self s with Some x => negb (bool_decide (leaf_latch x = LOCKED)) | None => true end) (Ret ()).

(** [StructuralChange::reset] *)
Definition leaf_change_reset self : prog (tree K V) (option nat) :=
  at_leaf_node self (store (set_op set_origin_leaf_key) None) ;;
  at_leaf_node self (store (set_op set_low_key_leaf) ptr_null) ;;
  at_leaf_node self (store (set_op set_high_key_leaf) ptr_null) ;;
  at_leaf_node self (store (set_op set_low_key_leaf_node) None) ;;
  at_leaf_node self (store (set_op set_high_key_leaf_node) None) ;;
  let! r := at_leaf_node self (fetch_modify (op origin_leaf) (set_op set_origin_leaf) (λ _, ptr_null)) in
  Ret r.1.

(** ** Searching *)

Definition leaf_node_search self key : prog (tree K V) (option V) :=
  loop n (λ _ : unit,
    let! r := at_children self (min_greater_equal key) in
    let metadata := r.2 in
    match r.1 with
    | Some (_, child) =>
        let! p := at_cell child shared_load in
        match p.1 with
        | Some child =>
            let! ok := at_children self (validate metadata) in
            if ok : bool then let! v := at_leaf child (search key) in Ret (Break v)
            else Ret (Continue ())
        | None => Ret (Continue ())
        end
    | None =>
        let! c := unbounded_child self in
        let! p := at_cell c shared_load in
        match p.1 with
        | Some unbounded =>
            let! ok := at_children self (validate metadata) in
            if ok : bool then let! v := at_leaf unbounded (search key) in Ret (Break v)
            else Ret (Continue ())
        | None => Ret (Break None)
        end
    end) ().

Definition leaf_node_min self : prog (tree K V) (option TreeScanner) :=
  loop n (λ _ : unit,
    let! scanner := at_children self scanner_new in
    let metadata := sc_metadata scanner in
    let! r := at_children self (scanner_next scanner) in
    match r.1 with
    | Some (_, child) =>
        let! p := at_cell child shared_load in
        match p.1 with
        | Some child =>
            let! ok := at_children self (validate metadata) in
            if ok : bool then let! sc := tree_scanner_new child in Ret (Break (Some sc))
            else Ret (Continue ())
        | None => Ret (Continue ())
        end
    | None =>
        let! c := unbounded_child self in
        let! p := at_cell c shared_load in
        match p.1 with
        | Some unbounded =>
            let! ok := at_children self (validate metadata) in
            if ok : bool then let! sc := tree_scanner_new unbounded in Ret (Break (Some sc))
            else Ret (Continue ())
        | None => Ret (Break None)
        end
    end) ().

(** The fallback of [max_le_appr]: from the minimum key on. *)
Definition scan_from_min (key : K) (min_scanner : option TreeScanner) : prog (tree K V) (option TreeScanner) :=
  match min_scanner with
  | None => Ret None
  | Some min_scanner =>
      let! r := tree_scanner_next min_scanner in
      loop n (λ min_scanner : TreeScanner,
        let! e := tree_scanner_get min_scanner in
        match e with
        | Some (k, _) => if bool_decide (cmp k key ≠ Gt) then Ret (Break (Some min_scanner)) else Ret (Break None)
        | None =>
            let! j := jump n min_scanner None in
            match j with Some sc => Ret (Continue sc) | None => Ret (Break None) end
        end) r.2
  end.

Definition leaf_node_max_le_appr self key : prog (tree K V) (option TreeScanner) :=
  let! found := loop n (λ _ : unit,
    let! scanner := at_children self (scanner_max_less key) in
    match scanner with
    | Some scanner =>
        let! e := at_children self (scanner_get scanner) in
        match e with
        | Some (_, child) =>
            let! p := at_cell child shared_load in
            match p.1 with
            | Some child =>
                let! ok := at_children self (validate (sc_metadata scanner)) in
                if ok : bool then let! sc := tree_scanner_max_less child key in Ret (Break sc)
                else Ret (Continue ())
            | None => Ret (Continue ())
            end
        | None => Ret (Break None)
        end
    | None => Ret (Break None)
    end) () in
  match found with
  | Some sc => Ret (Some sc)
  | None => let! min_scanner := leaf_node_min self in scan_from_min key min_scanner
  end.

(** ** Splitting a leaf *)

(** The result of an insertion: [inl] is [Ok], [inr] is [Err], the caller retries. *)
Definition split_leaf self key val (full_leaf_key : option K) (full_leaf_ptr : Ptr) (full_leaf : nat) :
    prog (tree K V) (InsertResult K V + K * V) :=
  let! locked := leaf_node_try_lock self in
  if negb locked then leaf_node_wait self ;; Ret (inr (key, val))
  else
    let! retired := leaf_node_retired self in
    if retired : bool then leaf_node_unlock self ;; Ret (inl (Retired key val))
    else
      let! p := at_cell full_leaf shared_load in
      if negb (bool_decide (full_leaf_ptr = p)) then leaf_node_unlock self ;; Ret (inr (key, val))
      else
        let! shared := at_cell full_leaf shared_get_shared in
        let! prev := at_leaf_node self (fetch_modify (op origin_leaf) (set_op set_origin_leaf) (λ _, (shared, Tag.None))) in
        dassert (bool_decide (prev.1 = None)) ;;
        (match full_leaf_key with
         | Some full_leaf_key => at_leaf_node self (store (set_op set_origin_leaf_key) (Some full_leaf_key))
         | None => Ret ()
         end) ;;
        match full_leaf_ptr.1 with
        | None => Panic
        | Some target =>
            let! leaves := at_leaf target (freeze_and_distribute None None) in
            (match leaves.1 with
             | Some low =>
                 let! low := alloc_leaf low in
                 at_leaf_node self (store (set_op set_low_key_leaf) (Some low, Tag.None)) ;;
                 match leaves.2 with
                 | Some high =>
                     let! high := alloc_leaf high in
                     at_leaf_node self (store (set_op set_high_key_leaf) (Some high, Tag.None))
                 | None => Ret ()
                 end
             | None =>
                 let! low := alloc_leaf Leaf.new in
                 at_leaf_node self (store (set_op set_low_key_leaf) (Some low, Tag.None))
             end) ;;
            let! low_ptr := at_leaf_node self (load (op low_key_leaf)) in
            let! high_ptr := at_leaf_node self (load (op high_key_leaf)) in
            match low_ptr.1 with
            | None => Panic
            | Some low =>
                let! unused :=
                  match high_ptr.1 with
                  | Some high =>
                      let! r := push_back n target high true in
                      dassert (match r with inl _ => true | inr _ => false end) ;;
                      let! r := push_back n target low true in
                      dassert (match r with inl _ => true | inr _ => false end) ;;
                      let! max_key := at_leaf low max_key in
                      match max_key with
                      | None => Panic
                      | Some max_key =>
                          let! frozen := at_leaf low leaf_freeze in
                          dassert frozen ;;
                          let! c := alloc_cell low_ptr in
                          let! r := at_children self (Leaf.insert n max_key c) in
                          match r with
                          | Success =>
                              let! deleted := delete_self target in
                              dassert deleted ;;
                              let! unfrozen := at_leaf low leaf_thaw in
                              dassert unfrozen ;;
                              let! high := at_leaf_node self (fetch_modify (op high_key_leaf) (set_op set_high_key_leaf) (λ _, ptr_null)) in
                              let! unused := at_cell full_leaf (shared_swap (high.1, Tag.None)) in
                              Ret (Some unused.1)
                          | Full _ _ | Retired _ _ =>
                              let! frozen := at_leaf high leaf_freeze in
                              dassert frozen ;;
                              Ret None
                          | Duplicate _ _ | Frozen _ _ | Retry _ _ => Panic
                          end
                      end
                  | None =>
                      let! r := push_back n target low true in
                      dassert (match r with inl _ => true | inr _ => false end) ;;
                      let! deleted := delete_self target in
                      dassert deleted ;;
                      let! low := at_leaf_node self (fetch_modify (op low_key_leaf) (set_op set_low_key_leaf) (λ _, ptr_null)) in
                      let! unused := at_cell full_leaf (shared_swap low) in
                      Ret (Some unused.1)
                  end in
                match unused with
                | None => Ret (inl (Full key val))
                | Some _ =>
                    let! _ := leaf_change_reset self in
                    leaf_node_unlock self ;;
                    Ret (inl (Retry key val))
                end
            end
        end.

(** ** Insertion *)

(** What [insert] does with the result of the insertion into a leaf. *)
Definition leaf_inserted self (r : InsertResult K V) (leaf_key : option K) (leaf_ptr : Ptr) (leaf : nat) :
    prog (tree K V) (flow (K * V) (InsertResult K V + K * V)) :=
  match r with
  | Success | Duplicate _ _ | Retry _ _ => Ret (Break (inl r))
  | Full k v | Retired k v =>
      let! s := split_leaf self k v leaf_key leaf_ptr leaf in
      match s with
      | inr kv => Ret (Break (inr kv))
      | inl (Retry k v) => Ret (Continue (k, v))
      | inl r => Ret (Break (inl r))
      end
  | Frozen k v => leaf_node_wait self ;; Ret (Break (inr (k, v)))
  end.

Definition leaf_node_insert self key val : prog (tree K V) (InsertResult K V + K * V) :=
  loop n (λ kv : K * V,
    let! r := at_children self (min_greater_equal kv.1) in
    let metadata := r.2 in
    match r.1 with
    | Some (child_key, child) =>
        let! child_ptr := at_cell child shared_load in
        match child_ptr.1 with
        | Some child_ref =>
            let! ok := at_children self (validate metadata) in
            if ok : bool then
              let! r := at_leaf child_ref (Leaf.insert n kv.1 kv.2) in
              leaf_inserted self r (Some child_key) child_ptr child
            else Ret (Continue kv)
        | None => Ret (Continue kv)
        end
    | None =>
        let! c := unbounded_child self in
        let! unbounded_ptr := at_cell c shared_load in
        let! unbounded_ptr :=
          match unbounded_ptr.1 with
          | Some _ => Ret unbounded_ptr
          | None =>
              let! l := alloc_leaf Leaf.new in
              let! r := at_cell c (shared_compare_exchange ptr_null (Some l, Tag.None)) in
              match r with
              | inl (_, ptr) => Ret ptr
              | inr (_, actual) => Ret actual
              end
          end in
        match unbounded_ptr.1 with
        | Some unbounded =>
            dassert (bool_decide (unbounded_ptr.2 = Tag.None)) ;;
            let! ok := at_children self (validate metadata) in
            if negb ok then Ret (Continue kv)
            else
              let! r := at_leaf unbounded (Leaf.insert n kv.1 kv.2) in
              leaf_inserted self r None unbounded_ptr c
        | None => Ret (Break (inl (Retired kv.1 kv.2)))
        end
    end) (key, val).

(** ** Removal *)

Definition has_retired_leaf self : prog (tree K V) bool :=
  let! r := for_children n self (λ entry has_valid_leaf,
    let! p := at_cell entry.2 shared_load in
    match p.1 with
    | Some leaf =>
        let! retired := at_leaf leaf is_retired in
        if retired : bool then Ret (Break true) else Ret (Continue true)
    | None => Ret (Continue has_valid_leaf)
    end) false in
  match r with
  | Break b => Ret b
  | Continue true => Ret false
  | Continue false =>
      let! c := unbounded_child self in
      let! p := at_cell c shared_load in
      match p.1 with
      | Some unbounded => at_leaf unbounded is_retired
      | None => Ret false
      end
  end.

(** The loop of [coalesce] over the children: [uncleaned_leaf] and [prev_valid_leaf]. *)
Definition coalesce_leaves self (uncleaned_leaf : bool) : prog (tree K V) (flow (bool * option nat) Empty_set) :=
  for_children n self (λ entry s,
    let '(uncleaned_leaf, prev_valid_leaf) := s in
    let! p := at_cell entry.2 shared_load in
    match p.1 with
    | None => Panic
    | Some leaf =>
        let! retired := at_leaf leaf is_retired in
        if retired : bool then
          let! deleted := delete_self leaf in
          dassert deleted ;;
          let! result := at_children self (Leaf.remove_if n entry.1 (λ _, true)) in
          dassert (match result with RFail => false | _ => true end) ;;
          let! old := at_cell entry.2 (shared_swap ptr_null) in
          match old.1 with
          | Some _ =>
              match prev_valid_leaf with
              | Some prev_leaf =>
                  let! sc := tree_scanner_new prev_leaf in
                  let! _ := jump n sc None in
                  Ret (Continue (uncleaned_leaf, prev_valid_leaf))
              | None => Ret (Continue (true, prev_valid_leaf))
              end
          | None => Ret (Continue (uncleaned_leaf, prev_valid_leaf))
          end
        else Ret (Continue (uncleaned_leaf, Some leaf))
    end) (uncleaned_leaf, None).

Definition leaf_node_coalesce self : prog (tree K V) RemoveResult :=
  loop n (λ uncleaned_leaf : bool,
    let finish := λ uncleaned_leaf : bool, if uncleaned_leaf then RCleanup else RSuccess in
    let! locked := leaf_node_try_lock self in
    if negb locked then Ret (Break (finish uncleaned_leaf))
    else
      let! r := coalesce_leaves self uncleaned_leaf in
      match r with
      | Break e => match e with end
      | Continue (uncleaned_leaf, prev_valid_leaf) =>
          let! r :=
            match prev_valid_leaf with
            | Some _ => Ret (false, uncleaned_leaf)
            | None =>
                let! c := unbounded_child self in
                let! unbounded_ptr := at_cell c shared_load in
                match unbounded_ptr.1 with
                | Some unbounded =>
                    let! retired := at_leaf unbounded is_retired in
                    if retired : bool then
                      let! deleted := delete_self unbounded in
                      dassert deleted ;;
                      let! old := at_cell c (shared_swap (None, RETIRED)) in
                      Ret (true, match old.1 with Some _ => true | None => uncleaned_leaf end)
                    else Ret (false, uncleaned_leaf)
                | None => dassert (bool_decide (unbounded_ptr.2 = RETIRED)) ;; Ret (true, uncleaned_leaf)
                end
            end in
          let '(fully_empty, uncleaned_leaf) := r in
          if fully_empty : bool then leaf_node_unlock self ;; Ret (Break RRetired)
          else
            leaf_node_unlock self ;;
            let! more := has_retired_leaf self in
            if negb more then Ret (Break (finish uncleaned_leaf)) else Ret (Continue uncleaned_leaf)
      end) false.

(** [inl] is [Ok], [inr] is [Err]. *)
Definition leaf_removed self (r : RemoveResult) : prog (tree K V) (RemoveResult + unit) :=
  match r with
  | RFrozen => leaf_node_wait self ;; Ret (inr ())
  | RRetired => let! r := leaf_node_coalesce self in Ret (inl r)
  | r => Ret (inl r)
  end.

Definition leaf_node_remove_if self key (condition : V → bool) : prog (tree K V) (RemoveResult + unit) :=
  loop n (λ _ : unit,
    let! r := at_children self (min_greater_equal key) in
    let metadata := r.2 in
    match r.1 with
    | Some (_, child) =>
        let! p := at_cell child shared_load in
        match p.1 with
        | Some child =>
            let! ok := at_children self (validate metadata) in
            if ok : bool then
              let! r := at_leaf child (Leaf.remove_if n key condition) in
              let! r := leaf_removed self r in Ret (Break r)
            else Ret (Continue ())
        | None => Ret (Continue ())
        end
    | None =>
        let! c := unbounded_child self in
        let! unbounded_ptr := at_cell c shared_load in
        match unbounded_ptr.1 with
        | Some unbounded =>
            dassert (bool_decide (unbounded_ptr.2 = Tag.None)) ;;
            let! ok := at_children self (validate metadata) in
            if negb ok then Ret (Continue ())
            else
              let! r := at_leaf unbounded (Leaf.remove_if n key condition) in
              let! r := leaf_removed self r in Ret (Break r)
        | None => Ret (Break (inl RFail))
        end
    end) ().

(** ** Splitting the node *)

(** What an entry of the new nodes is: its key, unless it is the unbounded child, and the
    pointer to it. *)
Definition new_entry : Type := option K * Ptr.

(** [entry_array] has [DIMENSION.num_entries + 2] slots: [entries] are written to the next
    free ones, an index beyond the last slot panics. *)
Definition push_entries (entry_array entries : list new_entry) : prog (tree K V) (list new_entry) :=
  if (length (entry_array ++ entries) <=? N + 2)%nat then Ret (entry_array ++ entries) else Panic.

(** [entry_array] of [split_leaf_node], and the recommended boundary. *)
Definition leaf_node_entries self (middle_key : K) : prog (tree K V) (list new_entry * Z) :=
  let! low := at_leaf_node self (load (op low_key_leaf)) in
  let! sc := at_children self scanner_new in
  let recommended_boundary := optimal_boundary (sc_metadata sc) in
  let! origin := at_leaf_node self (load (op origin_leaf_key)) in
  let! high := at_leaf_node self (load (op high_key_leaf)) in
  let halves := λ k : option K,
    (Some middle_key, low) :: (if negb (bool_decide (high.1 = None)) then [(k, high)] else []) in
  let! r := for_children n self (λ entry (entry_array : list new_entry),
    if match origin with Some k => key_eqb entry.1 k | None => false end then
      let! entry_array := push_entries entry_array (halves (Some entry.1)) in
      Ret (Continue entry_array)
    else
      let! p := at_cell entry.2 shared_clone in
      let! entry_array := push_entries entry_array [(Some entry.1, p)] in
      Ret (Continue entry_array)) [] in
  match r with
  | Break e => match e : Empty_set with end
  | Continue entry_array =>
      match origin with
      | None =>
          let! entry_array := push_entries entry_array (halves None) in
          Ret (entry_array, recommended_boundary)
      | Some _ =>
          let! c := unbounded_child self in
          let! p := at_cell c shared_clone in
          let! entry_array := push_entries entry_array [(None, p)] in
          Ret (entry_array, recommended_boundary)
      end
  end.

(** The entries go to the low-key node, up to the one that becomes its unbounded child, and
    to the high-key node: the key of that entry. *)
Definition distribute (low_node high_node : nat) (low_size : Z) (entries : list new_entry) : prog (tree K V) (option K) :=
  let! r := Atomic.for_each entries (λ entry (s : nat * option K),
    let '(i, middle_key) := s in
    match Z.of_nat (i + 1) ?= low_size with
    | Lt =>
        match entry.1 with
        | Some k =>
            let! c := alloc_cell entry.2 in
            at_children low_node (insert_unchecked k c i) ;;
            Ret (Continue (S i, middle_key))
        | None => Panic
        end
    | Eq =>
        let! c := unbounded_child low_node in
        let! _ := at_cell c (shared_swap (entry.2.1, Tag.None)) in
        Ret (Continue (S i, match entry.1 with Some k => Some k | None => middle_key end))
    | Gt =>
        match entry.1 with
        | Some k =>
            let! c := alloc_cell entry.2 in
            at_children high_node (insert_unchecked k c (i - Z.to_nat low_size)) ;;
            Ret (Continue (S i, middle_key))
        | None =>
            let! c := unbounded_child high_node in
            let! _ := at_cell c (shared_swap (entry.2.1, Tag.None)) in
            Ret (Continue (S i, middle_key))
        end
    end) (O, None) in
  match r with
  | Continue s => Ret s.2
  | Break e => match e : Empty_set with end
  end.

Definition split_leaf_node self (low_node high_node : nat) : prog (tree K V) K :=
  at_leaf_node low_node (store set_leaf_latch LOCKED) ;;
  at_leaf_node high_node (store set_leaf_latch LOCKED) ;;
  at_leaf_node self (store (set_op set_low_key_leaf_node) (Some low_node)) ;;
  at_leaf_node self (store (set_op set_high_key_leaf_node) (Some high_node)) ;;
  let! low := at_leaf_node self (load (op low_key_leaf)) in
  match low.1 with
  | None => Panic
  | Some low =>
      let! middle_key := at_leaf low max_key in
      match middle_key with
      | None => Panic
      | Some middle_key =>
          let! r := leaf_node_entries self middle_key in
          let '(entries, recommended_boundary) := r in
          dassert (2 <=? Z.of_nat (length entries)) ;;
          let low_size := Z.min recommended_boundary (Z.of_nat (length entries) - 1) in
          let! middle_key := distribute low_node high_node low_size entries in
          match middle_key with Some k => Ret k | None => Panic end
      end
  end.

(** The end of a split on one of the two new nodes. *)
Definition finish_new_leaf_node (node : option nat) : prog (tree K V) unit :=
  match node with
  | Some node =>
      let! _ := leaf_change_reset node in
      leaf_node_unlock node
  | None => Ret ()
  end.

Definition leaf_node_commit self : prog (tree K V) unit :=
  let! origin := at_leaf_node self (fetch_modify (op origin_leaf) (set_op set_origin_leaf) (λ _, ptr_null)) in
  (match origin.1 with
   | Some origin_leaf => let! _ := delete_self origin_leaf in Ret ()
   | None => Ret ()
   end) ;;
  let! low := at_leaf_node self (load (op low_key_leaf)) in
  let! high := at_leaf_node self (load (op high_key_leaf)) in
  match low.1, high.1 with
  | Some low, Some high =>
      let! unfrozen := at_leaf low leaf_thaw in
      dassert unfrozen ;;
      let! unfrozen := at_leaf high leaf_thaw in
      dassert unfrozen ;;
      let! low_node := at_leaf_node self (load (op low_key_leaf_node)) in
      finish_new_leaf_node low_node ;;
      let! high_node := at_leaf_node self (load (op high_key_leaf_node)) in
      finish_new_leaf_node high_node ;;
      let! _ := leaf_change_reset self in
      leaf_node_retire self
  | _, _ => Panic
  end.

Definition leaf_node_rollback self : prog (tree K V) unit :=
  let! low := at_leaf_node self (load (op low_key_leaf)) in
  let! high := at_leaf_node self (load (op high_key_leaf)) in
  match low.1, high.1 with
  | Some low, Some high =>
      let! deleted := delete_self high in
      dassert deleted ;;
      let! deleted := delete_self low in
      dassert deleted ;;
      let! origin := at_leaf_node self (fetch_modify (op origin_leaf) (set_op set_origin_leaf) (λ _, ptr_null)) in
      (match origin.1 with
       | Some origin_leaf =>
           let! unfrozen := at_leaf origin_leaf leaf_thaw in
           dassert unfrozen ;;
           let! unmarked := unmark origin_leaf in
           dassert unmarked
       | None => Ret ()
       end) ;;
      let! _ := leaf_change_reset self in
      leaf_node_unlock self
  | _, _ => Panic
  end.

Definition leaf_node_cleanup_link self key (traverse_max : bool) : prog (tree K V) bool :=
  let! scanner :=
    if traverse_max then
      let! c := unbounded_child self in
      let! p := at_cell c shared_load in
      match p.1 with
      | Some unbounded => let! sc := tree_scanner_new unbounded in Ret (Some sc)
      | None => Ret None
      end
    else
      let! leaf_scanner := at_children self (scanner_max_less key) in
      match leaf_scanner with
      | Some leaf_scanner =>
          let! e := at_children self (scanner_get leaf_scanner) in
          match e with
          | Some (_, child) =>
              let! p := at_cell child shared_load in
              match p.1 with
              | Some child => let! sc := tree_scanner_new child in Ret (Some sc)
              | None => Ret None
              end
          | None => Ret None
          end
      | None => Ret None
      end in
  match scanner with
  | None => Ret false
  | Some scanner =>
      let! s := jump n scanner None in
      match s with
      | Some s => let! _ := jump n s None in Ret true
      | None => Ret true
      end
  end.
End LeafNode.
