(* ===== verification/TreeNode.v ===== *)
(** * The inner nodes of a tree index: [src/tree_index/internal_node.rs], [node.rs]

    The children of an [InternalNode] are nodes; it calls the functions of [Node] on them,
    which are parameters here ([node_...] with less fuel), so that each function reads as in
    the sources.  The fuel [d] of the recursive functions bounds the depth. *)
From S2P Require Import Prelude Atomic Ord Tag AtomicShared LinkedList Dimension Leaf TreeStore TreeLeafNode.

#[local] Existing Instance Tag.eq_dec.

Local Open Scope Z_scope.

Section Node.
Context {K V : Type} `{KeyOrd K} (n : nat).

Implicit Types (self : nat) (key : K) (val : V).

Local Notation op f := (λ x : InternalNode K, f (node_split_op x)).
Local Notation set_op f := (λ v (x : InternalNode K), set_node_split_op (f v (node_split_op x)) x).

(** [Node::retired]: the same in both kinds of nodes. *)
Definition node_retired self : prog (tree K V) bool := leaf_node_retired self.

(** ** Locking *)

Definition internal_try_lock self : prog (tree K V) bool :=
  let! r := at_internal_node self (compare_exchange node_latch set_node_latch Tag.None LOCKED) in
  Ret (match r with inl _ => true | inr _ => false end).

Definition internal_unlock self : prog (tree K V) unit :=
  let! latch := at_internal_node self (load node_latch) in
  dassert (bool_decide (latch = LOCKED)) ;;
  at_internal_node self (store set_node_latch Tag.None).

Definition internal_retire self : prog (tree K V) unit :=
  let! latch := at_internal_node self (load node_latch) in
  dassert (bool_decide (latch = LOCKED)) ;;
  at_internal_node self (store set_node_latch RETIRED).

Definition internal_wait self : prog (tree K V) unit :=
  Park (λ s, match internal_node_at self s with Some x => negb (bool_decide (node_latch x = LOCKED)) | None => true end) (Ret ()).

(** [StructuralChange::reset] *)
Definition node_change_reset self : prog (tree K V) (option nat) :=
  at_internal_node self (store (set_op set_origin_node_key) None) ;;
  at_internal_node self (store (set_op set_low_key_node) ptr_null) ;;
  at_internal_node self (store (set_op set_middle_key) None) ;;
  at_internal_node self (store (set_op set_high_key_node) ptr_null) ;;
  let! r := at_internal_node self (fetch_modify (op origin_node) (set_op set_origin_node) (λ _, ptr_null)) in
  Ret r.1.

Definition internal_finish_split self : prog (tree K V) unit :=
  let! _ := node_change_reset self in
  internal_unlock self.

(** ** Searching *)

Definition internal_search (child_search : nat → prog (tree K V) (option V)) self key : prog (tree K V) (option V) :=
  loop n (λ _ : unit,
    let! r := at_children self (min_greater_equal key) in
    let metadata := r.2 in
    match r.1 with
    | Some (_, child) =>
        let! p := at_cell child shared_load in
        match p.1 with
        | Some child =>
            let! ok := at_children self (validate metadata) in
            if ok : bool then let! v := child_search child in Ret (Break v)
            else Ret (Continue ())
        | None => Ret (Continue ())
        end
    | None =>
        let! c := unbounded_child self in
        let! p := at_cell c shared_load in
        match p.1 with
        | Some unbounded =>
            let! ok := at_children self (validate metadata) in
            if ok : bool then let! v := child_search unbounded in Ret (Break v)
            else Ret (Continue ())
        | None => Ret (Break None)
        end
    end) ().

(** The [for] loop of [min]: [Break None] is [retry]. *)
Definition internal_min_children (child_min : nat → prog (tree K V) (option TreeScanner)) self (scanner : Scanner) :
    prog (tree K V) (flow unit (option TreeScanner)) :=
  let metadata := sc_metadata scanner in
  loop n (λ scanner : Scanner,
    let! r := at_children self (scanner_next scanner) in
    match r.1 with
    | None => Ret (Break (Continue ()))
    | Some (_, child) =>
        let! p := at_cell child shared_load in
        match p.1 with
        | Some child =>
            let! ok := at_children self (validate metadata) in
            if ok : bool then
              let! sc := child_min child in
              match sc with
              | Some sc => Ret (Break (Break (Some sc)))
              | None => Ret (Continue r.2)
              end
            else Ret (Break (Break None))
        | None => Ret (Break (Break None))
        end
    end) scanner.

Definition internal_min (child_min : nat → prog (tree K V) (option TreeScanner)) self : prog (tree K V) (option TreeScanner) :=
  loop n (λ _ : unit,
    let! scanner := at_children self scanner_new in
    let! r := internal_min_children child_min self scanner in
    match r with
    | Break (Some sc) => Ret (Break (Some sc))
    | Break None => Ret (Continue ())
    | Continue _ =>
        let! c := unbounded_child self in
        let! p := at_cell c shared_load in
        match p.1 with
        | Some unbounded =>
            let! ok := at_children self (validate (sc_metadata scanner)) in
            if ok : bool then let! sc := child_min unbounded in Ret (Break sc)
            else Ret (Continue ())
        | None => Ret (Break None)
        end
    end) ().

Definition internal_max_le_appr (child_max_le_appr child_min : nat → prog (tree K V) (option TreeScanner)) self key :
    prog (tree K V) (option TreeScanner) :=
  let! found := loop n (λ _ : unit,
    let! scanner := at_children self (scanner_max_less key) in
    match scanner with
    | Some scanner =>
        let! e := at_children self (scanner_get scanner) in
        match e with
        | Some (_, child) =>
            let! p := at_cell child shared_load in
            match p.1 with
            | Some child =>
                let! ok := at_children self (validate (sc_metadata scanner)) in
                if ok : bool then let! sc := child_max_le_appr child in Ret (Break sc)
                else Ret (Continue ())
            | None => Ret (Continue ())
            end
        | None => Ret (Break None)
        end
    | None => Ret (Break None)
    end) () in
  match found with
  | Some sc => Ret (Some sc)
  | None => let! min_scanner := internal_min child_min self in scan_from_min n key min_scanner
  end.

Definition internal_cleanup_link (child_cleanup_link : nat → bool → prog (tree K V) bool) self key (traverse_max : bool) :
    prog (tree K V) bool :=
  if traverse_max then
    let! c := unbounded_child self in
    let! p := at_cell c shared_load in
    match p.1 with
    | Some unbounded => child_cleanup_link unbounded true
    | None => Ret false
    end
  else
    let! child_scanner := at_children self (scanner_max_less key) in
    match child_scanner with
    | Some child_scanner =>
        let! e := at_children self (scanner_get child_scanner) in
        match e with
        | Some (_, child) =>
            let! p := at_cell child shared_load in
            match p.1 with
            | Some child => child_cleanup_link child true
            | None => Ret false
            end
        | None => Ret false
        end
    | None => Ret false
    end.

(** ** Splitting a child *)

(** [entry_array] of [split_node], for the full node [full], and the recommended boundary. *)
Definition internal_entries (full : nat) : prog (tree K V) (list new_entry * Z) :=
  let! sc := at_children full scanner_new in
  let recommended_boundary := optimal_boundary (sc_metadata sc) in
  let! o := at_internal_node full (load node_split_op) in
  let low := match (low_key_node o).1 with
             | Some _ => match middle_key o with Some k => Some [(Some k, low_key_node o)] | None => None end
             | None => Some []
             end in
  let high := λ k : option K, match (high_key_node o).1 with Some _ => [(k, high_key_node o)] | None => [] end in
  let! r := for_children n full (λ entry (entry_array : list new_entry),
    if match origin_node_key o with Some k => key_eqb entry.1 k | None => false end then
      match low with
      | Some low =>
          let! entry_array := push_entries entry_array (low ++ high (Some entry.1)) in
          Ret (Continue entry_array)
      | None => Panic
      end
    else
      let! p := at_cell entry.2 shared_clone in
      let! entry_array := push_entries entry_array [(Some entry.1, p)] in
      Ret (Continue entry_array)) [] in
  match r with
  | Break e => match e : Empty_set with end
  | Continue entry_array =>
      match origin_node_key o with
      | None =>
          match low with
          | Some low =>
              let! entry_array := push_entries entry_array (low ++ high None) in
              Ret (entry_array, recommended_boundary)
          | None => Panic
          end
      | Some _ =>
          let! c := unbounded_child full in
          let! p := at_cell c shared_clone in
          let! entry_array := push_entries entry_array [(None, p)] in
          Ret (entry_array, recommended_boundary)
      end
  end.

(** The two nodes that replace the full node [target], and the key of the lower one, are left
    in the [split_op] of [self]. *)
Definition split_target self (target : nat) : prog (tree K V) unit :=
  let! node := node_at target in
  match node with
  | InternalN _ =>
      let! low_nodes := new_internal_node in
      let! high_nodes := new_internal_node in
      let! r := internal_entries target in
      let '(entries, recommended_boundary) := r in
      dassert (2 <=? Z.of_nat (length entries)) ;;
      let low_size := Z.min recommended_boundary (Z.of_nat (length entries) - 1) in
      let! middle := distribute low_nodes high_nodes low_size entries in
      (match middle with
       | Some k => at_internal_node self (store (set_op set_middle_key) (Some k))
       | None => Ret ()
       end) ;;
      at_internal_node self (store (set_op set_low_key_node) (Some low_nodes, Tag.None)) ;;
      at_internal_node self (store (set_op set_high_key_node) (Some high_nodes, Tag.None))
  | LeafN _ =>
      let! low_node := new_leaf_node in
      let! high_node := new_leaf_node in
      let! k := split_leaf_node n target low_node high_node in
      at_internal_node self (store (set_op set_middle_key) (Some k)) ;;
      at_internal_node self (store (set_op set_low_key_node) (Some low_node, Tag.None)) ;;
      at_internal_node self (store (set_op set_high_key_node) (Some high_node, Tag.None))
  end.

Definition split_node (node_commit node_rollback : nat → prog (tree K V) unit) self key val
    (full_node_key : option K) (full_node_ptr : Ptr) (full_node : nat) (root_split : bool) :
    prog (tree K V) (InsertResult K V + K * V) :=
  match full_node_ptr.1 with
  | None => Panic
  | Some target =>
      let! locked := internal_try_lock self in
      if negb locked then node_rollback target ;; internal_wait self ;; Ret (inr (key, val))
      else
        let! retired := node_retired self in
        dassert (negb retired) ;;
        let! p := at_cell full_node shared_load in
        if negb (bool_decide (full_node_ptr = p)) then internal_unlock self ;; node_rollback target ;; Ret (inr (key, val))
        else
          let! shared := at_cell full_node shared_get_shared in
          let! prev := at_internal_node self (fetch_modify (op origin_node) (set_op set_origin_node) (λ _, (shared, Tag.None))) in
          dassert (bool_decide (prev.1 = None)) ;;
          (match full_node_key with
           | Some full_node_key => at_internal_node self (store (set_op set_origin_node_key) (Some full_node_key))
           | None => Ret ()
           end) ;;
          split_target self target ;;
          let! middle := at_internal_node self (load (op middle_key)) in
          match middle with
          | None => Panic
          | Some middle =>
              let! low := at_internal_node self (load (op low_key_node)) in
              let! c := alloc_cell low in
              let! r := at_children self (Leaf.insert n middle c) in
              match r with
              | Duplicate _ _ | Frozen _ _ | Retry _ _ => Panic
              | Full _ _ | Retired _ _ => Ret (inl (Full key val))
              | Success =>
                  let! high := at_internal_node self (load (op high_key_node)) in
                  let! unused := at_cell full_node (shared_swap (ptr_get_shared high, Tag.None)) in
                  if root_split then Ret (inl (Retry key val))
                  else
                    internal_finish_split self ;;
                    (match unused.1 with
                     | Some unused_node => node_commit unused_node
                     | None => Ret ()
                     end) ;;
                    Ret (inl (Retry key val))
              end
          end
  end.

Definition internal_commit (node_commit : nat → prog (tree K V) unit) self : prog (tree K V) unit :=
  let! origin := node_change_reset self in
  internal_retire self ;;
  match origin with
  | Some origin => node_commit origin
  | None => Ret ()
  end.

Definition internal_rollback (node_rollback : nat → prog (tree K V) unit) self : prog (tree K V) unit :=
  let! origin := node_change_reset self in
  internal_unlock self ;;
  match origin with
  | Some origin => node_rollback origin
  | None => Ret ()
  end.

(** ** Coalescing *)

Definition has_retired_node self : prog (tree K V) bool :=
  let! r := for_children n self (λ entry has_valid_node,
    let! p := at_cell entry.2 shared_load in
    match p.1 with
    | Some node =>
        let! retired := node_retired node in
        if retired : bool then Ret (Break true) else Ret (Continue true)
    | None => Ret (Continue has_valid_node)
    end) false in
  match r with
  | Break b => Ret b
  | Continue true => Ret false
  | Continue false =>
      let! c := unbounded_child self in
      let! p := at_cell c shared_load in
      match p.1 with
      | Some unbounded => node_retired unbounded
      | None => Ret false
      end
  end.

(** The loop of [coalesce] over the children: [node_deleted] and [max_key_entry]. *)
Definition coalesce_nodes self (node_deleted : bool) : prog (tree K V) (flow (bool * option (K * nat)) Empty_set) :=
  for_children n self (λ entry s,
    let '(node_deleted, max_key_entry) := s in
    let! p := at_cell entry.2 shared_load in
    match p.1 with
    | None => Panic
    | Some node =>
        let! retired := node_retired node in
        if retired : bool then
          let! result := at_children self (Leaf.remove_if n entry.1 (λ _, true)) in
          dassert (match result with RFail => false | _ => true end) ;;
          let! old := at_cell entry.2 (shared_swap ptr_null) in
          Ret (Continue (match old.1 with Some _ => true | None => node_deleted end, max_key_entry))
        else Ret (Continue (node_deleted, Some entry))
    end) (node_deleted, None).

(** The unbounded child, after the loop: whether the node is empty, and [node_deleted]. *)
Definition coalesce_unbounded self (node_deleted : bool) (max_key_entry : option (K * nat)) : prog (tree K V) (bool * bool) :=
  let! c := unbounded_child self in
  let! unbounded_ptr := at_cell c shared_load in
  match unbounded_ptr.1 with
  | Some unbounded =>
      let! retired := node_retired unbounded in
      if retired : bool then
        match max_key_entry with
        | Some (key, max_key_child) =>
            let! shared := at_cell max_key_child shared_get_shared in
            let! obsolete := at_cell c (shared_swap (shared, Tag.None)) in
            let! node_deleted :=
              match obsolete.1 with
              | Some obsolete_node =>
                  let! r := node_retired obsolete_node in
                  dassert r ;; Ret true
              | None => Ret node_deleted
              end in
            let! result := at_children self (Leaf.remove_if n key (λ _, true)) in
            dassert (match result with RFail => false | _ => true end) ;;
            let! old := at_cell max_key_child (shared_swap ptr_null) in
            Ret (false, match old.1 with Some _ => true | None => node_deleted end)
        | None =>
            let! obsolete := at_cell c (shared_swap (None, RETIRED)) in
            match obsolete.1 with
            | Some obsolete_node =>
                let! r := node_retired obsolete_node in
                dassert r ;; Ret (true, true)
            | None => Ret (true, node_deleted)
            end
        end
      else Ret (false, node_deleted)
  | None => dassert (bool_decide (unbounded_ptr.2 = RETIRED)) ;; Ret (true, node_deleted)
  end.

Definition internal_coalesce self : prog (tree K V) RemoveResult :=
  loop n (λ node_deleted : bool,
    let finish := λ node_deleted : bool, if node_deleted then RCleanup else RSuccess in
    let! locked := internal_try_lock self in
    if negb locked then Ret (Break (finish node_deleted))
    else
      let! r := coalesce_nodes self node_deleted in
      match r with
      | Break e => match e with end
      | Continue (node_deleted, max_key_entry) =>
          let! r := coalesce_unbounded self node_deleted max_key_entry in
          let '(fully_empty, node_deleted) := r in
          if fully_empty : bool then internal_unlock self ;; Ret (Break RRetired)
          else
            internal_unlock self ;;
            let! more := has_retired_node self in
            if negb more then Ret (Break (finish node_deleted)) else Ret (Continue node_deleted)
      end) false.

(** ** Insertion and removal *)

(** The functions of [Node] that [InternalNode::insert] and [remove_if] call, besides those of
    the same name. *)
Record children_calls := {
  call_cleanup_link : nat → K → bool → prog (tree K V) bool;
  call_commit : nat → prog (tree K V) unit;
  call_rollback : nat → prog (tree K V) unit
}.

(** What [insert] does with the result of the insertion into the child [child_ref]. *)
Definition internal_inserted (calls : children_calls) self (r : InsertResult K V) (child_key : option K)
    (child_ptr : Ptr) (child child_ref : nat) : prog (tree K V) (flow (K * V) (InsertResult K V + K * V)) :=
  match r with
  | Success | Duplicate _ _ | Frozen _ _ => Ret (Break (inl r))
  | Full k v =>
      let! s := split_node (call_commit calls) (call_rollback calls) self k v child_key child_ptr child false in
      match s with
      | inr kv => Ret (Break (inr kv))
      | inl (Retry k v) => Ret (Continue (k, v))
      | inl r => Ret (Break (inl r))
      end
  | Retired k v =>
      let! retired := node_retired child_ref in
      dassert retired ;;
      let! c := internal_coalesce self in
      match c with
      | RRetired =>
          let! retired := node_retired self in
          dassert retired ;;
          Ret (Break (inl (Retired k v)))
      | _ => Ret (Break (inr (k, v)))
      end
  | Retry k v =>
      let! cleaned := internal_cleanup_link (λ child b, call_cleanup_link calls child k b) self k false in
      if cleaned : bool then Ret (Continue (k, v)) else Ret (Break (inl (Retry k v)))
  end.

Definition internal_insert (calls : children_calls) (child_insert : nat → K → V → prog (tree K V) (InsertResult K V + K * V))
    self key val : prog (tree K V) (InsertResult K V + K * V) :=
  loop n (λ kv : K * V,
    let! r := at_children self (min_greater_equal kv.1) in
    let metadata := r.2 in
    match r.1 with
    | Some (child_key, child) =>
        let! child_ptr := at_cell child shared_load in
        match child_ptr.1 with
        | Some child_ref =>
            let! ok := at_children self (validate metadata) in
            if ok : bool then
              let! r := child_insert child_ref kv.1 kv.2 in
              match r with
              | inl r => internal_inserted calls self r (Some child_key) child_ptr child child_ref
              | inr kv => Ret (Break (inr kv))
              end
            else Ret (Continue kv)
        | None => Ret (Continue kv)
        end
    | None =>
        let! c := unbounded_child self in
        let! unbounded_ptr := at_cell c shared_load in
        match unbounded_ptr.1 with
        | Some unbounded =>
            dassert (bool_decide (unbounded_ptr.2 = Tag.None)) ;;
            let! ok := at_children self (validate metadata) in
            if negb ok then Ret (Continue kv)
            else
              let! r := child_insert unbounded kv.1 kv.2 in
              match r with
              | inl r => internal_inserted calls self r None unbounded_ptr c unbounded
              | inr kv => Ret (Break (inr kv))
              end
        | None =>
            dassert (bool_decide (unbounded_ptr.2 = RETIRED)) ;;
            Ret (Break (inl (Retired kv.1 kv.2)))
        end
    end) (key, val).

(** What [remove_if] does with the result of the removal from a child. *)
Definition internal_removed (calls : children_calls) self key (r : RemoveResult) : prog (tree K V) RemoveResult :=
  match r with
  | RCleanup =>
      let! cleaned := internal_cleanup_link (λ child b, call_cleanup_link calls child key b) self key false in
      Ret (if cleaned : bool then RSuccess else RCleanup)
  | RRetired => internal_coalesce self
  | r => Ret r
  end.

Definition internal_remove_if (calls : children_calls)
    (child_remove_if : nat → K → (V → bool) → prog (tree K V) (RemoveResult + unit))
    self key (condition : V → bool) : prog (tree K V) (RemoveResult + unit) :=
  loop n (λ _ : unit,
    let! r := at_children self (min_greater_equal key) in
    let metadata := r.2 in
    match r.1 with
    | Some (_, child) =>
        let! p := at_cell child shared_load in
        match p.1 with
        | Some child =>
            let! ok := at_children self (validate metadata) in
            if ok : bool then
              let! r := child_remove_if child key condition in
              match r with
              | inl r => let! r := internal_removed calls self key r in Ret (Break (inl r))
              | inr e => Ret (Break (inr e))
              end
            else Ret (Continue ())
        | None => Ret (Continue ())
        end
    | None =>
        let! c := unbounded_child self in
        let! unbounded_ptr := at_cell c shared_load in
        match unbounded_ptr.1 with
        | Some unbounded =>
            dassert (bool_decide (unbounded_ptr.2 = Tag.None)) ;;
            let! ok := at_children self (validate metadata) in
            if negb ok then Ret (Continue ())
            else
              let! r := child_remove_if unbounded key condition in
              match r with
              | inl r => let! r := internal_removed calls self key r in Ret (Break (inl r))
              | inr e => Ret (Break (inr e))
              end
        | None => Ret (Break (inl RFail))
        end
    end) ().

(** ** Nodes of either kind *)

Fixpoint node_search (d : nat) self key : prog (tree K V) (option V) :=
  match d with
  | O => OutOfFuel
  | S d =>
      let! node := node_at self in
      match node with
      | InternalN _ => internal_search (λ child, node_search d child key) self key
      | LeafN _ => leaf_node_search n self key
      end
  end.

Fixpoint node_min (d : nat) self : prog (tree K V) (option TreeScanner) :=
  match d with
  | O => OutOfFuel
  | S d =>
      let! node := node_at self in
      match node with
      | InternalN _ => internal_min (node_min d) self
      | LeafN _ => leaf_node_min n self
      end
  end.

Fixpoint node_max_le_appr (d : nat) self key : prog (tree K V) (option TreeScanner) :=
  match d with
  | O => OutOfFuel
  | S d =>
      let! node := node_at self in
      match node with
      | InternalN _ => internal_max_le_appr (λ child, node_max_le_appr d child key) (node_min d) self key
      | LeafN _ => leaf_node_max_le_appr n self key
      end
  end.

Fixpoint node_depth (d : nat) self (depth : Z) : prog (tree K V) Z :=
  match d with
  | O => OutOfFuel
  | S d =>
      let! node := node_at self in
      match node with
      | InternalN _ =>
          let! c := unbounded_child self in
          let! p := at_cell c shared_load in
          match p.1 with
          | Some unbounded => node_depth d unbounded (depth + 1)
          | None => Ret depth
          end
      | LeafN _ => Ret depth
      end
  end.

Fixpoint node_cleanup_link (d : nat) self key (traverse_max : bool) : prog (tree K V) bool :=
  match d with
  | O => OutOfFuel
  | S d =>
      let! node := node_at self in
      match node with
      | InternalN _ => internal_cleanup_link (λ child b, node_cleanup_link d child key b) self key traverse_max
      | LeafN _ => leaf_node_cleanup_link n self key traverse_max
      end
  end.

Fixpoint node_commit (d : nat) self : prog (tree K V) unit :=
  match d with
  | O => OutOfFuel
  | S d =>
      let! node := node_at self in
      match node with
      | InternalN _ => internal_commit (node_commit d) self
      | LeafN _ => leaf_node_commit self
      end
  end.

Fixpoint node_rollback (d : nat) self : prog (tree K V) unit :=
  match d with
  | O => OutOfFuel
  | S d =>
      let! node := node_at self in
      match node with
      | InternalN _ => internal_rollback (node_rollback d) self
      | LeafN _ => leaf_node_rollback self
      end
  end.

Definition node_calls (d : nat) : children_calls :=
  {| call_cleanup_link := node_cleanup_link d; call_commit := node_commit d; call_rollback := node_rollback d |}.

Fixpoint node_insert (d : nat) self key val : prog (tree K V) (InsertResult K V + K * V) :=
  match d with
  | O => OutOfFuel
  | S d =>
      let! node := node_at self in
      match node with
      | InternalN _ => internal_insert (node_calls d) (node_insert d) self key val
      | LeafN _ => leaf_node_insert n self key val
      end
  end.

Fixpoint node_remove_if (d : nat) self key (condition : V → bool) : prog (tree K V) (RemoveResult + unit) :=
  match d with
  | O => OutOfFuel
  | S d =>
      let! node := node_at self in
      match node with
      | InternalN _ => internal_remove_if (node_calls d) (node_remove_if d) self key condition
      | LeafN _ => leaf_node_remove_if n self key condition
      end
  end.
End Node.
