(* ===== verification/TreeIndex.v ===== *)
(** * The tree index: [src/tree_index.rs]

    [TreeIndex] with its iterators, and the functions of [Node] on the root.  The fuel [n]
    bounds the iterations of a loop, [d] the depth of the tree. *)
From S2P Require Import Prelude Atomic Ord Tag AtomicShared LinkedList Dimension Leaf TreeStore TreeLeafNode TreeNode.

#[local] Existing Instance Tag.eq_dec.

Local Open Scope Z_scope.

(** [core::ops::Bound] *)
Inductive Bound (K : Type) := Included (k : K) | Excluded (k : K) | Unbounded.

Arguments Included {_} _.
Arguments Excluded {_} _.
Arguments Unbounded {_}.

Section TreeIndex.
Context {K V : Type} `{KeyOrd K} (n d : nat).

Implicit Types (key : K) (val : V).

(** ** The root *)

(** [Node::split_root] *)
Definition split_root key val : prog (tree K V) (K * V) :=
  let! new_root := new_internal_node in
  let! clone := at_root shared_clone in
  let! c := unbounded_child new_root in
  let! _ := at_cell c (shared_swap clone) in
  let! root_ptr := at_root shared_load in
  let! result := split_node n (node_commit d) (node_rollback d) new_root key val None root_ptr c true in
  match result with
  | inl (Retry key val) =>
      let! old := at_root (shared_swap (Some new_root, Tag.None)) in
      (match old.1 with
       | Some old_root =>
           internal_finish_split new_root ;;
           node_commit d old_root
       | None => Ret ()
       end) ;;
      Ret (key, val)
  | _ => Panic
  end.

(** The lock that [cleanup_root] holds: whether the root is an internal node. *)
Definition unlock_root (internal : bool) (root : nat) : prog (tree K V) unit :=
  if internal then internal_unlock root else leaf_node_unlock root.

(** [Node::cleanup_root] *)
Definition cleanup_root : prog (tree K V) bool :=
  let! root_ptr := at_root shared_load in
  loop n (λ root_ptr : Ptr,
    match root_ptr.1 with
    | None => Ret (Break true)
    | Some root_ref =>
        let! node := node_at root_ref in
        let internal := match node with InternalN _ => true | LeafN _ => false end in
        let! retired := node_retired root_ref in
        let! usable :=
          if retired : bool then Ret false
          else if internal then let! empty := at_children root_ref is_empty in Ret (negb empty) else Ret true in
        if usable : bool then Ret (Break true)
        else
          let! locked := if internal then internal_try_lock root_ref else leaf_node_try_lock root_ref in
          if negb locked then
            (if internal then internal_wait root_ref else leaf_node_wait root_ref) ;; Ret (Break false)
          else
            let! new_root_ptr := at_root shared_load in
            if negb (bool_decide (root_ptr = new_root_ptr)) then
              unlock_root internal root_ref ;; Ret (Continue new_root_ptr)
            else
              let! retired := node_retired root_ref in
              let! new_root :=
                if retired : bool then Ret (Some None)
                else if internal then
                  let! empty := at_children root_ref is_empty in
                  if empty : bool then
                    let! c := unbounded_child root_ref in
                    let! shared := at_cell c shared_get_shared in
                    Ret (Some shared)
                  else Ret None
                else Ret None in
              match new_root with
              | None => unlock_root internal root_ref ;; Ret (Break true)
              | Some new_root =>
                  let! _ := at_root (shared_swap (new_root, Tag.None)) in
                  (if internal then internal_retire root_ref else leaf_node_unlock root_ref) ;;
                  Ret (Continue (new_root, Tag.None))
              end
    end) root_ptr.

(** ** Insertion and removal *)

(** The result is [Ok(())], or the pair back. *)
Definition tree_insert key val : prog (tree K V) (unit + K * V) :=
  loop n (λ s : option nat * (K * V),
    let '(new_root, (key, val)) := s in
    let! p := at_root shared_load in
    let! r :=
      match p.1 with
      | None => Ret (Break (key, val))
      | Some root_ref =>
          let! r := node_insert n d root_ref key val in
          match r with
          | inl Success => Ret (Continue (inl (inl ())))
          | inl (Frozen k v) | inl (Retry k v) =>
              let! _ := node_cleanup_link n d root_ref k false in
              Ret (Break (k, v))
          | inl (Duplicate k v) => Ret (Continue (inl (inr (k, v))))
          | inl (Full k v) => let! kv := split_root k v in Ret (Continue (inr kv))
          | inl (Retired k v) => let! _ := cleanup_root in Ret (Break (k, v))
          | inr kv => Ret (Break kv)
          end
      end in
    match r with
    | Continue (inl result) => Ret (Break result)
    | Continue (inr kv) => Ret (Continue (new_root, kv))
    | Break kv =>
        let! node := match new_root with Some x => Ret x | None => new_leaf_node end in
        let! r := at_root (shared_compare_exchange ptr_null (Some node, Tag.None)) in
        match r with
        | inr (node, _) => Ret (Continue (node, kv))
        | inl _ => Ret (Continue (None, kv))
        end
    end) (None, (key, val)).

Definition tree_remove_if key (condition : V → bool) : prog (tree K V) bool :=
  loop n (λ removed : bool,
    let! p := at_root shared_load in
    match p.1 with
    | None => Ret (Break removed)
    | Some root_ref =>
        let! r := node_remove_if n d root_ref key condition in
        match r with
        | inr _ => Ret (Continue removed)
        | inl result =>
            (match result with
             | RCleanup => let! _ := node_cleanup_link n d root_ref key false in Ret ()
             | _ => Ret ()
             end) ;;
            match result with
            | RSuccess => Ret (Break true)
            | RCleanup | RRetired =>
                let! cleaned := cleanup_root in
                if cleaned : bool then Ret (Break true) else Ret (Continue true)
            | RFail =>
                if removed then
                  let! cleaned := cleanup_root in
                  if cleaned : bool then Ret (Break true) else Ret (Continue removed)
                else Ret (Break false)
            | RFrozen => Ret (Continue removed)
            end
        end
    end) false.

Definition tree_remove key : prog (tree K V) bool := tree_remove_if key (λ _, true).

(** ** Queries *)

Definition tree_peek key : prog (tree K V) (option V) :=
  let! p := at_root shared_load in
  match p.1 with
  | Some root_ref => node_search n d root_ref key
  | None => Ret None
  end.

Definition tree_peek_with {R} key (reader : K → V → R) : prog (tree K V) (option R) :=
  let! r := tree_peek key in Ret (reader key <$> r).

Definition tree_contains key : prog (tree K V) bool :=
  let! r := tree_peek key in Ret (bool_decide (is_Some r)).

Definition tree_clear : prog (tree K V) unit :=
  let! _ := at_root (shared_swap ptr_null) in Ret ().

Definition tree_depth : prog (tree K V) Z :=
  let! p := at_root shared_load in
  match p.1 with
  | Some root_ref => node_depth d root_ref 1
  | None => Ret 0
  end.

(** ** Iterators *)

(** [Iter::next]: the item, and [leaf_scanner] afterwards. *)
Definition iter_next (leaf_scanner : option TreeScanner) : prog (tree K V) (option (K * V) * option TreeScanner) :=
  let! start :=
    match leaf_scanner with
    | Some sc => Ret (Some (Some sc))
    | None =>
        let! p := at_root shared_load in
        match p.1 with
        | Some root_ref => let! sc := node_min n d root_ref in Ret (Some sc)
        | None => Ret None
        end
    end in
  match start with
  | None => Ret (None, None)
  | Some None => Ret (None, None)
  | Some (Some scanner) =>
      let! e := tree_scanner_get scanner in
      let! r := tree_scanner_next scanner in
      match r.1 with
      | Some result => Ret (Some result, Some r.2)
      | None =>
          let! j := jump n r.2 (fst <$> e) in
          match j with
          | Some new_scanner =>
              let! e := tree_scanner_get new_scanner in
              match e with
              | Some entry => Ret (Some entry, Some new_scanner)
              | None => Ret (None, None)
              end
          | None => Ret (None, None)
          end
      end
  end.

(** [for entry in self.iter(&guard)] *)
Definition tree_iter {A R} (body : K * V → A → prog (tree K V) (flow A R)) (a : A) : prog (tree K V) (flow A R) :=
  loop n (λ s : option TreeScanner * A,
    let! r := iter_next s.1 in
    match r.1 with
    | None => Ret (Break (Continue s.2))
    | Some entry =>
        let! x := body entry s.2 in
        match x with
        | Continue a => Ret (Continue (r.2, a))
        | Break b => Ret (Break (Break b))
        end
    end) (None, a).

(** [self.iter(&guard).count()] *)
Definition tree_len : prog (tree K V) Z :=
  let! r := tree_iter (R := Empty_set) (λ _ count, Ret (Continue (count + 1))) 0 in
  match r with Continue count => Ret count | Break e => match e with end end.

(** [!self.iter(&guard).any(|_| true)] *)
Definition tree_is_empty : prog (tree K V) bool :=
  let! r := tree_iter (λ _ _, Ret (Break ())) () in
  Ret (match r with Break _ => false | Continue _ => true end).

(** [Range] *)
Record TreeRange := {
  range_scanner : option TreeScanner;
  range_start : Bound K;
  range_end : Bound K;
  check_lower_bound : bool;
  check_upper_bound : bool
}.

Definition range_new (start_bound end_bound : Bound K) : TreeRange :=
  {| range_scanner := None; range_start := start_bound; range_end := end_bound; check_lower_bound := true; check_upper_bound := false |}.

Definition set_range_scanner (sc : option TreeScanner) (r : TreeRange) : TreeRange :=
  {| range_scanner := sc; range_start := range_start r; range_end := range_end r;
     check_lower_bound := check_lower_bound r; check_upper_bound := check_upper_bound r |}.

Definition set_check_lower (b : bool) (r : TreeRange) : TreeRange :=
  {| range_scanner := range_scanner r; range_start := range_start r; range_end := range_end r;
     check_lower_bound := b; check_upper_bound := check_upper_bound r |}.

Definition set_check_upper_bound (scanner : TreeScanner) (r : TreeRange) : prog (tree K V) TreeRange :=
  let! b :=
    match range_end r with
    | Excluded key =>
        let! m := tree_scanner_max_key scanner in
        Ret (match m with Some max_key => negb (bool_decide (cmp max_key key = Lt)) | None => false end)
    | Included key =>
        let! m := tree_scanner_max_key scanner in
        Ret (match m with Some max_key => bool_decide (cmp max_key key = Gt) | None => false end)
    | Unbounded => Ret false
    end in
  Ret {| range_scanner := range_scanner r; range_start := range_start r; range_end := range_end r;
         check_lower_bound := check_lower_bound r; check_upper_bound := b |}.

(** [while scanner.get().is_none() { scanner = scanner.jump(None, self.guard)?; }] *)
Definition skip_empty (scanner : TreeScanner) : prog (tree K V) (option TreeScanner) :=
  loop n (λ scanner : TreeScanner,
    let! e := tree_scanner_get scanner in
    match e with
    | Some _ => Ret (Break (Some scanner))
    | None =>
        let! j := jump n scanner None in
        match j with Some sc => Ret (Continue sc) | None => Ret (Break None) end
    end) scanner.

(** The start of the scan in [next_unbounded]: [Break] is an early return. *)
Definition range_begin (self : TreeRange) : prog (tree K V) (flow TreeRange (option (K * V) * TreeRange)) :=
  match range_scanner self with
  | Some _ => Ret (Continue self)
  | None =>
      let! p := at_root shared_load in
      match p.1 with
      | None => Ret (Continue self)
      | Some root_ref =>
          let min_allowed_key := match range_start self with Excluded key | Included key => Some key | Unbounded => None end in
          let self := match range_start self with Unbounded => set_check_lower false self | _ => self end in
          let! leaf_scanner :=
            match min_allowed_key with
            | Some key => node_max_le_appr n d root_ref key
            | None => Ret None
            end in
          let! leaf_scanner :=
            match leaf_scanner with
            | Some sc => Ret (Some (Some sc))
            | None =>
                let! m := node_min n d root_ref in
                match m with
                | Some scanner =>
                    let! r := tree_scanner_next scanner in
                    let! sc := skip_empty r.2 in
                    Ret (match sc with Some sc => Some (Some sc) | None => None end)
                | None => Ret (Some None)
                end
            end in
          match leaf_scanner with
          | None => Ret (Break (None, self))
          | Some None => Ret (Continue self)
          | Some (Some leaf_scanner) =>
              let! e := tree_scanner_get leaf_scanner in
              match e with
              | Some result =>
                  let! self := set_check_upper_bound leaf_scanner self in
                  Ret (Break (Some result, set_range_scanner (Some leaf_scanner) self))
              | None => Ret (Continue self)
              end
          end
      end
  end.

Definition range_next_unbounded (self : TreeRange) : prog (tree K V) (option (K * V) * TreeRange) :=
  let! r := range_begin self in
  match r with
  | Break x => Ret x
  | Continue self =>
      match range_scanner self with
      | None => Ret (None, self)
      | Some leaf_scanner =>
          let self := set_range_scanner None self in
          let! e := tree_scanner_get leaf_scanner in
          let! r := tree_scanner_next leaf_scanner in
          match r.1 with
          | Some result => Ret (Some result, set_range_scanner (Some r.2) self)
          | None =>
              let! j := jump n r.2 (fst <$> e) in
              match j with
              | Some new_scanner =>
                  let! e := tree_scanner_get new_scanner in
                  match e with
                  | Some entry =>
                      let! self := set_check_upper_bound new_scanner self in
                      Ret (Some entry, set_range_scanner (Some new_scanner) self)
                  | None => Ret (None, self)
                  end
              | None => Ret (None, self)
              end
          end
      end
  end.

(** [Range::next] *)
Definition range_next (self : TreeRange) : prog (tree K V) (option (K * V) * TreeRange) :=
  loop n (λ self : TreeRange,
    let! r := range_next_unbounded self in
    let self := r.2 in
    match r.1 with
    | None => Ret (Break (None, self))
    | Some (k, v) =>
        let below :=
          check_lower_bound self &&
          match range_start self with
          | Excluded key => negb (bool_decide (cmp k key = Gt))
          | Included key => bool_decide (cmp k key = Lt)
          | Unbounded => false
          end in
        if below then Ret (Continue self)
        else
          let self := set_check_lower false self in
          if check_upper_bound self then
            let within :=
              match range_end self with
              | Excluded key => bool_decide (cmp k key = Lt)
              | Included key => negb (bool_decide (cmp k key = Gt))
              | Unbounded => true
              end in
            Ret (Break (if within then Some (k, v) else None, self))
          else Ret (Break (Some (k, v), self))
    end) self.

(** [for entry in self.range(range, &guard)], collected. *)
Definition tree_range (start_bound end_bound : Bound K) : prog (tree K V) (list (K * V)) :=
  loop n (λ s : TreeRange * list (K * V),
    let! r := range_next s.1 in
    match r.1 with
    | None => Ret (Break s.2)
    | Some e => Ret (Continue (r.2, s.2 ++ [e]))
    end) (range_new start_bound end_bound, []).
End TreeIndex.
