(* ===== verification/TreeRep.v ===== *)
(** * Trees in memory: addresses, shapes, footprints *)
From stdpp Require Import sorting.
From S2P Require Import Prelude Atomic Ord Tag AtomicShared LinkedList Dimension Leaf LeafInv LeafState LeafSeq LeafScan TreeStore TreeLeafNode.

#[local] Existing Instance Tag.eq_dec.

(** ** What is at an address of a tree

    [view] gives what an address holds, [writes] and [allocates] say what an instruction
    changes.  The rules for the instructions of the tree, a thread being alone, leave the new
    state abstract. *)

(** The rule of loops that end: [J m b s] holds before an iteration after which there are
    [m] at most. *)
Lemma runs_loop_down {St B R} (J : nat → B → St → Prop) n m (body : B → prog St (flow B R)) b s Q :
  J m b s → (m < n)%nat →
  (∀ m b s, J m b s → runs (body b) s (λ x s',
    match x with Continue b' => ∃ m', (m' < m)%nat ∧ J m' b' s' | Break r => Q r s' end)) →
  runs (loop n body b) s Q.
Proof.
  intros HJ Hn Hbody. induction n as [| n IH] in m, b, s, HJ, Hn |- *; [lia |]. apply runs_loop.
  eapply runs_mono; [| by apply Hbody]. intros [b' | r] s'; [| done]. intros (m' & Hm & HJ'). apply (IH m'); [done | lia].
Qed.

(** A call at the end of a program. *)
Lemma runs_tail {St R} (p : prog St R) s Q : runs (let! r := p in Ret r) s Q → runs p s Q.
Proof. unfold runs. rewrite run_bind. by destruct (run p s). Qed.

Lemma runs_of_bind {St R1 R2} (p : prog St R1) (k : R1 → prog St R2) s Q :
  runs (bind p k) s Q → runs p s (λ r s', runs (k r) s' Q).
Proof. unfold runs. rewrite run_bind. by destruct (run p s). Qed.

(** A [for] loop over two lists. *)
Lemma runs_for_each_app {St X B R} (l1 l2 : list X) (body : X → B → prog St (flow B R)) b s (Q : flow B R → St → Prop) :
  runs (Atomic.for_each l1 body b) s (λ r s', match r with Continue b' => runs (Atomic.for_each l2 body b') s' Q | Break r => Q (Break r) s' end) →
  runs (Atomic.for_each (l1 ++ l2) body b) s Q.
Proof.
  induction l1 as [| x l1 IH] in b, s |- *; cbn [Atomic.for_each app]; [done |]. intros Hr. apply runs_of_bind in Hr. apply runs_bind.
  eapply runs_mono; [| exact Hr]. by intros [b' | r] s'; [apply IH |].
Qed.

(** An address: of a leaf, a node or an [AtomicShared]. *)
Inductive addr := ALeaf (l : nat) | ANode (i : nat) | ACell (c : nat).

#[export] Instance addr_eq_dec : EqDecision addr.
Proof. solve_decision. Defined.

Section Mem.
Context {K V : Type} `{KeyOrd K}.

Implicit Types (s : tree K V) (a : addr) (l i c : nat) (p : Ptr) (b : leaf K V) (nd : Node K).

Inductive stored :=
  | VLeaf (b : leaf K V)
  | VNode (nd : Node K)
  | VCell (p : Ptr).

Definition view s a : option stored :=
  match a with
  | ALeaf l => VLeaf <$> leaf_at l s
  | ANode i => VNode <$> nodes s !! i
  | ACell c => VCell <$> cells s !! c
  end.

(** An instruction that writes [v] at [a], which is allocated. *)
Record writes a (v : stored) s s' : Prop := {
  w_view a' : view s' a' = if decide (a' = a) then Some v else view s a';
  w_link l : link_ref l s' = link_ref l s;
  w_root : root s' = root s;
  w_leaves : length (leaves s') = length (leaves s)
}.

(** An allocation at [a]. *)
Record allocates a (v : stored) s s' : Prop := {
  al_fresh : view s a = None;
  al_view a' : view s' a' = if decide (a' = a) then Some v else view s a';
  al_link l : link_ref l s' = if decide (a = ALeaf l) then Some ptr_null else link_ref l s;
  al_root : root s' = root s;
  al_leaves : length (leaves s') = (length (leaves s) + if a is ALeaf _ then 1 else 0)%nat
}.

(** ** The parts of the state *)

Lemma alter_alter {A} (f g : A → A) (k : nat) (m : list A) : alter f k (alter g k m) = alter (f ∘ g) k m.
Proof.
  apply list_eq. intros j. destruct (decide (j = k)) as [-> | Hne].
  - rewrite !list_lookup_alter_eq. by destruct (m !! k).
  - by rewrite !list_lookup_alter_ne.
Qed.

Lemma list_alter_same {A} (f : A → A) (k : nat) (m : list A) : (∀ x, m !! k = Some x → f x = x) → alter f k m = m.
Proof.
  intros Hf. apply list_eq. intros j. destruct (decide (j = k)) as [-> | Hne].
  - rewrite list_lookup_alter_eq. destruct (m !! k) eqn:Hk; [| done]. cbn. by rewrite Hf.
  - by rewrite list_lookup_alter_ne.
Qed.

#[export] Instance leaf_part l : Part (leaf_at l) (put_leaf (K := K) (V := V) l).
Proof.
  constructor; unfold leaf_at, put_leaf.
  - intros s b b' Hb. cbn. rewrite list_lookup_alter_eq. by destruct (leaves s !! l).
  - intros s b b1 b2 _. cbn. unfold set_leaves. cbn. by rewrite alter_alter.
  - intros [lv nd cl rt] b Hb. unfold set_leaves. cbn in *. f_equal. apply list_alter_same. intros [b0 p] Hx. rewrite Hx in Hb.
    by injection Hb as ->.
Qed.

#[export] Instance tree_link_laws : LinkLaws (tree K V).
Proof.
  constructor.
  - intros l. constructor; cbn.
    + intros s b b' Hb. rewrite list_lookup_alter_eq. by destruct (leaves s !! l).
    + intros s b b1 b2 _. unfold set_leaves. cbn. by rewrite alter_alter.
    + intros [lv nd cl rt] b Hb. unfold set_leaves. cbn in *. f_equal. apply list_alter_same. intros [b0 p] Hx. rewrite Hx in Hb.
      by injection Hb as ->.
  - intros e e' p s Hne. cbn. by rewrite list_lookup_alter_ne.
Qed.

#[export] Instance cell_part c : Part (cell_at c) (put_cell (K := K) (V := V) c).
Proof.
  constructor; unfold cell_at, put_cell; cbn.
  - intros s b b' Hb. apply list_lookup_insert_eq. by eapply lookup_lt_Some.
  - intros s b b1 b2 _. unfold set_cells. cbn. by rewrite list_insert_insert_eq.
  - intros [lv nd cl rt] b Hb. unfold set_cells. cbn in *. f_equal. by apply list_insert_id.
Qed.

#[export] Instance children_part i : Part (children_at i) (put_children (K := K) (V := V) i).
Proof.
  constructor; unfold children_at, put_children; cbn.
  - intros s b b' Hb. rewrite list_lookup_alter_eq. destruct (nodes s !! i) as [[] |]; by inversion Hb.
  - intros s b b1 b2 _. unfold set_nodes. cbn. rewrite alter_alter. f_equal. apply list_alter_ext; [| done].
    by intros [] _.
  - intros [lv nd cl rt] b Hb. unfold set_nodes. cbn in *. f_equal. apply list_alter_same. intros x Hx. rewrite Hx in Hb.
    by destruct x as [[] | []]; injection Hb as <-.
Qed.

#[export] Instance leaf_node_part i : Part (leaf_node_at i) (put_leaf_node (K := K) (V := V) i).
Proof.
  constructor; unfold leaf_node_at, put_leaf_node; cbn.
  - intros s b b' Hb. rewrite list_lookup_insert_eq; [done |]. destruct (nodes s !! i) eqn:Hi; [| done]. by eapply lookup_lt_Some.
  - intros s b b1 b2 _. unfold set_nodes. cbn. by rewrite list_insert_insert_eq.
  - intros [lv nd cl rt] b Hb. unfold set_nodes. cbn in *. f_equal. apply list_insert_id. by destruct (nd !! i) as [[] |]; inversion Hb.
Qed.

#[export] Instance internal_node_part i : Part (internal_node_at i) (put_internal_node (K := K) (V := V) i).
Proof.
  constructor; unfold internal_node_at, put_internal_node; cbn.
  - intros s b b' Hb. rewrite list_lookup_insert_eq; [done |]. destruct (nodes s !! i) eqn:Hi; [| done]. by eapply lookup_lt_Some.
  - intros s b b1 b2 _. unfold set_nodes. cbn. by rewrite list_insert_insert_eq.
  - intros [lv nd cl rt] b Hb. unfold set_nodes. cbn in *. f_equal. apply list_insert_id. by destruct (nd !! i) as [[] |]; inversion Hb.
Qed.

#[export] Instance root_part : Part (λ s, Some (root s)) (set_root (K := K) (V := V)).
Proof. constructor; [done | done |]. by intros [lv nd cl rt] b [= <-]. Qed.

(** ** What the instructions write *)

Lemma writes_leaf l b b' s : view s (ALeaf l) = Some (VLeaf b) → writes (ALeaf l) (VLeaf b') s (put_leaf l b' s).
Proof.
  cbn. unfold leaf_at. intros Hb. destruct (leaves s !! l) as [x |] eqn:Hx; [| done]. constructor.
  - intros [l' | i | c]; [| by rewrite decide_False..]. cbn. unfold leaf_at. cbn. destruct (decide (l' = l)) as [-> | Hne].
    + rewrite decide_True by done. by rewrite list_lookup_alter_eq, Hx.
    + rewrite decide_False by congruence. by rewrite list_lookup_alter_ne.
  - intros l'. cbn. destruct (decide (l' = l)) as [-> | Hne]; [by rewrite list_lookup_alter_eq, Hx | by rewrite list_lookup_alter_ne].
  - done.
  - cbn. by rewrite length_alter.
Qed.

Lemma writes_cell c p p' s : view s (ACell c) = Some (VCell p) → writes (ACell c) (VCell p') s (put_cell c p' s).
Proof.
  cbn. intros Hp. destruct (cells s !! c) as [x |] eqn:Hx; [| done]. constructor; [| done..].
  intros [l | i | c']; [by rewrite decide_False.. |]. cbn. destruct (decide (c' = c)) as [-> | Hne].
  - rewrite decide_True by done. rewrite list_lookup_insert_eq; [done | by eapply lookup_lt_Some].
  - rewrite decide_False by congruence. by rewrite list_lookup_insert_ne.
Qed.

Lemma writes_node i nd nd' s :
  view s (ANode i) = Some (VNode nd) → writes (ANode i) (VNode nd') s (set_nodes (<[i := nd']> (nodes s)) s).
Proof.
  cbn. intros Hn. destruct (nodes s !! i) as [x |] eqn:Hx; [| done]. constructor; [| done..].
  intros [l | i' | c]; [by rewrite decide_False | | by rewrite decide_False]. cbn. destruct (decide (i' = i)) as [-> | Hne].
  - rewrite decide_True by done. rewrite list_lookup_insert_eq; [done | by eapply lookup_lt_Some].
  - rewrite decide_False by congruence. by rewrite list_lookup_insert_ne.
Qed.

Lemma writes_children i nd ch s :
  view s (ANode i) = Some (VNode nd) → writes (ANode i) (VNode (set_children ch nd)) s (put_children i ch s).
Proof.
  intros Hn. replace (put_children i ch s) with (set_nodes (<[i := set_children ch nd]> (nodes s)) s); [by eapply writes_node |].
  cbn in Hn. destruct (nodes s !! i) as [x |] eqn:Hx; [| done]. injection Hn as ->. unfold put_children. f_equal.
  apply list_eq. intros j. destruct (decide (j = i)) as [-> | Hne].
  - rewrite list_lookup_insert_eq by (by eapply lookup_lt_Some). by rewrite list_lookup_alter_eq, Hx.
  - by rewrite list_lookup_insert_ne, list_lookup_alter_ne.
Qed.

Lemma view_link l p s a : view (set_link l p s) a = view s a.
Proof.
  destruct a as [l' | i | c]; [| done..]. cbn. unfold leaf_at. cbn. destruct (decide (l' = l)) as [-> | Hne].
  - rewrite list_lookup_alter_eq. by destruct (leaves s !! l).
  - by rewrite list_lookup_alter_ne.
Qed.

Lemma link_live l s : is_Some (link_ref l s) ↔ is_Some (view s (ALeaf l)).
Proof. cbn. unfold leaf_at. by rewrite !fmap_is_Some. Qed.

Lemma view_None_leaf l s : view s (ALeaf l) = None ↔ (length (leaves s) ≤ l)%nat.
Proof. cbn. unfold leaf_at. by rewrite !fmap_None, lookup_ge_None. Qed.

Lemma lookup_snoc {A} (m : list A) (x : A) j :
  (m ++ [x]) !! j = if decide (j = length m) then Some x else m !! j.
Proof.
  destruct (decide (j = length m)) as [-> |]; [by rewrite list_lookup_middle |].
  destruct (decide (j < length m)%nat); [by rewrite lookup_app_l |].
  rewrite lookup_app_r by lia. rewrite (lookup_ge_None_2 m) by lia. apply lookup_ge_None_2. cbn. lia.
Qed.

Lemma allocates_leaf b s :
  allocates (ALeaf (length (leaves s))) (VLeaf b) s (set_leaves (leaves s ++ [{| body := b; link := ptr_null |}]) s).
Proof.
  constructor.
  - by apply view_None_leaf.
  - intros [l | i | c]; [| by rewrite decide_False..]. cbn. unfold leaf_at. cbn. rewrite lookup_snoc.
    destruct (decide (l = length (leaves s))) as [-> | Hne]; [by rewrite decide_True | by rewrite decide_False by congruence].
  - intros l. cbn. rewrite lookup_snoc. destruct (decide (l = length (leaves s))) as [-> | Hne]; [by rewrite decide_True | by rewrite decide_False by congruence].
  - done.
  - cbn. rewrite length_app. done.
Qed.

Lemma allocates_cell p s : allocates (ACell (length (cells s))) (VCell p) s (set_cells (cells s ++ [p]) s).
Proof.
  constructor; [| | done | done | cbn; lia].
  - cbn. rewrite fmap_None. by apply lookup_ge_None_2.
  - intros [l | i | c]; [by rewrite decide_False.. |]. cbn. rewrite lookup_snoc.
    destruct (decide (c = length (cells s))) as [-> | Hne]; [by rewrite decide_True | by rewrite decide_False by congruence].
Qed.

Lemma allocates_node nd s : allocates (ANode (length (nodes s))) (VNode nd) s (set_nodes (nodes s ++ [nd]) s).
Proof.
  constructor; [| | done | done | cbn; lia].
  - cbn. rewrite fmap_None. by apply lookup_ge_None_2.
  - intros [l | i | c]; [by rewrite decide_False | | by rewrite decide_False]. cbn. rewrite lookup_snoc.
    destruct (decide (i = length (nodes s))) as [-> | Hne]; [by rewrite decide_True | by rewrite decide_False by congruence].
Qed.

(** ** The rules of the instructions *)

Section Rules.
Context {R : Type} (Q : R → tree K V → Prop).

Lemma view_leaf l b s : view s (ALeaf l) = Some (VLeaf b) ↔ leaf_at l s = Some b.
Proof. cbn. destruct (leaf_at l s); cbn; naive_solver. Qed.

Lemma view_cell c p s : view s (ACell c) = Some (VCell p) ↔ cell_at c s = Some p.
Proof. cbn. unfold cell_at. destruct (cells s !! c); cbn; naive_solver. Qed.

Lemma view_node i nd s : view s (ANode i) = Some (VNode nd) ↔ nodes s !! i = Some nd.
Proof. cbn. destruct (nodes s !! i); cbn; naive_solver. Qed.

Lemma view_children i nd s : view s (ANode i) = Some (VNode nd) → children_at i s = Some (children_of nd).
Proof. intros Hn%view_node. unfold children_at. by rewrite Hn. Qed.

(** A function of a leaf. *)
Lemma runs_leaf_call {A} l b (P : prog (leaf K V) A) (φ : A → leaf K V → Prop) (k : A → prog (tree K V) R) s :
  view s (ALeaf l) = Some (VLeaf b) → runs P b φ →
  (∀ r b' s', φ r b' → writes (ALeaf l) (VLeaf b') s s' → runs (k r) s' Q) →
  runs (let! r := at_leaf l P in k r) s Q.
Proof.
  intros Hb HP Hk. apply runs_bind. eapply runs_zoom; [apply _ | by apply view_leaf |].
  eapply runs_mono; [| exact HP]. intros r b' Hφ. eapply Hk; [exact Hφ | by eapply writes_leaf].
Qed.

Lemma runs_leaf_read {A} l b (P : prog (leaf K V) A) (φ : A → Prop) (k : A → prog (tree K V) R) s :
  view s (ALeaf l) = Some (VLeaf b) → runs P b (λ r b', b' = b ∧ φ r) →
  (∀ r, φ r → runs (k r) s Q) → runs (let! r := at_leaf l P in k r) s Q.
Proof.
  intros Hb HP Hk. apply runs_bind. eapply runs_zoom; [apply _ | by apply view_leaf |].
  eapply runs_mono; [| exact HP]. intros r b' [-> Hφ]. rewrite (part_put_get s b (proj1 (view_leaf _ _ _) Hb)). by apply Hk.
Qed.

(** A function of the children of a node. *)
Lemma runs_children_call {A} i nd (P : prog (leaf K nat) A) (φ : A → leaf K nat → Prop) (k : A → prog (tree K V) R) s :
  view s (ANode i) = Some (VNode nd) → runs P (children_of nd) φ →
  (∀ r ch s', φ r ch → writes (ANode i) (VNode (set_children ch nd)) s s' → runs (k r) s' Q) →
  runs (let! r := at_children i P in k r) s Q.
Proof.
  intros Hb HP Hk. apply runs_bind. eapply runs_zoom; [apply _ | by apply view_children |].
  eapply runs_mono; [| exact HP]. intros r b' Hφ. eapply Hk; [exact Hφ | by apply writes_children].
Qed.

Lemma runs_children_read {A} i nd (P : prog (leaf K nat) A) (φ : A → Prop) (k : A → prog (tree K V) R) s :
  view s (ANode i) = Some (VNode nd) → runs P (children_of nd) (λ r ch, ch = children_of nd ∧ φ r) →
  (∀ r, φ r → runs (k r) s Q) → runs (let! r := at_children i P in k r) s Q.
Proof.
  intros Hb HP Hk. apply runs_bind. eapply runs_zoom; [apply _ | by apply view_children |].
  eapply runs_mono; [| exact HP]. intros r b' [-> Hφ]. rewrite (part_put_get s _ (view_children _ _ _ Hb)). by apply Hk.
Qed.

(** Loads and stores of an [AtomicShared]. *)
Lemma runs_cell_load c p (k : Ptr → prog (tree K V) R) s :
  view s (ACell c) = Some (VCell p) → runs (k p) s Q → runs (let! r := at_cell c shared_load in k r) s Q.
Proof. intros Hp%view_cell. by apply (runs_shared_load (cell_at c) (put_cell c)). Qed.

Lemma runs_cell_tag c p (k : Tag.t → prog (tree K V) R) s :
  view s (ACell c) = Some (VCell p) → runs (k p.2) s Q → runs (let! r := at_cell c shared_tag in k r) s Q.
Proof. intros Hp%view_cell. by apply (runs_shared_tag (cell_at c) (put_cell c)). Qed.

Lemma runs_cell_get_shared c p (k : option nat → prog (tree K V) R) s :
  view s (ACell c) = Some (VCell p) → runs (k p.1) s Q → runs (let! r := at_cell c shared_get_shared in k r) s Q.
Proof. intros Hp%view_cell. by apply (runs_shared_get_shared (cell_at c) (put_cell c)). Qed.

Lemma runs_cell_clone c x (k : Ptr → prog (tree K V) R) s :
  view s (ACell c) = Some (VCell (Some x, Tag.None)) → runs (k (Some x, Tag.None)) s Q →
  runs (let! r := at_cell c shared_clone in k r) s Q.
Proof. intros Hp%view_cell Hk. by apply (runs_shared_clone (cell_at c) (put_cell c) _ _ _ _ Hp). Qed.

Lemma runs_cell_swap c p new (k : Ptr → prog (tree K V) R) s :
  view s (ACell c) = Some (VCell p) →
  (∀ s', writes (ACell c) (VCell new) s s' → runs (k p) s' Q) →
  runs (let! r := at_cell c (shared_swap new) in k r) s Q.
Proof.
  intros Hp Hk. eapply (runs_shared_swap (cell_at c) (put_cell c)); [by apply view_cell |].
  apply Hk. by eapply writes_cell.
Qed.

Lemma runs_cell_cas c p new (k : option nat * Ptr + option nat * Ptr → prog (tree K V) R) s :
  view s (ACell c) = Some (VCell p) →
  (∀ s', writes (ACell c) (VCell new) s s' → runs (k (inl (p.1, new))) s' Q) →
  runs (let! r := at_cell c (shared_compare_exchange p new) in k r) s Q.
Proof.
  intros Hp Hk. eapply (runs_shared_cas (cell_at c) (put_cell c)); [by apply view_cell |].
  apply Hk. by eapply writes_cell.
Qed.

(** Fields of a leaf node. *)
Lemma runs_leaf_node_act {A} i (x x' : LeafNode K) (a : A) f (k : A → prog (tree K V) R) s :
  view s (ANode i) = Some (VNode (LeafN x)) → f x = (a, x') →
  (∀ s', writes (ANode i) (VNode (LeafN x')) s s' → runs (k a) s' Q) →
  runs (let! r := at_leaf_node i (Act f Ret) in k r) s Q.
Proof.
  intros Hn Hf Hk. apply runs_bind. eapply runs_zoom; [apply _ | unfold leaf_node_at; by rewrite (proj1 (view_node _ _ _) Hn) |].
  apply runs_act. rewrite Hf. apply runs_ret. apply Hk. by eapply writes_node.
Qed.

Lemma runs_leaf_node_load {A} i (x : LeafNode K) (get : LeafNode K → A) (k : A → prog (tree K V) R) s :
  view s (ANode i) = Some (VNode (LeafN x)) → runs (k (get x)) s Q →
  runs (let! r := at_leaf_node i (load get) in k r) s Q.
Proof.
  intros Hn Hk. assert (Hx : leaf_node_at i s = Some x) by (unfold leaf_node_at; by rewrite (proj1 (view_node _ _ _) Hn)).
  apply runs_bind. eapply runs_zoom; [apply _ | exact Hx |]. apply runs_act. cbn. by rewrite (part_put_get s _ Hx).
Qed.

(** Fields of an internal node. *)
Lemma runs_internal_node_act {A} i (x x' : InternalNode K) (a : A) f (k : A → prog (tree K V) R) s :
  view s (ANode i) = Some (VNode (InternalN x)) → f x = (a, x') →
  (∀ s', writes (ANode i) (VNode (InternalN x')) s s' → runs (k a) s' Q) →
  runs (let! r := at_internal_node i (Act f Ret) in k r) s Q.
Proof.
  intros Hn Hf Hk. apply runs_bind. eapply runs_zoom; [apply _ | unfold internal_node_at; by rewrite (proj1 (view_node _ _ _) Hn) |].
  apply runs_act. rewrite Hf. apply runs_ret. apply Hk. by eapply writes_node.
Qed.

Lemma runs_internal_node_load {A} i (x : InternalNode K) (get : InternalNode K → A) (k : A → prog (tree K V) R) s :
  view s (ANode i) = Some (VNode (InternalN x)) → runs (k (get x)) s Q →
  runs (let! r := at_internal_node i (load get) in k r) s Q.
Proof.
  intros Hn Hk. assert (Hx : internal_node_at i s = Some x) by (unfold internal_node_at; by rewrite (proj1 (view_node _ _ _) Hn)).
  apply runs_bind. eapply runs_zoom; [apply _ | exact Hx |]. apply runs_act. cbn. by rewrite (part_put_get s _ Hx).
Qed.

Lemma runs_node_at i nd (k : Node K → prog (tree K V) R) s :
  view s (ANode i) = Some (VNode nd) → runs (k nd) s Q → runs (let! r := node_at i in k r) s Q.
Proof. intros Hn%view_node Hk. apply runs_act. cbn. by rewrite Hn. Qed.

Lemma runs_unbounded_child i nd (k : nat → prog (tree K V) R) s :
  view s (ANode i) = Some (VNode nd) → runs (k (unbounded_of nd)) s Q → runs (let! r := unbounded_child i in k r) s Q.
Proof. intros Hn%view_node Hk. apply runs_act. cbn. by rewrite Hn. Qed.

Lemma runs_alloc_leaf b (k : nat → prog (tree K V) R) s :
  (∀ l s', allocates (ALeaf l) (VLeaf b) s s' → runs (k l) s' Q) → runs (let! l := alloc_leaf b in k l) s Q.
Proof. intros Hk. apply runs_act. eapply Hk. apply allocates_leaf. Qed.

Lemma runs_alloc_cell p (k : nat → prog (tree K V) R) s :
  (∀ c s', allocates (ACell c) (VCell p) s s' → runs (k c) s' Q) → runs (let! c := alloc_cell p in k c) s Q.
Proof. intros Hk. apply runs_act. eapply Hk. apply allocates_cell. Qed.

Lemma runs_alloc_node nd (k : nat → prog (tree K V) R) s :
  (∀ i s', allocates (ANode i) (VNode nd) s s' → runs (k i) s' Q) → runs (let! i := alloc_node nd in k i) s Q.
Proof. intros Hk. apply runs_act. eapply Hk. apply allocates_node. Qed.
End Rules.
End Mem.

#[global] Arguments view : simpl never.

(** ** The shape of a tree, and its keys

    A [shape h] is a subtree of the height [h]: a leaf with its entries, or a node with its
    slots.  A slot has the key that bounds the keys of its child, unless it is the last one,
    and the address of its [AtomicShared].  [bounded] says that the keys are in order;
    everything here is a pure function of the shape. *)

Section Keys.
Context {K : Type} `{KeyOrd K}.

Implicit Types (k : K) (lo hi : option K).

(** ** Bounds *)

Definition above lo k : Prop := match lo with Some l => cmp l k = Lt | None => True end.
Definition below k hi : Prop := match hi with Some h => cmp k h = Lt | None => True end.
Definition upto k hi : Prop := match hi with Some h => cmp k h ≠ Gt | None => True end.

Lemma le_lt_eq a b : cmp a b ≠ Gt ↔ cmp a b = Lt ∨ a = b.
Proof. rewrite <-(cmp_eq a b). destruct (cmp a b); naive_solver. Qed.

Lemma ge_not_lt a b : cmp a b ≠ Lt ↔ cmp b a ≠ Gt.
Proof. rewrite (cmp_opp a b). destruct (cmp a b); naive_solver. Qed.

Lemma lt_le_trans a b c : cmp a b = Lt → cmp b c ≠ Gt → cmp a c = Lt.
Proof. intros Hab [Hbc | ->]%le_lt_eq; [by eapply cmp_trans | done]. Qed.

Lemma le_lt_trans a b c : cmp a b ≠ Gt → cmp b c = Lt → cmp a c = Lt.
Proof. intros [Hab | ->]%le_lt_eq Hbc; [by eapply cmp_trans | done]. Qed.

Lemma lt_not_ge a b : cmp a b = Lt → cmp b a ≠ Gt → False.
Proof. intros Ha Hb. rewrite (cmp_opp a b), Ha in Hb. done. Qed.

Lemma above_trans lo a b : above lo a → cmp a b = Lt → above lo b.
Proof. destruct lo; [apply cmp_trans | done]. Qed.

Lemma below_trans a b hi : cmp a b = Lt → below b hi → below a hi.
Proof. destruct hi; [apply cmp_trans | done]. Qed.

Lemma below_upto k hi : below k hi → upto k hi.
Proof. destruct hi; [| done]. cbn. by intros ->. Qed.

Lemma upto_below a b hi : cmp a b ≠ Gt → below b hi → below a hi.
Proof. destruct hi; [| done]. cbn. apply le_lt_trans. Qed.

(** [lo'] is not above [lo]; [hi'] is not below [hi]. *)
Definition lower lo' lo : Prop := ∀ k, above lo k → above lo' k.
Definition upper hi hi' : Prop := (∀ k, below k hi → below k hi') ∧ (∀ k, upto k hi → upto k hi').

Lemma lower_refl lo : lower lo lo.
Proof. by intros k. Qed.

Lemma upper_refl hi : upper hi hi.
Proof. done. Qed.

Lemma lower_above lo k : above lo k → lower lo (Some k).
Proof. intros Hk k' Hk'. by eapply above_trans. Qed.

Lemma upper_below k hi : below k hi → upper (Some k) hi.
Proof.
  intros Hk. split; intros k' Hk'; [by eapply below_trans |]. by apply below_upto, (upto_below k' k).
Qed.

(** ** Slots *)

Definition slot (A : Type) : Type := option K * nat * A.

Definition slot_key {A} (x : slot A) : option K := x.1.1.
Definition slot_cell {A} (x : slot A) : nat := x.1.2.

(** The upper bound of the child, in a node with the bound [hi]. *)
Definition slot_hi {A} (x : slot A) hi : option K := match slot_key x with Some k => Some k | None => hi end.

(** The entries of the [Leaf] that holds the children. *)
Definition keyed {A} (xs : list (slot A)) : list (K * nat) := omap (λ x, (λ k, (k, slot_cell x)) <$> slot_key x) xs.

Section Slots.
Context {A : Type} (B : A → option K → option K → Prop).

Implicit Types (x : slot A) (xs pre post : list (slot A)).

Fixpoint slots_ok xs lo hi : Prop :=
  match xs with
  | [] => False
  | x :: xs =>
      match slot_key x with
      | Some k => B x.2 lo (Some k) ∧ above lo k ∧ below k hi ∧ slots_ok xs (Some k) hi
      | None => xs = [] ∧ B x.2 lo hi
      end
  end.

Lemma slots_ok_None x xs lo hi : slot_key x = None → slots_ok (x :: xs) lo hi → xs = [] ∧ B x.2 lo hi.
Proof. cbn [slots_ok]. by intros ->. Qed.

Lemma slots_ok_Some x xs k lo hi : slot_key x = Some k → slots_ok (x :: xs) lo hi ↔ B x.2 lo (Some k) ∧ above lo k ∧ below k hi ∧ slots_ok xs (Some k) hi.
Proof. cbn [slots_ok]. by intros ->. Qed.

Lemma slots_ok_head x xs lo hi : slots_ok (x :: xs) lo hi → B x.2 lo (slot_hi x hi).
Proof. cbn [slots_ok]. unfold slot_hi. destruct (slot_key x); [by intros [? _] | by intros [_ ?]]. Qed.

(** Slots before the last one: the keys above [lo], and [lo'] for those after them. *)
Fixpoint span xs lo hi lo' : Prop :=
  match xs with
  | [] => lo = lo'
  | x :: xs =>
      match slot_key x with
      | Some k => B x.2 lo (Some k) ∧ above lo k ∧ below k hi ∧ span xs (Some k) hi lo'
      | None => False
      end
  end.

Lemma slots_ok_app pre xs lo hi : xs ≠ [] → slots_ok (pre ++ xs) lo hi ↔ ∃ lo', span pre lo hi lo' ∧ slots_ok xs lo' hi.
Proof.
  intros Hxs. revert lo. induction pre as [| x pre IH]; intros lo; cbn [app slots_ok span].
  - split; [intros Hok; by exists lo | by intros (lo' & -> & Hok)].
  - destruct (slot_key x) as [k |]; [rewrite IH; naive_solver |].
    split; [intros [[_ ?]%app_eq_nil _]; done | naive_solver].
Qed.

Lemma span_app pre xs lo hi lo' : span (pre ++ xs) lo hi lo' ↔ ∃ lo1, span pre lo hi lo1 ∧ span xs lo1 hi lo'.
Proof.
  revert lo. induction pre as [| x pre IH]; intros lo; cbn [app span].
  - split; [intros Hok; by exists lo | by intros (lo1 & -> & Hok)].
  - destruct (slot_key x) as [k |]; [rewrite IH; naive_solver | naive_solver].
Qed.

(** The last slot, and those before it. *)
Lemma slots_ok_last xs lo hi : slots_ok xs lo hi →
  ∃ pre x lo', xs = pre ++ [x] ∧ slot_key x = None ∧ span pre lo hi lo' ∧ B x.2 lo' hi.
Proof.
  revert lo. induction xs as [| x xs IH]; intros lo; cbn [slots_ok]; [done |].
  destruct (slot_key x) as [k |] eqn:Hk.
  - intros (HB & Hlo & Hhi & Hok). destruct (IH _ Hok) as (pre & y & lo' & -> & Hy & Hs & HBy).
    exists (x :: pre), y, lo'. cbn [app span]. rewrite Hk. by split_and!.
  - intros [-> HB]. by exists [], x, lo.
Qed.

Lemma span_lower pre lo hi lo' : span pre lo hi lo' → lower lo lo'.
Proof.
  revert lo. induction pre as [| x pre IH]; intros lo; cbn [span]; [intros ->; apply lower_refl |].
  destruct (slot_key x) as [k |]; [| done]. intros (_ & Hlo & _ & Hs) k' Hk'.
  eapply above_trans; [exact Hlo |]. by apply (IH _ Hs).
Qed.

Lemma span_key pre lo hi lo' : span pre lo hi lo' → pre = [] ∧ lo' = lo ∨ ∃ k, lo' = Some k ∧ above lo k ∧ below k hi.
Proof.
  revert lo. induction pre as [| x pre IH]; intros lo; cbn [span]; [auto |].
  destruct (slot_key x) as [k |]; [| done]. intros (_ & Hlo & Hhi & Hs). right.
  destruct (IH _ Hs) as [[-> ->] | (k' & -> & Hlo' & Hhi')]; [by exists k |]. exists k'. split; [done |].
  split; [by eapply above_trans | done].
Qed.

(** The keys of the slots of a span. *)
Lemma span_elem pre lo hi lo' x : span pre lo hi lo' → x ∈ pre →
  ∃ k lo1, slot_key x = Some k ∧ above lo k ∧ (∀ k', above lo' k' → cmp k k' = Lt) ∧ below k hi ∧ B x.2 lo1 (Some k) ∧ lower lo lo1.
Proof.
  revert lo. induction pre as [| y pre IH]; intros lo; cbn [span]; [by intros _ ?%not_elem_of_nil |].
  destruct (slot_key y) as [k |] eqn:Hk; [| done]. intros (HB & Hlo & Hhi & Hs) [-> | Hx]%elem_of_cons.
  - exists k, lo. split_and!; [done | done | | done | done | apply lower_refl]. intros k' Hk'. by apply (span_lower _ _ _ _ Hs).
  - destruct (IH _ Hs Hx) as (k' & lo1 & Hk' & Hlo' & Hab & Hhi' & HB' & Hl). exists k', lo1. split_and!; try done.
    + by eapply above_trans.
    + intros k2 Hk2. eapply above_trans; [exact Hlo |]. by apply Hl.
Qed.

Lemma keyed_app xs ys : keyed (xs ++ ys) = keyed xs ++ keyed ys.
Proof. apply omap_app. Qed.

Lemma keyed_Some x xs k : slot_key x = Some k → keyed (x :: xs) = (k, slot_cell x) :: keyed xs.
Proof. unfold keyed. csimpl. by intros ->. Qed.

Lemma keyed_None x xs : slot_key x = None → keyed (x :: xs) = keyed xs.
Proof. unfold keyed. csimpl. by intros ->. Qed.

Lemma elem_of_keyed (a : K * nat) xs : a ∈ keyed xs ↔ ∃ x, x ∈ xs ∧ slot_key x = Some a.1 ∧ slot_cell x = a.2.
Proof.
  unfold keyed. rewrite list_elem_of_omap. split.
  - intros (x & Hx & (k & Hk & ->)%fmap_Some). by exists x.
  - intros (x & Hx & Hk & Hc). exists x. split; [done |]. rewrite Hk. cbn. rewrite Hc. by destruct a.
Qed.

(** The slot of a key. *)
Lemma slots_find xs lo hi k : slots_ok xs lo hi → above lo k → upto k hi →
  ∃ pre x post lo', xs = pre ++ x :: post ∧ span pre lo hi lo' ∧ above lo' k ∧ upto k (slot_hi x hi) ∧ slots_ok (x :: post) lo' hi.
Proof.
  revert lo. induction xs as [| x xs IH]; intros lo; [done |]. intros Hok Hlo Hhi. pose proof Hok as Hok'. cbn [slots_ok] in Hok'.
  destruct (slot_key x) as [k' |] eqn:Hk'.
  - destruct Hok' as (HB & Hlo' & Hhi' & Hok'). destruct (decide (cmp k' k = Lt)) as [Hlt | Hge].
    + destruct (IH _ Hok' Hlt Hhi) as (pre & y & post & lo1 & -> & Hs & Hab & Hup & Hoky).
      exists (x :: pre), y, post, lo1. cbn [app span]. rewrite Hk'. by split_and!.
    + exists [], x, xs, lo. split_and!; try done. unfold slot_hi. rewrite Hk'. cbn. by apply ge_not_lt.
  - exists [], x, xs, lo. split_and!; try done. unfold slot_hi. by rewrite Hk'.
Qed.

(** What follows a slot is above its key. *)
Lemma slots_ok_above xs lo hi x k : slots_ok xs lo hi → x ∈ xs → slot_key x = Some k → above lo k.
Proof.
  intros Hok Hx Hk. destruct (slots_ok_last _ _ _ Hok) as (pre & y & lo' & -> & Hy & Hs & _).
  apply elem_of_app in Hx as [Hx | ->%list_elem_of_singleton]; [| congruence].
  destruct (span_elem _ _ _ _ _ Hs Hx) as (k' & lo1 & Hk' & Hab & _). congruence.
Qed.

Lemma keyed_sorted xs lo hi : slots_ok xs lo hi → StronglySorted before (keyed xs).
Proof.
  revert lo. induction xs as [| x xs IH]; intros lo Hok; [constructor |]. destruct (slot_key x) as [k |] eqn:Hk.
  - rewrite (keyed_Some _ _ _ Hk). destruct (proj1 (slots_ok_Some _ _ _ _ _ Hk) Hok) as (_ & _ & _ & Hok'). constructor; [by eapply IH |].
    apply Forall_forall. intros a (y & Hy & Hyk & _)%elem_of_keyed. exact (slots_ok_above _ _ _ _ _ Hok' Hy Hyk).
  - destruct (slots_ok_None _ _ _ _ Hk Hok) as [-> _]. rewrite (keyed_None _ _ Hk). constructor.
Qed.

Lemma slots_ok_nonempty xs lo hi : slots_ok xs lo hi → xs ≠ [].
Proof. by destruct xs. Qed.

(** The search among the keys of a node finds the slot of the key. *)
Lemma find_Some pre x post lo hi lo' k a :
  span pre lo hi lo' → slots_ok (x :: post) lo' hi → above lo' k → upto k (slot_hi x hi) →
  a ∈ keyed (pre ++ x :: post) → cmp a.1 k ≠ Lt →
  (∀ b, b ∈ keyed (pre ++ x :: post) → cmp b.1 k ≠ Lt → cmp b.1 a.1 ≠ Lt) →
  slot_key x = Some a.1 ∧ slot_cell x = a.2.
Proof.
  intros Hs Hok Hab Hup (y & Hy & Hyk & Hyc)%elem_of_keyed Hge Hmin.
  apply elem_of_app in Hy as [Hy | [-> | Hy]%elem_of_cons]; [| done |].
  - destruct (span_elem _ _ _ _ _ Hs Hy) as (k' & lo1 & Hk' & _ & Hlt & _). destruct Hge. simplify_eq. by apply Hlt.
  - cbn [slots_ok] in Hok. unfold slot_hi in Hup. destruct (slot_key x) as [kx |] eqn:Hkx.
    + destruct Hok as (_ & _ & _ & Hok). pose proof (slots_ok_above _ _ _ _ _ Hok Hy Hyk) as Hlt. cbn in Hlt.
      destruct (Hmin (kx, slot_cell x)); [| | done].
      * apply elem_of_keyed. exists x. split; [apply elem_of_app; right; by left | done].
      * by apply ge_not_lt.
    + destruct Hok as [-> _]. by apply not_elem_of_nil in Hy.
Qed.

Lemma find_None pre x post lo hi lo' k :
  span pre lo hi lo' → slots_ok (x :: post) lo' hi → above lo' k → upto k (slot_hi x hi) →
  (∀ a, a ∈ keyed (pre ++ x :: post) → cmp a.1 k = Lt) → slot_key x = None.
Proof.
  intros Hs Hok Hab Hup Hall. destruct (slot_key x) as [kx |] eqn:Hkx; [| done]. exfalso.
  assert (Hlt : cmp kx k = Lt).
  { apply (Hall (kx, slot_cell x)). apply elem_of_keyed. exists x. split; [apply elem_of_app; right; by left | done]. }
  unfold slot_hi in Hup. rewrite Hkx in Hup. by eapply lt_not_ge.
Qed.

(** ** A slot that becomes two *)

Lemma slot_hi_below x post lo hi k : slots_ok (x :: post) lo hi → below k (slot_hi x hi) → below k hi.
Proof.
  intros Hok Hk. unfold slot_hi in Hk. destruct (slot_key x) as [kx |] eqn:Hkx; [| done].
  destruct (proj1 (slots_ok_Some _ _ _ _ _ Hkx) Hok) as (_ & _ & Hb & _). by eapply below_trans.
Qed.

Lemma slots_ok_two x post lo hi km c1 t1 c2 t2 :
  slots_ok (x :: post) lo hi → above lo km → below km (slot_hi x hi) → B t1 lo (Some km) → B t2 (Some km) (slot_hi x hi) →
  slots_ok ((Some km, c1, t1) :: (slot_key x, c2, t2) :: post) lo hi.
Proof.
  intros Hok Hlo Hhi H1 H2. apply (slots_ok_Some _ _ km); [done |]. split_and!; [done | done | by eapply slot_hi_below |].
  unfold slot_hi in *. destruct (slot_key x) as [kx |] eqn:Hkx.
  - destruct (proj1 (slots_ok_Some _ _ _ _ _ Hkx) Hok) as (_ & _ & Hb & Hok'). by apply (slots_ok_Some _ _ kx).
  - destruct (slots_ok_None _ _ _ _ Hkx Hok) as [-> _]. by split.
Qed.

Lemma keyed_new pre x post lo hi lo' km c :
  span pre lo hi lo' → slots_ok (x :: post) lo' hi → above lo' km → below km (slot_hi x hi) → (km, c) ∉ keyed (pre ++ x :: post).
Proof.
  intros Hs Hok Hlo Hhi (y & Hy & Hyk & _)%elem_of_keyed. cbn in Hyk.
  apply elem_of_app in Hy as [Hy | [-> | Hy]%elem_of_cons].
  - destruct (span_elem _ _ _ _ _ Hs Hy) as (k' & lo1 & Hk' & _ & Hlt & _). rewrite Hyk in Hk'. injection Hk' as <-.
    by eapply cmp_lt_irrefl, Hlt.
  - unfold slot_hi in Hhi. rewrite Hyk in Hhi. by eapply cmp_lt_irrefl.
  - unfold slot_hi in Hhi. destruct (slot_key x) as [kx |] eqn:Hkx.
    + destruct (proj1 (slots_ok_Some _ _ _ _ _ Hkx) Hok) as (_ & _ & _ & Hok'). pose proof (slots_ok_above _ _ _ _ _ Hok' Hy Hyk) as Hlt.
      by apply (cmp_lt_asym _ _ Hlt).
    + destruct (slots_ok_None _ _ _ _ Hkx Hok) as [-> _]. by apply not_elem_of_nil in Hy.
Qed.

(** ** Weaker bounds *)

Context (Blower : ∀ t lo' lo hi, lower lo' lo → B t lo hi → B t lo' hi)
  (Bupper : ∀ t lo hi hi', upper hi hi' → B t lo hi → B t lo hi').

Lemma slots_ok_lower xs lo' lo hi : lower lo' lo → slots_ok xs lo hi → slots_ok xs lo' hi.
Proof.
  intros Hl. destruct xs as [| x xs]; [done |]. cbn [slots_ok]. destruct (slot_key x); [| naive_solver].
  intros (HB & Hlo & Hok). split; [by eapply Blower |]. split; [by apply Hl | done].
Qed.

Lemma slots_ok_upper xs lo hi hi' : upper hi hi' → slots_ok xs lo hi → slots_ok xs lo hi'.
Proof.
  intros Hu. revert lo. induction xs as [| x xs IH]; intros lo; [done |]. cbn [slots_ok].
  destruct (slot_key x); [| naive_solver]. intros (HB & Hlo & Hhi & Hok). split_and!; [done | done | by apply Hu | by apply IH].
Qed.

(** A node is split after the slot [x]. *)
Lemma slots_ok_split pre x k post lo hi :
  slot_key x = Some k → slots_ok (pre ++ x :: post) lo hi →
  above lo k ∧ below k hi ∧ (∀ c, slots_ok (pre ++ [(None, c, x.2)]) lo (Some k)) ∧ slots_ok post (Some k) hi.
Proof.
  intros Hk Hok. apply slots_ok_app in Hok as (lo' & Hs & Hok); [| done]. cbn [slots_ok] in Hok. rewrite Hk in Hok.
  destruct Hok as (HB & Hlo & Hhi & Hok). split_and!; [by apply (span_lower _ _ _ _ Hs) | done | | done].
  intros c. apply slots_ok_app; [done |]. exists lo'. split; [| done].
  clear -Hs Hlo H. revert lo Hs. induction pre as [| y pre IH]; intros lo; [done |]. cbn [span].
  destruct (slot_key y) as [ky |]; [| done]. intros (HB & Hy & Hhi & Hs). split_and!; [done | done | | by apply IH].
  by apply (span_lower _ _ _ _ Hs).
Qed.
End Slots.
End Keys.

#[global] Arguments slot : clear implicits.

(** ** Shapes *)

Section Shape.
Context {K V : Type} `{KeyOrd K}.

Implicit Types (k : K) (lo hi : option K) (l : list (K * V)).

(** [sl_free]: the leaf is known to have room for another entry. *)
Record sleaf := SLeaf { sl_id : nat; sl_free : bool; sl_entries : list (K * V) }.

Record snode (A : Type) := SNode { sn_id : nat; sn_list : list (slot K A) }.

Fixpoint shape (h : nat) : Type := match h with O => sleaf | S h => snode (shape h) end.

Definition nid {h} (t : shape (S h)) : nat := sn_id _ t.
Definition slots {h} (t : shape (S h)) : list (slot K (shape h)) := sn_list _ t.
Definition node {h} (i : nat) (xs : list (slot K (shape h))) : shape (S h) := SNode _ i xs.

Definition sid h : shape h → nat := match h with O => sl_id | S h => nid end.

Fixpoint contents h : shape h → list (K * V) :=
  match h with
  | O => sl_entries
  | S h => λ t, flat_map (λ x, contents h x.2) (slots t)
  end.

(** The leaves, from left to right. *)
Fixpoint leafs h : shape h → list nat :=
  match h with
  | O => λ t, [sl_id t]
  | S h => λ t, flat_map (λ x, leafs h x.2) (slots t)
  end.

(** The keys are in order, above [lo] and up to [hi]. *)
Fixpoint bounded h : shape h → option K → option K → Prop :=
  match h with
  | O => λ t lo hi, StronglySorted before (sl_entries t) ∧ Forall (λ a, above lo a.1 ∧ upto a.1 hi) (sl_entries t)
  | S h => λ t lo hi, slots_ok (bounded h) (slots t) lo hi
  end.

Lemma bounded_S h (t : shape (S h)) lo hi : bounded (S h) t lo hi → slots_ok (bounded h) (slots t) lo hi.
Proof. done. Qed.

(** The slot where a search for [k] goes on. *)
Fixpoint slot_for {A} k (xs : list (slot K A)) : option (slot K A) :=
  match xs with
  | [] => None
  | x :: xs =>
      match slot_key x with
      | Some k' => if decide (cmp k' k = Lt) then slot_for k xs else Some x
      | None => Some x
      end
  end.

(** The leaf where [k] belongs has room for it. *)
Fixpoint room h : shape h → K → Prop :=
  match h with
  | O => λ t _, sl_free t = true
  | S h => λ t k, ∃ x, slot_for k (slots t) = Some x ∧ room h x.2 k
  end.

(** ** Sorted contents *)

Definition good l lo hi : Prop := StronglySorted before l ∧ Forall (λ a, above lo a.1 ∧ upto a.1 hi) l.

Lemma good_nil lo hi : good [] lo hi.
Proof. split; constructor. Qed.

Lemma good_weaken l lo' lo hi hi' : lower lo' lo → upper hi hi' → good l lo hi → good l lo' hi'.
Proof.
  intros Hl Hu [Hs Hf]. split; [done |]. eapply Forall_impl; [exact Hf |]. intros a [Ha Hb]. split; [by apply Hl | by apply Hu].
Qed.

Lemma good_app l1 l2 lo k hi : good l1 lo (Some k) → good l2 (Some k) hi → above lo k → below k hi → good (l1 ++ l2) lo hi.
Proof.
  intros [Hs1 Hf1] [Hs2 Hf2] Hlo Hhi. rewrite Forall_forall in Hf1, Hf2. split.
  - apply StronglySorted_app_2; [| done | done]. intros a b Ha Hb. eapply le_lt_trans; [by apply Hf1 | by apply Hf2].
  - apply Forall_app. split; apply Forall_forall; intros a Ha.
    + destruct (Hf1 a Ha) as [? Hu]. split; [done |]. by apply below_upto, (upto_below a.1 k).
    + destruct (Hf2 a Ha) as [Hab ?]. split; [by eapply above_trans | done].
Qed.

Section Good.
Context {A : Type} (B : A → option K → option K → Prop) (f : A → list (K * V)) (HB : ∀ t lo hi, B t lo hi → good (f t) lo hi).

Lemma span_good (pre : list (slot K A)) lo hi lo' : span B pre lo hi lo' → good (flat_map (λ x, f x.2) pre) lo lo'.
Proof.
  revert lo. induction pre as [| x pre IH]; intros lo; [intros _; apply good_nil |]. cbn [span flat_map].
  destruct (slot_key x) as [k |]; [| done]. intros (Hx & Hlo & Hhi & Hs).
  destruct (span_key _ _ _ _ _ Hs) as [[-> ->] | (k' & -> & Hlo' & Hhi')].
  - cbn. rewrite app_nil_r. by apply HB.
  - eapply good_app; [by apply HB | by apply IH | done | done].
Qed.

Lemma slots_good (xs : list (slot K A)) lo hi : slots_ok B xs lo hi → good (flat_map (λ x, f x.2) xs) lo hi.
Proof.
  intros Hok. destruct (slots_ok_last _ _ _ _ Hok) as (pre & x & lo' & -> & _ & Hs & Hx). rewrite flat_map_app. cbn. rewrite app_nil_r.
  destruct (span_key _ _ _ _ _ Hs) as [[-> ->] | (k' & -> & Hlo' & Hhi')]; [by apply HB |].
  eapply good_app; [by eapply span_good | by apply HB | done | done].
Qed.
End Good.

Lemma bounded_good h (t : shape h) lo hi : bounded h t lo hi → good (contents h t) lo hi.
Proof.
  revert t lo hi. induction h as [| h IH]; intros t lo hi Hb; [done |]. cbn. by eapply (slots_good (bounded h) (contents h)).
Qed.

Lemma good_not_above l lo (b : K) k v : good l lo (Some b) → cmp b k = Lt → (k, v) ∉ l.
Proof. intros [_ Hf] Hk Hin. rewrite Forall_forall in Hf. destruct (Hf _ Hin) as [_ Hu]. by eapply lt_not_ge. Qed.

Lemma good_not_below l (b : K) hi k v : good l (Some b) hi → cmp k b ≠ Gt → (k, v) ∉ l.
Proof. intros [_ Hf] Hk Hin. rewrite Forall_forall in Hf. destruct (Hf _ Hin) as [Ha _]. by eapply lt_not_ge. Qed.

Lemma bounded_weaken h (t : shape h) lo' lo hi hi' : lower lo' lo → upper hi hi' → bounded h t lo hi → bounded h t lo' hi'.
Proof.
  induction h as [| h IH] in t, lo', lo, hi, hi' |- *; intros Hl Hu; [exact (good_weaken _ _ _ _ _ Hl Hu) |]. intros Hb.
  eapply slots_ok_lower; [| exact Hl | eapply slots_ok_upper; [| exact Hu | exact Hb]].
  - intros t' lo1 lo2 hi1 Hl' Hb'. exact (IH _ _ _ _ _ Hl' (upper_refl _) Hb').
  - intros t' lo1 hi1 hi2 Hu' Hb'. exact (IH _ _ _ _ _ (lower_refl _) Hu' Hb').
Qed.

Lemma bounded_lower h (t : shape h) lo' lo hi : lower lo' lo → bounded h t lo hi → bounded h t lo' hi.
Proof. intros Hl. exact (bounded_weaken _ _ _ _ _ _ Hl (upper_refl _)). Qed.

Lemma bounded_upper h (t : shape h) lo hi hi' : upper hi hi' → bounded h t lo hi → bounded h t lo hi'.
Proof. intros Hu. exact (bounded_weaken _ _ _ _ _ _ (lower_refl _) Hu). Qed.

(** ** The slot of a key *)

Definition slots_contents h (xs : list (slot K (shape h))) : list (K * V) := flat_map (λ x, contents h x.2) xs.
Definition slots_leafs h (xs : list (slot K (shape h))) : list nat := flat_map (λ x, leafs h x.2) xs.

(** Only the slot of a key can have it. *)
Lemma contents_slot h pre (x : slot K (shape h)) post lo hi lo' k v :
  span (bounded h) pre lo hi lo' → slots_ok (bounded h) (x :: post) lo' hi → above lo' k → upto k (slot_hi x hi) →
  (k, v) ∈ slots_contents h (pre ++ x :: post) ↔ (k, v) ∈ contents h x.2.
Proof.
  intros Hs Hok Hab Hup. unfold slots_contents. rewrite flat_map_app. cbn [flat_map]. rewrite !elem_of_app. split; [| by auto].
  intros [Hin | [Hin | Hin]]; [exfalso | done | exfalso].
  - destruct (span_key _ _ _ _ _ Hs) as [[-> ->] | (k' & -> & _ & _)]; [by apply not_elem_of_nil in Hin |].
    eapply good_not_above; [| exact Hab | exact Hin]. eapply span_good; [| exact Hs]. apply bounded_good.
  - cbn [slots_ok] in Hok. unfold slot_hi in Hup. destruct (slot_key x) as [k' |].
    + destruct Hok as (_ & _ & _ & Hok). eapply good_not_below; [| exact Hup | exact Hin].
      eapply slots_good; [| exact Hok]. apply bounded_good.
    + destruct Hok as [-> _]. by apply not_elem_of_nil in Hin.
Qed.

Lemma slot_for_app {A} (pre : list (slot K A)) x post k hi :
  (∀ y, y ∈ pre → ∃ k', slot_key y = Some k' ∧ cmp k' k = Lt) → upto k (slot_hi x hi) → slot_for k (pre ++ x :: post) = Some x.
Proof.
  intros Hpre Hx. induction pre as [| y pre IH]; cbn [app slot_for].
  - unfold slot_hi in Hx. destruct (slot_key x) as [k' |]; [| done]. rewrite decide_False; [done |]. by apply ge_not_lt.
  - destruct (Hpre y ltac:(left)) as (k' & -> & Hlt). rewrite decide_True by done. apply IH. intros z Hz. apply Hpre. by right.
Qed.

Lemma slot_for_span {A} (B : A → option K → option K → Prop) pre x post lo hi lo' k :
  span B pre lo hi lo' → above lo' k → upto k (slot_hi x hi) → slot_for k (pre ++ x :: post) = Some x.
Proof.
  intros Hs Hab Hup. eapply slot_for_app; [| exact Hup]. intros y Hy.
  destruct (span_elem _ _ _ _ _ _ Hs Hy) as (k' & lo1 & Hk' & _ & Hlt & _). exists k'. auto.
Qed.

(** The slot of [k] when [x] has become two. *)
Lemma slot_for_two {A} (B : A → option K → option K → Prop) pre (x : slot K A) post lo hi lo' km c1 (t1 : A) c2 t2 k :
  span B pre lo hi lo' → above lo' k → upto k (slot_hi x hi) →
  slot_for k (pre ++ (Some km, c1, t1) :: (slot_key x, c2, t2) :: post) =
    Some (if decide (cmp km k = Lt) then (slot_key x, c2, t2) else (Some km, c1, t1)).
Proof.
  intros Hs Hab Hup. case_decide as Hlt.
  - replace (pre ++ (Some km, c1, t1) :: (slot_key x, c2, t2) :: post) with ((pre ++ [(Some km, c1, t1)]) ++ (slot_key x, c2, t2) :: post) by (by rewrite <-app_assoc).
    eapply slot_for_app; [| exact Hup]. intros y Hy. apply elem_of_app in Hy as [Hy | ->%list_elem_of_singleton].
    + destruct (span_elem _ _ _ _ _ _ Hs Hy) as (k' & lo1 & Hk' & _ & Hlt' & _). exists k'. auto.
    + by exists km.
  - eapply slot_for_span; [exact Hs | exact Hab |]. cbn. by apply ge_not_lt.
Qed.

(** The entries of a leaf that is split. *)
Lemma split_bounds (E1 E2 : list (K * V)) lo hi km v :
  good (E1 ++ E2) lo hi → E2 ≠ [] → last E1 = Some (km, v) →
  above lo km ∧ below km hi ∧ good E1 lo (Some km) ∧ good E2 (Some km) hi.
Proof.
  intros [Hs Hf] H2 (E & ->)%last_Some. rewrite Forall_app in Hf. destruct Hf as [Hf1 Hf2].
  pose proof Hs as Hs'. apply StronglySorted_app in Hs' as (Hc & Hs1 & Hs2).
  assert (Hin : (km, v) ∈ E ++ [(km, v)]) by (apply elem_of_app; right; by left).
  rewrite Forall_forall in Hf1. rewrite Forall_forall in Hf2. split; [by apply (Hf1 (km, v)) |]. split.
  { destruct E2 as [| [k2 v2] E2]; [done |]. pose proof (Hc _ (k2, v2) Hin ltac:(by left)) as Hlt.
    destruct (Hf2 (k2, v2) ltac:(by left)) as [_ Hu]. destruct hi as [hi |]; [| done]. by eapply lt_le_trans. }
  split; (split; [done |]); apply Forall_forall; intros a Ha.
  - split; [by apply Hf1 |]. apply elem_of_app in Ha as [Ha | ->%list_elem_of_singleton]; [| cbn; by rewrite cmp_refl].
    apply StronglySorted_app in Hs1 as (Hc1 & _). pose proof (Hc1 a (km, v) Ha ltac:(by left)) as Hlt. unfold before in Hlt. cbn in Hlt |- *. by rewrite Hlt.
  - split; [by apply (Hc (km, v)) | by apply Hf2].
Qed.
End Shape.

Arguments sleaf : clear implicits.
Arguments snode : clear implicits.
Arguments shape : clear implicits.

(** ** Trees in memory

    [rep] says that a shape is in memory, at the addresses of its [foot]; [chain] that the
    leaves of a list are linked in this order.  [step] is the frame of an operation: what it
    leaves alone. *)

Section Rep.
Context {K V : Type} `{KeyOrd K}.

Implicit Types (s : tree K V) (a : addr) (l i c : nat) (p : Ptr) (b : leaf K V) (nd : Node K) (k : K).
Implicit Types (fz lk : list nat) (F : list addr).

(** ** Footprints *)

Fixpoint foot h : shape K V h → list addr :=
  match h with
  | O => λ t, [ALeaf (sl_id t)]
  | S h => λ t, ANode (nid t) :: flat_map (λ x, ACell (slot_cell x) :: foot h x.2) (slots t)
  end.

Definition slots_foot h (xs : list (slot K (shape K V h))) : list addr :=
  flat_map (λ x, ACell (slot_cell x) :: foot h x.2) xs.

(** ** Nodes *)

Definition latch_of nd : Tag.t := match nd with InternalN n => node_latch n | LeafN n => leaf_latch n end.

(** No split is in progress. *)
Definition idle nd : Prop :=
  match nd with
  | InternalN n => node_split_op n = node_change_default
  | LeafN n => leaf_split_op n = leaf_change_default
  end.

(** The children of a node at the height [h + 1] are leaves when [h] is 0. *)
Definition kind (h : nat) nd : Prop :=
  match h, nd with O, LeafN _ => True | S _, InternalN _ => True | _, _ => False end.

(** A leaf that holds [l]. *)
Record holding {B} (ch : leaf K B) (l : list (K * B)) : Prop := {
  hd_wf : wf ch [];
  hd_unfrozen : frozen (metadata ch) = false;
  hd_sorted : sorted_entries ch = l
}.

(** The children of a node with the slots [xs]. *)
Record children_rep {A} nd (xs : list (slot K A)) : Prop := {
  cr_holding : holding (children_of nd) (keyed xs);
  cr_last : slot_cell <$> last xs = Some (unbounded_of nd)
}.

Record node_rep {A} (h : nat) (locked : bool) nd (xs : list (slot K A)) : Prop := {
  nr_kind : kind h nd;
  nr_idle : idle nd;
  nr_latch : latch_of nd = if locked then LOCKED else Tag.None;
  nr_children : children_rep nd xs
}.

Record leaf_rep (fr : bool) b (t : sleaf K V) : Prop := {
  lr_wf : wf b [];
  lr_frozen : frozen (metadata b) = fr;
  lr_entries : sorted_entries b = sl_entries t;
  lr_retired : retired (metadata b) = true → sl_entries t = [];
  lr_free : sl_free t = true → (used (metadata b) < N)%nat ∧ retired (metadata b) = false
}.

(** The leaves of [fz] are frozen, the nodes of [lk] are locked. *)
Fixpoint rep fz lk s h : shape K V h → Prop :=
  match h with
  | O => λ t, ∃ b, view s (ALeaf (sl_id t)) = Some (VLeaf b) ∧ leaf_rep (bool_decide (sl_id t ∈ fz)) b t
  | S h => λ t,
      (∃ nd, view s (ANode (nid t)) = Some (VNode nd) ∧ node_rep h (bool_decide (nid t ∈ lk)) nd (slots t)) ∧
      Forall (λ x, view s (ACell (slot_cell x)) = Some (VCell (Some (sid h x.2), Tag.None)) ∧ rep fz lk s h x.2) (slots t)
  end.

(** What a cell of a slot and its child are. *)
Definition slot_rep fz lk s h (x : slot K (shape K V h)) : Prop :=
  view s (ACell (slot_cell x)) = Some (VCell (Some (sid h x.2), Tag.None)) ∧ rep fz lk s h x.2.

Lemma rep_S fz lk s h (t : shape K V (S h)) :
  rep fz lk s (S h) t →
  (∃ nd, view s (ANode (nid t)) = Some (VNode nd) ∧ node_rep h (bool_decide (nid t ∈ lk)) nd (slots t)) ∧
  Forall (slot_rep fz lk s h) (slots t).
Proof. done. Qed.

(** ** Frames *)

Lemma slots_foot_app h xs ys : slots_foot h (xs ++ ys) = slots_foot h xs ++ slots_foot h ys.
Proof. apply flat_map_app. Qed.

Lemma elem_of_slots_foot h xs a : a ∈ slots_foot h xs ↔ ∃ x, x ∈ xs ∧ (a = ACell (slot_cell x) ∨ a ∈ foot h x.2).
Proof.
  unfold slots_foot. rewrite list_elem_of_In, in_flat_map. setoid_rewrite <-list_elem_of_In. setoid_rewrite elem_of_cons. done.
Qed.

Lemma elem_of_leafs h (t : shape K V h) l : l ∈ leafs h t ↔ ALeaf l ∈ foot h t.
Proof.
  induction h as [| h IH]; cbn.
  - rewrite !list_elem_of_singleton. naive_solver.
  - rewrite elem_of_cons. change (flat_map _ _) with (slots_foot h (slots t)) at 2.
    rewrite elem_of_slots_foot, list_elem_of_In, in_flat_map. setoid_rewrite <-list_elem_of_In. setoid_rewrite IH. naive_solver.
Qed.

Lemma rep_frame fz lk s s' h (t : shape K V h) :
  rep fz lk s h t → (∀ a, a ∈ foot h t → view s' a = view s a) → rep fz lk s' h t.
Proof.
  induction h as [| h IH].
  - intros (b & Hb & Hr) Hf. exists b. rewrite Hf by by left. done.
  - intros [(nd & Hn & Hr) Hx] Hf. split; [exists nd; by rewrite Hf by left |].
    rewrite Forall_forall in Hx |- *. intros x Hin. destruct (Hx x Hin) as [Hc Hc'].
    rewrite Hf; [| right; apply elem_of_slots_foot; by eauto]. split; [done |]. eapply IH; [done |].
    intros a Ha. apply Hf. right. apply elem_of_slots_foot. by eauto.
Qed.

(** Only the lists of the frozen leaves and the locked nodes that are there matter. *)
Lemma rep_flags fz fz' lk lk' s h (t : shape K V h) :
  rep fz lk s h t → (∀ l, ALeaf l ∈ foot h t → l ∈ fz' ↔ l ∈ fz) → (∀ i, ANode i ∈ foot h t → i ∈ lk' ↔ i ∈ lk) →
  rep fz' lk' s h t.
Proof.
  induction h as [| h IH].
  - intros (b & Hb & Hr) Hl Hi. exists b. split; [done |]. by rewrite (bool_decide_ext (sl_id t ∈ fz') (sl_id t ∈ fz)) by (apply Hl; by left).
  - intros [(nd & Hn & Hr) Hx] Hl Hi. split.
    + exists nd. split; [done |]. by rewrite (bool_decide_ext (nid t ∈ lk') (nid t ∈ lk)) by (apply Hi; by left).
    + rewrite Forall_forall in Hx |- *. intros x Hin. destruct (Hx x Hin) as [Hc Hc']. split; [done |]. eapply IH; [done | |].
      * intros l Hl'. apply Hl. right. apply elem_of_slots_foot. by eauto.
      * intros l Hl'. apply Hi. right. apply elem_of_slots_foot. by eauto.
Qed.

Lemma rep_live fz lk s h (t : shape K V h) a : rep fz lk s h t → a ∈ foot h t → is_Some (view s a).
Proof.
  induction h as [| h IH].
  - intros (b & Hb & _) ->%list_elem_of_singleton. by rewrite Hb.
  - intros [(nd & Hn & _) Hx] [-> | (x & Hin & Ha)%elem_of_slots_foot]%elem_of_cons; [by rewrite Hn |].
    rewrite Forall_forall in Hx. destruct (Hx x Hin) as [Hc Hc']. destruct Ha as [-> | Ha]; [by rewrite Hc | by eapply IH].
Qed.

Lemma slots_live fz lk s h xs a : Forall (slot_rep fz lk s h) xs → a ∈ slots_foot h xs → is_Some (view s a).
Proof.
  intros Hx (x & Hin & Ha)%elem_of_slots_foot. rewrite Forall_forall in Hx. destruct (Hx x Hin) as [Hc Hr].
  destruct Ha as [-> | Ha]; [by rewrite Hc | by eapply rep_live].
Qed.

Lemma slots_frame fz lk s s' h xs :
  Forall (slot_rep fz lk s h) xs → (∀ a, a ∈ slots_foot h xs → view s' a = view s a) → Forall (slot_rep fz lk s' h) xs.
Proof.
  intros Hx Hf. rewrite Forall_forall in Hx |- *. intros x Hin. destruct (Hx x Hin) as [Hc Hr].
  assert (Ha : ∀ a, a = ACell (slot_cell x) ∨ a ∈ foot h x.2 → view s' a = view s a).
  { intros a Ha. apply Hf, elem_of_slots_foot. by exists x. }
  split; [rewrite Ha by (by left); done |]. eapply rep_frame; [done |]. intros a Hin'. apply Ha. by right.
Qed.

(** The root of a shape. *)
Lemma sid_foot h (t : shape K V h) : match h with O => ALeaf (sid h t) | S _ => ANode (sid h t) end ∈ foot h t.
Proof. destruct h; by left. Qed.

(** ** Steps *)

(** Memory outside [F] is as before; up to [n] leaves were allocated. *)
Record step F (n : nat) s s' : Prop := {
  st_view a : is_Some (view s a) → a ∉ F → view s' a = view s a;
  st_live a : is_Some (view s a) → is_Some (view s' a);
  st_root : root s' = root s;
  st_leaves : (length (leaves s) ≤ length (leaves s') ≤ length (leaves s) + n)%nat
}.

(** The addresses of [F'] are those of [F], or new. *)
Definition grows s F F' : Prop := ∀ a, a ∈ F' → a ∈ F ∨ view s a = None.

Lemma step_refl F n s : step F n s s.
Proof. constructor; [done | done | done | lia]. Qed.

Lemma step_trans F F' n m o s1 s2 s3 :
  step F n s1 s2 → step F' m s2 s3 → grows s1 F F' → (n + m ≤ o)%nat → step F o s1 s3.
Proof.
  intros [V1 L1 R1 N1] [V2 L2 R2 N2] Hg Ho. constructor; [| by auto | congruence | lia].
  intros a Ha Hin. rewrite V2; [by apply V1 | by apply L1 |]. intros [Ha' | Ha']%Hg; [done |].
  rewrite Ha' in Ha. by destruct Ha.
Qed.

Lemma step_weaken F F' n m s s' : step F n s s' → (∀ a, a ∈ F → a ∈ F') → (n ≤ m)%nat → step F' m s s'.
Proof. intros [Hv Hl Hr Hm] HF Hn. constructor; [| done | done | lia]. intros a Ha Hin. apply Hv; [done | by intros ?%HF]. Qed.

Lemma step_writes a v s s' : is_Some (view s a) → writes a v s s' → step [a] 0 s s'.
Proof.
  intros Ha [Hv Hl Hr Hn]. constructor; [| | done | lia].
  - intros a' _ Hin. rewrite Hv, decide_False; [done |]. intros ->. apply Hin. by left.
  - intros a' Ha'. rewrite Hv. case_decide; [by eexists | done].
Qed.

Lemma step_allocates a v s s' : allocates a v s s' → step [] (if a is ALeaf _ then 1 else 0) s s'.
Proof.
  intros [Hf Hv Hl Hr Hn]. constructor; [| | done | lia].
  - intros a' Ha _. rewrite Hv, decide_False; [done |]. intros ->. rewrite Hf in Ha. by destruct Ha.
  - intros a' Ha'. rewrite Hv. case_decide; [by eexists | done].
Qed.

Lemma step_link l p s : step [] 0 s (set_link l p s).
Proof.
  constructor; [intros a _ _; apply view_link | intros a Ha; by rewrite view_link | done |]. cbn. rewrite length_alter. lia.
Qed.

Lemma step_relinked s s' : relinked s s' → step [] 0 s s'.
Proof.
  intros Hr. apply (relinked_ind (λ s', step [] 0 s s') s s' Hr); [| apply step_refl].
  intros e p s1 _ Hs. eapply step_trans; [exact Hs | apply step_link | by intros a ?%not_elem_of_nil | lia].
Qed.

(** ** Chains *)

(** A list of leaves that are linked in this order. *)
Record chain s (C : list nat) : Prop := {
  ch_nodup : NoDup C;
  ch_links : chained s C;
  ch_leaf l : l ∈ C → ∃ b, view s (ALeaf l) = Some (VLeaf b) ∧ wf b []
}.

(** The links are those of [s], as far as leaves are allocated there. *)
Definition same_links s s' : Prop := ∀ l, is_Some (view s (ALeaf l)) → link_ref l s' = link_ref l s.

Lemma same_links_trans s1 s2 s3 :
  same_links s1 s2 → same_links s2 s3 → (∀ a, is_Some (view s1 a) → is_Some (view s2 a)) → same_links s1 s3.
Proof. intros H1 H2 Hl l Hs. rewrite H2 by (by apply Hl). by apply H1. Qed.

Lemma same_links_writes a v s s' : writes a v s s' → same_links s s'.
Proof. intros Hw l _. apply Hw. Qed.

Lemma same_links_allocates a v s s' : allocates a v s s' → same_links s s'.
Proof. intros Ha l Hl. rewrite (al_link _ _ _ _ Ha). case_decide as Heq; [| done]. subst a. rewrite (al_fresh _ _ _ _ Ha) in Hl. by destruct Hl. Qed.

Lemma segment_same s s' L y : segment s L y → same_links s s' → segment s' L y.
Proof.
  intros Hs Hl. eapply segment_frame; [exact Hs |]. intros e p He. left. rewrite Hl; [done |].
  apply link_live. by rewrite He.
Qed.

Lemma chain_frame s s' C :
  chain s C → same_links s s' → (∀ l, l ∈ C → ∃ b, view s' (ALeaf l) = Some (VLeaf b) ∧ wf b []) → chain s' C.
Proof. intros [Hn Hc Hb] Hl Hb'. constructor; [done | by eapply segment_same | done]. Qed.

Lemma rep_leaf fz lk s h (t : shape K V h) l : rep fz lk s h t → l ∈ leafs h t → ∃ b, view s (ALeaf l) = Some (VLeaf b) ∧ wf b [].
Proof.
  induction h as [| h IH].
  - intros (b & Hb & Hr) ->%list_elem_of_singleton. exists b. split; [done | apply Hr].
  - intros [_ Hx] Hl. cbn in Hl. rewrite list_elem_of_In, in_flat_map in Hl. destruct Hl as (x & Hin & Hl%list_elem_of_In).
    rewrite <-list_elem_of_In in Hin. rewrite Forall_forall in Hx. by eapply IH; [apply Hx |].
Qed.

Lemma NoDup_flat_map_sub {A B1 B2} (f : A → list B1) (g : A → list B2) (φ : B1 → B2) (xs : list A) :
  (∀ y y', φ y = φ y' → y = y') → (∀ x y, y ∈ f x → φ y ∈ g x) → (∀ x, x ∈ xs → NoDup (g x) → NoDup (f x)) →
  NoDup (flat_map g xs) → NoDup (flat_map f xs).
Proof.
  intros Hinj Hsub Hnd. induction xs as [| x xs IH]; cbn; [constructor |]. rewrite !NoDup_app. intros (Hx & Hdis & Hxs).
  split_and!; [apply Hnd; [by left | done] | | apply IH; [| done]; intros z Hz; apply Hnd; by right].
  intros y Hy Hy'. apply (Hdis (φ y)); [by apply Hsub |]. 
  apply list_elem_of_In, in_flat_map in Hy' as (z & Hz & Hy'%list_elem_of_In). apply list_elem_of_In, in_flat_map. exists z. split; [done |]. apply list_elem_of_In. by apply Hsub.
Qed.

Lemma leafs_NoDup h (t : shape K V h) : NoDup (foot h t) → NoDup (leafs h t).
Proof.
  induction h as [| h IH]; [intros _; apply NoDup_singleton |]. cbn. intros [_ Hn]%NoDup_cons. revert Hn.
  apply (NoDup_flat_map_sub _ _ ALeaf); [congruence | |].
  - intros x l Hl. right. by apply elem_of_leafs.
  - intros x _ [_ Hn]%NoDup_cons. by apply IH.
Qed.
(** The entries of the leaves. *)
Fixpoint pieces h : shape K V h → list (list (K * V)) :=
  match h with
  | O => λ t, [sl_entries t]
  | S h => λ t, flat_map (λ x, pieces h x.2) (slots t)
  end.

Lemma concat_pieces h (t : shape K V h) : concat (pieces h t) = contents h t.
Proof.
  induction h as [| h IH]; [apply app_nil_r |]. cbn. induction (slots t) as [| x xs IHx]; [done |]. cbn.
  by rewrite concat_app, IH, IHx.
Qed.
End Rep.
