(* ===== verification/TreeSearch.v ===== *)
(** * Scanning the leaves of a tree, searching in its nodes *)
From stdpp Require Import sorting.
From S2P Require Import Prelude Atomic Ord Tag AtomicShared LinkedList Dimension Leaf LeafInv LeafState LeafSeq LeafScan TreeStore TreeLeafNode TreeNode TreeRep.

#[local] Existing Instance Tag.eq_dec.

(** ** Scanning the leaves of a tree

    A scanner goes through the entries of a leaf, [jump] through the leaves of a chain; both
    leave the tree as it is, except that links take shortcuts ([tidied]). *)

Section Scan.
Context {K V : Type} `{KeyOrd K}.

Implicit Types (s : tree K V) (a : addr) (l i c : nat) (p : Ptr) (nd : Node K) (k : K).

(** ** Links *)

Record tidied s s' : Prop := {
  td_short L y : segment s L y → segment s' L y;
  td_links : relinked s s'
}.

Lemma tidied_refl s : tidied s s.
Proof. split; [done | apply rtc_refl]. Qed.

Lemma tidied_trans s1 s2 s3 : tidied s1 s2 → tidied s2 s3 → tidied s1 s3.
Proof. intros [S1 L1] [S2 L2]. split; [auto | by eapply relinked_trans]. Qed.

Lemma tidied_view s s' a : tidied s s' → view s' a = view s a.
Proof. intros [_ Hr]. apply (relinked_same (λ s, view s a) s s' Hr). intros e p s0 _. apply view_link. Qed.

Lemma tidied_root s s' : tidied s s' → root s' = root s.
Proof. intros [_ Hr]. by apply (relinked_same root s s' Hr). Qed.

Lemma tidied_leaves s s' : tidied s s' → length (leaves s') = length (leaves s).
Proof. intros [_ Hr]. apply (relinked_same (λ s, length (leaves s)) s s' Hr). intros. cbn. by rewrite length_alter. Qed.

Lemma tidied_chain s s' C : tidied s s' → chain s C → chain s' C.
Proof.
  intros Ht [Hn Hc Hb]. constructor; [done | by apply (td_short _ _ Ht) |].
  intros l Hl. rewrite (tidied_view _ _ _ Ht). by apply Hb.
Qed.

Lemma tidied_step F s s' : tidied s s' → step F 0 s s'.
Proof. intros Ht. eapply step_weaken; [apply step_relinked, Ht | by intros a ?%not_elem_of_nil | lia]. Qed.

Lemma tidied_rep s s' fz lk h (t : shape K V h) : tidied s s' → rep fz lk s h t → rep fz lk s' h t.
Proof. intros Ht Hr. eapply rep_frame; [exact Hr |]. intros a _. by apply tidied_view. Qed.

(** Deleted leaves are allocated, too. *)
Lemma leads_bound s q x (ds : list nat) : leads s q x ds → (length ds ≤ length (leaves s))%nat.
Proof.
  intros Hl. rewrite <-(length_seq (length (leaves s)) 0). apply submseteq_length, NoDup_submseteq; [by eapply leads_NoDup |].
  intros e He. destruct (leads_in _ _ _ _ _ Hl He) as (p & ds2 & Hp & _). apply elem_of_seq. split; [lia |].
  cbn in Hp. apply fmap_Some in Hp as (x' & Hx & _). by eapply lookup_lt_Some.
Qed.

Lemma chain_bound s C : chain s C → (length C ≤ length (leaves s))%nat.
Proof.
  intros [Hn _ Hb]. rewrite <-(length_seq (length (leaves s)) 0). apply submseteq_length, NoDup_submseteq; [done |].
  intros l Hl. destruct (Hb l Hl) as (b & Hv & _). apply elem_of_seq. split; [lia |].
  destruct (decide (length (leaves s) ≤ l)%nat) as [Hge | Hlt]; [| cbn; lia]. apply view_None_leaf in Hge. congruence.
Qed.

(** The entries of the leaves of a list. *)
Definition listed s (C : list nat) (Es : list (list (K * V))) : Prop :=
  Forall2 (λ l E, ∃ b, view s (ALeaf l) = Some (VLeaf b) ∧ wf b [] ∧ sorted_entries b = E) C Es.

Lemma listed_view s s' C Es : listed s C Es → (∀ l, l ∈ C → view s' (ALeaf l) = view s (ALeaf l)) → listed s' C Es.
Proof.
  intros Hl Hv. induction Hl as [| l E C Es Hb Hl IH]; [constructor |]. constructor.
  - by rewrite Hv by by left.
  - apply IH. intros l' Hl'. apply Hv. by right.
Qed.

Lemma tidied_listed s s' C Es : tidied s s' → listed s C Es → listed s' C Es.
Proof. intros Ht Hl. eapply listed_view; [exact Hl |]. intros l _. by apply tidied_view. Qed.

Lemma chain_listed s C : chain s C → ∃ Es, listed s C Es.
Proof.
  intros [_ _ Hb]. induction C as [| l C IH]; [exists []; constructor |].
  destruct (Hb l ltac:(by left)) as (b & Hv & Hw). destruct IH as [Es Hl]; [intros l' Hl'; apply Hb; by right |].
  exists (sorted_entries b :: Es). constructor; [by exists b | done].
Qed.

Lemma rep_listed fz lk s h (t : shape K V h) : rep fz lk s h t → listed s (leafs h t) (pieces h t).
Proof.
  induction h as [| h IH]; [intros (b & Hb & Hr); repeat constructor; exists b; split; [done |]; split; apply Hr |].
  intros [_ Hx]%rep_S. cbn. induction Hx as [| x xs [_ Hr] Hx IHx]; [constructor |]. apply Forall2_app; [by apply IH | done].
Qed.

Section Runs.
Context (n : nat) {R : Type} (Q : R → tree K V → Prop).

Lemma runs_next_leaf (C1 C2 : list nat) l (k : Ptr → prog (tree K V) R) s :
  chain s (C1 ++ l :: C2) → (length (leaves s) < n)%nat →
  (∀ r s', r.1 = first C2 None → tidied s s' → runs (k r) s' Q) →
  runs (let! r := next_ptr n l in k r) s Q.
Proof.
  intros Hc Hn Hk. pose proof (ch_links _ _ Hc) as Hl. apply segment_app in Hl as [_ [(p & ds & Hp & Hv & Hl) _]].
  eapply (runs_next_ptr n l p (first C2 None) ds); [exact Hp | | exact Hl | |].
  - intros Hb. by destruct Hv; congruence.
  - pose proof (leads_bound _ _ _ _ Hl). lia.
  - intros r s' Hr Hs Hre. apply Hk; [done |]. split; [| done]. intros L y. by apply segment_shortcut.
Qed.

Lemma runs_clear (C : list nat) l (k : bool → prog (tree K V) R) s :
  chain s C → l ∈ C → (∀ b, runs (k b) s Q) → runs (let! r := is_clear l in k r) s Q.
Proof.
  intros Hc Hl Hk. destruct (segment_valid _ _ _ _ (ch_links _ _ Hc) Hl) as (p & Hp & _).
  by eapply runs_is_clear.
Qed.
End Runs.

(** ** Scanners *)

(** A scanner over the metadata [m]: its entry, and the entries that follow.  [e] is what the
    slots hold as long as it is used. *)
Inductive scanning {B} (e : nat → option (K * B)) (m : Z) : Scanner → option (K * B) → list (K * B) → Prop :=
  | scan_start : scanning e m (scanner_at m N) None (omap e (in_order m))
  | scan_entry i x : (i < N)%nat → ranked e m i x → scanning e m (scanner_at m i) (Some x) (omap e (rest m (Z.to_nat (rk m i))))
  | scan_end : scanning e m (fused m) None [].

Lemma runs_scanner_next {B} (e : nat → option (K * B)) m (b : leaf K B) sc x rem :
  snapshot e m → agrees e b → scanning e m sc x rem →
  runs (scanner_next sc) b (λ r b', b' = b ∧ r.1 = head rem ∧ scanning e m r.2 (head rem) (tail rem)).
Proof.
  intros Hs Hag Hsc.
  assert (Hat : ∀ index c, position m index c →
    runs (scanner_next (scanner_at m index)) b
      (λ r b', b' = b ∧ r.1 = head (omap e (rest m c)) ∧ scanning e m r.2 (head (omap e (rest m c))) (tail (omap e (rest m c))))).
  { intros index c Hp. eapply runs_mono; [| eapply (runs_reads (agrees e)); [exact Hag | by eapply scanner_next_spec]].
    intros [o sc'] b' [Hr ->]. split; [done |]. destruct (rest m c) as [| i rs]; [destruct Hr as [-> ->]; split; [done | constructor] |].
    destruct Hr as (y & Hy & -> & -> & Heq). injection Heq as Heq. csimpl. rewrite (proj2 (proj2 Hy)). cbn [head tail fst snd].
    split; [done |]. rewrite Heq. apply scan_entry; [apply Hy | done]. }
  destruct Hsc as [| i y Hi Hy |].
  - apply (Hat N O). left. done.
  - apply Hat. apply position_at; [done | apply Hy].
  - eapply runs_mono; [| eapply (runs_reads (agrees e)); [exact Hag | by apply fused_next]].
    intros r b' [-> ->]. split; [done |]. split; [done | constructor].
Qed.

Lemma runs_scanner_get {B} (b : leaf K B) sc x rem :
  scanning (entry b) (metadata b) sc x rem → runs (scanner_get sc) b (λ r b', b' = b ∧ r = x).
Proof.
  intros Hsc. unfold scanner_get. destruct Hsc as [| i y Hi Hy |]; cbn [entry_index scanner_at fused].
  - rewrite (proj2 (Z.leb_le _ _)) by lia. by apply runs_ret.
  - rewrite (proj2 (Z.leb_gt _ _)) by lia. rewrite Nat2Z.id. destruct Hy as (_ & _ & Hy).
    eapply runs_key_at; [exact Hy |]. eapply runs_value_at; [exact Hy |]. apply runs_ret. by destruct y.
  - rewrite (proj2 (Z.leb_le _ _)); [by apply runs_ret |]. change (umax usize_bits) with (2 ^ 64 - 1)%Z. dims.
Qed.

Lemma runs_scanner_max_less {B} (b : leaf K B) (key : K) :
  wf b [] →
  runs (scanner_max_less key) b (λ r b', b' = b ∧ match r with
    | None => ∀ x, x ∈ entries b → cmp x.1 key ≠ Lt
    | Some sc => ∃ x rem, x ∈ entries b ∧ cmp x.1 key = Lt ∧ (∀ y, y ∈ entries b → cmp y.1 key = Lt → cmp x.1 y.1 ≠ Lt) ∧
        sc_metadata sc = metadata b ∧ scanning (entry b) (metadata b) sc (Some x) rem
    end).
Proof.
  intros Hw. unfold scanner_max_less. apply runs_load. eapply runs_call.
  { eapply (runs_reads (agrees (entry b))); [apply agrees_self | by apply max_less_spec, (wf_snapshot _ _ Hw)]. }
  intros i b' [Hr ->]. apply runs_ret. split; [done |]. unfold max_less_result in Hr. destruct (Nat.eqb_spec i N) as [-> | Hne].
  - rewrite decide_True in Hr by done. intros x [j Hx]%elem_of_entries. by apply (Hr j).
  - rewrite decide_False in Hr by done. destruct Hr as (x & Hx & Hlt & Hmax). exists x. eexists. split_and!; [| done | | done |].
    + apply elem_of_entries. by exists i.
    + intros y [j Hy]%elem_of_entries Hly. apply (rank_key_le b j i y x Hw Hy Hx). by apply (Hmax j y).
    + apply scan_entry; [apply Hx | done].
Qed.

Lemma runs_scanner_new {B} (b : leaf K B) :
  runs scanner_new b (λ r b', b' = b ∧ scanning (entry b) (metadata b) r None (sorted_entries b) ∧ sc_metadata r = metadata b).
Proof. apply runs_load, runs_ret. split; [done |]. split; [constructor | done]. Qed.

(** A scanner of a leaf in the tree. *)
Definition scans s (sc : TreeScanner) l x (rem : list (K * V)) : Prop :=
  scanner_leaf sc = l ∧ ∃ b, view s (ALeaf l) = Some (VLeaf b) ∧ wf b [] ∧ scanning (entry b) (metadata b) (scanner_state sc) x rem.

Lemma scans_view s s' sc l x rem : scans s sc l x rem → view s' (ALeaf l) = view s (ALeaf l) → scans s' sc l x rem.
Proof. intros (Hl & b & Hb & Hw & Hsc) Hv. split; [done |]. exists b. by rewrite Hv. Qed.

Section TreeScanner.
Context {R : Type} (Q : R → tree K V → Prop).

Lemma runs_tree_scanner_new l b (k : TreeScanner → prog (tree K V) R) s :
  view s (ALeaf l) = Some (VLeaf b) → wf b [] →
  (∀ sc, scans s sc l None (sorted_entries b) → runs (k sc) s Q) →
  runs (let! sc := tree_scanner_new l in k sc) s Q.
Proof.
  intros Hb Hw Hk. unfold tree_scanner_new. apply runs_bind. eapply runs_leaf_read; [exact Hb | apply runs_scanner_new |].
  intros sc [Hsc _]. apply runs_ret. apply Hk. split; [done |]. by exists b.
Qed.

Lemma runs_tree_scanner_get sc l x rem (k : option (K * V) → prog (tree K V) R) s :
  scans s sc l x rem → runs (k x) s Q → runs (let! r := tree_scanner_get sc in k r) s Q.
Proof.
  intros (<- & b & Hb & Hw & Hsc) Hk. unfold tree_scanner_get. eapply runs_leaf_read; [exact Hb | by eapply runs_scanner_get |].
  by intros r ->.
Qed.

Lemma runs_tree_scanner_next sc l x rem (k : option (K * V) * TreeScanner → prog (tree K V) R) s :
  scans s sc l x rem → (∀ sc', scans s sc' l (head rem) (tail rem) → runs (k (head rem, sc')) s Q) →
  runs (let! r := tree_scanner_next sc in k r) s Q.
Proof.
  intros (<- & b & Hb & Hw & Hsc) Hk. unfold tree_scanner_next. apply runs_bind.
  eapply runs_leaf_read; [exact Hb | eapply runs_scanner_next; [by eapply wf_snapshot | apply agrees_self | exact Hsc] |].
  intros r [Hr Hsc']. apply runs_ret. rewrite Hr. apply Hk. split; [done |]. by exists b.
Qed.
End TreeScanner.

(** ** [jump] *)

(** To the first entry of the next leaf that has one. *)
Inductive landed s : list nat → list (list (K * V)) → option TreeScanner → Prop :=
  | landed_none C Es : (∀ E, E ∈ Es → E = []) → landed s C Es None
  | landed_leaf C1 l C2 Es1 x rem Es2 sc :
      length C1 = length Es1 → (∀ E, E ∈ Es1 → E = []) → scans s sc l (Some x) rem →
      landed s (C1 ++ l :: C2) (Es1 ++ (x :: rem) :: Es2) (Some sc).

Lemma landed_skip s l C Es r : landed s C Es r → landed s (l :: C) ([] :: Es) r.
Proof.
  intros [C' Es' Hall | C1 l' C2 Es1 x rem Es2 sc Hlen Hall Hsc].
  - constructor. intros E [-> | HE]%elem_of_cons; auto.
  - apply (landed_leaf s (l :: C1) l' C2 ([] :: Es1)); [cbn; lia | | done]. intros E [-> | HE]%elem_of_cons; auto.
Qed.

Lemma runs_jump {R} n (Q : R → tree K V → Prop) sc l x0 rem0 (C1 C2 : list nat) Es (ok : option K)
    (k : option TreeScanner → prog (tree K V) R) s :
  scans s sc l x0 rem0 → chain s (C1 ++ l :: C2) → listed s C2 Es → (length (leaves s) < n)%nat →
  (∀ key E y, ok = Some key → E ∈ Es → y ∈ E → cmp key y.1 = Lt) →
  (∀ r s', landed s' C2 Es r → tidied s s' → runs (k r) s' Q) →
  runs (let! r := jump n sc ok in k r) s Q.
Proof.
  intros Hsc Hc Hls Hn Hkey Hk.
  apply (runs_call _ _ _ (λ r s', landed s' C2 Es r ∧ tidied s s')); [clear Hk | intros r s' [Hl Ht]; by apply Hk].
  unfold jump. destruct Hsc as (-> & b & Hb & Hw & _).
  apply (runs_next_leaf n _ C1 C2); [done | done |]. intros p s1 Hp Ht.
  assert (Hlen : (length C2 < n)%nat).
  { pose proof (chain_bound _ _ Hc) as Hbd. rewrite length_app in Hbd. cbn in Hbd. lia. }
  apply (runs_loop_down (λ m p s2, tidied s s2 ∧ ∃ C3 C4 Es3 Es4, C2 = C3 ++ C4 ∧ Es = Es3 ++ Es4 ∧ length C3 = length Es3 ∧
    (∀ E, E ∈ Es3 → E = []) ∧ p.1 = first C4 None ∧ m = length C4) _ (length C2)); [| done |].
  { split; [done |]. exists [], C2, [], Es. split_and!; try done. by intros E ?%not_elem_of_nil. }
  clear p Hp s1 Ht. intros m p s2 (Ht & C3 & C4 & Es3 & Es4 & -> & -> & Hl3 & Hall & Hp & ->). rewrite Hp.
  pose proof (tidied_chain _ _ _ Ht Hc) as Hc2. rewrite <-(tidied_leaves _ _ Ht) in Hn. pose proof (tidied_listed _ _ _ _ Ht Hls) as Hls2.
  assert (Hls4 : listed s2 C4 Es4).
  { apply Forall2_app_inv in Hls2; [apply Hls2 | done]. }
  destruct Hls4 as [| l2 E C4 Es4 (b2 & Hb2 & Hw2 & HE) Hls4]; cbn [first].
  { apply runs_ret. split; [| done]. constructor. intros E [HE | HE]%elem_of_app; [by apply Hall | by apply not_elem_of_nil in HE]. }
  assert (Hskip : ∀ s3, tidied s2 s3 → E = [] → runs (let! next := next_ptr n l2 in Ret (Continue (R := option TreeScanner) next)) s3
    (λ x s', match x with
             | Continue b' => ∃ m', (m' < length (l2 :: C4))%nat ∧ tidied s s' ∧ ∃ C5 C6 Es5 Es6, C3 ++ l2 :: C4 = C5 ++ C6 ∧
                 Es3 ++ E :: Es4 = Es5 ++ Es6 ∧ length C5 = length Es5 ∧ (∀ E, E ∈ Es5 → E = []) ∧ b'.1 = first C6 None ∧ m' = length C6
             | Break r => landed s' (C3 ++ l2 :: C4) (Es3 ++ E :: Es4) r ∧ tidied s s' end)).
  { intros s3 Ht3 ->. pose proof (tidied_chain _ _ _ Ht3 Hc2) as Hc3. rewrite <-(tidied_leaves _ _ Ht3) in Hn.
    apply (runs_next_leaf n _ (C1 ++ l :: C3) C4); [by rewrite <-app_assoc | done |]. intros p' s4 Hp' Ht4. apply runs_ret.
    exists (length C4). split; [cbn; lia |]. split; [by eapply tidied_trans, tidied_trans |].
    exists (C3 ++ [l2]), C4, (Es3 ++ [[]]), Es4. rewrite <-!app_assoc, !length_app. split_and!; try done; [cbn; lia |].
    intros E' [HE' | ->%list_elem_of_singleton]%elem_of_app; auto. }
  eapply runs_tree_scanner_new; [exact Hb2 | exact Hw2 |]. rewrite HE. intros sc2 Hsc2.
  eapply (runs_call _ _ _ (λ r s', s' = s2 ∧ match r with
    | Some (Some sc') => ∃ x rem, E = x :: rem ∧ scans s2 sc' l2 (Some x) rem | Some None => E = [] | None => True end)).
  - destruct ok as [key |]; [| by apply runs_ret]. apply (runs_clear _ _ _ _ _ Hc2); [apply elem_of_app; right; by left |].
    intros [|]; cbn [negb]; [by apply runs_ret |]. apply runs_bind. unfold next_above. apply runs_loop_once; [lia |].
    eapply runs_tree_scanner_next; [exact Hsc2 |]. intros sc3 Hsc3. destruct E as [| y rem]; cbn [head tail fst snd] in *.
    { apply runs_ret. by exists None. }
    rewrite bool_decide_true by (apply (Hkey key (y :: rem) y); [done | apply elem_of_app; right; by left | by left]).
    apply runs_ret. exists (Some sc3). split; [done |]. apply runs_ret. split; [done |]. by exists y, rem.
  - intros r s3 [-> Hr]. assert (Hland : ∀ sc' x rem, E = x :: rem → scans s2 sc' l2 (Some x) rem → landed s2 (C3 ++ l2 :: C4) (Es3 ++ E :: Es4) (Some sc')).
    { intros sc' x rem -> Hsc'. by apply landed_leaf. }
    destruct r as [[sc' |] |].
    + destruct Hr as (x & rem & HE' & Hsc'). apply runs_ret. split; [by eapply Hland | done].
    + apply Hskip; [apply tidied_refl | done].
    + eapply runs_tree_scanner_next; [exact Hsc2 |]. intros sc3 Hsc3. destruct E as [| y rem]; cbn [head tail fst snd] in *.
      * apply Hskip; [apply tidied_refl | done].
      * apply runs_ret. split; [by eapply Hland | done].
Qed.
(** ** Loops over the children of a node *)

Lemma runs_for_children {A R} n i (ch : leaf K nat) (body : K * nat → A → prog (tree K V) (flow A R))
    (I : list (K * nat) → A → tree K V → Prop) x s (Q : flow A R → tree K V → Prop) :
  wf ch [] → children_at i s = Some ch → (N < n)%nat → I [] x s →
  (∀ d1 x s, I d1 x s → ∃ ch', children_at i s = Some ch' ∧ agrees (entry ch) ch') →
  (∀ d1 y d2 x s, sorted_entries ch = d1 ++ y :: d2 → I d1 x s →
     runs (body y x) s (λ r s', match r with Continue x' => I (d1 ++ [y]) x' s' | Break r => Q (Break r) s' end)) →
  (∀ x s, I (sorted_entries ch) x s → Q (Continue x) s) →
  runs (for_children n i body x) s Q.
Proof.
  intros Hw Hch Hn HI Hag Hbody Hend. pose proof (wf_snapshot _ _ Hw) as Hs. unfold for_children, at_children. apply runs_bind.
  eapply runs_zoom; [apply _ | exact Hch |]. eapply runs_mono; [| apply runs_scanner_new]. intros sc ch' (-> & Hsc & _).
  rewrite (part_put_get s ch Hch). set (e := entry ch) in *.
  apply (runs_loop_down (λ m (b : Scanner * A) s, ∃ d1 y d2, sorted_entries ch = d1 ++ d2 ∧ I d1 b.2 s ∧ scanning e (metadata ch) b.1 y d2 ∧ m = length d2)
    _ (length (sorted_entries ch))).
  - by exists [], None, (sorted_entries ch).
  - rewrite length_sorted_entries by done. pose proof (length_rest (metadata ch) 0). unfold in_order. lia.
  - clear Hch HI sc Hsc x s. intros m [sc x] s (d1 & y & d2 & Heq & HI & Hsc & ->). cbn [fst snd] in *.
    destruct (Hag _ _ _ HI) as (ch' & Hch' & Hag'). apply runs_bind. eapply runs_zoom; [apply _ | exact Hch' |].
    eapply runs_mono; [| by eapply (runs_scanner_next e (metadata ch))]. intros r ch2 (-> & Hr & Hsc').
    rewrite (part_put_get s ch' Hch'), Hr. destruct d2 as [| z d2]; cbn [head tail] in *.
    + apply runs_ret. apply Hend. rewrite app_nil_r in Heq. by rewrite Heq.
    + eapply runs_call; [by eapply Hbody |]. intros [x' | r'] s' Hx; apply runs_ret; [| done].
      exists (length d2). split; [cbn; lia |]. exists (d1 ++ [z]), (Some z), d2. by rewrite <-app_assoc.
Qed.
End Scan.

(** ** Searching in a tree: [search], [min], [depth] and [cleanup_link] of the nodes

    The children of a node are searched for the slot of a key ([runs_find]); the functions on
    the nodes follow the slots down to a leaf. *)

Section Search.
Context {K V : Type} `{KeyOrd K}.

Implicit Types (s : tree K V) (l i c : nat) (p : Ptr) (nd : Node K) (k : K) (lo hi : option K).

Lemma elem_of_holding {B} (ch : leaf K B) xs x : holding ch xs → x ∈ entries ch ↔ x ∈ xs.
Proof. intros [Hw _ <-]. destruct (sorted_entries_spec ch Hw) as [_ Hp]. by rewrite Hp. Qed.

Lemma children_last {A} nd (pre : list (slot K A)) x : children_rep nd (pre ++ [x]) → unbounded_of nd = slot_cell x.
Proof. intros [_ Hl]. rewrite last_snoc in Hl. by injection Hl. Qed.

Section Rules.
Context {R : Type} (Q : R → tree K V → Prop).

(** The search in the children finds the slot of the key. *)
Lemma runs_find {A} (B : A → option K → option K → Prop) i nd pre x post lo hi lo' k (kont : option (K * nat) * Z → prog (tree K V) R) s :
  view s (ANode i) = Some (VNode nd) → children_rep nd (pre ++ x :: post) →
  span B pre lo hi lo' → slots_ok B (x :: post) lo' hi → above lo' k → upto k (slot_hi x hi) →
  runs (kont ((λ k', (k', slot_cell x)) <$> slot_key x, metadata (children_of nd))) s Q →
  runs (let! r := at_children i (min_greater_equal k) in kont r) s Q.
Proof.
  intros Hn [Hh _] Hs Hok Hab Hup Hk. set (ch := children_of nd) in *.
  eapply (runs_children_read _ i nd _ (λ r, r = ((λ k', (k', slot_cell x)) <$> slot_key x, metadata ch))); [exact Hn | | by intros r ->].
  eapply runs_mono; [| apply runs_min_greater_equal, Hh]. intros [r m] ch' (-> & -> & Hr). split; [done |]. f_equal.
  destruct r as [[k1 c1] |].
  - destruct Hr as (Hin & Hge & Hmin).
    destruct (find_Some B pre x post lo hi lo' k (k1, c1) Hs Hok Hab Hup) as [-> ->]; [by apply (elem_of_holding ch _ _ Hh) | done | | done].
    intros b Hb. apply Hmin. by apply (elem_of_holding ch _ _ Hh).
  - rewrite (find_None B pre x post lo hi lo' k Hs Hok Hab Hup); [done |]. intros b Hb. apply Hr. by apply (elem_of_holding ch _ _ Hh).
Qed.

Lemma runs_validate i nd (kont : bool → prog (tree K V) R) s :
  view s (ANode i) = Some (VNode nd) → runs (kont true) s Q →
  runs (let! ok := at_children i (validate (metadata (children_of nd))) in kont ok) s Q.
Proof.
  intros Hn Hk. eapply (runs_children_read _ i nd _ (λ r, r = true)); [exact Hn | | by intros r ->].
  apply runs_load, runs_ret. split; [done | apply Z.eqb_refl].
Qed.

(** The entry of the children below a key, if there is one. *)
Lemma runs_children_max_less {A} i nd (xs : list (slot K A)) k (kont : option Scanner → prog (tree K V) R) s :
  view s (ANode i) = Some (VNode nd) → children_rep nd xs →
  ((∀ a, a ∈ keyed xs → cmp a.1 k ≠ Lt) → runs (kont None) s Q) →
  (∀ sc a rem, a ∈ keyed xs → cmp a.1 k = Lt → (∀ b, b ∈ keyed xs → cmp b.1 k = Lt → cmp a.1 b.1 ≠ Lt) →
     sc_metadata sc = metadata (children_of nd) →
     scanning (entry (children_of nd)) (metadata (children_of nd)) sc (Some a) rem → runs (kont (Some sc)) s Q) →
  runs (let! r := at_children i (scanner_max_less k) in kont r) s Q.
Proof.
  intros Hn [Hh _] Hnone Hsome. set (ch := children_of nd) in *.
  eapply (runs_children_read _ i nd); [exact Hn | apply runs_scanner_max_less, Hh |].
  intros [sc |] Hr; [| apply Hnone; intros a Ha; by apply Hr, (elem_of_holding ch _ _ Hh)].
  destruct Hr as (a & rem & Ha & Hlt & Hmax & Hm & Hsc). eapply (Hsome sc a rem); [by apply (elem_of_holding ch _ _ Hh) | done | | done | done].
  intros b Hb. by apply Hmax, (elem_of_holding ch _ _ Hh).
Qed.

Lemma runs_children_get i nd sc x rem (kont : option (K * nat) → prog (tree K V) R) s :
  view s (ANode i) = Some (VNode nd) → scanning (entry (children_of nd)) (metadata (children_of nd)) sc x rem →
  runs (kont x) s Q → runs (let! r := at_children i (scanner_get sc) in kont r) s Q.
Proof.
  intros Hn Hsc Hk. eapply (runs_children_read _ i nd _ (λ r, r = x)); [exact Hn | by eapply runs_scanner_get | by intros r ->].
Qed.
End Rules.

(** ** Going down *)

(** The slot of the key [k] in the node [nd] of the tree [t]. *)
Record descent fz lk s h (t : shape K V (S h)) lo hi k nd pre x post lo' : Prop := {
  ds_node : view s (ANode (nid t)) = Some (VNode nd);
  ds_rep : node_rep h (bool_decide (nid t ∈ lk)) nd (slots t);
  ds_slots : slots t = pre ++ x :: post;
  ds_all : Forall (slot_rep fz lk s h) (slots t);
  ds_span : span (bounded h) pre lo hi lo';
  ds_ok : slots_ok (bounded h) (x :: post) lo' hi;
  ds_above : above lo' k;
  ds_upto : upto k (slot_hi x hi);
  ds_cell : view s (ACell (slot_cell x)) = Some (VCell (Some (sid h x.2), Tag.None));
  ds_child : rep fz lk s h x.2;
  ds_bounded : bounded h x.2 lo' (slot_hi x hi);
  ds_contents v : (k, v) ∈ contents (S h) t ↔ (k, v) ∈ contents h x.2;
  ds_unbounded : slot_key x = None → post = [] ∧ unbounded_of nd = slot_cell x
}.

Lemma descend fz lk s h (t : shape K V (S h)) lo hi k :
  rep fz lk s (S h) t → bounded (S h) t lo hi → above lo k → upto k hi →
  ∃ nd pre x post lo', descent fz lk s h t lo hi k nd pre x post lo'.
Proof.
  intros [(nd & Hnd & Hrep) Hx]%rep_S Hb%bounded_S Hlo Hhi.
  destruct (slots_find (bounded h) _ _ _ _ Hb Hlo Hhi) as (pre & x & post & lo' & Heq & Hs & Hab & Hup & Hok).
  exists nd, pre, x, post, lo'. pose proof Hx as Hx'. rewrite Heq in Hx'. apply Forall_app in Hx' as [_ [[Hc Hrx] _]%Forall_cons].
  constructor; try done.
  - exact (slots_ok_head (bounded h) _ _ _ _ Hok).
  - intros v. rewrite <-(contents_slot _ _ _ _ _ _ _ _ v Hs Hok Hab Hup). unfold slots_contents. by rewrite <-Heq.
  - intros Hk. destruct (slots_ok_None _ _ _ _ _ Hk Hok) as [-> _]. split; [done |].
    apply (children_last nd pre x). rewrite <-Heq. apply Hrep.
Qed.

Lemma runs_descend {R} fz lk s h (t : shape K V (S h)) lo hi k nd pre x post lo' (kont : option (K * nat) * Z → prog (tree K V) R) Q :
  descent fz lk s h t lo hi k nd pre x post lo' →
  runs (kont ((λ k', (k', slot_cell x)) <$> slot_key x, metadata (children_of nd))) s Q →
  runs (let! r := at_children (nid t) (min_greater_equal k) in kont r) s Q.
Proof.
  intros [] Hk. eapply runs_find; try done. rewrite <-ds_slots0. apply ds_rep0.
Qed.

(** ** [search] *)

Lemma leaf_rep_entries fr b (t : sleaf K V) x : leaf_rep fr b t → x ∈ entries b ↔ x ∈ sl_entries t.
Proof. intros [Hw _ <- _ _]. destruct (sorted_entries_spec b Hw) as [_ Hp]. by rewrite Hp. Qed.

Definition found k (l : list (K * V)) (r : option V) : Prop :=
  match r with Some v => (k, v) ∈ l | None => ∀ v, (k, v) ∉ l end.

Lemma found_iff k (l l' : list (K * V)) r : (∀ v, (k, v) ∈ l ↔ (k, v) ∈ l') → found k l r → found k l' r.
Proof. intros Hl. destruct r; cbn; [by rewrite Hl |]. intros Hn v. by rewrite <-Hl. Qed.

Lemma leaf_search_spec fr b (t : sleaf K V) k :
  leaf_rep fr b t → runs (search k) b (λ r b', b' = b ∧ found k (sl_entries t) r).
Proof.
  intros Hr. eapply runs_mono; [| apply runs_search, Hr]. intros [v |] b' [-> Hv]; (split; [done |]); cbn.
  - by eapply leaf_rep_entries.
  - intros v Hin. apply Hv. exists v. by eapply leaf_rep_entries.
Qed.

Section Nodes.
Context (n : nat) (Hn : (0 < n)%nat).

Lemma leaf_node_search_spec s (t : shape K V 1) lo hi k :
  rep [] [] s 1 t → bounded 1 t lo hi → above lo k → upto k hi →
  runs (leaf_node_search n (nid t) k) s (λ r s', s' = s ∧ found k (contents 1 t) r).
Proof.
  intros Hr Hb Hlo Hhi. destruct (descend _ _ _ _ _ _ _ _ Hr Hb Hlo Hhi) as (nd & pre & x & post & lo' & Hd).
  apply runs_loop_once; [done |]. eapply runs_descend; [exact Hd |].
  destruct Hd. destruct ds_child0 as (b & Hv & Hl).
  assert (Hend : runs (let! v := at_leaf (sl_id x.2) (search k) in Ret (Break v)) s (λ y s', ∃ r, y = Break (B := unit) r ∧ s' = s ∧ found k (contents 1 t) r)).
  { eapply runs_leaf_read; [exact Hv | by eapply leaf_search_spec |]. intros r Hf. apply runs_ret. exists r. split; [done |]. split; [done |].
    eapply found_iff; [| exact Hf]. intros v. by rewrite ds_contents0. }
  destruct (slot_key x) as [k' |]; cbn [fmap option_fmap option_map fst snd].
  - eapply runs_cell_load; [exact ds_cell0 |]. cbn [fst]. by eapply runs_validate.
  - destruct ds_unbounded0 as [-> Hu]; [done |]. eapply runs_unbounded_child; [exact ds_node0 |]. rewrite Hu.
    eapply runs_cell_load; [exact ds_cell0 |]. cbn [fst]. by eapply runs_validate.
Qed.

Lemma internal_search_spec child_search s h (t : shape K V (S (S h))) lo hi k :
  rep [] [] s (S (S h)) t → bounded (S (S h)) t lo hi → above lo k → upto k hi →
  (∀ (t : shape K V (S h)) lo hi, rep [] [] s (S h) t → bounded (S h) t lo hi → above lo k → upto k hi →
    runs (child_search (nid t)) s (λ r s', s' = s ∧ found k (contents (S h) t) r)) →
  runs (internal_search n child_search (nid t) k) s (λ r s', s' = s ∧ found k (contents (S (S h)) t) r).
Proof.
  intros Hr Hb Hlo Hhi IH. destruct (descend _ _ _ _ _ _ _ _ Hr Hb Hlo Hhi) as (nd & pre & x & post & lo' & Hd).
  apply runs_loop_once; [done |]. eapply runs_descend; [exact Hd |]. destruct Hd.
  assert (Hend : runs (let! v := child_search (nid x.2) in Ret (Break v)) s (λ y s', ∃ r, y = Break (B := unit) r ∧ s' = s ∧ found k (contents (S (S h)) t) r)).
  { eapply runs_call; [by eapply IH |]. intros r s' [-> Hf]. apply runs_ret. exists r. split; [done |]. split; [done |].
    eapply found_iff; [| exact Hf]. intros v. by rewrite ds_contents0. }
  destruct (slot_key x) as [k' |]; cbn [fmap option_fmap option_map fst snd].
  - eapply runs_cell_load; [exact ds_cell0 |]. cbn [fst]. by eapply runs_validate.
  - destruct ds_unbounded0 as [-> Hu]; [done |]. eapply runs_unbounded_child; [exact ds_node0 |]. rewrite Hu.
    eapply runs_cell_load; [exact ds_cell0 |]. cbn [fst]. by eapply runs_validate.
Qed.

(** The node of a tree, and its kind. *)
Lemma rep_node fz lk s h (t : shape K V (S h)) : rep fz lk s (S h) t → ∃ nd, view s (ANode (nid t)) = Some (VNode nd) ∧ kind h nd.
Proof. intros [(nd & Hnd & [Hk _ _ _]) _]. by exists nd. Qed.

Lemma node_search_spec d s h (t : shape K V (S h)) lo hi k :
  rep [] [] s (S h) t → bounded (S h) t lo hi → above lo k → upto k hi → (h < d)%nat →
  runs (node_search n d (nid t) k) s (λ r s', s' = s ∧ found k (contents (S h) t) r).
Proof.
  induction h as [| h IH] in d, t, lo, hi |- *; intros Hr Hb Hlo Hhi Hd; (destruct d as [| d]; [lia |]);
    destruct (rep_node _ _ _ _ _ Hr) as ([nd | nd] & Hnd & Hk); try done; (eapply runs_node_at; [exact Hnd |]).
  - by eapply leaf_node_search_spec.
  - eapply internal_search_spec; [done.. |]. intros t' lo' hi' Hr' Hb' Hlo' Hhi'. eapply IH; try done. lia.
Qed.
(** ** [min] *)

(** A scanner before the first entry of the tree. *)
Definition leftmost s h (t : shape K V h) (r : option TreeScanner) : Prop :=
  ∃ sc l L E Es, r = Some sc ∧ leafs h t = l :: L ∧ pieces h t = E :: Es ∧ scans s sc l None E.

Lemma leftmost_slot s h (t : shape K V (S h)) x xs r : slots t = x :: xs → leftmost s h x.2 r → leftmost s (S h) t r.
Proof.
  intros Heq (sc & l & L & E & Es & -> & Hl & Hp & Hsc). eexists sc, l, _, E, _. cbn. rewrite Heq. cbn. rewrite Hl, Hp. done.
Qed.

Lemma leftmost_leaf s (t : sleaf K V) sc b : view s (ALeaf (sl_id t)) = Some (VLeaf b) → sorted_entries b = sl_entries t →
  scans s sc (sl_id t) None (sorted_entries b) → leftmost s 0 t (Some sc).
Proof. intros _ Heq Hsc. exists sc, (sl_id t), [], (sl_entries t), []. split_and!; [done | done | done | by rewrite <-Heq]. Qed.

(** The first slot of a node. *)
Lemma first_slot fz lk s h (t : shape K V (S h)) lo hi : rep fz lk s (S h) t → bounded (S h) t lo hi →
  ∃ nd x xs, view s (ANode (nid t)) = Some (VNode nd) ∧ kind h nd ∧ slots t = x :: xs ∧ slot_rep fz lk s h x ∧
    bounded h x.2 lo (slot_hi x hi) ∧
    wf (children_of nd) [] ∧ sorted_entries (children_of nd) = keyed (slots t) ∧
    match slot_key x with Some k => True | None => xs = [] ∧ unbounded_of nd = slot_cell x end.
Proof.
  intros [(nd & Hnd & Hrep) Hx]%rep_S Hb%bounded_S. destruct (slots t) as [| x xs] eqn:Heq; [by apply slots_ok_nonempty in Hb |].
  exists nd, x, xs. apply Forall_cons in Hx as [Hx _]. pose proof (nr_children _ _ _ _ Hrep) as Hc.
  split; [done |]. split; [apply Hrep |]. split; [done |]. split; [exact Hx |]. split; [exact (slots_ok_head (bounded h) _ _ _ _ Hb) |].
  split; [apply Hc |]. split; [apply Hc |].
  destruct (slot_key x) eqn:Hk; [done |]. destruct (slots_ok_None _ _ _ _ _ Hk Hb) as [-> _].
  split; [done |]. by apply (children_last nd []).
Qed.

Lemma runs_children_scanner {R} i nd (kont : Scanner → prog (tree K V) R) s Q :
  view s (ANode i) = Some (VNode nd) →
  (∀ sc, scanning (entry (children_of nd)) (metadata (children_of nd)) sc None (sorted_entries (children_of nd)) →
     sc_metadata sc = metadata (children_of nd) → runs (kont sc) s Q) →
  runs (let! sc := at_children i scanner_new in kont sc) s Q.
Proof.
  intros Hnd Hk. eapply runs_children_read; [exact Hnd | apply runs_scanner_new |]. intros sc [Hsc Hm]. by apply Hk.
Qed.

Lemma runs_children_next {R} i nd sc x rem (kont : option (K * nat) * Scanner → prog (tree K V) R) s Q :
  view s (ANode i) = Some (VNode nd) → wf (children_of nd) [] →
  scanning (entry (children_of nd)) (metadata (children_of nd)) sc x rem →
  (∀ sc', scanning (entry (children_of nd)) (metadata (children_of nd)) sc' (head rem) (tail rem) → runs (kont (head rem, sc')) s Q) →
  runs (let! r := at_children i (scanner_next sc) in kont r) s Q.
Proof.
  intros Hnd Hw Hsc Hk. eapply runs_children_read; [exact Hnd | eapply runs_scanner_next; [by eapply wf_snapshot | apply agrees_self | exact Hsc] |].
  intros [o sc'] [Ho Hsc']. cbn in Ho. subst o. by apply Hk.
Qed.

Lemma leaf_node_min_spec s (t : shape K V 1) lo hi :
  rep [] [] s 1 t → bounded 1 t lo hi → runs (leaf_node_min n (nid t)) s (λ r s', s' = s ∧ leftmost s 1 t r).
Proof.
  intros Hr Hb. destruct (first_slot _ _ _ _ _ _ _ Hr Hb) as (nd & x & xs & Hnd & _ & Heq & [Hc (b & Hv & Hl)] & _ & Hw & Hs & Hu).
  apply runs_loop_once; [done |]. eapply runs_children_scanner; [exact Hnd |]. intros sc Hsc Hm.
  eapply runs_children_next; [exact Hnd | done | exact Hsc |]. intros sc' _. rewrite Hs, Heq, Hm.
  assert (Hend : runs (let! sc := tree_scanner_new (sl_id x.2) in Ret (Break (Some sc))) s
    (λ y s', ∃ r, y = Break (B := unit) r ∧ s' = s ∧ leftmost s 1 t r)).
  { eapply runs_tree_scanner_new; [exact Hv | apply Hl |]. intros tsc Htsc. apply runs_ret. eexists. split; [done |]. split; [done |].
    eapply leftmost_slot; [exact Heq |]. eapply leftmost_leaf; [exact Hv | apply Hl | done]. }
  destruct (slot_key x) as [k |] eqn:Hk; [rewrite (keyed_Some _ _ _ Hk) | rewrite (keyed_None _ _ Hk)]; cbn [head fst snd].
  - eapply runs_cell_load; [exact Hc |]. cbn [fst]. by eapply runs_validate.
  - destruct Hu as [-> Hu]. cbn [head keyed omap list_omap fst snd]. eapply runs_unbounded_child; [exact Hnd |]. rewrite Hu.
    eapply runs_cell_load; [exact Hc |]. cbn [fst]. by eapply runs_validate.
Qed.

Lemma internal_min_spec child_min s h (t : shape K V (S (S h))) lo hi :
  rep [] [] s (S (S h)) t → bounded (S (S h)) t lo hi →
  (∀ (t : shape K V (S h)) lo hi, rep [] [] s (S h) t → bounded (S h) t lo hi →
    runs (child_min (nid t)) s (λ r s', s' = s ∧ leftmost s (S h) t r)) →
  runs (internal_min n child_min (nid t)) s (λ r s', s' = s ∧ leftmost s (S (S h)) t r).
Proof.
  intros Hr Hb IH. destruct (first_slot _ _ _ _ _ _ _ Hr Hb) as (nd & x & xs & Hnd & _ & Heq & [Hc Hrx] & Hbx & Hw & Hs & Hu).
  pose proof (IH _ _ _ Hrx Hbx) as Hmin. apply runs_loop_once; [done |]. eapply runs_children_scanner; [exact Hnd |]. intros sc Hsc Hm.
  assert (Hleft : ∀ r, leftmost s (S h) x.2 r → leftmost s (S (S h)) t r) by (intros r; by eapply leftmost_slot).
  unfold internal_min_children. rewrite Hm. destruct (slot_key x) as [k |] eqn:Hk.
  - apply runs_bind, runs_loop_once; [done |]. eapply runs_children_next; [exact Hnd | done | exact Hsc |]. intros sc' _.
    rewrite Hs, Heq, (keyed_Some _ _ _ Hk). cbn [head fst snd].
    eapply runs_cell_load; [exact Hc |]. cbn [fst]. eapply runs_validate; [exact Hnd |].
    eapply runs_call; [exact Hmin |]. intros r s' [-> Hl]. destruct Hl as (tsc & Hl). pose proof Hl as Hl'.
    destruct Hl' as (l & L & E & Es & -> & _). apply runs_ret. eexists. split; [done |]. apply runs_ret. eexists. split; [done |].
    split; [done |]. apply Hleft. by exists tsc.
  - destruct Hu as [-> Hu]. apply runs_bind, runs_loop_once; [done |]. eapply runs_children_next; [exact Hnd | done | exact Hsc |]. intros sc' _.
    rewrite Hs, Heq, (keyed_None _ _ Hk). cbn [head fst snd].
    apply runs_ret. eexists. split; [done |]. eapply runs_unbounded_child; [exact Hnd |]. rewrite Hu.
    eapply runs_cell_load; [exact Hc |]. cbn [fst]. eapply runs_validate; [exact Hnd |].
    eapply runs_call; [exact Hmin |]. intros r s' [-> Hl]. apply runs_ret. eexists. split; [done |]. split; [done |]. by apply Hleft.
Qed.

Lemma node_min_spec d s h (t : shape K V (S h)) lo hi :
  rep [] [] s (S h) t → bounded (S h) t lo hi → (h < d)%nat →
  runs (node_min n d (nid t)) s (λ r s', s' = s ∧ leftmost s (S h) t r).
Proof.
  induction h as [| h IH] in d, t, lo, hi |- *; intros Hr Hb Hd; (destruct d as [| d]; [lia |]);
    destruct (rep_node _ _ _ _ _ Hr) as ([nd | nd] & Hnd & Hk); try done; (eapply runs_node_at; [exact Hnd |]).
  - by eapply leaf_node_min_spec.
  - eapply internal_min_spec; [done.. |]. intros t' lo' hi' Hr' Hb'. eapply IH; try done. lia.
Qed.

(** ** [depth] *)

Lemma last_slot fz lk s h (t : shape K V (S h)) lo hi : rep fz lk s (S h) t → bounded (S h) t lo hi →
  ∃ nd pre x lo', view s (ANode (nid t)) = Some (VNode nd) ∧ kind h nd ∧ slots t = pre ++ [x] ∧ slot_rep fz lk s h x ∧
    bounded h x.2 lo' hi ∧ unbounded_of nd = slot_cell x.
Proof.
  intros [(nd & Hnd & Hrep) Hx]%rep_S Hb%bounded_S. destruct (slots_ok_last _ _ _ _ Hb) as (pre & x & lo' & Heq & _ & _ & Hbx).
  exists nd, pre, x, lo'. rewrite Heq in Hx. apply Forall_app in Hx as [_ [Hx _]%Forall_cons].
  split; [done |]. split; [apply Hrep |]. split; [done |]. split; [exact Hx |]. split; [done |]. apply (children_last nd pre). rewrite <-Heq. apply Hrep.
Qed.

Lemma node_depth_spec d s h (t : shape K V (S h)) lo hi (z : Z) :
  rep [] [] s (S h) t → bounded (S h) t lo hi → (h < d)%nat →
  runs (node_depth d (nid t) z) s (λ r s', s' = s ∧ r = (z + Z.of_nat h)%Z).
Proof.
  induction h as [| h IH] in d, t, lo, hi, z |- *; intros Hr Hb Hd; (destruct d as [| d]; [lia |]).
  - destruct (rep_node _ _ _ _ _ Hr) as ([nd | nd] & Hnd & Hk); [done |]. eapply runs_node_at; [exact Hnd |]. apply runs_ret. split; [done | lia].
  - destruct (last_slot _ _ _ _ _ _ _ Hr Hb) as ([nd | nd] & pre & x & lo' & Hnd & Hk & Heq & [Hc Hrx] & Hbx & Hu); [| done].
    eapply runs_node_at; [exact Hnd |]. eapply runs_unbounded_child; [exact Hnd |]. rewrite Hu. eapply runs_cell_load; [exact Hc |]. cbn [fst].
    eapply runs_mono; [| eapply IH; [exact Hrx | exact Hbx | lia]]. intros r s' [-> ->]. split; [done | lia].
Qed.

(** ** [cleanup_link] *)

Lemma runs_jumps s sc l E (C : list nat) :
  chain s C → l ∈ C → scans s sc l None E → (length (leaves s) < n)%nat →
  runs (let! j := jump n sc None in
        match j with
        | Some j => let! _ := jump n j None in Ret true
        | None => Ret true
        end) s (λ _ s', tidied s s').
Proof.
  intros Hc (C1 & C2 & ->)%list_elem_of_split Hsc Hlen.
  assert (Hc2 : ∃ Es, listed s C2 Es).
  { destruct (chain_listed _ _ Hc) as [Es Hl]. apply Forall2_app_inv_l in Hl as (Es1 & Es2 & _ & Hl & ->). inversion Hl; subst. eauto. }
  destruct Hc2 as [Es Hl].
  eapply (runs_jump n _ sc l None _ C1 C2 Es None); [exact Hsc | exact Hc | exact Hl | exact Hlen | done |].
  intros r s1 Hr Ht. destruct Hr as [C Es' Hall | C1' l' C2' Es1 x rem Es2 sc' Hl1 Hall Hsc']; [by apply runs_ret |].
  pose proof (tidied_chain _ _ _ Ht Hc) as Hc1. pose proof (tidied_listed _ _ _ _ Ht Hl) as Hl2.
  apply Forall2_app_inv in Hl2 as [_ Hl2]; [| done]. inversion Hl2 as [| ? ? ? ? _ Hl3]; subst.
  eapply (runs_jump n _ sc' l' (Some x) rem (C1 ++ l :: C1') C2' Es2 None); [exact Hsc' | by rewrite <-app_assoc | exact Hl3 | | done |].
  - by rewrite (tidied_leaves _ _ Ht).
  - intros r s2 _ Ht2. apply runs_ret. by eapply tidied_trans.
Qed.

Lemma elem_of_slots_leafs h (t : shape K V (S h)) x l : x ∈ slots t → l ∈ leafs h x.2 → l ∈ leafs (S h) t.
Proof. intros Hx Hl. cbn. apply list_elem_of_In, in_flat_map. exists x. by rewrite <-!list_elem_of_In. Qed.

(** The slot of an entry of the children. *)
Lemma keyed_slot fz lk s h (xs : list (slot K (shape K V h))) a : Forall (slot_rep fz lk s h) xs → a ∈ keyed xs →
  ∃ x, x ∈ xs ∧ slot_key x = Some a.1 ∧ slot_cell x = a.2 ∧ slot_rep fz lk s h x.
Proof. rewrite Forall_forall. intros Hx (x & Hin & Hk & Hc)%elem_of_keyed. exists x. auto. Qed.

Lemma leaf_node_cleanup_link_spec s (t : shape K V 1) lo hi (C : list nat) k tm :
  rep [] [] s 1 t → bounded 1 t lo hi → chain s C → (∀ l, l ∈ leafs 1 t → l ∈ C) → (length (leaves s) < n)%nat →
  runs (leaf_node_cleanup_link n (nid t) k tm) s (λ _ s', tidied s s').
Proof.
  intros Hr Hb Hc Hin Hlen. destruct (last_slot _ _ _ _ _ _ _ Hr Hb) as (nd & pre & x & lo' & Hnd & Hk & Heq & [Hcx (b & Hv & Hl)] & Hbx & Hu).
  apply rep_S in Hr as [(nd' & Hnd' & Hrep) Hx]. rewrite Hnd in Hnd'. injection Hnd' as <-.
  eapply (runs_call _ _ _ (λ r s', s' = s ∧ ∀ sc, r = Some sc → ∃ l E, scans s sc l None E ∧ l ∈ leafs 1 t)).
  - destruct tm.
    + eapply runs_unbounded_child; [exact Hnd |]. rewrite Hu. eapply runs_cell_load; [exact Hcx |]. cbn [fst].
      eapply runs_tree_scanner_new; [exact Hv | apply Hl |]. intros sc Hsc. apply runs_ret. split; [done |]. intros ? [= <-].
      exists (sl_id x.2), (sorted_entries b). split; [done |]. apply (elem_of_slots_leafs 0 t x); [rewrite Heq; apply elem_of_app; right; by left | by left].
    + eapply runs_children_max_less; [exact Hnd | apply Hrep | |]; [intros _; by apply runs_ret |]. intros sc a rem Ha _ _ _ Hsc.
      destruct (keyed_slot _ _ _ _ _ _ Hx Ha) as (y & Hy & _ & Hcy & [Hvy (by' & Hvy' & Hly)]). destruct a as [ka ca]. cbn in Hcy. subst ca.
      eapply runs_children_get; [exact Hnd | exact Hsc |]. eapply runs_cell_load; [exact Hvy |]. cbn [fst].
      eapply runs_tree_scanner_new; [exact Hvy' | apply Hly |]. intros tsc Htsc. apply runs_ret. split; [done |]. intros ? [= <-].
      exists (sl_id y.2), (sorted_entries by'). split; [done |]. apply (elem_of_slots_leafs 0 t y); [done | by left].
  - intros [sc |] s' [-> Hsc]; [| by apply runs_ret, tidied_refl]. destruct (Hsc sc eq_refl) as (l & E & Hs & Hl'). eapply runs_jumps; [exact Hc | by apply Hin | exact Hs | done].
Qed.

Lemma internal_cleanup_link_spec child_cleanup s h (t : shape K V (S (S h))) lo hi k tm :
  rep [] [] s (S (S h)) t → bounded (S (S h)) t lo hi →
  (∀ x tm, x ∈ slots t → runs (child_cleanup (nid x.2) tm) s (λ _ s', tidied s s')) →
  runs (internal_cleanup_link child_cleanup (nid t) k tm) s (λ _ s', tidied s s').
Proof.
  intros Hr Hb IH. destruct (last_slot _ _ _ _ _ _ _ Hr Hb) as (nd & pre & x & lo' & Hnd & Hk & Heq & [Hcx Hrx] & Hbx & Hu).
  apply rep_S in Hr as [(nd' & Hnd' & Hrep) Hx]. rewrite Hnd in Hnd'. injection Hnd' as <-. unfold internal_cleanup_link. destruct tm.
  - eapply runs_unbounded_child; [exact Hnd |]. rewrite Hu. eapply runs_cell_load; [exact Hcx |]. cbn [fst].
    apply IH. rewrite Heq. apply elem_of_app. right. by left.
  - eapply runs_children_max_less; [exact Hnd | apply Hrep | |]; [intros _; by apply runs_ret, tidied_refl |]. intros sc a rem Ha _ _ _ Hsc.
    destruct (keyed_slot _ _ _ _ _ _ Hx Ha) as (y & Hy & _ & Hcy & [Hvy _]). destruct a as [ka ca]. cbn in Hcy. subst ca.
    eapply runs_children_get; [exact Hnd | exact Hsc |]. eapply runs_cell_load; [exact Hvy |]. cbn [fst]. by apply IH.
Qed.

Lemma node_cleanup_link_spec d s h (t : shape K V (S h)) lo hi (C : list nat) k tm :
  rep [] [] s (S h) t → bounded (S h) t lo hi → chain s C → (∀ l, l ∈ leafs (S h) t → l ∈ C) → (length (leaves s) < n)%nat → (h < d)%nat →
  runs (node_cleanup_link n d (nid t) k tm) s (λ _ s', tidied s s').
Proof.
  induction h as [| h IH] in d, t, lo, hi, tm |- *; intros Hr Hb Hc Hin Hlen Hd; (destruct d as [| d]; [lia |]);
    destruct (rep_node _ _ _ _ _ Hr) as ([nd | nd] & Hnd & Hk); try done; (eapply runs_node_at; [exact Hnd |]).
  - by eapply leaf_node_cleanup_link_spec.
  - eapply internal_cleanup_link_spec; [done.. |]. intros x tm' Hx.
    apply rep_S in Hr as [_ Hall]. rewrite Forall_forall in Hall. destruct (Hall x Hx) as [_ Hrx].
    assert (Hbx : ∃ lo hi, bounded (S h) x.2 lo hi).
    { apply bounded_S in Hb. apply list_elem_of_split in Hx as (pre & post & Heq). rewrite Heq in Hb.
      apply slots_ok_app in Hb as (lo' & _ & Hb); [| done]. exists lo', (slot_hi x hi). exact (slots_ok_head (bounded (S h)) _ _ _ _ Hb). }
    destruct Hbx as (lo' & hi' & Hbx). eapply IH; [exact Hrx | exact Hbx | done | | done | lia].
    intros l Hl. apply Hin. by eapply elem_of_slots_leafs.
Qed.
End Nodes.
End Search.
