(* ===== verification/TreeCtx.v ===== *)
(** * Subtrees in their context, sequences of instructions *)
From stdpp Require Import sorting.
From S2P Require Import Prelude Atomic Ord Tag AtomicShared LinkedList Dimension Leaf LeafInv LeafState LeafSeq LeafScan LeafProps TreeStore TreeLeafNode TreeNode TreeRep TreeSearch.

#[local] Existing Instance Tag.eq_dec.

(** ** A subtree in its context

    [ctx] is what the functions of a node need and keep: a subtree in memory, its keys in
    order between two bounds, its leaves in the list between those of [A] and [B].  A step of
    a child is a step of its node. *)

(** Membership in concatenations. *)
Ltac mem := repeat first [rewrite elem_of_app | rewrite elem_of_cons | rewrite elem_of_nil]; tauto.

Ltac mem_from H := repeat first [rewrite elem_of_app in H | rewrite elem_of_cons in H | rewrite elem_of_nil in H]; mem.

Section Ctx.
Context {K V : Type} `{KeyOrd K}.

Implicit Types (s : tree K V) (l i c : nat) (p : Ptr) (nd : Node K) (k : K) (lo hi : option K) (A B : list nat) (F : list addr).

Record ctx s A B h (t : shape K V h) lo hi : Prop := {
  cx_rep : rep [] [] s h t;
  cx_bounded : bounded h t lo hi;
  cx_foot : NoDup (foot h t);
  cx_chain : chain s (A ++ leafs h t ++ B)
}.

(** ** Footprints *)

Lemma NoDup_replace s F1 F F2 F' :
  NoDup (F1 ++ F ++ F2) → NoDup F' → grows s F F' → (∀ a, a ∈ F1 ∨ a ∈ F2 → is_Some (view s a)) → NoDup (F1 ++ F' ++ F2).
Proof.
  intros Hnd Hnd' Hg Hlive. apply NoDup_app in Hnd as (H1 & H12 & (HF & HF2 & H2)%NoDup_app).
  assert (Hfresh : ∀ a, a ∈ F' → a ∉ F → a ∈ F1 ∨ a ∈ F2 → False).
  { intros a Ha Hn Hin. destruct (Hg a Ha) as [? | Hv]; [done |]. specialize (Hlive a Hin). rewrite Hv in Hlive. by destruct Hlive. }
  apply NoDup_app. split; [done |]. split.
  - intros a Ha Hin. specialize (H12 a Ha). rewrite elem_of_app in H12, Hin. destruct Hin as [Hin | Hin]; [| by auto].
    apply (Hfresh a Hin); auto.
  - apply NoDup_app. split; [done |]. split; [| done]. intros a Ha Hin. apply (Hfresh a Ha); [| by right]. intros HaF. by apply (HF2 a HaF).
Qed.

Lemma slots_leafs_app h (xs ys : list (slot K (shape K V h))) : slots_leafs h (xs ++ ys) = slots_leafs h xs ++ slots_leafs h ys.
Proof. apply flat_map_app. Qed.

Lemma slots_contents_app h (xs ys : list (slot K (shape K V h))) : slots_contents h (xs ++ ys) = slots_contents h xs ++ slots_contents h ys.
Proof. apply flat_map_app. Qed.

Lemma slots_contents_cons h x (xs : list (slot K (shape K V h))) : slots_contents h (x :: xs) = contents h x.2 ++ slots_contents h xs.
Proof. done. Qed.

Lemma slots_leafs_cons h x (xs : list (slot K (shape K V h))) : slots_leafs h (x :: xs) = leafs h x.2 ++ slots_leafs h xs.
Proof. done. Qed.

Lemma leafs_S h (t : shape K V (S h)) : leafs (S h) t = slots_leafs h (slots t).
Proof. done. Qed.

Lemma contents_S h (t : shape K V (S h)) : contents (S h) t = slots_contents h (slots t).
Proof. done. Qed.

Lemma foot_S h (t : shape K V (S h)) : foot (S h) t = ANode (nid t) :: slots_foot h (slots t).
Proof. done. Qed.

Lemma foot_split h (t : shape K V (S h)) pre x post : slots t = pre ++ x :: post →
  foot (S h) t = (ANode (nid t) :: slots_foot h pre ++ [ACell (slot_cell x)]) ++ foot h x.2 ++ slots_foot h post.
Proof. intros Heq. rewrite foot_S, Heq, slots_foot_app. cbn. by rewrite <-app_assoc. Qed.

Lemma leafs_split h (t : shape K V (S h)) pre x post : slots t = pre ++ x :: post →
  leafs (S h) t = slots_leafs h pre ++ leafs h x.2 ++ slots_leafs h post.
Proof. intros Heq. cbn. rewrite Heq. apply flat_map_app. Qed.

Lemma contents_split h (t : shape K V (S h)) pre x post : slots t = pre ++ x :: post →
  contents (S h) t = slots_contents h pre ++ contents h x.2 ++ slots_contents h post.
Proof. intros Heq. cbn. rewrite Heq. apply flat_map_app. Qed.

(** Around the slot [x]. *)
Lemma outside_child fz lk s h (t : shape K V (S h)) pre x post a :
  rep fz lk s (S h) t → NoDup (foot (S h) t) → slots t = pre ++ x :: post →
  a ∈ (ANode (nid t) :: slots_foot h pre ++ [ACell (slot_cell x)]) ++ slots_foot h post →
  a ∉ foot h x.2 ∧ is_Some (view s a).
Proof.
  intros Hr Hnd Heq Ha. rewrite (foot_split _ _ _ _ _ Heq) in Hnd. split.
  - intros Hin. apply NoDup_app in Hnd as (_ & H12 & (_ & H3 & _)%NoDup_app). apply elem_of_app in Ha as [Ha | Ha].
    + apply (H12 a Ha), elem_of_app. by left.
    + by apply (H3 a Hin).
  - eapply rep_live; [exact Hr |]. rewrite (foot_split _ _ _ _ _ Heq). set_solver.
Qed.

Lemma ctx_child s A B h (t : shape K V (S h)) lo hi pre x post lo' :
  ctx s A B (S h) t lo hi → slots t = pre ++ x :: post → slots_ok (bounded h) (x :: post) lo' hi →
  ctx s (A ++ slots_leafs h pre) (slots_leafs h post ++ B) h x.2 lo' (slot_hi x hi).
Proof.
  intros [Hr Hb Hnd Hc] Heq Hok. constructor.
  - apply rep_S in Hr as [_ Hx]. rewrite Heq in Hx. by apply Forall_app in Hx as [_ [[_ ?] _]%Forall_cons].
  - exact (slots_ok_head (bounded h) _ _ _ _ Hok).
  - rewrite (foot_split _ _ _ _ _ Heq) in Hnd. by apply NoDup_app in Hnd as (_ & _ & (? & _ & _)%NoDup_app).
  - rewrite (leafs_split _ _ _ _ _ Heq) in Hc. by rewrite <-!app_assoc in *.
Qed.

Lemma children_rep_ext {T1 T2} nd (xs : list (slot K T1)) (ys : list (slot K T2)) :
  children_rep nd xs → keyed ys = keyed xs → slot_cell <$> last ys = slot_cell <$> last xs → children_rep nd ys.
Proof. intros [Hh Hl] Hk Hc. constructor; [by rewrite Hk | by rewrite Hc]. Qed.

(** The slot [x] with another child. *)
Definition with_child {T} (x : slot K T) (u : T) : slot K T := (x.1, u).

Lemma keyed_with_child {T} (pre : list (slot K T)) x u post : keyed (pre ++ with_child x u :: post) = keyed (pre ++ x :: post).
Proof. rewrite !keyed_app. done. Qed.

Lemma last_with_child {T} (pre : list (slot K T)) x u post :
  slot_cell <$> last (pre ++ with_child x u :: post) = slot_cell <$> last (pre ++ x :: post).
Proof. rewrite !last_app_cons. by destruct post. Qed.

Lemma ctx_with_child s s' A B h (t : shape K V (S h)) lo hi pre x post lo' u m :
  ctx s A B (S h) t lo hi → slots t = pre ++ x :: post →
  span (bounded h) pre lo hi lo' → slots_ok (bounded h) (x :: post) lo' hi →
  ctx s' (A ++ slots_leafs h pre) (slots_leafs h post ++ B) h u lo' (slot_hi x hi) →
  sid h u = sid h x.2 → step (foot h x.2) m s s' → grows s (foot h x.2) (foot h u) →
  ctx s' A B (S h) (node (nid t) (pre ++ with_child x u :: post)) lo hi.
Proof.
  intros [Hr Hb Hnd Hc] Heq Hs Hok [Hru Hbu Hndu Hcu] Hsid Hst Hg.
  pose proof (λ a, outside_child _ _ _ _ _ _ _ _ a Hr Hnd Heq) as Hout.
  assert (Hsame : ∀ a, a ∈ (ANode (nid t) :: slots_foot h pre ++ [ACell (slot_cell x)]) ++ slots_foot h post → view s' a = view s a).
  { intros a Ha. destruct (Hout a Ha) as [Hn Hl]. by apply (st_view _ _ _ _ Hst). }
  pose proof Hr as Hr'. apply rep_S in Hr' as [(nd & Hn & Hrep) Hx]. rewrite Heq in Hx.
  apply Forall_app in Hx as [Hpre [[Hcell _] Hpost]%Forall_cons].
  assert (Heq' : slots (node (h := h) (nid t) (pre ++ with_child x u :: post)) = pre ++ with_child x u :: post) by done.
  constructor.
  - split.
    + exists nd. change (nid (node _ _)) with (nid t). rewrite Hsame by (apply elem_of_app; left; by left). split; [done |].
      destruct Hrep as [Hk Hi Hl Hch]. constructor; [done | done | done |]. eapply children_rep_ext; [exact Hch | |]; rewrite Heq.
      * apply keyed_with_child.
      * apply last_with_child.
    + apply Forall_app. split; [| constructor].
      * eapply slots_frame; [exact Hpre |]. intros a Ha. apply Hsame, elem_of_app. left. right. apply elem_of_app. by left.
      * split; [| exact Hru]. cbn [with_child snd]. rewrite Hsid. change (slot_cell (with_child x u)) with (slot_cell x).
        rewrite Hsame; [done |]. apply elem_of_app. left. right. apply elem_of_app. right. by left.
      * eapply slots_frame; [exact Hpost |]. intros a Ha. apply Hsame, elem_of_app. by right.
  - apply slots_ok_app; [done |]. exists lo'. split; [done |]. destruct (slot_key x) as [k |] eqn:Hk.
    + apply (slots_ok_Some _ _ _ _ _ _ Hk) in Hok as (_ & Hrest). apply slots_ok_Some with (k := k); [done |].
      split; [| done]. unfold slot_hi in Hbu. rewrite Hk in Hbu. exact Hbu.
    + destruct (slots_ok_None _ _ _ _ _ Hk Hok) as [-> _]. cbn [slots_ok]. change (slot_key (with_child x u)) with (slot_key x). rewrite Hk.
      split; [done |]. unfold slot_hi in Hbu. rewrite Hk in Hbu. exact Hbu.
  - rewrite (foot_split _ _ _ _ _ Heq'). change (slot_cell (with_child x u)) with (slot_cell x). change (nid (node _ _)) with (nid t).
    rewrite (foot_split _ _ _ _ _ Heq) in Hnd. eapply NoDup_replace; [exact Hnd | exact Hndu | exact Hg |].
    intros a Ha. apply Hout. by apply elem_of_app.
  - rewrite (leafs_split _ _ _ _ _ Heq'). cbn [with_child snd]. by rewrite <-!app_assoc in *.
Qed.

(** The frame of a child, in that of the node. *)
Lemma child_foot h (t : shape K V (S h)) pre x post a : slots t = pre ++ x :: post → a ∈ foot h x.2 → a ∈ foot (S h) t.
Proof. intros Heq Ha. rewrite (foot_split _ _ _ _ _ Heq). set_solver. Qed.

Lemma grows_with_child s h (t : shape K V (S h)) pre x post u : slots t = pre ++ x :: post → grows s (foot h x.2) (foot h u) →
  grows s (foot (S h) t) (foot (S h) (node (nid t) (pre ++ with_child x u :: post))).
Proof.
  intros Heq Hg a. rewrite (foot_split h (node _ _) pre (with_child x u) post) by done. rewrite (foot_split _ _ _ _ _ Heq).
  change (slot_cell (with_child x u)) with (slot_cell x). change (nid (node _ _)) with (nid t). rewrite !elem_of_app.
  intros [Ha | [Ha | Ha]]; [by auto | | by auto]. destruct (Hg a Ha); auto.
Qed.

Lemma grows_trans s F1 F2 s2 F3 : grows s F1 F2 → grows s2 F2 F3 → (∀ a, is_Some (view s a) → is_Some (view s2 a)) → grows s F1 F3.
Proof.
  intros H12 H23 Hl a [Ha | Ha]%H23; [by apply H12 |]. right. destruct (view s a) eqn:Hv; [| done].
  destruct (Hl a) as [x Hx]; [by rewrite Hv | congruence].
Qed.

Lemma grows_refl s F : grows s F F.
Proof. intros a Ha. by left. Qed.
(** ** Other slots *)

(** The list of leaves, with [L'] instead of [L]. *)
Lemma chain_rebuild s s' A B (L L' : list nat) :
  chain s (A ++ L ++ B) → chained s' (A ++ L' ++ B) → NoDup L' →
  (∀ l, l ∈ L' → l ∈ L ∨ view s (ALeaf l) = None) →
  (∀ l, l ∈ A ∨ l ∈ B → view s' (ALeaf l) = view s (ALeaf l)) →
  (∀ l, l ∈ L' → ∃ b, view s' (ALeaf l) = Some (VLeaf b) ∧ wf b []) →
  chain s' (A ++ L' ++ B).
Proof.
  intros [Hnd Hc Hb] Hc' HL' Hfresh Hsame Hb'.
  assert (Hout : ∀ l, l ∈ L' → l ∈ A ∨ l ∈ B → l ∈ L).
  { intros l Hl Hin. destruct (Hfresh l Hl) as [? | Hv]; [done |]. destruct (Hb l) as (b & Hvb & _); [set_solver | congruence]. }
  apply NoDup_app in Hnd as (HA & HAL & (HL & HLB & HB)%NoDup_app). constructor; [| done |].
  - apply NoDup_app. split; [done |]. split.
    + intros l Hl Hin. apply elem_of_app in Hin as [Hin | Hin].
      * apply (HAL l Hl), elem_of_app. left. apply Hout; auto.
      * apply (HAL l Hl), elem_of_app. by right.
    + apply NoDup_app. split; [done |]. split; [| done]. intros l Hl Hin. apply (HLB l); [apply Hout; auto | done].
  - intros l Hl. apply elem_of_app in Hl as [Hl | [Hl | Hl]%elem_of_app]; [| by apply Hb' |]; rewrite Hsame by auto; apply Hb; set_solver.
Qed.

Lemma elem_of_slots_leafs_foot h (xs : list (slot K (shape K V h))) l : l ∈ slots_leafs h xs → ALeaf l ∈ slots_foot h xs.
Proof.
  unfold slots_leafs. rewrite list_elem_of_In, in_flat_map. setoid_rewrite <-list_elem_of_In. intros (x & Hx & Hl).
  apply elem_of_slots_foot. exists x. split; [done |]. right. by apply elem_of_leafs.
Qed.

Lemma slots_leafs_NoDup h (xs : list (slot K (shape K V h))) : NoDup (slots_foot h xs) → NoDup (slots_leafs h xs).
Proof.
  apply (NoDup_flat_map_sub _ _ ALeaf); [congruence | |].
  - intros x l Hl. right. by apply elem_of_leafs.
  - intros x _ [_ Hn]%NoDup_cons. by apply leafs_NoDup.
Qed.

Lemma slots_leaf fz lk s h (xs : list (slot K (shape K V h))) l : Forall (slot_rep fz lk s h) xs → l ∈ slots_leafs h xs →
  ∃ b, view s (ALeaf l) = Some (VLeaf b) ∧ wf b [].
Proof.
  intros Hx Hl. unfold slots_leafs in Hl. rewrite list_elem_of_In, in_flat_map in Hl. destruct Hl as (x & Hin & Hl%list_elem_of_In).
  rewrite <-list_elem_of_In in Hin. rewrite Forall_forall in Hx. eapply rep_leaf; [by apply Hx | done].
Qed.

(** A leaf of the context is not in the footprint. *)
Lemma chain_outside s A B h (t : shape K V h) l : chain s (A ++ leafs h t ++ B) → l ∈ A ∨ l ∈ B → ALeaf l ∉ foot h t ∧ is_Some (view s (ALeaf l)).
Proof.
  intros [Hnd _ Hb] Hl. split; [| destruct (Hb l) as (b & -> & _); [set_solver | done]]. intros Hin%elem_of_leafs.
  apply NoDup_app in Hnd as (_ & H1 & (_ & H2 & _)%NoDup_app). destruct Hl as [Hl | Hl]; [apply (H1 l Hl), elem_of_app; by left | by apply (H2 l Hin)].
Qed.

(** The slot [y] is replaced by [ys]. *)
Lemma ctx_replace s s' A B h (t : shape K V (S h)) lo hi pre y post lo' ys nd' m :
  ctx s A B (S h) t lo hi → slots t = pre ++ y :: post → span (bounded h) pre lo hi lo' →
  view s' (ANode (nid t)) = Some (VNode nd') → node_rep h false nd' (pre ++ ys ++ post) →
  Forall (slot_rep [] [] s' h) ys → slots_ok (bounded h) (ys ++ post) lo' hi →
  NoDup (slots_foot h ys) → grows s (ACell (slot_cell y) :: foot h y.2) (slots_foot h ys) →
  chained s' (A ++ (slots_leafs h pre ++ slots_leafs h ys ++ slots_leafs h post) ++ B) →
  step (ANode (nid t) :: ACell (slot_cell y) :: foot h y.2) m s s' →
  ctx s' A B (S h) (node (nid t) (pre ++ ys ++ post)) lo hi ∧ step (foot (S h) t) m s s' ∧
  grows s (foot (S h) t) (foot (S h) (node (nid t) (pre ++ ys ++ post))).
Proof.
  intros [Hr Hb Hnd Hc] Heq Hs Hnd' Hrep Hys Hok Hndys Hg Hc' Hst.
  pose proof Hr as Hr'. apply rep_S in Hr' as [(nd & Hn & Hrep0) Hx]. rewrite Heq in Hx. apply Forall_app in Hx as [Hpre [_ Hpost]%Forall_cons].
  rewrite foot_S, Heq, slots_foot_app in Hnd. change (slots_foot h (y :: post)) with ((ACell (slot_cell y) :: foot h y.2) ++ slots_foot h post) in Hnd.
  set (F := ACell (slot_cell y) :: foot h y.2) in *. apply NoDup_cons in Hnd as [Hni Hnd].
  assert (Hfoot : ∀ a, a ∈ foot (S h) t ↔ a = ANode (nid t) ∨ a ∈ slots_foot h pre ++ F ++ slots_foot h post).
  { intros a. rewrite foot_S, Heq, slots_foot_app, elem_of_cons. done. }
  assert (Hlive : ∀ a, a = ANode (nid t) ∨ a ∈ slots_foot h pre ++ F ++ slots_foot h post → is_Some (view s a)).
  { intros a Ha. eapply rep_live; [exact Hr |]. by apply Hfoot. }
  assert (Hsame : ∀ a, a ∈ slots_foot h pre ∨ a ∈ slots_foot h post → view s' a = view s a).
  { intros a Ha. apply (st_view _ _ _ _ Hst); [apply Hlive; mem |]. intros [-> | HaF]%elem_of_cons; [apply Hni; mem |].
    apply NoDup_app in Hnd as (_ & H1 & (_ & H2 & _)%NoDup_app). destruct Ha as [Ha | Ha]; [apply (H1 a Ha); mem | by apply (H2 a HaF)]. }
  assert (Heq' : foot (S h) (node (nid t) (pre ++ ys ++ post)) = ANode (nid t) :: slots_foot h pre ++ slots_foot h ys ++ slots_foot h post).
  { rewrite foot_S. change (slots (node _ _)) with (pre ++ ys ++ post). by rewrite !slots_foot_app. }
  split; [constructor | split].
  - split; [by exists nd' |]. apply Forall_app. split; [eapply slots_frame; [exact Hpre |]; auto |]. apply Forall_app. split; [done |].
    eapply slots_frame; [exact Hpost |]. auto.
  - apply slots_ok_app; [by eapply slots_ok_nonempty |]. by exists lo'.
  - rewrite Heq'. apply NoDup_cons. split.
    + rewrite !elem_of_app. intros [Ha | [Ha | Ha]]; [apply Hni; mem | | apply Hni; mem].
      destruct (Hg _ Ha) as [Ha' | Hv]; [apply Hni; mem |]. rewrite Hn in Hv. done.
    + eapply NoDup_replace; [exact Hnd | exact Hndys | exact Hg |]. intros a Ha. apply Hlive. mem.
  - assert (Hl' : leafs (S h) (node (nid t) (pre ++ ys ++ post)) = slots_leafs h pre ++ slots_leafs h ys ++ slots_leafs h post).
    { rewrite leafs_S. change (slots (node _ _)) with (pre ++ ys ++ post). by rewrite !slots_leafs_app. }
    rewrite Hl'. eapply chain_rebuild; [exact Hc | exact Hc' | | | |].
    + rewrite <-!slots_leafs_app. apply slots_leafs_NoDup. rewrite !slots_foot_app.
      eapply NoDup_replace; [exact Hnd | exact Hndys | exact Hg |]. intros a Ha. apply Hlive. mem.
    + intros l Hl. rewrite !elem_of_app in Hl. rewrite elem_of_leafs, Hfoot, !elem_of_app.
      destruct Hl as [Hl | [Hl | Hl]]; [left; right; left | | left; right; right; right]; try by apply elem_of_slots_leafs_foot.
      destruct (Hg (ALeaf l)) as [? | ?]; [by apply elem_of_slots_leafs_foot | auto | by right].
    + intros l Hl. destruct (chain_outside _ _ _ _ _ _ Hc Hl) as [Hnf Hv]. apply (st_view _ _ _ _ Hst); [done |].
      rewrite Hfoot in Hnf. intros Hin. apply Hnf. apply elem_of_cons in Hin. mem.
    + intros l Hl. rewrite !elem_of_app in Hl. destruct Hl as [Hl | [Hl | Hl]].
      * eapply slots_leaf; [| exact Hl]. eapply slots_frame; [exact Hpre |]. auto.
      * by eapply slots_leaf.
      * eapply slots_leaf; [| exact Hl]. eapply slots_frame; [exact Hpost |]. auto.
  - eapply step_weaken; [exact Hst | | done]. intros a Ha. apply Hfoot. apply elem_of_cons in Ha. mem.
  - intros a Ha. rewrite Heq' in Ha. rewrite Hfoot. apply elem_of_cons in Ha as [-> | Ha]; [by auto |].
    rewrite !elem_of_app in *. destruct Ha as [Ha | [Ha | Ha]]; [by auto | | by auto]. destruct (Hg a Ha); auto.
Qed.
End Ctx.

(** ** Sequences of instructions on a tree

    [progress W C U m s s'] collects what the instructions from [s] to [s'] did: [W] are the
    addresses that they wrote, the last one first, [C] is the list of the leaves, [U] are new
    leaves that are not yet in the list, and [m] leaves were allocated. *)

Section Steps.
Context {K V : Type} `{KeyOrd K}.

Implicit Types (s : tree K V) (a : addr) (v : stored (K := K) (V := V)) (l i c : nat) (p : Ptr) (C U : list nat).

Fixpoint wlook a (W : list (addr * stored (K := K) (V := V))) : option (stored (K := K) (V := V)) :=
  match W with
  | [] => None
  | (a', v) :: W => if decide (a = a') then Some v else wlook a W
  end.

Record progress W C U (m : nat) s s' : Prop := {
  pg_view a : view s' a = match wlook a W with Some v => Some v | None => view s a end;
  pg_links : chained s' C;
  pg_new l : l ∈ U → link_ref l s' = Some ptr_null;
  pg_root : root s' = root s;
  pg_leaves : length (leaves s') = (length (leaves s) + m)%nat
}.

Lemma wlook_eq a v W : wlook a ((a, v) :: W) = Some v.
Proof. cbn. by rewrite decide_True. Qed.

Lemma wlook_ne a a' v W : a ≠ a' → wlook a ((a', v) :: W) = wlook a W.
Proof. intros Hne. cbn. by rewrite decide_False. Qed.

Lemma progress_start s C : chained s C → progress [] C [] 0 s s.
Proof. intros Hc. constructor; [done | done | by intros l ?%not_elem_of_nil | done | lia]. Qed.

Lemma progress_writes W C U m s s1 s2 a v : progress W C U m s s1 → writes a v s1 s2 → progress ((a, v) :: W) C U m s s2.
Proof.
  intros [Hv Hl Hn Hr Hm] Hw. constructor.
  - intros a'. rewrite (w_view _ _ _ _ Hw). cbn. case_decide; [done | apply Hv].
  - eapply segment_same; [exact Hl | by eapply same_links_writes].
  - intros l Hlu. rewrite (w_link _ _ _ _ Hw). by apply Hn.
  - by rewrite (w_root _ _ _ _ Hw).
  - by rewrite (w_leaves _ _ _ _ Hw).
Qed.

Lemma progress_alloc W C U m s s1 s2 a v : progress W C U m s s1 → allocates a v s1 s2 → (∀ l, a ≠ ALeaf l) →
  progress ((a, v) :: W) C U m s s2 ∧ view s1 a = None.
Proof.
  intros [Hv Hl Hn Hr Hm] Ha Hna. pose proof (al_fresh _ _ _ _ Ha) as Hf. split; [| done]. constructor.
  - intros a'. rewrite (al_view _ _ _ _ Ha). cbn. case_decide; [done | apply Hv].
  - eapply segment_same; [exact Hl | by eapply same_links_allocates].
  - intros l Hlu. rewrite (al_link _ _ _ _ Ha), decide_False by done. by apply Hn.
  - by rewrite (al_root _ _ _ _ Ha).
  - rewrite (al_leaves _ _ _ _ Ha). destruct a; [by destruct (Hna l) | lia | lia].
Qed.

Lemma progress_alloc_leaf W C U m s s1 s2 l b : progress W C U m s s1 → allocates (ALeaf l) (VLeaf b) s1 s2 →
  progress ((ALeaf l, VLeaf b) :: W) C (l :: U) (S m) s s2 ∧ view s1 (ALeaf l) = None.
Proof.
  intros [Hv Hl Hn Hr Hm] Ha. pose proof (al_fresh _ _ _ _ Ha) as Hf. split; [| done]. constructor.
  - intros a'. rewrite (al_view _ _ _ _ Ha). cbn. case_decide; [done | apply Hv].
  - eapply segment_same; [exact Hl | by eapply same_links_allocates].
  - intros l' Hlu. rewrite (al_link _ _ _ _ Ha). case_decide as Heq; [done |]. apply elem_of_cons in Hlu as [-> | Hlu]; [done | by apply Hn].
  - by rewrite (al_root _ _ _ _ Ha).
  - rewrite (al_leaves _ _ _ _ Ha). cbn. lia.
Qed.

(** What was not allocated then is not among the addresses before. *)
Lemma progress_fresh W C U m s s1 a : progress W C U m s s1 → view s1 a = None → wlook a W = None ∧ view s a = None.
Proof. intros Hp Hv. rewrite (pg_view _ _ _ _ _ _ Hp) in Hv. by destruct (wlook a W). Qed.

Lemma progress_tidied W C U m s s1 s2 : progress W C U m s s1 → tidied s1 s2 → U = [] → progress W C U m s s2.
Proof.
  intros [Hv Hl Hn Hr Hm] Ht ->. constructor.
  - intros a. rewrite (tidied_view _ _ _ Ht). apply Hv.
  - by apply (td_short _ _ Ht).
  - by intros l ?%not_elem_of_nil.
  - by rewrite (tidied_root _ _ Ht).
  - by rewrite (tidied_leaves _ _ Ht).
Qed.

(** What was written is in [F], or new. *)
Lemma progress_step W C U m s s' F : progress W C U m s s' → Forall (λ w, w.1 ∈ F ∨ view s w.1 = None) W → step F m s s'.
Proof.
  intros HP HW. rewrite Forall_forall in HW. constructor; [| | apply HP |].
  - intros a Ha Hin. rewrite (pg_view _ _ _ _ _ _ HP). destruct (wlook a W) as [v |] eqn:Hl; [| done]. exfalso.
    assert (Hex : ∃ w, w ∈ W ∧ w.1 = a).
    { clear HP HW. induction W as [| [a' v'] W IH]; [done |]. cbn in Hl. case_decide as Heq; [exists (a', v'); split; [by left | done] |].
      destruct (IH Hl) as (w & Hw & <-). exists w. split; [by right | done]. }
    destruct Hex as (w & Hw & <-). destruct (HW w Hw) as [? | Hv]; [done |]. rewrite Hv in Ha. by destruct Ha.
  - intros a Ha. rewrite (pg_view _ _ _ _ _ _ HP). destruct (wlook a W); [by eexists | done].
  - rewrite (pg_leaves _ _ _ _ _ _ HP). lia.
Qed.

Section Rules.
Context {R : Type} (Q : R → tree K V → Prop) (n : nat) (Hn : (0 < n)%nat).

Lemma progress_push W C1 t C2 U m s s1 e (mark : bool) (k : Ptr + nat → prog (tree K V) R) :
  progress W (C1 ++ t :: C2) (e :: U) m s s1 → NoDup (e :: C1 ++ t :: C2) → (∀ l, l ∈ U → l ≠ e ∧ l ≠ t) →
  (∀ r s2, progress W (C1 ++ t :: e :: C2) U m s s2 → r = inl (Some e, if mark then Tag.First else Tag.None) → runs (k r) s2 Q) →
  runs (let! r := push_back n t e mark in k r) s1 Q.
Proof.
  intros [Hv Hl Hnew Hr Hm] [He Hnd]%NoDup_cons HU Hk.
  destruct (segment_valid _ _ _ t Hl ltac:(apply elem_of_app; right; by left)) as (pt & Hpt & Hval).
  pose proof (Hnew e ltac:(by left)) as Hle. apply NoDup_app in Hnd as (_ & Hd & [Ht2 _]%NoDup_cons).
  assert (Ht1 : t ∉ C1) by (intros Ht; apply (Hd t Ht); by left).
  assert (Hne : e ≠ t) by (intros ->; apply He, elem_of_app; right; by left).
  eapply runs_push_back; [exact Hpt | exact Hval | exact Hle | done | done |]. eapply Hk; [| done]. constructor.
  - intros a. rewrite !view_link. apply Hv.
  - eapply segment_push; [exact Hl | exact Hpt | exact Hle | by left | by destruct mark; [right | left] | done | done | | | done]; set_solver.
  - intros l Hlu. destruct (HU l Hlu). rewrite !link_ref_ne by done. apply Hnew. by right.
  - done.
  - cbn. by rewrite !length_alter.
Qed.

Lemma progress_delete W C1 t C2 U m s s1 (k : bool → prog (tree K V) R) :
  progress W (C1 ++ t :: C2) U m s s1 → NoDup (C1 ++ t :: C2) → t ∉ U →
  (∀ s2, progress W (C1 ++ C2) U m s s2 → runs (k true) s2 Q) →
  runs (let! r := delete_self t in k r) s1 Q.
Proof.
  intros [Hv Hl Hnew Hr Hm] Hnd HU Hk.
  destruct (segment_valid _ _ _ t Hl ltac:(apply elem_of_app; right; by left)) as (pt & Hpt & Hval).
  apply NoDup_app in Hnd as (_ & Hd & [Ht2 _]%NoDup_cons).
  assert (Ht1 : t ∉ C1) by (intros Ht; apply (Hd t Ht); by left).
  eapply runs_delete_self; [exact Hpt | exact Hval |]. apply Hk. constructor.
  - intros a. rewrite view_link. apply Hv.
  - by eapply segment_delete.
  - intros l Hlu. rewrite link_ref_ne by (by intros ->). by apply Hnew.
  - done.
  - cbn. by rewrite length_alter.
Qed.
End Rules.
End Steps.

(** [a ≠ a'] for addresses. *)
Ltac addr_ne := first [discriminate | congruence | by intros [= ->] | by intros ->].

(** [view s' a = Some v], from a [progress] to [s']. *)
Ltac look HP :=
  rewrite (pg_view _ _ _ _ _ _ HP); repeat first [rewrite wlook_eq | rewrite wlook_ne by addr_ne]; cbn [wlook]; try done.

(** The addresses of [W] are in [F], or new. *)
Ltac in_list :=
  lazymatch goal with
  | |- ?a ∈ ?a :: _ => apply list_elem_of_here
  | |- _ ∈ _ :: _ => apply list_elem_of_further; in_list
  end.
Ltac written := repeat (apply Forall_cons_2; [cbn [fst]; first [left; in_list | right; assumption] |]); apply Forall_nil_2.

(** The next instruction wrote, allocated: a new [progress]. *)
Ltac wrote HP Hw := eapply (progress_writes _ _ _ _ _ _ _ _ _ HP) in Hw; clear HP; rename Hw into HP.

Ltac allocated HP Ha Hf :=
  let HP' := fresh in
  first [destruct (progress_alloc_leaf _ _ _ _ _ _ _ _ _ HP Ha) as [HP' Hf] | destruct (progress_alloc _ _ _ _ _ _ _ _ _ HP Ha) as [HP' Hf]; [discriminate |]];
  apply (progress_fresh _ _ _ _ _ _ _ HP) in Hf; clear HP Ha; rename HP' into HP.

(** The fields of nodes that were written. *)
Ltac fields :=
  cbn [leaf_children leaf_unbounded_child leaf_split_op leaf_latch origin_leaf_key origin_leaf low_key_leaf high_key_leaf
       low_key_leaf_node high_key_leaf_node node_children node_unbounded_child node_split_op node_latch origin_node_key
       origin_node low_key_node middle_key high_key_node set_leaf_children set_leaf_split_op set_leaf_latch
       set_origin_leaf_key set_origin_leaf set_low_key_leaf set_high_key_leaf set_low_key_leaf_node
       set_high_key_leaf_node set_node_children set_node_split_op set_node_latch set_origin_node_key set_origin_node
       set_low_key_node set_middle_key set_high_key_node leaf_change_default node_change_default ptr_null
       children_of set_children unbounded_of fst snd].

(** ** What the functions of a leaf do to its sorted entries *)

Section Sorted.
Context {K : Type} `{KeyOrd K} {B : Type}.

Implicit Types (l : list (K * B)) (ch : leaf K B).

#[export] Instance before_antisymm : AntiSymm (=) (before (K := K) (V := B)).
Proof. intros x y Hx Hy. by destruct (cmp_lt_asym _ _ Hx). Qed.

Lemma sorted_unique l l' : StronglySorted before l → StronglySorted before l' → l ≡ₚ l' → l = l'.
Proof. apply (StronglySorted_unique before). Qed.

(** A permutation of the entries is the list of them, if it is sorted. *)
Lemma sorted_entries_eq ch l : wf ch [] → entries ch ≡ₚ l → StronglySorted before l → sorted_entries ch = l.
Proof.
  intros Hw Hp Hl. destruct (sorted_entries_spec ch Hw) as [Hs Hp']. apply sorted_unique; [done | done |]. by rewrite Hp'.
Qed.

Lemma sorted_entries_same ch ch' : wf ch [] → wf ch' [] → entries ch' ≡ₚ entries ch → sorted_entries ch' = sorted_entries ch.
Proof. intros Hw Hw' Hp. destruct (sorted_entries_spec ch Hw) as [Hs Hp']. apply sorted_entries_eq; [done | by rewrite Hp, Hp' | done]. Qed.

(** ** A leaf that holds a list *)

Lemma holding_insert n ch l key (x : B) :
  holding ch l →
  runs (insert (S n) key x) ch (λ r ch', match r with
    | Success => wf ch' [] ∧ frozen (metadata ch') = false ∧ (∀ y, (key, y) ∉ l) ∧ sorted_entries ch' ≡ₚ (key, x) :: l
    | Duplicate _ _ => ∃ y, (key, y) ∈ l
    | Full _ _ | Retired _ _ => ch' = ch ∧ (used (metadata ch) = N ∨ retired (metadata ch) = true)
    | Frozen _ _ | Retry _ _ => False
    end).
Proof.
  intros [Hw Hf <-]. eapply runs_mono; [| by apply runs_insert]. intros r ch' (Hw' & Hf' & _ & Hr). rewrite Hf in Hf', Hr.
  destruct (sorted_entries_spec ch Hw) as [_ Hp]. destruct (sorted_entries_spec ch' Hw') as [_ Hp'].
  destruct (retired _); [destruct Hr as [-> ->]; by auto |]. destruct r; try done; try tauto.
  - split; [done |]. split; [done |]. destruct Hr as (Hk & _ & He). split; [| by rewrite Hp', Hp].
    intros y Hy. apply Hk. exists y. by rewrite <-Hp.
  - destruct Hr as (-> & _ & [y Hy] & _). exists y. by rewrite Hp.
Qed.

Lemma holding_remove n ch l key :
  holding ch l →
  runs (remove_if (S n) key (λ _, true)) ch (λ r ch', match r with
    | RSuccess | RRetired => entry ch' = entry ch ∧ ∃ x l', l ≡ₚ (key, x) :: l' ∧ holding ch' l'
    | RFail => ch' = ch ∧ ∀ x, (key, x) ∉ l
    | _ => False
    end).
Proof.
  intros [Hw Hf <-]. eapply runs_mono; [| by apply runs_remove_if_entry]. intros r ch' (He & Hw' & Hr).
  destruct (sorted_entries_spec ch Hw) as [_ Hp]. destruct (sorted_entries_spec ch' Hw') as [_ Hp'].
  destruct r; try done.
  - destruct Hr as (x & _ & Hpe & _ & Hf' & _). split; [done |]. exists x, (sorted_entries ch'). split; [by rewrite Hp, Hpe, Hp' | done].
  - destruct Hr as (x & _ & Hpe & Hn & Hf' & _). split; [done |]. exists x, (sorted_entries ch'). split; [by rewrite Hp, Hpe, Hp', Hn | done].
  - destruct Hr as (_ & -> & Hno). split; [done |]. intros x Hx. specialize (Hno x). rewrite <-Hp in Hno. by specialize (Hno Hx).
  - destruct Hr as [Hr _]. congruence.
Qed.

Lemma holding_is_empty ch l : holding ch l → runs is_empty ch (λ r ch', ch' = ch ∧ (r = true ↔ l = [])).
Proof.
  intros [Hw Hf <-]. eapply runs_mono; [| by apply runs_is_empty]. intros r ch' [-> Hr]. split; [done |]. rewrite Hr.
  destruct (sorted_entries_spec ch Hw) as [_ Hp]. split; intros Hn; rewrite Hn in Hp; [by apply Permutation_nil_r | by apply Permutation_nil].
Qed.

Lemma holding_new : holding (new : leaf K B) [].
Proof. destruct (packed_sorted (V := B) [] new packed_new) as [Hw Hs]; [constructor |]. split; [done | done | done]. Qed.

(** ** Freezing *)

Definition frozen_body ch : leaf K B := set_metadata (freeze (metadata ch)) ch.
Definition thawed_body ch : leaf K B := set_metadata (thaw (metadata ch)) ch.

Lemma wf_frozen ch : wf ch [] → wf (frozen_body ch) [] ∧ entries (frozen_body ch) = entries ch.
Proof. intros Hw. apply wf_special; [done | by apply in_word_freeze, (wf_word _ _ Hw) | apply rank_freeze]. Qed.

Lemma wf_thawed ch : wf ch [] → wf (thawed_body ch) [] ∧ entries (thawed_body ch) = entries ch.
Proof. intros Hw. apply wf_special; [done | by apply in_word_thaw, (wf_word _ _ Hw) | apply rank_thaw]. Qed.

Lemma used_frozen ch : used (metadata (frozen_body ch)) = used (metadata ch).
Proof. apply used_ext. intros j Hj. cbn. by rewrite rank_freeze. Qed.

Lemma used_thawed ch : used (metadata (thawed_body ch)) = used (metadata ch).
Proof. apply used_ext. intros j Hj. cbn. by rewrite rank_thaw. Qed.

Lemma runs_freeze ch : frozen (metadata ch) = false → runs leaf_freeze ch (λ r ch', r = true ∧ ch' = frozen_body ch).
Proof. intros Hf. unfold leaf_freeze. apply runs_bind, runs_act. rewrite Hf. done. Qed.

Lemma runs_thaw ch : frozen (metadata ch) = true → runs leaf_thaw ch (λ r ch', r = true ∧ ch' = thawed_body ch).
Proof. intros Hf. unfold leaf_thaw. apply runs_bind, runs_act. rewrite Hf. done. Qed.

Lemma packed_used l ch : packed l ch → (length l < N)%nat → (used (metadata ch) < N)%nat.
Proof.
  intros Hp Hlt. pose proof (used_le (metadata ch)). destruct (decide (used (metadata ch) = N)) as [Hu |]; [| lia]. exfalso.
  apply (proj2 (used_full _) Hu (length l) Hlt). rewrite (packed_rank _ _ Hp) by done. by rewrite decide_False by lia.
Qed.

Lemma runs_max_key ch l : wf ch [] → sorted_entries ch = l → runs max_key ch (λ r ch', ch' = ch ∧ r = fst <$> last l).
Proof.
  intros Hw <-. unfold max_key. eapply runs_call; [by apply runs_max_entry |]. intros r ch' [-> Hr]. apply runs_ret. split; [done |]. f_equal.
  destruct (sorted_entries_spec ch Hw) as [Hs Hp]. destruct r as [x |].
  - destruct Hr as [Hin Hmax]. destruct (last (sorted_entries ch)) as [y |] eqn:Hl.
    + f_equal. apply last_Some in Hl as [pre Hl]. assert (Hy : y ∈ entries ch) by (rewrite <-Hp, Hl; apply elem_of_app; right; by left).
      destruct (Hmax y Hy) as [-> | Hlt]; [done |]. exfalso. rewrite <-Hp, Hl in Hin.
      apply elem_of_app in Hin as [Hin | ->%list_elem_of_singleton]; [| by eapply cmp_lt_irrefl].
      rewrite Hl in Hs. pose proof (StronglySorted_app_1_elem_of _ _ _ _ _ Hs Hin ltac:(by left)) as Hlt'. by apply (cmp_lt_asym _ _ Hlt).
    + apply last_None in Hl. rewrite <-Hp, Hl in Hin. by apply not_elem_of_nil in Hin.
  - rewrite Hr in Hp. by apply Permutation_nil_r in Hp as ->.
Qed.
End Sorted.

Section Leaves.
Context {K V : Type} `{KeyOrd K}.

Implicit Types (b : leaf K V) (t : sleaf K V) (k : K) (v : V) (lo hi : option K).

Lemma leaf_rep_sorted fr b t : leaf_rep fr b t → StronglySorted before (sl_entries t).
Proof. intros [Hw _ <- _ _]. by apply sorted_entries_spec. Qed.

Lemma bounded_leaf fr b t lo hi : leaf_rep fr b t → Forall (λ a, above lo a.1 ∧ upto a.1 hi) (sl_entries t) → bounded 0 t lo hi.
Proof. intros Hr Hf. split; [by eapply leaf_rep_sorted | done]. Qed.

(** The leaf afterwards, without anything known about its room. *)
Definition as_shape l b : sleaf K V := SLeaf l false (sorted_entries b).

Lemma as_shape_rep l b : wf b [] → frozen (metadata b) = false → retired (metadata b) = false ∨ entries b = [] → leaf_rep false b (as_shape l b).
Proof.
  intros Hw Hf Hr. constructor; [done | done | done | | done]. intros Ht. destruct Hr as [Hr | Hr]; [congruence |].
  destruct (sorted_entries_spec b Hw) as [_ Hp]. rewrite Hr in Hp. by apply Permutation_nil_r in Hp.
Qed.

Lemma leaf_insert_spec n b t k v :
  leaf_rep false b t →
  runs (insert (S n) k v) b (λ r b', match r with
    | Success => leaf_rep false b' (as_shape (sl_id t) b') ∧ sorted_entries b' ≡ₚ (k, v) :: sl_entries t ∧ ∀ v', (k, v') ∉ sl_entries t
    | Duplicate k' v' => k' = k ∧ v' = v ∧ leaf_rep false b' (as_shape (sl_id t) b') ∧ sorted_entries b' = sl_entries t ∧ ∃ v', (k, v') ∈ sl_entries t
    | Full k' v' | Retired k' v' => k' = k ∧ v' = v ∧ b' = b ∧ sl_free t = false ∧ ∀ v', (k, v') ∉ sl_entries t
    | _ => False
    end).
Proof.
  intros [Hw Hf Hs Hrt Hfree]. eapply runs_mono; [| by apply runs_insert]. intros r b' (Hw' & Hf' & Hr' & Hr).
  destruct (sorted_entries_spec b Hw) as [_ Hp]. destruct (sorted_entries_spec b' Hw') as [_ Hp'].
  assert (Hin : ∀ v', (k, v') ∈ sl_entries t ↔ (k, v') ∈ entries b) by (intros v'; by rewrite <-Hs, Hp).
  rewrite Hf in Hr, Hf'. destruct (retired (metadata b)) eqn:Hret.
  - destruct Hr as [-> ->]. split_and!; [done | done | done | |].
    + destruct (sl_free t); [| done]. by destruct (Hfree eq_refl).
    + intros v'. rewrite (Hrt eq_refl). apply not_elem_of_nil.
  - destruct r; try done.
    + destruct Hr as (Hk & _ & He). split; [apply as_shape_rep; auto |]. split; [by rewrite Hp', He, <-Hs, Hp |].
      intros v' Hv'. apply Hk. exists v'. by apply Hin.
    + destruct Hr as (-> & -> & [v' Hv'] & He). split; [done |]. split; [done |]. split; [apply as_shape_rep; auto |].
      split; [rewrite <-Hs; apply sorted_entries_same; [done | done | by rewrite He] |]. exists v'. by apply Hin.
    + destruct Hr as (-> & -> & Hk & Hu & ->). split_and!; [done | done | done | |].
      * destruct (sl_free t); [| done]. destruct (Hfree eq_refl) as [Hlt _]. lia.
      * intros v' Hv'. apply Hk. exists v'. by apply Hin.
Qed.

Lemma leaf_remove_spec n b t k (condition : V → bool) :
  leaf_rep false b t →
  runs (remove_if (S n) k condition) b (λ r b', match r with
    | RSuccess => leaf_rep false b' (as_shape (sl_id t) b') ∧ retired (metadata b') = false ∧ ∃ v, condition v = true ∧ sl_entries t ≡ₚ (k, v) :: sorted_entries b'
    | RFail => b' = b ∧ ∀ v, (k, v) ∈ sl_entries t → condition v = false
    | RRetired => leaf_rep false b' (as_shape (sl_id t) b') ∧ retired (metadata b') = true ∧ ∃ v, condition v = true ∧ sl_entries t ≡ₚ (k, v) :: sorted_entries b'
    | _ => False
    end).
Proof.
  intros [Hw Hf Hs Hrt Hfree]. eapply runs_mono; [| by apply runs_remove_if]. intros r b' (Hw' & Hr).
  destruct (sorted_entries_spec b Hw) as [_ Hp]. destruct (sorted_entries_spec b' Hw') as [_ Hp'].
  destruct r; try done.
  - destruct Hr as (v & Hc & He & Hne & Hf' & Hret). assert (Hret' : retired (metadata b') = false).
    { rewrite Hret. destruct (retired (metadata b)) eqn:Hrb; [| done]. specialize (Hrt eq_refl). rewrite <-Hs in Hrt. rewrite Hrt in Hp.
      rewrite <-Hp in He. by apply Permutation_nil_cons in He. }
    split; [apply as_shape_rep; auto |]. split; [done |]. exists v. split; [done |]. by rewrite <-Hs, Hp, Hp', He.
  - destruct Hr as (v & Hc & He & Hn & Hf' & Hret). split; [apply as_shape_rep; auto |]. split; [done |]. exists v. split; [done |].
    rewrite <-Hs, Hp, Hp', He, Hn. done.
  - destruct Hr as (_ & -> & Hc). split; [done |]. intros v Hv. apply Hc. by rewrite <-Hp, Hs.
  - destruct Hr as [Hr _]. congruence.
Qed.

Lemma leaf_rep_frozen b t : leaf_rep false b t → leaf_rep true (frozen_body b) t.
Proof.
  intros [Hw Hf Hs Hrt Hfree]. destruct (wf_frozen b Hw) as [Hw' He]. constructor; [done | apply frozen_freeze | | |].
  - rewrite <-Hs. apply sorted_entries_same; [done | done | by rewrite He].
  - cbn. by rewrite retired_freeze.
  - rewrite used_frozen. cbn. by rewrite retired_freeze.
Qed.

Lemma leaf_rep_thawed b t : leaf_rep true b t → leaf_rep false (thawed_body b) t.
Proof.
  intros [Hw Hf Hs Hrt Hfree]. destruct (wf_thawed b Hw) as [Hw' He]. constructor; [done | apply frozen_thaw | | |].
  - rewrite <-Hs. apply sorted_entries_same; [done | done | by rewrite He].
  - cbn. by rewrite retired_thaw.
  - rewrite used_thawed. cbn. by rewrite retired_thaw.
Qed.

(** A new leaf with the entries [E]. *)
Lemma packed_rep l (E : list (K * V)) b : packed E b → StronglySorted before E → (length E < N)%nat → leaf_rep false b (SLeaf l true E).
Proof.
  intros Hp Hs Hlen. destruct (packed_sorted E b Hp Hs) as [Hw He]. destruct (packed_special _ _ Hp) as [Hf Hr].
  constructor; [done | done | done | cbn; congruence |]. intros _. split; [by eapply packed_used | done].
Qed.

Lemma new_leaf_rep l : leaf_rep false (new : leaf K V) (SLeaf l true []).
Proof. apply packed_rep; [apply packed_new | constructor | cbn; dims]. Qed.

(** Splitting: all entries in the low leaf, or some in both. *)
Lemma leaf_split_spec b t :
  leaf_rep false b t →
  runs (freeze_and_distribute None None) b (λ r b', b' = frozen_body b ∧
    match r with
    | (None, None) => sl_entries t = []
    | (Some low, None) => ∀ l, leaf_rep false low (SLeaf l true (sl_entries t))
    | (Some low, Some high) => ∃ E1 E2, sl_entries t = E1 ++ E2 ∧ E1 ≠ [] ∧ E2 ≠ [] ∧
        (∀ l, leaf_rep false low (SLeaf l true E1)) ∧ (∀ l, leaf_rep false high (SLeaf l true E2))
    | (None, Some _) => False
    end).
Proof.
  intros Hr. pose proof (leaf_rep_sorted _ _ _ Hr) as Hss. destruct Hr as [Hw Hf Hs Hrt Hfree].
  eapply runs_mono; [| by apply runs_freeze_and_distribute]. intros [low high] b' (-> & Hlo & Hhi). split; [done |].
  rewrite Hs in Hlo, Hhi. destruct (boundary_range (metadata b)) as [Hb1 Hb2]. set (m := Z.to_nat (optimal_boundary (metadata b))) in *.
  assert (Hlen : (length (sl_entries t) ≤ N)%nat).
  { rewrite <-Hs, length_sorted_entries by done. apply length_rest. }
  pose proof Hss as Hss'. rewrite <-(take_drop m (sl_entries t)) in Hss'. apply StronglySorted_app in Hss' as (_ & Hs1 & Hs2).
  destruct low as [low |], high as [high |]; cbn [holds] in *.
  - destruct Hlo as [Hne1 Hp1], Hhi as [Hne2 Hp2]. exists (firstn m (sl_entries t)), (skipn m (sl_entries t)). rewrite take_drop.
    split_and!; [done | done | done | |]; intros l; apply packed_rep; try done; rewrite ?length_take, ?length_drop; lia.
  - intros l. destruct Hlo as [Hne1 Hp1]. rewrite <-(take_drop m (sl_entries t)), Hhi, app_nil_r.
    apply packed_rep; [done | done |]. rewrite length_take. lia.
  - destruct Hhi as [Hne _]. apply Hne. apply (f_equal length) in Hlo. rewrite length_take in Hlo. cbn in Hlo.
    apply nil_length_inv. rewrite length_drop. lia.
  - by rewrite <-(take_drop m (sl_entries t)), Hlo, Hhi.
Qed.
End Leaves.
