(* ===== verification/TreeCommit.v ===== *)
(** * Splits that are not finished yet *)
From stdpp Require Import sorting.
From S2P Require Import Prelude Atomic Ord Tag AtomicShared LinkedList Dimension Leaf LeafInv LeafState LeafSeq LeafScan TreeStore TreeLeafNode TreeNode TreeRep TreeSearch TreeCtx.

#[local] Existing Instance Tag.eq_dec.

(** ** Splits that are not finished yet

    When a node has no room for a new child, the split of the child waits for the split of
    the node: the node stays locked, its [split_op] has the child and the two that replace it
    ([pending]), and a [commit] of the node finishes both. *)

Section Commit.
Context {K V : Type} `{KeyOrd K}.

Implicit Types (s : tree K V) (l i c : nat) (p : Ptr) (nd : Node K) (k : K) (lo hi : option K) (A B C : list nat) (F : list addr).

(** ** Locks *)

Section Locks.
Context {R : Type} (Q : R → tree K V → Prop).

Lemma runs_leaf_node_try_lock i x (k : bool → prog (tree K V) R) s :
  view s (ANode i) = Some (VNode (LeafN x)) → leaf_latch x = Tag.None →
  (∀ s', writes (ANode i) (VNode (LeafN (set_leaf_latch LOCKED x))) s s' → runs (k true) s' Q) →
  runs (let! r := leaf_node_try_lock i in k r) s Q.
Proof.
  intros Hx Hl Hk. unfold leaf_node_try_lock. apply runs_bind.
  eapply (runs_leaf_node_act _ i x _ (inl Tag.None)); [exact Hx | cbn; by rewrite decide_True |]. intros s' Hw. by apply runs_ret, Hk.
Qed.

Lemma runs_leaf_node_unlock i x (k : unit → prog (tree K V) R) s :
  view s (ANode i) = Some (VNode (LeafN x)) → leaf_latch x = LOCKED →
  (∀ s', writes (ANode i) (VNode (LeafN (set_leaf_latch Tag.None x))) s s' → runs (k ()) s' Q) →
  runs (let! r := leaf_node_unlock i in k r) s Q.
Proof.
  intros Hx Hl Hk. unfold leaf_node_unlock. apply runs_bind. eapply runs_leaf_node_load; [exact Hx |]. rewrite Hl.
  apply runs_dassert; [done |]. apply runs_tail.
  eapply (runs_leaf_node_act _ i x _ ()); [exact Hx | done |]. intros s' Hw. by apply runs_ret, Hk.
Qed.

Lemma runs_leaf_node_retire i x (k : unit → prog (tree K V) R) s :
  view s (ANode i) = Some (VNode (LeafN x)) → leaf_latch x = LOCKED →
  (∀ s', writes (ANode i) (VNode (LeafN (set_leaf_latch RETIRED x))) s s' → runs (k ()) s' Q) →
  runs (let! r := leaf_node_retire i in k r) s Q.
Proof.
  intros Hx Hl Hk. unfold leaf_node_retire. apply runs_bind. eapply runs_leaf_node_load; [exact Hx |]. rewrite Hl.
  apply runs_dassert; [done |]. apply runs_tail.
  eapply (runs_leaf_node_act _ i x _ ()); [exact Hx | done |]. intros s' Hw. by apply runs_ret, Hk.
Qed.

Lemma runs_internal_try_lock i x (k : bool → prog (tree K V) R) s :
  view s (ANode i) = Some (VNode (InternalN x)) → node_latch x = Tag.None →
  (∀ s', writes (ANode i) (VNode (InternalN (set_node_latch LOCKED x))) s s' → runs (k true) s' Q) →
  runs (let! r := internal_try_lock i in k r) s Q.
Proof.
  intros Hx Hl Hk. unfold internal_try_lock. apply runs_bind.
  eapply (runs_internal_node_act _ i x _ (inl Tag.None)); [exact Hx | cbn; by rewrite decide_True |]. intros s' Hw. by apply runs_ret, Hk.
Qed.

Lemma runs_internal_unlock i x (k : unit → prog (tree K V) R) s :
  view s (ANode i) = Some (VNode (InternalN x)) → node_latch x = LOCKED →
  (∀ s', writes (ANode i) (VNode (InternalN (set_node_latch Tag.None x))) s s' → runs (k ()) s' Q) →
  runs (let! r := internal_unlock i in k r) s Q.
Proof.
  intros Hx Hl Hk. unfold internal_unlock. apply runs_bind. eapply runs_internal_node_load; [exact Hx |]. rewrite Hl.
  apply runs_dassert; [done |]. apply runs_tail.
  eapply (runs_internal_node_act _ i x _ ()); [exact Hx | done |]. intros s' Hw. by apply runs_ret, Hk.
Qed.

Lemma runs_internal_retire i x (k : unit → prog (tree K V) R) s :
  view s (ANode i) = Some (VNode (InternalN x)) → node_latch x = LOCKED →
  (∀ s', writes (ANode i) (VNode (InternalN (set_node_latch RETIRED x))) s s' → runs (k ()) s' Q) →
  runs (let! r := internal_retire i in k r) s Q.
Proof.
  intros Hx Hl Hk. unfold internal_retire. apply runs_bind. eapply runs_internal_node_load; [exact Hx |]. rewrite Hl.
  apply runs_dassert; [done |]. apply runs_tail.
  eapply (runs_internal_node_act _ i x _ ()); [exact Hx | done |]. intros s' Hw. by apply runs_ret, Hk.
Qed.

Lemma writes_trans a (v1 v2 : stored) s s1 s2 : writes a v1 s s1 → writes a v2 s1 s2 → writes a v2 s s2.
Proof.
  intros H1 H2. constructor.
  - intros a'. rewrite (w_view _ _ _ _ H2). case_decide; [done |]. rewrite (w_view _ _ _ _ H1). by rewrite decide_False.
  - intros l. by rewrite (w_link _ _ _ _ H2), (w_link _ _ _ _ H1).
  - by rewrite (w_root _ _ _ _ H2), (w_root _ _ _ _ H1).
  - by rewrite (w_leaves _ _ _ _ H2), (w_leaves _ _ _ _ H1).
Qed.

Lemma writes_there a (v : stored) s s' : writes a v s s' → view s' a = Some v.
Proof. intros Hw. rewrite (w_view _ _ _ _ Hw). by rewrite decide_True. Qed.

(** The functions that reset a [split_op]. *)
Lemma runs_leaf_change_reset i x (k : option nat → prog (tree K V) R) s :
  view s (ANode i) = Some (VNode (LeafN x)) →
  (∀ s', writes (ANode i) (VNode (LeafN (set_leaf_split_op leaf_change_default x))) s s' → runs (k (origin_leaf (leaf_split_op x)).1) s' Q) →
  runs (let! r := leaf_change_reset i in k r) s Q.
Proof.
  intros Hx Hk. unfold leaf_change_reset. apply runs_bind.
  do 5 (eapply (runs_leaf_node_act _ i _ _ ()); [exact Hx | done |]; clear Hx; intros ? Hw;
    pose proof (writes_there _ _ _ _ Hw) as Hx; try (pose proof (writes_trans _ _ _ _ _ _ Hws Hw) as Hw'; clear Hws Hw; rename Hw' into Hw); rename Hw into Hws).
  eapply (runs_leaf_node_act _ i); [exact Hx | done |]. intros ? Hw. pose proof (writes_trans _ _ _ _ _ _ Hws Hw) as Hw'.
  by apply runs_ret, Hk.
Qed.

Lemma runs_node_change_reset i x (k : option nat → prog (tree K V) R) s :
  view s (ANode i) = Some (VNode (InternalN x)) →
  (∀ s', writes (ANode i) (VNode (InternalN (set_node_split_op node_change_default x))) s s' → runs (k (origin_node (node_split_op x)).1) s' Q) →
  runs (let! r := node_change_reset i in k r) s Q.
Proof.
  intros Hx Hk. unfold node_change_reset. apply runs_bind.
  do 4 (eapply (runs_internal_node_act _ i _ _ ()); [exact Hx | done |]; clear Hx; intros ? Hw;
    pose proof (writes_there _ _ _ _ Hw) as Hx; try (pose proof (writes_trans _ _ _ _ _ _ Hws Hw) as Hw'; clear Hws Hw; rename Hw' into Hw); rename Hw into Hws).
  eapply (runs_internal_node_act _ i); [exact Hx | done |]. intros ? Hw. pose proof (writes_trans _ _ _ _ _ _ Hws Hw) as Hw'.
  by apply runs_ret, Hk.
Qed.
End Locks.
(** ** [commit] *)

(** A leaf [sp_origin] that is split into [sp_low] and [sp_high]; the full leaf node with it
    is split into [sp_low_node] and [sp_high_node]. *)
Record split := Split { sp_origin : nat; sp_low : nat; sp_high : nat; sp_low_node : nat; sp_high_node : nat }.

Implicit Types (sp : split) (path : list nat).

(** The full nodes, the leaf node last; each has the next one in its [split_op]. *)
Fixpoint waiting s sp path : Prop :=
  match path with
  | [] => False
  | i :: path =>
      match path with
      | [] => ∃ x, view s (ANode i) = Some (VNode (LeafN x)) ∧ leaf_latch x = LOCKED ∧
          (origin_leaf (leaf_split_op x)).1 = Some (sp_origin sp) ∧ (low_key_leaf (leaf_split_op x)).1 = Some (sp_low sp) ∧
          (high_key_leaf (leaf_split_op x)).1 = Some (sp_high sp) ∧ low_key_leaf_node (leaf_split_op x) = Some (sp_low_node sp) ∧
          high_key_leaf_node (leaf_split_op x) = Some (sp_high_node sp)
      | j :: _ => (∃ x, view s (ANode i) = Some (VNode (InternalN x)) ∧ node_latch x = LOCKED ∧ (origin_node (node_split_op x)).1 = Some j) ∧
          waiting s sp path
      end
  end.

Definition new_addrs sp : list addr := [ANode (sp_low_node sp); ANode (sp_high_node sp); ALeaf (sp_low sp); ALeaf (sp_high sp)].

Definition locked_node s i : Prop :=
  ∃ x, view s (ANode i) = Some (VNode (LeafN x)) ∧ leaf_latch x = LOCKED ∧ leaf_split_op x = leaf_change_default.

Definition frozen_leaf s l : Prop := ∃ b, view s (ALeaf l) = Some (VLeaf b) ∧ frozen (metadata b) = true.

Record committable s sp path : Prop := {
  ca_path : waiting s sp path;
  ca_low : frozen_leaf s (sp_low sp);
  ca_high : frozen_leaf s (sp_high sp);
  ca_low_node : locked_node s (sp_low_node sp);
  ca_high_node : locked_node s (sp_high_node sp);
  ca_nodup : NoDup (map ANode path ++ new_addrs sp)
}.

Definition thaws s s' l : Prop := ∀ b, view s (ALeaf l) = Some (VLeaf b) → view s' (ALeaf l) = Some (VLeaf (thawed_body b)).
Definition unlocks s s' i : Prop := ∀ x, view s (ANode i) = Some (VNode (LeafN x)) → view s' (ANode i) = Some (VNode (LeafN (set_leaf_latch Tag.None x))).

Record committed s sp path s' : Prop := {
  cd_low : thaws s s' (sp_low sp);
  cd_high : thaws s s' (sp_high sp);
  cd_low_node : unlocks s s' (sp_low_node sp);
  cd_high_node : unlocks s s' (sp_high_node sp);
  cd_other a : a ∉ map ANode path ++ new_addrs sp → view s' a = view s a;
  cd_live a : is_Some (view s a) → is_Some (view s' a);
  cd_root : root s' = root s;
  cd_leaves : length (leaves s') = length (leaves s)
}.

Lemma waiting_frame s s' sp path : waiting s sp path → (∀ i, i ∈ path → view s' (ANode i) = view s (ANode i)) → waiting s' sp path.
Proof.
  intros Hw Hv. induction path as [| i path IH]; [done |]. cbn in Hw |- *. destruct path as [| j path].
  - by rewrite Hv by by left.
  - destruct Hw as [Hx Hw]. rewrite Hv by by left. split; [done |]. apply IH; [done |]. intros i' Hi'. apply Hv. by right.
Qed.

Lemma committable_frame s s' sp path : committable s sp path →
  (∀ a, a ∈ map ANode path ++ new_addrs sp → view s' a = view s a) → committable s' sp path.
Proof.
  intros [Hp Hl Hh Hln Hhn Hnd] Hv.
  assert (Hnew : ∀ a, a ∈ new_addrs sp → view s' a = view s a) by (intros a Ha; apply Hv, elem_of_app; by right).
  constructor; [| | | | | done].
  - eapply waiting_frame; [exact Hp |]. intros i Hi. apply Hv, elem_of_app. left. by apply list_elem_of_fmap_2.
  - destruct Hl as (b & Hb & Hf). exists b. rewrite Hnew; [done |]. unfold new_addrs. mem.
  - destruct Hh as (b & Hb & Hf). exists b. rewrite Hnew; [done |]. unfold new_addrs. mem.
  - destruct Hln as (b & Hb & Hf). exists b. rewrite Hnew; [done |]. unfold new_addrs. mem.
  - destruct Hhn as (b & Hb & Hf). exists b. rewrite Hnew; [done |]. unfold new_addrs. mem.
Qed.

Section Run.
Context {R : Type} (Q : R → tree K V → Prop).

Lemma runs_finish_new_leaf_node i x (k : unit → prog (tree K V) R) s :
  view s (ANode i) = Some (VNode (LeafN x)) → leaf_latch x = LOCKED → leaf_split_op x = leaf_change_default →
  (∀ s', writes (ANode i) (VNode (LeafN (set_leaf_latch Tag.None x))) s s' → runs (k ()) s' Q) →
  runs (let! r := finish_new_leaf_node (Some i) in k r) s Q.
Proof.
  intros Hx Hl Ho Hk. unfold finish_new_leaf_node. apply runs_bind. eapply runs_leaf_change_reset; [exact Hx |]. intros s1 Hw1.
  pose proof (writes_there _ _ _ _ Hw1) as Hx1. apply runs_tail. eapply runs_leaf_node_unlock; [exact Hx1 | exact Hl |].
  intros s2 Hw2. apply runs_ret, Hk. pose proof (writes_trans _ _ _ _ _ _ Hw1 Hw2) as Hw. unfold set_leaf_latch, set_leaf_split_op in Hw. cbn in Hw.
  unfold set_leaf_latch. by rewrite Ho.
Qed.
End Run.

Lemma leaf_node_commit_spec s sp i C1 C2 :
  committable s sp [i] → chained s (C1 ++ sp_origin sp :: C2) → NoDup (C1 ++ sp_origin sp :: C2) →
  runs (leaf_node_commit i) s (λ _ s', committed s sp [i] s' ∧ chained s' (C1 ++ C2)).
Proof.
  intros [(x & Hx & Hlatch & Ho & Hlo & Hhi & Hln & Hhn) (b1 & Hb1 & Hf1) (b2 & Hb2 & Hf2) (x1 & Hx1 & Hl1 & Hd1) (x2 & Hx2 & Hl2 & Hd2) Hnd] Hc HC.
  destruct sp as [L0 l1 l2 n1 n2]. unfold new_addrs in *. cbn [map app sp_origin sp_low sp_high sp_low_node sp_high_node] in *.
  apply NoDup_cons in Hnd as [Hi Hnd]. rewrite !not_elem_of_cons in Hi. destruct Hi as (Hi1 & Hi2 & _).
  apply NoDup_cons in Hnd as [Hn12 Hnd]. rewrite !not_elem_of_cons in Hn12. destruct Hn12 as (Hn12 & _).
  apply NoDup_cons in Hnd as [_ Hnd]. apply NoDup_cons in Hnd as [Hl12 _]. rewrite !not_elem_of_cons in Hl12. destruct Hl12 as (Hl12 & _).
  pose proof (progress_start s _ Hc) as HP. unfold leaf_node_commit.
  eapply (runs_leaf_node_act _ i); [exact Hx | done |]. intros s1 Hw. wrote HP Hw. rewrite Ho.
  apply runs_bind. eapply (progress_delete _ _ _ _ _ _ _ _ _ _ HP HC); [apply not_elem_of_nil |]. clear s1 HP. intros s1 HP. apply runs_ret.
  eapply runs_leaf_node_load; [look HP |]. eapply runs_leaf_node_load; [look HP |]. fields. rewrite Hlo, Hhi.
  eapply runs_leaf_call; [look HP; exact Hb1 | by apply runs_thaw |]. intros r b1' s2 [-> ->] Hw. wrote HP Hw. apply runs_dassert; [done |].
  eapply runs_leaf_call; [look HP; exact Hb2 | by apply runs_thaw |]. intros r b2' s3 [-> ->] Hw. wrote HP Hw. apply runs_dassert; [done |].
  eapply runs_leaf_node_load; [look HP |]. fields. rewrite Hln.
  eapply runs_finish_new_leaf_node; [look HP; exact Hx1 | done | done |]. intros s4 Hw. wrote HP Hw.
  eapply runs_leaf_node_load; [look HP |]. fields. rewrite Hhn.
  eapply runs_finish_new_leaf_node; [look HP; exact Hx2 | done | done |]. intros s5 Hw. wrote HP Hw.
  eapply runs_leaf_change_reset; [look HP |]. intros s6 Hw. wrote HP Hw. apply runs_tail.
  eapply runs_leaf_node_retire; [look HP | done |]. intros s7 Hw. wrote HP Hw. apply runs_ret. split; [| apply HP].
  constructor; unfold new_addrs; cbn [map app sp_low sp_high sp_low_node sp_high_node].
  - intros b Hb. look HP. rewrite Hb1 in Hb. by injection Hb as ->.
  - intros b Hb. look HP. rewrite Hb2 in Hb. by injection Hb as ->.
  - intros y Hy. look HP. rewrite Hx1 in Hy. by injection Hy as ->.
  - intros y Hy. look HP. rewrite Hx2 in Hy. by injection Hy as ->.
  - intros a Ha. rewrite !not_elem_of_cons in Ha. destruct Ha as (? & ? & ? & ? & ? & _). look HP.
  - intros a Ha. rewrite (pg_view _ _ _ _ _ _ HP). destruct (wlook a _); [by eexists | done].
  - apply HP.
  - rewrite (pg_leaves _ _ _ _ _ _ HP). lia.
Qed.

Lemma node_commit_spec d s sp path i C1 C2 :
  committable s sp (i :: path) → chained s (C1 ++ sp_origin sp :: C2) → NoDup (C1 ++ sp_origin sp :: C2) → (length path < d)%nat →
  runs (node_commit d i) s (λ _ s', committed s sp (i :: path) s' ∧ chained s' (C1 ++ C2)).
Proof.
  induction path as [| j path IH] in d, i, s |- *; intros Hca Hc HC Hd; (destruct d as [| d]; [cbn in Hd; lia |]); pose proof (ca_path _ _ _ Hca) as Hw; cbn in Hw.
  - destruct Hw as (x & Hx & _). eapply runs_node_at; [exact Hx |]. by apply leaf_node_commit_spec.
  - destruct Hw as [(x & Hx & Hl & Ho) Hw]. eapply runs_node_at; [exact Hx |]. unfold internal_commit.
    eapply runs_node_change_reset; [exact Hx |]. intros s1 Hw1. rewrite Ho.
    eapply runs_internal_retire; [by eapply writes_there | exact Hl |]. intros s2 Hw2. pose proof (writes_trans _ _ _ _ _ _ Hw1 Hw2) as Hw12. clear Hw1 Hw2 s1.
    pose proof (ca_nodup _ _ _ Hca) as Hnd. change (map ANode (i :: j :: path) ++ new_addrs sp) with (ANode i :: (map ANode (j :: path) ++ new_addrs sp)) in Hnd.
    apply NoDup_cons in Hnd as [Hi Hnd].
    assert (Hsame : ∀ a, a ∈ map ANode (j :: path) ++ new_addrs sp → view s2 a = view s a).
    { intros a Ha. rewrite (w_view _ _ _ _ Hw12), decide_False; [done |]. intros ->. by apply Hi. }
    assert (Hca2 : committable s2 sp (j :: path)).
    { apply (committable_frame s); [| done]. destruct Hca. by constructor. }
    eapply runs_mono; [| apply (IH d s2 j Hca2); [| done | cbn in Hd; lia]].
    + intros _ s' [[Hcl Hch Hcln Hchn Hco Hcv Hcr Hclv] Hc']. split; [| done].
      assert (Hnew : ∀ a, a ∈ new_addrs sp → view s2 a = view s a) by (intros a Ha; apply Hsame, elem_of_app; by right).
      constructor; [intros b Hb; apply Hcl | intros b Hb; apply Hch | intros b Hb; apply Hcln | intros b Hb; apply Hchn | | | |];
        try (rewrite Hnew by (unfold new_addrs; mem); exact Hb).
      * intros a Ha. change (map ANode (i :: j :: path) ++ new_addrs sp) with (ANode i :: (map ANode (j :: path) ++ new_addrs sp)) in Ha.
        apply not_elem_of_cons in Ha as [Hai Ha]. rewrite Hco by done. by rewrite (w_view _ _ _ _ Hw12), decide_False.
      * intros a Ha. apply Hcv. rewrite (w_view _ _ _ _ Hw12). case_decide; [by eexists | done].
      * rewrite Hcr. apply Hw12.
      * rewrite Hclv. apply Hw12.
    + eapply segment_same; [exact Hc |]. by eapply same_links_writes.
Qed.
(** A tree with the new leaves and nodes, when they are thawed and unlocked. *)
Lemma rep_committed s sp path s' h (t : shape K V h) :
  committable s sp path → committed s sp path s' →
  rep [sp_low sp; sp_high sp] [sp_low_node sp; sp_high_node sp] s h t → (∀ i, i ∈ path → ANode i ∉ foot h t) → rep [] [] s' h t.
Proof.
  intros Hca Hcd. induction h as [| h IH]; intros Hr Hpath.
  - destruct Hr as (b & Hb & Hr). destruct (decide (sl_id t ∈ [sp_low sp; sp_high sp])) as [Hin | Hin].
    + rewrite bool_decide_true in Hr by done. exists (thawed_body b). split; [| by apply leaf_rep_thawed].
      apply elem_of_cons in Hin as [Heq | Heq%list_elem_of_singleton]; rewrite Heq in *; [by apply (cd_low _ _ _ _ Hcd) | by apply (cd_high _ _ _ _ Hcd)].
    + rewrite bool_decide_false in Hr by done. exists b. split; [| done]. rewrite (cd_other _ _ _ _ Hcd); [done |].
      intros [(i & [=] & _)%list_elem_of_fmap | Ha]%elem_of_app. apply Hin. unfold new_addrs in Ha. rewrite !elem_of_cons in Ha. rewrite !elem_of_cons.
      destruct Ha as [[=] | [[=] | [[= Ha] | [[= Ha] | Ha]]]]; [by left | by right; left | by apply not_elem_of_nil in Ha].
  - apply rep_S in Hr as [(nd & Hnd & Hrep) Hx]. split.
    + destruct (decide (nid t ∈ [sp_low_node sp; sp_high_node sp])) as [Hin | Hin].
      * assert (Hlk : ∃ x, nd = LeafN x ∧ view s' (ANode (nid t)) = Some (VNode (LeafN (set_leaf_latch Tag.None x)))).
        { apply elem_of_cons in Hin as [Heq | Heq%list_elem_of_singleton]; rewrite Heq in *.
          - destruct (ca_low_node _ _ _ Hca) as (x & Hv & _). exists x. split; [congruence | by apply (cd_low_node _ _ _ _ Hcd)].
          - destruct (ca_high_node _ _ _ Hca) as (x & Hv & _). exists x. split; [congruence | by apply (cd_high_node _ _ _ _ Hcd)]. }
        destruct Hlk as (x & -> & Hv). exists (LeafN (set_leaf_latch Tag.None x)). split; [done |].
        destruct Hrep as [Hk Hi _ [Hh Hl]]. by constructor.
      * rewrite bool_decide_false in Hrep by done. exists nd. split; [| done]. rewrite (cd_other _ _ _ _ Hcd); [done |].
        intros [(i & [= <-] & Hi)%list_elem_of_fmap | Ha]%elem_of_app; [by apply (Hpath _ Hi); left |].
        apply Hin. unfold new_addrs in Ha. rewrite !elem_of_cons in Ha. rewrite !elem_of_cons.
        destruct Ha as [[= Ha] | [[= Ha] | [[=] | [[=] | Ha]]]]; [by left | by right; left | by apply not_elem_of_nil in Ha].
    + rewrite Forall_forall in Hx |- *. intros x Hin. destruct (Hx x Hin) as [Hc Hrx]. split.
      * rewrite (cd_other _ _ _ _ Hcd); [done |]. intros [(i & [=] & _)%list_elem_of_fmap | Ha]%elem_of_app. unfold new_addrs in Ha.
        rewrite !elem_of_cons in Ha. destruct Ha as [[=] | [[=] | [[=] | [[=] | Ha]]]]. by apply not_elem_of_nil in Ha.
      * apply IH; [done |]. intros i Hi Ha. apply (Hpath i Hi). right. apply elem_of_slots_foot. by eauto.
Qed.

(** ** Pending splits *)

(** The child of the slot with the key [pd_key] and the cell [pd_cell] becomes the two
    children [pd_low], up to the key [pd_mid], and [pd_high]. *)
Record pend h := Pend {
  pd_pre : list (slot K (shape K V h));
  pd_key : option K;
  pd_cell : nat;
  pd_mid : K;
  pd_low : shape K V h;
  pd_high : shape K V h;
  pd_post : list (slot K (shape K V h));
  pd_split : split;
  pd_path : list nat;
  pd_left : list nat;
  pd_right : list nat
}.

Arguments pd_pre {_} _.
Arguments pd_key {_} _.
Arguments pd_cell {_} _.
Arguments pd_mid {_} _.
Arguments pd_low {_} _.
Arguments pd_high {_} _.
Arguments pd_post {_} _.
Arguments pd_split {_} _.
Arguments pd_path {_} _.
Arguments pd_left {_} _.
Arguments pd_right {_} _.

Definition old_slots {h} (P : pend h) : list (slot K (shape K V h)) := pd_pre P ++ (pd_key P, pd_cell P, pd_low P) :: pd_post P.
Definition new_slots {h} (P : pend h) : list (slot K (shape K V h)) :=
  pd_pre P ++ (Some (pd_mid P), O, pd_low P) :: (pd_key P, O, pd_high P) :: pd_post P.

Definition pend_frozen {h} (P : pend h) : list nat := [sp_low (pd_split P); sp_high (pd_split P)].
Definition pend_locked {h} (P : pend h) : list nat :=
  match h with O => [] | S _ => [sp_low_node (pd_split P); sp_high_node (pd_split P)] end.

(** The [split_op] of the node, and the state of the full child. *)
Definition splitting s h : pend h → Node K → Prop :=
  match h with
  | O => λ P nd,
      match nd with
      | LeafN x =>
          leaf_split_op x = {| origin_leaf_key := pd_key P; origin_leaf := (Some (sp_origin (pd_split P)), Tag.None);
            low_key_leaf := (Some (sp_low (pd_split P)), Tag.None); high_key_leaf := (Some (sp_high (pd_split P)), Tag.None);
            low_key_leaf_node := None; high_key_leaf_node := None |} ∧
          sid 0 (pd_low P) = sp_low (pd_split P) ∧ sid 0 (pd_high P) = sp_high (pd_split P) ∧
          (∃ v, last (contents 0 (pd_low P)) = Some (pd_mid P, v)) ∧ pd_path P = []
      | InternalN _ => False
      end
  | S h => λ P nd,
      match nd with
      | InternalN x => ∃ j path, pd_path P = j :: path ∧
          node_split_op x = {| origin_node_key := pd_key P; origin_node := (Some j, Tag.None); low_key_node := (Some (sid (S h) (pd_low P)), Tag.None);
            middle_key := Some (pd_mid P); high_key_node := (Some (sid (S h) (pd_high P)), Tag.None) |} ∧
          committable s (pd_split P) (pd_path P)
      | LeafN _ => False
      end
  end.

Definition pend_foot {h} i (P : pend h) : list addr :=
  map ANode (i :: pd_path P) ++ slots_foot h (pd_pre P) ++ foot h (pd_low P) ++ foot h (pd_high P) ++ slots_foot h (pd_post P).

Record pending s A B h i (P : pend h) lo hi : Prop := {
  pn_node : ∃ nd, view s (ANode i) = Some (VNode nd) ∧ latch_of nd = LOCKED ∧ children_rep nd (old_slots P) ∧ splitting s h P nd;
  pn_pre : Forall (slot_rep (pend_frozen P) (pend_locked P) s h) (pd_pre P);
  pn_post : Forall (slot_rep (pend_frozen P) (pend_locked P) s h) (pd_post P);
  pn_low : rep (pend_frozen P) (pend_locked P) s h (pd_low P);
  pn_high : rep (pend_frozen P) (pend_locked P) s h (pd_high P);
  pn_bounded : slots_ok (bounded h) (new_slots P) lo hi;
  pn_foot : NoDup (pend_foot i P);
  pn_leafs : slots_leafs h (new_slots P) = pd_left P ++ pd_right P;
  pn_chain : chain s (A ++ pd_left P ++ sp_origin (pd_split P) :: pd_right P ++ B);
  pn_frozen l : l ∈ pend_frozen P → ALeaf l ∈ foot h (pd_low P) ++ foot h (pd_high P);
  pn_locked j : j ∈ pend_locked P → ANode j ∈ foot h (pd_low P) ++ foot h (pd_high P);
  pn_depth : length (pd_path P) = h
}.

(** ** What an insertion promises *)

Record moved s s' A B h (t u : shape K V h) lo hi m : Prop := {
  mv_ctx : ctx s' A B h u lo hi;
  mv_sid : sid h u = sid h t;
  mv_step : step (foot h t) m s s';
  mv_grows : grows s (foot h t) (foot h u)
}.

Record full s s' A B h (t : shape K V (S h)) lo hi k (P : pend h) : Prop := {
  fl_pending : pending s' A B h (nid t) P lo hi;
  fl_step : step (foot (S h) t) 2 s s';
  fl_grows : grows s (foot (S h) t) (pend_foot (nid t) P);
  fl_contents : slots_contents h (new_slots P) ≡ₚ contents (S h) t;
  fl_room : ∃ x, slot_for k (new_slots P) = Some x ∧ room h x.2 k
}.

(** The split of a child makes room for [k], or the node is full. *)
Definition split_post s A B h (t : shape K V (S h)) lo hi k v (r : InsertResult K V + K * V) s' : Prop :=
  match r with
  | inl (Retry k' v') => k' = k ∧ v' = v ∧ ∃ u, moved s s' A B (S h) t u lo hi 2 ∧ contents (S h) u ≡ₚ contents (S h) t ∧ room (S h) u k
  | inl (Full k' v') => k' = k ∧ v' = v ∧ ∃ P, full s s' A B h t lo hi k P
  | _ => False
  end.

Definition insert_post s A B h (t : shape K V (S h)) lo hi k v (r : InsertResult K V + K * V) s' : Prop :=
  match r with
  | inl Success => ∃ u m, moved s s' A B (S h) t u lo hi m ∧ (m ≤ 2)%nat ∧ (room (S h) t k → m = O) ∧
      contents (S h) u ≡ₚ (k, v) :: contents (S h) t ∧ ∀ v', (k, v') ∉ contents (S h) t
  | inl (Duplicate k' v') => k' = k ∧ v' = v ∧ ∃ u, moved s s' A B (S h) t u lo hi 0 ∧
      contents (S h) u ≡ₚ contents (S h) t ∧ ∃ v', (k, v') ∈ contents (S h) t
  | inl (Full k' v') => k' = k ∧ v' = v ∧ ¬ room (S h) t k ∧ (∀ v', (k, v') ∉ contents (S h) t) ∧ ∃ P, full s s' A B h t lo hi k P
  | _ => False
  end.
End Commit.

Arguments Pend {_ _ _} _ _ _ _ _ _ _ _ _ _ _.
Arguments pd_pre {_ _ _} _.
Arguments pd_key {_ _ _} _.
Arguments pd_cell {_ _ _} _.
Arguments pd_mid {_ _ _} _.
Arguments pd_low {_ _ _} _.
Arguments pd_high {_ _ _} _.
Arguments pd_post {_ _ _} _.
Arguments pd_split {_ _ _} _.
Arguments pd_path {_ _ _} _.
Arguments pd_left {_ _ _} _.
Arguments pd_right {_ _ _} _.

(** ** A full child in a full node

    When a child is split and there is no room for both halves in the node, the node stays
    locked: [full_intro] says when this state is a [pending] split, at any height. *)

Section Pending.
Context {K V : Type} `{KeyOrd K}.

Implicit Types (s : tree K V) (l i c : nat) (nd : Node K) (k : K) (lo hi : option K) (A B : list nat).

Section Full.
Context s s' A B h (t : shape K V (S h)) lo hi (pre : list (slot K (shape K V h))) (y : slot K (shape K V h)) (post : list (slot K (shape K V h)))
  (lo' : option K) k (km : K) (u1 u2 : shape K V h) (sp : split) (path left right : list nat) nd.

Let P : pend h := Pend pre (slot_key y) (slot_cell y) km u1 u2 post sp path left right.

Context (Hctx : ctx s A B (S h) t lo hi) (Heq : slots t = pre ++ y :: post) (Hspan : span (bounded h) pre lo hi lo')
  (Hok : slots_ok (bounded h) (y :: post) lo' hi) (Hab : above lo' k) (Hup : upto k (slot_hi y hi)).
Context (Hnd : view s' (ANode (nid t)) = Some (VNode nd)) (Hlatch : latch_of nd = LOCKED) (Hch : children_rep nd (slots t)) (Hsplit : splitting s' h P nd).
Context (Hu1 : rep (pend_frozen P) (pend_locked P) s' h u1) (Hu2 : rep (pend_frozen P) (pend_locked P) s' h u2).
Context (Hlo : above lo' km) (Hhi : below km (slot_hi y hi)) (Hb1 : bounded h u1 lo' (Some km)) (Hb2 : bounded h u2 (Some km) (slot_hi y hi)).
Context (Hnew : NoDup (map ANode path ++ foot h u1 ++ foot h u2)) (Hgrows : grows s (foot h y.2) (map ANode path ++ foot h u1 ++ foot h u2)).
Context (Hfz : ∀ l, l ∈ pend_frozen P → ALeaf l ∈ foot h u1 ++ foot h u2) (Hlk : ∀ i, i ∈ pend_locked P → ANode i ∈ foot h u1 ++ foot h u2).
Context (Hdepth : length path = h) (Hst : step (ANode (nid t) :: ACell (slot_cell y) :: foot h y.2) 2 s s').

Local Notation new := (map ANode path ++ foot h u1 ++ foot h u2).
Local Notation others a := (a ∈ slots_foot h pre ∨ a ∈ slots_foot h post).

Lemma full_outside a : others a → a ∉ new ∧ view s' a = view s a.
Proof.
  intros Ha. destruct Hctx as [Hr _ Hnd0 _].
  destruct (outside_child _ _ _ _ _ _ _ _ a Hr Hnd0 Heq) as [Hn Hl]; [mem |].
  split; [intros Hin; destruct (Hgrows a Hin) as [? | Hv]; [done | rewrite Hv in Hl; by destruct Hl] |].
  apply (st_view _ _ _ _ Hst); [done |]. rewrite !not_elem_of_cons. rewrite foot_S, Heq, slots_foot_app in Hnd0.
  apply NoDup_cons in Hnd0 as [Hi Hnd0]. split; [intros ->; apply Hi; rewrite elem_of_app; destruct Ha; [by left | right; right; apply elem_of_app; by right] |].
  split; [| done]. intros ->. apply NoDup_app in Hnd0 as (_ & H1 & [Hc _]%NoDup_cons). destruct Ha as [Ha | Ha]; [apply (H1 _ Ha); by left |].
  apply Hc, elem_of_app. by right.
Qed.

Lemma full_slots xs : (∀ a, a ∈ slots_foot h xs → others a) → Forall (slot_rep [] [] s h) xs → Forall (slot_rep (pend_frozen P) (pend_locked P) s' h) xs.
Proof.
  intros Hxs Hx. eapply slots_frame in Hx; [| intros a Ha; apply full_outside, (Hxs _ Ha)].
  rewrite Forall_forall in Hx |- *. intros x Hin. destruct (Hx x Hin) as [Hc Hr]. split; [done |].
  assert (Hnot : ∀ a, a ∈ foot h x.2 → a ∉ foot h u1 ++ foot h u2).
  { intros a Ha Ha2. apply (proj1 (full_outside a (Hxs a ltac:(apply elem_of_slots_foot; eauto)))). apply elem_of_app. by right. }
  eapply rep_flags; [exact Hr | |]; intros z Hz.
  - split; [intros Hz'; exfalso; exact (Hnot _ Hz (Hfz _ Hz')) | by intros ?%not_elem_of_nil].
  - split; [intros Hz'; exfalso; exact (Hnot _ Hz (Hlk _ Hz')) | by intros ?%not_elem_of_nil].
Qed.

Lemma full_intro :
  slots_leafs h (new_slots P) = left ++ right → chain s' (A ++ left ++ sp_origin sp :: right ++ B) →
  contents h y.2 ≡ₚ contents h u1 ++ contents h u2 → (if decide (cmp km k = Lt) then room h u2 k else room h u1 k) →
  full s s' A B h t lo hi k P.
Proof using All.
  intros Hleafs Hchain Hcont Hroom. destruct Hctx as [Hr Hb Hnd0 Hc0].
  apply rep_S in Hr as [(nd0 & Hn0 & _) Hx]. rewrite Heq in Hx. apply Forall_app in Hx as [Hpre [_ Hpost]%Forall_cons].
  rewrite foot_S, Heq, slots_foot_app in Hnd0. change (slots_foot h (y :: post)) with (ACell (slot_cell y) :: foot h y.2 ++ slots_foot h post) in Hnd0.
  apply NoDup_cons in Hnd0 as [Hi Hnd0].
  assert (Hfoot : ∀ a, a ∈ pend_foot (nid t) P ↔ a = ANode (nid t) ∨ a ∈ slots_foot h pre ∨ a ∈ new ∨ a ∈ slots_foot h post).
  { intros a. unfold pend_foot. cbn [map app pd_path pd_pre pd_low pd_high pd_post P]. mem. }
  constructor; [constructor | | | |].
  - exists nd. split; [done |]. split; [done |]. split; [| done]. eapply children_rep_ext; [exact Hch | |]; rewrite Heq; change (old_slots P) with (pre ++ (slot_key y, slot_cell y, u1) :: post).
    + by rewrite !keyed_app.
    + rewrite !last_app_cons. by destruct post.
  - apply full_slots; [auto | done].
  - apply full_slots; [auto | done].
  - exact Hu1.
  - exact Hu2.
  - apply slots_ok_app; [done |]. exists lo'. split; [exact Hspan |]. by apply (slots_ok_two (bounded h)).
  - unfold pend_foot. cbn [map app pd_path pd_pre pd_low pd_high pd_post P]. apply NoDup_cons. split.
    + intros Ha. apply Hi. rewrite !elem_of_app in Ha. rewrite elem_of_app, elem_of_cons, elem_of_app.
      assert (Hd : ANode (nid t) ∈ new → ANode (nid t) ∈ foot h y.2).
      { intros Ha'. destruct (Hgrows _ Ha') as [? | Hv]; [done |]. rewrite Hn0 in Hv. done. }
      rewrite !elem_of_app in Hd. tauto.
    + assert (Hp : slots_foot h pre ++ new ++ slots_foot h post ≡ₚ map ANode path ++ slots_foot h pre ++ foot h u1 ++ foot h u2 ++ slots_foot h post) by solve_Permutation.
      rewrite <-Hp. apply (NoDup_replace s _ (foot h y.2)); [| done | done |].
      * eapply sublist_NoDup; [exact Hnd0 |]. apply sublist_app; [done |]. by constructor.
      * intros a [Ha | Ha]; [exact (slots_live _ _ _ _ _ _ Hpre Ha) | exact (slots_live _ _ _ _ _ _ Hpost Ha)].
  - exact Hleafs.
  - exact Hchain.
  - exact Hfz.
  - exact Hlk.
  - exact Hdepth.
  - eapply step_weaken; [exact Hst | | done]. intros a. rewrite foot_S, Heq, slots_foot_app.
    change (slots_foot h (y :: post)) with (ACell (slot_cell y) :: foot h y.2 ++ slots_foot h post). mem.
  - intros a Ha%Hfoot. rewrite foot_S, Heq, slots_foot_app. change (slots_foot h (y :: post)) with (ACell (slot_cell y) :: foot h y.2 ++ slots_foot h post).
    assert (Hd : a ∈ new → a ∈ foot h y.2 ∨ view s a = None) by apply Hgrows. rewrite elem_of_cons, elem_of_app, elem_of_cons, elem_of_app. tauto.
  - rewrite contents_S, Heq. unfold new_slots. cbn [pd_pre pd_mid pd_low pd_key pd_high pd_post P].
    rewrite !slots_contents_app, !slots_contents_cons, Hcont, <-app_assoc. done.
  - eexists. split; [by eapply slot_for_two |]. change (pd_mid P) with km. by destruct (decide (cmp km k = Lt)).
Qed.
End Full.
End Pending.
