(* ===== verification/TreeInsertLeaf.v ===== *)
(** * Insertion into a leaf node *)
From stdpp Require Import sorting.
From S2P Require Import Prelude Atomic Ord Tag AtomicShared LinkedList Dimension Leaf LeafInv LeafState LeafSeq LeafScan TreeStore TreeLeafNode TreeNode TreeRep TreeSearch TreeCtx TreeCommit.

#[local] Existing Instance Tag.eq_dec.

(** ** Splitting a full leaf: [split_leaf] *)

Section SplitLeaf.
Context {K V : Type} `{KeyOrd K}.

Implicit Types (s : tree K V) (l i c : nat) (p : Ptr) (nd : Node K) (k : K) (lo hi : option K) (A B C : list nat).

Lemma NoDup_insert_after {T} (C1 C2 : list T) t e : e ∉ C1 ++ t :: C2 → NoDup (C1 ++ t :: C2) → NoDup (C1 ++ t :: e :: C2).
Proof.
  intros He Hnd. replace (C1 ++ t :: e :: C2) with ((C1 ++ [t]) ++ e :: C2) by (by rewrite <-app_assoc).
  rewrite <-Permutation_middle, <-app_assoc. by constructor.
Qed.

(** The children of a node with one more slot. *)
Lemma holding_inserted {T} (Bd : T → option K → option K → Prop) ch (pre : list (slot K T)) km c t1 y y' post lo hi :
  wf ch [] → frozen (metadata ch) = false → sorted_entries ch ≡ₚ (km, c) :: keyed (pre ++ y :: post) →
  y'.1 = y.1 → slots_ok Bd (pre ++ (Some km, c, t1) :: y' :: post) lo hi →
  holding ch (keyed (pre ++ (Some km, c, t1) :: y' :: post)).
Proof.
  intros Hw Hf Hp Hy Hok. constructor; [done | done |]. apply sorted_unique; [by apply sorted_entries_spec | by eapply keyed_sorted |].
  rewrite Hp, !keyed_app. rewrite (keyed_Some (Some km, c, t1) _ km) by done. change (slot_cell (Some km, c, t1)) with c.
  assert (Heq : keyed (y' :: post) = keyed (y :: post)). { unfold keyed. csimpl. unfold slot_key, slot_cell. by rewrite Hy. }
  rewrite Heq. apply Permutation_middle.
Qed.
Lemma runs_leaf_node_retired {R} i nd o (k : bool → prog (tree K V) R) s Q :
  view s (ANode i) = Some (VNode nd) → view s (ACell (unbounded_of nd)) = Some (VCell (o, Tag.None)) →
  runs (k false) s Q → runs (let! r := leaf_node_retired i in k r) s Q.
Proof.
  intros Hn Hc Hk. unfold leaf_node_retired. apply runs_bind. eapply runs_unbounded_child; [exact Hn |].
  eapply runs_cell_tag; [exact Hc |]. by apply runs_ret.
Qed.

Section Split.
Context (n : nat) (s : tree K V) (i c L0 : nat) (x : LeafNode K) (b : leaf K V) (t0 : sleaf K V) (ok : option K) (C1 C2 : list nat).
Context (Hi : view s (ANode i) = Some (VNode (LeafN x))) (Hlatch : leaf_latch x = Tag.None) (Hidle : leaf_split_op x = leaf_change_default).
Context (Hc : view s (ACell c) = Some (VCell (Some L0, Tag.None))).
Context (Hu : ∃ o, view s (ACell (leaf_unbounded_child x)) = Some (VCell (o, Tag.None))).
Context (HL0 : view s (ALeaf L0) = Some (VLeaf b)) (Hb : leaf_rep false b t0).
Context (Hlinks : chained s (C1 ++ L0 :: C2)) (Hnd : NoDup (C1 ++ L0 :: C2)) (Hlive : ∀ l, l ∈ C1 ++ L0 :: C2 → is_Some (view s (ALeaf l))).
Context (xs : list (slot K (sleaf K V))) (Hch : holding (leaf_children x) (keyed xs)).

Let F := [ANode i; ACell c; ALeaf L0].

(** All entries go to one new leaf. *)
Definition split_one s' : Prop :=
  ∃ l bl, view s (ALeaf l) = None ∧ step F 1 s s' ∧ chained s' (C1 ++ l :: C2) ∧ view s' (ANode i) = Some (VNode (LeafN x)) ∧
    view s' (ALeaf l) = Some (VLeaf bl) ∧ leaf_rep false bl (SLeaf l true (sl_entries t0)) ∧ view s' (ACell c) = Some (VCell (Some l, Tag.None)).

(** They go to two new leaves, for which there is room in the node. *)
Definition split_two s' : Prop :=
  ∃ l1 b1 E1 l2 b2 E2 km v c' ch, sl_entries t0 = E1 ++ E2 ∧ E2 ≠ [] ∧ last E1 = Some (km, v) ∧ l1 ≠ l2 ∧
    view s (ALeaf l1) = None ∧ view s (ALeaf l2) = None ∧ view s (ACell c') = None ∧ step F 2 s s' ∧ chained s' (C1 ++ l1 :: l2 :: C2) ∧
    view s' (ANode i) = Some (VNode (LeafN (set_leaf_children ch x))) ∧ wf ch [] ∧ frozen (metadata ch) = false ∧
    sorted_entries ch ≡ₚ (km, c') :: keyed xs ∧
    view s' (ALeaf l1) = Some (VLeaf b1) ∧ leaf_rep false b1 (SLeaf l1 true E1) ∧ view s' (ACell c') = Some (VCell (Some l1, Tag.None)) ∧
    view s' (ALeaf l2) = Some (VLeaf b2) ∧ leaf_rep false b2 (SLeaf l2 true E2) ∧ view s' (ACell c) = Some (VCell (Some l2, Tag.None)).

(** There is no room for them: the node stays locked, the new leaves stay frozen. *)
Definition split_full s' : Prop :=
  ∃ l1 b1 E1 l2 b2 E2 km v x', sl_entries t0 = E1 ++ E2 ∧ E2 ≠ [] ∧ last E1 = Some (km, v) ∧ l1 ≠ l2 ∧
    view s (ALeaf l1) = None ∧ view s (ALeaf l2) = None ∧ step [ANode i; ALeaf L0] 2 s s' ∧ chained s' (C1 ++ L0 :: l1 :: l2 :: C2) ∧
    view s' (ANode i) = Some (VNode (LeafN x')) ∧ leaf_children x' = leaf_children x ∧ leaf_unbounded_child x' = leaf_unbounded_child x ∧
    leaf_latch x' = LOCKED ∧
    leaf_split_op x' = {| origin_leaf_key := ok; origin_leaf := (Some L0, Tag.None); low_key_leaf := (Some l1, Tag.None);
      high_key_leaf := (Some l2, Tag.None); low_key_leaf_node := None; high_key_leaf_node := None |} ∧
    view s' (ALeaf l1) = Some (VLeaf b1) ∧ leaf_rep true b1 (SLeaf l1 true E1) ∧
    view s' (ALeaf l2) = Some (VLeaf b2) ∧ leaf_rep true b2 (SLeaf l2 true E2) ∧ (∃ b0, view s' (ALeaf L0) = Some (VLeaf b0) ∧ wf b0 []).

Lemma split_leaf_outcomes k v :
  (1 < n)%nat → (∀ km v E1 E2, sl_entries t0 = E1 ++ E2 → E2 ≠ [] → last E1 = Some (km, v) → ∀ y, (km, y) ∉ keyed xs) →
  runs (split_leaf n i k v ok (Some L0, Tag.None) c) s (λ r s',
    r = inl (Retry k v) ∧ (split_one s' ∨ split_two s') ∨ r = inl (Full k v) ∧ split_full s').
Proof.
  intros Hn Hnew. unfold split_leaf. pose proof (progress_start s _ Hlinks) as HP. destruct Hu as [o Ho].
  eapply runs_leaf_node_try_lock; [exact Hi | done |]. intros s1 Hw. wrote HP Hw. cbn [negb].
  eapply runs_leaf_node_retired; [look HP | look HP; exact Ho |].
  eapply runs_cell_load; [look HP; exact Hc |]. rewrite bool_decide_true by done. cbn [negb].
  eapply runs_cell_get_shared; [look HP; exact Hc |].
  eapply (runs_leaf_node_act _ i); [look HP | done |]. intros s2 Hw. fields. rewrite Hidle. apply runs_dassert; [done |].
  set (x1 := set_leaf_split_op {| origin_leaf_key := ok; origin_leaf := (Some L0, Tag.None); low_key_leaf := ptr_null;
    high_key_leaf := ptr_null; low_key_leaf_node := None; high_key_leaf_node := None |} (set_leaf_latch LOCKED x)).
  eapply (runs_call _ _ _ (λ _ s3, writes (ANode i) (VNode (LeafN x1)) s1 s3)).
  { destruct ok as [key |]; [| apply runs_ret; revert Hw; unfold x1; fields; by rewrite Hidle]. apply runs_tail.
    eapply (runs_leaf_node_act _ i); [by eapply writes_there | done |]. intros s3 Hw3. apply runs_ret.
    pose proof (writes_trans _ _ _ _ _ _ Hw Hw3) as Hw4. revert Hw4. unfold x1. fields. by rewrite Hidle. }
  clear s2 Hw. intros _ s2 Hw. wrote HP Hw. fields.
  eapply runs_leaf_call; [look HP; exact HL0 | by eapply leaf_split_spec |]. intros [low high] b' s3 [-> Hlh] Hw. wrote HP Hw. fields.
  destruct high as [high |].
  - destruct low as [low |]; [| done]. destruct Hlh as (E1 & E2 & HE & HE1 & HE2 & Hlow & Hhigh).
    destruct (last E1) as [[km vm] |] eqn:Hlast; [| by apply last_None in Hlast].
    apply runs_bind. eapply runs_alloc_leaf. intros l1 s4 Ha. allocated HP Ha Hf1.
    eapply (runs_leaf_node_act _ i); [look HP | done |]. intros s5 Hw. wrote HP Hw.
    eapply runs_alloc_leaf. intros l2 s6 Ha. allocated HP Ha Hf2. apply runs_tail.
    eapply (runs_leaf_node_act _ i); [look HP | done |]. intros s7 Hw. wrote HP Hw. apply runs_ret.
    destruct Hf1 as [_ Hf1], Hf2 as [Hf2' Hf2].
    assert (Hl12 : l1 ≠ l2). { intros ->. cbn in Hf2'. rewrite decide_False, decide_True in Hf2' by done. done. } clear Hf2'.
    eapply runs_leaf_node_load; [look HP |]. eapply runs_leaf_node_load; [look HP |]. unfold x1. fields.
    assert (HnC : ∀ l, view s (ALeaf l) = None → l ∉ C1 ++ L0 :: C2) by (intros l Hf Hin; destruct (Hlive l Hin) as [? Hv]; rewrite Hf in Hv; done).
    apply runs_bind. eapply (progress_push _ n ltac:(lia) _ C1 L0 C2 [l1] 2 s s7 l2 true); [exact HP | constructor; [by apply HnC | done] | |].
    { intros l' ->%list_elem_of_singleton. split; [done |]. intros ->. apply (HnC L0 Hf1), elem_of_app. right. by left. }
    clear s1 s3 s4 s5 s6 s7 HP. intros r s3 HP ->. apply runs_dassert; [done |].
    pose proof (NoDup_insert_after _ _ _ _ (HnC l2 Hf2) Hnd) as Hnd2.
    assert (Hl1 : l1 ∉ C1 ++ L0 :: l2 :: C2).
    { intros Hin. apply (HnC l1 Hf1). apply elem_of_app in Hin as [Hin | [Hin | [Hin | Hin]%elem_of_cons]%elem_of_cons]; [| | by destruct Hl12 |]; mem. }
    eapply (progress_push _ n ltac:(lia) _ C1 L0 (l2 :: C2) [] 2 s s3 l1 true); [exact HP | by constructor | by intros l' ?%not_elem_of_nil |].
    clear s3 HP. intros r s3 HP ->. apply runs_dassert; [done |].
    eapply runs_leaf_read; [look HP | apply (runs_max_key _ E1); [apply (Hlow l1) | apply (lr_entries _ _ _ (Hlow l1))] |]. intros r ->. rewrite Hlast. cbn [fmap option_fmap option_map fst].
    eapply runs_leaf_call; [look HP | apply runs_freeze, (Hlow l1) |]. intros r bl1 s4 [-> ->] Hw. wrote HP Hw. apply runs_dassert; [done |].
    eapply runs_alloc_cell. intros c' s5 Ha. allocated HP Ha Hfc.
    destruct n as [| n']; [lia |].
    eapply (runs_children_call _ i); [look HP | fields; by apply holding_insert |]. intros r ch s6 Hr Hw. wrote HP Hw. fields.
    assert (Hcc : c ≠ c') by (intros ->; rewrite (proj2 Hfc) in Hc; done).
    destruct r as [| k' c2 | k' c2 | k' c2 | k' c2 | k' c2]; try done; [| by destruct Hr as [y Hy%(Hnew km vm E1 E2)] | |].
    + destruct Hr as (Hwch & Hfch & _ & Hpch).
      eapply (progress_delete _ _ C1 L0 (l1 :: l2 :: C2) [] 2 s s6); [exact HP | | apply not_elem_of_nil |].
      { by apply NoDup_insert_after. }
      clear s3 s4 s5 s6 HP. intros s3 HP. apply runs_dassert; [done |].
      eapply runs_leaf_call; [look HP | apply runs_thaw, frozen_freeze |]. intros r bl2 s4 [-> ->] Hw. wrote HP Hw. apply runs_dassert; [done |].
      eapply (runs_leaf_node_act _ i); [look HP | done |]. intros s5 Hw. wrote HP Hw. fields.
      eapply runs_cell_swap; [look HP; exact Hc |]. intros s6 Hw. wrote HP Hw. apply runs_ret. fields.
      eapply runs_leaf_change_reset; [look HP |]. intros s7 Hw. wrote HP Hw.
      eapply runs_leaf_node_unlock; [look HP | done |]. intros s8 Hw. wrote HP Hw. apply runs_ret. left. split; [done |]. right. destruct Hfc as [_ Hfc]. unfold split_two, F.
      exists l1, (thawed_body (frozen_body low)), E1, l2, high, E2, km, vm, c', ch.
      do 4 (split; [done |]). do 2 (split; [done |]). split; [done |]. split; [eapply progress_step; [exact HP | written] |].
      split; [apply HP |]. split; [look HP; fields; do 3 f_equal; destruct x; cbn in *; by subst |]. do 3 (split; [done |]).
      split; [look HP |]. split; [by apply leaf_rep_thawed, leaf_rep_frozen |]. split; [look HP |]. split; [look HP |]. split; [done | look HP].
    + destruct Hr as [-> _]. eapply runs_leaf_call; [look HP | apply runs_freeze, (Hhigh l2) |]. intros r bl2 s7 [-> ->] Hw. wrote HP Hw. apply runs_dassert; [done |].
      do 2 apply runs_ret. right. split; [done |]. destruct Hfc as [_ Hfc]. exists l1, (frozen_body low), E1, l2, (frozen_body high), E2, km, vm.
      eexists. do 6 (split; [done |]). split; [eapply progress_step; [exact HP | written] |]. split; [apply HP |]. split; [look HP; fields; reflexivity |].
      do 4 (split; [done |]). split; [look HP |]. split; [by apply leaf_rep_frozen |]. split; [look HP |]. split; [by apply leaf_rep_frozen |].
      exists (frozen_body b). split; [look HP |]. apply wf_frozen, Hb.
    + destruct Hr as [-> _]. eapply runs_leaf_call; [look HP | apply runs_freeze, (Hhigh l2) |]. intros r bl2 s7 [-> ->] Hw. wrote HP Hw. apply runs_dassert; [done |].
      do 2 apply runs_ret. right. split; [done |]. destruct Hfc as [_ Hfc]. exists l1, (frozen_body low), E1, l2, (frozen_body high), E2, km, vm.
      eexists. do 6 (split; [done |]). split; [eapply progress_step; [exact HP | written] |]. split; [apply HP |]. split; [look HP; fields; reflexivity |].
      do 4 (split; [done |]). split; [look HP |]. split; [by apply leaf_rep_frozen |]. split; [look HP |]. split; [by apply leaf_rep_frozen |].
      exists (frozen_body b). split; [look HP |]. apply wf_frozen, Hb.
  - set (bl := default new low). assert (Hbl : ∀ l, leaf_rep false bl (SLeaf l true (sl_entries t0))).
    { destruct low as [low |]; [done |]. intros l. rewrite Hlh. apply new_leaf_rep. }
    set (x2 l := set_leaf_split_op (set_low_key_leaf (Some l, Tag.None) (leaf_split_op x1)) x1).
    lazymatch type of HP with progress ?W _ _ _ _ _ =>
      eapply (runs_call _ _ _ (λ _ s4, ∃ l, progress ((ANode i, VNode (LeafN (x2 l))) :: (ALeaf l, VLeaf bl) :: W) (C1 ++ L0 :: C2) [l] 1 s s4 ∧
        view s (ALeaf l) = None)) end.
    { destruct low as [low |]; (eapply runs_alloc_leaf; intros l s4 Ha; allocated HP Ha Hf;
        first [eapply (runs_leaf_node_act _ i) | apply runs_tail; eapply (runs_leaf_node_act _ i)]; [look HP | done |]; intros s5 Hw; wrote HP Hw; apply runs_ret; exists l; split; [exact HP | apply Hf]). }
    clear s3 HP. intros _ s3 (l & HP & Hf). eapply runs_leaf_node_load; [look HP |]. eapply runs_leaf_node_load; [look HP |]. unfold x2, x1. fields.
    assert (HnC : l ∉ C1 ++ L0 :: C2) by (intros Hin; destruct (Hlive l Hin) as [? Hv]; rewrite Hf in Hv; done).
    apply runs_bind. eapply (progress_push _ n ltac:(lia) _ C1 L0 C2 [] 1 s s3 l true); [exact HP | by constructor | by intros l' ?%not_elem_of_nil |].
    clear s3 HP. intros r s3 HP ->. apply runs_dassert; [done |].
    pose proof (NoDup_insert_after _ _ _ _ HnC Hnd) as Hnd2.
    eapply (progress_delete _ _ C1 L0 (l :: C2) [] 1 s s3); [exact HP | exact Hnd2 | apply not_elem_of_nil |].
    clear s3 HP. intros s3 HP. apply runs_dassert; [done |].
    eapply (runs_leaf_node_act _ i); [look HP | done |]. intros s4 Hw. wrote HP Hw. fields.
    eapply runs_cell_swap; [look HP; exact Hc |]. intros s5 Hw. wrote HP Hw. apply runs_ret. fields.
    eapply runs_leaf_change_reset; [look HP |]. intros s6 Hw. wrote HP Hw.
    eapply runs_leaf_node_unlock; [look HP | done |]. intros s7 Hw. wrote HP Hw. apply runs_ret. left. split; [done |]. left.
    unfold split_one, F. exists l, bl. split; [done |]. split; [eapply progress_step; [exact HP | written] |]. split; [apply HP |].
    split; [look HP; fields; f_equal; do 2 f_equal; destruct x; cbn in *; by subst |]. split; [look HP |]. split; [apply Hbl | look HP].
Qed.
End Split.

(** ** The node afterwards *)

Section Node.
Context (s : tree K V) (A B : list nat) (t : shape K V 1) (lo hi : option K) (pre : list (slot K (shape K V 0))) (y : slot K (shape K V 0))
  (post : list (slot K (shape K V 0))) (lo' : option K) (k : K) (v : V) (x : LeafNode K).
Context (Hctx : ctx s A B 1 t lo hi) (Heq : slots t = pre ++ y :: post) (Hspan : span (bounded 0) pre lo hi lo')
  (Hok : slots_ok (bounded 0) (y :: post) lo' hi) (Hab : above lo' k) (Hup : upto k (slot_hi y hi)).
Context (Hnode : view s (ANode (nid t)) = Some (VNode (LeafN x))) (Hrep : node_rep 0 false (LeafN x) (slots t)).

Local Notation i := (nid t).
Local Notation c := (slot_cell y).
Local Notation L0 := (sl_id y.2).
Local Notation C1 := (A ++ slots_leafs 0 pre).
Local Notation C2 := (slots_leafs 0 post ++ B).

Lemma leaf_step m s' : step [ANode i; ACell c; ALeaf L0] m s s' → step (ANode i :: ACell c :: foot 0 y.2) m s s'.
Proof. done. Qed.

Lemma y_good : good (sl_entries y.2) lo' (slot_hi y hi).
Proof. exact (slots_ok_head (bounded 0) _ _ _ _ Hok). Qed.

Lemma split_one_post s' : split_one s i c L0 x y.2 C1 C2 s' → split_post s A B 0 t lo hi k v (inl (Retry k v)) s'.
Proof.
  intros (l & bl & Hf & Hst & Hl & Hn & Hvl & Hbl & Hvc). split; [done |]. split; [done |].
  set (u := SLeaf l true (sl_entries y.2) : shape K V 0) in *.
  assert (Hys : slots_ok (bounded 0) ([with_child y u] ++ post) lo' hi).
  { pose proof y_good as Hg. cbn [app]. destruct (slot_key y) as [ky |] eqn:Hk.
    - destruct (proj1 (slots_ok_Some _ _ _ _ _ _ Hk) Hok) as (_ & Hrest). apply (slots_ok_Some _ _ _ ky); [done |]. split; [| done].
      unfold slot_hi in Hg. rewrite Hk in Hg. exact Hg.
    - destruct (slots_ok_None _ _ _ _ _ Hk Hok) as [-> Hrest]. cbn [slots_ok]. change (slot_key (with_child y u)) with (slot_key y). rewrite Hk. done. }
  destruct (ctx_replace s s' A B 0 t lo hi pre y post lo' [with_child y u] (LeafN x) 1) as (Hc & Hs' & Hg); try done.
  - destruct Hrep as [? ? ? Hch]. constructor; [done | done | done |]. eapply children_rep_ext; [exact Hch | |]; rewrite Heq; [apply keyed_with_child | apply last_with_child].
  - constructor; [| done]. split; [done |]. exists bl. split; [done |]. by rewrite bool_decide_false by apply not_elem_of_nil.
  - cbn. repeat constructor; set_solver.
  - intros a Ha. cbn in Ha. apply elem_of_cons in Ha as [-> | ->%list_elem_of_singleton]; [left; by left | by right].
  - by rewrite <-!app_assoc in *.
  - exists (node (h := 0) i (pre ++ [with_child y u] ++ post)). split; [constructor; [done | done | | done] |].
    + eapply step_weaken; [exact Hs' | done | lia].
    + split.
      * rewrite !contents_S, Heq. change (slots (node _ _)) with (pre ++ [with_child y u] ++ post). rewrite !slots_contents_app. cbn. by rewrite app_nil_r.
      * exists (with_child y u). split; [| done]. by eapply slot_for_span.
Qed.

Lemma split_two_post s' : split_two s i c L0 x y.2 C1 C2 (slots t) s' → split_post s A B 0 t lo hi k v (inl (Retry k v)) s'.
Proof.
  intros (l1 & b1 & E1 & l2 & b2 & E2 & km & v1 & c' & ch & HE & HE2 & Hlast & Hl12 & Hf1 & Hf2 & Hfc & Hst & Hl & Hn & Hwch & Hfch & Hpch & Hv1 & Hb1 & Hc1 & Hv2 & Hb2 & Hc2).
  split; [done |]. split; [done |]. pose proof y_good as Hg. rewrite HE in Hg.
  destruct (split_bounds _ _ _ _ _ _ Hg HE2 Hlast) as (Hlo & Hhi & Hg1 & Hg2). clear Hg.
  set (u1 := SLeaf l1 true E1 : shape K V 0) in *. set (u2 := SLeaf l2 true E2 : shape K V 0) in *.
  set (ys := [(Some km, c', u1); (slot_key y, c, u2)] : list (slot K (shape K V 0))).
  pose proof (slots_ok_two (bounded 0) y post lo' hi km c' u1 c u2 Hok Hlo Hhi Hg1 Hg2) as Hys.
  destruct (ctx_replace s s' A B 0 t lo hi pre y post lo' ys (LeafN (set_leaf_children ch x)) 2) as (Hc & Hs' & Hg); try done.
  - destruct Hrep as [? ? ? Hch]. constructor; [done | done | done |]. constructor.
    + rewrite Heq in Hpch. eapply (holding_inserted (bounded 0)); [done | done | exact Hpch | | apply slots_ok_app; [done |]; exists lo'; split; [exact Hspan | exact Hys]].
      by destruct y as [[]].
    + destruct Hch as [_ Hlst]. rewrite Heq in Hlst. cbn [unbounded_of set_leaf_children leaf_unbounded_child] in *. rewrite <-Hlst.
      unfold ys. cbn [app]. rewrite !last_app_cons, last_cons_cons. by destruct post.
  - constructor; [| constructor; [| done]]; (split; [done |]).
    + exists b1. split; [done |]. by rewrite bool_decide_false by apply not_elem_of_nil.
    + exists b2. split; [done |]. by rewrite bool_decide_false by apply not_elem_of_nil.
  - assert (Hcc : c ≠ c'). { intros Heqc. rewrite <-Heqc in Hfc. destruct Hctx as [Hr _ _ _]. apply rep_S in Hr as [_ Hx]. rewrite Heq in Hx.
      apply Forall_app in Hx as [_ [[Hcy _] _]%Forall_cons]. congruence. }
    change (NoDup [ACell c'; ALeaf l1; ACell c; ALeaf l2]).
    do 4 (apply NoDup_cons; split; [rewrite ?elem_of_cons, elem_of_nil; intuition congruence |]). constructor.
  - intros a Ha. cbn in Ha. rewrite !elem_of_cons in Ha. destruct Ha as [-> | [-> | [-> | [-> | Ha]]]]; [by right | by right | left; by left | by right |].
    by apply not_elem_of_nil in Ha.
  - by rewrite <-!app_assoc in *.
  - exists (node (h := 0) i (pre ++ ys ++ post)). split; [by constructor |]. split.
    + assert (HcE : contents 0 y.2 = E1 ++ E2) by exact HE. rewrite !contents_S, Heq. change (slots (node _ _)) with (pre ++ ys ++ post).
      rewrite !slots_contents_app, slots_contents_cons, HcE. change (slots_contents 0 ys) with (E1 ++ E2 ++ []). by rewrite app_nil_r.
    + eexists. split; [by eapply slot_for_two |]. by case_decide.
Qed.

Lemma split_full_post s' : split_full s i L0 x y.2 (slot_key y) C1 C2 s' → split_post s A B 0 t lo hi k v (inl (Full k v)) s'.
Proof.
  intros (l1 & b1 & E1 & l2 & b2 & E2 & km & v1 & x' & HE & HE2 & Hlast & Hl12 & Hf1 & Hf2 & Hst & Hl & Hn & Hch' & Huc' & Hlat & Hop & Hv1 & Hb1 & Hv2 & Hb2 & b0 & Hv0 & Hw0).
  split; [done |]. split; [done |]. pose proof y_good as Hg. rewrite HE in Hg.
  destruct (split_bounds _ _ _ _ _ _ Hg HE2 Hlast) as (Hlo & Hhi & Hg1 & Hg2). clear Hg.
  set (u1 := SLeaf l1 true E1 : shape K V 0) in *. set (u2 := SLeaf l2 true E2 : shape K V 0) in *.
  eexists. eapply (full_intro s s' A B 0 t lo hi pre y post lo' k km u1 u2 (Split L0 l1 l2 O O) [] (slots_leafs 0 pre) (l1 :: l2 :: slots_leafs 0 post) (LeafN x')); try done.
  - destruct Hrep as [_ _ _ [Hch1 Hch2]]. constructor; [cbn in *; by rewrite Hch' | cbn in *; by rewrite Huc'].
  - cbn. split_and!; [done | done | done | by exists v1 | done].
  - exists b1. split; [done |]. by rewrite bool_decide_true by (by left).
  - exists b2. split; [done |]. by rewrite bool_decide_true by (right; by left).
  - change (NoDup [ALeaf l1; ALeaf l2]). do 2 (apply NoDup_cons; split; [rewrite ?elem_of_cons, elem_of_nil; intuition congruence |]). constructor.
  - intros a Ha. change (a ∈ [ALeaf l1; ALeaf l2]) in Ha. right. apply elem_of_cons in Ha as [-> | ->%list_elem_of_singleton]; done.
  - intros l Hl'. apply elem_of_cons in Hl' as [-> | ->%list_elem_of_singleton]; [by left | right; by left].
  - intros j Hj. by apply not_elem_of_nil in Hj.
  - eapply step_weaken; [exact Hst | | done]. intros a [-> | ->%list_elem_of_singleton]%elem_of_cons; [by left | right; right; by left].
  - unfold new_slots. cbn [pd_pre pd_mid pd_low pd_key pd_high pd_post]. by rewrite slots_leafs_app.
  - destruct Hctx as [Hr Hb Hnd Hc]. assert (Hout : ∀ l, l ∈ C1 ++ L0 :: C2 → ∃ b, view s (ALeaf l) = Some (VLeaf b) ∧ wf b []).
    { intros l Hin. apply (ch_leaf _ _ Hc). rewrite (leafs_split _ _ _ _ _ Heq). change (leafs 0 y.2) with [L0]. mem_from Hin. }
    assert (Hfresh : ∀ l, view s (ALeaf l) = None → l ∉ C1 ++ L0 :: C2) by (intros l Hf Hin; destruct (Hout l Hin) as (b & Hv & _); congruence).
    pose proof (Hfresh _ Hf1) as Hl1. pose proof (Hfresh _ Hf2) as Hl2.
    assert (Hsame : ∀ l, l ∈ C1 ++ L0 :: C2 → l ≠ L0 → view s' (ALeaf l) = view s (ALeaf l)).
    { intros l Hin Hne. destruct (Hout l Hin) as (b & Hv & _). apply (st_view _ _ _ _ Hst); [by rewrite Hv |].
      rewrite !not_elem_of_cons. split; [done |]. split; [congruence | apply not_elem_of_nil]. }
    assert (Hndc : NoDup (C1 ++ L0 :: C2)).
    { pose proof (ch_nodup _ _ Hc) as Hd. rewrite (leafs_split _ _ _ _ _ Heq) in Hd. change (leafs 0 y.2) with [L0] in Hd. by rewrite <-!app_assoc in *. }
    assert (Hgoal : chain s' (C1 ++ L0 :: l1 :: l2 :: C2)).
    { constructor; [| exact Hl |].
      - apply NoDup_insert_after; [| by apply NoDup_insert_after]. intros Hin.
        assert (Hin' : l1 ∈ C1 ++ L0 :: C2 ∨ l1 = l2) by (mem_from Hin). by destruct Hin'.
      - intros l Hin. destruct (decide (l = l1)) as [-> |]; [exists b1; split; [done | apply Hb1] |].
        destruct (decide (l = l2)) as [-> |]; [exists b2; split; [done | apply Hb2] |]. destruct (decide (l = L0)) as [-> |]; [by exists b0 |].
        assert (Hin' : l ∈ C1 ++ L0 :: C2) by (mem_from Hin). rewrite Hsame by done. by apply Hout. }
    rewrite <-app_assoc in Hgoal. exact Hgoal.
  - change (sl_entries y.2 ≡ₚ E1 ++ E2). by rewrite HE.
  - by destruct (decide _).
Qed.
End Node.

Lemma split_leaf_spec n s A B (t : shape K V 1) lo hi pre (y : slot K (shape K V 0)) post lo' k v :
  ctx s A B 1 t lo hi → slots t = pre ++ y :: post → span (bounded 0) pre lo hi lo' → slots_ok (bounded 0) (y :: post) lo' hi →
  above lo' k → upto k (slot_hi y hi) → (1 < n)%nat →
  runs (split_leaf n (nid t) k v (slot_key y) (Some (sid 0 y.2), Tag.None) (slot_cell y)) s (split_post s A B 0 t lo hi k v).
Proof.
  intros Hctx Heq Hspan Hok Hab Hup Hn. pose proof (cx_rep _ _ _ _ _ _ _ Hctx) as Hr. pose proof (cx_bounded _ _ _ _ _ _ _ Hctx) as Hb.
  destruct (last_slot _ _ _ _ _ _ _ Hr Hb) as (nd & pre' & x' & lo2 & Hnd & Hk & Heq' & [Hu _] & _ & Hcu). destruct nd as [nd | x]; [done |].
  apply rep_S in Hr as [(nd & Hnd' & Hrep) Hx]. rewrite Hnd in Hnd'. injection Hnd' as <-. rewrite Heq in Hx. apply Forall_app in Hx as [_ [[Hcy (b & Hv & Hbl)] _]%Forall_cons].
  pose proof (cx_chain _ _ _ _ _ _ _ Hctx) as Hc. rewrite (leafs_split _ _ _ _ _ Heq) in Hc. change (leafs 0 y.2) with [sl_id y.2] in Hc.
  replace (A ++ (slots_leafs 0 pre ++ [sl_id y.2] ++ slots_leafs 0 post) ++ B) with ((A ++ slots_leafs 0 pre) ++ sl_id y.2 :: (slots_leafs 0 post ++ B)) in Hc by (by rewrite <-!app_assoc).
  clear Heq'.   eapply runs_mono; [| eapply (split_leaf_outcomes n s (nid t) (slot_cell y) (sl_id y.2) x b y.2 (slot_key y) _ _ Hnd)].
  - intros r s' [[-> [Hs1 | Hs2]] | [-> Hs3]]; [by eapply split_one_post | by eapply split_two_post | by eapply split_full_post].
  - apply Hrep.
  - apply Hrep.
  - exact Hcy.
  - exists (Some (sid 0 x'.2)). change (leaf_unbounded_child x) with (unbounded_of (LeafN x)). by rewrite Hcu.
  - exact Hv.
  - exact Hbl.
  - apply Hc.
  - apply Hc.
  - intros l Hl. destruct (ch_leaf _ _ Hc l Hl) as (? & -> & _). by eexists.
  - apply Hrep.
  - done.
  - intros km v1 E1 E2 HE HE2 Hlast c'. rewrite Heq. pose proof (y_good _ _ _ _ Hok) as Hg. rewrite HE in Hg.
    destruct (split_bounds _ _ _ _ _ _ Hg HE2 Hlast) as (Hlo & Hhi & _). by eapply (keyed_new (bounded 0)).
Qed.
End SplitLeaf.

(** ** Insertion into a leaf node *)

Section InsertLeaf.
Context {K V : Type} `{KeyOrd K}.

Implicit Types (s : tree K V) (l i c : nat) (nd : Node K) (k : K) (v : V) (lo hi : option K) (A B : list nat).

(** ** Composition *)

Lemma moved_trans s s1 s2 A B h (t u w : shape K V h) lo hi m1 m2 m :
  moved s s1 A B h t u lo hi m1 → moved s1 s2 A B h u w lo hi m2 → (m1 + m2 ≤ m)%nat → moved s s2 A B h t w lo hi m.
Proof.
  intros [_ Hi1 Hs1 Hg1] [Hc Hi2 Hs2 Hg2] Hm. constructor; [exact Hc | congruence | by eapply step_trans |].
  eapply grows_trans; [exact Hg1 | exact Hg2 | apply Hs1].
Qed.

Lemma full_trans s s1 s2 A B h (t u : shape K V (S h)) lo hi k (P : pend h) :
  moved s s1 A B (S h) t u lo hi 0 → contents (S h) u ≡ₚ contents (S h) t → full s1 s2 A B h u lo hi k P → full s s2 A B h t lo hi k P.
Proof.
  intros [_ Hi Hst Hg] Hp [Hpd Hst2 Hg2 Hc Hr]. constructor; [cbn in Hi; by rewrite <-Hi | | | by rewrite Hc | done].
  - eapply step_trans; [exact Hst | exact Hst2 | exact Hg | lia].
  - cbn in Hi. rewrite <-Hi. eapply grows_trans; [exact Hg | exact Hg2 | apply Hst].
Qed.

Lemma moved_child s s' A B h (t : shape K V (S h)) lo hi pre x post lo' u m :
  ctx s A B (S h) t lo hi → slots t = pre ++ x :: post →
  span (bounded h) pre lo hi lo' → slots_ok (bounded h) (x :: post) lo' hi →
  moved s s' (A ++ slots_leafs h pre) (slots_leafs h post ++ B) h x.2 u lo' (slot_hi x hi) m →
  moved s s' A B (S h) t (node (nid t) (pre ++ with_child x u :: post)) lo hi m.
Proof.
  intros Hctx Heq Hs Hok [Hc Hi Hst Hg]. constructor; [by eapply ctx_with_child | done | |].
  - eapply step_weaken; [exact Hst | | done]. intros a Ha. by eapply child_foot.
  - by apply grows_with_child.
Qed.

Lemma moved_leaf s s' A B (t t' : shape K V 0) lo hi b' :
  ctx s A B 0 t lo hi → writes (ALeaf (sid 0 t)) (VLeaf b') s s' → leaf_rep false b' t' → sid 0 t' = sid 0 t →
  bounded 0 t' lo hi → moved s s' A B 0 t t' lo hi 0.
Proof.
  intros [(b & Hv & Hbl) Hb Hnd Hc] Hw Hr Hid Hb'.
  assert (Hst : step [ALeaf (sid 0 t)] 0 s s') by (eapply step_writes; [| exact Hw]; by eexists).
  assert (Hf : foot 0 t' = foot 0 t) by (cbn in *; by rewrite Hid).
  constructor; [constructor | done | exact Hst | rewrite Hf; apply grows_refl].
  - exists b'. cbn in Hid. rewrite Hid. split; [by eapply writes_there |]. by rewrite bool_decide_false by apply not_elem_of_nil.
  - exact Hb'.
  - by rewrite Hf.
  - replace (leafs 0 t') with (leafs 0 t) by (cbn in *; by rewrite Hid). eapply chain_frame; [exact Hc | by eapply same_links_writes |].
    intros l Hl. destruct (decide (l = sid 0 t)) as [-> | Hne]; [exists b'; split; [by eapply writes_there | apply Hr] |].
    rewrite (w_view _ _ _ _ Hw), decide_False by congruence. by apply Hc.
Qed.

Lemma contents_with_child h (t : shape K V (S h)) pre x post u : slots t = pre ++ x :: post →
  contents (S h) (node (h := h) (nid t) (pre ++ with_child x u :: post)) = slots_contents h pre ++ contents h u ++ slots_contents h post.
Proof. intros _. by rewrite (contents_split h (node _ _) pre (with_child x u) post). Qed.

(** A permutation of the contents of a child is one of the contents of the node. *)
Lemma contents_child h (t : shape K V (S h)) pre x post u E :
  slots t = pre ++ x :: post → contents h u ≡ₚ E ++ contents h x.2 →
  contents (S h) (node (h := h) (nid t) (pre ++ with_child x u :: post)) ≡ₚ E ++ contents (S h) t.
Proof. intros Heq Hp. rewrite (contents_with_child _ _ _ _ _ _ Heq), (contents_split _ _ _ _ _ Heq), Hp. solve_Permutation. Qed.

Lemma room_child h (t : shape K V (S h)) pre x post lo hi lo' k :
  slots t = pre ++ x :: post → span (bounded h) pre lo hi lo' → above lo' k → upto k (slot_hi x hi) → room (S h) t k ↔ room h x.2 k.
Proof.
  intros Heq Hs Hab Hup. change (room (S h) t k) with (∃ y, slot_for k (slots t) = Some y ∧ room h y.2 k). rewrite Heq.
  rewrite (slot_for_span _ _ _ _ _ _ _ _ Hs Hab Hup). split; [by intros (y & [= <-] & Hr) | by exists x].
Qed.

Lemma with_child_same h (t : shape K V (S h)) pre x post : slots t = pre ++ x :: post → node (h := h) (nid t) (pre ++ with_child x x.2 :: post) = t.
Proof. intros Heq. unfold with_child. rewrite <-surjective_pairing, <-Heq. by destruct t. Qed.

(** ** The loop of [insert] *)

(** What one iteration does. *)
Definition round_post s A B h (t : shape K V (S h)) lo hi k v (y : flow (K * V) (InsertResult K V + K * V)) s' : Prop :=
  match y with
  | Break r => insert_post s A B h t lo hi k v r s'
  | Continue kv => kv = (k, v) ∧ ¬ room (S h) t k ∧ (∀ v', (k, v') ∉ contents (S h) t) ∧
      ∃ u, moved s s' A B (S h) t u lo hi 2 ∧ contents (S h) u ≡ₚ contents (S h) t ∧ room (S h) u k
  end.

Lemma insert_rounds n body s A B h (t : shape K V (S h)) lo hi k v :
  (∀ s u, nid u = nid t → ctx s A B (S h) u lo hi → runs (body (k, v)) s (round_post s A B h u lo hi k v)) →
  ctx s A B (S h) t lo hi → (1 < n)%nat → runs (loop n body (k, v)) s (insert_post s A B h t lo hi k v).
Proof.
  intros Hbody Hctx Hn. destruct n as [| [| n]]; [lia | lia |]. apply runs_loop. eapply runs_mono; [| by apply Hbody].
  intros [kv | r] s1; [| done]. intros (-> & Hnr & Hno & u & Hm & Hp & Hroom). apply runs_loop_once; [lia |].
  pose proof (mv_sid _ _ _ _ _ _ _ _ _ _ Hm) as Hid. eapply runs_mono; [| apply (Hbody s1 u Hid); apply Hm].
  intros [kv | r] s2; [by intros (_ & Hnr2 & _) |]. intros Hr. exists r. split; [done |].
  assert (Hno2 : ∀ v', (k, v') ∉ contents (S h) u) by (intros v'; rewrite Hp; apply Hno).
  destruct r as [[| k' v' | k' v' | k' v' | k' v' | k' v'] | kv]; try done.
  - destruct Hr as (w & m & Hm2 & _ & Hm0 & Hpw & _). exists w, 2%nat. split; [eapply moved_trans; [exact Hm | exact Hm2 |]; rewrite Hm0; [lia | done] |].
    split; [lia |]. split; [done |]. split; [by rewrite Hpw, Hp | done].
  - destruct Hr as (_ & _ & w & _ & _ & v2 & Hin). by apply Hno2 in Hin.
  - by destruct Hr as (_ & _ & Hnr2 & _).
Qed.

(** ** A leaf node *)

Section Round.
Context (n : nat) (s : tree K V) (A B : list nat) (t : shape K V 1) (lo hi : option K) (k : K) (v : V).
Context (Hctx : ctx s A B 1 t lo hi) (Hlo : above lo k) (Hup : upto k hi) (Hn : (1 < n)%nat).

Lemma leaf_inserted_round nd pre (x : slot K (shape K V 0)) post lo' :
  descent [] [] s 0 t lo hi k nd pre x post lo' →
  runs (let! r := at_leaf (sl_id x.2) (insert n k v) in leaf_inserted n (nid t) r (slot_key x) (Some (sid 0 x.2), Tag.None) (slot_cell x)) s
    (round_post s A B 0 t lo hi k v).
Proof.
  intros Hd. destruct Hd. destruct ds_child as (b & Hv & Hb). destruct n as [| n']; [lia |]. pose proof (room_child _ _ _ _ _ _ _ _ _ ds_slots ds_span ds_above ds_upto) as Hroom.
  pose proof (ctx_child _ _ _ _ _ _ _ _ _ _ _ Hctx ds_slots ds_ok) as Hcx.
  eapply runs_leaf_call; [exact Hv | by eapply leaf_insert_spec |]. intros r b' s1 Hr Hw.
  assert (Hmv : ∀ t' : shape K V 0, leaf_rep false b' t' → sid 0 t' = sid 0 x.2 → bounded 0 t' lo' (slot_hi x hi) →
    moved s s1 A B 1 t (node (h := 0) (nid t) (pre ++ with_child x t' :: post)) lo hi 0).
  { intros t' Hr' Hid Hb'. eapply moved_child; try done. by eapply moved_leaf. }
  assert (Hsplit : b' = b → sl_free x.2 = false → (∀ v', (k, v') ∉ sl_entries x.2) →
    runs (let! r := split_leaf (S n') (nid t) k v (slot_key x) (Some (sid 0 x.2), Tag.None) (slot_cell x) in
      match r with inr kv => Ret (Break (inr kv)) | inl (Retry k v) => Ret (Continue (k, v)) | inl r => Ret (Break (inl r)) end) s1 (round_post s A B 0 t lo hi k v)).
  { intros -> Hfull Hno. pose proof (Hmv x.2 Hb eq_refl ds_bounded) as Hm. rewrite (with_child_same _ _ _ _ _ ds_slots) in Hm.
    eapply runs_call; [eapply split_leaf_spec; [apply Hm | exact ds_slots | exact ds_span | exact ds_ok | exact ds_above | exact ds_upto | lia] |].
    assert (Hnr : ¬ room 1 t k) by (intros Hr0%Hroom; change (sl_free x.2 = true) in Hr0; by rewrite Hfull in Hr0).
    assert (Hno' : ∀ v', (k, v') ∉ contents 1 t) by (intros v' Hin%ds_contents; by apply (Hno v')).
    intros [[| k' v' | k' v' | k' v' | k' v' | k' v'] | kv] s2 Hr2; try done; destruct Hr2 as (-> & -> & Hr2); apply runs_ret.
    - split; [done |]. split; [done |]. split; [done |]. split; [done |]. destruct Hr2 as (P & HP). exists P. by eapply full_trans.
    - split; [done |]. split; [done |]. split; [done |]. destruct Hr2 as (u & Hm2 & Hp & Hru). exists u. split; [by eapply moved_trans | done]. }
  destruct r as [| k' v' | k' v' | k' v' | k' v' | k' v']; try done; cbn [leaf_inserted].
  - destruct Hr as (Hr' & Hp & Hno). apply runs_ret. eexists _, 0%nat. split; [apply (Hmv (as_shape (sl_id x.2) b')); [done | done |] |].
    + apply (bounded_leaf _ _ _ _ _ Hr'). cbn [sl_entries as_shape]. rewrite Hp. constructor; [done |]. apply ds_bounded.
    + split; [lia |]. split; [done |]. split; [by apply (contents_child 0 t pre x post (as_shape (sl_id x.2) b') [(k, v)] ds_slots) |].
      intros v' Hin%ds_contents. by apply (Hno v').
  - destruct Hr as (-> & -> & Hr' & He & v2 & Hin). apply runs_ret. split; [done |]. split; [done |].
    eexists. split; [apply (Hmv (as_shape (sl_id x.2) b')); [done | done |] |].
    + apply (bounded_leaf _ _ _ _ _ Hr'). cbn [sl_entries as_shape]. rewrite He. apply ds_bounded.
    + split; [apply (contents_child 0 t pre x post (as_shape (sl_id x.2) b') [] ds_slots); cbn; by rewrite He |].
      exists v2. by apply ds_contents.
  - destruct Hr as (-> & -> & -> & Hfull & Hno). by apply Hsplit.
  - destruct Hr as (-> & -> & -> & Hfull & Hno). by apply Hsplit.
Qed.
End Round.

Lemma leaf_node_insert_spec n s A B (t : shape K V 1) lo hi k v :
  ctx s A B 1 t lo hi → above lo k → upto k hi → (1 < n)%nat →
  runs (leaf_node_insert n (nid t) k v) s (insert_post s A B 0 t lo hi k v).
Proof.
  intros Hctx Hlo Hup Hn. unfold leaf_node_insert. apply insert_rounds; [| done | done]. clear s Hctx. intros s u Hid Hctx. rewrite <-Hid. cbn [fst snd].
  destruct (descend [] [] s 0 u lo hi k) as (nd & pre & x & post & lo' & Hd); [apply Hctx | apply Hctx | done | done |].
  pose proof (leaf_inserted_round n s A B u lo hi k v Hctx Hn nd pre x post lo' Hd) as Hround.
  eapply runs_descend; [exact Hd |]. destruct Hd. destruct (slot_key x) as [k' |]; cbn [fmap option_fmap option_map fst snd].
  - eapply runs_cell_load; [exact ds_cell |]. cbn [fst]. by eapply runs_validate.
  - destruct ds_unbounded as [-> Hu]; [done |]. eapply runs_unbounded_child; [exact ds_node |]. rewrite Hu.
    eapply runs_cell_load; [exact ds_cell |]. cbn [fst]. apply runs_ret. apply runs_dassert; [done |]. by eapply runs_validate.
Qed.
End InsertLeaf.
