(* ===== verification/TreeSplitNode.v ===== *)
(** * Splitting a full node *)
From stdpp Require Import sorting.
From S2P Require Import Prelude Atomic Ord Tag AtomicShared LinkedList Dimension Leaf LeafInv LeafState LeafSeq LeafScan LeafProps TreeStore TreeLeafNode TreeNode TreeRep TreeSearch TreeCtx TreeCommit.

#[local] Existing Instance Tag.eq_dec.

(** ** Two new nodes for the entries of a full one

    [distribute] fills two new nodes with the entries of a node that is split. *)

Section Distribute.
Context {K V : Type} `{KeyOrd K}.

Implicit Types (s : tree K V) (a : addr) (F M : list addr) (c : nat) (nd : Node K) (k : K).

(** ** New memory *)

(** The addresses [M] are new, those of [F] were written. *)
Record laid F M s s' : Prop := {
  ld_view a : a ∉ F → a ∉ M → view s' a = view s a;
  ld_fresh a : a ∈ M → view s a = None;
  ld_nodup : NoDup M;
  ld_live a : is_Some (view s a) ∨ a ∈ M → is_Some (view s' a);
  ld_root : root s' = root s;
  ld_leaves : length (leaves s') = length (leaves s);
  ld_links l : link_ref l s' = link_ref l s
}.

Lemma laid_refl F s : laid F [] s s.
Proof. constructor; [done | by intros a ?%not_elem_of_nil | constructor | | done | done | done]. by intros a [? | ?%not_elem_of_nil]. Qed.

Lemma laid_writes F M s s1 s2 a v : laid F M s s1 → writes a v s1 s2 → a ∈ F ∨ a ∈ M → laid F M s s2.
Proof.
  intros [Hv Hf Hn Hl Hr Hlv Hk] Hw Ha. constructor; [| done | done | | | |].
  - intros a' HF HM. rewrite (w_view _ _ _ _ Hw), decide_False; [by apply Hv |]. intros ->. by destruct Ha.
  - intros a' Ha'. rewrite (w_view _ _ _ _ Hw). case_decide; [by eexists | by apply Hl].
  - by rewrite (w_root _ _ _ _ Hw).
  - by rewrite (w_leaves _ _ _ _ Hw).
  - intros l. by rewrite (w_link _ _ _ _ Hw).
Qed.

Lemma laid_allocates F M s s1 s2 a v : laid F M s s1 → allocates a v s1 s2 → (∀ l, a ≠ ALeaf l) → laid F (M ++ [a]) s s2.
Proof.
  intros [Hv Hf Hn Hl Hr Hlv Hk] Ha Hne. assert (HaM : ∀ a', is_Some (view s a') ∨ a' ∈ M → a' ≠ a).
  { intros a' Ha' ->. apply Hl in Ha'. rewrite (al_fresh _ _ _ _ Ha) in Ha'. by destruct Ha'. }
  constructor.
  - intros a' HF HM. rewrite not_elem_of_app in HM. destruct HM as [HM Hne']. rewrite (al_view _ _ _ _ Ha), decide_False; [by apply Hv |].
    intros ->. apply Hne'. by left.
  - intros a' [Ha' | ->%list_elem_of_singleton]%elem_of_app; [by apply Hf |]. destruct (view s a) eqn:Hs; [| done].
    exfalso. apply (HaM a); [left; by rewrite Hs | done].
  - apply NoDup_app. split; [done |]. split; [| apply NoDup_singleton]. intros a' Ha' ->%list_elem_of_singleton. by apply (HaM a); [right |].
  - intros a' Ha'. rewrite (al_view _ _ _ _ Ha). case_decide as Heq; [by eexists |]. apply Hl.
    destruct Ha' as [? | [? | ->%list_elem_of_singleton]%elem_of_app]; by auto.
  - by rewrite (al_root _ _ _ _ Ha).
  - rewrite (al_leaves _ _ _ _ Ha). destruct a; [by destruct (Hne l) | lia | lia].
  - intros l. by rewrite (al_link _ _ _ _ Ha), decide_False.
Qed.

Lemma laid_trans F1 F2 M1 M2 s s1 s2 :
  laid F1 M1 s s1 → laid F2 M2 s1 s2 → (∀ a, a ∈ F2 → a ∈ F1 ∨ a ∈ M1) → laid F1 (M1 ++ M2) s s2.
Proof.
  intros [Hv Hf Hn Hl Hr Hlv Hk] [Hv2 Hf2 Hn2 Hl2 Hr2 Hlv2 Hk2] HF. constructor; [| | | | congruence | congruence | congruence].
  - intros a Ha HM. rewrite not_elem_of_app in HM. destruct HM as [HM1 HM2]. rewrite Hv2; [by apply Hv | by intros [? | ?]%HF | done].
  - intros a [Ha | Ha]%elem_of_app; [by apply Hf |]. destruct (view s a) eqn:Hs; [| done].
    destruct (Hl a) as [x Hx]; [left; by rewrite Hs |]. by rewrite (Hf2 _ Ha) in Hx.
  - apply NoDup_app. split; [done |]. split; [| done]. intros a Ha Ha2. destruct (Hl a) as [x Hx]; [by right |]. by rewrite (Hf2 _ Ha2) in Hx.
  - intros a Ha. apply Hl2. rewrite elem_of_app in Ha. destruct Ha as [Ha | [Ha | Ha]]; [left; apply Hl; auto | left; apply Hl; auto | by right].
Qed.

Lemma laid_weaken F F' M s s' : laid F M s s' → (∀ a, a ∈ F → a ∈ F') → laid F' M s s'.
Proof. intros [Hv ? ? ? ? ? ?] HF. constructor; try done. intros a Ha HM. apply Hv; [by intros ?%HF | done]. Qed.

Lemma laid_step F M s s' : laid F M s s' → step F 0 s s'.
Proof.
  intros [Hv Hf Hn Hl Hr Hlv Hk]. constructor; [| by auto | done | lia]. intros a Ha HF. apply Hv; [done |]. intros HM.
  rewrite (Hf _ HM) in Ha. by destruct Ha.
Qed.

(** ** Filling a node *)

Lemma Forall2_keep {T1 T2} (P Q : T1 → T2 → Prop) (l1 : list T1) (l2 : list T2) :
  Forall2 P l1 l2 → (∀ x y, x ∈ l1 → P x y → Q x y) → Forall2 Q l1 l2.
Proof.
  induction 1 as [| x y l1 l2 Hxy Hl IH]; intros Hq; constructor; [apply Hq; [by left | done] |].
  apply IH. intros x' y' Hx'. apply Hq. by right.
Qed.

Definition ent (kp : K * Ptr) : new_entry (K := K) := (Some kp.1, kp.2).

Lemma runs_fill {R} body j nd (kps : list (K * Ptr)) (i0 : nat) (mk : option K) s :
  (∀ p kp q, kps = p ++ kp :: q → body (ent kp) ((i0 + length p)%nat, mk) =
    (let! c := alloc_cell kp.2 in at_children j (insert_unchecked kp.1 c (length p)) ;; Ret (Continue (S (i0 + length p), mk)))) →
  view s (ANode j) = Some (VNode nd) → packed [] (children_of nd) → (length kps ≤ N)%nat →
  runs (Atomic.for_each (B := nat * option K) (R := R) (map ent kps) body (i0, mk)) s (λ r s', r = Continue ((i0 + length kps)%nat, mk) ∧
    ∃ cs ch, laid [ANode j] (map ACell cs) s s' ∧ length cs = length kps ∧ packed (zip (map fst kps) cs) ch ∧
      view s' (ANode j) = Some (VNode (set_children ch nd)) ∧ Forall2 (λ c kp, view s' (ACell c) = Some (VCell kp.2)) cs kps).
Proof.
  intros Hbody Hnd Hp Hlen.
  apply (runs_for_each (λ l1 b s', ∃ p q, kps = p ++ q ∧ l1 = map ent p ∧ b = ((i0 + length p)%nat, mk) ∧
    ∃ cs ch, laid [ANode j] (map ACell cs) s s' ∧ length cs = length p ∧ packed (zip (map fst p) cs) ch ∧
      view s' (ANode j) = Some (VNode (set_children ch nd)) ∧ Forall2 (λ c kp, view s' (ACell c) = Some (VCell kp.2)) cs p)).
  - intros l1 x l2 b s1 Heq (p & q & -> & -> & -> & cs & ch & Hl & Hlc & Hpk & Hv & Hcs).
    rewrite (map_app ent p q) in Heq. apply app_inv_head in Heq. destruct q as [| kp q]; [done |]. cbn in Heq. injection Heq as <- <-.
    rewrite (Hbody p kp q eq_refl). eapply runs_alloc_cell. intros c s2 Ha. pose proof (laid_allocates _ _ _ _ _ _ _ Hl Ha ltac:(done)) as Hl2.
    assert (Hlt : (length p < N)%nat) by (rewrite length_app in Hlen; cbn in Hlen; lia).
    assert (Hlz : length (zip (map fst p) cs) = length p) by (rewrite length_zip_with, length_map; lia).
    destruct (insert_unchecked_spec (zip (map fst p) cs) ch kp.1 c Hpk ltac:(lia)) as (ch' & Hrun & Hpk'). rewrite Hlz in Hrun.
    eapply (runs_children_call _ j _ _ (λ _ ch2, ch2 = ch')).
    { rewrite (al_view _ _ _ _ Ha), decide_False by done. exact Hv. }
    { unfold runs. replace (children_of (set_children ch nd)) with ch by (by destruct nd). by rewrite Hrun. }
    intros [] ch2 s3 -> Hw. pose proof (laid_writes _ _ _ _ _ _ _ Hl2 Hw ltac:(left; by left)) as Hl3. apply runs_ret.
    exists (p ++ [kp]), q. rewrite map_app, length_app, <-app_assoc. split; [done |]. split; [done |]. split; [cbn; f_equal; lia |].
    exists (cs ++ [c]), ch'. split; [by rewrite map_app |]. split; [by rewrite length_app, Hlc |].
    split; [rewrite map_app, zip_with_app by (by rewrite length_map); exact Hpk' |].
    split; [rewrite (writes_there _ _ _ _ Hw); by destruct nd |].
    assert (Hcl : ∀ c', c' ∈ cs → c' ≠ c). { intros c' Hc' ->. pose proof (ld_live _ _ _ _ Hl (ACell c)) as Hx. rewrite (al_fresh _ _ _ _ Ha) in Hx.
      destruct Hx; [right; by apply list_elem_of_fmap_2 | done]. }
    apply Forall2_app; [| constructor; [| done]].
    + eapply Forall2_keep; [exact Hcs |]. intros c' kp' Hc' Hx. cbn beta in Hx |- *. rewrite (w_view _ _ _ _ Hw), decide_False by done.
      rewrite (al_view _ _ _ _ Ha), decide_False; [done |]. intros [= ->]. by apply (Hcl c).
    + rewrite (w_view _ _ _ _ Hw), decide_False, (al_view _ _ _ _ Ha) by done. by rewrite decide_True.
  - intros b s1 (p & q & Hpq & Heq & -> & Hx). assert (Hq : length (map ent kps) = length (map ent p)) by (by rewrite Heq).
    rewrite !length_map, Hpq, length_app in Hq. destruct q; [| cbn in Hq; lia]. rewrite app_nil_r in Hpq. subst p. done.
  - exists [], kps. split; [done |]. split; [done |]. split; [cbn; f_equal; lia |]. exists [], (children_of nd).
    split; [apply laid_refl |]. split; [done |]. split; [done |]. split; [rewrite Hnd; by destruct nd as [[] | []] | constructor].
Qed.

Section Nodes.
Context (s : tree K V) (n1 n2 : nat) (nd1 nd2 : Node K) (p1 p2 : Ptr).
Local Notation u1 := (unbounded_of nd1).
Local Notation u2 := (unbounded_of nd2).
Context (Hn1 : view s (ANode n1) = Some (VNode nd1)) (Hn2 : view s (ANode n2) = Some (VNode nd2)) (Hn : n1 ≠ n2) (Hu : u1 ≠ u2).
Context (Hp1 : packed [] (children_of nd1)) (Hp2 : packed [] (children_of nd2)).
Context (Hu1 : view s (ACell u1) = Some (VCell p1)) (Hu2 : view s (ACell u2) = Some (VCell p2)).

(** The children of the node [j], in the cells [cs]. *)
Record filled s' j nd (kps : list (K * Ptr)) (q : Ptr) (cs : list nat) : Prop := {
  fd_length : length cs = length kps;
  fd_node : ∃ ch, packed (zip (map fst kps) cs) ch ∧ view s' (ANode j) = Some (VNode (set_children ch nd));
  fd_cells : Forall2 (λ c kp, view s' (ACell c) = Some (VCell kp.2)) cs kps;
  fd_unbounded : view s' (ACell (unbounded_of nd)) = Some (VCell (q.1, Tag.None))
}.

Lemma distribute_spec kps1 km q1 kps2 q2 :
  (length kps1 ≤ N)%nat → (length kps2 ≤ N)%nat →
  runs (distribute n1 n2 (Z.of_nat (S (length kps1))) (map ent kps1 ++ (Some km, q1) :: map ent kps2 ++ [(None, q2)])) s
    (λ r s', r = Some km ∧ ∃ cs1 cs2, laid [ANode n1; ACell u1; ANode n2; ACell u2] (map ACell (cs1 ++ cs2)) s s' ∧
      filled s' n1 nd1 kps1 q1 cs1 ∧ filled s' n2 nd2 kps2 q2 cs2).
Proof using All.
  intros Hl1 Hl2. unfold distribute. apply runs_bind. apply runs_for_each_app.
  eapply runs_mono; [| eapply (runs_fill _ n1 nd1 kps1 O None s); [| exact Hn1 | exact Hp1 | exact Hl1]].
  2: { intros p kp q Heq. cbn [ent fst]. replace (Z.of_nat (0 + length p + 1) ?= Z.of_nat (S (length kps1)))%Z with Lt; [done |].
       symmetry. apply Z.compare_lt_iff. rewrite Heq, length_app. cbn. lia. }
  intros r s1 (-> & cs1 & ch1 & Hld1 & Hlc1 & Hpk1 & Hv1 & Hc1). cbn [Atomic.for_each fst snd].
  replace (Z.of_nat (0 + length kps1 + 1) ?= Z.of_nat (S (length kps1)))%Z with Eq by (symmetry; apply Z.compare_eq_iff; lia).
  assert (Hu1' : view s1 (ACell u1) = Some (VCell p1)). { rewrite (ld_view _ _ _ _ Hld1); [done | by intros ?%list_elem_of_singleton |].
    intros Hin. pose proof (ld_fresh _ _ _ _ Hld1 _ Hin). congruence. }
  apply runs_bind. eapply runs_unbounded_child; [exact Hv1 |]. replace (unbounded_of (set_children ch1 nd1)) with u1 by (by destruct nd1).
  eapply runs_cell_swap; [exact Hu1' |]. intros s2 Hw. apply runs_ret. cbn [Atomic.for_each].
  pose proof (laid_weaken _ [ANode n1; ACell u1; ANode n2; ACell u2] _ _ _ Hld1 ltac:(intros a ->%list_elem_of_singleton; by left)) as Hld.
  pose proof (laid_writes _ _ _ _ _ _ _ Hld Hw ltac:(left; right; by left)) as Hld2. clear Hld.
  assert (Hkeep : ∀ a, a ≠ ANode n1 → a ≠ ACell u1 → is_Some (view s a) → view s2 a = view s a).
  { intros a Ha1 Ha2 Hs. rewrite (w_view _ _ _ _ Hw), decide_False by done. apply (ld_view _ _ _ _ Hld1); [by intros ?%list_elem_of_singleton |].
    intros Hin. rewrite (ld_fresh _ _ _ _ Hld1 _ Hin) in Hs. by destruct Hs. }
  apply runs_for_each_app.
  eapply runs_mono; [| eapply (runs_fill _ n2 nd2 kps2 (S (length kps1)) (Some km) s2); [| | exact Hp2 | exact Hl2]].
  2: { intros p kp q Heq. cbn [ent fst]. replace (Z.of_nat (S (length kps1) + length p + 1) ?= Z.of_nat (S (length kps1)))%Z with Gt by (symmetry; apply Z.compare_gt_iff; lia).
       by replace (S (length kps1) + length p - Z.to_nat (Z.of_nat (S (length kps1))))%nat with (length p) by lia. }
  2: { rewrite Hkeep; [done | congruence | done | by rewrite Hn2]. }
  intros r s3 (-> & cs2 & ch2 & Hld3 & Hlc2 & Hpk2 & Hv2 & Hc2). cbn [Atomic.for_each fst snd].
  replace (Z.of_nat (S (length kps1) + length kps2 + 1) ?= Z.of_nat (S (length kps1)))%Z with Gt by (symmetry; apply Z.compare_gt_iff; lia).
  assert (Hu2' : view s3 (ACell u2) = Some (VCell p2)). { rewrite (ld_view _ _ _ _ Hld3); [| by intros ?%list_elem_of_singleton |].
    - rewrite Hkeep; [done | done | congruence | by rewrite Hu2].
    - intros Hin. pose proof (ld_fresh _ _ _ _ Hld3 _ Hin) as Hx. rewrite Hkeep in Hx; [congruence | done | congruence | by rewrite Hu2]. }
  apply runs_bind. eapply runs_unbounded_child; [exact Hv2 |]. replace (unbounded_of (set_children ch2 nd2)) with u2 by (by destruct nd2).
  eapply runs_cell_swap; [exact Hu2' |]. intros s4 Hw4. do 3 apply runs_ret. split; [done |]. exists cs1, cs2.
  pose proof (laid_trans _ _ _ _ _ _ _ Hld2 Hld3 ltac:(intros a ->%list_elem_of_singleton; left; do 2 right; by left)) as Hld4.
  rewrite <-map_app in Hld4. pose proof (laid_writes _ _ _ _ _ _ _ Hld4 Hw4 ltac:(left; do 3 right; by left)) as Hld5.
  assert (Hnew : ∀ c, c ∈ cs1 ++ cs2 → c ≠ u1 ∧ c ≠ u2).
  { intros c Hc. pose proof (ld_fresh _ _ _ _ Hld5 (ACell c) ltac:(by apply list_elem_of_fmap_2)). split; intros ->; congruence. }
  assert (Hkeep2 : ∀ a v, a ≠ ANode n2 → a ≠ ACell u2 → view s2 a = Some v → view s4 a = Some v).
  { intros a va Ha1 Ha2 Hs. rewrite (w_view _ _ _ _ Hw4), decide_False by done. rewrite <-Hs. apply (ld_view _ _ _ _ Hld3); [by intros ?%list_elem_of_singleton |].
    intros Hin. rewrite (ld_fresh _ _ _ _ Hld3 _ Hin) in Hs. done. }
  split; [exact Hld5 |]. split; constructor.
  - done.
  - exists ch1. split; [done |]. apply Hkeep2; [congruence | done |]. by rewrite (w_view _ _ _ _ Hw), decide_False.
  - eapply Forall2_keep; [exact Hc1 |]. intros c kp Hc Hx. cbn beta in *. destruct (Hnew c) as [Hcu1 Hcu2]; [apply elem_of_app; by left |].
    apply Hkeep2; [done | congruence |]. rewrite (w_view _ _ _ _ Hw), decide_False; [done | congruence].
  - apply Hkeep2; [done | congruence |]. by eapply writes_there.
  - done.
  - exists ch2. split; [done |]. by rewrite (w_view _ _ _ _ Hw4), decide_False.
  - eapply Forall2_keep; [exact Hc2 |]. intros c kp Hc Hx. cbn beta in *. rewrite (w_view _ _ _ _ Hw4), decide_False; [done |].
    intros [= ->]. by destruct (Hnew u2) as [_ ?]; [apply elem_of_app; right |].
  - by eapply writes_there.
Qed.
End Nodes.
End Distribute.

(** ** The entries of a full node

    What [split_leaf_node] and [split_node] collect before they distribute it: the slots of
    the node, with the two new children in the place of the full one. *)

Section Entries.
Context {K V : Type} `{KeyOrd K}.

Implicit Types (s : tree K V) (i c : nat) (nd : Node K) (k : K) (lo hi : option K) (A B : list nat).

Lemma key_eqb_true a b : key_eqb a b = true ↔ a = b.
Proof. unfold key_eqb. rewrite <-cmp_eq. by destruct (cmp a b). Qed.

Definition is_origin (origin : option K) k : bool := match origin with Some k' => key_eqb k k' | None => false end.

Lemma is_origin_lt origin k : (∀ k', origin = Some k' → cmp k k' = Lt ∨ cmp k' k = Lt) → is_origin origin k = false.
Proof.
  intros Ho. destruct origin as [k' |]; [| done]. cbn. destruct (key_eqb k k') eqn:Hk; [| done]. apply key_eqb_true in Hk as ->.
  by destruct (Ho k' eq_refl) as [?%cmp_lt_irrefl | ?%cmp_lt_irrefl].
Qed.

Definition cell_ptr s c : Ptr := match view s (ACell c) with Some (VCell p) => p | _ => ptr_null end.

(** What the loop appends for one child. *)
Definition expand s origin mk (low high : nat) (e : K * nat) : list (new_entry (K := K)) :=
  if is_origin origin e.1 then [(Some mk, (Some low, Tag.None)); (Some e.1, (Some high, Tag.None))] else [(Some e.1, cell_ptr s e.2)].

Lemma runs_entries {R} n i nd body (f : K * nat → list (new_entry (K := K))) s :
  view s (ANode i) = Some (VNode nd) → wf (children_of nd) [] → (N < n)%nat →
  (length (flat_map f (sorted_entries (children_of nd))) ≤ N + 2)%nat →
  (∀ e ea, e ∈ sorted_entries (children_of nd) → (length (ea ++ f e) ≤ N + 2)%nat → runs (body e ea) s (λ r s', s' = s ∧ r = Continue (ea ++ f e))) →
  runs (for_children (A := list new_entry) (R := R) n i body []) s (λ r s', s' = s ∧ r = Continue (flat_map f (sorted_entries (children_of nd)))).
Proof.
  intros Hnd Hw Hn Hfit Hbody. pose proof (view_children _ _ _ Hnd) as Hch.
  apply (runs_for_children _ _ _ _ (λ d1 ea s', s' = s ∧ ea = flat_map f d1) _ _ _ Hw Hch Hn).
  - done.
  - intros d1 x s1 [-> _]. exists (children_of nd). split; [done |]. apply agrees_self.
  - intros d1 y d2 x s1 Heq [-> ->]. eapply runs_mono; [| apply Hbody; [rewrite Heq; mem |]].
    2: { rewrite Heq, !flat_map_app, !length_app in Hfit. cbn [flat_map] in Hfit. rewrite length_app in *. lia. }
    intros [ea | r] s2 [-> [=]]; subst.
    split; [done |]. rewrite flat_map_app. cbn. by rewrite app_nil_r.
  - by intros x s1 [-> ->].
Qed.

(** ** The slots of a full node *)

Definition entry_of {h} (x : slot K (shape K V h)) : new_entry (K := K) := (slot_key x, (Some (sid h x.2), Tag.None)).

Lemma expand_others s h origin mk low high (xs : list (slot K (shape K V h))) fz lk :
  Forall (slot_rep fz lk s h) xs → (∀ x, x ∈ xs → ∃ k, slot_key x = Some k ∧ is_origin origin k = false) →
  flat_map (expand s origin mk low high) (keyed xs) = map entry_of xs.
Proof.
  intros Hx Ho. induction xs as [| x xs IH]; [done |]. apply Forall_cons in Hx as [[Hc _] Hx].
  destruct (Ho x ltac:(by left)) as (k & Hk & Hok). rewrite (keyed_Some _ _ _ Hk). cbn [flat_map map].
  rewrite IH; [| done | intros y Hy; apply Ho; by right]. unfold expand at 1. cbn [fst snd]. rewrite Hok. unfold cell_ptr. rewrite Hc.
  unfold entry_of at 2. by rewrite Hk.
Qed.

(** The entries that are appended after the loop. *)
Definition last_entries s (origin : option K) mk (low high : nat) (c : nat) : list (new_entry (K := K)) :=
  match origin with
  | None => [(Some mk, (Some low, Tag.None)); (None, (Some high, Tag.None))]
  | Some _ => [(None, cell_ptr s c)]
  end.

Lemma entries_new s h (P : pend h) lo hi nd fz lk :
  children_rep nd (old_slots P) → Forall (slot_rep fz lk s h) (pd_pre P) → Forall (slot_rep fz lk s h) (pd_post P) → slots_ok (bounded h) (new_slots P) lo hi →
  flat_map (expand s (pd_key P) (pd_mid P) (sid h (pd_low P)) (sid h (pd_high P))) (sorted_entries (children_of nd)) ++
    last_entries s (pd_key P) (pd_mid P) (sid h (pd_low P)) (sid h (pd_high P)) (unbounded_of nd) = map entry_of (new_slots P).
Proof.
  intros [Hh Hl] Hpre Hpost Hb.
  rewrite (hd_sorted _ _ Hh). unfold old_slots in *. unfold new_slots in Hb |- *.
  apply slots_ok_app in Hb as (lo' & Hs & Hok); [| done]. cbn [slots_ok] in Hok. change (slot_key (Some (pd_mid P), O, pd_low P)) with (Some (pd_mid P)) in Hok.
  cbn iota beta in Hok. destruct Hok as (_ & Hlo & Hmid & Hok). rewrite keyed_app, flat_map_app, map_app, <-app_assoc.
  destruct (pd_key P) as [ky |] eqn:Hky.
  - destruct Hok as (_ & Hab & Hbe & Hok').
    destruct (slots_ok_last _ _ _ _ Hok') as (post & z & lo2 & Hpeq & Hz & Hs2 & _). rewrite Hpeq in *.
    rewrite (keyed_Some (Some ky, pd_cell P, pd_low P) _ ky) by done. cbn [flat_map map]. rewrite keyed_app, flat_map_app, (keyed_None z [] Hz). cbn [keyed omap list_omap flat_map].
    assert (Hkpre : ∀ x, x ∈ pd_pre P → ∃ k, slot_key x = Some k ∧ is_origin (Some ky) k = false).
    { intros x Hx. destruct (span_elem _ _ _ _ _ _ Hs Hx) as (k & lo1 & Hk & _ & Hlt & _). exists k. split; [done |].
      apply is_origin_lt. intros k' [= <-]. left. apply Hlt. eapply above_trans; [exact Hlo | exact Hab]. }
    assert (Hkpost : ∀ x, x ∈ post → ∃ k, slot_key x = Some k ∧ is_origin (Some ky) k = false).
    { intros x Hx. destruct (span_elem _ _ _ _ _ _ Hs2 Hx) as (k & lo1 & Hk & Hlt & _). exists k. split; [done |].
      apply is_origin_lt. intros k' [= <-]. by right. }
    apply Forall_app in Hpost as [Hpost [[Hcz _] _]%Forall_cons].
    rewrite (expand_others _ _ _ _ _ _ _ _ _ Hpre Hkpre), (expand_others _ _ _ _ _ _ _ _ _ Hpost Hkpost). f_equal.
    unfold expand. cbn [fst snd is_origin]. rewrite (proj2 (key_eqb_true ky ky)) by done. cbn [app]. f_equal. f_equal. rewrite app_nil_r, map_app. f_equal.
    unfold last_entries. rewrite last_app_cons, last_cons, last_snoc in Hl. injection Hl as <-. unfold cell_ptr. rewrite Hcz. cbn [map]. unfold entry_of. by rewrite Hz.
  - destruct Hok as [Hpost0 _]. rewrite Hpost0 in *. change (keyed [(None, pd_cell P, pd_low P)]) with (@nil (K * nat)). cbn [flat_map app].
    rewrite (expand_others _ _ _ _ _ _ _ _ _ Hpre); [done |]. intros x Hx. destruct (span_elem _ _ _ _ _ _ Hs Hx) as (k & lo1 & Hk & _). by exists k.
Qed.

Lemma runs_push_entries {R} ea es (k : list new_entry → prog (tree K V) R) s Q :
  (length (ea ++ es) ≤ N + 2)%nat → runs (k (ea ++ es)) s Q → runs (bind (push_entries ea es) k) s Q.
Proof. intros Hl Hk. unfold push_entries. by rewrite (proj2 (Nat.leb_le _ _) Hl). Qed.

(** The cells that are cloned. *)
Lemma entry_cell s h (P : pend h) fz lk e :
  Forall (slot_rep fz lk s h) (pd_pre P) → Forall (slot_rep fz lk s h) (pd_post P) →
  e ∈ keyed (old_slots P) → is_origin (pd_key P) e.1 = false → ∃ x, view s (ACell e.2) = Some (VCell (Some x, Tag.None)).
Proof.
  intros Hpre Hpost (x & Hx & Hk & Hc)%elem_of_keyed Ho. rewrite Forall_forall in Hpre. rewrite Forall_forall in Hpost.
  rewrite <-Hc. unfold old_slots in Hx. apply elem_of_app in Hx as [Hx | [-> | Hx]%elem_of_cons]; [eexists; by apply Hpre | | eexists; by apply Hpost].
  exfalso. change (pd_key P = Some e.1) in Hk. rewrite Hk in Ho. cbn in Ho. by rewrite (proj2 (key_eqb_true e.1 e.1)) in Ho.
Qed.

Lemma unbounded_cell s h (P : pend h) fz lk nd lo hi k :
  children_rep nd (old_slots P) → Forall (slot_rep fz lk s h) (pd_post P) → slots_ok (bounded h) (new_slots P) lo hi → pd_key P = Some k →
  ∃ x, view s (ACell (unbounded_of nd)) = Some (VCell (Some x, Tag.None)).
Proof.
  intros [_ Hl] Hpost Hb Hk. unfold old_slots in Hl. unfold new_slots in Hb.
  destruct (slots_ok_last _ _ _ _ Hb) as (pre & z & lo' & Heq & Hz & _). destruct (pd_post P) as [| w post].
  - exfalso. apply (f_equal last) in Heq. rewrite last_snoc, last_app_cons in Heq. cbn in Heq. injection Heq as <-. cbn in Hz. congruence.
  - rewrite last_app_cons, last_cons_cons in Hl. destruct (last (w :: post)) as [z' |] eqn:Hz'; [| done]. injection Hl as <-.
    apply last_Some in Hz' as (post' & Hp). rewrite Hp in Hpost. apply Forall_app in Hpost as [_ [[Hc _] _]%Forall_cons]. by eexists.
Qed.

Lemma leaf_node_entries_spec n s i x (P : pend 0) lo hi fz lk :
  view s (ANode i) = Some (VNode (LeafN x)) → children_rep (LeafN x) (old_slots P) →
  Forall (slot_rep fz lk s 0) (pd_pre P) → Forall (slot_rep fz lk s 0) (pd_post P) → slots_ok (bounded 0) (new_slots P) lo hi →
  origin_leaf_key (leaf_split_op x) = pd_key P → low_key_leaf (leaf_split_op x) = (Some (sid 0 (pd_low P)), Tag.None) →
  high_key_leaf (leaf_split_op x) = (Some (sid 0 (pd_high P)), Tag.None) → (N < n)%nat → (length (new_slots P) ≤ N + 2)%nat →
  runs (leaf_node_entries n i (pd_mid P)) s (λ r s', s' = s ∧ r = (map entry_of (new_slots P), optimal_boundary (metadata (leaf_children x)))).
Proof.
  intros Hx Hch Hpre Hpost Hb Ho Hlo Hhi Hn Hfit. pose proof (entries_new _ _ _ _ _ _ _ _ Hch Hpre Hpost Hb) as Hnew. destruct Hch as [Hh Hl].
  rewrite <-(length_map entry_of), <-Hnew, length_app in Hfit.
  unfold leaf_node_entries. eapply runs_leaf_node_load; [exact Hx |]. eapply runs_children_scanner; [exact Hx |]. intros sc _ ->.
  eapply runs_leaf_node_load; [exact Hx |]. eapply runs_leaf_node_load; [exact Hx |]. rewrite Ho, Hlo, Hhi. cbn [fst].
  eapply runs_call; [eapply (runs_entries n i _ _ (expand s (pd_key P) (pd_mid P) (sid 0 (pd_low P)) (sid 0 (pd_high P)))); [exact Hx | apply Hh | done | change (children_of (LeafN x)) with (leaf_children x) in *; lia |] |].
  - intros e ea He. unfold expand. change (match pd_key P with Some k => key_eqb e.1 k | None => false end) with (is_origin (pd_key P) e.1).
    destruct (is_origin (pd_key P) e.1) eqn:Hio; intros Hea.
    + apply runs_push_entries; [exact Hea |]. by apply runs_ret.
    + destruct (entry_cell s 0 P fz lk e) as [c Hc]; [done | done | by rewrite <-(hd_sorted _ _ Hh) | done |].
      eapply runs_cell_clone; [exact Hc |]. unfold cell_ptr in *. rewrite Hc in *. apply runs_push_entries; [exact Hea |]. by apply runs_ret.
  - intros r s' [-> ->]. rewrite <-Hnew. unfold last_entries in *. destruct (pd_key P) as [ky |] eqn:Hky.
    + destruct (unbounded_cell s 0 P fz lk (LeafN x) lo hi ky) as [c Hc]; [done | done | done | done |]. eapply runs_unbounded_child; [exact Hx |].
      eapply runs_cell_clone; [exact Hc |]. apply runs_push_entries; [rewrite length_app; exact Hfit |]. apply runs_ret. unfold cell_ptr. by rewrite Hc.
    + apply runs_push_entries; [rewrite length_app; exact Hfit |]. by apply runs_ret.
Qed.

Lemma internal_entries_spec n s i x h (P : pend (S h)) j lo hi fz lk :
  view s (ANode i) = Some (VNode (InternalN x)) → children_rep (InternalN x) (old_slots P) →
  Forall (slot_rep fz lk s (S h)) (pd_pre P) → Forall (slot_rep fz lk s (S h)) (pd_post P) → slots_ok (bounded (S h)) (new_slots P) lo hi →
  node_split_op x = {| origin_node_key := pd_key P; origin_node := (Some j, Tag.None); low_key_node := (Some (sid (S h) (pd_low P)), Tag.None);
    middle_key := Some (pd_mid P); high_key_node := (Some (sid (S h) (pd_high P)), Tag.None) |} → (N < n)%nat → (length (new_slots P) ≤ N + 2)%nat →
  runs (internal_entries n i) s (λ r s', s' = s ∧ r = (map entry_of (new_slots P), optimal_boundary (metadata (node_children x)))).
Proof.
  intros Hx Hch Hpre Hpost Hb Ho Hn Hfit. pose proof (entries_new _ _ _ _ _ _ _ _ Hch Hpre Hpost Hb) as Hnew. pose proof (cr_holding _ _ Hch) as Hh.
  rewrite <-(length_map entry_of), <-Hnew, length_app in Hfit.
  unfold internal_entries. eapply runs_children_scanner; [exact Hx |]. intros sc _ ->.
  eapply runs_internal_node_load; [exact Hx |]. rewrite Ho. fields.
  eapply runs_call; [eapply (runs_entries n i _ _ (expand s (pd_key P) (pd_mid P) (sid (S h) (pd_low P)) (sid (S h) (pd_high P)))); [exact Hx | apply Hh | done | change (children_of (InternalN x)) with (node_children x) in *; lia |] |].
  - intros e ea He. unfold expand. change (match pd_key P with Some k => key_eqb e.1 k | None => false end) with (is_origin (pd_key P) e.1).
    destruct (is_origin (pd_key P) e.1) eqn:Hio; intros Hea.
    + apply runs_push_entries; [exact Hea |]. by apply runs_ret.
    + destruct (entry_cell s (S h) P fz lk e) as [c Hc]; [done | done | by rewrite <-(hd_sorted _ _ Hh) | done |].
      eapply runs_cell_clone; [exact Hc |]. unfold cell_ptr in *. rewrite Hc in *. apply runs_push_entries; [exact Hea |]. by apply runs_ret.
  - intros r s' [-> ->]. rewrite <-Hnew. unfold last_entries in *. destruct (pd_key P) as [ky |] eqn:Hky;
      [| apply runs_push_entries; [rewrite length_app; exact Hfit |]; by apply runs_ret].
    destruct (unbounded_cell s (S h) P fz lk (InternalN x) lo hi ky) as [c Hc]; [done | done | done | done |]. eapply runs_unbounded_child; [exact Hx |].
    eapply runs_cell_clone; [exact Hc |]. apply runs_push_entries; [rewrite length_app; exact Hfit |]. apply runs_ret. unfold cell_ptr. by rewrite Hc.
Qed.
End Entries.

(** ** The two halves of a full node

    What [distribute] leaves behind for a pending split: two nodes with the slots of the full
    one, in new cells. *)

Section Halves.
Context {K V : Type} `{KeyOrd K}.

Implicit Types (s : tree K V) (i j c : nat) (nd : Node K) (k : K) (lo hi : option K) (A B : list nat).

(** ** Slots in other cells *)

Definition bare {T} (x : slot K T) : option K * T := (slot_key x, x.2).
Definition recell {T} (cs : list nat) (zs : list (slot K T)) : list (slot K T) := zip_with (λ c x, (slot_key x, c, x.2)) cs zs.
Definition new_list {T} cs (zs : list (slot K T)) u (z : T) : list (slot K T) := recell cs zs ++ [(None, u, z)].

Lemma bare_recell {T} cs (zs : list (slot K T)) : length cs = length zs → map bare (recell cs zs) = map bare zs.
Proof. revert zs. induction cs as [| c cs IH]; intros [| z zs] Hl; try done. cbn. f_equal. apply IH. by injection Hl. Qed.

Lemma elem_of_recell {T} cs (zs : list (slot K T)) x : x ∈ recell cs zs → ∃ y, y ∈ zs ∧ x.2 = y.2.
Proof.
  revert zs. induction cs as [| c cs IH]; intros [| z zs]; cbn; try by intros ?%not_elem_of_nil.
  intros [-> | (y & Hy & Heq)%IH]%elem_of_cons; [exists z; split; [by left | done] | exists y; split; [by right | done]].
Qed.

Lemma bare_new_list {T} cs (zs : list (slot K T)) u z : length cs = length zs → map bare (new_list cs zs u z) = map bare (zs ++ [(None, u, z)]).
Proof. intros Hl. unfold new_list. by rewrite !map_app, bare_recell. Qed.

Lemma slots_ok_same {T} (Bd : T → option K → option K → Prop) xs ys lo hi : map bare xs = map bare ys → slots_ok Bd xs lo hi → slots_ok Bd ys lo hi.
Proof.
  revert ys lo. induction xs as [| x xs IH]; intros [| y ys] lo Heq Hok; try done. cbn in Heq. injection Heq as Hk Hc Heq.
  cbn [slots_ok] in *. rewrite <-Hk, <-Hc. destruct (slot_key x).
  - destruct Hok as (? & ? & ? & ?). split_and!; try done. by apply IH.
  - destruct Hok as [-> ?]. by destruct ys.
Qed.

Lemma contents_same h (xs ys : list (slot K (shape K V h))) : map bare xs = map bare ys → slots_contents h xs = slots_contents h ys.
Proof.
  revert ys. induction xs as [| x xs IH]; intros [| y ys] Heq; try done. cbn in Heq. injection Heq as _ Hc Heq.
  unfold slots_contents in *. cbn [flat_map]. by rewrite (IH _ Heq), Hc.
Qed.

Lemma leafs_same h (xs ys : list (slot K (shape K V h))) : map bare xs = map bare ys → slots_leafs h xs = slots_leafs h ys.
Proof.
  revert ys. induction xs as [| x xs IH]; intros [| y ys] Heq; try done. cbn in Heq. injection Heq as _ Hc Heq.
  unfold slots_leafs in *. cbn [flat_map]. by rewrite (IH _ Heq), Hc.
Qed.

Lemma slot_for_same {T} k (xs ys : list (slot K T)) : map bare xs = map bare ys → bare <$> slot_for k xs = bare <$> slot_for k ys.
Proof.
  revert ys. induction xs as [| x xs IH]; intros [| y ys] Heq; try done. cbn in Heq. injection Heq as Hk Hc Heq. cbn [slot_for].
  assert (Hb : bare x = bare y) by (unfold bare; congruence). rewrite <-Hk. destruct (slot_key x); [case_decide; [by apply IH |] |]; cbn; by rewrite Hb.
Qed.

(** The slot of [k] has room. *)
Definition has_room h k (xs : list (slot K (shape K V h))) : Prop := ∃ x, slot_for k xs = Some x ∧ room h x.2 k.

Lemma has_room_same h k xs ys : map bare xs = map bare ys → has_room h k xs → has_room h k ys.
Proof.
  intros Heq (x & Hx & Hr). pose proof (slot_for_same k _ _ Heq) as Hs. rewrite Hx in Hs. destruct (slot_for k ys) as [y |] eqn:Hy; [| done].
  injection Hs as _ Hc. exists y. split; [done |]. cbn in Hc. by rewrite <-Hc.
Qed.

Lemma slot_for_skip {T} k (xs ys : list (slot K T)) : (∀ x, x ∈ xs → ∃ k', slot_key x = Some k' ∧ cmp k' k = Lt) → slot_for k (xs ++ ys) = slot_for k ys.
Proof.
  induction xs as [| x xs IH]; [done |]. intros Hx. cbn [app slot_for]. destruct (Hx x ltac:(by left)) as (k' & -> & Hlt).
  rewrite decide_True by done. apply IH. intros y Hy. apply Hx. by right.
Qed.

Lemma slot_for_upto {T} k km u (xs : list (slot K T)) z ys x : slot_key z = Some km → cmp km k ≠ Lt →
  slot_for k (xs ++ z :: ys) = Some x → ∃ x', slot_for k (xs ++ [(None, u, z.2)]) = Some x' ∧ x'.2 = x.2.
Proof.
  intros Hz Hle. induction xs as [| y xs IH]; cbn [app slot_for].
  - rewrite Hz, decide_False by done. intros [= <-]. by eexists.
  - destruct (slot_key y); [case_decide; [done |] |]; intros [= <-]; by eexists.
Qed.

(** ** Footprints *)

Definition feet h (zs : list (slot K (shape K V h))) : list addr := flat_map (λ x, foot h x.2) zs.

Lemma feet_app h xs ys : feet h (xs ++ ys) = feet h xs ++ feet h ys.
Proof. apply flat_map_app. Qed.

Lemma slots_foot_perm h (xs : list (slot K (shape K V h))) : slots_foot h xs ≡ₚ map ACell (map slot_cell xs) ++ feet h xs.
Proof. induction xs as [| x xs IH]; [done |]. cbn. change (flat_map _ xs) with (slots_foot h xs) at 1. rewrite IH. unfold feet. solve_Permutation. Qed.

Lemma feet_same h (xs ys : list (slot K (shape K V h))) : map bare xs = map bare ys → feet h xs = feet h ys.
Proof.
  revert ys. induction xs as [| x xs IH]; intros [| y ys] Heq; try done. cbn in Heq. injection Heq as _ Hc Heq.
  unfold feet in *. cbn [flat_map]. by rewrite (IH _ Heq), Hc.
Qed.

Lemma cells_recell {T} cs (zs : list (slot K T)) : length cs = length zs → map slot_cell (recell cs zs) = cs.
Proof. revert zs. induction cs as [| c cs IH]; intros [| z zs] Hl; try done. cbn. f_equal. apply IH. by injection Hl. Qed.

Lemma foot_new_list h j cs zs u z : length cs = length zs →
  foot (S h) (node j (new_list cs zs u z)) ≡ₚ ANode j :: ACell u :: map ACell cs ++ feet h zs ++ foot h z.
Proof.
  intros Hl. rewrite foot_S. change (slots (node j (new_list cs zs u z))) with (new_list cs zs u z). change (nid (node j (new_list cs zs u z))) with j.
  rewrite slots_foot_perm. unfold new_list at 1. rewrite map_app, cells_recell, (feet_same h _ _ (bare_new_list cs zs u z Hl)), feet_app by done.
  cbn. rewrite app_nil_r, map_app. cbn. solve_Permutation.
Qed.

(** ** A new node *)

Lemma ents_exist {h} (zs : list (slot K (shape K V h))) : (∀ x, x ∈ zs → is_Some (slot_key x)) → ∃ kps, map ent kps = map entry_of zs.
Proof.
  induction zs as [| z zs IH]; intros Hz; [by exists [] |]. destruct IH as [kps Hkps]; [intros x Hx; apply Hz; by right |].
  destruct (Hz z ltac:(by left)) as [k Hk]. exists ((k, (Some (sid h z.2), Tag.None)) :: kps). cbn. rewrite Hkps. unfold entry_of at 2. by rewrite Hk.
Qed.

Lemma keyed_recell {h} kps cs (zs : list (slot K (shape K V h))) : map ent kps = map entry_of zs → length cs = length kps →
  keyed (recell cs zs) = zip (map fst kps) cs.
Proof.
  revert cs zs. induction kps as [| [k p] kps IH]; intros [| c cs] [| z zs] Heq Hl; try done. cbn in Heq. injection Heq as Hk Hp Heq.
  cbn [recell zip_with]. rewrite (keyed_Some (slot_key z, c, z.2) _ k) by done. cbn. f_equal. apply IH; [done | by injection Hl].
Qed.

Lemma entry_cells s' {h} kps cs (zs : list (slot K (shape K V h))) : map ent kps = map entry_of zs →
  Forall2 (λ c kp, view s' (ACell c) = Some (VCell kp.2)) cs kps →
  Forall (λ x, view s' (ACell (slot_cell x)) = Some (VCell (Some (sid h x.2), Tag.None))) (recell cs zs).
Proof.
  intros Heq Hc. revert zs Heq. induction Hc as [| c [k p] cs kps Hp Hc IH]; intros [| z zs] Heq; try done.
  cbn in Heq. injection Heq as _ Hq Heq. constructor; [cbn in Hp |- *; by rewrite Hp, Hq | by apply IH].
Qed.

Lemma new_node_rep fz lk s' h j nd kps q cs (zs : list (slot K (shape K V h))) z lo hi :
  filled s' j nd kps q cs → map ent kps = map entry_of zs → q = (Some (sid h z), Tag.None) → kind h nd → idle nd →
  latch_of nd = (if bool_decide (j ∈ lk) then LOCKED else Tag.None) → Forall (λ x, rep fz lk s' h x.2) zs → rep fz lk s' h z →
  slots_ok (bounded h) (new_list cs zs (unbounded_of nd) z) lo hi →
  rep fz lk s' (S h) (node j (new_list cs zs (unbounded_of nd) z)).
Proof.
  intros [Hl (ch & Hpk & Hnd) Hcs Hu] Heq -> Hk Hi Hla Hzs Hz Hok.
  assert (Hlz : length cs = length zs) by (apply (f_equal length) in Heq; rewrite !length_map in Heq; congruence).
  assert (Hky : keyed (new_list cs zs (unbounded_of nd) z) = zip (map fst kps) cs).
  { unfold new_list. rewrite keyed_app, <-(keyed_recell _ _ _ Heq Hl). apply app_nil_r. }
  pose proof (keyed_sorted (bounded h) _ _ _ Hok) as Hss. rewrite Hky in Hss. destruct (packed_sorted _ _ Hpk Hss) as [Hw Hse].
  split.
  - exists (set_children ch nd). split; [exact Hnd |]. constructor; [by destruct nd | by destruct nd | by destruct nd |].
    change (slots (node j (new_list cs zs (unbounded_of nd) z))) with (new_list cs zs (unbounded_of nd) z). constructor.
    + replace (children_of (set_children ch nd)) with ch by (by destruct nd). constructor; [done | apply Hpk | by rewrite Hky].
    + unfold new_list. rewrite last_snoc. by destruct nd.
  - apply Forall_app. split; [| by constructor]. pose proof (entry_cells _ _ _ _ Heq Hcs) as Hcell.
    rewrite Forall_forall in Hcell. rewrite Forall_forall in Hzs. apply Forall_forall. intros x Hx.
    split; [by apply Hcell |].
    apply elem_of_recell in Hx as (y & Hy & ->). by apply Hzs.
Qed.

(** ** Both halves *)

Lemma waiting_live s sp path j : waiting s sp path → j ∈ path → is_Some (view s (ANode j)).
Proof.
  induction path as [| i path IH]; [done |]. destruct path as [| i' path].
  - intros (x & Hx & _) ->%list_elem_of_singleton. by eexists.
  - intros [(x & Hx & _) Hw] [-> | Hj]%elem_of_cons; [by eexists | by apply IH].
Qed.

Lemma feet_slots h (xs : list (slot K (shape K V h))) a : a ∈ feet h xs → a ∈ slots_foot h xs.
Proof. rewrite slots_foot_perm. mem. Qed.

Lemma pend_live s A B h i (P : pend h) lo hi a : pending s A B h i P lo hi → a ∈ pend_foot i P → is_Some (view s a).
Proof.
  intros [(nd & Hnd & _ & _ & Hs) Hpre Hpost Hlow Hhigh _ _ _ _ _ _ _] Ha. unfold pend_foot in Ha. rewrite !elem_of_app in Ha.
  destruct Ha as [Ha | [Ha | [Ha | [Ha | Ha]]]]; [| exact (slots_live _ _ _ _ _ _ Hpre Ha) | exact (rep_live _ _ _ _ _ _ Hlow Ha) | exact (rep_live _ _ _ _ _ _ Hhigh Ha) | exact (slots_live _ _ _ _ _ _ Hpost Ha)].
  apply list_elem_of_fmap in Ha as (j & -> & [-> | Hj]%elem_of_cons); [by eexists |]. destruct h, nd; try done.
  - destruct Hs as (_ & _ & _ & _ & Hp). rewrite Hp in Hj. by apply not_elem_of_nil in Hj.
  - destruct Hs as (i' & path & Hp & _ & Hca). eapply waiting_live; [apply Hca | done].
Qed.

Lemma pend_foot_perm h i (P : pend h) :
  pend_foot i P ≡ₚ (map ANode (i :: pd_path P) ++ feet h (new_slots P)) ++ map ACell (map slot_cell (pd_pre P)) ++ map ACell (map slot_cell (pd_post P)).
Proof.
  unfold pend_foot, new_slots. rewrite feet_app, !slots_foot_perm. cbn [feet flat_map snd]. change (flat_map _ (pd_post P)) with (feet h (pd_post P)). solve_Permutation.
Qed.

Record halves s s' A B h i (P : pend h) lo hi lk km (t1 t2 : shape K V (S h)) : Prop := {
  hv_low : rep (pend_frozen P) lk s' (S h) t1;
  hv_high : rep (pend_frozen P) lk s' (S h) t2;
  hv_above : above lo km;
  hv_below : below km hi;
  hv_low_bounded : bounded (S h) t1 lo (Some km);
  hv_high_bounded : bounded (S h) t2 (Some km) hi;
  hv_nodup : NoDup (map ANode (i :: pd_path P) ++ foot (S h) t1 ++ foot (S h) t2);
  hv_grows : grows s (pend_foot i P) (map ANode (i :: pd_path P) ++ foot (S h) t1 ++ foot (S h) t2);
  hv_leafs : leafs (S h) t1 ++ leafs (S h) t2 = pd_left P ++ pd_right P;
  hv_contents : contents (S h) t1 ++ contents (S h) t2 = slots_contents h (new_slots P);
  hv_room k : has_room h k (new_slots P) → if decide (cmp km k = Lt) then room (S h) t2 k else room (S h) t1 k;
  hv_chain : chain s' (A ++ pd_left P ++ sp_origin (pd_split P) :: pd_right P ++ B);
  hv_frozen l : l ∈ pend_frozen P → ALeaf l ∈ foot (S h) t1 ++ foot (S h) t2;
  hv_locked j : j ∈ pend_locked P → ANode j ∈ foot (S h) t1 ++ foot (S h) t2
}.

Section Split.
Context s s' A B h i (P : pend (K := K) (V := V) h) lo hi (n1 n2 : nat) nd1 nd2 (kps1 kps2 : list (K * Ptr)) (q1 q2 : Ptr) (cs1 cs2 : list nat)
  (zs1 : list (slot K (shape K V h))) (z : slot K (shape K V h)) (zs2 : list (slot K (shape K V h))) (zl : slot K (shape K V h)) (km : K) (lk : list nat) (M : list addr).
Context (HP : pending s A B h i P lo hi) (F : list addr) (Hld : laid F M s s') (HF : ∀ a, a ∈ F → a ∉ feet h (new_slots P) ∧ ∀ l, a ≠ ALeaf l).
Context (HM : M ≡ₚ [ACell (unbounded_of nd1); ANode n1; ACell (unbounded_of nd2); ANode n2] ++ map ACell (cs1 ++ cs2)).
Context (Hf1 : filled s' n1 nd1 kps1 q1 cs1) (Hf2 : filled s' n2 nd2 kps2 q2 cs2).
Context (Hslots : new_slots P = zs1 ++ z :: zs2 ++ [zl]) (Hz : slot_key z = Some km) (Hzl : slot_key zl = None).
Context (He1 : map ent kps1 = map entry_of zs1) (He2 : map ent kps2 = map entry_of zs2) (Hq1 : q1 = (Some (sid h z.2), Tag.None)) (Hq2 : q2 = (Some (sid h zl.2), Tag.None)).
Context (Hk1 : kind h nd1) (Hk2 : kind h nd2) (Hi1 : idle nd1) (Hi2 : idle nd2).
Context (Hl1 : latch_of nd1 = if bool_decide (n1 ∈ lk) then LOCKED else Tag.None) (Hl2 : latch_of nd2 = if bool_decide (n2 ∈ lk) then LOCKED else Tag.None).
Context (Hlk : ∀ j, ANode j ∈ feet h (new_slots P) → j ∈ lk ↔ j ∈ pend_locked P).

Local Notation t1 := (node (h := h) n1 (new_list cs1 zs1 (unbounded_of nd1) z.2)).
Local Notation t2 := (node (h := h) n2 (new_list cs2 zs2 (unbounded_of nd2) zl.2)).

Lemma halves_child x : x ∈ new_slots P → rep (pend_frozen P) lk s' h x.2.
Proof using HP Hld Hlk HF.
  intros Hx. assert (Hr : rep (pend_frozen P) (pend_locked P) s h x.2).
  { unfold new_slots in Hx. apply elem_of_app in Hx as [Hx | [-> | [-> | Hx]%elem_of_cons]%elem_of_cons]; [| apply HP | apply HP |].
    - pose proof (pn_pre _ _ _ _ _ _ _ _ HP) as Hp. rewrite Forall_forall in Hp. by apply Hp.
    - pose proof (pn_post _ _ _ _ _ _ _ _ HP) as Hp. rewrite Forall_forall in Hp. by apply Hp. }
  assert (Hin : ∀ a, a ∈ foot h x.2 → a ∈ feet h (new_slots P)).
  { intros a Ha. unfold feet. rewrite list_elem_of_In, in_flat_map. exists x. by rewrite <-!list_elem_of_In. }
  eapply rep_frame; [eapply rep_flags; [exact Hr | done |] |].
  - intros j Hj. by apply Hlk, Hin.
  - intros a Ha%Hin. apply (ld_view _ _ _ _ Hld).
    + intros HaF. by destruct (HF _ HaF).
    + intros HaM. pose proof (ld_fresh _ _ _ _ Hld _ HaM) as Hn. assert (is_Some (view s a)) as [va Hva]; [| congruence].
      eapply pend_live; [exact HP |]. rewrite pend_foot_perm. mem.
Qed.

Lemma halves_intro : halves s s' A B h i P lo hi lk km t1 t2.
Proof using All.
  assert (Hlz1 : length cs1 = length zs1) by (rewrite (fd_length _ _ _ _ _ _ Hf1); apply (f_equal length) in He1; by rewrite !length_map in He1).
  assert (Hlz2 : length cs2 = length zs2) by (rewrite (fd_length _ _ _ _ _ _ Hf2); apply (f_equal length) in He2; by rewrite !length_map in He2).
  pose proof halves_child as Hch. rewrite Hslots in Hch.
  pose proof (pn_bounded _ _ _ _ _ _ _ _ HP) as Hb. rewrite Hslots in Hb.
  destruct (slots_ok_split (bounded h) _ _ _ _ _ _ Hz Hb) as (Hab & Hbe & Hb1 & Hb2).
  assert (Hb1' : slots_ok (bounded h) (new_list cs1 zs1 (unbounded_of nd1) z.2) lo (Some km)).
  { eapply slots_ok_same; [symmetry; by apply bare_new_list | apply Hb1]. }
  assert (Hbl : map bare (zs2 ++ [(None, unbounded_of nd2, zl.2)]) = map bare (zs2 ++ [zl])) by (rewrite !map_app; unfold bare; cbn; by rewrite Hzl).
  assert (Hb2' : slots_ok (bounded h) (new_list cs2 zs2 (unbounded_of nd2) zl.2) (Some km) hi).
  { eapply slots_ok_same; [symmetry; rewrite bare_new_list by done; exact Hbl | done]. }
  assert (Hfoot : map ANode (i :: pd_path P) ++ foot (S h) t1 ++ foot (S h) t2 ≡ₚ M ++ (map ANode (i :: pd_path P) ++ feet h (new_slots P))).
  { rewrite HM, !foot_new_list, Hslots, map_app by done. rewrite feet_app. change (feet h (z :: zs2 ++ [zl])) with (foot h z.2 ++ feet h (zs2 ++ [zl])). rewrite feet_app.
    change (feet h [zl]) with (foot h zl.2 ++ []). rewrite app_nil_r. cbn [map app]. solve_Permutation. }
  assert (Hlive : ∀ a, a ∈ map ANode (i :: pd_path P) ++ feet h (new_slots P) → a ∈ pend_foot i P) by (intros a Ha; rewrite pend_foot_perm; apply elem_of_app; by left).
  assert (Hfresh : ∀ a, a ∈ M → view s a = None) by apply (ld_fresh _ _ _ _ Hld).
  assert (Hin : ∀ a, a ∈ feet h (new_slots P) → a ∈ foot (S h) t1 ++ foot (S h) t2).
  { intros a Ha. rewrite Hslots, feet_app in Ha. change (feet h (z :: zs2 ++ [zl])) with (foot h z.2 ++ feet h (zs2 ++ [zl])) in Ha. rewrite feet_app in Ha.
    change (feet h [zl]) with (foot h zl.2 ++ []) in Ha. rewrite !foot_new_list by done. mem_from Ha. }
  assert (Hhalf : ∀ a, a ∈ foot h (pd_low P) ++ foot h (pd_high P) → a ∈ feet h (new_slots P)).
  { intros a Ha. unfold new_slots. rewrite feet_app. cbn [feet flat_map snd]. mem_from Ha. }
  constructor.
  - eapply (new_node_rep _ _ _ _ _ _ _ _ _ zs1 z.2); try done; [apply Forall_forall; intros x Hx; apply Hch; mem | apply Hch, elem_of_app; right; by left].
  - eapply (new_node_rep _ _ _ _ _ _ _ _ _ zs2 zl.2); try done; [apply Forall_forall; intros x Hx; apply Hch; mem | apply Hch, elem_of_app; do 2 right; apply elem_of_app; right; by left].
  - done.
  - done.
  - exact Hb1'.
  - exact Hb2'.
  - rewrite Hfoot. apply NoDup_app. split; [apply Hld |]. split; [| pose proof (pn_foot _ _ _ _ _ _ _ _ HP) as Hnd; rewrite pend_foot_perm in Hnd; apply NoDup_app in Hnd as [Hnd _]; exact Hnd].
    intros a Ha Ha'%Hlive%(pend_live _ _ _ _ _ _ _ _ _ HP). rewrite (Hfresh _ Ha) in Ha'. by destruct Ha'.
  - intros a Ha. rewrite Hfoot in Ha. apply elem_of_app in Ha as [Ha | Ha]; [right; by apply Hfresh | left; by apply Hlive].
  - rewrite <-(pn_leafs _ _ _ _ _ _ _ _ HP), Hslots. change (slots_leafs h (new_list cs1 zs1 (unbounded_of nd1) z.2) ++ slots_leafs h (new_list cs2 zs2 (unbounded_of nd2) zl.2) = slots_leafs h (zs1 ++ z :: zs2 ++ [zl])).
    rewrite (leafs_same h _ _ (bare_new_list cs2 _ _ _ Hlz2)), (leafs_same h _ _ Hbl), (leafs_same h _ _ (bare_new_list cs1 _ _ _ Hlz1)).
    rewrite !slots_leafs_app, (slots_leafs_cons h z), slots_leafs_app, <-app_assoc. change (slots_leafs h [(None, unbounded_of nd1, z.2)]) with (leafs h z.2 ++ []). by rewrite app_nil_r.
  - rewrite Hslots. change (slots_contents h (new_list cs1 zs1 (unbounded_of nd1) z.2) ++ slots_contents h (new_list cs2 zs2 (unbounded_of nd2) zl.2) = slots_contents h (zs1 ++ z :: zs2 ++ [zl])).
    rewrite (contents_same h _ _ (bare_new_list cs2 _ _ _ Hlz2)), (contents_same h _ _ Hbl), (contents_same h _ _ (bare_new_list cs1 _ _ _ Hlz1)).
    rewrite !slots_contents_app, (slots_contents_cons h z), slots_contents_app, <-app_assoc. change (slots_contents h [(None, unbounded_of nd1, z.2)]) with (contents h z.2 ++ []). by rewrite app_nil_r.
  - intros k Hr. rewrite Hslots in Hr. destruct (decide (cmp km k = Lt)) as [Hlt | Hlt].
    + change (has_room h k (new_list cs2 zs2 (unbounded_of nd2) zl.2)). eapply has_room_same; [symmetry; rewrite bare_new_list by done; exact Hbl |].
      apply slots_ok_app in Hb as (lo' & Hs & Hok); [| done]. destruct Hr as (x & Hx & Hrx). exists x. split; [| done].
      rewrite (slot_for_skip k zs1) in Hx; [cbn [slot_for] in Hx; by rewrite Hz, decide_True in Hx |].
      intros y Hy. destruct (span_elem _ _ _ _ _ _ Hs Hy) as (k' & lo1 & Hk' & _ & Hall & _). exists k'. split; [done |].
      eapply cmp_trans; [apply Hall | exact Hlt]. apply (slots_ok_Some _ _ _ _ _ _ Hz) in Hok. apply Hok.
    + change (has_room h k (new_list cs1 zs1 (unbounded_of nd1) z.2)). eapply has_room_same; [symmetry; by apply bare_new_list |].
      destruct Hr as (x & Hx & Hrx). destruct (slot_for_upto k km (unbounded_of nd1) zs1 z _ x Hz Hlt Hx) as (x' & Hx' & Heq). exists x'. by rewrite Heq.
  - eapply chain_frame; [apply HP | intros l _; apply Hld |]. intros l Hl. destruct (ch_leaf _ _ (pn_chain _ _ _ _ _ _ _ _ HP) l Hl) as (b & Hv & Hw).
    exists b. split; [| done]. rewrite (ld_view _ _ _ _ Hld); [done | intros HaF; destruct (HF _ HaF) as [_ Hne]; by apply (Hne l) |]. intros HaM. rewrite (Hfresh _ HaM) in Hv. done.
  - intros l Hl. by apply Hin, Hhalf, HP.
  - intros j Hj. by apply Hin, Hhalf, HP.
Qed.
End Split.
End Halves.

Local Open Scope Z_scope.

(** ** Splitting a full node: [split_target], [split_leaf_node] *)

Section SplitNode.
Context {K V : Type} `{KeyOrd K}.

Implicit Types (s : tree K V) (i j c : nat) (nd : Node K) (k : K) (lo hi : option K) (A B : list nat).

Section New.
Context {R : Type} (Q : R → tree K V → Prop).

Definition fresh_leaf_node c : LeafNode K :=
  {| leaf_children := new; leaf_unbounded_child := c; leaf_split_op := leaf_change_default; leaf_latch := Tag.None |}.
Definition fresh_internal_node c : InternalNode K :=
  {| node_children := new; node_unbounded_child := c; node_split_op := node_change_default; node_latch := Tag.None |}.

Lemma runs_new_leaf_node (k : nat → prog (tree K V) R) s :
  (∀ c i s1 s2, allocates (ACell c) (VCell ptr_null) s s1 → allocates (ANode i) (VNode (LeafN (fresh_leaf_node c))) s1 s2 → runs (k i) s2 Q) →
  runs (let! r := new_leaf_node in k r) s Q.
Proof.
  intros Hk. unfold new_leaf_node. apply runs_bind. eapply runs_alloc_cell. intros c s1 Hc. apply runs_tail. eapply runs_alloc_node.
  intros i s2 Hi. by eapply runs_ret, Hk.
Qed.

Lemma runs_new_internal_node (k : nat → prog (tree K V) R) s :
  (∀ c i s1 s2, allocates (ACell c) (VCell ptr_null) s s1 → allocates (ANode i) (VNode (InternalN (fresh_internal_node c))) s1 s2 → runs (k i) s2 Q) →
  runs (let! r := new_internal_node in k r) s Q.
Proof.
  intros Hk. unfold new_internal_node. apply runs_bind. eapply runs_alloc_cell. intros c s1 Hc. apply runs_tail. eapply runs_alloc_node.
  intros i s2 Hi. by eapply runs_ret, Hk.
Qed.
End New.

(** Where the entries are split. *)
Lemma entries_split {h} (Bd : shape K V h → option K → option K → Prop) (xs : list (slot K (shape K V h))) lo hi m :
  slots_ok Bd xs lo hi → (m + 1 < length xs)%nat →
  ∃ zs1 z zs2 zl km kps1 kps2, xs = zs1 ++ z :: zs2 ++ [zl] ∧ length zs1 = m ∧ slot_key z = Some km ∧ slot_key zl = None ∧
    map ent kps1 = map entry_of zs1 ∧ map ent kps2 = map entry_of zs2.
Proof.
  intros Hok Hm. destruct (slots_ok_last _ _ _ _ Hok) as (pre & zl & lo' & -> & Hzl & Hs & _). rewrite length_app in Hm. cbn in Hm.
  destruct (lookup_lt_is_Some_2 pre m ltac:(lia)) as [z Hz].
  pose proof (take_drop_middle pre m z Hz) as Hpre. assert (Hall : ∀ x, x ∈ pre → is_Some (slot_key x)).
  { intros x Hx. destruct (span_elem _ _ _ _ _ _ Hs Hx) as (k & lo1 & Hk & _). by rewrite Hk. }
  destruct (Hall z) as [km Hkm]; [by eapply list_elem_of_lookup_2 |].
  destruct (ents_exist (firstn m pre)) as [kps1 H1]; [intros x Hx; apply Hall; rewrite <-Hpre; mem |].
  destruct (ents_exist (skipn (S m) pre)) as [kps2 H2]; [intros x Hx; apply Hall; rewrite <-Hpre; mem |].
  exists (firstn m pre), z, (skipn (S m) pre), zl, km, kps1, kps2. split_and!; try done.
  - rewrite <-Hpre at 1. by rewrite <-app_assoc.
  - rewrite length_take. lia.
Qed.

(** The size of a full node. *)
Lemma keyed_length {T} (Bd : T → option K → option K → Prop) (xs : list (slot K T)) lo hi : slots_ok Bd xs lo hi → length xs = S (length (keyed xs)).
Proof.
  revert lo. induction xs as [| x xs IH]; intros lo Hok; [done |]. destruct (slot_key x) as [k |] eqn:Hk.
  - rewrite (keyed_Some _ _ _ Hk). destruct (proj1 (slots_ok_Some _ _ _ _ _ _ Hk) Hok) as (_ & _ & _ & Hok'). cbn. f_equal. by eapply IH.
  - destruct (slots_ok_None _ _ _ _ _ Hk Hok) as [-> _]. by rewrite (keyed_None _ _ Hk).
Qed.

Lemma new_slots_length h (P : pend (K := K) (V := V) h) lo hi nd :
  children_rep nd (old_slots P) → slots_ok (bounded h) (new_slots P) lo hi → (2 ≤ length (new_slots P) ≤ N + 2)%nat.
Proof.
  intros [Hh Hl] Hb. split; [unfold new_slots; rewrite length_app; cbn; lia |]. rewrite (keyed_length _ _ _ _ Hb).
  assert (Hko : (length (keyed (old_slots P)) ≤ N)%nat).
  { rewrite <-(hd_sorted _ _ Hh), length_sorted_entries by apply Hh. apply length_rest. }
  unfold old_slots, new_slots in *. rewrite keyed_app, length_app in *. rewrite (keyed_Some (Some (pd_mid P), O, pd_low P) _ (pd_mid P)) by done.
  destruct (pd_key P) as [ky |].
  - rewrite (keyed_Some (Some ky, O, pd_high P) _ ky) by done. rewrite (keyed_Some (Some ky, pd_cell P, pd_low P) _ ky) in Hko by done. cbn in *. lia.
  - change (keyed ((None, O, pd_high P) :: pd_post P)) with (keyed (pd_post P)). change (keyed ((None, pd_cell P, pd_low P) :: pd_post P)) with (keyed (pd_post P)) in Hko.
    cbn in *. lia.
Qed.

(** ** The result *)

Definition target_change (km : K) (n1 n2 : nat) (o : NodeChange K) : NodeChange K :=
  {| origin_node_key := origin_node_key o; origin_node := origin_node o; low_key_node := (Some n1, Tag.None); middle_key := Some km;
     high_key_node := (Some n2, Tag.None) |}.

Definition target_post s A B h i (P : pend (K := K) (V := V) h) lo hi j (y : InternalNode K) s' : Prop :=
  ∃ M km (t1 t2 : shape K V (S h)) sp, laid [ANode i; ANode j] M s s' ∧ halves s s' A B h i P lo hi [sp_low_node sp; sp_high_node sp] km t1 t2 ∧
    (sp_origin sp = sp_origin (pd_split P) ∧ sp_low sp = sp_low (pd_split P) ∧ sp_high sp = sp_high (pd_split P)) ∧
    committable s' sp (i :: pd_path P) ∧
    (∀ j', j' ∈ [sp_low_node sp; sp_high_node sp] → ANode j' ∈ foot (S h) t1 ++ foot (S h) t2) ∧
    view s' (ANode j) = Some (VNode (InternalN (set_node_split_op (target_change km (nid t1) (nid t2) (node_split_op y)) y))).

Lemma filled_writes s s' j nd kps q cs a v :
  filled s j nd kps q cs → writes a v s s' → a ≠ ANode j → (∀ c, a ≠ ACell c) → filled s' j nd kps q cs.
Proof.
  intros [Hl (ch & Hp & Hn) Hc Hu] Hw Ha Hac. constructor; [done | exists ch; split; [done |] | |].
  - by rewrite (w_view _ _ _ _ Hw), decide_False.
  - eapply Forall2_impl; [exact Hc |]. intros c kp Hx. cbn beta in *. by rewrite (w_view _ _ _ _ Hw), decide_False.
  - by rewrite (w_view _ _ _ _ Hw), decide_False.
Qed.

Section Finish.
Context s s1 s2 s3 A B h i (P : pend (K := K) (V := V) h) lo hi j (v : stored (K := K) (V := V)) (M0 : list addr) (n1 n2 : nat) nd1 nd2 (kps1 kps2 : list (K * Ptr)) (q1 q2 : Ptr) (cs1 cs2 : list nat)
  (zs1 : list (slot K (shape K V h))) (z : slot K (shape K V h)) (zs2 : list (slot K (shape K V h))) (zl : slot K (shape K V h)) (km : K) (lk : list nat).
Context (HP : pending s A B h i P lo hi) (Hj : ANode j ∉ pend_foot i P) (Hjs : is_Some (view s (ANode j))).
Context (Hld0 : laid [ANode i; ANode j] M0 s s1) (HM0 : M0 ≡ₚ [ACell (unbounded_of nd1); ANode n1; ACell (unbounded_of nd2); ANode n2]).
Context (Hld1 : laid [ANode n1; ACell (unbounded_of nd1); ANode n2; ACell (unbounded_of nd2)] (map ACell (cs1 ++ cs2)) s1 s2) (Hw : writes (ANode j) v s2 s3).
Context (Hf1 : filled s2 n1 nd1 kps1 q1 cs1) (Hf2 : filled s2 n2 nd2 kps2 q2 cs2).
Context (Hslots : new_slots P = zs1 ++ z :: zs2 ++ [zl]) (Hz : slot_key z = Some km) (Hzl : slot_key zl = None).
Context (He1 : map ent kps1 = map entry_of zs1) (He2 : map ent kps2 = map entry_of zs2) (Hq1 : q1 = (Some (sid h z.2), Tag.None)) (Hq2 : q2 = (Some (sid h zl.2), Tag.None)).
Context (Hk1 : kind h nd1) (Hk2 : kind h nd2) (Hi1 : idle nd1) (Hi2 : idle nd2).
Context (Hl1 : latch_of nd1 = if bool_decide (n1 ∈ lk) then LOCKED else Tag.None) (Hl2 : latch_of nd2 = if bool_decide (n2 ∈ lk) then LOCKED else Tag.None).
Context (Hlk : ∀ j', ANode j' ∈ feet h (new_slots P) → j' ∈ lk ↔ j' ∈ pend_locked P).

Lemma target_finish :
  laid [ANode i; ANode j] (M0 ++ map ACell (cs1 ++ cs2)) s s3 ∧
  halves s s3 A B h i P lo hi lk km (node (h := h) n1 (new_list cs1 zs1 (unbounded_of nd1) z.2)) (node (h := h) n2 (new_list cs2 zs2 (unbounded_of nd2) zl.2)).
Proof using All.
  assert (Hld : laid [ANode i; ANode j] (M0 ++ map ACell (cs1 ++ cs2)) s s3).
  { eapply laid_writes; [eapply laid_trans; [exact Hld0 | exact Hld1 |] | exact Hw | left; right; by left].
    intros a Ha. right. rewrite HM0. rewrite !elem_of_cons in Ha |- *. tauto. }
  assert (Hn : ∀ a, a ∈ M0 → a ≠ ANode j).
  { intros a Ha ->. rewrite (ld_fresh _ _ _ _ Hld0 _ Ha) in Hjs. by destruct Hjs. }
  split; [done |]. eapply halves_intro; try done.
  - intros a Ha. assert (Hni : ANode i ∉ feet h (new_slots P) ∧ ANode j ∉ feet h (new_slots P)).
    { pose proof (pn_foot _ _ _ _ _ _ _ _ HP) as Hnd. rewrite pend_foot_perm in Hnd, Hj. cbn [map] in *. split.
      - apply NoDup_cons in Hnd as [Hni _]. intros Hin. apply Hni. mem.
      - intros Hin. apply Hj. mem. }
    apply elem_of_cons in Ha as [-> | ->%list_elem_of_singleton]; by destruct Hni.
  - by rewrite HM0.
  - eapply filled_writes; [exact Hf1 | exact Hw | | done]. apply not_eq_sym, Hn. rewrite HM0. right. by left.
  - eapply filled_writes; [exact Hf2 | exact Hw | | done]. apply not_eq_sym, Hn. rewrite HM0. do 3 right. by left.
Qed.
End Finish.

(** The target of a pending split, with its facts. *)
Lemma pending_cells s A B h i (P : pend h) lo hi F M s1 : pending s A B h i P lo hi → laid F M s s1 →
  (∀ a, a ∈ F → a = ANode i ∨ a ∉ pend_foot i P) →
  Forall (slot_rep (pend_frozen P) (pend_locked P) s1 h) (pd_pre P) ∧ Forall (slot_rep (pend_frozen P) (pend_locked P) s1 h) (pd_post P).
Proof.
  intros HP Hld HF. pose proof (pn_foot _ _ _ _ _ _ _ _ HP) as Hnd. unfold pend_foot in Hnd. cbn [map app] in Hnd. apply NoDup_cons in Hnd as [Hni _].
  assert (Hin : ∀ a, a ∈ slots_foot h (pd_pre P) ∨ a ∈ slots_foot h (pd_post P) → view s1 a = view s a).
  { intros a Ha. assert (Hpf : a ∈ pend_foot i P ∧ a ≠ ANode i).
    { split; [unfold pend_foot; cbn [map app]; mem | intros ->; apply Hni; mem]. }
    apply (ld_view _ _ _ _ Hld).
    - intros [-> | Hn]%HF; [by destruct Hpf | by apply Hn, Hpf].
    - intros HM. pose proof (pend_live _ _ _ _ _ _ _ _ _ HP (proj1 Hpf)) as Hv. rewrite (ld_fresh _ _ _ _ Hld _ HM) in Hv. by destruct Hv. }
  split; (eapply slots_frame; [apply HP | auto]).
Qed.

Lemma feet_leafs (xs : list (slot K (shape K V 0))) j : ANode j ∈ feet 0 xs → False.
Proof. induction xs as [| x xs IH]; cbn; [apply not_elem_of_nil |]. by intros [? | ?%IH]%elem_of_cons. Qed.

Ltac lays HL Hw :=
  let HL' := fresh in pose proof (laid_writes _ _ _ _ _ _ _ HL Hw) as HL'; clear HL; rename HL' into HL;
  lazymatch type of HL with
  | ?X → _ => let HX := fresh in assert (HX : X) by first [left; in_list | right; in_list]; specialize (HL HX); clear HX
  end.

Lemma split_target_leaf n s A B i (P : pend 0) lo hi j y :
  pending s A B 0 i P lo hi → view s (ANode j) = Some (VNode (InternalN y)) → ANode j ∉ pend_foot i P → (N < n)%nat →
  runs (split_target n j i) s (λ _ s', target_post s A B 0 i P lo hi j y s').
Proof.
  intros HP Hy Hj Hn. destruct (pn_node _ _ _ _ _ _ _ _ HP) as ([nd | x] & Hx & Hlat & Hch & Hsp); [done |].
  destruct Hsp as (Hop & Hsl & Hsh & (vm & Hlast) & Hpath).
  destruct (pn_low _ _ _ _ _ _ _ _ HP) as (b1 & Hb1 & Hr1). rewrite bool_decide_true in Hr1 by (change (sl_id (pd_low P)) with (sid 0 (pd_low P)); rewrite Hsl; by left).
  pose proof (progress_start s _ (ch_links _ _ (pn_chain _ _ _ _ _ _ _ _ HP))) as HPg. pose proof (laid_refl [ANode i; ANode j] s) as HL.
  unfold split_target. eapply runs_node_at; [exact Hx |].
  eapply runs_new_leaf_node. intros u1 n1 s1 s2 Ha1 Ha2. pose proof (laid_allocates _ _ _ _ _ _ _ HL Ha1 ltac:(done)) as HL1. clear HL.
  pose proof (laid_allocates _ _ _ _ _ _ _ HL1 Ha2 ltac:(done)) as HL2. clear HL1. allocated HPg Ha1 Hfu1. allocated HPg Ha2 Hfn1.
  eapply runs_new_leaf_node. intros u2 n2 s3 s4 Ha3 Ha4. pose proof (laid_allocates _ _ _ _ _ _ _ HL2 Ha3 ltac:(done)) as HL3. clear HL2.
  pose proof (laid_allocates _ _ _ _ _ _ _ HL3 Ha4 ltac:(done)) as HL. clear HL3. allocated HPg Ha3 Hfu2. allocated HPg Ha4 Hfn2.
  cbn [app] in HL. pose proof (ld_nodup _ _ _ _ HL) as HndM.
  assert (Hn12 : n1 ≠ n2 ∧ u1 ≠ u2).
  { apply NoDup_cons in HndM as [Hu HndM]. apply NoDup_cons in HndM as [Hnn _]. rewrite !not_elem_of_cons in Hu, Hnn. split; intros ->; tauto. }
  destruct Hn12 as [Hn12 Hu12]. destruct Hfu1 as [_ Hfu1], Hfn1 as [_ Hfn1], Hfu2 as [_ Hfu2], Hfn2 as [_ Hfn2].
  apply runs_bind. unfold split_leaf_node.
  eapply (runs_leaf_node_act _ n1); [look HPg | done |]. intros s5 Hw. lays HL Hw. wrote HPg Hw.
  eapply (runs_leaf_node_act _ n2); [look HPg | done |]. intros s6 Hw. lays HL Hw. wrote HPg Hw.
  eapply (runs_leaf_node_act _ i); [look HPg; exact Hx | done |]. intros s7 Hw. lays HL Hw. wrote HPg Hw.
  eapply (runs_leaf_node_act _ i); [look HPg | done |]. intros s8 Hw. lays HL Hw. wrote HPg Hw. fields.
  eapply runs_leaf_node_load; [look HPg |]. rewrite Hop. fields.
  change (sl_id (pd_low P)) with (sid 0 (pd_low P)) in Hb1. rewrite Hsl in Hb1.
  eapply runs_leaf_read; [look HPg; exact Hb1 | apply (runs_max_key _ (sl_entries (pd_low P))); [apply Hr1 | apply (lr_entries _ _ _ Hr1)] |]. intros r ->.
  change (contents 0 (pd_low P)) with (sl_entries (pd_low P)) in Hlast. rewrite Hlast. cbn [fmap option_fmap option_map fst].
  destruct (pending_cells _ _ _ _ _ _ _ _ _ _ _ HP HL) as [Hpre Hpost]; [intros a [-> | ->%list_elem_of_singleton]%elem_of_cons; [by left | by right] |].
  match type of HPg with progress ?W _ _ _ _ _ => match W with context [(ANode i, VNode (LeafN ?xi))] => set (x2 := xi) in * end end.
  assert (Hch2 : children_rep (LeafN x2) (old_slots P)) by (destruct Hch; by constructor).
  pose proof (pn_bounded _ _ _ _ _ _ _ _ HP) as Hb. pose proof (new_slots_length _ _ _ _ _ Hch Hb) as Hlen.
  eapply runs_call; [eapply (leaf_node_entries_spec n s8 i x2 P lo hi); [look HPg | exact Hch2 | exact Hpre | exact Hpost | exact Hb | | | | done | lia] |].
  { unfold x2. fields. by rewrite Hop. }
  { unfold x2. fields. by rewrite Hop, Hsl. }
  { unfold x2. fields. by rewrite Hop, Hsh. }
  intros r s9 [-> ->]. rewrite length_map. apply runs_dassert; [apply Z.leb_le; lia |].
  destruct (boundary_range (metadata (leaf_children x2))) as [Hbd1 Hbd2]. set (bd := optimal_boundary (metadata (leaf_children x2))) in *.
  destruct (entries_split _ _ _ _ (Z.to_nat (Z.min bd (Z.of_nat (length (new_slots P)) - 1)) - 1)%nat Hb ltac:(lia))
    as (zs1 & z & zs2 & zl & km & kps1 & kps2 & Hslots & Hzs1 & Hkz & Hkzl & He1 & He2).
  assert (Hlen1 : length kps1 = length zs1) by (apply (f_equal length) in He1; by rewrite !length_map in He1).
  assert (Hlen2 : length kps2 = length zs2) by (apply (f_equal length) in He2; by rewrite !length_map in He2).
  assert (Hents : map entry_of (new_slots P) = map ent kps1 ++ (Some km, (Some (sid 0 z.2), Tag.None)) :: map ent kps2 ++ [(None, (Some (sid 0 zl.2), Tag.None))]).
  { rewrite Hslots, map_app, He1. cbn [map]. rewrite map_app, He2. cbn [map]. unfold entry_of at 2 4. by rewrite Hkz, Hkzl. }
  assert (Hlow : Z.min bd (Z.of_nat (length (new_slots P)) - 1) = Z.of_nat (S (length kps1))) by lia.
  assert (Hln : length (new_slots P) = (length zs1 + length zs2 + 2)%nat) by (rewrite Hslots, length_app; cbn; rewrite length_app; cbn; lia).
  rewrite Hents, Hlow.
  eapply runs_call; [eapply (distribute_spec s8 n1 n2 (LeafN (set_leaf_latch LOCKED (fresh_leaf_node u1))) (LeafN (set_leaf_latch LOCKED (fresh_leaf_node u2))) ptr_null ptr_null);
    [look HPg | look HPg | done | done | apply packed_new | apply packed_new | look HPg | look HPg | lia | lia] |].
  intros r s9 (-> & cs1 & cs2 & Hld & Hf1 & Hf2). apply runs_ret.
  assert (Hkeep : ∀ a v, a ≠ ANode n1 → a ≠ ANode n2 → a ≠ ACell u1 → a ≠ ACell u2 → view s8 a = Some v → view s9 a = Some v).
  { intros a v H1 H2 H3 H4 Hv. rewrite (ld_view _ _ _ _ Hld); [done | rewrite !not_elem_of_cons; by split_and!; [..| apply not_elem_of_nil] |].
    intros HM. rewrite (ld_fresh _ _ _ _ Hld _ HM) in Hv. done. }
  assert (Hy9 : view s9 (ANode j) = Some (VNode (InternalN y))) by (apply Hkeep; [congruence | congruence | done | done | look HPg]).
  assert (Hx9 : view s9 (ANode i) = Some (VNode (LeafN x2))) by (apply Hkeep; [congruence | congruence | done | done | look HPg]).
  eapply (runs_internal_node_act _ j); [exact Hy9 | done |]. intros s10 Hw. pose proof (writes_there _ _ _ _ Hw) as Hy10.
  eapply (runs_internal_node_act _ j); [exact Hy10 | done |]. intros s11 Hw2. pose proof (writes_trans _ _ _ _ _ _ Hw Hw2) as Hw3. clear Hw Hw2. pose proof (writes_there _ _ _ _ Hw3) as Hy11.
  apply runs_tail. eapply (runs_internal_node_act _ j); [exact Hy11 | done |]. intros s12 Hw2. pose proof (writes_trans _ _ _ _ _ _ Hw3 Hw2) as Hw. clear Hw2 Hw3 Hy10 Hy11. apply runs_ret.
  set (sp := Split (sp_origin (pd_split P)) (sp_low (pd_split P)) (sp_high (pd_split P)) n1 n2).
  lazymatch type of Hw with writes _ ?v _ _ =>
    destruct (target_finish s s8 s9 s12 A B 0 i P lo hi j v [ACell u1; ANode n1; ACell u2; ANode n2] n1 n2
      (LeafN (set_leaf_latch LOCKED (fresh_leaf_node u1))) (LeafN (set_leaf_latch LOCKED (fresh_leaf_node u2)))
      kps1 kps2 (Some (sid 0 z.2), Tag.None) (Some (sid 0 zl.2), Tag.None) cs1 cs2 zs1 z zs2 zl km [n1; n2]) as [HLd Hhv]; try done end.
  { by rewrite bool_decide_true by (by left). }
  { by rewrite bool_decide_true by (right; by left). }
  { intros j' Hj'. by apply feet_leafs in Hj'. }
  eexists _, km, _, _, sp. split; [exact HLd |]. split; [exact Hhv |]. split; [done |]. split; [| split].
  - assert (Hleaf : ∀ l b, view s (ALeaf l) = Some (VLeaf b) → view s12 (ALeaf l) = Some (VLeaf b)).
    { intros l b Hv. rewrite (ld_view _ _ _ _ HLd); [done | by intros [? | ?%list_elem_of_singleton]%elem_of_cons |].
      intros HM. rewrite (ld_fresh _ _ _ _ HLd _ HM) in Hv. done. }
    destruct (pn_high _ _ _ _ _ _ _ _ HP) as (b2 & Hb2 & Hr2). rewrite bool_decide_true in Hr2 by (change (sl_id (pd_high P)) with (sid 0 (pd_high P)); rewrite Hsh; right; by left).
    change (sl_id (pd_high P)) with (sid 0 (pd_high P)) in Hb2. rewrite Hsh in Hb2.
    assert (Hlock : ∀ n' u kps q cs, n' ≠ j → filled s9 n' (LeafN (set_leaf_latch LOCKED (fresh_leaf_node u))) kps q cs → locked_node s12 n').
    { intros n' u kps q cs Hne [_ (ch & _ & Hv) _ _]. eexists. split; [rewrite (w_view _ _ _ _ Hw), decide_False by congruence; exact Hv | done]. }
    pose proof (pn_foot _ _ _ _ _ _ _ _ HP) as Hnd. unfold pend_foot in Hnd. rewrite Hpath in Hnd. apply NoDup_cons in Hnd as [_ Hnd].
    apply NoDup_app in Hnd as (_ & _ & Hnd). change (foot 0 (pd_low P)) with [ALeaf (sid 0 (pd_low P))] in Hnd. change (foot 0 (pd_high P)) with [ALeaf (sid 0 (pd_high P))] in Hnd.
    rewrite Hsl, Hsh in Hnd. apply NoDup_cons in Hnd as [Hl12 _]. rewrite Hpath. constructor.
    + exists x2. split; [rewrite (w_view _ _ _ _ Hw), decide_False by congruence; exact Hx9 |]. unfold x2. fields. by rewrite Hop.
    + exists b1. split; [by apply Hleaf | apply Hr1].
    + exists b2. split; [by apply Hleaf | apply Hr2].
    + eapply (Hlock n1); [congruence | exact Hf1].
    + eapply (Hlock n2); [congruence | exact Hf2].
    + change (NoDup [ANode i; ANode n1; ANode n2; ALeaf (sp_low (pd_split P)); ALeaf (sp_high (pd_split P))]).
      assert (sp_low (pd_split P) ≠ sp_high (pd_split P)) by (intros Heq; apply Hl12; rewrite Heq; by left).
      do 5 (apply NoDup_cons; split; [rewrite ?elem_of_cons, elem_of_nil; intuition congruence |]). constructor.
  - intros j' [-> | ->%list_elem_of_singleton]%elem_of_cons; rewrite elem_of_app, !foot_S; [left | right]; by left.
  - by apply writes_there in Hw.
Qed.
Lemma split_target_internal n s A B h i (P : pend (S h)) lo hi j y :
  pending s A B (S h) i P lo hi → view s (ANode j) = Some (VNode (InternalN y)) → ANode j ∉ pend_foot i P → i ≠ j → (N < n)%nat →
  runs (split_target n j i) s (λ _ s', target_post s A B (S h) i P lo hi j y s').
Proof.
  intros HP Hy Hj Hij Hn. destruct (pn_node _ _ _ _ _ _ _ _ HP) as ([x | nd] & Hx & Hlat & Hch & Hsp); [| done].
  destruct Hsp as (i' & path & Hpath & Hop & Hca).
  pose proof (progress_start s _ (ch_links _ _ (pn_chain _ _ _ _ _ _ _ _ HP))) as HPg. pose proof (laid_refl [ANode i; ANode j] s) as HL.
  unfold split_target. eapply runs_node_at; [exact Hx |].
  eapply runs_new_internal_node. intros u1 n1 s1 s2 Ha1 Ha2. pose proof (laid_allocates _ _ _ _ _ _ _ HL Ha1 ltac:(done)) as HL1. clear HL.
  pose proof (laid_allocates _ _ _ _ _ _ _ HL1 Ha2 ltac:(done)) as HL2. clear HL1. allocated HPg Ha1 Hfu1. allocated HPg Ha2 Hfn1.
  eapply runs_new_internal_node. intros u2 n2 s3 s8 Ha3 Ha4. pose proof (laid_allocates _ _ _ _ _ _ _ HL2 Ha3 ltac:(done)) as HL3. clear HL2.
  pose proof (laid_allocates _ _ _ _ _ _ _ HL3 Ha4 ltac:(done)) as HL. clear HL3. allocated HPg Ha3 Hfu2. allocated HPg Ha4 Hfn2.
  cbn [app] in HL. pose proof (ld_nodup _ _ _ _ HL) as HndM.
  assert (Hn12 : n1 ≠ n2 ∧ u1 ≠ u2).
  { apply NoDup_cons in HndM as [Hu HndM]. apply NoDup_cons in HndM as [Hnn _]. rewrite !not_elem_of_cons in Hu, Hnn. split; intros ->; tauto. }
  destruct Hn12 as [Hn12 Hu12]. destruct Hfu1 as [_ Hfu1], Hfn1 as [_ Hfn1], Hfu2 as [_ Hfu2], Hfn2 as [_ Hfn2].
  destruct (pending_cells _ _ _ _ _ _ _ _ _ _ _ HP HL) as [Hpre Hpost]; [intros a [-> | ->%list_elem_of_singleton]%elem_of_cons; [by left | by right] |].
  pose proof (pn_bounded _ _ _ _ _ _ _ _ HP) as Hb. pose proof (new_slots_length _ _ _ _ _ Hch Hb) as Hlen.
  eapply runs_call; [eapply (internal_entries_spec n s8 i x h P i' lo hi); [look HPg; exact Hx | exact Hch | exact Hpre | exact Hpost | exact Hb | exact Hop | done | lia] |].
  intros r s9 [-> ->]. rewrite length_map. apply runs_dassert; [apply Z.leb_le; lia |].
  destruct (boundary_range (metadata (node_children x))) as [Hbd1 Hbd2]. set (bd := optimal_boundary (metadata (node_children x))) in *.
  destruct (entries_split _ _ _ _ (Z.to_nat (Z.min bd (Z.of_nat (length (new_slots P)) - 1)) - 1)%nat Hb ltac:(lia))
    as (zs1 & z & zs2 & zl & km & kps1 & kps2 & Hslots & Hzs1 & Hkz & Hkzl & He1 & He2).
  assert (Hlen1 : length kps1 = length zs1) by (apply (f_equal length) in He1; by rewrite !length_map in He1).
  assert (Hlen2 : length kps2 = length zs2) by (apply (f_equal length) in He2; by rewrite !length_map in He2).
  assert (Hents : map entry_of (new_slots P) = map ent kps1 ++ (Some km, (Some (sid (S h) z.2), Tag.None)) :: map ent kps2 ++ [(None, (Some (sid (S h) zl.2), Tag.None))]).
  { rewrite Hslots, map_app, He1. cbn [map]. rewrite map_app, He2. cbn [map]. unfold entry_of at 2 4. by rewrite Hkz, Hkzl. }
  assert (Hlow : Z.min bd (Z.of_nat (length (new_slots P)) - 1) = Z.of_nat (S (length kps1))) by lia.
  assert (Hln : length (new_slots P) = (length zs1 + length zs2 + 2)%nat) by (rewrite Hslots, length_app; cbn; rewrite length_app; cbn; lia).
  rewrite Hents, Hlow.
  eapply runs_call; [eapply (distribute_spec s8 n1 n2 (InternalN (fresh_internal_node u1)) (InternalN (fresh_internal_node u2)) ptr_null ptr_null);
    [look HPg | look HPg | done | done | apply packed_new | apply packed_new | look HPg | look HPg | lia | lia] |].
  intros r s9 (-> & cs1 & cs2 & Hld & Hf1 & Hf2). apply runs_ret.
  assert (Hkeep : ∀ a v, a ≠ ANode n1 → a ≠ ANode n2 → a ≠ ACell u1 → a ≠ ACell u2 → view s8 a = Some v → view s9 a = Some v).
  { intros a v H1 H2 H3 H4 Hv. rewrite (ld_view _ _ _ _ Hld); [done | rewrite !not_elem_of_cons; by split_and!; [..| apply not_elem_of_nil] |].
    intros HM. rewrite (ld_fresh _ _ _ _ Hld _ HM) in Hv. done. }
  assert (Hy9 : view s9 (ANode j) = Some (VNode (InternalN y))) by (apply Hkeep; [congruence | congruence | done | done | look HPg]).
  eapply (runs_internal_node_act _ j); [exact Hy9 | done |]. intros s10 Hw. pose proof (writes_there _ _ _ _ Hw) as Hy10.
  eapply (runs_internal_node_act _ j); [exact Hy10 | done |]. intros s11 Hw2. pose proof (writes_trans _ _ _ _ _ _ Hw Hw2) as Hw3. clear Hw Hw2. pose proof (writes_there _ _ _ _ Hw3) as Hy11.
  apply runs_tail. eapply (runs_internal_node_act _ j); [exact Hy11 | done |]. intros s12 Hw2. pose proof (writes_trans _ _ _ _ _ _ Hw3 Hw2) as Hw. clear Hw2 Hw3 Hy10 Hy11. apply runs_ret.
  set (sp := pd_split P) in *. assert (Hlkn : ∀ j', j' ∈ [sp_low_node sp; sp_high_node sp] → ∃ x', view s (ANode j') = Some (VNode (LeafN x'))).
  { intros j' [-> | ->%list_elem_of_singleton]%elem_of_cons; [destruct (ca_low_node _ _ _ Hca) as (x' & Hx' & _) | destruct (ca_high_node _ _ _ Hca) as (x' & Hx' & _)]; by exists x'. }
  lazymatch type of Hw with writes _ ?v _ _ =>
    destruct (target_finish s s8 s9 s12 A B (S h) i P lo hi j v [ACell u1; ANode n1; ACell u2; ANode n2] n1 n2
      (InternalN (fresh_internal_node u1)) (InternalN (fresh_internal_node u2))
      kps1 kps2 (Some (sid (S h) z.2), Tag.None) (Some (sid (S h) zl.2), Tag.None) cs1 cs2 zs1 z zs2 zl km [sp_low_node sp; sp_high_node sp]) as [HLd Hhv]; try done end.
  { rewrite bool_decide_false; [done |]. intros (x' & Hx')%Hlkn. congruence. }
  { rewrite bool_decide_false; [done |]. intros (x' & Hx')%Hlkn. congruence. }
  eexists _, km, _, _, sp. split; [exact HLd |]. split; [exact Hhv |]. split; [done |]. split; [| split].
  - pose proof (pn_foot _ _ _ _ _ _ _ _ HP) as Hnd. unfold pend_foot in Hnd. cbn [map app] in Hnd. apply NoDup_cons in Hnd as [Hni _].
    assert (Hpn : ∀ j', j' ∈ pd_path P → is_Some (view s (ANode j')) ∧ j' ≠ i ∧ j' ≠ j).
    { intros j' Hj'. split; [eapply waiting_live; [apply Hca | done] |]. split; intros ->.
      - apply Hni, elem_of_app. left. by apply list_elem_of_fmap_2.
      - apply Hj. unfold pend_foot. cbn [map app]. right. apply elem_of_app. left. by apply list_elem_of_fmap_2. }
    assert (Hns : ∀ a, a ∈ new_addrs sp → is_Some (view s a) ∧ a ≠ ANode i ∧ a ≠ ANode j).
    { intros a Ha. unfold new_addrs in Ha. rewrite !elem_of_cons in Ha. destruct Ha as [-> | [-> | [-> | [-> | Ha]]]].
      - destruct (Hlkn (sp_low_node sp)) as (x' & Hx'); [by left |]. split; [by rewrite Hx' | split; congruence].
      - destruct (Hlkn (sp_high_node sp)) as (x' & Hx'); [right; by left |]. split; [by rewrite Hx' | split; congruence].
      - destruct (ca_low _ _ _ Hca) as (b & Hb' & _). by rewrite Hb'.
      - destruct (ca_high _ _ _ Hca) as (b & Hb' & _). by rewrite Hb'.
      - by apply not_elem_of_nil in Ha. }
    assert (Hsame : ∀ a, is_Some (view s a) → a ≠ ANode i → a ≠ ANode j → view s12 a = view s a).
    { intros a Ha Hai Haj. apply (ld_view _ _ _ _ HLd); [by intros [? | ?%list_elem_of_singleton]%elem_of_cons |].
      intros HM. rewrite (ld_fresh _ _ _ _ HLd _ HM) in Ha. by destruct Ha. }
    assert (Hca' : committable s12 sp (pd_path P)).
    { apply (committable_frame s); [exact Hca |]. intros a [(j' & -> & Hj')%list_elem_of_fmap | Ha]%elem_of_app.
      - destruct (Hpn j' Hj') as (? & ? & ?). apply Hsame; [done | congruence | congruence].
      - destruct (Hns a Ha) as (? & ? & ?). by apply Hsame. }
    destruct Hca' as [Hwt Hlw Hhg Hlnn Hhnn Hndp]. constructor; try done.
    + rewrite Hpath in *. split; [| exact Hwt]. exists x. split; [| by rewrite Hop]. rewrite (w_view _ _ _ _ Hw), decide_False by congruence.
      apply Hkeep; [congruence | congruence | done | done | look HPg].
    + cbn [map app]. apply NoDup_cons. split; [| exact Hndp]. intros [(j' & [= <-] & Hj')%list_elem_of_fmap | Ha]%elem_of_app.
      * by destruct (Hpn i Hj') as (_ & ? & _).
      * by destruct (Hns _ Ha) as (_ & ? & _).
  - intros j' Hj'. apply (hv_locked _ _ _ _ _ _ _ _ _ _ _ _ _ Hhv). exact Hj'.
  - by apply writes_there in Hw.
Qed.
End SplitNode.
