(* ===== verification/TreeInsert.v ===== *)
(** * Insertion into a tree

    A full child is split ([split_node]), and the splits of the nodes of a path are finished
    once there is room; the insertion into a node of any height follows by induction. *)
From stdpp Require Import sorting.
From S2P Require Import Prelude Atomic Ord Tag AtomicShared LinkedList Dimension Leaf LeafInv LeafState LeafSeq LeafScan LeafProps TreeStore TreeLeafNode TreeNode TreeRep TreeSearch TreeCtx TreeCommit TreeInsertLeaf TreeSplitNode.

#[local] Existing Instance Tag.eq_dec.

Section SplitChild.
Context {K V : Type} `{KeyOrd K}.

Implicit Types (i j c : nat) (nd : Node K).

Lemma runs_assoc {R1 R2 R} (p : prog (tree K V) R1) (q : prog (tree K V) R2) (r : prog (tree K V) R) s Q :
  runs ((p ;; q) ;; r) s Q → runs (p ;; q ;; r) s Q.
Proof. unfold runs. rewrite !run_bind. destruct (run p s) as [s1 o | | |]; try done. all: by rewrite ?run_bind. Qed.

(** The pending split, when nothing of it is written. *)
Lemma pending_frame (s s' : tree K V) (A B : list nat) h i (P : pend (K := K) (V := V) h) (lo hi : option K) :
  pending s A B h i P lo hi → (∀ a, a ∈ pend_foot i P → view s' a = view s a) → same_links s s' →
  (∀ l, view s (ALeaf l) ≠ None → view s' (ALeaf l) = view s (ALeaf l)) → pending s' A B h i P lo hi.
Proof.
  intros [(nd & Hnd & Hlat & Hch & Hs) Hpre Hpost Hlow Hhigh Hb Hf Hl Hc Hfz Hlk Hd] Hsame Hsl Hlv.
  assert (Hin : ∀ a, a ∈ slots_foot h (pd_pre P) ∨ a ∈ foot h (pd_low P) ∨ a ∈ foot h (pd_high P) ∨ a ∈ slots_foot h (pd_post P) → view s' a = view s a).
  { intros a Ha. apply Hsame. unfold pend_foot. mem. }
  constructor; try done.
  - exists nd. rewrite Hsame by (by left). split; [done |]. split; [done |]. split; [done |]. destruct h, nd; try done.
    destruct Hs as (i' & path & Hp & Ho & Hca). exists i', path. split; [done |]. split; [done |]. apply (committable_frame s); [done |].
    intros a [Ha | Ha]%elem_of_app; [apply Hsame; unfold pend_foot; right; apply elem_of_app; by left |].
    unfold new_addrs in Ha. rewrite !elem_of_cons in Ha. destruct Ha as [-> | [-> | [-> | [-> | Ha]]]]; [| | | | by apply not_elem_of_nil in Ha].
    + apply Hin. specialize (Hlk (sp_low_node (pd_split P)) ltac:(by left)). mem_from Hlk.
    + apply Hin. specialize (Hlk (sp_high_node (pd_split P)) ltac:(right; by left)). mem_from Hlk.
    + apply Hin. specialize (Hfz (sp_low (pd_split P)) ltac:(by left)). mem_from Hfz.
    + apply Hin. specialize (Hfz (sp_high (pd_split P)) ltac:(right; by left)). mem_from Hfz.
  - eapply slots_frame; [exact Hpre | auto].
  - eapply slots_frame; [exact Hpost | auto].
  - eapply rep_frame; [exact Hlow | auto].
  - eapply rep_frame; [exact Hhigh | auto].
  - eapply chain_frame; [exact Hc | exact Hsl |]. intros l Hin'. destruct (ch_leaf _ _ Hc l Hin') as (b & Hb' & Hw). exists b. split; [| done].
    rewrite Hlv; congruence.
Qed.

Lemma pending_writes (s s' : tree K V) (A B : list nat) h i (P : pend (K := K) (V := V) h) (lo hi : option K) j (v : stored (K := K) (V := V)) :
  pending s A B h i P lo hi → writes (ANode j) v s s' → ANode j ∉ pend_foot i P → pending s' A B h i P lo hi.
Proof.
  intros HP Hw Hj. eapply pending_frame; [exact HP | | by eapply same_links_writes |].
  - intros a Ha. rewrite (w_view _ _ _ _ Hw), decide_False; [done |]. by intros ->.
  - intros l _. by rewrite (w_view _ _ _ _ Hw), decide_False.
Qed.

Lemma split_target_spec n s A B h i (P : pend (K := K) (V := V) h) lo hi j y :
  pending s A B h i P lo hi → view s (ANode j) = Some (VNode (InternalN y)) → ANode j ∉ pend_foot i P → (N < n)%nat →
  runs (split_target n j i) s (λ _ s', target_post s A B h i P lo hi j y s').
Proof.
  intros HP Hy Hj Hn. destruct h; [by apply split_target_leaf |]. apply split_target_internal; try done. intros ->. apply Hj. by left.
Qed.

(** The halves, from an earlier state. *)
Lemma halves_from (s0 s s' : tree K V) A B h i (P : pend (K := K) (V := V) h) (lo hi : option K) lk km (t1 t2 : shape K V (S h)) :
  halves s s' A B h i P lo hi lk km t1 t2 → (∀ a, view s a = None → view s0 a = None) → halves s0 s' A B h i P lo hi lk km t1 t2.
Proof.
  intros Hv Hs. destruct Hv. constructor; try done. intros a Ha. destruct (hv_grows a Ha) as [? | ?]; [by left | right; by apply Hs].
Qed.

Section Head.
Context (s1 : tree K V) (A' B' : list nat) (h i : nat) (P : pend (K := K) (V := V) h) (lo' hi' okey : option K) (c j : nat) (x0 : InternalNode K) (l : list (K * nat)).
Context (HP : pending s1 A' B' h i P lo' hi').
Context (Hj1 : view s1 (ANode j) = Some (VNode (InternalN x0))) (Hlatch : node_latch x0 = Tag.None) (Hidle : node_split_op x0 = node_change_default).
Context (Hc1 : view s1 (ACell c) = Some (VCell (Some i, Tag.None))).
Context (Hout : ∀ a, a = ANode j ∨ a = ACell c → a ∉ pend_foot i P).

(** The child is replaced by its halves; the node is still locked, the split of the child is
    not committed. *)
Record swapped (km : K) (t1 t2 : shape K V (S h)) sp s2 : Prop := {
  sw_halves : ∃ s', halves s1 s' A' B' h i P lo' hi' [sp_low_node sp; sp_high_node sp] km t1 t2;
  sw_origin : sp_origin sp = sp_origin (pd_split P) ∧ sp_low sp = sp_low (pd_split P) ∧ sp_high sp = sp_high (pd_split P);
  sw_locked : ∀ j', j' ∈ [sp_low_node sp; sp_high_node sp] → ANode j' ∈ foot (S h) t1 ++ foot (S h) t2;
  sw_commit : committable s2 sp (i :: pd_path P);
  sw_low : rep (pend_frozen P) [sp_low_node sp; sp_high_node sp] s2 (S h) t1;
  sw_high : rep (pend_frozen P) [sp_low_node sp; sp_high_node sp] s2 (S h) t2;
  sw_chain : chain s2 (A' ++ pd_left P ++ sp_origin (pd_split P) :: pd_right P ++ B');
  sw_step : step [ANode i; ANode j; ACell c] 0 s1 s2
}.

Definition split_change (km : K) (t1 t2 : shape K V (S h)) : NodeChange K :=
  {| origin_node_key := okey; origin_node := (Some i, Tag.None); low_key_node := (Some (nid t1), Tag.None); middle_key := Some km;
     high_key_node := (Some (nid t2), Tag.None) |}.

(** There was room in the node. *)
Definition linked s2 : Prop :=
  ∃ km t1 t2 sp c' ch, swapped km t1 t2 sp s2 ∧
    view s2 (ANode j) = Some (VNode (InternalN (set_node_split_op (split_change km t1 t2) (set_node_latch LOCKED (set_node_children ch x0))))) ∧
    wf ch [] ∧ frozen (metadata ch) = false ∧ sorted_entries ch ≡ₚ (km, c') :: l ∧ view s1 (ACell c') = None ∧
    view s2 (ACell c') = Some (VCell (Some (nid t1), Tag.None)) ∧ view s2 (ACell c) = Some (VCell (Some (nid t2), Tag.None)) ∧
    ACell c' ∉ foot (S h) t1 ++ foot (S h) t2.

(** There was none. *)
Definition stuck s2 : Prop :=
  ∃ km t1 t2 sp, swapped km t1 t2 sp s2 ∧
    view s2 (ANode j) = Some (VNode (InternalN (set_node_split_op (split_change km t1 t2) (set_node_latch LOCKED x0)))) ∧
    (used (metadata (node_children x0)) = N ∨ retired (metadata (node_children x0)) = true).

Lemma swapped_outside km t1 t2 sp s2 a : swapped km t1 t2 sp s2 → is_Some (view s1 a) → a ∉ pend_foot i P →
  a ∉ map ANode (i :: pd_path P) ++ foot (S h) t1 ++ foot (S h) t2.
Proof using.
  intros [(s' & Hhv) _ _ _ _ _ _ _] Hl Ho Ha. destruct (hv_grows _ _ _ _ _ _ _ _ _ _ _ _ _ Hhv a Ha) as [? | Hv]; [done |]. rewrite Hv in Hl. by destruct Hl.
Qed.

(** What the commit changes is among the halves. *)
Lemma swapped_new km t1 t2 sp s2 a : swapped km t1 t2 sp s2 → a ∈ map ANode (i :: pd_path P) ++ new_addrs sp →
  a ∈ map ANode (i :: pd_path P) ++ foot (S h) t1 ++ foot (S h) t2.
Proof using.
  intros [(s' & Hhv) (_ & Hsl & Hsh) Hlk _ _ _ _ _] [Ha | Ha]%elem_of_app; apply elem_of_app; [by left | right].
  unfold new_addrs in Ha. rewrite !elem_of_cons in Ha. destruct Ha as [-> | [-> | [-> | [-> | Ha]]]].
  - apply Hlk. by left.
  - apply Hlk. right. by left.
  - rewrite Hsl. apply Hhv. by left.
  - rewrite Hsh. apply Hhv. right. by left.
  - by apply not_elem_of_nil in Ha.
Qed.

Section Target.
Context (s3 s4 s5 : tree K V) (M : list addr) (v1 : stored (K := K) (V := V)) (km : K) (t1 t2 : shape K V (S h)) (sp : split).
Context (Hw : writes (ANode j) v1 s1 s3) (HL : laid [ANode i; ANode j] M s3 s4).
Context (Hhv : halves s3 s4 A' B' h i P lo' hi' [sp_low_node sp; sp_high_node sp] km t1 t2).
Context (Hsp : sp_origin sp = sp_origin (pd_split P) ∧ sp_low sp = sp_low (pd_split P) ∧ sp_high sp = sp_high (pd_split P)).
Context (Hca : committable s4 sp (i :: pd_path P)) (Hlkd : ∀ j', j' ∈ [sp_low_node sp; sp_high_node sp] → ANode j' ∈ foot (S h) t1 ++ foot (S h) t2).
Context (Hst : step [ANode j; ACell c] 0 s4 s5) (Hlinks : chained s5 (A' ++ pd_left P ++ sp_origin (pd_split P) :: pd_right P ++ B')).

Local Notation new := (map ANode (i :: pd_path P) ++ foot (S h) t1 ++ foot (S h) t2).

Lemma target_none a : view s3 a = None → view s1 a = None.
Proof using Hw. rewrite (w_view _ _ _ _ Hw). by case_decide. Qed.

Lemma target_kept a : a ∈ new → view s5 a = view s4 a.
Proof using Hc1 Hj1 Hout Hw Hhv Hca Hst.
  intros Ha. apply (st_view _ _ _ _ Hst).
  - rewrite !elem_of_app in Ha. destruct Ha as [(j' & -> & Hj')%list_elem_of_fmap | [Ha | Ha]];
      [eapply waiting_live; [apply Hca | done] | eapply rep_live; [apply Hhv | done] | eapply rep_live; [apply (hv_high _ _ _ _ _ _ _ _ _ _ _ _ _ Hhv) | done]].
  - assert (Hn : ∀ a', a' = ANode j ∨ a' = ACell c → a' ∈ new → False).
    { intros a' Ha' Hin. destruct (hv_grows _ _ _ _ _ _ _ _ _ _ _ _ _ Hhv a' Hin) as [Hp | Hv%target_none]; [by apply (Hout a') |].
      destruct Ha' as [-> | ->]; congruence. }
    intros [-> | ->%list_elem_of_singleton]%elem_of_cons; (eapply Hn; [| exact Ha]); auto.
Qed.

Lemma swapped_intro : swapped km t1 t2 sp s5.
Proof using All.
  destruct Hsp as (Ho & Hsl1 & Hsh1). pose proof target_kept as Hk. constructor.
  - exists s4. eapply halves_from; [exact Hhv | apply target_none].
  - done.
  - done.
  - eapply committable_frame; [exact Hca |]. intros a Ha. apply Hk. apply elem_of_app in Ha as [Ha | Ha]; [apply elem_of_app; by left |].
    apply elem_of_app. right. unfold new_addrs in Ha. rewrite !elem_of_cons in Ha. destruct Ha as [-> | [-> | [-> | [-> | Ha]]]].
    + apply Hlkd. by left.
    + apply Hlkd. right. by left.
    + rewrite Hsl1. apply Hhv. by left.
    + rewrite Hsh1. apply Hhv. right. by left.
    + by apply not_elem_of_nil in Ha.
  - eapply rep_frame; [apply Hhv |]. intros a Ha. apply Hk. mem.
  - eapply rep_frame; [apply (hv_high _ _ _ _ _ _ _ _ _ _ _ _ _ Hhv) |]. intros a Ha. apply Hk. mem.
  - constructor; [apply (hv_chain _ _ _ _ _ _ _ _ _ _ _ _ _ Hhv) | exact Hlinks |]. intros l' Hl. destruct (ch_leaf _ _ (hv_chain _ _ _ _ _ _ _ _ _ _ _ _ _ Hhv) l' Hl) as (b & Hb & Hwf).
    exists b. split; [| done]. rewrite (st_view _ _ _ _ Hst); [done | by rewrite Hb |]. rewrite !not_elem_of_cons. split; [done |]. split; [done | apply not_elem_of_nil].
  - assert (Hst1 : step [ANode i; ANode j; ACell c] 0 s1 s3) by (eapply step_weaken; [eapply step_writes; [| exact Hw]; by rewrite Hj1 | intros a Ha; mem_from Ha | done]).
    assert (Hst2 : step [ANode i; ANode j; ACell c] 0 s3 s4) by (eapply step_weaken; [exact (laid_step _ _ _ _ HL) | intros a Ha; mem_from Ha | done]).
    eapply (step_trans _ _ 0 0 0 s1 s3 s5 Hst1); [| apply grows_refl | done]. eapply (step_trans _ _ 0 0 0 s3 s4 s5 Hst2); [| apply grows_refl | done].
    eapply step_weaken; [exact Hst | intros a Ha; mem_from Ha | done].
Qed.
End Target.

Context (Hh : holding (node_children x0) l) (Hnew : ∀ km c', above lo' km → below km hi' → (km, c') ∉ l).
Context (k : K) (v : V).

Lemma split_node_head n commit rollback rs (Q : InsertResult K V + K * V → tree K V → Prop) :
  (N < n)%nat → (∃ o, view s1 (ACell (node_unbounded_child x0)) = Some (VCell (o, Tag.None))) →
  (∀ s2, stuck s2 → Q (inl (Full k v)) s2) →
  (∀ s2, linked s2 → runs (if rs : bool then Ret (inl (Retry k v)) else internal_finish_split j ;; commit i ;; Ret (inl (Retry k v))) s2 Q) →
  runs (split_node n commit rollback j k v okey (Some i, Tag.None) c rs) s1 Q.
Proof using All.
  intros Hn (o & Hu) Hfl Hlk. pose proof (progress_start s1 _ (ch_links _ _ (pn_chain _ _ _ _ _ _ _ _ HP))) as HPg.
  unfold split_node. cbn [fst].
  eapply runs_internal_try_lock; [exact Hj1 | done |]. intros s2 Hw. pose proof Hw as Hw0. wrote HPg Hw. cbn [negb].
  eapply runs_leaf_node_retired; [look HPg | look HPg; exact Hu |]. apply runs_dassert; [done |].
  eapply runs_cell_load; [look HPg; exact Hc1 |]. rewrite bool_decide_true by done. cbn [negb].
  eapply runs_cell_get_shared; [look HPg; exact Hc1 |].
  eapply (runs_internal_node_act _ j); [look HPg | done |]. intros s3 Hw. fields. rewrite Hidle. apply runs_dassert; [done |].
  set (o1 := {| origin_node_key := okey; origin_node := (Some i, Tag.None); low_key_node := ptr_null; middle_key := None; high_key_node := ptr_null |}).
  set (x1 := set_node_split_op o1 (set_node_latch LOCKED x0)).
  eapply (runs_call _ _ _ (λ _ s3, writes (ANode j) (VNode (InternalN x1)) s2 s3)).
  { unfold x1, o1. destruct okey as [key |]; [| apply runs_ret; revert Hw; fields; by rewrite Hidle]. apply runs_tail.
    eapply (runs_internal_node_act _ j); [by eapply writes_there | done |]. intros s4 Hw3. apply runs_ret.
    pose proof (writes_trans _ _ _ _ _ _ Hw Hw3) as Hw4. revert Hw4. fields. by rewrite Hidle. }
  clear s3 Hw HPg. intros _ s3 Hw. assert (Hw1 : writes (ANode j) (VNode (InternalN x1)) s1 s3) by (by eapply writes_trans).
  clear s2 Hw0 Hw. pose proof (writes_there _ _ _ _ Hw1) as Hj3.
  assert (Hjp : ANode j ∉ pend_foot i P) by (apply Hout; by left).
  eapply runs_call; [eapply (split_target_spec n s3 A' B' h i P lo' hi' j x1); [by eapply pending_writes | exact Hj3 | exact Hjp | done] |].
  intros _ s4 (M & km & t1 & t2 & sp & HL & Hhv & Hsp & Hca & Hlkd & Hj4). set (x2 := set_node_split_op _ x1) in Hj4.
  assert (Hc4 : view s4 (ACell c) = Some (VCell (Some i, Tag.None))).
  { rewrite (st_view _ _ _ _ (laid_step _ _ _ _ HL)), (w_view _ _ _ _ Hw1), decide_False; [done | done | | ]. { by rewrite (w_view _ _ _ _ Hw1), decide_False. }
    rewrite !not_elem_of_cons. split; [done |]. split; [done | apply not_elem_of_nil]. }
  pose proof (progress_start s4 _ (ch_links _ _ (hv_chain _ _ _ _ _ _ _ _ _ _ _ _ _ Hhv))) as HPg.
  eapply runs_internal_node_load; [look HPg; exact Hj4 |]. unfold x2, x1. fields. cbn [target_change middle_key].
  eapply runs_internal_node_load; [look HPg; exact Hj4 |]. unfold x2, x1. fields. cbn [target_change low_key_node].
  eapply runs_alloc_cell. intros c' s5 Ha. allocated HPg Ha Hf. destruct Hf as [_ Hf].
  destruct n as [| n']; [lia |]. eapply runs_children_call; [look HPg; exact Hj4 | by apply (holding_insert n') |].
  intros r ch s6 Hr Hw. wrote HPg Hw. change (set_children ch (InternalN x2)) with (InternalN (set_node_children ch x2)) in HPg.
  assert (Hsw : ∀ s', step [ANode j; ACell c] 0 s4 s' → chained s' (A' ++ pd_left P ++ sp_origin (pd_split P) :: pd_right P ++ B') → swapped km t1 t2 sp s').
  { intros s' Hst Hl'. by eapply (swapped_intro s3 s4 s'). }
  assert (Hstuck : ch = node_children x0 ∧ (used (metadata (node_children x0)) = N ∨ retired (metadata (node_children x0)) = true) → Q (inl (Full k v)) s6).
  { intros [-> Hfu]. apply Hfl. exists km, t1, t2, sp. split; [apply Hsw; [eapply progress_step; [exact HPg | written] | apply HPg] |]. split; [look HPg | done]. }
  destruct r as [| k' v' | k' v' | k' v' | k' v' | k' v']; try done.
  - destruct Hr as (Hwf & Hfz & Hno & Hp). eapply runs_internal_node_load; [look HPg |]. unfold x2, x1. fields. cbn [target_change high_key_node].
    eapply runs_cell_swap; [look HPg; exact Hc4 |]. intros s7 Hw. wrote HPg Hw. cbn [fst]. apply Hlk.
    exists km, t1, t2, sp, c', ch. split; [apply Hsw; [eapply progress_step; [exact HPg | written] | apply HPg] |].
    assert (Hcc : c' ≠ c) by congruence.
    split; [look HPg |]. split; [done |]. split; [done |]. split; [done |]. split.
    { destruct (view s1 (ACell c')) eqn:Hv; [| done]. assert (is_Some (view s4 (ACell c'))) as [? ?]; [| congruence].
      apply (ld_live _ _ _ _ HL). left. by rewrite (w_view _ _ _ _ Hw1), decide_False, Hv. }
    split; [look HPg |]. split; [look HPg |].
    intros Hin. assert (is_Some (view s4 (ACell c'))) as [? ?]; [| congruence]. apply elem_of_app in Hin as [Hin | Hin];
      [eapply rep_live; [apply Hhv | exact Hin] | eapply rep_live; [apply (hv_high _ _ _ _ _ _ _ _ _ _ _ _ _ Hhv) | exact Hin]].
  - destruct Hr as [y Hy]. exfalso. by eapply (Hnew km y); [apply Hhv | apply Hhv |].
  - apply runs_ret. auto.
  - apply runs_ret. auto.
Qed.
End Head.

(** ** The end of a split *)

Section Finish.
Context (s : tree K V) (h i j : nat) (path : list nat) (sp : split) (t1 t2 : shape K V (S h)) (C1 C2 : list nat) (y : InternalNode K).
Context (Hj : view s (ANode j) = Some (VNode (InternalN y))) (Hlat : node_latch y = LOCKED).
Context (Hca : committable s sp (i :: path)) (Hc : chain s (C1 ++ sp_origin sp :: C2)).
Context (Hlow : rep [sp_low sp; sp_high sp] [sp_low_node sp; sp_high_node sp] s (S h) t1).
Context (Hhigh : rep [sp_low sp; sp_high sp] [sp_low_node sp; sp_high_node sp] s (S h) t2).
Context (Hnd : NoDup (map ANode (i :: path) ++ foot (S h) t1 ++ foot (S h) t2)).
Context (Hout : ANode j ∉ map ANode (i :: path) ++ foot (S h) t1 ++ foot (S h) t2).
Context (Hsub : ∀ a, a ∈ map ANode (i :: path) ++ new_addrs sp → a ∈ map ANode (i :: path) ++ foot (S h) t1 ++ foot (S h) t2).

Record finished (s' : tree K V) : Prop := {
  fn_node : view s' (ANode j) = Some (VNode (InternalN (set_node_latch Tag.None (set_node_split_op node_change_default y))));
  fn_low : rep [] [] s' (S h) t1;
  fn_high : rep [] [] s' (S h) t2;
  fn_links : chained s' (C1 ++ C2);
  fn_step : step (ANode j :: map ANode (i :: path) ++ foot (S h) t1 ++ foot (S h) t2) 0 s s'
}.

Lemma step_committed (s1 s2 : tree K V) : committed s1 sp (i :: path) s2 → step (map ANode (i :: path) ++ foot (S h) t1 ++ foot (S h) t2) 0 s1 s2.
Proof using Hsub.
  intros Hcd. constructor; [| apply Hcd | apply Hcd | rewrite (cd_leaves _ _ _ _ Hcd); lia]. intros a Ha Hn. apply (cd_other _ _ _ _ Hcd). by intros ?%Hsub.
Qed.

Lemma finish_split_spec d : (length path < d)%nat → runs (internal_finish_split j ;; node_commit d i) s (λ _, finished).
Proof using All.
  intros Hd. apply runs_bind. unfold internal_finish_split. eapply runs_node_change_reset; [exact Hj |]. intros s1 Hw1.
  apply runs_tail. eapply runs_internal_unlock; [by eapply writes_there | exact Hlat |]. intros s2 Hw2.
  pose proof (writes_trans _ _ _ _ _ _ Hw1 Hw2) as Hw. clear s1 Hw1 Hw2. apply runs_ret.
  assert (Hsame : ∀ a, a ∈ map ANode (i :: path) ++ foot (S h) t1 ++ foot (S h) t2 → view s2 a = view s a).
  { intros a Ha. rewrite (w_view _ _ _ _ Hw), decide_False; [done |]. by intros ->. }
  assert (Hca2 : committable s2 sp (i :: path)) by (eapply committable_frame; [exact Hca |]; intros a Ha; by apply Hsame, Hsub).
  eapply runs_mono; [| eapply (node_commit_spec d s2 sp path i C1 C2); [exact Hca2 | | apply Hc | done]];
    [| eapply segment_same; [apply Hc | by eapply same_links_writes]].
  intros _ s3 [Hcd Hl].
  assert (Hpath : ∀ i', i' ∈ i :: path → ANode i' ∉ foot (S h) t1 ++ foot (S h) t2).
  { intros i' Hi' Hin. apply NoDup_app in Hnd as (_ & Hdis & _). apply (Hdis (ANode i')); [by apply list_elem_of_fmap_2 | done]. }
  constructor.
  - rewrite (cd_other _ _ _ _ Hcd); [by eapply writes_there |]. by intros ?%Hsub.
  - eapply (rep_committed s2); [exact Hca2 | exact Hcd | eapply rep_frame; [exact Hlow |] |].
    + intros a Ha. apply Hsame. mem.
    + intros i' Hi' Ha. apply (Hpath i' Hi'). mem.
  - eapply (rep_committed s2); [exact Hca2 | exact Hcd | eapply rep_frame; [exact Hhigh |] |].
    + intros a Ha. apply Hsame. mem.
    + intros i' Hi' Ha. apply (Hpath i' Hi'). mem.
  - exact Hl.
  - eapply (step_trans _ _ 0 0 0); [eapply step_weaken; [eapply step_writes; [| exact Hw]; by rewrite Hj | | done] | apply step_committed; exact Hcd | | done].
    + intros a ->%list_elem_of_singleton. by left.
    + intros a Ha. left. by right.
Qed.
End Finish.

(** ** A full child of a node *)

Section Child.
Context (s s1 : tree K V) (A B : list nat) (h : nat) (t : shape K V (S (S h))) (lo hi : option K)
  (pre : list (slot K (shape K V (S h)))) (x : slot K (shape K V (S h))) (post : list (slot K (shape K V (S h)))) (lo' : option K) (k : K) (v : V) (P : pend (K := K) (V := V) h).
Context (Hctx : ctx s A B (S (S h)) t lo hi) (Heq : slots t = pre ++ x :: post) (Hspan : span (bounded (S h)) pre lo hi lo')
  (Hok : slots_ok (bounded (S h)) (x :: post) lo' hi) (Hab : above lo' k) (Hup : upto k (slot_hi x hi)).
Context (Hfull : full s s1 (A ++ slots_leafs (S h) pre) (slots_leafs (S h) post ++ B) h x.2 lo' (slot_hi x hi) k P).

Local Notation i := (nid x.2).
Local Notation j := (nid t).
Local Notation c := (slot_cell x).
Local Notation A' := (A ++ slots_leafs (S h) pre).
Local Notation B' := (slots_leafs (S h) post ++ B).
Local Notation around a := (a ∈ (ANode j :: slots_foot (S h) pre ++ [ACell c]) ++ slots_foot (S h) post).
Local Notation swapped := (swapped s1 A' B' h i P lo' (slot_hi x hi) c j).

(** What is around the child is as before. *)
Lemma child_around a : around a → view s1 a = view s a ∧ is_Some (view s a) ∧ a ∉ pend_foot i P.
Proof using Hctx Heq Hfull.
  intros Ha. destruct Hctx as [Hr _ Hnd _]. destruct (outside_child _ _ _ _ _ _ _ _ a Hr Hnd Heq Ha) as [Hn Hl].
  split; [by apply (st_view _ _ _ _ (fl_step _ _ _ _ _ _ _ _ _ _ Hfull)) |]. split; [done |].
  intros Hp. destruct (fl_grows _ _ _ _ _ _ _ _ _ _ Hfull a Hp) as [? | Hv]; [done |]. rewrite Hv in Hl. by destruct Hl.
Qed.

Lemma slot_around y : y ∈ slots t → around (ACell (slot_cell y)).
Proof using Heq.
  rewrite Heq. intros [Hy | [-> | Hy]%elem_of_cons]%elem_of_app.
  - assert (ACell (slot_cell y) ∈ slots_foot (S h) pre) by (apply elem_of_slots_foot; eauto). mem.
  - apply elem_of_app. left. right. apply elem_of_app. right. by left.
  - assert (ACell (slot_cell y) ∈ slots_foot (S h) post) by (apply elem_of_slots_foot; eauto). mem.
Qed.

Lemma cell_around : around (ACell c).
Proof using Heq. apply slot_around. rewrite Heq. apply elem_of_app. right. by left. Qed.

Lemma child_grows km t1 t2 sp s2 : swapped km t1 t2 sp s2 →
  grows s (foot (S h) x.2) (map ANode (i :: pd_path P) ++ foot (S h) t1 ++ foot (S h) t2).
Proof using Hfull.
  intros [(s' & Hhv) _ _ _ _ _ _ _]. eapply grows_trans; [apply Hfull | apply Hhv | apply (fl_step _ _ _ _ _ _ _ _ _ _ Hfull)].
Qed.

Lemma child_step km t1 t2 sp s2 : swapped km t1 t2 sp s2 → step (ANode j :: ACell c :: foot (S h) x.2) 2 s s2.
Proof using Hfull.
  intros Hsw. eapply (step_trans _ _ 2 0 2); [eapply step_weaken; [apply Hfull | | reflexivity] | apply Hsw | | done]; [intros a Ha; do 2 right; exact Ha |].
  intros a Ha. left. assert (Hi : ANode i ∈ foot (S h) x.2) by (rewrite foot_S; by left).
  rewrite !elem_of_cons in Ha. destruct Ha as [-> | [-> | [-> | Ha]]]; [do 2 right; exact Hi | by left | right; by left | by apply not_elem_of_nil in Ha].
Qed.

Lemma child_none a : view s1 a = None → view s a = None.
Proof using Hfull.
  intros Hv. destruct (view s a) eqn:Ha; [| done]. destruct (st_live _ _ _ _ (fl_step _ _ _ _ _ _ _ _ _ _ Hfull) a); [by rewrite Ha | congruence].
Qed.

(** There was no room: the split of the child waits. *)
Lemma child_full x0 s2 : view s (ANode j) = Some (VNode (InternalN x0)) → stuck s1 A' B' h i P lo' (slot_hi x hi) (slot_key x) c j x0 s2 →
  ∃ P2, full s s2 A B (S h) t lo hi k P2.
Proof using All.
  intros Hx0 (km & t1 & t2 & sp & Hsw & Hx' & _). pose proof Hsw as [(s' & Hhv) (Ho & Hsl1 & Hsh1) Hlkd Hca Hlow Hhigh Hc _].
  destruct Hctx as [Hr _ _ _]. apply rep_S in Hr as [(nd & Hnd & [_ _ _ [Hch1 Hch2]]) _]. rewrite Hx0 in Hnd. injection Hnd as <-.
  eexists. eapply (full_intro s s2 A B (S h) t lo hi pre x post lo' k km t1 t2 sp (i :: pd_path P) (slots_leafs (S h) pre ++ pd_left P) (pd_right P ++ slots_leafs (S h) post)); try done.
  - exists i, (pd_path P). split; [done |]. split; [done | exact Hca].
  - unfold pend_frozen. cbn [pd_split]. by rewrite Hsl1, Hsh1.
  - unfold pend_frozen. cbn [pd_split]. by rewrite Hsl1, Hsh1.
  - apply Hhv.
  - apply Hhv.
  - apply Hhv.
  - apply Hhv.
  - apply Hhv.
  - by eapply child_grows.
  - unfold pend_frozen. cbn [pd_split]. rewrite Hsl1, Hsh1. apply Hhv.
  - change (S (length (pd_path P)) = S h). by rewrite (pn_depth _ _ _ _ _ _ _ _ (fl_pending _ _ _ _ _ _ _ _ _ _ Hfull)).
  - by eapply child_step.
  - unfold new_slots. cbn [pd_pre pd_mid pd_low pd_key pd_high pd_post]. rewrite slots_leafs_app.
    change (slots_leafs (S h) ((Some km, O, t1) :: (slot_key x, O, t2) :: post)) with (leafs (S h) t1 ++ leafs (S h) t2 ++ slots_leafs (S h) post).
    rewrite (app_assoc (leafs (S h) t1)), (hv_leafs _ _ _ _ _ _ _ _ _ _ _ _ _ Hhv). by rewrite <-!app_assoc.
  - rewrite Ho. rewrite <-!app_assoc in Hc |- *. cbn [app]. rewrite <-!app_assoc. exact Hc.
  - rewrite (hv_contents _ _ _ _ _ _ _ _ _ _ _ _ _ Hhv). symmetry. apply (fl_contents _ _ _ _ _ _ _ _ _ _ Hfull).
  - apply (hv_room _ _ _ _ _ _ _ _ _ _ _ _ _ Hhv). apply (fl_room _ _ _ _ _ _ _ _ _ _ Hfull).
Qed.

(** There was room: the node with another slot, when the split of the child is finished. *)
Lemma child_done x0 km t1 t2 sp c' ch s2 s3 :
  view s (ANode j) = Some (VNode (InternalN x0)) → node_latch x0 = Tag.None → node_split_op x0 = node_change_default →
  swapped km t1 t2 sp s2 → wf ch [] → frozen (metadata ch) = false → sorted_entries ch ≡ₚ (km, c') :: keyed (slots t) →
  view s1 (ACell c') = None → view s2 (ACell c') = Some (VCell (Some (nid t1), Tag.None)) → view s2 (ACell c) = Some (VCell (Some (nid t2), Tag.None)) →
  ACell c' ∉ foot (S h) t1 ++ foot (S h) t2 →
  finished s2 h i j (pd_path P) t1 t2 (A' ++ pd_left P) (pd_right P ++ B')
    (set_node_split_op (split_change h i (slot_key x) km t1 t2) (set_node_latch LOCKED (set_node_children ch x0))) s3 →
  split_post s A B (S h) t lo hi k v (inl (Retry k v)) s3.
Proof using All.
  intros Hx0 Hlat Hidle Hsw Hwch Hfch Hpch Hf' Hvc' Hvc Hcf [Hj3 Hlow Hhigh Hl3 Hst3]. pose proof Hsw as [(s' & Hhv) _ _ _ _ _ _ _].
  set (new := map ANode (i :: pd_path P) ++ foot (S h) t1 ++ foot (S h) t2) in *.
  assert (Hgr : grows s (foot (S h) x.2) new) by (by eapply child_grows).
  assert (Hcn : ACell c ∉ new).
  { destruct (child_around _ cell_around) as (Hva & Hl & Hn). apply (swapped_outside _ _ _ _ _ _ _ _ _ _ _ _ _ _ _ (ACell c) Hsw); [by rewrite Hva | done]. }
  assert (Hcell : ∀ b p, (b = c ∨ b = c') → view s2 (ACell b) = Some (VCell p) → view s3 (ACell b) = Some (VCell p)).
  { intros b p Hb Hv. rewrite (st_view _ _ _ _ Hst3); [done | by rewrite Hv |]. intros [? | Hin]%elem_of_cons; [done |].
    destruct Hb as [-> | ->]; [done |]. unfold new in Hin. apply elem_of_app in Hin as [(? & ? & ?)%list_elem_of_fmap | Hin]; [done | by apply Hcf]. }
  assert (Hcc : c' ≠ c). { intros ->. destruct (child_around _ cell_around) as (Hva & [w Hw] & _). congruence. }
  set (ys := [(Some km, c', t1); (slot_key x, c, t2)] : list (slot K (shape K V (S h)))).
  assert (Hfy : slots_foot (S h) ys = ACell c' :: foot (S h) t1 ++ ACell c :: foot (S h) t2).
  { change (slots_foot (S h) ys) with (ACell c' :: foot (S h) t1 ++ ACell c :: foot (S h) t2 ++ []). by rewrite app_nil_r. }
  pose proof (slots_ok_two (bounded (S h)) x post lo' hi km c' t1 c t2 Hok ltac:(apply Hhv) ltac:(apply Hhv) ltac:(apply Hhv) ltac:(apply Hhv)) as Hys.
  match type of Hj3 with _ = Some (VNode ?nd) => destruct (ctx_replace s s3 A B (S h) t lo hi pre x post lo' ys nd 2) as (Hc & Hs' & Hg) end; try done.
  - destruct Hctx as [Hr _ _ _]. apply rep_S in Hr as [(nd & Hnd & [_ _ _ [_ Hlst]]) _]. rewrite Hx0 in Hnd. injection Hnd as <-. constructor; [done | done | done |]. constructor.
    + rewrite Heq in Hpch. eapply (holding_inserted (bounded (S h))); [done | done | exact Hpch | | apply slots_ok_app; [done |]; exists lo'; split; [exact Hspan | exact Hys]].
      by destruct x as [[]].
    + rewrite Heq in Hlst. change (unbounded_of _) with (unbounded_of (InternalN x0)). rewrite <-Hlst. unfold ys. cbn [app]. rewrite !last_app_cons, last_cons_cons. by destruct post.
  - constructor; [| constructor; [| done]]; (split; [| done]); apply Hcell; by auto.
  - pose proof (hv_nodup _ _ _ _ _ _ _ _ _ _ _ _ _ Hhv) as Hnd. apply NoDup_app in Hnd as (_ & _ & Hnd).
    rewrite Hfy, <-Permutation_middle. apply NoDup_cons. split; [rewrite elem_of_cons; intros [[= ?] | ?]; [done | by apply Hcf] |]. apply NoDup_cons. split; [| done].
    intros Hin. apply Hcn. unfold new. apply elem_of_app. by right.
  - intros a Ha. rewrite Hfy, elem_of_cons, elem_of_app, elem_of_cons in Ha. rewrite elem_of_cons.
    assert (Hd : a ∈ foot (S h) t1 ∨ a ∈ foot (S h) t2 → a ∈ foot (S h) x.2 ∨ view s a = None) by (intros Hin; apply Hgr; unfold new; mem).
    destruct Ha as [-> | Ha]; [right; by eapply child_none |]. tauto.
  - change (slots_leafs (S h) ys) with (leafs (S h) t1 ++ leafs (S h) t2 ++ []). rewrite app_nil_r, (hv_leafs _ _ _ _ _ _ _ _ _ _ _ _ _ Hhv).
    by rewrite <-!app_assoc in *.
  - eapply (step_trans _ _ 2 0 2); [by eapply child_step | exact Hst3 | | done]. intros a [-> | Ha]%elem_of_cons; [left; by left |].
    destruct (Hgr a Ha); [left; do 2 right; done | by right].
  - split; [done |]. split; [done |]. exists (node (h := S h) j (pre ++ ys ++ post)). split; [by constructor |]. split.
    + assert (HcE : contents (S h) x.2 ≡ₚ contents (S h) t1 ++ contents (S h) t2).
      { rewrite (hv_contents _ _ _ _ _ _ _ _ _ _ _ _ _ Hhv). symmetry. apply (fl_contents _ _ _ _ _ _ _ _ _ _ Hfull). }
      rewrite !(contents_S (S h)), Heq. change (slots (node _ _)) with (pre ++ ys ++ post).
      rewrite !slots_contents_app, slots_contents_cons, HcE. change (slots_contents (S h) ys) with (contents (S h) t1 ++ contents (S h) t2 ++ []).
      by rewrite app_nil_r.
    + eexists. split; [by eapply slot_for_two |]. pose proof (hv_room _ _ _ _ _ _ _ _ _ _ _ _ _ Hhv k (fl_room _ _ _ _ _ _ _ _ _ _ Hfull)) as Hrm.
      by destruct (decide (cmp km k = Lt)).
Qed.

Lemma split_node_spec n d rollback : (N < n)%nat → (h < d)%nat →
  runs (split_node n (node_commit d) rollback j k v (slot_key x) (Some i, Tag.None) c false) s1 (split_post s A B (S h) t lo hi k v).
Proof using All.
  intros Hn Hd. pose proof (cx_rep _ _ _ _ _ _ _ Hctx) as Hr. pose proof (cx_bounded _ _ _ _ _ _ _ Hctx) as Hb.
  destruct (last_slot _ _ _ _ _ _ _ Hr Hb) as ([x0 | ?] & pre' & z & lo2 & Hnd & Hk & Heqz & [Hcz _] & _ & Hu); [| done].
  apply rep_S in Hr as [(nd & Hnd' & [_ Hidle Hlatch Hch]) Hx]. rewrite Hnd in Hnd'. injection Hnd' as <-. cbn in Hidle, Hlatch.
  rewrite Heq in Hx. apply Forall_app in Hx as [_ [[Hcx _] _]%Forall_cons].
  pose proof (fl_pending _ _ _ _ _ _ _ _ _ _ Hfull) as HP.
  destruct (child_around (ANode j)) as (Hj1 & _ & Hjp); [by left |]. rewrite Hnd in Hj1.
  destruct (child_around _ cell_around) as (Hc1 & _ & Hcp). rewrite Hcx in Hc1.
  eapply (split_node_head s1 A' B' h i P lo' (slot_hi x hi) (slot_key x) c j x0 (keyed (slots t)) HP Hj1 Hlatch Hidle Hc1).
  - by intros a [-> | ->].
  - apply Hch.
  - rewrite Heq. intros km c' H1 H2. by eapply (keyed_new (bounded (S h))).
  - done.
  - exists (Some (sid (S h) z.2)). change (node_unbounded_child x0) with (unbounded_of (InternalN x0)). rewrite Hu.
    rewrite (proj1 (child_around _ (slot_around z ltac:(rewrite Heqz; apply elem_of_app; right; by left)))). exact Hcz.
  - intros s2 Hst. split; [done |]. split; [done |]. by eapply child_full.
  - intros s2 (km & t1 & t2 & sp & c' & ch & Hsw & Hj2 & Hwch & Hfch & Hpch & Hf' & Hvc' & Hvc & Hcf). pose proof Hsw as [(s' & Hhv) (Ho & Hsl & Hsh) Hlkd Hca Hlow Hhigh Hc _].
    apply runs_assoc. eapply runs_call; [eapply (finish_split_spec s2 h i j (pd_path P) sp t1 t2 (A' ++ pd_left P) (pd_right P ++ B')); [exact Hj2 | done | done | | | | apply Hhv | | |] |].
    + rewrite Ho. rewrite <-!app_assoc in *. exact Hc.
    + rewrite Hsl, Hsh. exact Hlow.
    + rewrite Hsl, Hsh. exact Hhigh.
    + eapply swapped_outside; [exact Hsw | by rewrite Hj1 | done].
    + intros a. by eapply swapped_new.
    + by rewrite (pn_depth _ _ _ _ _ _ _ _ HP).
    + intros r3 s3 Hfin. apply runs_ret. by eapply (child_done x0 km t1 t2 sp c' ch s2).
Qed.
End Child.

(** ** Nodes of any height *)

Section Round.
Context (n d : nat) (s : tree K V) (A B : list nat) (h : nat) (t : shape K V (S (S h))) (lo hi : option K) (k : K) (v : V).
Context (Hctx : ctx s A B (S (S h)) t lo hi) (Hlo : above lo k) (Hup : upto k hi) (Hn : (N < n)%nat) (Hd : (h < d)%nat).

Lemma internal_inserted_round nd pre (x : slot K (shape K V (S h))) post lo' s1 r :
  descent [] [] s (S h) t lo hi k nd pre x post lo' →
  insert_post s (A ++ slots_leafs (S h) pre) (slots_leafs (S h) post ++ B) h x.2 lo' (slot_hi x hi) k v r s1 →
  runs (match r with
        | inl r => internal_inserted n (node_calls n d) (nid t) r (slot_key x) (Some (nid x.2), Tag.None) (slot_cell x) (nid x.2)
        | inr kv => Ret (Break (inr kv))
        end) s1 (round_post s A B (S h) t lo hi k v).
Proof using Hctx Hn Hd.
  intros Hde Hr. destruct Hde. pose proof (room_child _ _ _ _ _ _ _ _ _ ds_slots ds_span ds_above ds_upto) as Hroom.
  destruct r as [[| k' v' | k' v' | k' v' | k' v' | k' v'] | kv]; try done; cbn [internal_inserted].
  - destruct Hr as (u & m & Hm & Hm2 & Hm0 & Hp & Hno). apply runs_ret. eexists _, m. split; [by eapply moved_child |].
    split; [done |]. split; [by intros Hr0%Hroom; apply Hm0 |]. split; [by apply (contents_child (S h) t pre x post u [(k, v)] ds_slots) |].
    intros v' Hin%ds_contents. by apply (Hno v').
  - destruct Hr as (-> & -> & u & Hm & Hp & v2 & Hin). apply runs_ret. split; [done |]. split; [done |]. eexists. split; [by eapply moved_child |].
    split; [by apply (contents_child (S h) t pre x post u [] ds_slots) |]. exists v2. by apply ds_contents.
  - destruct Hr as (-> & -> & Hnr & Hno & P & HP).
    eapply runs_call; [eapply (split_node_spec s s1 A B h t lo hi pre x post lo' k v P); try done |].
    assert (Hnr' : ¬ room (S (S h)) t k) by (by intros Hr0%Hroom).
    assert (Hno' : ∀ v', (k, v') ∉ contents (S (S h)) t) by (intros v' Hin%ds_contents; by apply (Hno v')).
    intros [[| k' v' | k' v' | k' v' | k' v' | k' v'] | kv] s2 Hr2; try done; destruct Hr2 as (-> & -> & Hr2); by apply runs_ret.
Qed.

End Round.

Lemma many_turns n : (N < n)%nat → (1 < n)%nat.
Proof. change N with 14%nat. lia. Qed.

(** [InternalNode::insert], given the insertion into the children. *)
Lemma internal_insert_spec n d child_insert s A B h (t : shape K V (S (S h))) lo hi k v :
  (∀ s A B (u : shape K V (S h)) lo hi, ctx s A B (S h) u lo hi → above lo k → upto k hi →
    runs (child_insert (nid u) k v) s (insert_post s A B h u lo hi k v)) →
  ctx s A B (S (S h)) t lo hi → above lo k → upto k hi → (N < n)%nat → (h < d)%nat →
  runs (internal_insert n (node_calls n d) child_insert (nid t) k v) s (insert_post s A B (S h) t lo hi k v).
Proof.
  intros Hchild Hctx Hlo Hup Hn Hd. unfold internal_insert. apply insert_rounds; [| done | exact (many_turns n Hn)]. clear s Hctx. intros s u Hid Hctx. rewrite <-Hid. cbn [fst snd].
  destruct (descend [] [] s (S h) u lo hi k) as (nd & pre & x & post & lo' & Hde); [apply Hctx | apply Hctx | done | done |].
  assert (Hround : ∀ r s1, insert_post s (A ++ slots_leafs (S h) pre) (slots_leafs (S h) post ++ B) h x.2 lo' (slot_hi x hi) k v r s1 → _) by
    (intros r s1; exact (internal_inserted_round n d s A B h u lo hi k v Hctx Hn Hd nd pre x post lo' s1 r Hde)).
  pose proof (ctx_child _ _ _ _ _ _ _ _ _ _ _ Hctx (ds_slots _ _ _ _ _ _ _ _ _ _ _ _ _ Hde) (ds_ok _ _ _ _ _ _ _ _ _ _ _ _ _ Hde)) as Hcx.
  pose proof (Hchild _ _ _ _ _ _ Hcx (ds_above _ _ _ _ _ _ _ _ _ _ _ _ _ Hde) (ds_upto _ _ _ _ _ _ _ _ _ _ _ _ _ Hde)) as Hc.
  eapply runs_descend; [exact Hde |]. destruct Hde. destruct (slot_key x) as [k' |]; cbn [fmap option_fmap option_map fst snd].
  - eapply runs_cell_load; [exact ds_cell |]. cbn [fst]. eapply runs_validate; [exact ds_node |]. eapply runs_call; [exact Hc |]. exact Hround.
  - destruct ds_unbounded as [-> Hu]; [done |]. eapply runs_unbounded_child; [exact ds_node |]. rewrite Hu.
    eapply runs_cell_load; [exact ds_cell |]. cbn [fst]. apply runs_dassert; [done |]. eapply runs_validate; [exact ds_node |]. cbn [negb]. eapply runs_call; [exact Hc |]. exact Hround.
Qed.

(** An insertion into a subtree keeps it in order, and adds the entry unless the key is there. *)
Lemma node_insert_spec n d s A B h (t : shape K V (S h)) lo hi k v :
  ctx s A B (S h) t lo hi → above lo k → upto k hi → (N < n)%nat → (h < d)%nat →
  runs (node_insert n d (nid t) k v) s (insert_post s A B h t lo hi k v).
Proof.
  intros Hctx Hlo Hup Hn. revert d s A B t lo hi Hctx Hlo Hup. induction h as [| h IH]; intros [| d] s A B t lo hi Hctx Hlo Hup Hd; [lia | | lia |].
  - destruct (rep_node _ _ _ _ _ (cx_rep _ _ _ _ _ _ _ Hctx)) as ([nd | nd] & Hnd & Hk); [done |]. eapply runs_node_at; [exact Hnd |]. apply leaf_node_insert_spec; try done. exact (many_turns n Hn).
  - destruct (rep_node _ _ _ _ _ (cx_rep _ _ _ _ _ _ _ Hctx)) as ([nd | nd] & Hnd & Hk); [| done]. eapply runs_node_at; [exact Hnd |].
    apply internal_insert_spec; try done; [| lia]. intros s' A' B' u lo' hi' Hctx' Hlo' Hup'. apply IH; try done. lia.
Qed.
End SplitChild.
