(* ===== verification/TreeRoot.v ===== *)
(** * The root of a tree

    A split of the root adds a level; the first insertion makes a leaf node.  [holds] says
    that a tree has the entries of a sorted list, [tree_insert_spec] that an insertion is the
    insertion into the list. *)
From stdpp Require Import sorting.
From S2P Require Import Prelude Atomic Ord Tag AtomicShared LinkedList Dimension Leaf LeafInv LeafState LeafSeq LeafScan LeafProps TreeStore TreeLeafNode TreeNode TreeIndex TreeRep TreeSearch TreeCtx TreeCommit TreeInsertLeaf TreeSplitNode TreeInsert.

#[local] Existing Instance Tag.eq_dec.

Section Root.
Context {K V : Type} `{KeyOrd K}.

Implicit Types (s : tree K V) (l i c : nat) (p : Ptr) (k : K) (v : V) (E : list (K * V)).

(** ** Instructions on the root *)

Section Rules.
Context {R : Type} (Q : R → tree K V → Prop).

Lemma runs_root_load (k : Ptr → prog (tree K V) R) s : runs (k (root s)) s Q → runs (let! r := at_root shared_load in k r) s Q.
Proof. by apply (runs_shared_load (λ s, Some (root s)) (set_root (K := K) (V := V))). Qed.

Lemma runs_root_clone o (k : Ptr → prog (tree K V) R) s : root s = (Some o, Tag.None) → runs (k (Some o, Tag.None)) s Q →
  runs (let! r := at_root shared_clone in k r) s Q.
Proof. intros Hr Hk. eapply (runs_shared_clone (λ s, Some (root s)) (set_root (K := K) (V := V))); [done |]. by rewrite Hr. Qed.

Lemma runs_root_swap p (k : Ptr → prog (tree K V) R) s : runs (k (root s)) (set_root p s) Q → runs (let! r := at_root (shared_swap p) in k r) s Q.
Proof. by apply (runs_shared_swap (λ s, Some (root s)) (set_root (K := K) (V := V))). Qed.

Lemma runs_root_cas p (k : option nat * Ptr + option nat * Ptr → prog (tree K V) R) s :
  runs (k (inl ((root s).1, p))) (set_root p s) Q → runs (let! r := at_root (shared_compare_exchange (root s) p) in k r) s Q.
Proof. by apply (runs_shared_cas (λ s, Some (root s)) (set_root (K := K) (V := V))). Qed.
End Rules.

Lemma view_root p s a : view (set_root p s) a = view s a.
Proof. by destruct a. Qed.

Lemma ctx_root s p A B h (t : shape K V h) lo hi : ctx s A B h t lo hi → ctx (set_root p s) A B h t lo hi.
Proof.
  intros [Hr Hb Hn Hc]. constructor; [| done | done |].
  - eapply rep_frame; [exact Hr |]. intros a _. apply view_root.
  - eapply chain_frame; [exact Hc | by intros l _ |]. intros l Hl. rewrite view_root. by apply Hc.
Qed.

Lemma ctx_intro s h (t : shape K V h) lo hi : rep [] [] s h t → bounded h t lo hi → NoDup (foot h t) → chained s (leafs h t) → ctx s [] [] h t lo hi.
Proof.
  intros Hr Hb Hn Hc. constructor; [done | done | done |]. cbn [app]. rewrite app_nil_r. constructor; [by apply leafs_NoDup | done |].
  intros l Hl. by eapply rep_leaf.
Qed.

(** ** [split_root] *)

Lemma split_root_spec n d s1 s h (t : shape K V (S h)) k v (P : pend (K := K) (V := V) h) :
  full s s1 [] [] h t None None k P → root s1 = (Some (nid t), Tag.None) → (N < n)%nat → (h < d)%nat →
  runs (split_root n d k v) s1 (λ r s', r = (k, v) ∧ ∃ t' : shape K V (S (S h)), root s' = (Some (nid t'), Tag.None) ∧
    ctx s' [] [] (S (S h)) t' None None ∧ contents (S (S h)) t' ≡ₚ contents (S h) t ∧ room (S (S h)) t' k ∧ length (leaves s') = length (leaves s1)).
Proof.
  intros Hfull Hroot Hn Hd. pose proof (fl_pending _ _ _ _ _ _ _ _ _ _ Hfull) as HP. unfold split_root.
  eapply runs_new_internal_node. intros u r s2 s3 Hau Har.
  pose proof (laid_allocates _ _ _ _ _ _ _ (laid_refl [] s1) Hau ltac:(done)) as HL2. pose proof (laid_allocates _ _ _ _ _ _ _ HL2 Har ltac:(done)) as HL3.
  cbn [app] in HL3. clear HL2.
  assert (Hr3 : view s3 (ANode r) = Some (VNode (InternalN (fresh_internal_node u)))) by (rewrite (al_view _ _ _ _ Har); by rewrite decide_True).
  assert (Hu3 : view s3 (ACell u) = Some (VCell ptr_null)) by (rewrite (al_view _ _ _ _ Har), decide_False by done; rewrite (al_view _ _ _ _ Hau); by rewrite decide_True).
  eapply runs_root_clone; [by rewrite (ld_root _ _ _ _ HL3) |]. eapply runs_unbounded_child; [exact Hr3 |]. cbn [unbounded_of node_unbounded_child fresh_internal_node].
  eapply runs_cell_swap; [exact Hu3 |]. intros s4 Hw. pose proof (laid_writes _ _ _ _ _ _ _ HL3 Hw ltac:(right; by left)) as HL.
  eapply runs_root_load. rewrite (ld_root _ _ _ _ HL), Hroot.
  assert (Hfresh : ∀ a, a = ANode r ∨ a = ACell u → a ∉ pend_foot (nid t) P).
  { intros a Ha Hp. pose proof (pend_live _ _ _ _ _ _ _ _ _ HP Hp) as Hl. rewrite (ld_fresh _ _ _ _ HL) in Hl; [by destruct Hl |]. destruct Ha as [-> | ->]; [right; by left | by left]. }
  assert (HP4 : pending s4 [] [] h (nid t) P None None).
  { eapply pending_frame; [exact HP | | by intros l _; apply HL |].
    - intros a Ha. apply (ld_view _ _ _ _ HL); [apply not_elem_of_nil |]. intros [-> | ->%list_elem_of_singleton]%elem_of_cons; by eapply Hfresh; [| exact Ha]; auto.
    - intros l Hl. apply (ld_view _ _ _ _ HL); [apply not_elem_of_nil |]. by intros [? | ?%list_elem_of_singleton]%elem_of_cons. }
  assert (Hr4 : view s4 (ANode r) = Some (VNode (InternalN (fresh_internal_node u)))) by (rewrite (w_view _ _ _ _ Hw), decide_False; done).
  pose proof (writes_there _ _ _ _ Hw) as Hu4.
  apply runs_bind. eapply (split_node_head s4 [] [] h (nid t) P None None None u r (fresh_internal_node u) [] HP4 Hr4 eq_refl eq_refl Hu4 Hfresh).
  - apply holding_new.
  - intros km c' _ _. apply not_elem_of_nil.
  - done.
  - by eexists.
  - intros s5 (km & t1 & t2 & sp & _ & _ & [Hx | Hx]); vm_compute in Hx; done.
  - intros s5 (km & t1 & t2 & sp & c' & ch & Hsw & Hj & Hwch & Hfch & Hpch & Hf' & Hvc' & Hvc & Hcf).
    pose proof Hsw as [(s' & Hhv) (Ho & Hsl & Hsh) Hlkd Hca Hlow Hhigh Hc Hst]. apply runs_ret.
    eapply runs_root_swap. rewrite (st_root _ _ _ _ Hst), (w_root _ _ _ _ Hw), (ld_root _ _ _ _ HL3), Hroot. cbn [fst].
    set (s6 := set_root _ s5). assert (Hv6 : ∀ a, view s6 a = view s5 a) by apply view_root.
    assert (Hout : ANode r ∉ map ANode (nid t :: pd_path P) ++ foot (S h) t1 ++ foot (S h) t2) by (eapply swapped_outside; [exact Hsw | by rewrite Hr4 | apply Hfresh; by left]).
    assert (Hun : ACell u ∉ map ANode (nid t :: pd_path P) ++ foot (S h) t1 ++ foot (S h) t2) by (eapply swapped_outside; [exact Hsw | by rewrite Hu4 | apply Hfresh; by right]).
    eapply runs_call; [eapply (finish_split_spec s6 h (nid t) r (pd_path P) sp t1 t2 (pd_left P) (pd_right P)); [rewrite Hv6; exact Hj | done | | | | | apply Hhv | exact Hout | |] |].
    + eapply committable_frame; [exact Hca |]. intros a _. apply Hv6.
    + rewrite Ho. eapply chain_frame; [cbn [app] in Hc; rewrite app_nil_r in Hc; exact Hc | by intros l _ |]. intros l Hl. rewrite Hv6. apply Hc.
      cbn [app]. by rewrite app_nil_r.
    + rewrite Hsl, Hsh. eapply rep_frame; [exact Hlow |]. intros a _. apply Hv6.
    + rewrite Hsl, Hsh. eapply rep_frame; [exact Hhigh |]. intros a _. apply Hv6.
    + intros a. by eapply swapped_new.
    + by rewrite (pn_depth _ _ _ _ _ _ _ _ HP4).
    + intros r7 s7 [Hj7 Hlow7 Hhigh7 Hl7 Hst7]. apply runs_ret. split; [done |].
      set (ys := [(Some km, c', t1); (None, u, t2)] : list (slot K (shape K V (S h)))).
      assert (Hcell : ∀ b p, b = c' ∨ b = u → view s5 (ACell b) = Some (VCell p) → view s7 (ACell b) = Some (VCell p)).
      { intros b p Hb Hv. rewrite (st_view _ _ _ _ Hst7), Hv6; [done | by rewrite Hv6, Hv |]. intros [? | Hin]%elem_of_cons; [done |].
        destruct Hb as [-> | ->]; [| done]. apply elem_of_app in Hin as [(? & ? & ?)%list_elem_of_fmap | Hin]; [done | by apply Hcf]. }
      assert (Hok : slots_ok (bounded (S h)) ys None None) by (do 3 (split; [first [done | apply Hhv] |]); split; [done | apply Hhv]).
      exists (node (h := S h) r ys). split; [by rewrite (st_root _ _ _ _ Hst7) |]. split; [apply ctx_intro | split; [| split]].
      * split; [eexists; split; [exact Hj7 |] |].
        -- constructor; [done | done | done |]. constructor; [| done]. by eapply (holding_inserted (bounded (S h)) ch [] km c' t1 (None, u, t2) (None, u, t2) []).
        -- constructor; [| constructor; [| done]]; (split; [| done]); apply Hcell; by auto.
      * exact Hok.
      * pose proof (hv_nodup _ _ _ _ _ _ _ _ _ _ _ _ _ Hhv) as Hnd. apply NoDup_app in Hnd as (_ & _ & Hnd). rewrite elem_of_app in Hcf, Hout, Hun.
        change (NoDup (ANode r :: ACell c' :: foot (S h) t1 ++ ACell u :: foot (S h) t2 ++ [])). rewrite app_nil_r, <-Permutation_middle.
        assert (Hcu : c' ≠ u) by congruence.
        repeat (apply NoDup_cons; split; [rewrite ?elem_of_cons, elem_of_app in *; intuition congruence |]). done.
      * change (leafs (S (S h)) (node r ys)) with (leafs (S h) t1 ++ leafs (S h) t2 ++ []). rewrite app_nil_r, (hv_leafs _ _ _ _ _ _ _ _ _ _ _ _ _ Hhv). exact Hl7.
      * change (contents (S (S h)) (node r ys)) with (contents (S h) t1 ++ contents (S h) t2 ++ []). rewrite app_nil_r, (hv_contents _ _ _ _ _ _ _ _ _ _ _ _ _ Hhv).
        apply (fl_contents _ _ _ _ _ _ _ _ _ _ Hfull).
      * pose proof (hv_room _ _ _ _ _ _ _ _ _ _ _ _ _ Hhv k (fl_room _ _ _ _ _ _ _ _ _ _ Hfull)) as Hrm.
        exists (if decide (cmp km k = Lt) then (None, u, t2) else (Some km, c', t1)). split; [cbn; by destruct (decide _) | by destruct (decide _)].
      * pose proof (st_leaves _ _ _ _ Hst7). pose proof (st_leaves _ _ _ _ Hst). change (length (leaves s6)) with (length (leaves s5)) in *.
        rewrite (ld_leaves _ _ _ _ HL) in *. lia.
Qed.

(** ** The first leaf *)

Lemma first_leaf_ctx s r u l : view s (ANode r) = Some (VNode (LeafN (fresh_leaf_node u))) → view s (ACell u) = Some (VCell (Some l, Tag.None)) →
  view s (ALeaf l) = Some (VLeaf new) → link_ref l s = Some ptr_null → ctx s [] [] 1 (node (h := 0) r [(None, u, SLeaf l true [])]) None None.
Proof.
  intros Hr Hu Hl Hk. apply ctx_intro.
  - split.
    + eexists. split; [exact Hr |]. constructor; [done | done | done |]. constructor; [apply holding_new | done].
    + constructor; [| done]. split; [exact Hu |]. exists new. split; [exact Hl |]. rewrite bool_decide_false by apply not_elem_of_nil. apply new_leaf_rep.
  - split; [done |]. split; constructor.
  - cbn. repeat (apply NoDup_cons; split; [rewrite ?elem_of_cons, elem_of_nil; intuition congruence |]). constructor.
  - cbn. split; [| done]. exists ptr_null, []. split; [done |]. split; [by left | apply leads_end].
Qed.

Lemma leaf_node_insert_first n s r u k v :
  view s (ANode r) = Some (VNode (LeafN (fresh_leaf_node u))) → view s (ACell u) = Some (VCell ptr_null) → (1 < n)%nat →
  runs (leaf_node_insert n r k v) s (λ res s', res = inl Success ∧ ∃ t : shape K V 1, nid t = r ∧ root s' = root s ∧
    ctx s' [] [] 1 t None None ∧ contents 1 t ≡ₚ [(k, v)] ∧ (length (leaves s') ≤ length (leaves s) + 3)%nat).
Proof.
  intros Hr Hu Hn. unfold leaf_node_insert. apply runs_loop_once; [lia |]. cbn [fst snd].
  set (x0 := (None, u, SLeaf 0 true []) : slot K (shape K V 0)).
  eapply (runs_find _ (λ _ _ _, True) r _ [] x0 [] None None None); [exact Hr | constructor; [apply holding_new | done] | done | done | done | done |].
  cbn [slot_key x0 fst fmap option_fmap option_map snd]. eapply runs_unbounded_child; [exact Hr |]. cbn [unbounded_of leaf_unbounded_child fresh_leaf_node].
  eapply runs_cell_load; [exact Hu |]. cbn [fst ptr_null].
  apply runs_bind. eapply runs_alloc_leaf. intros l s1 Ha.
  assert (Hu1 : view s1 (ACell u) = Some (VCell ptr_null)) by (rewrite (al_view _ _ _ _ Ha), decide_False; done).
  eapply runs_cell_cas; [exact Hu1 |]. intros s2 Hw. apply runs_ret. cbn [fst snd]. apply runs_dassert; [done |].
  assert (Hr2 : view s2 (ANode r) = Some (VNode (LeafN (fresh_leaf_node u)))) by (rewrite (w_view _ _ _ _ Hw), decide_False by done; rewrite (al_view _ _ _ _ Ha), decide_False; done).
  set (t := node (h := 0) r [(None, u, SLeaf l true [])] : shape K V 1).
  assert (Hctx : ctx s2 [] [] 1 t None None).
  { apply first_leaf_ctx; [exact Hr2 | by eapply writes_there | rewrite (w_view _ _ _ _ Hw), decide_False by done; rewrite (al_view _ _ _ _ Ha); by rewrite decide_True |].
    rewrite (w_link _ _ _ _ Hw), (al_link _ _ _ _ Ha). by rewrite decide_True. }
  eapply runs_validate; [exact Hr2 |]. cbn [negb].
  destruct (descend [] [] s2 0 t None None k) as (nd & pre & x & post & lo' & Hd); [apply Hctx | apply Hctx | done | done |].
  pose proof (leaf_inserted_round n s2 [] [] t None None k v Hctx Hn nd pre x post lo' Hd) as Hround.
  assert (Heq : ([(None, u, SLeaf l true [])] : list (slot K (shape K V 0))) = pre ++ x :: post) by exact (ds_slots _ _ _ _ _ _ _ _ _ _ _ _ _ Hd).
  destruct pre as [| ? pre]; [| by destruct pre]. injection Heq as <- <-. cbn [slot_key slot_cell fst snd sl_id sid] in Hround.
  eapply runs_mono; [| exact Hround]. assert (Hroom : room 1 t k) by (exists ((None, u, SLeaf l true []) : slot K (shape K V 0)); done).
  intros [kv | res] s3; [by intros (_ & Hnr & _) |]. intros Hr3. exists res. split; [done |].
  destruct res as [[| k' v' | k' v' | k' v' | k' v' | k' v'] | kv]; try done.
  - destruct Hr3 as (w & m & [Hc Hid Hst _] & Hm & _ & Hp & _). split; [done |]. exists w. split; [exact Hid |]. split; [rewrite (st_root _ _ _ _ Hst), (w_root _ _ _ _ Hw); apply Ha |].
    split; [done |]. split; [done |]. pose proof (st_leaves _ _ _ _ Hst). rewrite (w_leaves _ _ _ _ Hw), (al_leaves _ _ _ _ Ha) in *. lia.
  - destruct Hr3 as (_ & _ & w & _ & _ & v2 & Hin). by apply not_elem_of_nil in Hin.
  - by destruct Hr3 as (_ & _ & Hnr & _).
Qed.

(** ** A sorted map *)

Fixpoint put k v E : list (K * V) :=
  match E with
  | [] => [(k, v)]
  | e :: E => match cmp k e.1 with Lt => (k, v) :: e :: E | Eq => e :: E | Gt => e :: put k v E end
  end.

Fixpoint get k E : option V :=
  match E with
  | [] => None
  | e :: E => match cmp k e.1 with Eq => Some e.2 | _ => get k E end
  end.

Lemma get_None k E : get k E = None ↔ ∀ v, (k, v) ∉ E.
Proof.
  induction E as [| [k' v'] E IH]; [split; [intros _ v; apply not_elem_of_nil | done] |]. cbn. destruct (cmp k k') eqn:Hc.
  - apply cmp_eq in Hc as <-. split; [done |]. intros Hn. destruct (Hn v'). by left.
  - rewrite IH. split; intros Hn v Hin; [apply elem_of_cons in Hin as [[= <- <-] | Hin]; [by rewrite cmp_refl in Hc | by apply (Hn v)] | apply (Hn v); by right].
  - rewrite IH. split; intros Hn v Hin; [apply elem_of_cons in Hin as [[= <- <-] | Hin]; [by rewrite cmp_refl in Hc | by apply (Hn v)] | apply (Hn v); by right].
Qed.

Lemma get_elem k v E : get k E = Some v → (k, v) ∈ E.
Proof.
  induction E as [| [k' v'] E IH]; [done |]. cbn. destruct (cmp k k') eqn:Hc.
  - apply cmp_eq in Hc as <-. intros [= <-]. by left.
  - intros Hg. right. by apply IH.
  - intros Hg. right. by apply IH.
Qed.

Lemma get_Some k v E : StronglySorted before E → get k E = Some v ↔ (k, v) ∈ E.
Proof.
  intros Hs. split; [apply get_elem |]. induction E as [| [k' v'] E IH]; [by intros ?%not_elem_of_nil |].
  apply StronglySorted_inv in Hs as [Hs Hf]. rewrite Forall_forall in Hf. cbn. intros [[= <- <-] | Hin]%elem_of_cons; [by rewrite cmp_refl |].
  pose proof (Hf _ Hin) as Hlt. unfold before in Hlt. cbn in Hlt. rewrite (cmp_opp k' k), Hlt. cbn. by apply IH.
Qed.

Lemma put_perm k v E : get k E = None → put k v E ≡ₚ (k, v) :: E.
Proof.
  induction E as [| [k' v'] E IH]; [done |]. cbn. destruct (cmp k k'); [done | done |]. intros Hg. rewrite IH by done. constructor.
Qed.

Lemma put_same k v v' E : StronglySorted before E → get k E = Some v' → put k v E = E.
Proof.
  induction E as [| [k' v2] E IH]; [done |]. intros [Hs Hf]%StronglySorted_inv. cbn. destruct (cmp k k') eqn:Hc; [done | |].
  - intros Hin%get_elem. rewrite Forall_forall in Hf. pose proof (Hf _ Hin) as Hlt. unfold before in Hlt. cbn in Hlt. by destruct (cmp_lt_asym _ _ Hlt).
  - intros Hg. f_equal. by apply IH.
Qed.

Lemma put_sorted k v E : StronglySorted before E → StronglySorted before (put k v E).
Proof.
  induction E as [| [k' v'] E IH]; intros Hs; [repeat constructor |]. pose proof Hs as Hs'. apply StronglySorted_inv in Hs as [Hs Hf]. cbn. destruct (cmp k k') eqn:Hc; [done | |].
  - constructor; [done |]. constructor; [done |]. eapply Forall_impl; [exact Hf |]. intros e He. cbn in *. by eapply cmp_trans.
  - constructor; [by apply IH |]. destruct (get k E) as [v2 |] eqn:Hg; [by rewrite (put_same _ _ _ _ Hs Hg) |]. rewrite (put_perm _ _ _ Hg). constructor; [| done].
    unfold before. cbn. by rewrite (cmp_opp k k'), Hc.
Qed.

(** ** The tree *)

(** A tree of the depth [D] with the entries [E], in order. *)
Inductive holds s : nat → list (K * V) → Prop :=
  | holds_empty : root s = ptr_null → holds s 0 []
  | holds_tree h (t : shape K V (S h)) : root s = (Some (nid t), Tag.None) → ctx s [] [] (S h) t None None → holds s (S h) (contents (S h) t).

Lemma ctx_sorted s A B h (t : shape K V h) lo hi : ctx s A B h t lo hi → StronglySorted before (contents h t).
Proof. intros [_ Hb _ _]. by apply (bounded_good _ _ _ _ Hb). Qed.

Lemma holds_sorted s D E : holds s D E → StronglySorted before E.
Proof. intros [Hr | h t Hr Hc]; [constructor | by eapply ctx_sorted]. Qed.

Lemma holds_perm s h (t : shape K V (S h)) E : root s = (Some (nid t), Tag.None) → ctx s [] [] (S h) t None None →
  StronglySorted before E → contents (S h) t ≡ₚ E → holds s (S h) E.
Proof. intros Hr Hc Hs Hp. rewrite <-(sorted_unique _ _ (ctx_sorted _ _ _ _ _ _ _ Hc) Hs Hp). by constructor. Qed.

(** The attempts of an insertion: how many more there can be. *)
Inductive attempt s0 D E k : nat → tree K V → Prop :=
  | attempt_empty s : root s = ptr_null → D = O → E = [] → length (leaves s) = length (leaves s0) → attempt s0 D E k 1 s
  | attempt_first s r u : root s = (Some r, Tag.None) → D = O → E = [] → length (leaves s) = length (leaves s0) →
      view s (ANode r) = Some (VNode (LeafN (fresh_leaf_node u))) → view s (ACell u) = Some (VCell ptr_null) → attempt s0 D E k 0 s
  | attempt_tree s h (t : shape K V (S h)) m : root s = (Some (nid t), Tag.None) → ctx s [] [] (S h) t None None → contents (S h) t ≡ₚ E →
      (D ≤ S h ≤ D + 1 - m)%nat → (m = O → room (S h) t k ∧ get k E = None) → (length (leaves s) + 3 * m ≤ length (leaves s0) + 3)%nat → (m ≤ 1)%nat → attempt s0 D E k m s.

Lemma tree_insert_spec n d s D E k v : holds s D E → (N < n)%nat → (D < d)%nat →
  runs (tree_insert n d k v) s (λ r s', r = match get k E with None => inl () | Some _ => inr (k, v) end ∧
    (∃ D', (D ≤ D' ≤ S D)%nat ∧ holds s' D' (put k v E)) ∧ (length (leaves s') ≤ length (leaves s) + 6)%nat).
Proof.
  intros Hh Hn Hd. pose proof (holds_sorted _ _ _ Hh) as Hs. unfold tree_insert.
  eapply (runs_loop_down (λ m b s1, b = (None, (k, v)) ∧ attempt s D E k m s1) n 1); [| exact (many_turns n Hn) |].
  { split; [done |]. destruct Hh as [Hr | h t Hr Hc]; [by constructor |]. eapply (attempt_tree s (S h) _ k s h t 1); try done; lia. }
  clear Hh. intros m b s1 [-> Ha]. destruct Ha as [s1 Hr HD HE Hl | s1 r u Hr HD HE Hl Hvr Hvu | s1 h t m Hr Hc Hp HDm Hm Hl Hm1].
  - subst D E. eapply runs_root_load. rewrite Hr. cbn [fst ptr_null]. apply runs_ret. eapply runs_new_leaf_node. intros u r s2 s3 Hau Har.
    assert (Hr3 : root s3 = ptr_null) by (rewrite (al_root _ _ _ _ Har), (al_root _ _ _ _ Hau); exact Hr).
    rewrite <-Hr3. apply runs_root_cas, runs_ret. exists O. split; [lia |]. split; [done |]. apply (attempt_first _ _ _ _ _ r u); try done.
    + cbn. rewrite (al_leaves _ _ _ _ Har), (al_leaves _ _ _ _ Hau). lia.
    + rewrite view_root, (al_view _ _ _ _ Har). by rewrite decide_True.
    + rewrite view_root, (al_view _ _ _ _ Har), decide_False by done. rewrite (al_view _ _ _ _ Hau). by rewrite decide_True.
  - subst D E. eapply runs_root_load. rewrite Hr. cbn [fst]. destruct d as [| d]; [lia |]. apply runs_bind.
    eapply runs_call; [eapply runs_node_at; [exact Hvr |]; eapply leaf_node_insert_first; [exact Hvr | exact Hvu | exact (many_turns n Hn)] |].
    intros r2 s2 (-> & t & Hid & Hr2 & Hc & Hp & Hl2). do 2 apply runs_ret. split; [done |]. split; [| lia].
    exists 1%nat. split; [lia |]. eapply holds_perm; [by rewrite Hr2, Hr, Hid | exact Hc | repeat constructor | exact Hp].
  - eapply runs_root_load. rewrite Hr. cbn [fst]. apply runs_bind.
    eapply runs_call; [apply (node_insert_spec n d s1 [] [] h t None None k v Hc I I Hn); lia |].
    intros [[| k' v' | k' v' | k' v' | k' v' | k' v'] | kv] s2 Hr2; try done.
    + destruct Hr2 as (u & m' & [Hc2 Hid Hst _] & Hm' & _ & Hp2 & Hno). do 2 apply runs_ret. cbn in Hid.
      assert (Hg : get k E = None) by (apply get_None; intros v'; rewrite <-Hp; apply Hno). rewrite Hg. split; [done |].
      pose proof (st_leaves _ _ _ _ Hst). split; [| lia]. exists (S h). split; [lia |].
      eapply (holds_perm s2 h u); [by rewrite (st_root _ _ _ _ Hst), Hr, Hid | exact Hc2 | by apply put_sorted | by rewrite Hp2, (put_perm _ _ _ Hg), Hp].
    + destruct Hr2 as (-> & -> & u & [Hc2 Hid Hst _] & Hp2 & v2 & Hin). do 2 apply runs_ret. cbn in Hid. rewrite Hp in Hin. apply (get_Some _ _ _ Hs) in Hin. rewrite Hin.
      split; [done |]. pose proof (st_leaves _ _ _ _ Hst). split; [| lia]. exists (S h). split; [lia |]. rewrite (put_same _ _ _ _ Hs Hin).
      eapply (holds_perm s2 h u); [by rewrite (st_root _ _ _ _ Hst), Hr, Hid | exact Hc2 | done | by rewrite Hp2].
    + destruct Hr2 as (-> & -> & Hnr & Hno & P & HP). destruct m as [| m]; [by destruct (Hm eq_refl) as [Hroom _] |].
      pose proof (fl_step _ _ _ _ _ _ _ _ _ _ HP) as Hst. pose proof (st_leaves _ _ _ _ Hst).
      eapply runs_call; [eapply (split_root_spec n d s2 s1 h t k v P HP); [by rewrite (st_root _ _ _ _ Hst) | exact Hn | lia] |].
      intros kv s3 (-> & t' & Hr3 & Hc3 & Hp3 & Hroom & Hl3). do 2 apply runs_ret. exists O. split; [lia |]. split; [done |].
      eapply (attempt_tree _ _ _ _ s3 (S h) t' 0); [done | done | by rewrite Hp3, Hp | lia | | lia | lia].
      intros _. split; [exact Hroom |]. apply get_None. intros v'. rewrite <-Hp. apply Hno.
Qed.
End Root.
