(* ===== verification/TreeIter.v ===== *)
(** * Reading a tree

    [Iter::next] steps through the sorted list that a tree holds, from leaf to leaf; it may
    link around deleted leaves on the way ([tidied]), and changes nothing else. *)
From stdpp Require Import sorting.
From S2P Require Import Prelude Atomic Ord Tag AtomicShared LinkedList Dimension Leaf LeafInv LeafState LeafSeq LeafScan LeafProps TreeStore TreeLeafNode TreeNode TreeIndex TreeRep TreeSearch TreeCtx TreeCommit TreeInsertLeaf TreeSplitNode TreeInsert TreeRoot.

#[local] Existing Instance Tag.eq_dec.

Section Iter.
Context {K V : Type} `{KeyOrd K} (n d : nat).

Implicit Types (s : tree K V) (l : nat) (k : K) (v : V) (E : list (K * V)) (sc : TreeScanner).

Lemma tidied_ctx s s' A B h (t : shape K V h) lo hi : tidied s s' → ctx s A B h t lo hi → ctx s' A B h t lo hi.
Proof. intros Ht [Hr Hb Hn Hc]. constructor; [by eapply tidied_rep | done | done | by eapply tidied_chain]. Qed.

Lemma tidied_holds s s' D E : tidied s s' → holds s D E → holds s' D E.
Proof.
  intros Ht [Hr | h t Hr Hc].
  - constructor. by rewrite (tidied_root _ _ Ht).
  - constructor; [by rewrite (tidied_root _ _ Ht) | by eapply tidied_ctx].
Qed.

(** A scanner at the entry [x]; the entries [rem] follow. *)
Definition reading s sc (x : option (K * V)) rem : Prop :=
  ∃ C1 l C2 rem1 Es, chain s (C1 ++ l :: C2) ∧ listed s C2 Es ∧ scans s sc l x rem1 ∧ rem = rem1 ++ concat Es.

Definition read s E (r : option (K * V) * option TreeScanner) : Prop :=
  match E with
  | [] => r = (None, None)
  | e :: E => r.1 = Some e ∧ ∃ sc, r.2 = Some sc ∧ reading s sc (Some e) E
  end.

Lemma landed_read s C1 C2 Es r : chain s (C1 ++ C2) → listed s C2 Es → landed s C2 Es r →
  match r with None => concat Es = [] | Some sc => ∃ x rem, concat Es = x :: rem ∧ reading s sc (Some x) rem end.
Proof.
  intros Hc Hl Hr. destruct Hr as [C2 Es Hall | C3 l C4 Es1 x rem Es2 sc Hlen Hall Hsc].
  - clear Hl. induction Es as [| E Es IH]; [done |]. cbn. rewrite (Hall E) by (by left). apply IH. intros E' HE'. apply Hall. by right.
  - exists x, (rem ++ concat Es2). split.
    + rewrite concat_app. clear -Hall. induction Es1 as [| E Es1 IH]; [done |]. cbn. rewrite (Hall E) by (by left). apply IH. intros E' HE'. apply Hall. by right.
    + apply Forall2_app_inv in Hl as [_ Hl]; [| done]. inversion Hl as [| ? ? ? ? _ Hl2]; subst.
      exists (C1 ++ C3), l, C4, rem, Es2. by rewrite <-app_assoc.
Qed.

Lemma reading_next s sc x rem : reading s sc x rem → (∀ a y, x = Some a → y ∈ rem → cmp a.1 y.1 = Lt) → (length (leaves s) < n)%nat →
  runs (let! e := tree_scanner_get sc in
        let! r := tree_scanner_next sc in
        match r.1 with
        | Some result => Ret (Some result, Some r.2)
        | None =>
            let! j := jump n r.2 (fst <$> e) in
            match j with
            | Some new_scanner =>
                let! e := tree_scanner_get new_scanner in
                match e with
                | Some entry => Ret (Some entry, Some new_scanner)
                | None => Ret (None, None)
                end
            | None => Ret (None, None)
            end
        end) s (λ r s', read s' rem r ∧ tidied s s').
Proof.
  intros (C1 & l & C2 & rem1 & Es & Hc & Hl & Hsc & ->) Hx Hn. eapply runs_tree_scanner_get; [exact Hsc |].
  eapply runs_tree_scanner_next; [exact Hsc |]. intros sc' Hsc'. destruct rem1 as [| y rem1]; cbn [head tail fst snd app] in *.
  - eapply (runs_jump n _ sc' l None [] C1 C2 Es); [exact Hsc' | exact Hc | exact Hl | exact Hn | |].
    + intros key E y Hk HE Hy. destruct x as [a |]; [| done]. injection Hk as <-. apply (Hx a); [done |].
      apply list_elem_of_In, in_concat. exists E. by rewrite <-!list_elem_of_In.
    + intros r s' Hr Ht. pose proof (tidied_chain _ _ _ Ht Hc) as Hc'. rewrite (cons_middle l C1 C2), app_assoc in Hc'.
      pose proof (landed_read _ _ _ _ _ Hc' (tidied_listed _ _ _ _ Ht Hl) Hr) as Hd. destruct r as [sc2 |].
      * destruct Hd as (x2 & rem2 & Heq & Hrd). pose proof Hrd as (C3 & l2 & C4 & rem3 & Es2 & _ & _ & Hsc2 & _).
        eapply runs_tree_scanner_get; [exact Hsc2 |]. apply runs_ret. split; [| done]. rewrite Heq. split; [done |]. by exists sc2.
      * apply runs_ret. rewrite Hd. done.
  - apply runs_ret. split; [| apply tidied_refl]. split; [done |]. exists sc'. split; [done |]. by exists C1, l, C2, rem1, Es.
Qed.

(** [Iter::next] *)
Lemma iter_next_start s D E : holds s D E → (D ≤ d)%nat → (length (leaves s) < n)%nat →
  runs (iter_next n d None) s (λ r s', read s' E r ∧ tidied s s').
Proof.
  intros Hh Hd Hn. unfold iter_next. destruct Hh as [Hr | h t Hr Hc].
  - apply runs_bind, runs_root_load. rewrite Hr. cbn [fst ptr_null]. do 2 apply runs_ret. split; [done | apply tidied_refl].
  - apply runs_bind, runs_root_load. rewrite Hr. cbn [fst]. eapply runs_call; [eapply (node_min_spec n ltac:(lia) d); [apply Hc | apply Hc | lia] |].
    intros r s1 [-> (sc & l & L & E & Es & -> & Hl & Hp & Hsc)]. apply runs_ret.
    rewrite <-concat_pieces, Hp. pose proof (cx_chain _ _ _ _ _ _ _ Hc) as Hch. rewrite app_nil_r, Hl in Hch. cbn [app] in Hch.
    apply (reading_next s sc None (E ++ concat Es)); [| done | done]. exists [], l, L, E, Es. split; [exact Hch |]. split; [| done].
    pose proof (rep_listed _ _ _ _ _ (cx_rep _ _ _ _ _ _ _ Hc)) as Hls. rewrite Hl, Hp in Hls. by inversion Hls.
Qed.

Lemma iter_next_read s sc e E : reading s sc (Some e) E → StronglySorted before (e :: E) → (length (leaves s) < n)%nat →
  runs (iter_next n d (Some sc)) s (λ r s', read s' E r ∧ tidied s s').
Proof.
  intros Hr [_ Hs]%StronglySorted_inv Hn. apply runs_bind, runs_ret. rewrite Forall_forall in Hs. apply (reading_next s sc (Some e) E); [done | | done].
  intros a y [= <-] Hy. by apply Hs.
Qed.

(** ** [for entry in tree.iter(&guard)] *)

Fixpoint walk {A R : Type} (f : K * V → A → flow A R) E (a : A) : flow A R :=
  match E with
  | [] => Continue a
  | e :: E => match f e a with Continue a => walk f E a | Break r => Break r end
  end.

Lemma tree_iter_spec {A R : Type} (f : K * V → A → flow A R) a s D E :
  holds s D E → (D ≤ d)%nat → (length (leaves s) < n)%nat → (length E < n)%nat →
  runs (tree_iter n d (λ e a, Ret (f e a)) a) s (λ r s', r = walk f E a ∧ tidied s s').
Proof.
  intros Hh Hd Hn Hl. pose proof (holds_sorted _ _ _ Hh) as Hs. unfold tree_iter.
  eapply (runs_loop_down (λ m b s1, tidied s s1 ∧ ∃ E2, m = length E2 ∧ StronglySorted before E2 ∧ walk f E a = walk f E2 b.2 ∧
    match b.1 with None => E2 = E | Some sc => ∃ e, reading s1 sc (Some e) E2 ∧ StronglySorted before (e :: E2) end) n (length E)); [| exact Hl |].
  { split; [apply tidied_refl |]. by exists E. }
  intros m [o a1] s1 (Ht & E2 & -> & Hs2 & Hw & Ho). cbn [fst snd] in *.
  eapply (runs_call _ _ _ (λ r s2, read s2 E2 r ∧ tidied s1 s2)).
  - destruct o as [sc |]; [destruct Ho as (e & Hr & Hse); eapply iter_next_read; [exact Hr | exact Hse | by rewrite (tidied_leaves _ _ Ht)] |].
    subst E2. eapply iter_next_start; [by eapply tidied_holds | done | by rewrite (tidied_leaves _ _ Ht)].
  - intros [x o2] s2 [Hr Ht2]. destruct E2 as [| e E2]; [injection Hr as -> ->; apply runs_ret; split; [by rewrite Hw | by eapply tidied_trans] |].
    destruct Hr as (Hx & sc2 & Ho2 & Hr). cbn [fst snd] in *. subst x o2. apply runs_bind, runs_ret. cbn [walk] in Hw. destruct (f e a1) as [a2 | r].
    + apply runs_ret. exists (length E2). split; [cbn; lia |]. split; [by eapply tidied_trans |]. exists E2. split; [done |].
      split; [by apply StronglySorted_inv in Hs2 as [? _] |]. split; [exact Hw |]. by exists e.
    + apply runs_ret. split; [by rewrite Hw | by eapply tidied_trans].
Qed.
End Iter.
