(* ===== verification/TreeProps.v ===== *)
(** * A tree index is a sorted map

    Programs on a [TreeIndex], from its creation on: their answers are those of the same
    program on a list of pairs in ascending order, through every split of a leaf, a node and
    the root. *)
From stdpp Require Import sorting.
From S2P Require Import Prelude Atomic Ord Tag AtomicShared LinkedList Dimension Leaf LeafInv LeafState LeafSeq LeafScan LeafProps TreeStore TreeLeafNode TreeNode TreeIndex TreeRep TreeSearch TreeCtx TreeRoot TreeIter.

#[local] Existing Instance Tag.eq_dec.

Local Open Scope Z_scope.

Section Program.
Context {K V : Type} `{KeyOrd K} (n d : nat).

Implicit Types (s : tree K V) (k : K) (v : V) (E : list (K * V)).

(** ** Programs *)

(** [TIter stop] collects the entries that an iterator meets, up to the first one at which
    [stop] says to break. *)
Inductive tree_op : Type :=
  | TInsert (k : K) (v : V)
  | TPeek (k : K)
  | TPeekWith (k : K) (reader : K → V → V)
  | TContains (k : K)
  | TIter (stop : K → V → bool)
  | TLen
  | TIsEmpty
  | TClear.

Inductive tree_res : Type :=
  | XInsert (r : unit + K * V)
  | XValue (r : option V)
  | XEntries (l : list (K * V))
  | XNumber (z : Z)
  | XBool (b : bool)
  | XUnit.

Definition collect (stop : K → V → bool) (e : K * V) (l : list (K * V)) : flow (list (K * V)) (list (K * V)) :=
  if stop e.1 e.2 then Break (l ++ [e]) else Continue (l ++ [e]).

Definition collected (r : flow (list (K * V)) (list (K * V))) : list (K * V) := match r with Continue l | Break l => l end.

Definition tree_call (op : tree_op) : prog (tree K V) tree_res :=
  match op with
  | TInsert k v => let! r := tree_insert n d k v in Ret (XInsert r)
  | TPeek k => let! r := tree_peek n d k in Ret (XValue r)
  | TPeekWith k reader => let! r := tree_peek_with n d k reader in Ret (XValue r)
  | TContains k => let! r := tree_contains n d k in Ret (XBool r)
  | TIter stop => let! r := tree_iter n d (λ e l, Ret (collect stop e l)) [] in Ret (XEntries (collected r))
  | TLen => let! r := tree_len n d in Ret (XNumber r)
  | TIsEmpty => let! r := tree_is_empty n d in Ret (XBool r)
  | TClear => tree_clear ;; Ret XUnit
  end.

Fixpoint tree_program (ops : list tree_op) : prog (tree K V) (list tree_res) :=
  match ops with
  | [] => Ret []
  | op :: ops => let! r := tree_call op in let! rs := tree_program ops in Ret (r :: rs)
  end.

(** ** The same program on a sorted list *)

(** The entries up to the first one at which [stop] holds. *)
Fixpoint upto_stop (stop : K → V → bool) E : list (K * V) :=
  match E with
  | [] => []
  | e :: E => if stop e.1 e.2 then [e] else e :: upto_stop stop E
  end.

Definition tree_effect (op : tree_op) E : tree_res * list (K * V) :=
  match op with
  | TInsert k v => (XInsert (match get k E with None => inl () | Some _ => inr (k, v) end), put k v E)
  | TPeek k => (XValue (get k E), E)
  | TPeekWith k reader => (XValue (reader k <$> get k E), E)
  | TContains k => (XBool (bool_decide (is_Some (get k E))), E)
  | TIter stop => (XEntries (upto_stop stop E), E)
  | TLen => (XNumber (Z.of_nat (length E)), E)
  | TIsEmpty => (XBool (match E with [] => true | _ => false end), E)
  | TClear => (XUnit, [])
  end.

Fixpoint tree_effects (ops : list tree_op) E : list tree_res * list (K * V) :=
  match ops with
  | [] => ([], E)
  | op :: ops => let x := tree_effect op E in let r := tree_effects ops x.2 in (x.1 :: r.1, r.2)
  end.

(** ** Queries *)

Lemma found_get k E E' r : StronglySorted before E → E' = E → found k E' r → r = get k E.
Proof.
  intros Hs -> Hf. unfold found in Hf. destruct r as [v |].
  - symmetry. by apply (get_Some _ _ _ Hs).
  - symmetry. by apply get_None.
Qed.

Lemma tree_peek_spec s D E k : holds s D E → (D ≤ d)%nat → (0 < n)%nat → runs (tree_peek n d k) s (λ r s', s' = s ∧ r = get k E).
Proof.
  intros Hh Hd Hn. pose proof (holds_sorted _ _ _ Hh) as Hs. unfold tree_peek. apply runs_root_load. destruct Hh as [Hr | h t Hr Hc]; rewrite Hr; cbn [fst ptr_null].
  - by apply runs_ret.
  - eapply runs_mono; [| eapply (node_search_spec n Hn d s h t None None k); [apply Hc | apply Hc | done | done | lia]].
    intros r s' [-> Hf]. split; [done |]. by eapply found_get.
Qed.

Lemma tree_depth_spec s D E : holds s D E → (D ≤ d)%nat → runs (tree_depth d) s (λ r s', s' = s ∧ r = Z.of_nat D).
Proof.
  intros Hh Hd. unfold tree_depth. apply runs_root_load. destruct Hh as [Hr | h t Hr Hc]; rewrite Hr; cbn [fst ptr_null].
  - by apply runs_ret.
  - eapply runs_mono; [| eapply (node_depth_spec 1 ltac:(lia) d); [apply Hc | apply Hc | lia]]. intros r s' [-> ->]. split; [done | lia].
Qed.

Lemma walk_collect stop E l : collected (walk (collect stop) E l) = l ++ upto_stop stop E.
Proof.
  revert l. induction E as [| e E IH]; intros l; cbn; [by rewrite app_nil_r |]. unfold collect at 1. destruct (stop e.1 e.2); [done |].
  by rewrite IH, <-app_assoc.
Qed.

Lemma walk_count E (z : Z) : walk (λ (_ : K * V) count, Continue (R := Empty_set) (count + 1)) E z = Continue (z + Z.of_nat (length E)).
Proof. revert z. induction E as [| e E IH]; intros z; cbn [walk length]; [f_equal; lia |]. rewrite IH. f_equal. lia. Qed.

Lemma tree_peek_with_spec {R : Type} s D E k (reader : K → V → R) : holds s D E → (D ≤ d)%nat → (0 < n)%nat →
  runs (tree_peek_with n d k reader) s (λ r s', s' = s ∧ r = reader k <$> get k E).
Proof. intros Hh Hd Hn. eapply runs_call; [by apply (tree_peek_spec s D E k) |]. intros r s' [-> ->]. by apply runs_ret. Qed.

Lemma tree_contains_spec s D E k : holds s D E → (D ≤ d)%nat → (0 < n)%nat →
  runs (tree_contains n d k) s (λ r s', s' = s ∧ r = bool_decide (is_Some (get k E))).
Proof. intros Hh Hd Hn. eapply runs_call; [by apply (tree_peek_spec s D E k) |]. intros r s' [-> ->]. by apply runs_ret. Qed.

Lemma tree_len_spec s D E : holds s D E → (D ≤ d)%nat → (length (leaves s) < n)%nat → (length E < n)%nat →
  runs (tree_len n d) s (λ r s', r = Z.of_nat (length E) ∧ tidied s s').
Proof.
  intros Hh Hd Hn Hl. eapply runs_call; [by apply (tree_iter_spec n d (λ _ count, Continue (R := Empty_set) (count + 1)) 0 s D E) |].
  intros r s' [-> Ht]. rewrite walk_count. by apply runs_ret.
Qed.

Lemma tree_is_empty_spec s D E : holds s D E → (D ≤ d)%nat → (length (leaves s) < n)%nat → (length E < n)%nat →
  runs (tree_is_empty n d) s (λ r s', r = match E with [] => true | _ => false end ∧ tidied s s').
Proof.
  intros Hh Hd Hn Hl. eapply runs_call; [by apply (tree_iter_spec n d (λ (_ : K * V) (_ : ()), Break ()) () s D E) |].
  intros r s' [-> Ht]. apply runs_ret. split; [by destruct E | done].
Qed.

(** ** One operation *)

(** A tree with the entries [E], after [c] operations. *)
Definition alive (c : nat) E s : Prop :=
  ∃ D, holds s D E ∧ (D ≤ c)%nat ∧ (length (leaves s) ≤ 6 * c)%nat ∧ (length E ≤ c)%nat.

Lemma put_length k v E : (length (put k v E) ≤ S (length E))%nat.
Proof. induction E as [| e E IH]; cbn; [lia |]. destruct (cmp k e.1); cbn; lia. Qed.

Lemma alive_tidied c E s s' : tidied s s' → alive c E s → alive (S c) E s'.
Proof. intros Ht (D & Hh & HD & Hl & HE). exists D. rewrite (tidied_leaves _ _ Ht). split; [by eapply tidied_holds |]. lia. Qed.

Lemma tree_call_spec op c E s : alive c E s → (c < d)%nat → (N + 6 * c < n)%nat →
  runs (tree_call op) s (λ r s', r = (tree_effect op E).1 ∧ alive (S c) (tree_effect op E).2 s').
Proof.
  intros Ha Hd Hn. pose proof Ha as (D & Hh & HD & Hl & HE). pose proof N_val as HN.
  destruct op as [k v | k | k reader | k | stop | | |]; cbn [tree_call tree_effect fst snd].
  - eapply runs_call; [eapply (tree_insert_spec n d s D E k v Hh); lia |]. intros r s' (-> & (D' & HD' & Hh') & Hl'). apply runs_ret. split; [done |].
    exists D'. split; [done |]. pose proof (put_length k v E). lia.
  - eapply runs_call; [eapply (tree_peek_spec s D E k Hh); lia |]. intros r s' [-> ->]. apply runs_ret. split; [done |]. by eapply alive_tidied; [apply tidied_refl |].
  - eapply runs_call; [eapply (tree_peek_with_spec s D E k reader Hh); lia |]. intros r s' [-> ->]. apply runs_ret. split; [done |]. by eapply alive_tidied; [apply tidied_refl |].
  - eapply runs_call; [eapply (tree_contains_spec s D E k Hh); lia |]. intros r s' [-> ->]. apply runs_ret. split; [done |]. by eapply alive_tidied; [apply tidied_refl |].
  - eapply runs_call; [eapply (tree_iter_spec n d (collect stop) [] s D E Hh); lia |]. intros r s' [-> Ht]. apply runs_ret. rewrite walk_collect.
    split; [done |]. by eapply alive_tidied.
  - eapply runs_call; [eapply (tree_len_spec s D E Hh); lia |]. intros r s' [-> Ht]. apply runs_ret. split; [done |]. by eapply alive_tidied.
  - eapply runs_call; [eapply (tree_is_empty_spec s D E Hh); lia |]. intros r s' [-> Ht]. apply runs_ret. split; [done |]. by eapply alive_tidied.
  - unfold tree_clear. eapply runs_call; [apply (runs_root_swap (λ _ s', root s' = ptr_null ∧ leaves s' = leaves s)); by apply runs_ret |].
    intros [] s' [Hr Hls]. apply runs_ret. split; [done |]. exists O. split; [by constructor |]. rewrite Hls. cbn. lia.
Qed.

Lemma tree_program_spec ops c E s : alive c E s → (c + length ops ≤ d)%nat → (N + 6 * (c + length ops) < n)%nat →
  runs (tree_program ops) s (λ rs s', rs = (tree_effects ops E).1 ∧ alive (c + length ops) (tree_effects ops E).2 s').
Proof.
  revert c E s. induction ops as [| op ops IH]; intros c E s Ha Hd Hn; cbn [tree_program tree_effects fst snd length] in *.
  - apply runs_ret. by rewrite Nat.add_0_r.
  - eapply runs_call; [apply (tree_call_spec op c E s Ha); lia |]. intros r s1 [-> Ha1].
    eapply runs_call; [apply (IH (S c) _ s1 Ha1); lia |]. intros rs s2 [-> Ha2]. apply runs_ret. split; [done |]. by rewrite Nat.add_succ_r.
Qed.

Lemma alive_new : alive 0 [] (tree_new (K := K) (V := V)).
Proof. exists O. split; [by constructor |]. cbn. lia. Qed.

(** Fuel for a program: a round per leaf, and a level per operation. *)
Definition fuel_for (ops : list tree_op) : Prop := (N + 6 * length ops < n)%nat ∧ (length ops ≤ d)%nat.

Lemma tree_program_done ops : fuel_for ops →
  ∃ s, run (tree_program ops) tree_new = Done (tree_effects ops []).1 s ∧ alive (length ops) (tree_effects ops []).2 s.
Proof.
  intros [Hn Hd]. pose proof (tree_program_spec ops 0 [] tree_new alive_new Hd Hn) as Hr. apply runs_Done in Hr as (rs & s & Hrun & -> & Ha).
  by exists s.
Qed.

(** The calls of [next] up to the first [None]: the items, and the iterator. *)
Definition drain_tree : prog (tree K V) (list (K * V) * option TreeScanner) :=
  loop n (λ s : option TreeScanner * list (K * V),
    let! r := iter_next n d s.1 in
    match r.1 with
    | None => Ret (Break (s.2, r.2))
    | Some e => Ret (Continue (r.2, s.2 ++ [e]))
    end) (None, []).

Lemma drain_tree_spec s D E : holds s D E → (D ≤ d)%nat → (length (leaves s) < n)%nat → (length E < n)%nat →
  runs drain_tree s (λ r s', r = (E, None) ∧ tidied s s').
Proof.
  intros Hh Hd Hn Hl. pose proof (holds_sorted _ _ _ Hh) as Hs. unfold drain_tree.
  eapply (runs_loop_down (λ m b s1, tidied s s1 ∧ ∃ E1 E2, m = length E2 ∧ E = E1 ++ E2 ∧ b.2 = E1 ∧
    match b.1 with None => E1 = [] | Some sc => ∃ e, reading s1 sc (Some e) E2 ∧ StronglySorted before (e :: E2) end) n (length E)); [| exact Hl |].
  { split; [apply tidied_refl |]. by exists [], E. }
  intros m [o l] s1 (Ht & E1 & E2 & -> & HE & Hl1 & Ho). cbn [fst snd] in *. subst l.
  assert (Hs2 : StronglySorted before E2) by (rewrite HE in Hs; by eapply StronglySorted_app_1_r).
  eapply (runs_call _ _ _ (λ r s2, read s2 E2 r ∧ tidied s1 s2)).
  - destruct o as [sc |]; [destruct Ho as (e & Hr & Hse); eapply iter_next_read; [exact Hr | exact Hse | by rewrite (tidied_leaves _ _ Ht)] |].
    subst E1. cbn [app] in HE. subst E2. eapply iter_next_start; [by eapply tidied_holds | done | by rewrite (tidied_leaves _ _ Ht)].
  - intros [x o2] s2 [Hr Ht2]. destruct E2 as [| e E2].
    + injection Hr as -> ->. apply runs_ret. rewrite HE, app_nil_r. split; [done | by eapply tidied_trans].
    + destruct Hr as (Hx & sc2 & Ho2 & Hr). cbn [fst snd] in *. subst x o2. apply runs_ret. exists (length E2). split; [cbn; lia |].
      split; [by eapply tidied_trans |]. exists (E1 ++ [e]), E2. split; [done |]. split; [by rewrite <-app_assoc |]. split; [done |]. by exists e.
Qed.

(** C6. A tree index is a sorted map.  Any program that creates a [TreeIndex] and inserts,
    peeks, iterates, counts and clears answers what the same program does on a list in
    ascending order, without a panic and without a loop that does not end: an insertion that
    finds its leaf, its node or the root full splits them, however deep the tree gets, and
    no entry is lost, doubled or out of order afterwards. *)
Theorem tree_index_refines_sorted_map ops (Hfuel : fuel_for ops) :
  ∃ s, run (tree_program ops) tree_new = Done (tree_effects ops []).1 s.
Proof. destruct (tree_program_done ops Hfuel) as (s & Hrun & _). by exists s. Qed.

(** C7. An iterator visits the entries in ascending order, each of them once.  After any
    program, a loop over [TreeIndex::iter] with any body runs it on the entries of the
    sorted map, from the first one on, until the body breaks or there are no more. *)
Theorem tree_iteration {A R : Type} ops (f : K * V → A → flow A R) (a : A) (Hfuel : fuel_for ops) :
  let E := (tree_effects ops []).2 in
  StronglySorted before E ∧
  ∃ s, run (tree_program ops) tree_new = Done (tree_effects ops []).1 s ∧
    ∃ s', run (tree_iter n d (λ e a, Ret (f e a)) a) s = Done (walk f E a) s'.
Proof.
  intros E. destruct (tree_program_done ops Hfuel) as (s & Hrun & D & Hh & HD & Hl & HE). destruct Hfuel as [Hn Hd]. split; [by eapply holds_sorted |].
  exists s. split; [done |]. pose proof (tree_iter_spec n d f a s D E Hh ltac:(lia) ltac:(lia) ltac:(unfold E; lia)) as Hr.
  apply runs_Done in Hr as (r & s' & Hr & -> & _). by exists s'.
Qed.

(** C33. The iterator of a tree index is not fused.  [Iter] implements [FusedIterator], which
    promises [None] for ever after the first one; but its first [None] leaves no scanner, and
    without a scanner [next] starts at the minimum key: after any program that left an entry,
    the calls of [next] up to the first [None] give all the entries, and the call after it
    gives the first one again. *)
Theorem tree_iter_not_fused ops (Hfuel : fuel_for ops) :
  let E := (tree_effects ops []).2 in
  ∃ s, run (tree_program ops) tree_new = Done (tree_effects ops []).1 s ∧
    ∃ it s1, run drain_tree s = Done (E, it) s1 ∧
      ∀ e E', E = e :: E' → ∃ it' s2, run (iter_next n d it) s1 = Done (Some e, it') s2.
Proof.
  intros E. destruct (tree_program_done ops Hfuel) as (s & Hrun & D & Hh & HD & Hl & HE). destruct Hfuel as [Hn Hd]. exists s. split; [done |].
  pose proof (drain_tree_spec s D E Hh ltac:(lia) ltac:(lia) ltac:(unfold E; lia)) as Hr. apply runs_Done in Hr as (r & s1 & Hr & -> & Ht). exists None, s1. split; [done |].
  intros e E' HE'. fold E in Hh. pose proof (iter_next_start n d s1 D E (tidied_holds _ _ _ _ Ht Hh) ltac:(lia) ltac:(rewrite (tidied_leaves _ _ Ht); lia)) as Hn1.
  apply runs_Done in Hn1 as ([x it'] & s2 & Hr2 & Hread & _). rewrite HE' in Hread. destruct Hread as [Hx _]. cbn in Hx. subst x. by exists it', s2.
Qed.

(** The depth of a tree index is what [depth] counts from the root down, and an
    insertion adds a level at most. *)
Theorem tree_depth_grows ops k v (Hfuel : fuel_for (ops ++ [TInsert k v])) :
  ∃ s s' D D', run (tree_program ops) tree_new = Done (tree_effects ops []).1 s ∧ run (tree_depth d) s = Done D s ∧
    run (tree_insert n d k v) s = Done (match get k (tree_effects ops []).2 with None => inl () | Some _ => inr (k, v) end) s' ∧
    run (tree_depth d) s' = Done D' s' ∧ D ≤ D' ≤ D + 1.
Proof.
  destruct Hfuel as [Hn Hd]. rewrite length_app in *. cbn [length] in *.
  destruct (tree_program_done ops ltac:(split; lia)) as (s & Hrun & D & Hh & HD & Hl & HE).
  pose proof (tree_insert_spec n d s D _ k v Hh ltac:(lia) ltac:(lia)) as Hi. apply runs_Done in Hi as (r & s' & Hi & -> & (D' & HD' & Hh') & _).
  pose proof (tree_depth_spec s D _ Hh ltac:(lia)) as Hd1. apply runs_Done in Hd1 as (? & ? & Hd1 & -> & ->).
  pose proof (tree_depth_spec s' D' _ Hh' ltac:(lia)) as Hd2. apply runs_Done in Hd2 as (? & ? & Hd2 & -> & ->).
  exists s, s', (Z.of_nat D), (Z.of_nat D'). split_and!; try done; lia.
Qed.
End Program.

(** ** The theorems at work *)

(** 600 keys in three interleaved orders, so that leaves and nodes are split at every place. *)
Definition tree_demo : list (tree_op (K := Z) (V := Z)) :=
  ((λ i, TInsert (Z.of_nat i * 37 mod 600) (Z.of_nat i)) <$> seq 0 600) ++
  [TInsert 5 0; TPeek 37; TPeekWith 74 (λ k v, k + v); TPeek 600; TContains 599; TContains (-1); TLen; TIsEmpty;
   TIter (λ k _, 3 <=? k); TClear; TIsEmpty; TIter (λ _ _, false); TInsert 5 0; TInsert 5 1; TPeek 5; TLen].

Lemma tree_demo_fuel : fuel_for (K := Z) (V := Z) 4000 700 tree_demo.
Proof. split; [apply Nat.ltb_lt | apply Nat.leb_le]; vm_compute; reflexivity. Qed.

Lemma tree_index_refines_sorted_map_witness :
  skipn 600 (tree_effects tree_demo []).1 =
    [XInsert (inr (5, 0)); XValue (Some 1); XValue (Some 76); XValue None; XBool true; XBool false; XNumber 600; XBool false;
     XEntries [(0, 0); (1, 373); (2, 146); (3, 519)]; XUnit; XBool true; XEntries []; XInsert (inl ()); XInsert (inr (5, 1)); XValue (Some 0); XNumber 1] ∧
  ∃ s, run (tree_program 4000 700 tree_demo) tree_new = Done (tree_effects tree_demo []).1 s.
Proof. split; [vm_compute; reflexivity |]. apply (tree_index_refines_sorted_map 4000 700 tree_demo tree_demo_fuel). Defined.

(** The body breaks at the first value above 500, and sums the keys before it. *)
Definition tree_demo_body (e : Z * Z) (sum : Z) : flow Z Z := if 500 <? e.2 then Break e.1 else Continue (sum + e.1).

Lemma tree_demo_inserts_fuel k v : fuel_for (K := Z) (V := Z) 4000 700 (firstn 600 tree_demo ++ [TInsert k v]).
Proof. split; [apply Nat.ltb_lt | apply Nat.leb_le]; vm_compute; reflexivity. Qed.

Lemma tree_demo_600_fuel : fuel_for (K := Z) (V := Z) 4000 700 (firstn 600 tree_demo).
Proof. split; [apply Nat.ltb_lt | apply Nat.leb_le]; vm_compute; reflexivity. Qed.

Lemma tree_iteration_witness :
  let E := (tree_effects (firstn 600 tree_demo) []).2 in
  walk tree_demo_body E 0 = Break 3 ∧ StronglySorted before E ∧
  ∃ s, run (tree_program 4000 700 (firstn 600 tree_demo)) tree_new = Done (tree_effects (firstn 600 tree_demo) []).1 s ∧
    ∃ s', run (tree_iter 4000 700 (λ e a, Ret (tree_demo_body e a)) 0) s = Done (walk tree_demo_body E 0) s'.
Proof. split; [vm_compute; reflexivity |]. apply (tree_iteration 4000 700 (firstn 600 tree_demo) tree_demo_body 0 tree_demo_600_fuel). Defined.

Lemma tree_iter_not_fused_witness :
  let E := (tree_effects (firstn 600 tree_demo) []).2 in
  firstn 1 E = [(0, 0)] ∧
  ∃ s, run (tree_program 4000 700 (firstn 600 tree_demo)) tree_new = Done (tree_effects (firstn 600 tree_demo) []).1 s ∧
    ∃ it s1, run (drain_tree 4000 700) s = Done (E, it) s1 ∧
      ∀ e E', E = e :: E' → ∃ it' s2, run (iter_next 4000 700 it) s1 = Done (Some e, it') s2.
Proof. split; [vm_compute; reflexivity |]. apply (tree_iter_not_fused 4000 700 (firstn 600 tree_demo) tree_demo_600_fuel). Defined.

Lemma tree_depth_grows_witness :
  ∃ s s' D D', run (tree_program 4000 700 (firstn 600 tree_demo)) tree_new = Done (tree_effects (firstn 600 tree_demo) []).1 s ∧ run (tree_depth 700) s = Done D s ∧
    run (tree_insert 4000 700 7 7) s = Done (match get 7 (tree_effects (firstn 600 tree_demo) []).2 with None => inl () | Some _ => inr (7, 7) end) s' ∧
    run (tree_depth 700) s' = Done D' s' ∧ D ≤ D' ≤ D + 1.
Proof. apply (tree_depth_grows 4000 700 (firstn 600 tree_demo) 7 7), tree_demo_inserts_fuel. Defined.
